(* ===== verification/_CoqProject ===== *)
-Q . S2P
Prelude.v
Isl.v
Seg.v
Words.v
SegLogMap.v
SegLogWrite.v
SegLogConc.v
SegLogRead.v
SegLogLoad.v
SegLogMerge.v
SegLogTrunc.v
SegLogDemo.v
Inip.v
Path.v
DataBlock.v
DataStore.v
SegLinear.v
SegLinearRw.v
SegLinearClone.v
SegLinearDemo.v
RsQuery.v
RsTable.v
RsSimple.v
RsDemo.v
Raid4.v
LunMap.v
LunStore.v
LunSeg.v
LunRw.v
LunTable.v
LunRun.v
LunRwSpec.v
LunSize.v
LunRepair.v
LunGrow.v
LunShrink.v
LunFunc.v
LunConc.v
LunDemo.v
ServiceManager.v
SegBase.v
OsGlob.v
OsPack.v
Erasure.v
ErasureCode.v
JeraseSpec.v
Jerase.v
JeraseRw.v
JeraseDemo.v
CacheRange.v
CachePPage.v
CachePPageOk.v
CachePPageRd.v
CachePPageRw.v
CacheDemo.v
CPage.v
CPageGet.v
CPageOk.v
CPageRun.v
CPageFlush.v
CPageMid.v
CPageRd.v
CPageWr.v
CPageRw.v
CPageStore.v
CPageDemo.v
OsTcache.v
OsTcacheOps.v
OsTcacheOk.v
OsTcacheGet.v
OsTcacheClean.v
OsTcacheRun.v
OsTcacheDemo.v
SegFile.v
SegFileOk.v
SegFileDemo.v
OsLock.v
OsLockOk.v
