(* ===== verification/Prelude.v ===== *)
(** * LStore LIO: a verification development

    LStore stores a file as an _exnode_: a set of _segments_, each of which maps a
    range of bytes to something that holds them.  The development models the
    segment drivers, the data blocks they keep, the service that finds resources
    for the blocks, and the tools around them.  Definitions are translations of
    the C functions; stateful code passes its state along, code that can crash
    returns an option, and what a function waits for (an operation, a queue of
    them) is its effect and its status.

    ** Parts

    - [Prelude], [Isl], [Seg], [Words], [Inip], [Path]: the shared vocabulary.  Request
      extents, statuses and the operation library ([Gop]); the interval lists
      all drivers keep their pieces in ([ISL], an interface with its laws, and a
      sorted list that meets it); the segment function table of ex3_abstract.h
      ([Segment], with [SegmentOk] for what the drivers rely on, and a segment in
      memory); machine integers; the text layer (escaping, INI groups,
      tokens); paths and their names.
    - [SegLogMap], [SegLogWrite], [SegLogRead], [SegLogLoad],
      [SegLogMerge], [SegLogTrunc], [SegLogConc], [SegLogDemo]: log-structured
      segments (segment_log.c).  A table segment and a data segment hold the
      writes over a base segment.  [slog_insert_range] and
      [slog_truncate_range] change the extent map; the write function is split
      at its locks ([seglog_write_reserve], [seglog_write_io],
      [seglog_write_commit]) so that concurrent writers can be interleaved
      ([slog_step]).
    - [DataBlock]: data blocks, their attributes and their text (data_block.c).
    - [DataStore]: the data service and the resource service as the drivers use
      them, an interface with a store in memory.
    - [SegLinear], [SegLinearRw], [SegLinearClone], [SegLinearDemo]: linear
      segments (segment_linear.c).
    - [LunMap], [LunStore], [LunSeg], [LunRw], [LunTable], [LunRun],
      [LunRwSpec], [LunSize], [LunRepair], [LunGrow], [LunShrink], [LunFunc],
      [LunConc], [LunDemo]: LUN segments (segment_lun.c), which stripe rows over
      devices.  [LunMap] is the striping; [LunRw] the request table, the
      blacklist, the operations and the remapping; [LunSize] the size check, the
      padding, the replacement of lost blocks, growing and shrinking; the
      other files are their correctness; [LunConc] the protocol between
      requests and remapping as a step relation.
    - [SegFile], [SegFileOk], [SegFileDemo]: segments on local
      files (segment_file.c).  [SegFile] has the files and transfers of the C
      library, which may be short or fail, and all operations; [SegFileOk] is
      about requests, sizes, repairs, clones and text.
      Seeking the stream is taken to move its descriptor, as POSIX has it.
    - [CacheRange], [CachePPage], [CachePPageOk], [CachePPageRd], [CachePPageRw],
      [CacheDemo]: the partial pages of cached segments (segment_cache.c), where
      writes smaller than a page are collected.  [CacheRange] is the merging of
      ranges, [CachePPage] flushing and the handling of a request,
      [CachePPageOk] and [CachePPageRd] the correctness of its steps,
      [CachePPageRw] of whole requests.  The segment below stands for the child
      with the page cache.
    - [CPage], [CPageGet], [CPageOk], [CPageRun], [CPageFlush], [CPageMid],
      [CPageRd], [CPageWr], [CPageRw], [CPageStore], [CPageDemo]: the
      pages a cached segment without partial pages keeps over its child
      (segment_cache.c), as one thread sees them.  [CPage] is the pages, what is
      loaded and written, and flushing; [CPageGet] how a request gets its
      pages, requests, dropping pages and resizing.  The replacement policy is a
      parameter ([PageAlloc]): it may drop pages that are not in use and write
      dirty ones, and makes room when it may block.  [CPageOk] has the
      contents, the invariant and what is expected of the policy; [CPageRun]
      and [CPageFlush] are runs of pages and flushes, [CPageMid] the states in
      the middle of a request, [CPageRd] and [CPageWr] one range, [CPageRw] the
      rounds over the ranges and [CPageStore] whole requests and
      sequences of them.  Where the source waits for another thread the result
      is [None], and the theorems show this does not happen.
    - [ServiceManager]: service managers (service_manager.c), with the section
      tables in a store of their own because they are shared.
    - [SegBase]: loading a segment by its type, and the copies between segments
      and files (segment_base.c).
    - [RsQuery], [RsTable], [RsSimple], [RsDemo]: resource queries
      (rs_query_base.c, a linked list with head and tail), the table of
      resources and the selection of resources for a request (rs_simple.c).
    - [OsGlob], [OsPack]: globs, path tables and their form on the wire
      (os_base.c).
    - [OsTcache], [OsTcacheOps], [OsTcacheOk], [OsTcacheGet],
      [OsTcacheClean], [OsTcacheRun], [OsTcacheDemo]: the object service that
      caches attributes over another one (os_timecache.c).  [OsTcache] is the
      tree of cached objects (an object is addressed by the names that lead to
      it, since it has one owner), the walk along a path and what is done with
      the entries; [OsTcacheOps] the operations of the service over the one it
      wraps ([ObjectService], with [ObjectServiceOk] for what is expected of it
      when it has no symbolic links); [OsTcacheOk] what a walk
      finds and that the cache holds nothing but what is stored;
      [OsTcacheGet] filling it; [OsTcacheClean] its cleaning; [OsTcacheRun] the
      clients of an object service (lio_core_os.c, [OsService]) over either
      service.
    - [OsLock], [OsLockOk]: the locks that opens of an object of the file object
      service take (os_file.c).  One object is modelled, its locks in a heap,
      because an open that waits keeps a pointer to the one it found; the steps
      are the sections between the waits ([lk_step]).
    - [Raid4]: parity (raid4.c).
    - [Erasure], [ErasureCode]: erasure plans (erasure_tools.c), the choice of
      their sizes and the matrices they form; [MdsPlan] is the contract of an
      erasure code, which mirroring meets and RAID4 as it is does not.
    - [JeraseSpec]: the check of a stripe and the search for its
      bad chunks (segment_jerasure.c), with the chunks in a store that the
      pointer arrays share.
    - [Jerase], [JeraseRw], [JeraseDemo]: erasure-coded segments
      (segment_jerasure.c): the quorum of the magics, reading, writing,
      resizing, over a child that may lose devices.

    ** What the theorems show

    - Contents.  A segment is seen as the byte it holds at each offset.  Writes
      overlay the request on it and reads deliver it, for the log
      ([seglog_write_correct], [seglog_read_correct]), linear
      ([seglin_write_correct], [seglin_read_correct]), LUN
      ([seglun_write_correct], [seglun_read_correct]) and file segments
      ([segfile_write_correct], [segfile_read_correct]); for LUN segments also when
      devices fail, while a file segment does not notice that a transfer failed
      ([segfile_write_error_unreported]).  [lun_row_decompose_bijective] is the striping.
    - Erasure codes.  What was written to an erasure-coded segment is read back
      while fewer than half of the devices of a stripe, and no more than its
      parity, are lost, an extent of whole stripes at a time from the start of the buffer
      ([segjerase_write_read], [segjerase_read_correct],
      [segjerase_write_correct]); the check and the search are characterised
      for any erasure code ([jerase_control_check_correct],
      [jerase_brute_recovery_correct]) and where they repair to the wrong stripe
      is shown by runs ([jerase_brute_recovery_limits]).  Automatic plans are
      well defined while no product leaves an [int] ([et_generate_plan_correct]).
    - Partial pages.  A cached segment with partial pages acts as the segment
      below with the pages laid over it: a write overlays the whole
      ([cache_rw_extent_write]), a read delivers it and changes nothing
      ([cache_rw_extent_read]); merging keeps the ranges of a page apart
      ([cache_ppages_range_merge_correct]); a store of one page never serves a
      write ([cache_ppages_handle_one_page]).
    - Pages.  Whatever the policy drops, a cached segment answers a sequence of
      requests as a plain store of bytes ([segcache_requests_refine]); a flush
      brings the bytes of its range to the child ([cache_flush_range_durable]),
      but cannot report that the child failed ([cache_flush_range_never_fails]);
      resizing keeps the bytes below the new size
      ([segcache_truncate_correct]).
    - Attributes.  Through the time cache a sequence of requests is answered as
      without it, whatever is cleaned in between
      ([ostc_requests_transparent]); cleaning drops exactly what has expired
      ([ostc_cleanup_correct]).
    - Sizes.  Resizing keeps the pieces tiling the segment and the bytes in place
      ([sl_truncate_correct], [slun_truncate_correct]); those of file segments
      are cut to 32 bits ([segfile_truncate_wraps]); a repair of a row ends
      and leaves good blocks alone ([slun_row_replace_fix_correct]).
    - Persistence.  Reloading a log gives the map it was written from
      ([slog_load_after_history]); data blocks, queries and path tables come back
      from their text or wire form.
    - Concurrency.  Any interleaving of log writers is a sequence of writes
      ([seglog_writers_linearizable]); capabilities are remapped with no request
      running and no wakeup of a waiting request is lost ([lun_remap_alone],
      [lun_waiting_enters]); queued reads can run in any order.  While an open of
      an object whose turn it is is not overtaken, an object has one writer or
      only readers ([fobj_lock_exclusive]) and, without opens for immediate
      writing, every open that waits gets its turn as the others are closed
      ([fobj_lock_progress]); what happens when it is overtaken is shown by
      runs.  Progress is [inevitably]: every course of the steps that serve the
      waiting ones leads there, none ends before and none goes on for ever.
    - Copies.  Segment to segment, file to segment and back
      ([segment_copy_correct]; [segment_put_correct] and [segment_get_correct] of
      [SegBase]).
    - Resources.  A request gets resources that satisfy the query as the service
      evaluates it and no resource twice ([rs_simple_request_formula],
      [rs_simple_request_unique]).
    - Tables.  Service managers act as one finite map, clones are independent;
      a plain glob and its regular expression match the same strings.
    - Where the code does not do what it means to, the theorem says what it
      does, or a hypothesis keeps out the case and a run shows it: a hole of one
      byte at the start of a read of a log ([seglog_read_unit_hole]), a write to
      a LUN that grows without excess ([ldemo_write_last_byte_lost]), a short
      copy ([segment_copy_short_runs_away]), a store of one partial page
      ([cache_ppages_handle_one_page]), a child of a cached segment that fails
      ([cache_flush_range_never_fails]), a packet size whose product wraps
      around ([demo_plan_wraps]), a disjunction in a query
      ([eval_query_formula]).  The comment of each theorem states its conditions.

    ** Bounds and fuel

    Offsets and sizes are unbounded integers, the [int] fields of a LUN among
    them; arithmetic at machine width is that of the words in the log table, of
    the counters of file segments and of the sizes of erasure plans.  The text of
    a data block is built in 2048 bytes: a longer one is [None], since what is
    left of it is not modelled.  Loops whose recursion is not
    structural have fuel: the number of bytes or stripes of the request for
    [chunk_pieces] and [dec_stripes], the number of new bytes for [lun_grow_rows],
    the 10000 rounds of the source for [rep_loop], one round more than there are
    devices for [check_loop] (each round moves the last control on), two tries
    for [cache_ppages_handle] (the second finds every page free), [rw_fuel]
    rounds for the ranges of a cached request, quadratic in its bytes (the
    bound is [loop_measure]), one round per byte for a flush, the
    characters of a path for a walk and for the layers that are fetched, the
    number of objects for a cleaning, the bytes of an extent and twice the
    failures to come for a file request ([srw_fuel]), and a
    parameter for the copy
    loops, where the theorems say how much is enough.  Running out of fuel is
    [None], never a result, and every theorem that needs fuel shows that the
    amount given is enough.

    ** Parameters

    The toolbox (interval skip lists, operations, transfer buffers, text
    escaping, zigzag integers), the data service and the resource service as a
    driver sees it, the C library's regular-expression compiler, the Jerasure
    library and the Adler-32 of zlib are not part
    of the sources or stand behind function tables; they are type classes, with
    the behaviour the code relies on as laws, and every law class has an instance
    that satisfies it.

    ** Not modelled

    Inspection, migration, cloning and text form of LUN segments; text form of
    linear and log segments; inspection, cloning and text form of erasure-coded
    segments, and the encoding of whole files; the
    replacement policies of the page cache and their prefetching, the waiting of
    threads for pages of a cached segment, its text form, cloning and
    statistics; the object service on files, apart from its locks, and the one over
    the network; iterators and
    bulk operations of the time cache; exnodes and views; the LIO core, apart
    from attributes by path, and the FUSE file system; the command-line tools.
    Time is modelled only where a decision depends on it (blacklisting, the
    expiry of attributes), logging not at all, and allocation never fails. *)
From Stdlib Require Export ZArith Lia.
From stdpp Require Export base decidable list numbers option sets sorting.
From Stdlib Require Import Sorting.Permutation Sorting.Sorted.

#[global] Set Default Goal Selector "!".
#[global] Open Scope Z_scope.

(** ** Vocabulary shared by all components *)

(** [ex_iovec_t]: one extent of a vector read or write (an [ex_off_t] offset
    and length). *)
Record ex_iovec := Ex_iovec { iov_offset : Z; iov_len : Z }.

(** A [tbuffer_t] seen as the byte it holds at each position. *)
Definition tbuffer := Z → Z.

(** [op_status_t] of the generic-operation layer: a state and an error code. *)
Inductive op_state := OP_STATE_SUCCESS | OP_STATE_FAILURE.
#[export] Instance op_state_eq_dec : EqDecision op_state.
Proof. solve_decision. Defined.

Record op_status := Op_status { op_st : op_state; error_code : Z }.
#[export] Instance op_status_eq_dec : EqDecision op_status.
Proof. solve_decision. Defined.

(** The generic-operation library: the two status constants it exports and
    the result of waiting for a queue of operations.  Their definition is
    outside the repository, so they are parameters; the code relies on the
    states, on a zero error code, and on a queue succeeding exactly when all
    its operations do. *)
Class Gop := {
  op_success_status : op_status;
  op_failure_status : op_status;
  opque_waitall : list op_status → op_state }.
Class GopOk `{Gop} : Prop := {
  op_success_state : op_st op_success_status = OP_STATE_SUCCESS;
  op_failure_state : op_st op_failure_status = OP_STATE_FAILURE;
  op_success_code : error_code op_success_status = 0;
  opque_waitall_success l :
    opque_waitall l = OP_STATE_SUCCESS ↔ ∀ st, st ∈ l → op_st st = OP_STATE_SUCCESS }.

(** The parameters can be instantiated. *)
Definition gop_std : Gop :=
  {| op_success_status := Op_status OP_STATE_SUCCESS 0;
     op_failure_status := Op_status OP_STATE_FAILURE 0;
     opque_waitall l :=
       if decide (Forall (λ st, op_st st = OP_STATE_SUCCESS) l)
       then OP_STATE_SUCCESS else OP_STATE_FAILURE |}.
Lemma gop_std_ok : @GopOk gop_std.
Proof.
  split; [done..|]. intros l. simpl. rewrite <- Forall_forall. by case_decide.
Qed.

(** ** Automation *)

Create HintDb lio.

(** Case analysis on the [decide]s and integer tests of a goal, then linear
    arithmetic. *)
Ltac zsplit := repeat (case_decide || case_bool_decide || case_match); try lia.

Ltac zsimp := simplify_eq/=; try lia.

(** Right-nested appends. *)
Ltac app_norm := repeat (simpl; rewrite <- ?app_assoc).

(** ** Lists *)
Section list_facts.
Context {A : Type}.
Implicit Types (l : list A) (x : A).

Lemma filter_nil_iff (P : A → Prop) `{∀ x, Decision (P x)} l :
  filter P l = [] ↔ ∀ x, x ∈ l → ¬ P x.
Proof.
  split.
  - intros Hf x Hx HP. assert (x ∈ filter P l) as Hin by (by apply list_elem_of_filter).
    rewrite Hf in Hin. by apply not_elem_of_nil in Hin.
  - intros Hno. induction l as [|y l IH]; [done|].
    rewrite filter_cons_False; [apply IH|apply Hno]; set_solver.
Qed.

Lemma filter_all (P : A → Prop) `{∀ x, Decision (P x)} l :
  (∀ x, x ∈ l → P x) → filter P l = l.
Proof.
  intros Hall. induction l as [|y l IH]; [done|].
  rewrite filter_cons_True; [|apply Hall; set_solver].
  f_equal. apply IH. set_solver.
Qed.

Lemma filter_hd (P : A → Prop) `{∀ x, Decision (P x)} l x k :
  filter P l = x :: k → x ∈ l ∧ P x.
Proof.
  intros Hf. assert (x ∈ filter P l) as Hin by (rewrite Hf; set_solver).
  apply list_elem_of_filter in Hin. tauto.
Qed.

Lemma StronglySorted_filter (R : A → A → Prop) (P : A → Prop) `{∀ x, Decision (P x)} l :
  StronglySorted R l → StronglySorted R (filter P l).
Proof.
  induction 1 as [|x l Hl IH Hx]; [constructor|]. rewrite filter_cons.
  case_decide; [|done]. constructor; [done|]. apply Forall_forall.
  rewrite Forall_forall in Hx. intros y [_ Hy]%list_elem_of_filter. auto.
Qed.

(** A filtered part of a list leaves a rest no element of which is selected. *)
Lemma filter_split (P : A → Prop) `{∀ x, Decision (P x)} l k :
  filter P l ≡ₚ k → ∃ rest, l ≡ₚ k ++ rest ∧ ∀ x, x ∈ rest → ¬ P x.
Proof.
  intros Hk. exists (filter (λ x, ¬ P x) l). split.
  - by rewrite <- Hk, filter_app_complement.
  - intros x Hx. by apply list_elem_of_filter in Hx as [? _].
Qed.
End list_facts.

(** Waiting for one or two operations. *)
Lemma waitall_one `{GopOk} st : opque_waitall [st] = OP_STATE_SUCCESS ↔ op_st st = OP_STATE_SUCCESS.
Proof. rewrite opque_waitall_success. setoid_rewrite list_elem_of_singleton. naive_solver. Qed.
Lemma waitall_pair `{GopOk} st1 st2 :
  opque_waitall [st1; st2] = OP_STATE_SUCCESS ↔ op_st st1 = OP_STATE_SUCCESS ∧ op_st st2 = OP_STATE_SUCCESS.
Proof. rewrite opque_waitall_success. setoid_rewrite elem_of_cons. setoid_rewrite list_elem_of_singleton. naive_solver. Qed.

(** The value of a computation that is known to succeed. *)
Lemma option_pair_default {A B} (o : option (A * B)) d b :
  snd <$> o = Some b → o = Some (default d (fst <$> o), b).
Proof. destruct o as [[x y]|]; simpl; [|done]. by intros [= ->]. Qed.

(** Pairwise relations on lists, up to permutation. *)
Section pairwise.
Context {A : Type} (R : A → A → Prop).

Lemma pairwise_perm (Rsym : ∀ x y, R x y → R y x) (l k : list A) :
  l ≡ₚ k → ForallOrdPairs R l → ForallOrdPairs R k.
Proof.
  induction 1 as [|x l k Hp IH|x y l|l k k' _ IH1 _ IH2]; intros Hl.
  - constructor.
  - inversion Hl; subst. constructor; [|by apply IH]. by rewrite <- Hp.
  - inversion Hl as [|? ? Hy Hl']; subst. inversion Hl' as [|? ? Hx Hl'']; subst.
    inversion Hy; subst. repeat constructor; auto.
  - auto.
Qed.

Lemma pairwise_app (l k : list A) :
  ForallOrdPairs R (l ++ k) ↔
  ForallOrdPairs R l ∧ ForallOrdPairs R k ∧ (∀ x y, x ∈ l → y ∈ k → R x y).
Proof.
  induction l as [|a l IH]; simpl.
  - split; [|by intros (_ & ? & _)]. intros ?; repeat split; [constructor|done|]. by intros ? ? ?%not_elem_of_nil.
  - split.
    + inversion 1 as [|? ? Ha Hl]; subst. apply IH in Hl as (? & ? & ?).
      apply Forall_app in Ha as [? Hak]. rewrite Forall_forall in Hak.
      repeat split; [by constructor|done|]. intros x y [->|?]%elem_of_cons ?; auto.
    + intros (Hl & Hk & Hlk). inversion Hl as [|? ? Ha Hl']; subst. constructor.
      * apply Forall_app; split; [done|]. apply Forall_forall. intros; apply Hlk; [by left|done].
      * apply IH. repeat split; [done..|]. intros; apply Hlk; [by right|done].
Qed.
End pairwise.

(** ** Runs that cannot avoid a state *)

(** Whatever steps are taken, [P] is reached: it holds, or a step is possible and
    every step leads to where it is reached. *)
Inductive inevitably {A} (R : A → A → Prop) (P : A → Prop) (x : A) : Prop :=
| inevitably_now : P x → inevitably R P x
| inevitably_next : (∃ y, R x y) → (∀ y, R x y → inevitably R P y) → inevitably R P x.

Lemma inevitably_measure {A} (R : A → A → Prop) (P I : A → Prop) (f : A → nat * nat) x :
  I x →
  (∀ y, I y → P y ∨ (∃ z, R y z) ∧ ∀ z, R y z → I z ∧
     ((f z).1 < (f y).1 ∨ (f z).1 = (f y).1 ∧ (f z).2 < (f y).2)%nat) →
  inevitably R P x.
Proof.
  intros Hx Hstep. remember (f x).1 as a eqn:Ha. remember (f x).2 as b eqn:Hb. revert b x Ha Hb Hx.
  induction (Nat.lt_wf_0 a) as [a _ IHa]. intros b. induction (Nat.lt_wf_0 b) as [b _ IHb]. intros x -> -> Hx.
  destruct (Hstep x Hx) as [HP|[Hs Hall]]; [by left|]. right; [done|]. intros y Hy.
  destruct (Hall y Hy) as [Hi [Hl|[He Hl]]]; [by eapply IHa|by eapply IHb; [exact Hl| | |]].
Qed.
