(* ===== verification/Isl.v ===== *)
(** * Interval lists

    The segment drivers keep their extents in an interval skip list of the
    toolbox library.  The library is not part of the repository: it is an
    interface here (class [ISL]), with the behaviour the drivers rely on
    (class [ISLOk]) and a list implementation that discharges it. *)
From Stdlib Require Import Sorting.Permutation Sorting.Sorted.
From S2P Require Import Prelude.

(** ** Data *)

(** What is stored carries its own inclusive bounds: the drivers always pass
    the bounds of the stored object as the key. *)
Class Ranged (D : Type) := { r_lo : D → Z; r_hi : D → Z }.

Section ranges.
Context `{Ranged D}.

Definition valid (d : D) : Prop := r_lo d ≤ r_hi d.
Definition covers (off : Z) (d : D) : Prop := r_lo d ≤ off ≤ r_hi d.
Definition overlaps (lo hi : Z) (d : D) : Prop := r_lo d ≤ hi ∧ lo ≤ r_hi d.
Definition apart (a b : D) : Prop := r_hi a < r_lo b ∨ r_hi b < r_lo a.
Definition before (a b : D) : Prop := r_hi a < r_lo b.

(** A well-formed set of extents: non-empty and pairwise disjoint. *)
Definition ranges_ok (l : list D) : Prop :=
  Forall valid l ∧ ForallOrdPairs apart l.

#[export] Instance overlaps_dec lo hi d : Decision (overlaps lo hi d).
Proof. unfold overlaps; apply _. Defined.
#[export] Instance covers_dec off d : Decision (covers off d).
Proof. unfold covers; apply _. Defined.
End ranges.

(** The operations of the interval skip list.  [isl_search] is the whole
    sequence an iterator made by [iter_search_interval_skiplist] returns; a
    missing bound is the [NULL] of the code. *)
Class ISL (D : Type) := {
  isl : Type;
  isl_create : isl;
  isl_insert : Z → Z → D → isl → isl;
  isl_remove : Z → Z → D → isl → isl;
  isl_search : option Z → option Z → isl → list D;
  isl_count : isl → nat }.

Definition isl_all `{ISL D} (m : isl) : list D := isl_search None None m.

Class ISLOk (D : Type) `{!Ranged D, !ISL D} : Prop := {
  isl_all_create : isl_all isl_create = [];
  isl_all_insert d m :
    valid d → isl_all (isl_insert (r_lo d) (r_hi d) d m) ≡ₚ d :: isl_all m;
  isl_all_remove d m :
    d ∈ isl_all m → isl_all m ≡ₚ d :: isl_all (isl_remove (r_lo d) (r_hi d) d m);
  isl_all_sorted m : ranges_ok (isl_all m) → StronglySorted before (isl_all m);
  isl_search_overlaps lo hi m :
    lo ≤ hi → ranges_ok (isl_all m) →
    isl_search (Some lo) (Some hi) m = filter (overlaps lo hi) (isl_all m);
  isl_count_all m : isl_count m = length (isl_all m) }.

(** ** A list implementation *)
Section list_isl.
Context `{Ranged D, EqDecision D}.

Fixpoint lo_insert (d : D) (l : list D) : list D :=
  match l with
  | [] => [d]
  | x :: l' => if decide (r_lo d ≤ r_lo x) then d :: l else x :: lo_insert d l'
  end.
Definition lo_sort (l : list D) : list D := foldr lo_insert [] l.

Fixpoint remove_first (lo hi : Z) (d : D) (l : list D) : list D :=
  match l with
  | [] => []
  | x :: l' => if decide (r_lo x = lo ∧ r_hi x = hi ∧ x = d) then l'
               else x :: remove_first lo hi d l'
  end.

Definition list_search (lo hi : option Z) (l : list D) : list D :=
  let above := match lo with
               | Some w => filter (λ d, w ≤ r_hi d) (lo_sort l)
               | None => lo_sort l
               end in
  match hi with Some h => filter (λ d, r_lo d ≤ h) above | None => above end.

Definition list_isl : ISL D :=
  {| isl := list D; isl_create := []; isl_insert _ _ d l := d :: l;
     isl_remove := remove_first; isl_search := list_search; isl_count := length |}.

Lemma lo_insert_perm d l : lo_insert d l ≡ₚ d :: l.
Proof.
  induction l as [|x l IH]; simpl; [done|]. case_decide; [done|].
  rewrite IH. apply Permutation_swap.
Qed.

Lemma lo_sort_perm l : lo_sort l ≡ₚ l.
Proof. induction l as [|x l IH]; simpl; [done|]. by rewrite lo_insert_perm, IH. Qed.

Lemma lo_insert_sorted d l :
  StronglySorted (λ a b, r_lo a ≤ r_lo b) l →
  StronglySorted (λ a b, r_lo a ≤ r_lo b) (lo_insert d l).
Proof.
  induction 1 as [|x l Hl IH Hx]; simpl; [by repeat constructor|].
  rewrite Forall_forall in Hx.
  case_decide; constructor; [by constructor; [|apply Forall_forall]| |done|].
  - apply Forall_forall. intros y [->|Hy]%elem_of_cons; [done|]. specialize (Hx y Hy). lia.
  - apply Forall_forall. intros y Hy. rewrite lo_insert_perm in Hy.
    apply elem_of_cons in Hy as [->|Hy]; [lia|auto].
Qed.

Lemma lo_sort_sorted l : StronglySorted (λ a b, r_lo a ≤ r_lo b) (lo_sort l).
Proof. induction l; simpl; [constructor|]. by apply lo_insert_sorted. Qed.

Lemma remove_first_perm d l :
  d ∈ l → l ≡ₚ d :: remove_first (r_lo d) (r_hi d) d l.
Proof.
  induction l as [|x l IH]; intros Hd; [by apply not_elem_of_nil in Hd|]. simpl.
  case_decide as Hx; [by destruct Hx as (_ & _ & ->)|].
  apply elem_of_cons in Hd as [->|Hd]; [tauto|].
  rewrite (IH Hd) at 1. apply Permutation_swap.
Qed.

Lemma sorted_before l :
  ranges_ok l → StronglySorted (λ a b, r_lo a ≤ r_lo b) l → StronglySorted before l.
Proof.
  intros [Hv Hd] Hs. induction Hs as [|x l Hs IH Hx]; [constructor|].
  inversion Hv as [|? ? Hvx Hvl]; subst. inversion Hd as [|? ? Hax Hdl]; subst.
  constructor; [by apply IH|]. apply Forall_forall. intros y Hy.
  rewrite Forall_forall in Hx, Hvl, Hax.
  specialize (Hx y Hy); specialize (Hax y Hy); specialize (Hvl y Hy).
  unfold before, apart, valid in *. lia.
Qed.

Lemma list_isl_ok : @ISLOk D _ list_isl.
Proof.
  split; unfold isl_all; simpl.
  - done.
  - intros d m _. by rewrite lo_insert_perm, lo_sort_perm.
  - intros d m. rewrite !lo_sort_perm. apply remove_first_perm.
  - intros m. intros. apply sorted_before; [done|apply lo_sort_sorted].
  - intros lo hi m _ _. by rewrite list_filter_filter.
  - intros m. by rewrite lo_sort_perm.
Qed.
End list_isl.

(** ** Looking up the extent that covers an offset *)
Section cover.
Context `{Ranged D}.
Implicit Types (l k : list D) (d : D).

Definition find_cover (off : Z) (l : list D) : option D :=
  head (filter (covers off) l).

Lemma apart_sym (a b : D) : apart a b → apart b a.
Proof. unfold apart. tauto. Qed.

Lemma ranges_ok_perm l k : l ≡ₚ k → ranges_ok l → ranges_ok k.
Proof.
  intros Hp [Hv Hd]. split; [by rewrite <- Hp|].
  by apply (pairwise_perm _ apart_sym l).
Qed.

Lemma ranges_ok_cons d l :
  ranges_ok (d :: l) ↔ valid d ∧ (∀ x, x ∈ l → apart d x) ∧ ranges_ok l.
Proof.
  unfold ranges_ok. rewrite Forall_cons. split.
  - intros [[? ?] Hd]. inversion Hd as [|? ? Hdl ?]; subst.
    rewrite Forall_forall in Hdl. tauto.
  - intros (? & Hdl & ? & ?). repeat split; [done..|]. constructor; [|done].
    by apply Forall_forall.
Qed.

Lemma ranges_ok_valid l d : ranges_ok l → d ∈ l → valid d.
Proof. intros [Hv _] Hd. rewrite Forall_forall in Hv. auto. Qed.

Lemma ranges_ok_app l k :
  ranges_ok (l ++ k) ↔
  ranges_ok l ∧ ranges_ok k ∧ (∀ x y, x ∈ l → y ∈ k → apart x y).
Proof. unfold ranges_ok. rewrite Forall_app, pairwise_app. tauto. Qed.

Lemma ranges_ok_nil : ranges_ok [].
Proof. split; constructor. Qed.

(** Extents may shrink in place. *)
Lemma ranges_ok_shrink d d' l :
  valid d' → r_lo d ≤ r_lo d' → r_hi d' ≤ r_hi d → ranges_ok (d :: l) → ranges_ok (d' :: l).
Proof.
  intros Hv ? ? (_ & Ha & Hl)%ranges_ok_cons. apply ranges_ok_cons.
  split_and!; [done| |done]. intros x Hx. specialize (Ha x Hx). unfold apart in *. lia.
Qed.

Lemma ranges_ok_submseteq l k : l ⊆+ k → ranges_ok k → ranges_ok l.
Proof.
  intros (l' & Hp)%submseteq_Permutation Hk. apply (ranges_ok_perm _ _ Hp) in Hk.
  by apply ranges_ok_app in Hk as (? & _ & _).
Qed.

Lemma ranges_ok_filter P `{∀ d, Decision (P d)} l :
  ranges_ok l → ranges_ok (filter P l).
Proof.
  induction l as [|d l IH]; [done|]. intros (Hv & Hd & Hl)%ranges_ok_cons.
  rewrite filter_cons. case_decide; [|auto]. apply ranges_ok_cons.
  repeat split; [done| |by apply IH..]. intros x [_ Hx]%list_elem_of_filter. auto.
Qed.

Lemma ranges_ok_inj l a b off :
  ranges_ok l → a ∈ l → b ∈ l → covers off a → covers off b → a = b.
Proof.
  intros Hok Ha Hb Ca Cb. induction l as [|d l IH]; [by apply not_elem_of_nil in Ha|].
  apply ranges_ok_cons in Hok as (Hv & Hd & Hl).
  apply elem_of_cons in Ha as [->|Ha], Hb as [->|Hb]; [done| | |by apply IH].
  - specialize (Hd b Hb). unfold apart, covers in *. lia.
  - specialize (Hd a Ha). unfold apart, covers in *. lia.
Qed.

Lemma find_cover_in off l d : find_cover off l = Some d → d ∈ l ∧ covers off d.
Proof.
  unfold find_cover. destruct (filter _ _) as [|x k] eqn:Hf; simpl; [done|].
  intros [= ->]. by apply filter_hd in Hf.
Qed.

Lemma find_cover_Some off l d :
  ranges_ok l → d ∈ l → covers off d → find_cover off l = Some d.
Proof.
  intros Hok Hd Hc. destruct (find_cover off l) as [x|] eqn:Hf.
  - apply find_cover_in in Hf as [? ?]. f_equal. by eapply ranges_ok_inj.
  - unfold find_cover in Hf. destruct (filter _ _) eqn:Hn; [|done].
    by apply (proj1 (filter_nil_iff _ _) Hn d) in Hd.
Qed.

Lemma find_cover_None off l : find_cover off l = None ↔ ∀ d, d ∈ l → ¬ covers off d.
Proof.
  rewrite <- (filter_nil_iff (covers off)). unfold find_cover.
  destruct (filter (covers off) l); simpl; split; congruence.
Qed.

Lemma find_cover_perm off l k :
  l ≡ₚ k → ranges_ok l → find_cover off l = find_cover off k.
Proof.
  intros Hp Hok. pose proof (ranges_ok_perm _ _ Hp Hok) as Hok'.
  destruct (find_cover off k) as [d|] eqn:Hf.
  - apply find_cover_in in Hf as [Hd ?]. rewrite <- Hp in Hd. by apply find_cover_Some.
  - rewrite find_cover_None in *. intros d Hd. rewrite Hp in Hd. auto.
Qed.
End cover.

(** ** Consequences of the interface *)
Section isl_facts.
Context `{ISLOk D}.
Implicit Types (m : isl) (d : D).

Lemma isl_ok_create : ranges_ok (isl_all isl_create).
Proof. rewrite isl_all_create. apply ranges_ok_nil. Qed.

Lemma isl_ok_remove m d :
  ranges_ok (isl_all m) → d ∈ isl_all m →
  ranges_ok (isl_all (isl_remove (r_lo d) (r_hi d) d m)).
Proof.
  intros Hok Hd. apply (ranges_ok_perm _ _ (isl_all_remove d m Hd)) in Hok.
  by apply ranges_ok_cons in Hok as (_ & _ & ?).
Qed.

Lemma isl_ok_insert m d :
  ranges_ok (isl_all m) → valid d → (∀ x, x ∈ isl_all m → apart d x) →
  ranges_ok (isl_all (isl_insert (r_lo d) (r_hi d) d m)).
Proof.
  intros Hok Hv Ha. apply (ranges_ok_perm (d :: isl_all m)).
  - by rewrite isl_all_insert.
  - by apply ranges_ok_cons.
Qed.

Lemma isl_search_sorted m lo hi :
  lo ≤ hi → ranges_ok (isl_all m) →
  StronglySorted before (isl_search (Some lo) (Some hi) m).
Proof.
  intros ? Hok. rewrite isl_search_overlaps by done.
  by apply StronglySorted_filter, isl_all_sorted.
Qed.

(** Two sorted views of the same extents are the same list. *)
Lemma before_unique (l k : list D) :
  ranges_ok l → StronglySorted before l → StronglySorted before k → l ≡ₚ k → l = k.
Proof.
  intros Hok Hl Hk Hp. apply (StronglySorted_unique_strong before); [|done..].
  intros x y Hx Hy Hxy Hyx. rewrite <- Hp in Hy.
  pose proof (ranges_ok_valid _ _ Hok Hx). pose proof (ranges_ok_valid _ _ Hok Hy).
  unfold before, valid in *. lia.
Qed.

Lemma isl_search_elem m lo hi d :
  lo ≤ hi → ranges_ok (isl_all m) →
  d ∈ isl_search (Some lo) (Some hi) m ↔ d ∈ isl_all m ∧ overlaps lo hi d.
Proof.
  intros. rewrite isl_search_overlaps by done. rewrite list_elem_of_filter. tauto.
Qed.

Lemma isl_search_nil m lo hi :
  lo ≤ hi → ranges_ok (isl_all m) →
  isl_search (Some lo) (Some hi) m = [] ↔ ∀ d, d ∈ isl_all m → ¬ overlaps lo hi d.
Proof. intros. rewrite isl_search_overlaps by done. apply filter_nil_iff. Qed.
End isl_facts.

(** ** Tilings *)
Section tiles.
Context `{Ranged D}.
Implicit Types (l k : list D) (d : D).

(** The extents [l] partition the offsets from [lo] up to, but not including,
    [hi]. *)
Definition tiles (lo hi : Z) l : Prop :=
  ranges_ok l ∧ ∀ off, (∃ d, d ∈ l ∧ covers off d) ↔ lo ≤ off < hi.

#[export] Instance ranges_ok_proper : Proper ((≡ₚ) ==> iff) (ranges_ok (D:=D)).
Proof. intros l k Hp. split; by apply ranges_ok_perm. Qed.

#[export] Instance tiles_perm : Proper ((=) ==> (=) ==> (≡ₚ) ==> iff) tiles.
Proof.
  intros lo ? <- hi ? <- l k Hp. unfold tiles. by setoid_rewrite Hp.
Qed.

Lemma tiles_nil lo : tiles lo lo [].
Proof.
  split; [apply ranges_ok_nil|]. intros off. split; [by intros (? & ?%not_elem_of_nil & _)|lia].
Qed.

Lemma tiles_bounds lo hi l d : tiles lo hi l → d ∈ l → lo ≤ r_lo d ≤ r_hi d ∧ r_hi d < hi.
Proof.
  intros [Hok Hc] Hd. pose proof (ranges_ok_valid _ _ Hok Hd) as Hv. unfold valid in Hv.
  destruct (proj1 (Hc (r_lo d))); [exists d; unfold covers; split; [done|lia]|].
  destruct (proj1 (Hc (r_hi d))); [exists d; unfold covers; split; [done|lia]|]. lia.
Qed.

Lemma tiles_one d lo hi : lo < hi → r_lo d = lo → r_hi d = hi - 1 → tiles lo hi [d].
Proof.
  intros Hlt Hlo Hhi. split.
  - apply ranges_ok_cons. unfold valid. split_and!; [lia|by intros ? ?%not_elem_of_nil|apply ranges_ok_nil].
  - intros off. unfold covers. split.
    + intros (x & ->%list_elem_of_singleton & ?). lia.
    + intros ?. exists d. rewrite list_elem_of_singleton. split; [done|lia].
Qed.

Lemma tiles_app a b c l k : a ≤ b ≤ c → tiles a b l → tiles b c k → tiles a c (l ++ k).
Proof.
  intros Hle Hl Hk. pose proof Hl as [Hlok Hlc]. pose proof Hk as [Hkok Hkc]. split.
  - apply ranges_ok_app. split_and!; [done..|]. intros x y Hx Hy.
    pose proof (tiles_bounds _ _ _ _ Hl Hx). pose proof (tiles_bounds _ _ _ _ Hk Hy).
    unfold apart. lia.
  - intros off. transitivity (a ≤ off < b ∨ b ≤ off < c); [|lia].
    rewrite <- Hlc, <- Hkc. setoid_rewrite elem_of_app. split.
    + intros (d & [?|?] & ?); [left|right]; by exists d.
    + intros [(d & ? & ?)|(d & ? & ?)]; exists d; auto.
Qed.

(** The last extent of a tiling may be stretched or cut. *)
Lemma tiles_last a b c d d' l :
  tiles a b (d :: l) → r_hi d = b - 1 → r_lo d' = r_lo d → r_hi d' = c - 1 → r_lo d < c →
  tiles a c (d' :: l).
Proof.
  intros Ht Hd Hlo Hhi Hc. pose proof (tiles_bounds _ _ _ d Ht ltac:(by left)) as Hbd.
  assert (Hrest : ∀ x, x ∈ l → r_hi x < r_lo d).
  { intros x Hx. pose proof (tiles_bounds _ _ _ x Ht ltac:(by right)).
    destruct Ht as [(_ & Ha & _)%ranges_ok_cons _]. specialize (Ha x Hx). unfold apart in Ha. lia. }
  destruct Ht as [(Hv & Ha & Hok)%ranges_ok_cons Hcov]. split.
  - apply ranges_ok_cons. split_and!; [unfold valid; lia| |done].
    intros x Hx. specialize (Hrest x Hx). unfold apart. lia.
  - intros off. specialize (Hcov off). split.
    + intros (x & [->|Hx]%elem_of_cons & Hx'); unfold covers in *; [lia|].
      specialize (Hrest x Hx). destruct (proj1 Hcov); [exists x; split; [by right|done]|]. lia.
    + intros Hoff. destruct (decide (r_lo d ≤ off)).
      { exists d'. unfold covers. split; [by left|lia]. }
      destruct (proj2 Hcov) as (x & [->|Hx]%elem_of_cons & Hcx); [lia|unfold covers in Hcx; lia|].
      exists x. split; [by right|done].
Qed.

(** Cutting a tiling inside one of its extents. *)
Lemma tiles_cut a b n d hits rest :
  tiles a b (d :: hits ++ rest) → covers n d → (∀ x, x ∈ hits → r_hi d < r_lo x) →
  (∀ x, x ∈ rest → r_hi x < n) → tiles a (r_lo d) rest.
Proof.
  intros Ht Hn Hhits Hrest.
  pose proof (tiles_bounds _ _ _ d Ht ltac:(by left)) as Hbd. destruct Ht as [Hok Hcov].
  apply ranges_ok_cons in Hok as (Hv & Ha & (_ & Hok & _)%ranges_ok_app).
  split; [done|]. intros off. specialize (Hcov off). unfold covers, valid, apart in *. split.
  - intros (x & Hx & Hcx). specialize (Ha x ltac:(apply elem_of_app; by right)).
    specialize (Hrest x Hx).
    assert (a ≤ off < b) by (apply Hcov; exists x; split; [right; apply elem_of_app; by right|done]).
    lia.
  - intros Hoff. destruct (proj2 Hcov) as (x & Hx & Hcx).
    + lia.
    + apply elem_of_cons in Hx as [->|[Hx|Hx]%elem_of_app]; [lia|specialize (Hhits x Hx); lia|eauto].
Qed.

Lemma tiles_find lo hi l off : tiles lo hi l → lo ≤ off < hi → ∃ d, find_cover off l = Some d ∧ d ∈ l ∧ covers off d.
Proof.
  intros [Hok Hc] Hoff. apply Hc in Hoff as (d & Hd & Hcd).
  exists d. split_and!; [by apply find_cover_Some|done|done].
Qed.
End tiles.

(** The first extent of a search in a tiling covers the lower bound. *)
Lemma tiles_search `{ISLOk D} (m : isl) a b lo hi :
  tiles a b (isl_all m) → a ≤ lo < b → lo ≤ hi →
  ∃ d hits rest, isl_search (Some lo) (Some hi) m = d :: hits ∧ covers lo d ∧
    isl_all m ≡ₚ d :: hits ++ rest ∧ (∀ x, x ∈ hits → r_hi d < r_lo x ∧ overlaps lo hi x) ∧
    ∀ x, x ∈ rest → ¬ overlaps lo hi x.
Proof.
  intros Ht Hlo Hhi. pose proof Ht as [Hok Hc].
  pose proof (isl_search_sorted m lo hi Hhi Hok) as Hs.
  pose proof (isl_search_elem m lo hi) as Hel.
  pose proof (isl_search_overlaps lo hi m Hhi Hok) as Hf.
  destruct (filter_split (overlaps lo hi) (isl_all m) (isl_search (Some lo) (Some hi) m)) as (rest & Hp & Hr).
  { by rewrite Hf. }
  destruct (proj2 (Hc lo) Hlo) as (e & He & Hce).
  assert (e ∈ isl_search (Some lo) (Some hi) m) as Hein.
  { apply Hel; [done..|]. split; [done|]. unfold overlaps, covers in *. lia. }
  destruct (isl_search (Some lo) (Some hi) m) as [|d hits]; [by apply not_elem_of_nil in Hein|].
  apply StronglySorted_inv in Hs as [_ Hd]. rewrite Forall_forall in Hd.
  assert (∀ x, x ∈ d :: hits → x ∈ isl_all m ∧ overlaps lo hi x) as Hel' by (intros x; apply Hel; done).
  exists d, hits, rest. split_and!; [done| |done| |done].
  - apply elem_of_cons in Hein as [->|Hein]; [done|].
    destruct (Hel' d ltac:(by left)) as [Hdm Hov].
    specialize (Hd e Hein). unfold before, covers, overlaps in *. lia.
  - intros x Hx. split; [apply (Hd x Hx)|]. by apply Hel'; right.
Qed.

(** ** Extents replaced by extents of the same range *)
Section same_range.
Context `{Ranged D}.
Implicit Types (l k : list D) (d : D).

Definition same_range d d' : Prop := r_lo d = r_lo d' ∧ r_hi d = r_hi d'.

Lemma ranges_ok_same l k : Forall2 same_range l k → ranges_ok l → ranges_ok k.
Proof.
  induction 1 as [|d d' l k [Hlo Hhi] Hlk IH]; [done|]. intros (Hv & Ha & Hl)%ranges_ok_cons.
  apply ranges_ok_cons. unfold valid, apart in *. split_and!; [lia| |by apply IH..].
  intros x Hx. apply list_elem_of_lookup in Hx as [i Hi].
  destruct (Forall2_lookup_r _ _ _ _ _ Hlk Hi) as (y & Hy & Hylo & Hyhi).
  specialize (Ha y ltac:(by eapply list_elem_of_lookup_2)). lia.
Qed.

Lemma Forall2_elem_r {A B} (P : A → B → Prop) (l : list A) (k : list B) y :
  Forall2 P l k → y ∈ k → ∃ x, x ∈ l ∧ P x y.
Proof.
  intros Hlk [i Hi]%list_elem_of_lookup. destruct (Forall2_lookup_r _ _ _ _ _ Hlk Hi) as (x & Hx & ?).
  exists x. split; [by eapply list_elem_of_lookup_2|done].
Qed.
Lemma Forall2_elem_l {A B} (P : A → B → Prop) (l : list A) (k : list B) x :
  Forall2 P l k → x ∈ l → ∃ y, y ∈ k ∧ P x y.
Proof.
  intros Hlk [i Hi]%list_elem_of_lookup. destruct (Forall2_lookup_l _ _ _ _ _ Hlk Hi) as (y & Hy & ?).
  exists y. split; [by eapply list_elem_of_lookup_2|done].
Qed.

Lemma tiles_same a b l k : Forall2 same_range l k → tiles a b l → tiles a b k.
Proof.
  intros Hlk [Hok Hc]. split; [by apply (ranges_ok_same l)|]. intros off. rewrite <- Hc. unfold covers. split.
  - intros (d' & Hd' & Hcov). destruct (Forall2_elem_r _ _ _ _ Hlk Hd') as (d & Hd & Hlo & Hhi). exists d. split; [done|lia].
  - intros (d & Hd & Hcov). destruct (Forall2_elem_l _ _ _ _ Hlk Hd) as (d' & Hd' & Hlo & Hhi). exists d'. split; [done|lia].
Qed.
End same_range.

(** ** Searching a tiling *)
Section hits.
Context `{ISLOk D}.

(** The extents of a search, each adjacent to the one before. *)
Fixpoint hits_from (lo cur hi : Z) (bs : list D) : Prop :=
  match bs with
  | [] => hi < cur
  | b :: bs => cur ≤ hi ∧ covers cur b ∧ (lo < cur → r_lo b = cur) ∧
               hits_from lo (r_hi b + 1) hi bs
  end.

Lemma hits_from_sorted lo hi bs : ∀ cur,
  StronglySorted before bs → lo ≤ cur →
  (∀ off, cur ≤ off ≤ hi → ∃ b, b ∈ bs ∧ covers off b) →
  (∀ b, b ∈ bs → valid b ∧ overlaps lo hi b ∧ cur ≤ r_hi b) →
  cur = lo ∧ lo ≤ hi ∨ (lo < cur ∧ ∀ b, b ∈ bs → cur ≤ r_lo b) →
  hits_from lo cur hi bs.
Proof.
  induction bs as [|b bs IH]; intros cur Hs Hle Hcov Hov Hcur; cbn [hits_from].
  { destruct (decide (hi < cur)); [done|]. destruct (Hcov cur) as (? & ?%not_elem_of_nil & _); [lia|done]. }
  apply StronglySorted_inv in Hs as [Hs Hb]. rewrite Forall_forall in Hb.
  destruct (Hov b ltac:(by left)) as (Hv & Ho & Hhi). unfold overlaps, valid in *.
  assert (cur ≤ hi) as Hch by (destruct Hcur as [?|[? Hc]]; [|specialize (Hc b ltac:(by left))]; lia).
  assert (covers cur b) as Hcb.
  { destruct (Hcov cur) as (x & [->|Hx]%elem_of_cons & Hcx); [lia|done|].
    specialize (Hb x Hx). unfold before, covers in *. lia. }
  split; [done|]. split; [done|]. unfold covers in Hcb. split.
  { intros Hlt. destruct Hcur as [?|[? Hc]]; [lia|]. specialize (Hc b ltac:(by left)). lia. }
  apply IH; [done|lia| | |].
  - intros off Hoff. destruct (Hcov off) as (x & [->|Hx]%elem_of_cons & Hcx); [lia| |eauto].
    unfold covers in Hcx. lia.
  - intros x Hx. destruct (Hov x ltac:(by right)) as (Hvx & Hox & _). specialize (Hb x Hx).
    unfold before, overlaps, valid in *. split_and!; try done; lia.
  - right. split; [lia|]. intros x Hx. specialize (Hb x Hx). unfold before in Hb. lia.
Qed.

Lemma tiles_search_hits (m : isl) n lo hi :
  tiles 0 n (isl_all m) → 0 ≤ lo ≤ hi → hi < n →
  hits_from lo lo hi (isl_search (Some lo) (Some hi) m) ∧
  ∀ b, b ∈ isl_search (Some lo) (Some hi) m → b ∈ isl_all m.
Proof.
  intros Ht Hlo Hhi. pose proof Ht as [Hok Hcov].
  pose proof (λ b, isl_search_elem m lo hi b ltac:(lia) Hok) as Hel.
  split; [|by intros b [? _]%Hel].
  apply hits_from_sorted; [apply isl_search_sorted; [lia|done]|lia| | |left; lia].
  - intros off Hoff. destruct (proj2 (Hcov off)) as (b & Hb & Hc); [lia|].
    exists b. split; [|done]. apply Hel. split; [done|]. unfold overlaps, covers in *. lia.
  - intros b [Hb Ho]%Hel. split_and!; [by eapply ranges_ok_valid|apply Ho..].
Qed.
End hits.
