(* ===== verification/Seg.v ===== *)
(** * The segment interface

    [segment_fn_t] of ex3_abstract.h: the function table every segment driver
    fills in and calls its child segments through.  A driver is verified
    against this interface ([Segment]) and the behaviour of the children it
    relies on ([SegmentOk]); an in-memory segment shows the behaviour can be
    met. *)
From S2P Require Import Prelude.

(** ** The function table *)

(** The generic operation a driver returns is modelled by its effect when it
    is waited for: the new segment state, for a read the new buffer contents,
    and the operation's status. *)
Class Segment (S : Type) := {
  segment_size : S → Z;
  segment_read : S → list ex_iovec → tbuffer → Z → S * tbuffer * op_status;
  segment_write : S → list ex_iovec → tbuffer → Z → S * op_status;
  segment_truncate : S → Z → S * op_status }.

(** The byte a segment holds at each offset. *)
Class SegBytes (S : Type) := seg_byte : S → Z → Z.

(** The buffer after [len] bytes [f off, f (off+1), ...] arrived at [boff]. *)
Definition buf_put (buf : tbuffer) (boff len : Z) (f : Z → Z) (off : Z) : tbuffer :=
  λ p, if decide (boff ≤ p < boff + len) then f (off + (p - boff)) else buf p.

Class SegmentOk (S : Type) `{!Segment S, !SegBytes S} : Prop := {
  (** A read leaves the segment's contents alone. *)
  read_bytes s iov buf boff i :
    seg_byte (segment_read s iov buf boff).1.1 i = seg_byte s i;
  read_size s iov buf boff :
    segment_size (segment_read s iov buf boff).1.1 = segment_size s;
  (** A successful read of one extent delivers its bytes, and only them. *)
  read_buffer s off len buf boff p :
    0 ≤ len → op_st (segment_read s [Ex_iovec off len] buf boff).2 = OP_STATE_SUCCESS →
    (segment_read s [Ex_iovec off len] buf boff).1.2 p =
      buf_put buf boff len (seg_byte s) off p;
  (** A write touches no byte outside its extent, whatever its status. *)
  write_frame s off len buf boff i :
    ¬ (off ≤ i < off + len) →
    seg_byte (segment_write s [Ex_iovec off len] buf boff).1 i = seg_byte s i;
  write_bytes s off len buf boff i :
    op_st (segment_write s [Ex_iovec off len] buf boff).2 = OP_STATE_SUCCESS →
    off ≤ i < off + len →
    seg_byte (segment_write s [Ex_iovec off len] buf boff).1 i = buf (boff + (i - off));
  write_size s off len buf boff :
    0 ≤ off → 0 < len →
    op_st (segment_write s [Ex_iovec off len] buf boff).2 = OP_STATE_SUCCESS →
    segment_size (segment_write s [Ex_iovec off len] buf boff).1 =
      Z.max (segment_size s) (off + len);
  truncate_size s n :
    0 ≤ n → op_st (segment_truncate s n).2 = OP_STATE_SUCCESS →
    segment_size (segment_truncate s n).1 = n;
  truncate_bytes s n i :
    0 ≤ i < n → i < segment_size s → op_st (segment_truncate s n).2 = OP_STATE_SUCCESS →
    seg_byte (segment_truncate s n).1 i = seg_byte s i }.

(** A negative size only reserves space. *)
Class SegmentReserveOk (S : Type) `{!Segment S, !SegBytes S} : Prop := {
  reserve_size s n : n < 0 → segment_size (segment_truncate s n).1 = segment_size s;
  reserve_bytes s n : n < 0 → ∀ i, 0 ≤ i < segment_size s → seg_byte (segment_truncate s n).1 i = seg_byte s i }.

(** ** Vector requests *)

(** The bytes of [f] overlaid with the extents of a vector write, whose data
    lie one after the other in [buf] from [boff] on. *)
Fixpoint iov_overlay (f : Z → Z) (iov : list ex_iovec) (buf : tbuffer) (boff : Z) : Z → Z :=
  match iov with
  | [] => f
  | v :: iov => iov_overlay (buf_put f (iov_offset v) (iov_len v) buf boff) iov buf
                  (boff + iov_len v)
  end.

Definition iov_total (iov : list ex_iovec) : Z := foldr (λ v n, iov_len v + n) 0 iov.
Definition iov_end (size : Z) (iov : list ex_iovec) : Z :=
  foldl (λ n v, Z.max n (iov_offset v + iov_len v)) size iov.
Definition iov_ok (iov : list ex_iovec) : Prop :=
  Forall (λ v, 0 ≤ iov_offset v ∧ 0 < iov_len v) iov.

(** The file offset delivered at buffer position [p]. *)
Fixpoint iov_pos (iov : list ex_iovec) (boff p : Z) : Z :=
  match iov with
  | [] => p
  | v :: iov => if decide (p < boff + iov_len v) then iov_offset v + (p - boff)
                else iov_pos iov (boff + iov_len v) p
  end.

(** ** Overlays *)
Lemma iov_total_nonneg iov : iov_ok iov → 0 ≤ iov_total iov.
Proof. induction 1 as [|v iov ? _ IH]; simpl; lia. Qed.

(** A request inside the first [n] bytes. *)
Definition iov_within (n : Z) (iov : list ex_iovec) : Prop :=
  Forall (λ v, 0 ≤ iov_offset v ∧ 0 < iov_len v ∧ iov_offset v + iov_len v ≤ n) iov.

Lemma iov_within_ok n iov : iov_within n iov → iov_ok iov.
Proof. intros Hw. eapply Forall_impl; [exact Hw|]. simpl. intros v. lia. Qed.

Lemma iov_overlay_ext f1 f2 iov buf1 boff1 buf2 boff2 :
  iov_ok iov → (∀ i, f1 i = f2 i) →
  (∀ i, 0 ≤ i < iov_total iov → buf1 (boff1 + i) = buf2 (boff2 + i)) →
  ∀ off, iov_overlay f1 iov buf1 boff1 off = iov_overlay f2 iov buf2 boff2 off.
Proof.
  intros Hok. revert f1 f2 boff1 boff2.
  induction Hok as [|v iov Hv Hiov IH]; intros f1 f2 boff1 boff2 Hf Hb off; simpl in *; [done|].
  pose proof (iov_total_nonneg iov Hiov). apply IH.
  - intros i. unfold buf_put. case_decide; [|done]. apply Hb. lia.
  - intros i Hi. rewrite <- !Z.add_assoc. apply Hb. lia.
Qed.

Lemma iov_overlay_other f iov buf boff off :
  (∀ v, v ∈ iov → ¬ (iov_offset v ≤ off < iov_offset v + iov_len v)) →
  iov_overlay f iov buf boff off = f off.
Proof.
  revert f boff. induction iov as [|v iov IH]; intros f boff Hno; simpl; [done|].
  rewrite IH by (intros; apply Hno; by right). unfold buf_put.
  rewrite decide_False; [done|]. apply Hno. by left.
Qed.

(** Only the byte below counts where the request writes nothing. *)
Lemma iov_overlay_at f1 f2 iov buf boff off :
  f1 off = f2 off ∨ (∃ v, v ∈ iov ∧ iov_offset v ≤ off < iov_offset v + iov_len v) →
  iov_overlay f1 iov buf boff off = iov_overlay f2 iov buf boff off.
Proof.
  revert f1 f2 boff. induction iov as [|v iov IH]; intros f1 f2 boff Hf; simpl.
  { by destruct Hf as [?|(? & ?%not_elem_of_nil & _)]. }
  apply IH. unfold buf_put. case_decide as Hv; [by left|].
  destruct Hf as [?|(x & [->|Hx]%elem_of_cons & Hc)]; [by left|lia|right; eauto].
Qed.

(** What an overlay has at an offset: the last byte of the buffer that goes
    there. *)
Lemma iov_overlay_pos iov buf off : ∀ f boff,
  iov_ok iov →
  (∃ q, boff ≤ q < boff + iov_total iov ∧ iov_pos iov boff q = off ∧ iov_overlay f iov buf boff off = buf q ∧
     ∀ q', boff ≤ q' < boff + iov_total iov → iov_pos iov boff q' = off → q' ≤ q) ∨
  (iov_overlay f iov buf boff off = f off ∧ ∀ q, boff ≤ q < boff + iov_total iov → iov_pos iov boff q ≠ off).
Proof.
  induction iov as [|v iov IH]; intros f boff Hok; simpl; [right; split; [done|lia]|].
  apply Forall_cons in Hok as [[Hv0 Hvl] Hok]. pose proof (iov_total_nonneg iov Hok) as Ht.
  destruct (IH (buf_put f (iov_offset v) (iov_len v) buf boff) (boff + iov_len v) Hok) as [(q & Hq & Hp & -> & Hm)|[-> Hno]].
  - left. exists q. rewrite decide_False by lia. split_and!; [lia|lia|done|done|].
    intros q' Hq' Hpos. case_decide; [lia|]. apply Hm; [lia|done].
  - unfold buf_put. case_decide as Hc.
    + left. exists (boff + (off - iov_offset v)). rewrite decide_True by lia. split_and!; [lia|lia|lia|done|].
      intros q' Hq' Hpos. case_decide; [lia|]. exfalso. apply (Hno q'); [lia|done].
    + right. split; [done|]. intros q Hq. case_decide; [lia|]. apply Hno. lia.
Qed.

(** The furthest offset of a request. *)
Definition iov_maxpos (iov : list ex_iovec) : Z :=
  foldl (λ m v, let pos := iov_offset v + iov_len v - 1 in if decide (pos > m) then pos else m) 0 iov.

Lemma iov_maxpos_spec iov : ∀ m,
  let m' := foldl (λ m v, let pos := iov_offset v + iov_len v - 1 in if decide (pos > m) then pos else m) m iov in
  m ≤ m' ∧ ∀ v, v ∈ iov → iov_offset v + iov_len v ≤ m' + 1.
Proof.
  induction iov as [|v iov IH]; intros m; cbn [foldl]; [split; [lia|by intros ? ?%not_elem_of_nil]|].
  cbv zeta in IH |- *.
  set (m1 := if decide _ then _ else m).
  assert (m ≤ m1 ∧ iov_offset v + iov_len v ≤ m1 + 1) as [H1 H2] by (unfold m1; case_decide; lia).
  destruct (IH m1) as [Hm Hv]. split; [lia|]. intros x [->|Hx]%elem_of_cons; [lia|auto].
Qed.

(** ** Children that are up

    While a child is up ([vec_up]), a vector write of extents that are not empty
    succeeds, overlays the contents and leaves it up, and reading leaves it up. *)
Class SegmentVecOk (S : Type) `{!Segment S, !SegBytes S} := {
  vec_up : S → Prop;
  vec_write_success s iov buf boff : iov_ok iov → vec_up s → op_st (segment_write s iov buf boff).2 = OP_STATE_SUCCESS;
  vec_write_up s iov buf boff : iov_ok iov → vec_up s → vec_up (segment_write s iov buf boff).1;
  vec_write_bytes s iov buf boff i :
    iov_ok iov → vec_up s → seg_byte (segment_write s iov buf boff).1 i = iov_overlay (seg_byte s) iov buf boff i;
  vec_read_up s iov buf boff : vec_up s → vec_up (segment_read s iov buf boff).1.1 }.

(** ** A segment in memory *)
Section mem_seg.
(** [ms_up] is whether the segment answers. *)
Record mem_seg := Mem_seg { ms_size : Z; ms_byte : Z → Z; ms_up : bool }.

Context `{!Gop}.

Definition mem_status (s : mem_seg) : op_status :=
  if ms_up s then op_success_status else op_failure_status.

Fixpoint mem_read_iov (s : mem_seg) (iov : list ex_iovec) (buf : tbuffer) (boff : Z) : tbuffer :=
  match iov with
  | [] => buf
  | v :: iov => mem_read_iov s iov
      (buf_put buf boff (iov_len v) (ms_byte s) (iov_offset v)) (boff + iov_len v)
  end.

Fixpoint mem_write_iov (s : mem_seg) (iov : list ex_iovec) (buf : tbuffer) (boff : Z) : mem_seg :=
  match iov with
  | [] => s
  | v :: iov => mem_write_iov
      (Mem_seg (Z.max (ms_size s) (iov_offset v + iov_len v))
         (buf_put (ms_byte s) (iov_offset v) (iov_len v) buf boff) (ms_up s))
      iov buf (boff + iov_len v)
  end.

#[export] Instance mem_segment : Segment mem_seg := {|
  segment_size := ms_size;
  segment_read s iov buf boff :=
    (s, if ms_up s then mem_read_iov s iov buf boff else buf, mem_status s);
  segment_write s iov buf boff :=
    (if ms_up s then mem_write_iov s iov buf boff else s, mem_status s);
  segment_truncate s n :=
    (if ms_up s then if decide (n < 0) then s else Mem_seg n (ms_byte s) true else s, mem_status s) |}.
#[export] Instance mem_bytes : SegBytes mem_seg := ms_byte.

#[export] Instance mem_segment_ok `{!GopOk} : SegmentOk mem_seg.
Proof.
  assert (∀ s, op_st (mem_status s) = OP_STATE_SUCCESS → ms_up s = true) as Hup.
  { intros s. unfold mem_status. destruct (ms_up s); [done|]. by rewrite op_failure_state. }
  split; unfold seg_byte, mem_bytes; simpl; try done.
  - intros s off len buf boff p _ ->%Hup. done.
  - intros s off len buf boff i Hi. destruct (ms_up s); [|done]. simpl.
    unfold buf_put. by rewrite decide_False.
  - intros s off len buf boff i ->%Hup Hi. simpl. unfold buf_put. by rewrite decide_True.
  - intros s off len buf boff _ _ ->%Hup. done.
  - intros s n Hn ->%Hup. by rewrite decide_False by lia.
  - intros s n i Hi _ ->%Hup. by rewrite decide_False by lia.
Qed.

#[export] Instance mem_segment_reserve_ok : SegmentReserveOk mem_seg.
Proof.
  split; unfold seg_byte, mem_bytes; simpl; intros s n Hn; destruct (ms_up s); by rewrite ?decide_True.
Qed.

#[export] Instance mem_vec_ok `{!GopOk} : SegmentVecOk mem_seg.
Proof.
  exists (λ s, ms_up s = true).
  - intros s iov buf boff _ Hup. simpl. unfold mem_status. rewrite Hup. apply op_success_state.
  - intros s iov buf boff _ Hup. simpl. rewrite Hup.
    revert s boff Hup. induction iov as [|v iov IH]; intros s boff Hup; [done|]. by apply IH.
  - intros s iov buf boff i _ Hup. simpl. rewrite Hup. clear Hup. unfold seg_byte, mem_bytes.
    revert s boff. induction iov as [|v iov IH]; intros s boff; [done|]. cbn [mem_write_iov iov_overlay]. apply IH.
  - done.
Defined.
End mem_seg.
