(* ===== verification/Words.v ===== *)
(** * Machine integers

    The values of the signed C integers and of [size_t], and the in-memory form
    of 64-bit integers.
    A log segment writes its [slog_range_t] records to the table segment as
    raw memory: three [int64_t] fields in the byte order of the machine, taken
    to be little-endian as on the x86-64 hosts the package is built for. *)
From S2P Require Import Prelude.

Definition int64_min : Z := - 2 ^ 63.
Definition int64_max : Z := 2 ^ 63 - 1.
Definition int64_range (z : Z) : Prop := int64_min ≤ z ≤ int64_max.

Fixpoint le_bytes (n : nat) (z : Z) : list Z :=
  match n with O => [] | S n => z `mod` 256 :: le_bytes n (z `div` 256) end.

Fixpoint le_value (l : list Z) : Z :=
  match l with [] => 0 | b :: l => b + 256 * le_value l end.

Definition int64_bytes (z : Z) : list Z := le_bytes 8 z.
Definition int64_of_bytes (l : list Z) : Z :=
  let v := le_value l in if decide (v < 2 ^ 63) then v else v - 2 ^ 64.

Lemma le_bytes_length n z : length (le_bytes n z) = n.
Proof. revert z. induction n as [|n IH]; intros z; simpl; [done|]. by rewrite IH. Qed.

Lemma le_value_bytes n z : le_value (le_bytes n z) = z `mod` 256 ^ Z.of_nat n.
Proof.
  revert z. induction n as [|n IH]; intros z; simpl le_bytes; simpl le_value.
  { by rewrite Z.mod_1_r. }
  rewrite IH, Nat2Z.inj_succ, Z.pow_succ_r by lia.
  rewrite Z.rem_mul_r by (try apply Z.pow_nonzero; lia). done.
Qed.

Lemma int64_bytes_length z : length (int64_bytes z) = 8%nat.
Proof. apply le_bytes_length. Qed.

Lemma int64_bytes_inv z : int64_range z → int64_of_bytes (int64_bytes z) = z.
Proof.
  unfold int64_range, int64_min, int64_max, int64_of_bytes, int64_bytes. intros Hz.
  rewrite le_value_bytes. change (256 ^ Z.of_nat 8) with (2 ^ 64).
  destruct (decide (0 ≤ z)).
  - rewrite Z.mod_small by lia. rewrite decide_True by lia. done.
  - rewrite <- (Z.mod_add z 1), Z.mod_small by lia. rewrite decide_False; lia.
Qed.

(** A buffer holding the bytes of a list, and the list held by a buffer. *)
Definition buf_of_list (l : list Z) : tbuffer :=
  λ p, if decide (0 ≤ p) then nth (Z.to_nat p) l 0 else 0.
Definition list_of_buf (buf : tbuffer) (off : Z) (n : nat) : list Z :=
  (λ i, buf (off + Z.of_nat i)) <$> seq 0 n.

Lemma list_of_buf_ext buf1 buf2 off1 off2 n :
  (∀ i, 0 ≤ i < Z.of_nat n → buf1 (off1 + i) = buf2 (off2 + i)) →
  list_of_buf buf1 off1 n = list_of_buf buf2 off2 n.
Proof.
  intros Hb. unfold list_of_buf. apply list_fmap_ext. intros k i Hk.
  apply lookup_seq in Hk as [-> ?]. apply Hb. lia.
Qed.

Lemma list_of_buf_app l1 l l2 :
  list_of_buf (buf_of_list (l1 ++ l ++ l2)) (Z.of_nat (length l1)) (length l) = l.
Proof.
  unfold list_of_buf, buf_of_list. apply list_eq. intros i.
  rewrite list_lookup_fmap. destruct (decide (i < length l)%nat) as [Hi|Hi].
  - rewrite lookup_seq_lt by lia. simpl. rewrite decide_True by lia.
    replace (Z.to_nat (Z.of_nat (length l1) + Z.of_nat i)) with (length l1 + i)%nat by lia.
    rewrite app_nth2_plus, app_nth1 by lia.
    destruct (lookup_lt_is_Some_2 l i Hi) as [x Hx]. rewrite Hx. f_equal.
    by apply nth_lookup_Some.
  - rewrite lookup_seq_ge by lia. simpl. symmetry. apply lookup_ge_None_2. lia.
Qed.

Lemma list_of_buf_at l1 l l2 off n :
  off = Z.of_nat (length l1) → n = length l →
  list_of_buf (buf_of_list (l1 ++ l ++ l2)) off n = l.
Proof. intros -> ->. apply list_of_buf_app. Qed.

(** ** Arithmetic

    A value stored in a signed integer of [w] bits, and in a [size_t]. *)
Definition sint (w z : Z) : Z := (z + 2 ^ (w - 1)) `mod` 2 ^ w - 2 ^ (w - 1).
Definition size_t (z : Z) : Z := z `mod` 2 ^ 64.

Lemma sint_small w z : 0 < w → - 2 ^ (w - 1) ≤ z < 2 ^ (w - 1) → sint w z = z.
Proof.
  intros Hw Hz. unfold sint.
  assert (2 ^ w = 2 * 2 ^ (w - 1)) as Hp by (rewrite <- Z.pow_succ_r by lia; f_equal; lia).
  rewrite Z.mod_small by lia. lia.
Qed.

Lemma sint_64 z : - 2 ^ 63 ≤ z < 2 ^ 63 → sint 64 z = z.
Proof. intros Hz. by apply sint_small. Qed.

Lemma sint_32 z : - 2 ^ 31 ≤ z < 2 ^ 31 → sint 32 z = z.
Proof. intros Hz. by apply sint_small. Qed.

Lemma sint_32_shift k z : 0 ≤ z < 2 ^ 32 → sint 32 (k * 2 ^ 32 + z) = if decide (z < 2 ^ 31) then z else z - 2 ^ 32.
Proof.
  intros Hz. unfold sint. change (32 - 1) with 31.
  replace (k * 2 ^ 32 + z + 2 ^ 31) with (z + 2 ^ 31 + k * 2 ^ 32) by lia.
  rewrite Z.mod_add by lia. case_decide; [rewrite Z.mod_small by lia; lia|].
  rewrite <- (Z.mod_add _ (-1)), Z.mod_small by lia. lia.
Qed.
