(* ===== verification/SegLogMap.v ===== *)
(** * The extent map of a log segment *)
From S2P Require Import Prelude Isl.
(** ** Data *)

(** [slog_range_t] of segment_log_priv.h. *)
Record slog_range := Slog_range { sr_lo : Z; sr_hi : Z; sr_data_offset : Z }.
#[export] Instance slog_range_eq_dec : EqDecision slog_range.
Proof. solve_decision. Defined.
#[export] Instance slog_range_ranged : Ranged slog_range :=
  {| r_lo := sr_lo; r_hi := sr_hi |}.

Section slog_map.
Context `{ISL slog_range}.

(** The part of [seglog_priv_t] the mapping functions work on. *)
Record slog_map := Slog_map { sm_mapping : isl; sm_file_size : Z }.

(** One pass of the loop of [_slog_insert_range]: the extent [ir] the
    iterator returned is cut down to what lies outside [r]. *)
Definition slog_cut_step (r ir : slog_range) (m : isl) : isl :=
  let m := isl_remove (sr_lo ir) (sr_hi ir) ir m in
  if decide (sr_lo ir < sr_lo r) then
    if decide (sr_hi ir > sr_hi r) then
      let lo2 := sr_hi r + 1 in
      let ir2 := Slog_range lo2 (sr_hi ir) (sr_data_offset ir + (lo2 - sr_lo ir)) in
      let m := isl_insert (sr_lo ir2) (sr_hi ir2) ir2 m in
      let ir1 := Slog_range (sr_lo ir) (sr_lo r - 1) (sr_data_offset ir) in
      isl_insert (sr_lo ir1) (sr_hi ir1) ir1 m
    else
      let ir1 := Slog_range (sr_lo ir) (sr_lo r - 1) (sr_data_offset ir) in
      isl_insert (sr_lo ir1) (sr_hi ir1) ir1 m
  else if decide (sr_hi ir ≤ sr_hi r) then m
  else
    let irlo := sr_lo ir in
    let lo2 := sr_hi r + 1 in
    let ir2 := Slog_range lo2 (sr_hi ir) (sr_data_offset ir + (lo2 - irlo)) in
    isl_insert (sr_lo ir2) (sr_hi ir2) ir2 m.

(** The loop: a fresh search after every change. *)
Fixpoint slog_cut_loop (fuel : nat) (r : slog_range) (m : isl) : option isl :=
  match fuel with
  | O => None
  | S fuel =>
      match isl_search (Some (sr_lo r)) (Some (sr_hi r)) m with
      | [] => Some m
      | ir :: _ => slog_cut_loop fuel r (slog_cut_step r ir m)
      end
  end.

(** Joining the new range with the extent that ends just before it. *)
Definition slog_combine (r : slog_range) (m : isl) : slog_range * isl :=
  match isl_search (Some (sr_lo r - 1)) (Some (sr_hi r)) m with
  | [] => (r, m)
  | ir :: _ =>
      if decide (sr_data_offset ir + sr_hi ir - sr_lo ir + 1 = sr_data_offset r)
      then (Slog_range (sr_lo ir) (sr_hi r) (sr_data_offset ir),
            isl_remove (sr_lo ir) (sr_hi ir) ir m)
      else (r, m)
  end.

(** [bufmax] of [_slog_truncate_range]. *)
Definition slog_bufmax : nat := 100.

Definition slog_drop_table (table : list slog_range) (m : isl) : isl :=
  foldl (λ m r, isl_remove (sr_lo r) (sr_hi r) r m) m table.

(** The loop of [_slog_truncate_range]: [it] is what the iterator still has
    to return, [table] is [r_table].  When the table fills up its extents are
    removed and the search starts again. *)
Fixpoint slog_drop_loop (fuel : nat) (lo hi : Z) (it table : list slog_range)
    (m : isl) : option isl :=
  match fuel with
  | O => None
  | S fuel =>
      match it with
      | [] => Some (slog_drop_table table m)
      | x :: it =>
          let table := table ++ [x] in
          if decide (length table = slog_bufmax) then
            let m := slog_drop_table table m in
            slog_drop_loop fuel lo hi (isl_search (Some lo) (Some hi) m) [] m
          else slog_drop_loop fuel lo hi it table m
      end
  end.

Definition slog_truncate_range (s : slog_map) (r : slog_range) : option slog_map :=
  let lo := sr_hi r + 1 in
  let hi := sm_file_size s in
  let m := sm_mapping s in
  match isl_search (Some lo) (Some hi) m with
  | [] => Some (Slog_map m (sr_hi r + 1))
  | ir :: it =>
      let '(it, table, m) :=
        if decide (sr_lo ir ≤ sr_hi r) then
          let m := isl_remove (sr_lo ir) (sr_hi ir) ir m in
          let ir' := Slog_range (sr_lo ir) (sr_hi r) (sr_data_offset ir) in
          let m := isl_insert (sr_lo ir') (sr_hi ir') ir' m in
          (* the restarted iterator is advanced once before the loop *)
          (tail (isl_search (Some lo) (Some hi) m), [], m)
        else (it, [ir], m) in
      m ← slog_drop_loop (S (isl_count m)) lo hi it table m;
      Some (Slog_map m (sr_hi r + 1))
  end.

Definition slog_insert_range (s : slog_map) (r : slog_range) : option slog_map :=
  if decide (sr_lo r = -1) then slog_truncate_range s r
  else
    m ← slog_cut_loop (S (isl_count (sm_mapping s))) r (sm_mapping s);
    let '(r, m) := slog_combine r m in
    let m := isl_insert (sr_lo r) (sr_hi r) r m in
    Some (Slog_map m (if decide (sr_hi r >= sm_file_size s) then sr_hi r + 1
                      else sm_file_size s)).

(** Where the log holds the byte at [off], if it does. *)
Definition slog_lookup (m : isl) (off : Z) : option Z :=
  (λ r, sr_data_offset r + (off - sr_lo r)) <$> find_cover off (isl_all m).

(** The extent a truncation to [n] bytes leaves behind although it lies past
    the new end, in terms of the extents [hits] that reach past it: when the
    first of them straddles the end, the one after it is skipped by the
    restarted iterator, unless the table fills up and the search is redone. *)
Definition slog_stale (n : Z) (hits : list slog_range) : list slog_range :=
  match hits with
  | st :: y :: rest =>
      if decide (sr_lo st < n ∧ (length rest < slog_bufmax)%nat) then [y] else []
  | _ => []
  end.

(** The invariant: disjoint non-empty extents inside the file. *)
Definition slog_map_ok (s : slog_map) : Prop :=
  ranges_ok (isl_all (sm_mapping s)) ∧
  Forall (λ r, 0 ≤ sr_lo r ∧ sr_hi r < sm_file_size s) (isl_all (sm_mapping s)) ∧
  0 ≤ sm_file_size s.
End slog_map.
Arguments slog_map {_}.

(** ** Cutting a range out of the map *)
Section slog_map_facts.
Context `{!ISL slog_range, !ISLOk slog_range}.
Implicit Types (r ir x : slog_range) (m : isl) (l : list slog_range).

(** What a cut leaves of one extent. *)
Definition slog_cut r ir : list slog_range :=
  if decide (overlaps (sr_lo r) (sr_hi r) ir) then
    (if decide (sr_lo ir < sr_lo r)
     then [Slog_range (sr_lo ir) (sr_lo r - 1) (sr_data_offset ir)] else []) ++
    (if decide (sr_hi r < sr_hi ir)
     then [Slog_range (sr_hi r + 1) (sr_hi ir)
             (sr_data_offset ir + (sr_hi r + 1 - sr_lo ir))] else [])
  else [ir].

(** [slog_maps l off d]: the extents [l] place the byte [off] at [d]. *)
Definition slog_maps l (off d : Z) : Prop :=
  ∃ x, x ∈ l ∧ covers off x ∧ d = sr_data_offset x + (off - sr_lo x).

Lemma slog_cut_fixed r ir : ¬ overlaps (sr_lo r) (sr_hi r) ir → slog_cut r ir = [ir].
Proof. intros. unfold slog_cut. by rewrite decide_False. Qed.

Lemma slog_cut_elem r ir x :
  valid r → valid ir → x ∈ slog_cut r ir →
  valid x ∧ ¬ overlaps (sr_lo r) (sr_hi r) x ∧ sr_lo ir ≤ sr_lo x ∧ sr_hi x ≤ sr_hi ir.
Proof.
  unfold slog_cut, valid, overlaps; simpl. intros Hr Hir.
  repeat case_decide; rewrite ?elem_of_app, ?list_elem_of_singleton, ?elem_of_nil;
    intros; destruct_or?; subst; simpl in *; try done; lia.
Qed.

Lemma slog_cut_free r ir x :
  valid r → valid ir → x ∈ slog_cut r ir → ¬ overlaps (sr_lo r) (sr_hi r) x.
Proof. intros Hr Hir Hx. apply (slog_cut_elem r ir x Hr Hir Hx). Qed.

Lemma slog_cut_maps r ir off d :
  valid r →
  slog_maps (slog_cut r ir) off d ↔ ¬ covers off r ∧ slog_maps [ir] off d.
Proof.
  unfold slog_maps, slog_cut, valid, covers, overlaps; simpl. intros Hr. split.
  - intros (x & Hx & Hc & ->). revert Hx.
    repeat case_decide; rewrite ?elem_of_app, ?list_elem_of_singleton, ?elem_of_nil;
      intros; destruct_or?; subst; simpl in *; try done;
      (split; [lia|]); exists ir; rewrite list_elem_of_singleton; repeat split; lia.
  - intros (Hn & x & ->%list_elem_of_singleton & Hc & ->).
    case_decide; [|by exists ir; rewrite list_elem_of_singleton].
    destruct (decide (off < sr_lo r)).
    + rewrite (decide_True (P:=sr_lo ir < sr_lo r)) by lia.
      eexists; split; [by left|]. simpl. split; lia.
    + rewrite (decide_True (P:=sr_hi r < sr_hi ir)) by lia.
      eexists; split; [rewrite elem_of_app; right; by left|]. simpl. split; lia.
Qed.

Lemma slog_maps_app l1 l2 off d :
  slog_maps (l1 ++ l2) off d ↔ slog_maps l1 off d ∨ slog_maps l2 off d.
Proof. unfold slog_maps. setoid_rewrite elem_of_app. naive_solver. Qed.

Lemma slog_maps_cons x l off d :
  slog_maps (x :: l) off d ↔ slog_maps [x] off d ∨ slog_maps l off d.
Proof. apply (slog_maps_app [x]). Qed.

Lemma slog_maps_one x off d :
  slog_maps [x] off d ↔ covers off x ∧ d = sr_data_offset x + (off - sr_lo x).
Proof.
  unfold slog_maps. split; [by intros (? & ->%list_elem_of_singleton & ?)|].
  intros. exists x. by rewrite list_elem_of_singleton.
Qed.

#[export] Instance slog_maps_perm : Proper ((≡ₚ) ==> (=) ==> (=) ==> iff) slog_maps.
Proof.
  intros l k Hp ? off -> ? d ->. unfold slog_maps. by setoid_rewrite Hp.
Qed.

Lemma slog_maps_cut r l off d :
  valid r → slog_maps (l ≫= slog_cut r) off d ↔ ¬ covers off r ∧ slog_maps l off d.
Proof.
  intros Hr. induction l as [|x l IH].
  - split; [by intros (? & ?%not_elem_of_nil & ?)|]. by intros (_ & ? & ?%not_elem_of_nil & ?).
  - rewrite bind_cons, slog_maps_app, slog_cut_maps, IH, (slog_maps_cons x l) by done. tauto.
Qed.

Lemma slog_lookup_maps m off d :
  ranges_ok (isl_all m) → slog_lookup m off = Some d ↔ slog_maps (isl_all m) off d.
Proof.
  intros Hok. unfold slog_lookup, slog_maps. rewrite fmap_Some. split.
  - intros (x & [? ?]%find_cover_in & ->). eauto.
  - intros (x & ? & ? & ->). exists x. split; [by apply find_cover_Some|done].
Qed.

Lemma slog_lookup_ext m1 m2 off1 off2 :
  ranges_ok (isl_all m1) → ranges_ok (isl_all m2) →
  (∀ d, slog_maps (isl_all m1) off1 d ↔ slog_maps (isl_all m2) off2 d) →
  slog_lookup m1 off1 = slog_lookup m2 off2.
Proof.
  intros ? ? Hd. apply option_eq. intros d. by rewrite !slog_lookup_maps.
Qed.

(** *** The cutting loop *)
Lemma ranges_ok_cut r ir l :
  valid r → ranges_ok (ir :: l) → ranges_ok (slog_cut r ir ++ l).
Proof.
  intros Hr (Hv & Ha & Hl)%ranges_ok_cons. apply ranges_ok_app. repeat split; try apply Hl.
  - apply Forall_forall. intros x Hx. by destruct (slog_cut_elem r ir x).
  - unfold slog_cut. repeat case_decide; simpl;
      repeat first [apply FOP_nil | apply FOP_cons | apply Forall_nil_2 | apply Forall_cons_2];
      unfold apart, valid in *; simpl in *; lia.
  - intros x y Hx Hy. apply slog_cut_elem in Hx as (Hvx & _ & ? & ?); [|done..].
    specialize (Ha y Hy). unfold apart, valid in *; simpl in *. lia.
Qed.

Lemma slog_insert_all lo hi d m :
  lo ≤ hi →
  isl_all (isl_insert lo hi (Slog_range lo hi d) m) ≡ₚ Slog_range lo hi d :: isl_all m.
Proof. intros Hle. exact (isl_all_insert (Slog_range lo hi d) m Hle). Qed.

Lemma slog_cut_step_all r ir m :
  valid r → ranges_ok (isl_all m) → ir ∈ isl_all m → overlaps (sr_lo r) (sr_hi r) ir →
  ∃ l, isl_all m ≡ₚ ir :: l ∧ isl_all (slog_cut_step r ir m) ≡ₚ slog_cut r ir ++ l.
Proof.
  intros Hr Hok Hir Hov. pose proof (isl_all_remove ir m Hir) as Hp. simpl in Hp.
  pose proof (ranges_ok_valid _ _ Hok Hir) as Hv.
  eexists; split; [exact Hp|]. unfold slog_cut_step, slog_cut.
  rewrite (decide_True (P:=overlaps _ _ _)) by done.
  unfold valid, overlaps in *; simpl in *.
  set (m' := isl_remove (sr_lo ir) (sr_hi ir) ir m) in *.
  repeat case_decide; try lia; simpl; try done.
  - rewrite !slog_insert_all by lia. done.
  - rewrite !slog_insert_all by lia. done.
  - rewrite !slog_insert_all by lia. done.
Qed.

Lemma bind_fixed r l :
  (∀ x, x ∈ l → ¬ overlaps (sr_lo r) (sr_hi r) x) → l ≫= slog_cut r = l.
Proof.
  induction l as [|x l IH]; intros Hno; [done|]. rewrite bind_cons, slog_cut_fixed.
  - simpl. f_equal. apply IH. intros; apply Hno; by right.
  - apply Hno. by left.
Qed.

Lemma slog_cut_idem r ir :
  valid r → valid ir → slog_cut r ir ≫= slog_cut r = slog_cut r ir.
Proof.
  intros Hr Hir. apply bind_fixed. intros x Hx.
  by apply (slog_cut_free r ir).
Qed.

Lemma slog_cut_loop_spec r fuel m :
  valid r → ranges_ok (isl_all m) →
  (length (filter (overlaps (sr_lo r) (sr_hi r)) (isl_all m)) < fuel)%nat →
  ∃ m', slog_cut_loop fuel r m = Some m' ∧ ranges_ok (isl_all m') ∧
    isl_all m' ≡ₚ isl_all m ≫= slog_cut r ∧
    ∀ x, x ∈ isl_all m' → ¬ overlaps (sr_lo r) (sr_hi r) x.
Proof.
  intros Hr. revert m. induction fuel as [|fuel IH]; intros m Hok Hlen; [lia|]. simpl.
  rewrite isl_search_overlaps by done.
  destruct (filter _ (isl_all m)) as [|ir k] eqn:Hf.
  - rewrite filter_nil_iff in Hf. exists m. rewrite bind_fixed by done. done.
  - apply filter_hd in Hf as Hin. destruct Hin as [Hin Hov].
    destruct (slog_cut_step_all r ir m) as (l & Hl & Hs); [done..|].
    pose proof (ranges_ok_perm _ _ Hl Hok) as Hok'.
    assert (valid ir) as Hv by (by apply ranges_ok_cons in Hok' as [? _]).
    destruct (IH (slog_cut_step r ir m)) as (m' & -> & ? & Hm' & ?).
    + apply (ranges_ok_perm (slog_cut r ir ++ l)); [done|]. by apply ranges_ok_cut.
    + rewrite Hs, filter_app. rewrite <- Hf, Hl, filter_cons_True in Hlen by done.
      simpl in Hlen. rewrite (proj2 (filter_nil_iff _ (slog_cut r ir))); [simpl; lia|].
      intros x Hx. by apply (slog_cut_free r ir).
    + exists m'. split_and!; try done. rewrite Hm', Hs, Hl, bind_app, bind_cons.
      by rewrite slog_cut_idem.
Qed.

(** *** Insertion *)
Lemma slog_combine_spec r m r' m' :
  valid r → ranges_ok (isl_all m) →
  (∀ x, x ∈ isl_all m → ¬ overlaps (sr_lo r) (sr_hi r) x) →
  slog_combine r m = (r', m') →
  sr_hi r' = sr_hi r ∧ sr_lo r' ≤ sr_lo r ∧ valid r' ∧
  (sr_lo r' = sr_lo r ∨ ∃ x, x ∈ isl_all m ∧ sr_lo r' = sr_lo x) ∧
  ranges_ok (r' :: isl_all m') ∧ (∀ x, x ∈ isl_all m' → x ∈ isl_all m) ∧
  ∀ off d, slog_maps (r' :: isl_all m') off d ↔ slog_maps (r :: isl_all m) off d.
Proof.
  intros Hr Hok Hno. pose proof Hr as Hr'. unfold valid in Hr'; simpl in Hr'.
  assert (∀ l, (∀ x, x ∈ l → x ∈ isl_all m) → ranges_ok l → ranges_ok (r :: l)) as Hcons.
  { intros l Hl Hlok. apply ranges_ok_cons. split_and!; [done| |done].
    intros x Hx. specialize (Hno x (Hl x Hx)). unfold overlaps, apart in *; simpl in *. lia. }
  unfold slog_combine. rewrite isl_search_overlaps by (done || lia).
  destruct (filter _ (isl_all m)) as [|ir k] eqn:Hf; [|case_decide as Hdo]; intros [= <- <-].
  - split_and!; try done; eauto.
  - apply filter_hd in Hf as [Hir Hov].
    pose proof (isl_all_remove ir m Hir) as Hp. simpl in Hp.
    specialize (Hno ir Hir).
    pose proof (ranges_ok_perm _ _ Hp Hok) as Hok'. apply ranges_ok_cons in Hok' as (Hv & Ha & Hm').
    assert (∀ x, x ∈ isl_all (isl_remove (sr_lo ir) (sr_hi ir) ir m) → x ∈ isl_all m) as Hsub.
    { intros x Hx. rewrite Hp. by right. }
    pose proof (Hcons _ Hsub Hm') as Hrc. apply ranges_ok_cons in Hrc as (_ & Hra & _).
    unfold overlaps, valid in *; simpl in *.
    split_and!; simpl; try lia; try done; eauto.
    + apply ranges_ok_cons. split_and!; [unfold valid; simpl; lia| |done].
      intros x Hx. specialize (Ha x Hx). specialize (Hra x Hx).
      pose proof (ranges_ok_valid _ x Hm' Hx) as Hvx. unfold apart, valid in *; simpl in *. lia.
    + intros off d. rewrite Hp, (slog_maps_cons r), (slog_maps_cons ir), slog_maps_cons.
      rewrite !slog_maps_one. unfold covers; simpl. split.
      * intros [(? & ->)|?]; [|tauto]. destruct (decide (off < sr_lo r)); [right; left|left]; lia.
      * intros [(? & ->)|[(? & ->)|?]]; [left; lia|left; lia|tauto].
  - split_and!; try done; eauto.
Qed.

(** Inserting a non-empty range: the function terminates, keeps the
    invariant, extends the file size to the end of the range, and redirects
    exactly the offsets of the range. *)
Lemma slog_insert_range_spec (s : slog_map) r :
  slog_map_ok s → 0 ≤ sr_lo r ≤ sr_hi r →
  ∃ s', slog_insert_range s r = Some s' ∧ slog_map_ok s' ∧
    sm_file_size s' = Z.max (sm_file_size s) (sr_hi r + 1) ∧
    ∀ off d, slog_maps (isl_all (sm_mapping s')) off d ↔
      (slog_maps [r] off d ∨ (¬ covers off r ∧ slog_maps (isl_all (sm_mapping s)) off d)).
Proof.
  intros (Hok & Hin & Hsz) Hr. unfold slog_insert_range. rewrite decide_False by lia.
  destruct (slog_cut_loop_spec r (S (isl_count (sm_mapping s))) (sm_mapping s))
    as (m & -> & Hmok & Hmp & Hno); [unfold valid; simpl; lia|done| |].
  { rewrite isl_count_all. pose proof (length_filter (overlaps (sr_lo r) (sr_hi r))
      (isl_all (sm_mapping s))). lia. }
  simpl. destruct (slog_combine r m) as [r' m'] eqn:Hc.
  apply slog_combine_spec in Hc as (Hhi & Hlo & Hv & Hfrom & Hrok & Hsub & Hmaps);
    [|unfold valid; simpl; lia|done..].
  assert (∀ x, x ∈ isl_all m → 0 ≤ sr_lo x ∧ sr_hi x < sm_file_size s) as Hmin.
  { intros x. rewrite Hmp, list_elem_of_bind. intros (ir & Hx & Hir).
    rewrite Forall_forall in Hin. specialize (Hin ir Hir).
    apply slog_cut_elem in Hx; [lia|unfold valid; simpl; lia|].
    by apply (ranges_ok_valid _ _ Hok). }
  pose proof (isl_all_insert r' m' Hv) as Hp. simpl in Hp.
  eexists; split; [done|]. simpl. split_and!.
  - split_and!; simpl.
    + by apply (ranges_ok_perm (r' :: isl_all m')).
    + rewrite Hp. apply Forall_forall. intros x [->|Hx]%elem_of_cons.
      * split; [|case_decide; lia].
        destruct Hfrom as [->|(x & Hx & ->)]; [lia|]. by apply Hmin.
      * apply Hsub, Hmin in Hx. case_decide; lia.
    + case_decide; lia.
  - case_decide; lia.
  - intros off d. rewrite Hp, Hmaps, slog_maps_cons, Hmp, slog_maps_cut; [done|].
    unfold valid; simpl; lia.
Qed.

Lemma slog_insert_range_lookup (s s' : slog_map) r off :
  slog_map_ok s → slog_map_ok s' → 
  (∀ d, slog_maps (isl_all (sm_mapping s')) off d ↔
      (slog_maps [r] off d ∨ (¬ covers off r ∧ slog_maps (isl_all (sm_mapping s)) off d))) →
  slog_lookup (sm_mapping s') off =
    if decide (sr_lo r ≤ off ≤ sr_hi r)
    then Some (sr_data_offset r + (off - sr_lo r))
    else slog_lookup (sm_mapping s) off.
Proof.
  intros [Hok _] [Hok' _] Hm. apply option_eq. intros d.
  rewrite slog_lookup_maps, Hm, slog_maps_one by done. unfold covers; simpl.
  case_decide as Hc.
  - split; [intros [[_ ->]|[? _]]; done|intros [= <-]; by left].
  - rewrite slog_lookup_maps by done. tauto.
Qed.

(** *** Truncation *)
Lemma slog_drop_table_all table m l :
  isl_all m ≡ₚ table ++ l → isl_all (slog_drop_table table m) ≡ₚ l.
Proof.
  revert m. induction table as [|x table IH]; intros m Hp; simpl; [done|].
  apply IH. assert (x ∈ isl_all m) as Hx by (rewrite Hp; by left).
  pose proof (isl_all_remove x m Hx) as Hr. simpl in Hr.
  rewrite Hr in Hp. by apply Permutation_cons_inv in Hp.
Qed.

(** What the removal loop drops: the extents already in the table and those
    the iterator has left; the [skipped] ones only when the table fills up
    and the search is restarted. *)
Lemma slog_drop_loop_spec fuel lo hi it table skipped m :
  lo ≤ hi → ranges_ok (isl_all m) → (length table < slog_bufmax)%nat →
  filter (overlaps lo hi) (isl_all m) ≡ₚ table ++ it ++ skipped →
  (length it + length skipped < fuel)%nat →
  ∃ m' l, slog_drop_loop fuel lo hi it table m = Some m' ∧
    isl_all m ≡ₚ l ++ isl_all m' ∧
    l ≡ₚ if decide (slog_bufmax ≤ length (table ++ it))%nat
         then table ++ it ++ skipped else table ++ it.
Proof.
  intros Hlh. revert it table skipped m.
  induction fuel as [|fuel IH]; intros it table skipped m Hok Htab Hhits Hfuel; [lia|].
  destruct (filter_split _ _ _ Hhits) as (rest & Hall & Hrest).
  destruct it as [|x it]; simpl.
  { do 2 eexists; split; [done|]. rewrite app_nil_r, decide_False by lia. split; [|done].
    rewrite (slog_drop_table_all table m (skipped ++ rest)); by rewrite Hall; app_norm. }
  assert (table ++ x :: it = (table ++ [x]) ++ it) as Heq by by app_norm.
  case_decide as Hfull.
  - set (m1 := slog_drop_table (table ++ [x]) m).
    assert (isl_all m1 ≡ₚ (it ++ skipped) ++ rest) as Hm1.
    { apply slog_drop_table_all. rewrite Hall. by app_norm. }
    assert (ranges_ok (isl_all m1)) as Hok1.
    { apply (ranges_ok_perm ((it ++ skipped) ++ rest)); [done|].
      apply (ranges_ok_perm _ ((table ++ [x]) ++ (it ++ skipped) ++ rest)) in Hok.
      - by apply ranges_ok_app in Hok as (_ & Hok & _).
      - rewrite Hall. by app_norm. }
    assert (filter (overlaps lo hi) (isl_all m1) ≡ₚ it ++ skipped) as Hh1.
    { rewrite Hm1, filter_app, (proj2 (filter_nil_iff _ rest)), app_nil_r by done.
      rewrite filter_all; [done|]. intros y Hy.
      assert (y ∈ filter (overlaps lo hi) (isl_all m)) as Hin.
      { rewrite Hhits. simpl. rewrite elem_of_app, elem_of_cons. tauto. }
      by apply list_elem_of_filter in Hin as [? _]. }
    destruct (IH (filter (overlaps lo hi) (isl_all m1)) [] [] m1) as (m' & l & Hl & Hp & Hd).
    + done.
    + unfold slog_bufmax. simpl. lia.
    + by rewrite app_nil_r.
    + rewrite Hh1, length_app. simpl in *. lia.
    + rewrite isl_search_overlaps by done. exists m', ((table ++ [x]) ++ l). split; [done|].
      simpl in Hd. rewrite app_nil_r in Hd.
      assert (l ≡ₚ it ++ skipped) as Hl' by (rewrite Hd; by case_decide). split.
      * rewrite Hall, <- (app_assoc _ l), <- Hp, Hm1. by app_norm.
      * rewrite decide_True, Hl'; [by app_norm|].
        rewrite Heq, length_app. lia.
  - destruct (IH it (table ++ [x]) skipped m) as (m' & l & Hl & Hp & Hd); try done.
    + rewrite length_app in *. simpl in *. lia.
    + rewrite Hhits. by app_norm.
    + simpl in Hfuel. lia.
    + exists m', l. split; [done|]. split; [done|]. rewrite Hd, Heq. case_decide; by app_norm.
Qed.

Lemma slog_stale_maps n hits rest off d :
  (∀ x, x ∈ rest → ¬ (n ≤ sr_hi x)) → (∀ x, x ∈ hits → n ≤ sr_lo x) →
  slog_maps rest off d ↔ off < n ∧ slog_maps (hits ++ rest) off d.
Proof.
  intros Hrest Hhits. rewrite slog_maps_app. unfold slog_maps, covers; simpl. split.
  - intros (x & Hx & ? & ?). specialize (Hrest x Hx). split; [lia|]. right; eauto.
  - intros (? & [(x & Hx & ? & ?)|?]); [|done]. specialize (Hhits x Hx). lia.
Qed.

Lemma slog_maps_nil off d : ¬ slog_maps [] off d.
Proof. by intros (? & ?%not_elem_of_nil & ?). Qed.

#[local] Arguments slog_drop_loop : simpl never.

(** Removing what the loop collects when no extent straddles the new end. *)
Lemma slog_drop_whole n fs ir it rest m :
  n ≤ fs → ranges_ok (isl_all m) →
  filter (overlaps n fs) (isl_all m) = ir :: it → isl_all m ≡ₚ (ir :: it) ++ rest →
  ∃ m', slog_drop_loop (S (isl_count m)) n fs it [ir] m = Some m' ∧ isl_all m' ≡ₚ rest.
Proof.
  intros Hn Hok Hf Hall.
  destruct (slog_drop_loop_spec (S (isl_count m)) n fs it [ir] [] m)
    as (m' & l & Hl & Hp & Hd); [lia|done|unfold slog_bufmax; simpl; lia| | |].
  - by rewrite Hf, app_nil_r.
  - rewrite isl_count_all, Hall, length_app. simpl. lia.
  - exists m'. split; [done|]. rewrite Hall in Hp.
    assert (l ≡ₚ ir :: it) as Hd' by (rewrite Hd; case_decide; simpl; by rewrite ?app_nil_r).
    rewrite Hd' in Hp. by apply Permutation_app_inv_l in Hp.
Qed.

(** The same after the straddling extent was shortened to [ir']: the first
    extent the new search returns is skipped. *)
Lemma slog_drop_skip n fs ir' it rest m :
  n ≤ fs → ranges_ok (isl_all m) → StronglySorted before it →
  filter (overlaps n fs) (isl_all m) ≡ₚ it → isl_all m ≡ₚ it ++ ir' :: rest →
  ∃ m', slog_drop_loop (S (isl_count m)) n fs
          (tail (isl_search (Some n) (Some fs) m)) [] m = Some m' ∧
    isl_all m' ≡ₚ match it with
                  | y :: k => if decide (length k < slog_bufmax)%nat then [y] else []
                  | [] => []
                  end ++ ir' :: rest.
Proof.
  intros Hn Hok Hit Hf Hall.
  assert (isl_search (Some n) (Some fs) m = it) as ->.
  { apply before_unique; [|by apply isl_search_sorted|done|by rewrite isl_search_overlaps].
    rewrite isl_search_overlaps by done. by apply ranges_ok_filter. }
  destruct it as [|y k]; simpl.
  - exists m. split; [done|]. by rewrite Hall.
  - destruct (slog_drop_loop_spec (S (isl_count m)) n fs k [] [y] m)
      as (m' & l & Hl & Hp & Hd); [lia|done|unfold slog_bufmax; simpl; lia| | |].
    + rewrite Hf. simpl. by rewrite Permutation_app_comm.
    + rewrite isl_count_all, Hall. simpl. rewrite length_app. simpl. lia.
    + exists m'. split; [done|]. rewrite Hall, Hd in Hp. simpl in Hp. simpl.
      destruct (decide (length k < slog_bufmax)%nat).
      * rewrite decide_False in Hp by lia. apply (Permutation_app_inv_l k).
        rewrite <- Hp. simpl. by rewrite Permutation_middle.
      * rewrite decide_True in Hp by lia.
        assert (k ++ [y] ≡ₚ y :: k) as He by (by rewrite Permutation_app_comm).
        rewrite He in Hp. by apply (Permutation_app_inv_l (y :: k)).
Qed.

(** What is left of the extent that straddles the new end [n]. *)
Definition slog_trim (n : Z) (hits : list slog_range) : list slog_range :=
  match hits with
  | st :: _ => if decide (sr_lo st < n)
               then [Slog_range (sr_lo st) (n - 1) (sr_data_offset st)] else []
  | [] => []
  end.

(** The extents after a truncation, as a list. *)
Lemma slog_truncate_range_all (s : slog_map) r :
  slog_map_ok s → 0 ≤ sr_hi r + 1 ≤ sm_file_size s →
  let n := sr_hi r + 1 in
  let hits := isl_search (Some n) (Some (sm_file_size s)) (sm_mapping s) in
  ∃ m' rest, slog_truncate_range s r = Some (Slog_map m' n) ∧
    isl_all (sm_mapping s) ≡ₚ hits ++ rest ∧
    isl_all m' ≡ₚ slog_stale n hits ++ slog_trim n hits ++ rest.
Proof.
  intros (Hok & _ & Hsz) Hn n hits. unfold slog_truncate_range. fold n. fold hits.
  set (m := sm_mapping s) in *. set (fs := sm_file_size s) in *.
  assert (Hsort : StronglySorted before hits) by (apply isl_search_sorted; [lia|done]).
  assert (Hf : filter (overlaps n fs) (isl_all m) = hits)
    by (symmetry; apply isl_search_overlaps; [lia|done]).
  clearbody hits. destruct (filter_split (overlaps n fs) (isl_all m) hits) as (rest & Hall & _);
    [by rewrite Hf|].
  destruct hits as [|ir it]; simpl; [by exists m, rest|].
  apply StronglySorted_inv in Hsort as [Hits Hb]. apply filter_hd in Hf as Hir.
  destruct Hir as [Hir Hov]. unfold overlaps in Hov; simpl in Hov.
  case_decide as Hst.
  - rewrite (decide_True (P:=sr_lo ir < n)) by lia. simpl.
    replace (n - 1) with (sr_hi r) by lia. set (ir' := Slog_range _ _ _).
    pose proof (isl_all_remove ir m Hir) as Hp. simpl in Hp.
    set (m0 := isl_remove (sr_lo ir) (sr_hi ir) ir m) in *.
    assert (isl_all m0 ≡ₚ it ++ rest) as Hm0
      by (rewrite Hp in Hall; by apply Permutation_cons_inv in Hall).
    assert (isl_all (isl_insert (sr_lo ir) (sr_hi r) ir' m0) ≡ₚ ir' :: it ++ rest) as Hm1
      by (unfold ir'; rewrite slog_insert_all, Hm0 by lia; done).
    set (m1 := isl_insert _ _ ir' m0) in *.
    destruct (slog_drop_skip n fs ir' it rest m1) as (m' & -> & Hm'); [lia| |done| | |].
    + apply (ranges_ok_perm (ir' :: it ++ rest)); [done|].
      apply (ranges_ok_shrink ir); [unfold valid; simpl; lia|simpl; lia|simpl; lia|].
      by apply (ranges_ok_perm (isl_all m)).
    + rewrite Hm1, filter_cons_False by (unfold overlaps, ir'; simpl; lia).
      assert (filter (overlaps n fs) (isl_all m) ≡ₚ ir :: it) as Hf' by by rewrite Hf.
      rewrite Hp, Hm0, filter_cons_True in Hf' by (unfold overlaps; simpl; lia).
      by apply Permutation_cons_inv in Hf'.
    + by rewrite Hm1, Permutation_middle.
    + exists m', rest. split; [done|]. split; [done|]. rewrite Hm'. destruct it as [|y k]; [done|].
      rewrite (decide_ext _ (sr_lo ir < n ∧ (length k < slog_bufmax)%nat)) by (split; [|tauto]; lia).
      done.
  - rewrite decide_False by lia.
    destruct (slog_drop_whole n fs ir it rest m) as (m' & -> & Hm'); [lia|done..|].
    exists m', rest. split; [done|]. split; [done|]. rewrite Hm'.
    destruct it as [|y k]; [done|]. rewrite decide_False; [done|lia].
Qed.

Lemma slog_trim_maps n hits off d :
  (∀ x, x ∈ tail hits → n ≤ sr_lo x) → (∀ x, x ∈ hits → n ≤ sr_hi x) →
  slog_maps (slog_trim n hits) off d ↔ off < n ∧ slog_maps hits off d.
Proof.
  intros Htl Hhi. destruct hits as [|st it]; simpl in *.
  { pose proof (slog_maps_nil off d). tauto. }
  specialize (Hhi st ltac:(by left)).
  rewrite (slog_maps_cons st it), slog_maps_one.
  assert (¬ (off < n ∧ slog_maps it off d)) as Hno.
  { intros (? & x & Hx & Hc & _). specialize (Htl x Hx). unfold covers in Hc; simpl in Hc. lia. }
  case_decide.
  - rewrite slog_maps_one. unfold covers; simpl. split; [intros [? ->]; split; [lia|left; lia]|].
    intros [? [[? ->]|?]]; [lia|tauto].
  - pose proof (slog_maps_nil off d). unfold covers; simpl. split; [done|].
    intros [? [[? _]|?]]; [lia|tauto].
Qed.

Lemma slog_stale_tail n hits x : x ∈ slog_stale n hits → x ∈ tail hits.
Proof.
  destruct hits as [|st [|y k]]; simpl; [done..|]. case_decide; [|by intros ?%not_elem_of_nil].
  intros ->%list_elem_of_singleton. by left.
Qed.

Lemma slog_truncated_ranges_ok n hits rest :
  ranges_ok (hits ++ rest) → (∀ x, x ∈ hits → n ≤ sr_hi x) →
  ranges_ok (slog_stale n hits ++ slog_trim n hits ++ rest).
Proof.
  intros Hok Hhi. destruct hits as [|st it]; [done|]. simpl slog_trim.
  specialize (Hhi st ltac:(by left)).
  assert (ranges_ok (slog_stale n (st :: it) ++ st :: rest)) as Hst.
  { apply (ranges_ok_submseteq _ ((st :: it) ++ rest)); [|done].
    destruct it as [|y k]; simpl; [done|]. case_decide; simpl.
    - rewrite Permutation_swap. by do 2 apply submseteq_skip; apply submseteq_inserts_l.
    - apply submseteq_skip, submseteq_cons, submseteq_inserts_l. done. }
  apply (ranges_ok_perm _ (st :: slog_stale n (st :: it) ++ rest)) in Hst;
    [|by rewrite Permutation_middle].
  case_decide.
  - apply (ranges_ok_perm (Slog_range (sr_lo st) (n - 1) (sr_data_offset st) ::
      slog_stale n (st :: it) ++ rest)); [by rewrite Permutation_middle|].
    apply (ranges_ok_shrink st); [unfold valid; simpl; lia|simpl; lia|simpl; lia|done].
  - by apply ranges_ok_cons in Hst as (_ & _ & ?).
Qed.

Lemma slog_truncate_range_spec (s : slog_map) r :
  slog_map_ok s → 0 ≤ sr_hi r + 1 ≤ sm_file_size s →
  let n := sr_hi r + 1 in
  let stale := slog_stale n
    (isl_search (Some n) (Some (sm_file_size s)) (sm_mapping s)) in
  ∃ s', slog_truncate_range s r = Some s' ∧ sm_file_size s' = n ∧
    ranges_ok (isl_all (sm_mapping s')) ∧
    (stale = [] → slog_map_ok s') ∧
    (∀ x, x ∈ stale → n ≤ sr_lo x) ∧
    ∀ off d, slog_maps (isl_all (sm_mapping s')) off d ↔
      (off < n ∧ slog_maps (isl_all (sm_mapping s)) off d) ∨ slog_maps stale off d.
Proof.
  intros Hs Hn n stale.
  destruct (slog_truncate_range_all s r Hs Hn) as (m' & rest & Hm' & Hall & Hp).
  fold n in Hm', Hall, Hp. fold stale in Hp. destruct Hs as (Hok & Hin & Hsz).
  rewrite Forall_forall in Hin.
  pose proof (isl_search_sorted (sm_mapping s) n (sm_file_size s) ltac:(lia) Hok) as Hsort.
  pose proof (λ x, isl_search_elem (sm_mapping s) n (sm_file_size s) x ltac:(lia) Hok) as Hel.
  unfold stale in *.
  set (hits := isl_search _ _ _) in *. clearbody hits. clear stale.
  pose proof (ranges_ok_perm _ _ Hall Hok) as Hok'.
  assert (Hhi : ∀ x, x ∈ hits → n ≤ sr_hi x).
  { intros x Hx%Hel. unfold overlaps in Hx; simpl in Hx. lia. }
  assert (Htl : ∀ x, x ∈ tail hits → n ≤ sr_lo x).
  { destruct hits as [|st it]; simpl; [by intros ? ?%not_elem_of_nil|]. intros x Hx.
    apply StronglySorted_inv in Hsort as [_ Hb]. rewrite Forall_forall in Hb.
    specialize (Hb x Hx). specialize (Hhi st ltac:(by left)).
    unfold before in *; simpl in *. lia. }
  assert (Hrest : ∀ x, x ∈ rest → 0 ≤ sr_lo x ∧ sr_hi x < n).
  { intros x Hx. assert (x ∈ isl_all (sm_mapping s)) as Hxs
      by (rewrite Hall, elem_of_app; by right).
    specialize (Hin x Hxs). split; [lia|]. pose proof (ranges_ok_valid _ _ Hok Hxs) as Hv.
    destruct (decide (n ≤ sr_hi x)); [|lia]. exfalso.
    assert (x ∈ hits) as Hxh by (apply Hel; unfold overlaps, valid in *; simpl in *; split; [done|lia]).
    apply ranges_ok_app in Hok' as (_ & _ & Ha). specialize (Ha x x Hxh Hx).
    unfold apart, valid in *. lia. }
  eexists; split; [done|]. simpl. split; [done|].
  assert (ranges_ok (isl_all m')) as Hm'ok.
  { apply (ranges_ok_perm _ _ (symmetry Hp)). by apply slog_truncated_ranges_ok. }
  split; [done|]. split_and!.
  - intros Hst. rewrite Hst in Hp. simpl in Hp. split_and!; [done| |simpl; lia].
    simpl. rewrite Hp. apply Forall_app; split; [|by apply Forall_forall].
    destruct hits as [|st it]; simpl; [constructor|]. case_decide; constructor; [|constructor].
    simpl. specialize (Hin st ltac:(by rewrite Hall; left)). lia.
  - intros x Hx%slog_stale_tail. auto.
  - intros off d. rewrite Hp, Hall, !slog_maps_app, slog_trim_maps by done.
    rewrite (slog_stale_maps n [] rest) by (done || by intros ? ?%not_elem_of_nil || (intros x Hx; specialize (Hrest x Hx); lia)).
    simpl. tauto.
Qed.
End slog_map_facts.

(** ** The two mapping functions *)
Section slog_map_correct.
Context `{!ISL slog_range, !ISLOk slog_range}.
Implicit Types (s : slog_map) (r : slog_range).

(** Entering a range always returns (the cutting loop ends), keeps the
    extents disjoint and inside the file, extends the file to the range, and
    changes the mapping exactly on the range: there it is the new data, and
    everywhere else what it was, however the range cuts, splits or joins the
    extents it meets. *)
Theorem slog_insert_range_correct s r :
  slog_map_ok s → 0 ≤ sr_lo r ≤ sr_hi r →
  ∃ s', slog_insert_range s r = Some s' ∧ slog_map_ok s' ∧
    sm_file_size s' = Z.max (sm_file_size s) (sr_hi r + 1) ∧
    ∀ off, slog_lookup (sm_mapping s') off =
      if decide (sr_lo r ≤ off ≤ sr_hi r)
      then Some (sr_data_offset r + (off - sr_lo r))
      else slog_lookup (sm_mapping s) off.
Proof.
  intros Hs Hr. destruct (slog_insert_range_spec s r Hs Hr) as (s' & Hi & Hs' & Hsz & Hm).
  exists s'. split_and!; try done. intros off. by apply slog_insert_range_lookup.
Qed.

(** A truncation inside the file whose new end is not inside an extent
    returns, keeps the map well formed, and unmaps exactly the offsets from
    the new end on, in batches of at most [bufmax] extents. *)
Theorem slog_truncate_range_correct s r :
  slog_map_ok s → 0 ≤ sr_hi r + 1 ≤ sm_file_size s →
  (∀ x, x ∈ isl_all (sm_mapping s) → ¬ (sr_lo x ≤ sr_hi r < sr_hi x)) →
  ∃ s', slog_truncate_range s r = Some s' ∧ slog_map_ok s' ∧
    sm_file_size s' = sr_hi r + 1 ∧
    ∀ off, slog_lookup (sm_mapping s') off =
      if decide (off ≤ sr_hi r) then slog_lookup (sm_mapping s) off else None.
Proof.
  intros Hs Hr Hno. destruct (slog_truncate_range_spec s r Hs Hr)
    as (s' & Ht & Hsz & Hok & Hs' & _ & Hm).
  assert (Hst : slog_stale (sr_hi r + 1)
            (isl_search (Some (sr_hi r + 1)) (Some (sm_file_size s)) (sm_mapping s)) = []).
  { pose proof (isl_search_elem (sm_mapping s) (sr_hi r + 1) (sm_file_size s)) as Hel.
    destruct (isl_search _ _ _) as [|st [|y rest]]; simpl; try done.
    rewrite decide_False; [done|]. intros [Hlo _].
    destruct (Hel st ltac:(lia) ltac:(apply Hs)) as [Hx _]. destruct (Hx ltac:(by left)) as [Hx' Hov].
    specialize (Hno st Hx'). unfold overlaps in Hov; simpl in Hov. lia. }
  exists s'. split_and!; try done; [by apply Hs'|]. intros off. rewrite Hst in Hm.
  destruct Hs as [Hok0 _]. apply option_eq. intros d. rewrite slog_lookup_maps, Hm by done.
  case_decide.
  - rewrite slog_lookup_maps by done. split; [|intros; left; by split; [lia|]].
    intros [[_ ?]|?%slog_maps_nil]; done.
  - split; [|done]. intros [[? _]|?%slog_maps_nil]; [lia|done].
Qed.

(** A truncation that cuts an extent in two skips the extent after it:
    although it lies wholly past the new end it stays in the map, data and
    all (unless a full batch makes the search start over). *)
Theorem slog_truncate_range_skips s r st y rest :
  slog_map_ok s → 0 ≤ sr_hi r + 1 ≤ sm_file_size s →
  isl_search (Some (sr_hi r + 1)) (Some (sm_file_size s)) (sm_mapping s) = st :: y :: rest →
  sr_lo st ≤ sr_hi r → (length rest < slog_bufmax)%nat →
  ∃ s', slog_truncate_range s r = Some s' ∧ sm_file_size s' = sr_hi r + 1 ∧
    sr_hi r < sr_lo y ∧
    ∀ off, covers off y →
      slog_lookup (sm_mapping s') off = Some (sr_data_offset y + (off - sr_lo y)).
Proof.
  intros Hs Hr Hse Hlo Hlen. destruct (slog_truncate_range_spec s r Hs Hr)
    as (s' & Ht & Hsz & Hok & _ & Hst & Hm).
  rewrite Hse in Hm, Hst. simpl in Hm, Hst. rewrite decide_True in Hm, Hst by (split; [lia|done]).
  exists s'. split_and!; try done.
  - specialize (Hst y ltac:(by left)). lia.
  - intros off Hc. apply slog_lookup_maps; [done|]. apply Hm. right. by apply slog_maps_one.
Qed.
End slog_map_correct.
