(* ===== verification/SegLogWrite.v ===== *)
(** * Log-structured segments (segment_log.c)

    A log segment stacks a log on a base segment: writes are appended to the
    data segment and described in the table segment, and the extent map says
    which offsets the log holds.  The map is the component [SegLogMap]; here
    are the operations of the driver on top of it. *)
From S2P Require Import Prelude Isl Seg Words SegLogMap.

(** ** Data *)

(** [sizeof(slog_range_t)], and the record as it lies in the table segment. *)
Definition slog_range_size : Z := 24.
Definition slog_range_bytes (r : slog_range) : list Z :=
  int64_bytes (sr_lo r) ++ int64_bytes (sr_hi r) ++ int64_bytes (sr_data_offset r).
Definition slog_range_of_buf (buf : tbuffer) (off : Z) : slog_range :=
  Slog_range (int64_of_bytes (list_of_buf buf off 8))
             (int64_of_bytes (list_of_buf buf (off + 8) 8))
             (int64_of_bytes (list_of_buf buf (off + 16) 8)).

Section seglog.
Context {T D B : Type}.
Context `{!ISL slog_range, !Gop, !Segment T, !Segment D, !Segment B}.

(** [seglog_priv_t], less the service handles. *)
Record seglog_priv := Seglog_priv {
  table_seg : T; data_seg : D; base_seg : B;
  sl_map : slog_map;  (* mapping and file_size *)
  log_size : Z; data_size : Z;
  soft_errors : Z; hard_errors : Z }.

Definition file_size (s : seglog_priv) : Z := sm_file_size (sl_map s).
Definition mapping (s : seglog_priv) : isl := sm_mapping (sl_map s).

Definition set_map (s : seglog_priv) (m : slog_map) : seglog_priv :=
  Seglog_priv (table_seg s) (data_seg s) (base_seg s) m
    (log_size s) (data_size s) (soft_errors s) (hard_errors s).
Definition set_segs (s : seglog_priv) (t : T) (d : D) (b : B) : seglog_priv :=
  Seglog_priv t d b (sl_map s)
    (log_size s) (data_size s) (soft_errors s) (hard_errors s).
Definition set_sizes (s : seglog_priv) (lsize dsize : Z) : seglog_priv :=
  Seglog_priv (table_seg s) (data_seg s) (base_seg s) (sl_map s)
    lsize dsize (soft_errors s) (hard_errors s).
Definition add_hard_error (s : seglog_priv) : seglog_priv :=
  Seglog_priv (table_seg s) (data_seg s) (base_seg s) (sl_map s)
    (log_size s) (data_size s) (soft_errors s) (hard_errors s + 1).

(** ** Writing *)

(** The records of a vector write; on disk the second field is the length. *)
Fixpoint slog_records (dsize nbytes : Z) (iov : list ex_iovec) : list slog_range * Z :=
  match iov with
  | [] => ([], nbytes)
  | v :: iov =>
      let '(rs, n) := slog_records dsize (nbytes + iov_len v) iov in
      (Slog_range (iov_offset v) (iov_len v) (dsize + nbytes) :: rs, n)
  end.

(** What a write holds between releasing the lock and committing. *)
Record slog_job := Slog_job {
  job_records : list slog_range; job_nbytes : Z;
  job_table_offset : Z; job_data_offset : Z }.

(** First critical section of [seglog_write_func]: reserve the space. *)
Definition seglog_write_reserve (s : seglog_priv) (iov : list ex_iovec)
    : seglog_priv * slog_job :=
  let '(rs, nbytes) := slog_records (data_size s) 0 iov in
  (set_sizes s (log_size s + Z.of_nat (length iov) * slog_range_size)
     (data_size s + nbytes),
   Slog_job rs nbytes (log_size s) (data_size s)).

(** The data and table writes, waited for together. *)
Definition seglog_write_io (s : seglog_priv) (j : slog_job) (buf : tbuffer) (boff : Z)
    : seglog_priv * op_state :=
  let '(d, st1) := segment_write (data_seg s)
    [Ex_iovec (job_data_offset j) (job_nbytes j)] buf boff in
  let rs := job_records j in
  let '(t, st2) := segment_write (table_seg s)
    [Ex_iovec (job_table_offset j) (Z.of_nat (length rs) * slog_range_size)]
    (buf_of_list (rs ≫= slog_range_bytes)) 0 in
  (set_segs s t d (base_seg s), opque_waitall [st1; st2]).

(** Second critical section: enter the ranges in the map. *)
Definition slog_disk_to_mem (r : slog_range) : slog_range :=
  Slog_range (sr_lo r) (sr_lo r + sr_hi r - 1) (sr_data_offset r).

Fixpoint slog_insert_all (m : slog_map) (rs : list slog_range) : option slog_map :=
  match rs with
  | [] => Some m
  | r :: rs => m ← slog_insert_range m (slog_disk_to_mem r); slog_insert_all m rs
  end.

Definition seglog_write_commit (s : seglog_priv) (j : slog_job) (err : op_state)
    : option (seglog_priv * op_status) :=
  if decide (err = OP_STATE_SUCCESS) then
    m ← slog_insert_all (sl_map s) (job_records j);
    Some (set_map s m, op_success_status)
  else Some (add_hard_error s, op_failure_status).

Definition seglog_write_func (s : seglog_priv) (iov : list ex_iovec)
    (buf : tbuffer) (boff : Z) : option (seglog_priv * op_status) :=
  let '(s, j) := seglog_write_reserve s iov in
  let '(s, err) := seglog_write_io s j buf boff in
  seglog_write_commit s j err.

End seglog.
Arguments seglog_priv T D B {_}.

Section seglog_ops.
Context {T D B : Type}.
Context `{!ISL slog_range, !Gop, !Segment T, !Segment D, !Segment B}.
Abbreviation seglog := (seglog_priv T D B).

(** ** Sizes and creation *)
Definition seglog_size (s : seglog) : Z := file_size s.
Definition seglog_block_size (s : seglog) : Z := 1.

(** [slog_make]: a new log level over a base. *)
Definition slog_make (t : T) (d : D) (b : B) : seglog :=
  Seglog_priv t d b (Slog_map isl_create (segment_size b)) 0 0 0 0.
End seglog_ops.

(** * Log segments: what a write does

    The abstract view of a log segment is a file: a size and a byte at every
    offset, read through the log ([seglog_byte]).  A write overlays the file
    with the request's data; a failed write leaves it alone. *)
(** ** The abstract file *)

Section content.
Context `{!ISL slog_range}.

(** The byte at [off] seen through a map, over the two byte stores. *)
Definition content_of (m : slog_map) (fd fb : Z → Z) (off : Z) : Z :=
  match slog_lookup (sm_mapping m) off with Some d => fd d | None => fb off end.

Context {T D B : Type} `{!SegBytes D, !SegBytes B}.

Definition seglog_byte (s : seglog_priv T D B) (off : Z) : Z :=
  content_of (sl_map s) (seg_byte (data_seg s)) (seg_byte (base_seg s)) off.

(** Every mapped offset lies in the part of the data segment in use. *)
Definition data_bound (m : slog_map) (dsize : Z) : Prop :=
  ∀ off d, slog_maps (isl_all (sm_mapping m)) off d → 0 ≤ d < dsize.

Definition seglog_ok (s : seglog_priv T D B) : Prop :=
  slog_map_ok (sl_map s) ∧ data_bound (sl_map s) (data_size s) ∧ 0 ≤ data_size s.
End content.

(** ** Maps and contents *)
Section write_facts.
Context `{!ISL slog_range, !ISLOk slog_range}.
Implicit Types (m : slog_map) (iov : list ex_iovec).

Lemma content_of_ext m fd fd' fb fb' dsize :
  slog_map_ok m → data_bound m dsize →
  (∀ d, 0 ≤ d < dsize → fd d = fd' d) → (∀ i, fb i = fb' i) →
  ∀ off, content_of m fd fb off = content_of m fd' fb' off.
Proof.
  intros [Hok _] Hb Hfd Hfb off. unfold content_of.
  destruct (slog_lookup (sm_mapping m) off) as [d|] eqn:Hl; [|done].
  apply Hfd, (Hb off). by apply slog_lookup_maps.
Qed.

Lemma slog_records_spec dsize nbytes iov :
  (slog_records dsize nbytes iov).2 = nbytes + iov_total iov ∧
  length (slog_records dsize nbytes iov).1 = length iov.
Proof.
  revert nbytes. induction iov as [|v iov IH]; intros nbytes; simpl; [lia|].
  specialize (IH (nbytes + iov_len v)).
  destruct (slog_records dsize (nbytes + iov_len v) iov) as [rs n]. simpl in *. lia.
Qed.

(** Entering the records of a vector write overlays the contents with the
    data-segment bytes reserved for it. *)
Lemma slog_insert_all_spec m iov dsize nbytes :
  slog_map_ok m → iov_ok iov →
  ∃ m', slog_insert_all m (slog_records dsize nbytes iov).1 = Some m' ∧
    slog_map_ok m' ∧ sm_file_size m' = iov_end (sm_file_size m) iov ∧
    (∀ off d, slog_maps (isl_all (sm_mapping m')) off d →
       slog_maps (isl_all (sm_mapping m)) off d ∨
       dsize + nbytes ≤ d < dsize + nbytes + iov_total iov) ∧
    ∀ fd fb off, content_of m' fd fb off =
      iov_overlay (content_of m fd fb) iov fd (dsize + nbytes) off.
Proof.
  intros Hm Hiov. revert m nbytes Hm.
  induction Hiov as [|v iov [Hv0 Hv] Hiov IH]; intros m nbytes Hm.
  { exists m. simpl. split_and!; auto. }
  simpl. destruct (slog_records dsize (nbytes + iov_len v) iov) as [rs n] eqn:Hrs. simpl.
  set (r := slog_disk_to_mem _).
  assert (0 ≤ sr_lo r ≤ sr_hi r) as Hr by (simpl; lia).
  destruct (slog_insert_range_spec m r Hm Hr) as (m1 & Hm1 & Hok1 & Hsz1 & Hmaps1).
  rewrite Hm1. simpl. pose proof (iov_total_nonneg iov Hiov) as Htot.
  destruct (IH m1 (nbytes + iov_len v)) as (m' & Hm' & Hok' & Hsz' & Hb' & Hc'); [done|].
  rewrite Hrs in Hm'. simpl in Hm'. exists m'. split_and!; try done.
  - rewrite Hsz', Hsz1. simpl. do 2 f_equal. lia.
  - intros off d [Hd|Hd]%Hb'; [|right; lia]. rewrite Hmaps1, slog_maps_one in Hd.
    unfold covers in Hd; simpl in Hd. destruct Hd as [[? ->]|[_ ?]]; [right; lia|by left].
  - intros fd fb off. rewrite Hc'. apply iov_overlay_ext; [done| |by intros; f_equal; lia].
    intros i. unfold content_of, buf_put.
    rewrite (slog_insert_range_lookup m m1 r i Hm Hok1 (Hmaps1 i)). simpl.
    destruct (decide (iov_offset v ≤ i < iov_offset v + iov_len v)).
    + by rewrite decide_True by lia.
    + by rewrite decide_False by lia.
Qed.

Context {T D B : Type} `{!Gop, !GopOk, !Segment T, !Segment D, !Segment B}.
Context `{!SegBytes T, !SegBytes D, !SegBytes B, !SegmentOk T, !SegmentOk D, !SegmentOk B}.
Implicit Types (s : seglog_priv T D B).

Lemma waitall_two st1 st2 :
  opque_waitall [st1; st2] = OP_STATE_SUCCESS ↔
  op_st st1 = OP_STATE_SUCCESS ∧ op_st st2 = OP_STATE_SUCCESS.
Proof.
  rewrite opque_waitall_success. setoid_rewrite elem_of_cons.
  setoid_rewrite list_elem_of_singleton. naive_solver.
Qed.

Lemma waitall_cases l :
  opque_waitall l = OP_STATE_SUCCESS ∨ opque_waitall l = OP_STATE_FAILURE.
Proof. destruct (opque_waitall l); tauto. Qed.

(** The reservation of a write, and the job it leaves. *)
Lemma seglog_write_reserve_spec s iov s1 j :
  iov_ok iov → seglog_write_reserve s iov = (s1, j) →
  j = Slog_job (slog_records (data_size s) 0 iov).1 (iov_total iov)
        (log_size s) (data_size s) ∧
  length (job_records j) = length iov ∧
  s1 = set_sizes s (log_size s + Z.of_nat (length iov) * slog_range_size)
         (data_size s + iov_total iov).
Proof.
  intros Hiov. unfold seglog_write_reserve.
  destruct (slog_records_spec (data_size s) 0 iov) as [Hn Hlen].
  destruct (slog_records (data_size s) 0 iov) as [rs n]. simpl in *. subst n.
  by intros [= <- <-].
Qed.

(** The data and table writes change nothing but the reserved bytes. *)
Lemma seglog_write_io_spec s j buf boff s' err :
  0 ≤ job_nbytes j → seglog_write_io s j buf boff = (s', err) →
  sl_map s' = sl_map s ∧ data_size s' = data_size s ∧ log_size s' = log_size s ∧
  base_seg s' = base_seg s ∧ soft_errors s' = soft_errors s ∧ hard_errors s' = hard_errors s ∧
  (∀ d, ¬ (job_data_offset j ≤ d < job_data_offset j + job_nbytes j) →
     seg_byte (data_seg s') d = seg_byte (data_seg s) d) ∧
  (err = OP_STATE_SUCCESS → ∀ i, 0 ≤ i < job_nbytes j →
     seg_byte (data_seg s') (job_data_offset j + i) = buf (boff + i)).
Proof.
  intros Hn. unfold seglog_write_io.
  pose proof (write_frame (data_seg s) (job_data_offset j) (job_nbytes j) buf boff) as Hfr.
  pose proof (write_bytes (data_seg s) (job_data_offset j) (job_nbytes j) buf boff) as Hwr.
  destruct (segment_write (data_seg s) _ buf boff) as [d st1].
  destruct (segment_write (table_seg s) _ _ 0) as [t st2]. simpl in *.
  intros [= <- <-]. simpl. split_and!; try done.
  intros [Hst1 _]%waitall_two i Hi. rewrite Hwr by (done || lia). f_equal. lia.
Qed.

(** Committing a job whose data are in place overlays the file; a failed job
    only counts a hard error. *)
Lemma seglog_write_commit_spec s iov buf boff toff doff err :
  slog_map_ok (sl_map s) → iov_ok iov →
  (err = OP_STATE_SUCCESS → ∀ i, 0 ≤ i < iov_total iov →
     seg_byte (data_seg s) (doff + i) = buf (boff + i)) →
  let j := Slog_job (slog_records doff 0 iov).1 (iov_total iov) toff doff in
  ∃ s' st, seglog_write_commit s j err = Some (s', st) ∧
    table_seg s' = table_seg s ∧ data_seg s' = data_seg s ∧ base_seg s' = base_seg s ∧
    log_size s' = log_size s ∧ data_size s' = data_size s ∧ slog_map_ok (sl_map s') ∧
    (∀ off d, slog_maps (isl_all (mapping s')) off d →
       slog_maps (isl_all (mapping s)) off d ∨ doff ≤ d < doff + iov_total iov) ∧
    if decide (err = OP_STATE_SUCCESS) then
      op_st st = OP_STATE_SUCCESS ∧ hard_errors s' = hard_errors s ∧
      file_size s' = iov_end (file_size s) iov ∧
      ∀ off, seglog_byte s' off = iov_overlay (seglog_byte s) iov buf boff off
    else op_st st = OP_STATE_FAILURE ∧ hard_errors s' = hard_errors s + 1 ∧
         sl_map s' = sl_map s.
Proof.
  intros Hm Hiov Hdata j. unfold seglog_write_commit.
  destruct (slog_insert_all_spec (sl_map s) iov doff 0 Hm Hiov)
    as (m' & Hm' & Hok' & Hsz' & Hb' & Hc'). rewrite Z.add_0_r in *.
  destruct (decide (err = OP_STATE_SUCCESS)) as [He|He].
  - simpl. rewrite Hm'. simpl. do 2 eexists. split; [done|]. simpl.
    split_and!; try done; [apply op_success_state|].
    intros off. unfold seglog_byte. simpl. rewrite Hc'.
    apply iov_overlay_ext; [done..|]. intros i Hi. by apply Hdata.
  - do 2 eexists. split; [done|]. simpl. split_and!; try done; [tauto|].
    apply op_failure_state.
Qed.

(** C1: a vector write to a well-formed log segment returns; when it reports
    success the file is the old one overlaid with the request's data, its
    size extended to the furthest byte written. *)
Theorem seglog_write_correct s iov buf boff :
  seglog_ok s → iov_ok iov →
  ∃ s' st, seglog_write_func s iov buf boff = Some (s', st) ∧ seglog_ok s' ∧
    (op_st st = OP_STATE_SUCCESS →
       file_size s' = iov_end (file_size s) iov ∧
       ∀ off, seglog_byte s' off = iov_overlay (seglog_byte s) iov buf boff off) ∧
    (op_st st = OP_STATE_FAILURE →
       file_size s' = file_size s ∧ hard_errors s' = hard_errors s + 1 ∧
       ∀ off, seglog_byte s' off = seglog_byte s off).
Proof.
  intros (Hm & Hb & Hd) Hiov. unfold seglog_write_func.
  destruct (seglog_write_reserve s iov) as [s1 j] eqn:Hr.
  apply seglog_write_reserve_spec in Hr as (-> & _ & ->); [|done].
  pose proof (iov_total_nonneg iov Hiov) as Htot.
  destruct (seglog_write_io _ _ buf boff) as [s2 err] eqn:Hio.
  apply seglog_write_io_spec in Hio as (Hmap & Hds & _ & Hbase & _ & Hhe & Hfr & Hwr); [|done].
  simpl in Hmap, Hds, Hbase, Hfr, Hwr.
  assert (Hsame : ∀ off, seglog_byte s2 off = seglog_byte s off).
  { intros off. unfold seglog_byte. rewrite Hmap, Hbase.
    apply (content_of_ext _ _ _ _ _ (data_size s)); [done..| |done].
    intros d Hd'. apply Hfr. lia. }
  destruct (seglog_write_commit_spec s2 iov buf boff (log_size s) (data_size s) err)
    as (s' & st & -> & _ & Hdata' & Hbase' & _ & Hds' & Hok' & Hb' & Hcase); [by rewrite Hmap|done..|].
  exists s', st. split; [done|]. split.
  { split_and!; [done| |lia]. intros off d [Hd'|Hd']%Hb'; [|lia].
    unfold mapping in Hd'. rewrite Hmap in Hd'. apply Hb in Hd'. lia. }
  unfold file_size in *. rewrite Hmap in Hcase.
  destruct (decide (err = OP_STATE_SUCCESS)); destruct Hcase as (-> & Hhe' & Hcase).
  - split; [intros _|done]. destruct Hcase as [? Hov]. split; [done|].
    intros off. rewrite Hov. by apply iov_overlay_ext.
  - split; [done|intros _]. rewrite Hcase, Hhe', Hhe. split_and!; try done.
    intros off. rewrite <- (Hsame off). unfold seglog_byte. by rewrite Hcase, Hdata', Hbase', Hmap.
Qed.
End write_facts.
