(* ===== verification/SegLogConc.v ===== *)
(** * Log segments: concurrent writers

    [seglog_write_func] holds the segment lock while it reserves space and
    while it commits, but not during the data and table writes in between.
    Here the three phases of any number of writers interleave freely. *)
From Stdlib Require Import Relations.
From S2P Require Import Prelude Isl SegLogMap Seg Words SegLogWrite.

(** ** Writers and their steps *)
Section conc.
Context {T D B : Type}.
Context `{!ISL slog_range, !Gop, !Segment T, !Segment D, !Segment B}.

(** A writer between its two critical sections; [w_err] is the result of its
    data and table writes once they are done. *)
Record slog_writer := Slog_writer {
  w_iov : list ex_iovec; w_buf : tbuffer; w_boff : Z;
  w_job : slog_job; w_err : option op_state }.

Definition slog_cfg : Type := seglog_priv T D B * list slog_writer.

(** What a step means for the file. *)
Inductive slog_event :=
| EvInternal
| EvCommit (iov : list ex_iovec) (buf : tbuffer) (boff : Z) (st : op_status).

Inductive slog_step : slog_cfg → slog_event → slog_cfg → Prop :=
| step_reserve s ws iov buf boff s' j :
    iov_ok iov → seglog_write_reserve s iov = (s', j) →
    slog_step (s, ws) EvInternal (s', Slog_writer iov buf boff j None :: ws)
| step_io s ws1 ws2 iov buf boff j s' err :
    seglog_write_io s j buf boff = (s', err) →
    slog_step (s, ws1 ++ Slog_writer iov buf boff j None :: ws2) EvInternal
              (s', ws1 ++ Slog_writer iov buf boff j (Some err) :: ws2)
| step_commit s ws1 ws2 iov buf boff j err s' st :
    seglog_write_commit s j err = Some (s', st) →
    slog_step (s, ws1 ++ Slog_writer iov buf boff j (Some err) :: ws2)
              (EvCommit iov buf boff st) (s', ws1 ++ ws2).

Inductive slog_steps : slog_cfg → list slog_event → slog_cfg → Prop :=
| steps_nil c : slog_steps c [] c
| steps_snoc c1 evs c2 ev c3 :
    slog_steps c1 evs c2 → slog_step c2 ev c3 → slog_steps c1 (evs ++ [ev]) c3.
End conc.
Arguments slog_cfg T D B {_}.

(** ** The invariant *)
Section conc_facts.
Context `{!ISL slog_range, !ISLOk slog_range}.
Context {T D B : Type} `{!Gop, !GopOk, !Segment T, !Segment D, !Segment B}.
Context `{!SegBytes T, !SegBytes D, !SegBytes B, !SegmentOk T, !SegmentOk D, !SegmentOk B}.
Implicit Types (s : seglog_priv T D B) (w : slog_writer).

(** The extent of the data segment a writer owns. *)
#[export] Instance writer_ranged : Ranged slog_writer := {|
  r_lo w := job_data_offset (w_job w);
  r_hi w := job_data_offset (w_job w) + iov_total (w_iov w) - 1 |}.

Definition writer_ok s w : Prop :=
  iov_ok (w_iov w) ∧
  w_job w = Slog_job (slog_records (job_data_offset (w_job w)) 0 (w_iov w)).1
              (iov_total (w_iov w)) (job_table_offset (w_job w)) (job_data_offset (w_job w)) ∧
  0 ≤ r_lo w ∧ r_hi w < data_size s ∧
  (* nothing committed lies in it *)
  (∀ off d, slog_maps (isl_all (mapping s)) off d → ¬ covers d w) ∧
  (* after a successful transfer it holds the request's data *)
  (w_err w = Some OP_STATE_SUCCESS → ∀ i, 0 ≤ i < iov_total (w_iov w) →
     seg_byte (data_seg s) (r_lo w + i) = w_buf w (w_boff w + i)).

Definition cfg_ok (c : slog_cfg T D B) : Prop :=
  seglog_ok c.1 ∧ (∀ w, w ∈ c.2 → writer_ok c.1 w) ∧ ForallOrdPairs apart c.2.

(** The file a configuration shows, and what an event does to a file. *)
Definition cfg_file (c : slog_cfg T D B) : Z * (Z → Z) := (file_size c.1, seglog_byte c.1).

Definition event_file (f : Z * (Z → Z)) (ev : slog_event) : Z * (Z → Z) :=
  match ev with
  | EvInternal => f
  | EvCommit iov buf boff st =>
      if decide (op_st st = OP_STATE_SUCCESS)
      then (iov_end f.1 iov, iov_overlay f.2 iov buf boff) else f
  end.

Definition file_eq (f g : Z * (Z → Z)) : Prop := f.1 = g.1 ∧ ∀ off, f.2 off = g.2 off.

#[export] Instance file_eq_equiv : Equivalence file_eq.
Proof.
  split; [by split|intros f g [? ?]; by split|].
  intros f g h [? Hfg] [? Hgh]. split; [congruence|]. intros off. by rewrite Hfg.
Qed.

Lemma event_file_proper f g ev :
  file_eq f g → (∀ iov buf boff st, ev = EvCommit iov buf boff st → iov_ok iov) →
  file_eq (event_file f ev) (event_file g ev).
Proof.
  intros [Hs Hb] Hok. destruct ev as [|iov buf boff st]; simpl; [by split|].
  case_decide; [|by split]. split; simpl; [by rewrite Hs|].
  by apply iov_overlay_ext; [eapply Hok| |].
Qed.

Lemma writer_ok_mono s s' w :
  writer_ok s w → data_size s ≤ data_size s' →
  (∀ off d, slog_maps (isl_all (mapping s')) off d → ¬ covers d w) →
  (∀ d, covers d w → seg_byte (data_seg s') d = seg_byte (data_seg s) d) →
  writer_ok s' w.
Proof.
  intros (Hiov & Hj & Hlo & Hhi & _ & Hdata) Hds Hmaps Hsame.
  split_and!; [done|done|done|lia|done|]. intros Herr i Hi.
  rewrite <- (Hdata Herr i Hi). apply Hsame. unfold covers. simpl. lia.
Qed.

Lemma reserve_step_ok s ws iov buf boff s' j :
  cfg_ok (s, ws) → iov_ok iov → seglog_write_reserve s iov = (s', j) →
  cfg_ok (s', Slog_writer iov buf boff j None :: ws).
Proof.
  intros ((Hm & Hb & Hd) & Hws & Hap) Hiov Hr. simpl in *.
  apply seglog_write_reserve_spec in Hr as (-> & _ & ->); [|done].
  pose proof (iov_total_nonneg iov Hiov). split_and!; simpl.
  - split_and!; simpl; [done| |lia]. intros off d Hdd%Hb. lia.
  - intros w [->|Hw]%elem_of_cons.
    + split_and!; simpl; try done; try lia. intros off d Hdd%Hb. unfold covers; simpl. lia.
    + apply (writer_ok_mono s); [by apply Hws|simpl; lia| |done].
      by apply (Hws w Hw).
  - constructor; [|done]. apply Forall_forall. intros w Hw.
    destruct (Hws w Hw) as (_ & _ & _ & Hhi & _). right. simpl. simpl in Hhi. lia.
Qed.

Lemma io_step_ok s ws1 ws2 iov buf boff j s' err :
  cfg_ok (s, ws1 ++ Slog_writer iov buf boff j None :: ws2) →
  seglog_write_io s j buf boff = (s', err) →
  cfg_ok (s', ws1 ++ Slog_writer iov buf boff j (Some err) :: ws2) ∧
  file_eq (cfg_file (s', ws1 ++ Slog_writer iov buf boff j (Some err) :: ws2))
          (cfg_file (s, ws1 ++ Slog_writer iov buf boff j None :: ws2)).
Proof.
  set (w := Slog_writer iov buf boff j None). intros ((Hm & Hb & Hd) & Hws & Hap) Hio. simpl in *.
  destruct (Hws w ltac:(rewrite elem_of_app; right; by left)) as (Hiov & Hj & Hlo & Hhi & Hno & _).
  simpl in *. pose proof (iov_total_nonneg iov Hiov) as Htot.
  apply seglog_write_io_spec in Hio as (Hmap & Hds & _ & Hbase & _ & _ & Hfr & Hwr);
    [|by rewrite Hj].
  assert (Hn : job_nbytes j = iov_total iov) by (by rewrite Hj). rewrite Hn in *.
  assert (Hm' : mapping s' = mapping s) by (unfold mapping; by rewrite Hmap).
  apply (pairwise_perm _ apart_sym _ (w :: ws1 ++ ws2)) in Hap; [|by rewrite Permutation_middle].
  inversion Hap as [|? ? Hwap Hap']; subst. rewrite Forall_forall in Hwap.
  split; [split_and!; simpl|split; simpl].
  - split_and!; [by rewrite Hmap|rewrite Hmap, Hds; done|lia].
  - intros w' Hw'. rewrite <- Permutation_middle, elem_of_cons in Hw'.
    destruct Hw' as [->|Hin].
    + split_and!; simpl; try done; [lia|by rewrite Hm'|]. intros [= ->]. by apply Hwr.
    + specialize (Hwap w' Hin).
      specialize (Hws w' ltac:(rewrite <- Permutation_middle; by right)).
      apply (writer_ok_mono s); [done|lia|rewrite Hm'; apply Hws|].
      intros d Hc. apply Hfr. unfold apart, covers in *; simpl in *. lia.
  - apply (pairwise_perm _ apart_sym (Slog_writer iov buf boff j (Some err) :: ws1 ++ ws2));
      [by rewrite Permutation_middle|]. constructor; [|done]. by apply Forall_forall.
  - unfold file_size. by rewrite Hmap.
  - intros off. unfold seglog_byte. rewrite Hmap, Hbase.
    unfold content_of. destruct (slog_lookup _ off) as [d|] eqn:Hl; [|done].
    apply Hfr. apply slog_lookup_maps in Hl; [|apply Hm].
    specialize (Hno off d Hl). unfold covers in Hno; simpl in Hno. lia.
Qed.

Lemma commit_step_ok s ws1 ws2 iov buf boff j err s' st :
  cfg_ok (s, ws1 ++ Slog_writer iov buf boff j (Some err) :: ws2) →
  seglog_write_commit s j err = Some (s', st) →
  cfg_ok (s', ws1 ++ ws2) ∧ iov_ok iov ∧
  file_eq (cfg_file (s', ws1 ++ ws2))
          (event_file (file_size s, seglog_byte s) (EvCommit iov buf boff st)).
Proof.
  set (w := Slog_writer iov buf boff j (Some err)). intros ((Hm & Hb & Hd) & Hws & Hap) Hc.
  simpl in *.
  destruct (Hws w ltac:(rewrite elem_of_app; right; by left))
    as (Hiov & Hj & Hlo & Hhi & Hno & Hdata). simpl in *.
  apply (pairwise_perm _ apart_sym _ (w :: ws1 ++ ws2)) in Hap; [|by rewrite Permutation_middle].
  inversion Hap as [|? ? Hwap Hap']; subst. rewrite Forall_forall in Hwap.
  destruct (seglog_write_commit_spec s iov buf boff (job_table_offset j) (job_data_offset j) err)
    as (s1 & st1 & Hc1 & _ & Hds1 & Hbs1 & _ & Hdz & Hok1 & Hnew & Hcase); [done..| |].
  { intros He. apply Hdata. by rewrite He. }
  rewrite <- Hj, Hc in Hc1. injection Hc1 as <- <-.
  split; [split_and!; simpl|split; [done|]].
  - split_and!; [done| |lia]. intros off d [Hdd|Hdd]%Hnew; [apply Hb in Hdd|]; lia.
  - intros w' Hin. specialize (Hwap w' Hin).
    specialize (Hws w' ltac:(rewrite <- Permutation_middle; by right)).
    apply (writer_ok_mono s); [done|lia| |by rewrite Hds1].
    destruct Hws as (_ & _ & _ & _ & Hno' & _). intros off d [Hdd|Hdd]%Hnew; [by eapply Hno'|].
    unfold apart, covers in *; simpl in *. lia.
  - done.
  - unfold file_eq, cfg_file; simpl. case_decide as He.
    + destruct Hcase as (Hst & _ & Hsz & Hbyte). by rewrite decide_True.
    + destruct Hcase as (Hst & _ & Hmap). rewrite decide_False by (by rewrite Hst).
      unfold file_size. rewrite Hmap. split; [done|]. intros off. simpl.
      unfold seglog_byte. by rewrite Hmap, Hds1, Hbs1.
Qed.

Lemma slog_step_ok c ev c' :
  cfg_ok c → slog_step c ev c' →
  cfg_ok c' ∧ file_eq (cfg_file c') (event_file (cfg_file c) ev) ∧
  (∀ iov buf boff st, ev = EvCommit iov buf boff st → iov_ok iov).
Proof.
  intros Hok Hstep. destruct Hstep as [s ws iov buf boff s' j Hiov Hr| |].
  - split; [by eapply reserve_step_ok|]. split; [|done].
    apply seglog_write_reserve_spec in Hr as (_ & _ & ->); [|done]. done.
  - destruct (io_step_ok _ _ _ _ _ _ _ _ _ Hok H1). done.
  - destruct (commit_step_ok _ _ _ _ _ _ _ _ _ _ Hok H1) as (? & ? & ?).
    split_and!; [done|done|]. by intros ? ? ? ? [= <- _ _ _].
Qed.

Lemma slog_steps_ok c evs c' :
  cfg_ok c → slog_steps c evs c' →
  cfg_ok c' ∧ file_eq (cfg_file c') (foldl event_file (cfg_file c) evs).
Proof.
  intros Hok Hsteps. induction Hsteps as [c|c1 evs c2 ev c3 _ IH Hstep]; [by split|].
  destruct (IH Hok) as [Hok2 Hf2]. rewrite foldl_app. simpl.
  destruct (slog_step_ok _ _ _ Hok2 Hstep) as (Hok3 & Hf3 & Hiov). split; [done|].
  rewrite Hf3. by apply event_file_proper.
Qed.

(** C2: linearisability of concurrent writes.  However the reservations,
    transfers and commits of any number of writers interleave, the file the
    segment shows is the initial one with the successful requests overlaid in
    the order of their commits; and the extents of the writers in flight stay
    disjoint from each other and from everything committed. *)
Theorem seglog_writers_linearizable s evs s' ws :
  seglog_ok s → slog_steps (s, []) evs (s', ws) →
  file_eq (file_size s', seglog_byte s')
          (foldl event_file (file_size s, seglog_byte s) evs) ∧
  seglog_ok s' ∧ ForallOrdPairs apart ws ∧
  ∀ w off d, w ∈ ws → slog_maps (isl_all (mapping s')) off d → ¬ covers d w.
Proof.
  intros Hok Hsteps. apply slog_steps_ok in Hsteps as [(Hok' & Hws & Hap) Hf].
  - split_and!; try done. intros w off d Hw. apply (Hws w Hw).
  - split_and!; [done|by intros ? ?%not_elem_of_nil|constructor].
Qed.
End conc_facts.
