(* ===== verification/SegLogRead.v ===== *)
(** * Log segments: what a read delivers

    [seglog_read_func] turns a request into reads of the data segment (logged
    offsets) and of the base (holes).  The reads run concurrently, so their
    effect is stated for every order of execution. *)
From Stdlib Require Import Sorting.Sorted.
From S2P Require Import Prelude Isl SegLogMap Seg Words SegLogWrite.

Section read_func.
Context {T D B : Type}.
Context `{!ISL slog_range, !Gop, !Segment T, !Segment D, !Segment B}.
Abbreviation seglog := (seglog_priv T D B).

(** ** Reading *)

Inductive slog_src := SrcBase | SrcData.
Record slog_op := Slog_op { op_src : slog_src; op_iov : ex_iovec; op_bpos : Z }.

(** The loop variables of [seglog_read_func]; [rd_ops] is the queue. *)
Record slog_rd := Slog_rd {
  rd_pos : Z; rd_bpos : Z; rd_prev_end : Z; rd_ops : list slog_op }.

Definition rd_push (st : slog_rd) (src : slog_src) (off len prev_end : Z) : slog_rd :=
  Slog_rd (rd_pos st + len) (rd_bpos st + len) prev_end
    (rd_ops st ++ [Slog_op src (Ex_iovec off len) (rd_bpos st)]).

Definition slog_read_step (lo hi : Z) (st : slog_rd) (ir : slog_range) : slog_rd :=
  let prev_end :=
    if decide (rd_prev_end st = -1)
    then if decide (sr_lo ir > lo) then lo else sr_lo ir - 1
    else rd_prev_end st in
  let st :=
    if decide (prev_end ≠ sr_lo ir - 1)
    then rd_push st SrcBase (rd_pos st) (sr_lo ir - rd_pos st) prev_end
    else st in
  if decide (sr_lo ir < lo) then
    let off := sr_data_offset ir + (lo - sr_lo ir) in
    if decide (sr_hi ir > hi)
    then rd_push st SrcData off (hi - rd_pos st + 1) (sr_hi ir)
    else rd_push st SrcData off (sr_hi ir - rd_pos st + 1) (sr_hi ir)
  else if decide (sr_hi ir ≤ hi)
  then rd_push st SrcData (sr_data_offset ir) (sr_hi ir - rd_pos st + 1) (sr_hi ir)
  else rd_push st SrcData (sr_data_offset ir) (hi - rd_pos st + 1) (sr_hi ir).

(** One extent of the request: its operations and the buffer position after it. *)
Definition slog_read_iov (s : seglog) (v : ex_iovec) (bpos : Z) : list slog_op * Z :=
  let lo := iov_offset v in
  let hi := lo + iov_len v - 1 in
  let st := foldl (slog_read_step lo hi) (Slog_rd lo bpos (-1) [])
              (isl_search (Some lo) (Some hi) (mapping s)) in
  let st :=
    if decide (rd_prev_end st = -1)
    then rd_push st SrcBase lo (hi - lo + 1) (rd_prev_end st)
    else if decide (rd_prev_end st < hi)
    then rd_push st SrcBase (rd_pos st) (hi - (rd_prev_end st + 1) + 1) (rd_prev_end st)
    else st in
  (rd_ops st, rd_bpos st).

Fixpoint slog_read_plan (s : seglog) (iov : list ex_iovec) (bpos : Z) : list slog_op :=
  match iov with
  | [] => []
  | v :: iov => let '(ops, bpos) := slog_read_iov s v bpos in
                ops ++ slog_read_plan s iov bpos
  end.

(** The number of slots [seglog_read_func] allocates for the queue. *)
Definition slog_read_slots (s : seglog) (iov : list ex_iovec) : Z :=
  foldl (λ n v, let lo := iov_offset v in let hi := lo + iov_len v - 1 in
     n + (2 * Z.of_nat (length (isl_search (Some lo) (Some hi) (mapping s))) + 1)) 0 iov + 10.

(** Waiting for the queued reads. *)
Fixpoint slog_read_exec (s : seglog) (ops : list slog_op) (buf : tbuffer)
    : seglog * tbuffer * list op_status :=
  match ops with
  | [] => (s, buf, [])
  | o :: ops =>
      let '(s, buf, st) :=
        match op_src o with
        | SrcBase => let '(b, buf, st) := segment_read (base_seg s) [op_iov o] buf (op_bpos o) in
                     (set_segs s (table_seg s) (data_seg s) b, buf, st)
        | SrcData => let '(d, buf, st) := segment_read (data_seg s) [op_iov o] buf (op_bpos o) in
                     (set_segs s (table_seg s) d (base_seg s), buf, st)
        end in
      let '(s, buf, sts) := slog_read_exec s ops buf in (s, buf, st :: sts)
  end.

Definition seglog_read_func (s : seglog) (iov : list ex_iovec)
    (buf : tbuffer) (boff : Z) : seglog * tbuffer * op_status :=
  let '(s, buf, sts) := slog_read_exec s (slog_read_plan s iov boff) buf in
  if decide (opque_waitall sts = OP_STATE_SUCCESS)
  then (s, buf, op_success_status)
  else (add_hard_error s, buf, op_failure_status).
End read_func.

Section read.
Context {T D B : Type}.
Context `{!ISL slog_range, !SegBytes D, !SegBytes B}.
Implicit Types (s : seglog_priv T D B) (o : slog_op) (F : Z → Z).

Definition op_covers o (p : Z) : Prop := op_bpos o ≤ p < op_bpos o + iov_len (op_iov o).

(** The byte an operation puts at buffer position [p]. *)
Definition op_byte s o (p : Z) : Z :=
  let i := iov_offset (op_iov o) + (p - op_bpos o) in
  match op_src o with SrcBase => seg_byte (base_seg s) i | SrcData => seg_byte (data_seg s) i end.

Definition op_agrees s F o : Prop := ∀ p, op_covers o p → op_byte s o p = F p.

(** The operations fill exactly the buffer positions from [b0] to [b1], with
    the bytes [F]. *)
Definition plan_ok s F (b0 b1 : Z) (ops : list slog_op) : Prop :=
  (∀ o, o ∈ ops → op_agrees s F o ∧ 0 ≤ iov_len (op_iov o)) ∧
  ∀ p, (∃ o, o ∈ ops ∧ op_covers o p) ↔ b0 ≤ p < b1.

(** The bug-free case of the leading hole: not exactly one byte wide. *)
Definition no_unit_hole s (v : ex_iovec) : Prop :=
  ¬ (1 < iov_len v ∧ slog_lookup (mapping s) (iov_offset v) = None ∧
     is_Some (slog_lookup (mapping s) (iov_offset v + 1))).

Lemma plan_ok_nil s F b : plan_ok s F b b [].
Proof.
  split; [by intros ? ?%not_elem_of_nil|]. intros p.
  split; [by intros (? & ?%not_elem_of_nil & ?)|lia].
Qed.

Lemma plan_ok_app s F b0 b1 b2 ops1 ops2 :
  b0 ≤ b1 ≤ b2 → plan_ok s F b0 b1 ops1 → plan_ok s F b1 b2 ops2 →
  plan_ok s F b0 b2 (ops1 ++ ops2).
Proof.
  intros Hb [Ha1 Hc1] [Ha2 Hc2]. split.
  - intros o [?|?]%elem_of_app; auto.
  - intros p. transitivity (b0 ≤ p < b1 ∨ b1 ≤ p < b2); [|lia].
    rewrite <- Hc1, <- Hc2. setoid_rewrite elem_of_app. naive_solver.
Qed.

Lemma plan_ok_snoc s F b0 b1 ops src off len :
  b0 ≤ b1 → 0 ≤ len → plan_ok s F b0 b1 ops →
  op_agrees s F (Slog_op src (Ex_iovec off len) b1) →
  plan_ok s F b0 (b1 + len) (ops ++ [Slog_op src (Ex_iovec off len) b1]).
Proof.
  intros ? ? Hops Ha. apply (plan_ok_app _ _ _ b1); [lia|done|]. split.
  - by intros o ->%list_elem_of_singleton.
  - intros p. unfold op_covers. split; [by intros (? & ->%list_elem_of_singleton & ?)|].
    intros. eexists. by rewrite list_elem_of_singleton.
Qed.

Lemma plan_ok_ext s F G b0 b1 ops :
  (∀ p, b0 ≤ p < b1 → F p = G p) → plan_ok s F b0 b1 ops → plan_ok s G b0 b1 ops.
Proof.
  intros HFG [Ha Hc]. split; [|done]. intros o Ho. destruct (Ha o Ho) as [Hag ?].
  split; [|done]. intros p Hp. rewrite Hag by done. apply HFG, Hc. eauto.
Qed.

(** ** The plan of one extent *)

Context `{!ISLOk slog_range}.

(** The loop invariant of the extent loop: everything up to the frontier
    [rd_pos] is planned, the remaining extents [rs] cover all that is mapped
    beyond it. *)
Definition read_inv s (lo hi b0 : Z) (st : slog_rd) (rs : list slog_range) : Prop :=
  let F p := seglog_byte s (lo + (p - b0)) in
  plan_ok s F b0 (rd_bpos st) (rd_ops st) ∧
  rd_pos st = lo + (rd_bpos st - b0) ∧ lo ≤ rd_pos st ∧
  StronglySorted before rs ∧
  (∀ x, x ∈ rs → x ∈ isl_all (mapping s) ∧ overlaps lo hi x) ∧
  (∀ off x, rd_pos st ≤ off ≤ hi → x ∈ isl_all (mapping s) → covers off x → x ∈ rs) ∧
  ((rd_prev_end st = -1 ∧ rd_pos st = lo ∧ ∀ x, head rs = Some x → sr_lo x ≠ lo + 1) ∨
   (lo ≤ rd_prev_end st ∧ rd_pos st = Z.min (rd_prev_end st) hi + 1 ∧
    ∀ x, x ∈ rs → rd_prev_end st < sr_lo x)).

Lemma seglog_byte_mapped s off x :
  seglog_ok s → x ∈ isl_all (mapping s) → covers off x →
  seglog_byte s off = seg_byte (data_seg s) (sr_data_offset x + (off - sr_lo x)).
Proof.
  intros [[Hok _] _] Hx Hc. unfold seglog_byte, content_of, slog_lookup.
  fold (mapping s). by rewrite (find_cover_Some _ _ x).
Qed.

Lemma seglog_byte_hole s off :
  (∀ x, x ∈ isl_all (mapping s) → ¬ covers off x) →
  seglog_byte s off = seg_byte (base_seg s) off.
Proof.
  intros Hno. unfold seglog_byte, content_of, slog_lookup. fold (mapping s).
  by rewrite (proj2 (find_cover_None _ _)).
Qed.

(** Reading a hole up to [e], and a piece of an extent up to [e]. *)
Lemma read_push_hole s lo b0 st e prev_end :
  let F p := seglog_byte s (lo + (p - b0)) in
  plan_ok s F b0 (rd_bpos st) (rd_ops st) → b0 ≤ rd_bpos st →
  rd_pos st = lo + (rd_bpos st - b0) → rd_pos st ≤ e →
  (∀ off x, rd_pos st ≤ off < e → x ∈ isl_all (mapping s) → ¬ covers off x) →
  let st' := rd_push st SrcBase (rd_pos st) (e - rd_pos st) prev_end in
  plan_ok s F b0 (rd_bpos st') (rd_ops st').
Proof.
  intros F Hp Hb Hpos He Hno. simpl. apply plan_ok_snoc; [done|lia|done|].
  intros p. unfold op_covers, op_byte; simpl. intros Hpr. unfold F.
  rewrite seglog_byte_hole; [f_equal; lia|]. intros x Hx. apply Hno; [lia|done].
Qed.

Lemma read_push_data s lo b0 st x e prev_end :
  let F p := seglog_byte s (lo + (p - b0)) in
  seglog_ok s → x ∈ isl_all (mapping s) →
  plan_ok s F b0 (rd_bpos st) (rd_ops st) → b0 ≤ rd_bpos st →
  rd_pos st = lo + (rd_bpos st - b0) → sr_lo x ≤ rd_pos st → rd_pos st ≤ e + 1 →
  e ≤ sr_hi x →
  let st' := rd_push st SrcData (sr_data_offset x + (rd_pos st - sr_lo x))
               (e - rd_pos st + 1) prev_end in
  plan_ok s F b0 (rd_bpos st') (rd_ops st').
Proof.
  intros F Hok Hx Hp Hb Hpos Hlo He Hhi. simpl. apply plan_ok_snoc; [done|lia|done|].
  intros p. unfold op_covers, op_byte; simpl. intros Hpr. unfold F.
  rewrite (seglog_byte_mapped s _ x) by (try done; unfold covers; simpl; lia). f_equal. lia.
Qed.

Lemma rd_push_eq st src off len off' len' pe :
  off = off' → len = len' → rd_push st src off len pe = rd_push st src off' len' pe.
Proof. by intros -> ->. Qed.

(** The extent pass in canonical form: a hole read up to the extent if there
    is a hole, then the part of the extent inside the request. *)
Lemma slog_read_step_eq s lo hi b0 st ir rs :
  0 ≤ lo → read_inv s lo hi b0 st (ir :: rs) →
  let st1 := if decide (rd_pos st < sr_lo ir)
             then rd_push st SrcBase (rd_pos st) (sr_lo ir - rd_pos st)
                    (rd_prev_end (if decide (rd_prev_end st = -1)
                                  then Slog_rd 0 0 lo [] else st))
             else st in
  rd_pos st ≤ Z.max lo (sr_lo ir) ∧ rd_pos st1 = Z.max lo (sr_lo ir) ∧
  slog_read_step lo hi st ir =
    rd_push st1 SrcData (sr_data_offset ir + (rd_pos st1 - sr_lo ir))
      (Z.min (sr_hi ir) hi - rd_pos st1 + 1) (sr_hi ir).
Proof.
  intros Hlo0 (_ & Hpos & Hlo & _ & Hin & _ & Hph).
  destruct (Hin ir ltac:(by left)) as [_ Hov]. unfold overlaps in Hov; simpl in Hov.
  unfold slog_read_step.
  destruct Hph as [(Hpe & Hpl & Hne)|(Hpe & Hpl & Haft)].
  - specialize (Hne ir eq_refl). rewrite !(decide_True (P:=rd_prev_end st = -1)) by done. simpl.
    destruct (decide (sr_lo ir > lo)).
    + rewrite (decide_True (P:=lo ≠ _)), (decide_True (P:=rd_pos st < _)) by lia. simpl.
      rewrite decide_False by lia. split; [lia|]. split; [lia|].
      case_decide; apply rd_push_eq; simpl; lia.
    + rewrite (decide_False (P:=_ ≠ _)), (decide_False (P:=rd_pos st < _)) by lia.
      split; [lia|]. split; [lia|].
      repeat case_decide; apply rd_push_eq; simpl; lia.
  - specialize (Haft ir ltac:(by left)).
    assert (rd_pos st = rd_prev_end st + 1) by lia.
    destruct (decide (rd_prev_end st = -1)) as [?|_]; [lia|].
    destruct (decide (rd_prev_end st ≠ sr_lo ir - 1)).
    + rewrite (decide_True (P:=rd_pos st < _)) by lia. simpl.
      rewrite decide_False by lia. split; [lia|]. split; [lia|].
      case_decide; apply rd_push_eq; simpl; lia.
    + rewrite (decide_False (P:=rd_pos st < _)) by lia.
      rewrite decide_False by lia. split; [lia|]. split; [lia|].
      case_decide; apply rd_push_eq; simpl; lia.
Qed.

Lemma slog_read_step_inv s lo hi b0 st ir rs :
  seglog_ok s → 0 ≤ lo ≤ hi →
  read_inv s lo hi b0 st (ir :: rs) → read_inv s lo hi b0 (slog_read_step lo hi st ir) rs.
Proof.
  intros Hs Hlh Hinv. pose proof (slog_read_step_eq _ _ _ _ _ _ _ (proj1 Hlh) Hinv) as (Hle & Hp1 & ->).
  destruct Hinv as (Hplan & Hpos & Hlo & Hsort & Hin & Hcov & _).
  destruct (Hin ir ltac:(by left)) as [Hir Hov]. unfold overlaps in Hov; simpl in Hov.
  pose proof (ranges_ok_valid _ _ (proj1 (proj1 Hs)) Hir) as Hv. unfold valid in Hv; simpl in Hv.
  apply StronglySorted_inv in Hsort as [Hsort Hb]. rewrite Forall_forall in Hb.
  unfold before in Hb; simpl in Hb.
  (* nothing is mapped between the frontier and the extent *)
  assert (Hhole : ∀ off x, rd_pos st ≤ off < sr_lo ir → x ∈ isl_all (mapping s) → ¬ covers off x).
  { intros off x Ho Hx Hc. specialize (Hcov off x ltac:(lia) Hx Hc).
    apply elem_of_cons in Hcov as [->|Hxr]; unfold covers in Hc; simpl in Hc; [lia|].
    specialize (Hb x Hxr). lia. }
  set (st1 := if decide (rd_pos st < sr_lo ir) then _ else st) in *.
  assert (Hplan1 : plan_ok s (λ p, seglog_byte s (lo + (p - b0))) b0 (rd_bpos st1) (rd_ops st1)
                   ∧ rd_pos st1 = lo + (rd_bpos st1 - b0)).
  { unfold st1 in *. case_decide; [|done]. split; [|simpl; lia].
    apply read_push_hole; [done|lia|done|lia|done]. }
  clearbody st1. destruct Hplan1 as [Hplan1 Hpos1].
  split; [apply read_push_data; try done; lia|]. simpl.
  split_and!; try done; try lia.
  - intros x Hx. apply Hin. by right.
  - intros off x Ho Hx Hc. specialize (Hcov off x ltac:(lia) Hx Hc).
    apply elem_of_cons in Hcov as [->|Hxr]; [|done]. unfold covers in Hc; simpl in Hc. lia.
  - right. split_and!; [lia|lia|]. intros x Hx. specialize (Hb x Hx). done.
Qed.

Lemma slog_read_fold_inv s lo hi b0 st rs :
  seglog_ok s → 0 ≤ lo ≤ hi → read_inv s lo hi b0 st rs →
  read_inv s lo hi b0 (foldl (slog_read_step lo hi) st rs) [].
Proof.
  intros Hs Hlh. revert st. induction rs as [|ir rs IH]; intros st Hinv; simpl; [done|].
  apply IH. by apply slog_read_step_inv.
Qed.

Lemma slog_lookup_none_free s off x :
  slog_lookup (mapping s) off = None → x ∈ isl_all (mapping s) → ¬ covers off x.
Proof.
  unfold slog_lookup. rewrite fmap_None. intros Hn Hx. by apply (proj1 (find_cover_None _ _) Hn).
Qed.

(** The head of a sorted search result that starts one past [lo] is a unit hole. *)
Lemma search_unit_hole s lo hi x rs :
  lo ≤ hi → ranges_ok (isl_all (mapping s)) →
  isl_search (Some lo) (Some hi) (mapping s) = x :: rs → sr_lo x = lo + 1 →
  lo < hi ∧ slog_lookup (mapping s) lo = None ∧
  slog_lookup (mapping s) (lo + 1) = Some (sr_data_offset x).
Proof.
  intros Hlh Hok Hs Hx. pose proof (isl_search_sorted (mapping s) lo hi Hlh Hok) as Hsort.
  pose proof (λ y, isl_search_elem (mapping s) lo hi y Hlh Hok) as Hel.
  rewrite Hs in Hsort, Hel. destruct (proj1 (Hel x) ltac:(by left)) as [Hxm Hov].
  pose proof (ranges_ok_valid _ _ Hok Hxm) as Hv.
  apply StronglySorted_inv in Hsort as [_ Hb]. rewrite Forall_forall in Hb.
  unfold overlaps, valid, before in *; simpl in *. split; [lia|]. split.
  - unfold slog_lookup. rewrite (proj2 (find_cover_None lo _)); [done|]. intros y Hy Hc.
    unfold covers in Hc; simpl in Hc.
    assert (y ∈ x :: rs) as Hyr by (apply Hel; split; [done|lia]).
    apply elem_of_cons in Hyr as [->|Hyr]; [lia|]. specialize (Hb y Hyr). lia.
  - unfold slog_lookup. rewrite (find_cover_Some _ _ x); [|done..|unfold covers; simpl; lia].
    simpl. f_equal. lia.
Qed.

Lemma slog_read_iov_spec s v b0 :
  seglog_ok s → 0 ≤ iov_offset v → 0 < iov_len v → no_unit_hole s v →
  (slog_read_iov s v b0).2 = b0 + iov_len v ∧
  plan_ok s (λ p, seglog_byte s (iov_offset v + (p - b0))) b0 (b0 + iov_len v)
    (slog_read_iov s v b0).1.
Proof.
  intros Hs Hv0 Hv Hnu. unfold slog_read_iov.
  set (lo := iov_offset v) in *. set (hi := lo + iov_len v - 1).
  set (rs := isl_search (Some lo) (Some hi) (mapping s)).
  assert (Hok : ranges_ok (isl_all (mapping s))) by apply Hs.
  assert (Hlh : lo ≤ hi) by lia.
  pose proof (λ y, isl_search_elem (mapping s) lo hi y Hlh Hok) as Hel.
  assert (Hinv : read_inv s lo hi b0 (Slog_rd lo b0 (-1) []) rs).
  { split_and!; simpl; try lia; [apply plan_ok_nil|by apply isl_search_sorted|apply Hel| |].
    - intros off x Ho Hx Hc. apply Hel. unfold covers, overlaps in *. split; [done|lia].
    - left. split_and!; [done..|]. intros x Hx Hlo1. unfold rs in Hx.
      destruct (isl_search _ _ _) as [|y k] eqn:Hse; [done|]. injection Hx as ->.
      apply (search_unit_hole _ _ _ _ _ Hlh Hok Hse) in Hlo1 as (? & ? & Hd).
      apply Hnu. fold lo. rewrite Hd. split; [lia|]. split; [done|]. by eexists. }
  apply slog_read_fold_inv in Hinv; [|done|lia].
  destruct Hinv as (Hplan & Hpos & Hlo & _ & _ & Hcov & Hph).
  set (st := foldl _ _ rs) in *. clearbody st.
  assert (Hhole : ∀ off x, rd_pos st ≤ off < hi + 1 → x ∈ isl_all (mapping s) → ¬ covers off x).
  { intros off x Ho Hx Hc. by apply (Hcov off x ltac:(lia)), not_elem_of_nil in Hx. }
  destruct Hph as [(Hpe & Hpl & _)|(Hpe & Hpl & _)].
  - rewrite decide_True by done. rewrite <- Hpl at 1.
    replace (hi - lo + 1) with (hi + 1 - rd_pos st) by lia.
    pose proof (read_push_hole s lo b0 st (hi + 1) (rd_prev_end st) Hplan ltac:(lia) Hpos
      ltac:(lia) Hhole) as Hp. simpl in Hp. simpl.
    replace (rd_bpos st + (hi + 1 - rd_pos st)) with (b0 + iov_len v) in * by lia.
    rewrite Hpl in *. done.
  - rewrite decide_False by lia. case_decide.
    + replace (hi - (rd_prev_end st + 1) + 1) with (hi + 1 - rd_pos st) by lia.
      pose proof (read_push_hole s lo b0 st (hi + 1) (rd_prev_end st) Hplan ltac:(lia) Hpos
        ltac:(lia) Hhole) as Hp. simpl in Hp. simpl.
      by replace (rd_bpos st + (hi + 1 - rd_pos st)) with (b0 + iov_len v) in * by lia.
    + by replace (rd_bpos st) with (b0 + iov_len v) in * by lia.
Qed.

#[local] Arguments slog_read_iov : simpl never.

Lemma slog_read_plan_spec s iov b0 :
  seglog_ok s → iov_ok iov → Forall (no_unit_hole s) iov →
  plan_ok s (λ p, seglog_byte s (iov_pos iov b0 p)) b0 (b0 + iov_total iov)
    (slog_read_plan s iov b0).
Proof.
  intros Hs Hiov. revert b0. induction Hiov as [|v iov [Hv0 Hv] Hiov IH]; intros b0 Hnu; cbn [slog_read_plan].
  - simpl. rewrite Z.add_0_r. apply plan_ok_nil.
  - inversion Hnu as [|? ? Hnv Hnu']; subst.
    destruct (slog_read_iov_spec s v b0 Hs Hv0 Hv Hnv) as [Hb Hp].
    set (one := slog_read_iov s v b0) in *. clearbody one.
    destruct one as [ops b1]. simpl in *. subst b1.
    pose proof (iov_total_nonneg iov Hiov). rewrite Z.add_assoc.
    apply (plan_ok_app _ _ _ (b0 + iov_len v)); [lia| |].
    + revert Hp. apply plan_ok_ext. intros p Hpr. by rewrite decide_True by lia.
    + specialize (IH (b0 + iov_len v) Hnu'). revert IH. apply plan_ok_ext.
      intros p Hpr. by rewrite decide_False by lia.
Qed.
End read.

(** ** Running the plan *)
Section read_exec.
Context `{!ISL slog_range, !ISLOk slog_range}.
Context {T D B : Type} `{!Gop, !GopOk, !Segment T, !Segment D, !Segment B}.
Context `{!SegBytes T, !SegBytes D, !SegBytes B, !SegmentOk T, !SegmentOk D, !SegmentOk B}.
Implicit Types (s : seglog_priv T D B) (ops : list slog_op).

(** Two states with the same contents. *)
Definition seglog_same s s' : Prop :=
  sl_map s' = sl_map s ∧ log_size s' = log_size s ∧ data_size s' = data_size s ∧
  table_seg s' = table_seg s ∧
  (∀ i, seg_byte (data_seg s') i = seg_byte (data_seg s) i) ∧
  (∀ i, seg_byte (base_seg s') i = seg_byte (base_seg s) i).

Lemma slog_read_exec_spec F ops : ∀ s buf,
  (∀ o, o ∈ ops → op_agrees s F o ∧ 0 ≤ iov_len (op_iov o)) →
  let '(s', buf', sts) := slog_read_exec s ops buf in
  seglog_same s s' ∧
  ((∀ st, st ∈ sts → op_st st = OP_STATE_SUCCESS) →
   ∀ p, ((∃ o, o ∈ ops ∧ op_covers o p) → buf' p = F p) ∧
        ((¬ ∃ o, o ∈ ops ∧ op_covers o p) → buf' p = buf p)).
Proof.
  induction ops as [|o ops IH]; intros s buf Hops; simpl.
  { split; [done|]. intros _ p. split; [by intros (? & ?%not_elem_of_nil & ?)|done]. }
  destruct (Hops o ltac:(by left)) as [Ho Hlen].
  set (one := match op_src o with SrcBase => _ | SrcData => _ end).
  assert (Hone : seglog_same s one.1.1 ∧
    (op_st one.2 = OP_STATE_SUCCESS → ∀ p,
       (op_covers o p → one.1.2 p = F p) ∧ (¬ op_covers o p → one.1.2 p = buf p))).
  { unfold one. clear one. destruct o as [src [off len] bpos]; simpl in *.
    unfold op_agrees, op_byte, op_covers in Ho; simpl in Ho. unfold op_covers; simpl.
    destruct src.
    - pose proof (read_buffer (base_seg s) off len buf bpos) as Hrb.
      pose proof (read_bytes (base_seg s) [Ex_iovec off len] buf bpos) as Hby.
      destruct (segment_read (base_seg s) _ buf bpos) as [[b1 buf1] st1]. simpl in *.
      split; [done|]. intros Hst p. rewrite Hrb by done. unfold buf_put.
      split; intros Hp; [rewrite decide_True by done; by apply Ho|by rewrite decide_False].
    - pose proof (read_buffer (data_seg s) off len buf bpos) as Hrb.
      pose proof (read_bytes (data_seg s) [Ex_iovec off len] buf bpos) as Hby.
      destruct (segment_read (data_seg s) _ buf bpos) as [[d1 buf1] st1]. simpl in *.
      split; [done|]. intros Hst p. rewrite Hrb by done. unfold buf_put.
      split; intros Hp; [rewrite decide_True by done; by apply Ho|by rewrite decide_False]. }
  destruct one as [[s1 buf1] st1]. simpl in Hone. destruct Hone as [Hsame1 Hbuf1].
  specialize (IH s1 buf1). destruct (slog_read_exec s1 ops buf1) as [[s2 buf2] sts].
  destruct Hsame1 as (Hm & Hl & Hd & Ht & Hdb & Hbb).
  destruct IH as [Hsame2 Hbuf2].
  { intros o' Ho'. destruct (Hops o' ltac:(by right)) as [Hag ?]. split; [|done].
    intros p Hp. rewrite <- (Hag p Hp). unfold op_byte. by rewrite Hdb, Hbb. }
  destruct Hsame2 as (Hm2 & Hl2 & Hd2 & Ht2 & Hdb2 & Hbb2). split.
  { split_and!; try congruence; intros i; congruence. }
  intros Hsts p. specialize (Hbuf1 (Hsts st1 ltac:(by left)) p) as [Hc1 Hn1].
  specialize (Hbuf2 ltac:(intros; apply Hsts; by right) p) as [Hc2 Hn2].
  setoid_rewrite elem_of_cons.
  assert (Decision (∃ o, o ∈ ops ∧ op_covers o p)) as Hdec.
  { destruct (decide (Exists (λ o, op_covers o p) ops)) as [He|He];
      rewrite Exists_exists in He; [by left|by right]. }
  destruct Hdec as [He|He].
  - split; [by intros _; apply Hc2|]. intros Hno. destruct Hno. naive_solver.
  - rewrite Hn2 by done. split.
    + intros (o' & [->|Ho'] & Hc); [by apply Hc1|]. destruct He. eauto.
    + intros Hno. apply Hn1. intros Hc. apply Hno. eauto.
Qed.

Lemma seglog_same_byte s s' off : seglog_same s s' → seglog_byte s' off = seglog_byte s off.
Proof.
  intros (Hm & _ & _ & _ & Hd & Hb). unfold seglog_byte, content_of. rewrite Hm.
  by destruct (slog_lookup _ off).
Qed.

(** The buffer a complete run leaves, whatever the order of the operations. *)
Lemma slog_read_run_spec s iov buf boff ops :
  seglog_ok s → iov_ok iov → Forall (no_unit_hole s) iov →
  ops ≡ₚ slog_read_plan s iov boff →
  let '(s', buf', sts) := slog_read_exec s ops buf in
  seglog_same s s' ∧
  (opque_waitall sts = OP_STATE_SUCCESS → ∀ p,
     buf' p = if decide (boff ≤ p < boff + iov_total iov)
              then seglog_byte s (iov_pos iov boff p) else buf p).
Proof.
  intros Hs Hiov Hnu Hp. destruct (slog_read_plan_spec s iov boff Hs Hiov Hnu) as [Hag Hc].
  pose proof (slog_read_exec_spec (λ p, seglog_byte s (iov_pos iov boff p)) ops s buf) as He.
  destruct (slog_read_exec s ops buf) as [[s' buf'] sts].
  destruct He as [Hsame Hbuf]; [intros o; rewrite Hp; apply Hag|].
  split; [done|]. intros Hw p. rewrite opque_waitall_success in Hw.
  setoid_rewrite Hp in Hbuf. destruct (Hbuf Hw p) as [Hin Hout].
  rewrite Hc in Hin, Hout. case_decide; auto.
Qed.

(** C3: a read that reports success delivers, for every extent of the request,
    the bytes of the file (logged bytes from the data segment, the others from
    the base), touches no other position of the buffer, and leaves the segment
    as it was; provided no extent of the request begins with a hole of exactly
    one byte. *)
Theorem seglog_read_correct s iov buf boff :
  seglog_ok s → iov_ok iov → Forall (no_unit_hole s) iov →
  let '(s', buf', st) := seglog_read_func s iov buf boff in
  (op_st st = OP_STATE_SUCCESS → ∀ p,
     buf' p = if decide (boff ≤ p < boff + iov_total iov)
              then seglog_byte s (iov_pos iov boff p) else buf p) ∧
  (∀ off, seglog_byte s' off = seglog_byte s off) ∧ file_size s' = file_size s.
Proof.
  intros Hs Hiov Hnu. unfold seglog_read_func.
  pose proof (slog_read_run_spec s iov buf boff _ Hs Hiov Hnu (reflexivity _)) as Hr.
  destruct (slog_read_exec s _ buf) as [[s' buf'] sts]. destruct Hr as [Hsame Hbuf].
  destruct Hsame as (Hm & Hsame). case_decide.
  - split; [auto|]. split; [|unfold file_size; by rewrite Hm].
    intros off. by apply seglog_same_byte.
  - split; [by rewrite op_failure_state|].
    split; [|unfold file_size; simpl; by rewrite Hm].
    intros off. by apply (seglog_same_byte s s').
Qed.

(** The queued reads are independent: executed in any order they leave the
    same buffer, so the concurrent execution of the queue is deterministic. *)
Theorem seglog_read_any_order s iov buf boff ops :
  seglog_ok s → iov_ok iov → Forall (no_unit_hole s) iov →
  ops ≡ₚ slog_read_plan s iov boff →
  opque_waitall (slog_read_exec s ops buf).2 = OP_STATE_SUCCESS →
  opque_waitall (slog_read_exec s (slog_read_plan s iov boff) buf).2 = OP_STATE_SUCCESS →
  ∀ p, (slog_read_exec s ops buf).1.2 p =
       (slog_read_exec s (slog_read_plan s iov boff) buf).1.2 p.
Proof.
  intros Hs Hiov Hnu Hp Hw1 Hw2 p.
  pose proof (slog_read_run_spec s iov buf boff _ Hs Hiov Hnu Hp) as H1.
  pose proof (slog_read_run_spec s iov buf boff _ Hs Hiov Hnu (reflexivity _)) as H2.
  destruct (slog_read_exec s ops buf) as [[s1 b1] sts1].
  destruct (slog_read_exec s (slog_read_plan s iov boff) buf) as [[s2 b2] sts2].
  simpl in *. by rewrite (proj2 H1), (proj2 H2).
Qed.

(** When a request begins with an unlogged byte followed by a logged one,
    the driver plans no read of the base for it: the first operation takes the
    data byte of the {e second} offset and puts it at the first buffer
    position, shifting the rest of the extent. *)
Theorem seglog_read_unit_hole s v b0 d :
  seglog_ok s → 0 ≤ iov_offset v → 1 < iov_len v →
  slog_lookup (mapping s) (iov_offset v) = None →
  slog_lookup (mapping s) (iov_offset v + 1) = Some d →
  ∃ len ops, 1 < len ∧
    (slog_read_iov s v b0).1 = Slog_op SrcData (Ex_iovec d len) b0 :: ops.
Proof.
  intros Hs Hv0 Hv Hno Hd. unfold slog_read_iov.
  set (lo := iov_offset v) in *. set (hi := lo + iov_len v - 1).
  assert (Hok : ranges_ok (isl_all (mapping s))) by apply Hs.
  assert (Hlh : lo ≤ hi) by lia.
  unfold slog_lookup in Hd. rewrite fmap_Some in Hd. destruct Hd as (x & Hx & Hd).
  apply find_cover_in in Hx as [Hx Hc]. unfold covers in Hc; simpl in Hc.
  pose proof (slog_lookup_none_free s lo) as Hfree.
  assert (Hxlo : sr_lo x = lo + 1).
  { specialize (Hfree x Hno Hx). unfold covers in Hfree; simpl in Hfree. lia. }
  pose proof (λ y, isl_search_elem (mapping s) lo hi y Hlh Hok) as Hel.
  pose proof (isl_search_sorted (mapping s) lo hi Hlh Hok) as Hsort.
  assert (Hhead : ∃ rs, isl_search (Some lo) (Some hi) (mapping s) = x :: rs).
  { destruct (isl_search _ _ _) as [|y rs].
    { destruct (not_elem_of_nil x). apply Hel. split; [done|]. unfold overlaps; simpl. lia. }
    exists rs. f_equal. assert (x ∈ y :: rs) as Hin.
    { apply Hel. split; [done|]. unfold overlaps; simpl. lia. }
    apply elem_of_cons in Hin as [->|Hin]; [done|]. exfalso.
    apply StronglySorted_inv in Hsort as [_ Hb]. rewrite Forall_forall in Hb.
    specialize (Hb x Hin). destruct (proj1 (Hel y) ltac:(by left)) as [Hy Hov].
    specialize (Hfree y Hno Hy). pose proof (ranges_ok_valid _ _ Hok Hy) as Hvy.
    unfold before, overlaps, covers, valid in *; simpl in *. lia. }
  destruct Hhead as [rs ->]. simpl.
  assert (Hops : ∃ len, 1 < len ∧ rd_ops (slog_read_step lo hi (Slog_rd lo b0 (-1) []) x) =
                        [Slog_op SrcData (Ex_iovec d len) b0]).
  { unfold slog_read_step. cbn [rd_prev_end]. rewrite Hxlo.
    assert (d = sr_data_offset x) as -> by lia.
    repeat (case_decide; try lia); simpl; eexists; (split; [|done]); lia. }
  destruct Hops as (len & Hlen & Hops). exists len.
  assert (Hgrow : ∀ rs st, ∃ k, rd_ops (foldl (slog_read_step lo hi) st rs) = rd_ops st ++ k).
  { intros k. induction k as [|y k IH]; intros st; simpl; [exists []; by rewrite app_nil_r|].
    destruct (IH (slog_read_step lo hi st y)) as [k' ->].
    unfold slog_read_step. repeat case_decide; simpl; rewrite <- ?app_assoc; eauto. }
  destruct (Hgrow rs (slog_read_step lo hi (Slog_rd lo b0 (-1) []) x)) as [k Hk].
  rewrite Hops in Hk. repeat case_decide; simpl; rewrite Hk; simpl; eauto.
Qed.
End read_exec.

(** ** The slot array *)
Section read_slots.
Context `{!ISL slog_range} {T D B : Type}.
Implicit Types (s : seglog_priv T D B).

Lemma slog_read_step_ops lo hi st ir :
  (length (rd_ops (slog_read_step lo hi st ir)) ≤ length (rd_ops st) + 2)%nat.
Proof.
  unfold slog_read_step. repeat case_decide; simpl; rewrite ?length_app; simpl; lia.
Qed.

Lemma slog_read_fold_ops lo hi st rs :
  (length (rd_ops (foldl (slog_read_step lo hi) st rs)) ≤
   length (rd_ops st) + 2 * length rs)%nat.
Proof.
  revert st. induction rs as [|ir rs IH]; intros st; simpl; [lia|].
  specialize (IH (slog_read_step lo hi st ir)).
  pose proof (slog_read_step_ops lo hi st ir). lia.
Qed.

Lemma slog_read_iov_ops s v b0 :
  (length (slog_read_iov s v b0).1 ≤
   2 * length (isl_search (Some (iov_offset v)) (Some (iov_offset v + iov_len v - 1)%Z)
                 (mapping s)) + 1)%nat.
Proof.
  unfold slog_read_iov. cbv zeta.
  pose proof (slog_read_fold_ops (iov_offset v) (iov_offset v + iov_len v - 1)
    (Slog_rd (iov_offset v) b0 (-1) [])
    (isl_search (Some (iov_offset v)) (Some (iov_offset v + iov_len v - 1)) (mapping s))) as Hl.
  set (st := foldl _ _ _) in *. clearbody st. simpl in Hl.
  repeat case_decide; simpl; rewrite ?length_app; simpl; lia.
Qed.

(** The extent array [seglog_read_func] allocates is large enough for
    every queued read, with its ten spare slots untouched. *)
Theorem seglog_read_slots_enough s iov boff :
  Z.of_nat (length (slog_read_plan s iov boff)) + 10 ≤ slog_read_slots s iov.
Proof.
  unfold slog_read_slots. apply Zplus_le_compat_r. rewrite <- (Z.add_0_l (Z.of_nat _)).
  generalize 0 as n. revert boff.
  induction iov as [|v iov IH]; intros boff n; cbn [slog_read_plan foldl]; [simpl; lia|].
  pose proof (slog_read_iov_ops s v boff) as Hl.
  destruct (slog_read_iov s v boff) as [ops b1]. simpl in Hl.
  etransitivity; [|apply (IH b1)]. rewrite length_app. lia.
Qed.
End read_slots.
