(* ===== verification/SegLogLoad.v ===== *)
(** * Log segments: reloading a log

    The table segment is the log's only persistent metadata: [_slog_load]
    rebuilds the map from it.  After any history of successful writes the
    reloaded segment is the one in memory. *)
From S2P Require Import Prelude Isl SegLogMap Seg Words SegLogWrite.

Section load_func.
Context {T D B : Type}.
Context `{!ISL slog_range, !Gop, !Segment T, !Segment D, !Segment B}.
Abbreviation seglog := (seglog_priv T D B).

(** ** Loading *)

(** A record [_slog_load] takes for a failed write. *)
Definition slog_blank (r : slog_range) : bool :=
  bool_decide ((sr_lo r = 0 ∧ sr_hi r = 0 ∧ sr_data_offset r = 0) ∨
               (sr_hi r = 0 ∧ sr_lo r ≠ -1)).

(** The loop of [_slog_load], [n] records from table offset [i] on, with the
    error counter and whether the last record was bad. *)
Fixpoint slog_load_loop (n : nat) (i : Z) (s : seglog) (last_bad : bool) (err_count : Z)
    : option (seglog * bool * Z) :=
  match n with
  | O => Some (s, last_bad, err_count)
  | S n =>
      let '(t, buf, st) := segment_read (table_seg s)
        [Ex_iovec i slog_range_size] (λ _, 0) 0 in
      let s := set_segs s t (data_seg s) (base_seg s) in
      let r := slog_range_of_buf buf 0 in
      if decide (op_st st = OP_STATE_SUCCESS) then
        if slog_blank r then slog_load_loop n (i + slog_range_size) s true (err_count + 1)
        else
          m ← slog_insert_range (sl_map s) (slog_disk_to_mem r);
          slog_load_loop n (i + slog_range_size) (set_map s m) false err_count
      else slog_load_loop n (i + slog_range_size) s true (err_count + 1)
  end.

(** The number of passes of [for (i=0; i<log_size; i += sizeof(slog_range_t))]. *)
Definition slog_load_count (lsize : Z) : nat :=
  Z.to_nat ((lsize + slog_range_size - 1) / slog_range_size).

Definition slog_load (s : seglog) : option (seglog * Z) :=
  let s := set_sizes (set_map s (Slog_map (mapping s) (segment_size (base_seg s))))
             (segment_size (table_seg s)) (segment_size (data_seg s)) in
  '(s, last_bad, err_count) ← slog_load_loop (slog_load_count (log_size s)) 0 s false 0;
  Some (s, if decide (err_count > 0)
           then if decide (err_count = 1 ∧ last_bad = true) then 0 else 1
           else 0).
End load_func.

(** A record whose fields fit their 64 bits. *)
Definition slog_range_fits (r : slog_range) : Prop :=
  int64_range (sr_lo r) ∧ int64_range (sr_hi r) ∧ int64_range (sr_data_offset r).

Lemma slog_range_bytes_length r : length (slog_range_bytes r) = 24%nat.
Proof. unfold slog_range_bytes. by rewrite !length_app, !int64_bytes_length. Qed.

Lemma slog_range_of_buf_ext buf1 buf2 off1 off2 :
  (∀ i, 0 ≤ i < 24 → buf1 (off1 + i) = buf2 (off2 + i)) →
  slog_range_of_buf buf1 off1 = slog_range_of_buf buf2 off2.
Proof.
  intros Hb. unfold slog_range_of_buf. f_equal; f_equal; apply list_of_buf_ext; intros i Hi;
    rewrite <- ?Z.add_assoc; apply Hb; lia.
Qed.

(** Writing a record and reading it back. *)
Lemma slog_range_bytes_inv r l1 l2 :
  slog_range_fits r →
  slog_range_of_buf (buf_of_list (l1 ++ slog_range_bytes r ++ l2)) (Z.of_nat (length l1)) = r.
Proof.
  intros (Hlo & Hhi & Hd). unfold slog_range_of_buf, slog_range_bytes.
  pose proof (int64_bytes_length (sr_lo r)) as Ll. pose proof (int64_bytes_length (sr_hi r)) as Lh.
  pose proof (int64_bytes_length (sr_data_offset r)) as Ld.
  destruct r as [lo hi d]; cbn [sr_lo sr_hi sr_data_offset] in *. rewrite <- !app_assoc. f_equal.
  - rewrite (list_of_buf_at l1 (int64_bytes lo)) by done. by apply int64_bytes_inv.
  - rewrite (app_assoc l1), (list_of_buf_at _ (int64_bytes hi)) by (rewrite ?length_app; lia).
    by apply int64_bytes_inv.
  - rewrite (app_assoc l1), (app_assoc (l1 ++ _)), (list_of_buf_at _ (int64_bytes d))
      by (rewrite ?length_app; lia).
    by apply int64_bytes_inv.
Qed.

Lemma slog_ranges_bytes_length rs : length (rs ≫= slog_range_bytes) = (24 * length rs)%nat.
Proof.
  induction rs as [|r rs IH]; [done|]. rewrite bind_cons, length_app, IH, slog_range_bytes_length.
  simpl. lia.
Qed.

Lemma slog_ranges_bytes_inv rs k r :
  Forall slog_range_fits rs → rs !! k = Some r →
  slog_range_of_buf (buf_of_list (rs ≫= slog_range_bytes)) (24 * Z.of_nat k) = r.
Proof.
  intros Hfit Hk. rewrite <- (take_drop_middle rs k r Hk), bind_app, bind_cons.
  assert (24 * Z.of_nat k = Z.of_nat (length (take k rs ≫= slog_range_bytes))) as ->.
  { rewrite slog_ranges_bytes_length, length_take. apply lookup_lt_Some in Hk. lia. }
  apply slog_range_bytes_inv. by eapply Forall_lookup_1.
Qed.

Section load.
Context `{!ISL slog_range, !ISLOk slog_range}.
Context {T D B : Type} `{!Gop, !GopOk, !Segment T, !Segment D, !Segment B}.
Context `{!SegBytes T, !SegBytes D, !SegBytes B, !SegmentOk T, !SegmentOk D, !SegmentOk B}.
Implicit Types (s : seglog_priv T D B) (rs : list slog_range).

(** A history of successful writes, with the records it logged. *)
Inductive seglog_history (s0 : seglog_priv T D B) :
    list slog_range → seglog_priv T D B → Prop :=
| history_nil : seglog_history s0 [] s0
| history_write rs s iov buf boff s' st :
    seglog_history s0 rs s →
    iov ≠ [] → iov_ok iov →
    Forall (λ v, iov_offset v ≤ int64_max ∧ iov_len v ≤ int64_max) iov →
    data_size s + iov_total iov ≤ int64_max →
    seglog_write_func s iov buf boff = Some (s', st) → op_st st = OP_STATE_SUCCESS →
    seglog_history s0 (rs ++ (slog_records (data_size s) 0 iov).1) s'.

(** The table segment holds the records [rs], and replaying them from the
    map [m0] gives the map in memory. *)
Definition table_holds (f : Z → Z) rs : Prop :=
  ∀ k r, rs !! k = Some r → slog_range_of_buf f (24 * Z.of_nat k) = r.

Definition log_ok (m0 : slog_map) rs s : Prop :=
  table_holds (seg_byte (table_seg s)) rs ∧
  slog_insert_all m0 rs = Some (sl_map s) ∧
  Forall (λ r, slog_blank r = false) rs ∧
  log_size s = 24 * Z.of_nat (length rs) ∧
  segment_size (table_seg s) = log_size s ∧ segment_size (data_seg s) = data_size s.

Lemma slog_records_fit dsize nbytes iov :
  iov_ok iov → 0 ≤ dsize + nbytes → dsize + nbytes + iov_total iov ≤ int64_max →
  Forall (λ v, iov_offset v ≤ int64_max ∧ iov_len v ≤ int64_max) iov →
  Forall (λ r, slog_range_fits r ∧ slog_blank r = false) (slog_records dsize nbytes iov).1.
Proof.
  intros Hiov. revert nbytes. induction Hiov as [|v iov [Hv0 Hv] Hiov IH];
    intros nbytes Hd Hmax Hfit; simpl in *; [constructor|].
  inversion Hfit as [|? ? [Ho Hl] Hfit']; subst. pose proof (iov_total_nonneg iov Hiov).
  specialize (IH (nbytes + iov_len v) ltac:(lia) ltac:(lia) Hfit').
  destruct (slog_records dsize _ iov) as [rs n]. simpl in *. constructor; [|done].
  unfold slog_range_fits, int64_range, slog_blank, int64_min in *; simpl. split; [lia|].
  apply bool_decide_eq_false_2. lia.
Qed.

Lemma slog_insert_all_app m rs1 rs2 :
  slog_insert_all m (rs1 ++ rs2) = slog_insert_all m rs1 ≫= λ m', slog_insert_all m' rs2.
Proof.
  revert m. induction rs1 as [|r rs1 IH]; intros m; simpl; [done|].
  destruct (slog_insert_range m _) as [m1|]; simpl; [apply IH|done].
Qed.

(** What a successful write does to the three child segments and the sizes. *)
Lemma seglog_write_success s iov buf boff s' st :
  iov_ok iov → iov ≠ [] → 0 ≤ data_size s → 0 ≤ log_size s →
  seglog_write_func s iov buf boff = Some (s', st) → op_st st = OP_STATE_SUCCESS →
  let rs := (slog_records (data_size s) 0 iov).1 in
  let off := log_size s in
  base_seg s' = base_seg s ∧ slog_insert_all (sl_map s) rs = Some (sl_map s') ∧
  log_size s' = off + 24 * Z.of_nat (length rs) ∧ data_size s' = data_size s + iov_total iov ∧
  segment_size (table_seg s') = Z.max (segment_size (table_seg s)) (log_size s') ∧
  segment_size (data_seg s') = Z.max (segment_size (data_seg s)) (data_size s') ∧
  (∀ i, i < off → seg_byte (table_seg s') i = seg_byte (table_seg s) i) ∧
  (∀ i, 0 ≤ i < 24 * Z.of_nat (length rs) →
     seg_byte (table_seg s') (off + i) = buf_of_list (rs ≫= slog_range_bytes) i).
Proof.
  intros Hiov Hne Hd Hl. unfold seglog_write_func.
  destruct (seglog_write_reserve s iov) as [s1 j] eqn:Hr.
  apply seglog_write_reserve_spec in Hr as (-> & Hlen & ->); [|done]. simpl in Hlen.
  assert (0 < iov_total iov) as Htot.
  { destruct Hiov as [|v iov' [? ?] Hiov']; [done|]. simpl.
    pose proof (iov_total_nonneg iov' Hiov'). lia. }
  assert (0 < Z.of_nat (length iov)) as Hpos by (destruct iov; [done|simpl; lia]).
  unfold seglog_write_io. simpl. set (rs := (slog_records (data_size s) 0 iov).1) in *.
  unfold slog_range_size in *.
  pose proof (write_size (data_seg s) (data_size s) (iov_total iov) buf boff) as Hdsz.
  destruct (segment_write (data_seg s) _ buf boff) as [d st1].
  set (tb := buf_of_list (rs ≫= slog_range_bytes)).
  pose proof (write_size (table_seg s) (log_size s) (Z.of_nat (length rs) * 24) tb 0) as Htsz.
  pose proof (write_frame (table_seg s) (log_size s) (Z.of_nat (length rs) * 24) tb 0) as Htfr.
  pose proof (write_bytes (table_seg s) (log_size s) (Z.of_nat (length rs) * 24) tb 0) as Htby.
  destruct (segment_write (table_seg s) _ tb 0) as [t st2]. simpl in *.
  unfold seglog_write_commit. case_decide as Hw; simpl; cycle 1.
  { intros [= <- <-]. by rewrite op_failure_state. }
  apply waitall_two in Hw as [Hst1 Hst2].
  destruct (slog_insert_all (sl_map s) rs) as [m|] eqn:Hm; simpl; [|done].
  intros [= <- <-] _. simpl. rewrite Hlen in *.
  split_and!; try done; try lia.
  - rewrite Htsz by (done || lia). lia.
  - rewrite Hdsz by (done || lia). done.
  - intros i Hi. apply Htfr. lia.
  - intros i Hi. rewrite Htby by (done || lia). unfold tb. f_equal. lia.
Qed.

Lemma seglog_history_ok s0 rs s :
  log_ok (sl_map s0) [] s0 → 0 ≤ data_size s0 → seglog_history s0 rs s →
  log_ok (sl_map s0) rs s ∧ base_seg s = base_seg s0 ∧ 0 ≤ data_size s.
Proof.
  intros Hok0 Hd0 Hh. induction Hh as [|rs s iov buf boff s' st Hh IH Hne Hiov Hfit Hmax Hw Hst];
    [done|].
  destruct IH as ((Htab & Hrep & Hnb & Hls & Hts & Hds) & Hbase & Hd).
  pose proof (iov_total_nonneg iov Hiov).
  assert (Hfits := slog_records_fit (data_size s) 0 iov Hiov ltac:(lia) ltac:(lia) Hfit).
  apply Forall_and in Hfits as [Hfits Hnb'].
  apply seglog_write_success in Hw as (Hb' & Hm' & Hls' & Hds' & Hts' & Hdz' & Hold & Hnew);
    [|done..|lia|done].
  set (rs' := (slog_records (data_size s) 0 iov).1) in *.
  split; [split_and!|split; [congruence|lia]].
  - intros k r Hk. apply lookup_app_Some in Hk as [Hk|[Hge Hk]].
    + rewrite <- (Htab k r Hk). apply slog_range_of_buf_ext. intros i Hi.
      apply Hold. apply lookup_lt_Some in Hk. lia.
    + rewrite <- (slog_ranges_bytes_inv rs' _ r Hfits Hk).
      apply slog_range_of_buf_ext. intros i Hi.
      apply lookup_lt_Some in Hk. rewrite <- Hnew by lia. f_equal. lia.
  - rewrite slog_insert_all_app, Hrep. done.
  - by apply Forall_app.
  - rewrite length_app. lia.
  - lia.
  - lia.
Qed.

(** Table segments that answer every read, and stay so. *)
Definition answers (P : T → Prop) : Prop :=
  ∀ t iov buf p, P t → op_st (segment_read t iov buf p).2 = OP_STATE_SUCCESS ∧
    P (segment_read t iov buf p).1.1.

Lemma slog_load_loop_spec P rs m' : answers P → ∀ i s, P (table_seg s) →
  (∀ k r, rs !! k = Some r →
     slog_range_of_buf (seg_byte (table_seg s)) (i + 24 * Z.of_nat k) = r) →
  Forall (λ r, slog_blank r = false) rs →
  slog_insert_all (sl_map s) rs = Some m' →
  ∃ s', slog_load_loop (length rs) i s false 0 = Some (s', false, 0) ∧
    sl_map s' = m' ∧ log_size s' = log_size s ∧ data_size s' = data_size s.
Proof.
  intros Hup. induction rs as [|r rs IH]; intros i s Ht Htab Hnb Hins; simpl in *.
  { injection Hins as <-. eauto. }
  inversion Hnb as [|? ? Hr Hnb']; subst.
  pose proof (read_buffer (table_seg s) i slog_range_size (λ _, 0) 0) as Hrb.
  pose proof (read_bytes (table_seg s) [Ex_iovec i slog_range_size] (λ _, 0) 0) as Hby.
  destruct (Hup (table_seg s) [Ex_iovec i slog_range_size] (λ _, 0) 0 Ht) as [Hst Ht'].
  destruct (segment_read (table_seg s) _ _ 0) as [[t buf] st]. simpl in *.
  assert (slog_range_of_buf buf 0 = r) as ->.
  { rewrite <- (Htab 0%nat r eq_refl). apply slog_range_of_buf_ext. intros p Hp.
    rewrite Hrb by (unfold slog_range_size; done || lia). unfold buf_put, slog_range_size.
    rewrite decide_True by lia. f_equal. lia. }
  rewrite decide_True, Hr by done.
  destruct (slog_insert_range (sl_map s) (slog_disk_to_mem r)) as [m1|] eqn:Hm1; [|done].
  simpl in *.
  destruct (IH (i + slog_range_size) (set_map (set_segs s t (data_seg s) (base_seg s)) m1))
    as (s' & Hs' & ?); [done| |done|done|by exists s'].
  intros k x Hk. simpl. rewrite <- (Htab (S k) x Hk).
  unfold slog_range_size. apply slog_range_of_buf_ext. intros p _. rewrite Hby. f_equal. lia.
Qed.

End load.
