(* ===== verification/SegLogMerge.v ===== *)
(** * Log segments: merging the log into its base

    [seglog_merge_with_base_func] copies every logged extent from the data
    segment to the base through one transfer buffer. *)
From S2P Require Import Prelude Isl SegLogMap Seg Words SegLogWrite.

Section merge_func.
Context {T D B : Type}.
Context `{!ISL slog_range, !Gop, !Segment T, !Segment D, !Segment B}.
Abbreviation seglog := (seglog_priv T D B).

(** ** Merging the log into the base *)

(** The loop variables of [seglog_merge_with_base_func]: the segments, the
    transfer buffer, the fill position, and the two queues.  The queued
    operations refer to slots of the extent arrays [ex_in] and [ex_out], whose
    contents count when the queue is run. *)
Record slog_merge := Slog_merge {
  mg_data : D; mg_base : B; mg_buf : tbuffer; mg_pos : Z;
  mg_in : list ex_iovec; mg_out : list ex_iovec;
  mg_qin : list (nat * Z); mg_qout : list (nat * Z) }.

Fixpoint merge_run_reads (d : D) (ex : list ex_iovec) (q : list (nat * Z)) (buf : tbuffer)
    : D * tbuffer * list op_status :=
  match q with
  | [] => (d, buf, [])
  | (i, pos) :: q =>
      let '(d, buf, st) := segment_read d [default (Ex_iovec 0 0) (ex !! i)] buf pos in
      let '(d, buf, sts) := merge_run_reads d ex q buf in (d, buf, st :: sts)
  end.

Fixpoint merge_run_writes (b : B) (ex : list ex_iovec) (q : list (nat * Z)) (buf : tbuffer)
    : B * list op_status :=
  match q with
  | [] => (b, [])
  | (i, pos) :: q =>
      let '(b, st) := segment_write b [default (Ex_iovec 0 0) (ex !! i)] buf pos in
      let '(b, sts) := merge_run_writes b ex q buf in (b, st :: sts)
  end.

(** [opque_waitall] on the two queues; [false] is the error return. *)
Definition merge_wait_in (g : slog_merge) : slog_merge * bool :=
  let '(d, buf, sts) := merge_run_reads (mg_data g) (mg_in g) (mg_qin g) (mg_buf g) in
  (Slog_merge d (mg_base g) buf (mg_pos g) (mg_in g) (mg_out g) [] (mg_qout g),
   bool_decide (opque_waitall sts = OP_STATE_SUCCESS)).
Definition merge_wait_out (g : slog_merge) : slog_merge * bool :=
  let '(b, sts) := merge_run_writes (mg_base g) (mg_out g) (mg_qout g) (mg_buf g) in
  (Slog_merge (mg_data g) b (mg_buf g) (mg_pos g) (mg_in g) (mg_out g) (mg_qin g) [],
   bool_decide (opque_waitall sts = OP_STATE_SUCCESS)).

(** Flushing a full buffer. *)
Definition merge_flush (g : slog_merge) : slog_merge * bool :=
  let '(g, ok) := merge_wait_in g in
  if ok then
    let '(g, ok) := merge_wait_out g in
    (Slog_merge (mg_data g) (mg_base g) (mg_buf g) 0 (mg_in g) (mg_out g) (mg_qin g) (mg_qout g), ok)
  else (g, false).

Definition merge_set_slot (g : slog_merge) (i : nat) (vin vout : ex_iovec) : slog_merge :=
  Slog_merge (mg_data g) (mg_base g) (mg_buf g) (mg_pos g)
    (<[i := vin]> (mg_in g)) (<[i := vout]> (mg_out g)) (mg_qin g) (mg_qout g).
Definition merge_queue_read (g : slog_merge) (i : nat) (pos : Z) : slog_merge :=
  Slog_merge (mg_data g) (mg_base g) (mg_buf g) (mg_pos g) (mg_in g) (mg_out g)
    (mg_qin g ++ [(i, pos)]) (mg_qout g).
Definition merge_queue_write (g : slog_merge) (i : nat) (pos : Z) : slog_merge :=
  Slog_merge (mg_data g) (mg_base g) (mg_buf g) (mg_pos g) (mg_in g) (mg_out g)
    (mg_qin g) (mg_qout g ++ [(i, pos)]).
Definition merge_set_pos (g : slog_merge) (pos : Z) : slog_merge :=
  Slog_merge (mg_data g) (mg_base g) (mg_buf g) pos (mg_in g) (mg_out g) (mg_qin g) (mg_qout g).

(** The chunk loop for a range longer than the buffer. *)
Fixpoint merge_chunks (fuel : nat) (bufsize len bpos : Z) (i : nat) (g : slog_merge)
    : option (slog_merge * bool) :=
  match fuel with
  | O => None
  | S fuel =>
      if decide (bpos < len) then
        let blen := if decide (bpos + bufsize > len) then len - bpos else len in
        let vin := default (Ex_iovec 0 0) (mg_in g !! i) in
        let vout := default (Ex_iovec 0 0) (mg_out g !! i) in
        let g := merge_set_slot g i (Ex_iovec (iov_offset vin) blen)
                                    (Ex_iovec (iov_offset vout) blen) in
        let '(g, ok) := merge_wait_in (merge_queue_read g i 0) in
        if ok then
          let g := merge_queue_write g i 0 in
          let g := merge_set_slot g i (Ex_iovec (iov_offset vin + blen) blen)
                                      (Ex_iovec (iov_offset vout + blen) blen) in
          merge_chunks fuel bufsize len (bpos + bufsize) i g
        else Some (g, false)
      else Some (g, true)
  end.

Definition merge_needs_flush (g : slog_merge) (len bufsize : Z) : bool :=
  bool_decide (len > bufsize ∨ mg_pos g + len > bufsize).

(** The range loop; its last pass only flushes what is left. *)
Fixpoint merge_loop (bufsize : Z) (i : nat) (rs : list slog_range) (g : slog_merge)
    : option (slog_merge * bool) :=
  match rs with
  | [] =>
      if merge_needs_flush g bufsize bufsize then Some (merge_flush g) else Some (g, true)
  | r :: rs =>
      let len := sr_hi r - sr_lo r + 1 in
      let g := Slog_merge (mg_data g) (mg_base g) (mg_buf g) (mg_pos g)
                 (mg_in g ++ [Ex_iovec (sr_data_offset r) len])
                 (mg_out g ++ [Ex_iovec (sr_lo r) len]) (mg_qin g) (mg_qout g) in
      let '(g, ok) := if merge_needs_flush g len bufsize then merge_flush g else (g, true) in
      if ok then
        if decide (len > bufsize) then
          '(g, ok) ← merge_chunks (S (Z.to_nat len)) bufsize len 0 i g;
          if (ok : bool) then merge_loop bufsize (S i) rs (merge_set_pos g 0)
          else Some (g, false)
        else
          let g := merge_queue_write (merge_queue_read g i (mg_pos g)) i (mg_pos g) in
          merge_loop bufsize (S i) rs (merge_set_pos g (mg_pos g + len))
      else Some (g, false)
  end.

Definition seglog_merge_with_base_func (s : seglog) (bufsize : Z) (buf : tbuffer)
    (truncate_old_log : bool) : option (seglog * op_status) :=
  let g := Slog_merge (data_seg s) (base_seg s) buf 0 [] [] [] [] in
  '(g, ok) ← merge_loop bufsize 0 (isl_all (mapping s)) g;
  let s := set_segs s (table_seg s) (mg_data g) (mg_base g) in
  if (ok : bool) then
    if truncate_old_log then
      let '(d, buf, sts) := merge_run_reads (mg_data g) (mg_in g) (mg_qin g) (mg_buf g) in
      let '(t, st1) := segment_truncate (table_seg s) 0 in
      let '(d, st2) := segment_truncate d 0 in
      m ← slog_truncate_range (sl_map s) (Slog_range (-1) (-1) (-1));
      let s := set_sizes (set_map (set_segs s t d (base_seg s)) m) 0 0 in
      Some (s, if decide (opque_waitall (sts ++ [st1; st2]) = OP_STATE_SUCCESS)
               then op_success_status else op_failure_status)
    else Some (s, op_success_status)
  else Some (s, op_failure_status).
End merge_func.

(** ** Packing ranges into the transfer buffer *)

Definition range_len (r : slog_range) : Z := sr_hi r - sr_lo r + 1.
Definition in_iov (r : slog_range) : ex_iovec := Ex_iovec (sr_data_offset r) (range_len r).
Definition out_iov (r : slog_range) : ex_iovec := Ex_iovec (sr_lo r) (range_len r).

(** The queue entries of the consecutive ranges [rs], the first in slot [k] at
    buffer position [p]. *)
Fixpoint pack (k : nat) (p : Z) (rs : list slog_range) : list (nat * Z) :=
  match rs with [] => [] | r :: rs => (k, p) :: pack (S k) (p + range_len r) rs end.
Definition pack_end (p : Z) (rs : list slog_range) : Z := foldl (λ p r, p + range_len r) p rs.

Lemma pack_snoc k p rs r :
  pack k p (rs ++ [r]) = pack k p rs ++ [((k + length rs)%nat, pack_end p rs)].
Proof.
  revert k p. induction rs as [|x rs IH]; intros k p; simpl; [by rewrite Nat.add_0_r|].
  rewrite IH. do 4 f_equal. lia.
Qed.

(** The buffer after the queued reads. *)
Fixpoint packed_buf (fd : Z → Z) (p : Z) (rs : list slog_range) (buf : tbuffer) : tbuffer :=
  match rs with
  | [] => buf
  | r :: rs => packed_buf fd (p + range_len r) rs (buf_put buf p (range_len r) fd (sr_data_offset r))
  end.

(** A file [fb] with the ranges [rs] taken from [fd]. *)
Definition merged (fd fb : Z → Z) (rs : list slog_range) (off : Z) : Z :=
  match find_cover off rs with
  | Some r => fd (sr_data_offset r + (off - sr_lo r)) | None => fb off end.

Lemma range_len_pos r : valid r → 0 < range_len r.
Proof. unfold valid, range_len; simpl. lia. Qed.

Lemma packed_buf_before fd p rs buf x :
  Forall valid rs → x < p → packed_buf fd p rs buf x = buf x.
Proof.
  intros Hv. revert p buf. induction Hv as [|r rs Hr Hv IH]; intros p buf Hx; simpl; [done|].
  pose proof (range_len_pos r Hr). rewrite IH by lia. unfold buf_put. by rewrite decide_False by lia.
Qed.

Lemma packed_buf_ext fd1 fd2 p rs buf1 buf2 x :
  (∀ d, fd1 d = fd2 d) → (∀ x, buf1 x = buf2 x) →
  packed_buf fd1 p rs buf1 x = packed_buf fd2 p rs buf2 x.
Proof.
  intros Hfd. revert p buf1 buf2. induction rs as [|r rs IH]; intros p buf1 buf2 Hb; simpl; [done|].
  apply IH. intros y. unfold buf_put. by rewrite Hfd, Hb.
Qed.

Lemma out_iov_ok rs : ranges_ok rs → Forall (λ r, 0 ≤ sr_lo r) rs → iov_ok (out_iov <$> rs).
Proof.
  intros [Hv _] Hlo. apply Forall_fmap. apply Forall_forall. intros r Hr.
  rewrite Forall_forall in Hv, Hlo. pose proof (range_len_pos r (Hv r Hr)).
  specialize (Hlo r Hr). simpl. done.
Qed.

Lemma find_cover_app off (l k : list slog_range) :
  find_cover off (l ++ k) =
  match find_cover off l with Some r => Some r | None => find_cover off k end.
Proof. unfold find_cover. rewrite filter_app. by destruct (filter _ l). Qed.

Lemma find_cover_cons off r (l : list slog_range) :
  find_cover off (r :: l) = if decide (covers off r) then Some r else find_cover off l.
Proof. unfold find_cover. rewrite filter_cons. by case_decide. Qed.

Lemma merged_app fd fb l k off :
  ranges_ok (l ++ k) → merged fd (merged fd fb l) k off = merged fd fb (l ++ k) off.
Proof.
  intros Hok. unfold merged. rewrite find_cover_app.
  destruct (find_cover off k) as [y|] eqn:Hk, (find_cover off l) as [x|] eqn:Hl; try done.
  apply find_cover_in in Hk as [Hk Hy], Hl as [Hl Hx].
  by rewrite (ranges_ok_inj (l ++ k) x y off) by (rewrite ?elem_of_app; auto).
Qed.

Lemma iov_overlay_out_other fb rs buf p off :
  find_cover off rs = None → iov_overlay fb (out_iov <$> rs) buf p off = fb off.
Proof.
  intros Hno. apply iov_overlay_other. intros v (r & -> & Hr)%list_elem_of_fmap Hv.
  rewrite find_cover_None in Hno. apply (Hno r Hr).
  unfold covers, out_iov, range_len in *; simpl in *. lia.
Qed.

(** Writing the packed buffer out puts every range in place. *)
Lemma packed_overlay fd fb rs p buf off :
  ranges_ok rs → Forall (λ r, 0 ≤ sr_lo r) rs →
  iov_overlay fb (out_iov <$> rs) (packed_buf fd p rs buf) p off = merged fd fb rs off.
Proof.
  intros Hok Hlo. revert fb p buf.
  induction rs as [|r rs IH]; intros fb p buf; [done|].
  apply ranges_ok_cons in Hok as (Hv & Ha & Hok). inversion Hlo as [|? ? Hr Hlo']; subst.
  pose proof (range_len_pos r Hv) as Hlen.
  cbn [packed_buf fmap list_fmap iov_overlay out_iov iov_offset iov_len].
  etransitivity; [apply (IH Hok Hlo')|]. unfold merged. rewrite find_cover_cons.
  case_decide as Hc.
  - assert (find_cover off rs = None) as ->.
    { apply find_cover_None. intros x Hx Hcx. specialize (Ha x Hx).
      unfold apart, covers in *; simpl in *. lia. }
    unfold buf_put at 1. unfold covers, range_len in *; simpl in *.
    rewrite decide_True by lia.
    rewrite packed_buf_before by (apply Hok || lia). unfold buf_put. rewrite decide_True by lia.
    f_equal. lia.
  - destruct (find_cover off rs); [done|]. unfold buf_put.
    unfold covers, range_len in *; simpl in *. by rewrite decide_False by lia.
Qed.

Section merge.
Context `{!ISL slog_range, !ISLOk slog_range}.
Context {T D B : Type} `{!Gop, !GopOk, !Segment T, !Segment D, !Segment B}.
Context `{!SegBytes T, !SegBytes D, !SegBytes B, !SegmentOk T, !SegmentOk D, !SegmentOk B}.
Implicit Types (s : seglog_priv T D B) (g : slog_merge (D:=D) (B:=B)) (rs : list slog_range).

Abbreviation all_ok sts := (∀ st, st ∈ sts → op_st st = OP_STATE_SUCCESS).

(** ** Running the queues *)
Lemma merge_run_reads_spec (d : D) ex k p rs buf (d' : D) buf' sts :
  (∀ i r, rs !! i = Some r → ex !! (k + i)%nat = Some (in_iov r)) → Forall valid rs →
  merge_run_reads d ex (pack k p rs) buf = (d', buf', sts) →
  (∀ i, seg_byte d' i = seg_byte d i) ∧ segment_size d' = segment_size d ∧
  (all_ok sts → ∀ x, buf' x = packed_buf (seg_byte d) p rs buf x).
Proof.
  intros Hex Hv. revert k p d buf sts Hex.
  induction Hv as [|r rs Hr Hv IH]; intros k p d buf sts Hex; simpl.
  { by intros [= <- <- <-]. }
  pose proof (Hex 0%nat r eq_refl) as Hex0. rewrite Nat.add_0_r in Hex0. rewrite Hex0. simpl.
  pose proof (read_bytes d [in_iov r] buf p) as Hby.
  pose proof (read_size d [in_iov r] buf p) as Hsz.
  pose proof (λ x, read_buffer d (sr_data_offset r) (range_len r) buf p x) as Hbu.
  unfold in_iov in *. pose proof (range_len_pos r Hr) as Hpos.
  destruct (segment_read d _ buf p) as [[d1 buf1] st] eqn:Hrd. simpl in *.
  destruct (merge_run_reads d1 ex _ buf1) as [[d2 buf2] sts2] eqn:Hrun.
  intros [= <- <- <-].
  apply IH in Hrun as (Hby2 & Hsz2 & Hbu2); cycle 1.
  { intros i x Hi. rewrite Nat.add_succ_comm. by apply Hex. }
  split_and!; [intros i; by rewrite Hby2|congruence|].
  intros Hall x. rewrite Hbu2 by (intros; apply Hall; by right).
  apply packed_buf_ext; [done|]. intros y. apply Hbu; [lia|]. apply Hall. by left.
Qed.

Lemma merge_run_writes_spec (b : B) ex k p rs buf (b' : B) sts :
  (∀ i r, rs !! i = Some r → ex !! (k + i)%nat = Some (out_iov r)) →
  ranges_ok rs → Forall (λ r, 0 ≤ sr_lo r) rs →
  merge_run_writes b ex (pack k p rs) buf = (b', sts) →
  (∀ off, find_cover off rs = None → seg_byte b' off = seg_byte b off) ∧
  (all_ok sts → ∀ off,
     seg_byte b' off = iov_overlay (seg_byte b) (out_iov <$> rs) buf p off).
Proof.
  revert k p b sts. induction rs as [|r rs IH]; intros k p b sts Hex Hok Hlo; simpl.
  { by intros [= <- <-]. }
  apply ranges_ok_cons in Hok as (Hv & Ha & Hok). inversion Hlo as [|? ? Hr Hlo']; subst.
  pose proof (Hex 0%nat r eq_refl) as Hex0. rewrite Nat.add_0_r in Hex0. rewrite Hex0. simpl.
  pose proof (λ i, write_frame b (sr_lo r) (range_len r) buf p i) as Hfr.
  pose proof (λ i, write_bytes b (sr_lo r) (range_len r) buf p i) as Hwr.
  unfold out_iov at 1. pose proof (range_len_pos r Hv) as Hpos.
  destruct (segment_write b _ buf p) as [b1 st] eqn:Hw. simpl in *.
  destruct (merge_run_writes b1 ex _ buf) as [b2 sts2] eqn:Hrun.
  intros [= <- <-].
  apply IH in Hrun as (Hfr2 & Hwr2); [|intros i x Hi; rewrite Nat.add_succ_comm; by apply Hex|done..].
  split.
  - intros off. rewrite find_cover_cons. case_decide as Hc; [done|]. intros Hno.
    rewrite Hfr2 by done. apply Hfr. unfold covers, range_len in *; simpl in *. lia.
  - intros Hall off. rewrite Hwr2 by (intros; apply Hall; by right).
    apply iov_overlay_ext; [by apply out_iov_ok| |done].
    intros i. unfold buf_put. case_decide as Hc; [|by apply Hfr].
    apply Hwr; [apply Hall; by left|done].
Qed.

(** ** The invariant of the range loop: [done] is in the base, [pend] is in
    the queues, [nxt] already has its slots. *)
Definition merge_frame (fd fb : Z → Z) (all : list slog_range) g : Prop :=
  (∀ i, seg_byte (mg_data g) i = fd i) ∧
  ∀ off, find_cover off all = None → seg_byte (mg_base g) off = fb off.

Definition merge_inv (fd fb : Z → Z) g (done pend nxt : list slog_range) : Prop :=
  mg_in g = in_iov <$> (done ++ pend ++ nxt) ∧ mg_out g = out_iov <$> (done ++ pend ++ nxt) ∧
  mg_qin g = pack (length done) 0 pend ∧ mg_qout g = pack (length done) 0 pend ∧
  mg_pos g = pack_end 0 pend ∧
  (∀ i, seg_byte (mg_data g) i = fd i) ∧
  ∀ off, seg_byte (mg_base g) off = merged fd fb done off.

Lemma merged_ext fd1 fd2 fb1 fb2 rs off :
  (∀ d, fd1 d = fd2 d) → (∀ i, fb1 i = fb2 i) → merged fd1 fb1 rs off = merged fd2 fb2 rs off.
Proof. intros Hd Hb. unfold merged. by destruct (find_cover off rs). Qed.

Lemma merged_none fd fb l k m off : find_cover off (l ++ k ++ m) = None → merged fd fb l off = fb off.
Proof. unfold merged. rewrite find_cover_app. by destruct (find_cover off l). Qed.

Lemma find_cover_app_None off l k :
  find_cover off (l ++ k) = None → find_cover off l = None ∧ find_cover off k = None.
Proof. rewrite find_cover_app. by destruct (find_cover off l). Qed.

Lemma slots_lookup (h : slog_range → ex_iovec) done pend nxt i r :
  pend !! i = Some r → (h <$> (done ++ pend ++ nxt)) !! (length done + i)%nat = Some (h r).
Proof.
  intros Hi. rewrite list_lookup_fmap, lookup_app_r by lia.
  rewrite Nat.add_comm, Nat.add_sub, lookup_app_l by (by eapply lookup_lt_Some).
  by rewrite Hi.
Qed.

Lemma merge_flush_spec fd fb g done pend nxt :
  ranges_ok (done ++ pend) → Forall (λ r, 0 ≤ sr_lo r) pend → merge_inv fd fb g done pend nxt →
  let '(g', ok) := merge_flush g in
  (∀ all, (∀ off, find_cover off all = None →
             find_cover off done = None ∧ find_cover off pend = None) →
     merge_frame fd fb all g') ∧
  (ok = true → merge_inv fd fb g' (done ++ pend) [] nxt).
Proof.
  intros Hok Hlo (Hin & Hout & Hqin & Hqout & Hpos & Hd & Hb).
  pose proof Hok as (_ & Hokp & _)%ranges_ok_app.
  unfold merge_flush, merge_wait_in, merge_wait_out. rewrite Hqin.
  destruct (merge_run_reads _ _ _ _) as [[d buf] sts] eqn:Hrd.
  apply merge_run_reads_spec in Hrd as (Hd' & _ & Hbuf);
    [|rewrite Hin; intros; by apply slots_lookup|apply Hokp].
  cbn [mg_data mg_base mg_buf mg_pos mg_in mg_out mg_qin mg_qout].
  case_bool_decide as Hw; cycle 1.
  { split; [|done]. intros all Hall. split; simpl; [intros; by rewrite Hd'|].
    intros off [Hn _]%Hall. rewrite Hb. unfold merged. by rewrite Hn. }
  rewrite opque_waitall_success in Hw. rewrite Hqout.
  destruct (merge_run_writes _ _ _ _) as [b sts2] eqn:Hwr.
  apply merge_run_writes_spec in Hwr as (Hfr & Hby);
    [|rewrite Hout; intros; by apply slots_lookup|done..].
  split.
  { intros all Hall. split; simpl; [intros; by rewrite Hd'|].
    intros off [Hn Hp]%Hall. rewrite Hfr, Hb by done. unfold merged. by rewrite Hn. }
  intros Hw2%bool_decide_eq_true. rewrite opque_waitall_success in Hw2.
  unfold merge_inv. cbn [mg_data mg_base mg_buf mg_pos mg_in mg_out mg_qin mg_qout pack_end foldl pack].
  rewrite <- !app_assoc. split_and!; try done; [intros; by rewrite Hd'|].
  intros off. rewrite Hby by done. rewrite <- (merged_app fd fb done pend) by done.
  rewrite <- (packed_overlay fd _ pend 0 (mg_buf g)) by done.
  apply iov_overlay_ext; [by apply out_iov_ok|done|]. intros i _.
  rewrite Hbuf by done. by apply packed_buf_ext.
Qed.

Lemma pack_end_ge p rs : Forall valid rs → p ≤ pack_end p rs.
Proof.
  intros Hv. revert p. induction Hv as [|r rs Hr Hv IH]; intros p; simpl; [lia|].
  pose proof (range_len_pos r Hr). specialize (IH (p + range_len r)). unfold pack_end in *. lia.
Qed.

(** Queueing the next range, whose slots are already filled. *)
Lemma merge_queue_spec fd fb g done pend r :
  merge_inv fd fb g done pend [r] →
  let i := length (done ++ pend) in
  merge_inv fd fb (merge_set_pos (merge_queue_write (merge_queue_read g i (mg_pos g)) i (mg_pos g))
                     (mg_pos g + range_len r)) done (pend ++ [r]) [].
Proof.
  intros (Hin & Hout & Hqin & Hqout & Hpos & Hd & Hb) i.
  unfold merge_inv, merge_set_pos, merge_queue_write, merge_queue_read.
  cbn [mg_data mg_base mg_buf mg_pos mg_in mg_out mg_qin mg_qout].
  rewrite Hin, Hout, Hqin, Hqout, Hpos, !pack_snoc, !app_nil_r. unfold i. rewrite length_app.
  split_and!; try done. unfold pack_end. by rewrite foldl_app.
Qed.

(** The range loop, when every range fits the buffer. *)
Lemma merge_loop_spec bufsize fd fb all rest : ∀ g done pend,
  0 < bufsize → all = done ++ pend ++ rest → ranges_ok all →
  Forall (λ r, 0 ≤ sr_lo r ∧ range_len r ≤ bufsize) (pend ++ rest) →
  merge_inv fd fb g done pend [] →
  ∃ g' ok, merge_loop bufsize (length (done ++ pend)) rest g = Some (g', ok) ∧
    merge_frame fd fb all g' ∧
    (ok = true → merge_inv fd fb g' all [] []).
Proof.
  induction rest as [|r rest IH]; intros g done pend Hbs Hall Hok Hfit Hinv.
  - rewrite app_nil_r in *. subst all. simpl. unfold merge_needs_flush.
    assert (Forall (λ r, 0 ≤ sr_lo r) pend) as Hlo by (eapply Forall_impl; [done|]; naive_solver).
    case_bool_decide as Hnf.
    + pose proof (merge_flush_spec fd fb g done pend [] Hok Hlo Hinv) as Hfl.
      destruct (merge_flush g) as [g' ok]. destruct Hfl as [Hfr Hi].
      exists g', ok. split_and!; [done| |done]. apply Hfr. intros off. apply find_cover_app_None.
    + assert (pend = []) as ->.
      { destruct pend as [|x pend]; [done|]. exfalso. apply Hnf. right.
        destruct Hinv as (_ & _ & _ & _ & -> & _).
        apply ranges_ok_app in Hok as (_ & [Hv _] & _). inversion Hv as [|? ? Hx Hv']; subst.
        pose proof (range_len_pos x Hx). pose proof (pack_end_ge (0 + range_len x) pend Hv').
        unfold pack_end in *; simpl in *. lia. }
      rewrite app_nil_r in *. exists g, true. split_and!; try done.
      destruct Hinv as (_ & _ & _ & _ & _ & Hd & Hb). split; [done|].
      intros off Hno. rewrite Hb. unfold merged. by rewrite Hno.
  - assert (Forall (λ r, 0 ≤ sr_lo r) pend ∧ 0 ≤ sr_lo r ∧ range_len r ≤ bufsize) as (Hlo & Hr0 & Hrl).
    { apply Forall_app in Hfit as [Hf1 Hf2]. inversion Hf2; subst.
      split; [|done]. eapply Forall_impl; [done|]. naive_solver. }
    simpl. fold (range_len r). fold (in_iov r). fold (out_iov r).
    set (g1 := Slog_merge _ _ _ _ _ _ _ _).
    assert (merge_inv fd fb g1 done pend [r]) as Hinv1.
    { destruct Hinv as (Hin & Hout & Hq). unfold merge_inv, g1.
      cbn [mg_data mg_base mg_buf mg_pos mg_in mg_out mg_qin mg_qout].
      rewrite Hin, Hout, !app_nil_r, (app_assoc done), !(fmap_app _ (_ ++ _)). done. }
    assert (ranges_ok (done ++ pend)) as Hokdp.
    { rewrite Hall, app_assoc in Hok. by apply ranges_ok_app in Hok as (? & _ & _). }
    assert (¬ range_len r > bufsize) as Hnbig by lia.
    destruct (merge_needs_flush g1 (range_len r) bufsize).
    + pose proof (merge_flush_spec fd fb g1 done pend [r] Hokdp Hlo Hinv1) as Hfl.
      destruct (merge_flush g1) as [g2 [|]]; destruct Hfl as [Hfr Hi]; cycle 1.
      { exists g2, false. split_and!; try done. apply Hfr. intros off Hno. subst all.
        apply find_cover_app_None in Hno as [? Hno]. by apply find_cover_app_None in Hno as [? _]. }
      specialize (Hi eq_refl). apply merge_queue_spec in Hi. rewrite decide_False by done.
      rewrite app_nil_r in Hi. simpl in Hi.
      match type of Hi with merge_inv _ _ ?g' _ _ _ => set (g3 := g') in * end.
      destruct (IH g3 (done ++ pend) [r] Hbs) as (g' & ok & Hg' & ?);
        [by subst; app_norm|done|by apply Forall_app in Hfit as [_ ?]|exact Hi|].
      exists g', ok. split; [|done]. rewrite <- Hg'. f_equal. rewrite (length_app _ [r]). simpl. lia.
    + apply merge_queue_spec in Hinv1. rewrite decide_False by done.
      match type of Hinv1 with merge_inv _ _ ?g' _ _ _ => set (g3 := g') in * end.
      destruct (IH g3 done (pend ++ [r]) Hbs) as (g' & ok & Hg' & ?);
        [by subst; app_norm|done|by rewrite <- app_assoc|exact Hinv1|].
      exists g', ok. split; [|done]. rewrite <- Hg'. f_equal. rewrite !length_app. simpl. lia.
Qed.

Lemma merge_start_spec s bufsize buf :
  seglog_ok s → 0 < bufsize →
  Forall (λ r, range_len r ≤ bufsize) (isl_all (mapping s)) →
  let fd := seg_byte (data_seg s) in let fb := seg_byte (base_seg s) in
  ∃ g ok, merge_loop bufsize 0 (isl_all (mapping s))
            (Slog_merge (data_seg s) (base_seg s) buf 0 [] [] [] []) = Some (g, ok) ∧
    merge_frame fd fb (isl_all (mapping s)) g ∧
    (ok = true → mg_qin g = [] ∧ (∀ i, seg_byte (mg_data g) i = fd i) ∧
       ∀ off, seg_byte (mg_base g) off = seglog_byte s off).
Proof.
  intros [(Hok & Hin & _) _] Hbs Hfit fd fb.
  destruct (merge_loop_spec bufsize fd fb (isl_all (mapping s)) (isl_all (mapping s))
    (Slog_merge (data_seg s) (base_seg s) buf 0 [] [] [] []) [] []) as (g & ok & Hg & Hfr & Hi);
    [done..| | |].
  - simpl. rewrite Forall_forall in *. intros r Hr. split; [|auto]. by apply Hin.
  - by split_and!.
  - exists g, ok. split; [done|]. split; [done|]. intros (_ & _ & Hq & _ & _ & Hd & Hb)%Hi.
    split_and!; try done. intros off. rewrite Hb. unfold merged, seglog_byte, content_of, slog_lookup.
    by destruct (find_cover off _).
Qed.

(** The file seen through an unchanged map does not notice the copying. *)
Lemma merge_frame_byte s fd fb g (t : T) :
  fd = seg_byte (data_seg s) → fb = seg_byte (base_seg s) →
  merge_frame fd fb (isl_all (mapping s)) g →
  ∀ off, seglog_byte (set_segs s t (mg_data g) (mg_base g)) off = seglog_byte s off.
Proof.
  intros -> -> [Hd Hb] off. unfold seglog_byte, content_of, slog_lookup. simpl.
  destruct (find_cover off _) eqn:Hf; simpl; [done|by apply Hb].
Qed.

(** Truncating the map to nothing leaves no extent. *)
Lemma slog_truncate_range_empties (m : slog_map) :
  slog_map_ok m →
  ∃ m', slog_truncate_range m (Slog_range (-1) (-1) (-1)) = Some m' ∧
    isl_all (sm_mapping m') = [] ∧ sm_file_size m' = 0.
Proof.
  intros (Hmok & Hin & Hsz).
  destruct (slog_truncate_range_all m (Slog_range (-1) (-1) (-1))) as (m' & rest & -> & Hall & Hp);
    [by split_and!|simpl; lia|].
  simpl in *. rewrite Forall_forall in Hin.
  pose proof (λ x, isl_search_elem (sm_mapping m) 0 (sm_file_size m) x Hsz Hmok) as Hel.
  change (-1 + 1) with 0 in *.
  set (hits := isl_search _ _ _) in *. clearbody hits.
  assert (Hlo : ∀ x, x ∈ isl_all (sm_mapping m) → 0 ≤ sr_lo x ∧ sr_lo x ≤ sr_hi x ∧ sr_hi x < sm_file_size m).
  { intros x Hx. pose proof (ranges_ok_valid _ _ Hmok Hx). specialize (Hin x Hx).
    unfold valid in *; simpl in *. lia. }
  assert (rest = []) as ->.
  { destruct rest as [|x rest]; [done|]. exfalso.
    assert (x ∈ isl_all (sm_mapping m)) as Hx by (rewrite Hall; set_solver).
    assert (x ∈ hits) as Hxh.
    { apply Hel. split; [done|]. specialize (Hlo x Hx). unfold overlaps; simpl. lia. }
    apply (ranges_ok_perm _ _ Hall), ranges_ok_app in Hmok as (_ & _ & Ha).
    specialize (Ha x x Hxh ltac:(by left)). specialize (Hlo x Hx). unfold apart in Ha; simpl in Ha. lia. }
  eexists. split_and!; [done| |done].
  apply Permutation_nil_r. simpl. rewrite Hp, app_nil_r. unfold slog_stale, slog_trim.
  destruct hits as [|st [|y more]]; [done|..];
    specialize (Hlo st ltac:(rewrite Hall; left)); repeat case_decide; try done; lia.
Qed.

(** A merge that keeps the log. *)
Lemma seglog_merge_keep s bufsize buf :
  seglog_ok s → 0 < bufsize →
  Forall (λ r, range_len r ≤ bufsize) (isl_all (mapping s)) →
  ∃ s' st, seglog_merge_with_base_func s bufsize buf false = Some (s', st) ∧
    sl_map s' = sl_map s ∧ (∀ off, seglog_byte s' off = seglog_byte s off) ∧
    (op_st st = OP_STATE_SUCCESS →
       ∀ off, seg_byte (base_seg s') off = seglog_byte s off).
Proof.
  intros Hs Hbs Hfit. unfold seglog_merge_with_base_func.
  destruct (merge_start_spec s bufsize buf Hs Hbs Hfit) as (g & ok & -> & Hfr & Hok). simpl.
  destruct ok; do 2 eexists; (split; [done|]); split_and!; try done;
    try (intros off; by eapply merge_frame_byte).
  - intros _. simpl. by apply Hok.
  - by rewrite op_failure_state.
Qed.

(** A merge that also empties the log shows the same bytes at every offset
    whatever goes wrong; when it succeeds the map and the logs are empty over a
    base with the file's bytes; but the segment's file size is then 0, whatever
    the file's size. *)
Theorem seglog_merge_truncate s bufsize buf :
  seglog_ok s → 0 < bufsize →
  Forall (λ r, range_len r ≤ bufsize) (isl_all (mapping s)) →
  ∃ s' st, seglog_merge_with_base_func s bufsize buf true = Some (s', st) ∧
    (∀ off, seglog_byte s' off = seglog_byte s off) ∧
    (op_st st = OP_STATE_SUCCESS →
       (∀ off, seg_byte (base_seg s') off = seglog_byte s off) ∧
       isl_all (mapping s') = [] ∧ log_size s' = 0 ∧ data_size s' = 0 ∧
       segment_size (table_seg s') = 0 ∧ segment_size (data_seg s') = 0 ∧ file_size s' = 0).
Proof.
  intros Hs Hbs Hfit. unfold seglog_merge_with_base_func.
  destruct (merge_start_spec s bufsize buf Hs Hbs Hfit) as (g & ok & -> & Hfr & Hok). simpl.
  destruct ok; simpl; cycle 1.
  { do 2 eexists; split_and!; [done|intros off; by eapply merge_frame_byte|by rewrite op_failure_state]. }
  destruct (Hok eq_refl) as (-> & Hd & Hb). simpl.
  pose proof (truncate_size (table_seg s) 0 ltac:(done)) as Ht0.
  destruct (segment_truncate (table_seg s) 0) as [t st1].
  pose proof (truncate_size (mg_data g) 0 ltac:(done)) as Hd0.
  destruct (segment_truncate (mg_data g) 0) as [d st2].
  destruct (slog_truncate_range_empties (sl_map s)) as (m' & -> & Hm' & Hz); [apply Hs|].
  simpl. do 2 eexists. split_and!; [done| |].
  { intros off. rewrite <- Hb. unfold seglog_byte, content_of, slog_lookup. simpl. by rewrite Hm'. }
  case_decide as Hw; [|by rewrite op_failure_state].
  intros _. apply waitall_two in Hw as [Hst1 Hst2]. simpl. unfold mapping, file_size. simpl.
  split_and!; try done; auto.
Qed.

(** C5: a merge, when every extent fits the transfer buffer, returns; whatever
    goes wrong, every byte seen through the log is the one that was there; and
    on success the base alone holds them. A merge that keeps the old log keeps
    its map and the file size; one that gets rid of it and succeeds leaves an
    empty map and empty logs, and a file size of 0, whatever it was. *)
Theorem seglog_merge_correct s bufsize buf truncate_old_log :
  seglog_ok s → 0 < bufsize →
  Forall (λ r, range_len r ≤ bufsize) (isl_all (mapping s)) →
  ∃ s' st, seglog_merge_with_base_func s bufsize buf truncate_old_log = Some (s', st) ∧
    (∀ off, seglog_byte s' off = seglog_byte s off) ∧
    (op_st st = OP_STATE_SUCCESS →
       ∀ off, seg_byte (base_seg s') off = seglog_byte s off) ∧
    if truncate_old_log then
      op_st st = OP_STATE_SUCCESS →
      isl_all (mapping s') = [] ∧ log_size s' = 0 ∧ data_size s' = 0 ∧
      segment_size (table_seg s') = 0 ∧ segment_size (data_seg s') = 0 ∧ file_size s' = 0
    else sl_map s' = sl_map s.
Proof.
  intros Hs Hbs Hfit. destruct truncate_old_log.
  - destruct (seglog_merge_truncate s bufsize buf Hs Hbs Hfit) as (s' & st & -> & Hby & Hok).
    do 2 eexists. split_and!; [done|done|intros ?; by apply Hok|intros ?; by apply Hok].
  - destruct (seglog_merge_keep s bufsize buf Hs Hbs Hfit) as (s' & st & -> & Hm & Hby & Hok).
    do 2 eexists. by split_and!.
Qed.
End merge.
