(* ===== verification/SegLogTrunc.v ===== *)
(** * Log segments: resizing

    [seglog_truncate_func] logs a resize and enters it in the map.  The record
    is adjusted by the condition of the wrong branch (a growth is what needs
    it), and a growth starts at the last byte of the old file. *)
From S2P Require Import Prelude Isl SegLogMap Seg Words SegLogWrite.

Section trunc_func.
Context {T D B : Type}.
Context `{!ISL slog_range, !Gop, !Segment T, !Segment D, !Segment B}.
Abbreviation seglog := (seglog_priv T D B).

(** ** Truncation *)

(** After the queue: the map is changed only on success, and the range is
    first adjusted when the new size is (still) below the file size. *)
Definition seglog_truncate_commit (s : seglog) (new_size : Z) (r : slog_range)
    (err : op_state) : option (seglog * op_status) :=
  if decide (err = OP_STATE_SUCCESS) then
    let r := if decide (new_size < file_size s)
             then Slog_range (sr_lo r) (sr_lo r + sr_hi r - 1) (sr_data_offset r)
             else r in
    m ← slog_insert_range (sl_map s) r;
    Some (set_map s m, op_success_status)
  else Some (add_hard_error s, op_failure_status).

(** [seglog_truncate_func]: nothing to do, a table record for a shrink, or a
    table record and the last byte of the new space for a growth. *)
Definition seglog_truncate_func (s : seglog) (new_size : Z) : option (seglog * op_status) :=
  if decide (new_size < file_size s) then
    let r := Slog_range (-1) (new_size - 1) (-1) in
    let '(t, st) := segment_write (table_seg s)
      [Ex_iovec (log_size s) slog_range_size] (buf_of_list (slog_range_bytes r)) 0 in
    let s := set_sizes (set_segs s t (data_seg s) (base_seg s))
               (log_size s + slog_range_size) (data_size s) in
    seglog_truncate_commit s new_size r (opque_waitall [st])
  else if decide (new_size > file_size s) then
    let r := Slog_range (file_size s - 1) (new_size - file_size s) (data_size s) in
    let '(t, st1) := segment_write (table_seg s)
      [Ex_iovec (log_size s) slog_range_size] (buf_of_list (slog_range_bytes r)) 0 in
    let '(d, st2) := segment_write (data_seg s)
      [Ex_iovec (data_size s + sr_hi r - 1) 1] (λ _, 0) 0 in
    let s := set_sizes (set_segs s t d (base_seg s)) (log_size s + slog_range_size)
               (data_size s + (new_size - file_size s)) in
    seglog_truncate_commit s new_size r (opque_waitall [st1; st2])
  else Some (s, op_success_status).

(** [seglog_truncate]: a negative size only reserves space. *)
Definition seglog_truncate (s : seglog) (new_size : Z) : option (seglog * op_status) :=
  if decide (new_size < 0) then Some (s, op_success_status)
  else seglog_truncate_func s new_size.
End trunc_func.

Section trunc.
Context `{!ISL slog_range, !ISLOk slog_range}.
Context {T D B : Type} `{!Gop, !GopOk, !Segment T, !Segment D, !Segment B}.
Context `{!SegBytes T, !SegBytes D, !SegBytes B, !SegmentOk T, !SegmentOk D, !SegmentOk B}.
Implicit Types (s : seglog_priv T D B).

(** The two table records of a resize. *)
Definition shrink_range (n : Z) : slog_range := Slog_range (-1) (n - 1) (-1).
Definition grow_range s (n : Z) : slog_range :=
  Slog_range (file_size s - 1) (n - file_size s) (data_size s).

(** The state before the commit: only bytes outside the mapped data changed. *)
Lemma seglog_truncate_shape s n :
  seglog_ok s → 0 ≤ n → n ≠ file_size s →
  ∃ s1 err, seglog_truncate s n =
      seglog_truncate_commit s1 n (if decide (n < file_size s) then shrink_range n else grow_range s n) err ∧
    sl_map s1 = sl_map s ∧ hard_errors s1 = hard_errors s ∧
    (∀ off, seglog_byte s1 off = seglog_byte s off).
Proof.
  intros (Hm & Hb & Hd) Hn Hne. unfold seglog_truncate, seglog_truncate_func.
  rewrite (decide_False (P:=n < 0)) by lia. case_decide as Hlt.
  - destruct (segment_write (table_seg s) _ _ 0) as [t st].
    do 2 eexists. split; [done|]. split_and!; done.
  - rewrite (decide_True (P:=n > file_size s)) by lia.
    destruct (segment_write (table_seg s) _ _ 0) as [t st1].
    set (r := Slog_range _ _ _).
    pose proof (λ i, write_frame (data_seg s) (data_size s + sr_hi r - 1) 1 (λ _, 0) 0 i) as Hfr.
    destruct (segment_write (data_seg s) _ _ 0) as [d st2]. simpl in Hfr.
    do 2 eexists. split; [done|]. split_and!; try done. intros off.
    apply (content_of_ext _ _ _ _ _ (data_size s)); try done.
    intros i Hi. simpl. apply Hfr. lia.
Qed.

Lemma seglog_truncate_commit_success s n r err s' st :
  seglog_truncate_commit s n r err = Some (s', st) → op_st st = OP_STATE_SUCCESS →
  let r' := if decide (n < file_size s)
            then Slog_range (sr_lo r) (sr_lo r + sr_hi r - 1) (sr_data_offset r) else r in
  slog_insert_range (sl_map s) r' = Some (sl_map s').
Proof.
  unfold seglog_truncate_commit. case_decide; [|by intros [= <- <-]; rewrite op_failure_state].
  cbv zeta. destruct (slog_insert_range _ _) as [m|]; simpl; [|done]. by intros [= <- <-].
Qed.

(** A resize that reports failure left the file as it was and counted a
    hard error; a resize to the current size changes nothing. *)
Theorem seglog_truncate_failed s n s' st :
  seglog_ok s → seglog_truncate s n = Some (s', st) →
  (op_st st = OP_STATE_FAILURE →
     hard_errors s' = hard_errors s + 1 ∧ file_size s' = file_size s ∧
     ∀ off, seglog_byte s' off = seglog_byte s off) ∧
  (n < 0 ∨ n = file_size s → s' = s ∧ op_st st = OP_STATE_SUCCESS).
Proof.
  intros Hs Ht.
  destruct (decide (n < 0 ∨ n = file_size s)) as [Hsame|Hdiff].
  - assert (s' = s ∧ st = op_success_status) as [-> ->].
    { unfold seglog_truncate, seglog_truncate_func in Ht.
      repeat case_decide; try lia; by injection Ht as <- <-. }
    rewrite op_success_state. split; [done|]. by intros _.
  - split; [|done]. destruct (seglog_truncate_shape s n) as (s1 & err & Hc & Hm & Hh & Hb);
      [done|lia..|]. rewrite Ht in Hc. symmetry in Hc. unfold seglog_truncate_commit in Hc.
    case_decide.
    + cbv zeta in Hc. destruct (slog_insert_range _ _); simpl in Hc; [|done].
      injection Hc as <- <-. by rewrite op_success_state.
    + injection Hc as <- <-. intros _. split_and!; simpl; [by rewrite Hh| |done].
      unfold file_size. simpl. by rewrite Hm.
Qed.

(** A successful shrink to [n] leaves a file of [n - 2] bytes, with no
    logged byte mapped below its end changed: the record's length is adjusted as
    if it were a growth. *)
Theorem seglog_truncate_shrink_short s n s' st :
  seglog_ok s → 2 ≤ n < file_size s →
  seglog_truncate s n = Some (s', st) → op_st st = OP_STATE_SUCCESS →
  file_size s' = n - 2 ∧
  ∀ off, off < n - 2 → slog_lookup (mapping s') off = slog_lookup (mapping s) off.
Proof.
  intros Hs Hn Ht Hst.
  destruct (seglog_truncate_shape s n) as (s1 & err & Hc & Hm & _ & _); [done|lia..|].
  rewrite Ht, decide_True in Hc by lia. symmetry in Hc.
  apply seglog_truncate_commit_success in Hc; [|done].
  unfold file_size in *. rewrite Hm, decide_True in Hc by lia. cbn [sr_lo sr_hi sr_data_offset shrink_range] in Hc.
  unfold slog_insert_range in Hc. rewrite decide_True in Hc by done.
  destruct Hs as (Hmok & _).
  destruct (slog_truncate_range_spec (sl_map s) (Slog_range (-1) (-1 + (n - 1) - 1) (-1)))
    as (m & Hm' & Hsz & Hok & _ & Hst' & Hmaps); [done|simpl; lia|].
  rewrite Hm' in Hc. injection Hc as ->. simpl in *. split; [lia|].
  intros off Hoff. unfold mapping. apply slog_lookup_ext; [done|apply Hmok|].
  intros d. rewrite Hmaps. split; [|intros; left; split; [lia|done]].
  intros [[_ ?]|(x & Hx & Hc & _)]; [done|]. specialize (Hst' x Hx).
  unfold covers in Hc; simpl in Hc. lia.
Qed.

(** A successful growth that at least doubles the file leaves it
    [file_size - 1] bytes short, and takes the last byte of the old file from
    the new blank space. *)
Theorem seglog_truncate_grow_short s n s' st :
  seglog_ok s → 1 ≤ file_size s → 2 * file_size s ≤ n →
  seglog_truncate s n = Some (s', st) → op_st st = OP_STATE_SUCCESS →
  file_size s' = n - (file_size s - 1) ∧
  slog_lookup (mapping s') (file_size s - 1) = Some (data_size s).
Proof.
  intros Hs Hfs Hn Ht Hst.
  destruct (seglog_truncate_shape s n) as (s1 & err & Hc & Hm & _ & _); [done|lia..|].
  rewrite Ht, decide_False in Hc by lia. symmetry in Hc.
  apply seglog_truncate_commit_success in Hc; [|done].
  unfold file_size in *. rewrite Hm, decide_False in Hc by lia.
  destruct Hs as (Hmok & _).
  destruct (slog_insert_range_spec (sl_map s) (grow_range s n)) as (m & Hm' & Hok & Hsz & Hmaps);
    [done|unfold grow_range, file_size; simpl; lia|].
  rewrite Hm' in Hc. injection Hc as ->. unfold grow_range, file_size in *; simpl in *.
  split; [lia|]. unfold mapping. apply slog_lookup_maps; [apply Hok|]. apply Hmaps. left.
  apply slog_maps_one. unfold covers; simpl. split; lia.
Qed.
End trunc.
