(* ===== verification/SegLogDemo.v ===== *)
(** * Log segments: concrete runs

    The theorems of the log component at concrete inputs: in-memory child
    segments, the list interval structure and the standard operation layer. *)
From S2P Require Import Prelude Isl SegLogMap Seg Words SegLogWrite SegLogConc SegLogRead SegLogLoad SegLogMerge SegLogTrunc.

#[local] Existing Instance gop_std.
#[local] Existing Instance gop_std_ok.
#[local] Existing Instance list_isl.
#[local] Existing Instance list_isl_ok.

Definition demo_log_t : Type := seglog_priv mem_seg mem_seg mem_seg.

(** Ten bytes 100, 101, ... in the base; nothing logged. *)
Definition demo_table : mem_seg := Mem_seg 0 (λ _, 0) true.
Definition demo_data : mem_seg := Mem_seg 0 (λ _, 0) true.
Definition demo_base : mem_seg := Mem_seg 10 (λ i, 100 + i) true.
Definition demo_log0 : demo_log_t := slog_make demo_table demo_data demo_base.

(** The offsets 2, 3, 4 and 7, 8 logged. *)
Definition demo_map : slog_map :=
  Slog_map (H := list_isl) [Slog_range 2 4 0; Slog_range 7 8 3] 10.
Definition demo_log : demo_log_t :=
  Seglog_priv demo_table (Mem_seg 5 (λ i, 1 + i) true) demo_base demo_map 48 5 0 0.
Definition demo_down : demo_log_t :=
  Seglog_priv (Mem_seg 0 (λ _, 0) false) (Mem_seg 5 (λ i, 1 + i) true) demo_base demo_map 48 5 0 0.

Definition demo_buf : tbuffer := λ p, 50 + p.
Definition demo_iov : list ex_iovec := [Ex_iovec 3 2; Ex_iovec 9 3].

Lemma demo_ranges_ok : ranges_ok [Slog_range 2 4 0; Slog_range 7 8 3].
Proof.
  split; repeat constructor; unfold valid, apart; simpl; lia.
Qed.

Lemma demo_map_ok : slog_map_ok demo_map.
Proof.
  split; [exact demo_ranges_ok|]. split; [|simpl; lia].
  change (isl_all (sm_mapping demo_map)) with [Slog_range 2 4 0; Slog_range 7 8 3].
  repeat constructor; simpl; lia.
Qed.

Lemma demo_bound : data_bound demo_map 5.
Proof.
  intros off d (x & Hx & Hc & ->). 
  change (isl_all (sm_mapping demo_map)) with [Slog_range 2 4 0; Slog_range 7 8 3] in Hx.
  apply elem_of_cons in Hx as [->|[->|Hx%not_elem_of_nil]%elem_of_cons]; [..|done];
    unfold covers in Hc; simpl in *; lia.
Qed.

Lemma demo_ok : seglog_ok demo_log.
Proof. split; [apply demo_map_ok|]. split; [apply demo_bound|simpl; lia]. Qed.

Lemma demo_down_ok : seglog_ok demo_down.
Proof. split; [apply demo_map_ok|]. split; [apply demo_bound|simpl; lia]. Qed.

Lemma demo_log0_ok : seglog_ok demo_log0.
Proof.
  split; [split_and!|split].
  - apply isl_ok_create.
  - constructor.
  - simpl. lia.
  - intros off d (x & Hx%not_elem_of_nil & _). done.
  - simpl. lia.
Qed.

Lemma demo_iov_ok : iov_ok demo_iov.
Proof. repeat constructor; simpl; lia. Qed.

(** ** Mapping *)
Lemma slog_insert_range_correct_witness :
  let r := Slog_range 3 7 20 in
  ∃ s', slog_insert_range demo_map r = Some s' ∧ slog_map_ok s' ∧
    sm_file_size s' = Z.max 10 8 ∧
    ∀ off, slog_lookup (sm_mapping s') off =
      if decide (3 ≤ off ≤ 7) then Some (20 + (off - 3)) else slog_lookup (sm_mapping demo_map) off.
Proof.
  apply (slog_insert_range_correct demo_map (Slog_range 3 7 20)); [apply demo_map_ok|simpl; lia].
Defined.

Lemma slog_truncate_range_correct_witness :
  let r := Slog_range (-1) 4 (-1) in
  ∃ s', slog_truncate_range demo_map r = Some s' ∧ slog_map_ok s' ∧
    sm_file_size s' = 4 + 1 ∧
    ∀ off, slog_lookup (sm_mapping s') off =
      if decide (off ≤ 4) then slog_lookup (sm_mapping demo_map) off else None.
Proof.
  apply (slog_truncate_range_correct demo_map (Slog_range (-1) 4 (-1))); [apply demo_map_ok|simpl; lia|].
  change (isl_all (sm_mapping demo_map)) with [Slog_range 2 4 0; Slog_range 7 8 3].
  intros x [->|[->|Hx%not_elem_of_nil]%elem_of_cons]%elem_of_cons; simpl; [lia..|done].
Defined.

Lemma slog_truncate_range_skips_witness :
  ∃ s', slog_truncate_range demo_map (Slog_range (-1) 2 (-1)) = Some s' ∧ sm_file_size s' = 3 ∧
    2 < 7 ∧ ∀ off, covers off (Slog_range 7 8 3) →
      slog_lookup (sm_mapping s') off = Some (3 + (off - 7)).
Proof.
  apply (slog_truncate_range_skips demo_map (Slog_range (-1) 2 (-1)) (Slog_range 2 4 0)
    (Slog_range 7 8 3) []); [apply demo_map_ok|simpl; lia|reflexivity|simpl; lia|
    unfold slog_bufmax; simpl; lia].
Defined.

(** ** Writing *)
Lemma seglog_write_correct_witness :
  ∃ s' st, seglog_write_func demo_log demo_iov demo_buf 0 = Some (s', st) ∧ seglog_ok s' ∧
    (op_st st = OP_STATE_SUCCESS →
       file_size s' = iov_end 10 demo_iov ∧
       ∀ off, seglog_byte s' off = iov_overlay (seglog_byte demo_log) demo_iov demo_buf 0 off) ∧
    (op_st st = OP_STATE_FAILURE →
       file_size s' = 10 ∧ hard_errors s' = 0 + 1 ∧
       ∀ off, seglog_byte s' off = seglog_byte demo_log off).
Proof. apply (seglog_write_correct demo_log demo_iov demo_buf 0 demo_ok demo_iov_ok). Defined.

(** The write succeeds, and the file then reads as it should. *)
Example demo_write_run :
  (λ '(s, st), (op_st st, file_size s, seglog_byte s <$> seqZ 0 12)) <$>
    seglog_write_func demo_log demo_iov demo_buf 0 =
  Some (OP_STATE_SUCCESS, 12, [100; 101; 1; 50; 51; 105; 106; 4; 5; 52; 53; 54]).
Proof. vm_compute. reflexivity. Qed.

(** ** Concurrent writers *)

(** Two writers of offset 0: [w1] reserves first, [w2] commits first. *)
Definition demo_iov1 : list ex_iovec := [Ex_iovec 0 1].
Definition demo_buf1 : tbuffer := λ _, 1.
Definition demo_buf2 : tbuffer := λ _, 2.
Definition demo_r1 := seglog_write_reserve demo_log0 demo_iov1.
Definition demo_r2 := seglog_write_reserve demo_r1.1 demo_iov1.
Definition demo_i1 := seglog_write_io demo_r2.1 demo_r1.2 demo_buf1 0.
Definition demo_i2 := seglog_write_io demo_i1.1 demo_r2.2 demo_buf2 0.
Definition demo_c2 := default (demo_log0, op_failure_status)
  (seglog_write_commit demo_i2.1 demo_r2.2 demo_i2.2).
Definition demo_c1 := default (demo_log0, op_failure_status)
  (seglog_write_commit demo_c2.1 demo_r1.2 demo_i1.2).
Definition demo_events : list slog_event :=
  [EvInternal; EvInternal; EvInternal; EvInternal;
   EvCommit demo_iov1 demo_buf2 0 demo_c2.2; EvCommit demo_iov1 demo_buf1 0 demo_c1.2].

Lemma demo_iov1_ok : iov_ok demo_iov1.
Proof. repeat constructor; simpl; lia. Qed.

Lemma demo_race : slog_steps (demo_log0, []) demo_events (demo_c1.1, []).
Proof.
  set (w1 := Slog_writer demo_iov1 demo_buf1 0 demo_r1.2).
  set (w2 := Slog_writer demo_iov1 demo_buf2 0 demo_r2.2).
  apply (steps_snoc _ [_; _; _; _; _] (demo_c2.1, [] ++ w1 (Some demo_i1.2) :: [])).
  - apply (steps_snoc _ [_; _; _; _] (demo_i2.1, [] ++ w2 (Some demo_i2.2) :: [w1 (Some demo_i1.2)])).
    + apply (steps_snoc _ [_; _; _] (demo_i1.1, [] ++ w2 None :: [w1 (Some demo_i1.2)])).
      * apply (steps_snoc _ [_; _] (demo_r2.1, [w2 None] ++ w1 None :: [])).
        -- apply (steps_snoc _ [_] (demo_r1.1, [w1 None])).
           ++ apply (steps_snoc _ [] (demo_log0, [])); [constructor|].
              by apply step_reserve; [apply demo_iov1_ok|].
           ++ by apply step_reserve; [apply demo_iov1_ok|].
        -- by apply (step_io _ [w2 None]).
      * by apply (step_io _ []).
    + by apply (step_commit _ []).
  - by apply (step_commit _ []).
Qed.

Lemma seglog_writers_linearizable_witness :
  file_eq (file_size demo_c1.1, seglog_byte demo_c1.1)
          (foldl event_file (file_size demo_log0, seglog_byte demo_log0) demo_events) ∧
  seglog_ok demo_c1.1 ∧ ForallOrdPairs apart (@nil slog_writer) ∧
  ∀ w off d, w ∈ @nil slog_writer → slog_maps (isl_all (mapping demo_c1.1)) off d → ¬ covers d w.
Proof.
  apply (seglog_writers_linearizable demo_log0 demo_events demo_c1.1 []);
    [apply demo_log0_ok|apply demo_race].
Defined.

Definition demo_reload : demo_log_t := default demo_log0 (fst <$>
  slog_load (slog_make (table_seg demo_c1.1) (data_seg demo_c1.1) (base_seg demo_c1.1))).

(** The order of commits is not the order a reload replays.  Two
    overlapping successful writes whose commits are in the opposite order of
    their reservations leave one byte in memory and the other one on disk. *)
Theorem seglog_reload_diverges :
  ∃ (s s' : demo_log_t) evs,
    slog_steps (demo_log0, []) evs (s, []) ∧
    (∀ iov buf boff st, EvCommit iov buf boff st ∈ evs → op_st st = OP_STATE_SUCCESS) ∧
    slog_load (slog_make (table_seg s) (data_seg s) (base_seg s)) = Some (s', 0) ∧
    file_size s' = file_size s ∧ seglog_byte s 0 = 1 ∧ seglog_byte s' 0 = 2.
Proof.
  exists demo_c1.1, demo_reload. exists demo_events. split; [apply demo_race|]. split_and!.
  - intros iov buf boff st Hin. unfold demo_events in Hin.
    repeat (apply elem_of_cons in Hin as [Heq|Hin]; [try done; by injection Heq as _ _ _ ->|]).
    by apply not_elem_of_nil in Hin.
  - apply option_pair_default. vm_compute. reflexivity.
  - vm_compute. reflexivity.
  - vm_compute. reflexivity.
  - vm_compute. reflexivity.
Qed.

(** ** Reading *)
Definition demo_req : list ex_iovec := [Ex_iovec 0 4; Ex_iovec 5 5].

Lemma demo_req_ok : iov_ok demo_req.
Proof. repeat constructor; simpl; lia. Qed.

Lemma demo_req_no_unit : Forall (no_unit_hole demo_log) demo_req.
Proof.
  repeat constructor; unfold no_unit_hole; vm_compute; intros (_ & ? & [? ?]); done.
Qed.

Example demo_read_run :
  let '(_, buf, st) := seglog_read_func demo_log demo_req demo_buf 0 in
  (op_st st, buf <$> seqZ 0 11) =
  (OP_STATE_SUCCESS, [100; 101; 1; 2; 105; 106; 4; 5; 109; 59; 60]).
Proof. vm_compute. reflexivity. Qed.

Lemma seglog_read_correct_witness :
  let '(s', buf', st) := seglog_read_func demo_log demo_req demo_buf 0 in
  (op_st st = OP_STATE_SUCCESS → ∀ p,
     buf' p = if decide (0 ≤ p < 0 + iov_total demo_req)
              then seglog_byte demo_log (iov_pos demo_req 0 p) else demo_buf p) ∧
  (∀ off, seglog_byte s' off = seglog_byte demo_log off) ∧ file_size s' = file_size demo_log.
Proof.
  apply (seglog_read_correct demo_log demo_req demo_buf 0 demo_ok demo_req_ok demo_req_no_unit).
Defined.

Lemma seglog_read_any_order_witness :
  (slog_read_exec demo_log (reverse (slog_read_plan demo_log demo_req 0)) demo_buf).1.2 5 =
  (slog_read_exec demo_log (slog_read_plan demo_log demo_req 0) demo_buf).1.2 5.
Proof.
  apply (seglog_read_any_order demo_log demo_req demo_buf 0
    (reverse (slog_read_plan demo_log demo_req 0)) demo_ok demo_req_ok demo_req_no_unit);
    [apply reverse_Permutation|vm_compute; reflexivity..].
Defined.

Lemma seglog_read_unit_hole_witness :
  ∃ len ops, 1 < len ∧
    (slog_read_iov demo_log (Ex_iovec 1 3) 0).1 = Slog_op SrcData (Ex_iovec 0 len) 0 :: ops.
Proof.
  apply (seglog_read_unit_hole demo_log (Ex_iovec 1 3) 0 0 demo_ok);
    [simpl; lia|simpl; lia|vm_compute; reflexivity..].
Defined.

(** ** Loading *)
Definition demo_written : demo_log_t :=
  default demo_log0 (fst <$> seglog_write_func demo_log0 demo_iov demo_buf 0).
Definition demo_written2 : demo_log_t :=
  default demo_log0 (fst <$> seglog_write_func demo_written demo_iov1 demo_buf1 0).
Definition demo_logged : list slog_range :=
  ([] ++ (slog_records (data_size demo_log0) 0 demo_iov).1) ++
  (slog_records (data_size demo_written) 0 demo_iov1).1.

Lemma demo_history : seglog_history demo_log0 demo_logged demo_written2.
Proof.
  eapply (history_write _ _ demo_written demo_iov1 demo_buf1 0 _ op_success_status).
  - eapply (history_write _ _ demo_log0 demo_iov demo_buf 0 _ op_success_status).
    + constructor.
    + done.
    + apply demo_iov_ok.
    + apply (bool_decide_unpack _). vm_compute. done.
    + vm_compute. discriminate.
    + apply option_pair_default. vm_compute. reflexivity.
    + done.
  - done.
  - apply demo_iov1_ok.
  - apply (bool_decide_unpack _). vm_compute. done.
  - vm_compute. discriminate.
  - apply option_pair_default. vm_compute. reflexivity.
  - done.
Qed.


(** ** Merging *)
Lemma demo_fit : Forall (λ r, range_len r ≤ 4) (isl_all (mapping demo_log)).
Proof. repeat constructor; vm_compute; discriminate. Qed.

Lemma seglog_merge_correct_witness :
  ∃ s' st, seglog_merge_with_base_func demo_log 4 demo_buf true = Some (s', st) ∧
    (∀ off, seglog_byte s' off = seglog_byte demo_log off) ∧
    (op_st st = OP_STATE_SUCCESS →
       ∀ off, seg_byte (base_seg s') off = seglog_byte demo_log off) ∧
    (op_st st = OP_STATE_SUCCESS →
       isl_all (mapping s') = [] ∧ log_size s' = 0 ∧ data_size s' = 0 ∧
       segment_size (table_seg s') = 0 ∧ segment_size (data_seg s') = 0 ∧ file_size s' = 0).
Proof. apply (seglog_merge_correct demo_log 4 demo_buf true demo_ok ltac:(lia) demo_fit). Defined.

Example demo_merge_run :
  (λ '(s, st), (op_st st, file_size s, seg_byte (base_seg s) <$> seqZ 0 10)) <$>
    seglog_merge_with_base_func demo_log 4 demo_buf true =
  Some (OP_STATE_SUCCESS, 0, [100; 101; 1; 2; 3; 105; 106; 4; 5; 109]).
Proof. vm_compute. reflexivity. Qed.

(** ** Resizing *)
Definition demo_after (s : demo_log_t) (n : Z) : demo_log_t * op_status :=
  default (s, op_failure_status) (seglog_truncate s n).

Lemma demo_after_run s n b :
  snd <$> seglog_truncate s n = Some b →
  seglog_truncate s n = Some ((demo_after s n).1, b).
Proof.
  intros Hb. rewrite (option_pair_default _ s b Hb) at 1. unfold demo_after.
  by destruct (seglog_truncate s n).
Qed.

Lemma seglog_truncate_failed_witness :
  (op_st op_failure_status = OP_STATE_FAILURE →
     hard_errors (demo_after demo_down 20).1 = 0 + 1 ∧ file_size (demo_after demo_down 20).1 = 10 ∧
     ∀ off, seglog_byte (demo_after demo_down 20).1 off = seglog_byte demo_down off) ∧
  (20 < 0 ∨ 20 = file_size demo_down →
     (demo_after demo_down 20).1 = demo_down ∧ op_st op_failure_status = OP_STATE_SUCCESS).
Proof.
  apply (seglog_truncate_failed demo_down 20 _ op_failure_status demo_down_ok).
  apply demo_after_run. vm_compute. reflexivity.
Defined.

Lemma seglog_truncate_shrink_short_witness :
  file_size (demo_after demo_log 6).1 = 6 - 2 ∧
  ∀ off, off < 6 - 2 → slog_lookup (mapping (demo_after demo_log 6).1) off =
                       slog_lookup (mapping demo_log) off.
Proof.
  apply (seglog_truncate_shrink_short demo_log 6 _ op_success_status demo_ok); [|
    apply demo_after_run; vm_compute; reflexivity|reflexivity].
  change (file_size demo_log) with 10. lia.
Defined.

Lemma seglog_truncate_grow_short_witness :
  file_size (demo_after demo_log 25).1 = 25 - (10 - 1) ∧
  slog_lookup (mapping (demo_after demo_log 25).1) (10 - 1) = Some 5.
Proof.
  apply (seglog_truncate_grow_short demo_log 25 _ op_success_status demo_ok);
    [change (file_size demo_log) with 10; lia..|
     apply demo_after_run; vm_compute; reflexivity|reflexivity].
Defined.
