(* ===== verification/Inip.v ===== *)
(** * Text formats

    What the serializers use of the toolbox's text layer: escaping, the group
    elements an INI parser returns, and decimal printing.  The toolbox is not
    part of the repository, so its functions are parameters with the documented
    behaviour as laws; [inip_std] shows the laws can be met. *)
From Stdlib Require Import Ascii DecimalString DecimalZ DecimalPos DecimalFacts.
From stdpp Require Export strings.
From S2P Require Import Prelude.

(** [%d] and the like: the C library's decimal notation. *)
Definition print_int (z : Z) : string := NilZero.string_of_int (Z.to_int z).
Definition parse_int (s : string) : option Z := Z.of_int <$> NilZero.int_of_string s.

Lemma pos_to_uint_not_nil p : Pos.to_uint p ≠ Decimal.Nil.
Proof. intros Hp. by apply (Unsigned.to_uint_nonnil p). Qed.

Lemma parse_print_int z : parse_int (print_int z) = Some z.
Proof.
  unfold parse_int, print_int. rewrite NilZero.isi.
  - simpl. by rewrite DecimalZ.of_to.
  - destruct z; simpl; try done. intros [= Hp]. by apply pos_to_uint_not_nil in Hp.
  - destruct z; simpl; try done. intros [= Hp]. by apply pos_to_uint_not_nil in Hp.
Qed.

Lemma print_int_inj z1 z2 : print_int z1 = print_int z2 → z1 = z2.
Proof. intros He. apply (f_equal parse_int) in He. rewrite !parse_print_int in He. congruence. Qed.

(** ** Concatenation *)
Lemma append_String c s t : String c s +:+ t = String c (s +:+ t).
Proof. done. Qed.
Lemma append_nil_r s : s +:+ "" = s.
Proof. induction s as [|c s IH]; [done|]. by rewrite append_String, IH. Qed.
Lemma append_assoc s t u : s +:+ t +:+ u = (s +:+ t) +:+ u.
Proof. induction s as [|c s IH]; [done|]. by rewrite !append_String, IH. Qed.
Lemma length_append s t : String.length (s +:+ t) = (String.length s + String.length t)%nat.
Proof. induction s as [|c s IH]; [done|]. rewrite append_String. simpl. by rewrite IH. Qed.

(** The elements of one INI group, in file order. *)
Definition inip_group : Type := list (string * string).

Class Inip := {
  escape_text : string → string;
  unescape_text : string → string;
  inip_get_string : inip_group → string → string → string;
  inip_get_integer : inip_group → string → Z → Z }.

Class InipOk `{Inip} : Prop := {
  unescape_escape s : unescape_text (escape_text s) = s;
  inip_get_string_found g k v d :
    NoDup (fst <$> g) → (k, v) ∈ g → inip_get_string g k d = v;
  inip_get_string_missing g k d : k ∉ fst <$> g → inip_get_string g k d = d;
  inip_get_integer_found g k z d :
    NoDup (fst <$> g) → (k, print_int z) ∈ g → inip_get_integer g k d = z;
  inip_get_integer_missing g k d : k ∉ fst <$> g → inip_get_integer g k d = d }.

(** An instance: no escaping, and the first element of the key counts. *)
Fixpoint group_get (g : inip_group) (k : string) : option string :=
  match g with
  | [] => None
  | (k', v) :: g => if decide (k' = k) then Some v else group_get g k
  end.

Definition inip_std : Inip :=
  {| escape_text s := s; unescape_text s := s;
     inip_get_string g k d := default d (group_get g k);
     inip_get_integer g k d := default d (group_get g k ≫= parse_int) |}.

Lemma group_get_found g k v : NoDup (fst <$> g) → (k, v) ∈ g → group_get g k = Some v.
Proof.
  induction g as [|[k' v'] g IH]; simpl; [by intros _ ?%not_elem_of_nil|].
  intros [Hk' Hnd]%NoDup_cons [[= -> ->]|Hin]%elem_of_cons; [by rewrite decide_True|].
  rewrite decide_False; [by apply IH|]. intros ->. apply Hk'.
  apply list_elem_of_fmap. by exists (k, v).
Qed.

Lemma group_get_missing g k : k ∉ fst <$> g → group_get g k = None.
Proof.
  induction g as [|[k' v'] g IH]; simpl; [done|]. intros [Hk Hg]%not_elem_of_cons.
  rewrite decide_False by done. by apply IH.
Qed.

Lemma inip_std_ok : @InipOk inip_std.
Proof.
  split; simpl; try done.
  - intros g k v d Hnd Hin. by rewrite (group_get_found g k v).
  - intros g k d Hk. by rewrite group_get_missing.
  - intros g k z d Hnd Hin. rewrite (group_get_found g k _ Hnd Hin). simpl. by rewrite parse_print_int.
  - intros g k d Hk. by rewrite group_get_missing.
Qed.

(** ** Numbers in text *)

(** The C library's [atoi]: blanks, a sign, and the digits up to the first other
    character; 0 without digits. *)
Definition is_digit (c : ascii) : bool := (48 <=? nat_of_ascii c)%nat && (nat_of_ascii c <=? 57)%nat.
Fixpoint take_digits (s : string) : string :=
  match s with
  | String c s => if is_digit c then String c (take_digits s) else ""
  | "" => ""
  end.
Fixpoint skip_blanks (s : string) : string :=
  match s with
  | String " " s | String "009" s | String "010" s => skip_blanks s
  | s => s
  end.
Definition atoi (s : string) : Z :=
  default 0 (match skip_blanks s with
             | String "-" s => Z.opp <$> parse_int (take_digits s)
             | String "+" s => parse_int (take_digits s)
             | s => parse_int (take_digits s)
             end).

Lemma take_digits_uint d : take_digits (NilEmpty.string_of_uint d) = NilEmpty.string_of_uint d.
Proof. induction d as [|d IH|d IH|d IH|d IH|d IH|d IH|d IH|d IH|d IH|d IH]; cbn; by rewrite ?IH. Qed.

Lemma string_of_pos p : ∃ c s, NilEmpty.string_of_uint (Pos.to_uint p) = String c s ∧ is_digit c = true.
Proof.
  destruct (Pos.to_uint p) as [|d|d|d|d|d|d|d|d|d|d] eqn:Hp; [by apply pos_to_uint_not_nil in Hp|..];
    cbn; by eexists _, _.
Qed.

(** A string that starts with a digit is read as it stands. *)
Lemma atoi_digits c s : is_digit c = true → atoi (String c s) = default 0 (parse_int (take_digits (String c s))).
Proof. destruct c as [[] [] [] [] [] [] [] []]; by intros [=]. Qed.

Lemma print_int_pos p : print_int (Z.pos p) = NilEmpty.string_of_uint (Pos.to_uint p).
Proof.
  unfold print_int. cbn. destruct (Pos.to_uint p) eqn:Hp; [by apply pos_to_uint_not_nil in Hp|..]; done.
Qed.

Lemma print_int_neg p : print_int (Z.neg p) = String "-" (print_int (Z.pos p)).
Proof. done. Qed.

Lemma atoi_print_int z : atoi (print_int z) = z.
Proof.
  assert (∀ p, parse_int (take_digits (print_int (Z.pos p))) = Some (Z.pos p)) as Hpos.
  { intros p. rewrite print_int_pos, take_digits_uint, <- print_int_pos. apply parse_print_int. }
  destruct z as [|p|p]; [done|..].
  - destruct (string_of_pos p) as (c & s & Hs & Hc). pose proof (Hpos p) as Hp.
    rewrite print_int_pos, Hs in *. by rewrite atoi_digits, Hp.
  - rewrite print_int_neg. unfold atoi. cbn [skip_blanks]. by rewrite Hpos.
Qed.

(** ** Tokens

    Text split at delimiters, where a backslash takes the character after it
    literally: [escape_text] and [unescape_text] with one special character, and
    [escape_string_token], the token up to the first bare delimiter and what
    follows it. *)
Class Tokens := {
  tok_escape : ascii → string → string;
  tok_unescape : string → string;
  escape_string_token : ascii → string → string * string }.

(** No bare [d], and no backslash without its character. *)
Fixpoint bare (d : ascii) (s : string) : bool :=
  match s with
  | "" => true
  | String c s =>
      if decide (c = "\"%char) then match s with "" => false | String _ s => bare d s end
      else bool_decide (c ≠ d) && bare d s
  end.

(** The character does not occur. *)
Fixpoint lacks (d : ascii) (s : string) : bool :=
  match s with "" => true | String c s => bool_decide (c ≠ d) && lacks d s end.

Class TokensOk `{Tokens} : Prop := {
  tok_unescape_escape d s : tok_unescape (tok_escape d s) = s;
  tok_escape_bare d s : d ≠ "\"%char → bare d (tok_escape d s) = true;
  tok_escape_lacks d e s : e ≠ "\"%char → d ≠ e → lacks e s = true → bare e (tok_escape d s) = true;
  token_delim d p r : d ≠ "\"%char → bare d p = true → escape_string_token d (p +:+ String d r) = (p, r);
  token_last d p : bare d p = true → escape_string_token d p = (p, "") }.

Fixpoint escape_std (d : ascii) (s : string) : string :=
  match s with
  | "" => ""
  | String c s =>
      let s := String c (escape_std d s) in
      if decide (c = "\"%char ∨ c = d) then String "\" s else s
  end.
Fixpoint unescape_std (s : string) : string :=
  match s with
  | "" => ""
  | String c s =>
      if decide (c = "\"%char) then match s with "" => "" | String c s => String c (unescape_std s) end
      else String c (unescape_std s)
  end.
Fixpoint token_std (d : ascii) (s : string) : string * string :=
  match s with
  | "" => ("", "")
  | String c s =>
      if decide (c = "\"%char) then
        match s with
        | "" => (String c "", "")
        | String c' s => let '(t, r) := token_std d s in (String c (String c' t), r)
        end
      else if decide (c = d) then ("", s)
      else let '(t, r) := token_std d s in (String c t, r)
  end.
Definition tokens_std : Tokens :=
  {| tok_escape := escape_std; tok_unescape := unescape_std; escape_string_token := token_std |}.

Lemma string_ind2 (P : string → Prop) :
  P "" → (∀ c, P (String c "")) → (∀ c c' s, P s → P (String c' s) → P (String c (String c' s))) →
  ∀ s, P s.
Proof.
  intros H0 H1 H2 s. enough (P s ∧ ∀ c, P (String c s)) by tauto.
  induction s as [|c s [IH1 IH2]]; [done|]. split; [done|]. intros c'. by apply H2.
Qed.

Lemma token_std_plain d c s : c ≠ "\"%char → c ≠ d →
  token_std d (String c s) = (let '(t, r) := token_std d s in (String c t, r)).
Proof. intros Hc Hd. cbn [token_std]. by rewrite !decide_False. Qed.

Lemma token_std_delim d r : d ≠ "\"%char → token_std d (String d r) = ("", r).
Proof. intros Hd. cbn [token_std]. by rewrite decide_False, decide_True. Qed.

Lemma token_std_escaped d c s :
  token_std d (String "\" (String c s)) = (let '(t, r) := token_std d s in (String "\" (String c t), r)).
Proof. cbn [token_std]. by rewrite decide_True. Qed.

Lemma token_std_bare d p : bare d p = true →
  token_std d p = (p, "") ∧ (d ≠ "\"%char → ∀ r, token_std d (p +:+ String d r) = (p, r)).
Proof.
  induction p as [|c|c c' p IH1 IH2] using string_ind2; intros Hb.
  - split; [done|]. intros Hd r. by apply token_std_delim.
  - cbn [bare] in Hb. case_decide; [done|]. apply andb_true_iff in Hb as [Hc%bool_decide_eq_true _].
    split; [by rewrite token_std_plain|]. intros Hd r. change (String c "" +:+ String d r) with (String c (String d r)).
    by rewrite token_std_plain, token_std_delim.
  - cbn [bare] in Hb. case_decide as Hc.
    + subst c. destruct (IH1 Hb) as [Hp Hr]. split; [by rewrite token_std_escaped, Hp|].
      intros Hd r. change (String ?x (String c' p) +:+ String d r) with (String x (String c' (p +:+ String d r))).
      by rewrite token_std_escaped, Hr.
    + apply andb_true_iff in Hb as [Hcd%bool_decide_eq_true Hb]. destruct (IH2 Hb) as [Hp Hr].
      split; [by rewrite token_std_plain, Hp|].
      intros Hd r. change (String c (String c' p) +:+ String d r) with (String c (String c' p +:+ String d r)).
      by rewrite token_std_plain, Hr.
Qed.

Lemma escape_std_bare d e s : e ≠ "\"%char → (d ≠ e → lacks e s = true) → bare e (escape_std d s) = true.
Proof.
  intros He Hl. induction s as [|c s IH]; [done|]. cbn [escape_std]. cbn [lacks] in Hl.
  assert (bare e (escape_std d s) = true) as IH'.
  { apply IH. intros Hd. specialize (Hl Hd). by apply andb_true_iff in Hl as [_ ?]. }
  destruct (decide (c = "\"%char ∨ c = d)) as [Hc|Hc].
  - cbn [bare]. by rewrite decide_True.
  - cbn [bare]. rewrite decide_False by tauto. apply andb_true_iff. split; [|done]. apply bool_decide_eq_true.
    destruct (decide (d = e)) as [->|Hd]; [tauto|]. specialize (Hl Hd).
    by apply andb_true_iff in Hl as [?%bool_decide_eq_true _].
Qed.

Lemma tokens_std_ok : @TokensOk tokens_std.
Proof.
  split; simpl.
  - intros d s. induction s as [|c s IH]; [done|]. cbn [escape_std]. case_decide as Hc; cbn [unescape_std].
    + by rewrite decide_True, IH.
    + rewrite decide_False by tauto. by rewrite IH.
  - intros d s Hd. by apply escape_std_bare.
  - intros d e s He Hd Hl. by apply escape_std_bare.
  - intros d p r Hd Hb. by apply token_std_bare.
  - intros d p Hb. by apply token_std_bare.
Qed.
