(* ===== verification/Path.v ===== *)
(** * Paths

    Names separated by slashes: the pieces of a path, and [dirname] and
    [basename] of the C library. *)
From Stdlib Require Import Ascii.
From stdpp Require Import strings.
From S2P Require Import Prelude Inip.
#[local] Open Scope Z_scope.

Definition slash : ascii := "/"%char.

(** The slashes [s] starts with, and the rest. *)
Fixpoint skip_slashes (s : string) : nat * string :=
  match s with
  | "" => (0%nat, "")
  | String c s' => if decide (c = slash) then let '(k, r) := skip_slashes s' in (S k, r) else (0%nat, s)
  end.

(** The characters up to the next slash, and the rest. *)
Fixpoint token (s : string) : string * string :=
  match s with
  | "" => ("", "")
  | String c s' => if decide (c = slash) then ("", s) else let '(t, r) := token s' in (String c t, r)
  end.

Definition starts_with_slash (s : string) : bool :=
  match s with "" => false | String c _ => bool_decide (c = slash) end.

(** ** Names of a path *)
Fixpoint tokens (s : string) : list string :=
  match s with
  | "" => []
  | String x s' =>
      if decide (x = slash) then tokens s'
      else match s' with
      | "" => [String x ""]
      | String y _ => if decide (y = slash) then String x "" :: tokens s'
                      else match tokens s' with t :: ts => String x t :: ts | [] => [String x ""] end
      end
  end.

(** What is left at the end of a token. *)
Definition at_end (s : string) : Prop := s = "" ∨ starts_with_slash s = true.
Definition plain_name (t : string) : Prop := t ≠ "." ∧ t ≠ "..".

Lemma starts_slash s : starts_with_slash s = true → ∃ s', s = String slash s'.
Proof. destruct s as [|x s]; [done|]. intros Hx%bool_decide_eq_true. exists s. by rewrite Hx. Qed.

Lemma skip_slashes_spec s : let '(k, r) := skip_slashes s in
  tokens r = tokens s ∧ (String.length r + k = String.length s)%nat ∧ starts_with_slash r = false ∧
  ∃ p, s = p +:+ r ∧ String.length p = k ∧ tokens p = [] ∧ (k = 0%nat ∨ starts_with_slash p = true).
Proof.
  induction s as [|x s IH]; cbn [skip_slashes]; [repeat split; try done; exists ""; auto|].
  destruct (decide (x = slash)) as [->|Hx].
  - destruct (skip_slashes s) as [k r]. destruct IH as (Ht & Hl & Hs & p & -> & Hp & Htp & _).
    split; [by simpl|]. split; [simpl; lia|]. split; [done|]. exists (String slash p). repeat split; try done; [simpl; by rewrite Hp|].
    right. done.
  - split; [done|]. split; [simpl; lia|]. split; [by apply bool_decide_eq_false|]. exists "". auto.
Qed.

Lemma token_spec s : let '(t, r) := token s in s = t +:+ r ∧ at_end r.
Proof.
  induction s as [|x s IH]; cbn [token]; [split; [done|by left]|]. destruct (decide (x = slash)) as [->|Hx]; [split; [done|by right]|].
  destruct (token s) as [t r]. destruct IH as [-> He]. done.
Qed.

Lemma tokens_token s : s ≠ "" → starts_with_slash s = false → tokens s = (token s).1 :: tokens (token s).2.
Proof.
  induction s as [|x s IH]; [done|]. intros _ Hx%bool_decide_eq_false. cbn [tokens token]. rewrite !decide_False by done.
  destruct s as [|y s]; [done|]. destruct (decide (y = slash)) as [->|Hy]; [done|].
  rewrite IH; [|done|by apply bool_decide_eq_false]. by destruct (token _) as [t r].
Qed.

Lemma token_length s : s ≠ "" → starts_with_slash s = false → (0 < String.length (token s).1)%nat.
Proof. destruct s as [|x s]; [done|]. intros _ Hx%bool_decide_eq_false. simpl. rewrite decide_False by done. destruct (token s); simpl; lia. Qed.

Lemma tokens_app p s : at_end s → tokens (p +:+ s) = tokens p ++ tokens s.
Proof.
  intros He. induction p as [|x p IH]; [done|]. rewrite append_String. cbn [tokens]. destruct (decide (x = slash)); [done|].
  destruct p as [|y p].
  - destruct He as [->|[s' ->]%starts_slash]; [done|]. simpl. done.
  - rewrite append_String in *. destruct (decide (y = slash)); [by rewrite IH|]. rewrite IH.
    destruct (tokens (String y p)) as [|t ts] eqn:Ht; [|done]. exfalso.
    rewrite tokens_token in Ht; [done|done|by apply bool_decide_eq_false].
Qed.

Lemma tokens_one s : s ≠ "" → starts_with_slash s = false → (token s).2 = "" → tokens s = [(token s).1].
Proof. intros H1 H2 H3. by rewrite tokens_token, H3. Qed.

Lemma token_app t r : (token t).2 = "" → at_end r → token (t +:+ r) = (t, r).
Proof.
  intros Ht He. induction t as [|x t IH]; cbn [token] in *.
  - destruct He as [->|[s' ->]%starts_slash]; [done|]. done.
  - rewrite append_String. cbn [token]. destruct (decide (x = slash)); [done|]. destruct (token t) as [t' r'] eqn:Et. rewrite IH by done. done.
Qed.

Lemma token_token s : (token (token s).1).2 = "".
Proof.
  induction s as [|x s IH]; [done|]. cbn [token]. destruct (decide (x = slash)) as [Hx|Hx]; [done|]. destruct (token s) as [t r]. simpl in *.
  rewrite decide_False by done. by destruct (token t).
Qed.

Lemma token_starts s : starts_with_slash s = false → starts_with_slash (token s).1 = false.
Proof. destruct s as [|x s]; [done|]. intros Hx%bool_decide_eq_false. simpl. rewrite decide_False by done. destruct (token s). by apply bool_decide_eq_false. Qed.

Lemma app_starts p s : starts_with_slash p = true → starts_with_slash (p +:+ s) = true.
Proof. by intros [p' ->]%starts_slash. Qed.

(** ** Directory and base *)
Fixpoint drop_while (p : ascii → bool) (l : list ascii) : list ascii :=
  match l with [] => [] | c :: l' => if p c then drop_while p l' else l end.
Definition is_slash (c : ascii) : bool := bool_decide (c = slash).

(** [dirname]: the path without its last name; [basename]: that name. *)
Definition dirname (s : string) : string :=
  let r := drop_while is_slash (rev (String.list_ascii_of_string s)) in
  match r with
  | [] => if String.eqb s "" then "." else "/"
  | _ =>
      match drop_while (λ c, negb (is_slash c)) r with
      | [] => "."
      | r => match drop_while is_slash r with [] => "/" | r => String.string_of_list_ascii (rev r) end
      end
  end.
Fixpoint take_while (p : ascii → bool) (l : list ascii) : list ascii :=
  match l with [] => [] | c :: l' => if p c then c :: take_while p l' else [] end.
Definition basename (s : string) : string :=
  match drop_while is_slash (rev (String.list_ascii_of_string s)) with
  | [] => if String.eqb s "" then "." else "/"
  | r => String.string_of_list_ascii (rev (take_while (λ c, negb (is_slash c)) r))
  end.

(** ** Joined names *)

Definition no_slash (x : string) : bool := forallb (λ c, negb (is_slash c)) (String.list_ascii_of_string x).
Definition name_ok (x : string) : Prop := x ≠ "" ∧ no_slash x = true.
#[export] Instance name_ok_dec x : Decision (name_ok x).
Proof. unfold name_ok. apply _. Defined.

Fixpoint pjoin (p : list string) : string :=
  match p with [] => "" | x :: p => String slash (x +:+ pjoin p) end.

(** The last character is there and is no slash. *)
Definition ends_plain (s : string) : bool :=
  match rev (String.list_ascii_of_string s) with c :: _ => negb (is_slash c) | [] => false end.

Lemma pjoin_app p q : pjoin (p ++ q) = pjoin p +:+ pjoin q.
Proof. induction p as [|x p IH]; [done|]. cbn [pjoin app]. by rewrite append_String, IH, append_assoc. Qed.

Lemma pjoin_at_end p : at_end (pjoin p).
Proof. destruct p as [|x p]; [by left|by right]. Qed.

Lemma name_cons c x : no_slash (String c x) = true ↔ c ≠ slash ∧ no_slash x = true.
Proof. unfold no_slash, is_slash. simpl. rewrite andb_true_iff, negb_true_iff, bool_decide_eq_false. done. Qed.

Lemma token_name x : no_slash x = true → token x = (x, "").
Proof. induction x as [|c x IH]; [done|]. intros [Hc Hx]%name_cons. cbn [token]. rewrite decide_False by done. by rewrite IH. Qed.

Lemma name_starts x r : name_ok x → starts_with_slash (x +:+ r) = false.
Proof.
  intros [Hne Hx]. destruct x as [|c x]; [done|]. apply name_cons in Hx as [Hc _]. rewrite append_String. by apply bool_decide_eq_false.
Qed.

Lemma tokens_pjoin p : Forall name_ok p → tokens (pjoin p) = p.
Proof.
  induction 1 as [|x p Hx Hp IH]; [done|]. cbn [pjoin]. cbn [tokens]. rewrite decide_True by done.
  rewrite tokens_token; [|destruct x; [by destruct Hx|done]|by apply name_starts].
  rewrite token_app; [cbn [fst snd]; by rewrite IH| |apply pjoin_at_end]. by rewrite token_name by apply Hx.
Qed.

Lemma tokens_join s p : Forall name_ok p → tokens (s +:+ pjoin p) = tokens s ++ p.
Proof. intros Hp. rewrite tokens_app by apply pjoin_at_end. by rewrite tokens_pjoin. Qed.

Lemma list_ascii_app s t : String.list_ascii_of_string (s +:+ t) = String.list_ascii_of_string s ++ String.list_ascii_of_string t.
Proof. induction s as [|c s IH]; [done|]. rewrite append_String. simpl. by rewrite IH. Qed.

Lemma string_of_rev s : String.string_of_list_ascii (rev (rev (String.list_ascii_of_string s))) = s.
Proof. rewrite rev_involutive. apply String.string_of_list_ascii_of_string. Qed.

Lemma no_slash_rev x : no_slash x = true → Forall (λ c, is_slash c = false) (rev (String.list_ascii_of_string x)).
Proof.
  intros Hx. apply Forall_rev. apply Forall_forall. intros c Hc. unfold no_slash in Hx. rewrite forallb_forall in Hx.
  apply negb_true_iff, Hx. by apply list_elem_of_In.
Qed.

Lemma rev_name x r : name_ok x → drop_while is_slash (rev (String.list_ascii_of_string x) ++ r) =
  rev (String.list_ascii_of_string x) ++ r.
Proof.
  intros [Hne Hx%no_slash_rev]. destruct (rev (String.list_ascii_of_string x)) as [|c l] eqn:Hr.
  - exfalso. apply Hne. rewrite <- (string_of_rev x), Hr. done.
  - apply Forall_cons in Hx as [Hc _]. simpl. by rewrite Hc.
Qed.

Lemma drop_while_all (f : ascii → bool) l r : Forall (λ c, f c = true) l → drop_while f (l ++ r) = drop_while f r.
Proof. induction 1 as [|c l Hc _ IH]; [done|]. simpl. by rewrite Hc. Qed.

Lemma take_while_all (f : ascii → bool) l c r : Forall (λ c, f c = true) l → f c = false → take_while f (l ++ c :: r) = l.
Proof. induction 1 as [|x l Hx _ IH]; intros Hc; simpl; [by rewrite Hc|]. rewrite Hx. by rewrite IH. Qed.

Lemma rev_joined s x : rev (String.list_ascii_of_string (s +:+ pjoin [x])) =
  rev (String.list_ascii_of_string x) ++ slash :: rev (String.list_ascii_of_string s).
Proof.
  cbn [pjoin]. rewrite append_nil_r, list_ascii_app. simpl. rewrite rev_app_distr. simpl. by rewrite <- app_assoc.
Qed.

Lemma basename_join s x : name_ok x → basename (s +:+ pjoin [x]) = x.
Proof.
  intros Hx. unfold basename. rewrite rev_joined, rev_name by done.
  destruct (rev (String.list_ascii_of_string x) ++ slash :: rev (String.list_ascii_of_string s)) as [|c l] eqn:Hl.
  { by destruct (rev (String.list_ascii_of_string x)). }
  rewrite <- Hl, take_while_all; [apply string_of_rev| |done].
  eapply Forall_impl; [apply no_slash_rev, Hx|]. simpl. by intros c' ->.
Qed.

Lemma dirname_join s x : name_ok x → dirname (s +:+ pjoin [x]) = if ends_plain s then s else dirname (s +:+ pjoin [x]).
Proof.
  intros Hx. destruct (ends_plain s) eqn:Hs; [|done]. unfold dirname. rewrite rev_joined, rev_name by done.
  destruct (rev (String.list_ascii_of_string x) ++ slash :: rev (String.list_ascii_of_string s)) as [|c l] eqn:Hl.
  { by destruct (rev (String.list_ascii_of_string x)). }
  rewrite <- Hl, drop_while_all by (eapply Forall_impl; [apply no_slash_rev, Hx|]; simpl; by intros c' ->).
  unfold ends_plain in Hs. pose proof (string_of_rev s) as Hrev.
  destruct (rev (String.list_ascii_of_string s)) as [|d k]; [done|]. cbn -[rev]. apply negb_true_iff in Hs. change (is_slash slash) with true. cbn -[rev]. by rewrite Hs.
Qed.

(** The root is the directory of a path of one name. *)
Lemma dirname_root x : name_ok x → dirname (pjoin [x]) = "/".
Proof.
  intros Hx. unfold dirname. change (pjoin [x]) with ("" +:+ pjoin [x]). rewrite rev_joined, rev_name by done.
  destruct (rev (String.list_ascii_of_string x) ++ slash :: rev (String.list_ascii_of_string "")) as [|c l] eqn:Hl.
  { by destruct (rev (String.list_ascii_of_string x)). }
  by rewrite <- Hl, drop_while_all by (eapply Forall_impl; [apply no_slash_rev, Hx|]; simpl; by intros c' ->).
Qed.

Lemma ends_plain_join s p x : name_ok x → ends_plain (s +:+ pjoin (p ++ [x])) = true.
Proof.
  intros Hx. rewrite pjoin_app, append_assoc. unfold ends_plain. rewrite rev_joined.
  pose proof (no_slash_rev x (proj2 Hx)) as Hf. destruct (rev (String.list_ascii_of_string x)) as [|c l] eqn:Hr.
  - exfalso. apply (proj1 Hx). rewrite <- (string_of_rev x), Hr. done.
  - apply Forall_cons in Hf as [Hc _]. simpl. by rewrite Hc.
Qed.

(** The directory of a longer path. *)
Lemma dirname_pjoin s p x : name_ok x → Forall name_ok p → (p = [] → ends_plain s = true) →
  dirname (s +:+ pjoin (p ++ [x])) = s +:+ pjoin p.
Proof.
  intros Hx Hp Hs. rewrite pjoin_app, append_assoc, dirname_join by done.
  destruct p as [|y p _] using rev_ind; [by rewrite append_nil_r, Hs|].
  apply Forall_app in Hp as [_ Hy]. apply Forall_cons in Hy as [Hy _]. by rewrite ends_plain_join.
Qed.
Lemma basename_pjoin s p x : name_ok x → basename (s +:+ pjoin (p ++ [x])) = x.
Proof. intros Hx. rewrite pjoin_app, append_assoc. by apply basename_join. Qed.
