(* ===== verification/DataBlock.v ===== *)
(** * Data blocks (data_block.c)

    A data block names an allocation of a data service: its capabilities, sizes,
    reference count and user attributes.  The attributes are heap objects the
    block's stack points to; the heap is explicit because the stack may hold the
    same attribute twice. *)
From stdpp Require Import gmap.
From S2P Require Import Prelude Inip.
#[local] Open Scope Z_scope.

(** ** Data *)

(** The three capabilities of an allocation. *)
Inductive ds_cap_key := DS_CAP_READ | DS_CAP_WRITE | DS_CAP_MANAGE.
#[export] Instance ds_cap_key_eq_dec : EqDecision ds_cap_key.
Proof. solve_decision. Defined.

(** The capability-set part of [data_service_fn_s], implemented by the data
    service driver; [W] is the handle of its auto-warm list. *)
Class CapSet (C W : Type) := {
  ds_cap_set_create : C;
  ds_get_cap : C → ds_cap_key → string;
  ds_set_cap : C → ds_cap_key → string → C;
  ds_cap_auto_warm : C → W }.
Class CapSetOk (C W : Type) `{!CapSet C W} : Prop := {
  get_set_cap c k1 k2 v :
    ds_get_cap (ds_set_cap c k1 v) k2 = if decide (k1 = k2) then v else ds_get_cap c k2 }.

(** [data_block_attr_t]. *)
Record db_attr := Db_attr { attr_key : string; attr_value : option string }.
#[export] Instance db_attr_eq_dec : EqDecision db_attr.
Proof. solve_decision. Defined.

Abbreviation attr_heap := (gmap nat db_attr).

Section data_block.
Context {C W : Type} `{!CapSet C W, !Inip}.

(** [data_block_t]; the attribute stack lists heap addresses, top first. *)
Record data_block := Data_block {
  db_id : Z; db_size : Z; db_max_size : Z;
  db_ref_count : Z; db_initial_ref_count : Z;
  db_cap : C; db_ds_type : string; db_rid_key : option string;
  db_attr_stack : option (list nat); db_warm : option W }.

Definition db_set_attrs (b : data_block) (st : option (list nat)) : data_block :=
  Data_block (db_id b) (db_size b) (db_max_size b) (db_ref_count b) (db_initial_ref_count b)
    (db_cap b) (db_ds_type b) (db_rid_key b) st (db_warm b).
Definition db_set_warm (b : data_block) (w : option W) : data_block :=
  Data_block (db_id b) (db_size b) (db_max_size b) (db_ref_count b) (db_initial_ref_count b)
    (db_cap b) (db_ds_type b) (db_rid_key b) (db_attr_stack b) w.
Definition db_set_ref (b : data_block) (n : Z) : data_block :=
  Data_block (db_id b) (db_size b) (db_max_size b) n (db_initial_ref_count b)
    (db_cap b) (db_ds_type b) (db_rid_key b) (db_attr_stack b) (db_warm b).
Definition db_set_sizes (b : data_block) (size max_size : Z) : data_block :=
  Data_block (db_id b) size max_size (db_ref_count b) (db_initial_ref_count b)
    (db_cap b) (db_ds_type b) (db_rid_key b) (db_attr_stack b) (db_warm b).

(** ** Attributes *)

(** [db_find_key]: from the top of the stack down. *)
Fixpoint db_find_key (h : attr_heap) (st : list nat) (key : string) : option nat :=
  match st with
  | [] => None
  | i :: st =>
      match h !! i with
      | Some a => if decide (attr_key a = key) then Some i else db_find_key h st key
      | None => None
      end
  end.

(** [data_block_set_attr].  [None] is the null dereference of a missing key
    given no value. *)
Definition data_block_set_attr (h : attr_heap) (b : data_block) (key : string)
    (val : option string) : option (attr_heap * data_block) :=
  let st := default [] (db_attr_stack b) in
  match db_find_key h st key, val with
  | None, None => None
  | None, Some v =>
      let i := fresh (dom h) in
      Some (<[i := Db_attr key (Some v)]> h, db_set_attrs b (Some (i :: st)))
  | Some i, _ =>
      (* the old value is freed and only replaced by a new one *)
      Some (<[i := Db_attr key val]> h, db_set_attrs b (Some (i :: st)))
  end.

Definition data_block_get_attr (h : attr_heap) (b : data_block) (key : string) : option string :=
  i ← db_find_key h (default [] (db_attr_stack b)) key;
  a ← h !! i; attr_value a.

(** ** Warming *)
Definition data_block_auto_warm (b : data_block) : data_block :=
  db_set_warm b (Some (ds_cap_auto_warm (db_cap b))).
Definition data_block_stop_warm (b : data_block) : data_block :=
  match db_warm b with None => b | Some _ => db_set_warm b None end.

(** ** Serialization *)

(** The attribute loop: it pops the stack and frees what it pops.  [None] is the
    use of an attribute already freed. *)
Fixpoint serialize_attrs (h : attr_heap) (st : list nat) : option (attr_heap * inip_group) :=
  match st with
  | [] => Some (h, [])
  | i :: st =>
      a ← h !! i;
      '(h, lines) ← serialize_attrs (delete i h) st;
      Some (h, match attr_value a with
               | Some v => (escape_text (attr_key a), escape_text v) :: lines
               | None => lines
               end)
  end.

(** The group a block is stored as. *)
Definition serialize_header (b : data_block) : inip_group :=
  [("type", db_ds_type b);
   ("rid_key", default "(null)" (db_rid_key b));
   ("size", print_int (db_size b));
   ("max_size", print_int (db_max_size b));
   ("ref_count", print_int (db_ref_count b));
   ("read_cap", escape_text (ds_get_cap (db_cap b) DS_CAP_READ));
   ("write_cap", escape_text (ds_get_cap (db_cap b) DS_CAP_WRITE));
   ("manage_cap", escape_text (ds_get_cap (db_cap b) DS_CAP_MANAGE))]%string.

(** The text [append_printf] puts into the buffer [capsbuf], which has 2048
    bytes: the name of the group, its lines and a blank line. *)
Definition bufsize : nat := 2048.
Definition newline : string := String (Ascii.ascii_of_nat 10) "".
Definition serialized_text (id : Z) (g : inip_group) : string :=
  "[block-" +:+ print_int id +:+ "]" +:+ newline +:+
  foldr (λ kv t, kv.1 +:+ "=" +:+ kv.2 +:+ newline +:+ t) newline g.

(** The group a parser finds in the text.  A text that does not fit is cut, and
    there is [None] for what a parser makes of it. *)
Definition fitting (id : Z) (g : inip_group) : option inip_group :=
  if decide (String.length (serialized_text id g) < bufsize)%nat then Some g else None.

Definition data_block_serialize_text (h : attr_heap) (b : data_block)
    : option (attr_heap * data_block * option inip_group) :=
  match db_attr_stack b with
  | None => Some (h, b, fitting (db_id b) (serialize_header b))
  | Some st =>
      '(h, lines) ← serialize_attrs h st;
      Some (h, db_set_attrs b (Some []), fitting (db_id b) (serialize_header b ++ lines))
  end.

(** ** Deserialization *)

Definition builtin_keys : list string :=
  ["rid_key"; "size"; "max_size"; "type"; "ref_count"; "read_cap"; "write_cap"; "manage_cap"]%string.

Definition deserialize_attr (s : attr_heap * option (list nat)) (ele : string * string)
    : attr_heap * option (list nat) :=
  let '(h, st) := s in
  if decide (ele.1 ∈ builtin_keys) then (h, st)
  else
    let i := fresh (dom h) in
    (<[i := Db_attr (unescape_text ele.1) (Some (unescape_text ele.2))]> h,
     Some (i :: default [] st)).

(** [ds_running] says which data services [lookup_service] finds; [grp] is the
    block's group if the file has it. *)
Definition data_block_deserialize_text (ds_running : string → bool) (h : attr_heap) (id : Z)
    (grp : option inip_group) : option (attr_heap * data_block) :=
  match grp with
  | None => None
  | Some g =>
      let ty := inip_get_string g "type" "" in
      if ds_running ty then
        let c := ds_cap_set_create in
        let c := ds_set_cap c DS_CAP_READ (unescape_text (inip_get_string g "read_cap" "")) in
        let c := ds_set_cap c DS_CAP_WRITE (unescape_text (inip_get_string g "write_cap" "")) in
        let c := ds_set_cap c DS_CAP_MANAGE (unescape_text (inip_get_string g "manage_cap" "")) in
        let '(h, st) := foldl deserialize_attr (h, None) g in
        Some (h, Data_block id (inip_get_integer g "size" 0) (inip_get_integer g "max_size" 0)
                   0 (inip_get_integer g "ref_count" 0) c ty
                   (Some (inip_get_string g "rid_key" "")) st None)
      else None
  end.

(** ** Creation and destruction *)

(** [data_block_create], with the id [generate_ex_id] drew. *)
Definition data_block_create (ds_type : string) (id : Z) : data_block :=
  Data_block id 0 0 0 0 ds_cap_set_create ds_type None None None.

(** [data_block_destroy]: [Some] keeps the block, [None] has freed it together
    with its attributes. *)
Definition data_block_destroy (h : attr_heap) (b : data_block) : attr_heap * option data_block :=
  if decide (db_ref_count b > 0) then (h, Some b)
  else (foldl (λ h i, delete i h) h (default [] (db_attr_stack b)), None).
End data_block.
Arguments data_block C W : clear implicits.
#[export] Instance data_block_eq_dec {C W} `{EqDecision C, EqDecision W} : EqDecision (data_block C W).
Proof. solve_decision. Defined.

(** ** Attributes *)
Section attrs.
Context {C W : Type} `{!CapSet C W, !Inip}.
Implicit Types (h : attr_heap) (b : data_block C W).

(** The block's stack points to live attributes. *)
Definition attrs_ok h b : Prop := ∀ i, i ∈ default [] (db_attr_stack b) → is_Some (h !! i).

Lemma db_find_key_None h st key :
  (∀ i, i ∈ st → is_Some (h !! i)) →
  db_find_key h st key = None ↔ ∀ i a, i ∈ st → h !! i = Some a → attr_key a ≠ key.
Proof.
  induction st as [|i st IH]; intros Hok; simpl.
  { split; [by intros _ ? ? ?%not_elem_of_nil|done]. }
  destruct (Hok i ltac:(by left)) as [a Ha]. rewrite Ha. case_decide as Hk.
  - split; [done|]. intros Hno. by destruct (Hno i a ltac:(by left) Ha).
  - rewrite IH by (intros; apply Hok; by right). split.
    + intros Hno j x [->|Hj]%elem_of_cons Hx; [congruence|by eapply Hno].
    + intros Hno j x Hj. apply Hno. by right.
Qed.

Lemma db_find_key_Some h st key i :
  db_find_key h st key = Some i → i ∈ st ∧ ∃ a, h !! i = Some a ∧ attr_key a = key.
Proof.
  induction st as [|j st IH]; simpl; [done|]. destruct (h !! j) as [a|] eqn:Ha; [|done].
  case_decide as Hk.
  - intros [= ->]. split; [by left|]. eauto.
  - intros [? ?]%IH. split; [by right|done].
Qed.

(** Changing an address the search does not stop at, keeping its key. *)
Lemma db_find_key_insert h st key i a a' :
  h !! i = Some a → attr_key a' = attr_key a →
  db_find_key (<[i := a']> h) st key = db_find_key h st key.
Proof.
  intros Ha Hk. induction st as [|j st IH]; simpl; [done|].
  destruct (decide (i = j)) as [->|Hij].
  - rewrite lookup_insert_eq, Ha, Hk. by rewrite IH.
  - rewrite lookup_insert_ne by done. by rewrite IH.
Qed.

Lemma db_find_key_fresh h st key i a :
  i ∉ st → db_find_key (<[i := a]> h) st key = db_find_key h st key.
Proof.
  induction st as [|j st IH]; simpl; [done|]. intros [Hij Hst]%not_elem_of_cons.
  rewrite lookup_insert_ne by done. by rewrite IH.
Qed.

Lemma attrs_fresh h b : attrs_ok h b → fresh (dom h) ∉ default [] (db_attr_stack b).
Proof.
  intros Hok Hin. apply Hok in Hin. apply elem_of_dom in Hin. by apply is_fresh in Hin.
Qed.

(** Setting an attribute returns (unless a missing key is given no value);
    getting the key then gives the value set, every other key gives what it
    gave, and the stack still points to live attributes. *)
Theorem data_block_get_set_attr h b key val :
  attrs_ok h b → (val = None → is_Some (db_find_key h (default [] (db_attr_stack b)) key)) →
  ∃ h' b', data_block_set_attr h b key val = Some (h', b') ∧ attrs_ok h' b' ∧
    data_block_get_attr h' b' key = val ∧
    ∀ k, k ≠ key → data_block_get_attr h' b' k = data_block_get_attr h b k.
Proof.
  intros Hok Hval. unfold data_block_set_attr.
  set (st := default [] (db_attr_stack b)) in *.
  pose proof (attrs_fresh h b Hok) as Hf. fold st in Hf.
  destruct (db_find_key h st key) as [i|] eqn:Hfind.
  - pose proof Hfind as (Hi & a & Ha & Hka)%db_find_key_Some.
    do 2 eexists. split; [done|]. split_and!.
    + intros j Hj. simpl in Hj. destruct (decide (i = j)) as [->|?].
      * by rewrite lookup_insert_eq.
      * rewrite lookup_insert_ne by done. apply Hok. apply elem_of_cons in Hj as [->|?]; [done|done].
    + unfold data_block_get_attr. simpl. rewrite lookup_insert_eq. simpl.
      rewrite decide_True by done. simpl. by rewrite lookup_insert_eq.
    + intros k Hk. unfold data_block_get_attr. simpl. rewrite lookup_insert_eq. simpl.
      rewrite decide_False by done. rewrite (db_find_key_insert h st k i a) by done.
      fold st. destruct (db_find_key h st k) as [j|] eqn:Hj; simpl; [|done].
      apply db_find_key_Some in Hj as (_ & x & Hx & Hkx).
      rewrite lookup_insert_ne; [done|]. intros ->. congruence.
  - destruct val as [v|]; [|by destruct (Hval eq_refl)].
    do 2 eexists. split; [done|]. split_and!.
    + intros j [->|Hj]%elem_of_cons; [by rewrite lookup_insert_eq|].
      destruct (decide (fresh (dom h) = j)) as [->|?]; [by rewrite lookup_insert_eq|].
      rewrite lookup_insert_ne by done. by apply Hok.
    + unfold data_block_get_attr. simpl. rewrite lookup_insert_eq. simpl.
      rewrite decide_True by done. simpl. by rewrite lookup_insert_eq.
    + intros k Hk. unfold data_block_get_attr. simpl. rewrite lookup_insert_eq. simpl.
      rewrite decide_False by done. rewrite db_find_key_fresh by done.
      fold st. destruct (db_find_key h st k) as [j|] eqn:Hj; simpl; [|done].
      apply db_find_key_Some in Hj as (Hj & _). rewrite lookup_insert_ne; [done|].
      intros Heq. by rewrite Heq in Hf.
Qed.

(** Serializing a block after one of its attributes was set a second time
    uses an attribute after it was freed. *)
Theorem data_block_reset_attr_crash h b key v :
  is_Some (db_find_key h (default [] (db_attr_stack b)) key) →
  ∃ h' b', data_block_set_attr h b key (Some v) = Some (h', b') ∧
    data_block_serialize_text h' b' = None.
Proof.
  intros [i Hi]. pose proof Hi as (Hin & _)%db_find_key_Some. unfold data_block_set_attr. rewrite Hi.
  do 2 eexists. split; [done|]. unfold data_block_serialize_text. simpl.
  rewrite lookup_insert_eq. simpl.
  assert (∀ st h, h !! i = None → i ∈ st → serialize_attrs h st = None) as Hcrash.
  { intros st. induction st as [|j st IH]; intros h0 Hh0 Hj; [by apply not_elem_of_nil in Hj|].
    simpl. destruct (decide (i = j)) as [<-|Hij]; [by rewrite Hh0|].
    destruct (h0 !! j); simpl; [|done].
    rewrite IH; [done|by rewrite lookup_delete_ne|]. by apply elem_of_cons in Hj as [?|?]. }
  rewrite Hcrash; [done|by rewrite lookup_delete_eq|done].
Qed.
End attrs.

(** ** Round trip *)
Section roundtrip.
Context {C W : Type} `{!CapSet C W, !CapSetOk C W, !Inip, !InipOk}.
Implicit Types (h : attr_heap) (b : data_block C W) (g : inip_group).

(** The attributes that have a value, in stack order. *)
Definition attrs_view h (st : list nat) : list (string * string) :=
  omap (λ i, a ← h !! i; v ← attr_value a; Some (attr_key a, v)) st.

Definition block_attrs h b : list (string * string) := attrs_view h (default [] (db_attr_stack b)).

Lemma attrs_view_cons h i st a :
  h !! i = Some a →
  attrs_view h (i :: st) = match attr_value a with
                           | Some v => (attr_key a, v) :: attrs_view h st
                           | None => attrs_view h st
                           end.
Proof. intros Ha. unfold attrs_view. simpl. rewrite Ha. simpl. by destruct (attr_value a). Qed.

Lemma attrs_view_ext h h' st :
  (∀ i, i ∈ st → h' !! i = h !! i) → attrs_view h' st = attrs_view h st.
Proof.
  intros Heq. unfold attrs_view. apply list_omap_ext, Forall2_same_length_lookup_2; [done|].
  intros k i j Hi Hj. assert (i = j) as <- by congruence. rewrite Heq; [done|].
  by eapply list_elem_of_lookup_2.
Qed.

Lemma serialize_attrs_spec h st :
  NoDup st → (∀ i, i ∈ st → is_Some (h !! i)) →
  ∃ h', serialize_attrs h st =
    Some (h', (λ kv, (escape_text kv.1, escape_text kv.2)) <$> attrs_view h st).
Proof.
  revert h. induction st as [|i st IH]; intros h Hnd Hok; cbn [serialize_attrs]; [by exists h|].
  apply NoDup_cons in Hnd as [Hi Hnd]. destruct (Hok i ltac:(by left)) as [a Ha].
  rewrite (attrs_view_cons h i st a Ha), Ha. simpl. destruct (IH (delete i h) Hnd) as [h' Hs].
  { intros j Hj. rewrite lookup_delete_ne by (by intros ->). apply Hok. by right. }
  rewrite Hs. simpl. exists h'. rewrite (attrs_view_ext h (delete i h)).
  - by destruct (attr_value a).
  - intros j Hj. apply lookup_delete_ne. by intros ->.
Qed.

Lemma deserialize_attrs_spec (lines : list (string * string)) : ∀ h (st : option (list nat)),
  (∀ i, i ∈ default [] st → i ∈ dom h) →
  (∀ kv, kv ∈ lines → kv.1 ∉ builtin_keys) →
  let '(h', st') := foldl deserialize_attr (h, st) lines in
  attrs_view h' (default [] st') =
    reverse ((λ kv, (unescape_text kv.1, unescape_text kv.2)) <$> lines) ++
    attrs_view h (default [] st).
Proof.
  induction lines as [|kv lines IH]; intros h st Hst Hb; [done|]. cbn [foldl deserialize_attr].
  rewrite decide_False by (apply Hb; by left).
  set (i := fresh (dom h)). set (h1 := <[i := _]> h).
  assert (i ∉ default [] st) as Hi.
  { intros Hin%Hst. by apply is_fresh in Hin. }
  specialize (IH h1 (Some (i :: default [] st))).
  destruct (foldl deserialize_attr _ lines) as [h' st'].
  rewrite IH; cycle 1.
  { intros j Hj. unfold h1. rewrite dom_insert_L, elem_of_union, elem_of_singleton.
    simpl in Hj. apply elem_of_cons in Hj as [->|Hj]; [by left|right; auto]. }
  { intros; apply Hb; by right. }
  rewrite fmap_cons, reverse_cons, <- app_assoc. f_equal.
  cbn [default id]. rewrite (attrs_view_cons h1 i _ _ (lookup_insert_eq _ _ _)).
  simpl. f_equal. apply attrs_view_ext.
  intros j Hj. unfold h1. apply lookup_insert_ne. by intros ->.
Qed.

Lemma deserialize_header h b : foldl deserialize_attr (h, None) (serialize_header b) = (h, None).
Proof. done. Qed.

Lemma header_keys b : fst <$> serialize_header b =
  ["type"; "rid_key"; "size"; "max_size"; "ref_count"; "read_cap"; "write_cap"; "manage_cap"]%string.
Proof. done. Qed.

(** The lines a block is written as. *)
Definition block_lines h b : inip_group :=
  serialize_header b ++ ((λ kv, (escape_text kv.1, escape_text kv.2)) <$> block_attrs h b).


(** A block is freed, attributes and all, exactly when its reference count
    is not positive; otherwise nothing happens. *)
Theorem data_block_destroy_spec h b :
  let '(h', b') := data_block_destroy h b in
  (db_ref_count b > 0 → h' = h ∧ b' = Some b) ∧
  (db_ref_count b ≤ 0 → b' = None ∧
     ∀ i, h' !! i = if decide (i ∈ default [] (db_attr_stack b)) then None else h !! i).
Proof.
  unfold data_block_destroy. case_decide as Hr; (split; [|intros; split]); try done; try lia.
  intros i. clear. generalize h. induction (default [] (db_attr_stack b)) as [|j st IH]; intros h0; [done|].
  simpl. rewrite IH. destruct (decide (i = j)) as [->|Hij].
  - rewrite lookup_delete_eq, (decide_True (P:=j ∈ j :: st)) by (by left). by case_decide.
  - rewrite lookup_delete_ne by done. apply decide_ext. rewrite elem_of_cons. naive_solver.
Qed.
End roundtrip.

(** ** Concrete runs *)
Section db_demo.
#[local] Existing Instance inip_std.
#[local] Existing Instance inip_std_ok.

(** Three strings, and no warm handle to speak of. *)
Definition cap3 : CapSet (string * string * string) unit := {|
  ds_cap_set_create := (""%string, ""%string, ""%string);
  ds_get_cap c k := match k with DS_CAP_READ => c.1.1 | DS_CAP_WRITE => c.1.2 | DS_CAP_MANAGE => c.2 end;
  ds_set_cap c k v := match k with
                      | DS_CAP_READ => (v, c.1.2, c.2)
                      | DS_CAP_WRITE => (c.1.1, v, c.2)
                      | DS_CAP_MANAGE => (c.1, v)
                      end;
  ds_cap_auto_warm _ := tt |}.
#[local] Existing Instance cap3.

Lemma cap3_ok : CapSetOk (string * string * string) unit.
Proof. split. by intros [[r w] m] [] [] v. Qed.
#[local] Existing Instance cap3_ok.

Definition demo_heap : attr_heap :=
  <[0%nat := Db_attr "colour" (Some "blue"%string)]>
  (<[1%nat := Db_attr "site" (Some "vu"%string)]> ∅).
Definition demo_block : data_block (string * string * string) unit :=
  Data_block 17 100 200 2 0 ("r"%string, "w"%string, "m"%string) "ibp" (Some "rid1"%string)
    (Some [0%nat; 1%nat]) None.

Lemma demo_attrs_ok : attrs_ok demo_heap demo_block.
Proof.
  intros i Hi. simpl in Hi.
  apply elem_of_cons in Hi as [->|[->|Hi%not_elem_of_nil]%elem_of_cons]; [vm_compute; eauto..|done].
Qed.

Lemma data_block_get_set_attr_witness :
  ∃ h' b', data_block_set_attr demo_heap demo_block "site" (Some "cern"%string) = Some (h', b') ∧
    attrs_ok h' b' ∧ data_block_get_attr h' b' "site" = Some "cern"%string ∧
    ∀ k, k ≠ "site"%string → data_block_get_attr h' b' k = data_block_get_attr demo_heap demo_block k.
Proof.
  apply (data_block_get_set_attr demo_heap demo_block "site" (Some "cern"%string) demo_attrs_ok).
  intros Hn. discriminate Hn.
Defined.

Lemma data_block_reset_attr_crash_witness :
  ∃ h' b', data_block_set_attr demo_heap demo_block "site" (Some "cern"%string) = Some (h', b') ∧
    data_block_serialize_text h' b' = None.
Proof.
  apply (data_block_reset_attr_crash demo_heap demo_block "site" "cern").
  exists 1%nat. vm_compute. reflexivity.
Defined.


(** The text of the block is short. *)
Example demo_block_fits : (String.length (serialized_text 17 (block_lines demo_heap demo_block)) < bufsize)%nat.
Proof. apply (bool_decide_unpack _). vm_compute. exact I. Qed.
End db_demo.
