(* ===== verification/DataStore.v ===== *)
(** * The data and resource services

    What the block-mapped drivers use of [data_service_fn_s] and of the
    resource service's [data_request]: reads, writes, resizes, copies and
    removals of allocations, and the allocation of new ones.  The drivers are
    verified against this interface; a store in memory shows it can be met. *)
From stdpp Require Import strings.
From S2P Require Import Prelude Seg.
#[local] Open Scope Z_scope.

(** [C] is the type of capability sets, [Q] that of resource queries.  An
    operation is its effect when waited for. *)
Class DataStore (C Q S : Type) := {
  ds_read : S → C → Z → tbuffer → Z → Z → S * tbuffer * op_status;
  ds_write : S → C → Z → tbuffer → Z → Z → S * op_status;
  ds_truncate : S → C → Z → S * op_status;
  ds_remove : S → C → S * op_status;
  ds_copy : S → C → Z → C → Z → Z → S * op_status;
  (** the requests are (rid index, size) pairs; the number is [n_rid] *)
  rs_data_request : S → option Q → list (Z * Z) → Z → S * list (C * string) * op_status }.

(** The bytes of the allocations, and which capabilities are in use. *)
Class StoreView (C S : Type) := { ds_byte : S → C → Z → Z; ds_live : S → C → Prop }.

Class DataStoreOk (C Q S : Type) `{!DataStore C Q S, !StoreView C S} : Prop := {
  ds_read_same s c off buf bpos len c' i :
    let s' := (ds_read s c off buf bpos len).1.1 in
    ds_byte s' c' i = ds_byte s c' i ∧ (ds_live s c' → ds_live s' c');
  ds_read_buffer s c off buf bpos len p :
    op_st (ds_read s c off buf bpos len).2 = OP_STATE_SUCCESS →
    (ds_read s c off buf bpos len).1.2 p = buf_put buf bpos len (ds_byte s c) off p;
  ds_write_live s c off buf bpos len c' :
    ds_live s c' → ds_live (ds_write s c off buf bpos len).1 c';
  ds_write_frame s c off buf bpos len c' i :
    c' ≠ c ∨ ¬ (off ≤ i < off + len) →
    ds_byte (ds_write s c off buf bpos len).1 c' i = ds_byte s c' i;
  ds_write_byte s c off buf bpos len i :
    op_st (ds_write s c off buf bpos len).2 = OP_STATE_SUCCESS → off ≤ i < off + len →
    ds_byte (ds_write s c off buf bpos len).1 c i = buf (bpos + (i - off));
  ds_truncate_live s c n c' : ds_live s c' → ds_live (ds_truncate s c n).1 c';
  ds_truncate_frame s c n c' i :
    c' ≠ c ∨ i < n → ds_byte (ds_truncate s c n).1 c' i = ds_byte s c' i;
  ds_remove_frame s c c' i :
    c' ≠ c → ds_byte (ds_remove s c).1 c' i = ds_byte s c' i ∧
             (ds_live s c' → ds_live (ds_remove s c).1 c');
  ds_copy_live s c1 o1 c2 o2 len c' : ds_live s c' → ds_live (ds_copy s c1 o1 c2 o2 len).1 c';
  ds_copy_frame s c1 o1 c2 o2 len c' i :
    c' ≠ c2 ∨ ¬ (o2 ≤ i < o2 + len) →
    ds_byte (ds_copy s c1 o1 c2 o2 len).1 c' i = ds_byte s c' i;
  ds_copy_byte s c1 o1 c2 o2 len i :
    c1 ≠ c2 → op_st (ds_copy s c1 o1 c2 o2 len).2 = OP_STATE_SUCCESS → o2 ≤ i < o2 + len →
    ds_byte (ds_copy s c1 o1 c2 o2 len).1 c2 i = ds_byte s c1 (o1 + (i - o2));
  (** new allocations get capabilities that were not in use *)
  rs_request_frame s q reqs n c i :
    ds_live s c → let s' := (rs_data_request s q reqs n).1.1 in
    ds_live s' c ∧ ds_byte s' c i = ds_byte s c i;
  rs_request_caps s q reqs n :
    let '(s', caps, st) := rs_data_request s q reqs n in
    op_st st = OP_STATE_SUCCESS →
    length caps = length reqs ∧ NoDup (fst <$> caps) ∧
    ∀ c, c ∈ fst <$> caps → ¬ ds_live s c ∧ ds_live s' c }.

(** ** A store in memory *)
Section mem_store.
(** [st_up] is whether the allocations answer, [st_room] whether there is space
    for more. *)
Record mem_store := Mem_store {
  st_next : nat; st_byte : nat → Z → Z; st_up : bool; st_room : bool }.

Context `{!Gop}.

Definition store_status (s : mem_store) : op_status :=
  if st_up s then op_success_status else op_failure_status.
Definition room_status (s : mem_store) : op_status :=
  if st_room s then op_success_status else op_failure_status.
Definition store_put (s : mem_store) (c : nat) (off len : Z) (f : Z → Z) (o : Z) : mem_store :=
  Mem_store (st_next s)
    (λ c', if decide (c' = c) then buf_put (st_byte s c) off len f o else st_byte s c') (st_up s) (st_room s).

#[export] Instance mem_data_store {Q} : DataStore nat Q mem_store := {|
  ds_read s c off buf bpos len :=
    (s, if st_up s then buf_put buf bpos len (st_byte s c) off else buf, store_status s);
  ds_write s c off buf bpos len :=
    (if st_up s then store_put s c off len buf bpos else s, store_status s);
  ds_truncate s c n := (s, room_status s);
  ds_remove s c := (s, store_status s);
  ds_copy s c1 o1 c2 o2 len :=
    (if st_up s then store_put s c2 o2 len (st_byte s c1) o1 else s, store_status s);
  rs_data_request s q reqs n :=
    (Mem_store (st_next s + length reqs) (st_byte s) (st_up s) (st_room s),
     (λ i, (i, EmptyString)) <$> seq (st_next s) (length reqs), room_status s) |}.

#[export] Instance mem_store_view : StoreView nat mem_store := {|
  ds_byte := st_byte; ds_live s c := (c < st_next s)%nat |}.

#[export] Instance mem_data_store_ok {Q} `{!GopOk} : DataStoreOk nat Q mem_store.
Proof.
  assert (∀ s, op_st (store_status s) = OP_STATE_SUCCESS → st_up s = true) as Hup.
  { intros s. unfold store_status. destruct (st_up s); [done|]. by rewrite op_failure_state. }
  split; simpl; try done.
  - intros s c off buf bpos len p ->%Hup. done.
  - intros s c off buf bpos len c' ?. by destruct (st_up s).
  - intros s c off buf bpos len c' i Hd. destruct (st_up s); [|done]. simpl.
    case_decide as Hc; [subst|done]. unfold buf_put. rewrite decide_False; [done|]. by destruct Hd.
  - intros s c off buf bpos len i ->%Hup Hi. simpl. rewrite decide_True by done.
    unfold buf_put. by rewrite decide_True.
  - intros s c1 o1 c2 o2 len c' ?. by destruct (st_up s).
  - intros s c1 o1 c2 o2 len c' i Hd. destruct (st_up s); [|done]. simpl.
    case_decide as Hc; [subst|done]. unfold buf_put. rewrite decide_False; [done|]. by destruct Hd.
  - intros s c1 o1 c2 o2 len i _ ->%Hup Hi. simpl. rewrite decide_True by done.
    unfold buf_put. by rewrite decide_True.
  - intros s q reqs n c i Hc. split; [lia|done].
  - intros s q reqs n _. rewrite <- list_fmap_compose. unfold compose. simpl.
    rewrite list_fmap_id, length_fmap, length_seq. split_and!; [done|apply NoDup_seq|].
    intros c [? ?]%elem_of_seq. lia.
Qed.
End mem_store.
