(* ===== verification/SegLinear.v ===== *)
(** * Linear segments (segment_linear.c): blocks and resizing

    A linear segment maps its byte range to data blocks, allocations obtained
    from the resource service, through an interval list of slots.  This file
    has the slots, the resizing functions and the invariant they keep: the
    slots tile the range from 0 to [total_size]. *)
From stdpp Require Import strings gmap.
From S2P Require Import Prelude Isl Seg Inip DataBlock DataStore.
#[local] Open Scope Z_scope.

(** ** Data *)
Section seglin.
Context {C W Q S : Type} `{!CapSet C W, !DataStore C Q S, !Gop}.

(** [seglin_slot_t] *)
Record seglin_slot := Seglin_slot {
  sl_data : data_block C W; sl_cap_offset : Z; sl_seg_offset : Z; sl_seg_end : Z; sl_len : Z }.

#[export] Instance seglin_slot_ranged : Ranged seglin_slot :=
  {| r_lo := sl_seg_offset; r_hi := sl_seg_end |}.

Context `{!ISL seglin_slot}.

(** [seglin_priv_t], less the other service handles. *)
Record seglin_priv := Seglin_priv {
  used_size : Z; total_size : Z; max_block_size : Z; excess_block_size : Z;
  rsq : option Q; n_rid_default : Z; sl_hard_errors : Z; sl_isl : isl;
  sl_ds : string  (* the type of the data service *) }.

Definition lin_set_isl (s : seglin_priv) (m : isl) : seglin_priv :=
  Seglin_priv (used_size s) (total_size s) (max_block_size s) (excess_block_size s)
    (rsq s) (n_rid_default s) (sl_hard_errors s) m (sl_ds s).
Definition lin_set_sizes (s : seglin_priv) (used total : Z) : seglin_priv :=
  Seglin_priv used total (max_block_size s) (excess_block_size s)
    (rsq s) (n_rid_default s) (sl_hard_errors s) (sl_isl s) (sl_ds s).
Definition lin_add_error (s : seglin_priv) : seglin_priv :=
  Seglin_priv (used_size s) (total_size s) (max_block_size s) (excess_block_size s)
    (rsq s) (n_rid_default s) (sl_hard_errors s + 1) (sl_isl s) (sl_ds s).

Definition slot_cap (b : seglin_slot) : C := db_cap (sl_data b).
Definition lin_insert (b : seglin_slot) (m : isl) : isl :=
  isl_insert (sl_seg_offset b) (sl_seg_end b) b m.
Definition lin_remove (b : seglin_slot) (m : isl) : isl :=
  isl_remove (sl_seg_offset b) (sl_seg_end b) b m.

(** ** Growing *)

(** The block loop of [_sl_grow]: new slots from [off] on; [ids] are the ids the
    generator hands out. *)
Fixpoint sl_grow_blocks (ds : string) (fuel : nat) (ids : nat → Z) (i : nat) (max new_size off : Z)
    : option (list seglin_slot) :=
  if decide (off < new_size) then
    match fuel with
    | O => None
    | Datatypes.S fuel =>
        let len := if decide (off + max > new_size) then new_size - off else max in
        let d := db_set_sizes (data_block_create ds (ids i)) len len in
        let b := Seglin_slot d 0 off (off + len - 1) len in
        bs ← sl_grow_blocks ds fuel ids (Datatypes.S i) max new_size (off + max); Some (b :: bs)
    end
  else Some [].

(** The requests of the new slots: the resource ids are used in turn; [None] is
    the division by 0 when there are none. *)
Definition sl_grow_reqs (n_rid : Z) (bs : list seglin_slot) : option (list (Z * Z)) :=
  if decide (n_rid = 0) then None
  else Some (imap (λ i b, (Z.of_nat i `rem` n_rid, sl_len b)) bs).

(** The last slot, if it has room left, with its new length. *)
Definition sl_grow_expand (s : seglin_priv) (new_size : Z)
    : option (Z * option (seglin_slot * Z)) :=
  if decide (total_size s > 0) then
    b ← head (isl_search (Some (total_size s - 1)) (Some (total_size s)) (sl_isl s));
    if decide (sl_len b < max_block_size s) then
      let dsize := new_size - sl_seg_offset b in
      let dsize := if decide (dsize > max_block_size s) then max_block_size s else dsize in
      Some (sl_seg_offset b + dsize, Some (b, dsize))
    else Some (sl_seg_end b + 1, None)
  else Some (total_size s, None).

(** An expanded slot, and a new slot once it has its allocation. *)
Definition slot_expanded (b : seglin_slot) (len : Z) : seglin_slot :=
  Seglin_slot (db_set_sizes (sl_data b) len len) (sl_cap_offset b) (sl_seg_offset b)
    (sl_seg_offset b + len - 1) len.
Definition slot_allocated (b : seglin_slot) (cr : C * string) : seglin_slot :=
  let d := sl_data b in
  Seglin_slot (Data_block (db_id d) (db_size d) (db_max_size d) (db_ref_count d + 1)
                 (db_initial_ref_count d) cr.1 (db_ds_type d) (Some cr.2)
                 (db_attr_stack d) (db_warm d))
    (sl_cap_offset b) (sl_seg_offset b) (sl_seg_end b) (sl_len b).

(** The zero byte written at the end of each allocation. *)
Definition zero_end (σ : S) (b : seglin_slot) : S * op_status :=
  ds_write σ (slot_cap b) (sl_cap_offset b + db_max_size (sl_data b) - 1) (λ _, 0) 0 1.
Fixpoint zero_ends (σ : S) (bs : list seglin_slot) : S * list op_status :=
  match bs with
  | [] => (σ, [])
  | b :: bs => let '(σ, st) := zero_end σ b in
               let '(σ, sts) := zero_ends σ bs in (σ, st :: sts)
  end.

(** The stretched slot, in the table and on its own. *)
Definition expand_list (s : seglin_priv) (be : option (seglin_slot * Z)) : isl :=
  match be with
  | Some (b, len) => lin_insert (slot_expanded b len) (lin_remove b (sl_isl s))
  | None => sl_isl s
  end.
Definition expand_slots (be : option (seglin_slot * Z)) : list seglin_slot :=
  match be with Some (b, len) => [slot_expanded b len] | None => [] end.

(** Once the space is there: the table, the end bytes, the size. *)
Definition sl_grow_commit (σ : S) (s : seglin_priv) (new_size : Z)
    (bexpand : option (seglin_slot * Z)) (bs : list seglin_slot) (caps : list (C * string))
    : S * seglin_priv * op_status :=
  let m := expand_list s bexpand in
  let bs := zip_with slot_allocated bs caps in
  let m := foldl (λ m b, lin_insert b m) m bs in
  let '(σ, sts) := zero_ends σ (expand_slots bexpand ++ bs) in
  (σ, lin_set_sizes (lin_set_isl s m) (used_size s) new_size,
   if decide (opque_waitall sts = OP_STATE_SUCCESS) then op_success_status else op_failure_status).

(** Making the space: the resize of the last block and the request for the new
    ones.  [None] is waiting for an operation that was never made, or the
    division of [sl_grow_reqs]. *)
Definition sl_grow_run (σ : S) (s : seglin_priv) (new_size : Z)
    (bexpand : option (seglin_slot * Z)) (bs : list seglin_slot)
    : option (S * seglin_priv * op_status) :=
  let '(σ, sts1) :=
    match bexpand with
    | Some (b, dsize) => let '(σ, st) := ds_truncate σ (slot_cap b) dsize in (σ, [st])
    | None => (σ, [])
    end in
  let n := Z.of_nat (length bs) in
  '(σ, caps, sts2) ←
    (if decide (n > 0) then
      reqs ← sl_grow_reqs (n_rid_default s) bs;
      let '(σ, caps, st) := rs_data_request σ (rsq s) reqs
        (if decide (n_rid_default s > n) then n else n_rid_default s) in
      Some (σ, caps, [st])
    else Some (σ, [], []));
  match sts1 ++ sts2 with
  | [] => None
  | sts =>
      if decide (opque_waitall sts = OP_STATE_SUCCESS)
      then Some (sl_grow_commit σ s new_size bexpand bs caps)
      else Some (σ, s, op_failure_status)
  end.

(** [_sl_grow].  [None] is a crash: waiting for the operation that was never
    made, or dividing by the block size or by the number of resource ids. *)
Definition sl_grow (ids : nat → Z) (σ : S) (s : seglin_priv) (new_size_arg : Z)
    : option (S * seglin_priv * op_status) :=
  let new_size := if decide (new_size_arg < 0) then - new_size_arg else new_size_arg in
  if decide (new_size_arg < 0 ∧ new_size < total_size s) then Some (σ, s, op_success_status)
  else if decide (max_block_size s ≤ 0) then None
  else
    '(lo, bexpand) ← sl_grow_expand s new_size;
    bs ← sl_grow_blocks (sl_ds s) (Z.to_nat (new_size - lo)) ids 0 (max_block_size s) new_size lo;
    sl_grow_run σ s new_size bexpand bs.

(** ** Shrinking *)
Fixpoint ds_remove_all (σ : S) (bs : list seglin_slot) : S * list op_status :=
  match bs with
  | [] => (σ, [])
  | b :: bs => let '(σ, st) := ds_remove σ (slot_cap b) in
               let '(σ, sts) := ds_remove_all σ bs in (σ, st :: sts)
  end.

(** The first block may only be cut: the dropped slots and the cut one. *)
Definition sl_shrink_first (σ : S) (b : seglin_slot) (dsize : Z)
    : S * op_status * list seglin_slot * option seglin_slot :=
  if decide (dsize = 0)
  then let '(σ, st) := ds_remove σ (slot_cap b) in (σ, st, [b], None)
  else let '(σ, st) := ds_truncate σ (slot_cap b) dsize in (σ, st, [], Some b).

(** [_sl_shrink]; [None] is a crash on an empty search.  The dropped slots go
    through a stack, so they leave the list last first. *)
Definition sl_shrink (σ : S) (s : seglin_priv) (new_size : Z)
    : option (S * seglin_priv * op_status) :=
  match isl_search (Some new_size) (Some (total_size s)) (sl_isl s) with
  | [] => None
  | b :: rest =>
      let dsize := new_size - sl_seg_offset b in
      let '(σ, st, stack, start_b) := sl_shrink_first σ b dsize in
      let '(σ, sts) := ds_remove_all σ rest in
      let m := foldl (λ m b, lin_remove b m) (sl_isl s) (reverse rest ++ stack) in
      let m := match start_b with
               | Some b =>
                   let b' := Seglin_slot (sl_data b) (sl_cap_offset b) (sl_seg_offset b)
                               (sl_seg_offset b + dsize - 1) dsize in
                   lin_insert b' (lin_remove b m)
               | None => m
               end in
      Some (σ, lin_set_sizes (lin_set_isl s m) new_size new_size,
            if decide (opque_waitall (st :: sts) = OP_STATE_SUCCESS)
            then op_success_status else op_failure_status)
  end.

(** [_sl_truncate] *)
Definition sl_truncate (ids : nat → Z) (σ : S) (s : seglin_priv) (new_size : Z)
    : option (S * seglin_priv * op_status) :=
  if decide (new_size < 0) then sl_grow ids σ s new_size
  else if decide (total_size s > new_size) then sl_shrink σ s new_size
  else if decide (total_size s < new_size) then sl_grow ids σ s new_size
  else Some (σ, s, op_success_status).

(** ** Creation and sizes *)

(** [segment_linear_create] *)
Definition segment_linear_create (ds : string) : seglin_priv :=
  Seglin_priv 0 0 (10 * 1024 * 1024) (1 * 1024 * 1024) None 1 0 isl_create ds.

(** [segment_linear_make] *)
Definition segment_linear_make (ids : nat → Z) (σ : S) (s : seglin_priv) (q : option Q)
    (n_rid block_size size : Z) : option (S * seglin_priv * op_status) :=
  sl_truncate ids σ (Seglin_priv (used_size s) (total_size s) block_size (block_size `quot` 4)
                       q n_rid (sl_hard_errors s) (sl_isl s) (sl_ds s)) size.

Definition seglin_size (s : seglin_priv) : Z := used_size s.
Definition seglin_block_size (s : seglin_priv) : Z := 1.

(** [seglin_remove]: every block is released, the table stays. *)
Definition seglin_remove (σ : S) (s : seglin_priv) : S * list op_status :=
  ds_remove_all σ (isl_all (sl_isl s)).

(** [seglin_inspect]: only the error counters are reported; the result of the
    other modes is fixed ([None]: no operation). *)
Inductive inspect_mode := INSPECT_CHECK_OR_REPAIR | INSPECT_SOFT_ERRORS | INSPECT_HARD_ERRORS | INSPECT_OTHER.
Definition seglin_inspect (s : seglin_priv) (mode : inspect_mode) : option op_status :=
  match mode with
  | INSPECT_CHECK_OR_REPAIR => Some op_failure_status
  | INSPECT_SOFT_ERRORS | INSPECT_HARD_ERRORS =>
      Some (Op_status (if decide (sl_hard_errors s = 0) then OP_STATE_SUCCESS
                       else OP_STATE_FAILURE) (sl_hard_errors s))
  | INSPECT_OTHER => None
  end.
End seglin.
Arguments seglin_slot C W : clear implicits.
#[export] Instance seglin_slot_eq_dec {C W} `{EqDecision C, EqDecision W} : EqDecision (seglin_slot C W).
Proof. solve_decision. Defined.
Arguments seglin_priv C W Q {_}.

(** ** The invariant *)
Section seglin_inv.
Context {C W Q S : Type} `{!CapSet C W, !DataStore C Q S, !StoreView C S, !DataStoreOk C Q S}.
Context `{!Gop, !GopOk, !ISL (seglin_slot C W), !ISLOk (seglin_slot C W)}.
Implicit Types (s : seglin_priv C W Q) (b : seglin_slot C W) (σ : S) (l : list (seglin_slot C W)).

(** A slot uses its allocation from the start. *)
Definition slot_ok b : Prop :=
  sl_cap_offset b = 0 ∧ sl_seg_end b = sl_seg_offset b + sl_len b - 1.

(** Slots on distinct live allocations. *)
Definition slots_ok σ l : Prop :=
  Forall slot_ok l ∧ NoDup (slot_cap <$> l) ∧ ∀ b, b ∈ l → ds_live (S:=S) σ (slot_cap b).

Definition lin_ok σ s : Prop :=
  tiles 0 (total_size s) (isl_all (sl_isl s)) ∧ slots_ok σ (isl_all (sl_isl s)) ∧
  0 ≤ total_size s ∧ 0 < max_block_size s ∧ n_rid_default s ≠ 0.

(** The byte at an offset through a list of slots. *)
Definition slots_byte σ l (off : Z) : Z :=
  match find_cover off l with
  | Some b => ds_byte (S:=S) σ (slot_cap b) (sl_cap_offset b + (off - sl_seg_offset b))
  | None => 0
  end.
Definition lin_byte σ s (off : Z) : Z := slots_byte σ (isl_all (sl_isl s)) off.

Lemma slots_ok_app σ l k :
  slots_ok σ (l ++ k) ↔ slots_ok σ l ∧ slots_ok σ k ∧
    ∀ b c, b ∈ l → c ∈ k → slot_cap b ≠ slot_cap c.
Proof.
  unfold slots_ok. rewrite Forall_app, fmap_app, NoDup_app. setoid_rewrite elem_of_app. split.
  - intros ([? ?] & (? & Hd & ?) & Hl). split_and!; auto. intros b c Hb Hc He.
    apply (Hd (slot_cap b)); [by apply list_elem_of_fmap_2|]. rewrite He. by apply list_elem_of_fmap_2.
  - intros ((? & ? & ?) & (? & ? & ?) & Hd). split_and!; auto.
    + intros c (b & -> & Hb)%list_elem_of_fmap (b' & He & Hb')%list_elem_of_fmap. by apply (Hd b b').
    + intros b [?|?]; auto.
Qed.

#[export] Instance slots_ok_perm : Proper ((=) ==> (≡ₚ) ==> iff) slots_ok.
Proof.
  intros σ ? <- l k Hp. assert (∀ b, b ∈ l ↔ b ∈ k) as Hin by (intros b; by rewrite Hp).
  unfold slots_ok. rewrite Hp. split; intros (? & ? & Hl); split_and!; auto; intros b Hb; apply Hl; by apply Hin.
Qed.

Lemma slots_ok_mono σ σ' l :
  slots_ok σ l → (∀ b, b ∈ l → ds_live (S:=S) σ (slot_cap b) → ds_live (S:=S) σ' (slot_cap b)) →
  slots_ok σ' l.
Proof. intros (? & ? & Hl) Hm. split_and!; auto. Qed.

Lemma slots_ok_cons_inv σ b l :
  slots_ok σ (b :: l) → slot_ok b ∧ ds_live (S:=S) σ (slot_cap b) ∧ slots_ok σ l ∧
    ∀ c, c ∈ l → slot_cap c ≠ slot_cap b.
Proof.
  intros ((Hb & Hl)%Forall_cons & (Hn & Hnd)%NoDup_cons & Hlive).
  split_and!; [done|apply Hlive; by left|split_and!; [done|done|intros; apply Hlive; by right]|].
  intros c Hc He. apply Hn. rewrite <- He. by apply list_elem_of_fmap_2.
Qed.

(** Same slots, same bytes under them: same content. *)
Lemma slots_byte_ext σ σ' l off :
  (∀ b i, b ∈ l → covers off b → i = sl_cap_offset b + (off - sl_seg_offset b) →
     ds_byte (S:=S) σ' (slot_cap b) i = ds_byte (S:=S) σ (slot_cap b) i) →
  slots_byte σ' l off = slots_byte σ l off.
Proof.
  intros Heq. unfold slots_byte. destruct (find_cover off l) as [b|] eqn:Hf; [|done].
  apply find_cover_in in Hf as [Hb Hc]. by apply Heq.
Qed.

Lemma slots_byte_at σ l b off :
  ranges_ok l → b ∈ l → covers off b →
  slots_byte σ l off = ds_byte (S:=S) σ (slot_cap b) (sl_cap_offset b + (off - sl_seg_offset b)).
Proof. intros Hok Hb Hc. unfold slots_byte. by rewrite (find_cover_Some off l b). Qed.

(** ** The list operations *)
Lemma lin_insert_all b (m : isl) :
  sl_seg_offset b ≤ sl_seg_end b → isl_all (lin_insert b m) ≡ₚ b :: isl_all m.
Proof. intros Hv. exact (isl_all_insert b m Hv). Qed.

Lemma lin_insert_list l (m : isl) :
  Forall valid l → isl_all (foldl (λ m b, lin_insert b m) m l) ≡ₚ l ++ isl_all m.
Proof.
  intros Hv. revert m. induction Hv as [|b l Hb Hl IH]; intros m; simpl; [done|].
  rewrite IH, lin_insert_all by done. by rewrite Permutation_middle.
Qed.

Lemma lin_remove_all b (m : isl) k :
  isl_all m ≡ₚ b :: k → isl_all (lin_remove b m) ≡ₚ k.
Proof.
  intros Hm. assert (b ∈ isl_all m) as Hb by (rewrite Hm; by left).
  pose proof (isl_all_remove b m Hb) as Hr. simpl in Hr. rewrite Hm in Hr.
  by apply Permutation_cons_inv in Hr.
Qed.

Lemma lin_remove_list l (m : isl) k :
  isl_all m ≡ₚ l ++ k → isl_all (foldl (λ m b, lin_remove b m) m l) ≡ₚ k.
Proof.
  revert m. induction l as [|b l IH]; intros m Hm; simpl; [done|].
  apply IH. by apply lin_remove_all.
Qed.

(** ** Shrinking *)
Lemma ds_remove_all_frame σ bs c i :
  (∀ b, b ∈ bs → c ≠ slot_cap b) →
  let σ' := (ds_remove_all σ bs).1 in
  ds_byte σ' c i = ds_byte σ c i ∧ (ds_live (S:=S) σ c → ds_live (S:=S) σ' c).
Proof.
  revert σ. induction bs as [|b bs IH]; intros σ Hc; simpl; [done|].
  pose proof (ds_remove_frame σ (slot_cap b) c i ltac:(apply Hc; by left)) as [Hb Hl].
  destruct (ds_remove σ (slot_cap b)) as [σ1 st]. simpl in *.
  destruct (IH σ1) as [Hb' Hl']; [intros; apply Hc; by right|].
  destruct (ds_remove_all σ1 bs) as [σ2 sts]. simpl in *. rewrite Hb', Hb. auto.
Qed.

(** A slot cut at [n], and what is left of the slot that holds [n]. *)
Definition slot_cut (n : Z) b : seglin_slot C W :=
  Seglin_slot (sl_data b) (sl_cap_offset b) (sl_seg_offset b)
    (sl_seg_offset b + (n - sl_seg_offset b) - 1) (n - sl_seg_offset b).
Definition slot_keep (n : Z) b : list (seglin_slot C W) :=
  if decide (n - sl_seg_offset b = 0) then [] else [slot_cut n b].

Lemma slot_keep_elem n b x :
  x ∈ slot_keep n b → x = slot_cut n b ∧ n ≠ sl_seg_offset b.
Proof.
  unfold slot_keep. case_decide; [by intros ?%not_elem_of_nil|].
  intros ->%list_elem_of_singleton. split; [done|lia].
Qed.

Lemma slot_keep_tiles a n b rest :
  a ≤ sl_seg_offset b ≤ n → tiles a (sl_seg_offset b) rest → tiles a n (slot_keep n b ++ rest).
Proof.
  intros Hb Ht. unfold slot_keep. case_decide.
  - by replace n with (sl_seg_offset b) by lia.
  - simpl. rewrite (Permutation_cons_append rest _).
    apply (tiles_app _ (sl_seg_offset b)); [lia|done|]. apply tiles_one; simpl; lia.
Qed.

(** Content carried over from slots [l] to slots [l']. *)
Lemma slots_byte_refine σ σ' l l' n m off :
  ranges_ok l → tiles 0 m l' → 0 ≤ off < n → n ≤ m →
  (∀ x, x ∈ l' → covers off x → ∃ y, y ∈ l ∧ covers off y ∧ slot_cap y = slot_cap x ∧
     sl_cap_offset y = sl_cap_offset x ∧ sl_seg_offset y = sl_seg_offset x ∧
     let i := sl_cap_offset x + (off - sl_seg_offset x) in
     ds_byte (S:=S) σ' (slot_cap x) i = ds_byte (S:=S) σ (slot_cap x) i) →
  slots_byte σ' l' off = slots_byte σ l off.
Proof.
  intros Hl Hl' Hoff Hnm Hx. destruct (tiles_find _ _ _ off Hl' ltac:(lia)) as (x & _ & Hxin & Hcx).
  destruct (Hx x Hxin Hcx) as (y & Hy & Hcy & Hcap & Hco & Hso & Hb).
  rewrite (slots_byte_at σ' l' x off), (slots_byte_at σ l y off) by (apply Hl' || done).
  by rewrite Hcap, Hco, Hso.
Qed.

(** The slots after a cut at [n], over a store that kept what is needed. *)
Lemma shrink_slots σ σ' l d hits rest n total :
  tiles 0 total l → slots_ok σ l → l ≡ₚ d :: hits ++ rest → covers n d →
  (∀ x, x ∈ hits → r_hi d < r_lo x) → (∀ x, x ∈ rest → r_hi x < n) →
  (∀ x i, x ∈ rest → ds_byte (S:=S) σ' (slot_cap x) i = ds_byte (S:=S) σ (slot_cap x) i ∧
     ds_live (S:=S) σ' (slot_cap x)) →
  (n ≠ sl_seg_offset d → ds_live (S:=S) σ' (slot_cap d) ∧ ∀ i, i < n - sl_seg_offset d →
     ds_byte (S:=S) σ' (slot_cap d) i = ds_byte (S:=S) σ (slot_cap d) i) →
  tiles 0 n (slot_keep n d ++ rest) ∧ slots_ok σ' (slot_keep n d ++ rest) ∧
  ∀ off, 0 ≤ off < n → slots_byte σ' (slot_keep n d ++ rest) off = slots_byte σ l off.
Proof.
  intros Ht Hs Hp Hc Hhits Hrest Hbr Hbd. pose proof Ht as [Hok _]. pose proof Hp as Hp0.
  rewrite Hp in Ht, Hs. pose proof (tiles_bounds _ _ _ d Ht ltac:(by left)) as Hdb.
  apply slots_ok_cons_inv in Hs as ([Hco Hse] & _ & Hs & Hdc).
  apply slots_ok_app in Hs as (_ & Hsr & _). unfold covers in Hc. simpl in Hc, Hdb.
  assert (tiles 0 n (slot_keep n d ++ rest)) as Htn.
  { apply slot_keep_tiles; [lia|]. exact (tiles_cut 0 total n d hits rest Ht Hc Hhits Hrest). }
  split_and!; [done| |].
  - apply slots_ok_app. split_and!.
    + unfold slot_keep. case_decide; [split_and!; [done|constructor|by intros ? ?%not_elem_of_nil]|].
      split_and!; [apply Forall_singleton; split; [done|simpl; lia]|apply NoDup_singleton|].
      intros x ->%list_elem_of_singleton. apply Hbd. lia.
    + apply (slots_ok_mono σ); [done|]. intros x Hx _. by apply (Hbr x 0).
    + intros x y [-> _]%slot_keep_elem Hy He. apply (Hdc y); [apply elem_of_app; by right|].
      by rewrite <- He.
  - intros off Hoff. apply (slots_byte_refine _ _ _ _ n n); [done|done|done|lia|].
    intros x [[-> Hne]%slot_keep_elem|Hx]%elem_of_app Hcx.
    + exists d. unfold covers in *; simpl in *. split_and!; try done; [rewrite Hp0; by left|lia..|].
      apply Hbd; [done|lia].
    + exists x. split_and!; try done; [rewrite Hp0; right; apply elem_of_app; by right|].
      by apply Hbr.
Qed.

Lemma sl_shrink_first_spec σ (d : seglin_slot C W) n σ1 st stack start :
  ds_live (S:=S) σ (slot_cap d) →
  sl_shrink_first σ d (n - sl_seg_offset d) = (σ1, st, stack, start) →
  (∀ c i, c ≠ slot_cap d → ds_live (S:=S) σ c →
     ds_byte (S:=S) σ1 c i = ds_byte (S:=S) σ c i ∧ ds_live (S:=S) σ1 c) ∧
  (n ≠ sl_seg_offset d → ds_live (S:=S) σ1 (slot_cap d) ∧ ∀ i, i < n - sl_seg_offset d →
     ds_byte (S:=S) σ1 (slot_cap d) i = ds_byte (S:=S) σ (slot_cap d) i) ∧
  if decide (n - sl_seg_offset d = 0) then stack = [d] ∧ start = None
  else stack = [] ∧ start = Some d.
Proof.
  intros Hl. unfold sl_shrink_first. case_decide as Hz.
  - pose proof (λ c i, ds_remove_frame σ (slot_cap d) c i) as Hrm.
    destruct (ds_remove σ (slot_cap d)) as [σ' st']. simpl in Hrm. intros [= <- <- <- <-].
    split_and!; [|lia|done|done]. intros c i Hc Hlc. destruct (Hrm c i Hc) as [-> Hm]. auto.
  - pose proof (λ c i, ds_truncate_frame σ (slot_cap d) (n - sl_seg_offset d) c i) as Htf.
    pose proof (ds_truncate_live σ (slot_cap d) (n - sl_seg_offset d)) as Htl.
    destruct (ds_truncate σ _ _) as [σ' st']. simpl in *. intros [= <- <- <- <-].
    split_and!; [| |done|done].
    + intros c i Hc Hlc. rewrite Htf by (by left). auto.
    + intros _. split; [by apply Htl|]. intros i Hi. apply Htf. by right.
Qed.

Lemma sl_shrink_spec σ s n :
  lin_ok σ s → 0 ≤ n < total_size s →
  ∃ σ' s' st, sl_shrink σ s n = Some (σ', s', st) ∧ lin_ok σ' s' ∧
    total_size s' = n ∧ used_size s' = n ∧
    (∀ off, 0 ≤ off < n → lin_byte σ' s' off = lin_byte σ s off).
Proof.
  intros (Ht & Hs & Htot & Hmax & Hnr) Hn. unfold sl_shrink.
  destruct (tiles_search (sl_isl s) 0 (total_size s) n (total_size s)) as
    (d & hits & rest & -> & Hc & Hp & Hhits & Hrest); [done|lia|lia|].
  pose proof Ht as Htp. rewrite Hp in Htp. pose proof Hs as Hsp. rewrite Hp in Hsp.
  apply slots_ok_cons_inv in Hsp as (_ & Hdl & Hsp & Hdc).
  apply slots_ok_app in Hsp as (_ & Hsr & Hcd).
  assert (Hrhi : ∀ x, x ∈ rest → r_hi x < n).
  { intros x Hx. pose proof (tiles_bounds _ _ _ x Htp ltac:(right; apply elem_of_app; by right)).
    specialize (Hrest x Hx). unfold overlaps in Hrest. lia. }
  assert (Hhd : ∀ x, x ∈ hits → slot_cap d ≠ slot_cap x)
    by (intros x Hx He; apply (Hdc x); [apply elem_of_app; by left|done]).
  assert (Hhr : ∀ c x, c ∈ rest → x ∈ hits → slot_cap c ≠ slot_cap x)
    by (intros c x Hcr Hx He; by apply (Hcd x c)).
  assert (Hrd : ∀ x, x ∈ rest → slot_cap x ≠ slot_cap d)
    by (intros x Hx; apply Hdc, elem_of_app; by right).
  pose proof (λ σ', shrink_slots σ σ' _ d hits rest n _ Ht Hs Hp Hc
                (λ x Hx, proj1 (Hhits x Hx)) Hrhi) as Hfin.
  destruct (sl_shrink_first σ d _) as [[[σ1 st] stack] start] eqn:Hfirst.
  apply sl_shrink_first_spec in Hfirst as (Hb1 & Hd1 & Hsh); [|done].
  pose proof (ds_remove_all_frame σ1 hits) as Hra.
  destruct (ds_remove_all σ1 hits) as [σ2 sts]. simpl in Hra.
  destruct (Hfin σ2) as (Htn & Hsn & Hbn).
  { intros x i Hx. destruct (Hra (slot_cap x) i) as [-> Hl]; [auto|].
    destruct (Hb1 (slot_cap x) i) as [-> Hl1]; [auto|by apply Hsr|]. auto. }
  { intros [Hl1 Hd1']%Hd1. split; [by apply (Hra _ 0)|]. intros i Hi.
    destruct (Hra (slot_cap d) i) as [-> _]; auto. }
  do 3 eexists. split; [done|]. set (m := foldl _ _ _). set (m' := match start with Some _ => _ | None => m end).
  assert (isl_all m' ≡ₚ slot_keep n d ++ rest) as Hm'.
  { unfold m', m, slot_keep. case_decide as Hz; destruct Hsh as [-> ->].
    - apply lin_remove_list. rewrite Hp, reverse_Permutation. by rewrite (Permutation_app_comm hits [d]).
    - unfold covers in Hc. simpl in Hc. rewrite app_nil_r, lin_insert_all by (simpl; lia).
      apply Permutation_skip, lin_remove_all, lin_remove_list.
      rewrite Hp, reverse_Permutation. apply Permutation_middle. }
  split_and!; try done; simpl.
  - split_and!; simpl; [by rewrite Hm'|by rewrite Hm'|lia|done|done].
  - intros off Hoff. unfold lin_byte. simpl. rewrite <- (Hbn off Hoff). unfold slots_byte.
    rewrite (find_cover_perm off _ _ Hm'); [done|]. rewrite Hm'. apply Htn.
Qed.

(** ** Growing *)

(** A slot the block loop made. *)
Definition slot_new b : Prop :=
  slot_ok b ∧ 0 < sl_len b ∧ db_max_size (sl_data b) = sl_len b.

Lemma sl_grow_blocks_spec ds fuel ids i max new off :
  0 < max → off ≤ new → new - off ≤ Z.of_nat fuel →
  ∃ bs, sl_grow_blocks ds fuel ids i max new off = Some bs ∧ tiles off new bs ∧
    Forall slot_new bs ∧ (off < new ↔ bs ≠ []) ∧
    (Z.of_nat (length bs) - 1) * max < Z.max 1 (new - off).
Proof.
  intros Hmax. revert i off. induction fuel as [|fuel IH]; intros i off Hoff Hfuel.
  { simpl. rewrite decide_False by lia. exists []. replace off with new by lia.
    split_and!; [done|apply tiles_nil|done|by split; [lia|]|simpl; lia]. }
  cbn [sl_grow_blocks]. case_decide as Hlt; cycle 1.
  { exists []. replace off with new by lia.
    split_and!; [done|apply tiles_nil|done|by split; [lia|]|simpl; lia]. }
  set (len := if decide (off + max > new) then new - off else max).
  assert (0 < len ≤ new - off) as Hlen by (unfold len; case_decide; lia).
  set (b := Seglin_slot _ 0 off (off + len - 1) len).
  destruct (decide (off + max ≤ new)) as [Hle|Hgt].
  - destruct (IH (Datatypes.S i) (off + max)) as (bs & -> & Ht & Hn & Hne & Hl); [lia..|]. simpl.
    assert (len = max) as Hlm by (unfold len; rewrite decide_False; lia).
    exists (b :: bs). split_and!; [done| | |done|].
    + apply (tiles_app _ (off + max) _ [b] bs); [lia|apply tiles_one; simpl; lia|done].
    + constructor; [|done]. by split_and!; simpl; [|lia|].
    + destruct bs as [|b' bs]; [simpl; lia|].
      assert (off + max < new) as Hlt' by (by apply Hne). cbn [length] in *. nia.
  - assert (sl_grow_blocks ds fuel ids (Datatypes.S i) max new (off + max) = Some []) as ->.
    { destruct fuel; simpl; by rewrite decide_False by lia. }
    assert (len = new - off) as Hlm by (unfold len; rewrite decide_True; lia).
    simpl. exists [b]. split_and!; [done| | |done|].
    + apply tiles_one; simpl; lia.
    + constructor; [|constructor]. by split_and!; simpl; [|lia|].
    + simpl. lia.
Qed.

(** What stretching the last slot makes of the slots [l] that tile up to [total]:
    slots [base] that tile up to [lo]. *)
Definition stretched (total lo : Z) (l base : list (seglin_slot C W)) : Prop :=
  (base ≡ₚ l ∧ lo = total) ∨
  ∃ b len rest, l ≡ₚ b :: rest ∧ base ≡ₚ slot_expanded b len :: rest ∧
    sl_seg_end b = total - 1 ∧ lo = sl_seg_offset b + len ∧ total ≤ lo.

Lemma stretched_ok σ total lo l base :
  stretched total lo l base → tiles 0 total l → slots_ok σ l →
  tiles 0 lo base ∧ slots_ok σ base ∧
  ∀ x off, x ∈ base → covers off x → off < total →
    ∃ y, y ∈ l ∧ covers off y ∧ slot_cap y = slot_cap x ∧
      sl_cap_offset y = sl_cap_offset x ∧ sl_seg_offset y = sl_seg_offset x.
Proof.
  intros [[Hp ->]|(b & len & rest & Hl & Hb & Hend & -> & Hle)] Ht Hs.
  - rewrite Hp. split_and!; [done..|]. intros x off Hx Hc _. rewrite Hp in Hx. by exists x.
  - rewrite Hb. rewrite Hl in Ht, Hs. pose proof (tiles_bounds _ _ _ b Ht ltac:(by left)) as Hbd.
    simpl in Hbd. split_and!.
    + apply (tiles_last 0 total _ b); simpl; [done|lia..].
    + destruct Hs as ((Hb1 & Hf)%Forall_cons & Hnd & Hlive). split_and!.
      * constructor; [|done]. split; simpl; [apply Hb1|lia].
      * done.
      * intros x [->|Hx]%elem_of_cons; [apply (Hlive b); by left|apply Hlive; by right].
    + intros x off Hx Hc Hoff. rewrite Hb in Hx. apply elem_of_cons in Hx as [->|Hx].
      * exists b. unfold covers in *; simpl in *. split_and!; try done; [rewrite Hl; by left|lia..].
      * exists x. split_and!; try done. rewrite Hl. by right.
Qed.

Lemma sl_grow_expand_spec σ s new :
  lin_ok σ s → total_size s ≤ new →
  ∃ lo be, sl_grow_expand s new = Some (lo, be) ∧ total_size s ≤ lo ≤ new ∧
    match be with
    | None => lo = total_size s
    | Some (b, len) => b ∈ isl_all (sl_isl s) ∧ sl_seg_end b = total_size s - 1 ∧
        lo = sl_seg_offset b + len ∧ sl_len b ≤ len ∧ (total_size s < new → sl_len b < len)
    end.
Proof.
  intros (Ht & Hs & Htot & Hmax & Hnr) Hnew. unfold sl_grow_expand. case_decide as Hz; cycle 1.
  { exists (total_size s), None. split_and!; [done|lia|lia|done]. }
  destruct (tiles_search (sl_isl s) 0 (total_size s) (total_size s - 1) (total_size s)) as
    (b & hits & rest & -> & Hc & Hp & _); [done|lia|lia|]. simpl.
  assert (Hb : b ∈ isl_all (sl_isl s)) by (rewrite Hp; by left).
  pose proof (tiles_bounds _ _ _ b Ht Hb) as Hbd. destruct Hs as (Hf & _).
  rewrite Forall_forall in Hf. destruct (Hf b Hb) as [_ Hse].
  unfold covers in Hc. simpl in *.
  case_decide as Hlen; do 2 eexists; (split; [done|]); [|simpl; lia].
  case_decide; split_and!; try done; lia.
Qed.

Lemma zero_ends_frame σ (bs : list (seglin_slot C W)) c i :
  (∀ b, b ∈ bs → slot_cap b ≠ c ∨ i ≠ sl_cap_offset b + db_max_size (sl_data b) - 1) →
  let σ' := (zero_ends σ bs).1 in
  ds_byte (S:=S) σ' c i = ds_byte (S:=S) σ c i ∧ (ds_live (S:=S) σ c → ds_live (S:=S) σ' c).
Proof.
  revert σ. induction bs as [|b bs IH]; intros σ Hb; simpl; [done|].
  unfold zero_end. set (o := sl_cap_offset b + db_max_size (sl_data b) - 1).
  pose proof (ds_write_frame σ (slot_cap b) o (λ _, 0) 0 1 c i) as Hfr.
  pose proof (ds_write_live σ (slot_cap b) o (λ _, 0) 0 1 c) as Hl.
  destruct (ds_write σ _ o _ 0 1) as [σ1 st]. simpl in *.
  destruct (IH σ1) as [Hb' Hl']; [intros; apply Hb; by right|].
  destruct (zero_ends σ1 bs) as [σ2 sts]. simpl in *. rewrite Hb', Hfr; [auto|].
  destruct (Hb b ltac:(by left)) as [?|?]; [by left|right; fold o in H1; lia].
Qed.

Lemma zero_ends_live σ (bs : list (seglin_slot C W)) c : ds_live (S:=S) σ c → ds_live (S:=S) (zero_ends σ bs).1 c.
Proof.
  revert σ. induction bs as [|b bs IH]; intros σ Hc; simpl; [done|]. unfold zero_end.
  pose proof (ds_write_live σ (slot_cap b) (sl_cap_offset b + db_max_size (sl_data b) - 1) (λ _, 0) 0 1 c Hc) as Hl.
  destruct (ds_write σ _ _ _ 0 1) as [σ1 st]. simpl in *. specialize (IH σ1 Hl).
  by destruct (zero_ends σ1 bs).
Qed.

Lemma slots_allocated (bs : list (seglin_slot C W)) (caps : list (C * string)) :
  length caps = length bs → Forall slot_new bs →
  let bs' := zip_with slot_allocated bs caps in
  slot_cap <$> bs' = fst <$> caps ∧ Forall slot_new bs' ∧
  (∀ lo hi, tiles lo hi bs → tiles lo hi bs').
Proof.
  intros Hlen Hn bs'.
  assert (Hshape : Forall2 (λ b b', r_lo b = r_lo b' ∧ r_hi b = r_hi b' ∧ (slot_new b → slot_new b')) bs bs').
  { unfold bs'. clear Hn bs'. revert caps Hlen. induction bs as [|b bs IH]; intros [|cr caps] Hlen; try done; simpl.
    constructor; [by split_and!|]. apply IH. simpl in Hlen. lia. }
  split_and!.
  - unfold bs'. clear Hn Hshape bs'. revert caps Hlen. induction bs as [|b bs IH]; intros [|cr caps] Hlen; try done; simpl.
    f_equal. apply IH. simpl in Hlen. lia.
  - clear Hlen. induction Hshape as [|b b' k k' (_ & _ & Hb) _ IH]; [constructor|].
    inversion Hn; subst. constructor; auto.
  - clear Hlen Hn. intros lo hi [[Hv Ha] Hc]. split; [split|].
    + clear Ha Hc. induction Hshape as [|b b' k k' (E1 & E2 & _) _ IH]; [constructor|].
      inversion Hv as [|? ? Hb Hk]; subst. constructor; [|auto]. unfold valid in *. lia.
    + clear Hv Hc. induction Hshape as [|b b' k k' (E1 & E2 & _) Hk IH]; [constructor|].
      inversion Ha as [|? ? Hb Hk']; subst. constructor; [|auto].
      clear -Hk Hb E1 E2. induction Hk as [|x x' k k' (F1 & F2 & _) _ IH]; [constructor|].
      inversion Hb as [|? ? Hx Hb']; subst. constructor; [|auto]. unfold apart in *. lia.
    + intros off. rewrite <- Hc. clear -Hshape. split.
      * intros (x' & Hx & Hcx). apply list_elem_of_lookup in Hx as [j Hj].
        destruct (Forall2_lookup_r _ _ _ _ _ Hshape Hj) as (x & Hx & (E1 & E2 & _)).
        exists x. split; [by eapply list_elem_of_lookup_2|]. unfold covers in *. lia.
      * intros (x & Hx & Hcx). apply list_elem_of_lookup in Hx as [j Hj].
        destruct (Forall2_lookup_l _ _ _ _ _ Hshape Hj) as (x' & Hx & (E1 & E2 & _)).
        exists x'. split; [by eapply list_elem_of_lookup_2|]. unfold covers in *. lia.
Qed.

Definition expand_ok s (new lo : Z) (be : option (seglin_slot C W * Z)) : Prop :=
  total_size s ≤ lo ≤ new ∧
  match be with
  | None => lo = total_size s
  | Some (b, len) => b ∈ isl_all (sl_isl s) ∧ sl_seg_end b = total_size s - 1 ∧
      lo = sl_seg_offset b + len ∧ sl_len b ≤ len ∧ (total_size s < new → sl_len b < len)
  end.

Lemma expand_list_spec σ s new lo be :
  lin_ok σ s → expand_ok s new lo be →
  stretched (total_size s) lo (isl_all (sl_isl s)) (isl_all (expand_list s be)) ∧
  ∀ x, x ∈ expand_slots be → x ∈ isl_all (expand_list s be).
Proof.
  intros (Ht & _) [Hlo Hbe]. destruct be as [[b len]|]; simpl.
  - destruct Hbe as (Hb & Hend & -> & Hlen & _).
    pose proof (isl_all_remove b (sl_isl s) Hb) as Hp.
    pose proof (tiles_bounds _ _ _ b Ht Hb) as Hbd. simpl in Hp, Hbd.
    pose proof (lin_remove_all b (sl_isl s) _ Hp) as Hr. unfold lin_remove in Hr.
    assert (isl_all (lin_insert (slot_expanded b len) (lin_remove b (sl_isl s))) ≡ₚ
            slot_expanded b len :: isl_all (lin_remove b (sl_isl s))) as Hi.
    { apply lin_insert_all. simpl. lia. }
    split.
    + right. exists b, len, (isl_all (lin_remove b (sl_isl s))). split_and!; try done; lia.
    + intros x ->%list_elem_of_singleton. rewrite Hi. by left.
  - split; [by left|]. by intros ? ?%not_elem_of_nil.
Qed.

(** The byte at the end of a stretched slot is new, unless nothing was added. *)
Lemma zero_end_new σ s new lo be x off :
  lin_ok σ s → expand_ok s new lo be → slots_ok σ (isl_all (expand_list s be)) →
  x ∈ isl_all (expand_list s be) → covers off x → off < total_size s →
  total_size s < new ∨ off < total_size s - 1 →
  ∀ z, z ∈ expand_slots be → slot_cap z ≠ slot_cap x ∨
    sl_cap_offset x + (off - sl_seg_offset x) ≠ sl_cap_offset z + db_max_size (sl_data z) - 1.
Proof.
  intros Hs Hbe Hok Hx Hc Hoff Hnew z Hz.
  destruct (expand_list_spec σ s new lo be Hs Hbe) as [_ Hin].
  destruct be as [[b len]|]; simpl in Hz; [|by apply not_elem_of_nil in Hz].
  apply list_elem_of_singleton in Hz as ->.
  destruct (decide (sl_cap_offset x + (off - sl_seg_offset x) = len - 1)) as [Hij|Hij]; cycle 1.
  { right. intros He. apply Hij. rewrite He. simpl. destruct Hs as (_ & (Hf & _) & _).
    rewrite Forall_forall in Hf. destruct (Hf b) as [-> _]; [apply Hbe|lia]. }
  left. intros He. exfalso.
  specialize (Hin (slot_expanded b len) ltac:(by left)).
  destruct Hok as (_ & Hnd & _).
  assert (x = slot_expanded b len) as ->.
  { apply list_elem_of_lookup in Hx as [j Hj], Hin as [k Hk].
    assert (j = k) as <-; [|congruence].
    eapply (NoDup_lookup _ _ _ (slot_cap x) Hnd); rewrite list_lookup_fmap, ?Hj, ?Hk; simpl; congruence. }
  destruct Hbe as (Hlo & Hb & Hend & Hl & Hlen & Hlt). destruct Hs as (_ & (Hf & _) & _).
  rewrite Forall_forall in Hf. destruct (Hf b Hb) as [Hco Hse].
  unfold covers in Hc. simpl in *. destruct Hnew as [Hn|Hn]; [specialize (Hlt Hn)|]; lia.
Qed.

Lemma sl_grow_commit_spec σ s new lo be bs caps :
  lin_ok σ s → expand_ok s new lo be → tiles lo new bs → Forall slot_new bs →
  length caps = length bs → NoDup (fst <$> caps) →
  (∀ c, c ∈ fst <$> caps → ds_live (S:=S) σ c ∧ ∀ b, b ∈ isl_all (sl_isl s) → slot_cap b ≠ c) →
  let '(σ', s', _) := sl_grow_commit σ s new be bs caps in
  lin_ok σ' s' ∧ total_size s' = new ∧ used_size s' = used_size s ∧
  ∀ off, 0 ≤ off < total_size s → total_size s < new ∨ off < total_size s - 1 →
    lin_byte σ' s' off = lin_byte σ s off.
Proof.
  intros Hs Hbe Htb Hnb Hlen Hnd Hcaps. pose proof Hs as (Ht & Hso & Htot & Hmax & Hnr).
  destruct (slots_allocated bs caps Hlen Hnb) as (Hcs & Hn' & Ht').
  destruct (expand_list_spec σ s new lo be Hs Hbe) as [Hst Hexp].
  destruct (stretched_ok σ _ _ _ _ Hst Ht Hso) as (Htx & Hsx & Hrx).
  unfold sl_grow_commit.
  set (bs' := zip_with slot_allocated bs caps) in *.
  pose proof (λ c i, zero_ends_frame σ (expand_slots be ++ bs') c i) as Hfr.
  pose proof (zero_ends_live σ (expand_slots be ++ bs')) as Hlive.
  destruct (zero_ends σ (expand_slots be ++ bs')) as [σ' sts]. simpl in Hfr, Hlive.
  set (m := foldl _ _ _). unfold lin_byte. simpl.
  assert (Hm : isl_all m ≡ₚ isl_all (expand_list s be) ++ bs').
  { unfold m. rewrite lin_insert_list; [apply Permutation_app_comm|]. apply (Ht' _ _ Htb). }
  assert (Htm : tiles 0 new (isl_all m)).
  { rewrite Hm. apply (tiles_app _ lo); [destruct Hbe; lia|done|by apply Ht']. }
  assert (Hdis : ∀ x y, x ∈ isl_all (expand_list s be) → y ∈ bs' → slot_cap x ≠ slot_cap y).
  { intros x y Hx Hy He. assert (slot_cap y ∈ fst <$> caps) as Hyc
      by (rewrite <- Hcs; by apply list_elem_of_fmap_2).
    apply Hcaps in Hyc as [_ Hyc]. pose proof (tiles_bounds _ _ _ x Htx Hx) as Hxb.
    destruct (Hrx x (r_lo x) Hx) as (z & Hz & _ & Hzc & _); [unfold covers; lia| |].
    - destruct Hst as [[_ ->]|(b & len & rest & Hl & Hbp & Hend & -> & Hle)]; [lia|].
      rewrite Hbp in Hx. rewrite Hl in Ht. apply elem_of_cons in Hx as [->|Hx].
      + pose proof (tiles_bounds _ _ _ b Ht ltac:(by left)) as Hbb. simpl in *. lia.
      + pose proof (tiles_bounds _ _ _ x Ht ltac:(by right)). lia.
    - apply (Hyc z Hz). congruence. }
  split; [split_and!; simpl; [done| |destruct Hbe; lia|done|done]|split_and!; [done..|]].
  - rewrite Hm. apply slots_ok_app. split_and!; [|split_and!|done].
    + apply (slots_ok_mono σ); [done|]. intros; by apply Hlive.
    + eapply Forall_impl; [exact Hn'|]. by intros b [? _].
    + by rewrite Hcs.
    + intros b Hb. apply Hlive, Hcaps. rewrite <- Hcs. by apply list_elem_of_fmap_2.
  - intros off Hoff Hnew. apply (slots_byte_refine σ σ' _ _ (total_size s) new);
      [apply Ht|done|lia|destruct Hbe; lia|].
    intros x Hx Hc. rewrite Hm in Hx. apply elem_of_app in Hx as [Hx|Hx].
    + destruct (Hrx x off Hx Hc ltac:(lia)) as (y & Hy & Hyc & Hyp).
      exists y. split_and!; try done; try apply Hyp. simpl. apply Hfr.
      intros z [Hz|Hz]%elem_of_app; [|left; intros He; by apply (Hdis x z)].
      eapply zero_end_new; [done|done|done|done|done|lia|done|done].
    + pose proof (tiles_bounds _ _ _ x (Ht' _ _ Htb) Hx) as Hb.
      unfold covers in Hc. destruct Hbe. lia.
Qed.

Lemma lin_ok_store σ σ' s :
  lin_ok σ s → (∀ c, ds_live (S:=S) σ c → ds_live (S:=S) σ' c) → lin_ok σ' s.
Proof.
  intros (Ht & Hs & ?) Hl. split_and!; try done; [|lia..]. apply (slots_ok_mono σ); auto.
Qed.

Lemma lin_byte_store σ σ' s :
  lin_ok σ s → (∀ c i, ds_live (S:=S) σ c →
                  (∃ b off, b ∈ isl_all (sl_isl s) ∧ c = slot_cap b ∧ covers off b ∧
                     i = sl_cap_offset b + (off - sl_seg_offset b)) →
                  ds_byte (S:=S) σ' c i = ds_byte (S:=S) σ c i) →
  ∀ off, lin_byte σ' s off = lin_byte σ s off.
Proof.
  intros (Ht & (_ & _ & Hl) & _) Hb off. apply slots_byte_ext. intros b i Hbi Hc ->.
  apply Hb; [by apply Hl|]. by exists b, off.
Qed.

(** Stretching the last block does not touch what it holds. *)
Lemma expand_truncate_frame σ s new lo b len :
  lin_ok σ s → expand_ok s new lo (Some (b, len)) →
  let σ' := (ds_truncate σ (slot_cap b) len).1 in
  lin_ok σ' s ∧ ∀ off, lin_byte σ' s off = lin_byte σ s off.
Proof.
  intros Hs (Hlo & Hb & Hend & Hl & Hlen & _) σ'. split.
  - apply (lin_ok_store σ); [done|]. apply ds_truncate_live.
  - apply lin_byte_store; [done|]. intros c i _ (x & off & Hx & -> & Hc & ->).
    apply ds_truncate_frame. destruct Hs as (Ht & (Hf & Hnd & _) & _).
    rewrite Forall_forall in Hf. destruct (Hf x Hx) as [Hco Hse].
    unfold covers in Hc. simpl in Hc.
    destruct (decide (off - sl_seg_offset x < len)); [right; lia|left]. intros He.
    assert (x = b) as ->; [|lia].
    apply list_elem_of_lookup in Hx as [j Hj], Hb as [k Hk].
    assert (j = k) as <-; [|congruence].
    eapply (NoDup_lookup _ _ _ (slot_cap x) Hnd); rewrite list_lookup_fmap, ?Hj, ?Hk; simpl; congruence.
Qed.

(** Growing from the first call of the data service on. *)
Lemma sl_grow_run_spec σ s new lo be bs :
  lin_ok σ s → expand_ok s new lo be → tiles lo new bs → Forall slot_new bs →
  be ≠ None ∨ bs ≠ [] →
  ∃ σ' s' st, sl_grow_run σ s new be bs = Some (σ', s', st) ∧ lin_ok σ' s' ∧
    used_size s' = used_size s ∧ (total_size s' = new ∨ s' = s ∧ op_st st = OP_STATE_FAILURE) ∧
    ∀ off, 0 ≤ off < total_size s → total_size s < new ∨ off < total_size s - 1 →
      lin_byte σ' s' off = lin_byte σ s off.
Proof.
  intros Hs Hbe Htb Hnb Hne. unfold sl_grow_run.
  destruct (match be with Some _ => _ | None => _ end) as [σ1 sts1] eqn:Hg1.
  assert (lin_ok σ1 s ∧ (∀ off, lin_byte σ1 s off = lin_byte σ s off) ∧ (be ≠ None → sts1 ≠ []))
    as (Hs1 & Hb1 & Hsts1).
  { destruct be as [[b len]|]; [|by injection Hg1 as <- <-].
    pose proof (expand_truncate_frame σ s new lo b len Hs Hbe) as Hfr.
    destruct (ds_truncate σ (slot_cap b) len) as [σ1' st]. injection Hg1 as <- <-. simpl in Hfr.
    split_and!; [apply Hfr..|done]. }
  destruct (decide (Z.of_nat (length bs) > 0)) as [Hn|Hn].
  - unfold sl_grow_reqs. rewrite (decide_False (P := n_rid_default s = 0)) by (apply Hs). cbn [mbind option_bind].
    set (reqs := imap _ bs).
    pose proof (λ c i, rs_request_frame σ1 (rsq s) reqs
      (if decide (n_rid_default s > Z.of_nat (length bs)) then Z.of_nat (length bs) else n_rid_default s) c i) as Hrf.
    pose proof (rs_request_caps σ1 (rsq s) reqs
      (if decide (n_rid_default s > Z.of_nat (length bs)) then Z.of_nat (length bs) else n_rid_default s)) as Hrc.
    destruct (rs_data_request σ1 _ _ _) as [[σ2 caps] st2]. simpl in Hrf. cbn [mbind option_bind].
    assert (lin_ok σ2 s) as Hs2 by (apply (lin_ok_store σ1); [done|]; intros c Hc; by apply (Hrf c 0)).
    assert (∀ off, lin_byte σ2 s off = lin_byte σ s off) as Hb2.
    { intros off. rewrite <- Hb1. apply lin_byte_store; [done|]. intros c i Hc _. by apply Hrf. }
    assert (sts1 ++ [st2] ≠ []) as Hnn by (by destruct sts1).
    destruct (sts1 ++ [st2]) as [|st0 sts] eqn:Hsts; [done|].
    case_decide as Hw; cycle 1.
    { do 3 eexists. split; [done|]. rewrite op_failure_state. split_and!; auto. }
    rewrite opque_waitall_success in Hw.
    destruct Hrc as (Hlen & Hnd & Hcaps).
    { apply Hw. rewrite <- Hsts. apply elem_of_app. right. by left. }
    unfold reqs in Hlen. rewrite length_imap in Hlen.
    pose proof (sl_grow_commit_spec σ2 s new lo be bs caps Hs2 Hbe Htb Hnb Hlen Hnd) as Hc.
    destruct (sl_grow_commit σ2 s new be bs caps) as [[σ3 s3] st3].
    destruct Hc as (Hs3 & Ht3 & Hu3 & Hb3).
    { intros c Hc. destruct (Hcaps c Hc) as [Hnl Hl]. split; [done|]. intros b Hb He.
      apply Hnl. rewrite <- He. destruct Hs1 as (_ & (_ & _ & Hl1) & _). by apply Hl1. }
    do 3 eexists. split; [done|]. split_and!; auto. intros off Hoff Hnew. by rewrite Hb3, Hb2.
  - assert (bs = []) as -> by (destruct bs; [done|simpl in Hn; lia]).
    cbn [mbind option_bind]. rewrite app_nil_r. destruct Hne as [Hne|]; [|done]. specialize (Hsts1 Hne).
    destruct sts1 as [|st0 sts]; [done|].
    case_decide as Hw; cycle 1.
    { do 3 eexists. split; [done|]. rewrite op_failure_state. split_and!; auto. }
    pose proof (sl_grow_commit_spec σ1 s new lo be [] [] Hs1 Hbe Htb Hnb eq_refl (NoDup_nil_2)) as Hc.
    destruct (sl_grow_commit σ1 s new be [] []) as [[σ3 s3] st3].
    destruct Hc as (Hs3 & Ht3 & Hu3 & Hb3); [by intros c ?%not_elem_of_nil|].
    do 3 eexists. split; [done|]. split_and!; auto. intros off Hoff Hnew. by rewrite Hb3, Hb1.
Qed.

Lemma sl_grow_spec ids σ s arg new :
  lin_ok σ s → new = (if decide (arg < 0) then - arg else arg) → total_size s ≤ new →
  total_size s < new ∨
    (∃ b, b ∈ isl_all (sl_isl s) ∧ sl_seg_end b = total_size s - 1 ∧ sl_len b < max_block_size s) →
  ∃ σ' s' st, sl_grow ids σ s arg = Some (σ', s', st) ∧ lin_ok σ' s' ∧
    used_size s' = used_size s ∧ (total_size s' = new ∨ s' = s ∧ op_st st = OP_STATE_FAILURE) ∧
    ∀ off, 0 ≤ off < total_size s → total_size s < new ∨ off < total_size s - 1 →
      lin_byte σ' s' off = lin_byte σ s off.
Proof.
  intros Hs Hnew Hle Hroom. unfold sl_grow. rewrite <- Hnew.
  rewrite decide_False by lia. destruct Hs as (Ht & Hso & Htot & Hmax & Hnr) eqn:E. clear E.
  rewrite decide_False by lia.
  destruct (sl_grow_expand_spec σ s new) as (lo & be & Hexp & Hlo & Hbe); [done|done|].
  rewrite Hexp. simpl.
  destruct (sl_grow_blocks_spec (sl_ds s) (Z.to_nat (new - lo)) ids 0 (max_block_size s) new lo)
    as (bs & -> & Htb & Hnb & Hne & _); [done|lia|lia|]. simpl.
  apply (sl_grow_run_spec σ s new lo be bs); try done.
  destruct be as [[b len]|]; [by left|right]. apply Hne. subst lo.
  destruct Hroom as [?|(b & Hb & Hend & Hlen)]; [done|]. exfalso.
  unfold sl_grow_expand in Hexp. pose proof (tiles_bounds _ _ _ b Ht Hb) as Hbd. simpl in Hbd.
  rewrite decide_True in Hexp by lia.
  destruct (tiles_search (sl_isl s) 0 (total_size s) (total_size s - 1) (total_size s)) as
    (d & hits & rest & Hse & Hc & Hp & _); [done|lia|lia|]. rewrite Hse in Hexp. simpl in Hexp.
  assert (d = b) as ->.
  { apply (ranges_ok_inj (isl_all (sl_isl s)) d b (total_size s - 1)); [apply Ht|rewrite Hp; by left|done|done|].
    unfold covers; simpl. lia. }
  by rewrite decide_True in Hexp.
Qed.

(** C16: resizing a segment always returns, keeps the slots a tiling of the new
    size by distinct live allocations (or, on failure, everything as it was),
    and keeps every byte below both the old and the new size. *)
Theorem sl_truncate_correct ids σ s n :
  lin_ok σ s → 0 ≤ n →
  ∃ σ' s' st, sl_truncate ids σ s n = Some (σ', s', st) ∧ lin_ok σ' s' ∧
    (total_size s' = n ∨ s' = s ∧ op_st st = OP_STATE_FAILURE) ∧
    ∀ off, 0 ≤ off < Z.min (total_size s) n → lin_byte σ' s' off = lin_byte σ s off.
Proof.
  intros Hs Hn. unfold sl_truncate. rewrite decide_False by lia. case_decide as Hlt.
  - destruct (sl_shrink_spec σ s n Hs) as (σ' & s' & st & -> & Hs' & Ht & _ & Hb); [lia|].
    exists σ', s', st. split_and!; auto. intros off Hoff. apply Hb. lia.
  - case_decide as Hgt.
    + destruct (sl_grow_spec ids σ s n n Hs) as (σ' & s' & st & -> & Hs' & _ & Hc & Hb);
        [by rewrite decide_False by lia|lia|by left|].
      exists σ', s', st. split_and!; auto. intros off Hoff. apply Hb; [lia|by left].
    + do 3 eexists. split; [done|]. split_and!; [done|left; lia|done].
Qed.

(** The request and slot tables [_sl_grow] allocates, of
    [(new_size - total_size) / max_block_size + 1] entries, hold every new slot,
    and the slots' sizes are positive. *)
Theorem sl_grow_table_fits ids σ s new lo be :
  lin_ok σ s → total_size s ≤ new → sl_grow_expand s new = Some (lo, be) →
  ∃ bs, sl_grow_blocks (sl_ds s) (Z.to_nat (new - lo)) ids 0 (max_block_size s) new lo = Some bs ∧
    Z.of_nat (length bs) ≤ (new - total_size s) `quot` max_block_size s + 1 ∧
    Forall (λ b, 0 < sl_len b) bs.
Proof.
  intros Hs Hle Hexp. destruct (sl_grow_expand_spec σ s new Hs Hle) as (lo' & be' & He & Hlo & _).
  rewrite Hexp in He. injection He as <- <-. destruct Hs as (_ & _ & Htot & Hmax & Hnr).
  destruct (sl_grow_blocks_spec (sl_ds s) (Z.to_nat (new - lo)) ids 0 (max_block_size s) new lo)
    as (bs & Hbs & _ & Hn & Hne & Hl); [done|lia|lia|].
  exists bs. split_and!; [done| |].
  - rewrite Z.quot_div_nonneg by lia.
    destruct bs as [|b bs]; [simpl; pose proof (Z.div_pos (new - total_size s) (max_block_size s)); lia|].
    assert (lo < new) by (by apply Hne).
    assert (Z.of_nat (length (b :: bs)) - 1 ≤ (new - total_size s) `div` max_block_size s); [|lia].
    apply Z.div_le_lower_bound; [done|]. rewrite Z.mul_comm. lia.
  - eapply Forall_impl; [exact Hn|]. by intros b (_ & ? & _).
Qed.

(** Reserving exactly the space a segment already has is not the no-op it
    is meant to be: when the last block is full the code waits for an operation
    it never made, and otherwise a success has overwritten the last byte of the
    segment with zero. *)
Theorem sl_grow_reserve_current ids σ s b :
  lin_ok σ s → b ∈ isl_all (sl_isl s) → sl_seg_end b = total_size s - 1 →
  (max_block_size s ≤ sl_len b → sl_grow ids σ s (- total_size s) = None) ∧
  (sl_len b < max_block_size s → ∃ σ' s' st, sl_grow ids σ s (- total_size s) = Some (σ', s', st) ∧
     (op_st st = OP_STATE_SUCCESS → lin_byte σ' s' (total_size s - 1) = 0)).
Proof.
  intros Hs Hb Hend. pose proof Hs as (Ht & (Hf & _) & Htot & Hmax & Hnr).
  rewrite Forall_forall in Hf. destruct (Hf b Hb) as [Hco Hse].
  pose proof (tiles_bounds _ _ _ b Ht Hb) as Hbd. simpl in Hbd.
  unfold sl_grow. rewrite (decide_True (P:=- total_size s < 0)) by lia.
  rewrite Z.opp_involutive, decide_False, decide_False by lia.
  destruct (tiles_search (sl_isl s) 0 (total_size s) (total_size s - 1) (total_size s)) as
    (d & hits & rest & Hse' & Hc & Hp & _); [done|lia|lia|].
  assert (d = b) as ->.
  { apply (ranges_ok_inj (isl_all (sl_isl s)) d b (total_size s - 1)); [apply Ht|rewrite Hp; by left|done|done|].
    unfold covers; simpl. lia. }
  unfold sl_grow_expand. rewrite (decide_True (P:=total_size s > 0)), Hse' by lia. simpl. split; intros Hlen.
  - rewrite (decide_False (P:=sl_len b < max_block_size s)) by lia. simpl.
    replace (sl_seg_end b + 1) with (total_size s) by lia.
    rewrite Z.sub_diag. simpl. by rewrite decide_False by lia.
  - rewrite (decide_True (P:=sl_len b < max_block_size s)) by lia.
    rewrite (decide_False (P:=_ > max_block_size s)) by lia. simpl.
    replace (sl_seg_offset b + (total_size s - sl_seg_offset b)) with (total_size s) by lia.
    rewrite Z.sub_diag. simpl. rewrite decide_False by lia. simpl.
    set (len := total_size s - sl_seg_offset b).
    assert (expand_ok s (total_size s) (total_size s) (Some (b, len))) as Hbe
      by (unfold expand_ok, len; split_and!; try done; lia).
    destruct (expand_truncate_frame σ s (total_size s) (total_size s) b len Hs Hbe) as [Hs1 _].
    unfold sl_grow_run. destruct (ds_truncate σ (slot_cap b) len) as [σ1 st1]. simpl in *.
    case_decide as Hw; cycle 1.
    { do 3 eexists. split; [done|]. by rewrite op_failure_state. }
    unfold sl_grow_commit. simpl. unfold zero_end. simpl.
    set (b' := slot_expanded b len).
    pose proof (ds_write_byte σ1 (slot_cap b') (sl_cap_offset b + len - 1) (λ _, 0) 0 1 (len - 1)) as Hz.
    destruct (ds_write σ1 (slot_cap b') _ _ 0 1) as [σ2 st2]. simpl in Hz.
    do 3 eexists. split; [done|]. case_decide as Hw2; [intros _|by rewrite op_failure_state].
    rewrite opque_waitall_success in Hw2.
    assert (isl_all (lin_insert b' (lin_remove b (sl_isl s))) ≡ₚ b' :: hits ++ rest) as Hp'.
    { rewrite lin_insert_all by (unfold b'; simpl; lia). apply Permutation_skip. by apply lin_remove_all. }
    unfold lin_byte. simpl. rewrite (slots_byte_at σ2 _ b').
    + simpl. rewrite Hco. replace (0 + (total_size s - 1 - sl_seg_offset b)) with (len - 1) by (unfold len; lia).
      apply Hz; [apply Hw2; by left|lia].
    + rewrite Hp'. rewrite Hp in Ht. apply (tiles_last 0 (total_size s) (total_size s) b b') in Ht;
        [apply Ht|unfold b'; simpl; lia..].
    + rewrite Hp'. by left.
    + unfold covers, b'. simpl. unfold len. lia.
Qed.
End seglin_inv.
