(* ===== verification/SegLinearRw.v ===== *)
(** * Linear segments: reading and writing

    A request becomes one data-service operation per block it meets.  The
    operations of an extent that meets a single block are only queued once the
    queue exists, and the queue is only made by an extent with several. *)
From stdpp Require Import strings gmap.
From S2P Require Import Prelude Isl Seg Inip DataBlock DataStore SegLinear.
#[local] Open Scope Z_scope.

Section lin_rw.
Context {C W Q S : Type} `{!CapSet C W, !DataStore C Q S, !Gop, !ISL (seglin_slot C W)}.
Abbreviation slot := (seglin_slot C W).
Abbreviation lin := (seglin_priv C W Q).

(** A [ds_read] or [ds_write] ready to run. *)
Record lin_op := Lin_op { lop_cap : C; lop_start : Z; lop_bpos : Z; lop_len : Z }.

(** The loop variables of the block loop: the last operation, the queue once it
    exists, and the buffer position. *)
Record lin_rw := Lin_rw { rw_gop : option lin_op; rw_q : option (list lin_op); rw_bpos : Z }.

Definition lin_op_of (lo hi : Z) (b : slot) (bpos : Z) : lin_op :=
  let start := if decide (lo ≤ sl_seg_offset b) then 0 else lo - sl_seg_offset b in
  let last := if decide (hi >= sl_seg_end b) then sl_len b - 1 else hi - sl_seg_offset b in
  let blen := last - start + 1 in
  Lin_op (slot_cap b) (start + sl_cap_offset b) bpos blen.

(** One pass per block [b]; [bs] is what the iterator still returns. *)
Fixpoint lin_blocks (lo hi : Z) (bs : list slot) (st : lin_rw) : lin_rw :=
  match bs with
  | [] => st
  | b :: bs =>
      let o := lin_op_of lo hi b (rw_bpos st) in
      let q := match bs, rw_q st with _ :: _, None => Some [] | _, q => q end in
      let q := match q with Some l => Some (l ++ [o]) | None => None end in
      lin_blocks lo hi bs (Lin_rw (Some o) q (rw_bpos st + lop_len o))
  end.

Definition lin_iov (s : lin) (st : lin_rw) (v : ex_iovec) : lin_rw :=
  let lo := iov_offset v in
  let hi := lo + iov_len v - 1 in
  lin_blocks lo hi (isl_search (Some lo) (Some hi) (sl_isl s)) st.

(** The operations that are waited for; [None] is the dummy failing one. *)
Definition lin_queued (s : lin) (iov : list ex_iovec) (boff : Z) : option (list lin_op) :=
  let st := foldl (lin_iov s) (Lin_rw None None boff) iov in
  match rw_q st with
  | None => (λ o, [o]) <$> rw_gop st
  | Some l => Some l
  end.

Fixpoint lin_run_reads (σ : S) (ops : list lin_op) (buf : tbuffer) : S * tbuffer * list op_status :=
  match ops with
  | [] => (σ, buf, [])
  | o :: ops =>
      let '(σ, buf, st) := ds_read σ (lop_cap o) (lop_start o) buf (lop_bpos o) (lop_len o) in
      let '(σ, buf, sts) := lin_run_reads σ ops buf in (σ, buf, st :: sts)
  end.

Fixpoint lin_run_writes (σ : S) (ops : list lin_op) (buf : tbuffer) : S * list op_status :=
  match ops with
  | [] => (σ, [])
  | o :: ops =>
      let '(σ, st) := ds_write σ (lop_cap o) (lop_start o) buf (lop_bpos o) (lop_len o) in
      let '(σ, sts) := lin_run_writes σ ops buf in (σ, st :: sts)
  end.

(** [seglin_read_func].  [state_code] is the value of an operation state, which
    the code compares with 0; both branches return success.  The second result
    is the state of the wait, which the code drops. *)
Definition seglin_read_func (state_code : op_state → Z) (σ : S) (s : lin) (iov : list ex_iovec)
    (buf : tbuffer) (boff : Z) : S * lin * tbuffer * op_state * op_status :=
  let '(σ, buf, err) :=
    match lin_queued s iov boff with
    | Some ops => let '(σ, buf, sts) := lin_run_reads σ ops buf in (σ, buf, opque_waitall sts)
    | None => (σ, buf, op_st op_failure_status)
    end in
  (σ, if decide (state_code err = 0) then s else lin_add_error s, buf, err, op_success_status).

(** [seglin_write_op] and waiting for it. *)
Definition seglin_write_op (σ : S) (s : lin) (iov : list ex_iovec) (buf : tbuffer) (boff : Z)
    : S * op_state :=
  match lin_queued s iov boff with
  | Some ops => let '(σ, sts) := lin_run_writes σ ops buf in (σ, opque_waitall sts)
  | None => (σ, op_st op_failure_status)
  end.

(** The growth before a write; its status is not looked at. *)
Definition seglin_write_grow (ids : nat → Z) (σ : S) (s : lin) (maxpos : Z) : option (S * lin) :=
  if decide (maxpos >= total_size s) then
    let new_size := maxpos + excess_block_size s in
    if decide (total_size s < new_size)
    then '(σ, s, _) ← sl_truncate ids σ s new_size; Some (σ, s)
    else Some (σ, s)
  else Some (σ, s).

Definition seglin_write_func (ids : nat → Z) (σ : S) (s : lin) (iov : list ex_iovec)
    (buf : tbuffer) (boff : Z) : option (S * lin * op_status) :=
  let maxpos := iov_maxpos iov in
  '(σ, s) ← seglin_write_grow ids σ s maxpos;
  let '(σ, err) := seglin_write_op σ s iov buf boff in
  let s := if decide (used_size s ≤ maxpos) then lin_set_sizes s (maxpos + 1) (total_size s) else s in
  Some (if decide (err = OP_STATE_SUCCESS) then (σ, s, op_success_status)
        else (σ, lin_add_error s, op_failure_status)).

(** ** What is queued *)

(** All the operations of a request, extent by extent. *)
Fixpoint lin_block_ops (lo hi : Z) (bs : list slot) (bpos : Z) : list lin_op * Z :=
  match bs with
  | [] => ([], bpos)
  | b :: bs => let o := lin_op_of lo hi b bpos in
               let '(ops, p) := lin_block_ops lo hi bs (bpos + lop_len o) in (o :: ops, p)
  end.
Fixpoint lin_plan (s : lin) (iov : list ex_iovec) (bpos : Z) : list (list lin_op) :=
  match iov with
  | [] => []
  | v :: iov =>
      let lo := iov_offset v in let hi := lo + iov_len v - 1 in
      let '(ops, p) := lin_block_ops lo hi (isl_search (Some lo) (Some hi) (sl_isl s)) bpos in
      ops :: lin_plan s iov p
  end.

(** The groups from the first one with at least two operations on. *)
Fixpoint lin_from_multi (gs : list (list lin_op)) : list (list lin_op) :=
  match gs with
  | [] => []
  | (_ :: _ :: _) :: _ => gs
  | _ :: gs => lin_from_multi gs
  end.

Lemma lin_blocks_spec lo hi bs st :
  let '(ops, p) := lin_block_ops lo hi bs (rw_bpos st) in
  rw_bpos (lin_blocks lo hi bs st) = p ∧
  rw_gop (lin_blocks lo hi bs st) = match last ops with Some o => Some o | None => rw_gop st end ∧
  rw_q (lin_blocks lo hi bs st) = match rw_q st with
                                  | Some l => Some (l ++ ops)
                                  | None => match ops with _ :: _ :: _ => Some ops | _ => None end
                                  end.
Proof.
  revert st. induction bs as [|b bs IH]; intros st; cbn [lin_block_ops lin_blocks].
  { by destruct (rw_q st) as [l|]; rewrite ?app_nil_r. }
  set (o := lin_op_of lo hi b (rw_bpos st)).
  set (st' := Lin_rw (Some o) _ _). specialize (IH st'). unfold st' in IH. cbn [rw_bpos rw_gop rw_q] in IH. fold st' in IH.
  destruct (lin_block_ops lo hi bs (rw_bpos st + lop_len o)) as [ops p] eqn:Hops.
  destruct IH as (-> & -> & ->). split; [done|]. split.
  - rewrite (last_cons o ops). by destruct (last ops).
  - destruct bs as [|b' bs].
    + injection Hops as <- <-. simpl. destruct (rw_q st); [by rewrite app_nil_r|done].
    + cbn [lin_block_ops] in Hops. destruct (lin_block_ops lo hi bs _) as [ops' p'].
      injection Hops as <- <-. destruct (rw_q st) as [l|]; simpl; [by rewrite <- app_assoc|done].
Qed.

(** What a request really runs.  Before the first extent that meets two or
    more blocks, the operations of every extent are overwritten and lost: the
    queue holds exactly the operations from that extent on; with no such extent
    only the last operation of the whole request is run. *)
Theorem lin_queued_ops s iov boff :
  lin_queued s iov boff =
    match lin_from_multi (lin_plan s iov boff) with
    | [] => (λ o, [o]) <$> last (concat (lin_plan s iov boff))
    | gs => Some (concat gs)
    end.
Proof.
  assert (∀ st, 
    let st' := foldl (lin_iov s) st iov in let gs := lin_plan s iov (rw_bpos st) in
    rw_q st' = match rw_q st with
               | Some l => Some (l ++ concat gs)
               | None => match lin_from_multi gs with [] => None | k => Some (concat k) end
               end ∧
    rw_gop st' = match last (concat gs) with Some o => Some o | None => rw_gop st end) as Hgen.
  { induction iov as [|v iov IH]; intros st; cbn [foldl lin_plan].
    { simpl. by destruct (rw_q st); rewrite ?app_nil_r. }
    change (lin_iov s st v) with (lin_blocks (iov_offset v) (iov_offset v + iov_len v - 1)
      (isl_search (Some (iov_offset v)) (Some (iov_offset v + iov_len v - 1)) (sl_isl s)) st).
    set (bs := isl_search _ _ _). set (hi := iov_offset v + iov_len v - 1) in *.
    pose proof (lin_blocks_spec (iov_offset v) hi bs st) as Hb.
    destruct (lin_block_ops (iov_offset v) hi bs (rw_bpos st)) as [ops p].
    set (st1 := lin_blocks _ _ _ _) in *. destruct Hb as (Hp & Hg & Hq).
    specialize (IH st1). rewrite Hp, Hq, Hg in IH. destruct IH as [IHq IHg]. split.
    - etransitivity; [exact IHq|].
      destruct (rw_q st) as [l|]; [by rewrite <- app_assoc|].
      destruct ops as [|o1 [|o2 ops]]; done.
    - etransitivity; [exact IHg|]. simpl. rewrite last_app.
      by destruct (last (concat (lin_plan s iov p))). }
  specialize (Hgen (Lin_rw None None boff)). unfold lin_queued. simpl in Hgen.
  destruct (foldl _ _ iov) as [g q p]. destruct Hgen as [Hq Hg]. simpl in *. subst.
  destruct (lin_from_multi _); [|done]. by destruct (last (concat _)).
Qed.
End lin_rw.
Arguments lin_op C : clear implicits.

(** ** Where the operations go *)
Section rw_facts.
Context {C W Q S : Type} `{!CapSet C W, !DataStore C Q S, !StoreView C S, !DataStoreOk C Q S}.
Context `{!Gop, !GopOk, !ISL (seglin_slot C W), !ISLOk (seglin_slot C W)}.
Implicit Types (s : seglin_priv C W Q) (b : seglin_slot C W) (σ : S) (o : lin_op C).

Lemma search_hits σ s lo hi :
  lin_ok σ s → 0 ≤ lo ≤ hi → hi < total_size s →
  hits_from lo lo hi (isl_search (Some lo) (Some hi) (sl_isl s)) ∧
  ∀ b, b ∈ isl_search (Some lo) (Some hi) (sl_isl s) → b ∈ isl_all (sl_isl s).
Proof. intros (Ht & _). by apply tiles_search_hits. Qed.

(** The operations [ops] move the file range from [cur] to [e], in order, to or
    from the buffer at [bpos]. *)
Fixpoint serves s (cur bpos : Z) (ops : list (lin_op C)) (e : Z) : Prop :=
  match ops with
  | [] => cur = e
  | o :: ops =>
      lop_bpos o = bpos ∧ 0 < lop_len o ∧
      (∃ b, b ∈ isl_all (sl_isl s) ∧ lop_cap o = slot_cap b ∧ sl_seg_offset b ≤ cur ∧
         cur + lop_len o - 1 ≤ sl_seg_end b ∧
         lop_start o = sl_cap_offset b + (cur - sl_seg_offset b)) ∧
      serves s (cur + lop_len o) (bpos + lop_len o) ops e
  end.

Lemma block_ops_serve s lo hi bs : ∀ cur bpos,
  Forall slot_ok bs → (∀ b, b ∈ bs → b ∈ isl_all (sl_isl s)) → lo ≤ cur →
  bs ≠ [] ∨ cur = hi + 1 → hits_from lo cur hi bs →
  let '(ops, p) := lin_block_ops lo hi bs bpos in
  serves s cur bpos ops (hi + 1) ∧ p = bpos + (hi + 1 - cur).
Proof.
  induction bs as [|b bs IH]; intros cur bpos Hok Hin Hlo Hne Hh; cbn [lin_block_ops].
  { destruct Hne as [?| ->]; [done|]. simpl. lia. }
  apply Forall_cons in Hok as [[Hco Hse] Hok]. destruct Hh as (Hch & Hc & Hfirst & Hh).
  unfold covers in Hc. simpl in Hc, Hfirst, Hh.
  set (o := lin_op_of lo hi b bpos).
  assert (lop_start o = sl_cap_offset b + (cur - sl_seg_offset b) ∧
          lop_len o = Z.min (sl_seg_end b) hi + 1 - cur ∧
          lop_bpos o = bpos ∧ lop_cap o = slot_cap b) as (Hst & Hlen & Hbp & Hcap).
  { split; [|split; [|done]]; unfold o, lin_op_of; simpl; repeat case_decide; destruct (decide (lo < cur)); try lia;
      specialize (Hfirst ltac:(lia)); lia. }
  clearbody o. assert (Hend : bs ≠ [] ∨ cur + lop_len o = hi + 1).
  { destruct bs; [right|by left]. simpl in Hh. lia. }
  assert (hits_from lo (cur + lop_len o) hi bs) as Hh'.
  { destruct bs as [|b' bs]; [simpl; destruct Hend; [done|lia]|].
    destruct Hh as [Hb' Hh]. replace (cur + lop_len o) with (sl_seg_end b + 1) by lia. done. }
  specialize (IH (cur + lop_len o) (bpos + lop_len o) Hok ltac:(intros; apply Hin; by right) ltac:(lia) Hend Hh').
  destruct (lin_block_ops lo hi bs (bpos + lop_len o)) as [ops p]. destruct IH as [Hs ->].
  split; [|lia]. simpl. split_and!; [done|lia| |done].
  exists b. split_and!; [apply Hin; by left|done|lia..].
Qed.

(** ** Running the operations *)
Lemma lin_byte_op σ s b off i :
  lin_ok σ s → b ∈ isl_all (sl_isl s) → sl_seg_offset b ≤ off ≤ sl_seg_end b →
  i = sl_cap_offset b + (off - sl_seg_offset b) →
  lin_byte σ s off = ds_byte (S:=S) σ (slot_cap b) i.
Proof. intros (Ht & _) Hb Hoff ->. apply slots_byte_at; [apply Ht|done|exact Hoff]. Qed.

Lemma lin_run_reads_spec σ s ops buf : ∀ cur bpos e,
  lin_ok σ s → serves s cur bpos ops e →
  let '(σ', buf', sts) := lin_run_reads σ ops buf in
  lin_ok σ' s ∧ (∀ off, lin_byte σ' s off = lin_byte σ s off) ∧ cur ≤ e ∧
  ((∀ st, st ∈ sts → op_st st = OP_STATE_SUCCESS) → ∀ p,
     buf' p = buf_put buf bpos (e - cur) (lin_byte σ s) cur p).
Proof.
  revert σ buf. induction ops as [|o ops IH]; intros σ buf cur bpos e Hs Hsv; simpl.
  { simpl in Hsv. subst. split_and!; [done|done|lia|]. intros _ p. unfold buf_put.
    by rewrite decide_False by lia. }
  destruct Hsv as (Hbp & Hlen & (b & Hb & Hcap & Hlo & Hhi & Hst) & Hsv).
  pose proof (λ c i, ds_read_same σ (lop_cap o) (lop_start o) buf (lop_bpos o) (lop_len o) c i) as Hsame.
  pose proof (λ p, ds_read_buffer σ (lop_cap o) (lop_start o) buf (lop_bpos o) (lop_len o) p) as Hbuf.
  destruct (ds_read σ _ _ buf _ _) as [[σ1 buf1] st1]. simpl in *.
  assert (lin_ok σ1 s) as Hs1 by (apply (lin_ok_store σ); [done|]; intros c; apply (Hsame c 0)).
  assert (Hb1 : ∀ off, lin_byte σ1 s off = lin_byte σ s off)
    by (apply lin_byte_store; [done|]; intros c i _ _; apply (Hsame c i)).
  specialize (IH σ1 buf1 (cur + lop_len o) (bpos + lop_len o) e Hs1 Hsv).
  destruct (lin_run_reads σ1 ops buf1) as [[σ2 buf2] sts]. destruct IH as (Hs2 & Hb2 & Hle & Hbuf2).
  split_and!; [done|intros; by rewrite Hb2, Hb1|lia|].
  intros Hall p. rewrite Hbuf2 by (intros; apply Hall; by right). unfold buf_put at 1.
  rewrite Hbuf by (apply Hall; by left). unfold buf_put. rewrite Hbp.
  destruct (decide (bpos ≤ p < bpos + (e - cur))), (decide (bpos + lop_len o ≤ p < bpos + lop_len o + (e - (cur + lop_len o))));
    try lia.
  - rewrite Hb1. f_equal. lia.
  - rewrite decide_True by lia. symmetry. rewrite Hcap. apply (lin_byte_op σ s b); [done|done|lia|lia].
  - by rewrite decide_False by lia.
Qed.

Lemma lin_write_op_byte σ s b cur start bpos len buf :
  lin_ok σ s → b ∈ isl_all (sl_isl s) → sl_seg_offset b ≤ cur → cur + len - 1 ≤ sl_seg_end b →
  start = sl_cap_offset b + (cur - sl_seg_offset b) → 0 < len →
  let '(σ', st) := ds_write σ (slot_cap b) start buf bpos len in
  lin_ok σ' s ∧
  (∀ off, ¬ (cur ≤ off < cur + len) → lin_byte σ' s off = lin_byte σ s off) ∧
  (op_st st = OP_STATE_SUCCESS → ∀ off, lin_byte σ' s off = buf_put (lin_byte σ s) cur len buf bpos off).
Proof.
  intros Hs Hb Hlo Hhi Hst Hlen.
  pose proof (λ c i, ds_write_frame σ (slot_cap b) start buf bpos len c i) as Hfr.
  pose proof (λ i, ds_write_byte σ (slot_cap b) start buf bpos len i) as Hwr.
  pose proof (λ c, ds_write_live σ (slot_cap b) start buf bpos len c) as Hl.
  destruct (ds_write σ _ _ _ _ _) as [σ' st]. simpl in *.
  assert (lin_ok σ' s) as Hs' by (by apply (lin_ok_store σ)).
  assert (Hframe : ∀ off, ¬ (cur ≤ off < cur + len) → lin_byte σ' s off = lin_byte σ s off).
  { intros off Hoff. apply slots_byte_ext. intros x i Hx Hc ->. apply Hfr.
    destruct Hs as (Ht & (Hf & Hnd & _) & _). unfold covers in Hc. simpl in Hc.
    destruct (decide (start ≤ sl_cap_offset x + (off - sl_seg_offset x) < start + len)) as [Hi|]; [left|by right].
    intros He. assert (x = b) as ->; [|lia].
    apply list_elem_of_lookup in Hx as [j Hj], Hb as [k Hk]. assert (j = k) as <-; [|congruence].
    eapply (NoDup_lookup _ _ _ (slot_cap x) Hnd); rewrite list_lookup_fmap, ?Hj, ?Hk; simpl; congruence. }
  split_and!; [done|done|]. intros Hok off. unfold buf_put. case_decide as Hc; [|by apply Hframe].
  rewrite (lin_byte_op σ' s b off (start + (off - cur)) Hs' Hb) by lia.
  rewrite Hwr by (done || lia). f_equal. lia.
Qed.

Lemma lin_run_writes_spec σ s ops buf : ∀ cur bpos e,
  lin_ok σ s → serves s cur bpos ops e →
  let '(σ', sts) := lin_run_writes σ ops buf in
  lin_ok σ' s ∧ cur ≤ e ∧
  (∀ off, ¬ (cur ≤ off < e) → lin_byte σ' s off = lin_byte σ s off) ∧
  ((∀ st, st ∈ sts → op_st st = OP_STATE_SUCCESS) → ∀ off,
     lin_byte σ' s off = buf_put (lin_byte σ s) cur (e - cur) buf bpos off).
Proof.
  revert σ. induction ops as [|o ops IH]; intros σ cur bpos e Hs Hsv; simpl.
  { simpl in Hsv. subst. split_and!; [done|lia|done|]. intros _ off. unfold buf_put.
    by rewrite decide_False by lia. }
  destruct Hsv as (Hbp & Hlen & (b & Hb & Hcap & Hlo & Hhi & Hst) & Hsv).
  pose proof (lin_write_op_byte σ s b cur (lop_start o) bpos (lop_len o) buf Hs Hb Hlo Hhi Hst Hlen) as Hw.
  rewrite Hcap, Hbp. destruct (ds_write σ _ _ _ _ _) as [σ1 st1]. destruct Hw as (Hs1 & Hfr1 & Hb1).
  specialize (IH σ1 (cur + lop_len o) (bpos + lop_len o) e Hs1 Hsv).
  destruct (lin_run_writes σ1 ops buf) as [σ2 sts]. destruct IH as (Hs2 & Hle & Hfr2 & Hb2).
  split_and!; [done|lia| |].
  - intros off Hoff. rewrite Hfr2, Hfr1 by lia. done.
  - intros Hall off. rewrite Hb2 by (intros; apply Hall; by right). unfold buf_put at 1.
    rewrite Hb1 by (apply Hall; by left). unfold buf_put.
    repeat case_decide; try lia; try done. f_equal. lia.
Qed.

(** ** Whole requests *)

Lemma lin_run_reads_app σ ops1 ops2 buf :
  lin_run_reads σ (ops1 ++ ops2) buf =
    let '(σ, buf, sts1) := lin_run_reads σ ops1 buf in
    let '(σ, buf, sts2) := lin_run_reads σ ops2 buf in (σ, buf, sts1 ++ sts2).
Proof.
  revert σ buf. induction ops1 as [|o ops1 IH]; intros σ buf; simpl.
  { by destruct (lin_run_reads σ ops2 buf) as [[? ?] ?]. }
  destruct (ds_read σ _ _ buf _ _) as [[σ1 buf1] st1]. rewrite IH.
  destruct (lin_run_reads σ1 ops1 buf1) as [[σ2 buf2] sts1].
  by destruct (lin_run_reads σ2 ops2 buf2) as [[? ?] ?].
Qed.

Lemma lin_run_writes_app σ ops1 ops2 buf :
  lin_run_writes σ (ops1 ++ ops2) buf =
    let '(σ, sts1) := lin_run_writes σ ops1 buf in
    let '(σ, sts2) := lin_run_writes σ ops2 buf in (σ, sts1 ++ sts2).
Proof.
  revert σ. induction ops1 as [|o ops1 IH]; intros σ; simpl.
  { by destruct (lin_run_writes σ ops2 buf) as [? ?]. }
  destruct (ds_write σ _ _ buf _ _) as [σ1 st1]. rewrite IH.
  destruct (lin_run_writes σ1 ops1 buf) as [σ2 sts1].
  by destruct (lin_run_writes σ2 ops2 buf) as [? ?].
Qed.

(** The operations of one extent serve it. *)
Lemma extent_serves σ s v bpos :
  lin_ok σ s → 0 ≤ iov_offset v → 0 < iov_len v → iov_offset v + iov_len v ≤ total_size s →
  let lo := iov_offset v in let hi := lo + iov_len v - 1 in
  let '(ops, p) := lin_block_ops lo hi (isl_search (Some lo) (Some hi) (sl_isl s)) bpos in
  serves s lo bpos ops (lo + iov_len v) ∧ p = bpos + iov_len v ∧ ops ≠ [].
Proof.
  intros Hs Hv0 Hl Hend lo hi.
  destruct (search_hits σ s lo hi Hs) as [Hh Hin]; [lia|lia|].
  set (bs := isl_search _ _ _) in *.
  assert (bs ≠ []) as Hbs by (destruct bs; [simpl in Hh; lia|done]).
  pose proof (block_ops_serve s lo hi bs lo bpos) as Hsv.
  assert (Forall slot_ok bs) as Hok.
  { destruct Hs as (_ & (Hf & _) & _). rewrite Forall_forall in *. auto. }
  specialize (Hsv Hok Hin ltac:(lia) ltac:(by left) Hh).
  destruct (lin_block_ops lo hi bs bpos) as [ops p] eqn:Hops. destruct Hsv as [Hsv ->].
  replace (hi + 1) with (lo + iov_len v) in Hsv by lia. split_and!; [done|lia|].
  intros ->. simpl in Hsv. lia.
Qed.

Lemma lin_plan_reads s iov : ∀ σ buf boff,
  lin_ok σ s → iov_within (total_size s) iov →
  let '(σ', buf', sts) := lin_run_reads σ (concat (lin_plan s iov boff)) buf in
  lin_ok σ' s ∧ (∀ off, lin_byte σ' s off = lin_byte σ s off) ∧
  ((∀ st, st ∈ sts → op_st st = OP_STATE_SUCCESS) → ∀ p,
     buf' p = if decide (boff ≤ p < boff + iov_total iov)
              then lin_byte σ s (iov_pos iov boff p) else buf p).
Proof.
  induction iov as [|v iov IH]; intros σ buf boff Hs Hw; cbn [lin_plan concat].
  { simpl. split_and!; [done|done|]. intros _ p. by rewrite decide_False by lia. }
  apply Forall_cons in Hw as [(Hv0 & Hl & Hend) Hw]. cbv zeta.
  pose proof (extent_serves σ s v boff Hs Hv0 Hl Hend) as Hsv. cbv zeta in Hsv.
  destruct (lin_block_ops _ _ _ boff) as [ops p]. destruct Hsv as (Hsv & -> & _). simpl concat.
  rewrite lin_run_reads_app. pose proof (lin_run_reads_spec σ s ops buf _ _ _ Hs Hsv) as Hr1.
  destruct (lin_run_reads σ ops buf) as [[σ1 buf1] sts1]. destruct Hr1 as (Hs1 & Hb1 & _ & Hbuf1).
  specialize (IH σ1 buf1 (boff + iov_len v) Hs1 Hw).
  destruct (lin_run_reads σ1 _ buf1) as [[σ2 buf2] sts2]. destruct IH as (Hs2 & Hb2 & Hbuf2).
  split_and!; [done|intros; by rewrite Hb2|]. intros Hall p.
  rewrite Hbuf2 by (intros; apply Hall, elem_of_app; by right).
  rewrite Hbuf1 by (intros; apply Hall, elem_of_app; by left).
  pose proof (iov_total_nonneg iov (iov_within_ok _ _ Hw)). simpl. unfold buf_put.
  repeat case_decide; try lia; done.
Qed.

Lemma lin_plan_writes s iov buf : ∀ σ boff,
  lin_ok σ s → iov_within (total_size s) iov →
  let '(σ', sts) := lin_run_writes σ (concat (lin_plan s iov boff)) buf in
  lin_ok σ' s ∧
  ((∀ st, st ∈ sts → op_st st = OP_STATE_SUCCESS) → ∀ off,
     lin_byte σ' s off = iov_overlay (lin_byte σ s) iov buf boff off).
Proof.
  induction iov as [|v iov IH]; intros σ boff Hs Hw; cbn [lin_plan concat]; [done|].
  apply Forall_cons in Hw as [(Hv0 & Hl & Hend) Hw]. cbv zeta.
  pose proof (extent_serves σ s v boff Hs Hv0 Hl Hend) as Hsv. cbv zeta in Hsv.
  destruct (lin_block_ops _ _ _ boff) as [ops p]. destruct Hsv as (Hsv & -> & _). simpl concat.
  rewrite lin_run_writes_app. pose proof (lin_run_writes_spec σ s ops buf _ _ _ Hs Hsv) as Hr1.
  destruct (lin_run_writes σ ops buf) as [σ1 sts1]. destruct Hr1 as (Hs1 & _ & _ & Hb1).
  specialize (IH σ1 (boff + iov_len v) Hs1 Hw).
  destruct (lin_run_writes σ1 _ buf) as [σ2 sts2]. destruct IH as (Hs2 & Hb2).
  split; [done|]. intros Hall off. simpl.
  rewrite Hb2 by (intros; apply Hall, elem_of_app; by right).
  apply iov_overlay_ext; [by apply (iov_within_ok (total_size s))| |done].
  intros i. rewrite Hb1 by (intros; apply Hall, elem_of_app; by left).
  unfold buf_put. by replace (iov_offset v + iov_len v - iov_offset v) with (iov_len v) by lia.
Qed.

(** Nothing of the request is lost on the way to the queue. *)
Definition lin_complete s (iov : list ex_iovec) (boff : Z) : Prop :=
  lin_queued s iov boff = Some (concat (lin_plan s iov boff)).

(** A request of one extent inside the segment is queued whole. *)
Theorem lin_single_complete σ s v boff :
  lin_ok σ s → iov_within (total_size s) [v] → lin_complete s [v] boff.
Proof.
  intros Hs Hw. inversion Hw as [|? ? (Hv0 & Hl & Hend) _]; subst.
  pose proof (extent_serves σ s v boff Hs Hv0 Hl Hend) as Hsv. cbv zeta in Hsv.
  unfold lin_complete, lin_queued. cbn [foldl lin_plan]. unfold lin_iov.
  set (lo := iov_offset v) in *. set (bs := isl_search _ _ _) in *.
  pose proof (lin_blocks_spec lo (lo + iov_len v - 1) bs (Lin_rw None None boff)) as Hb.
  simpl in Hb. destruct (lin_block_ops lo (lo + iov_len v - 1) bs boff) as [ops p].
  destruct Hb as (_ & -> & ->). destruct Hsv as (_ & _ & Hne). simpl. rewrite app_nil_r.
  by destruct ops as [|o1 [|o2 ops]].
Qed.

(** C18: a read inside the segment, if nothing of it is lost, delivers the
    segment's bytes extent by extent when its operations succeed and changes
    nothing else.  Its status is success in every case. *)
Theorem seglin_read_correct state_code σ s iov buf boff :
  lin_ok σ s → iov_within (total_size s) iov → lin_complete s iov boff →
  let '(σ', s', buf', err, st) := seglin_read_func state_code σ s iov buf boff in
  lin_ok σ' s' ∧ (∀ off, lin_byte σ' s' off = lin_byte σ s off) ∧
  (err = OP_STATE_SUCCESS → ∀ p,
     buf' p = if decide (boff ≤ p < boff + iov_total iov)
              then lin_byte σ s (iov_pos iov boff p) else buf p) ∧
  sl_hard_errors s' = sl_hard_errors s + (if decide (state_code err = 0) then 0 else 1) ∧
  st = op_success_status.
Proof.
  intros Hs Hw Hc. unfold seglin_read_func. rewrite Hc.
  pose proof (lin_plan_reads s iov σ buf boff Hs Hw) as Hr.
  destruct (lin_run_reads σ _ buf) as [[σ' buf'] sts]. destruct Hr as (Hs' & Hb & Hbuf).
  assert (opque_waitall sts = OP_STATE_SUCCESS → ∀ p, buf' p =
    if decide (boff ≤ p < boff + iov_total iov) then lin_byte σ s (iov_pos iov boff p) else buf p) as Hb'.
  { intros Hok p. apply Hbuf. by apply opque_waitall_success. }
  case_decide; simpl; (split; [exact Hs'|]; split; [exact Hb|]; split; [exact Hb'|]; split; [lia|done]).
Qed.

Lemma seglin_write_grow_spec ids σ s maxpos :
  lin_ok σ s → 0 ≤ maxpos → 0 ≤ excess_block_size s →
  ∃ σ' s', seglin_write_grow ids σ s maxpos = Some (σ', s') ∧ lin_ok σ' s' ∧
    used_size s' = used_size s ∧ total_size s ≤ total_size s' ∧
    (total_size s' ≤ Z.max (total_size s) (maxpos + excess_block_size s)) ∧
    ∀ off, 0 ≤ off < total_size s → lin_byte σ' s' off = lin_byte σ s off.
Proof.
  intros Hs Hm He. unfold seglin_write_grow. case_decide; cycle 1.
  { exists σ, s. split_and!; try done; lia. }
  case_decide as Hlt; cycle 1.
  { exists σ, s. split_and!; try done; lia. }
  unfold sl_truncate. rewrite decide_False, decide_False, decide_True by lia.
  destruct (sl_grow_spec ids σ s (maxpos + excess_block_size s) (maxpos + excess_block_size s) Hs)
    as (σ' & s' & st & -> & Hs' & Hu & Ht & Hb); [by rewrite decide_False by lia|lia|by left|].
  simpl. exists σ', s'. split_and!; try done.
  - destruct Ht as [->|[-> _]]; lia.
  - destruct Ht as [->|[-> _]]; lia.
  - intros off Hoff. apply Hb; [done|by left].
Qed.

Lemma lin_complete_isl s s' iov boff :
  sl_isl s = sl_isl s' → lin_complete s iov boff → lin_complete s' iov boff.
Proof.
  intros Hi. unfold lin_complete, lin_queued, lin_iov. rewrite Hi.
  assert (∀ iov p, lin_plan s iov p = lin_plan s' iov p) as ->; [|done].
  intros l. induction l as [|v l IH]; intros p; simpl; [done|]. rewrite Hi.
  destruct (lin_block_ops _ _ _ p) as [ops p']. by rewrite IH.
Qed.

Lemma lin_run_writes_live σ (ops : list (lin_op C)) buf c :
  ds_live (S:=S) σ c → ds_live (S:=S) (lin_run_writes σ ops buf).1 c.
Proof.
  revert σ. induction ops as [|o ops IH]; intros σ Hc; simpl; [done|].
  pose proof (ds_write_live σ (lop_cap o) (lop_start o) buf (lop_bpos o) (lop_len o) c Hc) as Hl.
  destruct (ds_write σ _ _ _ _ _) as [σ1 st]. simpl in Hl. specialize (IH σ1 Hl).
  by destruct (lin_run_writes σ1 ops buf).
Qed.

Lemma seglin_write_op_spec σ s iov buf boff :
  lin_ok σ s →
  let '(σ', err) := seglin_write_op σ s iov buf boff in
  lin_ok σ' s ∧
  (iov_within (total_size s) iov → lin_complete s iov boff → err = OP_STATE_SUCCESS → ∀ off,
     lin_byte σ' s off = iov_overlay (lin_byte σ s) iov buf boff off).
Proof.
  intros Hs. unfold seglin_write_op. destruct (lin_queued s iov boff) as [ops|] eqn:Hq; cycle 1.
  { split; [done|]. intros _ Hc. unfold lin_complete in Hc. congruence. }
  pose proof (lin_run_writes_live σ ops buf) as Hl.
  destruct (lin_run_writes σ ops buf) as [σ' sts] eqn:Hrun. simpl in Hl.
  split; [by apply (lin_ok_store σ)|]. intros Hw Hc Hok. unfold lin_complete in Hc.
  assert (ops = concat (lin_plan s iov boff)) as -> by congruence.
  pose proof (lin_plan_writes s iov buf σ boff Hs Hw) as Hp. rewrite Hrun in Hp.
  apply Hp. by apply opque_waitall_success.
Qed.

(** C17: a write returns and keeps the segment well formed.  If the space for it
    is there (it was, or the growth succeeded) and nothing of the request is
    lost, a success means that the old bytes are overlaid with the request's;
    the used size covers the request. *)
Theorem seglin_write_correct ids σ s iov buf boff :
  lin_ok σ s → iov_ok iov → 0 ≤ excess_block_size s →
  ∃ σ' s' st, seglin_write_func ids σ s iov buf boff = Some (σ', s', st) ∧ lin_ok σ' s' ∧
    total_size s ≤ total_size s' ∧ used_size s' = Z.max (used_size s) (iov_maxpos iov + 1) ∧
    (iov_maxpos iov < total_size s' → lin_complete s' iov boff → op_st st = OP_STATE_SUCCESS →
       ∀ off, 0 ≤ off < total_size s ∨
              (∃ v, v ∈ iov ∧ iov_offset v ≤ off < iov_offset v + iov_len v) →
         lin_byte σ' s' off = iov_overlay (lin_byte σ s) iov buf boff off).
Proof.
  intros Hs Hiov He. unfold seglin_write_func.
  pose proof (iov_maxpos_spec iov 0 : 0 ≤ iov_maxpos iov ∧ ∀ v, v ∈ iov → _ ≤ iov_maxpos iov + 1) as [Hm0 Hmv].
  destruct (seglin_write_grow_spec ids σ s (iov_maxpos iov) Hs) as (σ1 & s1 & -> & Hs1 & Hu & Ht & _ & Hb);
    [lia|done|]. simpl.
  pose proof (seglin_write_op_spec σ1 s1 iov buf boff Hs1) as Hw.
  destruct (seglin_write_op σ1 s1 iov buf boff) as [σ2 err]. destruct Hw as [Hs2 Hw].
  set (s2 := if decide (used_size s1 ≤ iov_maxpos iov) then _ else s1).
  assert (used_size s2 = Z.max (used_size s) (iov_maxpos iov + 1) ∧ total_size s2 = total_size s1 ∧
          sl_isl s2 = sl_isl s1 ∧ max_block_size s2 = max_block_size s1 ∧ n_rid_default s2 = n_rid_default s1) as (Hu2 & Ht2 & Hi2 & Hm2 & Hn2).
  { unfold s2. rewrite <- Hu. case_decide; simpl; split_and!; try done; lia. }
  assert (lin_ok σ2 s2) as Hok2.
  { unfold lin_ok. rewrite Hi2, Ht2, Hm2, Hn2. exact Hs2. }
  destruct (decide (err = OP_STATE_SUCCESS)) as [Hst|Hst]; do 3 eexists; (split; [done|]); cycle 1.
  { simpl. split; [exact Hok2|]. split_and!; [lia|done|]. intros _ _. by rewrite op_failure_state. }
  split; [exact Hok2|]. split_and!; [lia|done|]. rewrite Ht2. intros Hmax Hcomp _ off Hoff.
  apply (lin_complete_isl s2 s1) in Hcomp; [|done].
  assert (lin_byte σ2 s2 off = lin_byte σ2 s1 off) as -> by (unfold lin_byte; by rewrite Hi2).
  rewrite Hw; [|
    unfold iov_within; rewrite Forall_forall; unfold iov_ok in Hiov; rewrite Forall_forall in Hiov;
    intros v Hv; specialize (Hiov v Hv); specialize (Hmv v Hv); lia|done|done].
  apply iov_overlay_at. destruct Hoff as [Hoff|Hoff]; [left; by apply Hb|by right].
Qed.

(** With no excess block size, a write past the end grows the segment to
    one byte short of the request: the reported size is then larger than the
    space that exists, even when every step succeeded. *)
Theorem seglin_write_one_short ids σ s iov buf boff :
  lin_ok σ s → iov_ok iov → excess_block_size s = 0 → total_size s ≤ iov_maxpos iov →
  ∃ σ' s' st, seglin_write_func ids σ s iov buf boff = Some (σ', s', st) ∧
    total_size s' ≤ iov_maxpos iov ∧ iov_maxpos iov < used_size s'.
Proof.
  intros Hs Hiov He Hge. unfold seglin_write_func.
  pose proof (iov_maxpos_spec iov 0 : 0 ≤ iov_maxpos iov ∧ ∀ v, v ∈ iov → _ ≤ iov_maxpos iov + 1) as [Hm0 Hmv].
  destruct (seglin_write_grow_spec ids σ s (iov_maxpos iov) Hs) as (σ1 & s1 & -> & _ & _ & _ & Ht & _);
    [lia|lia|]. simpl. destruct (seglin_write_op σ1 s1 iov buf boff) as [σ2 err].
  destruct (decide (err = OP_STATE_SUCCESS)); do 3 eexists; (split; [done|]);
    case_decide; simpl; lia.
Qed.
End rw_facts.
