(* ===== verification/SegLinearClone.v ===== *)
(** * Linear segments: cloning

    [seglin_clone_func] allocates a block per block of the source and copies
    them. *)
From stdpp Require Import strings gmap.
From S2P Require Import Prelude Isl Seg Inip DataBlock DataStore SegLinear.
#[local] Open Scope Z_scope.

Section clone.
Context {C W Q S : Type} `{!CapSet C W, !DataStore C Q S, !Gop, !ISL (seglin_slot C W)}.
Abbreviation slot := (seglin_slot C W).
Abbreviation lin := (seglin_priv C W Q).

(** The new slot for [b]; its resource key stays unset. *)
Definition clone_block (ds : string) (ids : nat → Z) (i : nat) (b : slot) : slot :=
  Seglin_slot (db_set_sizes (data_block_create ds (ids i)) (sl_len b) (sl_len b))
    0 (sl_seg_offset b) (sl_seg_end b) (sl_len b).
Definition clone_allocated (b : slot) (cr : C * string) : slot :=
  let d := sl_data b in
  Seglin_slot (Data_block (db_id d) (db_size d) (db_max_size d) (db_ref_count d + 1)
                 (db_initial_ref_count d) cr.1 (db_ds_type d) (db_rid_key d)
                 (db_attr_stack d) (db_warm d))
    (sl_cap_offset b) (sl_seg_offset b) (sl_seg_end b) (sl_len b).

(** The requests: every one of them has the same resource index; [None] is a
    division by 0. *)
Definition clone_reqs (n_rid : Z) (bs : list slot) : option (list (Z * Z)) :=
  if decide (n_rid = 0) then None
  else Some ((λ b, (Z.of_nat (length bs) `rem` n_rid, sl_len b)) <$> bs).

Fixpoint clone_copies (σ : S) (l : list (slot * slot)) : S * list op_status :=
  match l with
  | [] => (σ, [])
  | (bd, bs) :: l =>
      let '(σ, st) := ds_copy σ (slot_cap bs) (sl_cap_offset bs) (slot_cap bd) (sl_cap_offset bd) (sl_len bs) in
      let '(σ, sts) := clone_copies σ l in (σ, st :: sts)
  end.

(** [seglin_clone_func]; [None] is a crash: with no blocks there is no
    allocation to wait for. *)
Definition seglin_clone_func (ids : nat → Z) (σ : S) (ss sd : lin) (trunc : bool)
    : option (S * lin * op_status) :=
  '(σ, sd) ← (if trunc then '(σ, sd, _) ← sl_truncate ids σ sd 0; Some (σ, sd) else Some (σ, sd));
  let srcs := isl_all (sl_isl ss) in
  let n := Z.of_nat (isl_count (sl_isl ss)) in
  if decide (n > 0) then
    let bs := imap (clone_block (sl_ds sd) ids) srcs in
    reqs ← clone_reqs (n_rid_default sd) bs;
    let '(σ, caps, st) := rs_data_request σ (rsq sd) reqs
      (if decide (n_rid_default sd > n) then n else n_rid_default sd) in
    if decide (op_st st = OP_STATE_SUCCESS) then
      let bs := zip_with clone_allocated bs caps in
      let m := foldl (λ m b, lin_insert b m) (sl_isl sd) bs in
      let '(σ, sts) := clone_copies σ (zip bs srcs) in
      Some (σ, lin_set_sizes (lin_set_isl sd m) (used_size ss) (total_size ss),
            if decide (opque_waitall sts = OP_STATE_SUCCESS) then op_success_status
            else op_failure_status)
    else Some (σ, sd, op_failure_status)
  else None.
End clone.

Section clone_facts.
Context {C W Q S : Type} `{!CapSet C W, !DataStore C Q S, !StoreView C S, !DataStoreOk C Q S}.
Context `{!Gop, !GopOk, !ISL (seglin_slot C W), !ISLOk (seglin_slot C W)}.
Implicit Types (s : seglin_priv C W Q) (b : seglin_slot C W) (σ : S) (l : list (seglin_slot C W)).

(** The destination's slot for a source slot. *)
Definition clone_of b b' : Prop :=
  sl_seg_offset b' = sl_seg_offset b ∧ sl_seg_end b' = sl_seg_end b ∧ sl_len b' = sl_len b ∧
  sl_cap_offset b' = 0.

Lemma clone_slots ds ids l (caps : list (C * string)) :
  length caps = length l →
  let l' := zip_with clone_allocated (imap (clone_block ds ids) l) caps in
  Forall2 clone_of l l' ∧ slot_cap <$> l' = fst <$> caps.
Proof.
  revert ids caps. induction l as [|b l IH]; intros ids [|cr caps] Hlen; try done.
  rewrite imap_cons. simpl in *. destruct (IH (ids ∘ Datatypes.S) caps) as [Hf Hc]; [lia|].
  split; [by constructor|]. exact (f_equal (cons cr.1) Hc).
Qed.

Lemma clone_tiles l l' a e : Forall2 clone_of l l' → tiles a e l → tiles a e l'.
Proof.
  intros Hf [[Hv Ha] Hc].
  assert (Hb : Forall2 (λ b b', r_lo b' = r_lo b ∧ r_hi b' = r_hi b) l l')
    by (eapply Forall2_impl; [exact Hf|]; by intros b b' (? & ? & _)). clear Hf.
  split; [split|].
  - clear Ha Hc. induction Hb as [|b b' k k' [E1 E2] _ IH]; [constructor|].
    inversion Hv as [|? ? Hb Hk]; subst. constructor; [|auto]. unfold valid in *. lia.
  - clear Hv Hc. induction Hb as [|b b' k k' [E1 E2] Hk IH]; [constructor|].
    inversion Ha as [|? ? Hb Hk']; subst. constructor; [|auto].
    clear -Hk Hb E1 E2. induction Hk as [|x x' k k' [F1 F2] _ IH]; [constructor|].
    inversion Hb as [|? ? Hx Hb']; subst. constructor; [|auto]. unfold apart in *. lia.
  - intros off. rewrite <- Hc. clear -Hb. split.
    + intros (x' & Hx & Hcx). apply list_elem_of_lookup in Hx as [j Hj].
      destruct (Forall2_lookup_r _ _ _ _ _ Hb Hj) as (x & Hx & E1 & E2).
      exists x. split; [by eapply list_elem_of_lookup_2|]. unfold covers in *. lia.
    + intros (x & Hx & Hcx). apply list_elem_of_lookup in Hx as [j Hj].
      destruct (Forall2_lookup_l _ _ _ _ _ Hb Hj) as (x' & Hx & E1 & E2).
      exists x'. split; [by eapply list_elem_of_lookup_2|]. unfold covers in *. lia.
Qed.

(** Copying: the sources keep their bytes, each destination gets its source's. *)
Lemma clone_copies_spec (k l : list (seglin_slot C W)) σ :
  Forall2 clone_of k l → NoDup (slot_cap <$> l) → Forall slot_ok k →
  (∀ b b', b ∈ k → b' ∈ l → slot_cap b ≠ slot_cap b') →
  let '(σ', sts) := clone_copies σ (zip l k) in
  (∀ c, ds_live (S:=S) σ c → ds_live (S:=S) σ' c) ∧
  (∀ c i, c ∉ slot_cap <$> l → ds_byte (S:=S) σ' c i = ds_byte (S:=S) σ c i) ∧
  ((∀ st, st ∈ sts → op_st st = OP_STATE_SUCCESS) → ∀ j b b' i,
     k !! j = Some b → l !! j = Some b' → 0 ≤ i < sl_len b →
     ds_byte (S:=S) σ' (slot_cap b') i = ds_byte (S:=S) σ (slot_cap b) i).
Proof.
  intros Hf. revert σ. induction Hf as [|b b' k l Hb Hf IH]; intros σ Hnd Hok Hdis; simpl; [done|].
  apply NoDup_cons in Hnd as [Hb' Hnd]. apply Forall_cons in Hok as [[Hco _] Hok].
  destruct Hb as (_ & _ & _ & Hco'). rewrite Hco, Hco'.
  pose proof (λ c i, ds_copy_frame σ (slot_cap b) 0 (slot_cap b') 0 (sl_len b) c i) as Hfr.
  pose proof (λ c, ds_copy_live σ (slot_cap b) 0 (slot_cap b') 0 (sl_len b) c) as Hl.
  pose proof (λ i, ds_copy_byte σ (slot_cap b) 0 (slot_cap b') 0 (sl_len b) i) as Hby.
  destruct (ds_copy σ _ _ _ _ _) as [σ1 st1]. simpl in *.
  specialize (IH σ1 Hnd Hok ltac:(intros; apply Hdis; by right)).
  destruct (clone_copies σ1 (zip l k)) as [σ2 sts]. destruct IH as (Hl2 & Hfr2 & Hby2).
  split_and!; [auto| |].
  - intros c i [Hc Hcl]%not_elem_of_cons. rewrite Hfr2 by done. apply Hfr. by left.
  - intros Hall [|j] x x' i Hx Hx' Hi; simpl in *.
    + injection Hx as <-. injection Hx' as <-. rewrite Hfr2 by done.
      rewrite Hby; [f_equal; lia| |apply Hall; by left|lia].
      apply Hdis; by left.
    + rewrite (Hby2 ltac:(intros; apply Hall; by right) j x x' i Hx Hx' Hi).
      apply Hfr. left. apply Hdis; [right; by eapply list_elem_of_lookup_2|by left].
Qed.

(** Cloning into an empty segment.  A source without blocks crashes the
    clone; otherwise it returns, never changes the source, and on success the
    destination is well formed with the source's sizes and bytes on allocations
    of its own. *)
Theorem seglin_clone_correct ids σ ss sd trunc :
  lin_ok σ ss → lin_ok σ sd → total_size sd = 0 →
  (isl_all (sl_isl ss) = [] → seglin_clone_func ids σ ss sd trunc = None) ∧
  (isl_all (sl_isl ss) ≠ [] → ∃ σ' sd' st,
     seglin_clone_func ids σ ss sd trunc = Some (σ', sd', st) ∧ lin_ok σ' ss ∧
     (∀ off, lin_byte σ' ss off = lin_byte σ ss off) ∧
     (op_st st = OP_STATE_SUCCESS → lin_ok σ' sd' ∧ total_size sd' = total_size ss ∧
        used_size sd' = used_size ss ∧ (∀ off, lin_byte σ' sd' off = lin_byte σ ss off) ∧
        ∀ b b', b ∈ isl_all (sl_isl ss) → b' ∈ isl_all (sl_isl sd') → slot_cap b ≠ slot_cap b')).
Proof.
  intros Hss Hsd Hz.
  assert (isl_all (sl_isl sd) = []) as Hempty.
  { destruct (isl_all (sl_isl sd)) as [|b l] eqn:He; [done|]. destruct Hsd as [Ht _].
    rewrite He, Hz in Ht. pose proof (tiles_bounds _ _ _ b Ht ltac:(by left)). lia. }
  unfold seglin_clone_func.
  assert ((if trunc then '(σ, sd, _) ← sl_truncate ids σ sd 0; Some (σ, sd) else Some (σ, sd)) = Some (σ, sd)) as ->.
  { destruct trunc; [|done]. unfold sl_truncate. rewrite !decide_False by lia. done. }
  simpl. rewrite isl_count_all. set (k := isl_all (sl_isl ss)).
  split; [intros Hk; by rewrite Hk|]. intros Hk.
  rewrite decide_True by (destruct k; [done|simpl; lia]).
  set (bs := imap _ k).
  unfold clone_reqs. rewrite (decide_False (P := n_rid_default sd = 0)) by (apply Hsd). cbn [mbind option_bind]. set (reqs := _ <$> bs).
  pose proof (λ n c i, rs_request_frame σ (rsq sd) reqs n c i) as Hrf.
  pose proof (λ n, rs_request_caps σ (rsq sd) reqs n) as Hrc.
  set (n := if decide _ then _ else _). specialize (Hrf n). specialize (Hrc n).
  destruct (rs_data_request σ _ _ n) as [[σ1 caps] st1]. simpl in Hrf.
  assert (lin_ok σ1 ss) as Hss1 by (apply (lin_ok_store σ); [done|]; intros c Hc; by apply (Hrf c 0)).
  assert (Hb1 : ∀ off, lin_byte σ1 ss off = lin_byte σ ss off)
    by (apply lin_byte_store; [done|]; intros c i Hc _; by apply Hrf).
  case_decide as Hst; cycle 1.
  { do 3 eexists. split; [done|]. rewrite op_failure_state. split; [exact Hss1|]. split; [exact Hb1|done]. }
  destruct (Hrc Hst) as (Hlen & Hnd & Hcaps). unfold reqs in Hlen.
  rewrite length_fmap in Hlen. unfold bs in Hlen. rewrite length_imap in Hlen.
  destruct (clone_slots (sl_ds sd) ids k caps Hlen) as [Hcl Hcc]. fold bs in Hcl, Hcc.
  set (l := zip_with clone_allocated bs caps) in *.
  assert (Hdis : ∀ b b', b ∈ k → b' ∈ l → slot_cap b ≠ slot_cap b').
  { intros b b' Hb Hb' He. destruct (Hcaps (slot_cap b')) as [Hnl _].
    - rewrite <- Hcc. by apply list_elem_of_fmap_2.
    - apply Hnl. rewrite <- He. destruct Hss as (_ & (_ & _ & Hl) & _). by apply Hl. }
  assert (Forall slot_ok k) as Hok by apply Hss.
  pose proof (clone_copies_spec k l σ1 Hcl ltac:(by rewrite Hcc) Hok Hdis) as Hcp.
  destruct (clone_copies σ1 (zip l k)) as [σ2 sts]. destruct Hcp as (Hl2 & Hfr2 & Hby2).
  assert (Hb2 : ∀ off, lin_byte σ2 ss off = lin_byte σ1 ss off).
  { apply lin_byte_store; [done|]. intros c i _ (b & off & Hb & -> & _). apply Hfr2.
    intros (b' & He & Hb')%list_elem_of_fmap. by apply (Hdis b b'). }
  do 3 eexists. split; [done|]. split; [by apply (lin_ok_store σ1)|].
  split; [intros; by rewrite Hb2|]. case_decide as Hw; [intros _|by rewrite op_failure_state].
  rewrite opque_waitall_success in Hw. specialize (Hby2 Hw).
  assert (Htl : tiles 0 (total_size ss) l) by (apply (clone_tiles k); [done|apply Hss]).
  set (m := foldl _ _ l).
  assert (isl_all m ≡ₚ l) as Hm.
  { unfold m. rewrite lin_insert_list, Hempty, app_nil_r; [done|apply Htl]. }
  assert (slots_ok σ2 l) as Hsl.
  { split_and!; [|by rewrite Hcc|].
    - apply Forall_forall. intros b' Hb'. apply list_elem_of_lookup in Hb' as [j Hj].
      destruct (Forall2_lookup_r _ _ _ _ _ Hcl Hj) as (b & Hb & Ho & He & Hle & Hco).
      rewrite Forall_forall in Hok. destruct (Hok b) as [_ Hse]; [by eapply list_elem_of_lookup_2|].
      split; [done|]. lia.
    - intros b' Hb'. apply Hl2, Hcaps. rewrite <- Hcc. by apply list_elem_of_fmap_2. }
  split; [|split; [done|split; [done|split]]].
  - split_and!; simpl; [by rewrite Hm|by rewrite Hm|apply Hss|apply Hsd..].
  - intros off. rewrite <- Hb1. unfold lin_byte. simpl. unfold slots_byte.
    rewrite (find_cover_perm off _ _ Hm) by (rewrite Hm; apply Htl). fold k.
    destruct (find_cover off l) as [b'|] eqn:Hf'.
    + apply find_cover_in in Hf' as [Hb' Hc']. apply list_elem_of_lookup in Hb' as [j Hj].
      destruct (Forall2_lookup_r _ _ _ _ _ Hcl Hj) as (b & Hb & Ho & He & Hle & Hco).
      rewrite (find_cover_Some off k b); [|apply Hss|by eapply list_elem_of_lookup_2|
        unfold covers in *; simpl in *; lia].
      rewrite Forall_forall in Hok. destruct (Hok b) as [Hco0 Hse]; [by eapply list_elem_of_lookup_2|].
      unfold covers in Hc'. simpl in Hc'.
      rewrite (Hby2 j b b' _ Hb Hj) by lia. f_equal. lia.
    + destruct (find_cover off k) as [b|] eqn:Hf; [|done]. exfalso.
      apply find_cover_in in Hf as [Hb Hc]. apply list_elem_of_lookup in Hb as [j Hj].
      destruct (Forall2_lookup_l _ _ _ _ _ Hcl Hj) as (b' & Hb' & Ho & He & _).
      rewrite find_cover_None in Hf'. apply (Hf' b'); [by eapply list_elem_of_lookup_2|].
      unfold covers in *; simpl in *. lia.
  - intros b b' Hb Hb'. simpl in Hb'. rewrite Hm in Hb'. by apply Hdis.
Qed.
End clone_facts.
