(* ===== verification/SegLinearDemo.v ===== *)
(** * Linear segments: concrete runs

    The theorems of the linear segment at concrete inputs: a store in memory
    and the list interval structure. *)
From stdpp Require Import strings gmap.
From S2P Require Import Prelude Isl Seg Inip DataBlock DataStore SegLinear SegLinearRw SegLinearClone.
#[local] Open Scope Z_scope.

#[local] Existing Instance gop_std.
#[local] Existing Instance gop_std_ok.
#[local] Existing Instance list_isl.
#[local] Existing Instance list_isl_ok.

(** Allocations are numbers; their capability strings play no role here. *)
#[local] Instance nat_caps : CapSet nat unit := {|
  ds_cap_set_create := 0%nat; ds_get_cap _ _ := ""%string; ds_set_cap c _ _ := c;
  ds_cap_auto_warm _ := tt |}.

Definition lslot : Type := seglin_slot nat unit.
Definition lseg : Type := seglin_priv nat unit unit.

(** Ten bytes in blocks of four: allocations 5, 6 and 7. *)
Definition demo_slot (cap : nat) (off len : Z) : lslot :=
  Seglin_slot (Data_block off len len 1 1 cap "ibp" (Some "rid"%string) None None)
    0 off (off + len - 1) len.
Definition demo_slots : list lslot := [demo_slot 5 0 4; demo_slot 6 4 4; demo_slot 7 8 2].
Definition demo_lin (excess : Z) : lseg :=
  Seglin_priv 10 10 4 excess None 2 0 (demo_slots : @isl _ list_isl) "ibp".
Definition demo_store (room : bool) : mem_store :=
  Mem_store 8 (λ c i, 100 * Z.of_nat c + i) true room.
Definition demo_empty : lseg := segment_linear_create "ibp".
Definition demo_ids : nat → Z := Z.of_nat.
Definition demo_buf : tbuffer := λ p, 50 + p.

Lemma demo_tiles : tiles 0 10 demo_slots.
Proof.
  apply (tiles_app 0 4 10 [_] [_; _]); [lia|by apply tiles_one|].
  apply (tiles_app 4 8 10 [_] [_]); [lia|by apply tiles_one..].
Qed.

Lemma demo_lin_ok excess room : lin_ok (demo_store room) (demo_lin excess).
Proof.
  split; [exact demo_tiles|]. split; [|simpl; lia].
  change (isl_all (sl_isl (demo_lin excess))) with demo_slots. split_and!.
  - apply Forall_forall. intros b Hb. unfold demo_slots in Hb.
    repeat (apply elem_of_cons in Hb as [->|Hb]; [split; reflexivity|]). by apply not_elem_of_nil in Hb.
  - apply (bool_decide_unpack _). vm_compute. exact I.
  - intros b Hb. unfold demo_slots in Hb.
    repeat (apply elem_of_cons in Hb as [->|Hb]; [cbv; lia|]). by apply not_elem_of_nil in Hb.
Qed.

Lemma demo_empty_ok : lin_ok (demo_store true) demo_empty.
Proof.
  split; [apply tiles_nil|]. split; [|simpl; lia].
  split_and!; [constructor|constructor|by intros ? ?%not_elem_of_nil].
Qed.

Definition demo_iov : list ex_iovec := [Ex_iovec 2 4; Ex_iovec 9 1].

Lemma demo_iov_within : iov_within 10 demo_iov.
Proof. repeat constructor; simpl; lia. Qed.

(** ** Resizing *)
Lemma sl_truncate_correct_witness :
  ∃ σ' s' st, sl_truncate demo_ids (demo_store true) (demo_lin 1) 6 = Some (σ', s', st) ∧
    lin_ok σ' s' ∧ (total_size s' = 6 ∨ s' = demo_lin 1 ∧ op_st st = OP_STATE_FAILURE) ∧
    ∀ off, 0 ≤ off < Z.min 10 6 → lin_byte σ' s' off = lin_byte (demo_store true) (demo_lin 1) off.
Proof. apply (sl_truncate_correct demo_ids (demo_store true) (demo_lin 1) 6 (demo_lin_ok 1 true)). lia. Defined.

(** Growing from 10 to 17 stretches the last block and adds two. *)
Example demo_grow_run :
  (λ '(_, s, st), (op_st st, total_size s, sl_len <$> isl_all (sl_isl s))) <$>
    sl_truncate demo_ids (demo_store true) (demo_lin 1) 17 =
  Some (OP_STATE_SUCCESS, 17, [4; 4; 4; 4; 1]).
Proof. vm_compute. reflexivity. Qed.

Lemma sl_grow_table_fits_witness :
  ∃ bs, sl_grow_blocks "ibp" (Z.to_nat (17 - 12)) demo_ids 0 4 17 12 = Some (bs : list lslot) ∧
    Z.of_nat (length bs) ≤ (17 - 10) `quot` 4 + 1 ∧ Forall (λ b, 0 < sl_len b) bs.
Proof.
  apply (sl_grow_table_fits demo_ids (demo_store true) (demo_lin 1) 17 12
    (Some (demo_slot 7 8 2, 4)) (demo_lin_ok 1 true)); [simpl; lia|vm_compute; reflexivity].
Defined.

Lemma sl_grow_reserve_current_witness :
  (4 ≤ 2 → sl_grow demo_ids (demo_store true) (demo_lin 1) (- 10) = None) ∧
  (2 < 4 → ∃ σ' s' st, sl_grow demo_ids (demo_store true) (demo_lin 1) (- 10) = Some (σ', s', st) ∧
     (op_st st = OP_STATE_SUCCESS → lin_byte σ' s' (10 - 1) = 0)).
Proof.
  apply (sl_grow_reserve_current demo_ids (demo_store true) (demo_lin 1) (demo_slot 7 8 2)
           (demo_lin_ok 1 true)); [do 2 right; by left|reflexivity].
Defined.

(** ** Reading and writing *)
Lemma demo_complete : lin_complete (demo_lin 1) demo_iov 0.
Proof. vm_compute. reflexivity. Qed.

Lemma lin_single_complete_witness : lin_complete (demo_lin 1) [Ex_iovec 3 6] 0.
Proof.
  apply (lin_single_complete (demo_store true) (demo_lin 1) (Ex_iovec 3 6) 0 (demo_lin_ok 1 true)).
  repeat constructor; simpl; lia.
Defined.

(** Two extents of one block each: only the second is run. *)
Example demo_lost_run :
  lin_queued (demo_lin 1) [Ex_iovec 0 2; Ex_iovec 5 2] 0 = Some [Lin_op 6%nat 1 2 2].
Proof. vm_compute. reflexivity. Qed.

Lemma seglin_read_correct_witness :
  let '(σ', s', buf', err, st) :=
    seglin_read_func (λ _, 1) (demo_store true) (demo_lin 1) demo_iov demo_buf 0 in
  lin_ok σ' s' ∧ (∀ off, lin_byte σ' s' off = lin_byte (demo_store true) (demo_lin 1) off) ∧
  (err = OP_STATE_SUCCESS → ∀ p,
     buf' p = if decide (0 ≤ p < 0 + iov_total demo_iov)
              then lin_byte (demo_store true) (demo_lin 1) (iov_pos demo_iov 0 p) else demo_buf p) ∧
  sl_hard_errors s' = 0 + 1 ∧ st = op_success_status.
Proof.
  apply (seglin_read_correct (λ _, 1) (demo_store true) (demo_lin 1) demo_iov demo_buf 0
           (demo_lin_ok 1 true) demo_iov_within demo_complete).
Defined.

Lemma seglin_write_correct_witness :
  ∃ σ' s' st, seglin_write_func demo_ids (demo_store true) (demo_lin 1) demo_iov demo_buf 0 =
                Some (σ', s', st) ∧ lin_ok σ' s' ∧
    10 ≤ total_size s' ∧ used_size s' = Z.max 10 (iov_maxpos demo_iov + 1) ∧
    (iov_maxpos demo_iov < total_size s' → lin_complete s' demo_iov 0 → op_st st = OP_STATE_SUCCESS →
       ∀ off, 0 ≤ off < 10 ∨
              (∃ v, v ∈ demo_iov ∧ iov_offset v ≤ off < iov_offset v + iov_len v) →
         lin_byte σ' s' off =
         iov_overlay (lin_byte (demo_store true) (demo_lin 1)) demo_iov demo_buf 0 off).
Proof.
  apply (seglin_write_correct demo_ids (demo_store true) (demo_lin 1) demo_iov demo_buf 0
           (demo_lin_ok 1 true) (iov_within_ok _ _ demo_iov_within)). simpl. lia.
Defined.

Example lin_demo_write_run :
  (λ '(σ, s, st), (op_st st, used_size s, total_size s, lin_byte σ s <$> seqZ 0 15)) <$>
    seglin_write_func demo_ids (demo_store true) (demo_lin 3) [Ex_iovec 7 5] demo_buf 0 =
  Some (OP_STATE_SUCCESS, 12, 14, [500; 501; 502; 503; 600; 601; 602; 50; 51; 52; 53; 54; 800; 0; 0]).
Proof. vm_compute. reflexivity. Qed.

Lemma seglin_write_one_short_witness :
  ∃ σ' s' st, seglin_write_func demo_ids (demo_store true) (demo_lin 0) [Ex_iovec 7 5] demo_buf 0 =
                Some (σ', s', st) ∧
    total_size s' ≤ iov_maxpos [Ex_iovec 7 5] ∧ iov_maxpos [Ex_iovec 7 5] < used_size s'.
Proof.
  apply (seglin_write_one_short demo_ids (demo_store true) (demo_lin 0) [Ex_iovec 7 5] demo_buf 0
           (demo_lin_ok 0 true)); [repeat constructor; simpl; lia|reflexivity|vm_compute; discriminate].
Defined.

(** The status of the growth before a write is dropped.  With no space left
    in the store, a write across the end of the segment writes the part that
    exists, reports success, and leaves a size larger than the segment. *)
Theorem seglin_write_lost_growth :
  ∃ σ' s', seglin_write_func demo_ids (demo_store false) (demo_lin 1) [Ex_iovec 8 4] demo_buf 0 =
             Some (σ', s', op_success_status) ∧
    used_size s' = 12 ∧ total_size s' = 10.
Proof.
  exists (default (demo_store false)
           (fst ∘ fst <$> seglin_write_func demo_ids (demo_store false) (demo_lin 1) [Ex_iovec 8 4] demo_buf 0)).
  eexists. split; [vm_compute; reflexivity|]. split; reflexivity.
Qed.

(** ** Cloning *)
Lemma seglin_clone_correct_witness :
  (isl_all (sl_isl (demo_lin 1)) = [] →
     seglin_clone_func demo_ids (demo_store true) (demo_lin 1) demo_empty true = None) ∧
  (isl_all (sl_isl (demo_lin 1)) ≠ [] → ∃ σ' sd' st,
     seglin_clone_func demo_ids (demo_store true) (demo_lin 1) demo_empty true = Some (σ', sd', st) ∧
     lin_ok σ' (demo_lin 1) ∧
     (∀ off, lin_byte σ' (demo_lin 1) off = lin_byte (demo_store true) (demo_lin 1) off) ∧
     (op_st st = OP_STATE_SUCCESS → lin_ok σ' sd' ∧ total_size sd' = 10 ∧ used_size sd' = 10 ∧
        (∀ off, lin_byte σ' sd' off = lin_byte (demo_store true) (demo_lin 1) off) ∧
        ∀ b b', b ∈ isl_all (sl_isl (demo_lin 1)) → b' ∈ isl_all (sl_isl sd') → slot_cap b ≠ slot_cap b')).
Proof.
  apply (seglin_clone_correct demo_ids (demo_store true) (demo_lin 1) demo_empty true
           (demo_lin_ok 1 true) demo_empty_ok). reflexivity.
Defined.
