(* ===== verification/RsQuery.v ===== *)
(** * Resource queries (rs_query_base.c)

    A query is a linked list of elements in postfix order with a head and a
    tail pointer.  The elements live in an explicit heap, so that appending,
    copying and the stale tail pointer are what the code does; [None] is a null
    or dangling dereference, or a walk that does not end. *)
From Stdlib Require Import Ascii DecimalString.
From stdpp Require Import gmap strings.
From S2P Require Import Prelude Inip.
#[local] Open Scope Z_scope.

(** ** Data *)

Definition RSQ_BASE_OP_MAX_VAL : Z := 4.
Definition RSQ_BASE_OP_KV : Z := 1.
Definition RSQ_BASE_OP_NOT : Z := 2.
Definition RSQ_BASE_OP_AND : Z := 3.
Definition RSQ_BASE_OP_OR : Z := 4.
Definition RSQ_BASE_KV_MAX_VAL : Z := 3.
Definition RSQ_BASE_KV_OP_BITMASK : Z := 7.
Definition RSQ_BASE_KV_EXACT : Z := 1.
Definition RSQ_BASE_KV_PREFIX : Z := 2.
Definition RSQ_BASE_KV_ANY : Z := 3.
Definition RSQ_BASE_KV_UNIQUE : Z := 64.
Definition RSQ_BASE_KV_PICKONE : Z := 128.

(** A set bit of an operation. *)
Definition has_flag (op flag : Z) : bool := negb (Z.land op flag =? 0).

(** [rsq_base_ele_t] *)
Record rsq_ele := Rsq_ele {
  rq_op : Z; rq_key : option string; rq_val : option string;
  rq_key_op : Z; rq_val_op : Z; rq_next : option nat }.
#[export] Instance rsq_ele_eq_dec : EqDecision rsq_ele.
Proof. solve_decision. Defined.

Definition rq_set_next (e : rsq_ele) (n : option nat) : rsq_ele :=
  Rsq_ele (rq_op e) (rq_key e) (rq_val e) (rq_key_op e) (rq_val_op e) n.

(** [rsq_base_t], less the service. *)
Record rsq_base := Rsq_base { rq_head : option nat; rq_tail : option nat }.
#[export] Instance rsq_base_eq_dec : EqDecision rsq_base.
Proof. solve_decision. Defined.

Abbreviation rsq_heap := (gmap nat rsq_ele).

(** ** Operations *)

(** The walk of [rs_query_count]. *)
Fixpoint count_loop (fuel : nat) (h : rsq_heap) (q : option nat) (n_ele n_unique n_pickone : Z)
    : option (Z * Z * Z) :=
  match q, fuel with
  | None, _ => Some (n_ele, n_unique, n_pickone)
  | Some _, O => None
  | Some a, S fuel =>
      e ← h !! a;
      count_loop fuel h (rq_next e) (n_ele + 1)
        (if has_flag (rq_key_op e) RSQ_BASE_KV_UNIQUE || has_flag (rq_val_op e) RSQ_BASE_KV_UNIQUE
         then n_unique + 1 else n_unique)
        (if has_flag (rq_key_op e) RSQ_BASE_KV_PICKONE || has_flag (rq_val_op e) RSQ_BASE_KV_PICKONE
         then n_pickone + 1 else n_pickone)
  end.
Definition rs_query_count (h : rsq_heap) (q : rsq_base) : option (Z * Z * Z) :=
  count_loop (size h) h (rq_head q) 0 0 0.

(** [rs_query_base_destroy]: every element of the chain is freed. *)
Fixpoint destroy_loop (fuel : nat) (h : rsq_heap) (q : option nat) : option rsq_heap :=
  match q, fuel with
  | None, _ => Some h
  | Some _, O => None
  | Some a, S fuel => e ← h !! a; destroy_loop fuel (delete a h) (rq_next e)
  end.
Definition rs_query_base_destroy (h : rsq_heap) (q : rsq_base) : option rsq_heap :=
  destroy_loop (size h) h (rq_head q).

Definition rs_query_base_new : rsq_base := Rsq_base None None.

(** [prev->next = n], when there is a [prev]. *)
Definition rsq_link (h : rsq_heap) (prev : option nat) (n : nat) : option rsq_heap :=
  match prev with
  | Some p => e ← h !! p; Some (<[p := rq_set_next e (Some n)]> h)
  | None => Some h
  end.

(** The sanity check of [rs_query_base_add]: its error code, or 0. *)
Definition add_check (op key_op val_op : Z) : Z :=
  if decide (op > RSQ_BASE_OP_MAX_VAL) then 1 else
  if decide (key_op > RSQ_BASE_KV_MAX_VAL) then 2 else
  if decide (val_op > RSQ_BASE_KV_MAX_VAL) then 3 else
  if has_flag key_op RSQ_BASE_KV_UNIQUE && has_flag key_op RSQ_BASE_KV_UNIQUE then 4 else
  if has_flag val_op RSQ_BASE_KV_UNIQUE && has_flag val_op RSQ_BASE_KV_UNIQUE then 5 else 0.

(** [rs_query_base_add]: a null query is created.  The result code is last. *)
Definition rs_query_base_add (h : rsq_heap) (query : option rsq_base) (op : Z) (key : option string)
    (key_op : Z) (val : option string) (val_op : Z) : option (rsq_heap * option rsq_base * Z) :=
  if decide (add_check op key_op val_op ≠ 0) then Some (h, query, add_check op key_op val_op) else
  let n := fresh (dom h) in
  let h := <[n := Rsq_ele op key val key_op key_op None]> h in
  match query with
  | None => Some (h, Some (Rsq_base (Some n) (Some n)), 0)
  | Some q =>
      match rq_head q with
      | None => Some (h, Some (Rsq_base (Some n) (Some n)), 0)
      | Some hd =>
          t ← rq_tail q; h ← rsq_link h (Some t) n;
          Some (h, Some (Rsq_base (Some hd) (Some n)), 0)
      end
  end.

(** The copying loop of [rs_query_base_dup] and [rs_query_base_append]: the
    elements from [q] on are copied behind [prev]; [qn] is the last copy.  The
    step to the next element reads the list as it is then. *)
Fixpoint copy_loop (fuel : nat) (h : rsq_heap) (q head prev qn : option nat)
    : option (rsq_heap * option nat * option nat) :=
  match q, fuel with
  | None, _ => Some (h, head, qn)
  | Some _, O => None
  | Some a, S fuel =>
      e ← h !! a;
      let n := fresh (dom h) in
      h ← rsq_link (<[n := rq_set_next e None]> h) prev n;
      e ← h !! a;
      copy_loop fuel h (rq_next e) (match head with None => Some n | Some _ => head end) (Some n) (Some n)
  end.

(** [rs_query_base_dup] *)
Definition rs_query_base_dup (h : rsq_heap) (query : option rsq_base) : option (rsq_heap * rsq_base) :=
  q ← query;
  '(h, hd, qn) ← copy_loop (size h) h (rq_head q) None None None;
  Some (h, Rsq_base hd qn).

(** [rs_query_base_append] *)
Definition rs_query_base_append (h : rsq_heap) (query : rsq_base) (query_append : option rsq_base)
    : option (rsq_heap * rsq_base) :=
  match query_append with
  | None => Some (h, query)
  | Some qa =>
      '(h, hd, qn) ← copy_loop (size h) h (rq_head qa) (rq_head query) (rq_tail query) None;
      Some (h, Rsq_base hd qn)
  end.

Section text.
Context `{!Tokens}.

(** One element of [rs_query_base_print]. *)
Definition print_ele (e : rsq_ele) : string :=
  print_int (rq_op e) +:+ ":" +:+ tok_escape ":" (default "" (rq_key e)) +:+ ":" +:+
  print_int (rq_key_op e) +:+ ":" +:+ tok_escape ":" (default "" (rq_val e)) +:+ ":" +:+
  print_int (rq_val_op e).

Fixpoint print_loop (fuel : nat) (h : rsq_heap) (q : option nat) : option string :=
  match q, fuel with
  | None, _ => Some ""
  | Some _, O => None
  | Some a, S fuel =>
      e ← h !! a; s ← print_loop fuel h (rq_next e);
      Some (print_ele e +:+ (match rq_next e with Some _ => ";" | None => "" end) +:+ s)
  end.

(** [rs_query_base_print], with the result for a null query inside.  A text that
    does not fit the buffer is outside the model. *)
Definition print_bufsize : nat := Z.to_nat (10 * 1024).
Definition rs_query_base_print (rs_type : string) (h : rsq_heap) (query : option rsq_base)
    : option (option string) :=
  match query with
  | None => Some None
  | Some q =>
      s ← print_loop (size h) h (rq_head q);
      let s := rs_type +:+ ":" +:+ s in
      if decide (String.length s < print_bufsize)%nat then Some (Some s) else None
  end.

(** The five fields of an element. *)
Definition parse_ele (tstate : string) : rsq_ele :=
  let '(t1, tstate) := escape_string_token ":" tstate in
  let '(t2, tstate) := escape_string_token ":" tstate in
  let '(t3, tstate) := escape_string_token ":" tstate in
  let '(t4, tstate) := escape_string_token ":" tstate in
  let '(t5, tstate) := escape_string_token ":" tstate in
  Rsq_ele (atoi t1) (Some (tok_unescape t2)) (Some (tok_unescape t4)) (atoi t3) (atoi t5) None.

(** The loop of [rs_query_base_parse]: an element from [tstate], then the next
    token of [bstate] until it is empty. *)
Fixpoint parse_loop (fuel : nat) (h : rsq_heap) (root tail : option nat) (bstate tstate : string)
    : option (rsq_heap * option nat * option nat) :=
  match fuel with
  | O => None
  | S fuel =>
      let n := fresh (dom h) in
      let root := match root with None => Some n | Some _ => root end in
      h ← rsq_link (<[n := parse_ele tstate]> h) tail n;
      let '(token, bstate) := escape_string_token ";" bstate in
      if decide (token = "") then Some (h, root, Some n)
      else parse_loop fuel h root (Some n) bstate token
  end.

(** [rs_query_base_parse]; the service type in front is skipped. *)
Definition rs_query_base_parse (h : rsq_heap) (qstring : string) : option (rsq_heap * rsq_base) :=
  let '(token, bstate) := escape_string_token ";" qstring in
  let '(_, tstate) := escape_string_token ":" token in
  '(h, root, tail) ← parse_loop (S (String.length qstring)) h None None bstate tstate;
  Some (h, Rsq_base root tail).
End text.

(** ** Well-formed queries *)

(** The chain from [p] goes through the addresses [A] and holds the elements
    [L], which are listed without their links. *)
Fixpoint links (h : rsq_heap) (p : option nat) (A : list nat) (L : list rsq_ele) : Prop :=
  match A, L with
  | [], [] => p = None
  | a :: A, d :: L => p = Some a ∧ rq_next d = None ∧ ∃ n, h !! a = Some (rq_set_next d n) ∧ links h n A L
  | _, _ => False
  end.

(** A query holding the elements [L] at the addresses [A]. *)
Definition query_ok (h : rsq_heap) (q : rsq_base) (A : list nat) (L : list rsq_ele) : Prop :=
  links h (rq_head q) A L ∧ rq_tail q = last A ∧ NoDup A.

Lemma rq_next_set e n : rq_next (rq_set_next e n) = n.
Proof. done. Qed.
Lemma rq_set_next_set e n m : rq_set_next (rq_set_next e n) m = rq_set_next e m.
Proof. done. Qed.
Lemma rq_set_next_none e : rq_next e = None → rq_set_next e None = e.
Proof. by destruct e; intros; simplify_eq/=. Qed.

Lemma links_dom h p A L a : links h p A L → a ∈ A → a ∈ dom h.
Proof.
  revert p L. induction A as [|b A IH]; intros p [|d L] Hl Ha; try done; [by apply not_elem_of_nil in Ha|].
  destruct Hl as (-> & _ & n & Hb & Hl). apply elem_of_cons in Ha as [->|Ha]; [by apply elem_of_dom_2 in Hb|].
  by apply (IH n L).
Qed.

Lemma links_frame h h' p A L :
  (∀ a, a ∈ A → h' !! a = h !! a) → links h p A L → links h' p A L.
Proof.
  revert p L. induction A as [|b A IH]; intros p [|d L] Hf Hl; try done.
  destruct Hl as (-> & Hd & n & Hb & Hl). split; [done|]. split; [done|]. exists n.
  rewrite Hf by set_solver. split; [done|]. apply IH; [set_solver|done].
Qed.

Lemma links_size h p A L : NoDup A → links h p A L → (length A ≤ size h)%nat.
Proof.
  intros Hnd Hl. rewrite <- size_dom. rewrite <- (size_list_to_set (C := gset nat) A) by done.
  apply subseteq_size. intros a Ha%elem_of_list_to_set. by apply (links_dom h p A L).
Qed.

Lemma links_length h p A L : links h p A L → length A = length L.
Proof.
  revert p L. induction A as [|a A IH]; intros p [|d L] Hl; try done.
  destruct Hl as (_ & _ & n & _ & Hl). simpl. f_equal. by apply (IH n).
Qed.

Lemma links_end h p a A L : links h p (a :: A) L → ∃ z, last (a :: A) = Some z ∧ z ∈ a :: A.
Proof.
  intros _. destruct (last (a :: A)) as [z|] eqn:Hz; [|by apply last_None in Hz].
  exists z. split; [done|]. by apply last_Some_elem_of.
Qed.

(** Hanging a new element behind a chain. *)
Lemma links_snoc h p A L n e :
  links h p A L → NoDup A → n ∉ dom h → rq_next e = None → A ≠ [] →
  ∃ h', rsq_link (<[n := e]> h) (last A) n = Some h' ∧ links h' p (A ++ [n]) (L ++ [e]) ∧
    (∀ a, a ∉ A → a ≠ n → h' !! a = h !! a) ∧ dom h' = {[n]} ∪ dom h.
Proof.
  revert p L. induction A as [|a A IH]; intros p [|d L] Hl Hnd Hn He HA; try done.
  pose proof Hl as Hl0. destruct Hl as (-> & Hd & m & Ha & Hl). apply NoDup_cons in Hnd as [HaA Hnd].
  assert (a ≠ n) as Han by (intros ->; apply Hn; by apply elem_of_dom_2 in Ha).
  destruct A as [|b A].
  - destruct L as [|]; [|done]. simpl in Hl. subst m. simpl. rewrite lookup_insert_ne by done.
    rewrite Ha. simpl. eexists. split; [done|]. rewrite rq_set_next_set. split_and!; try done.
    + exists (Some n). rewrite lookup_insert_eq. split; [done|]. split_and!; [done..|].
      exists None. rewrite lookup_insert_ne, lookup_insert_eq by done. by rewrite rq_set_next_none.
    + intros c Hc Hcn. rewrite !lookup_insert_ne; set_solver.
    + rewrite !dom_insert_L. apply elem_of_dom_2 in Ha. set_solver.
  - destruct (IH m L Hl Hnd Hn He ltac:(done)) as (h' & Hlink & Hl' & Hf & Hdom).
    exists h'. rewrite last_cons_cons. split; [done|]. split_and!.
    + split; [done|]. split; [done|]. exists m. split; [|done]. by rewrite Hf.
    + intros c Hc Hcn. apply Hf; set_solver.
    + done.
Qed.

(** The step shared by all the operations that build a chain. *)
Lemma query_snoc h hd tl A L n e :
  query_ok h (Rsq_base hd tl) A L → n ∉ dom h → rq_next e = None →
  ∃ h', rsq_link (<[n := e]> h) tl n = Some h' ∧
    query_ok h' (Rsq_base (match hd with None => Some n | Some _ => hd end) (Some n)) (A ++ [n]) (L ++ [e]) ∧
    (∀ a, a ∉ A → a ≠ n → h' !! a = h !! a) ∧ dom h' = {[n]} ∪ dom h.
Proof.
  intros (Hl & Ht & Hnd) Hn He. simpl in *. subst tl.
  assert (NoDup (A ++ [n])) as Hnd'.
  { apply NoDup_app. split; [done|]. split; [|apply NoDup_singleton].
    intros a Ha Ha'%list_elem_of_singleton. subst a. apply Hn. by apply (links_dom h hd A L). }
  destruct A as [|a A].
  - destruct L as [|]; [|done]. simpl in Hl. subst hd. simpl. eexists. split; [done|]. split_and!.
    + split; [|by split]. simpl. split; [done|]. split; [done|]. exists None.
      rewrite lookup_insert_eq. by rewrite rq_set_next_none.
    + intros c _ Hc. by rewrite lookup_insert_ne.
    + by rewrite dom_insert_L.
  - destruct (links_snoc h hd (a :: A) L n e Hl Hnd Hn He ltac:(done)) as (h' & Hlink & Hl' & Hf & Hdom).
    exists h'. split; [done|]. split_and!; [|done|done].
    split; [|by rewrite last_snoc; split].
    destruct L as [|d L]; [done|]. destruct Hl as (-> & _). done.
Qed.

Lemma fresh_not_in (h : rsq_heap) : fresh (dom h) ∉ dom h.
Proof. apply is_fresh. Qed.

(** What is outside the chain is left alone, and nothing is freed. *)
Definition heap_ext (A : list nat) (h h' : rsq_heap) : Prop :=
  dom h ⊆ dom h' ∧ ∀ a, a ∈ dom h → a ∉ A → h' !! a = h !! a.

Lemma heap_ext_links A h h' p B L :
  heap_ext A h h' → (∀ b, b ∈ B → b ∉ A) → links h p B L → links h' p B L.
Proof.
  intros [_ Hf] Hdisj Hl. apply (links_frame h); [|done]. intros b Hb. apply Hf; [|by apply Hdisj].
  by apply (links_dom h p B L).
Qed.

Lemma heap_ext_refl A h : heap_ext A h h.
Proof. by split. Qed.

(** ** Copying *)
Lemma copy_loop_spec B : ∀ fuel h q M hd prev A L qn,
  links h q B M → NoDup B → (∀ a, a ∈ A → a ∉ B) → query_ok h (Rsq_base hd prev) A L →
  (length B ≤ fuel)%nat →
  ∃ h' hd' A', copy_loop fuel h q hd prev qn = Some (h', hd', match last A' with Some n => Some n | None => qn end) ∧
    query_ok h' (Rsq_base hd' (last (A ++ A'))) (A ++ A') (L ++ M) ∧
    heap_ext A h h' ∧ (∀ a, a ∈ A' → a ∉ dom h) ∧ length A' = length B.
Proof.
  induction B as [|b B IH]; intros fuel h q M hd prev A L qn Hq Hnd Hdisj Hok Hfuel.
  - destruct M as [|]; [|done]. simpl in Hq. subst q. exists h, hd, [].
    assert (copy_loop fuel h None hd prev qn = Some (h, hd, qn)) as -> by (by destruct fuel).
    rewrite !app_nil_r. destruct Hok as (Hl & Ht & HA). simpl in Ht. subst prev.
    split; [done|]. split; [by split|]. split; [apply heap_ext_refl|].
    split; [|done]. by intros a ?%not_elem_of_nil.
  - destruct M as [|d M]; [done|]. destruct Hq as (-> & Hd & m & Hb & Hq).
    apply NoDup_cons in Hnd as [HbB Hnd]. destruct fuel as [|fuel]; [simpl in Hfuel; lia|].
    cbn [copy_loop]. rewrite Hb. cbn [mbind option_bind]. rewrite rq_set_next_set, rq_set_next_none by done.
    set (n := fresh (dom h)). pose proof (fresh_not_in h) as Hn. fold n in Hn. clearbody n.
    destruct (query_snoc h hd prev A L n d Hok Hn Hd) as (h1 & -> & Hok1 & Hf1 & Hdom1). cbn [mbind option_bind].
    assert (∀ a, a ∈ b :: B → a ∈ dom h) as HB.
    { intros a Ha. apply (links_dom h (Some b) (b :: B) (d :: M)); [|done]. split; [done|]. split; [done|]. by exists m. }
    assert (∀ a, a ∈ b :: B → h1 !! a = h !! a) as HfB.
    { intros a Ha. apply Hf1; [set_solver|]. intros ->. by apply Hn, HB. }
    rewrite HfB by set_solver. rewrite Hb. cbn [mbind option_bind]. rewrite rq_next_set.
    destruct (IH fuel h1 m M (match hd with None => Some n | Some _ => hd end) (Some n) (A ++ [n]) (L ++ [d]) (Some n))
      as (h' & hd' & A' & Hrun & Hok' & [Hext1 Hext2] & Hfresh & Hlen).
    { apply (links_frame h); [|done]. intros a Ha. apply HfB. by right. }
    { done. }
    { intros a [Ha|Ha%list_elem_of_singleton]%elem_of_app; [set_solver|]. subst a. intros Ha. apply Hn, HB. by right. }
    { done. }
    { simpl in Hfuel. lia. }
    rewrite <- !app_assoc in Hok'. simpl in Hok'. exists h', hd', (n :: A'). split.
    { rewrite Hrun. do 2 f_equal. destruct A' as [|a A']; [done|]. rewrite last_cons_cons.
      destruct (last (a :: A')) eqn:Hz; [done|]. by apply last_None in Hz. }
    split; [done|]. split; [|split].
    + split; [set_solver|]. intros a Ha HaA. rewrite Hext2.
      * apply Hf1; [done|]. by intros ->.
      * set_solver.
      * rewrite elem_of_app, list_elem_of_singleton. intros [Hc|Hc]; [by apply HaA|by subst a].
    + intros a [->|Ha]%elem_of_cons; [done|]. intros Had. apply (Hfresh a Ha). set_solver.
    + simpl. by f_equal.
Qed.

(** A copy holds the same elements at new addresses and leaves the heap as it
    was. *)
Lemma rs_query_base_dup_spec h q B M :
  query_ok h q B M →
  ∃ h' q' A', rs_query_base_dup h (Some q) = Some (h', q') ∧ query_ok h' q' A' M ∧
    query_ok h' q B M ∧ heap_ext [] h h' ∧ ∀ a, a ∈ A' → a ∉ dom h.
Proof.
  intros (Hl & Ht & Hnd).
  destruct (copy_loop_spec B (size h) h (rq_head q) M None None [] [] None) as (h' & hd' & A' & Hrun & Hok & Hext & Hf & Hlen).
  - done.
  - done.
  - by intros a ?%not_elem_of_nil.
  - split; [done|]. split; [done|]. constructor.
  - by apply (links_size h (rq_head q) B M).
  - exists h', (Rsq_base hd' (last A')), A'. simpl in *. unfold rs_query_base_dup. simpl. rewrite Hrun. simpl.
    split; [by destruct (last A')|]. split; [done|]. split; [|done].
    split; [|done]. apply (heap_ext_links [] h); [done| |done]. by intros b _ ?%not_elem_of_nil.
Qed.

(** The check passes exactly the values without flags. *)
Lemma add_check_ok op key_op val_op :
  op ≤ RSQ_BASE_OP_MAX_VAL → 0 ≤ key_op ≤ RSQ_BASE_KV_MAX_VAL → 0 ≤ val_op ≤ RSQ_BASE_KV_MAX_VAL →
  add_check op key_op val_op = 0.
Proof.
  intros Ho Hk Hv. unfold add_check, RSQ_BASE_KV_MAX_VAL in *. rewrite !decide_False by lia.
  assert (∀ k, 0 ≤ k ≤ 3 → has_flag k RSQ_BASE_KV_UNIQUE = false) as Hf.
  { intros k Hk'. by assert (k = 0 ∨ k = 1 ∨ k = 2 ∨ k = 3) as [-> | [-> | [-> | ->]]] by lia. }
  by rewrite !Hf by done.
Qed.

(** Appending a non-empty query puts copies of its elements at the end and
    leaves the appended query as it was. *)
Theorem rs_query_base_append_correct h q A L qa B M :
  query_ok h q A L → query_ok h qa B M → (∀ a, a ∈ A → a ∉ B) → M ≠ [] →
  ∃ h' q' A', rs_query_base_append h q (Some qa) = Some (h', q') ∧
    query_ok h' q' (A ++ A') (L ++ M) ∧ query_ok h' qa B M ∧
    ∀ a, a ∈ A' → a ∉ dom h.
Proof.
  intros Hq (Hl & Ht & Hnd) Hdisj HM. destruct q as [hd tl].
  destruct (copy_loop_spec B (size h) h (rq_head qa) M hd tl A L None) as (h' & hd' & A' & Hrun & Hok & Hext & Hf & Hlen).
  - done.
  - done.
  - done.
  - done.
  - by apply (links_size h (rq_head qa) B M).
  - exists h', (Rsq_base hd' (last (A ++ A'))), A'. simpl in *. unfold rs_query_base_append. simpl. rewrite Hrun.
    simpl. split_and!; [|done| |done].
    + rewrite last_app. destruct (last A') eqn:HA'; [done|]. apply last_None in HA'. subst A'.
      apply links_length in Hl. destruct B, M; simplify_eq/=.
    + split; [|done]. apply (heap_ext_links A h); [done| |done]. intros b Hb HbA. by apply (Hdisj b).
Qed.

(** Appending an empty query to one with elements loses the tail: the
    elements stay, but adding to the result is a null dereference. *)
Theorem rs_query_base_append_empty_crash h q A L op key key_op val val_op :
  query_ok h q A L → L ≠ [] → add_check op key_op val_op = 0 →
  ∃ q', rs_query_base_append h q (Some rs_query_base_new) = Some (h, q') ∧
    links h (rq_head q') A L ∧ rs_query_base_add h (Some q') op key key_op val val_op = None.
Proof.
  intros (Hl & Ht & Hnd) HL Hcheck. exists (Rsq_base (rq_head q) None).
  unfold rs_query_base_append, rs_query_base_new. simpl.
  assert (∀ n p q' r, copy_loop n h None p q' r = Some (h, p, r)) as -> by (by intros []).
  simpl. split; [done|]. split; [done|]. unfold rs_query_base_add.
  rewrite Hcheck, decide_False by (intros Hn; by apply Hn).
  destruct A as [|a A], L as [|d L]; try done. by destruct Hl as (-> & _).
Qed.

(** Adding an element: values out of range are refused, which includes every
    use of the unique and pick-one flags; otherwise the element goes to the end,
    with the key's operation as that of the value. *)
Theorem rs_query_base_add_correct h q A L op key key_op val val_op :
  query_ok h q A L → (rq_head q = None → rq_tail q = None) →
  if decide (op ≤ RSQ_BASE_OP_MAX_VAL ∧ key_op ≤ RSQ_BASE_KV_MAX_VAL ∧ val_op ≤ RSQ_BASE_KV_MAX_VAL ∧
             0 ≤ key_op ∧ 0 ≤ val_op) then
    ∃ h' q' n, rs_query_base_add h (Some q) op key key_op val val_op = Some (h', Some q', 0) ∧
      query_ok h' q' (A ++ [n]) (L ++ [Rsq_ele op key val key_op key_op None])
  else 0 ≤ key_op → 0 ≤ val_op → ∃ code, code ≠ 0 ∧
    rs_query_base_add h (Some q) op key key_op val val_op = Some (h, Some q, code).
Proof.
  intros Hq Htl. unfold rs_query_base_add. case_decide as Hr.
  - rewrite add_check_ok, decide_False by (lia || (intros Hn; by apply Hn)).
    set (n := fresh (dom h)). pose proof (fresh_not_in h) as Hn. fold n in Hn. clearbody n.
    set (e := Rsq_ele op key val key_op key_op None). destruct q as [hd tl].
    destruct (query_snoc h hd tl A L n e Hq Hn eq_refl) as (h1 & Hlink & Hok1 & _).
    destruct hd as [hd|]; cbn [rq_head rq_tail] in *.
    + destruct Hq as (Hl & Ht & Hnd). cbn [rq_head rq_tail] in *.
      destruct A as [|a A]; [by destruct L|]. destruct (links_end h (Some hd) a A L Hl) as (z & Hz & _).
      rewrite Ht, Hz in *. cbn [mbind option_bind]. rewrite Hlink. cbn [mbind option_bind]. by eexists _, _, _.
    + rewrite Htl in * by done. simpl in Hlink. injection Hlink as <-. by eexists _, _, _.
  - intros Hk Hv. assert (add_check op key_op val_op ≠ 0) as Hc.
    { unfold add_check. repeat (case_decide; [done|]). lia. }
    exists (add_check op key_op val_op). split; [done|]. by rewrite decide_True.
Qed.

(** ** Text form *)
Section round_trip.
Context `{!Tokens, !TokensOk}.

Lemma bare_app d p q : bare d p = true → bare d q = true → bare d (p +:+ q) = true.
Proof.
  intros Hp Hq. revert Hp. induction p as [|c|c c' p IH1 IH2] using string_ind2; intros Hp; [done|..].
  - change (String c "" +:+ q) with (String c q). cbn [bare] in *. case_decide; [done|]. by rewrite Hq, andb_true_r in *.
  - change (String c (String c' p) +:+ q) with (String c (String c' (p +:+ q))). cbn [bare] in *.
    destruct (decide (c = "\"%char)); [by apply IH1|].
    apply andb_true_iff in Hp as [Hc Hp]. apply andb_true_iff. split; [done|]. by apply IH2.
Qed.

Lemma bare_print_int d z : d = ":"%char ∨ d = ";"%char → bare d (print_int z) = true.
Proof.
  intros Hd.
  assert (∀ u, bare d (NilEmpty.string_of_uint u) = true) as Hu.
  { intros u. destruct Hd as [-> | ->];
      induction u as [|u IH|u IH|u IH|u IH|u IH|u IH|u IH|u IH|u IH|u IH]; try done; exact IH. }
  destruct z as [|p|p]; [by destruct Hd as [-> | ->]|by rewrite print_int_pos|].
  rewrite print_int_neg, print_int_pos. specialize (Hu (Pos.to_uint p)). by destruct Hd as [-> | ->].
Qed.

(** An element as it comes back: missing strings are empty. *)
Definition rq_norm (e : rsq_ele) : rsq_ele :=
  Rsq_ele (rq_op e) (Some (default "" (rq_key e))) (Some (default "" (rq_val e)))
    (rq_key_op e) (rq_val_op e) None.

(** No semicolons, which the printer does not escape. *)
Definition rq_plain (e : rsq_ele) : Prop :=
  lacks ";" (default "" (rq_key e)) = true ∧ lacks ";" (default "" (rq_val e)) = true.

Lemma token_colon p r : bare ":" p = true → escape_string_token ":" (p +:+ ":" +:+ r) = (p, r).
Proof. intros Hp. by apply token_delim. Qed.

Lemma parse_print_ele e : parse_ele (print_ele e) = rq_norm e.
Proof.
  unfold parse_ele, print_ele.
  rewrite token_colon by (apply bare_print_int; by left).
  rewrite token_colon by (by apply tok_escape_bare).
  rewrite token_colon by (apply bare_print_int; by left).
  rewrite token_colon by (by apply tok_escape_bare).
  rewrite token_last by (apply bare_print_int; by left).
  by rewrite !atoi_print_int, !tok_unescape_escape.
Qed.

Lemma bare_print_ele e : rq_plain e → bare ";" (print_ele e) = true.
Proof.
  intros [Hk Hv]. unfold print_ele.
  repeat first [apply bare_print_int; by right | by apply tok_escape_lacks | apply bare_app | done].
Qed.

Lemma print_ele_length e : (0 < String.length (print_ele e))%nat.
Proof. unfold print_ele. rewrite length_append. rewrite length_append. simpl. lia. Qed.

(** The elements with their separators. *)
Fixpoint query_text (L : list rsq_ele) : string :=
  match L with
  | [] => ""
  | e :: L => print_ele e +:+ (match L with [] => "" | _ => ";" end) +:+ query_text L
  end.

Lemma print_loop_spec h A fuel p L :
  links h p A L → (length A ≤ fuel)%nat → print_loop fuel h p = Some (query_text L).
Proof.
  revert fuel p L. induction A as [|a A IH]; intros fuel p [|d L] Hl Hf; try done.
  - simpl in Hl. subst p. by destruct fuel.
  - destruct Hl as (-> & Hd & n & Ha & Hl). destruct fuel as [|fuel]; [simpl in Hf; lia|].
    cbn [print_loop]. rewrite Ha. cbn [mbind option_bind]. rewrite rq_next_set, (IH _ n L); [|done|simpl in Hf; lia].
    cbn [mbind option_bind query_text]. do 3 f_equal.
    destruct A as [|b A], L as [|d' L]; try done; [by simpl in Hl; subst n|by destruct Hl as (-> & _)].
Qed.

Lemma query_text_one e : query_text [e] = print_ele e.
Proof. apply append_nil_r. Qed.

(** The next token of what follows an element. *)
Lemma query_text_token e L :
  rq_plain e → escape_string_token ";" (query_text (e :: L)) = (print_ele e, query_text L).
Proof.
  intros He. pose proof (bare_print_ele e He) as Hb. destruct L as [|d L].
  - by rewrite query_text_one, token_last.
  - by apply token_delim.
Qed.

Lemma query_text_length L : (length L ≤ String.length (query_text L))%nat.
Proof.
  induction L as [|e L IH]; [done|]. cbn [query_text]. rewrite !length_append.
  pose proof (print_ele_length e). simpl. lia.
Qed.

Lemma parse_loop_spec L : ∀ e fuel h root tail A M,
  query_ok h (Rsq_base root tail) A M → Forall rq_plain L → (length L < fuel)%nat →
  ∃ h' hd A', parse_loop fuel h root tail (query_text L) (print_ele e) = Some (h', hd, last (A ++ A')) ∧
    query_ok h' (Rsq_base hd (last (A ++ A'))) (A ++ A') (M ++ rq_norm e :: (rq_norm <$> L)) ∧
    heap_ext A h h' ∧ ∀ a, a ∈ A' → a ∉ dom h.
Proof.
  induction L as [|e' L IH]; intros e [|fuel] h root tail A M Hok Hp Hf; try lia;
    cbn [parse_loop]; rewrite parse_print_ele.
  all: set (n := fresh (dom h)); pose proof (fresh_not_in h) as Hn; fold n in Hn; clearbody n.
  all: destruct (query_snoc h root tail A M n (rq_norm e) Hok Hn eq_refl) as (h1 & -> & Hok1 & Hf1 & Hdom1).
  all: cbn [mbind option_bind].
  all: assert (heap_ext A h h1) as Hext by (split; [set_solver|]; intros a Ha HaA; apply Hf1; [done|]; by intros ->).
  - rewrite token_last by done. rewrite decide_True by done.
    exists h1, (match root with None => Some n | Some _ => root end), [n]. rewrite last_snoc.
    assert (∀ a, a ∈ [n] → a ∉ dom h) by (by intros a ->%list_elem_of_singleton). by destruct root.
  - apply Forall_cons in Hp as [Hp' Hp]. rewrite query_text_token by done.
    rewrite decide_False by (intros He; pose proof (print_ele_length e') as Hl; rewrite He in Hl; simpl in Hl; lia).
    destruct (IH e' fuel h1 (match root with None => Some n | Some _ => root end) (Some n) (A ++ [n]) (M ++ [rq_norm e]))
      as (h' & hd & A' & Hrun & Hok' & [Hext1 Hext2] & Hnew); [done|done|simpl in Hf; lia|].
    rewrite <- !app_assoc in *. simpl in *. exists h', hd, (n :: A'). split; [by destruct root|]. split; [done|].
    destruct Hext as [He1 He2]. split; cycle 1.
    { intros a [->|Ha]%elem_of_cons; [done|]. specialize (Hnew a Ha). set_solver. }
    split; [set_solver|]. intros a Ha HaA. rewrite Hext2; [by apply He2|set_solver|].
    rewrite elem_of_app, list_elem_of_singleton. intros [Hc|Hc]; [done|by subst a].
Qed.

(** C37: Parsing the text of a query gives the query back, its elements at new
    addresses and its missing strings as empty ones, and leaves the one that was
    printed alone: a query with at least one element, its strings without
    semicolons (which the printer does not escape), and its text within the
    buffer it is printed to. *)
Theorem rs_query_base_print_parse rs_type h q A L :
  query_ok h q A L → L ≠ [] → Forall rq_plain L →
  bare ":" rs_type = true → bare ";" rs_type = true →
  (String.length (rs_type +:+ ":" +:+ query_text L) < print_bufsize)%nat →
  ∃ s h' q' A', rs_query_base_print rs_type h (Some q) = Some (Some s) ∧
    rs_query_base_parse h s = Some (h', q') ∧ query_ok h' q' A' (rq_norm <$> L) ∧
    (∀ a, a ∈ A' → a ∉ dom h) ∧ query_ok h' q A L.
Proof.
  intros Hq HL Hp Htc Hts Hlen. destruct L as [|e L]; [done|]. clear HL.
  set (s := rs_type +:+ ":" +:+ query_text (e :: L)) in *. pose proof Hq as (Hl & Ht & Hnd).
  apply Forall_cons in Hp as [He Hp].
  destruct (parse_loop_spec L e (Datatypes.S (String.length s)) h None None [] []) as (h' & hd & A' & Hrun & Hok & Hext & Hnew).
  { split; [done|]. split; [done|]. constructor. }
  { done. }
  { unfold s. rewrite !length_append. pose proof (query_text_length (e :: L)). simpl in *. lia. }
  exists s, h', (Rsq_base hd (last A')), A'. rewrite !app_nil_l in *. split; [|split; [|split; [|split; [exact Hnew|]]]].
  - unfold rs_query_base_print.
    rewrite (print_loop_spec h A _ _ (e :: L)) by (done || by apply (links_size h (rq_head q) A (e :: L))).
    cbn [mbind option_bind]. by rewrite decide_True.
  - unfold rs_query_base_parse.
    assert (escape_string_token ";" s = (rs_type +:+ ":" +:+ print_ele e, query_text L)) as ->.
    { assert (bare ";" (rs_type +:+ ":" +:+ print_ele e) = true) as Hb.
      { apply bare_app; [done|]. apply bare_app; [done|]. by apply bare_print_ele. }
      unfold s. destruct L as [|d L]; [by rewrite query_text_one, token_last|].
      cbn [query_text]. rewrite (append_assoc ":"), (append_assoc rs_type).
        change (":" +:+ print_ele e) with (String ":" (print_ele e)) in *. by apply token_delim. }
    rewrite token_colon by done. rewrite Hrun. done.
  - done.
  - split; [|done]. apply (heap_ext_links [] h); [done| |done]. by intros b _ ?%not_elem_of_nil.
Qed.
End round_trip.

(** ** Examples *)
Definition demo_kv (k v : string) (n : option nat) : rsq_ele :=
  Rsq_ele RSQ_BASE_OP_KV (Some k) (Some v) RSQ_BASE_KV_EXACT RSQ_BASE_KV_ANY n.
Definition demo_and : rsq_ele := Rsq_ele RSQ_BASE_OP_AND None None 0 0 None.
(** "lun:a" and a second element at 0 and 1; one element at 5. *)
Definition demo_rsq_heap : rsq_heap :=
  {[ 0%nat := demo_kv "lun:a" "x" (Some 1%nat); 1%nat := demo_and; 5%nat := demo_kv "host" "" None ]}.
Definition demo_q : rsq_base := Rsq_base (Some 0%nat) (Some 1%nat).
Definition demo_qa : rsq_base := Rsq_base (Some 5%nat) (Some 5%nat).
Definition demo_L : list rsq_ele := [demo_kv "lun:a" "x" None; demo_and].

Lemma demo_q_ok : query_ok demo_rsq_heap demo_q [0%nat; 1%nat] demo_L.
Proof.
  split; [|split; [done|apply (bool_decide_unpack _); vm_compute; exact I]].
  split; [done|]. split; [done|]. exists (Some 1%nat). split; [done|].
  split; [done|]. split; [done|]. by exists None.
Qed.
Lemma demo_qa_ok : query_ok demo_rsq_heap demo_qa [5%nat] [demo_kv "host" "" None].
Proof.
  split; [|split; [done|apply (bool_decide_unpack _); vm_compute; exact I]].
  split; [done|]. split; [done|]. by exists None.
Qed.

Lemma rs_query_base_append_correct_witness :
  query_ok demo_rsq_heap demo_q [0%nat; 1%nat] demo_L ∧
  ∃ h' q' A', rs_query_base_append demo_rsq_heap demo_q (Some demo_qa) = Some (h', q') ∧
    query_ok h' q' ([0%nat; 1%nat] ++ A') (demo_L ++ [demo_kv "host" "" None]) ∧
    query_ok h' demo_qa [5%nat] [demo_kv "host" "" None] ∧ ∀ a, a ∈ A' → a ∉ dom demo_rsq_heap.
Proof.
  split; [exact demo_q_ok|].
  apply (rs_query_base_append_correct demo_rsq_heap demo_q [0%nat; 1%nat] demo_L demo_qa [5%nat]).
  - exact demo_q_ok.
  - exact demo_qa_ok.
  - set_solver.
  - done.
Defined.

Lemma rs_query_base_append_empty_crash_witness :
  add_check 1 1 3 = 0 ∧
  ∃ q', rs_query_base_append demo_rsq_heap demo_q (Some rs_query_base_new) = Some (demo_rsq_heap, q') ∧
    links demo_rsq_heap (rq_head q') [0%nat; 1%nat] demo_L ∧
    rs_query_base_add demo_rsq_heap (Some q') 1 (Some "host") 1 None 3 = None.
Proof.
  split; [done|].
  apply (rs_query_base_append_empty_crash demo_rsq_heap demo_q [0%nat; 1%nat] demo_L);
    [exact demo_q_ok|done|done].
Defined.

Lemma rs_query_base_add_correct_witness :
  (∃ h' q' n, rs_query_base_add demo_rsq_heap (Some demo_q) 1 (Some "host") 1 (Some "b") 3 = Some (h', Some q', 0) ∧
    query_ok h' q' ([0%nat; 1%nat] ++ [n]) (demo_L ++ [Rsq_ele 1 (Some "host") (Some "b") 1 1 None])) ∧
  ∃ code, code ≠ 0 ∧
    rs_query_base_add demo_rsq_heap (Some demo_q) 1 (Some "host") 1 (Some "b") 67 = Some (demo_rsq_heap, Some demo_q, code).
Proof.
  split.
  - pose proof (rs_query_base_add_correct demo_rsq_heap demo_q [0%nat; 1%nat] demo_L 1 (Some "host") 1 (Some "b") 3
      demo_q_ok ltac:(done)) as Hadd.
    rewrite decide_True in Hadd by (unfold RSQ_BASE_OP_MAX_VAL, RSQ_BASE_KV_MAX_VAL; lia). exact Hadd.
  - pose proof (rs_query_base_add_correct demo_rsq_heap demo_q [0%nat; 1%nat] demo_L 1 (Some "host") 1 (Some "b") 67
      demo_q_ok ltac:(done)) as Hadd.
    rewrite decide_False in Hadd by (unfold RSQ_BASE_OP_MAX_VAL, RSQ_BASE_KV_MAX_VAL; lia).
    by apply Hadd.
Defined.

Lemma rs_query_base_print_parse_witness :
  ∃ s h' q' A', @rs_query_base_print tokens_std "rs_simple" demo_rsq_heap (Some demo_q) = Some (Some s) ∧
    @rs_query_base_parse tokens_std demo_rsq_heap s = Some (h', q') ∧
    query_ok h' q' A' (rq_norm <$> demo_L) ∧ (∀ a, a ∈ A' → a ∉ dom demo_rsq_heap) ∧ query_ok h' demo_q [0%nat; 1%nat] demo_L.
Proof.
  pose proof (@rs_query_base_print_parse tokens_std tokens_std_ok "rs_simple" demo_rsq_heap demo_q
    [0%nat; 1%nat] demo_L demo_q_ok) as (s & h' & q' & A' & Hprint & Hparse & Hq & Hnew).
  - done.
  - apply (bool_decide_unpack _). vm_compute. exact I.
  - done.
  - done.
  - apply (bool_decide_unpack _). vm_compute. exact I.
  - exists s, h', q', A'. split; [exact Hprint|]. split; [exact Hparse|]. split; [exact Hq|exact Hnew].
Defined.
