(* ===== verification/RsTable.v ===== *)
(** * The resource table (rs_simple.c)

    The simple resource service reads its resources (RIDs) from a file, keeps
    them in a table and in a randomly permuted array, maps each RID to its
    check entry, and tracks their status.  The entries are shared objects: the
    table, the array and the mapping hold addresses into one store. *)
From stdpp Require Import gmap strings.
From S2P Require Import Prelude Inip.
#[local] Open Scope Z_scope.

(** ** The list library

    What is used of the toolbox's string-keyed lists.  The lists are ordered,
    but only this is relied on: a prefix search starts at an element before
    which no key has the prefix. *)
Class ListLib := {
  slist : Type → Type;
  list_create : ∀ {A}, slist A;
  (** the flag is whether the list was created to hold duplicates *)
  list_insert : ∀ {A}, bool → string → A → slist A → slist A;
  list_all : ∀ {A}, slist A → list (string * A);
  list_search : ∀ {A}, slist A → string → option A;
  list_iter_search_compare : ∀ {A}, slist A → string → list (string * A);
  string_get_integer : string → Z }.

Class ListLibOk `{ListLib} : Prop := {
  list_all_create A : list_all (A := A) list_create = [];
  list_insert_new A dups k (v : A) l :
    dups = true ∨ k ∉ fst <$> list_all l → list_all (list_insert dups k v l) ≡ₚ (k, v) :: list_all l;
  list_insert_old A k (v : A) l :
    k ∈ fst <$> list_all l →
    fst <$> list_all (list_insert false k v l) ≡ₚ fst <$> list_all l ∧
    ∀ x, x ∈ list_all (list_insert false k v l) → x ∈ list_all l ∨ x = (k, v);
  list_search_Some A (l : slist A) k v : list_search l k = Some v → (k, v) ∈ list_all l;
  list_search_None A (l : slist A) k : list_search l k = None → k ∉ fst <$> list_all l;
  list_iter_suffix A (l : slist A) k :
    ∃ skipped, list_all l = skipped ++ list_iter_search_compare l k ∧
      ∀ k' v, (k', v) ∈ skipped → String.prefix k k' = false }.

Section list_std.
Fixpoint assoc {A} (l : list (string * A)) (k : string) : option A :=
  match l with [] => None | (k', v) :: l => if decide (k' = k) then Some v else assoc l k end.
Fixpoint drop_unlike {A} (k : string) (l : list (string * A)) : list (string * A) :=
  match l with
  | (k', v) :: l' => if String.prefix k k' then l else drop_unlike k l'
  | [] => []
  end.
Definition list_std : ListLib :=
  {| slist A := list (string * A); list_create A := [];
     list_insert A dups k v l := if dups || bool_decide (k ∉ fst <$> l) then (k, v) :: l else l;
     list_all A l := l; list_search A l k := assoc l k;
     list_iter_search_compare A l k := drop_unlike k l;
     string_get_integer s := atoi s |}.

Lemma list_std_ok : @ListLibOk list_std.
Proof.
  split; simpl.
  - done.
  - intros A [] k v l; simpl; [done|]. intros [|Hk]; [done|]. by rewrite bool_decide_true.
  - intros A k v l Hk. rewrite bool_decide_false by (intros Hn; by apply Hn). split; [done|]. by left.
  - intros A l k v. induction l as [|[k' v'] l IH]; simpl; [done|]. case_decide; [|by right; apply IH].
    intros [= ->]. subst. by left.
  - intros A l k. induction l as [|[k' v'] l IH]; simpl; [by intros _ ?%not_elem_of_nil|].
    case_decide; [done|]. intros Hs [Hk|Hk]%elem_of_cons; [by subst|by apply IH].
  - intros A l k. induction l as [|[k' v'] l (sk & Hl & Hsk)]; simpl; [by exists []; split; [|intros ?? ?%not_elem_of_nil]|].
    destruct (String.prefix k k') eqn:Hp; [by exists []; split; [|intros ?? ?%not_elem_of_nil]|].
    exists ((k', v') :: sk). split; [by rewrite Hl at 1|].
    intros k'' v'' [[= -> ->]|Hin]%elem_of_cons; [done|]. by apply Hsk with v''.
Qed.
End list_std.

(** ** Data *)
Definition RS_STATUS_UP : Z := 0.
Definition RS_STATUS_IGNORE : Z := 1.
Definition RS_STATUS_OUT_OF_SPACE : Z := 2.
Definition RS_STATUS_DOWN : Z := 3.

Section rs_table.
Context `{!ListLib}.

(** [rss_rid_entry_t] *)
Record rss_rid_entry := Rss_rid_entry {
  rse_rid_key : string; rse_ds_key : string; rse_attr : slist string;
  rse_status : Z; rse_slot : nat;
  rse_space_total : Z; rse_space_used : Z; rse_space_free : Z }.

Definition rse_set_slot (e : rss_rid_entry) (n : nat) : rss_rid_entry :=
  Rss_rid_entry (rse_rid_key e) (rse_ds_key e) (rse_attr e) (rse_status e) n
    (rse_space_total e) (rse_space_used e) (rse_space_free e).
Definition rse_set_status (e : rss_rid_entry) (st : Z) : rss_rid_entry :=
  Rss_rid_entry (rse_rid_key e) (rse_ds_key e) (rse_attr e) st (rse_slot e)
    (rse_space_total e) (rse_space_used e) (rse_space_free e).
Definition rse_set_space (e : rss_rid_entry) (total used free : Z) : rss_rid_entry :=
  Rss_rid_entry (rse_rid_key e) (rse_ds_key e) (rse_attr e) (rse_status e) (rse_slot e) total used free.

(** [rss_check_entry_t]; the entry is an address. *)
Record rss_check_entry := Rss_check_entry { ce_ds_key : string; ce_rid_key : string; ce_re : nat }.

(** [rs_simple_priv_t], less the service handles, locks and intervals.
    [rss_rids] is the store the addresses refer to. *)
Record rs_simple_priv := Rs_simple_priv {
  rss_rids : list rss_rid_entry;
  rid_table : slist nat;
  random_array : list (option nat);
  rid_mapping : gmap string rss_check_entry;
  modify_time : Z; current_check : Z; min_free : Z;
  n_rids : nat; unique_rids : Z; dynamic_mapping : Z }.

(** ** Loading *)

(** The fields of an entry while its group is read. *)
Record rss_loading := Rss_loading {
  ld_rid_key : option string; ld_ds_key : option string; ld_attr : slist string;
  ld_status : Z; ld_total : Z; ld_used : Z; ld_free : Z }.

Definition load_element (r : rss_loading) (ele : string * string) : rss_loading :=
  let '(Rss_loading rid ds attr st total used free) := r in
  let '(key, value) := ele in
  if decide (key = "rid_key") then Rss_loading (Some value) ds (list_insert true key value attr) st total used free
  else if decide (key = "ds_key") then Rss_loading rid (Some value) attr st total used free
  else if decide (key = "status") then Rss_loading rid ds attr (atoi value) total used free
  else if decide (key = "space_free") then Rss_loading rid ds attr st total used (string_get_integer value)
  else if decide (key = "space_used") then Rss_loading rid ds attr st total (string_get_integer value) free
  else if decide (key = "space_total") then Rss_loading rid ds attr st (string_get_integer value) used free
  else Rss_loading rid ds (list_insert true key value attr) st total used free.

(** [rss_load_entry]: both keys must be there. *)
Definition rss_load_entry (grp : inip_group) : option rss_rid_entry :=
  let r := foldl load_element (Rss_loading None None list_create RS_STATUS_UP 0 0 0) grp in
  rid ← ld_rid_key r; ds ← ld_ds_key r;
  Some (Rss_rid_entry rid ds (ld_attr r) (ld_status r) 0 (ld_total r) (ld_used r) (ld_free r)).

(** The group loop of [_rs_simple_load]: the store and the table. *)
Definition load_group (acc : list rss_rid_entry * slist nat) (ig : string * inip_group)
    : list rss_rid_entry * slist nat :=
  if decide (ig.1 = "rid") then
    match rss_load_entry ig.2 with
    | Some e => (acc.1 ++ [e], list_insert false (rse_rid_key e) (length acc.1) acc.2)
    | None => acc
    end
  else acc.

(** The first free slot from [n] on, going around; it is always there. *)
Fixpoint free_slot (fuel : nat) (arr : list (option nat)) (n : nat) : option nat :=
  match arr !! n with
  | None => None
  | Some None => Some n
  | Some (Some _) =>
      match fuel with O => None | S fuel => free_slot fuel arr ((n + 1) mod length arr) end
  end.

(** One entry of the permuted array; [rnd] is what [random_int] returns. *)
Definition place_entry (rids : list rss_rid_entry) (arr : list (option nat)) (rnd a : nat)
    : option (list rss_rid_entry * list (option nat)) :=
  n ← free_slot (length arr) arr rnd;
  e ← rids !! a;
  Some (<[a := rse_set_slot e n]> rids, <[n := Some a]> arr).

Fixpoint place_all (rids : list rss_rid_entry) (arr : list (option nat)) (i : nat) (rnd : nat → nat)
    (todo : list (string * nat)) : option (list rss_rid_entry * list (option nat)) :=
  match todo with
  | [] => Some (rids, arr)
  | (_, a) :: todo =>
      '(rids, arr) ← place_entry rids arr (rnd i) a; place_all rids arr (S i) rnd todo
  end.

(** [_rs_simple_load]; the file is given by its groups. *)
Definition rs_simple_load (rnd : nat → nat) (file : list (string * inip_group)) (s : rs_simple_priv)
    : option rs_simple_priv :=
  let '(rids, table) := foldl load_group ([], list_create) file in
  let n := length (list_all table) in
  '(rids, arr) ← place_all rids (replicate n None) 0 rnd (list_all table);
  Some (Rs_simple_priv rids table arr (rid_mapping s) (modify_time s) (current_check s) (min_free s)
          n (unique_rids s) (dynamic_mapping s)).

(** ** The mapping *)

(** One slot of [_rss_make_check_table]: the first entry of a RID is kept. *)
Definition map_slot (rids : list rss_rid_entry) (acc : gmap string rss_check_entry * Z) (slot : option nat)
    : option (gmap string rss_check_entry * Z) :=
  a ← slot; re ← rids !! a;
  match acc.1 !! rse_rid_key re with
  | None => Some (<[rse_rid_key re := Rss_check_entry (rse_ds_key re) (rse_rid_key re) a]> acc.1, acc.2)
  | Some _ => Some (acc.1, 0)
  end.
Fixpoint map_slots (rids : list rss_rid_entry) (acc : gmap string rss_check_entry * Z)
    (slots : list (option nat)) : option (gmap string rss_check_entry * Z) :=
  match slots with
  | [] => Some acc
  | slot :: slots => acc ← map_slot rids acc slot; map_slots rids acc slots
  end.
Definition rss_make_check_table (s : rs_simple_priv) : option rs_simple_priv :=
  '(m, u) ← map_slots (rss_rids s) (∅, 1) (take (n_rids s) (random_array s));
  Some (Rs_simple_priv (rss_rids s) (rid_table s) (random_array s) m (modify_time s) (current_check s)
          (min_free s) (n_rids s) u (dynamic_mapping s)).

Definition rss_set_times (s : rs_simple_priv) (modify current : Z) : rs_simple_priv :=
  Rs_simple_priv (rss_rids s) (rid_table s) (random_array s) (rid_mapping s) modify current
    (min_free s) (n_rids s) (unique_rids s) (dynamic_mapping s).

(** [_rs_simple_refresh]: [file] is the file's time and groups, [None] when it is
    missing. *)
Definition rs_simple_refresh (rnd : nat → nat) (file : option (Z * list (string * inip_group)))
    (s : rs_simple_priv) : option rs_simple_priv :=
  match file with
  | None => Some s
  | Some (mtime, groups) =>
      if decide (modify_time s ≠ mtime) then
        s ← rs_simple_load rnd groups (rss_set_times s mtime (current_check s));
        rss_make_check_table s
      else Some s
  end.

(** ** Checks *)

(** The new status of an entry: [resp] is the space (total, used, free) a
    resource answers with.  The free space is compared as an unsigned number. *)
Definition check_entry (min_free : Z) (resp : option (Z * Z * Z)) (e : rss_rid_entry) : rss_rid_entry :=
  match resp with
  | Some (total, used, free) =>
      let e := rse_set_space e total used free in
      if decide (rse_status e ≠ RS_STATUS_IGNORE) then
        rse_set_status e (if decide (free mod 2 ^ 64 ≤ min_free) then RS_STATUS_OUT_OF_SPACE else RS_STATUS_UP)
      else e
  | None => if decide (rse_status e ≠ RS_STATUS_IGNORE) then rse_set_status e RS_STATUS_DOWN else e
  end.

(** One finished inquiry of [rss_perform_check]: the store and the change flag. *)
Definition check_result (min_free : Z) (inquire : string → option (Z * Z * Z))
    (acc : list rss_rid_entry * Z) (ce : rss_check_entry) : option (list rss_rid_entry * Z) :=
  e ← acc.1 !! ce_re ce;
  let e' := check_entry min_free (inquire (ce_ds_key ce)) e in
  Some (<[ce_re ce := e']> acc.1, if decide (rse_status e ≠ rse_status e') then 1 else acc.2).
Fixpoint check_results (min_free : Z) (inquire : string → option (Z * Z * Z))
    (acc : list rss_rid_entry * Z) (ces : list rss_check_entry) : option (list rss_rid_entry * Z) :=
  match ces with
  | [] => Some acc
  | ce :: ces => acc ← check_result min_free inquire acc ce; check_results min_free inquire acc ces
  end.

(** [rss_perform_check]: the new state and the change flag.  [s] is the state at
    the end of the inquiries, [ces] the entries in the order they finish. *)
Definition rss_perform_check (inquire : string → option (Z * Z * Z)) (ces : list rss_check_entry)
    (s : rs_simple_priv) : option (rs_simple_priv * Z) :=
  if decide (modify_time s = current_check s) then
    '(rids, change) ← check_results (min_free s) inquire (rss_rids s, 0) ces;
    Some (Rs_simple_priv rids (rid_table s) (random_array s) (rid_mapping s) (modify_time s)
            (current_check s) (min_free s) (n_rids s) (unique_rids s) (dynamic_mapping s), change)
  else Some (s, 0).

(** One round of [rss_check_thread]: the state, and the version to notify the
    clients of with its status flag, if any.  The inquiries are skipped when
    the timeout is not positive. *)
Definition rss_check_round (rnd : nat → nat) (file : option (Z * list (string * inip_group)))
    (check_timeout : Z) (inquire : string → option (Z * Z * Z)) (ces : list rss_check_entry)
    (s : rs_simple_priv) : option (rs_simple_priv * option (Z * Z)) :=
  s ← rs_simple_refresh rnd file s;
  let do_notify := bool_decide (current_check s ≠ modify_time s) in
  let s := if do_notify then rss_set_times s (modify_time s) (modify_time s) else s in
  let map_version := modify_time s in
  '(s, change) ← (if decide (check_timeout ≤ 0) then Some (s, 0) else rss_perform_check inquire ces s);
  Some (s, if (do_notify && bool_decide (dynamic_mapping s = 1)) || bool_decide (change ≠ 0)
           then Some (map_version, change) else None).

(** [rs_simple_get_rid_value]: a value that is not found is copied all the same,
    a null dereference. *)
Definition rs_simple_get_rid_value (s : rs_simple_priv) (rid_key key : string) : option string :=
  a ← list_search (rid_table s) rid_key; e ← rss_rids s !! a; list_search (rse_attr e) key.

(** [rss_translate_cap_set]: the data service key a RID maps to, if any. *)
Definition rss_translate_cap_set {C} (ds_translate : string → string → C → C) (s : rs_simple_priv)
    (rid_key : string) (cs : C) : C :=
  match rid_mapping s !! rid_key with
  | Some ce => ds_translate rid_key (ce_ds_key ce) cs
  | None => cs
  end.
End rs_table.

(** ** The table after a load *)
Section table_facts.
Context `{!ListLib, !ListLibOk}.
Implicit Types (rids : list rss_rid_entry) (arr : list (option nat)) (table : slist nat).

(** The table and the permuted array hold the same entries, each in its own
    slot. *)
Definition rss_ok (s : rs_simple_priv) : Prop :=
  n_rids s = length (list_all (rid_table s)) ∧ length (random_array s) = n_rids s ∧
  NoDup (fst <$> list_all (rid_table s)) ∧
  (∀ k a, (k, a) ∈ list_all (rid_table s) → ∃ e,
     rss_rids s !! a = Some e ∧ rse_rid_key e = k ∧ random_array s !! rse_slot e = Some (Some a)) ∧
  (∀ i x, random_array s !! i = Some x → ∃ a e,
     x = Some a ∧ rss_rids s !! a = Some e ∧ rse_slot e = i ∧ (rse_rid_key e, a) ∈ list_all (rid_table s)).

(** The mapping has the entry of every RID of the table, and nothing else. *)
Definition mapping_ok (s : rs_simple_priv) : Prop :=
  unique_rids s = 1 ∧
  ∀ k ce, rid_mapping s !! k = Some ce ↔ ∃ a e, (k, a) ∈ list_all (rid_table s) ∧
    rss_rids s !! a = Some e ∧ ce = Rss_check_entry (rse_ds_key e) k a.

Lemma NoDup_keys_eq {A} (l : list (string * A)) k v w :
  NoDup (fst <$> l) → (k, v) ∈ l → (k, w) ∈ l → v = w.
Proof.
  induction l as [|[k' x] l IH]; simpl; [by intros _ ?%not_elem_of_nil|].
  assert (∀ y, (k, y) ∈ l → k ∈ fst <$> l) as Hkey by (intros y Hy; apply list_elem_of_fmap; by exists (k, y)).
  intros [Hk Hnd]%NoDup_cons [Hv|Hv]%elem_of_cons [Hw|Hw]%elem_of_cons; simplify_eq; [done|..|by apply IH];
    by apply Hkey in Hv || apply Hkey in Hw.
Qed.

(** Invariant of the group loop. *)
Definition table_ok rids table : Prop :=
  NoDup (fst <$> list_all table) ∧
  ∀ k a, (k, a) ∈ list_all table → ∃ e, rids !! a = Some e ∧ rse_rid_key e = k.

Lemma table_ok_addrs rids table : table_ok rids table → NoDup (snd <$> list_all table).
Proof.
  intros [Hnd Hk]. apply NoDup_fmap_2_strong; [|by apply (NoDup_fmap_1 fst)].
  intros [k1 a1] [k2 a2] H1 H2 Ha. simpl in Ha. subst a2.
  destruct (Hk _ _ H1) as (e1 & He1 & <-), (Hk _ _ H2) as (e2 & He2 & <-). congruence.
Qed.

Lemma table_ok_insert rids table e :
  table_ok rids table →
  table_ok (rids ++ [e]) (list_insert false (rse_rid_key e) (length rids) table).
Proof.
  intros [Hnd Hk].
  assert (∀ k a, (k, a) ∈ list_all table → ∃ e', (rids ++ [e]) !! a = Some e' ∧ rse_rid_key e' = k) as Hold.
  { intros k a Hin. destruct (Hk k a Hin) as (e' & He' & ?). exists e'. split; [|done]. by apply lookup_app_l_Some. }
  assert ((rids ++ [e]) !! length rids = Some e) as Hnew by (by apply list_lookup_middle).
  destruct (decide (rse_rid_key e ∈ fst <$> list_all table)) as [Hin|Hout].
  - destruct (list_insert_old _ (rse_rid_key e) (length rids) table Hin) as [Hp Hall].
    split; [by rewrite Hp|]. intros k a [Hka|[= -> ->]]%Hall; [by apply Hold|by exists e].
  - pose proof (list_insert_new _ false (rse_rid_key e) (length rids) table (or_intror Hout)) as Hp.
    split; [by rewrite Hp; simpl; apply NoDup_cons|]. intros k a. rewrite Hp.
    intros [[= -> ->]|Hka]%elem_of_cons; [by exists e|by apply Hold].
Qed.

(** The RIDs of a file. *)
Definition file_rids (file : list (string * inip_group)) : list string :=
  omap (λ ig, if decide (ig.1 = "rid") then rse_rid_key <$> rss_load_entry ig.2 else None) file.

Lemma load_groups_spec file : ∀ rids table,
  table_ok rids table →
  table_ok (foldl load_group (rids, table) file).1 (foldl load_group (rids, table) file).2 ∧
  ∀ k, k ∈ fst <$> list_all (foldl load_group (rids, table) file).2 ↔
       k ∈ fst <$> list_all table ∨ k ∈ file_rids file.
Proof.
  induction file as [|ig file IH]; intros rids table Hok; simpl.
  - split; [done|]. intros k. split; [by left|]. by intros [?|?%not_elem_of_nil].
  - unfold load_group at 2 4 6. simpl. case_decide as Hig; [|by apply IH].
    destruct (rss_load_entry ig.2) as [e|]; simpl; [|by apply IH].
    destruct (IH _ _ (table_ok_insert rids table e Hok)) as [Hok' Hkeys]. split; [done|].
    intros k. rewrite Hkeys, elem_of_cons.
    enough (k ∈ fst <$> list_all (list_insert false (rse_rid_key e) (length rids) table) ↔
            k = rse_rid_key e ∨ k ∈ fst <$> list_all table) by tauto.
    destruct (decide (rse_rid_key e ∈ fst <$> list_all table)) as [Hin|Hout].
    + destruct (list_insert_old _ (rse_rid_key e) (length rids) table Hin) as [-> _]. set_solver.
    + rewrite (list_insert_new _ false (rse_rid_key e) (length rids) table (or_intror Hout)).
      simpl. apply elem_of_cons.
Qed.

(** ** Probing *)
Lemma free_slot_spec arr d : ∀ fuel n,
  (d ≤ fuel)%nat → (n < length arr)%nat → arr !! ((n + d) mod length arr)%nat = Some None →
  ∃ m, free_slot fuel arr n = Some m ∧ arr !! m = Some None.
Proof.
  induction d as [|d IH]; intros fuel n Hf Hn Hm.
  - rewrite Nat.add_0_r, Nat.mod_small in Hm by done. exists n. split; [|done].
    destruct fuel; cbn [free_slot]; by rewrite Hm.
  - destruct fuel as [|fuel]; [lia|]. cbn [free_slot].
    destruct (lookup_lt_is_Some_2 arr n Hn) as [[a|] Ha]; rewrite Ha; [|by exists n].
    apply IH; [lia|by apply Nat.mod_upper_bound; lia|].
    rewrite Nat.Div0.add_mod_idemp_l. by replace (n + 1 + d)%nat with (n + S d)%nat by lia.
Qed.

Lemma free_slot_found arr n :
  (n < length arr)%nat → (∃ m, arr !! m = Some None) →
  ∃ m, free_slot (length arr) arr n = Some m ∧ arr !! m = Some None.
Proof.
  intros Hn [m Hm]. pose proof (lookup_lt_Some _ _ _ Hm) as Hlt.
  apply (free_slot_spec arr ((m + length arr - n) mod length arr)); [|done|].
  - apply Nat.lt_le_incl, Nat.mod_upper_bound. lia.
  - rewrite Nat.Div0.add_mod_idemp_r. replace (n + (m + length arr - n))%nat with (m + 1 * length arr)%nat by lia.
    by rewrite Nat.Div0.mod_add, Nat.mod_small.
Qed.

(** The entries in the array. *)
Definition placed arr : list nat := omap id arr.

Lemma placed_cons x arr : placed (x :: arr) = match x with Some a => a :: placed arr | None => placed arr end.
Proof. by destruct x. Qed.

Lemma placed_insert arr n a : arr !! n = Some None → placed (<[n := Some a]> arr) ≡ₚ a :: placed arr.
Proof.
  intros Hn. rewrite <- (list_insert_id arr n None) at 2 by done.
  apply lookup_lt_Some in Hn. rewrite !insert_take_drop by done. unfold placed.
  rewrite !omap_app. simpl. by rewrite Permutation_middle.
Qed.

Lemma placed_room arr : (length (placed arr) < length arr)%nat → ∃ m, arr !! m = Some None.
Proof.
  induction arr as [|[a|] arr IH]; rewrite ?placed_cons; simpl; intros Hl; [lia| |by exists 0%nat].
  destruct IH as [m Hm]; [lia|by exists (S m)].
Qed.

Lemma placed_length arr : (length (placed arr) ≤ length arr)%nat.
Proof. induction arr as [|[b|] l IH]; [done|..]; rewrite placed_cons; simpl; lia. Qed.

Lemma placed_full arr i x : length (placed arr) = length arr → arr !! i = Some x → ∃ a, x = Some a.
Proof.
  intros Hl Hi. destruct x as [a|]; [by exists a|].
  pose proof (placed_insert arr i 0%nat Hi) as Hp. apply Permutation_length in Hp. simpl in Hp.
  pose proof (placed_length (<[i := Some 0%nat]> arr)) as Hle. rewrite length_insert in Hle. lia.
Qed.
Lemma placed_elem arr a : a ∈ placed arr ↔ ∃ i, arr !! i = Some (Some a).
Proof.
  unfold placed. rewrite list_elem_of_omap. split.
  - intros ([b|] & Hb & Heq); simplify_eq/=. apply list_elem_of_lookup in Hb as [i Hi]. by exists i.
  - intros [i Hi]. exists (Some a). split; [|done]. by apply list_elem_of_lookup_2 in Hi.
Qed.

(** The entries with their slots left out. *)
Definition unslotted rids : list rss_rid_entry := (λ e, rse_set_slot e 0) <$> rids.

Lemma unslotted_lookup rids rids' a e :
  unslotted rids' = unslotted rids → rids !! a = Some e →
  ∃ e', rids' !! a = Some e' ∧ rse_rid_key e' = rse_rid_key e ∧ rse_ds_key e' = rse_ds_key e.
Proof.
  intros Hu He. apply (f_equal (.!! a)) in Hu. unfold unslotted in Hu.
  rewrite !list_lookup_fmap, He in Hu. simpl in Hu.
  destruct (rids' !! a) as [e'|]; [|done]. simpl in Hu. exists e'. by destruct e, e'; simplify_eq/=.
Qed.

Definition placing_ok rids arr (done : list nat) : Prop :=
  placed arr ≡ₚ done ∧ ∀ i a, arr !! i = Some (Some a) → ∃ e, rids !! a = Some e ∧ rse_slot e = i.

Lemma place_entry_spec rids arr r a done :
  placing_ok rids arr done → a ∉ done → is_Some (rids !! a) →
  (r < length arr)%nat → (length done < length arr)%nat →
  ∃ rids' arr', place_entry rids arr r a = Some (rids', arr') ∧ placing_ok rids' arr' (a :: done) ∧
    unslotted rids' = unslotted rids ∧ length arr' = length arr.
Proof.
  intros [Hp Hs] Ha [e He] Hr Hroom.
  destruct (free_slot_found arr r Hr) as (m & Hm & Hfree); [apply placed_room; by rewrite Hp|].
  unfold place_entry. rewrite Hm. simpl. rewrite He. simpl. eexists _, _. split; [done|].
  split; [split|split].
  - rewrite placed_insert by done. by rewrite Hp.
  - intros i b Hi. destruct (decide (i = m)) as [->|Hne].
    + rewrite list_lookup_insert_eq in Hi by (by apply lookup_lt_Some in Hfree). injection Hi as <-.
      exists (rse_set_slot e m). split; [|done]. apply list_lookup_insert_eq. by apply lookup_lt_Some in He.
    + rewrite list_lookup_insert_ne in Hi by done. rewrite list_lookup_insert_ne; [by apply Hs|].
      intros <-. apply Ha. rewrite <- Hp. apply placed_elem. by exists i.
  - unfold unslotted. rewrite list_fmap_insert. apply list_insert_id.
    by rewrite list_lookup_fmap, He.
  - apply length_insert.
Qed.

Lemma place_all_spec rnd todo : ∀ rids arr i done,
  placing_ok rids arr done → NoDup ((snd <$> todo) ++ done) →
  (∀ a, a ∈ snd <$> todo → is_Some (rids !! a)) →
  (length todo + length done ≤ length arr)%nat → (∀ j, todo ≠ [] → rnd j < length arr)%nat →
  ∃ rids' arr', place_all rids arr i rnd todo = Some (rids', arr') ∧
    placing_ok rids' arr' ((snd <$> todo) ++ done) ∧
    unslotted rids' = unslotted rids ∧ length arr' = length arr.
Proof.
  induction todo as [|[k a] todo IH]; intros rids arr i done Hok Hnd Hin Hlen Hrnd; simpl in *.
  - by exists rids, arr.
  - apply NoDup_cons in Hnd as [Ha Hnd]. rewrite elem_of_app in Ha.
    destruct (place_entry_spec rids arr (rnd i) a done) as (rids1 & arr1 & -> & Hok1 & Hu1 & Hl1);
      [done|tauto|apply Hin; by left|by apply Hrnd|lia|]. simpl.
    destruct (IH rids1 arr1 (S i) (a :: done)) as (rids2 & arr2 & Hrun & Hok2 & Hu2 & Hl2).
    + done.
    + rewrite <- Permutation_middle. apply NoDup_cons. split; [|done]. by rewrite elem_of_app.
    + intros b Hb. destruct (Hin b ltac:(by right)) as [e He].
      destruct (unslotted_lookup _ _ _ _ Hu1 He) as (e' & ? & _). by exists e'.
    + simpl. lia.
    + intros j _. rewrite Hl1. by apply Hrnd.
    + exists rids2, arr2. split; [done|]. split; [|by rewrite Hu2, Hl2].
      destruct Hok2 as [Hp Hs]. split; [|done]. rewrite Hp. by rewrite <- Permutation_middle.
Qed.

(** ** Loading and mapping *)
Lemma rs_simple_load_spec rnd file s :
  (∀ i n, (0 < n)%nat → rnd n i < n)%nat →
  let n := length (list_all (foldl load_group ([], list_create) file).2) in
  ∃ s', rs_simple_load (rnd n) file s = Some s' ∧ rss_ok s' ∧
    (∀ k, k ∈ fst <$> list_all (rid_table s') ↔ k ∈ file_rids file) ∧
    modify_time s' = modify_time s ∧ current_check s' = current_check s.
Proof.
  intros Hrnd n.
  assert (table_ok [] list_create) as Hok0.
  { unfold table_ok. rewrite list_all_create. split; [constructor|]. by intros k a ?%not_elem_of_nil. }
  destruct (load_groups_spec file [] list_create Hok0) as [Hok Hkeys]. unfold rs_simple_load.
  destruct (foldl load_group _ file) as [rids table]. simpl in *. subst n.
  pose proof (table_ok_addrs _ _ Hok) as Hnda. destruct Hok as [Hnd Hk].
  destruct (place_all_spec (rnd (length (list_all table))) (list_all table) rids
              (replicate (length (list_all table)) None) 0 []) as (rids' & arr & Hrun & Hpl & Hu & Hl).
  - split; [|by intros i a [? _]%lookup_replicate]. induction (length _) as [|m IH]; [done|]. exact IH.
  - by rewrite app_nil_r.
  - intros a ([k a'] & -> & Hin)%list_elem_of_fmap. destruct (Hk _ _ Hin) as (e & He & _). by exists e.
  - rewrite length_replicate. simpl. lia.
  - intros j Hne. rewrite length_replicate. apply Hrnd. destruct (list_all table); [done|simpl; lia].
  - rewrite app_nil_r in Hpl. destruct Hpl as [Hp Hs]. rewrite length_replicate in Hl. rewrite Hrun. simpl.
    eexists. split; [done|]. split; [|split; [|by split]].
    + split; [done|]. split; [done|]. split; [done|]. simpl. split.
      * intros k a Hin. destruct (Hk _ _ Hin) as (e & He & <-).
        destruct (unslotted_lookup _ _ _ _ Hu He) as (e' & He' & Hkey & _). exists e'. split; [done|]. split; [done|].
        assert (a ∈ placed arr) as [i Hi]%placed_elem.
        { rewrite Hp. apply list_elem_of_fmap. by exists (rse_rid_key e, a). }
        destruct (Hs i a Hi) as (e'' & He'' & Hi'). congruence.
      * intros i x Hi. destruct (placed_full arr i x) as [a ->]; [by rewrite Hp, length_fmap, Hl|done|].
        destruct (Hs i a Hi) as (e & He & Hslot). exists a, e. split; [done|]. split; [done|]. split; [done|].
        assert (a ∈ snd <$> list_all table) as ([k a'] & -> & Hin)%list_elem_of_fmap.
        { rewrite <- Hp. apply placed_elem. by exists i. }
        simpl in *. destruct (Hk _ _ Hin) as (e0 & He0 & <-).
        destruct (unslotted_lookup _ _ _ _ Hu He0) as (e' & He' & Hkey & _). congruence.
    + intros k. simpl. rewrite Hkeys, list_all_create. simpl. set_solver.
Qed.

(** The slots of distinct RIDs each get their check entry. *)
Lemma map_slots_spec rids slots : ∀ m u,
  (∀ x, x ∈ slots → ∃ a e, x = Some a ∧ rids !! a = Some e ∧ m !! rse_rid_key e = None) →
  (∀ i j a b e f, slots !! i = Some (Some a) → slots !! j = Some (Some b) →
     rids !! a = Some e → rids !! b = Some f → rse_rid_key e = rse_rid_key f → i = j) →
  ∃ m', map_slots rids (m, u) slots = Some (m', u) ∧
    ∀ k ce, m' !! k = Some ce ↔ m !! k = Some ce ∨
      ∃ a e, Some a ∈ slots ∧ rids !! a = Some e ∧ rse_rid_key e = k ∧ ce = Rss_check_entry (rse_ds_key e) k a.
Proof.
  induction slots as [|x slots IH]; intros m u Hin Hdist; simpl.
  - exists m. split; [done|]. intros k ce. split; [by left|]. by intros [?|(a & e & ?%not_elem_of_nil & _)].
  - destruct (Hin x) as (a & e & -> & He & Hm); [by left|]. unfold map_slot at 1. simpl. rewrite He. simpl. rewrite Hm. simpl.
    destruct (IH (<[rse_rid_key e:=Rss_check_entry (rse_ds_key e) (rse_rid_key e) a]> m) u) as (m' & Hrun & Hm').
    + intros y Hy. destruct (Hin y) as (b & f & -> & Hf & Hmf); [by right|]. exists b, f. split; [done|]. split; [done|].
      rewrite lookup_insert_ne; [done|]. intros Heq. apply list_elem_of_lookup in Hy as [j Hj].
      by pose proof (Hdist 0%nat (S j) a b e f eq_refl Hj He Hf Heq).
    + intros i j b c f g Hi Hj Hf Hg Heq. by pose proof (Hdist (S i) (S j) b c f g Hi Hj Hf Hg Heq) as [= ->].
    + exists m'. split; [done|]. intros k ce. rewrite Hm'. split.
      * intros [Hk|(b & f & Hb & Hf & <- & ->)]; [|by right; exists b, f; split; [right|]].
        destruct (decide (k = rse_rid_key e)) as [->|Hne].
        { rewrite lookup_insert_eq in Hk. injection Hk as <-. right. exists a, e. by split; [left|]. }
        rewrite lookup_insert_ne in Hk by done. by left.
      * intros [Hk|(b & f & [[= ->]|Hb]%elem_of_cons & Hf & <- & ->)].
        { left. rewrite lookup_insert_ne; [done|]. intros <-. congruence. }
        { simplify_eq. left. by rewrite lookup_insert_eq. }
        { right. by exists b, f. }
Qed.

Lemma rss_make_check_table_spec s :
  rss_ok s →
  ∃ s', rss_make_check_table s = Some s' ∧ rss_ok s' ∧ mapping_ok s' ∧ rid_table s' = rid_table s ∧
    modify_time s' = modify_time s ∧ current_check s' = current_check s.
Proof.
  intros (Hn & Hl & Hnd & Ht & Ha). unfold rss_make_check_table. rewrite take_ge by lia.
  destruct (map_slots_spec (rss_rids s) (random_array s) ∅ 1) as (m & -> & Hm).
  - intros x Hx. apply list_elem_of_lookup in Hx as [i Hi]. destruct (Ha i x Hi) as (a & e & -> & He & _).
    exists a, e. split; [done|]. split; [done|]. apply lookup_empty.
  - intros i j a b e f Hi Hj He Hf Hkey.
    destruct (Ha _ _ Hi) as (? & ? & [= <-] & He' & <- & Hin). destruct (Ha _ _ Hj) as (? & ? & [= <-] & Hf' & <- & Hin').
    simplify_eq. rewrite Hkey in Hin.
    assert (a = b) as -> by (by apply (NoDup_keys_eq (list_all (rid_table s)) (rse_rid_key f))). congruence.
  - simpl. eexists. split; [done|]. split; [by repeat split|]. split; [|by repeat split]. split; [done|].
    intros k ce. simpl. rewrite Hm, lookup_empty. split.
    + intros [?|(a & e & Hin & He & <- & ->)]; [done|]. apply list_elem_of_lookup in Hin as [i Hi].
      destruct (Ha _ _ Hi) as (? & ? & [= <-] & He' & _ & Hin). simplify_eq. by exists a, e.
    + intros (a & e & Hin & He & ->). right. destruct (Ht _ _ Hin) as (e' & He' & <- & Hi). simplify_eq.
      exists a, e. split; [by apply list_elem_of_lookup_2 in Hi|done].
Qed.

(** C40: A refresh that finds the file changed terminates and leaves the array a
    permutation of the table, every entry in the slot it names, with a mapping
    of exactly the RIDs of the file and dynamic mapping allowed; with the file
    unchanged or missing nothing changes. *)
Theorem rs_simple_refresh_correct rnd file s :
  (∀ i n, (0 < n)%nat → rnd n i < n)%nat →
  match file with
  | Some (mtime, groups) =>
      let n := length (list_all (foldl load_group ([], list_create) groups).2) in
      if decide (modify_time s = mtime) then rs_simple_refresh (rnd n) file s = Some s
      else ∃ s', rs_simple_refresh (rnd n) file s = Some s' ∧ rss_ok s' ∧ mapping_ok s' ∧
             modify_time s' = mtime ∧
             ∀ k, k ∈ fst <$> list_all (rid_table s') ↔ k ∈ file_rids groups
  | None => rs_simple_refresh (rnd 0%nat) file s = Some s
  end.
Proof.
  intros Hrnd. destruct file as [[mtime groups]|]; [|done]. simpl. case_decide as Ht.
  - subst mtime. case_decide as Hc; [done|]. done.
  - rewrite decide_True by done.
    destruct (rs_simple_load_spec rnd groups (rss_set_times s mtime (current_check s)) Hrnd)
      as (s1 & -> & Hok & Hkeys & Hmt & _). simpl.
    destruct (rss_make_check_table_spec s1 Hok) as (s2 & -> & Hok2 & Hmap & Ht2 & Hmt2 & _).
    exists s2. split; [done|]. split; [done|]. split; [done|]. split; [by rewrite Hmt2, Hmt|]. by rewrite Ht2.
Qed.
End table_facts.
