(* ===== verification/RsSimple.v ===== *)
(** * Resource requests (rs_simple.c)

    A request picks a resource for each of its indices: it evaluates the query,
    a postfix program over a stack, on the resources from a random start on, and
    allocates the pieces on the first one that fits.  [None] is a null
    dereference or an access outside an array. *)
From Stdlib Require Import Ascii.
From stdpp Require Import gmap strings.
From S2P Require Import Prelude Inip RsQuery RsTable.
#[local] Open Scope Z_scope.

Definition RS_ERROR_OK : Z := -100.
Definition RS_ERROR_NOT_ENOUGH_RIDS : Z := -101.
Definition RS_ERROR_FIXED_MATCH_FAIL : Z := -102.
Definition RS_ERROR_FIXED_NOT_FOUND : Z := -103.
Definition RS_ERROR_HINTS_INVALID_LOCAL : Z := -104.
Definition RS_ERROR_EMPTY_STACK : Z := -105.

(** [strncmp] of [n] characters finds no difference. *)
Definition strncmp_eq (n : nat) (s t : string) : bool :=
  bool_decide (String.substring 0 n s = String.substring 0 n t).

(** ** Data *)

(** [kvq_ele_t] and [kvq_table_t]: what earlier picks matched. *)
Record kvq_ele := Kvq_ele { kv_key : option string; kv_value : option string }.
Record kvq_table := Kvq_table { kv_unique : list (list kvq_ele); kv_pickone : list kvq_ele }.
Definition kvq_none : kvq_ele := Kvq_ele None None.
Definition kv_set_key (e : kvq_ele) (b : bool) (k : string) : kvq_ele :=
  if b then Kvq_ele (Some k) (kv_value e) else e.
Definition kv_set_value (e : kvq_ele) (b : bool) (v : string) : kvq_ele :=
  if b then Kvq_ele (kv_key e) (Some v) else e.

(** [rid_change_entry_t], [rs_hints_t] with the address of its pick-from table,
    and [rs_request_t]. *)
Record rid_change := Rid_change { rc_state : Z; rc_delta : Z; rc_tolerance : Z }.
Record rs_hints := Rs_hints {
  h_fixed_rid_key : string; h_status : Z; h_local_rsq : option rsq_base; h_pick_from : option nat }.
Definition h_set_status (h : rs_hints) (st : Z) : rs_hints :=
  Rs_hints (h_fixed_rid_key h) st (h_local_rsq h) (h_pick_from h).
Record rs_request := Rs_request { rr_rid_index : Z; rr_size : Z; rr_rid_key : option string }.
Definition rr_set_key (r : rs_request) (k : option string) : rs_request :=
  Rs_request (rr_rid_index r) (rr_size r) k.

(** A queued [ds_allocate]: the request it serves, the resource and the size. *)
Record ds_alloc := Ds_alloc { al_request : nat; al_ds_key : string; al_size : Z }.

Section rs_simple.
Context `{!ListLib, !Gop}.

(** ** Testing one resource *)

Definition key_matches (op : Z) (q_key key : string) : bool :=
  if decide (op = RSQ_BASE_KV_EXACT) then bool_decide (key = q_key)
  else if decide (op = RSQ_BASE_KV_PREFIX) then strncmp_eq (String.length q_key) key q_key
  else bool_decide (op = RSQ_BASE_KV_ANY).
(** A prefix is compared up to the length [nlen] of the query's key. *)
Definition val_matches (op : Z) (nlen : nat) (q_val val : string) : bool :=
  if decide (op = RSQ_BASE_KV_EXACT) then bool_decide (val = q_val)
  else if decide (op = RSQ_BASE_KV_PREFIX) then strncmp_eq nlen val q_val
  else true.

(** No earlier pick has the key; a key that was not recorded is dereferenced. *)
Fixpoint uniq_key (n i : nat) (uniq : list kvq_ele) (key : string) : option bool :=
  match n with
  | O => Some true
  | S n => u ← uniq !! i; k ← kv_key u;
           if decide (key = k) then Some false else uniq_key n (S i) uniq key
  end.
(** The same for a value, where unrecorded ones are skipped. *)
Fixpoint uniq_val (n i : nat) (uniq : list kvq_ele) (val : string) : option bool :=
  match n with
  | O => Some true
  | S n => u ← uniq !! i;
           match kv_value u with
           | Some v => if decide (val = v) then Some false else uniq_val n (S i) uniq val
           | None => uniq_val n (S i) uniq val
           end
  end.

Definition is_unique (op : Z) : bool := has_flag op RSQ_BASE_KV_UNIQUE.
Definition is_pickone (op : Z) : bool := has_flag op RSQ_BASE_KV_PICKONE.
Definition kv_op (op : Z) : Z := Z.land op RSQ_BASE_KV_OP_BITMASK.

(** One pass of the attribute loop of [rss_test]. *)
Definition test_attr (q : rsq_ele) (n_match : nat) (uniq : list kvq_ele) (pickone : kvq_ele)
    (attr : string * string) : option bool :=
  let '(key, val) := attr in
  let q_key := default "" (rq_key q) in
  if key_matches (kv_op (rq_key_op q)) q_key key then
    f ← (if decide (n_match = 0%nat) then Some true
         else if is_unique (rq_key_op q) then uniq_key n_match 0 uniq key
         else if is_pickone (rq_key_op q) then k ← kv_key pickone; Some (bool_decide (key = k))
         else Some true);
    if f && val_matches (kv_op (rq_val_op q)) (String.length q_key) (default "" (rq_val q)) val then
      if decide (n_match = 0%nat) then Some true
      else if is_unique (rq_val_op q) then uniq_val n_match 0 uniq val
      else if is_pickone (rq_val_op q) then
        Some match kv_value pickone with Some v => bool_decide (val = v) | None => true end
      else Some true
    else Some false
  else Some false.

(** The first attribute that passes. *)
Fixpoint test_attrs (q : rsq_ele) (n_match : nat) (uniq : list kvq_ele) (pickone : kvq_ele)
    (attrs : list (string * string)) : option (option (string * string)) :=
  match attrs with
  | [] => Some None
  | attr :: attrs =>
      f ← test_attr q n_match uniq pickone attr;
      if f : bool then Some (Some attr) else test_attrs q n_match uniq pickone attrs
  end.

(** [rss_test]: the result and the updated records. *)
Definition rss_test (q : rsq_ele) (rse : rss_rid_entry) (n_match : nat) (uniq : list kvq_ele)
    (pickone : kvq_ele) : option (bool * list kvq_ele * kvq_ele) :=
  found ← test_attrs q n_match uniq pickone
            (list_iter_search_compare (rse_attr rse) (default "" (rq_key q)));
  match found with
  | None => Some (false, uniq, pickone)
  | Some (key, val) =>
      let ku := is_unique (rq_key_op q) in let vu := is_unique (rq_val_op q) in
      uniq ← (if ku || vu then
                u ← uniq !! n_match;
                Some (<[n_match := kv_set_value (kv_set_key u ku key) vu val]> uniq)
              else Some uniq);
      Some (true, uniq, kv_set_value (kv_set_key pickone (is_pickone (rq_key_op q)) key)
                          (is_pickone (rq_val_op q)) val)
  end.

(** ** Evaluating a query *)

(** The evaluation state: records, positions in them, and the stack. *)
Record eval_state := Eval_state {
  ev_kvq : kvq_table; ev_unique : nat; ev_pickone : nat; ev_stack : list Z }.

Definition b2z (b : bool) : Z := if b then 1 else 0.

(** One element on one resource.  The disjunction looks at the pointers popped,
    not at what they point to. *)
Definition eval_ele (rse : rss_rid_entry) (i : nat) (q : rsq_ele) (ev : eval_state) : option eval_state :=
  let '(Eval_state kvq iu ip stack) := ev in
  let op := rq_op q in
  if decide (op = RSQ_BASE_OP_KV) then
    uniq ← kv_unique kvq !! iu; pick ← kv_pickone kvq !! ip;
    '(found, uniq, pick) ← rss_test q rse i uniq pick;
    Some (Eval_state (Kvq_table (<[iu := uniq]> (kv_unique kvq)) (<[ip := pick]> (kv_pickone kvq)))
            (if is_unique (rq_key_op q) || is_unique (rq_val_op q) then S iu else iu)
            (if is_pickone (rq_key_op q) || is_pickone (rq_val_op q) then S ip else ip)
            (b2z found :: stack))
  else if decide (op = RSQ_BASE_OP_NOT) then
    match stack with
    | a :: stack => Some (Eval_state kvq iu ip ((if decide (a = 0) then 1 else 0) :: stack))
    | [] => None
    end
  else if decide (op = RSQ_BASE_OP_AND) then
    match stack with
    | a :: b :: stack =>
        Some (Eval_state kvq iu ip ((if decide (a ≠ 0 ∧ b ≠ 0) then 1 else 0) :: stack))
    | _ => None
    end
  else if decide (op = RSQ_BASE_OP_OR) then
    Some (Eval_state kvq iu ip ((match stack with [] => 0 | _ => 1 end) :: tail (tail stack)))
  else Some (Eval_state kvq iu ip (-1 :: stack)).

Fixpoint eval_chain (fuel : nat) (h : rsq_heap) (rse : rss_rid_entry) (i : nat) (q : option nat)
    (ev : eval_state) : option eval_state :=
  match q, fuel with
  | None, _ => Some ev
  | Some _, O => None
  | Some a, S fuel => e ← h !! a; ev ← eval_ele rse i e ev; eval_chain fuel h rse i (rq_next e) ev
  end.

(** The global query and then the local one on the same stack: the records and
    the top of the stack. *)
Definition eval_query (h : rsq_heap) (q : rsq_base) (q_local : option rsq_base) (rse : rss_rid_entry)
    (i : nat) (kvg kvl : kvq_table) : option (kvq_table * kvq_table * option Z) :=
  ev ← eval_chain (size h) h rse i (rq_head q) (Eval_state kvg 0 0 []);
  match q_local with
  | None => Some (ev_kvq ev, kvl, head (ev_stack ev))
  | Some ql =>
      ev' ← eval_chain (size h) h rse i (rq_head ql) (Eval_state kvl 0 0 (ev_stack ev));
      Some (ev_kvq ev, ev_kvq ev', head (ev_stack ev'))
  end.

(** ** The request *)

(** What the loops carry. *)
Record req_state := Req_state {
  rs_kvg : kvq_table; rs_kvl : kvq_table; rs_found : bool; rs_err_cnt : Z; rs_status : op_status;
  rs_hints_list : option (list rs_hints); rs_picks : gmap nat (gmap string rid_change);
  rs_req : list rs_request; rs_que : list ds_alloc }.
Definition rq_set_found (st : req_state) (b : bool) : req_state :=
  Req_state (rs_kvg st) (rs_kvl st) b (rs_err_cnt st) (rs_status st) (rs_hints_list st) (rs_picks st)
    (rs_req st) (rs_que st).
Definition rq_set_kvq (st : req_state) (g l : kvq_table) : req_state :=
  Req_state g l (rs_found st) (rs_err_cnt st) (rs_status st) (rs_hints_list st) (rs_picks st)
    (rs_req st) (rs_que st).
Definition rq_set_status (st : req_state) (s : op_status) (err : Z) : req_state :=
  Req_state (rs_kvg st) (rs_kvl st) (rs_found st) (rs_err_cnt st + err) s (rs_hints_list st)
    (rs_picks st) (rs_req st) (rs_que st).
Definition rq_fail (st : req_state) (code err : Z) : req_state :=
  rq_set_status st (Op_status OP_STATE_FAILURE code) err.
(** [hints_list[i].status = code]. *)
Definition rq_set_hint (st : req_state) (i : nat) (code : Z) : option req_state :=
  hl ← rs_hints_list st; h ← hl !! i;
  Some (Req_state (rs_kvg st) (rs_kvl st) (rs_found st) (rs_err_cnt st) (rs_status st)
          (Some (<[i := h_set_status h code]> hl)) (rs_picks st) (rs_req st) (rs_que st)).

(** The space wanted on the resource of index [i]. *)
Definition req_change (i : nat) (reqs : list rs_request) : Z :=
  foldl (λ c r, if decide (rr_rid_index r = Z.of_nat i) then c + rr_size r else c) 0 reqs.

(** The requests of index [i] get the resource. *)
Definition assign_key (i : nat) (rse : rss_rid_entry) (r : rs_request) : rs_request :=
  if decide (rr_rid_index r = Z.of_nat i) then rr_set_key r (Some (rse_rid_key rse)) else r.
Definition assign_alloc (i : nat) (rse : rss_rid_entry) (k : nat) (r : rs_request) : option ds_alloc :=
  if decide (rr_rid_index r = Z.of_nat i) then Some (Ds_alloc k (rse_ds_key rse) (rr_size r)) else None.
Definition rq_assign (st : req_state) (i : nat) (rse : rss_rid_entry) : req_state :=
  Req_state (rs_kvg st) (rs_kvl st) true (rs_err_cnt st) (rs_status st) (rs_hints_list st) (rs_picks st)
    (assign_key i rse <$> rs_req st)
    (rs_que st ++ omap id (imap (assign_alloc i rse) (rs_req st))).

(** The restrictive list: [None] skips the resource, otherwise its table and
    change entry if there is a list. *)
Definition pick_entry (picks : gmap nat (gmap string rid_change)) (pick_from : option nat) (change : Z)
    (rse : rss_rid_entry) : option (option (nat * rid_change)) :=
  match pick_from with
  | None => Some None
  | Some p =>
      match (picks !! p) ≫= (.!! rse_rid_key rse) with
      | None => None
      | Some rc =>
          if decide (rc_state rc = 1) then None
          else if decide (rc_delta rc ≤ 0) then None
          else if decide (change - rc_delta rc > rc_tolerance rc) then None
          else Some (Some (p, rc))
      end
  end.

(** The change entry once the resource is used. *)
Definition rc_use (rc : rid_change) (change : Z) : rid_change :=
  let delta := rc_delta rc - change in
  Rid_change (if decide (Z.abs delta ≤ rc_tolerance rc ∨ rc_tolerance rc = 0) then 1 else 0)
    delta (rc_tolerance rc).
Definition rq_use (st : req_state) (rid_key : string) (pick : option (nat * rid_change)) (change : Z)
    : req_state :=
  match pick with
  | None => st
  | Some (p, rc) =>
      Req_state (rs_kvg st) (rs_kvl st) (rs_found st) (rs_err_cnt st) (rs_status st) (rs_hints_list st)
        (alter (<[rid_key := rc_use rc change]>) p (rs_picks st)) (rs_req st) (rs_que st)
  end.

(** The resources for index [i] in the order they are tried; the search ends at
    the first that fits, or when a fixed one does not. *)
Fixpoint rid_loop (h : rsq_heap) (q : rsq_base) (q_local : option rsq_base) (i fixed_size : nat)
    (ignore_fixed_err : bool) (pick_from : option nat) (change : Z) (s : rs_simple_priv)
    (slots : list nat) (st : req_state) : option req_state :=
  match slots with
  | [] => Some st
  | slot :: slots =>
      let continue := rid_loop h q q_local i fixed_size ignore_fixed_err pick_from change s slots in
      a ← mjoin (random_array s !! slot); rse ← rss_rids s !! a;
      match pick_entry (rs_picks st) pick_from change rse with
      | None => continue st
      | Some pick =>
          if decide (rse_status rse ≠ RS_STATUS_UP ∧ (fixed_size ≤ i)%nat) then continue st else
          '(kvg, kvl, top) ← eval_query h q q_local rse i (rs_kvg st) (rs_kvl st);
          let st := rq_set_kvq st kvg kvl in
          match top with
          | None => continue (rq_fail (rq_set_found st false) RS_ERROR_EMPTY_STACK 0)
          | Some state =>
              if decide (state = 1) then
                st ← (if decide (i < fixed_size)%nat then rq_set_hint st i RS_ERROR_OK else Some st);
                Some (rq_use (rq_assign st i rse) (rse_rid_key rse) pick change)
              else if decide (i < fixed_size)%nat then
                rq_set_hint (rq_fail st RS_ERROR_FIXED_MATCH_FAIL (if ignore_fixed_err then 0 else 1))
                  i RS_ERROR_FIXED_MATCH_FAIL
              else continue (rq_set_found st false)
          end
      end
  end.

(** The hints of index [i]: the local query, and where to start in the array.
    The inner [None] skips the index. *)
Definition hint_setup (h : rsq_heap) (s : rs_simple_priv) (i fixed_size rnd_off : nat) (st : req_state)
    : option (req_state * option (option rsq_base * nat * option nat)) :=
  match rs_hints_list st with
  | None => Some (st, Some (None, rnd_off, None))
  | Some hl =>
      hint ← hl !! i;
      invalid ← (match h_local_rsq hint with
                 | None => Some false
                 | Some ql => '(_, nu, np) ← rs_query_count h ql; Some (bool_decide (nu ≠ 0 ∧ np ≠ 0))
                 end);
      if invalid : bool then
        st ← rq_set_hint (rq_fail st RS_ERROR_FIXED_NOT_FOUND 1) i RS_ERROR_HINTS_INVALID_LOCAL;
        Some (st, None)
      else if decide (i < fixed_size)%nat then
        match list_search (rid_table s) (h_fixed_rid_key hint) with
        | None => st ← rq_set_hint st i RS_ERROR_FIXED_NOT_FOUND; Some (st, None)
        | Some a => e ← rss_rids s !! a;
                    Some (st, Some (h_local_rsq hint, rse_slot e, h_pick_from hint))
        end
      else Some (st, Some (h_local_rsq hint, rnd_off, h_pick_from hint))
  end.

(** One index; the flag is whether the loop goes on. *)
Definition request_step (h : rsq_heap) (q : rsq_base) (s : rs_simple_priv) (fixed_size : nat)
    (ignore_fixed_err : bool) (rnd : nat → nat) (i : nat) (st : req_state) : option (req_state * bool) :=
  '(st, setup) ← hint_setup h s i fixed_size (rnd i) (rq_set_found st false);
  match setup with
  | None => Some (st, true)
  | Some (q_local, rnd_off, pick_from) =>
      let slots := (λ j, ((rnd_off + j) mod n_rids s)%nat) <$> seq 0 (n_rids s) in
      st ← rid_loop h q q_local i fixed_size ignore_fixed_err pick_from (req_change i (rs_req st)) s slots st;
      Some (st, rs_found st || bool_decide (i < fixed_size)%nat)
  end.

Fixpoint request_loop (h : rsq_heap) (q : rsq_base) (s : rs_simple_priv) (fixed_size : nat)
    (ignore_fixed_err : bool) (rnd : nat → nat) (n i : nat) (st : req_state) : option req_state :=
  match n with
  | O => Some st
  | S n =>
      '(st, go) ← request_step h q s fixed_size ignore_fixed_err rnd i st;
      if go : bool then request_loop h q s fixed_size ignore_fixed_err rnd n (S i) st else Some st
  end.

(** The records at the start, sized by the counts of the global query. *)
Definition kvq_start (n_unique n_pickone : Z) (n_rid : nat) : kvq_table :=
  Kvq_table (replicate (Z.to_nat (n_unique + 1)) (replicate n_rid kvq_none))
    (replicate (Z.to_nat (if decide (n_pickone = 0) then 1 else n_pickone + 1)) kvq_none).

(** [rs_simple_request] on a refreshed table: a failed status, or the queue of
    allocations to run; with the state of the requests, hints and lists. *)
Definition rs_simple_request (h : rsq_heap) (q : rsq_base) (s : rs_simple_priv) (reqs : list rs_request)
    (hints : option (list rs_hints)) (picks : gmap nat (gmap string rid_change))
    (fixed_size n_rid : nat) (ignore_fixed_err : bool) (rnd : nat → nat)
    : option ((op_status + list ds_alloc) * req_state) :=
  '(_, n_unique, n_pickone) ← rs_query_count h q;
  let st := Req_state (kvq_start n_unique n_pickone n_rid) (kvq_start 0 0 n_rid) false 0
              op_success_status hints picks ((λ r, rr_set_key r None) <$> reqs) [] in
  st ← request_loop h q s fixed_size ignore_fixed_err rnd n_rid 0 st;
  Some (if decide (rs_found st = false ∨ rs_err_cnt st > 0)
        then inl (if decide (error_code (rs_status st) = 0)
                  then Op_status OP_STATE_FAILURE RS_ERROR_NOT_ENOUGH_RIDS else rs_status st)
        else inr (rs_que st), st).
End rs_simple.

(** ** What a query means *)
Section query_facts.
Context `{!ListLib, !ListLibOk, !Gop, !GopOk}.
Implicit Types (rse : rss_rid_entry) (ev : eval_state).

(** A query as a formula over its elements. *)
Inductive formula :=
  | FKv (e : rsq_ele) | FNot (e : rsq_ele) (f : formula)
  | FAnd (e : rsq_ele) (f g : formula) | FOr (e : rsq_ele) (f g : formula).
Fixpoint postfix (f : formula) : list rsq_ele :=
  match f with
  | FKv e => [e]
  | FNot e f => postfix f ++ [e]
  | FAnd e f g | FOr e f g => postfix f ++ postfix g ++ [e]
  end.

(** No unique and pick-one flags, and a key operation that does not look beyond
    the keys the search starts at. *)
Definition plain_kv (e : rsq_ele) : Prop :=
  rq_op e = RSQ_BASE_OP_KV ∧
  is_unique (rq_key_op e) = false ∧ is_unique (rq_val_op e) = false ∧
  is_pickone (rq_key_op e) = false ∧ is_pickone (rq_val_op e) = false ∧
  (kv_op (rq_key_op e) = RSQ_BASE_KV_ANY → default "" (rq_key e) = "").
Fixpoint formula_ok (f : formula) : Prop :=
  match f with
  | FKv e => plain_kv e
  | FNot e f => rq_op e = RSQ_BASE_OP_NOT ∧ formula_ok f
  | FAnd e f g => rq_op e = RSQ_BASE_OP_AND ∧ formula_ok f ∧ formula_ok g
  | FOr e f g => rq_op e = RSQ_BASE_OP_OR ∧ formula_ok f ∧ formula_ok g
  end.

(** An attribute of the resource matches the key and the value. *)
Definition attr_matches (e : rsq_ele) (attr : string * string) : bool :=
  key_matches (kv_op (rq_key_op e)) (default "" (rq_key e)) attr.1 &&
  val_matches (kv_op (rq_val_op e)) (String.length (default "" (rq_key e))) (default "" (rq_val e)) attr.2.
Definition kv_holds rse (e : rsq_ele) : bool := existsb (attr_matches e) (list_all (rse_attr rse)).
(** What the program makes of a formula: a disjunction counts as true whatever
    its parts are. *)
Fixpoint formula_value rse (f : formula) : bool :=
  match f with
  | FKv e => kv_holds rse e
  | FNot _ f => negb (formula_value rse f)
  | FAnd _ f g => formula_value rse f && formula_value rse g
  | FOr _ _ _ => true
  end.

(** What a formula says: a disjunction is one, and a prefix of a value is as
    long as the value asked for. *)
Definition attr_satisfies (e : rsq_ele) (attr : string * string) : bool :=
  key_matches (kv_op (rq_key_op e)) (default "" (rq_key e)) attr.1 &&
  val_matches (kv_op (rq_val_op e)) (String.length (default "" (rq_val e))) (default "" (rq_val e)) attr.2.
Fixpoint satisfies rse (f : formula) : bool :=
  match f with
  | FKv e => existsb (attr_satisfies e) (list_all (rse_attr rse))
  | FNot _ f => negb (satisfies rse f)
  | FAnd _ f g => satisfies rse f && satisfies rse g
  | FOr _ f g => satisfies rse f || satisfies rse g
  end.

(** Without disjunctions and prefixes of values there is no difference. *)
Fixpoint exact_formula (f : formula) : Prop :=
  match f with
  | FKv e => kv_op (rq_val_op e) ≠ RSQ_BASE_KV_PREFIX
  | FNot _ f => exact_formula f
  | FAnd _ f g => exact_formula f ∧ exact_formula g
  | FOr _ _ _ => False
  end.

Lemma formula_value_satisfies rse f : exact_formula f → formula_value rse f = satisfies rse f.
Proof.
  induction f as [e|e f IHf|e f IHf g IHg|e f IHf g IHg]; simpl; [|intros; by rewrite IHf| |done].
  - intros He. unfold kv_holds. induction (list_all (rse_attr rse)) as [|x l IH]; simpl; [done|]. rewrite IH. f_equal.
    unfold attr_matches, attr_satisfies, val_matches. by rewrite !(decide_False (P := kv_op (rq_val_op e) = RSQ_BASE_KV_PREFIX)).
  - intros [? ?]. by rewrite IHf, IHg.
Qed.

Lemma prefix_self s : String.prefix s s = true.
Proof. induction s as [|c s IH]; simpl; [done|]. by destruct (ascii_dec c c). Qed.

Lemma strncmp_prefix s t : strncmp_eq (String.length s) t s = true → String.prefix s t = true.
Proof.
  intros Hs%bool_decide_eq_true. apply Stdlib.Strings.String.prefix_correct. rewrite Hs.
  apply Stdlib.Strings.String.prefix_correct, prefix_self.
Qed.

(** Keys that match are not skipped by the search. *)
Lemma key_matches_prefix op s t :
  (op = RSQ_BASE_KV_ANY → s = "") → key_matches op s t = true → String.prefix s t = true.
Proof.
  intros Hany. unfold key_matches.
  destruct (decide (op = RSQ_BASE_KV_EXACT)); [|destruct (decide (op = RSQ_BASE_KV_PREFIX))].
  - intros ->%bool_decide_eq_true. apply prefix_self.
  - apply strncmp_prefix.
  - intros Hop%bool_decide_eq_true. rewrite Hany by done. by destruct t.
Qed.

Lemma test_attr_plain e n uniq pick attr :
  plain_kv e → test_attr e n uniq pick attr = Some (attr_matches e attr).
Proof.
  intros (_ & Hku & Hvu & Hkp & Hvp & _). destruct attr as [k v]. unfold test_attr, attr_matches.
  rewrite Hku, Hvu, Hkp, Hvp. simpl. destruct (key_matches _ _ k); simpl; [|done].
  destruct (decide (n = 0%nat)); simpl; by destruct (val_matches _ _ _ v).
Qed.

Lemma test_attrs_plain e n uniq pick attrs :
  plain_kv e → ∃ found, test_attrs e n uniq pick attrs = Some found ∧
    bool_decide (is_Some found) = existsb (attr_matches e) attrs.
Proof.
  intros He. induction attrs as [|attr attrs (found & IH & Hf)]; simpl; [by exists None|].
  rewrite test_attr_plain by done. simpl. destruct (attr_matches e attr); simpl; [|by exists found].
  by exists (Some attr).
Qed.

Lemma existsb_skip e skipped rest :
  (∀ attr, attr ∈ skipped → attr_matches e attr = false) →
  existsb (attr_matches e) (skipped ++ rest) = existsb (attr_matches e) rest.
Proof.
  induction skipped as [|x l IH]; intros Hs; [done|]. simpl. rewrite (Hs x) by (by left).
  apply IH. intros y Hy. apply Hs. by right.
Qed.

Lemma rss_test_plain e rse n uniq pick :
  plain_kv e → rss_test e rse n uniq pick = Some (kv_holds rse e, uniq, pick).
Proof.
  intros He. pose proof He as (_ & Hku & Hvu & Hkp & Hvp & Hany). unfold rss_test, kv_holds.
  destruct (list_iter_suffix _ (rse_attr rse) (default "" (rq_key e))) as (skipped & -> & Hsk).
  rewrite existsb_skip.
  - destruct (test_attrs_plain e n uniq pick (list_iter_search_compare (rse_attr rse) (default "" (rq_key e))) He)
      as (found & -> & <-). simpl. destruct found as [[k v]|]; simpl; [|done].
    by rewrite Hku, Hvu, Hkp, Hvp.
  - intros [k v] Hin. unfold attr_matches. simpl. apply andb_false_iff. left.
    destruct (key_matches _ _ k) eqn:Hk; [|done]. apply key_matches_prefix in Hk; [|done].
    by rewrite (Hsk k v) in Hk.
Qed.

(** ** Evaluation along the elements *)
Fixpoint eval_list rse (i : nat) (L : list rsq_ele) ev : option eval_state :=
  match L with [] => Some ev | e :: L => ev ← eval_ele rse i e ev; eval_list rse i L ev end.

Lemma eval_list_app rse i L M ev :
  eval_list rse i (L ++ M) ev = (ev ← eval_list rse i L ev; eval_list rse i M ev).
Proof. revert ev. induction L as [|e L IH]; intros ev; simpl; [done|]. destruct (eval_ele _ _ _ _); simpl; [apply IH|done]. Qed.

Lemma test_attrs_next e n i uniq pick attrs :
  test_attrs (rq_set_next e n) i uniq pick attrs = test_attrs e i uniq pick attrs.
Proof. induction attrs as [|[k v] attrs IH]; simpl; [done|]. by rewrite IH. Qed.

Lemma eval_ele_next rse i e n ev : eval_ele rse i (rq_set_next e n) ev = eval_ele rse i e ev.
Proof.
  assert (∀ uniq pick, rss_test (rq_set_next e n) rse i uniq pick = rss_test e rse i uniq pick) as Ht.
  { intros uniq pick. unfold rss_test. by rewrite test_attrs_next. }
  destruct ev as [kvq iu ip stack]. unfold eval_ele. simpl.
  destruct (kv_unique kvq !! iu); simpl; [|done]. destruct (kv_pickone kvq !! ip); simpl; [|done].
  by rewrite Ht.
Qed.

Lemma eval_chain_spec h rse i A : ∀ fuel p L ev,
  links h p A L → (length A ≤ fuel)%nat → eval_chain fuel h rse i p ev = eval_list rse i L ev.
Proof.
  induction A as [|a A IH]; intros fuel p [|d L] ev Hl Hf; try done.
  - simpl in Hl. subst p. by destruct fuel.
  - destruct Hl as (-> & _ & n & Ha & Hl). destruct fuel as [|fuel]; [simpl in Hf; lia|].
    cbn [eval_chain eval_list]. rewrite Ha. cbn [mbind option_bind]. rewrite eval_ele_next.
    destruct (eval_ele rse i d ev) as [ev'|]; [|done]. cbn [mbind option_bind].
    rewrite rq_next_set. apply IH; [done|]. simpl in Hf. lia.
Qed.

Lemma eval_query_list h q A L rse i kvg kvl :
  query_ok h q A L →
  eval_query h q None rse i kvg kvl =
    (ev ← eval_list rse i L (Eval_state kvg 0 0 []); Some (ev_kvq ev, kvl, head (ev_stack ev))).
Proof.
  intros (Hl & _ & Hnd). unfold eval_query. by rewrite (eval_chain_spec h rse i A _ _ L) by
    (done || by apply (links_size h (rq_head q) A L)).
Qed.

Definition kvq_room (kvq : kvq_table) (iu ip : nat) : Prop :=
  (iu < length (kv_unique kvq))%nat ∧ (ip < length (kv_pickone kvq))%nat.

Lemma b2z_eq0 b : (b2z b = 0) ↔ b = false.
Proof. by destruct b. Qed.

Lemma eval_formula rse i f : ∀ kvq iu ip stack,
  formula_ok f → kvq_room kvq iu ip →
  eval_list rse i (postfix f) (Eval_state kvq iu ip stack) =
    Some (Eval_state kvq iu ip (b2z (formula_value rse f) :: stack)).
Proof.
  induction f as [e|e f IHf|e f IHf g IHg|e f IHf g IHg]; intros kvq iu ip stack Hok Hroom; cbn [postfix formula_value].
  - pose proof Hok as (Hop & Hku & Hvu & Hkp & Hvp & _). destruct Hroom as [Hu Hp].
    apply lookup_lt_is_Some_2 in Hu as [u Hu]. apply lookup_lt_is_Some_2 in Hp as [p Hp].
    unfold eval_list, eval_ele. rewrite Hop, decide_True by done. rewrite Hu. simpl. rewrite Hp. simpl.
    rewrite rss_test_plain by done. simpl. rewrite Hku, Hvu, Hkp, Hvp. simpl.
    rewrite (list_insert_id _ _ _ Hu), (list_insert_id _ _ _ Hp). by destruct kvq.
  - destruct Hok as [Hop Hf]. rewrite eval_list_app, IHf by done. simpl. unfold eval_ele. rewrite Hop. simpl.
    by destruct (formula_value rse f).
  - destruct Hok as (Hop & Hf & Hg). rewrite !eval_list_app, IHf by done. simpl.
    rewrite eval_list_app, IHg by done. simpl. unfold eval_ele. rewrite Hop. simpl.
    by destruct (formula_value rse f), (formula_value rse g).
  - destruct Hok as (Hop & Hf & Hg). rewrite !eval_list_app, IHf by done. simpl.
    rewrite eval_list_app, IHg by done. simpl. unfold eval_ele. by rewrite Hop.
Qed.

Lemma eval_query_postfix h q A f rse i kvg kvl :
  query_ok h q A (postfix f) → formula_ok f → kvq_room kvg 0 0 →
  eval_query h q None rse i kvg kvl = Some (kvg, kvl, Some (b2z (formula_value rse f))).
Proof. intros Hq Hf Hroom. by rewrite (eval_query_list h q A (postfix f)), eval_formula. Qed.

(** Evaluating the postfix form of a formula leaves its value on the stack
    and the records alone.  A key-value test holds when an attribute of the
    resource matches; negation and conjunction are as expected; a disjunction
    is true even when both its parts are false. *)
Theorem eval_query_formula h q A f rse i kvg kvl :
  query_ok h q A (postfix f) → formula_ok f → kvq_room kvg 0 0 →
  eval_query h q None rse i kvg kvl = Some (kvg, kvl, Some (b2z (formula_value rse f))).
Proof. apply eval_query_postfix. Qed.

(** ** Requests without hints *)

(** The resource in a slot. *)
Definition entry_at (s : rs_simple_priv) (slot : nat) : option rss_rid_entry :=
  a ← mjoin (random_array s !! slot); rss_rids s !! a.
Definition slots_from (s : rs_simple_priv) (off : nat) : list nat :=
  (λ j, ((off + j) mod n_rids s)%nat) <$> seq 0 (n_rids s).

(** The first resource that is up and passes [test]. *)
Fixpoint first_fit (s : rs_simple_priv) (test : rss_rid_entry → bool) (slots : list nat) : option rss_rid_entry :=
  match slots with
  | [] => None
  | slot :: slots =>
      rse ← entry_at s slot;
      if bool_decide (rse_status rse = RS_STATUS_UP) && test rse then Some rse else first_fit s test slots
  end.

(** The resources of the table. *)
Definition in_table (s : rs_simple_priv) rse : Prop :=
  ∃ a, (rse_rid_key rse, a) ∈ list_all (rid_table s) ∧ rss_rids s !! a = Some rse.

Lemma entry_at_valid s slot :
  rss_ok s → (slot < n_rids s)%nat → ∃ rse, entry_at s slot = Some rse ∧ in_table s rse.
Proof.
  intros (Hn & Hl & _ & _ & Ha) Hslot. rewrite <- Hl in Hslot.
  destruct (lookup_lt_is_Some_2 _ _ Hslot) as [x Hx]. destruct (Ha _ _ Hx) as (a & e & -> & He & _ & Hin).
  exists e. unfold entry_at. rewrite Hx. simpl. split; [done|]. by exists a.
Qed.

Lemma entry_at_table s rse :
  rss_ok s → in_table s rse → ∃ slot, (slot < n_rids s)%nat ∧ entry_at s slot = Some rse.
Proof.
  intros (Hn & Hl & _ & Ht & _) (a & Hin & Hrse). destruct (Ht _ _ Hin) as (e & He & _ & Hslot).
  rewrite Hrse in He. injection He as <-. exists (rse_slot rse). split.
  - rewrite <- Hl. by apply lookup_lt_Some in Hslot.
  - unfold entry_at. by rewrite Hslot.
Qed.

Lemma slots_from_elem s off slot : slot ∈ slots_from s off ↔ (slot < n_rids s)%nat.
Proof.
  unfold slots_from. rewrite list_elem_of_fmap. split.
  - intros (j & -> & Hj%elem_of_seq). apply Nat.mod_upper_bound. lia.
  - intros Hs. exists ((slot + n_rids s - off mod n_rids s) mod n_rids s)%nat. split.
    + pose proof (Nat.mod_upper_bound off (n_rids s)).
      rewrite Nat.Div0.add_mod_idemp_r, <- Nat.Div0.add_mod_idemp_l.
      replace (off mod n_rids s + (slot + n_rids s - off mod n_rids s))%nat with (slot + 1 * n_rids s)%nat by lia.
      by rewrite Nat.Div0.mod_add, Nat.mod_small.
    + apply elem_of_seq. split; [lia|]. apply Nat.mod_upper_bound. lia.
Qed.

Lemma first_fit_Some s test slots rse :
  rss_ok s → (∀ slot, slot ∈ slots → (slot < n_rids s)%nat) → first_fit s test slots = Some rse →
  in_table s rse ∧ rse_status rse = RS_STATUS_UP ∧ test rse = true.
Proof.
  intros Hok. induction slots as [|slot slots IH]; intros Hs; simpl; [done|].
  destruct (entry_at_valid s slot Hok) as (e & -> & Hin); [apply Hs; by left|]. simpl.
  destruct (bool_decide (rse_status e = RS_STATUS_UP) && test e) eqn:He.
  - intros [= <-]. by apply andb_true_iff in He as [?%bool_decide_eq_true ?].
  - apply IH. intros x Hx. apply Hs. by right.
Qed.

Lemma first_fit_None s test slots :
  rss_ok s → (∀ slot, slot ∈ slots → (slot < n_rids s)%nat) → first_fit s test slots = None →
  ∀ slot rse, slot ∈ slots → entry_at s slot = Some rse → rse_status rse = RS_STATUS_UP → test rse = false.
Proof.
  intros Hok. induction slots as [|x slots IH]; intros Hs; simpl; [by intros _ ?? ?%not_elem_of_nil|].
  destruct (entry_at_valid s x Hok) as (e & Hx & Hin); [apply Hs; by left|]. rewrite Hx. simpl.
  destruct (bool_decide (rse_status e = RS_STATUS_UP) && test e) eqn:He; [done|].
  intros Hf slot rse [->|Hslot]%elem_of_cons Hrse Hup.
  - simplify_eq. by rewrite bool_decide_true in He.
  - apply (IH (λ y Hy, Hs y (proj2 (elem_of_cons _ _ _) (or_intror Hy))) Hf slot rse); done.
Qed.

(** Every search covers the whole table. *)
Lemma first_fit_total s test off :
  rss_ok s → (∃ rse, in_table s rse ∧ rse_status rse = RS_STATUS_UP ∧ test rse = true) →
  is_Some (first_fit s test (slots_from s off)).
Proof.
  intros Hok (rse & Hin & Hup & Ht). destruct (first_fit s test (slots_from s off)) as [e|] eqn:Hf; [by exists e|].
  destruct (entry_at_table s rse Hok Hin) as (slot & Hlt & Hslot).
  assert (test rse = false); [|congruence].
  apply (first_fit_None s test (slots_from s off) Hok) with slot; [|done|by apply slots_from_elem|done|done].
  intros x. by rewrite slots_from_elem.
Qed.

(** The state of the loops without hints, lists and errors. *)
Definition req_plain (st : req_state) : Prop :=
  rs_found st = false ∧ rs_hints_list st = None ∧ rs_err_cnt st = 0 ∧ rs_status st = op_success_status.

Lemma req_state_same st kvg kvl :
  rs_found st = false → rs_kvg st = kvg → rs_kvl st = kvl → rq_set_found (rq_set_kvq st kvg kvl) false = st.
Proof. destruct st; simpl. by intros -> -> ->. Qed.

Lemma rid_loop_formula h q A f i ign change s slots st :
  query_ok h q A (postfix f) → formula_ok f → kvq_room (rs_kvg st) 0 0 →
  rss_ok s → (∀ slot, slot ∈ slots → (slot < n_rids s)%nat) → rs_found st = false →
  rid_loop h q None i 0 ign None change s slots st =
    Some (match first_fit s (λ rse, formula_value rse f) slots with
          | Some rse => rq_assign (rq_set_kvq st (rs_kvg st) (rs_kvl st)) i rse
          | None => st
          end).
Proof.
  intros Hq Hf Hroom Hok Hs Hst. induction slots as [|slot slots IH]; simpl; [done|].
  assert (∀ x, x ∈ slots → (x < n_rids s)%nat) as Hs' by (intros x Hx; apply Hs; by right).
  destruct (entry_at_valid s slot Hok) as (e & He & _); [apply Hs; by left|]. rewrite He. simpl.
  unfold entry_at in He. destruct (mjoin _) as [a|]; [|done]. simpl in *. rewrite He. simpl.
  destruct (decide (rse_status e = RS_STATUS_UP)) as [Hup|Hup].
  - rewrite decide_False by tauto. rewrite (eval_query_postfix h q A f) by done. simpl.
    rewrite bool_decide_true by done. destruct (formula_value e f) eqn:He'; simpl; [done|].
    rewrite req_state_same by done. by apply IH.
  - rewrite decide_True by (split; [done|lia]). rewrite bool_decide_false by done. simpl. by apply IH.
Qed.

(** The counts only size the records. *)
Lemma count_loop_spec h A : ∀ fuel p L n u k,
  links h p A L → (length A ≤ fuel)%nat → 0 ≤ u → 0 ≤ k →
  ∃ n' u' k', count_loop fuel h p n u k = Some (n', u', k') ∧ 0 ≤ u' ∧ 0 ≤ k'.
Proof.
  induction A as [|a A IH]; intros fuel p [|d L] n u k Hl Hf Hu Hk; try done.
  - simpl in Hl. subst p. exists n, u, k. by destruct fuel.
  - destruct Hl as (-> & _ & m & Ha & Hl). destruct fuel as [|fuel]; [simpl in Hf; lia|].
    cbn [count_loop]. rewrite Ha. cbn [mbind option_bind]. rewrite rq_next_set. simpl in Hf.
    apply (IH fuel m L); [done|lia|by case_match; lia|by case_match; lia].
Qed.

Lemma request_start_room h q A L n_rid :
  query_ok h q A L →
  ∃ n u k, rs_query_count h q = Some (n, u, k) ∧ kvq_room (kvq_start u k n_rid) 0 0 ∧ 0 ≤ u ∧ 0 ≤ k.
Proof.
  intros (Hl & _ & Hnd).
  destruct (count_loop_spec h A (size h) (rq_head q) L 0 0 0) as (n & u & k & Hc & Hu & Hk);
    [done|by apply (links_size h (rq_head q) A L)|lia..|].
  exists n, u, k. split; [done|]. split; [|done]. split; simpl; rewrite length_replicate; [lia|]. case_decide; lia.
Qed.

(** What the picks [pk] of the indices [is] make of the requests. *)
Definition assign_keys (pk : nat → rss_rid_entry) (idx : list nat) (r : rs_request) : rs_request :=
  foldl (λ r i, assign_key i (pk i) r) r idx.
Definition assign_allocs (pk : nat → rss_rid_entry) (idx : list nat) (reqs : list rs_request) : list ds_alloc :=
  idx ≫= λ i, omap id (imap (assign_alloc i (pk i)) reqs).

Lemma assign_alloc_key i rse reqs (g : rs_request → rs_request) :
  (∀ r, rr_rid_index (g r) = rr_rid_index r ∧ rr_size (g r) = rr_size r) →
  imap (assign_alloc i rse) (g <$> reqs) = imap (assign_alloc i rse) reqs.
Proof.
  intros Hg. rewrite imap_fmap. apply imap_ext. intros k r _. simpl. unfold assign_alloc.
  destruct (Hg r) as [-> ->]. done.
Qed.

Lemma assign_key_same i rse r :
  rr_rid_index (assign_key i rse r) = rr_rid_index r ∧ rr_size (assign_key i rse r) = rr_size r.
Proof. unfold assign_key. by case_decide. Qed.

Lemma assign_keys_range pk i n r :
  rr_rid_key r = None →
  assign_keys pk (seq i n) r =
    if decide (Z.of_nat i ≤ rr_rid_index r < Z.of_nat (i + n))
    then rr_set_key r (Some (rse_rid_key (pk (Z.to_nat (rr_rid_index r))))) else r.
Proof.
  intros Hr. induction n as [|n IH]; [by rewrite decide_False by lia|].
  rewrite seq_S. unfold assign_keys in *. rewrite foldl_app, IH. simpl. unfold assign_key.
  case_decide as Hin; simpl; [rewrite decide_False by lia; by rewrite decide_True by lia|].
  case_decide as Hi; [|by rewrite decide_False by lia].
  rewrite decide_True by lia. rewrite Hi. by rewrite Nat2Z.id.
Qed.

Lemma assign_allocs_elem pk n reqs al :
  al ∈ assign_allocs pk (seq 0 n) reqs ↔ ∃ k r, reqs !! k = Some r ∧ 0 ≤ rr_rid_index r < Z.of_nat n ∧
    al = Ds_alloc k (rse_ds_key (pk (Z.to_nat (rr_rid_index r)))) (rr_size r).
Proof.
  unfold assign_allocs. rewrite list_elem_of_bind. split.
  - intros (i & (o & Ho & Hal)%list_elem_of_omap & Hi%elem_of_seq). simpl in Hal. subst o.
    apply list_elem_of_lookup in Ho as [k Hk]. rewrite list_lookup_imap in Hk.
    destruct (reqs !! k) as [r|] eqn:Hr; [|done]. simpl in Hk. injection Hk as Hk. unfold assign_alloc in Hk.
    case_decide as Hidx; [|done]. injection Hk as <-. exists k, r. split; [done|]. split; [lia|].
    by rewrite Hidx, Nat2Z.id.
  - intros (k & r & Hr & Hidx & ->). exists (Z.to_nat (rr_rid_index r)). split; [|apply elem_of_seq; lia].
    apply list_elem_of_omap. eexists. split; [|simpl; reflexivity]. apply list_elem_of_lookup. exists k.
    rewrite list_lookup_imap, Hr. simpl. unfold assign_alloc. by rewrite decide_True by lia.
Qed.

(** What the loop leaves of a state without hints. *)
Definition request_done (pk : nat → rss_rid_entry) (idx : list nat) (st st' : req_state) : Prop :=
  (idx ≠ [] → rs_found st' = true) ∧ rs_hints_list st' = None ∧ rs_err_cnt st' = rs_err_cnt st ∧
  rs_status st' = rs_status st ∧ rs_req st' = assign_keys pk idx <$> rs_req st ∧
  rs_que st' = rs_que st ++ assign_allocs pk idx (rs_req st).

Lemma request_step_formula h q A f s ign rnd i st :
  query_ok h q A (postfix f) → formula_ok f → kvq_room (rs_kvg st) 0 0 → rss_ok s →
  rs_hints_list st = None →
  request_step h q s 0 ign rnd i st =
    Some (match first_fit s (λ rse, formula_value rse f) (slots_from s (rnd i)) with
          | Some rse => (rq_assign (rq_set_found st false) i rse, true)
          | None => (rq_set_found st false, false)
          end).
Proof.
  intros Hq Hf Hroom Hok Hh. unfold request_step, hint_setup. simpl. rewrite Hh. simpl.
  change ((λ j, ((rnd i + j) mod n_rids s)%nat) <$> seq 0 (n_rids s)) with (slots_from s (rnd i)).
  rewrite (rid_loop_formula h q A f) by (done || (intros x; by rewrite slots_from_elem)). simpl.
  by destruct (first_fit _ _ _).
Qed.

Lemma request_loop_formula h q A f s ign rnd pk n : ∀ i st,
  query_ok h q A (postfix f) → formula_ok f → kvq_room (rs_kvg st) 0 0 → rss_ok s →
  rs_hints_list st = None →
  (∀ j, first_fit s (λ rse, formula_value rse f) (slots_from s (rnd j)) = Some (pk j)) →
  ∃ st', request_loop h q s 0 ign rnd n i st = Some st' ∧ request_done pk (seq i n) st st'.
Proof.
  induction n as [|n IH]; intros i st Hq Hf Hroom Hok Hh Hpk; cbn [request_loop seq].
  - exists st. split; [done|]. split; [done|]. split; [done|]. split; [done|]. split; [done|].
    unfold assign_keys, assign_allocs. simpl. by rewrite list_fmap_id, app_nil_r.
  - rewrite (request_step_formula h q A f) by done. rewrite Hpk. simpl.
    set (st1 := rq_assign (rq_set_found st false) i (pk i)).
    destruct (IH (S i) st1 Hq Hf Hroom Hok Hh Hpk) as (st' & Hrun & Hfnd & Hh' & He & Hs & Hr & Hq').
    exists st'. split; [done|]. split.
    + intros _. destruct n as [|n]; [|by apply Hfnd]. simpl in Hrun. by injection Hrun as <-.
    + split; [done|]. split; [done|]. split; [done|]. split.
      * rewrite Hr. simpl. by rewrite <- list_fmap_compose.
      * rewrite Hq'. simpl. rewrite <- app_assoc. f_equal.
        change (assign_allocs pk (i :: seq (S i) n) (rs_req st)) with
          (omap id (imap (assign_alloc i (pk i)) (rs_req st)) ++ assign_allocs pk (seq (S i) n) (rs_req st)).
        f_equal. apply list_bind_ext; [|done]. intros j.
        by rewrite assign_alloc_key by (intros; apply assign_key_same).
Qed.

(** C38: A request without hints for a query in postfix form, none of whose tests
    is for unique values or picks one, or takes any key and names one, terminates.  If an index is asked for and
    the program makes the query true for some resource that is up, every index
    has such a resource, each piece carries the key of its index's resource, and
    the queue has one allocation per piece with an index in range.  Otherwise it
    fails for lack of resources.  For a query without disjunctions and prefixes
    of values the resources taken are exactly those that satisfy it; a
    disjunction is made true by every resource, and the prefix of a value is
    compared over the length of the key. *)
Theorem rs_simple_request_formula h q A f s reqs picks n_rid ign rnd :
  query_ok h q A (postfix f) → formula_ok f → rss_ok s →
  let usable rse := in_table s rse ∧ rse_status rse = RS_STATUS_UP ∧ formula_value rse f = true in
  (exact_formula f → ∀ rse, formula_value rse f = satisfies rse f) ∧
  ((0 < n_rid)%nat → (∃ rse, usable rse) →
   ∃ pk al st, rs_simple_request h q s reqs None picks 0 n_rid ign rnd = Some (inr al, st) ∧
     (∀ i, usable (pk i)) ∧
     rs_req st = (λ r, rr_set_key r (if decide (0 ≤ rr_rid_index r < Z.of_nat n_rid)
                                     then Some (rse_rid_key (pk (Z.to_nat (rr_rid_index r)))) else None)) <$> reqs ∧
     ∀ a, a ∈ al ↔ ∃ k r, reqs !! k = Some r ∧ 0 ≤ rr_rid_index r < Z.of_nat n_rid ∧
       a = Ds_alloc k (rse_ds_key (pk (Z.to_nat (rr_rid_index r)))) (rr_size r)) ∧
  (n_rid = 0%nat ∨ (∀ rse, ¬ usable rse) →
   ∃ st, rs_simple_request h q s reqs None picks 0 n_rid ign rnd =
           Some (inl (Op_status OP_STATE_FAILURE RS_ERROR_NOT_ENOUGH_RIDS), st) ∧ rs_que st = []).
Proof.
  intros Hq Hf Hok usable. split; [intros; by apply formula_value_satisfies|].
  destruct (request_start_room h q A (postfix f) n_rid Hq) as (n & u & k & Hc & Hroom & _).
  unfold rs_simple_request. rewrite Hc. simpl.
  set (st0 := Req_state (kvq_start u k n_rid) _ _ _ _ _ _ _ _).
  assert (∀ i, first_fit s (λ rse, formula_value rse f) (slots_from s (rnd i)) = None ∨
          ∃ rse, usable rse ∧ first_fit s (λ rse, formula_value rse f) (slots_from s (rnd i)) = Some rse) as Hfit.
  { intros i. destruct (first_fit _ _ _) as [rse|] eqn:Hff; [right|by left]. exists rse. split; [|done].
    apply (first_fit_Some s (λ rse, formula_value rse f) (slots_from s (rnd i))); [done| |done]. intros x. by rewrite slots_from_elem. }
  split.
  - intros Hn Hex.
    assert (∀ i, ∃ rse, usable rse ∧ first_fit s (λ rse, formula_value rse f) (slots_from s (rnd i)) = Some rse) as Hpk.
    { intros i. destruct (Hfit i) as [Hnone|?]; [|done].
      destruct (first_fit_total s (λ rse, formula_value rse f) (rnd i) Hok Hex) as [? Hsome]. congruence. }
    pose (pk i := default (Rss_rid_entry "" "" list_create 0 0 0 0 0)
                   (first_fit s (λ rse, formula_value rse f) (slots_from s (rnd i)))).
    assert (∀ i, first_fit s (λ rse, formula_value rse f) (slots_from s (rnd i)) = Some (pk i) ∧ usable (pk i)) as Hpk'.
    { intros i. destruct (Hpk i) as (rse & Hu & Hff). unfold pk. by rewrite Hff. }
    clearbody pk.
    destruct (request_loop_formula h q A f s ign rnd pk n_rid 0 st0 Hq Hf Hroom Hok eq_refl (λ j, proj1 (Hpk' j)))
      as (st & -> & Hfnd & Hh & He & Hs & Hr & Hque).
    simpl. rewrite decide_False.
    + exists pk, (rs_que st), st. split; [done|]. split; [apply Hpk'|]. split.
      * rewrite Hr. simpl. rewrite <- list_fmap_compose. apply list_fmap_ext. intros j r _. simpl.
        rewrite assign_keys_range by done. simpl. repeat case_decide; done || lia.
      * intros a. rewrite Hque. simpl. rewrite assign_allocs_elem. split.
        { intros (m & r & Hm & Hi & ->). rewrite list_lookup_fmap in Hm.
          destruct (reqs !! m) as [r'|] eqn:Hr'; [|done]. simpl in Hm. injection Hm as <-. by exists m, r'. }
        { intros (m & r & Hm & Hi & ->). exists m, (rr_set_key r None). by rewrite list_lookup_fmap, Hm. }
    + rewrite Hfnd, He; [simpl; lia|]. intros H'. apply (f_equal length) in H'. rewrite length_seq in H'. simpl in H'. lia.
  - intros Hno.
    assert (∃ st, request_loop h q s 0 ign rnd n_rid 0 st0 = Some st ∧ rs_found st = false ∧
              rs_status st = op_success_status ∧ rs_que st = []) as (st & -> & Hfnd & Hs & Hque).
    { destruct n_rid as [|m]; [by exists st0|]. cbn [request_loop].
      rewrite (request_step_formula h q A f) by done. destruct Hno as [|Hno]; [done|].
      destruct (Hfit 0%nat) as [-> | (rse & Hu & _)]; [|by destruct (Hno rse)]. simpl. by eexists. }
    exists st. simpl. rewrite decide_True by (by left). rewrite Hs, op_success_code. done.
Qed.

(** ** Unique values *)

(** A single test whose value must differ between the picks. *)
Definition unique_kv (e : rsq_ele) : Prop :=
  rq_op e = RSQ_BASE_OP_KV ∧
  is_unique (rq_key_op e) = false ∧ is_unique (rq_val_op e) = true ∧
  is_pickone (rq_key_op e) = false ∧ is_pickone (rq_val_op e) = false.

Definition recorded (U : list kvq_ele) (j : nat) : option string := U !! j ≫= kv_value.

Lemma uniq_val_spec n : ∀ i U val,
  (i + n ≤ length U)%nat →
  ∃ b, uniq_val n i U val = Some b ∧
    (b = true → ∀ j v, (i ≤ j < i + n)%nat → recorded U j = Some v → val ≠ v).
Proof.
  induction n as [|n IH]; intros i U val Hl; cbn [uniq_val].
  - exists true. split; [done|]. intros _ j v Hj. lia.
  - destruct (lookup_lt_is_Some_2 U i) as [u Hu]; [lia|]. rewrite Hu. cbn [mbind option_bind].
    destruct (IH (S i) U val) as (b & Hb & Hv); [lia|].
    assert (∀ w, kv_value u = w → (∀ v, w = Some v → val ≠ v) → b = true →
      ∀ j v, (i ≤ j < i + S n)%nat → recorded U j = Some v → val ≠ v) as Hstep.
    { intros w Hw Hne Hbt j v Hj Hr. destruct (decide (j = i)) as [->|].
      - apply Hne. unfold recorded in Hr. rewrite Hu in Hr. simpl in Hr. congruence.
      - by apply (Hv Hbt j v); [lia|]. }
    destruct (kv_value u) as [w|] eqn:Hw; [destruct (decide (val = w)) as [->|Hne]|].
    + by exists false.
    + exists b. split; [done|]. apply (Hstep _ eq_refl). by intros v [= <-].
    + exists b. split; [done|]. by apply (Hstep _ eq_refl).
Qed.

Lemma test_attr_unique e n U pick attr :
  unique_kv e →
  test_attr e n U pick attr = if attr_matches e attr then uniq_val n 0 U attr.2 else Some false.
Proof.
  intros (_ & Hku & Hvu & Hkp & Hvp). destruct attr as [k v]. unfold test_attr, attr_matches.
  rewrite Hku, Hvu, Hkp. simpl. destruct (key_matches _ _ k); simpl; [|done].
  destruct (decide (n = 0%nat)) as [->|]; simpl; by destruct (val_matches _ _ _ v).
Qed.

(** A value not recorded for an earlier index. *)
Definition new_value (U : list kvq_ele) (n : nat) (v : string) : Prop :=
  ∀ j w, (j < n)%nat → recorded U j = Some w → v ≠ w.

Lemma test_attrs_unique e n U pick attrs :
  unique_kv e → (n ≤ length U)%nat →
  ∃ found, test_attrs e n U pick attrs = Some found ∧
    ∀ attr, found = Some attr → attr ∈ attrs ∧ attr_matches e attr = true ∧ new_value U n attr.2.
Proof.
  intros He Hn. induction attrs as [|attr attrs (found & IH & Hf)]; simpl; [by exists None|].
  rewrite test_attr_unique by done.
  assert (∀ a, found = Some a → a ∈ attr :: attrs ∧ attr_matches e a = true ∧ new_value U n a.2) as Hf'.
  { intros a Ha. destruct (Hf a Ha) as [? ?]. by split; [right|]. }
  destruct (attr_matches e attr) eqn:Hm; simpl; [|by exists found].
  destruct (uniq_val_spec n 0 U attr.2) as ([] & -> & Hv); [lia| |by exists found]. simpl.
  exists (Some attr). split; [done|]. intros a [= <-]. split; [by left|]. split; [done|].
  intros j w Hj. apply (Hv eq_refl). lia.
Qed.

(** What a pick must be. *)
Definition pick_ok (e : rsq_ele) (s : rs_simple_priv) rse (v : string) : Prop :=
  in_table s rse ∧ rse_status rse = RS_STATUS_UP ∧
  ∃ k, (k, v) ∈ list_all (rse_attr rse) ∧ attr_matches e (k, v) = true.

Lemma rss_test_unique e rse n U pick :
  unique_kv e → (n < length U)%nat →
  rss_test e rse n U pick = Some (false, U, pick) ∨
  ∃ k v U', rss_test e rse n U pick = Some (true, U', pick) ∧
    (k, v) ∈ list_all (rse_attr rse) ∧ attr_matches e (k, v) = true ∧ new_value U n v ∧
    length U' = length U ∧ recorded U' n = Some v ∧ ∀ j, j ≠ n → recorded U' j = recorded U j.
Proof.
  intros He Hn. pose proof He as (_ & Hku & Hvu & Hkp & Hvp). unfold rss_test.
  destruct (list_iter_suffix _ (rse_attr rse) (default "" (rq_key e))) as (skipped & Hall & _).
  destruct (test_attrs_unique e n U pick (list_iter_search_compare (rse_attr rse) (default "" (rq_key e))) He)
    as (found & -> & Hf); [lia|]. simpl. destruct found as [[k v]|]; [right|by left].
  destruct (Hf _ eq_refl) as (Hin & Hm & Hnew). rewrite Hku, Hvu, Hkp, Hvp. simpl.
  destruct (lookup_lt_is_Some_2 U n Hn) as [u Hu]. rewrite Hu. simpl. exists k, v. eexists. split; [done|].
  split; [rewrite Hall; apply elem_of_app; by right|]. split; [done|]. split; [done|].
  split; [apply length_insert|]. unfold recorded. split; [by rewrite list_lookup_insert_eq|].
  intros j Hj. by rewrite list_lookup_insert_ne.
Qed.

(** The records hold the values chosen for the indices below [length chosen]. *)
Definition unique_inv (e : rsq_ele) (s : rs_simple_priv) (n_rid : nat) (kvq : kvq_table)
    (chosen : list (rss_rid_entry * string)) : Prop :=
  (∃ U, kv_unique kvq !! 0%nat = Some U ∧ length U = n_rid ∧
     ∀ j c, chosen !! j = Some c → recorded U j = Some c.2) ∧
  is_Some (kv_pickone kvq !! 0%nat) ∧ NoDup (snd <$> chosen) ∧
  ∀ c, c ∈ chosen → pick_ok e s c.1 c.2.

Lemma rid_loop_unique h q A e ign change s n_rid slots st chosen :
  query_ok h q A [e] → unique_kv e → rss_ok s → (∀ slot, slot ∈ slots → (slot < n_rids s)%nat) →
  rs_found st = false → unique_inv e s n_rid (rs_kvg st) chosen → (length chosen < n_rid)%nat →
  let run := rid_loop h q None (length chosen) 0 ign None change s slots st in
  run = Some st ∨
  ∃ rse v kvg, run = Some (rq_assign (rq_set_kvq st kvg (rs_kvl st)) (length chosen) rse) ∧
    unique_inv e s n_rid kvg (chosen ++ [(rse, v)]).
Proof.
  intros Hq He Hok Hs Hst ((U & HU & HlU & Hrec) & [p Hp] & Hnd & Hpick) Hlen.
  induction slots as [|slot slots IH]; simpl; [by left|].
  assert (∀ x, x ∈ slots → (x < n_rids s)%nat) as Hs' by (intros x Hx; apply Hs; by right).
  destruct (entry_at_valid s slot Hok) as (rse & Hrse & Htab); [apply Hs; by left|].
  unfold entry_at in Hrse. destruct (mjoin _) as [a|]; [|done]. simpl in *. rewrite Hrse. simpl.
  destruct (decide (rse_status rse = RS_STATUS_UP)) as [Hup|Hup];
    [|rewrite decide_True by (split; [done|lia]); by apply IH].
  rewrite decide_False by tauto. rewrite (eval_query_list h q A [e]) by done.
  pose proof He as (Hop & Hku & Hvu & Hkp & Hvp). cbn [eval_list]. unfold eval_ele.
  rewrite Hop, decide_True, HU by done. simpl. rewrite Hp. simpl.
  destruct (rss_test_unique e rse (length chosen) U p He) as [-> | (k & v & U' & -> & Hin & Hm & Hnew & Hl & Hr & Hother)];
    [lia| |].
  - simpl. rewrite (list_insert_id _ _ _ HU), (list_insert_id _ _ _ Hp).
    rewrite req_state_same by (done || by destruct (rs_kvg st)). by apply IH.
  - simpl. right. exists rse, v. eexists. split; [done|]. split; [|split; [|split]]; simpl.
    + exists U'. split; [apply list_lookup_insert_eq; by apply lookup_lt_Some in HU|]. split; [by rewrite Hl|].
      intros j c [Hc|[-> Hc]]%lookup_snoc_Some.
      * rewrite Hother by lia. apply Hrec. tauto.
      * subst c. exact Hr.
    + exists p. apply list_lookup_insert_eq. by apply lookup_lt_Some in Hp.
    + rewrite fmap_app. apply NoDup_app. split; [done|]. split; [|apply NoDup_singleton].
      intros w (c & Hw & Hc)%list_elem_of_fmap Hv%list_elem_of_singleton.
      apply list_elem_of_lookup in Hc as [j Hj].
      apply (Hnew j c.2); [by apply lookup_lt_Some in Hj|by apply Hrec|simpl in *; congruence].
    + intros c [Hc|Hc%list_elem_of_singleton]%elem_of_app; [by apply Hpick|]. subst c. simpl.
      split; [done|]. split; [done|]. by exists k.
Qed.

(** The requests carry the keys of the resources chosen so far. *)
Definition keys_inv (chosen : list (rss_rid_entry * string)) (reqs : list rs_request) : Prop :=
  ∀ r j, r ∈ reqs → rr_rid_index r = Z.of_nat j → rr_rid_key r = rse_rid_key ∘ fst <$> chosen !! j.

Lemma keys_inv_assign chosen rse v reqs :
  keys_inv chosen reqs → keys_inv (chosen ++ [(rse, v)]) (assign_key (length chosen) rse <$> reqs).
Proof.
  intros Hk r j (r0 & -> & Hr0)%list_elem_of_fmap Hj. unfold assign_key in *.
  case_decide as Hi; simpl in *.
  - assert (j = length chosen) as -> by lia. by rewrite list_lookup_middle.
  - rewrite (Hk r0 j Hr0 Hj). destruct (decide (j < length chosen)%nat).
    + by rewrite lookup_app_l.
    + rewrite !lookup_ge_None_2; [done|rewrite length_app; simpl; lia|lia].
Qed.

Lemma request_loop_unique h q A e s ign rnd n_rid n : ∀ st chosen,
  query_ok h q A [e] → unique_kv e → rss_ok s → rs_hints_list st = None → rs_err_cnt st = 0 →
  unique_inv e s n_rid (rs_kvg st) chosen → keys_inv chosen (rs_req st) →
  (length chosen + n = n_rid)%nat →
  ∃ st', request_loop h q s 0 ign rnd n (length chosen) st = Some st' ∧ rs_err_cnt st' = 0 ∧
    ((0 < n)%nat → rs_found st' = true → ∃ chosen', length chosen' = n_rid ∧
       NoDup (snd <$> chosen') ∧ (∀ c, c ∈ chosen' → pick_ok e s c.1 c.2) ∧ keys_inv chosen' (rs_req st')).
Proof.
  induction n as [|n IH]; intros st chosen Hq He Hok Hh Herr Hinv Hkeys Hlen; cbn [request_loop].
  - exists st. split; [done|]. split; [done|]. lia.
  - unfold request_step, hint_setup. simpl. rewrite Hh. simpl.
    change ((λ j, ((rnd (length chosen) + j) mod n_rids s)%nat) <$> seq 0 (n_rids s))
      with (slots_from s (rnd (length chosen))).
    destruct (rid_loop_unique h q A e ign (req_change (length chosen) (rs_req st)) s n_rid
                (slots_from s (rnd (length chosen))) (rq_set_found st false) chosen)
      as [-> | (rse & v & kvg & -> & Hinv')]; try done; [|lia|..].
    + intros slot. by rewrite slots_from_elem.
    + simpl. eexists. split; [done|]. split; [done|]. done.
    + simpl. set (st1 := rq_assign _ _ _).
      destruct (IH st1 (chosen ++ [(rse, v)])) as (st' & Hrun & He' & Hdone); try done.
      * by apply keys_inv_assign.
      * rewrite length_app. simpl. lia.
      * rewrite length_app, Nat.add_1_r in Hrun. exists st'. split; [done|]. split; [done|].
        intros _ Hf. destruct n as [|n]; [|apply Hdone; [lia|done]].
        simpl in Hrun. injection Hrun as <-. exists (chosen ++ [(rse, v)]).
        destruct Hinv' as (_ & _ & Hnd & Hpick). split; [rewrite length_app; simpl; lia|].
        split; [done|]. split; [done|]. by apply keys_inv_assign.
Qed.

(** C39: A request without hints, whose query is exactly one test with a unique
    value, always returns; when it succeeds the resources of its indices are up
    and match, with pairwise different values, and the pieces carry their
    keys. *)
Theorem rs_simple_request_unique h q A e s reqs picks n_rid ign rnd :
  query_ok h q A [e] → unique_kv e → rss_ok s →
  ∃ res st, rs_simple_request h q s reqs None picks 0 n_rid ign rnd = Some (res, st) ∧
    ∀ al, res = inr al → ∃ chosen, length chosen = n_rid ∧
      NoDup (snd <$> chosen) ∧ (∀ c, c ∈ chosen → pick_ok e s c.1 c.2) ∧
      ∀ r j, r ∈ rs_req st → rr_rid_index r = Z.of_nat j →
        rr_rid_key r = rse_rid_key ∘ fst <$> chosen !! j.
Proof.
  intros Hq He Hok. destruct (request_start_room h q A [e] n_rid Hq) as (n & u & k & Hc & Hroom & Hu & Hk).
  unfold rs_simple_request. rewrite Hc. simpl. set (st0 := Req_state _ _ _ _ _ _ _ _ _).
  destruct (request_loop_unique h q A e s ign rnd n_rid n_rid st0 []) as (st & Hrun & Herr & Hdone); try done.
  - split; [|split; [|split]].
    + exists (replicate n_rid kvq_none). split; [|split; [apply length_replicate|done]].
      simpl. apply lookup_replicate. split; [done|lia].
    + simpl. apply lookup_lt_is_Some. rewrite length_replicate. case_decide; lia.
    + constructor.
    + by intros c ?%not_elem_of_nil.
  - intros r j (r0 & -> & _)%list_elem_of_fmap _. by destruct j.
  - simpl in Hrun. rewrite Hrun. simpl. eexists _, st. split; [done|]. intros al Hal.
    case_decide as Hf; [done|]. destruct (rs_found st) eqn:Hfound; [|by destruct Hf; left].
    destruct n_rid as [|m].
    + simpl in Hrun. by injection Hrun as <-.
    + apply Hdone; [lia|done].
Qed.
End query_facts.
