(* ===== verification/RsDemo.v ===== *)
(** * Resource service: examples

    A file with two resources, and the theorems on it. *)
From Stdlib Require Import Ascii.
From stdpp Require Import gmap strings.
From S2P Require Import Prelude Inip RsQuery RsTable RsSimple.
#[local] Open Scope Z_scope.

#[local] Existing Instance list_std.
#[local] Existing Instance list_std_ok.
#[local] Existing Instance gop_std.
#[local] Existing Instance gop_std_ok.

Definition demo_file : list (string * inip_group) :=
  [("rid", [("rid_key", "r1"); ("ds_key", "d1"); ("host", "h1"); ("lun", "7")]);
   ("note", []);
   ("rid", [("rid_key", "r2"); ("ds_key", "d2"); ("host", "h2"); ("space_free", "10")]);
   ("rid", [("rid_key", "r1"); ("ds_key", "d9")])].
Definition demo_rnd : nat → nat → nat := λ _ _, 0%nat.
Definition rss_start : rs_simple_priv := Rs_simple_priv [] list_create [] ∅ 0 0 0 0 0 0.
Definition demo_rss : rs_simple_priv := default rss_start (rs_simple_load (demo_rnd 2) demo_file rss_start).

Lemma demo_rnd_ok : ∀ i n, (0 < n)%nat → (demo_rnd n i < n)%nat.
Proof. done. Qed.

Lemma demo_rss_ok : rss_ok demo_rss.
Proof.
  destruct (rs_simple_load_spec demo_rnd demo_file rss_start demo_rnd_ok) as (s & Hs & Hok & _).
  unfold demo_rss. change (demo_rnd 2) with (demo_rnd (length (list_all (foldl load_group ([], list_create) demo_file).2))).
  by rewrite Hs.
Qed.

(** A changed file is loaded: two resources, the later duplicate is dropped. *)
Lemma rs_simple_refresh_correct_witness :
  ∃ s', rs_simple_refresh (demo_rnd 2) (Some (5, demo_file)) rss_start = Some s' ∧ rss_ok s' ∧ mapping_ok s' ∧
    modify_time s' = 5 ∧ ∀ k, k ∈ fst <$> list_all (rid_table s') ↔ k ∈ file_rids demo_file.
Proof. exact (rs_simple_refresh_correct demo_rnd (Some (5, demo_file)) rss_start demo_rnd_ok). Defined.

(** No attribute that starts with "lu", and the postfix form on the heap. *)
Definition demo_kv_ele (op : Z) (k v : string) (kop vop : Z) : rsq_ele := Rsq_ele op (Some k) (Some v) kop vop None.
Definition demo_formula : formula :=
  FNot (demo_kv_ele RSQ_BASE_OP_NOT "" "" 0 0)
    (FKv (demo_kv_ele RSQ_BASE_OP_KV "lu" "" RSQ_BASE_KV_PREFIX RSQ_BASE_KV_ANY)).
Definition demo_formula_heap : rsq_heap :=
  {[ 0%nat := rq_set_next (demo_kv_ele RSQ_BASE_OP_KV "lu" "" RSQ_BASE_KV_PREFIX RSQ_BASE_KV_ANY) (Some 1%nat);
     1%nat := demo_kv_ele RSQ_BASE_OP_NOT "" "" 0 0 ]}.
Definition demo_formula_q : rsq_base := Rsq_base (Some 0%nat) (Some 1%nat).

Lemma demo_formula_query : query_ok demo_formula_heap demo_formula_q [0%nat; 1%nat] (postfix demo_formula).
Proof.
  split; [|split; [done|apply (bool_decide_unpack _); vm_compute; exact I]].
  split; [done|]. split; [done|]. exists (Some 1%nat). split; [done|].
  split; [done|]. split; [done|]. by exists None.
Qed.

Lemma demo_formula_ok : formula_ok demo_formula.
Proof. split; [done|]. split; [done|]. by split_and!. Qed.

Definition demo_entry (a : nat) : rss_rid_entry :=
  default (Rss_rid_entry "" "" [] 0 0 0 0 0) (rss_rids demo_rss !! a).

Lemma eval_query_formula_witness :
  formula_value (demo_entry 1) demo_formula = true ∧
  eval_query demo_formula_heap demo_formula_q None (demo_entry 1) 0 (kvq_start 0 0 1) (kvq_start 0 0 1) =
    Some (kvq_start 0 0 1, kvq_start 0 0 1, Some (b2z (formula_value (demo_entry 1) demo_formula))).
Proof.
  split; [vm_compute; reflexivity|].
  apply (eval_query_formula demo_formula_heap demo_formula_q [0%nat; 1%nat] demo_formula);
    [exact demo_formula_query|exact demo_formula_ok|]. split; simpl; lia.
Defined.

(** Two pieces on the resource without the attribute, one out of range. *)
Definition demo_reqs : list rs_request :=
  [Rs_request 0 100 None; Rs_request 1 200 (Some "old"); Rs_request 7 1 (Some "old")].

Lemma demo_entry_listed : (rse_rid_key (demo_entry 1), 1%nat) ∈ list_all (rid_table demo_rss).
Proof. (apply (list_elem_of_lookup_2 _ 0%nat) || apply (list_elem_of_lookup_2 _ 1%nat)); vm_compute; reflexivity. Qed.

Lemma demo_entry_in_table : in_table demo_rss (demo_entry 1).
Proof.
  exists 1%nat. split; [exact demo_entry_listed|].
  vm_cast_no_check (@eq_refl (option rss_rid_entry) (Some (demo_entry 1))).
Qed.

Lemma rs_simple_request_formula_witness :
  formula_value (demo_entry 1) demo_formula = satisfies (demo_entry 1) demo_formula ∧
  ∃ pk al st, rs_simple_request demo_formula_heap demo_formula_q demo_rss demo_reqs None ∅ 0 2 false (demo_rnd 2) =
      Some (inr al, st) ∧
    (∀ i, in_table demo_rss (pk i) ∧ rse_status (pk i) = RS_STATUS_UP ∧ formula_value (pk i) demo_formula = true) ∧
    rs_req st = (λ r, rr_set_key r (if decide (0 ≤ rr_rid_index r < Z.of_nat 2)
                       then Some (rse_rid_key (pk (Z.to_nat (rr_rid_index r)))) else None)) <$> demo_reqs ∧
    ∀ a, a ∈ al ↔ ∃ k r, demo_reqs !! k = Some r ∧ 0 ≤ rr_rid_index r < Z.of_nat 2 ∧
      a = Ds_alloc k (rse_ds_key (pk (Z.to_nat (rr_rid_index r)))) (rr_size r).
Proof.
  destruct (rs_simple_request_formula demo_formula_heap demo_formula_q [0%nat; 1%nat] demo_formula demo_rss
    demo_reqs ∅ 2 false (demo_rnd 2) demo_formula_query demo_formula_ok demo_rss_ok) as (Hexact & Hsome & _).
  split; [apply Hexact; vm_compute; discriminate|]. apply Hsome; [lia|].
  exists (demo_entry 1). split; [exact demo_entry_in_table|split; vm_compute; reflexivity].
Defined.

(** Two different hosts. *)
Definition demo_unique : rsq_ele :=
  demo_kv_ele RSQ_BASE_OP_KV "host" "" RSQ_BASE_KV_EXACT (RSQ_BASE_KV_ANY + RSQ_BASE_KV_UNIQUE).
Definition demo_unique_heap : rsq_heap := {[ 0%nat := demo_unique ]}.
Definition demo_unique_q : rsq_base := Rsq_base (Some 0%nat) (Some 0%nat).

Lemma demo_unique_query : query_ok demo_unique_heap demo_unique_q [0%nat] [demo_unique].
Proof.
  split; [|split; [done|apply (bool_decide_unpack _); vm_compute; exact I]].
  split; [done|]. split; [done|]. by exists None.
Qed.

Lemma rs_simple_request_unique_witness :
  (∃ al st, rs_simple_request demo_unique_heap demo_unique_q demo_rss demo_reqs None ∅ 0 2 false (demo_rnd 2) =
              Some (inr al, st)) ∧
  ∃ res st, rs_simple_request demo_unique_heap demo_unique_q demo_rss demo_reqs None ∅ 0 2 false (demo_rnd 2) =
      Some (res, st) ∧
    ∀ al, res = inr al → ∃ chosen, length chosen = 2%nat ∧
      NoDup (snd <$> chosen) ∧ (∀ c, c ∈ chosen → pick_ok demo_unique demo_rss c.1 c.2) ∧
      ∀ r j, r ∈ rs_req st → rr_rid_index r = Z.of_nat j →
        rr_rid_key r = rse_rid_key ∘ fst <$> chosen !! j.
Proof.
  split; [vm_compute; by eexists _, _|].
  apply (rs_simple_request_unique demo_unique_heap demo_unique_q [0%nat] demo_unique demo_rss);
    [exact demo_unique_query|by split_and!|exact demo_rss_ok].
Defined.

(** With three indices there are not enough hosts. *)
Example demo_unique_three :
  fst <$> rs_simple_request demo_unique_heap demo_unique_q demo_rss demo_reqs None ∅ 0 3 false (demo_rnd 2) =
    Some (inl (Op_status OP_STATE_FAILURE RS_ERROR_NOT_ENOUGH_RIDS)).
Proof. vm_compute. reflexivity. Qed.

(** A local query decides alone: the global query fails on the second entry,
    which has no such attribute, and the result is that of the local one. *)
Definition demo_two_heap : rsq_heap :=
  {[ 0%nat := demo_kv_ele RSQ_BASE_OP_KV "lun" "" RSQ_BASE_KV_EXACT RSQ_BASE_KV_ANY;
     1%nat := demo_kv_ele RSQ_BASE_OP_KV "host" "h2" RSQ_BASE_KV_EXACT RSQ_BASE_KV_EXACT ]}.
Example demo_local_decides :
  snd <$> eval_query demo_two_heap (Rsq_base (Some 0%nat) (Some 0%nat)) None
    (demo_entry 1) 0 (kvq_start 0 0 1) (kvq_start 0 0 1) = Some (Some 0) ∧
  snd <$> eval_query demo_two_heap (Rsq_base (Some 0%nat) (Some 0%nat)) (Some (Rsq_base (Some 1%nat) (Some 1%nat)))
    (demo_entry 1) 0 (kvq_start 0 0 1) (kvq_start 0 0 1) = Some (Some 1).
Proof. split; vm_compute; reflexivity. Qed.
