(* ===== verification/Raid4.v ===== *)
(** * Parity of a stripe (raid4.c)

    Encoding and decoding of a RAID4 stripe: buffers are lists of bytes, the
    pointer arrays lists of buffers that do not overlap, and an access outside
    a buffer or an array is [None]. *)
From S2P Require Import Prelude.
#[local] Open Scope Z_scope.

(** The C library's [memcpy] between disjoint buffers. *)
Definition memcpy (dst src : list Z) (n : nat) : option (list Z) :=
  if decide (n ≤ length dst ∧ n ≤ length src)%nat then Some (take n src ++ drop n dst) else None.

(** The loop of [xor_block] from byte [i] on. *)
Fixpoint xor_loop (n i : nat) (data parity : list Z) : option (list Z) :=
  match n with
  | O => Some parity
  | S n => d ← data !! i; p ← parity !! i; xor_loop n (S i) data (<[i := Z.lxor p d]> parity)
  end.

Definition xor_block (data parity : list Z) (nbytes : nat) : option (list Z) :=
  xor_loop nbytes 0 data parity.

(** The loop of [raid4_encode] over the strips [todo]. *)
Fixpoint encode_loop (todo : list nat) (data : list (list Z)) (p : list Z) (block_size : nat)
    : option (list Z) :=
  match todo with
  | [] => Some p
  | i :: todo => d ← data !! i; p ← xor_block d p block_size; encode_loop todo data p block_size
  end.

Definition raid4_encode (data_strips : nat) (data parity : list (list Z)) (block_size : nat)
    : option (list (list Z)) :=
  p ← parity !! 0%nat; d ← data !! 0%nat;
  p ← memcpy p d block_size;
  p ← encode_loop (seq 1 (data_strips - 1)) data p block_size;
  Some (<[0%nat := p]> parity).

(** The loop of [raid4_decode]: every other strip into strip [k]. *)
Fixpoint decode_loop (todo : list nat) (k : nat) (data : list (list Z)) (block_size : nat)
    : option (list (list Z)) :=
  match todo with
  | [] => Some data
  | i :: todo =>
      if decide (i ≠ k) then
        d ← data !! i; t ← data !! k; t ← xor_block d t block_size;
        decode_loop todo k (<[k := t]> data) block_size
      else decode_loop todo k data block_size
  end.

(** The result code and the data strips; a negative strip number is outside
    the array. *)
Definition raid4_decode (data_strips : nat) (erasures : list Z) (data parity : list (list Z))
    (block_size : nat) : option (Z * list (list Z)) :=
  e1 ← erasures !! 1%nat;
  if decide (e1 ≠ -1) then Some (-1, data) else
  e0 ← erasures !! 0%nat;
  if decide (e0 >= Z.of_nat data_strips) then Some (0, data) else
  if decide (e0 < 0) then None else
  let k := Z.to_nat e0 in
  t ← data !! k; p ← parity !! 0%nat;
  t ← memcpy t p block_size;
  data ← decode_loop (seq 0 data_strips) k (<[k := t]> data) block_size;
  Some (0, data).

(** ** Exclusive or of whole buffers *)
Definition bxor : list Z → list Z → list Z := zip_with Z.lxor.

Lemma bxor_length n p d : length p = n → length d = n → length (bxor p d) = n.
Proof. intros ??. unfold bxor. rewrite length_zip_with. lia. Qed.

Lemma bxor_assoc a b c : bxor (bxor a b) c = bxor a (bxor b c).
Proof.
  revert b c. induction a as [|x a IH]; intros [|y b] [|z c]; simpl; try done.
  by rewrite Z.lxor_assoc, IH.
Qed.

Lemma bxor_comm a b : bxor a b = bxor b a.
Proof.
  revert b. induction a as [|x a IH]; intros [|y b]; simpl; try done. by rewrite Z.lxor_comm, IH.
Qed.

Lemma bxor_cancel a b : length a = length b → bxor (bxor a b) b = a.
Proof.
  revert b. induction a as [|x a IH]; intros [|y b] Hl; simplify_eq/=; [done|].
  rewrite Z.lxor_assoc, Z.lxor_nilpotent, Z.lxor_0_r. f_equal. by apply IH.
Qed.

Lemma list_insert_mid {A} (l1 l2 : list A) x y :
  <[length l1 := y]> (l1 ++ x :: l2) = l1 ++ y :: l2.
Proof. by rewrite insert_app_r_alt, Nat.sub_diag by lia. Qed.

Lemma memcpy_full dst src n : length dst = n → length src = n → memcpy dst src n = Some src.
Proof.
  intros Hd Hs. unfold memcpy. rewrite decide_True by lia.
  by rewrite take_ge, drop_ge, app_nil_r by lia.
Qed.

Lemma xor_loop_app pre1 pre2 d p :
  length pre1 = length pre2 → length d = length p →
  xor_loop (length d) (length pre1) (pre1 ++ d) (pre2 ++ p) = Some (pre2 ++ bxor p d).
Proof.
  revert pre1 pre2 p. induction d as [|x d IH]; intros pre1 pre2 [|y p] Hpre Hl; simplify_eq/=; [done|].
  rewrite list_lookup_middle by done. simpl. rewrite Hpre, list_lookup_middle by done. simpl.
  rewrite list_insert_mid.
  change (x :: d) with ([x] ++ d). change (Z.lxor y x :: p) with ([Z.lxor y x] ++ p).
  rewrite !app_assoc. replace (S (length pre2)) with (length (pre1 ++ [x])) by (rewrite length_app; simpl; lia).
  rewrite IH by (rewrite ?length_app; simpl; lia). by rewrite <- app_assoc.
Qed.

Lemma xor_block_full d p n : length d = n → length p = n → xor_block d p n = Some (bxor p d).
Proof. intros <- Hp. by apply (xor_loop_app [] [] d p). Qed.

(** The exclusive or of a buffer with a list of strips. *)
Definition bxors (p : list Z) (ds : list (list Z)) : list Z := foldl bxor p ds.

Lemma bxors_cons_r p d ds : bxors (bxor p d) ds = bxor (bxors p ds) d.
Proof.
  unfold bxors. revert p. induction ds as [|e ds IH]; intros p; simpl; [done|].
  rewrite <- IH, !bxor_assoc. by rewrite (bxor_comm d e).
Qed.

Lemma bxors_length n p ds : length p = n → Forall (λ d, length d = n) ds → length (bxors p ds) = n.
Proof.
  intros Hp Hds. revert p Hp. induction Hds as [|d ds Hd Hds IH]; intros p Hp; simpl; [done|].
  apply IH. by apply bxor_length.
Qed.

Lemma bxors_cancel n p ds :
  length p = n → Forall (λ d, length d = n) ds → bxors (bxors p ds) ds = p.
Proof.
  intros Hp Hds. revert p Hp. induction Hds as [|d ds Hd Hds IH]; intros p Hp; simpl; [done|].
  change (bxors (bxor (bxors (bxor p d) ds) d) ds = p).
  rewrite (bxors_cons_r p), bxor_assoc, <- bxor_assoc, bxor_cancel
    by (rewrite (bxors_length n), Hd; done).
  by apply IH.
Qed.

Definition strips_ok (n : nat) (data : list (list Z)) : Prop := Forall (λ d, length d = n) data.

Lemma encode_loop_spec n ds1 ds2 p :
  strips_ok n (ds1 ++ ds2) → length p = n →
  encode_loop (seq (length ds1) (length ds2)) (ds1 ++ ds2) p n = Some (bxors p ds2).
Proof.
  revert ds1 p. induction ds2 as [|d ds2 IH]; intros ds1 p Hok Hp; simpl; [done|].
  assert (length d = n) as Hd by (apply Forall_app in Hok as [_ Hok]; by inversion Hok).
  rewrite list_lookup_middle by done. simpl. rewrite xor_block_full by done. simpl.
  rewrite cons_middle, app_assoc in Hok |- *.
  replace (S (length ds1)) with (length (ds1 ++ [d])) by (rewrite length_app; simpl; lia).
  apply IH; [done|]. by apply bxor_length.
Qed.

Lemma raid4_encode_spec n d ds p ps :
  strips_ok n (d :: ds) → length p = n →
  raid4_encode (S (length ds)) (d :: ds) (p :: ps) n = Some (bxors d ds :: ps).
Proof.
  intros Hok Hp. inversion Hok; subst. unfold raid4_encode. simpl. rewrite Nat.sub_0_r.
  rewrite memcpy_full by done. simpl. by rewrite (encode_loop_spec _ [d] ds).
Qed.

(** The pass over the strips of [ds2], none of which is strip [k]. *)
Lemma decode_loop_spec n data k t (todo : list nat) (ds : list (list Z)) :
  length t = n → strips_ok n ds → data !! k = Some t →
  mapM (λ i, data !! i) (filter (λ i, i ≠ k) todo) = Some ds →
  decode_loop todo k data n = Some (<[k := bxors t ds]> data).
Proof.
  revert data t ds. induction todo as [|i todo IH]; intros data t ds Ht Hok Hk Hm; simpl in *.
  { injection Hm as <-. simpl. by rewrite list_insert_id. }
  rewrite filter_cons in Hm. case_decide as Hik; [|by apply (IH _ t)].
  simpl in Hm. destruct (data !! i) as [d|] eqn:Hd; [|done]. simpl in Hm.
  destruct (mapM _ _) as [ds'|] eqn:Hm'; [|done]. injection Hm as <-.
  inversion Hok; subst. simpl. rewrite Hk. simpl. rewrite xor_block_full by done. simpl.
  pose proof (lookup_lt_Some _ _ _ Hk).
  rewrite (IH _ (bxor t d) ds'); [|by apply bxor_length|done|by apply list_lookup_insert_eq|].
  - by rewrite list_insert_insert_eq.
  - rewrite <- Hm'. apply Forall_mapM_ext, Forall_forall. intros j [Hj _]%list_elem_of_filter.
    by rewrite list_lookup_insert_ne.
Qed.

(** The strips other than the one between [ds1] and [ds2]. *)
Lemma others_lookup (ds1 ds2 : list (list Z)) t :
  mapM (λ i, (ds1 ++ t :: ds2) !! i)
    (filter (λ i, i ≠ length ds1) (seq 0 (length ds1 + S (length ds2)))) = Some (ds1 ++ ds2).
Proof.
  rewrite seq_app, filter_app. simpl. rewrite filter_cons_False by lia.
  rewrite !filter_all by (intros i Hi%elem_of_seq; lia).
  apply mapM_Some, Forall2_app; apply Forall2_same_length_lookup_2; rewrite ?length_seq; try done.
  - intros i j d Hj Hd. apply lookup_seq in Hj as [-> Hi]. simpl. by rewrite lookup_app_l.
  - intros i j d Hj Hd. apply lookup_seq in Hj as [-> Hi].
    rewrite lookup_app_r by lia. by replace (S (length ds1) + i - length ds1)%nat with (S i) by lia.
Qed.

(** The order of the strips does not matter. *)
#[global] Instance bxors_perm : Proper ((=) ==> (≡ₚ) ==> (=)) bxors.
Proof.
  intros p ? <- ds ds' Hp. revert p. induction Hp as [|d l k _ IH|d e l|l1 l2 l3 _ IH1 _ IH2]; intros p.
  - done.
  - apply IH.
  - unfold bxors. simpl. by rewrite !bxor_assoc, (bxor_comm d e).
  - by rewrite IH1.
Qed.

Lemma bxors_swap e d ds : bxors e (d :: ds) = bxors d (e :: ds).
Proof. unfold bxors. simpl. by rewrite (bxor_comm e d). Qed.

(** The parity does not depend on which strip it is started from. *)
Lemma raid4_encode_any n ds1 d ds2 p :
  strips_ok n (ds1 ++ d :: ds2) → length p = n →
  raid4_encode (length (ds1 ++ d :: ds2)) (ds1 ++ d :: ds2) [p] n = Some [bxors d (ds1 ++ ds2)].
Proof.
  intros Hok Hp. destruct ds1 as [|e ds1]; simpl in *; rewrite raid4_encode_spec by done; [done|].
  do 2 f_equal. by rewrite <- Permutation_middle, bxors_swap.
Qed.

(** Losing one data strip is recoverable: after encoding, decoding with the
    lost strip's number rebuilds it whatever its buffer holds. *)
Theorem raid4_decode_encode n ds1 d ds2 p lost :
  strips_ok n (ds1 ++ d :: ds2) → length p = n → length lost = n →
  let data := ds1 ++ d :: ds2 in
  ∃ p', raid4_encode (length data) data [p] n = Some [p'] ∧
    raid4_decode (length data) [Z.of_nat (length ds1); -1] (ds1 ++ lost :: ds2) [p'] n = Some (0, data).
Proof.
  intros Hok Hp Hlost data. exists (bxors d (ds1 ++ ds2)). split; [by apply raid4_encode_any|].
  apply Forall_app in Hok as [Hok1 Hok2]. apply Forall_cons in Hok2 as [Hd Hok2].
  assert (strips_ok n (ds1 ++ ds2)) as Hok by (by apply Forall_app).
  assert (length (bxors d (ds1 ++ ds2)) = n) as Hlen by (by apply bxors_length).
  unfold raid4_decode, data. simpl. rewrite length_app. simpl. rewrite decide_False by lia.
  rewrite decide_False by lia. rewrite Nat2Z.id, list_lookup_middle by done. simpl.
  rewrite memcpy_full by done. simpl. rewrite list_insert_mid.
  rewrite (decode_loop_spec n _ _ (bxors d (ds1 ++ ds2)) _ (ds1 ++ ds2)); [|done|done|by apply list_lookup_middle|apply others_lookup].
  simpl. by rewrite list_insert_mid, (bxors_cancel n).
Qed.

(** With two or more losses the call fails and with only the parity lost it
    has nothing to do, the data untouched both times; but without any loss, the
    list that starts with -1, it goes on to use strip -1. *)
Theorem raid4_decode_cases m e0 e1 data parity n :
  (e1 ≠ -1 → raid4_decode m [e0; e1] data parity n = Some (-1, data)) ∧
  (Z.of_nat m ≤ e0 → raid4_decode m [e0; -1] data parity n = Some (0, data)) ∧
  raid4_decode m [-1; -1] data parity n = None.
Proof.
  unfold raid4_decode. simpl. split_and!.
  - intros He. by rewrite decide_True.
  - intros He. rewrite decide_True by lia. done.
  - by rewrite decide_False by lia.
Qed.

Lemma raid4_decode_encode_witness :
  strips_ok 2 ([[1; 2]] ++ [3; 4] :: [[255; 7]]) ∧
  ∃ p', raid4_encode 3 [[1; 2]; [3; 4]; [255; 7]] [[9; 9]] 2 = Some [p'] ∧
    raid4_decode 3 [1; -1] [[1; 2]; [0; 0]; [255; 7]] [p'] 2 = Some (0, [[1; 2]; [3; 4]; [255; 7]]).
Proof.
  split; [repeat constructor|].
  apply (raid4_decode_encode 2 [[1; 2]] [3; 4] [[255; 7]] [9; 9] [0; 0]); [repeat constructor|done..].
Defined.
