(* ===== verification/LunMap.v ===== *)
(** * LUN segments: striping (segment_lun.c)

    A row of a LUN segment spreads its bytes over the blocks of [n_devices]
    devices: a stripe has one chunk per device, and from one stripe to the next
    the devices move on by [n_shift].  [lun_row_decompose] turns a request on a
    row into one extent per device, with the pieces of the caller's buffer it
    goes with. *)
From S2P Require Import Prelude.
#[local] Open Scope Z_scope.

(** ** Data *)

(** The fields of [seglun_priv_t] that place the bytes. *)
Record lun_geom := Lun_geom { n_devices : Z; chunk_size : Z; stripe_size : Z; n_shift : Z }.

(** [lun_rw_row_t]: the extents on a device, the buffer pieces (position and
    length) in order, and the bytes.  The capacities of the arrays are left
    out. *)
Record lun_rw_row := Lun_rw_row { rw_ex : list (Z * Z); rw_iov : list (Z * Z); rw_len : Z }.
Definition lun_rw_empty : lun_rw_row := Lun_rw_row [] [] 0.

(** The buffer positions of a list of pieces. *)
Definition piece_list (ps : list (Z * Z)) : list Z := ps ≫= λ '(p, n), seqZ p n.

(** What is used of the toolbox's transfer buffers: [tbuffer_next] gives the
    pieces from a position on, how many bytes they have, and whether it went
    well, which it does inside the buffer. *)
Class TBuf := { tbuffer_next : Z → Z → list (Z * Z) * Z * bool; tbuffer_size : Z }.
Class TBufOk `{TBuf} : Prop := {
  tbuffer_next_ok pos n : 0 ≤ pos → 0 < n → pos + n ≤ tbuffer_size →
    let '(ps, got, ok) := tbuffer_next pos n in
    ok = true ∧ 0 < got ≤ n ∧ piece_list ps = seqZ pos got }.

(** ** Decomposing a request *)
Section decompose.
Context `{!TBuf}.

(** The loop over the buffer for one chunk. *)
Fixpoint chunk_pieces (fuel : nat) (pos nleft : Z) : list (Z * Z) :=
  if decide (nleft > 0) then
    match fuel with
    | O => []
    | S fuel =>
        let '(ps, got, ok) := tbuffer_next pos nleft in
        ps ++ if ok then chunk_pieces fuel (pos + got) (nleft - got) else []
    end
  else [].

(** [offset[i]], [len[i]] and [rw_buf[i]]. *)
Record lun_dec := Lun_dec { dc_off : Z; dc_len : Z; dc_row : lun_rw_row }.

(** The chunk of device [i] in stripe [ss]. *)
Definition dec_chunk (g : lun_geom) (lo hi bpos ss : Z) (i : nat) (d : lun_dec) : lun_dec :=
  let stripe_off := ss * stripe_size g in
  let stripe_shift := ss * n_shift g in
  let dev := (Z.of_nat i + stripe_shift) `rem` n_devices g in
  let chunk_off := stripe_off + dev * chunk_size g in
  let chunk_end := chunk_off + chunk_size g - 1 in
  if decide (chunk_end >= lo ∧ chunk_off ≤ hi) then
    let start := if decide (chunk_off < lo) then lo - chunk_off else 0 in
    let stop := if decide (chunk_end > hi) then hi - chunk_off else chunk_size g - 1 in
    let nbytes := stop - start + 1 in
    let r := dc_row d in
    Lun_dec (if decide (dc_off d = -1) then ss * chunk_size g + start else dc_off d)
      (dc_len d + nbytes)
      (Lun_rw_row (rw_ex r)
         (rw_iov r ++ chunk_pieces (Z.to_nat nbytes) (bpos + chunk_off + start - lo) nbytes) (rw_len r))
  else d.

(** The stripes from [ss] on. *)
Fixpoint dec_stripes (fuel : nat) (g : lun_geom) (lo hi bpos ss : Z) (ds : list lun_dec) : list lun_dec :=
  if decide (ss * stripe_size g ≤ hi) then
    match fuel with
    | O => ds
    | S fuel => dec_stripes fuel g lo hi bpos (ss + 1) (imap (dec_chunk g lo hi bpos ss) ds)
    end
  else ds.

(** A device that was used gets its extent. *)
Definition dec_finish (d : lun_dec) : lun_rw_row :=
  let r := dc_row d in
  if decide (dc_off d >= 0)
  then Lun_rw_row (rw_ex r ++ [(dc_off d, dc_len d)]) (rw_iov r) (rw_len r + dc_len d) else r.

Definition lun_row_decompose (g : lun_geom) (rw_buf : list lun_rw_row) (start bpos rwlen : Z)
    : list lun_rw_row :=
  let lo := start in
  let hi := lo + rwlen - 1 in
  let start_stripe := lo `quot` stripe_size g in
  let end_stripe := hi `quot` stripe_size g in
  dec_finish <$> dec_stripes (Z.to_nat (end_stripe - start_stripe + 1)) g lo hi bpos start_stripe
    (Lun_dec (-1) 0 <$> rw_buf).
End decompose.

(** ** Where a byte goes *)

(** A sensible geometry. *)
Definition geom_ok (g : lun_geom) : Prop :=
  0 < n_devices g ∧ 0 < chunk_size g ∧ stripe_size g = n_devices g * chunk_size g ∧ 0 ≤ n_shift g.

(** The position in the row of byte [o] of device [i]. *)
Definition lun_pos (g : lun_geom) (i o : Z) : Z :=
  let ss := o / chunk_size g in
  ss * stripe_size g + ((i + ss * n_shift g) mod n_devices g) * chunk_size g + o mod chunk_size g.

(** The device and its byte for a position of the row. *)
Definition lun_addr (g : lun_geom) (p : Z) : Z * Z :=
  let ss := p / stripe_size g in
  let q := p mod stripe_size g in
  ((q / chunk_size g - ss * n_shift g) mod n_devices g, ss * chunk_size g + q mod chunk_size g).

Section geometry.
Context (g : lun_geom) (Hg : geom_ok g).

Lemma div_unique_range a b q : 0 < b → b * q ≤ a < b * (q + 1) → a / b = q.
Proof. intros Hb Hq. symmetry. apply (Z.div_unique_pos a b q (a - b * q)); lia. Qed.

Lemma mod_from_div a b q : b ≠ 0 → a / b = q → a mod b = a - b * q.
Proof. intros Hb <-. pose proof (Z.div_mod a b Hb). lia. Qed.

(** The pieces of [lun_pos]. *)
Lemma lun_pos_parts i o :
  0 ≤ o →
  let ss := o / chunk_size g in let dev := (i + ss * n_shift g) mod n_devices g in
  0 ≤ ss ∧ 0 ≤ dev < n_devices g ∧ 0 ≤ o mod chunk_size g < chunk_size g ∧
  lun_pos g i o / stripe_size g = ss ∧
  (lun_pos g i o) mod stripe_size g = dev * chunk_size g + o mod chunk_size g.
Proof.
  destruct Hg as (Hn & Hc & Hs & Hsh). intros Ho ss dev.
  assert (0 ≤ ss) as Hss by (apply Z.div_pos; lia).
  pose proof (Z.mod_pos_bound (i + ss * n_shift g) (n_devices g) Hn) as Hdev. fold dev in Hdev.
  pose proof (Z.mod_pos_bound o (chunk_size g) Hc) as Hr.
  assert (lun_pos g i o / stripe_size g = ss) as Hdiv.
  { apply div_unique_range; [nia|]. unfold lun_pos. fold ss. fold dev. nia. }
  split; [done|]. split; [done|]. split; [done|]. split; [done|].
  rewrite (mod_from_div _ _ ss); [|nia|done]. unfold lun_pos. fold ss. fold dev. lia.
Qed.

Lemma lun_pos_nonneg i o : 0 ≤ o → 0 ≤ lun_pos g i o.
Proof.
  intros Ho. pose proof (lun_pos_parts i o Ho) as (Hss & Hdev & Hr & _). destruct Hg as (Hn & Hc & Hs & Hsh).
  unfold lun_pos. nia.
Qed.

(** A device's bytes keep their order in the row. *)
Lemma lun_pos_mono i o o' : 0 ≤ o → o < o' → lun_pos g i o < lun_pos g i o'.
Proof.
  intros Ho Hlt. pose proof (lun_pos_parts i o Ho) as (Hss & Hdev & Hr & _).
  pose proof (lun_pos_parts i o' ltac:(lia)) as (Hss' & Hdev' & Hr' & _). destruct Hg as (Hn & Hc & Hs & Hsh).
  pose proof (Z.div_mod o (chunk_size g) ltac:(lia)) as Heq.
  pose proof (Z.div_mod o' (chunk_size g) ltac:(lia)) as Heq'.
  unfold lun_pos. destruct (decide (o / chunk_size g = o' / chunk_size g)) as [He|Hne].
  - rewrite He in *. nia.
  - assert (o / chunk_size g < o' / chunk_size g); [|nia]. nia.
Qed.

Lemma lun_addr_range p :
  0 ≤ p → 0 ≤ (lun_addr g p).1 < n_devices g ∧ 0 ≤ (lun_addr g p).2.
Proof.
  destruct Hg as (Hn & Hc & Hs & Hsh). intros Hp. unfold lun_addr. simpl. split; [by apply Z.mod_pos_bound|].
  pose proof (Z.mod_pos_bound (p mod stripe_size g) (chunk_size g) Hc).
  assert (0 ≤ p / stripe_size g) by (apply Z.div_pos; nia). nia.
Qed.

Lemma shift_cancel a b n : 0 < n → 0 ≤ a < n → ((a - b) mod n + b) mod n = a.
Proof. intros Hn Ha. rewrite Zplus_mod_idemp_l. replace (a - b + b) with a by lia. by apply Z.mod_small. Qed.

Lemma lun_pos_addr p : 0 ≤ p → lun_pos g (lun_addr g p).1 (lun_addr g p).2 = p.
Proof.
  destruct Hg as (Hn & Hc & Hs & Hsh). intros Hp. unfold lun_addr, lun_pos. simpl.
  set (ss := p / stripe_size g). set (q := p mod stripe_size g).
  pose proof (Z.mod_pos_bound p (stripe_size g) ltac:(nia)) as Hq. fold q in Hq.
  pose proof (Z.mod_pos_bound q (chunk_size g) Hc) as Hr.
  assert ((ss * chunk_size g + q mod chunk_size g) / chunk_size g = ss) as Hdiv by (apply div_unique_range; lia).
  rewrite Hdiv, (mod_from_div (ss * _ + _) _ ss) by (lia || done).
  assert (0 ≤ q / chunk_size g < n_devices g) as Hd.
  { split; [apply Z.div_pos; lia|]. apply Z.div_lt_upper_bound; lia. }
  rewrite shift_cancel by done.
  pose proof (Z.div_mod p (stripe_size g) ltac:(nia)) as Heq. fold ss q in Heq.
  pose proof (Z.div_mod q (chunk_size g) ltac:(lia)) as Heq'. lia.
Qed.

Lemma lun_addr_pos i o : 0 ≤ i < n_devices g → 0 ≤ o → lun_addr g (lun_pos g i o) = (i, o).
Proof.
  intros Hi Ho. pose proof (lun_pos_parts i o Ho) as (Hss & Hdev & Hr & Hdiv & Hmod).
  destruct Hg as (Hn & Hc & Hs & Hsh). unfold lun_addr. rewrite Hdiv, Hmod.
  set (ss := o / chunk_size g) in *. set (dev := (i + ss * n_shift g) mod n_devices g) in *.
  assert ((dev * chunk_size g + o mod chunk_size g) / chunk_size g = dev) as Hd by (apply div_unique_range; lia).
  rewrite Hd, (mod_from_div (dev * _ + _) _ dev) by (lia || done). f_equal.
  - unfold dev. rewrite Zminus_mod_idemp_l. replace (i + ss * n_shift g - ss * n_shift g) with i by lia.
    by apply Z.mod_small.
  - pose proof (Z.div_mod o (chunk_size g) ltac:(lia)) as Heq. fold ss in Heq. lia.
Qed.
End geometry.

(** ** What the decomposition computes *)
Section correct.
Context `{!TBuf, !TBufOk} (g : lun_geom) (Hg : geom_ok g).

Lemma piece_list_app ps qs : piece_list (ps ++ qs) = piece_list ps ++ piece_list qs.
Proof. unfold piece_list. apply bind_app. Qed.

(** The buffer loop of a chunk delivers all its bytes. *)
Lemma chunk_pieces_list fuel pos n :
  0 ≤ pos → pos + n ≤ tbuffer_size → n ≤ Z.of_nat fuel →
  piece_list (chunk_pieces fuel pos n) = seqZ pos n.
Proof.
  revert pos n. induction fuel as [|fuel IH]; intros pos n Hpos Hsz Hf; cbn [chunk_pieces].
  { rewrite decide_False by lia. by rewrite seqZ_nil by lia. }
  case_decide as Hn; [|by rewrite seqZ_nil by lia].
  pose proof (tbuffer_next_ok pos n Hpos ltac:(lia) Hsz) as Hnext.
  destruct (tbuffer_next pos n) as [[ps got] ok]. destruct Hnext as (-> & Hgot & Hps).
  rewrite piece_list_app, Hps, IH by lia.
  replace n with (got + (n - got)) at 2 by lia. by rewrite seqZ_app by lia.
Qed.

(** The bytes of one chunk follow each other in the row. *)
Lemma lun_pos_chunk i ss r :
  0 ≤ r < chunk_size g →
  lun_pos g i (ss * chunk_size g + r) =
    ss * stripe_size g + ((i + ss * n_shift g) mod n_devices g) * chunk_size g + r.
Proof.
  intros Hr. unfold lun_pos.
  assert ((ss * chunk_size g + r) / chunk_size g = ss) as Hd by (apply div_unique_range; lia).
  rewrite Hd, (mod_from_div (ss * _ + r) _ ss); [lia|lia|done].
Qed.

(** What a device has collected before stripe [ss]: a run [off], [len] of its
    bytes, which are the bytes of the request among those before the
    stripe. *)
Section one_device.
Context (lo hi bpos : Z) (i : nat) (r0 : lun_rw_row).

Definition dev_run (d : lun_dec) (off : Z) (added : list (Z * Z)) : Prop :=
  rw_ex (dc_row d) = rw_ex r0 ∧ rw_len (dc_row d) = rw_len r0 ∧
  rw_iov (dc_row d) = rw_iov r0 ++ added ∧
  piece_list added = (λ o, bpos + (lun_pos g (Z.of_nat i) o - lo)) <$> seqZ off (dc_len d).

Definition dec_inv (ss : Z) (d : lun_dec) : Prop :=
  ∃ off added, dev_run d off added ∧ 0 ≤ off ∧ 0 ≤ dc_len d ∧
    (dc_off d = -1 ∧ dc_len d = 0 ∨ dc_off d = off ∧ 0 < dc_len d ∧ off + dc_len d ≤ ss * chunk_size g) ∧
    ∀ o, 0 ≤ o < ss * chunk_size g → (off ≤ o < off + dc_len d ↔ lo ≤ lun_pos g (Z.of_nat i) o ≤ hi).

Lemma dec_inv_init ss : ss * stripe_size g ≤ lo → 0 ≤ ss → dec_inv ss (Lun_dec (-1) 0 r0).
Proof.
  destruct Hg as (Hn & Hc & Hs & Hsh). intros Hlo Hss. exists 0, []. simpl.
  split. { by split_and!; simpl; rewrite ?app_nil_r. }
  split; [done|]. split; [done|]. split; [by left|]. intros o Ho. split; [lia|]. intros [Hin _].
  pose proof (lun_pos_mono g Hg (Z.of_nat i) o (ss * chunk_size g + 0) ltac:(lia) ltac:(lia)) as Hm.
  pose proof (lun_pos_parts g Hg (Z.of_nat i) o ltac:(lia)) as (Hss' & Hdev & Hr & Hdiv & Hmod).
  pose proof (Z.div_mod (lun_pos g (Z.of_nat i) o) (stripe_size g) ltac:(nia)) as Heq.
  assert (o / chunk_size g < ss) by (apply Z.div_lt_upper_bound; lia).
  nia.
Qed.

(** The buffer pieces of a part of a chunk, in terms of [lun_pos]. *)
Lemma chunk_part_pieces ss co b n :
  (∀ r, 0 ≤ r < chunk_size g → lun_pos g (Z.of_nat i) (ss * chunk_size g + r) = co + r) →
  0 ≤ b → b + n ≤ chunk_size g → lo ≤ co + b → co + b + n - 1 ≤ hi →
  0 ≤ bpos → bpos + (hi - lo + 1) ≤ tbuffer_size →
  piece_list (chunk_pieces (Z.to_nat n) (bpos + co + b - lo) n) =
    (λ o, bpos + (lun_pos g (Z.of_nat i) o - lo)) <$> seqZ (ss * chunk_size g + b) n.
Proof.
  intros Hpc Hb Hn Hlo Hhi Hbp Hsz. rewrite chunk_pieces_list by lia. apply list_eq. intros k.
  rewrite list_lookup_fmap. destruct (decide (k < Z.to_nat n)%nat).
  - rewrite !lookup_seqZ_lt by lia. simpl. f_equal.
    rewrite <- (Z.add_assoc (ss * _) b), Hpc by lia. lia.
  - by rewrite !lookup_seqZ_ge by lia.
Qed.

(** A run that is not over when a chunk of the request comes goes up to that
    chunk, which the request has from its first byte. *)
Lemma run_joins ss co b off len :
  lun_pos g (Z.of_nat i) (ss * chunk_size g + b) = co + b → lun_pos g (Z.of_nat i) (ss * chunk_size g) = co →
  0 ≤ b → co + b ≤ hi → 0 ≤ off → 0 < len → off + len ≤ ss * chunk_size g →
  (∀ o, 0 ≤ o < ss * chunk_size g → (off ≤ o < off + len ↔ lo ≤ lun_pos g (Z.of_nat i) o ≤ hi)) →
  lo ≤ co ∧ off + len = ss * chunk_size g.
Proof.
  intros Hpb Hp0 Hb Hhi Hoff Hl Hle Hcov. pose proof (Hcov off ltac:(lia)) as Hc0.
  pose proof (lun_pos_mono g Hg (Z.of_nat i) off (ss * chunk_size g) Hoff ltac:(lia)) as Hm. split; [lia|].
  assert (off ≤ ss * chunk_size g - 1 < off + len); [|lia]. apply Hcov; [lia|]. split.
  - destruct (decide (off = ss * chunk_size g - 1)) as [->|]; [lia|].
    pose proof (lun_pos_mono g Hg (Z.of_nat i) off (ss * chunk_size g - 1) ltac:(lia) ltac:(lia)). lia.
  - pose proof (lun_pos_mono g Hg (Z.of_nat i) (ss * chunk_size g - 1) (ss * chunk_size g) ltac:(lia) ltac:(lia)). lia.
Qed.

(** A chunk keeps the invariant. *)
Lemma dec_inv_chunk ss d :
  0 ≤ ss → lo ≤ hi → 0 ≤ bpos → bpos + (hi - lo + 1) ≤ tbuffer_size →
  dec_inv ss d → dec_inv (ss + 1) (dec_chunk g lo hi bpos ss i d).
Proof.
  pose proof Hg as (Hn & Hc & Hs & Hsh).
  intros Hss Hlh Hb Hsz (off & added & (Hex & Hlen & Hiov & Hadd) & Hoff & Hdl & Hst & Hcov).
  unfold dec_chunk. cbv zeta. rewrite Z.rem_mod_nonneg by nia.
  pose proof (λ r Hr, lun_pos_chunk (Z.of_nat i) ss r Hr) as Hpc.
  set (dev := (Z.of_nat i + ss * n_shift g) mod n_devices g) in *.
  set (co := ss * stripe_size g + dev * chunk_size g) in *.
  assert (∀ o, ss * chunk_size g ≤ o < (ss + 1) * chunk_size g → lun_pos g (Z.of_nat i) o = co + (o - ss * chunk_size g)) as Hpo.
  { intros o Ho. rewrite <- Hpc by lia. f_equal. lia. }
  case_decide as Hin.
  2: { exists off, added. split; [done|]. split; [done|]. split; [done|]. split; [destruct Hst; [by left|right; lia]|].
       intros o Hoo. destruct (decide (o < ss * chunk_size g)); [apply Hcov; lia|].
       rewrite Hpo by lia. destruct Hst; lia. }
  set (b := if decide (co < lo) then lo - co else 0).
  set (e := if decide (co + chunk_size g - 1 > hi) then hi - co else chunk_size g - 1).
  assert (0 ≤ b ≤ e ∧ e < chunk_size g ∧ (∀ r, 0 ≤ r < chunk_size g → (b ≤ r ≤ e ↔ lo ≤ co + r ≤ hi)))
    as (Hbe & Hec & Hr) by (unfold b, e; do 2 case_decide; split_and!; (lia || intros; lia)).
  pose proof (Hr b ltac:(lia)) as Hrb. pose proof (Hr e ltac:(lia)) as Hre.
  pose proof (chunk_part_pieces ss co b (e - b + 1) Hpc ltac:(lia) ltac:(lia) ltac:(lia) ltac:(lia) Hb Hsz) as Hnew.
  set (ps := chunk_pieces _ _ _) in *.
  destruct Hst as [[Hm1 Hl0]|(Ho & Hl & Hle)].
  - rewrite decide_True by done. exists (ss * chunk_size g + b), (added ++ ps).
    rewrite Hl0 in *. rewrite seqZ_nil in Hadd by lia. simpl in Hadd. unfold dev_run. simpl.
    split. { split_and!; [done..|by rewrite Hiov, app_assoc|by rewrite piece_list_app, Hadd]. }
    split; [nia|]. split; [lia|]. split; [right; lia|]. intros o Hoo.
    destruct (decide (o < ss * chunk_size g)); [rewrite <- Hcov by lia; lia|].
    rewrite Hpo, <- Hr by lia. lia.
  - rewrite decide_False by lia.
    destruct (run_joins ss co b off (dc_len d)) as [Hlo Hjoin]; [|rewrite Hpo; lia|lia..|done|].
    { apply Hpc. lia. }
    assert (b = 0) as Hb0 by (unfold b; case_decide; lia). rewrite Hb0 in *.
    exists off, (added ++ ps). unfold dev_run. simpl. split.
    { split_and!; [done..|by rewrite Hiov, app_assoc|].
      rewrite piece_list_app, Hadd, Hnew, Z.add_0_r, <- Hjoin, <- fmap_app. f_equal. by rewrite <- seqZ_app by lia. }
    split; [done|]. split; [lia|]. split; [right; lia|]. intros o Hoo.
    destruct (decide (o < ss * chunk_size g)); [rewrite <- Hcov by lia; lia|].
    rewrite Hpo, <- Hr by lia. lia.
Qed.
End one_device.

(** The loop over the stripes reaches a stripe past the request, with the
    invariant for every device. *)
Lemma dec_stripes_inv lo hi bpos rws fuel ss ds :
  0 ≤ ss → lo ≤ hi → 0 ≤ bpos → bpos + (hi - lo + 1) ≤ tbuffer_size →
  (hi `quot` stripe_size g - ss + 1 ≤ Z.of_nat fuel) → 0 ≤ hi →
  length ds = length rws →
  (∀ i r0 d, rws !! i = Some r0 → ds !! i = Some d → dec_inv lo hi bpos i r0 ss d) →
  ∃ ss', hi < ss' * stripe_size g ∧ length (dec_stripes fuel g lo hi bpos ss ds) = length rws ∧
    ∀ i r0 d, rws !! i = Some r0 → dec_stripes fuel g lo hi bpos ss ds !! i = Some d → dec_inv lo hi bpos i r0 ss' d.
Proof.
  pose proof Hg as (Hn & Hc & Hs & Hsh).
  revert ss ds. induction fuel as [|fuel IH]; intros ss ds Hss Hlh Hb Hsz Hf Hhi Hlen Hinv; cbn [dec_stripes].
  - assert (¬ ss * stripe_size g ≤ hi) as Hpast.
    { rewrite Z.quot_div_nonneg in Hf by nia. intros Hle.
      assert (ss ≤ hi / stripe_size g); [|lia]. apply Z.div_le_lower_bound; nia. }
    rewrite decide_False by done. exists ss. split; [lia|]. done.
  - case_decide as Hle; [|exists ss; split; [lia|done]].
    apply IH; [lia|done..|lia|done|by rewrite length_imap|].
    intros i r0 d Hr Hd. rewrite list_lookup_imap in Hd. destruct (ds !! i) as [d0|] eqn:Hd0; [|done].
    injection Hd as <-. by apply dec_inv_chunk; [..|apply Hinv].
Qed.

(** A request on a row: what device [i] gets. *)
Definition dec_spec (start bpos rwlen : Z) (i : nat) (r r' : lun_rw_row) : Prop :=
  ∃ off len added,
    (∀ o, 0 ≤ o → (off ≤ o < off + len ↔ start ≤ lun_pos g (Z.of_nat i) o < start + rwlen)) ∧
    0 ≤ off ∧ 0 ≤ len ∧
    rw_ex r' = rw_ex r ++ (if decide (len = 0) then [] else [(off, len)]) ∧ rw_len r' = rw_len r + len ∧
    rw_iov r' = rw_iov r ++ added ∧
    piece_list added = (λ o, bpos + (lun_pos g (Z.of_nat i) o - start)) <$> seqZ off len.

Lemma dec_finish_spec start bpos rwlen ss i r d :
  start + rwlen ≤ ss * stripe_size g → 0 ≤ ss →
  dec_inv start (start + rwlen - 1) bpos i r ss d → dec_spec start bpos rwlen i r (dec_finish d).
Proof.
  pose proof Hg as (Hn & Hc & Hs & Hsh).
  intros Hpast Hss (off & added & (Hex & Hlen & Hiov & Hadd) & Hoff & Hdl & Hst & Hcov).
  assert (∀ o, ss * chunk_size g ≤ o → start + rwlen ≤ lun_pos g (Z.of_nat i) o) as Hfar.
  { intros o Ho. pose proof (lun_pos_chunk (Z.of_nat i) ss 0 ltac:(lia)) as Hp. rewrite Z.add_0_r in Hp.
    pose proof (Z.mod_pos_bound (Z.of_nat i + ss * n_shift g) (n_devices g) Hn).
    destruct (decide (o = ss * chunk_size g)) as [->|]; [nia|].
    pose proof (lun_pos_mono g Hg (Z.of_nat i) (ss * chunk_size g) o ltac:(nia) ltac:(lia)). nia. }
  exists off, (dc_len d), added. split.
  { intros o Ho. destruct (decide (o < ss * chunk_size g)); [rewrite Hcov by lia; lia|].
    pose proof (Hfar o ltac:(lia)). destruct Hst; lia. }
  split; [done|]. split; [done|]. unfold dec_finish. destruct Hst as [[Hm1 Hl0]|(Ho & Hl & Hle)].
  - rewrite decide_False, decide_True by lia. rewrite app_nil_r. split_and!; [done|lia|done|done].
  - rewrite decide_True, decide_False by lia. simpl. rewrite Hex, Hlen, Ho. done.
Qed.

(** [lun_row_decompose] gives every device of the row one extent, which
    holds exactly the bytes of the device that the striping maps into the
    request, or none when there are none, and hands it the pieces of the buffer
    those bytes are at, in order. *)
Lemma lun_row_decompose_spec rws start bpos rwlen :
  0 ≤ start → 0 < rwlen → 0 ≤ bpos → bpos + rwlen ≤ tbuffer_size →
  length (lun_row_decompose g rws start bpos rwlen) = length rws ∧
  ∀ i r, rws !! i = Some r →
    ∃ r', lun_row_decompose g rws start bpos rwlen !! i = Some r' ∧ dec_spec start bpos rwlen i r r'.
Proof.
  pose proof Hg as (Hn & Hc & Hs & Hsh). intros Hst Hrw Hb Hsz.
  set (ss := start `quot` stripe_size g). set (hi := start + rwlen - 1).
  assert (0 ≤ ss ∧ ss * stripe_size g ≤ start) as [Hss Hlo].
  { unfold ss. rewrite Z.quot_div_nonneg by nia. split; [apply Z.div_pos; nia|].
    pose proof (Z.div_mod start (stripe_size g) ltac:(nia)). pose proof (Z.mod_pos_bound start (stripe_size g) ltac:(nia)). nia. }
  destruct (dec_stripes_inv start hi bpos rws (Z.to_nat (hi `quot` stripe_size g - ss + 1)) ss (Lun_dec (-1) 0 <$> rws))
    as (ss' & Hpast & Hlen & Hinv); [done|lia..|by rewrite length_fmap| |].
  { intros i r0 d Hr Hd. rewrite list_lookup_fmap, Hr in Hd. injection Hd as <-. by apply dec_inv_init. }
  unfold lun_row_decompose. fold ss hi. split; [by rewrite length_fmap|]. intros i r Hr.
  destruct (lookup_lt_is_Some_2 (dec_stripes (Z.to_nat (hi `quot` stripe_size g - ss + 1)) g start hi bpos ss (Lun_dec (-1) 0 <$> rws)) i) as [d Hd].
  { rewrite Hlen. by eapply lookup_lt_Some. }
  exists (dec_finish d). split; [by rewrite list_lookup_fmap, Hd|].
  apply (dec_finish_spec _ _ _ ss'); [lia|nia|]. by apply Hinv.
Qed.

(** C21: the decomposition of a request on a row is a bijection with its bytes.
    Every device gets at most one extent; byte [p] of the request belongs to the
    one device and device byte [lun_addr] names, that byte lies in the device's
    extent, and the device's buffer pieces deliver for the [k]-th byte of its
    extent exactly the buffer position of the byte of the request it stands
    for. *)
Theorem lun_row_decompose_bijective start bpos rwlen :
  0 ≤ start → 0 < rwlen → 0 ≤ bpos → bpos + rwlen ≤ tbuffer_size →
  let rows := lun_row_decompose g (replicate (Z.to_nat (n_devices g)) lun_rw_empty) start bpos rwlen in
  length rows = Z.to_nat (n_devices g) ∧
  (∀ r, r ∈ rows → (length (rw_ex r) ≤ 1)%nat ∧ length (piece_list (rw_iov r)) = length (piece_list (rw_ex r))) ∧
  (∀ i r k o p, rows !! i = Some r → piece_list (rw_ex r) !! k = Some o → piece_list (rw_iov r) !! k = Some p →
     bpos ≤ p < bpos + rwlen ∧ lun_addr g (start + (p - bpos)) = (Z.of_nat i, o)) ∧
  (∀ p, bpos ≤ p < bpos + rwlen →
     ∃ r k, rows !! Z.to_nat (lun_addr g (start + (p - bpos))).1 = Some r ∧
       piece_list (rw_ex r) !! k = Some (lun_addr g (start + (p - bpos))).2 ∧ piece_list (rw_iov r) !! k = Some p).
Proof.
  intros Hst Hrw Hb Hsz rows. pose proof Hg as (Hn & _).
  destruct (lun_row_decompose_spec (replicate (Z.to_nat (n_devices g)) lun_rw_empty) start bpos rwlen Hst Hrw Hb Hsz) as [Hlen Hspec].
  fold rows in Hlen, Hspec. rewrite length_replicate in Hlen.
  assert (∀ i r, rows !! i = Some r → ∃ off len, 0 ≤ off ∧ 0 ≤ len ∧ (i < Z.to_nat (n_devices g))%nat ∧
    (length (rw_ex r) ≤ 1)%nat ∧ piece_list (rw_ex r) = seqZ off len ∧
    piece_list (rw_iov r) = (λ o, bpos + (lun_pos g (Z.of_nat i) o - start)) <$> seqZ off len ∧
    ∀ o, 0 ≤ o → (off ≤ o < off + len ↔ start ≤ lun_pos g (Z.of_nat i) o < start + rwlen)) as Hrow.
  { intros i r Hr. assert (i < Z.to_nat (n_devices g))%nat as Hi by (rewrite <- Hlen; by eapply lookup_lt_Some).
    destruct (Hspec i lun_rw_empty) as (r' & Hr' & off & len & added & Hcov & Ho & Hl & Hex & _ & Hiov & Hp);
      [by apply lookup_replicate_2|]. simplify_eq. exists off, len.
    do 3 (split; [done|]). rewrite Hex, Hiov. cbn [lun_rw_empty rw_ex rw_iov app]. case_decide as Hd.
    - rewrite Hd, Hp, Hd. cbn. split; [lia|]. split; [done|]. split; [done|]. by rewrite Hd in Hcov.
    - split; [done|]. split; [|by rewrite Hp]. cbn. by rewrite app_nil_r. }
  split; [done|]. split; [|split].
  - intros r Hr. apply list_elem_of_lookup in Hr as [i Hr].
    destruct (Hrow i r Hr) as (off & len & _ & _ & _ & H1 & -> & -> & _). by rewrite length_fmap.
  - intros i r k o p Hr Ho Hp. destruct (Hrow i r Hr) as (off & len & Hoff & Hl & Hi & _ & He & Hv & Hcov).
    rewrite He in Ho. rewrite Hv, list_lookup_fmap, Ho in Hp. injection Hp as <-.
    apply lookup_seqZ in Ho as [-> Hk]. specialize (Hcov (off + Z.of_nat k) ltac:(lia)).
    split; [lia|]. replace (start + _) with (lun_pos g (Z.of_nat i) (off + Z.of_nat k)) by lia.
    apply lun_addr_pos; [done|lia|lia].
  - intros p Hp. set (x := start + (p - bpos)). pose proof (lun_addr_range g Hg x ltac:(unfold x; lia)) as [Hi Ho].
    pose proof (lun_pos_addr g Hg x ltac:(unfold x; lia)) as Hx.
    destruct (lookup_lt_is_Some_2 rows (Z.to_nat (lun_addr g x).1)) as [r Hr]; [lia|].
    destruct (Hrow _ r Hr) as (off & len & Hoff & Hl & _ & _ & He & Hv & Hcov).
    rewrite Z2Nat.id in Hv, Hcov by lia. specialize (Hcov (lun_addr g x).2 Ho). rewrite Hx in Hcov.
    assert (off ≤ (lun_addr g x).2 < off + len) as Hin by (apply Hcov; unfold x; lia).
    exists r, (Z.to_nat ((lun_addr g x).2 - off)). split; [done|]. rewrite He, Hv, list_lookup_fmap.
    rewrite lookup_seqZ_lt by lia. cbn [fmap option_fmap option_map].
    rewrite Z2Nat.id, Zplus_minus by lia.
    split; [done|]. rewrite Hx. f_equal. unfold x. lia.
Qed.
End correct.
