(* ===== verification/LunStore.v ===== *)
(** * The services a LUN segment uses

    On top of the block operations of [DataStore]: vector reads and writes,
    the size probe, and the resource request with hints by which the missing
    allocations of a row are replaced.  Like [DataStore], an interface with its
    laws, and a store in memory that meets them. *)
From stdpp Require Import strings.
From S2P Require Import Prelude Seg DataStore LunMap.
#[local] Open Scope Z_scope.

(** ** Scattered bytes *)

(** [f] after the bytes [g s] were put at [d], for the pairs [(d, s)] in
    order. *)
Definition vec_put (f : Z → Z) (ps : list (Z * Z)) (g : Z → Z) : Z → Z :=
  foldl (λ f '(d, s), λ i, if decide (i = d) then g s else f i) f ps.

Lemma vec_put_notin ps : ∀ f g i, i ∉ ps.*1 → vec_put f ps g i = f i.
Proof.
  induction ps as [|[d s] ps IH]; intros f g i Hi; [done|]. cbn in *.
  rewrite not_elem_of_cons in Hi. change (vec_put (λ i, if decide (i = d) then g s else f i) ps g i = f i).
  rewrite IH by tauto. rewrite decide_False; [done|tauto].
Qed.

(** The last of the pairs for a place decides. *)
Lemma vec_put_last ps : ∀ f g i, i ∈ ps.*1 →
  ∃ k s, ps !! k = Some (i, s) ∧ (∀ j s', ps !! j = Some (i, s') → (j ≤ k)%nat) ∧ vec_put f ps g i = g s.
Proof.
  induction ps as [|[d s] ps IH]; intros f g i Hi; [by apply not_elem_of_nil in Hi|].
  change (vec_put f ((d, s) :: ps) g i) with (vec_put (λ i, if decide (i = d) then g s else f i) ps g i).
  destruct (decide (i ∈ ps.*1)) as [Hin|Hno].
  - destruct (IH (λ i, if decide (i = d) then g s else f i) g i Hin) as (k & s' & Hk & Hmax & ->).
    exists (Datatypes.S k), s'. split; [done|]. split; [|done].
    intros [|j] s2 Hj; [lia|]. specialize (Hmax j s2 Hj). lia.
  - rewrite vec_put_notin by done. simpl in Hi. rewrite elem_of_cons in Hi. destruct Hi as [->|?]; [|done].
    rewrite decide_True by done. exists 0%nat, s. split; [done|]. split; [|done].
    intros [|j] s2 Hj; [lia|]. exfalso. apply Hno. apply list_elem_of_fmap. exists (d, s2). split; [done|].
    simpl in Hj. by apply list_elem_of_lookup_2 in Hj.
Qed.

(** Runs of bytes. *)
Lemma zip_lookup {A B} (l : list A) (k : list B) i x y :
  zip l k !! i = Some (x, y) ↔ l !! i = Some x ∧ k !! i = Some y.
Proof.
  rewrite lookup_zip_with. destruct (l !! i), (k !! i); simpl; split; try (intros [? ?]; done); try done.
  - intros [= -> ->]. done.
  - intros [[= ->] [= ->]]. done.
Qed.

Lemma zip_elem_fst {A B} (l : list A) (k : list B) x :
  length l = length k → x ∈ (zip l k).*1 ↔ x ∈ l.
Proof. intros Hl. by rewrite fst_zip by lia. Qed.

Lemma vec_put_seqZ f d s n g p : vec_put f (zip (seqZ d n) (seqZ s n)) g p = buf_put f d n g s p.
Proof.
  unfold buf_put. case_decide as Hp.
  - destruct (vec_put_last (zip (seqZ d n) (seqZ s n)) f g p) as (k & x & Hk & _ & ->).
    { apply zip_elem_fst; [by rewrite !length_seqZ|]. apply elem_of_seqZ. lia. }
    apply zip_lookup in Hk as [Hd Hs]. apply lookup_seqZ in Hd as [-> ?], Hs as [-> ?]. f_equal. lia.
  - apply vec_put_notin. rewrite zip_elem_fst by (by rewrite !length_seqZ). rewrite elem_of_seqZ. lia.
Qed.

(** ** The interface *)

(** A device of a row request: the fixed resource, if it has one, and a query
    of its own. *)
Record row_hint (Q : Type) := Row_hint { rh_fixed : option string; rh_local : option Q }.
Arguments Row_hint {Q}. Arguments rh_fixed {Q}. Arguments rh_local {Q}.

(** The calls of [rs_query_add] the driver makes. *)
Inductive rsq_call := RSQ_KV_EXACT (key value : string) | RSQ_NOT | RSQ_AND.

Class LunStore (C Q S : Type) := {
  ds_readv : S → C → list (Z * Z) → tbuffer → list (Z * Z) → S * tbuffer * op_status;
  ds_writev : S → C → list (Z * Z) → tbuffer → list (Z * Z) → S * op_status;
  (** the maximum size a probe reports, 0 for an allocation that is gone *)
  ds_probe_max : S → C → Z;
  (** [rs_data_request] with hints: per request the capability, if the
      allocation was made, and the resource; then the status.  The last numbers
      are the fixed hints and the devices. *)
  rs_row_request : S → Q → list (row_hint Q) → list (Z * Z) → nat → nat →
    S * list (option C * option string) * op_status;
  rs_translate_cap_set : S → option string → C → C;
  rs_query_add : Q → rsq_call → Q;
  rs_query_parse : string → Q }.

(** The three calls that exclude a resource from a query. *)
Definition rsq_exclude {C Q S} `{!LunStore C Q S} (q : Q) (key : string) : Q :=
  rs_query_add (rs_query_add (rs_query_add q (RSQ_KV_EXACT "rid_key" key)) RSQ_NOT) RSQ_AND.
Arguments rsq_exclude {C Q} S {_} q key.

Class LunStoreOk (C Q S : Type) `{!DataStore C Q S, !StoreView C S, !LunStore C Q S} : Prop := {
  ds_read_frame s c off buf bpos len p :
    ¬ (bpos ≤ p < bpos + len) → (ds_read s c off buf bpos len).1.2 p = buf p;
  ds_readv_same s c exs buf ps c' i :
    let s' := (ds_readv s c exs buf ps).1.1 in
    ds_byte s' c' i = ds_byte s c' i ∧ (ds_live s c' → ds_live s' c');
  ds_readv_frame s c exs buf ps p :
    p ∉ piece_list ps → (ds_readv s c exs buf ps).1.2 p = buf p;
  ds_readv_buffer s c exs buf ps p :
    op_st (ds_readv s c exs buf ps).2 = OP_STATE_SUCCESS →
    (ds_readv s c exs buf ps).1.2 p =
      vec_put buf (zip (piece_list ps) (piece_list exs)) (ds_byte s c) p;
  ds_writev_live s c exs buf ps c' : ds_live s c' → ds_live (ds_writev s c exs buf ps).1 c';
  ds_writev_frame s c exs buf ps c' i :
    c' ≠ c ∨ i ∉ piece_list exs → ds_byte (ds_writev s c exs buf ps).1 c' i = ds_byte s c' i;
  ds_writev_byte s c exs buf ps i :
    op_st (ds_writev s c exs buf ps).2 = OP_STATE_SUCCESS →
    ds_byte (ds_writev s c exs buf ps).1 c i =
      vec_put (ds_byte s c) (zip (piece_list exs) (piece_list ps)) buf i;
  (** a translated capability names the same allocation *)
  rs_translate_live s rid c : ds_live s c → ds_live s (rs_translate_cap_set s rid c);
  rs_translate_byte s rid c i : ds_live s c → ds_byte s (rs_translate_cap_set s rid c) i = ds_byte s c i;
  rs_translate_inj s rid rid' c c' : ds_live s c → ds_live s c' →
    rs_translate_cap_set s rid c = rs_translate_cap_set s rid' c' → c = c';
  rs_row_frame s q hs reqs ng n c i :
    ds_live s c → let s' := (rs_row_request s q hs reqs ng n).1.1 in
    ds_live s' c ∧ ds_byte s' c i = ds_byte s c i;
  rs_row_caps s q hs reqs ng n :
    let '(s', res, _) := rs_row_request s q hs reqs ng n in
    let caps := omap fst res in
    length res = length reqs ∧ NoDup caps ∧ ∀ c, c ∈ caps → ¬ ds_live s c ∧ ds_live s' c }.

(** ** The store in memory *)
Section mem_lun.
Context `{!Gop}.

#[export] Instance mem_lun_store : LunStore nat (list rsq_call) mem_store := {|
  ds_readv s c exs buf ps :=
    (s, if st_up s then vec_put buf (zip (piece_list ps) (piece_list exs)) (st_byte s c) else buf, store_status s);
  ds_writev s c exs buf ps :=
    (if st_up s
     then Mem_store (st_next s)
            (λ c', if decide (c' = c) then vec_put (st_byte s c) (zip (piece_list exs) (piece_list ps)) buf
                   else st_byte s c') (st_up s) (st_room s)
     else s, store_status s);
  ds_probe_max s c := 0;
  rs_row_request s q hs reqs ng n :=
    if st_room s
    then (Mem_store (st_next s + length reqs) (st_byte s) (st_up s) (st_room s),
          (λ i, (Some i, Some "rid"%string)) <$> seq (st_next s) (length reqs), op_success_status)
    else (s, (λ _, (None, None)) <$> reqs, Op_status OP_STATE_FAILURE (-101));
  rs_translate_cap_set s rid c := c;
  rs_query_add q c := q ++ [c];
  rs_query_parse _ := [] |}.

Lemma omap_Some_fst {A B} (l : list A) (b : B) : omap fst ((λ i, (Some i, b)) <$> l) = l.
Proof. induction l as [|x l IH]; [done|]. cbn. by rewrite IH. Qed.
Lemma omap_None_fst {A B D} (l : list A) (b : B) : omap fst ((λ _, (@None D, b)) <$> l) = [].
Proof. induction l as [|x l IH]; [done|]. cbn. done. Qed.

#[export] Instance mem_lun_store_ok `{!GopOk} : LunStoreOk nat (list rsq_call) mem_store.
Proof.
  assert (∀ s, op_st (store_status s) = OP_STATE_SUCCESS → st_up s = true) as Hup.
  { intros s. unfold store_status. destruct (st_up s); [done|]. by rewrite op_failure_state. }
  assert (∀ A (l k : list A) p, p ∈ (zip l k).*1 → p ∈ l) as Hzip.
  { intros A l. induction l as [|x l IH]; intros [|y k] p Hp; try by apply not_elem_of_nil in Hp.
    simpl in Hp. apply elem_of_cons in Hp as [->|Hp]; [by left|right; by eapply IH]. }
  split; simpl; try done.
  - intros s c off buf bpos len p Hp. destruct (st_up s); [|done]. unfold buf_put. by rewrite decide_False.
  - intros s c exs buf ps p Hp. destruct (st_up s); [|done]. apply vec_put_notin. by intros ?%Hzip.
  - intros s c exs buf ps p ->%Hup. done.
  - intros s c exs buf ps c' ?. by destruct (st_up s).
  - intros s c exs buf ps c' i Hd. destruct (st_up s); [|done]. simpl.
    case_decide as Hc; [subst|done]. apply vec_put_notin. destruct Hd; [done|]. by intros ?%Hzip.
  - intros s c exs buf ps i ->%Hup. simpl. by rewrite decide_True.
  - intros s q hs reqs ng n c i Hc. destruct (st_room s); simpl; [split; [lia|done]|done].
  - intros s q hs reqs ng n. destruct (st_room s); simpl.
    + rewrite omap_Some_fst, length_fmap, length_seq. split; [done|]. split; [apply NoDup_seq|].
      intros c [? ?]%elem_of_seq. lia.
    + rewrite omap_None_fst, length_fmap. split; [done|]. split; [constructor|]. by intros c ?%not_elem_of_nil.
Qed.
End mem_lun.
