(* ===== verification/LunSeg.v ===== *)
(** * LUN segments: rows and invariant (segment_lun.c)

    A LUN segment maps its byte range to rows, kept in an interval list; a row
    spreads its bytes over one block per device the way [LunMap] describes.
    This file has the data, the invariant and the byte the segment holds at an
    offset. *)
From stdpp Require Import strings gmap.
From S2P Require Import Prelude Isl Seg Inip DataBlock DataStore LunMap LunStore.
#[local] Open Scope Z_scope.

(** ** Data *)
Section lun.
Context {C W Q : Type}.

(** [seglun_block_t]; the data block is missing until it is allocated. *)
Record seglun_block := Seglun_block {
  bk_data : option (data_block C W); bk_cap_offset : Z; bk_read_errs : Z; bk_write_errs : Z }.

(** [seglun_row_t]; [rwop_index] is kept by the request tables. *)
Record seglun_row := Seglun_row {
  sr_block : list seglun_block; sr_seg_offset : Z; sr_seg_end : Z; sr_block_len : Z; sr_row_len : Z }.

#[export] Instance seglun_row_ranged : Ranged seglun_row :=
  {| r_lo := sr_seg_offset; r_hi := sr_seg_end |}.

Context `{!ISL seglun_row}.

(** [seglun_priv_t], less the service handles and the timings. *)
Record seglun_priv := Seglun_priv {
  lu_geom : lun_geom; lu_used_size : Z; lu_total_size : Z; lu_max_block_size : Z;
  lu_excess_block_size : Z; lu_max_row_size : Z; lu_rsq : Q; lu_grow_count : Z; lu_hard_errors : Z;
  lu_grow_break : bool; lu_map_version : Z; lu_notify_version : Z; lu_inprogress : Z;
  lu_db_cleanup : list (data_block C W); lu_isl : isl; lu_ds : string }.

Definition lun_set_isl (s : seglun_priv) (m : isl) : seglun_priv :=
  Seglun_priv (lu_geom s) (lu_used_size s) (lu_total_size s) (lu_max_block_size s) (lu_excess_block_size s)
    (lu_max_row_size s) (lu_rsq s) (lu_grow_count s) (lu_hard_errors s) (lu_grow_break s) (lu_map_version s)
    (lu_notify_version s) (lu_inprogress s) (lu_db_cleanup s) m (lu_ds s).
Definition lun_set_sizes (s : seglun_priv) (used total : Z) : seglun_priv :=
  Seglun_priv (lu_geom s) used total (lu_max_block_size s) (lu_excess_block_size s)
    (lu_max_row_size s) (lu_rsq s) (lu_grow_count s) (lu_hard_errors s) (lu_grow_break s) (lu_map_version s)
    (lu_notify_version s) (lu_inprogress s) (lu_db_cleanup s) (lu_isl s) (lu_ds s).
Definition lun_set_grow (s : seglun_priv) (count : Z) (brk : bool) (cleanup : list (data_block C W)) : seglun_priv :=
  Seglun_priv (lu_geom s) (lu_used_size s) (lu_total_size s) (lu_max_block_size s) (lu_excess_block_size s)
    (lu_max_row_size s) (lu_rsq s) count (lu_hard_errors s) brk (lu_map_version s)
    (lu_notify_version s) (lu_inprogress s) cleanup (lu_isl s) (lu_ds s).
Definition lun_set_io (s : seglun_priv) (errs version inprogress : Z) : seglun_priv :=
  Seglun_priv (lu_geom s) (lu_used_size s) (lu_total_size s) (lu_max_block_size s) (lu_excess_block_size s)
    (lu_max_row_size s) (lu_rsq s) (lu_grow_count s) errs (lu_grow_break s) version
    (lu_notify_version s) inprogress (lu_db_cleanup s) (lu_isl s) (lu_ds s).

Definition bk_cap (k : seglun_block) : option C := db_cap <$> bk_data k.
Definition row_insert (b : seglun_row) (m : isl) : isl := isl_insert (sr_seg_offset b) (sr_seg_end b) b m.
Definition row_remove (b : seglun_row) (m : isl) : isl := isl_remove (sr_seg_offset b) (sr_seg_end b) b m.

(** A row changed in place: the list holds pointers. *)
Definition row_put (b b' : seglun_row) (m : isl) : isl := row_insert b' (row_remove b m).
Definition row_set_blocks (b : seglun_row) (ks : list seglun_block) : seglun_row :=
  Seglun_row ks (sr_seg_offset b) (sr_seg_end b) (sr_block_len b) (sr_row_len b).
Definition row_set_len (b : seglun_row) (block_len row_len : Z) : seglun_row :=
  Seglun_row (sr_block b) (sr_seg_offset b) (sr_seg_offset b + row_len - 1) block_len row_len.

(** ** The invariant *)

Definition row_caps (b : seglun_row) : list C := omap bk_cap (sr_block b).
Definition rows_caps (l : list seglun_row) : list C := l ≫= row_caps.

(** A row of whole stripes, on blocks used from their start. *)
Definition row_ok (g : lun_geom) (b : seglun_row) : Prop :=
  Z.of_nat (length (sr_block b)) = n_devices g ∧
  (∀ k, k ∈ sr_block b → is_Some (bk_cap k) ∧ bk_cap_offset k = 0) ∧
  sr_seg_end b = sr_seg_offset b + sr_row_len b - 1 ∧
  sr_row_len b = n_devices g * sr_block_len b ∧
  (chunk_size g | sr_block_len b) ∧ (stripe_size g | sr_seg_offset b).

Definition rows_ok {S} `{!StoreView C S} (g : lun_geom) (σ : S) (l : list seglun_row) : Prop :=
  Forall (row_ok g) l ∧ NoDup (rows_caps l) ∧ ∀ c, c ∈ rows_caps l → ds_live σ c.

Definition lun_ok {S} `{!StoreView C S} (σ : S) (s : seglun_priv) : Prop :=
  geom_ok (lu_geom s) ∧ 0 ≤ lu_total_size s ∧ tiles 0 (lu_total_size s) (isl_all (lu_isl s)) ∧
  rows_ok (lu_geom s) σ (isl_all (lu_isl s)) ∧
  0 < lu_max_block_size s ∧ (chunk_size (lu_geom s) | lu_max_block_size s) ∧
  lu_max_row_size s = lu_max_block_size s * n_devices (lu_geom s).

(** ** Contents *)

(** The allocation behind device [i] of a row. *)
Definition row_cap (b : seglun_row) (i : Z) : option C := sr_block b !! Z.to_nat i ≫= bk_cap.

Definition row_byte {S} `{!StoreView C S} (g : lun_geom) (σ : S) (b : seglun_row) (off : Z) : Z :=
  let '(i, o) := lun_addr g (off - sr_seg_offset b) in
  match row_cap b i with Some c => ds_byte σ c o | None => 0 end.

Definition rows_byte {S} `{!StoreView C S} (g : lun_geom) (σ : S) (l : list seglun_row) (off : Z) : Z :=
  match find_cover off l with Some b => row_byte g σ b off | None => 0 end.
Definition lun_byte {S} `{!StoreView C S} (σ : S) (s : seglun_priv) (off : Z) : Z :=
  rows_byte (lu_geom s) σ (isl_all (lu_isl s)) off.
End lun.
Arguments seglun_block C W : clear implicits.
Arguments seglun_row C W : clear implicits.
Arguments seglun_priv C W Q {_}.
#[export] Instance seglun_block_eq_dec {C W} `{EqDecision C, EqDecision W} : EqDecision (seglun_block C W).
Proof. solve_decision. Defined.
#[export] Instance seglun_row_eq_dec {C W} `{EqDecision C, EqDecision W} : EqDecision (seglun_row C W).
Proof. solve_decision. Defined.

(** ** Places in a row *)
Section places.
Context {C W Q : Type} (g : lun_geom) (Hg : geom_ok g).
Implicit Types (b : seglun_row C W) (l : list (seglun_row C W)).

(** The offset in the segment of byte [o] of device [i] of a row. *)
Definition row_pos b (i o : Z) : Z := sr_seg_offset b + lun_pos g i o.

Lemma row_pos_bounds b i o :
  row_ok g b → 0 ≤ i < n_devices g → 0 ≤ o < sr_block_len b →
  sr_seg_offset b ≤ row_pos b i o ≤ sr_seg_end b.
Proof.
  pose proof Hg as (Hn & Hc & Hs & Hsh).
  intros (_ & _ & Hend & Hlen & [k Hk] & _) Hi Ho. unfold row_pos.
  pose proof (lun_pos_parts g Hg i o ltac:(lia)) as (Hss & Hdev & Hr & Hdiv & Hmod).
  assert (o / chunk_size g < k) by (apply Z.div_lt_upper_bound; lia).
  pose proof (Z.div_mod (lun_pos g i o) (stripe_size g) ltac:(nia)).
  pose proof (Z.mod_pos_bound (lun_pos g i o) (stripe_size g) ltac:(nia)). nia.
Qed.

Lemma row_addr_bounds b off :
  row_ok g b → sr_seg_offset b ≤ off ≤ sr_seg_end b →
  let '(i, o) := lun_addr g (off - sr_seg_offset b) in
  0 ≤ i < n_devices g ∧ 0 ≤ o < sr_block_len b ∧ row_pos b i o = off.
Proof.
  pose proof Hg as (Hn & Hc & Hs & Hsh).
  intros (_ & _ & Hend & Hlen & [k Hk] & _) Hoff. set (p := off - sr_seg_offset b).
  pose proof (lun_addr_range g Hg p ltac:(lia)) as [Hi Ho].
  pose proof (lun_pos_addr g Hg p ltac:(lia)) as Hp.
  destruct (lun_addr g p) as [i o] eqn:Ha. simpl in *. split; [done|].
  split; [|unfold row_pos; lia]. split; [done|].
  pose proof (lun_pos_parts g Hg i o Ho) as (Hss & Hdev & Hr & Hdiv & Hmod). rewrite Hp in Hdiv.
  assert (p / stripe_size g < k) as Hlt by (apply Z.div_lt_upper_bound; nia). rewrite Hdiv in Hlt.
  pose proof (Z.div_mod o (chunk_size g) ltac:(lia)). nia.
Qed.

Lemma row_pos_inj b i o i' o' :
  0 ≤ i < n_devices g → 0 ≤ i' < n_devices g → 0 ≤ o → 0 ≤ o' →
  row_pos b i o = row_pos b i' o' → i = i' ∧ o = o'.
Proof.
  intros Hi Hi' Ho Ho' He. unfold row_pos in He.
  pose proof (lun_addr_pos g Hg i o Hi Ho) as H1. pose proof (lun_addr_pos g Hg i' o' Hi' Ho') as H2.
  assert (lun_pos g i o = lun_pos g i' o') as Hp by lia. rewrite Hp, H2 in H1. by injection H1 as -> ->.
Qed.

Lemma row_cap_is b i : row_ok g b → 0 ≤ i < n_devices g → is_Some (row_cap b i).
Proof.
  intros (Hn & Hk & _) Hi. unfold row_cap.
  destruct (lookup_lt_is_Some_2 (sr_block b) (Z.to_nat i)) as [k Hbk]; [lia|].
  rewrite Hbk. simpl. by apply Hk; eapply list_elem_of_lookup_2.
Qed.

(** The capability lists: where a capability stands. *)
Lemma row_caps_lookup b i : row_ok g b → 0 ≤ i → row_caps b !! Z.to_nat i = row_cap b i.
Proof.
  intros (_ & Hk & _) Hi. unfold row_caps, row_cap. revert Hk. generalize (Z.to_nat i) as n. clear i Hi.
  induction (sr_block b) as [|k ks IH]; intros n Hk; [done|].
  destruct (Hk k ltac:(by left)) as [[c Hc] _].
  replace (omap bk_cap (k :: ks)) with (c :: omap bk_cap ks) by (cbn; by rewrite Hc).
  destruct n as [|n]; simpl; [by rewrite Hc|]. apply IH. intros k' ?. apply Hk. by right.
Qed.

Lemma rows_caps_inj l b b' i i' c :
  Forall (row_ok g) l → NoDup (rows_caps l) → b ∈ l → b' ∈ l → 0 ≤ i → 0 ≤ i' →
  row_cap b i = Some c → row_cap b' i' = Some c → b = b' ∧ i = i'.
Proof.
  intros Hok Hnd Hb Hb' Hi Hi' Hc Hc'.
  assert (∀ x j, x ∈ l → 0 ≤ j → row_cap x j = Some c → row_caps x !! Z.to_nat j = Some c) as Hat.
  { intros x j Hx Hj <-. rewrite Forall_forall in Hok. apply row_caps_lookup; auto. }
  pose proof (Hat _ _ Hb Hi Hc) as Ha. pose proof (Hat _ _ Hb' Hi' Hc') as Ha'. clear Hat Hc Hc' Hok.
  induction l as [|x l IH]; [by apply not_elem_of_nil in Hb|].
  unfold rows_caps in Hnd. rewrite bind_cons in Hnd. apply NoDup_app in Hnd as (Hx & Hdis & Hl).
  assert (∀ y, y ∈ l → c ∈ row_caps y → c ∈ (l ≫= row_caps)) as Hin by (intros y ??; apply list_elem_of_bind; eauto).
  apply list_elem_of_lookup_2 in Ha as Hm, Ha' as Hm'.
  apply elem_of_cons in Hb as [->|Hb], Hb' as [->|Hb']; [|by destruct (Hdis c Hm (Hin _ Hb' Hm'))|by destruct (Hdis c Hm' (Hin _ Hb Hm))|auto].
  split; [done|]. pose proof (NoDup_lookup _ _ _ _ Hx Ha Ha'). lia.
Qed.

Lemma rows_caps_elem l b i c :
  Forall (row_ok g) l → b ∈ l → 0 ≤ i → row_cap b i = Some c → c ∈ rows_caps l.
Proof.
  intros Hok Hb Hi Hc. apply list_elem_of_bind. exists b. split; [|done].
  rewrite Forall_forall in Hok. rewrite <- row_caps_lookup in Hc by auto. by eapply list_elem_of_lookup_2.
Qed.
End places.
