(* ===== verification/LunRw.v ===== *)
(** * LUN segments: the read and write operation (segment_lun.c)

    [seglun_rw_op]: the request is decomposed row by row into a table of
    extents and buffer pieces per device, every device that has some gets one
    data-service operation (unless its resource is blacklisted), and the
    results are turned into error counts, blanked bytes and a status. *)
From stdpp Require Import strings gmap.
From S2P Require Import Prelude Isl Seg Inip DataBlock DataStore LunMap LunStore LunSeg.
#[local] Open Scope Z_scope.

(** ** Blacklisting *)

(** [blacklist_t]: the resources that were too slow, with the time from which
    they are tried again. *)
Record blacklist := Blacklist {
  bl_table : gmap string Z; bl_min_bandwidth : Z; bl_min_io_time : Z; bl_timeout : Z }.
Definition bl_set_table (bl : blacklist) (t : gmap string Z) : blacklist :=
  Blacklist t (bl_min_bandwidth bl) (bl_min_io_time bl) (bl_timeout bl).

(** The check before an operation on resource [rid]; [max] is
    [lun_max_blacklist] and [count] how many were skipped in this row.  The
    last result is whether to skip. *)
Definition bl_check (now max : Z) (bl : blacklist) (count : Z) (rid : string) : blacklist * Z * bool :=
  match bl_table bl !! rid with
  | None => (bl, count, false)
  | Some recheck =>
      if decide (recheck < now) then (bl_set_table bl (delete rid (bl_table bl)), count, false)
      else if decide (count >= max) then (bl, count, false)
      else (bl, count + 1, true)
  end.

(** What the clock says: the start, the order in which the operations finish,
    their execution times and the times they are looked at. *)
Record lun_timing := Lun_timing {
  tm_now : Z; tm_order : list nat; tm_exec : nat → Z; tm_done : nat → Z }.

Definition blacklist_status : op_status := Op_status OP_STATE_FAILURE (-1234).

Section lun_rw.
Context {C W Q S : Type} `{EqDecision C, EqDecision W, !DataStore C Q S, !LunStore C Q S}.
Context `{!Gop, !TBuf, !ISL (seglun_row C W)}.
Abbreviation row := (seglun_row C W).
Abbreviation lun := (seglun_priv C W Q).

(** ** The table of a request *)

(** The rows in the order of their first use ([bused]), each with the buffers
    of its devices (its part of [rwb_table]). *)
Abbreviation lun_tab := (list (row * list lun_rw_row)).

Fixpoint tab_use (b : row) (n : nat) (f : list lun_rw_row → list lun_rw_row) (t : lun_tab) : lun_tab :=
  match t with
  | [] => [(b, f (replicate n lun_rw_empty))]
  | (x, r) :: t => if decide (x = b) then (x, f r) :: t else (x, r) :: tab_use b n f t
  end.

(** One row of an extent. *)
Definition lun_row_step (g : lun_geom) (lo hi : Z) (st : lun_tab * Z) (b : row) : lun_tab * Z :=
  let '(t, bpos) := st in
  let start := if decide (lo ≤ sr_seg_offset b) then 0 else lo - sr_seg_offset b in
  let stop := if decide (hi >= sr_seg_end b) then sr_row_len b - 1 else hi - sr_seg_offset b in
  let blen := stop - start + 1 in
  (tab_use b (Z.to_nat (n_devices g)) (λ rws, lun_row_decompose g rws start bpos blen) t, bpos + blen).

Definition lun_slot_step (s : lun) (st : lun_tab * Z) (v : ex_iovec) : lun_tab * Z :=
  let lo := iov_offset v in
  let hi := lo + iov_len v - 1 in
  foldl (lun_row_step (lu_geom s) lo hi) st (isl_search (Some lo) (Some hi) (lu_isl s)).

Definition lun_table (s : lun) (iov : list ex_iovec) (boff : Z) : lun_tab :=
  (foldl (lun_slot_step s) ([], boff) iov).1.

(** ** The operations *)

(** [rwb_table[j+i]] once its operation is formed: the slot, the device, the
    row, the allocation and whether it is blacklisted. *)
Record lun_op := Lun_op {
  op_slot : nat; op_dev : nat; op_row : row; op_cap : C; op_rid : option string;
  op_rw : lun_rw_row; op_skip : bool }.

(** The blacklist in use and its limit. *)
Definition bl_use (bl : option blacklist) (hints : option Z) : option (blacklist * Z) :=
  match bl, hints with
  | Some bl, Some max => if decide (max ≤ 0) then None else Some (bl, max)
  | _, _ => None
  end.

(** [None] is a null key. *)
Definition bl_ask (now : Z) (ub : option (blacklist * Z)) (count : Z) (rid : option string)
    : option (option (blacklist * Z) * Z * bool) :=
  match ub with
  | None => Some (None, count, false)
  | Some (bl, max) =>
      rid ← rid;
      let '(bl, count, skip) := bl_check now max bl count rid in
      Some (Some (bl, max), count, skip)
  end.

(** The devices of a row from [dev] on; [None] is a missing data block. *)
Fixpoint lun_form_row (now : Z) (ub : option (blacklist * Z)) (count : Z) (slot dev : nat) (b : row)
    (ks : list (seglun_block C W)) (rws : list lun_rw_row) : option (option (blacklist * Z) * list lun_op) :=
  match ks, rws with
  | k :: ks, r :: rws =>
      if decide (rw_ex r = []) then lun_form_row now ub count slot (Datatypes.S dev) b ks rws
      else
        d ← bk_data k;
        '(ub, count, skip) ← bl_ask now ub count (db_rid_key d);
        '(ub, ops) ← lun_form_row now ub count slot (Datatypes.S dev) b ks rws;
        Some (ub, Lun_op slot dev b (db_cap d) (db_rid_key d) r skip :: ops)
  | _, _ => Some (ub, [])
  end.

Fixpoint lun_form (now : Z) (ub : option (blacklist * Z)) (slot : nat) (t : lun_tab)
    : option (option (blacklist * Z) * list lun_op) :=
  match t with
  | [] => Some (ub, [])
  | (b, rws) :: t =>
      '(ub, ops) ← lun_form_row now ub 0 slot 0 b (sr_block b) rws;
      '(ub, ops') ← lun_form now ub (Datatypes.S slot) t;
      Some (ub, ops ++ ops')
  end.

(** Running one: a single buffer piece goes through the plain calls. *)
Definition lun_run1 (write : bool) (σ : S) (buf : tbuffer) (o : lun_op) : S * tbuffer * op_status :=
  if op_skip o then (σ, buf, blacklist_status)
  else
    let r := op_rw o in
    match rw_ex r, rw_iov r with
    | (off, _) :: _, [(p, _)] =>
        if write then let '(σ, st) := ds_write σ (op_cap o) off buf p (rw_len r) in (σ, buf, st)
        else ds_read σ (op_cap o) off buf p (rw_len r)
    | exs, ps =>
        if write then let '(σ, st) := ds_writev σ (op_cap o) exs buf ps in (σ, buf, st)
        else ds_readv σ (op_cap o) exs buf ps
    end.

Fixpoint lun_run (write : bool) (σ : S) (buf : tbuffer) (ops : list lun_op)
    : S * tbuffer * list (lun_op * op_status) :=
  match ops with
  | [] => (σ, buf, [])
  | o :: ops =>
      let '(σ, buf, st) := lun_run1 write σ buf o in
      let '(σ, buf, res) := lun_run write σ buf ops in (σ, buf, (o, st) :: res)
  end.

(** ** After the operations *)

(** One finished operation against the blacklist.  The bandwidth test
    [len/exec < min_bandwidth] is a floating-point one; for the positive times
    it is used with it is this. *)
Definition bl_observe1 (tm : lun_timing) (res : list (lun_op * op_status)) (bl : blacklist) (k : nat) : blacklist :=
  match res !! k with
  | Some (o, st) =>
      if decide (error_code st ≠ -1234 ∧ tm_exec tm k > bl_min_io_time bl ∧
                 rw_len (op_rw o) < bl_min_bandwidth bl * tm_exec tm k) then
        match op_rid o with
        | Some rid =>
            match bl_table bl !! rid with
            | None => bl_set_table bl (<[rid := tm_done tm k + bl_timeout bl]> (bl_table bl))
            | Some _ => bl
            end
        | None => bl
        end
      else bl
  | None => bl
  end.
Definition bl_observe (tm : lun_timing) (res : list (lun_op * op_status)) (ub : option (blacklist * Z))
    : option blacklist :=
  (λ '(bl, _), foldl (bl_observe1 tm res) bl (tm_order tm)) <$> ub.

Definition op_failed (x : lun_op * op_status) : Prop := op_st x.2 ≠ OP_STATE_SUCCESS.
#[export] Instance op_failed_dec x : Decision (op_failed x).
Proof. unfold op_failed. apply _. Defined.

(** The errors of a row, and the most errors a row has. *)
Definition slot_errs (res : list (lun_op * op_status)) (k : nat) : Z :=
  Z.of_nat (length (filter (λ x, op_slot x.1 = k ∧ op_failed x) res)).
Definition lun_maxerr (n : nat) (res : list (lun_op * op_status)) : Z :=
  foldl (λ m k, let nerr := slot_errs res k in if decide (nerr > m) then nerr else m) 0 (seq 0 n).

(** The bytes of a failed read are blanked. *)
Definition buf_blank (buf : tbuffer) (x : lun_op * op_status) : tbuffer :=
  if decide (op_failed x)
  then λ p, if decide (p ∈ take (Z.to_nat (rw_len (op_rw x.1))) (piece_list (rw_iov (op_rw x.1)))) then 0 else buf p
  else buf.

(** The error counts of the blocks. *)
Definition bk_bump (write : bool) (k : seglun_block C W) : seglun_block C W :=
  Seglun_block (bk_data k) (bk_cap_offset k)
    (bk_read_errs k + if write then 0 else 1) (bk_write_errs k + if write then 1 else 0).
Definition lun_bump (write : bool) (m : isl) (x : lun_op * op_status) : isl :=
  if decide (op_failed x) then
    let off := sr_seg_offset (op_row x.1) in
    match isl_search (Some off) (Some off) m with
    | b :: _ => row_put b (row_set_blocks b (alter (bk_bump write) (op_dev x.1) (sr_block b))) m
    | [] => m
    end
  else m.

(** ** The whole operation *)

(** [_slun_perform_remap]: the capabilities are translated in place.  [None] is
    a missing data block. *)
Definition bk_remap (σ : S) (k : seglun_block C W) : option (seglun_block C W) :=
  d ← bk_data k;
  let d' := Data_block (db_id d) (db_size d) (db_max_size d) (db_ref_count d) (db_initial_ref_count d)
    (rs_translate_cap_set σ (db_rid_key d) (db_cap d)) (db_ds_type d) (db_rid_key d) (db_attr_stack d) (db_warm d) in
  Some (Seglun_block (Some d') (bk_cap_offset k) (bk_read_errs k) (bk_write_errs k)).
Fixpoint lun_remap_rows (σ : S) (m : isl) (bs : list row) : option isl :=
  match bs with
  | [] => Some m
  | b :: bs => ks ← mapM (bk_remap σ) (sr_block b); lun_remap_rows σ (row_put b (row_set_blocks b ks) m) bs
  end.

(** A request that finds new mappings first waits for the running ones. *)
Definition lun_must_wait (s : lun) : bool :=
  bool_decide (lu_map_version s ≠ lu_notify_version s ∧ lu_inprogress s > 0).

(** Entering once there is nothing to wait for, and leaving; the last one to leave
    wakes up those that wait. *)
Definition lun_enter (σ : S) (s : lun) : option lun :=
  if decide (lu_map_version s = lu_notify_version s)
  then Some (lun_set_io s (lu_hard_errors s) (lu_map_version s) (lu_inprogress s + 1))
  else
    m ← lun_remap_rows σ (lu_isl s) (isl_all (lu_isl s));
    Some (lun_set_isl (lun_set_io s (lu_hard_errors s) (lu_notify_version s) (lu_inprogress s + 1)) m).
Definition lun_leave (s : lun) : lun :=
  lun_set_io s (lu_hard_errors s) (lu_map_version s) (lu_inprogress s - 1).
Definition lun_broadcasts (s : lun) : bool := bool_decide (lu_inprogress s = 0).

(** [seglun_rw_op].  The fourth result is the blacklist, the fifth the finished
    operations. *)
Definition seglun_rw_op (write : bool) (tm : lun_timing) (hints : option Z) (bl : option blacklist)
    (σ : S) (s : lun) (iov : list ex_iovec) (buf : tbuffer) (boff : Z)
    : option (S * lun * tbuffer * option blacklist * list (lun_op * op_status) * op_status) :=
  s ← lun_enter σ s;
  let t := lun_table s iov boff in
  '(ub, ops) ← lun_form (tm_now tm) (bl_use bl hints) 0 t;
  let '(σ, buf, res) := lun_run write σ buf ops in
  let bl := match bl_observe tm res ub with Some bl => Some bl | None => bl end in
  let buf := if write then buf else foldl buf_blank buf res in
  let s := lun_set_isl s (foldl (lun_bump write) (lu_isl s) res) in
  let maxerr := lun_maxerr (length t) res in
  let status := match res with
                | [] => op_failure_status
                | _ => if decide (maxerr = 0) then op_success_status else Op_status OP_STATE_FAILURE maxerr
                end in
  Some (σ, lun_leave s, buf, bl, res, status).
End lun_rw.
Arguments lun_op C W : clear implicits.
