(* ===== verification/LunTable.v ===== *)
(** * LUN segments: what the request table holds

    The table of a request has, for every byte of the buffer, exactly the place
    it belongs to: a row, a device and a byte of its block; and on each device
    the places are in buffer order. *)
From stdpp Require Import strings gmap.
From S2P Require Import Prelude Isl Seg Inip DataBlock DataStore LunMap LunStore LunSeg LunRw.
#[local] Open Scope Z_scope.

(** The places of a device buffer: bytes of the block, with their buffer
    positions. *)
Definition rw_pairs (r : lun_rw_row) : list (Z * Z) := zip (piece_list (rw_ex r)) (piece_list (rw_iov r)).

Definition rw_ok (r : lun_rw_row) : Prop :=
  length (piece_list (rw_ex r)) = length (piece_list (rw_iov r)) ∧
  rw_len r = Z.of_nat (length (piece_list (rw_iov r))) ∧ Forall (λ e, 0 < e.2) (rw_ex r) ∧
  (length (rw_ex r) ≤ length (rw_iov r))%nat.

Lemma zip_fmap_self {A B} (f : A → B) (l : list A) : zip l (f <$> l) = (λ x, (x, f x)) <$> l.
Proof. induction l as [|x l IH]; [done|]. simpl. f_equal. exact IH. Qed.

Section table.
Context {C W Q : Type} `{!EqDecision C, !EqDecision W}.
Context `{!TBuf, !TBufOk, !ISL (seglun_row C W), !ISLOk (seglun_row C W)}.
Context (g : lun_geom) (Hg : geom_ok g) (l : list (seglun_row C W)) (Hl : Forall (row_ok g) l).
(** The offset in the segment of each buffer position, and the first one. *)
Context (F : Z → Z) (boff : Z).
Implicit Types (b : seglun_row C W) (r : lun_rw_row).

Definition dev_ok (bpos : Z) b (i : nat) r : Prop :=
  rw_ok r ∧ StronglySorted Z.lt (rw_pairs r).*2 ∧
  ∀ o q, (o, q) ∈ rw_pairs r →
    boff ≤ q < bpos ∧ 0 ≤ o < sr_block_len b ∧ row_pos g b (Z.of_nat i) o = F q.

Definition tab_ok (bpos : Z) (t : list (seglun_row C W * list lun_rw_row)) : Prop :=
  NoDup t.*1 ∧
  (∀ b rws, (b, rws) ∈ t → b ∈ l ∧ Z.of_nat (length rws) = n_devices g ∧
     ∀ i r, rws !! i = Some r → dev_ok bpos b i r) ∧
  (∀ q, boff ≤ q < bpos →
     ∃ b rws i r o, (b, rws) ∈ t ∧ rws !! i = Some r ∧ (o, q) ∈ rw_pairs r).

(** ** A device of a row *)
Lemma dec_spec_pairs start bpos blen i r r' :
  rw_ok r → 0 ≤ start → 0 < blen → dec_spec g start bpos blen i r r' →
  rw_ok r' ∧ ∃ off len,
    rw_pairs r' = rw_pairs r ++ ((λ o, (o, bpos + (lun_pos g (Z.of_nat i) o - start))) <$> seqZ off len) ∧ 0 ≤ off ∧
    ∀ o, 0 ≤ o → (off ≤ o < off + len ↔ start ≤ lun_pos g (Z.of_nat i) o < start + blen).
Proof.
  intros (Hlen & Hrl & Hex & Hcount) Hst Hbl (off & len & added & Hcov & Hoff & Hl0 & Hex' & Hrl' & Hiov & Hadd).
  set (f := λ o, bpos + (lun_pos g (Z.of_nat i) o - start)) in *.
  assert (piece_list (rw_ex r') = piece_list (rw_ex r) ++ seqZ off len) as He.
  { rewrite Hex', piece_list_app. f_equal. case_decide as Hz; [by rewrite Hz, seqZ_nil by lia|].
    simpl. unfold piece_list. simpl. by rewrite app_nil_r. }
  assert (piece_list (rw_iov r') = piece_list (rw_iov r) ++ (f <$> seqZ off len)) as Hi.
  { by rewrite Hiov, piece_list_app, Hadd. }
  split.
  - split; [by rewrite He, Hi, !length_app, length_fmap, Hlen|]. split.
    + rewrite Hrl', Hrl, Hi, length_app, length_fmap, length_seqZ. lia.
    + rewrite Hex', Hiov, Forall_app, !length_app. case_decide as Hz; simpl; (split; [split; [done|]|]); [constructor|lia|repeat constructor; simpl; lia|].
      destruct added; [|simpl; lia]. simpl in Hadd. rewrite seqZ_cons in Hadd by lia. done.
  - exists off, len. split; [|done]. unfold rw_pairs. rewrite He, Hi, zip_with_app by done.
    f_equal. apply zip_fmap_self.
Qed.

Lemma sorted_app_lt (k1 k2 : list Z) x :
  StronglySorted Z.lt k1 → StronglySorted Z.lt k2 → (∀ y, y ∈ k1 → y < x) → (∀ y, y ∈ k2 → x ≤ y) →
  StronglySorted Z.lt (k1 ++ k2).
Proof.
  intros H1 H2 Hlt Hge. induction H1 as [|y k1 Hk IH Hy]; [done|]. simpl. constructor.
  - apply IH. intros z Hz. apply Hlt. by right.
  - apply Forall_app. split; [done|]. apply Forall_forall. intros z Hz.
    specialize (Hge z Hz). specialize (Hlt y ltac:(by left)). lia.
Qed.

Lemma seqZ_fmap_sorted (f : Z → Z) off len :
  0 ≤ off → (∀ x y, 0 ≤ x → x < y → f x < f y) → StronglySorted Z.lt (f <$> seqZ off len).
Proof.
  intros Hoff Hf. destruct (decide (0 ≤ len)) as [Hl0|]; [|rewrite seqZ_nil by lia; constructor].
  revert off Hoff. pattern len. apply natlike_ind; [intros; rewrite seqZ_nil by lia; constructor|intros n Hn IH off Hoff|done].
  rewrite seqZ_cons by lia. simpl. constructor; [replace (Z.pred (Z.succ n)) with n by lia; apply IH; lia|].
  apply Forall_forall. intros y (x & -> & Hx)%list_elem_of_fmap. apply elem_of_seqZ in Hx. apply Hf; lia.
Qed.

Lemma dev_ok_step bpos b i r r' start blen :
  dev_ok bpos b i r → row_ok g b → (Z.of_nat i < n_devices g) → 0 ≤ start → 0 < blen →
  start + blen ≤ sr_row_len b → boff ≤ bpos →
  (∀ k, 0 ≤ k < blen → F (bpos + k) = sr_seg_offset b + start + k) →
  dec_spec g start bpos blen i r r' →
  dev_ok (bpos + blen) b i r' ∧ rw_pairs r ⊆ rw_pairs r' ∧
  ∀ o, 0 ≤ o → start ≤ lun_pos g (Z.of_nat i) o < start + blen →
    (o, bpos + (lun_pos g (Z.of_nat i) o - start)) ∈ rw_pairs r'.
Proof.
  intros (Hrw & Hs & Hin) Hb Hi Hst Hbl Hend Hbp HF Hdec.
  destruct (dec_spec_pairs _ _ _ _ _ _ Hrw Hst Hbl Hdec) as (Hrw' & off & len & Hp & Hoff & Hcov).
  set (f := λ o, bpos + (lun_pos g (Z.of_nat i) o - start)) in *.
  change (rw_pairs r' = rw_pairs r ++ ((λ o, (o, f o)) <$> seqZ off len)) in Hp.
  assert (∀ o q, (o, q) ∈ ((λ o, (o, f o)) <$> seqZ off len) ↔ off ≤ o < off + len ∧ q = f o) as Hnew.
  { intros o q. rewrite list_elem_of_fmap. setoid_rewrite elem_of_seqZ. split.
    - intros (x & [= -> ->] & Hx). done.
    - intros (Ho & ->). by exists o. }
  split; [|split].
  - split; [done|]. split.
    + rewrite Hp, fmap_app, <- list_fmap_compose. apply (sorted_app_lt _ _ bpos); [done| | |].
      * apply seqZ_fmap_sorted; [done|]. intros x y Hx Hxy. unfold compose, f. simpl.
        pose proof (lun_pos_mono g Hg (Z.of_nat i) x y Hx Hxy). lia.
      * intros y ([o q] & -> & Hy)%list_elem_of_fmap. apply Hin in Hy. simpl. lia.
      * intros y (o & -> & Ho)%list_elem_of_fmap. apply elem_of_seqZ in Ho.
        pose proof (proj1 (Hcov o ltac:(lia)) Ho). unfold compose, f. simpl. lia.
    + intros o q. rewrite Hp, elem_of_app, Hnew. intros [Ho|[Ho ->]].
      * apply Hin in Ho. split; [lia|]. tauto.
      * pose proof (proj1 (Hcov o ltac:(lia)) Ho) as Hr. split; [unfold f; lia|].
        pose proof Hb as (_ & _ & He & _).
        assert (row_pos g b (Z.of_nat i) o = F (f o)) as HFo.
        { unfold row_pos, f. rewrite HF by lia. lia. }
        pose proof (row_addr_bounds g Hg b (row_pos g b (Z.of_nat i) o) Hb) as Ha.
        replace (row_pos g b (Z.of_nat i) o - sr_seg_offset b) with (lun_pos g (Z.of_nat i) o) in Ha
          by (unfold row_pos; lia).
        rewrite (lun_addr_pos g Hg) in Ha by lia. unfold row_pos in Ha. split; [|done]. apply Ha. lia.
  - rewrite Hp. intros x Hx. apply elem_of_app. by left.
  - intros o Ho Hr. rewrite Hp. apply elem_of_app. right. apply Hnew. split; [|done]. by apply Hcov.
Qed.

Lemma dev_ok_mono bpos bpos' b i r : bpos ≤ bpos' → dev_ok bpos b i r → dev_ok bpos' b i r.
Proof. intros Hle (? & ? & Hin). split_and!; [done|done|]. intros o q Hq. apply Hin in Hq. split; [lia|]. tauto. Qed.

(** ** A row of the table *)
Lemma tab_use_focus b n t :
  NoDup t.*1 →
  ∃ t1 rws t2, (∀ f, tab_use b n f t = t1 ++ (b, f rws) :: t2) ∧ NoDup (t1 ++ (b, rws) :: t2).*1 ∧
    (t = t1 ++ (b, rws) :: t2 ∨ t = t1 ∧ t2 = [] ∧ rws = replicate n lun_rw_empty).
Proof.
  induction t as [|[x r] t IH]; intros Hnd.
  { exists [], (replicate n lun_rw_empty), []. split_and!; [done| |by right]. repeat constructor. by apply not_elem_of_nil. }
  rewrite fmap_cons in Hnd. apply NoDup_cons in Hnd as [Hx Hnd]. destruct (decide (x = b)) as [->|Hne].
  { exists [], r, t. split_and!; [|by apply NoDup_cons|by left]. intros f. simpl. by rewrite decide_True. }
  destruct (IH Hnd) as (t1 & rws & t2 & Hf & Hnd' & Ht). exists ((x, r) :: t1), rws, t2. split; [|split].
  - intros f. simpl. rewrite decide_False by done. by rewrite Hf.
  - simpl. apply NoDup_cons. split; [|done]. rewrite fmap_app, elem_of_app, fmap_cons, elem_of_cons. simpl.
    destruct Ht as [-> |(-> & -> & _)].
    + rewrite fmap_app, elem_of_app, fmap_cons, elem_of_cons in Hx. simpl in Hx. tauto.
    + intros [?|[?|?%not_elem_of_nil]]; done.
  - destruct Ht as [->|(-> & -> & ->)]; [by left|by right].
Qed.

Lemma tab_ok_use bpos t b :
  tab_ok bpos t → b ∈ l →
  ∃ t1 rws t2, (∀ f, tab_use b (Z.to_nat (n_devices g)) f t = t1 ++ (b, f rws) :: t2) ∧
    tab_ok bpos (t1 ++ (b, rws) :: t2).
Proof.
  intros (Hnd & Hdev & Hcov) Hb. pose proof Hg as (Hn & _).
  destruct (tab_use_focus b (Z.to_nat (n_devices g)) t Hnd) as (t1 & rws & t2 & Hf & Hnd' & Ht).
  exists t1, rws, t2. split; [done|]. destruct Ht as [->|(-> & -> & ->)]; [done|].
  split; [done|]. split.
  - intros x r Hxr. apply elem_of_app in Hxr as [Hxr|Hxr]; [auto|].
    apply list_elem_of_singleton in Hxr as [= -> ->]. split; [done|]. split; [rewrite length_replicate; lia|].
    intros i r [-> _]%lookup_replicate_1. split; [by repeat constructor|]. split; [constructor|].
    intros o q. by intros ?%not_elem_of_nil.
  - intros q Hq. destruct (Hcov q Hq) as (x & rw & i & r & o & Hx & ? & ?). exists x, rw, i, r, o.
    split_and!; [|done..]. apply elem_of_app. by left.
Qed.

(** One row of an extent: the bytes [cur], ... of the segment. *)
Lemma tab_ok_row bpos t b start blen :
  tab_ok bpos t → b ∈ l → 0 ≤ start → 0 < blen → start + blen ≤ sr_row_len b → boff ≤ bpos → 0 ≤ bpos →
  bpos + blen ≤ tbuffer_size → (∀ k, 0 ≤ k < blen → F (bpos + k) = sr_seg_offset b + start + k) →
  tab_ok (bpos + blen) (tab_use b (Z.to_nat (n_devices g)) (λ rws, lun_row_decompose g rws start bpos blen) t).
Proof.
  intros Ht Hb Hst Hbl Hend Hbo Hbp Hsz HF.
  destruct (tab_ok_use bpos t b Ht Hb) as (t1 & rws & t2 & -> & Hnd & Hdev & Hcov). clear Ht t.
  assert (row_ok g b) as Hrow by (rewrite Forall_forall in Hl; auto).
  destruct (lun_row_decompose_spec g Hg rws start bpos blen Hst Hbl Hbp Hsz) as [Hlen Hspec].
  set (rws' := lun_row_decompose g rws start bpos blen) in *.
  destruct (Hdev b rws) as (_ & Hn & Hdb). { apply elem_of_app. right. by left. }
  assert (∀ i r, rws !! i = Some r → ∃ r', rws' !! i = Some r' ∧ dev_ok (bpos + blen) b i r' ∧ rw_pairs r ⊆ rw_pairs r' ∧
    ∀ o, 0 ≤ o → start ≤ lun_pos g (Z.of_nat i) o < start + blen →
      (o, bpos + (lun_pos g (Z.of_nat i) o - start)) ∈ rw_pairs r') as Hstep.
  { intros i r Hr. destruct (Hspec i r Hr) as (r' & Hr' & Hdec). exists r'. split; [done|].
    apply (dev_ok_step bpos b i r r' start blen); auto. apply lookup_lt_Some in Hr. lia. }
  split; [|split].
  - by rewrite fmap_app, fmap_cons in *.
  - intros x xr Hx. assert (x = b ∧ xr = rws' ∨ (x, xr) ∈ t1 ++ (b, rws) :: t2) as [[-> ->]|Hx'].
    { apply elem_of_app in Hx as [Hx|[[= -> ->]|Hx]%elem_of_cons]; [right|by left|right]; apply elem_of_app; [by left|right; by right]. }
    + split; [done|]. split; [lia|]. intros i r' Hr'.
      destruct (lookup_lt_is_Some_2 rws i) as [r Hr]; [apply lookup_lt_Some in Hr'; lia|].
      destruct (Hstep i r Hr) as (r2 & Hr2 & Hok & _). congruence.
    + destruct (Hdev x xr Hx') as (? & ? & Hd). split_and!; [done|done|]. intros i r Hr.
      apply (dev_ok_mono bpos); [lia|auto].
  - intros q Hq. destruct (decide (q < bpos)) as [Hlt|Hge].
    + destruct (Hcov q ltac:(lia)) as (x & xr & i & r & o & Hx & Hr & Ho).
      apply elem_of_app in Hx as [Hx|[[= -> ->]|Hx]%elem_of_cons].
      * exists x, xr, i, r, o. split_and!; [apply elem_of_app; by left|done..].
      * destruct (Hstep i r Hr) as (r' & Hr' & _ & Hsub & _). exists b, rws', i, r', o.
        split_and!; [apply elem_of_app; right; by left|done|by apply Hsub].
      * exists x, xr, i, r, o. split_and!; [apply elem_of_app; right; by right|done..].
    + pose proof (lun_addr_range g Hg (start + (q - bpos)) ltac:(lia)) as [Hi Ho].
      pose proof (lun_pos_addr g Hg (start + (q - bpos)) ltac:(lia)) as Hp.
      destruct (lun_addr g (start + (q - bpos))) as [i o]. simpl in *.
      destruct (lookup_lt_is_Some_2 rws (Z.to_nat i)) as [r Hr]; [lia|].
      destruct (Hstep _ r Hr) as (r' & Hr' & _ & _ & Hnew).
      exists b, rws', (Z.to_nat i), r', o. split; [apply elem_of_app; right; by left|]. split; [done|].
      rewrite Z2Nat.id in Hnew by lia. specialize (Hnew o Ho). rewrite Hp in Hnew.
      replace q with (bpos + (start + (q - bpos) - start)) by lia. apply Hnew. lia.
Qed.

(** ** An extent and a whole request *)
Lemma tab_ok_hits lo hi bs : ∀ t cur bpos,
  tab_ok bpos t → (∀ b, b ∈ bs → b ∈ l) → lo ≤ cur → hits_from lo cur hi bs → bs ≠ [] ∨ cur = hi + 1 →
  boff ≤ bpos → 0 ≤ bpos → bpos + (hi + 1 - cur) ≤ tbuffer_size →
  (∀ k, 0 ≤ k < hi + 1 - cur → F (bpos + k) = cur + k) →
  ∃ t', foldl (lun_row_step g lo hi) (t, bpos) bs = (t', bpos + (hi + 1 - cur)) ∧ tab_ok (bpos + (hi + 1 - cur)) t'.
Proof.
  induction bs as [|b bs IH]; intros t cur bpos Ht Hin Hlo Hh Hne Hbo Hbp Hsz HF.
  { destruct Hne as [?| ->]; [done|]. exists t. by replace (bpos + (hi + 1 - (hi + 1))) with bpos by lia. }
  destruct Hh as (Hch & Hc & Hfirst & Hh). unfold covers in Hc. simpl in Hc, Hfirst, Hh.
  assert (row_ok g b) as Hrow by (rewrite Forall_forall in Hl; apply Hl, Hin; by left).
  pose proof Hrow as (_ & _ & Hend & _).
  cbn [foldl]. unfold lun_row_step at 2. cbv zeta.
  set (start := if decide (lo ≤ sr_seg_offset b) then 0 else lo - sr_seg_offset b).
  set (blen := _ - start + 1).
  assert (start = cur - sr_seg_offset b ∧ blen = Z.min (sr_seg_end b) hi + 1 - cur) as [Hs Hb].
  { unfold blen, start; repeat case_decide; destruct (decide (lo < cur)); try specialize (Hfirst ltac:(lia)); lia. }
  clearbody start blen. assert (Hend' : bs ≠ [] ∨ cur + blen = hi + 1).
  { destruct bs; [right|by left]. simpl in Hh. lia. }
  assert (tab_ok (bpos + blen) (tab_use b (Z.to_nat (n_devices g)) (λ rws, lun_row_decompose g rws start bpos blen) t)) as Ht'.
  { apply tab_ok_row; [done|apply Hin; by left|lia..|]. intros k Hk. rewrite HF by lia. lia. }
  assert (hits_from lo (cur + blen) hi bs) as Hh'.
  { destruct bs as [|b' bs]; [simpl; destruct Hend'; [done|lia]|].
    destruct Hh as [Hb' Hh]. replace (cur + blen) with (sr_seg_end b + 1) by lia. done. }
  destruct (IH _ (cur + blen) (bpos + blen) Ht' ltac:(intros; apply Hin; by right) ltac:(lia) Hh' Hend')
    as (t' & He & Hok); [lia|lia|lia| |].
  { intros k Hk. rewrite <- Z.add_assoc, HF by lia. lia. }
  replace (bpos + blen + (hi + 1 - (cur + blen))) with (bpos + (hi + 1 - cur)) in * by lia. eauto.
Qed.

Lemma tab_ok_iov (s : seglun_priv C W Q) n iov : ∀ t bpos,
  lu_geom s = g → isl_all (lu_isl s) = l → tiles 0 n l → iov_within n iov → tab_ok bpos t →
  boff ≤ bpos → 0 ≤ bpos → bpos + iov_total iov ≤ tbuffer_size →
  (∀ p, bpos ≤ p < bpos + iov_total iov → F p = iov_pos iov bpos p) →
  ∃ t', foldl (lun_slot_step s) (t, bpos) iov = (t', bpos + iov_total iov) ∧ tab_ok (bpos + iov_total iov) t'.
Proof.
  induction iov as [|v iov IH]; intros t bpos Hgs Hall Ht Hw Htab Hbo Hbp Hsz HF; simpl in *.
  { exists t. by rewrite Z.add_0_r. }
  apply Forall_cons in Hw as [(Hv0 & Hlen & Hend) Hw].
  pose proof (iov_total_nonneg iov (iov_within_ok _ _ Hw)) as Htot.
  set (lo := iov_offset v) in *. set (hi := lo + iov_len v - 1).
  destruct (tiles_search_hits (lu_isl s) n lo hi) as [Hh Hin]; [by rewrite Hall|lia|lia|].
  rewrite Hall in Hin.
  destruct (tab_ok_hits lo hi (isl_search (Some lo) (Some hi) (lu_isl s)) t lo bpos) as (t1 & He & Ht1);
    [done|done|lia|done| |lia..| |].
  { left. intros Hnil. rewrite Hnil in Hh. simpl in Hh. lia. }
  { intros k Hk. rewrite HF by lia. rewrite decide_True by lia. lia. }
  unfold lun_slot_step at 2. fold lo hi. rewrite Hgs, He. replace (hi + 1 - lo) with (iov_len v) in * by lia.
  destruct (IH t1 (bpos + iov_len v) Hgs Hall Ht Hw Ht1) as (t2 & -> & Ht2); [lia|lia|lia| |].
  { intros p Hp. rewrite HF by lia. by rewrite decide_False by lia. }
  rewrite Z.add_assoc. eauto.
Qed.
End table.

(** The table of a request inside the segment. *)
Lemma lun_table_ok {C W Q S} `{!EqDecision C, !EqDecision W, !TBuf, !TBufOk, !StoreView C S}
    `{!ISL (seglun_row C W), !ISLOk (seglun_row C W)} (σ : S) (s : seglun_priv C W Q) iov boff :
  lun_ok σ s → iov_within (lu_total_size s) iov → 0 ≤ boff → boff + iov_total iov ≤ tbuffer_size →
  tab_ok (lu_geom s) (isl_all (lu_isl s)) (iov_pos iov boff) boff (boff + iov_total iov) (lun_table s iov boff).
Proof.
  intros (Hg & _ & Ht & (Hrows & _) & _) Hw Hbo Hsz. unfold lun_table.
  destruct (tab_ok_iov (lu_geom s) Hg (isl_all (lu_isl s)) Hrows (iov_pos iov boff) boff s (lu_total_size s) iov [] boff)
    as (t & -> & Htab); [done..| |lia|lia|lia|done|done].
  split; [constructor|]. split; [by intros ?? ?%not_elem_of_nil|lia].
Qed.
