(* ===== verification/LunRun.v ===== *)
(** * LUN segments: running the operations of a request

    What the reads and writes of a table do to the buffer and to the store,
    when each operation is well formed and no two share a place. *)
From stdpp Require Import strings gmap.
From S2P Require Import Prelude Isl Seg Inip DataBlock DataStore LunMap LunStore LunSeg LunRw LunTable.
#[local] Open Scope Z_scope.

Section run.
Context {C W Q S : Type} `{!EqDecision C, !EqDecision W}.
Context `{!DataStore C Q S, !StoreView C S, !DataStoreOk C Q S, !LunStore C Q S, !LunStoreOk C Q S}.
Context `{!Gop, !GopOk, !TBuf, !ISL (seglun_row C W)}.
Implicit Types (o : lun_op C W) (σ : S) (buf : tbuffer).

Definition op_poss o : list Z := piece_list (rw_iov (op_rw o)).
Definition op_offs o : list Z := piece_list (rw_ex (op_rw o)).
Definition op_ok o : Prop := rw_ok (op_rw o) ∧ rw_ex (op_rw o) ≠ [].

Lemma op_pairs_lookup o k x q :
  rw_pairs (op_rw o) !! k = Some (x, q) ↔ op_offs o !! k = Some x ∧ op_poss o !! k = Some q.
Proof. apply zip_lookup. Qed.

(** The one-piece form is the vector form on one run. *)
Lemma op_single o off n exs p m :
  op_ok o → rw_ex (op_rw o) = (off, n) :: exs → rw_iov (op_rw o) = [(p, m)] →
  0 < n ∧ rw_len (op_rw o) = n ∧ op_offs o = seqZ off n ∧ op_poss o = seqZ p n.
Proof.
  intros [(Hl & Hlen & Hpos & Hc) _] Hex Hiov. unfold op_offs, op_poss. rewrite Hex, Hiov in *.
  destruct exs; [|simpl in Hc; lia].
  assert (∀ a b, piece_list [(a, b)] = seqZ a b) as Hone by (intros; unfold piece_list; simpl; by rewrite app_nil_r).
  apply Forall_cons in Hpos as [Hn _]. simpl in Hn. rewrite !Hone in *. rewrite !length_seqZ in *.
  assert (m = n) as -> by lia. split_and!; [done|lia|done|done].
Qed.

Lemma lun_run1_read σ buf o :
  op_ok o →
  let '(σ', buf', st) := lun_run1 false σ buf o in
  (∀ c i, ds_byte σ' c i = ds_byte σ c i ∧ (ds_live σ c → ds_live σ' c)) ∧
  (∀ p, p ∉ op_poss o → buf' p = buf p) ∧
  (op_st st = OP_STATE_SUCCESS → op_skip o = false ∧
     ∀ p, buf' p = vec_put buf (zip (op_poss o) (op_offs o)) (ds_byte σ (op_cap o)) p).
Proof.
  intros Hok. unfold lun_run1. destruct (op_skip o); [by split_and!|].
  destruct (rw_ex (op_rw o)) as [|[off n] exs] eqn:Hex; [by destruct Hok|].
  destruct (rw_iov (op_rw o)) as [|[p m] [|[p2 m2] iov]] eqn:Hiov.
  - destruct Hok as [(_ & _ & _ & Hc) _]. rewrite Hex, Hiov in Hc. simpl in Hc. lia.
  - destruct (op_single o off n exs p m Hok Hex Hiov) as (Hn & Hlen & Ho & Hp). rewrite Hlen, Ho, Hp.
    pose proof (λ c i, ds_read_same σ (op_cap o) off buf p n c i) as Hs.
    pose proof (λ x, ds_read_frame σ (op_cap o) off buf p n x) as Hf.
    pose proof (λ x, ds_read_buffer σ (op_cap o) off buf p n x) as Hb.
    destruct (ds_read σ _ _ _ _ _) as [[σ' buf'] st]. simpl in *. split; [done|]. split.
    + intros x Hx. apply Hf. rewrite elem_of_seqZ in Hx. lia.
    + intros Hst. split; [done|]. intros x. rewrite Hb by done. by rewrite vec_put_seqZ.
  - unfold op_poss, op_offs. rewrite Hex, Hiov. set (exs' := (off, n) :: exs). set (ps := (p, m) :: _ :: iov).
    pose proof (λ c i, ds_readv_same σ (op_cap o) exs' buf ps c i) as Hs.
    pose proof (λ x, ds_readv_frame σ (op_cap o) exs' buf ps x) as Hf.
    pose proof (λ x, ds_readv_buffer σ (op_cap o) exs' buf ps x) as Hb.
    destruct (ds_readv σ _ _ _ _) as [[σ' buf'] st]. simpl in Hs, Hf, Hb. split; [exact Hs|]. split; [exact Hf|].
    intros Hst. split; [done|]. intros x. by apply Hb.
Qed.

Lemma lun_run1_write σ buf o :
  op_ok o →
  let '(σ', buf', st) := lun_run1 true σ buf o in
  buf' = buf ∧ (∀ c, ds_live σ c → ds_live σ' c) ∧
  (∀ c i, c ≠ op_cap o ∨ i ∉ op_offs o → ds_byte σ' c i = ds_byte σ c i) ∧
  (op_st st = OP_STATE_SUCCESS →
     ∀ i, ds_byte σ' (op_cap o) i = vec_put (ds_byte σ (op_cap o)) (rw_pairs (op_rw o)) buf i).
Proof.
  intros Hok. unfold lun_run1. destruct (op_skip o); [by split_and!|].
  destruct (rw_ex (op_rw o)) as [|[off n] exs] eqn:Hex; [by destruct Hok|].
  destruct (rw_iov (op_rw o)) as [|[p m] [|[p2 m2] iov]] eqn:Hiov.
  - destruct Hok as [(_ & _ & _ & Hc) _]. rewrite Hex, Hiov in Hc. simpl in Hc. lia.
  - destruct (op_single o off n exs p m Hok Hex Hiov) as (Hn & Hlen & Ho & Hp).
    unfold rw_pairs. unfold op_offs, op_poss in *. rewrite Hlen, Ho, Hp.
    pose proof (λ c, ds_write_live σ (op_cap o) off buf p n c) as Hs.
    pose proof (λ c x, ds_write_frame σ (op_cap o) off buf p n c x) as Hf.
    pose proof (λ x, ds_write_byte σ (op_cap o) off buf p n x) as Hb.
    destruct (ds_write σ _ _ _ _ _) as [σ' st]. simpl in *. split; [done|]. split; [done|]. split.
    + intros c x Hx. apply Hf. destruct Hx as [?|Hx]; [by left|right]. rewrite elem_of_seqZ in Hx. lia.
    + intros Hst i. rewrite vec_put_seqZ. unfold buf_put. case_decide; [by apply Hb|]. apply Hf. by right.
  - unfold rw_pairs, op_offs. rewrite Hex, Hiov. set (exs' := (off, n) :: exs). set (ps := (p, m) :: _ :: iov).
    pose proof (λ c, ds_writev_live σ (op_cap o) exs' buf ps c) as Hs.
    pose proof (λ c x, ds_writev_frame σ (op_cap o) exs' buf ps c x) as Hf.
    pose proof (λ x, ds_writev_byte σ (op_cap o) exs' buf ps x) as Hb.
    destruct (ds_writev σ _ _ _ _) as [σ' st]. simpl in Hs, Hf, Hb. split; [done|]. split; [exact Hs|].
    split; [exact Hf|]. intros Hst i. by apply Hb.
Qed.

(** ** All the reads *)

(** A buffer position at most one operation delivers. *)
Definition only_op (ops : list (lun_op C W)) o (p : Z) : Prop :=
  ∀ o', o' ∈ ops → p ∈ op_poss o' → o' = o.

Lemma read_elem σ o buf p :
  op_ok o → p ∈ op_poss o →
  ∃ x, (x, p) ∈ rw_pairs (op_rw o) ∧
    vec_put buf (zip (op_poss o) (op_offs o)) (ds_byte σ (op_cap o)) p = ds_byte σ (op_cap o) x.
Proof.
  intros [[Hl _] _] Hp.
  destruct (vec_put_last (zip (op_poss o) (op_offs o)) buf (ds_byte σ (op_cap o)) p) as (k & x & Hk & _ & ->).
  { apply zip_elem_fst; [by unfold op_poss, op_offs|done]. }
  exists x. split; [|done]. apply zip_lookup in Hk as [Hpk Hxk].
  apply (list_elem_of_lookup_2 _ k). by apply op_pairs_lookup.
Qed.

Lemma lun_run_reads ops : ∀ σ buf,
  Forall op_ok ops → NoDup ops →
  let '(σ', buf', res) := lun_run false σ buf ops in
  (∀ c i, ds_byte σ' c i = ds_byte σ c i ∧ (ds_live σ c → ds_live σ' c)) ∧ res.*1 = ops ∧
  (∀ p, (∀ o, o ∈ ops → p ∉ op_poss o) → buf' p = buf p) ∧
  ∀ o st p, (o, st) ∈ res → op_st st = OP_STATE_SUCCESS → p ∈ op_poss o → only_op ops o p →
    ∃ x, (x, p) ∈ rw_pairs (op_rw o) ∧ buf' p = ds_byte σ (op_cap o) x.
Proof.
  induction ops as [|o ops IH]; intros σ buf Hok Hnd; cbn [lun_run].
  { split_and!; try done. by intros ??? ?%not_elem_of_nil. }
  apply Forall_cons in Hok as [Ho Hok]. apply NoDup_cons in Hnd as [Hno Hnd].
  pose proof (lun_run1_read σ buf o Ho) as Hrun1.
  destruct (lun_run1 false σ buf o) as [[σ1 buf1] st1]. destruct Hrun1 as (Hs1 & Hf1 & Hb1).
  specialize (IH σ1 buf1 Hok Hnd).
  destruct (lun_run false σ1 buf1 ops) as [[σ2 buf2] res]. destruct IH as (Hs2 & Hres & Hf2 & Hb2).
  split; [|split; [|split]].
  - intros c i. destruct (Hs1 c i) as [E1 L1], (Hs2 c i) as [E2 L2]. split; [congruence|auto].
  - rewrite fmap_cons; by rewrite Hres.
  - intros p Hp. rewrite Hf2, Hf1; [done|apply Hp; by left|intros o' ?; apply Hp; by right].
  - intros o' st p [[= -> ->]|Hin]%elem_of_cons Hst Hp Honly.
    + destruct (Hb1 Hst) as [_ Hb]. destruct (read_elem σ o buf p Ho Hp) as (x & Hx & He).
      exists x. split; [done|]. rewrite Hf2, Hb; [done|]. intros o' Ho' Hp'. apply Hno.
      by rewrite <- (Honly o' ltac:(by right) Hp').
    + destruct (Hb2 o' st p Hin Hst Hp) as (x & Hx & He).
      { intros o2 Ho2 Hp2. apply Honly; [by right|done]. }
      exists x. split; [done|]. rewrite He. apply (Hs1 (op_cap o') x).
Qed.

(** ** All the writes *)
Lemma lun_run_writes ops : ∀ σ buf,
  Forall op_ok ops → NoDup (op_cap <$> ops) →
  let '(σ', buf', res) := lun_run true σ buf ops in
  buf' = buf ∧ (∀ c, ds_live σ c → ds_live σ' c) ∧ res.*1 = ops ∧
  (∀ c i, (∀ o, o ∈ ops → op_cap o = c → i ∉ op_offs o) → ds_byte σ' c i = ds_byte σ c i) ∧
  ∀ o st i, (o, st) ∈ res → op_st st = OP_STATE_SUCCESS →
    ds_byte σ' (op_cap o) i = vec_put (ds_byte σ (op_cap o)) (rw_pairs (op_rw o)) buf i.
Proof.
  induction ops as [|o ops IH]; intros σ buf Hok Hnd; cbn [lun_run].
  { split_and!; try done. by intros ??? ?%not_elem_of_nil. }
  apply Forall_cons in Hok as [Ho Hok]. rewrite fmap_cons in Hnd. apply NoDup_cons in Hnd as [Hno Hnd].
  pose proof (lun_run1_write σ buf o Ho) as Hrun1.
  destruct (lun_run1 true σ buf o) as [[σ1 buf1] st1]. destruct Hrun1 as (-> & Hs1 & Hf1 & Hb1).
  specialize (IH σ1 buf Hok Hnd).
  destruct (lun_run true σ1 buf ops) as [[σ2 buf2] res]. destruct IH as (-> & Hs2 & Hres & Hf2 & Hb2).
  assert (∀ o', o' ∈ ops → op_cap o' ≠ op_cap o) as Hne.
  { intros o' Ho' He. apply Hno. rewrite <- He. by apply list_elem_of_fmap_2. }
  split; [done|]. split; [auto|]. split; [rewrite fmap_cons; by rewrite Hres|]. split.
  - intros c i Hp. rewrite Hf2, Hf1; [done| |intros o' ?; apply Hp; by right].
    destruct (decide (c = op_cap o)) as [->|]; [right|by left]. apply Hp; [by left|done].
  - intros o' st i [[= -> ->]|Hin]%elem_of_cons Hst.
    + rewrite Hf2 by (intros o' Ho' He; by destruct (Hne o' Ho')). by apply Hb1.
    + rewrite (Hb2 o' st i Hin Hst). assert (o' ∈ ops) as Ho'.
      { rewrite <- Hres. apply list_elem_of_fmap. by exists (o', st). }
      assert (∀ j, ds_byte σ1 (op_cap o') j = ds_byte σ (op_cap o') j) as He by (intros; apply Hf1; left; auto).
      destruct (decide (i ∈ (rw_pairs (op_rw o')).*1)) as [Hi|Hi].
      * destruct (vec_put_last _ (ds_byte σ1 (op_cap o')) buf i Hi) as (k & s & Hk & Hm & ->).
        destruct (vec_put_last _ (ds_byte σ (op_cap o')) buf i Hi) as (k' & s' & Hk' & Hm' & ->).
        assert (k = k') as <-; [|congruence]. pose proof (Hm k' s' Hk'). pose proof (Hm' k s Hk). lia.
      * by rewrite !vec_put_notin.
Qed.

(** ** Blanking *)
Lemma buf_blanks res : ∀ buf p,
  Forall op_ok res.*1 →
  foldl buf_blank buf res p =
    if decide (Exists (λ x, op_failed x ∧ p ∈ op_poss x.1) res) then 0 else buf p.
Proof.
  induction res as [|x res IH]; intros buf p Hok; cbn [foldl].
  { rewrite decide_False; [done|]. by intros ?%Exists_nil. }
  rewrite fmap_cons in Hok. apply Forall_cons in Hok as [Hx Hok]. rewrite IH by done.
  assert (buf_blank buf x p = if decide (op_failed x ∧ p ∈ op_poss x.1) then 0 else buf p) as Hone.
  { destruct Hx as [(_ & Hlen & _) _]. unfold buf_blank. rewrite Hlen, Nat2Z.id, firstn_all. fold (op_poss x.1).
    repeat case_decide; tauto. }
  destruct (decide (Exists _ res)) as [He|He], (decide (Exists _ (x :: res))) as [He'|He'].
  - done.
  - destruct He'. by apply Exists_cons_tl.
  - rewrite Hone. apply Exists_cons in He' as [?|?]; [by rewrite decide_True|done].
  - rewrite Hone, decide_False; [done|]. intros ?. apply He'. by apply Exists_cons_hd.
Qed.
End run.

(** * LUN segments: rows changed in place

    The driver updates its rows through pointers: error counts are raised,
    capabilities are translated.  Rows that keep their range, their lengths and
    the allocations they stand on keep the invariant and the contents. *)
Section sim.
Context {C W Q S : Type} `{!StoreView C S}.
Implicit Types (b : seglun_row C W) (l k : list (seglun_row C W)) (σ : S).

(** The allocations of the new row are related to those of the old by [R]. *)
Definition row_sim (R : C → C → Prop) b b' : Prop :=
  sr_seg_offset b = sr_seg_offset b' ∧ sr_seg_end b = sr_seg_end b' ∧
  sr_block_len b = sr_block_len b' ∧ sr_row_len b = sr_row_len b' ∧
  Forall2 (λ x y, bk_cap_offset x = bk_cap_offset y ∧ option_Forall2 R (bk_cap x) (bk_cap y))
    (sr_block b) (sr_block b').

Lemma row_sim_refl b : row_sim eq b b.
Proof.
  split_and!; try done. apply Forall_Forall2_diag, Forall_forall. intros x _. split; [done|].
  destruct (bk_cap x); by constructor.
Qed.

Section related.
Context (g : lun_geom) (σ : S) (R : C → C → Prop).
Context (HR : ∀ c c', R c c' → ds_live σ c → ds_live σ c' ∧ ∀ i, ds_byte σ c' i = ds_byte σ c i).
Context (Hinj : ∀ c1 c2 c', R c1 c' → R c2 c' → ds_live σ c1 → ds_live σ c2 → c1 = c2).

Lemma row_sim_range l k : Forall2 (row_sim R) l k → Forall2 same_range l k.
Proof. intros Hlk. eapply Forall2_impl; [exact Hlk|]. intros b b' (? & ? & _). done. Qed.

Lemma row_sim_ok b b' : row_sim R b b' → row_ok g b → row_ok g b'.
Proof.
  intros (Ho & He & Hb & Hr & Hk) (Hn & Hcap & Hend & Hlen & Hch & Hst).
  split; [by rewrite <- (Forall2_length _ _ _ Hk)|]. split; [|rewrite <- Ho, <- He, <- Hb, <- Hr; done].
  intros y Hy. destruct (Forall2_elem_r _ _ _ _ Hk Hy) as (x & Hx & Hoff & Hc).
  destruct (Hcap x Hx) as [[c Hc'] H0]. rewrite Hc' in Hc. inversion Hc; subst. split; [by eexists|congruence].
Qed.

Lemma row_sim_caps b b' : row_sim R b b' → Forall2 R (row_caps b) (row_caps b').
Proof.
  intros (_ & _ & _ & _ & Hk). unfold row_caps.
  induction Hk as [|x y ks ks' [_ Hc] Hks IH]; [constructor|]. cbn.
  destruct Hc; [by constructor|done].
Qed.

Lemma rows_sim_caps l k : Forall2 (row_sim R) l k → Forall2 R (rows_caps l) (rows_caps k).
Proof.
  unfold rows_caps. induction 1 as [|b b' l k Hb Hlk IH]; [constructor|].
  rewrite !bind_cons. apply Forall2_app; [by apply row_sim_caps|done].
Qed.

Lemma rows_sim_ok l k : Forall2 (row_sim R) l k → rows_ok g σ l → rows_ok g σ k.
Proof.
  intros Hlk (Hrow & Hnd & Hlive). pose proof (rows_sim_caps l k Hlk) as Hc. split; [|split].
  - apply Forall_forall. intros b' Hb'. destruct (Forall2_elem_r _ _ _ _ Hlk Hb') as (b & Hb & Hs).
    rewrite Forall_forall in Hrow. by apply (row_sim_ok b b'), Hrow.
  - apply NoDup_alt. intros i j c Hi Hj.
    destruct (Forall2_lookup_r _ _ _ _ _ Hc Hi) as (c1 & H1 & R1).
    destruct (Forall2_lookup_r _ _ _ _ _ Hc Hj) as (c2 & H2 & R2).
    assert (c1 = c2) as <-.
    { apply (Hinj c1 c2 c); [done|done| |]; apply Hlive; by eapply list_elem_of_lookup_2. }
    by apply (NoDup_lookup _ _ _ _ Hnd H1 H2).
  - intros c' Hc'. destruct (Forall2_elem_r _ _ _ _ Hc Hc') as (c & Hcl & Hr). by apply (HR c), Hlive.
Qed.

Lemma rows_sim_byte l k off :
  Forall2 (row_sim R) l k → ranges_ok l → rows_ok g σ l → geom_ok g → rows_byte g σ k off = rows_byte g σ l off.
Proof.
  intros Hlk Hok (Hrow & _ & Hlive) Hg. unfold rows_byte.
  destruct (find_cover off l) as [b|] eqn:Hf.
  - apply find_cover_in in Hf as [Hb Hc]. destruct (Forall2_elem_l _ _ _ _ Hlk Hb) as (b' & Hb' & Hs).
    assert (find_cover off k = Some b') as ->.
    { apply find_cover_Some; [by apply (ranges_ok_same l), Hok; apply row_sim_range|done|].
      destruct Hs as (? & ? & _). unfold covers in *. simpl in *. lia. }
    assert (row_ok g b) as Hbo by (rewrite Forall_forall in Hrow; auto).
    unfold covers in Hc. simpl in Hc. pose proof (row_addr_bounds g Hg b off Hbo ltac:(lia)) as Ha.
    pose proof Hs as (Hso & _ & _ & _ & Hk).
    unfold row_byte. rewrite <- Hso. destruct (lun_addr g (off - sr_seg_offset b)) as [i o].
    destruct Ha as (Hi & _ & _). unfold row_cap. destruct Hbo as (Hn & Hcap & _).
    destruct (lookup_lt_is_Some_2 (sr_block b) (Z.to_nat i)) as [x Hx]; [lia|].
    destruct (Forall2_lookup_l _ _ _ _ _ Hk Hx) as (y & Hy & _ & Hxy). rewrite Hx, Hy. simpl.
    destruct (bk_cap x) as [c|] eqn:Hcx; inversion Hxy as [? c' Hr|]; subst; [|done].
    apply (HR c); [done|]. apply Hlive.
    apply (rows_caps_elem g l b i); [done|done|lia|]. unfold row_cap. by rewrite Hx.
  - rewrite find_cover_None in Hf. assert (find_cover off k = None) as ->; [|done].
    apply find_cover_None. intros b' Hb' Hc. destruct (Forall2_elem_r _ _ _ _ Hlk Hb') as (b & Hb & ? & ? & _).
    apply (Hf b Hb). unfold covers in *. simpl in *. lia.
Qed.
End related.
End sim.

(** ** The interval list *)
Section put.
Context {C W Q S : Type} `{!StoreView C S, !ISL (seglun_row C W), !ISLOk (seglun_row C W)}.
Implicit Types (b : seglun_row C W) (s : seglun_priv C W Q) (σ : S).

Lemma row_put_all b b' (m : isl) k :
  isl_all m ≡ₚ b :: k → valid b' → isl_all (row_put b b' m) ≡ₚ b' :: k.
Proof.
  intros Hm Hv. unfold row_put, row_insert, row_remove.
  assert (b ∈ isl_all m) as Hb by (rewrite Hm; by left).
  pose proof (isl_all_insert b' (isl_remove (sr_seg_offset b) (sr_seg_end b) b m) Hv) as Hi. simpl in Hi. rewrite Hi.
  constructor. pose proof (isl_all_remove b m Hb) as Hr. simpl in Hr. rewrite Hm in Hr.
  by apply Permutation_cons_inv in Hr.
Qed.

(** The invariant and the contents depend on the rows only up to their order. *)
Lemma rows_ok_perm g σ (l k : list (seglun_row C W)) : l ≡ₚ k → rows_ok g σ l → rows_ok g σ k.
Proof.
  intros Hp (Hr & Hnd & Hlive). assert (rows_caps l ≡ₚ rows_caps k) as Hc by (unfold rows_caps; by rewrite Hp).
  split; [by rewrite <- Hp|]. split; [by rewrite <- Hc|]. intros c. rewrite <- Hc. apply Hlive.
Qed.

Lemma lun_ok_isl σ s (m : isl) (R : C → C → Prop) (l k : list (seglun_row C W)) :
  (∀ c c', R c c' → ds_live σ c → ds_live σ c' ∧ ∀ i, ds_byte σ c' i = ds_byte σ c i) →
  (∀ c1 c2 c', R c1 c' → R c2 c' → ds_live σ c1 → ds_live σ c2 → c1 = c2) →
  isl_all (lu_isl s) ≡ₚ l → isl_all m ≡ₚ k → Forall2 (row_sim R) l k → lun_ok σ s →
  lun_ok σ (lun_set_isl s m) ∧ ∀ off, lun_byte σ (lun_set_isl s m) off = lun_byte σ s off.
Proof.
  intros HR Hinj Hl Hk Hlk (Hg & H0 & Ht & Hr & Hrest).
  pose proof (row_sim_range R _ _ Hlk) as Hrg.
  assert (tiles 0 (lu_total_size s) k) as Htk by (apply (tiles_same _ _ l); [done|by rewrite <- Hl]).
  assert (rows_ok (lu_geom s) σ l) as Hrl by (by apply (rows_ok_perm _ _ _ _ Hl)).
  assert (rows_ok (lu_geom s) σ k) as Hrk by (by apply (rows_sim_ok _ _ R HR Hinj l)).
  split.
  - split; [done|]. split; [done|]. split; [simpl; by rewrite Hk|]. split; [|done].
    by apply (rows_ok_perm _ _ k).
  - intros off. unfold lun_byte, rows_byte. simpl.
    rewrite (find_cover_perm off _ _ Hk) by (rewrite Hk; apply Htk).
    rewrite (find_cover_perm off _ _ Hl) by apply Ht.
    apply (rows_sim_byte _ _ R HR); [done| |done|done]. rewrite <- Hl. apply Ht.
Qed.

(** Error counts. *)
Context `{!EqDecision C, !EqDecision W}.
Lemma lun_bump_ok write σ s x :
  lun_ok σ s →
  lun_ok σ (lun_set_isl s (lun_bump write (lu_isl s) x)) ∧
  ∀ off, lun_byte σ (lun_set_isl s (lun_bump write (lu_isl s) x)) off = lun_byte σ s off.
Proof.
  intros Hs. unfold lun_bump. case_decide; [|destruct s; done].
  set (off0 := sr_seg_offset (op_row x.1)).
  destruct (isl_search (Some off0) (Some off0) (lu_isl s)) as [|b bs] eqn:Hse; [destruct s; done|].
  assert (b ∈ isl_all (lu_isl s)) as Hb.
  { apply (isl_search_elem (lu_isl s) off0 off0); [lia|apply Hs|]. rewrite Hse. by left. }
  apply elem_of_Permutation in Hb as [k Hk].
  assert (valid b) as Hv.
  { destruct Hs as (_ & _ & [Hr _] & _). apply (ranges_ok_valid _ _ Hr). rewrite Hk. by left. }
  set (b' := row_set_blocks b _).
  apply (lun_ok_isl σ s _ eq (b :: k) (b' :: k)); [by intros ?? ->|congruence|done| | |done].
  - by apply row_put_all.
  - constructor; [|apply Forall_Forall2_diag, Forall_forall; intros; apply row_sim_refl].
    split_and!; try done. simpl. apply Forall2_same_length_lookup. split; [by rewrite length_alter|].
    intros i y y' Hy Hy'. destruct (decide (i = op_dev x.1)) as [->|Hne].
    + rewrite list_lookup_alter_eq, Hy in Hy'. simpl in Hy'. injection Hy' as <-. split; [done|].
      unfold bk_cap. simpl. destruct (bk_data y); by constructor.
    + rewrite list_lookup_alter_ne in Hy' by done. replace y' with y by congruence. split; [done|].
      destruct (bk_cap y); by constructor.
Qed.
End put.
