(* ===== verification/LunRwSpec.v ===== *)
(** * LUN segments: correctness of reads and writes

    [seglun_rw_op] on a well-formed segment: a read delivers the segment's
    bytes, blank where a device failed; a write that succeeds overlays the
    request on the segment's bytes. *)
From stdpp Require Import strings gmap.
From S2P Require Import Prelude Isl Seg Inip DataBlock DataStore LunMap LunStore LunSeg LunRw LunTable LunRun.
#[local] Open Scope Z_scope.

Section rw_spec.
Context {C W Q S : Type} `{!EqDecision C, !EqDecision W}.
Context `{!DataStore C Q S, !StoreView C S, !DataStoreOk C Q S, !LunStore C Q S, !LunStoreOk C Q S}.
Context `{!Gop, !GopOk, !TBuf, !TBufOk, !ISL (seglun_row C W), !ISLOk (seglun_row C W)}.
Implicit Types (s : seglun_priv C W Q) (b : seglun_row C W) (σ : S) (o : lun_op C W).

(** ** Entering *)
Definition bk_rid (k : seglun_block C W) : option string := bk_data k ≫= λ d, db_rid_key d.
Lemma bk_remap_sim σ k :
  is_Some (bk_cap k) →
  ∃ k', bk_remap σ k = Some k' ∧ bk_cap_offset k = bk_cap_offset k' ∧
    option_Forall2 (λ c c', ∃ rid, c' = rs_translate_cap_set σ rid c) (bk_cap k) (bk_cap k') ∧
    (is_Some (bk_rid k) → is_Some (bk_rid k')).
Proof.
  unfold bk_rid, bk_cap, bk_remap. destruct (bk_data k) as [d|]; [|by intros [? ?]]. intros _. simpl.
  eexists. split; [done|]. split; [done|]. split; [|done]. constructor. by eexists.
Qed.

Definition tr_rel σ (c c' : C) : Prop := ∃ rid, c' = rs_translate_cap_set σ rid c.

Definition rids_known (l : list (seglun_row C W)) : Prop :=
  ∀ b k, b ∈ l → k ∈ sr_block b → is_Some (bk_rid k).

Lemma remap_blocks σ ks :
  (∀ k, k ∈ ks → is_Some (bk_cap k)) →
  ∃ ks', mapM (bk_remap σ) ks = Some ks' ∧
    Forall2 (λ x y, bk_cap_offset x = bk_cap_offset y ∧ option_Forall2 (tr_rel σ) (bk_cap x) (bk_cap y)) ks ks' ∧
    ((∀ k, k ∈ ks → is_Some (bk_rid k)) → ∀ k, k ∈ ks' → is_Some (bk_rid k)).
Proof.
  induction ks as [|k ks IH]; intros Hk.
  { exists []. split_and!; [done|constructor|]. by intros _ ? ?%not_elem_of_nil. }
  destruct (bk_remap_sim σ k ltac:(apply Hk; by left)) as (k' & Hk' & Ho & Hc & Hr).
  destruct IH as (ks' & Hks' & Hf & Hr'). { intros x ?. apply Hk. by right. }
  exists (k' :: ks'). split; [|split].
  - simpl. rewrite Hk'. simpl. by rewrite Hks'.
  - by constructor.
  - intros Hall x [->|Hx]%elem_of_cons; [apply Hr, Hall; by left|apply Hr'; [|done]].
    intros y ?. apply Hall. by right.
Qed.

Lemma remap_rows σ (bs : list (seglun_row C W)) : ∀ m rest,
  isl_all m ≡ₚ bs ++ rest → (∀ b, b ∈ bs → valid b ∧ ∀ k, k ∈ sr_block b → is_Some (bk_cap k)) →
  ∃ m' bs', lun_remap_rows σ m bs = Some m' ∧ isl_all m' ≡ₚ bs' ++ rest ∧ Forall2 (row_sim (tr_rel σ)) bs bs' ∧
    (rids_known bs → rids_known bs').
Proof.
  induction bs as [|b bs IH]; intros m rest Hm Hb.
  { exists m, []. split_and!; [done..|constructor|done]. }
  destruct (Hb b ltac:(by left)) as [Hv Hk].
  destruct (remap_blocks σ (sr_block b) Hk) as (ks & Hks & Hf & Hr). set (b' := row_set_blocks b ks).
  assert (isl_all (row_put b b' m) ≡ₚ bs ++ b' :: rest) as Hm'.
  { rewrite <- Permutation_middle. apply row_put_all; [|done]. done. }
  destruct (IH _ _ Hm') as (m' & bs' & He & Hp & Hs & Hr'). { intros x ?. apply Hb. by right. }
  exists m', (b' :: bs'). cbn [lun_remap_rows]. rewrite Hks. simpl. split; [done|]. split; [|split].
  - rewrite Hp. by rewrite <- Permutation_middle.
  - constructor; [|done]. by split_and!.
  - intros Hall x k [->|Hx]%elem_of_cons Hk'; [apply (Hr ltac:(intros; by apply (Hall b); [left|]) k Hk')|].
    apply (Hr' ltac:(intros ????; eapply Hall; [by right|done]) x k Hx Hk').
Qed.

Lemma lun_set_io_ok σ s e v i :
  lun_ok σ s → lun_ok σ (lun_set_io s e v i) ∧ ∀ off, lun_byte σ (lun_set_io s e v i) off = lun_byte σ s off.
Proof. done. Qed.

Lemma lun_enter_spec σ s :
  lun_ok σ s →
  ∃ s', lun_enter σ s = Some s' ∧ lun_ok σ s' ∧ (∀ off, lun_byte σ s' off = lun_byte σ s off) ∧
    lu_geom s' = lu_geom s ∧ lu_total_size s' = lu_total_size s ∧ lu_inprogress s' = lu_inprogress s + 1 ∧
    lu_used_size s' = lu_used_size s ∧ lu_hard_errors s' = lu_hard_errors s ∧
    lu_map_version s' = lu_notify_version s ∧ lu_notify_version s' = lu_notify_version s ∧
    (rids_known (isl_all (lu_isl s)) → rids_known (isl_all (lu_isl s'))).
Proof.
  intros Hs. unfold lun_enter. case_decide as Hv; [eexists; split; [done|]; by split_and!|].
  pose proof Hs as (_ & _ & [Hok _] & (Hrow & _) & _).
  destruct (remap_rows σ (isl_all (lu_isl s)) (lu_isl s) []) as (m & bs & -> & Hp & Hsim & Hr).
  { by rewrite app_nil_r. }
  { intros b Hb. split; [by eapply ranges_ok_valid|]. rewrite Forall_forall in Hrow.
    intros k Hk. by apply (Hrow b Hb). }
  rewrite app_nil_r in Hp. simpl. eexists. split; [done|].
  pose proof (lun_ok_isl σ (lun_set_io s (lu_hard_errors s) (lu_notify_version s) (lu_inprogress s + 1)) m (tr_rel σ) (isl_all (lu_isl s)) bs) as Hok'.
  destruct Hok' as [Hok1 Hb1]; [| |reflexivity|exact Hp|exact Hsim|exact Hs|].
  - intros c c' [rid ->] Hc. split; [by apply rs_translate_live|]. intros. by apply rs_translate_byte.
  - intros c1 c2 c' [r1 ->] [r2 He] Hl1 Hl2. by apply (rs_translate_inj σ r1 r2).
  - split; [exact Hok1|]. split; [exact Hb1|]. split_and!; try done.
    simpl. intros Hk b k Hb. rewrite Hp in Hb. by apply (Hr Hk).
Qed.

(** ** Forming the operations *)
Definition op_in (t : list (seglun_row C W * list lun_rw_row)) (slot : nat) o : Prop :=
  ∃ j rws, op_slot o = (slot + j)%nat ∧ t !! j = Some (op_row o, rws) ∧ rws !! op_dev o = Some (op_rw o) ∧
    row_cap (op_row o) (Z.of_nat (op_dev o)) = Some (op_cap o) ∧ rw_ex (op_rw o) ≠ [].

Lemma lun_form_row_spec now slot b ks : ∀ ub count dev rws,
  (∀ k, k ∈ ks → is_Some (bk_cap k) ∧ (ub = None ∨ is_Some (bk_rid k))) → length rws = length ks →
  ∃ ub' ops, lun_form_row now ub count slot dev b ks rws = Some (ub', ops) ∧ (ub = None → ub' = None) ∧
    (∀ o, o ∈ ops → op_slot o = slot ∧ op_row o = b ∧ rw_ex (op_rw o) ≠ [] ∧
       ∃ j, op_dev o = (dev + j)%nat ∧ rws !! j = Some (op_rw o) ∧ (ks !! j ≫= bk_cap) = Some (op_cap o)) ∧
    (∀ j r, rws !! j = Some r → rw_ex r ≠ [] → ∃ o, o ∈ ops ∧ op_dev o = (dev + j)%nat ∧ op_rw o = r) ∧
    NoDup (op_dev <$> ops).
Proof.
  induction ks as [|k ks IH]; intros ub count dev [|r rws] Hk Hlen; try done.
  { exists ub, []. split_and!; [done|done|by intros ? ?%not_elem_of_nil|by intros []|constructor]. }
  cbn [lun_form_row]. destruct (decide (rw_ex r = [])) as [Hr|Hr].
  - destruct (IH ub count (Datatypes.S dev) rws) as (ub' & ops & -> & Hu & Hops & Hall & Hnd);
      [intros x ?; apply Hk; by right|by injection Hlen|].
    exists ub', ops. split_and!; [done|done| | |done].
    + intros o Ho. destruct (Hops o Ho) as (? & ? & ? & j & Hj & ? & ?). split_and!; [done..|].
      exists (Datatypes.S j). split_and!; [lia|done|done].
    + intros [|j] r' Hr' Hne; [by injection Hr' as ->|]. destruct (Hall j r' Hr' Hne) as (o & ? & ? & ?).
      exists o. split_and!; [done|lia|done].
  - destruct (Hk k ltac:(by left)) as [[c Hc] Hrid]. unfold bk_cap in Hc.
    unfold bk_rid in Hrid. destruct (bk_data k) as [d|] eqn:Hd; [|done]. simpl in Hc, Hrid |- *. injection Hc as Hc.
    assert (∃ ub1 count1 skip, bl_ask now ub count (db_rid_key d) = Some (ub1, count1, skip) ∧ (ub = None → ub1 = None))
      as (ub1 & count1 & skip & -> & Hu1).
    { unfold bl_ask. destruct ub as [[bl max]|]; [|by do 3 eexists].
      destruct Hrid as [?|[rid ->]]; [done|]. simpl. destruct (bl_check now max bl count rid) as [[? ?] ?]. by do 3 eexists. }
    simpl. destruct (IH ub1 count1 (Datatypes.S dev) rws) as (ub' & ops & -> & Hu & Hops & Hall & Hnd).
    { intros x Hx. destruct (Hk x ltac:(by right)) as [? [->|?]]; split; auto. }
    { by injection Hlen. }
    simpl. eexists _, _. split; [done|]. split; [auto|]. split; [|split].
    + intros o [->|Ho]%elem_of_cons.
      * split_and!; [done..|]. exists 0%nat. simpl. split_and!; [lia|done|]. unfold bk_cap. by rewrite Hd.
      * destruct (Hops o Ho) as (? & ? & ? & j & Hj & ? & ?). split_and!; [done..|].
        exists (Datatypes.S j). split_and!; [lia|done|done].
    + intros [|j] r' Hr' Hne.
      * injection Hr' as <-. eexists. split; [by left|]. simpl. split; [lia|done].
      * destruct (Hall j r' Hr' Hne) as (o & ? & ? & ?). exists o. split_and!; [by right|lia|done].
    + rewrite fmap_cons. constructor; [|done]. simpl. intros (o & He & Ho)%list_elem_of_fmap.
      destruct (Hops o Ho) as (_ & _ & _ & j & Hj & _). lia.
Qed.

Lemma lun_form_spec now (t : list (seglun_row C W * list lun_rw_row)) : ∀ ub slot,
  (∀ b rws, (b, rws) ∈ t → length rws = length (sr_block b) ∧
     ∀ k, k ∈ sr_block b → is_Some (bk_cap k) ∧ (ub = None ∨ is_Some (bk_rid k))) →
  NoDup t.*1 →
  ∃ ub' ops, lun_form now ub slot t = Some (ub', ops) ∧ (ub = None → ub' = None) ∧ (∀ o, o ∈ ops → op_in t slot o) ∧
    (∀ b rws i r, (b, rws) ∈ t → rws !! i = Some r → rw_ex r ≠ [] →
       ∃ o, o ∈ ops ∧ op_row o = b ∧ op_dev o = i ∧ op_rw o = r) ∧
    NoDup ((λ o, (op_row o, op_dev o)) <$> ops).
Proof.
  induction t as [|[b rws] t IH]; intros ub slot Ht Hnd; cbn [lun_form].
  { exists ub, []. split_and!; [done|done|by intros ? ?%not_elem_of_nil|by intros ???? ?%not_elem_of_nil|constructor]. }
  destruct (Ht b rws ltac:(by left)) as [Hlen Hk]. rewrite fmap_cons in Hnd. apply NoDup_cons in Hnd as [Hb Hnd].
  destruct (lun_form_row_spec now slot b (sr_block b) ub 0 0%nat rws Hk Hlen) as (ub1 & ops1 & -> & Hu1 & Hops1 & Hall1 & Hnd1).
  simpl. destruct (IH ub1 (Datatypes.S slot)) as (ub' & ops & -> & Hu & Hops & Hall & Hnd2); [|done|].
  { intros x rx Hx. destruct (Ht x rx ltac:(by right)) as [? Hk']. split; [done|].
    intros k Hkx. destruct (Hk' k Hkx) as [? [->|?]]; split; auto. }
  simpl. exists ub', (ops1 ++ ops). split; [done|]. split; [auto|]. split; [|split].
  - intros o [Ho|Ho]%elem_of_app.
    + destruct (Hops1 o Ho) as (Hs & Hr & Hne & j & Hj & Hrw & Hc). simpl in Hj. subst j. exists 0%nat, rws.
      split_and!; [lia|by rewrite Hr|done| |done]. unfold row_cap. by rewrite Nat2Z.id, Hr.
    + destruct (Hops o Ho) as (j & rx & Hs & Hrest). exists (Datatypes.S j), rx. split; [lia|done].
  - intros x rx i r [[= -> ->]|Hx]%elem_of_cons Hr Hne.
    + destruct (Hall1 i r Hr Hne) as (o & Ho & Hd & He). exists o. split_and!; [apply elem_of_app; by left| |done|done].
      by apply Hops1.
    + destruct (Hall x rx i r Hx Hr Hne) as (o & Ho & ?). exists o. split; [apply elem_of_app; by right|done].
  - rewrite fmap_app. apply NoDup_app. split_and!; [| |done].
    + apply (NoDup_fmap_1 snd). rewrite <- list_fmap_compose. exact Hnd1.
    + intros [x i] (o1 & He1 & Ho1)%list_elem_of_fmap (o2 & He2 & Ho2)%list_elem_of_fmap.
      destruct (Hops1 o1 Ho1) as (_ & Hr1 & _). destruct (Hops o2 Ho2) as (j & rx & _ & Hj & _).
      apply Hb. apply list_elem_of_fmap. exists (op_row o2, rx). split; [simpl; congruence|by eapply list_elem_of_lookup_2].
Qed.

(** ** The operations of a request *)
Record ops_ok (g : lun_geom) (l : list (seglun_row C W)) (F : Z → Z) (boff e : Z) (ops : list (lun_op C W)) : Prop := {
  ops_each o : o ∈ ops → op_ok o ∧ op_row o ∈ l ∧ Z.of_nat (op_dev o) < n_devices g ∧
    row_cap (op_row o) (Z.of_nat (op_dev o)) = Some (op_cap o) ∧ dev_ok g F boff e (op_row o) (op_dev o) (op_rw o);
  ops_all q : boff ≤ q < e → ∃ o x, o ∈ ops ∧ (x, q) ∈ rw_pairs (op_rw o);
  ops_keys : NoDup ((λ o, (op_row o, op_dev o)) <$> ops) }.

Lemma tab_ops_ok now ub g l F boff e t slot :
  tab_ok g l F boff e t → Forall (row_ok g) l → ub = None ∨ rids_known l →
  ∃ ub' ops, lun_form now ub slot t = Some (ub', ops) ∧ (ub = None → ub' = None) ∧
    (∀ o, o ∈ ops → op_in t slot o) ∧ ops_ok g l F boff e ops.
Proof.
  intros (Hnd & Hdev & Hcov) Hrow Hub. rewrite Forall_forall in Hrow.
  destruct (lun_form_spec now t ub slot) as (ub' & ops & Hf & Hu & Hin & Hall & Hkeys); [|done|].
  { intros b rws Hb. destruct (Hdev b rws Hb) as (Hbl & Hlen & _). destruct (Hrow b Hbl) as (Hn & Hk & _).
    split; [lia|]. intros k Hkb. split; [by apply Hk|]. destruct Hub as [?|Hr]; [by left|right; by eapply Hr]. }
  exists ub', ops. split; [done|]. split; [done|]. split; [done|]. split; [|clear Hkeys|done].
  - intros o Ho. destruct (Hin o Ho) as (j & rws & _ & Hj & Hrw & Hc & Hne).
    apply list_elem_of_lookup_2 in Hj. destruct (Hdev _ _ Hj) as (Hb & Hlen & Hd). specialize (Hd _ _ Hrw).
    split; [split; [apply Hd|done]|]. split; [done|]. split; [|done]. apply lookup_lt_Some in Hrw. lia.
  - intros q Hq. destruct (Hcov q Hq) as (b & rws & i & r & x & Hb & Hr & Hx).
    destruct (Hall b rws i r Hb Hr) as (o & Ho & Hrow' & Hi & Hrw).
    { intros Hnil. unfold rw_pairs in Hx. rewrite Hnil in Hx. by apply not_elem_of_nil in Hx. }
    exists o, x. split; [done|]. by rewrite Hrw.
Qed.

Section ops_facts.
Context (g : lun_geom) (l : list (seglun_row C W)) (F : Z → Z) (boff e : Z) (ops : list (lun_op C W)).
Context (Hg : geom_ok g) (Hl : ranges_ok l) (Hrow : Forall (row_ok g) l) (Hcaps : NoDup (rows_caps l)).
Context (Hops : ops_ok g l F boff e ops).

Lemma ops_place o x q :
  o ∈ ops → (x, q) ∈ rw_pairs (op_rw o) →
  boff ≤ q < e ∧ row_pos g (op_row o) (Z.of_nat (op_dev o)) x = F q ∧ 0 ≤ x < sr_block_len (op_row o) ∧
  covers (F q) (op_row o).
Proof.
  intros Ho Hx. destruct (ops_each _ _ _ _ _ _ Hops o Ho) as (_ & Hb & Hd & _ & _ & _ & Hp).
  destruct (Hp x q Hx) as (Hq & Hxb & <-). split; [done|]. split; [done|]. split; [done|].
  unfold covers. simpl. apply row_pos_bounds; [done| |lia|done]. rewrite Forall_forall in Hrow. auto.
Qed.

Lemma ops_key_inj o o' : o ∈ ops → o' ∈ ops → op_row o = op_row o' → op_dev o = op_dev o' → o = o'.
Proof.
  intros [i Hi]%list_elem_of_lookup [j Hj]%list_elem_of_lookup Hr Hd. pose proof (ops_keys _ _ _ _ _ _ Hops) as Hk.
  assert (i = j) as ->; [|congruence].
  apply (NoDup_lookup _ i j (op_row o, op_dev o) Hk); rewrite list_lookup_fmap; [by rewrite Hi|].
  rewrite Hj. simpl. by rewrite Hr, Hd.
Qed.

(** A place of the segment belongs to one operation and one byte of it. *)
Lemma ops_unique o o' x x' q q' :
  o ∈ ops → o' ∈ ops → (x, q) ∈ rw_pairs (op_rw o) → (x', q') ∈ rw_pairs (op_rw o') → F q = F q' → o = o' ∧ x = x'.
Proof.
  intros Ho Ho' Hx Hx' HF.
  destruct (ops_place o x q Ho Hx) as (_ & Hp & Hb & Hc). destruct (ops_place o' x' q' Ho' Hx') as (_ & Hp' & Hb' & Hc').
  destruct (ops_each _ _ _ _ _ _ Hops o Ho) as (_ & Hl1 & Hd & _). destruct (ops_each _ _ _ _ _ _ Hops o' Ho') as (_ & Hl2 & Hd' & _).
  rewrite <- HF in Hc', Hp'. pose proof (ranges_ok_inj _ _ _ _ Hl Hl1 Hl2 Hc Hc') as Hr.
  rewrite <- Hr in Hp', Hb'. rewrite <- Hp' in Hp.
  destruct (row_pos_inj g Hg (op_row o) (Z.of_nat (op_dev o)) x (Z.of_nat (op_dev o')) x') as [Hdd ->]; [lia..|done|].
  split; [|done]. apply ops_key_inj; [done..|lia].
Qed.

Lemma ops_nodup : NoDup ops.
Proof. apply (NoDup_fmap_1 (λ o, (op_row o, op_dev o))), (ops_keys _ _ _ _ _ _ Hops). Qed.

Lemma ops_caps_inj o o' : o ∈ ops → o' ∈ ops → op_cap o = op_cap o' → o = o'.
Proof.
  intros Ho Ho' Hc. destruct (ops_each _ _ _ _ _ _ Hops o Ho) as (_ & Hl1 & Hd & Hc1 & _).
  destruct (ops_each _ _ _ _ _ _ Hops o' Ho') as (_ & Hl2 & Hd' & Hc2 & _). rewrite <- Hc in Hc2.
  destruct (rows_caps_inj g l _ _ _ _ _ Hrow Hcaps Hl1 Hl2 (Nat2Z.is_nonneg _) (Nat2Z.is_nonneg _) Hc1 Hc2) as [Hr Hdd].
  apply ops_key_inj; [done..|lia].
Qed.

Lemma ops_caps_nodup : NoDup (op_cap <$> ops).
Proof. apply NoDup_fmap_2_strong; [|apply ops_nodup]. intros o o' Ho Ho' Hc. by apply ops_caps_inj. Qed.

Lemma ops_are_ok : Forall op_ok ops.
Proof. apply Forall_forall. intros o Ho. by apply (ops_each _ _ _ _ _ _ Hops). Qed.

Lemma op_poss_elem o p : o ∈ ops → p ∈ op_poss o → ∃ x, (x, p) ∈ rw_pairs (op_rw o).
Proof.
  intros Ho Hp. apply list_elem_of_lookup in Hp as [k Hk].
  destruct (ops_each _ _ _ _ _ _ Hops o Ho) as ([[Hlen _] _] & _).
  destruct (lookup_lt_is_Some_2 (op_offs o) k) as [x Hx]. { apply lookup_lt_Some in Hk. unfold op_offs, op_poss in *. lia. }
  exists x. apply (list_elem_of_lookup_2 _ k). by apply op_pairs_lookup.
Qed.
Lemma op_offs_elem o x : o ∈ ops → x ∈ op_offs o → ∃ p, (x, p) ∈ rw_pairs (op_rw o).
Proof.
  intros Ho Hp. apply list_elem_of_lookup in Hp as [k Hk].
  destruct (ops_each _ _ _ _ _ _ Hops o Ho) as ([[Hlen _] _] & _).
  destruct (lookup_lt_is_Some_2 (op_poss o) k) as [p Hp]. { apply lookup_lt_Some in Hk. unfold op_offs, op_poss in *. lia. }
  exists p. apply (list_elem_of_lookup_2 _ k). by apply op_pairs_lookup.
Qed.
Lemma op_poss_in o x p : (x, p) ∈ rw_pairs (op_rw o) → p ∈ op_poss o ∧ x ∈ op_offs o.
Proof.
  intros [k Hk]%list_elem_of_lookup. apply op_pairs_lookup in Hk as [? ?]. split; by eapply list_elem_of_lookup_2.
Qed.
Lemma ops_only o p : o ∈ ops → p ∈ op_poss o → only_op ops o p.
Proof.
  intros Ho Hp o' Ho' Hp'. destruct (op_poss_elem o p Ho Hp) as [x Hx], (op_poss_elem o' p Ho' Hp') as [x' Hx'].
  symmetry. by apply (ops_unique o o' x x' p p).
Qed.

(** The byte of the segment at a place of an operation. *)
Lemma ops_byte σ o x q :
  o ∈ ops → (x, q) ∈ rw_pairs (op_rw o) → rows_byte g σ l (F q) = ds_byte σ (op_cap o) x.
Proof.
  intros Ho Hx. destruct (ops_place o x q Ho Hx) as (_ & Hp & Hb & Hc).
  destruct (ops_each _ _ _ _ _ _ Hops o Ho) as (_ & Hlo & Hd & Hcap & _).
  unfold rows_byte. rewrite (find_cover_Some _ _ (op_row o)) by done. unfold row_byte.
  replace (F q - sr_seg_offset (op_row o)) with (lun_pos g (Z.of_nat (op_dev o)) x) by (unfold row_pos in Hp; lia).
  rewrite (lun_addr_pos g Hg) by lia. by rewrite Hcap.
Qed.
End ops_facts.

(** ** Counting errors *)
Lemma lun_maxerr_spec n (res : list (lun_op C W * op_status)) :
  (∀ k, (k < n)%nat → slot_errs res k ≤ lun_maxerr n res) ∧ 0 ≤ lun_maxerr n res ∧
  (lun_maxerr n res = 0 ∨ ∃ k, (k < n)%nat ∧ lun_maxerr n res = slot_errs res k).
Proof.
  unfold lun_maxerr. induction n as [|n IH]; [split_and!; [lia|done|by left]|].
  rewrite seq_S, foldl_app. simpl. set (m := foldl _ 0 (seq 0 n)) in *. destruct IH as (Hle & Hnn & Hex).
  assert (0 ≤ slot_errs res n) as Hn by (unfold slot_errs; lia).
  case_decide as Hgt; split_and!.
  - intros k Hk. destruct (decide (k = n)) as [->|]; [done|]. specialize (Hle k ltac:(lia)). lia.
  - lia.
  - right. exists n. split; [lia|done].
  - intros k Hk. destruct (decide (k = n)) as [->|]; [lia|]. apply Hle. lia.
  - done.
  - destruct Hex as [?|(k & ? & ?)]; [by left|right]. exists k. split; [lia|done].
Qed.

(** No error is counted exactly when no operation failed. *)
Lemma lun_maxerr_zero n (res : list (lun_op C W * op_status)) :
  (∀ x, x ∈ res → (op_slot x.1 < n)%nat) →
  lun_maxerr n res = 0 ↔ ∀ x, x ∈ res → op_st x.2 = OP_STATE_SUCCESS.
Proof.
  intros Hslot. destruct (lun_maxerr_spec n res) as (Hle & Hnn & Hex). split.
  - intros Hz x Hx. destruct (decide (op_failed x)) as [Hf|Hf].
    + specialize (Hle _ (Hslot x Hx)). unfold slot_errs in Hle.
      assert (x ∈ filter (λ y, op_slot y.1 = op_slot x.1 ∧ op_failed y) res) as Hin by (by apply list_elem_of_filter).
      destruct (filter _ res) eqn:Hfl; [by apply not_elem_of_nil in Hin|]. simpl in Hle. lia.
    + by apply dec_stable.
  - intros Hall. destruct Hex as [?|(k & Hk & ->)]; [done|]. unfold slot_errs.
    assert (filter (λ x, op_slot x.1 = k ∧ op_failed x) res = []) as ->; [|done].
    apply filter_nil_iff. intros x Hx [_ Hf]. by apply Hf, Hall.
Qed.

Lemma lun_bumps_ok write σ (res : list (lun_op C W * op_status)) : ∀ s,
  lun_ok σ s →
  lun_ok σ (lun_set_isl s (foldl (lun_bump write) (lu_isl s) res)) ∧
  ∀ off, lun_byte σ (lun_set_isl s (foldl (lun_bump write) (lu_isl s) res)) off = lun_byte σ s off.
Proof.
  induction res as [|x res IH]; intros s Hs; [by destruct s|]. cbn [foldl].
  destruct (lun_bump_ok write σ s x Hs) as [Hs1 Hb1]. destruct (IH _ Hs1) as [Hs2 Hb2].
  split; [exact Hs2|]. intros off. etransitivity; [apply Hb2|apply Hb1].
Qed.

Lemma lun_ok_store σ σ' s :
  (∀ c, ds_live σ c → ds_live σ' c) → lun_ok σ s → lun_ok σ' s.
Proof. intros Hl (? & ? & ? & (? & ? & Hlive) & Hrest).
  split; [done|]. split; [done|]. split; [done|]. split; [|done]. split; [done|]. split; auto.
Qed.

(** ** The operation as a whole *)
Definition lun_request_ok s (iov : list ex_iovec) (boff : Z) (ub : option (blacklist * Z)) : Prop :=
  iov ≠ [] ∧ iov_within (lu_total_size s) iov ∧ 0 ≤ boff ∧ boff + iov_total iov ≤ tbuffer_size ∧
  (ub = None ∨ rids_known (isl_all (lu_isl s))).

(** What a request does not change. *)
Definition lun_kept s s' : Prop :=
  lu_geom s' = lu_geom s ∧ lu_total_size s' = lu_total_size s ∧ lu_used_size s' = lu_used_size s ∧
  lu_hard_errors s' = lu_hard_errors s ∧ lu_inprogress s' = lu_inprogress s.

Lemma seglun_rw_op_runs write tm hints bl σ s iov buf boff :
  lun_ok σ s → lun_request_ok s iov boff (bl_use bl hints) →
  ∃ s1 ops, lun_enter σ s = Some s1 ∧ lun_ok σ s1 ∧ (∀ off, lun_byte σ s1 off = lun_byte σ s off) ∧
    lu_geom s1 = lu_geom s ∧ (∀ m, lun_kept s (lun_leave (lun_set_isl s1 m))) ∧
    ops_ok (lu_geom s1) (isl_all (lu_isl s1)) (iov_pos iov boff) boff (boff + iov_total iov) ops ∧
    (∀ σ' buf' res, lun_run write σ buf ops = (σ', buf', res) → res.*1 = ops →
       ∃ bl' st, let s2 := lun_set_isl s1 (foldl (lun_bump write) (lu_isl s1) res) in
         seglun_rw_op write tm hints bl σ s iov buf boff =
           Some (σ', lun_leave s2, if write then buf' else foldl buf_blank buf' res, bl', res, st) ∧
         (bl_use bl hints = None → bl' = bl) ∧
         (op_st st = OP_STATE_SUCCESS ↔ ∀ x, x ∈ res → op_st x.2 = OP_STATE_SUCCESS) ∧
         (op_st st = OP_STATE_SUCCESS ∨
            error_code st > 0 ∧ (∃ k, error_code st = slot_errs res k) ∧ ∀ k, slot_errs res k ≤ error_code st)).
Proof.
  intros Hs (Hne & Hw & Hb0 & Hsz & Hub).
  destruct (lun_enter_spec σ s Hs) as (s1 & He & Hs1 & Hby & Hgs & Hts & Hip & Hus & Hhe & _ & _ & Hrid).
  rewrite <- Hts in Hw. pose proof (lun_table_ok σ s1 iov boff Hs1 Hw Hb0 Hsz) as Htab.
  pose proof Hs1 as (_ & _ & _ & (Hrow & _) & _).
  destruct (tab_ops_ok (tm_now tm) (bl_use bl hints) _ _ _ _ _ _ 0 Htab Hrow) as (ub' & ops & Hf & Hu & Hin & Hops).
  { destruct Hub; [by left|right; auto]. }
  exists s1, ops. split; [done|]. split; [done|]. split; [done|]. split; [done|].
  split; [intros m; split_and!; try done; simpl; lia|]. split; [done|]. intros σ' buf' res Hrun Hres.
  unfold seglun_rw_op. rewrite He. cbn [mbind option_bind]. rewrite Hf. cbn [mbind option_bind]. rewrite Hrun.
  assert (Hslot : ∀ x, x ∈ res → (op_slot x.1 < length (lun_table s1 iov boff))%nat).
  { intros x Hx. destruct (Hin x.1) as (j & rws & Hsl & Hj & _).
    { rewrite <- Hres. by apply list_elem_of_fmap_2. }
    apply lookup_lt_Some in Hj. rewrite Hsl. simpl. lia. }
  assert (ops ≠ []) as Hone.
  { destruct iov as [|v iov]; [done|]. apply Forall_cons in Hw as [(_ & Hlen & _) Hw'].
    pose proof (iov_total_nonneg iov (iov_within_ok _ _ Hw')). simpl in Hops.
    destruct (ops_all _ _ _ _ _ _ Hops boff ltac:(lia)) as (o & x & Ho & _). intros ->. by apply not_elem_of_nil in Ho. }
  destruct res as [|x0 res0] eqn:Hr0; [by subst ops|]. rewrite <- Hr0 in *. clear Hr0.
  pose proof (lun_maxerr_zero _ _ Hslot) as Hz. pose proof (lun_maxerr_spec (length (lun_table s1 iov boff)) res) as (Hle & Hnn & Hex).
  do 2 eexists. split; [done|]. split; [|split].
  - intros Hnone. unfold bl_observe. by rewrite (Hu Hnone).
  - rewrite <- Hz. case_decide as Hm; [by rewrite op_success_state|]. simpl. split; [done|by intros ?%Hm].
  - case_decide as Hm; [left; by rewrite op_success_state|right]. simpl. split; [lia|]. split.
    + destruct Hex as [?|(k & _ & ?)]; [done|]. by exists k.
    + intros k. destruct (decide (k < length (lun_table s1 iov boff))%nat); [by apply Hle|].
      unfold slot_errs. assert (filter (λ x, op_slot x.1 = k ∧ op_failed x) res = []) as ->; [|simpl; lia].
      apply filter_nil_iff. intros x Hx [Hk _]. specialize (Hslot x Hx). lia.
Qed.

(** ** Reading and writing *)

(** The operation of the device behind an offset failed. *)
Definition device_failed (g : lun_geom) (res : list (lun_op C W * op_status)) (off : Z) : Prop :=
  ∃ x, x ∈ res ∧ op_failed x ∧ covers off (op_row x.1) ∧
    (lun_addr g (off - sr_seg_offset (op_row x.1))).1 = Z.of_nat (op_dev x.1).

Lemma res_status (ops : list (lun_op C W)) (res : list (lun_op C W * op_status)) o st st' :
  res.*1 = ops → NoDup ops → (o, st) ∈ res → (o, st') ∈ res → st = st'.
Proof.
  intros <- Hnd [i Hi]%list_elem_of_lookup [j Hj]%list_elem_of_lookup.
  assert (i = j) as ->; [|congruence].
  apply (NoDup_lookup _ i j o Hnd); rewrite list_lookup_fmap; [by rewrite Hi|by rewrite Hj].
Qed.

Section results.
Context (g : lun_geom) (l : list (seglun_row C W)) (F : Z → Z) (boff e : Z) (ops : list (lun_op C W)).
Context (Hg : geom_ok g) (Hl : ranges_ok l) (Hrow : Forall (row_ok g) l) (Hcaps : NoDup (rows_caps l)).
Context (Hops : ops_ok g l F boff e ops) (res : list (lun_op C W * op_status)) (Hres : res.*1 = ops).

Lemma res_op o st : (o, st) ∈ res → o ∈ ops.
Proof. intros Ho. rewrite <- Hres. apply list_elem_of_fmap. by exists (o, st). Qed.

Lemma device_failed_at o st x q :
  (o, st) ∈ res → (x, q) ∈ rw_pairs (op_rw o) → device_failed g res (F q) ↔ op_failed (o, st).
Proof.
  intros Ho Hx. pose proof (res_op _ _ Ho) as Hop.
  destruct (ops_place g l F boff e ops Hg Hrow Hops o x q Hop Hx) as (_ & Hp & Hb & Hc).
  destruct (ops_each _ _ _ _ _ _ Hops o Hop) as (_ & Hlo & Hd & _).
  assert ((lun_addr g (F q - sr_seg_offset (op_row o))).1 = Z.of_nat (op_dev o)) as Ha.
  { rewrite <- Hp. unfold row_pos. replace (sr_seg_offset (op_row o) + lun_pos g (Z.of_nat (op_dev o)) x - sr_seg_offset (op_row o))
      with (lun_pos g (Z.of_nat (op_dev o)) x) by lia. by rewrite (lun_addr_pos g Hg) by lia. }
  split; [|by intros Hf; exists (o, st)]. intros ([o' st'] & Ho' & Hf & Hc' & Ha'). simpl in *.
  pose proof (res_op _ _ Ho') as Hop'. destruct (ops_each _ _ _ _ _ _ Hops o' Hop') as (_ & Hlo' & _).
  pose proof (ranges_ok_inj _ _ _ _ Hl Hlo Hlo' Hc Hc') as Hr. rewrite <- Hr in Ha'.
  assert (o = o') as <- by (apply (ops_key_inj g l F boff e ops Hops); [done..|lia]).
  by rewrite (res_status ops res o st st' Hres (ops_nodup g l F boff e ops Hops) Ho Ho').
Qed.
End results.

(** A read of whole requests inside the segment returns; it leaves the
    segment as it was, delivers the byte of the segment for every buffer
    position whose device answered and zero for the others, touches nothing else
    of the buffer, and succeeds exactly when every device did.  Otherwise the
    error code is the largest number of devices lost in one row. *)
Lemma seglun_read_op_spec tm hints bl σ s iov buf boff :
  lun_ok σ s → lun_request_ok s iov boff (bl_use bl hints) →
  ∃ σ' s' buf' bl' res st, seglun_rw_op false tm hints bl σ s iov buf boff = Some (σ', s', buf', bl', res, st) ∧
    lun_ok σ' s' ∧ (∀ off, lun_byte σ' s' off = lun_byte σ s off) ∧
    (∀ p, ¬ (boff ≤ p < boff + iov_total iov) → buf' p = buf p) ∧
    (∀ p, boff ≤ p < boff + iov_total iov →
       (device_failed (lu_geom s) res (iov_pos iov boff p) → buf' p = 0) ∧
       (¬ device_failed (lu_geom s) res (iov_pos iov boff p) → buf' p = lun_byte σ s (iov_pos iov boff p))) ∧
    lun_kept s s' ∧
    (op_st st = OP_STATE_SUCCESS ↔ ∀ x, x ∈ res → op_st x.2 = OP_STATE_SUCCESS) ∧
    (op_st st = OP_STATE_SUCCESS ∨
       error_code st > 0 ∧ (∃ k, error_code st = slot_errs res k) ∧ ∀ k, slot_errs res k ≤ error_code st).
Proof.
  intros Hs Hreq.
  destruct (seglun_rw_op_runs false tm hints bl σ s iov buf boff Hs Hreq) as (s1 & ops & He & Hs1 & Hby & Hgs & Hkept & Hops & Hrun).
  pose proof Hs1 as (Hg & _ & [Hok _] & (Hrow & Hcaps & _) & _).
  pose proof (ops_are_ok _ _ _ _ _ _ Hops) as Hall. pose proof (ops_nodup _ _ _ _ _ _ Hops) as Hnd.
  pose proof (lun_run_reads ops σ buf Hall Hnd) as Hr.
  destruct (lun_run false σ buf ops) as [[σ' buf'] res]. destruct Hr as (Hst & Hres & Hfr & Hb).
  destruct (Hrun σ' buf' res eq_refl Hres) as (bl' & st & -> & _ & Hsucc & Herr).
  assert (lun_ok σ' s1) as Hs1' by (by apply (lun_ok_store σ); [intros c; apply (Hst c 0)|]).
  destruct (lun_bumps_ok false σ' res s1 Hs1') as [Hs2 Hb2].
  do 6 eexists. split; [done|]. split; [exact Hs2|]. split; [|split; [|split; [|split; [apply Hkept|done]]]].
  - intros off. etransitivity; [apply Hb2|]. rewrite <- Hby. unfold lun_byte, rows_byte.
    destruct (find_cover off _) as [b|]; [|done]. unfold row_byte. destruct (lun_addr _ _) as [i x].
    destruct (row_cap b i); [|done]. apply Hst.
  - intros p Hp. rewrite buf_blanks by (by rewrite Hres).
    assert (∀ o, o ∈ ops → p ∉ op_poss o) as Hno.
    { intros o Ho Hpo. destruct (op_poss_elem _ _ _ _ _ _ Hops o p Ho Hpo) as [x Hx].
      by destruct (ops_place _ _ _ _ _ _ Hg Hrow Hops o x p Ho Hx) as [? _]. }
    rewrite decide_False; [by apply Hfr|]. intros ([o st'] & Ho & _ & Hpo)%Exists_exists.
    apply (Hno o); [by apply (res_op ops res Hres o st')|done].
  - intros p Hp. rewrite buf_blanks by (by rewrite Hres).
    destruct (ops_all _ _ _ _ _ _ Hops p Hp) as (o & x & Ho & Hx).
    assert (∃ st', (o, st') ∈ res) as [st' Hin].
    { rewrite <- Hres in Ho. apply list_elem_of_fmap in Ho as ([o' st'] & -> & ?). by exists st'. }
    rewrite <- Hgs. rewrite (device_failed_at _ _ _ _ _ _ Hg Hok Hrow Hops res Hres o st' x p Hin Hx).
    destruct (op_poss_in o x p Hx) as [Hpo _].
    pose proof (ops_only _ _ _ _ _ _ Hg Hok Hrow Hops o p Ho Hpo) as Honly. split.
    + intros Hf. rewrite decide_True; [done|]. apply Exists_exists. by exists (o, st').
    + intros Hf. rewrite decide_False.
      * destruct (Hb o st' p Hin ltac:(by apply dec_stable) Hpo Honly) as (x' & Hx' & ->).
        rewrite <- Hby. unfold lun_byte. symmetry. by apply (ops_byte _ _ _ _ _ _ Hg Hok Hrow Hops).
      * intros ([o2 st2] & Hin2 & Hf2 & Hp2)%Exists_exists. simpl in *.
        assert (o2 = o) as -> by (apply Honly; [by apply (res_op ops res Hres o2 st2)|done]).
        by rewrite (res_status ops res o st2 st' Hres Hnd Hin2 Hin) in Hf2.
Qed.

(** The pairs of an operation in order: the last one for a byte has the largest
    buffer position. *)
Lemma pairs_last g F boff e b i r f buf x :
  dev_ok g F boff e b i r → x ∈ (rw_pairs r).*1 →
  ∃ q, (x, q) ∈ rw_pairs r ∧ vec_put f (rw_pairs r) buf x = buf q ∧ ∀ q', (x, q') ∈ rw_pairs r → q' ≤ q.
Proof.
  intros (_ & Hsort & _) Hx. destruct (vec_put_last (rw_pairs r) f buf x Hx) as (k & q & Hk & Hmax & Hv).
  exists q. split; [by eapply list_elem_of_lookup_2|]. split; [done|].
  intros q' [j Hj]%list_elem_of_lookup. specialize (Hmax j q' Hj).
  destruct (decide (j = k)) as [->|]; [assert (q = q') by congruence; lia|].
  assert ((rw_pairs r).*2 !! j = Some q') as Hj2 by (by rewrite list_lookup_fmap, Hj).
  assert ((rw_pairs r).*2 !! k = Some q) as Hk2 by (by rewrite list_lookup_fmap, Hk).
  assert (q' < q); [|lia]. rewrite <- (take_drop k (rw_pairs r).*2) in Hsort.
  apply (StronglySorted_app_1_elem_of Z.lt _ _ _ _ Hsort).
  - apply (list_elem_of_lookup_2 _ j). rewrite lookup_take_lt; [done|lia].
  - apply (list_elem_of_lookup_2 _ 0). by rewrite lookup_drop, Nat.add_0_r.
Qed.

Section written.
Context (g : lun_geom) (l : list (seglun_row C W)) (iov : list ex_iovec) (boff : Z) (ops : list (lun_op C W)).
Context (Hg : geom_ok g) (Hl : ranges_ok l) (Hrow : Forall (row_ok g) l) (Hcaps : NoDup (rows_caps l)).
Context (Hiov : iov_ok iov).
Context (Hops : ops_ok g l (iov_pos iov boff) boff (boff + iov_total iov) ops).

(** The offset [off] is byte [x] of the operation [o]. *)
Lemma overlay_at_op o x off f c buf :
  o ∈ ops → row_pos g (op_row o) (Z.of_nat (op_dev o)) x = off → 0 ≤ x → covers off (op_row o) → c x = f off →
  vec_put c (rw_pairs (op_rw o)) buf x = iov_overlay f iov buf boff off.
Proof.
  intros Ho Hp Hx Hc Hcf. pose proof (ops_each _ _ _ _ _ _ Hops o Ho) as (_ & Hlo & Hd & _ & Hdev).
  assert (∀ q, boff ≤ q < boff + iov_total iov → iov_pos iov boff q = off → (x, q) ∈ rw_pairs (op_rw o)) as Hall.
  { intros q Hq Hpos. destruct (ops_all _ _ _ _ _ _ Hops q Hq) as (o' & x' & Ho' & Hx').
    destruct (ops_place _ _ _ _ _ _ Hg Hrow Hops o' x' q Ho' Hx') as (_ & Hp' & Hb' & Hc').
    pose proof (ops_each _ _ _ _ _ _ Hops o' Ho') as (_ & Hlo' & Hd' & _). rewrite Hpos in Hp', Hc'.
    pose proof (ranges_ok_inj _ _ _ _ Hl Hlo Hlo' Hc Hc') as Hr. rewrite <- Hr, <- Hp in Hp'.
    destruct (row_pos_inj g Hg (op_row o) (Z.of_nat (op_dev o')) x' (Z.of_nat (op_dev o)) x) as [Hdd ->]; [lia..|done|].
    by rewrite (ops_key_inj _ _ _ _ _ _ Hops o o' Ho Ho') by (done || lia). }
  destruct (iov_overlay_pos iov buf off f boff Hiov) as [(q & Hq & Hpos & -> & Hmax)|[-> Hno]].
  - pose proof (Hall q Hq Hpos) as Hin.
    destruct (pairs_last g _ _ _ _ _ _ c buf x Hdev) as (q2 & Hin2 & -> & Hmax2).
    { apply list_elem_of_fmap. by exists (x, q). }
    destruct Hdev as (_ & _ & Hpl). destruct (Hpl x q2 Hin2) as (Hq2 & _ & Hpos2).
    pose proof (Hmax2 q Hin). pose proof (Hmax q2 Hq2 ltac:(by rewrite <- Hpos2)). by replace q2 with q by lia.
  - rewrite vec_put_notin; [done|]. intros ([x' q] & -> & Hin)%list_elem_of_fmap. simpl in *.
    destruct Hdev as (_ & _ & Hpl). destruct (Hpl x' q Hin) as (Hq & _ & Hpos). by apply (Hno q); [|rewrite <- Hpos].
Qed.

Lemma written_byte σ σ' buf (res : list (lun_op C W * op_status)) off :
  res.*1 = ops →
  (∀ c i, (∀ o, o ∈ ops → op_cap o = c → i ∉ op_offs o) → ds_byte σ' c i = ds_byte σ c i) →
  (∀ o st i, (o, st) ∈ res → op_st st = OP_STATE_SUCCESS →
     ds_byte σ' (op_cap o) i = vec_put (ds_byte σ (op_cap o)) (rw_pairs (op_rw o)) buf i) →
  ¬ device_failed g res off ∨ (∀ q, boff ≤ q < boff + iov_total iov → iov_pos iov boff q ≠ off) →
  rows_byte g σ' l off = iov_overlay (rows_byte g σ l) iov buf boff off.
Proof.
  intros Hres Hfr Hwr Hoff. destruct (find_cover off l) as [b|] eqn:Hf; cycle 1.
  { assert (∀ τ, rows_byte g τ l off = 0) as Hz by (intros; unfold rows_byte; by rewrite Hf).
    rewrite Hz. destruct (iov_overlay_pos iov buf off (rows_byte g σ l) boff Hiov) as [(q & Hq & Hpos & _)|[-> _]]; [|by rewrite Hz].
    destruct (ops_all _ _ _ _ _ _ Hops q Hq) as (o & x & Ho & Hx).
    destruct (ops_place _ _ _ _ _ _ Hg Hrow Hops o x q Ho Hx) as (_ & _ & _ & Hc).
    pose proof (ops_each _ _ _ _ _ _ Hops o Ho) as (_ & Hlo & _). rewrite Hpos in Hc.
    rewrite find_cover_None in Hf. by destruct (Hf _ Hlo). }
  apply find_cover_in in Hf as [Hb Hc]. assert (row_ok g b) as Hbo by (rewrite Forall_forall in Hrow; auto).
  pose proof (row_addr_bounds g Hg b off Hbo Hc) as Ha.
  assert (Hbyte : ∀ τ, rows_byte g τ l off = row_byte g τ b off).
  { intros τ. unfold rows_byte. by rewrite (find_cover_Some off l b). }
  destruct (lun_addr g (off - sr_seg_offset b)) as [i x] eqn:Hadr. destruct Ha as (Hi & Hx & Hp).
  destruct (row_cap_is g b i Hbo Hi) as [c Hcap].
  assert (Hrb : ∀ τ, rows_byte g τ l off = ds_byte τ c x).
  { intros τ. rewrite Hbyte. unfold row_byte. by rewrite Hadr, Hcap. }
  assert (∀ o, o ∈ ops → op_cap o = c → op_row o = b ∧ Z.of_nat (op_dev o) = i) as Hkey.
  { intros o Ho Hoc. pose proof (ops_each _ _ _ _ _ _ Hops o Ho) as (_ & Hlo & _ & Hco & _). rewrite Hoc in Hco.
    apply (rows_caps_inj g l _ _ _ _ c Hrow Hcaps); [done|done|lia|lia|done|done]. }
  rewrite (Hrb σ'). destruct (decide (Exists (λ o, op_cap o = c) ops)) as [He|Hne].
  - apply Exists_exists in He as (o & Ho & Hoc). destruct (Hkey o Ho Hoc) as [Hr Hd].
    assert (∃ st, (o, st) ∈ res) as [st Hin].
    { rewrite <- Hres in Ho. apply list_elem_of_fmap in Ho as ([o' st] & -> & ?). by exists st. }
    assert (c = op_cap o) as -> by done.
    destruct (decide (op_failed (o, st))) as [Hfail|Hok]; cycle 1.
    + rewrite (Hwr o st x Hin) by (by apply dec_stable).
      apply overlay_at_op; [done|by rewrite Hr, Hd|lia|by rewrite Hr|by rewrite Hrb].
    + destruct Hoff as [Hnf|Hno].
      { destruct Hnf. exists (o, st). change (o, st).1 with o. rewrite Hr, Hadr. done. }
      rewrite Hfr; [rewrite <- Hrb; symmetry|].
      * destruct (iov_overlay_pos iov buf off (rows_byte g σ l) boff Hiov) as [(q & Hq & Hpos & _)|[-> _]]; [by destruct (Hno q)|done].
      * intros o' Ho' Hc' Hx'. pose proof (ops_caps_inj _ _ _ _ _ _ Hrow Hcaps Hops o' o Ho' Ho Hc') as ->.
        destruct (op_offs_elem _ _ _ _ _ _ Hops o x Ho Hx') as [q Hq].
        destruct (ops_place _ _ _ _ _ _ Hg Hrow Hops o x q Ho Hq) as (Hq1 & Hq2 & _).
        apply (Hno q); [done|]. by rewrite <- Hq2, Hr, Hd.
  - rewrite Hfr; [|intros o Ho Hoc; destruct Hne; apply Exists_exists; by exists o].
    rewrite <- Hrb. symmetry.
    destruct (iov_overlay_pos iov buf off (rows_byte g σ l) boff Hiov) as [(q & Hq & Hpos & _)|[-> _]]; [|done].
    destruct Hne. destruct (ops_all _ _ _ _ _ _ Hops q Hq) as (o & x' & Ho & Hx').
    destruct (ops_place _ _ _ _ _ _ Hg Hrow Hops o x' q Ho Hx') as (_ & Hpp & Hb' & Hc').
    pose proof (ops_each _ _ _ _ _ _ Hops o Ho) as (_ & Hlo & Hd & Hco & _). rewrite Hpos in Hpp, Hc'.
    pose proof (ranges_ok_inj _ _ _ _ Hl Hb Hlo Hc Hc') as Hr. rewrite <- Hr, <- Hp in Hpp. rewrite <- Hr in Hco.
    destruct (row_pos_inj g Hg b (Z.of_nat (op_dev o)) x' i x) as [Hdd _]; [lia..|done|].
    apply Exists_exists. exists o. split; [done|]. rewrite Hdd in Hco. congruence.
Qed.
End written.

(** A write of whole requests inside the segment returns and keeps the
    segment well formed.  Every byte outside the request is unchanged, and every
    byte whose device did not fail is the old contents overlaid with the
    request; the status is success exactly when every device answered. *)
Lemma seglun_write_op_spec tm hints bl σ s iov buf boff :
  lun_ok σ s → lun_request_ok s iov boff (bl_use bl hints) →
  ∃ σ' s' bl' res st, seglun_rw_op true tm hints bl σ s iov buf boff = Some (σ', s', buf, bl', res, st) ∧
    lun_ok σ' s' ∧ lun_kept s s' ∧
    (∀ off, ¬ device_failed (lu_geom s) res off ∨ (∀ q, boff ≤ q < boff + iov_total iov → iov_pos iov boff q ≠ off) →
       lun_byte σ' s' off = iov_overlay (lun_byte σ s) iov buf boff off) ∧
    (op_st st = OP_STATE_SUCCESS ↔ ∀ x, x ∈ res → op_st x.2 = OP_STATE_SUCCESS) ∧
    (op_st st = OP_STATE_SUCCESS → ∀ off, ¬ device_failed (lu_geom s) res off).
Proof.
  intros Hs Hreq.
  destruct (seglun_rw_op_runs true tm hints bl σ s iov buf boff Hs Hreq) as (s1 & ops & He & Hs1 & Hby & Hgs & Hkept & Hops & Hrun).
  pose proof Hs1 as (Hg & _ & [Hok _] & (Hrow & Hcaps & _) & _). destruct Hreq as (_ & Hw & _).
  pose proof (lun_run_writes ops σ buf (ops_are_ok _ _ _ _ _ _ Hops)
    (ops_caps_nodup _ _ _ _ _ _ Hrow Hcaps Hops)) as Hr.
  destruct (lun_run true σ buf ops) as [[σ' buf'] res]. destruct Hr as (-> & Hlive & Hres & Hfr & Hwr).
  destruct (Hrun σ' buf res eq_refl Hres) as (bl' & st & -> & _ & Hsucc & _).
  destruct (lun_bumps_ok true σ' res s1 ltac:(by apply (lun_ok_store σ))) as [Hs2 Hb2].
  do 5 eexists. split; [done|]. split; [exact Hs2|]. split; [apply Hkept|]. split; [|split; [done|]].
  - intros off Hoff. etransitivity; [apply Hb2|]. rewrite <- Hgs in Hoff.
    unfold lun_byte at 1. rewrite (written_byte _ _ iov boff ops Hg Hok Hrow Hcaps (iov_within_ok _ _ Hw) Hops σ σ' buf res off Hres Hfr Hwr Hoff).
    apply iov_overlay_ext; [by apply (iov_within_ok (lu_total_size s))|exact Hby|done].
  - intros Hst off (x & Hx & Hf & _). by apply Hf, Hsucc.
Qed.
End rw_spec.
