(* ===== verification/LunSize.v ===== *)
(** * LUN segments: resizing (segment_lun.c)

    Checking and padding the blocks of a row, replacing missing ones, and the
    growing and shrinking built from these. *)
From stdpp Require Import strings gmap.
From S2P Require Import Prelude Isl Seg Inip DataBlock DataStore LunMap LunStore LunSeg.
#[local] Open Scope Z_scope.

Definition RS_ERROR_NOT_ENOUGH_RIDS : Z := -101.
Definition RS_ERROR_EMPTY_STACK : Z := -105.

Section lun_size.
Context {C W Q S : Type} `{!CapSet C W, !DataStore C Q S, !LunStore C Q S, !Gop, !ISL (seglun_row C W)}.
Abbreviation block := (seglun_block C W).
Abbreviation row := (seglun_row C W).
Abbreviation lun := (seglun_priv C W Q).

(** ** The blocks of a row *)

Definition bk_set_data (k : block) (d : data_block C W) : block :=
  Seglun_block (Some d) (bk_cap_offset k) (bk_read_errs k) (bk_write_errs k).

(** A pass over the devices of a row and their statuses: each step gives the
    new block, its status and how much it adds to the error count.  [None] is a
    missing data block. *)
Fixpoint row_devs (f : S → block → Z → option (S * block * Z * Z)) (σ : S) (ks : list block) (sts : list Z)
    : option (S * list block * list Z * Z) :=
  match ks, sts with
  | k :: ks, st :: sts =>
      '(σ, k, st, n) ← f σ k st;
      '(σ, ks, sts, m) ← row_devs f σ ks sts;
      Some (σ, k :: ks, st :: sts, n + m)
  | _, _ => Some (σ, [], [], 0)
  end.

(** [slun_row_size_check]: all the probes come first, in the state [σ0]; then
    the blocks that are too small are resized. *)
Definition size_dev (σ0 : S) (blen : Z) (σ : S) (k : block) (st : Z) : option (S * block * Z * Z) :=
  d ← bk_data k;
  let psize := ds_probe_max σ0 (db_cap d) in
  let seg_size := bk_cap_offset k + blen in
  Some (if decide (psize < seg_size) then
          if decide (psize = 0) then (σ, k, 1, 1)
          else let '(σ, ts) := ds_truncate σ (db_cap d) seg_size in
               if decide (op_st ts = OP_STATE_SUCCESS)
               then (σ, bk_set_data k (db_set_sizes d (db_size d) blen), 2, 0) else (σ, k, -2, 1)
        else (σ, k, st, 0)).
Definition slun_row_size_check (σ : S) (b : row) (sts : list Z) : option (S * row * list Z * Z) :=
  '(σ, ks, sts, n) ← row_devs (size_dev σ (sr_block_len b)) σ (sr_block b) sts;
  Some (σ, row_set_blocks b ks, sts, n).

(** [slun_row_pad_fix] *)
Definition pad_dev (σ : S) (k : block) (st : Z) : option (S * block * Z * Z) :=
  if decide (st = 2) then
    d ← bk_data k;
    let '(σ, ws) := ds_write σ (db_cap d) (bk_cap_offset k + db_max_size d - 1) (λ _, 0) 0 1 in
    Some (if decide (op_st ws = OP_STATE_SUCCESS)
          then (σ, bk_set_data k (db_set_sizes d (db_max_size d) (db_max_size d)), 0, 0) else (σ, k, 3, 1))
  else Some (σ, k, if decide (st = -2) then 3 else st, if decide (st = -2) then 1 else 0).
Definition slun_row_pad_fix (σ : S) (b : row) (sts : list Z) : option (S * row * list Z * Z) :=
  '(σ, ks, sts, n) ← row_devs pad_dev σ (sr_block b) sts;
  Some (σ, row_set_blocks b ks, sts, n).

(** ** Replacing blocks *)

(** The new block of a device, with the attributes of the old one; [ids] are
    the ids the generator hands out and [nx] the next. *)
Definition rep_new (ids : nat → Z) (ds : string) (blen : Z) (nx : nat) (k : block) : block :=
  let d := db_set_sizes (data_block_create ds (ids nx)) blen blen in
  Seglun_block (Some (db_set_attrs d (bk_data k ≫= λ d, db_attr_stack d))) (bk_cap_offset k) 0 0.

Definition bk_hint (h : attr_heap) (fixed : bool) (k : block) : option (row_hint Q) :=
  d ← bk_data k;
  Some (Row_hint (if fixed then db_rid_key d else None)
          (rs_query_parse (S:=S) <$> data_block_get_attr h d "migrate")).

(** The mapping table: the blocks with the bad ones replaced, the hints of the
    good and of the bad ones, the old data blocks and the next id. *)
Fixpoint rep_prep (h : attr_heap) (ids : nat → Z) (ds : string) (blen : Z) (nx : nat)
    (ks : list block) (sts : list Z)
    : option (list block * list (row_hint Q) * list (row_hint Q) * list (data_block C W) * nat) :=
  match ks, sts with
  | k :: ks, st :: sts =>
      if decide (st = 0) then
        hint ← bk_hint h true k;
        '(ks, goods, bads, old, nx) ← rep_prep h ids ds blen nx ks sts;
        Some (k :: ks, hint :: goods, bads, old, nx)
      else
        let k' := rep_new ids ds blen nx k in
        hint ← bk_hint h false k';
        '(ks, goods, bads, old, nx) ← rep_prep h ids ds blen (Datatypes.S nx) ks sts;
        Some (k' :: ks, goods, hint :: bads,
              match bk_data k with Some d => d :: old | None => old end, nx)
  | _, _ => Some ([], [], [], [], nx)
  end.

(** A block that got its allocation. *)
Definition bk_allocated (k : block) (c : C) (rid : option string) : block :=
  match bk_data k with
  | None => k
  | Some d =>
      bk_set_data k (data_block_auto_warm
        (Data_block (db_id d) (db_size d) (db_max_size d) (db_ref_count d + 1) (db_initial_ref_count d)
           c (db_ds_type d) rid (db_attr_stack d) (db_warm d)))
  end.

(** The answers go to the bad devices in turn; the last result is how many were
    allocated. *)
Fixpoint rep_take (ks : list block) (sts : list Z) (res : list (option C * option string)) (q : Q)
    : list block * list Z * Q * Z :=
  match ks, sts with
  | k :: ks, st :: sts =>
      if decide (st = 0) then
        let '(ks, sts, q, got) := rep_take ks sts res q in (k :: ks, st :: sts, q, got)
      else
        match res with
        | (Some c, rid) :: res =>
            let '(ks, sts, q, got) := rep_take ks sts res q in
            (bk_allocated k c rid :: ks, 2 :: sts, q, got + 1)
        | (None, rid) :: res =>
            let q := match rid with Some key => rsq_exclude S q key | None => q end in
            let '(ks, sts, q, got) := rep_take ks sts res q in (k :: ks, st :: sts, q, got)
        | [] => let '(ks, sts, q, got) := rep_take ks sts [] q in (k :: ks, st :: sts, q, got)
        end
  | _, _ => ([], [], q, 0)
  end.

(** The errors with which there is no use looping. *)
Definition rep_kicked_out (st : op_status) : bool :=
  bool_decide (op_st st ≠ OP_STATE_SUCCESS ∧
    (error_code st = RS_ERROR_NOT_ENOUGH_RIDS ∨ error_code st = RS_ERROR_EMPTY_STACK)).

(** The loop of [slun_row_replace_fix].  The results are the store, the blocks,
    the statuses, the data blocks put aside, the next id and the errors left. *)
Fixpoint rep_loop (fuel : nat) (h : attr_heap) (ids : nat → Z) (ds : string) (blen : Z) (nx : nat)
    (σ : S) (q : Q) (ks : list block) (sts : list Z) (old : list (data_block C W))
    : option (S * list block * list Z * list (data_block C W) * nat * Z) :=
  '(ks, goods, bads, old', nx) ← rep_prep h ids ds blen nx ks sts;
  let old := old ++ old' in
  let n := length ks in
  let m := length bads in
  let reqs := (λ j, (Z.of_nat n - 1 - Z.of_nat j, blen)) <$> seq 0 m in
  let '(σ, res, st) := rs_row_request σ q (goods ++ reverse bads) reqs (length goods) n in
  if rep_kicked_out st then Some (σ, ks, sts, old, nx, Z.of_nat m)
  else
    let '(ks, sts, q, got) := rep_take ks sts res q in
    '(σ, ks, sts, perr) ← row_devs pad_dev σ ks sts;
    let err := Z.of_nat m - got + perr in
    match fuel with
    | Datatypes.S fuel =>
        if decide (err > 0) then rep_loop fuel h ids ds blen nx σ q ks sts old
        else Some (σ, ks, sts, old, nx, err)
    | O => Some (σ, ks, sts, old, nx, err)
    end.

(** [slun_row_replace_fix], for the query [q] of the arguments; the loop runs
    10000 times at most. *)
Definition slun_row_replace_fix (h : attr_heap) (ids : nat → Z) (ds : string) (nx : nat) (σ : S) (q : Q)
    (b : row) (sts : list Z) : option (S * row * list Z * list (data_block C W) * nat * Z) :=
  '(σ, ks, sts, old, nx, err) ← rep_loop (Z.to_nat 9999) h ids ds (sr_block_len b) nx σ q (sr_block b) sts [];
  Some (σ, row_set_blocks b ks, sts, old, nx, err).

(** ** Growing *)

(** Rounding up to whole stripes. *)
Definition lun_round (g : lun_geom) (n : Z) : Z :=
  let d := n `quot` stripe_size g * stripe_size g in
  if decide (n `rem` stripe_size g > 0) then d + stripe_size g else d.

(** Back to the old length when padding failed. *)
Definition row_revert (b : row) (g : lun_geom) (old_len : Z) : row :=
  row_set_blocks (row_set_len b old_len (old_len * n_devices g))
    ((λ k, match bk_data k with
           | Some d => bk_set_data k (db_set_sizes d old_len old_len) | None => k end) <$> sr_block b).

(** The check of a stretched row, and the padding when a block was resized. *)
Definition stretch (σ : S) (b : row) (sts : list Z) : option (S * row * Z) :=
  '(σ, b, sts, _) ← slun_row_size_check σ b sts;
  if decide (Exists (λ st, st = 2) sts)
  then '(σ, b, _, berr) ← slun_row_pad_fix σ b sts; Some (σ, b, berr)
  else Some (σ, b, 0).

(** The last row is stretched, if it has room; the results are the store, the
    list and where the new rows start.  [None] is a missing row or block. *)
Definition lun_grow_last (σ : S) (s : lun) (new_size : Z) : option (S * isl * Z) :=
  let g := lu_geom s in
  if decide (lu_total_size s > 0 ∧ lu_grow_break s = false) then
    b ← head (isl_search (Some (lu_total_size s - 1)) (Some (lu_total_size s)) (lu_isl s));
    if decide (sr_row_len b < lu_max_row_size s) then
      let dsize := (new_size - sr_seg_offset b) `quot` n_devices g in
      let dsize := dsize + dsize `rem` chunk_size g in
      let dsize := if decide (dsize > lu_max_block_size s) then lu_max_block_size s else dsize in
      let m := row_remove b (lu_isl s) in
      let b1 := row_set_len b dsize (dsize * n_devices g) in
      '(σ, b1, berr) ← stretch σ b1 (replicate (Z.to_nat (n_devices g)) 0);
      let b1 := if decide (berr > 0) then row_revert b1 g (sr_block_len b) else b1 in
      Some (σ, row_insert b1 m, sr_seg_end b1 + 1)
    else Some (σ, lu_isl s, sr_seg_end b + 1)
  else Some (σ, lu_isl s, lu_total_size s).

(** The new rows from [off] on, until one cannot be made; [cleanup] gets the data
    blocks put aside, the last one first, and the last result is the errors.  [None] is also the loop that does not end. *)
Fixpoint lun_grow_rows (fuel : nat) (h : attr_heap) (ids : nat → Z) (s : lun) (nx : nat) (σ : S) (m : isl)
    (cleanup : list (data_block C W)) (new_size off : Z) : option (S * isl * list (data_block C W) * Z) :=
  let g := lu_geom s in
  if decide (off < new_size) then
    match fuel with
    | O => None
    | Datatypes.S fuel =>
        let dsize := if decide (off + lu_max_row_size s > new_size) then new_size - off else lu_max_row_size s in
        let blen := dsize `quot` n_devices g in
        let b := Seglun_row (replicate (Z.to_nat (n_devices g)) (Seglun_block None 0 0 0))
                   off (off + blen * n_devices g - 1) blen (blen * n_devices g) in
        '(σ, b, _, old, nx, err) ← slun_row_replace_fix h ids (lu_ds s) nx σ (lu_rsq s) b
          (replicate (Z.to_nat (n_devices g)) 1);
        let cleanup := reverse old ++ cleanup in
        if decide (err = 0)
        then lun_grow_rows fuel h ids s nx σ (row_insert b m) cleanup new_size (off + lu_max_row_size s)
        else Some (σ, m, cleanup, err)
    end
  else Some (σ, m, cleanup, 0).

(** [_seglun_grow]; [None] is a crash. *)
Definition seglun_grow (h : attr_heap) (ids : nat → Z) (σ : S) (s : lun) (new_size_arg : Z)
    : option (S * lun * op_status) :=
  let new_size := if decide (new_size_arg < 0) then - new_size_arg else new_size_arg in
  if decide (new_size_arg < 0 ∧ new_size < lu_total_size s) then Some (σ, s, op_success_status)
  else if decide (stripe_size (lu_geom s) = 0 ∨ n_devices (lu_geom s) = 0 ∨ chunk_size (lu_geom s) = 0) then None
  else
    let new_size := lun_round (lu_geom s) new_size in
    '(σ, m, lo) ← lun_grow_last σ s new_size;
    '(σ, m, cleanup, err) ← lun_grow_rows (Z.to_nat (new_size - lo)) h ids s 0 σ m (lu_db_cleanup s) new_size lo;
    let s := lun_set_grow (lun_set_isl s m) (lu_grow_count s + 1) (lu_grow_break s) cleanup in
    Some (if decide (err = 0)
          then (σ, lun_set_sizes s (if decide (new_size_arg > -1) then new_size else lu_used_size s) new_size,
                op_success_status)
          else (σ, s, op_failure_status)).

(** ** Shrinking *)

Fixpoint ds_each (f : S → C → S * op_status) (σ : S) (cs : list C) : S * list op_status :=
  match cs with
  | [] => (σ, [])
  | c :: cs => let '(σ, st) := f σ c in let '(σ, sts) := ds_each f σ cs in (σ, st :: sts)
  end.

Definition row_resized (b : row) (blen len : Z) : row :=
  row_set_blocks (row_set_len b blen len)
    ((λ k, match bk_data k with
           | Some d => bk_set_data k (db_set_sizes d blen blen) | None => k end) <$> sr_block b).

(** The capabilities of the blocks; [None] is a missing data block. *)
Definition rows_need (l : list row) : option (list C) := (λ cs, mjoin cs) <$> mapM (λ b, mapM bk_cap (sr_block b)) l.

(** [_seglun_shrink]; [None] is a crash.  The dropped rows go through a stack,
    so they leave the list last first. *)
Definition seglun_shrink (σ : S) (s : lun) (new_size_arg : Z) : option (S * lun * op_status) :=
  let g := lu_geom s in
  if decide (stripe_size g = 0 ∨ n_devices g = 0) then None
  else
    let new_size := lun_round g new_size_arg in
    match isl_search (Some new_size) (Some (lu_total_size s)) (lu_isl s) with
    | [] => Some (σ, lun_set_sizes s new_size new_size, op_success_status)
    | b :: rest =>
        let dsize := new_size - sr_seg_offset b in
        let blen := dsize `quot` n_devices g in
        caps1 ← rows_need [b];
        caps2 ← rows_need rest;
        let '(σ, sts1) := ds_each (if decide (dsize = 0) then ds_remove else λ σ c, ds_truncate σ c blen) σ caps1 in
        let '(σ, sts2) := ds_each ds_remove σ caps2 in
        let m := foldl (λ m b, row_remove b m) (lu_isl s) (reverse rest ++ if decide (dsize = 0) then [b] else []) in
        let m := if decide (dsize = 0) then m else row_insert (row_resized b blen dsize) (row_remove b m) in
        Some (σ, lun_set_sizes (lun_set_isl s m) new_size new_size,
          if decide (opque_waitall (sts1 ++ sts2) = OP_STATE_SUCCESS) then op_success_status else op_failure_status)
    end.

(** [_slun_truncate] *)
Definition slun_truncate (h : attr_heap) (ids : nat → Z) (σ : S) (s : lun) (new_size : Z)
    : option (S * lun * op_status) :=
  if decide (new_size < 0) then seglun_grow h ids σ s new_size
  else if decide (lu_total_size s > new_size) then seglun_shrink σ s new_size
  else if decide (lu_total_size s < new_size) then seglun_grow h ids σ s new_size
  else Some (σ, s, op_success_status).

(** [seglun_remove]: every block is released, the rows stay. *)
Definition seglun_remove (σ : S) (s : lun) : option (S * list op_status) :=
  caps ← rows_need (isl_all (lu_isl s)); Some (ds_each ds_remove σ caps).

Definition seglun_size (s : lun) : Z := lu_used_size s.
Definition seglun_block_size (s : lun) : Z := stripe_size (lu_geom s).

(** [segment_lun_create] *)
Definition segment_lun_create (ds : string) (q : Q) : lun :=
  Seglun_priv (Lun_geom 1 (16 * 1024) (16 * 1024) 1) 0 0 (10 * 1024 * 1024) (1 * 1024 * 1024)
    (10 * 1024 * 1024) q 0 0 false 0 (-1) 0 [] isl_create ds.
End lun_size.
