(* ===== verification/LunRepair.v ===== *)
(** * LUN segments: correctness of the repair of a row

    The passes over the devices of a row, and the replacement loop: when it
    reports no error left, every device that was bad has a fresh allocation of
    its own and nothing that was in use has changed. *)
From stdpp Require Import strings gmap.
From S2P Require Import Prelude Isl Seg Inip DataBlock DataStore LunMap LunStore LunSeg LunSize.
#[local] Open Scope Z_scope.

Section repair.
Context {C W Q S : Type} `{!CapSet C W, !DataStore C Q S, !StoreView C S, !DataStoreOk C Q S}.
Context `{!LunStore C Q S, !LunStoreOk C Q S, !Gop, !GopOk, !ISL (seglun_row C W)}.
Implicit Types (k : seglun_block C W) (σ : S).

(** ** Passes over the devices *)

(** What a step may do: keep the allocation, write only the bytes [I st] of it,
    for a device of status [st]. *)
Definition dev_step (I : Z → Z → Prop) (T : seglun_block C W → Z → seglun_block C W → Z → Z → Prop)
    (f : S → seglun_block C W → Z → option (S * seglun_block C W * Z * Z)) (k : seglun_block C W) (st : Z) : Prop :=
  ∀ σ, ∃ σ' k' st' n, f σ k st = Some (σ', k', st', n) ∧
    bk_cap k' = bk_cap k ∧ bk_cap_offset k' = bk_cap_offset k ∧ 0 ≤ n ∧ T k st k' st' n ∧
    (∀ c, ds_live σ c → ds_live σ' c) ∧
    ∀ c i, (bk_cap k = Some c → ¬ I st i) → ds_byte σ' c i = ds_byte σ c i.

Lemma row_devs_spec (I : Z → Z → Prop) T f ks : ∀ sts σ,
  length sts = length ks →
  (∀ i k st, ks !! i = Some k → sts !! i = Some st → dev_step I T f k st) →
  ∃ σ' ks' sts' n, row_devs f σ ks sts = Some (σ', ks', sts', n) ∧ length ks' = length ks ∧ length sts' = length ks ∧
    0 ≤ n ∧
    (∀ i k st, ks !! i = Some k → sts !! i = Some st → ∃ k' st' m, ks' !! i = Some k' ∧ sts' !! i = Some st' ∧
       bk_cap k' = bk_cap k ∧ bk_cap_offset k' = bk_cap_offset k ∧ T k st k' st' m ∧ 0 ≤ m ≤ n) ∧
    (∀ c, ds_live σ c → ds_live σ' c) ∧
    (∀ c i, (∀ j k st, ks !! j = Some k → sts !! j = Some st → bk_cap k = Some c → ¬ I st i) →
       ds_byte σ' c i = ds_byte σ c i).
Proof.
  induction ks as [|k ks IH]; intros [|st sts] σ Hlen Hf; try done.
  { do 4 eexists. split_and!; try done. }
  destruct (Hf 0%nat k st eq_refl eq_refl σ) as (σ1 & k' & st' & n & He & Hc & Ho & Hn & HT & Hl & Hb).
  destruct (IH sts σ1) as (σ2 & ks' & sts' & m & He' & Hlk & Hls & Hm & Hall & Hl' & Hb').
  { by injection Hlen. }
  { intros i x s Hx Hs. by apply (Hf (Datatypes.S i)). }
  cbn [row_devs]. rewrite He. cbn [mbind option_bind]. rewrite He'. cbn [mbind option_bind].
  do 4 eexists. split; [done|]. simpl. split; [lia|]. split; [lia|]. split; [lia|]. split; [|split].
  - intros [|i] x s Hx Hs.
    + injection Hx as <-. injection Hs as <-. exists k', st', n. split_and!; try done; lia.
    + destruct (Hall i x s Hx Hs) as (x' & s' & mi & ? & ? & ? & ? & ? & ?). exists x', s', mi. split_and!; try done; lia.
  - auto.
  - intros c i Hi. rewrite Hb' by (intros j; apply (Hi (Datatypes.S j))). apply Hb.
    by apply (Hi 0%nat k st).
Qed.

(** Sizes: the statuses afterwards; a resized block has the new size. *)
Definition size_rel (blen : Z) (k : seglun_block C W) (st : Z) (k' : seglun_block C W) (st' n : Z) : Prop :=
  (st' = 2 → st = 2 ∨ ∃ d, bk_data k' = Some d ∧ db_max_size d = blen).

Lemma size_dev_step σ0 blen k st :
  is_Some (bk_cap k) → bk_cap_offset k = 0 → dev_step (λ _ i, blen ≤ i) (size_rel blen) (size_dev σ0 blen) k st.
Proof.
  intros [c Hc] Ho σ. unfold bk_cap in Hc. destruct (bk_data k) as [d|] eqn:Hd; [|done]. injection Hc as Hc.
  assert (bk_cap k = Some c) as Hk by (unfold bk_cap; rewrite Hd; simpl; by f_equal).
  unfold size_dev. rewrite Hd. cbn [mbind option_bind].
  case_decide as Hs; [|do 4 eexists; split; [done|]; split_and!; try done; by left].
  case_decide as Hz; [do 4 eexists; split; [done|]; by split_and!|].
  pose proof (λ c', ds_truncate_live σ (db_cap d) (bk_cap_offset k + blen) c') as Hl.
  pose proof (λ c' i, ds_truncate_frame σ (db_cap d) (bk_cap_offset k + blen) c' i) as Hf.
  destruct (ds_truncate σ _ _) as [σ' ts]. simpl in Hl, Hf. rewrite Ho in Hf.
  assert (∀ c' i, (bk_cap k = Some c' → ¬ blen ≤ i) → ds_byte σ' c' i = ds_byte σ c' i) as Hfr.
  { intros c' i Hi. apply Hf. destruct (decide (blen ≤ i)) as [Hge|]; [left|right; lia]. intros He. apply Hi; [congruence|done]. }
  case_decide; do 4 eexists; (split; [done|]); split_and!; try done.
  - unfold bk_cap. simpl. by rewrite Hd.
  - right. by eexists.
Qed.

(** Padding: a block that needed it is good, or counts as an error. *)
Definition pad_rel (k : seglun_block C W) (st : Z) (k' : seglun_block C W) (st' n : Z) : Prop :=
  st' ≠ 2 ∧ (st = 2 → st' = 0 ∧ n = 0 ∨ st' = 3 ∧ n = 1) ∧ (st = -2 → st' = 3 ∧ n = 1) ∧
  (st ≠ 2 → st ≠ -2 → k' = k ∧ st' = st ∧ n = 0) ∧
  is_Some (bk_data k') ∧ (∀ d', bk_data k' = Some d' → ∃ d, bk_data k = Some d ∧ db_max_size d' = db_max_size d).

Lemma pad_dev_step blen k st :
  is_Some (bk_cap k) → bk_cap_offset k = 0 → (st = 2 → ∃ d, bk_data k = Some d ∧ db_max_size d = blen) →
  dev_step (λ st i, st = 2 ∧ i = blen - 1) pad_rel pad_dev k st.
Proof.
  intros [c Hc] Ho Hm σ. unfold bk_cap in Hc. destruct (bk_data k) as [d|] eqn:Hd; [|done]. injection Hc as Hc.
  assert (bk_cap k = Some c) as Hk by (unfold bk_cap; rewrite Hd; simpl; by f_equal).
  unfold pad_dev, pad_rel. case_decide as Hs.
  - destruct (Hm Hs) as (d' & [= <-] & Hmax). rewrite Hd. cbn [mbind option_bind].
    rewrite Ho, Hmax, Z.add_0_l.
    pose proof (λ c', ds_write_live σ (db_cap d) (blen - 1) (λ _, 0) 0 1 c') as Hl.
    pose proof (λ c' i, ds_write_frame σ (db_cap d) (blen - 1) (λ _, 0) 0 1 c' i) as Hf.
    destruct (ds_write σ _ _ _ _ _) as [σ' ws]. simpl in Hl, Hf.
    assert (∀ c' i, (bk_cap k = Some c' → ¬ (st = 2 ∧ i = blen - 1)) → ds_byte σ' c' i = ds_byte σ c' i) as Hfr.
    { intros c' i Hi. apply Hf. destruct (decide (i = blen - 1)) as [Heq|]; [left|right; lia]. intros He. apply Hi; [congruence|done]. }
    case_decide; do 4 eexists; (split; [done|]); simpl; split_and!; try done; try lia.
    + unfold bk_cap. simpl. by rewrite Hd.
    + intros d' [= <-]. by exists d.
    + rewrite Hd. by eexists.
  - do 4 eexists. split; [done|]. split; [done|]. split; [done|]. split; [case_decide; lia|].
    split; [|by split]. split; [by case_decide|]. split; [done|]. split; [intros Hm2; by rewrite !decide_True|].
    split; [intros _ Hne; by rewrite !decide_False|]. split; [rewrite Hd; by eexists|]. intros d' Hd'. by exists d'.
Qed.

(** ** The replacement loop *)

Lemma bk_hint_some (h : attr_heap) fixed k :
  is_Some (bk_data k) → ∃ hint, bk_hint (Q:=Q) (S:=S) h fixed k = Some hint.
Proof. intros [d Hd]. unfold bk_hint. rewrite Hd. by eexists. Qed.

(** How many devices are bad. *)
Definition bad_count (sts : list Z) : nat := length (filter (λ st, st ≠ 0) sts).

Lemma rep_prep_spec (h : attr_heap) ids ds blen ks : ∀ sts nx,
  length sts = length ks → (∀ i k, ks !! i = Some k → sts !! i = Some 0 → is_Some (bk_data k)) →
  ∃ ks' goods bads old nx', rep_prep (Q:=Q) (S:=S) h ids ds blen nx ks sts = Some (ks', goods, bads, old, nx') ∧
    length ks' = length ks ∧ length bads = bad_count sts ∧
    ∀ i k st, ks !! i = Some k → sts !! i = Some st → ∃ k', ks' !! i = Some k' ∧
      bk_cap_offset k' = bk_cap_offset k ∧ (st = 0 → k' = k) ∧ is_Some (bk_data k') ∧
      (st ≠ 0 → ∃ d, bk_data k' = Some d ∧ db_max_size d = blen).
Proof.
  induction ks as [|k ks IH]; intros [|st sts] nx Hlen Hk; try done.
  { do 5 eexists. by split_and!. }
  cbn [rep_prep]. unfold bad_count. rewrite filter_cons. case_decide as Hz0; case_decide as Hz1; try done.
  - subst st. destruct (bk_hint_some h true k) as [hint ->]; [by apply (Hk 0%nat)|]. cbn [mbind option_bind].
    destruct (IH sts nx) as (ks' & goods & bads & old & nx' & -> & Hl & Hb & Hall); [by injection Hlen|by intros i; apply (Hk (Datatypes.S i))|].
    cbn [mbind option_bind]. do 5 eexists. split; [done|]. split; [simpl; lia|]. split; [done|].
    intros [|i] x s Hx Hs; [|by apply (Hall i)]. injection Hx as <-. injection Hs as <-.
    exists k. split_and!; try done. by apply (Hk 0%nat).
  - destruct (bk_hint_some h false (rep_new ids ds blen nx k)) as [hint ->]; [by eexists|]. cbn [mbind option_bind].
    destruct (IH sts (Datatypes.S nx)) as (ks' & goods & bads & old & nx' & -> & Hl & Hb & Hall);
      [by injection Hlen|by intros i; apply (Hk (Datatypes.S i))|].
    cbn [mbind option_bind]. do 5 eexists. split; [done|]. split; [simpl; lia|]. split; [simpl; unfold bad_count in Hb; lia|].
    intros [|i] x s Hx Hs; [|by apply (Hall i)]. injection Hx as <-. injection Hs as <-.
    eexists. split; [done|]. split_and!; [done|done|by eexists|]. intros _. by eexists.
Qed.

Lemma bk_allocated_facts k c rid :
  is_Some (bk_data k) →
  bk_cap (bk_allocated k c rid) = Some c ∧ bk_cap_offset (bk_allocated k c rid) = bk_cap_offset k ∧
  ∀ d, bk_data k = Some d → ∃ d', bk_data (bk_allocated k c rid) = Some d' ∧ db_max_size d' = db_max_size d.
Proof. intros [d Hd]. unfold bk_allocated, bk_cap. rewrite Hd. split_and!; [done..|]. intros ? [= <-]. by eexists. Qed.

(** A device that got its allocation. *)
Definition took (caps : list C) k k' : Prop :=
  ∃ c, bk_cap k' = Some c ∧ c ∈ caps ∧ bk_cap_offset k' = bk_cap_offset k ∧
    ∀ d, bk_data k = Some d → ∃ d', bk_data k' = Some d' ∧ db_max_size d' = db_max_size d.

(** What [rep_take] does to the devices, and that it gives no capability
    twice. *)
Definition take_rel (caps : list C) (full : Prop) (ks : list (seglun_block C W)) (sts : list Z)
    (ks' : list (seglun_block C W)) (sts' : list Z) : Prop :=
  length ks' = length ks ∧ length sts' = length ks ∧
  (∀ i k st, ks !! i = Some k → sts !! i = Some st → ∃ k' st', ks' !! i = Some k' ∧ sts' !! i = Some st' ∧
     (st = 0 → k' = k ∧ st' = 0) ∧ (st ≠ 0 → st' = 2 ∧ took caps k k' ∨ st' = st ∧ k' = k) ∧
     (full → st ≠ 0 → st' = 2 ∧ took caps k k')) ∧
  (∀ i j k1 k2 c, sts !! i ≠ Some 2 → sts !! j ≠ Some 2 → sts' !! i = Some 2 → sts' !! j = Some 2 →
     ks' !! i = Some k1 → ks' !! j = Some k2 → bk_cap k1 = Some c → bk_cap k2 = Some c → i = j).

Lemma take_rel_cap caps full ks sts ks' sts' j k2 c :
  length sts = length ks → take_rel caps full ks sts ks' sts' →
  sts !! j ≠ Some 2 → sts' !! j = Some 2 → ks' !! j = Some k2 → bk_cap k2 = Some c → c ∈ caps.
Proof.
  intros Hlen (Hl & Hl' & Hall & _) Hj Hsj Hk2 Hc.
  destruct (lookup_lt_is_Some_2 ks j) as [k Hk]; [apply lookup_lt_Some in Hk2; lia|].
  destruct (lookup_lt_is_Some_2 sts j) as [st Hst]; [apply lookup_lt_Some in Hk2; lia|].
  destruct (Hall j k st Hk Hst) as (k' & st' & Hk' & Hst' & Hz & Hne & _).
  assert (k' = k2) as -> by congruence. assert (st' = 2) as -> by congruence.
  destruct (decide (st = 0)) as [E|E]; [by destruct (Hz E)|].
  destruct (Hne E) as [[_ (c' & Hc' & Hin & _)]|[<- _]]; [congruence|done].
Qed.

(** A device more. *)
Lemma take_rel_cons caps caps' (full full' : Prop) k ks st sts k' ks' st' sts' :
  length sts = length ks → take_rel caps full ks sts ks' sts' → (∀ c, c ∈ caps → c ∈ caps') → (full' → full) →
  (st = 0 → k' = k ∧ st' = 0) → (st ≠ 0 → st' = 2 ∧ took caps' k k' ∨ st' = st ∧ k' = k) →
  (full' → st ≠ 0 → st' = 2 ∧ took caps' k k') →
  (st ≠ 2 → st' = 2 → ∀ c, bk_cap k' = Some c → c ∉ caps) →
  take_rel caps' full' (k :: ks) (st :: sts) (k' :: ks') (st' :: sts').
Proof.
  intros Hlen Hrel Hcaps Hfull Hz Hne Hf Hnew. pose proof Hrel as (Hl & Hl' & Hall & Hinj).
  assert (∀ x y, took caps x y → took caps' x y) as Hmono.
  { intros x y (c' & ? & ? & Hr). exists c'. split; [done|]. split; [auto|done]. }
  split; [simpl; lia|]. split; [simpl; lia|]. split.
  - intros [|i] x s Hx Hs; [injection Hx as <-; injection Hs as <-; by exists k', st'|].
    destruct (Hall i x s Hx Hs) as (x' & s' & Hx' & Hs' & Hz' & Hne' & Hf'). exists x', s'. split_and!; [done..| |].
    + intros E. destruct (Hne' E) as [[? ?]|?]; [left; auto|by right].
    + intros Hfu E. destruct (Hf' (Hfull Hfu) E) as [? ?]. auto.
  - intros [|i] [|j] k1 k2 c Hi Hj Hsi Hsj Hk1 Hk2 Hc1 Hc2; [done| | |f_equal; by eapply (Hinj i j)].
    + injection Hk1 as <-. injection Hsi as ->. exfalso. apply (Hnew (λ E, Hi (f_equal Some E)) eq_refl c Hc1).
      by eapply (take_rel_cap caps full ks sts ks' sts' j k2 c).
    + injection Hk2 as <-. injection Hsj as ->. exfalso. apply (Hnew (λ E, Hj (f_equal Some E)) eq_refl c Hc2).
      by eapply (take_rel_cap caps full ks sts ks' sts' i k1 c).
Qed.

Lemma rep_take_spec ks : ∀ sts (res : list (option C * option string)) (q : Q),
  length sts = length ks → length res = bad_count sts → NoDup (omap fst res) →
  (∀ i k, ks !! i = Some k → is_Some (bk_data k)) →
  ∃ ks' sts' q' got, rep_take (S:=S) ks sts res q = (ks', sts', q', got) ∧ 0 ≤ got ≤ Z.of_nat (bad_count sts) ∧
    take_rel (omap fst res) (got = Z.of_nat (bad_count sts)) ks sts ks' sts'.
Proof.
  induction ks as [|k ks IH]; intros [|st sts] res q Hlen Hres Hnd Hk; try done.
  { do 4 eexists. split; [done|]. split; [done|]. by split_and!. }
  assert (∀ i k, ks !! i = Some k → is_Some (bk_data k)) as Hk' by (intros i; apply (Hk (Datatypes.S i))).
  pose proof (Hk 0%nat k eq_refl) as Hd. injection Hlen as Hlen.
  cbn [rep_take]. unfold bad_count in *. rewrite filter_cons in *. destruct (decide (st = 0)) as [Hz0|Hz0]; case_decide as Hz1; try done.
  - subst st. destruct (IH sts res q Hlen Hres Hnd Hk') as (ks' & sts' & q' & got & -> & Hg & Hrel).
    do 4 eexists. split; [done|]. split; [done|].
    by apply (take_rel_cons (omap fst res) _ (got = Z.of_nat (length (filter (λ st, st ≠ 0) sts)))).
  - destruct res as [|[[c|] rid] res]; [done| |].
    + cbn in Hnd. apply NoDup_cons in Hnd as [Hc Hnd]. injection Hres as Hres.
      destruct (IH sts res q Hlen Hres Hnd Hk') as (ks' & sts' & q' & got & -> & Hg & Hrel).
      destruct (bk_allocated_facts k c rid Hd) as (Hcap & Hoff & Hmax).
      assert (took (omap fst ((Some c, rid) :: res)) k (bk_allocated k c rid)) as Ht.
      { exists c. split_and!; [done|cbn; by left|done|done]. }
      do 4 eexists. split; [done|]. split; [simpl; lia|].
      apply (take_rel_cons (omap fst res) _ (got = Z.of_nat (length (filter (λ st, st ≠ 0) sts)))); try done.
      * intros c' ?. cbn. by right.
      * intros E. simpl in E. lia.
      * intros _. by left.
      * intros _ _ c' Hc'. congruence.
    + injection Hres as Hres.
      destruct (IH sts res (match rid with Some key => rsq_exclude S q key | None => q end) Hlen Hres Hnd Hk')
        as (ks' & sts' & q' & got & -> & Hg & Hrel).
      do 4 eexists. split; [done|]. split; [simpl; lia|].
      apply (take_rel_cons (omap fst res) _ (got = Z.of_nat (length (filter (λ st, st ≠ 0) sts)))); try done.
      * intros E. simpl in E. lia.
      * intros _. by right.
      * intros E. simpl in E. lia.
Qed.

(** The state of the loop, from the store, blocks and statuses it started
    with: good devices are as they were, repaired ones have allocations of their
    own that were not in use, and what was in use is unchanged. *)
Record rep_ok (σ0 : S) (ks0 : list (seglun_block C W)) (sts0 : list Z) (σ : S)
    (ks : list (seglun_block C W)) (sts : list Z) : Prop := {
  rep_len : length ks = length ks0 ∧ length sts = length ks0;
  rep_each i k0 st0 : ks0 !! i = Some k0 → sts0 !! i = Some st0 →
    ∃ k st, ks !! i = Some k ∧ sts !! i = Some st ∧ bk_cap_offset k = bk_cap_offset k0 ∧ st ≠ 2 ∧
      (st0 = 0 → k = k0 ∧ st = 0) ∧ (st = 0 → is_Some (bk_data k)) ∧
      (st0 ≠ 0 → st = 0 → ∃ c, bk_cap k = Some c ∧ ds_live σ c ∧ ¬ ds_live σ0 c);
  rep_inj i j k1 k2 c : sts0 !! i ≠ Some 0 → sts0 !! j ≠ Some 0 → sts !! i = Some 0 → sts !! j = Some 0 →
    ks !! i = Some k1 → ks !! j = Some k2 → bk_cap k1 = Some c → bk_cap k2 = Some c → i = j;
  rep_frame c : ds_live σ0 c → ds_live σ c ∧ ∀ i, ds_byte σ c i = ds_byte σ0 c i }.

Lemma bad_count_zero sts i st : bad_count sts = 0%nat → sts !! i = Some st → st = 0.
Proof.
  unfold bad_count. intros Hb Hi. destruct (decide (st = 0)) as [|Hne]; [done|].
  assert (st ∈ filter (λ st, st ≠ 0) sts) as Hin.
  { apply list_elem_of_filter. split; [done|by eapply list_elem_of_lookup_2]. }
  destruct (filter _ sts); [by apply not_elem_of_nil in Hin|done].
Qed.

Section loop.
Context (σ0 : S) (ks0 : list (seglun_block C W)) (sts0 : list Z) (blen : Z).
Context (Hlen0 : length sts0 = length ks0).

(** After the mapping table is made. *)
Lemma rep_ok_prep σ ks sts ks' :
  rep_ok σ0 ks0 sts0 σ ks sts → length ks' = length ks →
  (∀ i k st, ks !! i = Some k → sts !! i = Some st → ∃ k', ks' !! i = Some k' ∧
      bk_cap_offset k' = bk_cap_offset k ∧ (st = 0 → k' = k) ∧ is_Some (bk_data k') ∧
      (st ≠ 0 → ∃ d, bk_data k' = Some d ∧ db_max_size d = blen)) →
  rep_ok σ0 ks0 sts0 σ ks' sts ∧ (∀ i k', ks' !! i = Some k' → is_Some (bk_data k')).
Proof.
  intros [[Hl1 Hl2] Heach Hinj Hfr] Hlen Hprep. split; [split|].
  - lia.
  - intros i k0 st0 Hk0 Hst0. destruct (Heach i k0 st0 Hk0 Hst0) as (k & st & Hk & Hst & Ho & Hn2 & Hz & Hd & Hf).
    destruct (Hprep i k st Hk Hst) as (k' & Hk' & Ho' & Hz' & Hd' & _). exists k', st.
    split_and!; [done|done|congruence|done| |done|].
    + intros E. destruct (Hz E) as [-> E']. split; [by apply Hz'|done].
    + intros E E'. rewrite (Hz' E'). auto.
  - intros i j k1 k2 c Hi Hj Hsi Hsj Hk1 Hk2.
    assert (∀ x kx, sts !! x = Some 0 → ks' !! x = Some kx → ks !! x = Some kx) as Hback.
    { intros x kx Hx Hkx. destruct (lookup_lt_is_Some_2 ks x) as [k Hk]; [apply lookup_lt_Some in Hkx; lia|].
      destruct (Hprep x k 0 Hk Hx) as (k' & Hk' & _ & Hz' & _). rewrite Hk. rewrite <- (Hz' eq_refl). congruence. }
    apply (Hinj i j k1 k2); auto.
  - done.
  - intros i k' Hk'. destruct (lookup_lt_is_Some_2 ks i) as [k Hk]; [apply lookup_lt_Some in Hk'; lia|].
    destruct (lookup_lt_is_Some_2 sts i) as [st Hst]; [apply lookup_lt_Some in Hk'; lia|].
    destruct (Hprep i k st Hk Hst) as (k2 & Hk2 & _ & _ & Hd & _). congruence.
Qed.

(** After the answers are taken and the new blocks padded. *)
Lemma rep_ok_round σ σ1 σ2 ks sts ks1 sts1 ks2 sts2 caps full perr :
  rep_ok σ0 ks0 sts0 σ ks sts →
  (∀ c, ds_live σ c → ds_live σ1 c ∧ ∀ i, ds_byte σ1 c i = ds_byte σ c i) →
  (∀ c, c ∈ caps → ¬ ds_live σ c ∧ ds_live σ1 c) →
  take_rel caps full ks sts ks1 sts1 →
  length ks2 = length ks1 → length sts2 = length ks1 →
  (∀ i k st, ks1 !! i = Some k → sts1 !! i = Some st → ∃ k' st' m, ks2 !! i = Some k' ∧ sts2 !! i = Some st' ∧
       bk_cap k' = bk_cap k ∧ bk_cap_offset k' = bk_cap_offset k ∧ pad_rel k st k' st' m ∧ 0 ≤ m ≤ perr) →
  (∀ c, ds_live σ1 c → ds_live σ2 c) →
  (∀ c i, (∀ j k st, ks1 !! j = Some k → sts1 !! j = Some st → bk_cap k = Some c → ¬ (st = 2 ∧ i = blen - 1)) →
     ds_byte σ2 c i = ds_byte σ1 c i) →
  rep_ok σ0 ks0 sts0 σ2 ks2 sts2 ∧ (full → perr = 0 → ∀ i st, sts2 !! i = Some st → st = 0).
Proof.
  intros [[Hl1 Hl2] Heach Hinj Hfr] Hreq Hcaps Htake Hlk2 Hls2 Hpad Hlive2 Hfr2.
  pose proof Htake as (Hlk1 & Hls1 & Hall & Hinj1).
  assert (Hno2 : ∀ j, sts !! j ≠ Some 2).
  { intros j Hj. destruct (lookup_lt_is_Some_2 ks0 j) as [k0 Hk0]; [apply lookup_lt_Some in Hj; lia|].
    destruct (lookup_lt_is_Some_2 sts0 j) as [st0 Hst0]; [apply lookup_lt_Some in Hj; lia|].
    destruct (Heach j k0 st0 Hk0 Hst0) as (k & st & _ & Hst & _ & Hn2 & _). congruence. }
  assert (Hnew : ∀ j k c, sts1 !! j = Some 2 → ks1 !! j = Some k → bk_cap k = Some c → c ∈ caps).
  { intros j k c Hj Hk Hc. eapply (take_rel_cap caps full ks sts ks1 sts1 j k c); [lia|done..]. }
  assert (Hold : ∀ c, ds_live σ0 c → c ∉ caps).
  { intros c Hc Hin. destruct (Hcaps c Hin) as [Hd _]. apply Hd, Hfr, Hc. }
  assert (Hstep : ∀ i k st, ks !! i = Some k → sts !! i = Some st → ∃ k2 st2, ks2 !! i = Some k2 ∧ sts2 !! i = Some st2 ∧
    bk_cap_offset k2 = bk_cap_offset k ∧ st2 ≠ 2 ∧ (st = 0 → k2 = k ∧ st2 = 0) ∧ is_Some (bk_data k2) ∧
    (st ≠ 0 → st2 = 0 → sts1 !! i = Some 2 ∧ (∃ k1, ks1 !! i = Some k1 ∧ bk_cap k2 = bk_cap k1) ∧ ∃ c, bk_cap k2 = Some c ∧ c ∈ caps) ∧
    (full → perr = 0 → st2 = 0)).
  { intros i k st Hk Hst. destruct (Hall i k st Hk Hst) as (k1 & st1 & Hk1 & Hst1 & Hz & Hne & Hfull).
    destruct (Hpad i k1 st1 Hk1 Hst1) as (k2 & st2 & m & Hk2 & Hst2 & Hc2 & Ho2 & (Hp2 & Hp & Hpn & Hpk & Hpd & _) & Hm).
    exists k2, st2. split; [done|]. split; [done|]. destruct (decide (st = 0)) as [E|E].
    - destruct (Hz E) as [-> ->]. destruct (Hpk ltac:(done) ltac:(done)) as (-> & -> & _). by split_and!.
    - assert (bk_cap_offset k1 = bk_cap_offset k) as Ho1.
      { destruct (Hne E) as [[_ (c & _ & _ & Ho & _)]|[_ ->]]; done. }
      split; [congruence|]. split; [done|]. split; [done|]. split; [done|]. split.
      + intros _ E2. assert (st1 = 2) as ->.
        { destruct (decide (st1 = 2)) as [|E3]; [done|]. destruct (decide (st1 = -2)) as [E4|E4]; [destruct (Hpn E4); lia|].
          destruct (Hpk E3 E4) as (_ & E5 & _). destruct (Hne E) as [[? _]|[E6 _]]; [done|]. congruence. }
        split; [done|]. split; [by exists k1|]. destruct (Hne E) as [[_ (c & Hc & Hin & _)]|[E6 _]].
        * exists c. split; [congruence|done].
        * exfalso. apply (Hno2 i). congruence.
      + intros Hfu Hp0. destruct (Hfull Hfu E) as [-> _]. destruct (Hp eq_refl) as [[-> _]|[_ ->]]; [done|lia]. }
  split; [split|].
  - lia.
  - intros i k0 st0 Hk0 Hst0. destruct (Heach i k0 st0 Hk0 Hst0) as (k & st & Hk & Hst & Ho & Hn2 & Hz & Hd & Hf).
    destruct (Hstep i k st Hk Hst) as (k2 & st2 & Hk2 & Hst2 & Ho2 & Hn22 & Hz2 & Hd2 & Hf2 & _).
    exists k2, st2. split_and!; [done|done|congruence|done| |done|].
    + intros E. destruct (Hz E) as [-> E']. by apply Hz2.
    + intros E E2. destruct (decide (st = 0)) as [E3|E3].
      * destruct (Hz2 E3) as [-> _]. destruct (Hf E E3) as (c & Hc & Hlv & Hnl). exists c. split_and!; [done| |done].
        by apply Hlive2, Hreq.
      * destruct (Hf2 E3 E2) as (_ & _ & c & Hc & Hin). exists c. split; [done|]. destruct (Hcaps c Hin) as [Hn1 Hlv].
        split; [by apply Hlive2|]. intros Hc0. by apply (Hold c Hc0).
  - assert (Hcase : ∀ x kx c, sts2 !! x = Some 0 → ks2 !! x = Some kx → bk_cap kx = Some c →
      (sts !! x = Some 0 ∧ ks !! x = Some kx) ∨ (sts1 !! x = Some 2 ∧ (∃ k1, ks1 !! x = Some k1 ∧ bk_cap k1 = Some c) ∧ c ∈ caps)).
    { intros x kx c Hx Hkx Hc. destruct (lookup_lt_is_Some_2 ks x) as [k Hk]; [apply lookup_lt_Some in Hkx; lia|].
      destruct (lookup_lt_is_Some_2 sts x) as [st Hst]; [apply lookup_lt_Some in Hkx; lia|].
      destruct (Hstep x k st Hk Hst) as (k2 & st2 & Hk2 & Hst2 & _ & _ & Hz2 & _ & Hf2 & _).
      assert (k2 = kx) as -> by congruence. assert (st2 = 0) as -> by congruence.
      destruct (decide (st = 0)) as [E|E]; [left; destruct (Hz2 E) as [-> _]; by subst|right].
      destruct (Hf2 E eq_refl) as (H2 & (k1 & Hk1 & Hck) & c' & Hc' & Hin). split; [done|].
      assert (c' = c) as -> by congruence. split; [|done]. exists k1. split; [done|congruence]. }
    intros i j k1 k2 c Hi Hj Hsi Hsj Hk1 Hk2 Hc1 Hc2.
    assert (Hlv : ∀ x kx, sts0 !! x ≠ Some 0 → sts !! x = Some 0 → ks !! x = Some kx → bk_cap kx = Some c → ds_live σ c).
    { intros x kx Hx Hs Hkx Hc. destruct (lookup_lt_is_Some_2 ks0 x) as [k0 Hk0]; [apply lookup_lt_Some in Hkx; lia|].
      destruct (lookup_lt_is_Some_2 sts0 x) as [st0 Hst0]; [apply lookup_lt_Some in Hkx; lia|].
      destruct (Heach x k0 st0 Hk0 Hst0) as (k & st & Hk & Hst & _ & _ & _ & _ & Hf).
      destruct Hf as (c' & Hc' & ? & _); [congruence|congruence|congruence]. }
    destruct (Hcase i k1 c Hsi Hk1 Hc1) as [[Hi1 Hi2]|(Hi1 & (x1 & Hx1 & Hcx1) & Hin)],
      (Hcase j k2 c Hsj Hk2 Hc2) as [[Hj1 Hj2]|(Hj1 & (x2 & Hx2 & Hcx2) & Hin')].
    + by apply (Hinj i j k1 k2 c).
    + exfalso. destruct (Hcaps c Hin') as [Hn _]. by apply Hn, (Hlv i k1).
    + exfalso. destruct (Hcaps c Hin) as [Hn _]. by apply Hn, (Hlv j k2).
    + by apply (Hinj1 i j x1 x2 c).
  - intros c Hc. destruct (Hfr c Hc) as [Hl Hb]. destruct (Hreq c Hl) as [Hl' Hb']. split; [by apply Hlive2|].
    intros i. rewrite Hfr2, Hb', Hb; [done|]. intros j k st Hk Hst Hck [-> _]. by apply (Hold c Hc), (Hnew j k c).
  - intros Hfu Hp i st2 Hst2. destruct (lookup_lt_is_Some_2 ks i) as [k Hk]; [apply lookup_lt_Some in Hst2; lia|].
    destruct (lookup_lt_is_Some_2 sts i) as [st Hst]; [apply lookup_lt_Some in Hst2; lia|].
    destruct (Hstep i k st Hk Hst) as (k2 & st2' & _ & Hst2' & _ & _ & _ & _ & _ & Hz). specialize (Hz Hfu Hp). congruence.
Qed.
End loop.

Lemma rep_ok_init σ ks sts :
  length sts = length ks → (∀ i st, sts !! i = Some st → st ≠ 2) →
  (∀ i k, ks !! i = Some k → sts !! i = Some 0 → is_Some (bk_data k)) →
  rep_ok σ ks sts σ ks sts.
Proof.
  intros Hl Hn2 Hd. split; [done| |by intros i j ????? Hz|done].
  intros i k st Hk Hst. exists k, st. split_and!; try done.
  - by apply (Hn2 i).
  - intros ->. by apply (Hd i).
Qed.

(** One round of the loop. *)
Lemma rep_round (h : attr_heap) ids ds blen σ0 ks0 sts0 nx σ (q : Q) ks sts :
  length sts0 = length ks0 → (∀ i k, ks0 !! i = Some k → bk_cap_offset k = 0) →
  rep_ok σ0 ks0 sts0 σ ks sts →
  ∃ ks1 goods bads old nx1, rep_prep (Q:=Q) (S:=S) h ids ds blen nx ks sts = Some (ks1, goods, bads, old, nx1) ∧
    ∀ reqs n, length reqs = length bads →
    let '(σ1, res, st) := rs_row_request σ q (goods ++ reverse bads) reqs (length goods) n in
    rep_ok σ0 ks0 sts0 σ1 ks1 sts ∧ (length bads = 0%nat → ∀ i st, sts !! i = Some st → st = 0) ∧
    let '(ks2, sts2, q2, got) := rep_take (S:=S) ks1 sts res q in
    ∃ σ3 ks3 sts3 perr, row_devs pad_dev σ1 ks2 sts2 = Some (σ3, ks3, sts3, perr) ∧ rep_ok σ0 ks0 sts0 σ3 ks3 sts3 ∧
      got ≤ Z.of_nat (length bads) ∧ 0 ≤ perr ∧
      (Z.of_nat (length bads) - got + perr = 0 → ∀ i st, sts3 !! i = Some st → st = 0).
Proof.
  intros Hlen0 Hoff0 Hrep. pose proof Hrep as [[Hlk Hls] Heach _ _].
  assert (Hget : ∀ i k, ks !! i = Some k → ∃ k0 st0, ks0 !! i = Some k0 ∧ sts0 !! i = Some st0).
  { intros i k Hk. apply lookup_lt_Some in Hk. destruct (lookup_lt_is_Some_2 ks0 i) as [k0 ?]; [lia|].
    destruct (lookup_lt_is_Some_2 sts0 i) as [st0 ?]; [lia|]. by exists k0, st0. }
  destruct (rep_prep_spec h ids ds blen ks sts nx) as (ks1 & goods & bads & old & nx1 & Hp & Hl1 & Hbads & Hprep); [lia| |].
  { intros i k Hk Hst. destruct (Hget i k Hk) as (k0 & st0 & Hk0 & Hst0).
    destruct (Heach i k0 st0 Hk0 Hst0) as (k' & st & Hk' & Hst' & _ & _ & _ & Hd & _).
    assert (k' = k) as -> by congruence. apply Hd. congruence. }
  exists ks1, goods, bads, old, nx1. split; [done|]. intros reqs n Hreqs.
  destruct (rep_ok_prep σ0 ks0 sts0 blen Hlen0 σ ks sts ks1 Hrep Hl1 Hprep) as [Hrep1 Hdata].
  pose proof (λ c i, rs_row_frame σ q (goods ++ reverse bads) reqs (length goods) n c i) as Hfr.
  pose proof (rs_row_caps σ q (goods ++ reverse bads) reqs (length goods) n) as Hcaps.
  destruct (rs_row_request σ q _ _ _ _) as [[σ1 res] st]. destruct Hcaps as (Hlres & Hnd & Hfresh). simpl in Hfr.
  assert (∀ c, ds_live σ c → ds_live σ1 c ∧ ∀ i, ds_byte σ1 c i = ds_byte σ c i) as Hreq.
  { intros c Hc. split; [by apply (Hfr c 0)|]. intros i. by apply Hfr. }
  split.
  { pose proof Hrep1 as [Ha Hb Hc Hd]. split; [done| |done|].
    - intros i k0 st0 Hk0 Hst0. destruct (Hb i k0 st0 Hk0 Hst0) as (k & s & ? & ? & ? & ? & ? & ? & Hf).
      exists k, s. split_and!; try done. intros E E2. destruct (Hf E E2) as (c & ? & ? & ?). exists c. split_and!; try done. by apply Hreq.
    - intros c Hc0. destruct (Hd c Hc0) as [Hl Hby]. destruct (Hreq c Hl) as [? Hby2]. split; [done|]. intros i. by rewrite Hby2, Hby. }
  split. { intros Hz i s. apply bad_count_zero. lia. }
  destruct (rep_take_spec ks1 sts res q) as (ks2 & sts2 & q2 & got & -> & Hgot & Htake); [lia|lia|done|done|].
  pose proof Htake as (Hlk2 & Hls2 & Hall & _).
  destruct (row_devs_spec (λ st i, st = 2 ∧ i = blen - 1) pad_rel pad_dev ks2 sts2 σ1) as (σ3 & ks3 & sts3 & perr & Hpe & Hlk3 & Hls3 & Hpn & Hpad & Hlive & Hfr3).
  { lia. }
  { intros i k s Hk Hs. destruct (lookup_lt_is_Some_2 ks1 i) as [k1 Hk1]; [apply lookup_lt_Some in Hk; lia|].
    destruct (lookup_lt_is_Some_2 sts i) as [st1 Hst1]; [apply lookup_lt_Some in Hk; lia|].
    destruct (lookup_lt_is_Some_2 ks i) as [kk Hkk]; [apply lookup_lt_Some in Hk; lia|].
    destruct (Hget i kk Hkk) as (k0 & st0 & Hk0 & Hst0).
    destruct (Heach i k0 st0 Hk0 Hst0) as (? & ? & Hkk' & Hst1' & Hok & Hn2 & _).
    assert (st1 ≠ 2) as Hst2 by congruence.
    destruct (Hprep i kk st1 Hkk Hst1) as (k1' & Hk1' & Ho1 & _ & _ & Hmax). assert (k1' = k1) as -> by congruence.
    assert (bk_cap_offset k1 = 0) as Hz1 by (rewrite Ho1; rewrite <- (Hoff0 i k0 Hk0); congruence).
    destruct (Hall i k1 st1 Hk1 Hst1) as (k' & s' & Hk' & Hs' & Hz & Hne & _).
    assert (k' = k) as -> by congruence. assert (s' = s) as -> by congruence. destruct (Hdata i k1 Hk1) as [d1 Hd1].
    apply pad_dev_step.
    - destruct (decide (st1 = 0)) as [E|E]; [destruct (Hz E) as [-> _]; unfold bk_cap; rewrite Hd1; by eexists|].
      destruct (Hne E) as [[_ (c & Hc & _)]|[_ ->]]; [by eexists|unfold bk_cap; rewrite Hd1; by eexists].
    - destruct (decide (st1 = 0)) as [E|E]; [by destruct (Hz E) as [-> _]|].
      destruct (Hne E) as [[_ (c & _ & _ & Ho & _)]|[_ ->]]; [congruence|done].
    - intros ->. destruct (decide (st1 = 0)) as [E|E]; [by destruct (Hz E)|].
      destruct (Hne E) as [[_ (c & _ & _ & _ & Hm)]|[E2 _]]; [|by subst].
      destruct (Hmax E) as (d & Hd & Hdm). destruct (Hm d Hd) as (d' & ? & ?). exists d'. split; [done|congruence]. }
  exists σ3, ks3, sts3, perr. split; [done|].
  destruct (rep_ok_round σ0 ks0 sts0 blen Hlen0 σ σ1 σ3 ks1 sts ks2 sts2 ks3 sts3 (omap fst res)
    (got = Z.of_nat (bad_count sts)) perr Hrep1 Hreq Hfresh Htake) as [Hrep3 Hdone]; [lia|lia|done..|].
  split; [done|]. split; [lia|]. split; [done|]. intros Herr. apply Hdone; lia.
Qed.

(** The loop comes back whatever happens, and with no error left every device
    is good. *)
Lemma rep_loop_spec (h : attr_heap) ids ds blen σ0 ks0 sts0 fuel : ∀ nx σ (q : Q) ks sts old,
  length sts0 = length ks0 → (∀ i k, ks0 !! i = Some k → bk_cap_offset k = 0) →
  rep_ok σ0 ks0 sts0 σ ks sts →
  ∃ σ' ks' sts' old' nx' err, rep_loop fuel h ids ds blen nx σ q ks sts old = Some (σ', ks', sts', old', nx', err) ∧
    rep_ok σ0 ks0 sts0 σ' ks' sts' ∧ 0 ≤ err ∧ (err = 0 → ∀ i st, sts' !! i = Some st → st = 0).
Proof.
  induction fuel as [|fuel IH]; intros nx σ q ks sts old Hlen0 Hoff0 Hrep;
    destruct (rep_round h ids ds blen σ0 ks0 sts0 nx σ q ks sts Hlen0 Hoff0 Hrep)
      as (ks1 & goods & bads & old1 & nx1 & Hp & Hround); cbn [rep_loop]; rewrite Hp; cbn [mbind option_bind];
    specialize (Hround ((λ j, (Z.of_nat (length ks1) - 1 - Z.of_nat j, blen)) <$> seq 0 (length bads)) (length ks1)
      ltac:(by rewrite length_fmap, length_seq));
    destruct (rs_row_request σ q _ _ _ _) as [[σ1 res] st]; destruct Hround as (Hrep1 & Hz & Hround);
    (destruct (rep_kicked_out st); [do 6 eexists; split; [done|]; split; [done|]; split; [lia|]; intros E; apply Hz; lia|]);
    destruct (rep_take ks1 sts res q) as [[[ks2 sts2] q2] got];
    destruct Hround as (σ3 & ks3 & sts3 & perr & -> & Hrep3 & Hgot & Hpn & Hdone); cbn [mbind option_bind].
  - do 6 eexists. split; [done|]. split; [done|]. split; [lia|done].
  - case_decide as Herr.
    + by apply IH.
    + do 6 eexists. split; [done|]. split; [done|]. split; [lia|done].
Qed.

(** The blocks of a row after a repair that reports no error. *)
Lemma slun_row_replace_fix_spec (h : attr_heap) ids ds nx σ (q : Q) b sts :
  length sts = length (sr_block b) → (∀ i st, sts !! i = Some st → st ≠ 2) →
  (∀ i k, sr_block b !! i = Some k → bk_cap_offset k = 0 ∧ (sts !! i = Some 0 → is_Some (bk_data k))) →
  ∃ σ' ks sts' old nx' err,
    slun_row_replace_fix h ids ds nx σ q b sts = Some (σ', row_set_blocks b ks, sts', old, nx', err) ∧
    rep_ok σ (sr_block b) sts σ' ks sts' ∧ 0 ≤ err ∧ (err = 0 → ∀ i st, sts' !! i = Some st → st = 0).
Proof.
  intros Hl Hn2 Hk. unfold slun_row_replace_fix.
  destruct (rep_loop_spec h ids ds (sr_block_len b) σ (sr_block b) sts (Z.to_nat 9999) nx σ q (sr_block b) sts [])
    as (σ' & ks & sts' & old & nx' & err & -> & Hrep & Herr); [done| | |].
  - intros i k Hki. by apply (Hk i).
  - apply rep_ok_init; [done..|]. intros i k Hki. by apply (Hk i).
  - do 6 eexists. split; [reflexivity|]. done.
Qed.

(** C23: the repair of a row returns, whatever the resource service answers: its
    loop ends after at most 10000 rounds.  Blocks that were good are left alone;
    a block that is good afterwards and was not before is on an allocation made
    by the repair and shared with no other; the allocations there were keep
    their bytes; and when no error is reported every block of the row is
    good. *)
Theorem slun_row_replace_fix_correct (h : attr_heap) ids ds nx σ (q : Q) b sts :
  length sts = length (sr_block b) → (∀ i st, sts !! i = Some st → st ≠ 2) →
  (∀ i k, sr_block b !! i = Some k → bk_cap_offset k = 0 ∧ (sts !! i = Some 0 → is_Some (bk_data k))) →
  ∃ σ' ks sts' old nx' err,
    slun_row_replace_fix h ids ds nx σ q b sts = Some (σ', row_set_blocks b ks, sts', old, nx', err) ∧
    0 ≤ err ∧ (err = 0 → ∀ i st, sts' !! i = Some st → st = 0) ∧ length ks = length (sr_block b) ∧
    (∀ i k, sr_block b !! i = Some k → sts !! i = Some 0 → ks !! i = Some k ∧ sts' !! i = Some 0) ∧
    (∀ i k, ks !! i = Some k → sts' !! i = Some 0 → sts !! i ≠ Some 0 →
       ∃ c, bk_cap k = Some c ∧ ds_live σ' c ∧ ¬ ds_live σ c ∧
         ∀ j k', ks !! j = Some k' → sts' !! j = Some 0 → sts !! j ≠ Some 0 → bk_cap k' = Some c → j = i) ∧
    (∀ c, ds_live σ c → ds_live σ' c ∧ ∀ o, ds_byte σ' c o = ds_byte σ c o).
Proof.
  intros Hl Hn2 Hk.
  destruct (slun_row_replace_fix_spec h ids ds nx σ q b sts Hl Hn2 Hk)
    as (σ' & ks & sts' & old & nx' & err & -> & [[Hlk Hls] Heach Hinj Hfr] & Herr & Hall).
  do 6 eexists. split; [reflexivity|]. split; [done|]. split; [done|]. split; [done|]. split; [|split; [|done]].
  - intros i k Hki Hsi. destruct (Heach i k 0 Hki Hsi) as (k' & st' & Hk' & Hst' & _ & _ & Hkeep & _).
    destruct (Hkeep eq_refl) as [-> ->]. done.
  - intros i k Hki Hsi Hne.
    destruct (lookup_lt_is_Some_2 (sr_block b) i) as [k0 Hk0]; [rewrite <- Hlk; by eapply lookup_lt_Some|].
    destruct (lookup_lt_is_Some_2 sts i) as [st0 Hst0]; [rewrite Hl, <- Hlk; by eapply lookup_lt_Some|].
    destruct (Heach i k0 st0 Hk0 Hst0) as (k' & st' & Hk' & Hst' & _ & _ & _ & _ & Hnew).
    rewrite Hki in Hk'. injection Hk' as <-. rewrite Hsi in Hst'. injection Hst' as <-. destruct Hnew as (c & Hc & Hlive & Hfresh); [congruence|done|]. exists c.
    split; [done|]. split; [done|]. split; [done|]. intros j kj Hkj Hsj Hnej Hcj.
    by apply (Hinj j i kj k c).
Qed.
End repair.
