(* ===== verification/LunGrow.v ===== *)
(** * LUN segments: correctness of growing

    A growth that succeeds gives a well-formed segment of the rounded size with
    the old bytes in place; one that fails leaves the old size, the old bytes,
    and possibly rows past the end. *)
From stdpp Require Import strings gmap.
From S2P Require Import Prelude Isl Seg Inip DataBlock DataStore LunMap LunStore LunSeg LunRun LunSize LunRepair.
#[local] Open Scope Z_scope.

Lemma lun_round_spec g n :
  0 < stripe_size g → 0 ≤ n →
  n ≤ lun_round g n < n + stripe_size g ∧ (stripe_size g | lun_round g n).
Proof.
  intros Hs Hn. unfold lun_round. rewrite Z.quot_div_nonneg, Z.rem_mod_nonneg by lia.
  pose proof (Z.div_mod n (stripe_size g) ltac:(lia)) as Hd. pose proof (Z.mod_pos_bound n (stripe_size g) Hs).
  set (q := n / stripe_size g) in *. set (r := n mod stripe_size g) in *.
  case_decide; (split; [lia|]); [exists (q + 1)|exists q]; lia.
Qed.

Section grow.
Context {C W Q S : Type} `{!CapSet C W, !DataStore C Q S, !StoreView C S, !DataStoreOk C Q S}.
Context `{!LunStore C Q S, !LunStoreOk C Q S, !Gop, !GopOk, !ISL (seglun_row C W), !ISLOk (seglun_row C W)}.
Implicit Types (s : seglun_priv C W Q) (b : seglun_row C W) (σ : S) (l : list (seglun_row C W)).

(** ** Lists of rows *)

(** Same place, same allocation, same byte. *)
Lemma rows_byte_ext g σ σ' l l' b b' off :
  ranges_ok l → ranges_ok l' → b ∈ l → b' ∈ l' → covers off b → covers off b' →
  sr_seg_offset b' = sr_seg_offset b → (∀ i, row_cap b' i = row_cap b i) →
  (∀ c, row_cap b (lun_addr g (off - sr_seg_offset b)).1 = Some c →
     ds_byte σ' c (lun_addr g (off - sr_seg_offset b)).2 = ds_byte σ c (lun_addr g (off - sr_seg_offset b)).2) →
  rows_byte g σ' l' off = rows_byte g σ l off.
Proof.
  intros Hl Hl' Hb Hb' Hc Hc' Ho Hcap Hbyte. unfold rows_byte.
  rewrite (find_cover_Some off l b), (find_cover_Some off l' b') by done. unfold row_byte. rewrite Ho.
  destruct (lun_addr g (off - sr_seg_offset b)) as [i o]. simpl in Hbyte. rewrite Hcap.
  destruct (row_cap b i); [by apply Hbyte|done].
Qed.

(** What is in use stays as it is. *)
Definition store_keeps σ σ' : Prop := ∀ c, ds_live σ c → ds_live σ' c ∧ ∀ i, ds_byte σ' c i = ds_byte σ c i.

Lemma rows_ok_live g σ l b i c :
  rows_ok g σ l → b ∈ l → 0 ≤ i → row_cap b i = Some c → ds_live σ c.
Proof. intros (Hr & _ & Hl) Hb Hi Hc. by apply Hl, (rows_caps_elem g l b i). Qed.

Lemma rows_byte_keeps g σ σ' l l' lo hi off :
  geom_ok g → tiles lo hi l → rows_ok g σ l → ranges_ok l' → (∀ b, b ∈ l → b ∈ l') → store_keeps σ σ' →
  lo ≤ off < hi → rows_byte g σ' l' off = rows_byte g σ l off.
Proof.
  intros Hg [Hok Hcov] Hr Hl' Hin Hk Hoff. destruct (proj2 (Hcov off) Hoff) as (b & Hb & Hc).
  eapply (rows_byte_ext g σ σ' l l' b b); auto. intros c Hcap. apply Hk.
  apply (rows_ok_live g σ l b (lun_addr g (off - sr_seg_offset b)).1); [done|done| |done].
  destruct Hr as (Hrow & _). rewrite Forall_forall in Hrow.
  pose proof (row_addr_bounds g Hg b off (Hrow b Hb) Hc). destruct (lun_addr _ _). simpl. lia.
Qed.

Lemma rows_ok_keeps g σ σ' l : rows_ok g σ l → store_keeps σ σ' → rows_ok g σ' l.
Proof. intros (Hr & Hnd & Hl) Hk. split; [done|]. split; [done|]. intros c Hc. by apply Hk, Hl. Qed.

Lemma rows_ok_cons g σ b l :
  row_ok g b → NoDup (row_caps b) → (∀ c, c ∈ row_caps b → ds_live σ c ∧ c ∉ rows_caps l) → rows_ok g σ l →
  rows_ok g σ (b :: l).
Proof.
  intros Hb Hnd Hnew (Hr & Hndl & Hl). split; [by constructor|]. unfold rows_caps in *. rewrite bind_cons. split.
  - apply NoDup_app. split_and!; [done| |done]. intros c Hc. by apply Hnew.
  - intros c [Hc|Hc]%elem_of_app; [by apply Hnew|by apply Hl].
Qed.

(** The size of a well-formed segment is a whole number of stripes. *)
Lemma tiles_stripes g l e : tiles 0 e l → Forall (row_ok g) l → geom_ok g → 0 ≤ e → (stripe_size g | e).
Proof.
  intros [Hok Hc] Hr (_ & _ & Hs & _) He. destruct (decide (e = 0)) as [->|]; [apply Z.divide_0_r|].
  destruct (proj2 (Hc (e - 1)) ltac:(lia)) as (b & Hb & Hcb). rewrite Forall_forall in Hr.
  destruct (Hr b Hb) as (_ & _ & Hend & Hlen & [j Hj] & Hoff). unfold covers in Hcb. simpl in Hcb.
  pose proof (tiles_bounds 0 e l b (conj Hok Hc) Hb) as Hbd. simpl in Hbd.
  replace e with (sr_seg_offset b + stripe_size g * j) by nia.
  apply Z.divide_add_r; [done|]. by exists j; lia.
Qed.

(** ** A new row *)
Lemma all_caps_lookup (ks : list (seglun_block C W)) (i : nat) (c : C) :
  (∀ k, k ∈ ks → is_Some (bk_cap k)) → omap bk_cap ks !! i = Some c ↔ (ks !! i ≫= bk_cap) = Some c.
Proof.
  intros Hk. revert i. induction ks as [|k ks IH]; intros i; [done|].
  destruct (Hk k ltac:(by left)) as [c' Hc'].
  replace (omap bk_cap (k :: ks)) with (c' :: omap bk_cap ks) by (cbn; by rewrite Hc').
  destruct i as [|i]; simpl; [by rewrite Hc'|]. apply IH. intros x ?. apply Hk. by right.
Qed.

Lemma new_row_ok g σ σ' off blen (ks : list (seglun_block C W)) sts :
  geom_ok g → 0 < blen → (chunk_size g | blen) → (stripe_size g | off) →
  let n := Z.to_nat (n_devices g) in
  rep_ok σ (replicate n (Seglun_block None 0 0 0)) (replicate n 1) σ' ks sts →
  (∀ i st, sts !! i = Some st → st = 0) →
  let b : seglun_row C W := Seglun_row ks off (off + blen * n_devices g - 1) blen (blen * n_devices g) in
  row_ok g b ∧ NoDup (row_caps b) ∧ ∀ c, c ∈ row_caps b → ds_live σ' c ∧ ¬ ds_live σ c.
Proof.
  intros Hg Hbl Hch Hst n [[Hlk Hls] Heach Hinj _] Hz b. rewrite length_replicate in *.
  assert (Hk : ∀ i k, ks !! i = Some k → sts !! i = Some 0 ∧ bk_cap_offset k = 0 ∧
    ∃ c, bk_cap k = Some c ∧ ds_live σ' c ∧ ¬ ds_live σ c).
  { intros i k Hki. apply lookup_lt_Some in Hki as Hi.
    destruct (Heach i (Seglun_block None 0 0 0) 1) as (k' & st & Hk' & Hs & Ho & _ & _ & _ & Hf);
      [by apply lookup_replicate_2; lia..|].
    pose proof (Hz i st Hs) as ->. assert (k' = k) as -> by congruence. split; [done|]. split; [done|]. by apply Hf. }
  assert (∀ k, k ∈ ks → is_Some (bk_cap k) ∧ bk_cap_offset k = 0) as Hall.
  { intros k [i Hi]%list_elem_of_lookup. destruct (Hk i k Hi) as (_ & ? & c & ? & _). split; [by eexists|done]. }
  assert (∀ k, k ∈ ks → is_Some (bk_cap k)) as Hall' by (intros; by apply Hall).
  pose proof Hg as (Hn & _). split; [|split].
  - split; [simpl; lia|]. split; [done|]. simpl. split_and!; [lia|lia|done|done].
  - apply NoDup_alt. intros i j c Hi Hj. apply (all_caps_lookup _ _ _ Hall') in Hi, Hj. simpl in Hi, Hj.
    destruct (ks !! i) as [k1|] eqn:H1i; [|done]. destruct (ks !! j) as [k2|] eqn:H2j; [|done]. simpl in *.
    destruct (Hk i k1 H1i) as [Hsi _], (Hk j k2 H2j) as [Hsj _].
    apply (Hinj i j k1 k2 c); try done; intros E%lookup_replicate_1; by destruct E.
  - intros c Hc. apply list_elem_of_lookup in Hc as [i Hi]. apply (all_caps_lookup _ _ _ Hall') in Hi. simpl in Hi.
    destruct (ks !! i) as [k1|] eqn:H1i; [|done]. simpl in Hi. destruct (Hk i k1 H1i) as (_ & _ & c' & Hc' & ? & ?).
    by assert (c' = c) as -> by congruence.
Qed.

(** ** The new rows *)

(** The rows up to [e], over a store that keeps what [σ0] had. *)
Definition part_ok g σ (m : isl) (e : Z) : Prop :=
  0 ≤ e ∧ tiles 0 e (isl_all m) ∧ rows_ok g σ (isl_all m).

Lemma part_ok_insert g σ σ' m e b blen :
  geom_ok g → part_ok g σ m e → store_keeps σ σ' → 0 < blen →
  sr_seg_offset b = e → sr_seg_end b = e + blen * n_devices g - 1 →
  row_ok g b → NoDup (row_caps b) → (∀ c, c ∈ row_caps b → ds_live σ' c ∧ ¬ ds_live σ c) →
  part_ok g σ' (row_insert b m) (e + blen * n_devices g) ∧
  ∀ off, 0 ≤ off < e → rows_byte g σ' (isl_all (row_insert b m)) off = rows_byte g σ (isl_all m) off.
Proof.
  intros Hg (He & Ht & Hr) Hk Hbl Hoff Hend Hb Hnd Hnew. pose proof Hg as (Hn & _).
  assert (valid b) as Hv by (unfold valid; simpl; nia).
  pose proof (isl_all_insert b m Hv) as Hi. simpl in Hi. fold (row_insert b m) in Hi.
  assert (tiles 0 (e + blen * n_devices g) (isl_all (row_insert b m))) as Ht'.
  { rewrite Hi, Permutation_cons_append. apply (tiles_app 0 e); [nia|done|].
    apply tiles_one; [nia|done|done]. }
  split; [split; [nia|]; split; [done|]|].
  - apply (rows_ok_perm _ _ (b :: isl_all m)); [by rewrite Hi|]. apply rows_ok_cons; [done|done| |by apply (rows_ok_keeps g σ)].
    intros c Hc. destruct (Hnew c Hc) as [? Hd]. split; [done|]. intros Hin. by apply Hd, Hr.
  - intros off Ho. apply (rows_byte_keeps g σ σ' _ _ 0 e); [done|done|done|apply Ht'| |done|done].
    intros x Hx. rewrite Hi. by right.
Qed.

Lemma lun_grow_rows_spec (h : attr_heap) ids s new_size fuel : ∀ nx σ m cleanup off e,
  geom_ok (lu_geom s) → 0 < lu_max_block_size s → (chunk_size (lu_geom s) | lu_max_block_size s) →
  lu_max_row_size s = lu_max_block_size s * n_devices (lu_geom s) → (stripe_size (lu_geom s) | new_size) →
  part_ok (lu_geom s) σ m e → e ≤ new_size → (off = e ∨ new_size = e ∧ new_size ≤ off) → new_size - off ≤ Z.of_nat fuel →
  ∃ σ' m' cleanup' err e', lun_grow_rows fuel h ids s nx σ m cleanup new_size off = Some (σ', m', cleanup', err) ∧
    part_ok (lu_geom s) σ' m' e' ∧ e ≤ e' ≤ new_size ∧ (err = 0 → e' = new_size) ∧ store_keeps σ σ' ∧
    ∀ o, 0 ≤ o < e → rows_byte (lu_geom s) σ' (isl_all m') o = rows_byte (lu_geom s) σ (isl_all m) o.
Proof.
  set (g := lu_geom s).
  induction fuel as [|fuel IH]; intros nx σ m cleanup off e Hg Hmb Hmc Hmr Hns Hp Hle Hoff Hf; cbn [lun_grow_rows]; fold g.
  { rewrite decide_False by lia. do 4 eexists. exists e. split; [done|]. split_and!; try done; try lia; by intros. }
  case_decide as Hlt; cycle 1.
  { do 4 eexists. exists e. split; [done|]. split_and!; try done; try lia; by intros. }
  assert (off = e) as -> by lia. pose proof Hg as (Hn & Hc & Hs & Hsh). pose proof Hp as (He & Ht & Hr).
  pose proof (tiles_stripes g _ e Ht ltac:(apply Hr) Hg He) as Hse.
  set (dsize := if decide (e + lu_max_row_size s > new_size) then new_size - e else lu_max_row_size s).
  assert (∃ j, dsize = n_devices g * (chunk_size g * j) ∧ 0 < j ∧ e + dsize ≤ new_size ∧
     (e + dsize = e + lu_max_row_size s ∨ e + dsize = new_size ∧ new_size ≤ e + lu_max_row_size s)) as (j & Hj & Hj0 & Hle' & Hnext).
  { unfold dsize. case_decide.
    - destruct (Z.divide_sub_r _ _ _ Hns Hse) as [j Hj]. fold g in Hj. exists j. split; [nia|]. split; [nia|]. lia.
    - destruct Hmc as [j Hj]. fold g in Hj. exists j. split; [nia|]. split; [nia|]. lia. }
  clearbody dsize. assert (dsize `quot` n_devices g = chunk_size g * j) as Hq.
  { rewrite Hj, Z.mul_comm, Z.quot_mul by lia. done. }
  rewrite Hq. set (blen := chunk_size g * j). set (b := Seglun_row _ _ _ _ _).
  destruct (slun_row_replace_fix_spec h ids (lu_ds s) nx σ (lu_rsq s) b (replicate (Z.to_nat (n_devices g)) 1))
    as (σ1 & ks & sts & old & nx1 & err & -> & Hrep & Herr & Hdone).
  { simpl. by rewrite !length_replicate. }
  { intros i st [-> _]%lookup_replicate_1. done. }
  { intros i k [-> _]%lookup_replicate_1. split; [done|]. by intros [? _]%lookup_replicate_1. }
  cbn [mbind option_bind]. simpl sr_block in Hrep.
  assert (store_keeps σ σ1) as Hk1 by (intros c Hc0; by apply (rep_frame _ _ _ _ _ _ Hrep)).
  case_decide as Herr0.
  - destruct (new_row_ok g σ σ1 e blen ks sts Hg) as (Hb & Hnd & Hnew); [nia|by exists j; lia|done|done|by apply Hdone|].
    destruct (part_ok_insert g σ σ1 m e (row_set_blocks b ks) blen Hg Hp Hk1) as [Hp1 Hb1]; [nia|done|done|done|done|done|].
    destruct (IH nx1 σ1 (row_insert (row_set_blocks b ks) m) (reverse old ++ cleanup) (e + lu_max_row_size s) (e + blen * n_devices g))
      as (σ' & m' & cl & err' & e' & Heq & Hp' & He' & Hz & Hk' & Hb'); [done..| | |fold g in Hmr; nia|].
    { unfold blen. nia. }
    { unfold blen. nia. }
    do 4 eexists. exists e'. split; [exact Heq|]. split; [done|]. split; [unfold blen in *; nia|]. split; [done|]. split.
    + intros c Hc0. destruct (Hk1 c Hc0) as [Hl Hby]. destruct (Hk' c Hl) as [? Hby']. split; [done|]. intros i. by rewrite Hby', Hby.
    + intros o Ho. rewrite Hb', Hb1 by (unfold blen; nia). done.
  - do 4 eexists. exists e. split; [done|]. split; [split; [done|]; split; [done|]; by apply (rows_ok_keeps g σ)|].
    split; [lia|]. split; [done|]. split; [done|]. intros o Ho.
    apply (rows_byte_keeps g σ σ1 _ _ 0 e); try done. apply Ht.
Qed.

(** ** Stretching the last row *)

(** Blocks on the same allocations. *)
Definition blocks_same : list (seglun_block C W) → list (seglun_block C W) → Prop :=
  Forall2 (λ k k', bk_cap k' = bk_cap k ∧ bk_cap_offset k' = bk_cap_offset k).

Lemma blocks_same_refl ks : blocks_same ks ks.
Proof. by apply Forall_Forall2_diag, Forall_forall. Qed.
Lemma blocks_same_trans k1 k2 k3 : blocks_same k1 k2 → blocks_same k2 k3 → blocks_same k1 k3.
Proof.
  intros H12 H23. revert k3 H23. induction H12 as [|x y k1 k2 [E1 E2] _ IH]; intros k3 H23; inversion H23 as [|? z ? k3' [E3 E4]]; subst; constructor.
  - split; congruence.
  - by apply IH.
Qed.
Lemma blocks_same_caps ks ks' : blocks_same ks ks' → omap bk_cap ks' = omap bk_cap ks.
Proof. induction 1 as [|k k' ks ks' [E _] _ IH]; [done|]. cbn. rewrite E. by rewrite IH. Qed.
Lemma blocks_same_cap (ks ks' : list (seglun_block C W)) i : blocks_same ks ks' → (ks' !! i ≫= bk_cap) = (ks !! i ≫= bk_cap).
Proof.
  intros Hs. destruct (ks !! i) as [k|] eqn:Hk.
  - destruct (Forall2_lookup_l _ _ _ _ _ Hs Hk) as (k' & Hk' & E & _). rewrite Hk'. exact E.
  - apply lookup_ge_None_1 in Hk. rewrite (Forall2_length _ _ _ Hs) in Hk. by rewrite lookup_ge_None_2.
Qed.

Lemma row_ok_resize g b (ks : list (seglun_block C W)) blen :
  row_ok g b → blocks_same (sr_block b) ks → (chunk_size g | blen) →
  row_ok g (row_set_blocks (row_set_len b blen (blen * n_devices g)) ks).
Proof.
  intros (Hn & Hk & _ & _ & _ & Hst) Hs Hch. split; [simpl; by rewrite <- (Forall2_length _ _ _ Hs)|]. split.
  - intros k Hin. destruct (Forall2_elem_r _ _ _ _ Hs Hin) as (k0 & Hk0 & -> & ->). by apply Hk.
  - simpl. split_and!; [done|lia|done|done].
Qed.

Lemma row_devs_same (I : Z → Z → Prop) T f (ks : list (seglun_block C W)) sts σ :
  length sts = length ks → (∀ i k st, ks !! i = Some k → sts !! i = Some st → dev_step I T f k st) →
  ∃ σ' ks' sts' n, row_devs f σ ks sts = Some (σ', ks', sts', n) ∧ blocks_same ks ks' ∧ length sts' = length ks' ∧
    (∀ i k' st', ks' !! i = Some k' → sts' !! i = Some st' →
       ∃ k st m, ks !! i = Some k ∧ sts !! i = Some st ∧ T k st k' st' m) ∧
    (∀ c, ds_live σ c → ds_live σ' c) ∧
    (∀ c i, (∀ j k st, ks !! j = Some k → sts !! j = Some st → bk_cap k = Some c → ¬ I st i) → ds_byte σ' c i = ds_byte σ c i).
Proof.
  intros Hl Hf. destruct (row_devs_spec I T f ks sts σ Hl Hf) as (σ' & ks' & sts' & n & He & Hlk & Hls & _ & Hall & Hlive & Hfr).
  exists σ', ks', sts', n. split; [done|]. split; [|split; [lia|split; [|done]]].
  - apply Forall2_same_length_lookup. split; [done|]. intros i k k' Hk Hk'.
    destruct (lookup_lt_is_Some_2 sts i) as [st Hst]; [apply lookup_lt_Some in Hk; lia|].
    destruct (Hall i k st Hk Hst) as (k2 & st2 & m & Hk2 & _ & ? & ? & _). by assert (k2 = k') as -> by congruence.
  - intros i k' st' Hk' Hst'.
    destruct (lookup_lt_is_Some_2 ks i) as [k Hk]; [apply lookup_lt_Some in Hk'; lia|].
    destruct (lookup_lt_is_Some_2 sts i) as [st Hst]; [apply lookup_lt_Some in Hk'; lia|].
    destruct (Hall i k st Hk Hst) as (k2 & st2 & m & Hk2 & Hst2 & _ & _ & HT & _). exists k, st, m.
    split; [done|]. split; [done|]. congruence.
Qed.

Lemma stretch_spec σ b1 n :
  (∀ k, k ∈ sr_block b1 → is_Some (bk_cap k) ∧ bk_cap_offset k = 0) → length (sr_block b1) = n →
  ∃ σ' ks berr, stretch σ b1 (replicate n 0) = Some (σ', row_set_blocks b1 ks, berr) ∧ blocks_same (sr_block b1) ks ∧
    (∀ c, ds_live σ c → ds_live σ' c) ∧
    ∀ c i, (c ∈ row_caps b1 → i < sr_block_len b1 - 1) → ds_byte σ' c i = ds_byte σ c i.
Proof.
  intros Hk Hn. set (blen := sr_block_len b1).
  assert (Hcaps : ∀ (ks : list (seglun_block C W)) j k c, ks !! j = Some k → bk_cap k = Some c → c ∈ omap bk_cap ks).
  { intros ks j k c Hj Hc. apply list_elem_of_omap. exists k. split; [by eapply list_elem_of_lookup_2|done]. }
  destruct (row_devs_same (λ _ i, blen ≤ i) (size_rel blen) (size_dev σ blen) (sr_block b1) (replicate n 0) σ)
    as (σ1 & ks1 & sts1 & n1 & He1 & Hs1 & Hl1 & HT1 & Hlv1 & Hfr1).
  { by rewrite length_replicate. }
  { intros i k st Hki Hst. destruct (Hk k) as [? ?]; [by eapply list_elem_of_lookup_2|]. by apply size_dev_step. }
  assert (∀ c i, (c ∈ row_caps b1 → i < blen - 1) → ds_byte σ1 c i = ds_byte σ c i) as Hb1.
  { intros c i Hi. apply Hfr1. intros j k st Hj _ Hc Hge. specialize (Hi (Hcaps _ j k c Hj Hc)). lia. }
  unfold stretch, slun_row_size_check. fold blen. rewrite He1. cbn [mbind option_bind].
  case_decide as Hex; [|exists σ1, ks1, 0; by split_and!].
  destruct (row_devs_same (λ st i, st = 2 ∧ i = blen - 1) pad_rel pad_dev ks1 sts1 σ1)
    as (σ2 & ks2 & sts2 & n2 & He2 & Hs2 & _ & _ & Hlv2 & Hfr2); [done| |].
  { intros i k st Hki Hst. destruct (HT1 i k st Hki Hst) as (k0 & st0 & m & Hk0 & [-> _]%lookup_replicate_1 & Hsz).
    destruct (Forall2_lookup_l _ _ _ _ _ Hs1 Hk0) as (k' & Hk' & Hc' & Ho'). assert (k' = k) as -> by congruence.
    destruct (Hk k0) as [? ?]; [by eapply list_elem_of_lookup_2|]. apply pad_dev_step; [congruence|congruence|].
    intros E. by destruct (Hsz E). }
  unfold slun_row_pad_fix. simpl. rewrite He2. cbn [mbind option_bind].
  exists σ2, ks2, n2. split; [done|]. split; [by eapply blocks_same_trans|]. split; [auto|].
  intros c i Hi. rewrite Hfr2; [by apply Hb1|]. intros j k st Hj _ Hc [_ ->].
  specialize (Hi ltac:(unfold row_caps; rewrite <- (blocks_same_caps _ _ Hs1); by apply (Hcaps _ j k c))). lia.
Qed.

Lemma row_revert_blocks g b old :
  ∃ ks, row_revert b g old = row_set_blocks (row_set_len b old (old * n_devices g)) ks ∧ blocks_same (sr_block b) ks.
Proof.
  eexists. split; [done|]. apply Forall2_fmap_r, Forall_Forall2_diag, Forall_forall. intros k _.
  by destruct k as [[d|] ? ? ?].
Qed.

Lemma lun_grow_last_spec σ s new_size :
  lun_ok σ s → (stripe_size (lu_geom s) | new_size) → lu_total_size s < new_size →
  ∃ σ' m e, lun_grow_last σ s new_size = Some (σ', m, e) ∧ part_ok (lu_geom s) σ' m e ∧
    lu_total_size s ≤ e ≤ new_size ∧ (∀ c, ds_live σ c → ds_live σ' c) ∧
    ∀ off, 0 ≤ off < lu_total_size s → rows_byte (lu_geom s) σ' (isl_all m) off = lun_byte σ s off.
Proof.
  intros (Hg & H0' & Ht & Hr & Hmb & Hmc & Hmr) Hns Hlt. pose proof Hg as (Hn & Hc & Hs & Hsh).
  unfold lun_grow_last. set (g := lu_geom s) in *. set (total := lu_total_size s) in *.
  case_decide as Hpos; cycle 1.
  { exists σ, (lu_isl s), total. by split_and!; [..|lia|lia| |]. }
  destruct (tiles_search (lu_isl s) 0 total (total - 1) total Ht) as (b & hits & rest & -> & Hcb & Hall & _); [lia|lia|].
  assert (b ∈ isl_all (lu_isl s)) as Hb by (rewrite Hall; by left).
  pose proof (tiles_bounds _ _ _ _ Ht Hb) as Hbd. unfold covers in Hcb. simpl in Hcb, Hbd.
  assert (row_ok g b) as Hbo by (destruct Hr as (Hr & _); rewrite Forall_forall in Hr; auto).
  pose proof Hbo as (Hbn & Hbk & Hend & Hlen & [j Hj] & Hst). cbn [head mbind option_bind].
  assert (sr_seg_end b = total - 1) as Hse by lia.
  case_decide as Hroom; cycle 1.
  { exists σ, (lu_isl s), total. rewrite Hse. replace (total - 1 + 1) with total by lia. by split_and!; [..|lia|lia| |]. }
  set (d0 := (new_size - sr_seg_offset b) `quot` n_devices g).
  assert (∃ t, d0 = chunk_size g * t ∧ n_devices g * d0 = new_size - sr_seg_offset b) as (t & Hd0 & Hnd0).
  { destruct (Z.divide_sub_r _ _ _ Hns Hst) as [t Ht']. exists t. unfold d0.
    replace (new_size - sr_seg_offset b) with (n_devices g * (chunk_size g * t)) by nia.
    rewrite Z.mul_comm, Z.quot_mul by lia. lia. }
  assert (d0 + d0 `rem` chunk_size g = d0) as ->.
  { rewrite Hd0, Z.mul_comm, Z.rem_mul by lia. lia. }
  set (dsize := if decide (d0 > lu_max_block_size s) then lu_max_block_size s else d0).
  assert (sr_block_len b < dsize ∧ (chunk_size g | dsize) ∧ dsize * n_devices g ≤ new_size - sr_seg_offset b) as (Hgt & Hdc & Hdn).
  { unfold dsize. case_decide; split_and!; try done; try nia. by exists t; lia. }
  clearbody dsize. set (b1 := row_set_len b dsize (dsize * n_devices g)).
  destruct (stretch_spec σ b1 (Z.to_nat (n_devices g))) as (σ1 & ks & berr & -> & Hsame & Hlive & Hfr); [done|simpl; lia|].
  cbn [mbind option_bind]. set (b2 := row_set_blocks b1 ks).
  set (b3 := if decide (berr > 0) then row_revert b2 g (sr_block_len b) else b2).
  assert (∃ len ks3, b3 = row_set_blocks (row_set_len b len (len * n_devices g)) ks3 ∧ blocks_same (sr_block b) ks3 ∧
    (len = dsize ∨ len = sr_block_len b)) as (len & ks3 & Hb3 & Hsame3 & Hl3).
  { unfold b3. case_decide; [|exists dsize, ks; by split_and!; [| |left]].
    destruct (row_revert_blocks g b2 (sr_block_len b)) as (ks3 & -> & Hs3). exists (sr_block_len b), ks3.
    split; [done|]. split; [by eapply blocks_same_trans|by right]. }
  clearbody b3. subst b3. set (b3 := row_set_blocks (row_set_len b len (len * n_devices g)) ks3).
  assert (row_ok g b3) as Hb3.
  { apply row_ok_resize; [done|done|]. destruct Hl3 as [->| ->]; [done|]. by exists j. }
  assert (∀ i, row_cap b3 i = row_cap b i) as Hcap3 by (intros i; by apply blocks_same_cap).
  assert (row_caps b3 = row_caps b) as Hcaps3 by (by apply blocks_same_caps).
  assert (0 < sr_block_len b) as Hbl by nia.
  assert (valid b3) as Hv3 by (unfold valid; simpl; nia).
  assert (isl_all (row_insert b3 (row_remove b (lu_isl s))) ≡ₚ b3 :: hits ++ rest) as Hall3 by (by apply row_put_all).
  set (e := sr_seg_offset b + len * n_devices g).
  assert (tiles 0 e (b3 :: hits ++ rest)) as Ht3.
  { apply (tiles_last 0 total e b); [by rewrite <- Hall|done|done|done|simpl; nia]. }
  assert (total ≤ e ≤ new_size) as He by (unfold e; destruct Hl3 as [->| ->]; nia).
  exists σ1, (row_insert b3 (row_remove b (lu_isl s))), e.
  split; [unfold e; simpl; do 2 f_equal; lia|].
  apply (rows_ok_perm _ _ _ _ Hall) in Hr.
  split; [split; [lia|]; split; [by rewrite Hall3|]|split; [done|split; [done|]]].
  - apply (rows_ok_perm _ _ (b3 :: hits ++ rest)); [by rewrite Hall3|]. destruct Hr as (Hrow & Hnd & Hlv).
    inversion Hrow; subst. split; [by constructor|]. unfold rows_caps in *. rewrite bind_cons in *. rewrite Hcaps3. split; [done|].
    intros c Hc'. by apply Hlive, Hlv.
  - intros off Hoff. destruct (proj2 (proj2 Ht off) Hoff) as (x & Hx & Hcx).
    assert (row_ok g x) as Hxo by (destruct Hr as (Hr & _); rewrite Forall_forall in Hr; apply Hr; by rewrite <- Hall).
    pose proof (row_addr_bounds g Hg x off Hxo Hcx) as Ha.
    assert (∃ x', x' ∈ b3 :: hits ++ rest ∧ covers off x' ∧ sr_seg_offset x' = sr_seg_offset x ∧ ∀ i, row_cap x' i = row_cap x i) as (x' & Hx' & Hcx' & Ho' & Hcap').
    { pose proof Hx as Hx2. rewrite Hall in Hx2. apply elem_of_cons in Hx2 as [->|Hx2]; [|exists x; by split_and!; [right| | |]].
      exists b3. unfold covers in *. simpl in *. split_and!; [by left|lia| |done|done].
      destruct Hl3 as [->| ->]; nia. }
    unfold lun_byte. apply (rows_byte_ext g σ σ1 (isl_all (lu_isl s)) _ x x'); [apply Ht|rewrite Hall3; apply Ht3|done|by rewrite Hall3|done|done|done|done|].
    destruct (lun_addr g (off - sr_seg_offset x)) as [i o]. destruct Ha as (Hi & Ho & _). simpl. intros c Hc'. apply Hfr. intros Hin.
    assert (x = b) as ->; [|unfold b1; simpl; lia].
    apply list_elem_of_lookup in Hin as [i2 Hi2].
    assert (row_cap b (Z.of_nat i2) = Some c) as Hc2.
    { rewrite <- (row_caps_lookup g b (Z.of_nat i2)) by (done || lia). by rewrite Nat2Z.id. }
    destruct Hr as (Hrow & Hnd & _).
    by apply (rows_caps_inj g _ x b i (Z.of_nat i2) c Hrow Hnd); [rewrite <- Hall|left|lia|lia| |].
Qed.

(** ** The whole growth *)

(** A segment whose rows may go past its size, as a failed growth leaves it. *)
Definition lun_grown_ok σ s (e : Z) : Prop :=
  geom_ok (lu_geom s) ∧ 0 ≤ lu_total_size s ≤ e ∧ part_ok (lu_geom s) σ (lu_isl s) e.

Lemma seglun_grow_spec (h : attr_heap) ids σ s new_size_arg :
  lun_ok σ s → lu_total_size s < Z.abs new_size_arg →
  ∃ σ' s' st, seglun_grow h ids σ s new_size_arg = Some (σ', s', st) ∧
    lu_geom s' = lu_geom s ∧ lu_grow_count s' = lu_grow_count s + 1 ∧ lu_notify_version s' = lu_notify_version s ∧
    (∀ off, 0 ≤ off < lu_total_size s → lun_byte σ' s' off = lun_byte σ s off) ∧
    (st = op_success_status ∧ lun_ok σ' s' ∧ lu_total_size s' = lun_round (lu_geom s) (Z.abs new_size_arg) ∧
       lu_used_size s' = (if decide (0 ≤ new_size_arg) then lu_total_size s' else lu_used_size s) ∨
     st = op_failure_status ∧ lu_total_size s' = lu_total_size s ∧ lu_used_size s' = lu_used_size s ∧
       ∃ e, lun_grown_ok σ' s' e).
Proof.
  intros Hs Hlt. pose proof Hs as (Hg & Hz & Ht & Hr & Hmb & Hmc & Hmr). pose proof Hg as (Hn & Hc & Hst & Hsh).
  unfold seglun_grow. replace (if decide (new_size_arg < 0) then - new_size_arg else new_size_arg) with (Z.abs new_size_arg)
    by (case_decide; lia).
  rewrite decide_False, decide_False by nia.
  pose proof (lun_round_spec (lu_geom s) (Z.abs new_size_arg) ltac:(nia) ltac:(lia)) as [Hrd Hdiv].
  set (new_size := lun_round (lu_geom s) (Z.abs new_size_arg)) in *.
  destruct (lun_grow_last_spec σ s new_size Hs Hdiv) as (σ1 & m1 & e1 & -> & Hp1 & He1 & Hlv1 & Hb1); [lia|].
  cbn [mbind option_bind].
  destruct (lun_grow_rows_spec h ids s new_size (Z.to_nat (new_size - e1)) 0%nat σ1 m1 (lu_db_cleanup s) e1 e1)
    as (σ2 & m2 & cl & err & e2 & -> & Hp2 & He2 & Hfull & _ & Hb2); [done..|lia|by left|lia|].
  cbn [mbind option_bind].
  assert (∀ off, 0 ≤ off < lu_total_size s → rows_byte (lu_geom s) σ2 (isl_all m2) off = lun_byte σ s off) as Hb.
  { intros off Hoff. rewrite Hb2, Hb1 by lia. done. }
  destruct (decide (err = 0)) as [Herr|Herr]; do 3 eexists; (split; [reflexivity|]); simpl; split_and!; try done.
  - left. split; [done|]. rewrite (Hfull Herr) in Hp2. destruct Hp2 as (Hnn & Ht2 & Hr2). split.
    + split; [done|]. split; [simpl; lia|]. by split_and!.
    + split; [done|]. repeat case_decide; lia.
  - right. split_and!; [done..|]. exists e2. split; [done|]. split; [simpl; lia|done].
Qed.
End grow.
