(* ===== verification/LunShrink.v ===== *)
(** * LUN segments: correctness of shrinking and truncation

    A shrink cuts the rows past the new size, rounded up to whole stripes, and
    leaves the bytes before it alone; [slun_truncate] chooses between the two
    ways of resizing. *)
From stdpp Require Import strings gmap.
From S2P Require Import Prelude Isl Seg Inip DataBlock DataStore LunMap LunStore LunSeg LunRun LunSize LunRepair LunGrow.
#[local] Open Scope Z_scope.

Section shrink.
Context {C W Q S : Type} `{!CapSet C W, !DataStore C Q S, !StoreView C S, !DataStoreOk C Q S}.
Context `{!LunStore C Q S, !LunStoreOk C Q S, !Gop, !GopOk, !ISL (seglun_row C W), !ISLOk (seglun_row C W)}.
Implicit Types (s : seglun_priv C W Q) (b : seglun_row C W) (σ : S) (l : list (seglun_row C W)).

(** ** Releasing and cutting allocations *)

(** A list of operations, each of which keeps what [P] says of the other
    allocations. *)
Lemma ds_each_keeps (f : S → C → S * op_status) (P : C → Z → Prop) cs :
  (∀ σ c c', c ∈ cs → (∀ i, P c' i → ds_byte (f σ c).1 c' i = ds_byte σ c' i)) →
  ∀ σ c' i, P c' i → ds_byte (ds_each f σ cs).1 c' i = ds_byte σ c' i.
Proof.
  induction cs as [|c cs IH]; intros Hf σ c' i HP; [done|]. cbn [ds_each].
  pose proof (Hf σ c c' ltac:(by left) i HP) as H1c. destruct (f σ c) as [σ1 st].
  specialize (IH ltac:(intros ????; apply Hf; by right) σ1 c' i HP). destruct (ds_each f σ1 cs) as [σ2 sts].
  simpl in *. congruence.
Qed.
Lemma ds_each_live (f : S → C → S * op_status) c' cs :
  (∀ σ c, c ∈ cs → ds_live σ c' → ds_live (f σ c).1 c') → ∀ σ, ds_live σ c' → ds_live (ds_each f σ cs).1 c'.
Proof.
  induction cs as [|c cs IH]; intros Hf σ HP; [done|]. cbn [ds_each].
  pose proof (Hf σ c ltac:(by left) HP) as H1c. destruct (f σ c) as [σ1 st].
  specialize (IH ltac:(intros τ d Hd; apply Hf; by right) σ1 H1c). by destruct (ds_each f σ1 cs) as [σ2 sts].
Qed.

Lemma rows_need_caps g l : Forall (row_ok g) l → rows_need l = Some (rows_caps l).
Proof.
  unfold rows_need, rows_caps. intros Hl.
  assert (mapM (λ b, mapM bk_cap (sr_block b)) l = Some (row_caps <$> l)) as ->.
  { induction Hl as [|b l (_ & Hk & _) _ IH]; [done|]. cbn [mapM]. rewrite IH.
    assert (mapM bk_cap (sr_block b) = Some (row_caps b)) as ->; [|done].
    unfold row_caps. clear IH. induction (sr_block b) as [|k ks IH]; [done|]. cbn [mapM].
    destruct (Hk k ltac:(by left)) as [[c Hc] _]. rewrite IH by (intros; apply Hk; by right).
    rewrite Hc. cbn. by rewrite Hc. }
  simpl. f_equal. clear Hl. induction l as [|b l IH]; [done|]. simpl. f_equal. exact IH.
Qed.

Lemma row_remove_list l (m : isl) k :
  isl_all m ≡ₚ l ++ k → isl_all (foldl (λ m b, row_remove b m) m l) ≡ₚ k.
Proof.
  revert m. induction l as [|b l IH]; intros m Hm; simpl; [done|]. apply IH. unfold row_remove.
  assert (b ∈ isl_all m) as Hb by (rewrite Hm; by left).
  pose proof (isl_all_remove b m Hb) as Hr. simpl in Hr. rewrite Hm in Hr. by apply Permutation_cons_inv in Hr.
Qed.

(** ** The rows that stay *)

Lemma rows_caps_app l1 l2 : rows_caps (l1 ++ l2) = rows_caps l1 ++ rows_caps l2.
Proof. apply bind_app. Qed.

Lemma rows_ok_split g σ l1 l2 :
  rows_ok g σ (l1 ++ l2) → rows_ok g σ l1 ∧ rows_ok g σ l2 ∧ ∀ c, c ∈ rows_caps l1 → c ∉ rows_caps l2.
Proof.
  intros (Hr & Hnd & Hl). rewrite rows_caps_app in *. apply Forall_app in Hr as [Hr1 Hr2].
  apply NoDup_app in Hnd as (Hnd1 & Hd & Hnd2). split; [|split; [|done]].
  - split; [done|]. split; [done|]. intros c Hc. apply Hl, elem_of_app. by left.
  - split; [done|]. split; [done|]. intros c Hc. apply Hl, elem_of_app. by right.
Qed.

Lemma row_resized_same b blen len : blocks_same (sr_block b) (sr_block (row_resized b blen len)).
Proof.
  apply Forall2_fmap_r, Forall_Forall2_diag, Forall_forall. intros k _. by destruct k as [[d|] ? ? ?].
Qed.

(** Whole rows removed: the rest keeps its bytes. *)
Lemma removed_keeps σ σ' cs c :
  σ' = (ds_each ds_remove σ cs).1 → c ∉ cs →
  (ds_live σ c → ds_live σ' c) ∧ ∀ i, ds_byte σ' c i = ds_byte σ c i.
Proof.
  intros -> Hc. split.
  - apply ds_each_live. intros τ d Hd. apply (ds_remove_frame τ d c 0). by intros ->.
  - intros i. apply (ds_each_keeps ds_remove (λ c' _, c' = c) cs); [|done].
    intros τ d c' Hd j ->. apply (ds_remove_frame τ d c j). by intros ->.
Qed.
Lemma truncated_keeps σ σ' n cs c :
  σ' = (ds_each (λ σ c, ds_truncate σ c n) σ cs).1 →
  (ds_live σ c → ds_live σ' c) ∧ ∀ i, c ∉ cs ∨ i < n → ds_byte σ' c i = ds_byte σ c i.
Proof.
  intros ->. split.
  - apply ds_each_live. intros τ d Hd. apply ds_truncate_live.
  - intros i Hi. apply (ds_each_keeps (λ σ c, ds_truncate σ c n) (λ c' j, c' = c ∧ j = i) cs); [|done].
    intros τ d c' Hd j [-> ->]. apply ds_truncate_frame. destruct Hi as [Hi|]; [left; by intros ->|by right].
Qed.

(** ** Shrinking *)

(** The result of a cut: rows [l'], each of which is a row of the segment or the
    start of one, on allocations that kept the bytes that are left. *)
Lemma shrunk_ok σ σ' s (m : isl) l' n :
  lun_ok σ s → isl_all m ≡ₚ l' → 0 ≤ n → tiles 0 n l' → rows_ok (lu_geom s) σ' l' →
  (∀ x', x' ∈ l' → ∃ x, x ∈ isl_all (lu_isl s) ∧ sr_seg_offset x' = sr_seg_offset x ∧ sr_seg_end x' ≤ sr_seg_end x ∧
     (∀ i, row_cap x' i = row_cap x i) ∧
     ∀ i o c, 0 ≤ i → 0 ≤ o < sr_block_len x' → row_cap x i = Some c → ds_byte σ' c o = ds_byte σ c o) →
  let s' := lun_set_sizes (lun_set_isl s m) n n in
  lun_ok σ' s' ∧ ∀ off, 0 ≤ off < n → lun_byte σ' s' off = lun_byte σ s off.
Proof.
  intros (Hg & Hz & Ht & Hr & Hrest) Hm Hn Ht' Hr' Hfrom s'. split.
  - split; [done|]. split; [done|]. split; [simpl; by rewrite Hm|]. split; [|done].
    by apply (rows_ok_perm _ _ l').
  - intros off Hoff. destruct (proj2 (proj2 Ht' off) Hoff) as (x' & Hx' & Hc').
    destruct (Hfrom x' Hx') as (x & Hx & Ho & He & Hcap & Hby).
    assert (row_ok (lu_geom s) x') as Hxo by (destruct Hr' as (Hrow & _); rewrite Forall_forall in Hrow; auto).
    pose proof (row_addr_bounds _ Hg x' off Hxo Hc') as Ha. unfold covers in Hc'. simpl in Hc'.
    unfold lun_byte. simpl. apply (rows_byte_ext _ σ σ' (isl_all (lu_isl s)) (isl_all m) x x').
    + apply Ht.
    + rewrite Hm. apply Ht'.
    + done.
    + by rewrite Hm.
    + unfold covers. simpl. lia.
    + done.
    + done.
    + done.
    + rewrite Ho in Ha. destruct (lun_addr _ _) as [i o]. simpl. destruct Ha as (Hi & Hob & _).
      intros c Hc. apply (Hby i o c); [lia|done|done].
Qed.

Lemma seglun_shrink_spec σ s new_size_arg :
  lun_ok σ s → 0 ≤ new_size_arg < lu_total_size s →
  ∃ σ' s' st, seglun_shrink σ s new_size_arg = Some (σ', s', st) ∧ lun_ok σ' s' ∧ lu_geom s' = lu_geom s ∧
    lu_total_size s' = lun_round (lu_geom s) new_size_arg ∧ lu_used_size s' = lu_total_size s' ∧
    lu_total_size s' ≤ lu_total_size s ∧
    ∀ off, 0 ≤ off < lu_total_size s' → lun_byte σ' s' off = lun_byte σ s off.
Proof.
  intros Hs Hnew. pose proof Hs as (Hg & Hz & Ht & Hr & Hmb & Hmc & Hmr). pose proof Hg as (Hn & Hc & Hst & Hsh).
  unfold seglun_shrink. rewrite decide_False by nia.
  pose proof (lun_round_spec (lu_geom s) new_size_arg ltac:(nia) ltac:(lia)) as [Hrd Hdiv].
  set (new_size := lun_round (lu_geom s) new_size_arg) in *. set (g := lu_geom s) in *.
  pose proof (tiles_stripes g _ _ Ht ltac:(apply Hr) Hg Hz) as Hts.
  assert (new_size ≤ lu_total_size s) as Hle.
  { destruct Hts as [x Hx], Hdiv as [y Hy].
    assert (y * stripe_size g < (x + 1) * stripe_size g) by lia. assert (y < x + 1) by nia. nia. }
  destruct (decide (new_size = lu_total_size s)) as [Heq|Hne].
  { assert (isl_search (Some new_size) (Some (lu_total_size s)) (lu_isl s) = []) as ->.
    { apply isl_search_nil; [lia|apply Ht|]. intros d Hd [Hlo Hhi].
      pose proof (tiles_bounds _ _ _ _ Ht Hd). lia. }
    do 3 eexists. split; [done|]. simpl. rewrite Heq. destruct s; split_and!; try done; lia. }
  destruct (tiles_search (lu_isl s) 0 (lu_total_size s) new_size (lu_total_size s) Ht)
    as (b & hits & rest & -> & Hcb & Hall & Hhits & Hrest); [lia|lia|].
  assert (rows_ok g σ (b :: hits ++ rest)) as Hrp by (by apply (rows_ok_perm _ _ _ _ Hall)).
  pose proof Hrp as (Hrow & Hnd & Hlive). apply Forall_cons in Hrow as [Hb Hrow]. apply Forall_app in Hrow as [Hrh Hrr].
  rewrite (rows_need_caps g [b]), (rows_need_caps g hits) by (done || by constructor). cbn [mbind option_bind].
  assert (rows_caps [b] = row_caps b) as -> by (unfold rows_caps; rewrite bind_cons; by rewrite app_nil_r).
  assert (tiles 0 (sr_seg_offset b) rest) as Htr.
  { rewrite Hall in Ht. pose proof (tiles_cut 0 _ new_size b hits rest Ht Hcb) as Hcut. simpl in Hcut. apply Hcut.
    - intros x Hx. by apply Hhits.
    - intros x Hx. pose proof (Hrest x Hx) as Hno. pose proof (tiles_bounds _ _ _ x Ht ltac:(right; apply elem_of_app; by right)).
      unfold overlaps in Hno. simpl in *. lia. }
  change (b :: hits ++ rest) with ([b] ++ hits ++ rest) in Hrp.
  apply rows_ok_split in Hrp as (Hrb & Hrhr & Hd1). apply rows_ok_split in Hrhr as (_ & Hrrest & Hd2).
  assert (rows_caps [b] = row_caps b) as Hcb1 by (unfold rows_caps; rewrite bind_cons; by rewrite app_nil_r).
  rewrite Hcb1, rows_caps_app in Hd1. setoid_rewrite elem_of_app in Hd1.
  set (dsize := new_size - sr_seg_offset b). set (blen := dsize `quot` n_devices g).
  unfold covers in Hcb. simpl in Hcb.
  assert (Hin : ∀ x i c, x ∈ rest → 0 ≤ i → row_cap x i = Some c → c ∈ rows_caps rest ∧ (c ∉ row_caps b) ∧ c ∉ rows_caps hits).
  { intros x i c Hx Hi Hcx. pose proof (rows_caps_elem g rest x i c Hrr Hx Hi Hcx) as Hcr. split; [done|].
    split; [intros Hcb2; exact (Hd1 c Hcb2 (or_intror Hcr))|intros Hch; by apply (Hd2 c Hch)]. }
  assert (Hrin : ∀ c, c ∈ rows_caps rest → (c ∉ row_caps b) ∧ c ∉ rows_caps hits).
  { intros c Hcr. split; [intros Hcb2; exact (Hd1 c Hcb2 (or_intror Hcr))|intros Hch; by apply (Hd2 c Hch)]. }
  assert (Hmem : ∀ x, x ∈ rest → x ∈ isl_all (lu_isl s)).
  { intros x Hx. rewrite Hall. right. apply elem_of_app. by right. }
  destruct (decide (dsize = 0)) as [Hd0|Hd0].
  - destruct (ds_each ds_remove σ (row_caps b)) as [σ1 sts1] eqn:He1.
    destruct (ds_each ds_remove σ1 (rows_caps hits)) as [σ2 sts2] eqn:He2.
    set (m := foldl (λ m b, row_remove b m) (lu_isl s) (reverse hits ++ [b])).
    assert (isl_all m ≡ₚ rest) as Hm.
    { apply row_remove_list. rewrite Hall, <- app_assoc, (reverse_Permutation hits). simpl. by rewrite <- Permutation_middle. }
    assert (Hkeep : ∀ c, c ∈ rows_caps rest → (ds_live σ c → ds_live σ2 c) ∧ ∀ i, ds_byte σ2 c i = ds_byte σ c i).
    { intros c Hcr. destruct (Hrin c Hcr) as [Hnb Hnh].
      destruct (removed_keeps σ σ1 (row_caps b) c) as [L1 B1]; [by rewrite He1|done|].
      destruct (removed_keeps σ1 σ2 (rows_caps hits) c) as [L2 B2]; [by rewrite He2|done|].
      split; [auto|]. intros i. by rewrite B2, B1. }
    destruct (shrunk_ok σ σ2 s m rest new_size Hs Hm) as [Hok Hby]; [lia| | | |].
    + replace new_size with (sr_seg_offset b) by lia. done.
    + destruct Hrrest as (R1 & R2 & R3). split; [done|]. split; [done|]. intros c Hcr. by apply Hkeep, R3.
    + intros x Hx. exists x. split_and!; [by apply Hmem|done|done|done|]. intros i o c Hi _ Hcx.
      apply Hkeep. by apply (Hin x i c).
    + do 3 eexists. split; [reflexivity|]. by split_and!.
  - destruct (ds_each (λ σ c, ds_truncate σ c blen) σ (row_caps b)) as [σ1 sts1] eqn:He1.
    destruct (ds_each ds_remove σ1 (rows_caps hits)) as [σ2 sts2] eqn:He2.
    set (m0 := foldl (λ m b, row_remove b m) (lu_isl s) (reverse hits ++ [])).
    assert (isl_all m0 ≡ₚ b :: rest) as Hm0.
    { apply row_remove_list. by rewrite Hall, app_nil_r, (reverse_Permutation hits), <- Permutation_middle. }
    set (b' := row_resized b blen dsize). pose proof Hb as (Hbn & Hbk & Hend & Hlen & [j Hj] & Hbst).
    assert (∃ t, dsize = n_devices g * (chunk_size g * t) ∧ 0 < t) as (t & Hdt & Ht0).
    { destruct (Z.divide_sub_r _ _ _ Hdiv Hbst) as [t Ht']. exists t. unfold dsize in *. split; [nia|]. nia. }
    assert (blen = chunk_size g * t) as Hbl.
    { unfold blen. rewrite Hdt, Z.mul_comm, Z.quot_mul by lia. done. }
    pose proof (row_resized_same b blen dsize) as Hsame. fold b' in Hsame.
    assert (row_ok g b') as Hb'.
    { replace b' with (row_set_blocks (row_set_len b blen (blen * n_devices g)) (sr_block b')).
      - apply row_ok_resize; [done|done|]. exists t. lia.
      - unfold b', row_resized. simpl. replace (blen * n_devices g) with dsize by nia. done. }
    assert (valid b') as Hv by (unfold valid; simpl; nia).
    assert (isl_all (row_insert b' (row_remove b m0)) ≡ₚ b' :: rest) as Hm by (by apply row_put_all).
    assert (row_caps b' = row_caps b) as Hcaps by (by apply blocks_same_caps).
    assert (Hkeep : ∀ c, c ∈ rows_caps rest → (ds_live σ c → ds_live σ2 c) ∧ ∀ i, ds_byte σ2 c i = ds_byte σ c i).
    { intros c Hcr. destruct (Hrin c Hcr) as [Hnb Hnh].
      destruct (truncated_keeps σ σ1 blen (row_caps b) c) as [L1 B1]; [by rewrite He1|].
      destruct (removed_keeps σ1 σ2 (rows_caps hits) c) as [L2 B2]; [by rewrite He2|done|].
      split; [auto|]. intros i. rewrite B2, B1; [done|by left]. }
    assert (Hkeepb : ∀ c, c ∈ row_caps b → (ds_live σ c → ds_live σ2 c) ∧ ∀ i, i < blen → ds_byte σ2 c i = ds_byte σ c i).
    { intros c Hcr. destruct (truncated_keeps σ σ1 blen (row_caps b) c) as [L1 B1]; [by rewrite He1|].
      destruct (removed_keeps σ1 σ2 (rows_caps hits) c) as [L2 B2]; [by rewrite He2|intros Hch; by apply (Hd1 c Hcr); left|].
      split; [auto|]. intros i Hi. rewrite B2, B1; [done|by right]. }
    destruct (shrunk_ok σ σ2 s (row_insert b' (row_remove b m0)) (b' :: rest) new_size Hs Hm) as [Hok Hby]; [lia| | | |].
    + pose proof (tiles_bounds _ _ _ b Ht ltac:(rewrite Hall; by left)) as Hbd. simpl in Hbd.
      rewrite Permutation_cons_append. apply (tiles_app 0 (sr_seg_offset b)); [lia|done|].
      apply tiles_one; [lia|done|unfold b', dsize; simpl; lia].
    + destruct Hrb as (_ & Rb1 & Rb2), Hrrest as (R1 & R2 & R3). rewrite Hcb1 in Rb1, Rb2. apply rows_ok_cons; rewrite ?Hcaps.
      * done.
      * done.
      * intros c Hcb2. split; [by apply Hkeepb, Rb2|]. intros Hcr. by destruct (Hrin c Hcr) as [Hnb _].
      * split; [done|]. split; [done|]. intros c Hcr. by apply Hkeep, R3.
    + intros x [->|Hx]%elem_of_cons.
      * exists b. split_and!; [rewrite Hall; by left|done|simpl; unfold dsize; lia|intros; by apply blocks_same_cap|].
        intros i o c Hi Ho Hcx. apply Hkeepb; [|simpl in Ho; lia].
        rewrite <- (row_caps_lookup g b i Hb Hi) in Hcx. by eapply list_elem_of_lookup_2.
      * exists x. split_and!; [by apply Hmem|done|done|done|]. intros i o c Hi _ Hcx.
        apply Hkeep. by apply (Hin x i c).
    + do 3 eexists. split; [reflexivity|]. by split_and!.
Qed.

(** ** Truncating *)

(** C22: truncating to any size keeps the segment well formed and its bytes up to
    the smaller of the old and the new size; the new size is rounded up to whole
    stripes.  Only a growth can fail, and it then reports so and leaves the size
    as it was, though rows may have been added past the end. *)
Theorem slun_truncate_correct (h : attr_heap) ids σ s new_size :
  lun_ok σ s → 0 ≤ new_size →
  ∃ σ' s' st, slun_truncate h ids σ s new_size = Some (σ', s', st) ∧
    (lun_ok σ' s' ∧
       (lu_total_size s' = lun_round (lu_geom s) new_size ∨ lu_total_size s' = lu_total_size s ∧ new_size = lu_total_size s) ∧
       (∀ off, 0 ≤ off < Z.min (lu_total_size s) (lu_total_size s') → lun_byte σ' s' off = lun_byte σ s off) ∨
     lu_total_size s < new_size ∧ st = op_failure_status ∧ lu_total_size s' = lu_total_size s ∧
       (∃ e, lun_grown_ok σ' s' e) ∧
       (∀ off, 0 ≤ off < lu_total_size s → lun_byte σ' s' off = lun_byte σ s off)).
Proof.
  intros Hs Hn. unfold slun_truncate. rewrite decide_False by lia. case_decide as Hlt; [|case_decide as Hgt].
  - destruct (seglun_shrink_spec σ s new_size Hs) as (σ' & s' & st & -> & Hok & _ & Ht & _ & Hle & Hby); [lia|].
    do 3 eexists. split; [reflexivity|]. left. split; [done|]. split; [by left|]. intros off Hoff. apply Hby. lia.
  - destruct (seglun_grow_spec h ids σ s new_size Hs) as (σ' & s' & st & -> & _ & _ & _ & Hby & Hcase); [lia|].
    do 3 eexists. split; [reflexivity|]. rewrite Z.abs_eq in Hcase by lia.
    destruct Hcase as [(-> & Hok & Ht & _)|(-> & Ht & _ & He)].
    + left. split; [done|]. split; [by left|]. intros off Hoff. apply Hby. lia.
    + right. by split_and!.
  - do 3 eexists. split; [reflexivity|]. left. split; [done|]. split; [right; split; [done|lia]|done].
Qed.
End shrink.
