(* ===== verification/LunFunc.v ===== *)
(** * LUN segments: read and write requests (segment_lun.c)

    [seglun_rw_func]: the bounds check, the growth before a write past the end,
    and the operation itself. *)
From stdpp Require Import strings gmap.
From S2P Require Import Prelude Isl Seg Inip DataBlock DataStore LunMap LunStore LunSeg LunRw LunTable LunRun LunRwSpec LunSize LunRepair LunGrow LunShrink.
#[local] Open Scope Z_scope.

Section lun_func.
Context {C W Q S : Type} `{!EqDecision C, !EqDecision W, !CapSet C W, !DataStore C Q S, !LunStore C Q S}.
Context `{!Gop, !TBuf, !ISL (seglun_row C W)}.
Abbreviation lun := (seglun_priv C W Q).

(** The bounds check: [inl] goes on to the operation, [inr] fails the request. *)
Definition lun_bounds (write : bool) (h : attr_heap) (ids : nat → Z) (σ : S) (s : lun) (maxpos : Z)
    : option ((S * lun) + (S * lun)) :=
  if decide (maxpos >= lu_total_size s) then
    if write then
      let new_size := maxpos + n_devices (lu_geom s) * lu_excess_block_size s in
      if decide (lu_total_size s < new_size) then
        '(σ, s, st) ← slun_truncate h ids σ s new_size;
        Some (if decide (op_st st = OP_STATE_SUCCESS) then inl (σ, s) else inr (σ, s))
      else Some (inl (σ, s))
    else Some (inr (σ, s))
  else Some (inl (σ, s)).

(** After the operation: the used size and the error count. *)
Definition lun_account (write : bool) (maxpos : Z) (st : op_status) (s : lun) : lun :=
  let s := if decide (write = true ∧ lu_used_size s ≤ maxpos) then lun_set_sizes s (maxpos + 1) (lu_total_size s) else s in
  if decide (op_st st = OP_STATE_SUCCESS) then s
  else lun_set_io s (lu_hard_errors s + 1) (lu_map_version s) (lu_inprogress s).

Definition seglun_rw_func (write : bool) (h : attr_heap) (ids : nat → Z) (tm : lun_timing) (hints : option Z)
    (bl : option blacklist) (σ : S) (s : lun) (iov : list ex_iovec) (buf : tbuffer) (boff : Z)
    : option (S * lun * tbuffer * option blacklist * list (lun_op C W * op_status) * op_status) :=
  let maxpos := iov_maxpos iov in
  r ← lun_bounds write h ids σ s maxpos;
  match r with
  | inr (σ, s) => Some (σ, s, buf, bl, [], Op_status OP_STATE_FAILURE (n_devices (lu_geom s)))
  | inl (σ, s) =>
      '(σ, s, buf, bl, res, st) ← seglun_rw_op write tm hints bl σ s iov buf boff;
      Some (σ, lun_account write maxpos st s, buf, bl, res, st)
  end.
End lun_func.

Section func_spec.
Context {C W Q S : Type} `{!EqDecision C, !EqDecision W, !CapSet C W}.
Context `{!DataStore C Q S, !StoreView C S, !DataStoreOk C Q S, !LunStore C Q S, !LunStoreOk C Q S}.
Context `{!Gop, !GopOk, !TBuf, !TBufOk, !ISL (seglun_row C W), !ISLOk (seglun_row C W)}.
Implicit Types (s : seglun_priv C W Q) (σ : S).

Lemma lun_account_ok write maxpos st σ s :
  lun_ok σ s → lun_ok σ (lun_account write maxpos st s) ∧
  (∀ off, lun_byte σ (lun_account write maxpos st s) off = lun_byte σ s off) ∧
  lu_total_size (lun_account write maxpos st s) = lu_total_size s ∧
  lu_used_size (lun_account write maxpos st s) = (if write then Z.max (lu_used_size s) (maxpos + 1) else lu_used_size s) ∧
  lu_hard_errors (lun_account write maxpos st s) =
    lu_hard_errors s + (if decide (op_st st = OP_STATE_SUCCESS) then 0 else 1).
Proof.
  intros Hs. unfold lun_account.
  set (s2 := if decide (write = true ∧ lu_used_size s ≤ maxpos) then lun_set_sizes s (maxpos + 1) (lu_total_size s) else s).
  assert (lun_ok σ s2 ∧ (∀ off, lun_byte σ s2 off = lun_byte σ s off) ∧ lu_total_size s2 = lu_total_size s ∧
    lu_hard_errors s2 = lu_hard_errors s ∧
    lu_used_size s2 = (if write then Z.max (lu_used_size s) (maxpos + 1) else lu_used_size s)) as (Hok & Hb & Ht & He & Hu).
  { unfold s2. case_decide as Hd; simpl.
    - destruct Hd as [-> Hd]. do 4 (split; [done|]). lia.
    - do 4 (split; [done|]). destruct write; [|done]. apply not_and_l in Hd as [Hd|Hd]; [done|lia]. }
  case_decide; simpl; (split; [exact Hok|]); (split; [exact Hb|]). all: clearbody s2; lia.
Qed.

Lemma maxpos_within n iov : iov_ok iov → iov_maxpos iov < n → iov_within n iov.
Proof.
  intros Hok Hm.
  assert (∀ v, v ∈ iov → iov_offset v + iov_len v ≤ iov_maxpos iov + 1) as Hv by apply (iov_maxpos_spec iov 0).
  unfold iov_within, iov_ok in *. rewrite Forall_forall in *. intros v Hin.
  specialize (Hok v Hin). specialize (Hv v Hin). lia.
Qed.

(** C20: a read.  Past the end of the segment it fails with the number of
    devices as its code and changes nothing.  Inside, it returns; the segment
    keeps its bytes; the buffer gets, for every position of the request, the
    segment's byte if its device answered and zero if not, and is otherwise
    untouched; the status is success exactly when every device answered, and
    else carries the largest number of devices lost in one row. *)
Theorem seglun_read_correct (h : attr_heap) ids tm hints bl σ s iov buf boff :
  lun_ok σ s → iov_ok iov → iov ≠ [] → 0 ≤ boff → boff + iov_total iov ≤ tbuffer_size →
  bl_use bl hints = None ∨ rids_known (isl_all (lu_isl s)) →
  ∃ σ' s' buf' bl' res st,
    seglun_rw_func false h ids tm hints bl σ s iov buf boff = Some (σ', s', buf', bl', res, st) ∧
    (lu_total_size s ≤ iov_maxpos iov →
       σ' = σ ∧ s' = s ∧ buf' = buf ∧ st = Op_status OP_STATE_FAILURE (n_devices (lu_geom s))) ∧
    (iov_maxpos iov < lu_total_size s →
       lun_ok σ' s' ∧ (∀ off, lun_byte σ' s' off = lun_byte σ s off) ∧ lu_used_size s' = lu_used_size s ∧
       (∀ p, ¬ (boff ≤ p < boff + iov_total iov) → buf' p = buf p) ∧
       (∀ p, boff ≤ p < boff + iov_total iov →
          (device_failed (lu_geom s) res (iov_pos iov boff p) → buf' p = 0) ∧
          (¬ device_failed (lu_geom s) res (iov_pos iov boff p) → buf' p = lun_byte σ s (iov_pos iov boff p))) ∧
       (op_st st = OP_STATE_SUCCESS ↔ ∀ x, x ∈ res → op_st x.2 = OP_STATE_SUCCESS) ∧
       (op_st st = OP_STATE_SUCCESS ∨
          error_code st > 0 ∧ (∃ k, error_code st = slot_errs res k) ∧ ∀ k, slot_errs res k ≤ error_code st)).
Proof.
  intros Hs Hok Hne Hb0 Hsz Hub. unfold seglun_rw_func, lun_bounds. case_decide as Hend.
  { do 6 eexists. split; [done|]. split; [done|lia]. }
  cbn [mbind option_bind].
  destruct (seglun_read_op_spec tm hints bl σ s iov buf boff Hs) as
    (σ' & s' & buf' & bl' & res & st & -> & Hs' & Hby & Hout & Hin & (_ & _ & Hu & _) & Hst).
  { split; [done|]. split; [apply maxpos_within; [done|lia]|done]. }
  cbn [mbind option_bind]. do 6 eexists. split; [done|]. split; [lia|]. intros _.
  destruct (lun_account_ok false (iov_maxpos iov) st σ' s' Hs') as (Hs2 & Hby2 & _ & Hu2 & _).
  split; [exact Hs2|]. split; [intros off; by rewrite Hby2, Hby|]. split; [congruence|]. done.
Qed.

(** The growth before a write. *)
Lemma lun_bounds_write (h : attr_heap) ids σ s maxpos :
  lun_ok σ s → 0 ≤ maxpos → maxpos < lu_total_size s ∨ 0 < lu_excess_block_size s →
  ∃ r, lun_bounds true h ids σ s maxpos = Some r ∧
    match r with
    | inl (σ', s') => lun_ok σ' s' ∧ lu_geom s' = lu_geom s ∧ maxpos < lu_total_size s' ∧ lu_total_size s ≤ lu_total_size s' ∧
        (∀ off, 0 ≤ off < lu_total_size s → lun_byte σ' s' off = lun_byte σ s off) ∧
        (maxpos < lu_total_size s ∧ σ' = σ ∧ s' = s ∨
         lu_total_size s ≤ maxpos ∧ lu_used_size s' = lu_total_size s' ∧
           lu_total_size s' = lun_round (lu_geom s) (maxpos + n_devices (lu_geom s) * lu_excess_block_size s))
    | inr (σ', s') => lu_total_size s ≤ maxpos ∧ (∃ e, lun_grown_ok σ' s' e) ∧
        lu_geom s' = lu_geom s ∧ lu_total_size s' = lu_total_size s ∧ lu_used_size s' = lu_used_size s ∧
        (∀ off, 0 ≤ off < lu_total_size s → lun_byte σ' s' off = lun_byte σ s off)
    end.
Proof.
  intros Hs Hm Hex. pose proof Hs as (Hg & _). pose proof Hg as (Hn & Hc & Hst & _). unfold lun_bounds.
  case_decide as Hend; [|eexists; split; [done|]; simpl; split_and!; try done; try lia; left; split_and!; try done; lia].
  assert (0 < lu_excess_block_size s) by lia. rewrite decide_True by nia. unfold slun_truncate. rewrite !decide_False, decide_True by nia.
  set (new_size := maxpos + n_devices (lu_geom s) * lu_excess_block_size s).
  destruct (seglun_grow_spec h ids σ s new_size Hs) as (σ' & s' & st & -> & Hgg & _ & _ & Hby & Hcase); [nia|].
  pose proof (lun_round_spec (lu_geom s) new_size ltac:(nia) ltac:(nia)) as [Hrd _].
  cbn [mbind option_bind]. destruct Hcase as [(-> & Hok & Ht & Hu)|(-> & Ht & Hu & He)].
  - rewrite decide_True by apply op_success_state. eexists. split; [done|]. simpl. rewrite Z.abs_eq in Ht by nia.
    rewrite decide_True in Hu by nia.
    split; [done|]. split; [done|]. split; [nia|]. split; [nia|]. split; [done|]. right. split_and!; [lia|done|done].
  - rewrite decide_False by (rewrite op_failure_state; done). eexists. split; [done|]. simpl. split_and!; try done. lia.
Qed.

(** C19: a write that ends inside the segment, or for which it is grown by a
    positive excess, with no blacklist in use.  It returns; either the space was
    there or is made, and then the segment stays well formed and every byte of
    the old size or of the request whose device did not fail is the old contents
    overlaid with the request's data (bytes outside the request in any case); or
    the space cannot be made, and the request fails with the number of devices as its code, with
    the old bytes in place. *)
Theorem seglun_write_correct (h : attr_heap) ids tm hints bl σ s iov buf boff :
  lun_ok σ s → iov_ok iov → iov ≠ [] → 0 ≤ boff → boff + iov_total iov ≤ tbuffer_size →
  iov_maxpos iov < lu_total_size s ∨ 0 < lu_excess_block_size s → bl_use bl hints = None →
  ∃ σ' s' bl' res st,
    seglun_rw_func true h ids tm hints bl σ s iov buf boff = Some (σ', s', buf, bl', res, st) ∧
    (lun_ok σ' s' ∧ iov_maxpos iov < lu_total_size s' ∧ lu_total_size s ≤ lu_total_size s' ∧
       lu_used_size s' = (if decide (iov_maxpos iov < lu_total_size s) then Z.max (lu_used_size s) (iov_maxpos iov + 1)
                          else lu_total_size s') ∧
       (∀ off, (0 ≤ off < lu_total_size s ∨ ∃ v, v ∈ iov ∧ iov_offset v ≤ off < iov_offset v + iov_len v) →
          ¬ device_failed (lu_geom s) res off ∨ (∀ q, boff ≤ q < boff + iov_total iov → iov_pos iov boff q ≠ off) →
          lun_byte σ' s' off = iov_overlay (lun_byte σ s) iov buf boff off) ∧
       (op_st st = OP_STATE_SUCCESS ↔ ∀ x, x ∈ res → op_st x.2 = OP_STATE_SUCCESS) ∧
       (op_st st = OP_STATE_SUCCESS → ∀ off, ¬ device_failed (lu_geom s) res off) ∨
     lu_total_size s ≤ iov_maxpos iov ∧ st = Op_status OP_STATE_FAILURE (n_devices (lu_geom s)) ∧ res = [] ∧
       lu_total_size s' = lu_total_size s ∧ lu_used_size s' = lu_used_size s ∧ (∃ e, lun_grown_ok σ' s' e) ∧
       ∀ off, 0 ≤ off < lu_total_size s → lun_byte σ' s' off = lun_byte σ s off).
Proof.
  intros Hs Hok Hne Hb0 Hsz Hex Hub. assert (0 ≤ iov_maxpos iov) as Hm0 by apply (iov_maxpos_spec iov 0).
  unfold seglun_rw_func. destruct (lun_bounds_write h ids σ s (iov_maxpos iov) Hs Hm0 Hex) as (r & -> & Hr).
  cbn [mbind option_bind]. destruct r as [[σ1 s1]|[σ1 s1]]; cycle 1.
  { destruct Hr as (Hend & He & Hg & Ht & Hu & Hby). do 5 eexists. split; [done|]. right. rewrite Hg. by split_and!. }
  destruct Hr as (Hs1 & Hg1 & Hm1 & Ht1 & Hb1 & Hcase).
  destruct (seglun_write_op_spec tm hints bl σ1 s1 iov buf boff Hs1) as
    (σ' & s' & bl' & res & st & -> & Hs' & (_ & Htk & Huk & _) & Hby & Hst & Hsucc).
  { split; [done|]. split; [by apply maxpos_within|]. split; [done|]. split; [done|by left]. }
  cbn [mbind option_bind]. do 5 eexists. split; [done|]. left.
  destruct (lun_account_ok true (iov_maxpos iov) st σ' s' Hs') as (Hs2 & Hby2 & Ht2 & Hu2 & _).
  split; [exact Hs2|]. split; [lia|]. split; [lia|]. split; [|split; [|rewrite <- Hg1; done]].
  - rewrite Hu2, Ht2, Huk, Htk. destruct Hcase as [(Hlt & _ & ->)|(Hge & Hu & _)]; case_decide; lia.
  - intros off Hoff Hnf. rewrite Hby2. rewrite <- Hg1 in Hnf. rewrite (Hby off Hnf).
    apply iov_overlay_at. destruct Hoff as [Hoff|Hoff]; [left; by apply Hb1|by right].
Qed.

(** A write past the end leaves a size that is not the end of the data: the
    growth sets the used size to the rounded space, excess included, and
    [seglun_size] reports it. *)
Theorem seglun_write_oversize (h : attr_heap) ids tm hints bl σ s iov buf boff σ' s' buf' bl' res st :
  lun_ok σ s → iov_ok iov → iov ≠ [] → 0 ≤ boff → boff + iov_total iov ≤ tbuffer_size →
  1 < n_devices (lu_geom s) * lu_excess_block_size s → bl_use bl hints = None → lu_total_size s ≤ iov_maxpos iov →
  seglun_rw_func true h ids tm hints bl σ s iov buf boff = Some (σ', s', buf', bl', res, st) →
  op_st st = OP_STATE_SUCCESS → iov_maxpos iov + 1 < seglun_size s'.
Proof.
  intros Hs Hok Hne Hb0 Hsz Hex Hub Hend Hrun Hst. assert (0 ≤ iov_maxpos iov) as Hm0 by apply (iov_maxpos_spec iov 0).
  pose proof Hs as (Hg & _). pose proof Hg as (Hn & Hc & Hstp & _).
  unfold seglun_rw_func in Hrun. destruct (lun_bounds_write h ids σ s (iov_maxpos iov) Hs Hm0 ltac:(right; nia)) as (r & Hr0 & Hr).
  rewrite Hr0 in Hrun. cbn [mbind option_bind] in Hrun. destruct r as [[σ1 s1]|[σ1 s1]]; cycle 1.
  { injection Hrun as <- <- <- <- <- <-. done. }
  destruct Hr as (Hs1 & Hg1 & Hm1 & Ht1 & Hb1 & [(? & _)|(_ & Hu & Ht)]); [lia|].
  destruct (seglun_write_op_spec tm hints bl σ1 s1 iov buf boff Hs1) as
    (σ2 & s2 & bl2 & res2 & st2 & Hop & Hs2 & (_ & Htk & Huk & _) & _).
  { split; [done|]. split; [by apply maxpos_within|]. split; [done|]. split; [done|by left]. }
  rewrite Hop in Hrun. cbn [mbind option_bind] in Hrun. injection Hrun as <- <- <- <- <- <-.
  destruct (lun_account_ok true (iov_maxpos iov) st2 σ2 s2 Hs2) as (_ & _ & _ & Hu2 & _).
  unfold seglun_size. rewrite Hu2, Huk, Hu, Ht.
  pose proof (lun_round_spec (lu_geom s) (iov_maxpos iov + n_devices (lu_geom s) * lu_excess_block_size s) ltac:(nia) ltac:(nia)) as [Hrd _].
  lia.
Qed.
End func_spec.
