(* ===== verification/LunConc.v ===== *)
(** * LUN segments: requests and remapping (segment_lun.c)

    Requests run concurrently.  One that finds new resource mappings waits until
    no other is running; the capabilities are translated then, with the segment
    locked.  The protocol is a step relation on the segment, the number of
    running requests and the number of waiting ones; what a request does between
    entering and leaving does not touch the counters. *)
From stdpp Require Import strings gmap relations.
From S2P Require Import Prelude Isl Seg Inip DataBlock DataStore LunMap LunStore LunSeg LunRw LunTable LunRun LunRwSpec.
#[local] Open Scope Z_scope.

Section lun_conc.
Context {C W Q S : Type} `{!EqDecision C, !EqDecision W, !DataStore C Q S, !LunStore C Q S}.
Context `{!ISL (seglun_row C W)}.
Implicit Types (s : seglun_priv C W Q).

(** The resource service tells of new mappings. *)
Definition lun_notify s (v : Z) : seglun_priv C W Q :=
  Seglun_priv (lu_geom s) (lu_used_size s) (lu_total_size s) (lu_max_block_size s) (lu_excess_block_size s)
    (lu_max_row_size s) (lu_rsq s) (lu_grow_count s) (lu_hard_errors s) (lu_grow_break s) (lu_map_version s)
    v (lu_inprogress s) (lu_db_cleanup s) (lu_isl s) (lu_ds s).

(** The running requests, those asleep in [apr_thread_cond_wait], and those that
    were woken up and have not looked yet. *)
Record lun_conc := Lun_conc { lc_seg : seglun_priv C W Q; lc_run : nat; lc_sleep : nat; lc_awake : nat }.

(** One that was woken up enters if nothing runs, else it sleeps again; one that
    is done leaves, and may wake up all that sleep. *)
Definition lun_wakened (s : seglun_priv C W Q) (k sleep awake : nat) : lun_conc :=
  if lun_broadcasts s then Lun_conc s k 0 (sleep + awake) else Lun_conc s k sleep awake.
Inductive lun_serve (σ : S) : lun_conc → lun_conc → Prop :=
| step_retest s k w a :
    lu_inprogress s > 0 → lun_serve σ (Lun_conc s k w (Datatypes.S a)) (Lun_conc s k (Datatypes.S w) a)
| step_wake s s' k w a :
    ¬ lu_inprogress s > 0 → lun_enter σ s = Some s' →
    lun_serve σ (Lun_conc s k w (Datatypes.S a)) (Lun_conc s' (Datatypes.S k) w a)
| step_leave s k w a : lun_serve σ (Lun_conc s (Datatypes.S k) w a) (lun_wakened (lun_leave s) k w a).

(** A request arrives and enters at once, or goes to sleep; the resource service
    tells of new mappings. *)
Inductive lun_step (σ : S) : lun_conc → lun_conc → Prop :=
| step_serve x y : lun_serve σ x y → lun_step σ x y
| step_enter s s' k w a :
    lun_must_wait s = false → lun_enter σ s = Some s' →
    lun_step σ (Lun_conc s k w a) (Lun_conc s' (Datatypes.S k) w a)
| step_wait s k w a :
    lun_must_wait s = true → lun_step σ (Lun_conc s k w a) (Lun_conc s k (Datatypes.S w) a)
| step_notify s k w a v : lun_step σ (Lun_conc s k w a) (Lun_conc (lun_notify s v) k w a).

Definition lun_initial (x : lun_conc) : Prop :=
  lu_inprogress (lc_seg x) = 0 ∧ lc_run x = 0%nat ∧ lc_sleep x = 0%nat ∧ lc_awake x = 0%nat.
Definition lun_reachable (σ : S) (x : lun_conc) : Prop := ∃ x0, lun_initial x0 ∧ rtc (lun_step σ) x0 x.

(** What entering does to the counters. *)
Lemma lun_enter_counts σ s s' :
  lun_enter σ s = Some s' →
  lu_inprogress s' = lu_inprogress s + 1 ∧ lu_map_version s' = lu_notify_version s ∧
  (lu_map_version s = lu_notify_version s → lu_isl s' = lu_isl s).
Proof.
  unfold lun_enter. case_decide as Hv; [by intros [= <-]|].
  destruct (lun_remap_rows σ (lu_isl s) (isl_all (lu_isl s))); simpl; [|done]. by intros [= <-].
Qed.

Lemma lun_must_wait_false s :
  lun_must_wait s = false ↔ lu_map_version s = lu_notify_version s ∨ lu_inprogress s ≤ 0.
Proof.
  unfold lun_must_wait. rewrite bool_decide_eq_false. destruct (decide (lu_map_version s = lu_notify_version s)); naive_solver lia.
Qed.

(** The count of running requests is right, and those that sleep have somebody to
    wake them up. *)
Definition lun_counts (x : lun_conc) : Prop :=
  lu_inprogress (lc_seg x) = Z.of_nat (lc_run x) ∧ (lc_run x = 0%nat → lc_sleep x = 0%nat).

Lemma lun_serve_counts σ x y : lun_counts x → lun_serve σ x y → lun_counts y.
Proof.
  intros [Hc Hs] Hxy. unfold lun_counts in *. destruct Hxy as [s k w a Hp|s s' k w a _ He|s k w a]; simpl in *.
  - split; [done|]. intros ->. lia.
  - apply lun_enter_counts in He as (-> & _). lia.
  - unfold lun_wakened, lun_broadcasts. case_bool_decide as Hz; simpl in *; [lia|]. split; [lia|]. intros ->. lia.
Qed.

Lemma lun_step_counts σ x y : lun_counts x → lun_step σ x y → lun_counts y.
Proof.
  intros Hx Hxy. destruct Hxy as [x y Hxy|s s' k w a _ He|s k w a Hw|s k w a v]; [by eapply lun_serve_counts|..];
    unfold lun_counts in *; simpl in *.
  - apply lun_enter_counts in He as (-> & _). lia.
  - split; [lia|]. intros ->. unfold lun_must_wait in Hw. apply bool_decide_eq_true in Hw. lia.
  - done.
Qed.

Lemma lun_reachable_counts σ x : lun_reachable σ x → lun_counts x.
Proof.
  intros (x0 & (H0 & Hk & Hs & _) & Hr). assert (lun_counts x0) as Hx by (unfold lun_counts; lia).
  clear H0 Hk Hs. induction Hr as [|x y z Hxy _ IH]; [done|]. apply IH. by eapply lun_step_counts.
Qed.

End lun_conc.
Arguments lun_conc C W Q {_}.

Section conc_spec.
Context {C W Q S : Type} `{!EqDecision C, !EqDecision W, !CapSet C W}.
Context `{!DataStore C Q S, !StoreView C S, !DataStoreOk C Q S, !LunStore C Q S, !LunStoreOk C Q S}.
Context `{!Gop, !GopOk, !TBuf, !TBufOk, !ISL (seglun_row C W), !ISLOk (seglun_row C W)}.
Implicit Types (s : seglun_priv C W Q) (σ : S).

(** C24: the capabilities are translated with no request running: in a reachable
    state, a step that changes the rows is a request that enters alone, it
    takes over the version it was told of, and the count of running requests
    is right before and after. *)
Theorem lun_remap_alone σ (x y : lun_conc C W Q) :
  lun_reachable σ x → lun_step σ x y →
  lu_inprogress (lc_seg x) = Z.of_nat (lc_run x) ∧ lu_inprogress (lc_seg y) = Z.of_nat (lc_run y) ∧
  (lu_isl (lc_seg y) ≠ lu_isl (lc_seg x) →
     lc_run x = 0%nat ∧ lc_run y = 1%nat ∧ lu_map_version (lc_seg x) ≠ lu_notify_version (lc_seg x) ∧
     lu_map_version (lc_seg y) = lu_notify_version (lc_seg x)).
Proof.
  intros Hr Hxy. pose proof (lun_reachable_counts σ x Hr) as Hx. pose proof (lun_step_counts σ x y Hx Hxy) as Hy.
  split; [apply Hx|]. split; [apply Hy|]. destruct Hx as [Hx _]. intros Hne.
  destruct Hxy as [x y [s k w a _|s s' k w a Hw He|s k w a]|s s' k w a Hw He|s k w a _|s k w a v]; simpl in *; try done.
  - apply lun_enter_counts in He as (Hi & Hv & Hsame). split; [lia|]. split; [lia|]. split; [|done]. intros Heq. by destruct Hne; apply Hsame.
  - unfold lun_wakened in Hne. by destruct (lun_broadcasts _).
  - apply lun_enter_counts in He as (Hi & Hv & Hsame). rewrite lun_must_wait_false in Hw. destruct Hw as [Hw|Hw]; [by destruct Hne; apply Hsame|].
    split; [lia|]. split; [lia|]. split; [|done]. intros Heq. by destruct Hne; apply Hsame.
Qed.

(** Nobody waits any more, and nothing but the mappings has changed. *)
Definition lun_served (σ : S) (s : seglun_priv C W Q) (x : lun_conc C W Q) : Prop :=
  lc_sleep x = 0%nat ∧ lc_awake x = 0%nat ∧ lun_ok σ (lc_seg x) ∧
  lu_map_version (lc_seg x) = lu_notify_version (lc_seg x) ∧ ∀ off, lun_byte σ (lc_seg x) off = lun_byte σ s off.

(** C25: no wakeup is lost.  In a reachable state a request sleeps only while
    another one runs; and when no more requests arrive, those that wait all get in,
    in whatever order requests leave and are woken up: the steps cannot stop
    before nobody waits, nor go on for ever without that, and then the mappings
    are up to date and the contents unchanged. *)
Theorem lun_waiting_enters σ x :
  lun_reachable σ x → lun_ok σ (lc_seg x) →
  ((0 < lc_sleep x)%nat → (0 < lc_run x)%nat) ∧
  ((0 < lc_sleep x + lc_awake x)%nat → inevitably (lun_serve σ) (lun_served σ (lc_seg x)) x).
Proof.
  intros Hr Hs. pose proof (lun_reachable_counts σ x Hr) as Hc. split; [destruct Hc as [_ Hc]; lia|]. intros Hw.
  set (I (y : lun_conc C W Q) := lun_counts y ∧ lun_ok σ (lc_seg y) ∧ (∀ off, lun_byte σ (lc_seg y) off = lun_byte σ (lc_seg x) off) ∧
    ((0 < lc_sleep y + lc_awake y)%nat ∨ lu_map_version (lc_seg y) = lu_notify_version (lc_seg y))).
  apply (inevitably_measure _ _ I (λ y, (2 * (lc_sleep y + lc_awake y) + lc_run y, lc_awake y)%nat)); [by split_and!; [| | |left]|].
  intros y (Hcy & Hoy & Hby & Hvy). destruct (decide (lc_sleep y + lc_awake y = 0)%nat) as [Hz|Hnz].
  { left. destruct Hvy as [?|Hvy]; [lia|]. split_and!; [lia|lia|done..]. }
  right. destruct y as [s k w a]. simpl in *. split.
  - destruct k as [|k]; [|eexists; apply step_leave]. destruct Hcy as [Hc1 Hc2]. simpl in *. destruct a as [|a]; [lia|].
    destruct (lun_enter_spec σ s Hoy) as (s' & He & _). eexists. apply step_wake; [lia|done].
  - intros z Hz. assert (lun_counts z) as Hcz by (by eapply lun_serve_counts). unfold I. 
    inversion Hz as [s1 k1 w1 a1 Hp|s1 s' k1 w1 a1 Hp He|s1 k1 w1 a1]; subst; simpl in *.
    + split; [split_and!; [done..|left; lia]|lia].
    + destruct (lun_enter_spec σ s Hoy) as (s2 & He2 & Ho2 & Hb2 & _ & _ & _ & _ & _ & Hv2 & Hn2 & _). simplify_eq.
      split; [|lia]. split_and!; [done|done| |right; congruence]. intros off. by rewrite Hb2.
    + unfold lun_wakened in *. destruct (lun_broadcasts (lun_leave s)); simpl in *; (split; [split_and!; [done..|left; lia]|lia]).
Qed.
End conc_spec.
