(* ===== verification/LunDemo.v ===== *)
(** * LUN segments: concrete runs

    The theorems of the LUN segment at concrete inputs: a store in memory, the
    list interval structure, and a buffer in one piece. *)
From stdpp Require Import strings gmap relations.
From S2P Require Import Prelude Isl Seg Inip DataBlock DataStore LunMap LunStore LunSeg LunRw LunTable LunRun LunRwSpec LunSize LunRepair LunGrow LunShrink LunFunc LunConc.
#[local] Open Scope Z_scope.

#[local] Existing Instance gop_std.
#[local] Existing Instance gop_std_ok.
#[local] Existing Instance list_isl.
#[local] Existing Instance list_isl_ok.

#[local] Instance lun_caps : CapSet nat unit := {|
  ds_cap_set_create := 0%nat; ds_get_cap _ _ := ""%string; ds_set_cap c _ _ := c;
  ds_cap_auto_warm _ := tt |}.

(** A buffer in one piece. *)
#[local] Instance flat_tbuf : TBuf := {| tbuffer_next pos n := ([(pos, n)], n, true); tbuffer_size := 1000 |}.
#[local] Instance flat_tbuf_ok : TBufOk.
Proof.
  split. intros pos n Hp Hn Hs. cbn. split; [done|]. split; [lia|]. unfold piece_list. cbn. by rewrite app_nil_r.
Qed.

Definition lrow : Type := seglun_row nat unit.
Definition lunseg : Type := seglun_priv nat unit (list rsq_call).

(** Two devices, chunks of two bytes, and the devices move on by one from stripe
    to stripe: bytes 0 1 | 2 3 are on devices 0 | 1, bytes 4 5 | 6 7 on 1 | 0. *)
Definition ldemo_geom : lun_geom := Lun_geom 2 2 4 1.
Definition ldemo_block (cap : nat) : seglun_block nat unit :=
  Seglun_block (Some (Data_block (Z.of_nat cap) 4 4 1 1 cap "ibp" (Some "rid"%string) None None)) 0 0 0.
Definition ldemo_row : lrow := Seglun_row [ldemo_block 1; ldemo_block 2] 0 7 4 8.
Definition ldemo_at (map_version notify inprogress : Z) : lunseg :=
  Seglun_priv ldemo_geom 8 8 4 2 8 [] 0 0 false map_version notify inprogress [] ([ldemo_row] : @isl _ list_isl) "ibp".
Definition ldemo : lunseg := ldemo_at 0 0 0.
Definition ldemo_store (up room : bool) : mem_store := Mem_store 8 (λ c i, 10 * Z.of_nat c + i) up room.
Definition ldemo_heap : attr_heap := ∅.
Definition ldemo_ids : nat → Z := Z.of_nat.
Definition ldemo_buf : tbuffer := λ p, 50 + p.
Definition ldemo_tm : lun_timing := Lun_timing 0 [] (λ _, 0) (λ _, 0).

Lemma ldemo_geom_ok : geom_ok ldemo_geom.
Proof. unfold geom_ok. simpl. lia. Qed.

Lemma ldemo_ok up room v n i : lun_ok (ldemo_store up room) (ldemo_at v n i).
Proof.
  split; [exact ldemo_geom_ok|]. split; [simpl; lia|]. split; [by apply tiles_one|].
  split; [|split; [simpl; lia|split; [by exists 2|done]]].
  change (isl_all (lu_isl (ldemo_at v n i))) with [ldemo_row]. split; [|split].
  - constructor; [|constructor]. split; [done|]. split.
    { intros k Hk. repeat (apply elem_of_cons in Hk as [->|Hk]; [split; [by eexists|done]|]).
      by apply not_elem_of_nil in Hk. }
    split; [done|]. split; [done|]. split; [by exists 2|by exists 0].
  - apply (bool_decide_unpack _). vm_compute. exact I.
  - intros c Hc. change (rows_caps [ldemo_row]) with [1%nat; 2%nat] in Hc.
    repeat (apply elem_of_cons in Hc as [->|Hc]; [simpl; lia|]). by apply not_elem_of_nil in Hc.
Qed.

Definition ldemo_iov : list ex_iovec := [Ex_iovec 1 5].
Lemma ldemo_iov_ok : iov_ok ldemo_iov.
Proof. repeat constructor; simpl; lia. Qed.

(** ** Striping *)
Lemma lun_row_decompose_bijective_witness :
  let rows := lun_row_decompose ldemo_geom (replicate (Z.to_nat 2) lun_rw_empty) 1 3 5 in
  length rows = Z.to_nat 2 ∧
  (∀ r, r ∈ rows → (length (rw_ex r) ≤ 1)%nat ∧ length (piece_list (rw_iov r)) = length (piece_list (rw_ex r))) ∧
  (∀ i r k o p, rows !! i = Some r → piece_list (rw_ex r) !! k = Some o → piece_list (rw_iov r) !! k = Some p →
     3 ≤ p < 3 + 5 ∧ lun_addr ldemo_geom (1 + (p - 3)) = (Z.of_nat i, o)) ∧
  (∀ p, 3 ≤ p < 3 + 5 →
     ∃ r k, rows !! Z.to_nat (lun_addr ldemo_geom (1 + (p - 3))).1 = Some r ∧
       piece_list (rw_ex r) !! k = Some (lun_addr ldemo_geom (1 + (p - 3))).2 ∧ piece_list (rw_iov r) !! k = Some p).
Proof. apply (lun_row_decompose_bijective ldemo_geom ldemo_geom_ok 1 3 5); simpl; lia. Defined.

Example ldemo_decompose_run :
  lun_row_decompose ldemo_geom [lun_rw_empty; lun_rw_empty] 1 3 5 =
  [Lun_rw_row [(1, 1)] [(3, 1)] 1; Lun_rw_row [(0, 4)] [(4, 2); (6, 2)] 4].
Proof. vm_compute. reflexivity. Qed.

(** ** Reading and writing *)
Lemma seglun_read_correct_witness :
  ∃ σ' s' buf' bl' res st,
    seglun_rw_func false ldemo_heap ldemo_ids ldemo_tm None None (ldemo_store true true) ldemo ldemo_iov ldemo_buf 3 =
      Some (σ', s', buf', bl', res, st) ∧
    (lu_total_size ldemo ≤ iov_maxpos ldemo_iov →
       σ' = ldemo_store true true ∧ s' = ldemo ∧ buf' = ldemo_buf ∧ st = Op_status OP_STATE_FAILURE 2) ∧
    (iov_maxpos ldemo_iov < lu_total_size ldemo →
       lun_ok σ' s' ∧ (∀ off, lun_byte σ' s' off = lun_byte (ldemo_store true true) ldemo off) ∧
       lu_used_size s' = lu_used_size ldemo ∧
       (∀ p, ¬ (3 ≤ p < 3 + iov_total ldemo_iov) → buf' p = ldemo_buf p) ∧
       (∀ p, 3 ≤ p < 3 + iov_total ldemo_iov →
          (device_failed ldemo_geom res (iov_pos ldemo_iov 3 p) → buf' p = 0) ∧
          (¬ device_failed ldemo_geom res (iov_pos ldemo_iov 3 p) →
             buf' p = lun_byte (ldemo_store true true) ldemo (iov_pos ldemo_iov 3 p))) ∧
       (op_st st = OP_STATE_SUCCESS ↔ ∀ x, x ∈ res → op_st x.2 = OP_STATE_SUCCESS) ∧
       (op_st st = OP_STATE_SUCCESS ∨
          error_code st > 0 ∧ (∃ k, error_code st = slot_errs res k) ∧ ∀ k, slot_errs res k ≤ error_code st)).
Proof.
  apply (seglun_read_correct ldemo_heap ldemo_ids ldemo_tm None None (ldemo_store true true) ldemo ldemo_iov
           ldemo_buf 3 (ldemo_ok true true 0 0 0) ldemo_iov_ok); [done|lia|cbn; lia|by left].
Defined.

Example ldemo_read_run up :
  (λ '(_, s, b, _, _, st), (b <$> [2; 3; 4; 5; 6; 7; 8], op_st st, error_code st, lu_hard_errors s, lu_inprogress s)) <$>
    seglun_rw_func false ldemo_heap ldemo_ids ldemo_tm None None (ldemo_store up true) ldemo ldemo_iov ldemo_buf 3 =
  Some (if up then ([52; 11; 20; 21; 22; 23; 58], OP_STATE_SUCCESS, 0, 0, 0)
        else ([52; 0; 0; 0; 0; 0; 58], OP_STATE_FAILURE, 2, 1, 0)).
Proof. destruct up; vm_compute; reflexivity. Qed.

(** A write that starts inside and ends past the end. *)
Definition ldemo_wiov : list ex_iovec := [Ex_iovec 6 3].
Lemma ldemo_wiov_ok : iov_ok ldemo_wiov.
Proof. repeat constructor; simpl; lia. Qed.

Lemma seglun_write_correct_witness :
  ∃ σ' s' bl' res st,
    seglun_rw_func true ldemo_heap ldemo_ids ldemo_tm None None (ldemo_store true true) ldemo ldemo_wiov ldemo_buf 0 =
      Some (σ', s', ldemo_buf, bl', res, st) ∧
    (lun_ok σ' s' ∧ iov_maxpos ldemo_wiov < lu_total_size s' ∧ lu_total_size ldemo ≤ lu_total_size s' ∧
       lu_used_size s' = (if decide (iov_maxpos ldemo_wiov < lu_total_size ldemo)
                          then Z.max (lu_used_size ldemo) (iov_maxpos ldemo_wiov + 1) else lu_total_size s') ∧
       (∀ off, (0 ≤ off < lu_total_size ldemo ∨
                ∃ v, v ∈ ldemo_wiov ∧ iov_offset v ≤ off < iov_offset v + iov_len v) →
          ¬ device_failed (lu_geom ldemo) res off ∨
            (∀ q, 0 ≤ q < 0 + iov_total ldemo_wiov → iov_pos ldemo_wiov 0 q ≠ off) →
          lun_byte σ' s' off = iov_overlay (lun_byte (ldemo_store true true) ldemo) ldemo_wiov ldemo_buf 0 off) ∧
       (op_st st = OP_STATE_SUCCESS ↔ ∀ x, x ∈ res → op_st x.2 = OP_STATE_SUCCESS) ∧
       (op_st st = OP_STATE_SUCCESS → ∀ off, ¬ device_failed (lu_geom ldemo) res off) ∨
     lu_total_size ldemo ≤ iov_maxpos ldemo_wiov ∧ st = Op_status OP_STATE_FAILURE (n_devices (lu_geom ldemo)) ∧
       res = [] ∧ lu_total_size s' = lu_total_size ldemo ∧ lu_used_size s' = lu_used_size ldemo ∧
       (∃ e, lun_grown_ok σ' s' e) ∧
       ∀ off, 0 ≤ off < lu_total_size ldemo → lun_byte σ' s' off = lun_byte (ldemo_store true true) ldemo off).
Proof.
  apply (seglun_write_correct ldemo_heap ldemo_ids ldemo_tm None None (ldemo_store true true) ldemo ldemo_wiov
           ldemo_buf 0 (ldemo_ok true true 0 0 0) ldemo_wiov_ok); [done|lia|cbn; lia|right; cbn; lia|done].
Defined.

(** Three bytes at 6 make the segment 12 long, and one more stripe of room. *)
Abbreviation ldemo_write room :=
  (seglun_rw_func true ldemo_heap ldemo_ids ldemo_tm None None (ldemo_store true room) ldemo ldemo_wiov ldemo_buf 0).
Example ldemo_write_run room :
  (λ '(σ, s, _, _, _, st), (op_st st, error_code st, lu_total_size s, seglun_size s, lun_byte σ s <$> [5; 6; 7; 8])) <$>
    ldemo_write room =
  Some (if room then (OP_STATE_SUCCESS, 0, 12, 12, [23; 50; 51; 52])
        else (OP_STATE_FAILURE, 2, 8, 8, [23; 12; 13; 0])).
Proof. destruct room; vm_compute; reflexivity. Qed.

(** Without excess a write that ends one byte past the segment makes no room:
    it reports success, the size stays 8, used size 9, and byte 8 is nowhere. *)
Definition ldemo_tight : lunseg :=
  Seglun_priv ldemo_geom 8 8 4 0 8 [] 0 0 false 0 0 0 [] ([ldemo_row] : @isl _ list_isl) "ibp".
Example ldemo_write_last_byte_lost :
  (λ '(σ, s, _, _, _, st), (op_st st, lu_total_size s, lu_used_size s, lun_byte σ s <$> [5; 6; 7; 8])) <$>
    seglun_rw_func true ldemo_heap ldemo_ids ldemo_tm None None (ldemo_store true true) ldemo_tight ldemo_wiov ldemo_buf 0 =
  Some (OP_STATE_SUCCESS, 8, 9, [23; 50; 51; 0]).
Proof. vm_compute. reflexivity. Qed.

Lemma ldemo_write_ok : ∃ σ' s' b' bl' res st,
  ldemo_write true = Some (σ', s', b', bl', res, st) ∧ op_st st = OP_STATE_SUCCESS.
Proof.
  pose proof (ldemo_write_run true) as Hrun.
  destruct (ldemo_write true) as [[[[[[σ' s'] b'] bl'] res] st]|]; [|discriminate].
  do 6 eexists. split; [reflexivity|]. cbn [fmap option_fmap option_map] in Hrun. by injection Hrun.
Qed.

Lemma seglun_write_oversize_witness : ∃ σ' s' b' bl' res st,
  ldemo_write true = Some (σ', s', b', bl', res, st) ∧ iov_maxpos ldemo_wiov + 1 < seglun_size s'.
Proof.
  destruct ldemo_write_ok as (σ' & s' & b' & bl' & res & st & He & Hst). exists σ', s', b', bl', res, st.
  split; [exact He|].
  refine (seglun_write_oversize ldemo_heap ldemo_ids ldemo_tm None None (ldemo_store true true) ldemo ldemo_wiov
           ldemo_buf 0 σ' s' b' bl' res st (ldemo_ok true true 0 0 0) ldemo_wiov_ok _ _ _ _ _ _ He Hst);
    [done|lia|apply (bool_decide_unpack _); vm_compute; exact I|simpl; lia|done|apply (bool_decide_unpack _); vm_compute; exact I].
Defined.

(** ** Sizes *)
Lemma slun_truncate_correct_witness :
  ∃ σ' s' st, slun_truncate ldemo_heap ldemo_ids (ldemo_store true true) ldemo 3 = Some (σ', s', st) ∧
    (lun_ok σ' s' ∧
       (lu_total_size s' = lun_round (lu_geom ldemo) 3 ∨ lu_total_size s' = lu_total_size ldemo ∧ 3 = lu_total_size ldemo) ∧
       (∀ off, 0 ≤ off < Z.min (lu_total_size ldemo) (lu_total_size s') →
          lun_byte σ' s' off = lun_byte (ldemo_store true true) ldemo off) ∨
     lu_total_size ldemo < 3 ∧ st = op_failure_status ∧ lu_total_size s' = lu_total_size ldemo ∧
       (∃ e, lun_grown_ok σ' s' e) ∧
       (∀ off, 0 ≤ off < lu_total_size ldemo → lun_byte σ' s' off = lun_byte (ldemo_store true true) ldemo off)).
Proof. apply (slun_truncate_correct ldemo_heap ldemo_ids (ldemo_store true true) ldemo 3 (ldemo_ok true true 0 0 0)). lia. Defined.

Example ldemo_truncate_run n :
  n = 3 ∨ n = 11 →
  (λ '(_, s, st), (op_st st, lu_total_size s, sr_row_len <$> isl_all (lu_isl s))) <$>
    slun_truncate ldemo_heap ldemo_ids (ldemo_store true true) ldemo n =
  Some (OP_STATE_SUCCESS, lun_round ldemo_geom n, if decide (n = 3) then [4] else [8; 4]).
Proof. intros [-> | ->]; vm_compute; reflexivity. Qed.

(** The second block of the row was lost. *)
Lemma slun_row_replace_fix_correct_witness :
  ∃ σ' ks sts' old nx' err,
    slun_row_replace_fix ldemo_heap ldemo_ids "ibp" 0 (ldemo_store true true) ([] : list rsq_call) ldemo_row [0; 1] =
      Some (σ', row_set_blocks ldemo_row ks, sts', old, nx', err) ∧
    0 ≤ err ∧ (err = 0 → ∀ i st, sts' !! i = Some st → st = 0) ∧ length ks = length (sr_block ldemo_row) ∧
    (∀ i k, sr_block ldemo_row !! i = Some k → [0; 1] !! i = Some 0 → ks !! i = Some k ∧ sts' !! i = Some 0) ∧
    (∀ i k, ks !! i = Some k → sts' !! i = Some 0 → [0; 1] !! i ≠ Some 0 →
       ∃ c, bk_cap k = Some c ∧ ds_live σ' c ∧ ¬ ds_live (ldemo_store true true) c ∧
         ∀ j k', ks !! j = Some k' → sts' !! j = Some 0 → [0; 1] !! j ≠ Some 0 → bk_cap k' = Some c → j = i) ∧
    (∀ c, ds_live (ldemo_store true true) c →
       ds_live σ' c ∧ ∀ o, ds_byte σ' c o = ds_byte (ldemo_store true true) c o).
Proof.
  apply (slun_row_replace_fix_correct ldemo_heap ldemo_ids "ibp" 0 (ldemo_store true true) [] ldemo_row [0; 1]);
    [done| |].
  - intros [|[|i]] st Hi; by simplify_eq/=.
  - intros [|[|i]] k Hi; simplify_eq/=; (split; [done|]); intros; by eexists.
Defined.

Example ldemo_replace_run room :
  (λ '(_, b, sts, _, _, err), (bk_cap <$> sr_block b, sts, err)) <$>
    slun_row_replace_fix ldemo_heap ldemo_ids "ibp" 0 (ldemo_store true room) ([] : list rsq_call) ldemo_row [0; 1] =
  Some (if room then ([Some 1%nat; Some 8%nat], [0; 0], 0) else ([Some 1%nat; Some 0%nat], [0; 1], 1)).
Proof. destruct room; vm_compute; reflexivity. Qed.

(** ** Requests and remapping *)

(** The version the segment starts with differs from the one it is told of. *)
Lemma ldemo_reachable : lun_reachable (ldemo_store true true) (Lun_conc (ldemo_at (-1) 3 0) 0 0 0).
Proof. exists (Lun_conc (ldemo_at (-1) 3 0) 0 0 0). split; [done|constructor]. Qed.

Lemma lun_remap_alone_witness :
  ∃ y, lun_step (ldemo_store true true) (Lun_conc (ldemo_at (-1) 3 0) 0 0 0) y ∧
    lu_inprogress (lc_seg y) = Z.of_nat (lc_run y) ∧
    (lu_isl (lc_seg y) ≠ lu_isl (ldemo_at (-1) 3 0) →
       0%nat = 0%nat ∧ lc_run y = 1%nat ∧ -1 ≠ 3 ∧ lu_map_version (lc_seg y) = 3).
Proof.
  destruct (lun_enter (ldemo_store true true) (ldemo_at (-1) 3 0)) as [s'|] eqn:He; [|vm_compute in He; discriminate].
  assert (lun_step (ldemo_store true true) (Lun_conc (ldemo_at (-1) 3 0) 0 0 0) (Lun_conc s' 1 0 0)) as Hstep.
  { apply step_enter; [vm_compute; reflexivity|exact He]. }
  exists (Lun_conc s' 1 0 0). split; [exact Hstep|].
  apply (lun_remap_alone (ldemo_store true true) _ _ ldemo_reachable Hstep).
Defined.

Lemma ldemo_waiting : lun_reachable (ldemo_store true true) (Lun_conc (ldemo_at 0 3 1) 1 1 0).
Proof.
  exists (Lun_conc (ldemo_at 0 0 0) 0 0 0). split; [done|].
  eapply rtc_l; [eapply step_enter; [vm_compute; reflexivity|reflexivity]|].
  eapply rtc_l; [apply (step_notify _ _ _ _ _ 3)|].
  eapply rtc_l; [apply step_wait; vm_compute; reflexivity|]. constructor.
Qed.

Lemma lun_waiting_enters_witness :
  ((0 < 1)%nat → (0 < 1)%nat) ∧
  ((0 < 1 + 0)%nat → inevitably (lun_serve (ldemo_store true true)) (lun_served (ldemo_store true true) (ldemo_at 0 3 1))
    (Lun_conc (ldemo_at 0 3 1) 1 1 0)).
Proof. apply (lun_waiting_enters _ _ ldemo_waiting (ldemo_ok true true 0 3 1)). Defined.
