(* ===== verification/ServiceManager.v ===== *)
(** * Service managers (service_manager.c)

    A service manager is a table of sections, and a section a table of services.
    The sections are shared through pointers, so they are kept in a store of
    their own. *)
From stdpp Require Import strings gmap.
From S2P Require Import Prelude.
#[local] Open Scope Z_scope.

Section service_manager.
Context {V : Type}.

(** The section tables, by address. *)
Abbreviation sm_store := (gmap nat (gmap string V)).

(** [service_manager_t]: the section of each name. *)
Record service_manager := Service_manager { sm_table : gmap string nat }.

(** [apr_hash_set]: a null value removes the key. *)
Definition hash_set (key : string) (v : option V) (m : gmap string V) : gmap string V :=
  partial_alter (λ _, v) key m.

Definition create_service_manager : service_manager := Service_manager ∅.

Definition remove_service (h : sm_store) (sm : service_manager) (section name : string) : sm_store :=
  match sm_table sm !! section with
  | None => h
  | Some a => alter (hash_set name None) a h
  end.

Definition add_service (h : sm_store) (sm : service_manager) (section name : string) (service : option V)
    : sm_store * service_manager :=
  match sm_table sm !! section with
  | Some a => (alter (hash_set name service) a h, sm)
  | None =>
      let a := fresh (dom h) in
      (<[a := hash_set name service ∅]> h, Service_manager (<[section := a]> (sm_table sm)))
  end.

Definition lookup_service (h : sm_store) (sm : service_manager) (section name : string) : option V :=
  a ← sm_table sm !! section; sec ← h !! a; sec !! name.

(** The loop of [clone_service_manager] over the sections. *)
Fixpoint clone_sections (h : sm_store) (l : list (string * nat)) (t : gmap string nat) : sm_store * gmap string nat :=
  match l with
  | [] => (h, t)
  | (key, a) :: l =>
      let a' := fresh (dom h) in
      clone_sections (<[a' := default ∅ (h !! a)]> h) l (<[key := a']> t)
  end.
Definition clone_service_manager (h : sm_store) (sm : service_manager) : sm_store * service_manager :=
  let '(h, t) := clone_sections h (map_to_list (sm_table sm)) (sm_table create_service_manager) in
  (h, Service_manager t).

(** [destroy_service_manager]: the pool goes, and the sections with it. *)
Definition destroy_service_manager (h : sm_store) (sm : service_manager) : sm_store :=
  foldr delete h ((map_to_list (sm_table sm)).*2).

(** ** Invariant *)

(** Every section has a table of its own. *)
Definition sm_ok (h : sm_store) (sm : service_manager) : Prop :=
  (∀ k a, sm_table sm !! k = Some a → a ∈ dom h) ∧
  ∀ k k' a, sm_table sm !! k = Some a → sm_table sm !! k' = Some a → k = k'.

(** Two managers share no table. *)
Definition sm_apart (sm sm' : service_manager) : Prop :=
  ∀ k k' a, sm_table sm !! k = Some a → sm_table sm' !! k' ≠ Some a.

(** The calls that change a manager. *)
Inductive sm_call := Sm_add (section name : string) (service : option V) | Sm_remove (section name : string).
Definition sm_exec (c : sm_call) (x : sm_store * service_manager) : sm_store * service_manager :=
  match c with
  | Sm_add section name service => add_service x.1 x.2 section name service
  | Sm_remove section name => (remove_service x.1 x.2 section name, x.2)
  end.

(** The table the calls build, as a function. *)
Definition sm_spec (c : sm_call) (f : string → string → option V) (section name : string) : option V :=
  match c with
  | Sm_add s n v => if decide (s = section ∧ n = name) then v else f section name
  | Sm_remove s n => if decide (s = section ∧ n = name) then None else f section name
  end.

Lemma hash_set_lookup name v m n : hash_set name v m !! n = if decide (name = n) then v else m !! n.
Proof. apply lookup_partial_alter. Qed.

Lemma dom_fresh (h : sm_store) : h !! fresh (dom h) = None.
Proof. apply not_elem_of_dom, is_fresh. Qed.

Lemma lookup_alter_section h sm section name s n v a :
  sm_ok h sm → sm_table sm !! section = Some a →
  lookup_service (alter (hash_set name v) a h) sm s n =
    if decide (section = s ∧ name = n) then v else lookup_service h sm s n.
Proof.
  intros [Hd Hinj] Ha. unfold lookup_service. destruct (decide (section = s)) as [<-|Hs].
  - rewrite Ha. cbn [mbind option_bind]. rewrite lookup_alter_eq. apply Hd in Ha. apply elem_of_dom in Ha as [sec ->].
    cbn. rewrite hash_set_lookup. repeat case_decide; naive_solver.
  - rewrite decide_False by naive_solver. destruct (sm_table sm !! s) as [b|] eqn:Hb; [|done]. cbn [mbind option_bind].
    rewrite lookup_alter_ne; [done|]. intros ->. by destruct Hs; eapply Hinj.
Qed.

Lemma sm_exec_ok c h sm : sm_ok h sm → sm_ok (sm_exec c (h, sm)).1 (sm_exec c (h, sm)).2.
Proof.
  intros [Hd Hinj]. destruct c as [section name v|section name]; simpl.
  - unfold add_service. destruct (sm_table sm !! section) as [a|] eqn:Ha; simpl.
    + split; [|done]. intros k b Hb. rewrite dom_alter_L. eauto.
    + set (a := fresh (dom h)). assert (∀ k, sm_table sm !! k ≠ Some a) as Hna.
      { intros k Hk. apply Hd in Hk. by apply is_fresh in Hk. }
      split; cbn [sm_table].
      * intros k b. rewrite dom_insert_L, lookup_insert. case_decide; [intros [= <-]; set_solver|]. intros Hb. apply Hd in Hb. set_solver.
      * intros k k' b. rewrite !lookup_insert. repeat case_decide; intros; simplify_eq; try done; [by destruct (Hna k')|by destruct (Hna k)|eauto].
  - unfold remove_service. destruct (sm_table sm !! section) as [a|] eqn:Ha; [|done].
    split; [|done]. intros k b Hb. rewrite dom_alter_L. eauto.
Qed.

(** A call of one manager does not disturb another one. *)
Lemma sm_exec_apart c h sm sm' s n :
  sm_ok h sm' → sm_apart sm sm' →
  sm_apart (sm_exec c (h, sm)).2 sm' ∧ sm_ok (sm_exec c (h, sm)).1 sm' ∧
  lookup_service (sm_exec c (h, sm)).1 sm' s n = lookup_service h sm' s n.
Proof.
  intros [Hd Hinj] Hap.
  assert (∀ a k f, sm_table sm !! k = Some a →
    sm_ok (alter f a h) sm' ∧ lookup_service (alter f a h) sm' s n = lookup_service h sm' s n) as Halt.
  { intros a k f Ha. split; [split; [|done]; intros; rewrite dom_alter_L; eauto|].
    unfold lookup_service. destruct (sm_table sm' !! s) as [b|] eqn:Hb; [|done]. cbn [mbind option_bind].
    rewrite lookup_alter_ne; [done|]. intros ->. by eapply Hap. }
  destruct c as [section name v|section name]; simpl.
  - unfold add_service. destruct (sm_table sm !! section) as [a|] eqn:Ha; simpl; [split; [done|by eapply Halt]|].
    set (a := fresh (dom h)). assert (∀ k, sm_table sm' !! k ≠ Some a) as Hna.
    { intros k Hk. apply Hd in Hk. by apply is_fresh in Hk. }
    split; [|split; [split; [|done]|]].
    + intros k k' b. cbn [sm_table]. rewrite lookup_insert. case_decide; [intros [= <-]; apply Hna|apply Hap].
    + intros k b Hb. rewrite dom_insert_L. apply Hd in Hb. set_solver.
    + unfold lookup_service. destruct (sm_table sm' !! s) as [b|] eqn:Hb; [|done]. cbn [mbind option_bind].
      rewrite lookup_insert_ne; [done|]. intros <-. by eapply Hna.
  - unfold remove_service. destruct (sm_table sm !! section) as [a|] eqn:Ha; [split; [done|by eapply Halt]|done].
Qed.

Definition sm_run (l : list sm_call) (x : sm_store * service_manager) : sm_store * service_manager := foldl (λ x c, sm_exec c x) x l.

Lemma sm_run_apart l : ∀ h sm sm' s n,
  sm_ok h sm' → sm_apart sm sm' → lookup_service (sm_run l (h, sm)).1 sm' s n = lookup_service h sm' s n.
Proof.
  induction l as [|c l IH]; intros h sm sm' s n Hok Hap; [done|].
  destruct (sm_exec_apart c h sm sm' s n Hok Hap) as (Hap' & Hok' & <-).
  cbn [sm_run foldl]. destruct (sm_exec c (h, sm)) as [h1 sm1]. by apply IH.
Qed.

(** Cloning: the copies are new, and hold what the sections held. *)
Lemma clone_sections_ok l : ∀ h t,
  NoDup l.*1 → (∀ k a, (k, a) ∈ l → a ∈ dom h) → (∀ k a, (k, a) ∈ l → t !! k = None) →
  sm_ok h (Service_manager t) →
  let '(h', t') := clone_sections h l t in
  sm_ok h' (Service_manager t') ∧ (∀ a, a ∈ dom h → h' !! a = h !! a) ∧
  (∀ k a, t !! k = Some a → t' !! k = Some a) ∧
  (∀ k a', t' !! k = Some a' → t !! k = Some a' ∨ (a' ∉ dom h) ∧ ∃ a, (k, a) ∈ l ∧ h' !! a' = h !! a) ∧
  (∀ k a, (k, a) ∈ l → is_Some (t' !! k)).
Proof.
  induction l as [|[key a] l IH]; intros h t Hnd Hl Ht [Hd Hinj]; cbn [clone_sections].
  { split; [done|]. split; [done|]. split; [done|]. split; [by left|]. by intros ?? ?%not_elem_of_nil. }
  apply NoDup_cons in Hnd as [Hkey Hnd]. set (a' := fresh (dom h)).
  assert (a' ∉ dom h) as Hfr by apply is_fresh.
  assert (a ∈ dom h) as Ha by (eapply Hl; by left).
  assert (t !! key = None) as Htk by (eapply Ht; by left).
  specialize (IH (<[a' := default ∅ (h !! a)]> h) (<[key := a']> t) Hnd).
  destruct (clone_sections (<[a' := default ∅ (h !! a)]> h) l (<[key := a']> t)) as [h' t'].
  destruct IH as (Hok & Hkeep & Htk' & Hnew & Hall).
  - intros k b Hin. rewrite dom_insert_L. apply elem_of_union_r. eapply Hl. by right.
  - intros k b Hin. rewrite lookup_insert_ne; [eapply Ht; by right|]. intros ->.
    apply Hkey. apply list_elem_of_fmap. by exists (k, b).
  - split; cbn [sm_table].
    + intros k b. rewrite dom_insert_L, lookup_insert. case_decide; [intros [= <-]; set_solver|]. intros Hb. apply Hd in Hb. set_solver.
    + assert (∀ k, t !! k ≠ Some a') as Hna by (intros k Hk; by apply Hd in Hk).
      intros k k' b. rewrite !lookup_insert. repeat case_decide; intros; simplify_eq; try done; [by destruct (Hna k')|by destruct (Hna k)|eauto].
  - assert (∀ b, b ∈ dom h → h' !! b = h !! b) as Hkeep'.
    { intros b Hb. rewrite Hkeep by (rewrite dom_insert_L; set_solver). rewrite lookup_insert_ne; [done|]. by intros <-. }
    split; [done|]. split; [done|]. split; [|split].
    + intros k b Hk. apply Htk'. rewrite lookup_insert_ne; [done|]. by intros <-; rewrite Htk in Hk.
    + intros k b Hk. destruct (Hnew k b Hk) as [Hb|(Hb & c & Hc & He)].
      * rewrite lookup_insert in Hb. case_decide as Hkk; [|by left]. subst. injection Hb as <-. right. split; [done|].
        exists a. split; [by left|]. rewrite Hkeep by (rewrite dom_insert_L; set_solver). rewrite lookup_insert_eq.
        apply elem_of_dom in Ha as [sec ->]. done.
      * right. rewrite dom_insert_L in Hb. split; [set_solver|]. exists c. split; [by right|]. rewrite He.
        rewrite lookup_insert_ne; [done|]. intros <-. apply Hfr. eapply Hl. by right.
    + intros k b [[= -> ->]|Hin]%elem_of_cons; [|eauto]. exists a'. apply Htk'. apply lookup_insert_eq.
Qed.

(** ** Claims *)

(** C27: a service manager is a table of services by section and name: whatever
    is added or removed in whatever order, a lookup gives the last service added
    under the names and not removed since, and the sections keep tables of their
    own. *)
Theorem service_manager_refines l h sm :
  sm_ok h sm →
  sm_ok (sm_run l (h, sm)).1 (sm_run l (h, sm)).2 ∧
  ∀ section name, lookup_service (sm_run l (h, sm)).1 (sm_run l (h, sm)).2 section name =
    foldl (λ f c, sm_spec c f) (lookup_service h sm) l section name.
Proof.
  revert h sm. assert (∀ l f g section name, (∀ s n, f s n = g s n) →
    foldl (λ f c, sm_spec c f) f l section name = foldl (λ f c, sm_spec c f) g l section name) as Hext.
  { clear. induction l as [|c l IH]; intros f g s n He; [apply He|]. apply IH. intros s' n'. destruct c; simpl; by rewrite He. }
  induction l as [|c l IH]; intros h sm Hok; [done|]. cbn [sm_run foldl].
  pose proof (sm_exec_ok c h sm Hok) as Hok1.
  assert (∀ s n, lookup_service (sm_exec c (h, sm)).1 (sm_exec c (h, sm)).2 s n = sm_spec c (lookup_service h sm) s n) as Hc.
  { intros s n. destruct c as [section name v|section name]; simpl.
    - unfold add_service. destruct (sm_table sm !! section) as [a|] eqn:Ha; simpl; [by apply lookup_alter_section|].
      unfold lookup_service. cbn [sm_table]. rewrite lookup_insert. case_decide as Hs; cbn [mbind option_bind].
      + subst. rewrite lookup_insert_eq. cbn [mbind option_bind]. rewrite hash_set_lookup, Ha, lookup_empty.
        repeat case_decide; naive_solver.
      + rewrite decide_False by naive_solver. destruct (sm_table sm !! s) as [b|] eqn:Hb; [|done]. cbn [mbind option_bind].
        rewrite lookup_insert_ne; [done|]. intros <-. apply Hok in Hb. by apply is_fresh in Hb.
    - unfold remove_service. destruct (sm_table sm !! section) as [a|] eqn:Ha; [by apply lookup_alter_section|].
      case_decide as Hs; [|done]. destruct Hs as [-> ->]. unfold lookup_service. by rewrite Ha. }
  destruct (sm_exec c (h, sm)) as [h1 sm1]. destruct (IH h1 sm1 Hok1) as [Hok2 Hl]. split; [done|].
  intros s n. unfold sm_run in Hl. rewrite Hl. by apply Hext.
Qed.

(** A clone starts with the services of the original and is independent of it:
    no sequence of calls on one of them changes what the other finds. *)
Theorem clone_service_manager_independent h sm :
  sm_ok h sm →
  let '(h', clone) := clone_service_manager h sm in
  sm_ok h' clone ∧ sm_ok h' sm ∧
  ∀ l section name,
    lookup_service (sm_run l (h', sm)).1 clone section name = lookup_service h sm section name ∧
    lookup_service (sm_run l (h', clone)).1 sm section name = lookup_service h sm section name.
Proof.
  intros [Hd Hinj]. unfold clone_service_manager.
  pose proof (clone_sections_ok (map_to_list (sm_table sm)) h (sm_table create_service_manager)) as Hc.
  destruct (clone_sections h (map_to_list (sm_table sm)) (sm_table create_service_manager)) as [h' t'].
  destruct Hc as (Hok & Hkeep & _ & Hnew & Hall).
  - apply NoDup_fst_map_to_list.
  - intros k a Hin%elem_of_map_to_list. eauto.
  - intros. apply lookup_empty.
  - split; intros k; [intros a|intros k' a]; cbn; by rewrite lookup_empty.
  - assert (sm_ok h' sm) as Hok'.
    { split; [|done]. intros k a Hk. apply Hd in Hk. apply elem_of_dom. rewrite Hkeep by done. by apply elem_of_dom. }
    assert (sm_apart sm (Service_manager t')) as Hap.
    { intros k k' a Hk Hk'. destruct (Hnew k' a Hk') as [Hx|[Hx _]]; [by cbn in Hx; rewrite lookup_empty in Hx|]. by apply Hd in Hk. }
    split; [done|]. split; [done|]. intros l section name. split.
    + rewrite sm_run_apart by done. unfold lookup_service. cbn [sm_table].
      destruct (t' !! section) as [a'|] eqn:Ht'; cbn [mbind option_bind].
      * destruct (Hnew section a' Ht') as [Hx|(_ & a & Ha & ->)]; [by cbn in Hx; rewrite lookup_empty in Hx|].
        apply elem_of_map_to_list in Ha. by rewrite Ha.
      * destruct (sm_table sm !! section) as [a|] eqn:Ha; [|done]. apply elem_of_map_to_list in Ha.
        destruct (Hall section a Ha) as [? ?]. congruence.
    + rewrite sm_run_apart; [|done|].
      * unfold lookup_service. destruct (sm_table sm !! section) as [a|] eqn:Ha; [|done]. cbn [mbind option_bind].
        rewrite Hkeep; [done|]. by eapply Hd.
      * intros k k' a Hk Hk'. by eapply Hap.
Qed.
End service_manager.

(** ** Concrete runs *)
Definition sm_calls : list sm_call :=
  [Sm_add "a" "x" (Some 1); Sm_add "a" "y" (Some 2); Sm_add "b" "x" (Some 3); Sm_add "a" "x" (Some 4);
   Sm_remove "b" "x"; Sm_add "a" "y" None].

Lemma sm_empty_ok : sm_ok (∅ : gmap nat (gmap string Z)) create_service_manager.
Proof. split; intros k; [intros a|intros k' a]; cbn; by rewrite lookup_empty. Qed.

Example service_manager_run :
  let '(h, sm) := sm_run sm_calls (∅, create_service_manager) in
  (lookup_service h sm "a" "x", lookup_service h sm "a" "y", lookup_service h sm "b" "x", lookup_service h sm "c" "x") =
  (Some 4, None, None, None).
Proof. vm_compute. reflexivity. Qed.

Lemma service_manager_refines_witness :
  sm_ok (sm_run sm_calls (∅, create_service_manager)).1 (sm_run sm_calls (∅, create_service_manager)).2 ∧
  ∀ section name, lookup_service (sm_run sm_calls (∅, create_service_manager)).1
      (sm_run sm_calls (∅, create_service_manager)).2 section name =
    foldl (λ f c, sm_spec c f) (lookup_service ∅ create_service_manager) sm_calls section name.
Proof. apply (service_manager_refines sm_calls ∅ create_service_manager sm_empty_ok). Defined.

Definition sm_one : gmap nat (gmap string Z) := {[ 0%nat := {[ "x"%string := 5 ]} ]}.
Definition sm_one_table : service_manager := Service_manager {[ "a"%string := 0%nat ]}.
Lemma sm_one_ok : sm_ok sm_one sm_one_table.
Proof.
  split; cbn.
  - intros k a [<- <-]%lookup_singleton_Some. set_solver.
  - intros k k' a [<- <-]%lookup_singleton_Some [<- _]%lookup_singleton_Some. done.
Qed.

Lemma clone_service_manager_independent_witness :
  let '(h', clone) := clone_service_manager sm_one sm_one_table in
  sm_ok h' clone ∧ sm_ok h' sm_one_table ∧
  ∀ l section name,
    lookup_service (sm_run l (h', sm_one_table)).1 clone section name = lookup_service sm_one sm_one_table section name ∧
    lookup_service (sm_run l (h', clone)).1 sm_one_table section name = lookup_service sm_one sm_one_table section name.
Proof. apply (clone_service_manager_independent sm_one sm_one_table sm_one_ok). Defined.
