(* ===== verification/SegBase.v ===== *)
(** * Copies between segments and files (segment_base.c)

    [segment_copy] moves data from one segment to another through the client,
    [segment_get] from a segment to an open file and [segment_put] from a file
    to a segment.  Each of them splits the caller's buffer in two halves and
    fills one while the other is written. *)
From stdpp Require Import strings gmap.
From S2P Require Import Prelude Seg Inip ServiceManager.
#[local] Open Scope Z_scope.

(** ** Loading *)

(** The forms an exnode comes in. *)
Inductive ex_type := EX_TEXT | EX_PROTOCOL_BUFFERS | EX_OTHER.
Definition SEG_SM_LOAD : string := "segment_load".

(** [load_segment], for a manager whose services of that section load segments;
    [fd] gives the groups of the exnode.  The outer [None] is a lookup with a
    null name. *)
Definition load_segment {T} `{!Inip} (h : gmap nat (gmap string (Z → option T))) (ess : service_manager)
    (fd : string → inip_group) (type : ex_type) (id : Z) : option (option T) :=
  match type with
  | EX_TEXT =>
      let type := inip_get_string (fd ("segment-" +:+ print_int id)) "type" "" in
      match lookup_service h ess SEG_SM_LOAD type with
      | None => Some None
      | Some sload => Some (sload id)
      end
  | EX_PROTOCOL_BUFFERS => None
  | EX_OTHER => Some None
  end.

(** ** Open files *)

(** A file being read: the bytes left and whether what follows them is an error
    rather than the end. *)
Record ifile := Ifile { if_rest : list Z; if_err : bool }.

(** [fread]: the bytes, the file, and [feof]. *)
Definition fread (f : ifile) (n : Z) : list Z * ifile * bool :=
  (take (Z.to_nat n) (if_rest f), Ifile (drop (Z.to_nat n) (if_rest f)) (if_err f),
   negb (if_err f) && bool_decide (Z.of_nat (length (if_rest f)) < n)).

(** A file being written: the bytes and the room that is left. *)
Record ofile := Ofile { of_bytes : list Z; of_room : nat }.
Definition fwrite (f : ofile) (bytes : list Z) : ofile * Z :=
  let got := Nat.min (length bytes) (of_room f) in
  (Ofile (of_bytes f ++ take got bytes) (of_room f - got), Z.of_nat got).

(** Bytes into and out of a buffer. *)
Definition buf_set (buf : tbuffer) (pos : Z) (l : list Z) : tbuffer :=
  λ p, if decide (pos ≤ p < pos + Z.of_nat (length l)) then l !!! Z.to_nat (p - pos) else buf p.
Definition buf_get (buf : tbuffer) (pos n : Z) : list Z := buf <$> seqZ pos n.

(** How much the next read asks for. *)
Definition next_len (nbytes h : Z) : Z :=
  if decide (nbytes < 0) then h else if decide (nbytes > h) then h else nbytes.

(** ** Segment to segment *)
Section copy.
Context {S D : Type} `{!Segment S, !Segment D, !Gop}.

(** One round: the write of one half and the read of the other are waited for
    together; [wf] is which of them is done first. *)
Definition copy_round (wf : bool) (s : S) (d : D) (buf : tbuffer) (wpos wlen wb rpos rlen rb : Z)
    : S * D * tbuffer * list op_status :=
  if wf then
    let '(d, st1) := segment_write d [Ex_iovec wpos wlen] buf wb in
    let '(s, buf, st2) := segment_read s [Ex_iovec rpos rlen] buf rb in (s, d, buf, [st1; st2])
  else
    let '(s, buf, st2) := segment_read s [Ex_iovec rpos rlen] buf rb in
    let '(d, st1) := segment_write d [Ex_iovec wpos wlen] buf wb in (s, d, buf, [st1; st2]).

(** The loop, at its head: [rb] is the half that was read last, with [rlen]
    bytes.  It ends in a failed round ([None]) or with the positions reached. *)
Fixpoint copy_loop (fuel : nat) (wf : nat → bool) (h : Z) (s : S) (d : D) (buf : tbuffer)
    (rb wb rpos wpos rlen nbytes : Z) : option (S * D * option (Z * Z)) :=
  match fuel with
  | O => None
  | Datatypes.S fuel =>
      let '(rb, wb) := (wb, rb) in
      let wlen := rlen in
      let rlen := next_len nbytes h in
      if decide (rlen > 0) then
        let '(s, d, buf, sts) := copy_round (wf fuel) s d buf wpos wlen wb rpos rlen rb in
        if decide (opque_waitall sts = OP_STATE_SUCCESS)
        then copy_loop fuel wf h s d buf rb wb (rpos + rlen) (wpos + wlen) rlen (nbytes - rlen)
        else Some (s, d, None)
      else
        let '(d, st) := segment_write d [Ex_iovec wpos wlen] buf wb in
        Some (s, d, if decide (opque_waitall [st] = OP_STATE_SUCCESS) then Some (rpos, wpos + wlen) else None)
  end.

(** [segment_copy_func] with at most [fuel] rounds; [None] is more of them. *)
Definition segment_copy_func (fuel : nat) (wf : nat → bool) (s : S) (d : D) (buf : tbuffer)
    (src_offset dest_offset len bufsize : Z) (truncate : bool) : option (S * D * op_status) :=
  let h := bufsize `quot` 2 in
  let nbytes := segment_size s - src_offset in
  let rlen := next_len nbytes h in
  let nbytes := if decide (len ≠ -1 ∧ len < nbytes) then len else nbytes in
  let dend := dest_offset + nbytes in
  let '(d, _) := segment_truncate d (- dend) in
  let '(s, buf, st) := segment_read s [Ex_iovec src_offset rlen] buf 0 in
  if decide (op_st st ≠ OP_STATE_SUCCESS) then Some (s, d, op_failure_status)
  else
    '(s, d, r) ← copy_loop fuel wf h s d buf 0 h (src_offset + rlen) dest_offset rlen (nbytes - rlen);
    match r with
    | None => Some (s, d, op_failure_status)
    | Some (rpos, wpos) =>
        let d := if truncate then (segment_truncate d wpos).1 else d in
        Some (s, d, Op_status (op_st op_success_status) rpos)
    end.
End copy.

(** ** Segment to file *)
Section get.
Context {S : Type} `{!Segment S, !Gop}.

(** How a transfer ends: with a status, or by waiting for an operation that was
    freed before. *)
Inductive xfer_end := Xfer_status (st : op_status) | Xfer_crash.

(** The read of a round is started before the file is written and waited for
    after it. *)
Fixpoint get_loop (fuel : nat) (h : Z) (s : S) (f : ofile) (buf : tbuffer) (rb wb rpos rlen nbytes : Z)
    : option (S * ofile * xfer_end) :=
  match fuel with
  | O => None
  | Datatypes.S fuel =>
      let '(rb, wb) := (wb, rb) in
      let wlen := rlen in
      let rlen := next_len nbytes h in
      let out := buf_get buf wb wlen in
      let '(s', buf', st) :=
        if decide (rlen > 0) then segment_read s [Ex_iovec rpos rlen] buf rb else (s, buf, op_success_status) in
      let '(f, got) := fwrite f out in
      if decide (wlen ≠ got)
      then Some (s', f, if decide (rlen > 0) then Xfer_status op_failure_status else Xfer_crash)
      else if decide (rlen > 0) then
        if decide (op_st st ≠ OP_STATE_SUCCESS) then Some (s', f, Xfer_status op_failure_status)
        else get_loop fuel h s' f buf' rb wb (rpos + rlen) rlen (nbytes - rlen)
      else Some (s', f, Xfer_status op_success_status)
  end.

(** [segment_get_func]; the length asked for, [len], is overwritten. *)
Definition segment_get_func (fuel : nat) (s : S) (f : ofile) (buf : tbuffer) (src_offset len bufsize : Z)
    : option (S * ofile * xfer_end) :=
  let h := bufsize `quot` 2 in
  let nbytes := len in
  let nbytes := segment_size s - src_offset in
  let rlen := next_len nbytes h in
  let '(s, buf, st) := segment_read s [Ex_iovec src_offset rlen] buf 0 in
  if decide (op_st st ≠ OP_STATE_SUCCESS) then Some (s, f, Xfer_status op_failure_status)
  else get_loop fuel h s f buf 0 h (src_offset + rlen) rlen (nbytes - rlen).
End get.

(** ** File to segment *)
Section put.
Context {D : Type} `{!Segment D, !Gop}.

(** The loop; the last result is [Some] of the end position, or [None] when
    the transfer failed. *)
Fixpoint put_loop (fuel : nat) (h : Z) (d : D) (f : ifile) (buf : tbuffer) (rb wb wpos rlen nbytes : Z)
    : option (D * ifile * option Z) :=
  match fuel with
  | O => None
  | Datatypes.S fuel =>
      let '(rb, wb) := (wb, rb) in
      let wlen := rlen in
      let '(d, st) := segment_write d [Ex_iovec wpos wlen] buf wb in
      let rlen := next_len nbytes h in
      if decide (rlen > 0) then
        let '(bytes, f, eof) := fread f rlen in
        let got := Z.of_nat (length bytes) in
        if decide (got = 0 ∧ eof = false) then Some (d, f, None)
        else if decide (op_st st ≠ OP_STATE_SUCCESS) then Some (d, f, None)
        else if decide (got > 0) then put_loop fuel h d f (buf_set buf rb bytes) rb wb (wpos + wlen) got (nbytes - got)
        else Some (d, f, Some (wpos + wlen))
      else if decide (op_st st ≠ OP_STATE_SUCCESS) then Some (d, f, None)
      else Some (d, f, Some (wpos + wlen))
  end.

(** [segment_put_func] *)
Definition segment_put_func (fuel : nat) (d : D) (f : ifile) (buf : tbuffer) (dest_offset len bufsize : Z)
    (truncate : bool) : option (D * ifile * op_status) :=
  let h := bufsize `quot` 2 in
  let nbytes := len in
  let dend := dest_offset + nbytes in
  let '(d, _) := segment_truncate d (- dend) in
  let rlen := next_len nbytes h in
  let nbytes := nbytes - rlen in
  let '(bytes, f, eof) := fread f rlen in
  let got := Z.of_nat (length bytes) in
  if decide (got = 0) then Some (d, f, if eof then op_success_status else op_failure_status)
  else
    '(d, f, r) ← put_loop fuel h d f (buf_set buf 0 bytes) 0 h dest_offset got nbytes;
    match r with
    | None => Some (d, f, op_failure_status)
    | Some wpos => Some (if truncate then (segment_truncate d wpos).1 else d, f, op_success_status)
    end.
End put.

(** ** Lengths and buffers *)
Lemma next_len_pos n h : 0 < h → 0 ≤ n → 0 ≤ next_len n h ≤ n ∧ next_len n h ≤ h ∧ (0 < n → 0 < next_len n h).
Proof. intros Hh Hn. unfold next_len. rewrite decide_False by lia. case_decide; lia. Qed.

Lemma next_len_neg n h : n < 0 → next_len n h = h.
Proof. intros Hn. unfold next_len. by rewrite decide_True by lia. Qed.

Lemma buf_set_get buf pos l k :
  0 ≤ k < Z.of_nat (length l) → buf_set buf pos l (pos + k) = l !!! Z.to_nat k.
Proof. intros Hk. unfold buf_set. rewrite decide_True by lia. f_equal. lia. Qed.

Lemma buf_set_other buf pos l p :
  ¬ (pos ≤ p < pos + Z.of_nat (length l)) → buf_set buf pos l p = buf p.
Proof. intros Hp. unfold buf_set. by rewrite decide_False. Qed.

Lemma buf_get_length buf pos n : length (buf_get buf pos n) = Z.to_nat n.
Proof. unfold buf_get. by rewrite length_fmap, length_seqZ. Qed.

(** The two halves of the buffer. *)
Definition halves (h rb wb : Z) : Prop := rb = 0 ∧ wb = h ∨ rb = h ∧ wb = 0.
Lemma halves_swap h rb wb : halves h rb wb → halves h wb rb.
Proof. unfold halves. naive_solver. Qed.

(** ** Segment to segment: correctness *)
Section copy_spec.
Context {S D : Type} `{!Segment S, !SegBytes S, !SegmentOk S, !Segment D, !SegBytes D, !SegmentOk D}.
Context `{!SegmentReserveOk D, !Gop, !GopOk}.
Implicit Types (s : S) (d : D).

(** The two operations of a round do not disturb each other. *)
Lemma copy_round_ok wf s d buf h wpos wlen wb rpos rlen rb s' d' buf' sts :
  halves h rb wb → 0 ≤ wlen ≤ h → 0 ≤ rlen ≤ h →
  copy_round wf s d buf wpos wlen wb rpos rlen rb = (s', d', buf', sts) →
  (∀ i, seg_byte s' i = seg_byte s i) ∧ (∀ i, ¬ (wpos ≤ i < wpos + wlen) → seg_byte d' i = seg_byte d i) ∧
  (opque_waitall sts = OP_STATE_SUCCESS →
     (∀ k, 0 ≤ k < rlen → buf' (rb + k) = seg_byte s (rpos + k)) ∧
     (∀ k, 0 ≤ k < wlen → seg_byte d' (wpos + k) = buf (wb + k)) ∧
     (0 ≤ wpos → 0 < wlen → segment_size d' = Z.max (segment_size d) (wpos + wlen))).
Proof.
  intros Hh Hw Hr. unfold copy_round. destruct wf.
  - destruct (segment_write d [Ex_iovec wpos wlen] buf wb) as [d1 st1] eqn:Hwr.
    destruct (segment_read s [Ex_iovec rpos rlen] buf rb) as [[s1 buf1] st2] eqn:Hrd.
    intros [= <- <- <- <-]. rewrite waitall_pair.
    pose proof (read_bytes s [Ex_iovec rpos rlen] buf rb) as Hrb. pose proof (write_frame d wpos wlen buf wb) as Hwf.
    pose proof (write_bytes d wpos wlen buf wb) as Hwb. pose proof (write_size d wpos wlen buf wb) as Hws.
    pose proof (read_buffer s rpos rlen buf rb) as Hrbuf. rewrite Hwr in Hwf, Hwb, Hws. rewrite Hrd in Hrb, Hrbuf. simpl in *.
    split; [done|]. split; [done|]. intros [H1 H2]. split; [|split; [|auto]].
    + intros k Hk. rewrite Hrbuf by (lia || done). unfold buf_put. rewrite decide_True by lia. f_equal. lia.
    + intros k Hk. rewrite Hwb by (lia || done). f_equal. lia.
  - destruct (segment_read s [Ex_iovec rpos rlen] buf rb) as [[s1 buf1] st2] eqn:Hrd.
    destruct (segment_write d [Ex_iovec wpos wlen] buf1 wb) as [d1 st1] eqn:Hwr.
    intros [= <- <- <- <-]. rewrite waitall_pair.
    pose proof (read_bytes s [Ex_iovec rpos rlen] buf rb) as Hrb. pose proof (write_frame d wpos wlen buf1 wb) as Hwf.
    pose proof (write_bytes d wpos wlen buf1 wb) as Hwb. pose proof (write_size d wpos wlen buf1 wb) as Hws.
    pose proof (read_buffer s rpos rlen buf rb) as Hrbuf. rewrite Hwr in Hwf, Hwb, Hws. rewrite Hrd in Hrb, Hrbuf. simpl in *.
    split; [done|]. split; [done|]. intros [H1 H2]. split; [|split; [|auto]].
    + intros k Hk. rewrite Hrbuf by (lia || done). unfold buf_put. rewrite decide_True by lia. f_equal. lia.
    + intros k Hk. rewrite Hwb by (lia || done). replace (wb + (wpos + k - wpos)) with (wb + k) by lia.
      rewrite Hrbuf by (lia || done). unfold buf_put. rewrite decide_False; [done|]. unfold halves in Hh. lia.
Qed.

Lemma copy_loop_ok wf h : ∀ fuel s d buf rb wb rpos wpos rlen nbytes,
  0 < h → halves h rb wb → 0 ≤ rlen ≤ h → 0 ≤ nbytes → (Z.to_nat nbytes < fuel)%nat → 0 ≤ wpos →
  (∀ k, 0 ≤ k < rlen → buf (rb + k) = seg_byte s (rpos - rlen + k)) →
  ∃ s' d' r, copy_loop fuel wf h s d buf rb wb rpos wpos rlen nbytes = Some (s', d', r) ∧
    (∀ i, seg_byte s' i = seg_byte s i) ∧
    (∀ i, ¬ (wpos ≤ i < wpos + rlen + nbytes) → seg_byte d' i = seg_byte d i) ∧
    match r with
    | None => True
    | Some (rpos', wpos') => rpos' = rpos + nbytes ∧ wpos' = wpos + rlen + nbytes ∧
        (∀ k, 0 ≤ k < rlen + nbytes → seg_byte d' (wpos + k) = seg_byte s (rpos - rlen + k)) ∧
        (0 < rlen → segment_size d' = Z.max (segment_size d) (wpos + rlen + nbytes))
    end.
Proof.
  induction fuel as [|fuel IH]; intros s d buf rb wb rpos wpos rlen nbytes Hh Hhv Hr Hn Hf Hw Hbuf; [lia|].
  cbn [copy_loop]. pose proof (next_len_pos nbytes h Hh Hn) as (Hl1 & Hl2 & Hl3). set (rl := next_len nbytes h) in *.
  case_decide as Hrl.
  - destruct (copy_round (wf fuel) s d buf wpos rlen rb rpos rl wb) as [[[s1 d1] buf1] sts] eqn:Hround.
    apply (copy_round_ok _ _ _ _ h) in Hround as (Hs1 & Hd1 & Hok); [|by apply halves_swap|lia|lia].
    case_decide as Hst; [|do 3 eexists; split; [reflexivity|]; split; [done|]; split; [intros; apply Hd1; lia|done]].
    destruct (Hok Hst) as (Hb1 & Hw1 & Hsz1).
    destruct (IH s1 d1 buf1 wb rb (rpos + rl) (wpos + rlen) rl (nbytes - rl)) as (s' & d' & r & -> & Hs' & Hd' & Hres);
      [done|by apply halves_swap|lia|lia|lia|lia| |].
    { intros k Hk. rewrite Hb1 by lia. rewrite Hs1. f_equal. lia. }
    do 3 eexists. split; [reflexivity|]. split; [intros; by rewrite Hs'|].
    split; [intros i Hi; rewrite Hd' by lia; apply Hd1; lia|]. destruct r as [[rp wp]|]; [|done].
    destruct Hres as (-> & -> & Hby & Hsz). split; [lia|]. split; [lia|]. split.
    + intros k Hk. destruct (decide (k < rlen)) as [Hlt|Hge].
      * rewrite Hd' by lia. rewrite Hw1 by lia. rewrite Hbuf by lia. done.
      * replace (wpos + k) with (wpos + rlen + (k - rlen)) by lia. rewrite Hby by lia. rewrite Hs1. f_equal. lia.
    + intros Hpos. rewrite Hsz by lia. rewrite Hsz1 by lia. lia.
  - assert (nbytes = 0) as -> by lia.
    destruct (segment_write d [Ex_iovec wpos rlen] buf rb) as [d1 st1] eqn:Hwr.
    pose proof (write_frame d wpos rlen buf rb) as Hwf. pose proof (write_bytes d wpos rlen buf rb) as Hwb.
    pose proof (write_size d wpos rlen buf rb) as Hws. rewrite Hwr in Hwf, Hwb, Hws. simpl in *.
    do 3 eexists. split; [reflexivity|]. split; [done|]. split; [intros; apply Hwf; lia|].
    case_decide as Hst; [|done]. rewrite waitall_one in Hst. split; [lia|]. split; [lia|]. split.
    + intros k Hk. rewrite Hwb by (lia || done). rewrite <- Hbuf by lia. f_equal. lia.
    + intros Hpos. rewrite Hws by (lia || done). lia.
Qed.

(** A negative count never becomes positive again. *)
Lemma copy_loop_runaway wf h : ∀ fuel s d buf rb wb rpos wpos rlen nbytes s' d' r,
  0 < h → nbytes < 0 → copy_loop fuel wf h s d buf rb wb rpos wpos rlen nbytes = Some (s', d', r) → r = None.
Proof.
  induction fuel as [|fuel IH]; intros s d buf rb wb rpos wpos rlen nbytes s' d' r Hh Hn; [done|].
  cbn [copy_loop]. rewrite next_len_neg by done. rewrite decide_True by lia.
  destruct (copy_round _ _ _ _ _ _ _ _ _ _) as [[[s1 d1] buf1] sts]. case_decide; [|by intros [= _ _ <-]].
  intros Hl. by eapply IH in Hl; [|lia..].
Qed.

(** The bytes a copy is about. *)
Definition copy_count s (src_offset len : Z) : Z :=
  let avail := segment_size s - src_offset in if decide (len ≠ -1 ∧ len < avail) then len else avail.


(** A copy of fewer bytes than half the buffer holds, when the source has
    more, reads too much and never succeeds: the count of bytes left goes
    negative, which the loop takes for "no limit". *)
Theorem segment_copy_short_runs_away fuel wf s d buf src_offset dest_offset len bufsize trunc :
  let h := bufsize `quot` 2 in
  0 < h → 0 ≤ len → len < h → len < segment_size s - src_offset →
  match segment_copy_func fuel wf s d buf src_offset dest_offset len bufsize trunc with
  | Some (_, _, st) => op_st st = OP_STATE_FAILURE
  | None => True
  end.
Proof.
  intros h Hh Hl Hlh Hla. unfold segment_copy_func. fold h. rewrite (decide_True (P := len ≠ -1 ∧ _)) by lia.
  destruct (segment_truncate d _) as [d0 st0]. destruct (segment_read s _ buf 0) as [[s1 buf1] st1].
  case_decide; [by rewrite op_failure_state|].
  destruct (copy_loop _ _ _ _ _ _ _ _ _ _ _ _) as [[[s2 d2] r]|] eqn:Hc; [|done].
  apply copy_loop_runaway in Hc as ->; [cbn; by rewrite op_failure_state|done|].
  unfold next_len. repeat case_decide; lia.
Qed.
End copy_spec.

(** ** Segment to file: correctness *)
Section get_spec.
Context {S : Type} `{!Segment S, !SegBytes S, !SegmentOk S, !Gop, !GopOk}.
Implicit Types (s : S) (f : ofile).

(** The bytes of a segment from an offset on. *)
Definition seg_list s (off n : Z) : list Z := seg_byte s <$> seqZ off n.

Lemma seg_list_app s off n m : 0 ≤ n → 0 ≤ m → seg_list s off (n + m) = seg_list s off n ++ seg_list s (off + n) m.
Proof. intros Hn Hm. unfold seg_list. by rewrite seqZ_app, fmap_app by lia. Qed.
Lemma seg_list_ext s s' off n : (∀ i, seg_byte s' i = seg_byte s i) → seg_list s' off n = seg_list s off n.
Proof. intros He. unfold seg_list. apply list_fmap_ext. intros; apply He. Qed.

Lemma buf_get_read s buf buf' off len pos :
  0 ≤ len → (∀ p, buf' p = buf_put buf pos len (seg_byte s) off p) → buf_get buf' pos len = seg_list s off len.
Proof.
  intros Hl Hb. unfold buf_get, seg_list. apply list_eq. intros k. rewrite !list_lookup_fmap.
  destruct (decide (k < Z.to_nat len)%nat) as [Hk|Hk]; [|by rewrite !lookup_seqZ_ge by lia].
  rewrite !lookup_seqZ_lt by lia. simpl. f_equal. rewrite Hb. unfold buf_put. rewrite decide_True by lia. f_equal. lia.
Qed.

Lemma fwrite_spec f l :
  let '(f', got) := fwrite f l in
  of_bytes f' = of_bytes f ++ take (Z.to_nat got) l ∧ 0 ≤ got ≤ Z.of_nat (length l) ∧
  (got = Z.of_nat (length l) ↔ (length l ≤ of_room f)%nat) ∧ of_room f' = (of_room f - Z.to_nat got)%nat.
Proof. unfold fwrite. simpl. rewrite Nat2Z.id. repeat split; lia. Qed.

Lemma get_loop_ok h : ∀ fuel s f buf rb wb rpos rlen nbytes,
  0 < h → 0 ≤ rlen ≤ h → 0 ≤ nbytes → (Z.to_nat nbytes < fuel)%nat →
  buf_get buf rb rlen = seg_list s (rpos - rlen) rlen →
  ∃ s' f' e l, get_loop fuel h s f buf rb wb rpos rlen nbytes = Some (s', f', e) ∧
    (∀ i, seg_byte s' i = seg_byte s i) ∧
    of_bytes f' = of_bytes f ++ l ∧ l `prefix_of` seg_list s (rpos - rlen) (rlen + nbytes) ∧
    (∀ st, e = Xfer_status st → op_st st = OP_STATE_SUCCESS → l = seg_list s (rpos - rlen) (rlen + nbytes)) ∧
    (e = Xfer_crash → (of_room f < Z.to_nat (rlen + nbytes))%nat).
Proof.
  induction fuel as [|fuel IH]; intros s f buf rb wb rpos rlen nbytes Hh Hr Hn Hf Hbuf; [lia|].
  cbn [get_loop]. pose proof (next_len_pos nbytes h Hh Hn) as (Hl1 & Hl2 & Hl3). set (rl := next_len nbytes h) in *.
  rewrite Hbuf, seg_list_app by lia.
  assert (length (seg_list s (rpos - rlen) rlen) = Z.to_nat rlen) as Hlen by (unfold seg_list; by rewrite length_fmap, length_seqZ).
  pose proof (fwrite_spec f (seg_list s (rpos - rlen) rlen)) as Hfw.
  destruct (fwrite f (seg_list s (rpos - rlen) rlen)) as [f1 got]. destruct Hfw as (Hf1 & Hgot & Hroom & Hf1r).
  rewrite Hlen in Hgot, Hroom. rewrite Z2Nat.id in Hgot, Hroom by lia.
  case_decide as Hrl.
  - destruct (segment_read s [Ex_iovec rpos rl] buf wb) as [[s1 buf1] st1] eqn:Hrd.
    pose proof (read_bytes s [Ex_iovec rpos rl] buf wb) as Hs1.
    pose proof (read_buffer s rpos rl buf wb) as Hb1. rewrite Hrd in Hs1, Hb1. simpl in Hs1, Hb1.
    case_decide as Hgw.
    { do 4 eexists. split; [reflexivity|]. split; [done|]. split; [exact Hf1|]. split; [apply prefix_app_r, prefix_take|].
      split; [|done]. intros st [= <-]. by rewrite op_failure_state. }
    replace got with rlen in * by (destruct (decide (rlen = got)); [done|by destruct Hgw]).
    rewrite take_ge in Hf1 by lia.
    case_decide as Hst.
    { do 4 eexists. split; [reflexivity|]. split; [done|]. split; [exact Hf1|]. split; [by apply prefix_app_r|].
      split; [|done]. intros st [= <-]. by rewrite op_failure_state. }
    destruct (IH s1 f1 buf1 wb rb (rpos + rl) rl (nbytes - rl)) as (s' & f' & e & l & -> & Hs' & Hf' & Hpre & Hok & Hcr);
      [lia|lia|lia|lia| |].
    { replace (rpos + rl - rl) with rpos by lia. rewrite (seg_list_ext s s1) by done.
      apply (buf_get_read s buf); [lia|]. intros p. apply Hb1; [lia|done]. }
    replace (rpos + rl - rl) with rpos in Hpre, Hok by lia. replace (rl + (nbytes - rl)) with nbytes in Hpre, Hok, Hcr by lia.
    rewrite (seg_list_ext s s1) in Hpre, Hok by done. replace (rpos - rlen + rlen) with rpos by lia.
    exists s', f', e, (seg_list s (rpos - rlen) rlen ++ l). split; [done|]. split; [intros i; by rewrite Hs'|].
    split; [by rewrite Hf', Hf1, app_assoc|]. split; [by apply prefix_app|]. split.
    + intros st He Hst'. by rewrite (Hok st He Hst').
    + intros He. specialize (Hcr He). lia.
  - assert (nbytes = 0) as -> by lia. case_decide as Hgw.
    { do 4 eexists. split; [reflexivity|]. split; [done|]. split; [exact Hf1|]. split; [apply prefix_app_r, prefix_take|].
      split; [done|]. intros _. assert (¬ (Z.to_nat rlen ≤ of_room f)%nat) by (rewrite <- Hroom; lia). lia. }
    replace got with rlen in * by (destruct (decide (rlen = got)); [done|by destruct Hgw]).
    rewrite take_ge in Hf1 by lia. replace (seg_list s (rpos - rlen + rlen) 0) with (@nil Z) by done. rewrite app_nil_r.
    exists s, f1, (Xfer_status op_success_status), (seg_list s (rpos - rlen) rlen). by split_and!.
Qed.

(** A transfer of a segment to a file returns after as many rounds as there
    are bytes at most and writes a prefix of the bytes from the source offset
    on; when it reports success it wrote all of them, whatever length was asked
    for.  It only waits for an operation that was freed when the file has no
    room for the bytes. *)
Theorem segment_get_correct fuel s f buf src_offset len bufsize :
  let n := segment_size s - src_offset in
  0 < bufsize `quot` 2 → src_offset ≤ segment_size s → (Z.to_nat n < fuel)%nat →
  ∃ s' f' e l, segment_get_func fuel s f buf src_offset len bufsize = Some (s', f', e) ∧
    (∀ i, seg_byte s' i = seg_byte s i) ∧
    of_bytes f' = of_bytes f ++ l ∧ l `prefix_of` seg_list s src_offset n ∧
    (∀ st, e = Xfer_status st → op_st st = OP_STATE_SUCCESS → l = seg_list s src_offset n) ∧
    (e = Xfer_crash → (of_room f < Z.to_nat n)%nat).
Proof.
  intros n Hh Hso Hf. unfold segment_get_func. fold n. set (h := bufsize `quot` 2) in *.
  pose proof (next_len_pos n h Hh ltac:(lia)) as (Hl1 & Hl2 & Hl3). set (rl := next_len n h) in *.
  destruct (segment_read s [Ex_iovec src_offset rl] buf 0) as [[s1 buf1] st1] eqn:Hrd.
  pose proof (read_bytes s [Ex_iovec src_offset rl] buf 0) as Hs1.
  pose proof (read_buffer s src_offset rl buf 0) as Hb1. rewrite Hrd in Hs1, Hb1. simpl in Hs1, Hb1.
  case_decide as Hst.
  { exists s1, f, (Xfer_status op_failure_status), []. split; [done|]. split; [done|]. split; [by rewrite app_nil_r|].
    split; [apply prefix_nil|]. split; [|done]. intros st [= <-]. by rewrite op_failure_state. }
  destruct (get_loop_ok h fuel s1 f buf1 0 h (src_offset + rl) rl (n - rl)) as (s' & f' & e & l & -> & Hs' & Hf' & Hpre & Hok & Hcr);
    [done|lia|lia|lia| |].
  { replace (src_offset + rl - rl) with src_offset by lia. rewrite (seg_list_ext s s1) by done.
    apply (buf_get_read s buf); [lia|]. intros p. apply Hb1; [lia|done]. }
  replace (src_offset + rl - rl) with src_offset in Hpre, Hok by lia. replace (rl + (n - rl)) with n in Hpre, Hok, Hcr by lia.
  rewrite (seg_list_ext s s1) in Hpre, Hok by done.
  exists s', f', e, l. split; [done|]. split; [intros i; by rewrite Hs'|]. by split_and!.
Qed.
End get_spec.

(** ** File to segment: correctness *)
Section put_spec.
Context {D : Type} `{!Segment D, !SegBytes D, !SegmentOk D, !SegmentReserveOk D, !Gop, !GopOk}.
Implicit Types (d : D) (f : ifile).

(** How many bytes a file gives when [len] are asked for, all for a negative
    [len], and whether an error comes before. *)
Definition file_count f (len : Z) : Z :=
  let n := Z.of_nat (length (if_rest f)) in if decide (len < 0) then n else Z.min len n.
Definition file_fails f (len : Z) : Prop :=
  if_err f = true ∧ (len < 0 ∨ Z.of_nat (length (if_rest f)) < len).

Lemma put_loop_ok h : ∀ fuel d f buf rb wb wpos l nbytes,
  0 < h → halves h rb wb → 0 < Z.of_nat (length l) ≤ h → (length (if_rest f) < fuel)%nat → 0 ≤ wpos →
  (∀ k, 0 ≤ k < Z.of_nat (length l) → buf (rb + k) = l !!! Z.to_nat k) →
  let n := Z.of_nat (length l) + file_count f nbytes in
  ∃ d' f' r, put_loop fuel h d f buf rb wb wpos (Z.of_nat (length l)) nbytes = Some (d', f', r) ∧
    (∀ i, ¬ (wpos ≤ i < wpos + n) → seg_byte d' i = seg_byte d i) ∧
    match r with
    | None => True
    | Some wp => wp = wpos + n ∧ ¬ file_fails f nbytes ∧
        (∀ k, 0 ≤ k < n → seg_byte d' (wpos + k) = (l ++ if_rest f) !!! Z.to_nat k) ∧
        segment_size d' = Z.max (segment_size d) (wpos + n)
    end.
Proof.
  induction fuel as [|fuel IH]; intros d f buf rb wb wpos l nbytes Hh Hhv Hl Hf Hw Hbuf n; [lia|].
  cbn [put_loop]. set (wlen := Z.of_nat (length l)) in *.
  destruct (segment_write d [Ex_iovec wpos wlen] buf rb) as [d1 st1] eqn:Hwr.
  pose proof (write_frame d wpos wlen buf rb) as Hwf. pose proof (write_bytes d wpos wlen buf rb) as Hwb.
  pose proof (write_size d wpos wlen buf rb Hw ltac:(lia)) as Hws. rewrite Hwr in Hwf, Hwb, Hws. simpl in Hwf, Hwb, Hws.
  assert (0 ≤ file_count f nbytes) as Hc0 by (unfold file_count; case_decide; lia).
  assert (op_st st1 = OP_STATE_SUCCESS → ∀ k, 0 ≤ k < wlen → seg_byte d1 (wpos + k) = l !!! Z.to_nat k) as Hd1.
  { intros Hst k Hk. rewrite Hwb by (lia || done). rewrite <- Hbuf by done. f_equal. lia. }
  case_decide as Hrl.
  2: { assert (nbytes = 0) as -> by (unfold next_len in Hrl; repeat case_decide; lia).
       assert (n = wlen) as -> by (unfold n, file_count; case_decide; lia).
       case_decide as Hst; [do 3 eexists; split; [reflexivity|]; split; [intros; by apply Hwf|done]|].
       do 3 eexists. split; [reflexivity|]. split; [intros; by apply Hwf|]. split; [done|].
       split; [intros [_ [?|?]]; lia|]. split; [|by apply Hws].
       intros k Hk. rewrite lookup_total_app_l by lia. by apply Hd1. }
  destruct (fread f (next_len nbytes h)) as [[bytes f1] eof] eqn:Hrd. unfold fread in Hrd.
  set (rl := next_len nbytes h) in *. injection Hrd as <- <- Heof.
  assert (∀ i, ¬ (wpos ≤ i < wpos + n) → seg_byte d1 i = seg_byte d i) as Hfr by (intros; apply Hwf; lia).
  set (got := Z.of_nat (length (take (Z.to_nat rl) (if_rest f)))).
  destruct (decide (got = 0 ∧ eof = false)) as [Herr|Herr]; [do 3 eexists; split; [reflexivity|]; done|].
  destruct (decide (op_st st1 ≠ OP_STATE_SUCCESS)) as [Hst|Hst]; [do 3 eexists; split; [reflexivity|]; done|].
  set (rest := if_rest f) in *. assert (0 ≤ rl ≤ h ∧ (nbytes < 0 ∨ rl ≤ nbytes)) as [Hrlh Hrln].
  { unfold rl, next_len. repeat case_decide; lia. }
  destruct (decide (got > 0)) as [Hgot|Hgot]; unfold got in *; clear got.
  - apply dec_stable in Hst. rewrite length_take in Hgot.
    assert (file_count f nbytes = Z.of_nat (length (take (Z.to_nat rl) rest)) +
      file_count (Ifile (drop (Z.to_nat rl) rest) (if_err f)) (nbytes - Z.of_nat (length (take (Z.to_nat rl) rest)))) as Hcnt.
    { unfold file_count. cbn [if_rest]. fold rest. rewrite length_take, length_drop. repeat case_decide; lia. }
    destruct (IH d1 (Ifile (drop (Z.to_nat rl) rest) (if_err f)) (buf_set buf wb (take (Z.to_nat rl) rest)) wb rb
      (wpos + wlen) (take (Z.to_nat rl) rest) (nbytes - Z.of_nat (length (take (Z.to_nat rl) rest))))
      as (d' & f' & r & -> & Hd' & Hr);
      [done|by apply halves_swap|rewrite length_take; lia|cbn [if_rest]; rewrite length_drop; lia|lia| |].
    { intros k Hk. by apply buf_set_get. }
    rewrite <- Hcnt in Hd', Hr. cbn [if_rest] in Hr. rewrite take_drop in Hr.
    do 3 eexists. split; [reflexivity|]. split; [intros i Hi; rewrite Hd' by lia; apply Hfr; lia|].
    destruct r as [wp|]; [|done]. destruct Hr as (-> & Hnf & Hby & Hsz). split; [lia|]. split.
    { intros [He Hlen]. apply Hnf. split; [done|]. cbn [if_rest]. rewrite length_take, length_drop. fold rest in Hlen. lia. }
    split; [|rewrite Hsz, Hws by done; lia].
    intros k Hk. destruct (decide (k < wlen)) as [Hlt|Hge].
    + rewrite Hd' by lia. rewrite lookup_total_app_l by lia. by apply Hd1; [|lia].
    + replace (wpos + k) with (wpos + wlen + (k - wlen)) by lia. rewrite Hby by lia.
      rewrite lookup_total_app_r by lia. f_equal. lia.
  - apply dec_stable in Hst. assert (length rest = 0%nat) as Hr0 by (rewrite length_take in Hgot; lia).
    assert (n = wlen) as -> by (unfold n, file_count; change (if_rest f) with rest; rewrite Hr0; clear -Hrln Hrl; cbv zeta; destruct (decide (nbytes < 0)); lia).
    do 3 eexists. split; [reflexivity|]. split; [done|]. split; [done|]. split.
    { intros [He _]. apply Herr. split; [rewrite length_take; lia|]. by rewrite <- Heof, He. }
    split; [|by apply Hws]. intros k Hk. rewrite lookup_total_app_l by lia. by apply Hd1.
Qed.

(** A transfer of a file to a segment returns after as many rounds as the
    file has bytes at most.  The destination is not changed outside the range.
    When bytes were read and success is reported, the range holds the bytes of
    the file up to the length asked for and the size covers the range; no error
    of the file came before, unless the length asked for fits in half a buffer:
    a short first read counts as a full one. *)
Theorem segment_put_correct fuel d f buf dest_offset len bufsize trunc :
  let h := bufsize `quot` 2 in let n := file_count f len in
  0 < h → 0 ≤ dest_offset → 0 < dest_offset + len → (length (if_rest f) < fuel)%nat →
  ∃ d1 f' st, segment_put_func fuel d f buf dest_offset len bufsize trunc =
      Some (if trunc && bool_decide (op_st st = OP_STATE_SUCCESS ∧ 0 < n)
            then (segment_truncate d1 (dest_offset + n)).1 else d1, f', st) ∧
    (∀ i, 0 ≤ i < segment_size d → ¬ (dest_offset ≤ i < dest_offset + n) → seg_byte d1 i = seg_byte d i) ∧
    (op_st st = OP_STATE_SUCCESS → 0 < n →
       (¬ file_fails f len ∨ 0 ≤ len ≤ h) ∧
       (∀ k, 0 ≤ k < n → seg_byte d1 (dest_offset + k) = if_rest f !!! Z.to_nat k) ∧
       segment_size d1 = Z.max (segment_size d) (dest_offset + n)).
Proof.
  intros h n Hh Hdo Hpos Hf. unfold segment_put_func. fold h.
  destruct (segment_truncate d (- (dest_offset + len))) as [d0 st0] eqn:Hres.
  pose proof (reserve_size d (- (dest_offset + len)) ltac:(lia)) as Hrs.
  pose proof (reserve_bytes d (- (dest_offset + len)) ltac:(lia)) as Hrb. rewrite Hres in Hrs, Hrb. simpl in Hrs, Hrb.
  set (rl := next_len len h) in *. unfold fread. set (rest := if_rest f) in *.
  assert (0 ≤ rl ≤ h ∧ (len < 0 ∨ rl ≤ len) ∧ (len ≠ 0 → 0 < rl)) as (Hrlh & Hrll & Hrl0).
  { unfold rl, next_len. repeat case_decide; lia. }
  destruct (decide (Z.of_nat (length (take (Z.to_nat rl) rest)) = 0)) as [Hgot|Hgot].
  { assert (n = 0) as Hn0.
    { rewrite length_take in Hgot. unfold n, file_count. fold rest. cbv zeta. destruct (decide (len < 0)); lia. }
    exists d0. do 2 eexists. rewrite (bool_decide_false (_ ∧ 0 < n)), andb_false_r by lia. split; [reflexivity|].
    split; [intros; by apply Hrb|lia]. }
  assert (n = Z.of_nat (length (take (Z.to_nat rl) rest)) +
    file_count (Ifile (drop (Z.to_nat rl) rest) (if_err f)) (len - rl)) as Hcnt.
  { unfold n, file_count. cbn [if_rest]. fold rest. rewrite length_take, length_drop. repeat case_decide; lia. }
  destruct (put_loop_ok h fuel d0 (Ifile (drop (Z.to_nat rl) rest) (if_err f)) (buf_set buf 0 (take (Z.to_nat rl) rest)) 0 h
    dest_offset (take (Z.to_nat rl) rest) (len - rl)) as (d' & f' & r & -> & Hd' & Hr);
    [done|by left|rewrite length_take in *; lia|cbn [if_rest]; rewrite length_drop; lia|lia| |].
  { intros k Hk. by apply buf_set_get. }
  rewrite <- Hcnt in Hd', Hr. cbn [if_rest] in Hr. rewrite take_drop in Hr. cbn [mbind option_bind].
  assert (0 < n) as Hn0.
  { assert (0 ≤ file_count (Ifile (drop (Z.to_nat rl) rest) (if_err f)) (len - rl)) by (unfold file_count; case_decide; lia). lia. }
  destruct r as [wp|].
  - destruct Hr as (-> & Hnf & Hby & Hsz). exists d', f', op_success_status.
    rewrite bool_decide_true, andb_true_r by (split; [apply op_success_state|done]). split; [done|].
    split; [intros i Hi Hout; rewrite Hd' by lia; by apply Hrb|]. intros _ _. split; [|by rewrite Hsz, Hrs].
    destruct (decide (0 ≤ len ≤ h)) as [?|Hlh]; [by right|]. left.
    intros [He Hlen]. apply Hnf. split; [done|]. cbn [if_rest]. rewrite length_drop. fold rest in Hlen.
    unfold rl, next_len in *. repeat case_decide; lia.
  - exists d', f', op_failure_status. rewrite op_failure_state, bool_decide_false, andb_false_r by naive_solver.
    split; [done|]. split; [intros i Hi Hout; rewrite Hd' by lia; by apply Hrb|done].
Qed.

(** Storing a whole file ([len] = -1) at the start of a segment begins with a
    request for the size 1, not with a reservation: the old contents go, even
    for an empty file and without truncation. *)
Lemma segment_put_whole_truncates fuel d buf bufsize :
  0 < bufsize `quot` 2 →
  segment_put_func fuel d (Ifile [] false) buf 0 (-1) bufsize false =
    Some ((segment_truncate d 1).1, Ifile [] false, op_success_status).
Proof.
  intros Hh. unfold segment_put_func, fread. cbn [if_rest if_err]. rewrite next_len_neg by lia.
  change (- (0 + -1)) with 1. destruct (segment_truncate d 1) as [d0 st0]. rewrite take_nil, drop_nil.
  cbn [length negb andb]. rewrite decide_True, bool_decide_true by (lia || done). done.
Qed.

(** Storing nothing ([len] = 0) reports a failure. *)
Lemma segment_put_nothing_fails fuel d f buf dest_offset bufsize :
  0 < bufsize `quot` 2 →
  (λ '(_, _, st), st) <$> segment_put_func fuel d f buf dest_offset 0 bufsize false = Some op_failure_status.
Proof.
  intros Hh. unfold segment_put_func, fread, next_len. rewrite decide_False, decide_False by lia.
  destruct (segment_truncate _ _) as [d0 st0]. rewrite bool_decide_false, andb_false_r by lia. done.
Qed.
End put_spec.

(** ** Concrete runs *)

#[local] Existing Instance gop_std.
#[local] Existing Instance gop_std_ok.

Definition cp_src : mem_seg := Mem_seg 7 (λ i, 10 + i) true.
Definition cp_dst : mem_seg := Mem_seg 3 (λ _, 1) true.
Definition cp_buf : tbuffer := λ _, 0.

Example segment_copy_run wf :
  (λ '(_, d, st), (seg_byte d <$> seqZ 0 8, segment_size d, st)) <$>
    segment_copy_func 10 (λ _, wf) cp_src cp_dst cp_buf 1 2 (-1) 4 true =
  Some ([1; 1; 11; 12; 13; 14; 15; 16], 8, Op_status OP_STATE_SUCCESS 7).
Proof. destruct wf; vm_compute; reflexivity. Qed.


Lemma segment_copy_short_runs_away_witness :
  match segment_copy_func 10 (λ _, true) cp_src cp_dst cp_buf 1 2 1 4 true with
  | Some (_, _, st) => op_st st = OP_STATE_FAILURE
  | None => True
  end.
Proof.
  apply (segment_copy_short_runs_away 10 (λ _, true) cp_src cp_dst cp_buf 1 2 1 4 true);
    [done|lia|done|done].
Defined.

Example segment_get_run room :
  (λ '(_, f, e), (of_bytes f, e)) <$> segment_get_func 10 cp_src (Ofile [5] room) cp_buf 4 1 4 =
  match room with
  | 0%nat => Some ([5], Xfer_status op_failure_status)
  | 1%nat => Some ([5; 14], Xfer_status op_failure_status)
  | 2%nat => Some ([5; 14; 15], Xfer_crash)
  | _ => Some ([5; 14; 15; 16], Xfer_status op_success_status)
  end.
Proof. destruct room as [|[|[|n]]]; vm_compute; reflexivity. Qed.

Lemma segment_get_correct_witness :
  ∃ s' f' e l, segment_get_func 10 cp_src (Ofile [5] 9) cp_buf 4 1 4 = Some (s', f', e) ∧
    (∀ i, seg_byte s' i = seg_byte cp_src i) ∧
    of_bytes f' = [5] ++ l ∧ l `prefix_of` seg_list cp_src 4 (segment_size cp_src - 4) ∧
    (∀ st, e = Xfer_status st → op_st st = OP_STATE_SUCCESS → l = seg_list cp_src 4 (segment_size cp_src - 4)) ∧
    (e = Xfer_crash → (9 < Z.to_nat (segment_size cp_src - 4))%nat).
Proof. apply (segment_get_correct 10 cp_src (Ofile [5] 9) cp_buf 4 1 4); [done|simpl; lia|vm_compute; lia]. Defined.

Definition cp_file : ifile := Ifile [21; 22; 23; 24; 25] false.
Example segment_put_run :
  (λ '(d, f, st), (seg_byte d <$> seqZ 0 6, segment_size d, if_rest f, st)) <$>
    segment_put_func 10 cp_dst cp_file cp_buf 1 4 4 false =
  Some ([1; 21; 22; 23; 24; 1], 5, [25], op_success_status).
Proof. vm_compute. reflexivity. Qed.

Lemma segment_put_correct_witness :
  ∃ d1 f' st, segment_put_func 10 cp_dst cp_file cp_buf 1 4 4 false =
      Some (if false && bool_decide (op_st st = OP_STATE_SUCCESS ∧ 0 < file_count cp_file 4) then (segment_truncate d1 (1 + file_count cp_file 4)).1 else d1, f', st) ∧
    (∀ i, 0 ≤ i < segment_size cp_dst → ¬ (1 ≤ i < 1 + file_count cp_file 4) → seg_byte d1 i = seg_byte cp_dst i) ∧
    (op_st st = OP_STATE_SUCCESS → 0 < file_count cp_file 4 →
       (¬ file_fails cp_file 4 ∨ 0 ≤ 4 ≤ 4 `quot` 2) ∧
       (∀ k, 0 ≤ k < file_count cp_file 4 → seg_byte d1 (1 + k) = if_rest cp_file !!! Z.to_nat k) ∧
       segment_size d1 = Z.max (segment_size cp_dst) (1 + file_count cp_file 4)).
Proof.
  apply (segment_put_correct 10 cp_dst cp_file cp_buf 1 4 4 false);
    [done|lia|lia|simpl; lia].
Defined.
