(* ===== verification/OsGlob.v ===== *)
(** * Globs and path tables of the object services (os_base.c)

    A shell glob is turned into a regular expression, and a path into a table of
    fixed parts and regular expressions, which the object services walk level by
    level.  The C library's regular expressions are modelled for the fragment
    the translation uses. *)
From Stdlib Require Import Ascii.
From stdpp Require Import strings.
From S2P Require Import Prelude Inip.
#[local] Open Scope Z_scope.

(** ** Globs *)

Definition is_glob (c : ascii) : bool := bool_decide (c = "*" ∨ c = "?" ∨ c = "[")%char.

(** What the loop of [os_glob2regex] adds for a character after [prev], and what
    is added for the first one. *)
Definition glob_char (prev c : ascii) : string :=
  if decide (c = "."%char) then "\."
  else if decide (c = "*"%char) then if decide (prev = "\"%char) then "*" else ".*"
  else if decide (c = "?"%char) then if decide (prev = "\"%char) then "?" else "."
  else String c "".
Definition glob_first (c : ascii) : string :=
  if decide (c = "."%char) then "\."
  else if decide (c = "*"%char) then ".*"
  else if decide (c = "?"%char) then "."
  else String c "".
Fixpoint glob_tail (prev : ascii) (g : string) : string :=
  match g with
  | "" => ""
  | String c g => glob_char prev c +:+ glob_tail c g
  end.

(** [os_glob2regex]; the terminator of an empty glob ends the result early. *)
Definition os_glob2regex (glob : string) : string :=
  match glob with
  | "" => "^"
  | String c g => "^" +:+ (glob_first c +:+ glob_tail c g) +:+ "$"
  end.

(** The space allocated for a glob of [n] characters. *)
Definition glob_space (n : nat) : nat := 2 * n + 10.

(** [check_for_glob]; [None] is a read past the terminator. *)
Fixpoint check_tail (prev : ascii) (s : string) : bool :=
  match s with
  | "" => false
  | String c s => if is_glob c && bool_decide (prev ≠ "\"%char) then true else check_tail c s
  end.
Definition check_for_glob (glob : string) : option bool :=
  match glob with
  | "" => None
  | String c s => Some (is_glob c || check_tail c s)
  end.

(** ** Path tables *)

(** [os_regex_entry_t] less the compiled expression. *)
Record os_regex_entry := Os_regex_entry { re_expression : option string; re_fixed : bool; re_fixed_prefix : Z }.
Definition re_clear : os_regex_entry := Os_regex_entry None false 0.

(** A table is the list of its entries. *)
Definition os_regex_table : Type := list os_regex_entry.
Definition os_regex_is_fixed (t : os_regex_table) : bool :=
  match t with [] => true | [e] => re_fixed e | _ => false end.

Section path.
(** What [regcomp] accepts. *)
Context (regcomp : string → bool).

(** The loop over the fragments of [os_path_glob2regex]: [done] are the entries
    before index [i], [cur] is the entry at it, and [size] how many there are.
    The outer [None] is an index past the table, the inner one a fragment that
    does not compile. *)
Fixpoint path_loop (size : nat) (done : list os_regex_entry) (cur : os_regex_entry) (frags : list string)
    : option (option os_regex_table) :=
  if decide (size ≤ length done)%nat then None
  else
    match frags with
    | [] => Some (Some (if re_fixed cur then done ++ [cur] else done))
    | frag :: frags =>
        glob ← check_for_glob frag;
        if glob : bool then
          let '(done, cur) := if re_fixed cur then (done ++ [cur], re_clear) else (done, cur) in
          if decide (size ≤ length done)%nat then None
          else
            let e := os_glob2regex frag in
            if regcomp e
            then path_loop size (done ++ [Os_regex_entry (Some e) (re_fixed cur) (re_fixed_prefix cur)]) re_clear frags
            else Some None
        else
          let cur :=
            match re_expression cur with
            | Some e => Os_regex_entry (Some (e +:+ "/" +:+ frag)) true (Z.of_nat (String.length e))
            | None => Os_regex_entry (Some frag) true 0
            end in
          path_loop size done cur frags
    end.

(** [os_path_glob2regex]; [frags] are the tokens of [path] between slashes. *)
Definition os_path_glob2regex (path : string) (frags : list string) : option (option os_regex_table) :=
  path_loop (String.length path) [] re_clear frags.

(** [os_regex2table] *)
Definition os_regex2table (regex : string) : option os_regex_table :=
  if regcomp regex then Some [Os_regex_entry (Some regex) false 0] else None.
End path.

(** ** File types *)

(** What [lstat] and [stat] tell of a file. *)
Inductive st_mode := S_REG | S_DIR | S_LNK | S_OTHER.
#[export] Instance st_mode_eq_dec : EqDecision st_mode.
Proof. solve_decision. Defined.
Record stat_buf := Stat_buf { st_kind : st_mode; st_nlink : Z }.

Definition OS_OBJECT_FILE : Z := 1.
Definition OS_OBJECT_DIR : Z := 2.
Definition OS_OBJECT_SYMLINK : Z := 4.
Definition OS_OBJECT_HARDLINK : Z := 8.
Definition OS_OBJECT_BROKEN_LINK : Z := 16.

Definition os_local_filetype (lstat stat : option stat_buf) : Z :=
  match lstat with
  | None => 0
  | Some s =>
      let '(s, ftype) := if decide (st_kind s = S_LNK) then (stat, OS_OBJECT_SYMLINK) else (Some s, 0) in
      match s with
      | Some s =>
          match st_kind s with
          | S_REG =>
              let ftype := Z.lor ftype OS_OBJECT_FILE in
              if decide (st_nlink s > 1) then Z.lor ftype OS_OBJECT_HARDLINK else ftype
          | S_DIR => Z.lor ftype OS_OBJECT_DIR
          | _ => ftype
          end
      | None => Z.lor ftype (Z.lor OS_OBJECT_FILE OS_OBJECT_BROKEN_LINK)
      end
  end.

(** ** Regular expressions

    The part of the extended regular expressions of POSIX the translation
    produces: a character for itself, a quoted one, any character and any
    string. *)
Inductive ere_atom := ELit (c : ascii) | EAny | EStar.

Definition ere_special (c : ascii) : bool :=
  bool_decide (c ∈ ["^"; "."; "["; "$"; "("; ")"; "|"; "*"; "+"; "?"; "{"; "\"])%char.

Fixpoint ere_parse (s : string) : option (list ere_atom) :=
  match s with
  | "" => Some []
  | String c s' =>
      if decide (c = "\"%char) then
        match s' with
        | String c' s'' => if ere_special c' then cons (ELit c') <$> ere_parse s'' else None
        | "" => None
        end
      else if decide (c = "."%char) then
        match s' with
        | String c' s'' => if decide (c' = "*"%char) then cons EStar <$> ere_parse s'' else cons EAny <$> ere_parse s'
        | "" => Some [EAny]
        end
      else if ere_special c then None
      else cons (ELit c) <$> ere_parse s'
  end.

(** Some end of the string satisfies [f]. *)
Fixpoint any_suffix (f : string → bool) (s : string) : bool :=
  f s || match s with "" => false | String _ s => any_suffix f s end.
Definition head_is (p : ascii → bool) (f : string → bool) (s : string) : bool :=
  match s with "" => false | String c s => p c && f s end.

(** The whole string matches. *)
Fixpoint ere_match (l : list ere_atom) : string → bool :=
  match l with
  | [] => λ s, bool_decide (s = "")
  | ELit c :: l => head_is (λ x, bool_decide (x = c)) (ere_match l)
  | EAny :: l => head_is (λ _, true) (ere_match l)
  | EStar :: l => any_suffix (ere_match l)
  end.

(** What a glob means to a shell. *)
Fixpoint glob_match (g : string) : string → bool :=
  match g with
  | "" => λ s, bool_decide (s = "")
  | String c g' =>
      if decide (c = "*"%char) then any_suffix (glob_match g')
      else if decide (c = "?"%char) then head_is (λ _, true) (glob_match g')
      else if decide (c = "\"%char) then
        match g' with
        | String c' g'' => head_is (λ x, bool_decide (x = c')) (glob_match g'')
        | "" => λ _, false
        end
      else head_is (λ x, bool_decide (x = c)) (glob_match g')
  end.

(** Globs with no character special to regular expressions but the dot, the star
    and the question mark, and nothing quoted but the last two. *)
Fixpoint glob_plain (g : string) : bool :=
  match g with
  | "" => true
  | String c g' =>
      if decide (c = "\"%char) then
        match g' with
        | String c' g'' => bool_decide (c' = "*" ∨ c' = "?")%char && glob_plain g''
        | "" => false
        end
      else (bool_decide (c = "." ∨ c = "*" ∨ c = "?")%char || negb (ere_special c)) && glob_plain g'
  end.

(** ** Correctness of the translation *)

Lemma glob_first_char c prev : prev ≠ "\"%char → glob_first c = glob_char prev c.
Proof. intros Hp. unfold glob_first, glob_char. by rewrite !(decide_False (P := prev = _)). Qed.

(** Nothing produced after an unquoted character starts with a star. *)
Lemma glob_tail_no_star prev g s : prev ≠ "\"%char → glob_tail prev g ≠ String "*" s.
Proof.
  intros Hp. destruct g as [|c g]; [done|]. cbn [glob_tail]. unfold glob_char.
  repeat case_decide; try done; subst; try (intros [= Hc _]; done).
Qed.

Lemma ere_parse_any t : (∀ s, t ≠ String "*" s) → ere_parse (String "." t) = cons EAny <$> ere_parse t.
Proof.
  intros Ht. cbn [ere_parse]. rewrite decide_False, decide_True by done. destruct t as [|c t]; [done|].
  rewrite decide_False; [done|]. intros ->. by eapply Ht.
Qed.

Lemma ere_parse_quoted c t : ere_special c = true → ere_parse (String "\" (String c t)) = cons (ELit c) <$> ere_parse t.
Proof. intros Hc. cbn [ere_parse]. by rewrite decide_True, Hc. Qed.

Lemma ere_parse_lit c t : ere_special c = false → ere_parse (String c t) = cons (ELit c) <$> ere_parse t.
Proof.
  intros Hc. cbn [ere_parse]. rewrite !decide_False, Hc; [done|intros ->; vm_compute in Hc; done..].
Qed.

Lemma any_suffix_ext f g s : (∀ x, f x = g x) → any_suffix f s = any_suffix g s.
Proof. intros He. induction s as [|c s IH]; cbn; by rewrite He, ?IH. Qed.
Lemma head_is_ext p f g s : (∀ x, f x = g x) → head_is p f s = head_is p g s.
Proof. intros He. destruct s as [|c s]; [done|]. cbn. by rewrite He. Qed.

Lemma glob_tail_correct g : ∀ prev, prev ≠ "\"%char → glob_plain g = true →
  ∃ l, ere_parse (glob_tail prev g) = Some l ∧ ∀ s, ere_match l s = glob_match g s.
Proof.
  (* one character that stands for itself, the dot, the star or the question mark *)
  assert (∀ c g prev, prev ≠ "\"%char → c ≠ "\"%char →
    (bool_decide (c = "." ∨ c = "*" ∨ c = "?")%char || negb (ere_special c)) = true →
    (∃ l, ere_parse (glob_tail c g) = Some l ∧ ∀ s, ere_match l s = glob_match g s) →
    ∃ l, ere_parse (glob_char prev c +:+ glob_tail c g) = Some l ∧ ∀ s, ere_match l s = glob_match (String c g) s) as Hone.
  { intros c g0 prev Hp Hc Hok (l & Hl & Hm). unfold glob_char. cbn [glob_match].
    rewrite (decide_False (P := c = "\"%char)) by done.
    destruct (decide (c = "."%char)) as [->|Hdot].
    { exists (ELit "."%char :: l). change ("\." +:+ ?t) with (String "\" (String "." t)).
      rewrite ere_parse_quoted by done. rewrite Hl. split; [done|]. intros s. by apply head_is_ext. }
    destruct (decide (c = "*"%char)) as [->|Hstar].
    { rewrite decide_False by done. exists (EStar :: l). split; [|intros s; by apply any_suffix_ext].
      change (".*" +:+ ?t) with (String "." (String "*" t)). cbn [ere_parse]. by rewrite decide_False, !decide_True, Hl. }
    destruct (decide (c = "?"%char)) as [->|Hq].
    { rewrite decide_False by done. exists (EAny :: l). split; [|intros s; by apply head_is_ext].
      change ("." +:+ ?t) with (String "." t). rewrite ere_parse_any; [by rewrite Hl|]. intros s. by apply glob_tail_no_star. }
    assert (ere_special c = false) as Hs.
    { rewrite bool_decide_false in Hok by tauto. by destruct (ere_special c). }
    exists (ELit c :: l). change (String c "" +:+ ?t) with (String c t). rewrite ere_parse_lit by done. rewrite Hl.
    split; [done|]. intros s. by apply head_is_ext. }
  induction g as [|c|c c' g IH1 IH2] using string_ind2; intros prev Hp Hg.
  - by exists [].
  - cbn [glob_plain] in Hg. case_decide as Hc; [done|]. rewrite andb_true_r in Hg. apply Hone; [done..|]. by exists [].
  - cbn [glob_plain] in Hg. case_decide as Hc.
    + subst c. apply andb_true_iff in Hg as [Hc'%bool_decide_eq_true Hg].
      assert (c' ≠ "\"%char) as Hb by (by destruct Hc' as [-> | ->]).
      destruct (IH1 c' Hb Hg) as (l & Hl & Hm). exists (ELit c' :: l).
      assert (glob_tail prev (String "\" (String c' g)) = String "\" (String c' (glob_tail c' g))) as ->.
      { destruct Hc' as [-> | ->]; done. }
      rewrite ere_parse_quoted by (by destruct Hc' as [-> | ->]). rewrite Hl. split; [done|].
      intros s. cbn [glob_match]. by apply head_is_ext.
    + apply andb_true_iff in Hg as [Hok Hg]. apply (Hone c (String c' g) prev Hp Hc Hok). by apply IH2.
Qed.

(** C35: a glob that has no character special to regular expressions but the dot,
    and quotes nothing but the star and the question mark, becomes an anchored
    regular expression that matches exactly the strings the glob matches. *)
Theorem os_glob2regex_correct g :
  g ≠ "" → glob_plain g = true →
  ∃ r l, os_glob2regex g = "^" +:+ r +:+ "$" ∧ ere_parse r = Some l ∧ ∀ s, ere_match l s = glob_match g s.
Proof.
  intros Hne Hg. destruct g as [|c g]; [done|].
  destruct (glob_tail_correct (String c g) "a"%char ltac:(done) Hg) as (l & Hl & Hm).
  exists (glob_first c +:+ glob_tail c g), l. split; [done|]. split; [|done].
  by rewrite (glob_first_char c "a"%char).
Qed.

(** The regular expression of a glob, its terminator included, fits in the
    space allocated for it, so that the buffer never has to grow. *)
Theorem os_glob2regex_fits g : (String.length (os_glob2regex g) + 1 ≤ glob_space (String.length g) - 2)%nat.
Proof.
  assert (∀ p c, (String.length (glob_char p c) ≤ 2)%nat) as Hc.
  { intros p c. unfold glob_char. repeat case_decide; simpl; lia. }
  assert (∀ g p, (String.length (glob_tail p g) ≤ 2 * String.length g)%nat) as Ht.
  { intros g'. induction g' as [|c g' IH]; intros p; cbn [glob_tail]; [done|]. rewrite length_append.
    specialize (IH c). specialize (Hc p c). simpl. lia. }
  unfold glob_space. destruct g as [|c g]; [simpl; lia|]. cbn [os_glob2regex]. rewrite !length_append.
  rewrite (glob_first_char c "a"%char) by done. specialize (Hc "a"%char c). specialize (Ht g c). simpl in *. lia.
Qed.

(** A quoted dot is not treated like the other quoted characters: its backslash
    quotes the backslash that is put in for the dot. *)
Example os_glob2regex_quoted_dot : os_glob2regex "\.x" = "^\\.x$".
Proof. reflexivity. Qed.

(** ** Correctness of the path tables *)

(** The fragments of a path in groups: a run of plain ones, or a glob. *)
Definition frag_globs (f : string) : bool := default false (check_for_glob f).
Definition path_groups (frags : list string) : list (list string + string) :=
  foldr (λ f gs, if frag_globs f then inr f :: gs
                 else match gs with inl l :: gs => inl (f :: l) :: gs | _ => inl [f] :: gs end) [] frags.

(** A run as one entry, the text before its last fragment being the prefix, and
    a glob as another. *)
Definition join (l : list string) : string :=
  match l with [] => "" | x :: l => foldl (λ e f, e +:+ "/" +:+ f) x l end.
Definition run_entry (l : list string) : os_regex_entry :=
  Os_regex_entry (Some (join l)) true (Z.of_nat (String.length (join (take (length l - 1) l)))).
Definition group_entry (g : list string + string) : os_regex_entry :=
  match g with inl l => run_entry l | inr f => Os_regex_entry (Some (os_glob2regex f)) false 0 end.

Lemma join_snoc x l f : join ((x :: l) ++ [f]) = join (x :: l) +:+ "/" +:+ f.
Proof. cbn. by rewrite foldl_app. Qed.

Lemma run_entry_snoc x l f :
  run_entry ((x :: l) ++ [f]) =
    Os_regex_entry (Some (join (x :: l) +:+ "/" +:+ f)) true (Z.of_nat (String.length (join (x :: l)))).
Proof.
  unfold run_entry. rewrite join_snoc. do 3 f_equal. rewrite length_app. simpl length.
  replace (S (length l) + 1 - 1)%nat with (length (x :: l)) by (simpl; lia). by rewrite take_app_length.
Qed.

(** What is pending in front of the rest of the groups. *)
Definition pend (l : list string) (gs : list (list string + string)) : list (list string + string) :=
  match l, gs with
  | [], _ => gs
  | _, inl l' :: gs => inl (l ++ l') :: gs
  | _, _ => inl l :: gs
  end.
Definition pend_entry (l : list string) : os_regex_entry := match l with [] => re_clear | _ => run_entry l end.

Lemma path_loop_groups (rc : string → bool) size frags : ∀ done l,
  (∀ f, f ∈ frags → f ≠ "" ∧ rc (os_glob2regex f) = true) →
  (length done + length frags + (if decide (l = []) then 0 else 1) < size)%nat →
  path_loop rc size done (pend_entry l) frags = Some (Some (done ++ (group_entry <$> pend l (path_groups frags)))).
Proof.
  induction frags as [|f frags IH]; intros done l Hf Hs; cbn [path_loop]; rewrite decide_False by (case_decide; lia).
  { destruct l as [|x l]; cbn; [by rewrite app_nil_r|done]. }
  destruct (Hf f ltac:(by left)) as [Hne Hrc].
  assert (check_for_glob f = Some (frag_globs f)) as Hg by (unfold frag_globs; by destruct f). rewrite Hg. cbn [mbind option_bind].
  assert (∀ f, f ∈ frags → f ≠ "" ∧ rc (os_glob2regex f) = true) as Hf' by (intros; apply Hf; by right).
  cbn [path_groups foldr]. fold (path_groups frags). simpl length in Hs. destruct (frag_globs f).
  - assert (∀ done', (length done' + length frags + 1 < size)%nat →
      path_loop rc size (done' ++ [group_entry (inr f)]) re_clear frags =
        Some (Some ((done' ++ [group_entry (inr f)]) ++ (group_entry <$> path_groups frags)))) as Hrest.
    { intros done' Hs'. apply (IH _ []); [done|]. rewrite length_app, decide_True by done. simpl. lia. }
    destruct l as [|x l]; cbn [pend_entry].
    + change (re_fixed re_clear) with false. cbn iota. rewrite decide_False by (case_decide; lia). rewrite Hrc.
      change (Os_regex_entry (Some (os_glob2regex f)) false (re_fixed_prefix re_clear)) with (group_entry (inr f)).
      rewrite Hrest by (rewrite decide_True in Hs by done; lia). by rewrite <- app_assoc.
    + change (re_fixed (run_entry (x :: l))) with true. cbn iota. rewrite decide_False in Hs by done.
      rewrite decide_False by (rewrite length_app; simpl; lia). rewrite Hrc.
      change (Os_regex_entry (Some (os_glob2regex f)) (re_fixed re_clear) (re_fixed_prefix re_clear)) with (group_entry (inr f)).
      rewrite Hrest by (rewrite length_app; simpl; lia). by rewrite <- !app_assoc.
  - destruct l as [|x l]; cbn [pend_entry].
    + cbn [re_expression re_clear]. change (Os_regex_entry (Some f) true 0) with (pend_entry [f]).
      rewrite IH; [|done|rewrite decide_True in Hs by done; rewrite decide_False by done; lia].
      cbn [pend]. by destruct (path_groups frags) as [|[l'|g] gs].
    + cbn [re_expression run_entry]. rewrite <- run_entry_snoc.
      change (run_entry ((x :: l) ++ [f])) with (pend_entry ((x :: l) ++ [f])).
      rewrite IH; [|done|rewrite decide_False in Hs by done; rewrite decide_False by done; lia].
      cbn [pend app]. destruct (path_groups frags) as [|[l'|g] gs]; [done| |done]. by rewrite <- app_assoc.
Qed.

(** A path whose fragments are fewer than its characters becomes a table
    with one entry per run of plain fragments, which is their text and knows how
    much of it comes before the last fragment, and one per glob, which is its
    regular expression; the table is called fixed exactly when there is no glob
    in the path. *)
Theorem os_path_glob2regex_groups (rc : string → bool) path frags :
  (∀ f, f ∈ frags → f ≠ "" ∧ rc (os_glob2regex f) = true) → (length frags < String.length path)%nat →
  ∃ t, os_path_glob2regex rc path frags = Some (Some t) ∧ t = group_entry <$> path_groups frags ∧
    (os_regex_is_fixed t = true ↔ ∀ f, f ∈ frags → frag_globs f = false).
Proof.
  intros Hf Hs. exists (group_entry <$> path_groups frags). unfold os_path_glob2regex.
  change re_clear with (pend_entry []). rewrite path_loop_groups; [|done|simpl; lia].
  split; [done|]. split; [done|]. clear Hf Hs. split.
  - intros Hfix. induction frags as [|f frags IH]; [by intros ? ?%not_elem_of_nil|].
    cbn [path_groups foldr] in Hfix. fold (path_groups frags) in Hfix. destruct (frag_globs f) eqn:Hg.
    { by destruct (path_groups frags). }
    intros x [->|Hx]%elem_of_cons; [done|]. apply IH; [|done].
    destruct (path_groups frags) as [|[l|g] [|g' gs]]; done.
  - intros Hno. assert (path_groups frags = match frags with [] => [] | _ => [inl frags] end) as ->; [|by destruct frags].
    induction frags as [|f frags IH]; [done|]. cbn [path_groups foldr]. fold (path_groups frags).
    rewrite (Hno f) by (by left). rewrite IH by (intros; apply Hno; by right). by destruct frags.
Qed.

(** A path that is a single star indexes the entry after the last one. *)
Example os_path_glob2regex_star : os_path_glob2regex (λ _, true) "*" ["*"] = None.
Proof. reflexivity. Qed.

(** ** Concrete runs *)
Lemma os_glob2regex_correct_witness :
  ∃ r l, os_glob2regex "a?b*.c" = "^" +:+ r +:+ "$" ∧ ere_parse r = Some l ∧ ∀ s, ere_match l s = glob_match "a?b*.c" s.
Proof. apply (os_glob2regex_correct "a?b*.c"); [done|reflexivity]. Defined.

Example os_glob2regex_run : os_glob2regex "a?b*.c" = "^a.b.*\.c$".
Proof. reflexivity. Qed.

Definition demo_frags : list string := ["a"; "b"; "*.c"; "d"].
Example os_path_glob2regex_run :
  os_path_glob2regex (λ _, true) "/a/b/*.c/d" demo_frags =
  Some (Some [Os_regex_entry (Some "a/b") true 1; Os_regex_entry (Some "^.*\.c$") false 0; Os_regex_entry (Some "d") true 0]).
Proof. vm_compute. reflexivity. Qed.

Lemma os_path_glob2regex_groups_witness :
  ∃ t, os_path_glob2regex (λ _, true) "/a/b/*.c/d" demo_frags = Some (Some t) ∧ t = group_entry <$> path_groups demo_frags ∧
    (os_regex_is_fixed t = true ↔ ∀ f, f ∈ demo_frags → frag_globs f = false).
Proof.
  apply (os_path_glob2regex_groups (λ _, true) "/a/b/*.c/d" demo_frags); [|simpl; lia].
  intros f Hf. split; [|done]. intros ->. unfold demo_frags in Hf.
  repeat (apply elem_of_cons in Hf as [?|Hf]; [done|]). by apply not_elem_of_nil in Hf.
Defined.

Example os_local_filetype_run :
  (os_local_filetype (Some (Stat_buf S_LNK 1)) None,
   os_local_filetype (Some (Stat_buf S_LNK 1)) (Some (Stat_buf S_DIR 3)),
   os_local_filetype (Some (Stat_buf S_REG 2)) None) = (21, 6, 9).
Proof. reflexivity. Qed.
