(* ===== verification/OsPack.v ===== *)
(** * Path tables on the wire (os_base.c)

    A regular-expression table is packed into a buffer as zigzag integers and
    the bytes of its expressions, and unpacked on the other side.  The integers
    are coded by the toolbox, which is a parameter. *)
From Stdlib Require Import Ascii.
From stdpp Require Import strings.
From S2P Require Import Prelude Inip OsGlob.
#[local] Open Scope Z_scope.

(** The bytes of an encoded integer, and the integer at a place of a buffer that
    has [n] bytes left, with how many it takes. *)
Class Zigzag := {
  zigzag_encode : Z → list Z;
  zigzag_decode : (Z → Z) → Z → Z → option (Z * Z) }.

(** The buffer holds the bytes at [pos]. *)
Definition holds (buf : Z → Z) (pos : Z) (l : list Z) : Prop := ∀ k b, l !! k = Some b → buf (pos + Z.of_nat k) = b.

Class ZigzagOk `{Zigzag} : Prop := {
  zigzag_encode_ne v : zigzag_encode v ≠ [];
  zigzag_decode_encode buf pos n v :
    holds buf pos (zigzag_encode v) → Z.of_nat (length (zigzag_encode v)) ≤ n →
    zigzag_decode buf pos n = Some (v, Z.of_nat (length (zigzag_encode v))) }.

(** The characters of a C string, and the string at a place of a buffer up to its
    terminator. *)
Fixpoint str_bytes (s : string) : list Z :=
  match s with "" => [] | String c s => Z.of_N (N_of_ascii c) :: str_bytes s end.
Fixpoint bytes_str (l : list Z) : string :=
  match l with
  | [] => ""
  | b :: l => if decide (b = 0) then "" else String (ascii_of_N (Z.to_N b)) (bytes_str l)
  end.
Definition no_nul (s : string) : Prop := 0 ∉ str_bytes s.

(** A byte list stored at a place. *)
Definition buf_store (buf : Z → Z) (pos : Z) (l : list Z) : Z → Z :=
  λ p, if decide (pos ≤ p < pos + Z.of_nat (length l)) then l !!! Z.to_nat (p - pos) else buf p.

Section pack.
Context `{!Zigzag}.

(** The buffer, the position and whether something did not fit. *)
Record packing := Packing { pk_buf : Z → Z; pk_pos : Z; pk_err : bool }.

(** One integer: it is stored when four bytes are left, and counted as four
    otherwise. *)
Definition pack_int (bufsize v : Z) (p : packing) : packing :=
  if decide (pk_pos p + 4 < bufsize)
  then let l := zigzag_encode v in
       Packing (buf_store (pk_buf p) (pk_pos p) l) (pk_pos p + Z.of_nat (length l)) (pk_err p)
  else Packing (pk_buf p) (pk_pos p + 4) true.

Definition pack_bytes (bufsize : Z) (l : list Z) (p : packing) : packing :=
  let len := Z.of_nat (length l) in
  if decide (pk_pos p + len < bufsize)
  then Packing (buf_store (pk_buf p) (pk_pos p) l) (pk_pos p + len) (pk_err p)
  else Packing (pk_buf p) (pk_pos p + len) true.

(** One entry; its expression is never null. *)
Definition re_text (e : os_regex_entry) : string := default "" (re_expression e).
Definition pack_entry (bufsize : Z) (p : packing) (e : os_regex_entry) : packing :=
  let p := pack_int bufsize (if re_fixed e then 1 else 0) p in
  let p := pack_int bufsize (re_fixed_prefix e) p in
  let l := str_bytes (re_text e) in
  let p := pack_int bufsize (Z.of_nat (length l)) p in
  pack_bytes bufsize l p.

(** [os_regex_table_pack]: the buffer and the bytes used, negative when it was
    too small; [None] is the null table. *)
Definition os_regex_table_pack (regex : option os_regex_table) (buf : Z → Z) (bufsize : Z) : (Z → Z) * Z :=
  match regex with
  | None => let l := zigzag_encode 0 in (buf_store buf 0 l, Z.of_nat (length l))
  | Some t =>
      let p := pack_int bufsize (Z.of_nat (length t)) (Packing buf 0 false) in
      let p := foldl (pack_entry bufsize) p t in
      (pk_buf p, if pk_err p then - pk_pos p else pk_pos p)
  end.

(** *** Unpacking *)
Context (regcomp : string → bool).

Definition buf_bytes (buf : Z → Z) (pos n : Z) : list Z := buf <$> seqZ pos n.

(** One entry; the result is the entry with the position and the bytes left
    after it, or the position where it failed.  The bytes of the expression are
    not taken off what is left. *)
Definition unpack_entry (buf : Z → Z) (pos rest : Z) : (os_regex_entry * Z * Z) + Z :=
  match zigzag_decode buf pos rest with
  | None => inr pos
  | Some (fixed, n) =>
      let pos := pos + n in let rest := rest - n in
      match zigzag_decode buf pos rest with
      | None => inr pos
      | Some (prefix, n) =>
          let pos := pos + n in let rest := rest - n in
          match zigzag_decode buf pos rest with
          | None => inr pos
          | Some (len, n) =>
              let pos := pos + n in let rest := rest - n in
              if decide (len ≤ rest) then
                let e := bytes_str (buf_bytes buf pos len) in
                if (bool_decide (fixed = 0) && negb (regcomp e)) then inr pos
                else inl (Os_regex_entry (Some e) (bool_decide (fixed ≠ 0)) prefix, pos + len, rest)
              else inr pos
          end
      end
  end.

Fixpoint unpack_loop (n : nat) (buf : Z → Z) (pos rest : Z) : os_regex_table * Z + Z :=
  match n with
  | O => inl ([], pos)
  | S n =>
      match unpack_entry buf pos rest with
      | inr pos => inr pos
      | inl (e, pos, rest) =>
          match unpack_loop n buf pos rest with inl (t, pos) => inl (e :: t, pos) | inr pos => inr pos end
      end
  end.

(** [os_regex_table_unpack]: the table, or null, and the bytes used. *)
Definition os_regex_table_unpack (buf : Z → Z) (bufsize : Z) : option os_regex_table * Z :=
  match zigzag_decode buf 0 bufsize with
  | None => (None, 0)
  | Some (value, n) =>
      if decide (value = 0) then (None, n)
      else match unpack_loop (Z.to_nat value) buf n (bufsize - n) with
           | inl (t, pos) => (Some t, pos)
           | inr pos => (None, pos)
           end
  end.
End pack.

(** ** Round trip *)

Lemma holds_app buf pos l k :
  holds buf pos (l ++ k) ↔ holds buf pos l ∧ holds buf (pos + Z.of_nat (length l)) k.
Proof.
  unfold holds. split.
  - intros Hh. split.
    + intros i b Hi. apply Hh. by apply lookup_app_l_Some.
    + intros i b Hi. rewrite <- (Hh (length l + i)%nat b); [f_equal; lia|].
      rewrite lookup_app_r by lia. by replace (length l + i - length l)%nat with i by lia.
  - intros [Hl Hk] i b Hi. apply lookup_app_Some in Hi as [Hi|[Hle Hi]]; [by apply Hl|].
    rewrite <- (Hk (i - length l)%nat b) by done. f_equal. lia.
Qed.

Lemma holds_store buf pos l : holds (buf_store buf pos l) pos l.
Proof.
  intros k b Hk. unfold buf_store. apply lookup_lt_Some in Hk as Hlt. rewrite decide_True by lia.
  replace (Z.to_nat (pos + Z.of_nat k - pos)) with k by lia. by apply list_lookup_total_correct.
Qed.

Lemma holds_store_before buf pos l pos' l' :
  pos' + Z.of_nat (length l') ≤ pos → holds buf pos' l' → holds (buf_store buf pos l) pos' l'.
Proof.
  intros Hle Hh k b Hk. unfold buf_store. apply lookup_lt_Some in Hk as Hlt. rewrite decide_False by lia. by apply Hh.
Qed.

Lemma holds_bytes buf pos l : holds buf pos l → buf_bytes buf pos (Z.of_nat (length l)) = l.
Proof.
  intros Hh. unfold buf_bytes. apply list_eq. intros k. rewrite list_lookup_fmap.
  destruct (l !! k) as [b|] eqn:Hk.
  - apply lookup_lt_Some in Hk as Hlt. rewrite lookup_seqZ_lt by lia. cbn. by rewrite (Hh k b).
  - apply lookup_ge_None in Hk. by rewrite lookup_seqZ_ge by lia.
Qed.

Lemma bytes_str_bytes s : no_nul s → bytes_str (str_bytes s) = s.
Proof.
  unfold no_nul. induction s as [|c s IH]; [done|]. cbn [str_bytes bytes_str]. rewrite not_elem_of_cons. intros [Hc Hs].
  rewrite decide_False by done. rewrite IH by done. by rewrite N2Z.id, ascii_N_embedding.
Qed.

Section pack_spec.
Context `{!Zigzag, !ZigzagOk}.

(** The bytes of a table that fits. *)
Definition entry_bytes (e : os_regex_entry) : list Z :=
  let l := str_bytes (re_text e) in
  zigzag_encode (if re_fixed e then 1 else 0) ++ zigzag_encode (re_fixed_prefix e) ++
  zigzag_encode (Z.of_nat (length l)) ++ l.
Definition table_bytes (t : os_regex_table) : list Z :=
  zigzag_encode (Z.of_nat (length t)) ++ (t ≫= entry_bytes).

(** Packing so far: no error means that the bytes are there. *)
Definition packed (p : packing) (l : list Z) : Prop :=
  pk_err p = false → pk_pos p = Z.of_nat (length l) ∧ holds (pk_buf p) 0 l.

Lemma packed_store p l k err :
  packed p l → (err = false → pk_err p = false) →
  packed (Packing (buf_store (pk_buf p) (pk_pos p) k) (pk_pos p + Z.of_nat (length k)) err) (l ++ k).
Proof.
  intros Hp He Herr. destruct (Hp (He Herr)) as [Hpos Hh]. cbn [pk_pos pk_buf pk_err].
  rewrite length_app. split; [lia|]. apply holds_app. rewrite Z.add_0_l, <- Hpos. split; [|apply holds_store].
  apply holds_store_before; [lia|done].
Qed.
Lemma packed_err buf pos l : packed (Packing buf pos true) l.
Proof. by intros ?. Qed.

Lemma pack_int_packed bufsize v p l : packed p l → packed (pack_int bufsize v p) (l ++ zigzag_encode v).
Proof. intros Hp. unfold pack_int. case_decide; [by apply packed_store|apply packed_err]. Qed.
Lemma pack_bytes_packed bufsize k p l : packed p l → packed (pack_bytes bufsize k p) (l ++ k).
Proof. intros Hp. unfold pack_bytes. case_decide; [by apply packed_store|apply packed_err]. Qed.

Lemma pack_entries_packed bufsize t : ∀ p l, packed p l → packed (foldl (pack_entry bufsize) p t) (l ++ (t ≫= entry_bytes)).
Proof.
  induction t as [|e t IH]; intros p l Hp; [by rewrite app_nil_r|]. cbn [foldl]. rewrite bind_cons, app_assoc. apply IH.
  unfold pack_entry, entry_bytes. rewrite !app_assoc. by repeat (apply pack_bytes_packed || apply pack_int_packed).
Qed.

(** The position only grows, so that a failed packing is reported as one. *)
Lemma pack_pos_pos bufsize t : ∀ p, 0 < pk_pos p → 0 < pk_pos (foldl (pack_entry bufsize) p t).
Proof.
  assert (∀ v p, 0 < pk_pos p → 0 < pk_pos (pack_int bufsize v p)) as Hi by (intros v p ?; unfold pack_int; case_decide; simpl; lia).
  assert (∀ l p, 0 < pk_pos p → 0 < pk_pos (pack_bytes bufsize l p)) as Hb by (intros l p ?; unfold pack_bytes; case_decide; simpl; lia).
  induction t as [|e t IH]; intros p Hp; [done|]. cbn [foldl]. apply IH. unfold pack_entry. auto.
Qed.

Lemma encode_length_pos v : 0 < Z.of_nat (length (zigzag_encode v)).
Proof. pose proof (zigzag_encode_ne v). destruct (zigzag_encode v); [done|simpl; lia]. Qed.

Lemma unpack_loop_bytes rc buf t : ∀ pos rest,
  Forall (λ e, is_Some (re_expression e) ∧ no_nul (re_text e) ∧ (re_fixed e = false → rc (re_text e) = true)) t →
  holds buf pos (t ≫= entry_bytes) → Z.of_nat (length (t ≫= entry_bytes)) ≤ rest →
  unpack_loop rc (length t) buf pos rest = inl (t, pos + Z.of_nat (length (t ≫= entry_bytes))).
Proof.
  induction t as [|e t IH]; intros pos rest Hok Hh Hl; [cbn; f_equal; f_equal; lia|].
  apply Forall_cons in Hok as [([x Hx] & Hnul & Hrc) Hok]. rewrite bind_cons in Hh, Hl |- *.
  apply holds_app in Hh as [Hh Hh']. rewrite length_app in Hl |- *.
  assert (Z.of_nat (length (t ≫= entry_bytes)) ≤ rest - Z.of_nat (length (entry_bytes e))) as Hl' by lia.
  set (tail := t ≫= entry_bytes) in *. unfold entry_bytes in Hh, Hl, Hl'. rewrite !holds_app in Hh. destruct Hh as (Hh1 & Hh2 & Hh3 & Hh4). rewrite !length_app in Hl, Hl'.
  cbn [length unpack_loop]. unfold unpack_entry.
  rewrite (zigzag_decode_encode _ _ _ _ Hh1) by lia. rewrite (zigzag_decode_encode _ _ _ _ Hh2) by lia.
  rewrite (zigzag_decode_encode _ _ _ _ Hh3) by lia. rewrite decide_True by lia.
  rewrite (holds_bytes _ _ _ Hh4), bytes_str_bytes by done.
  assert ((bool_decide ((if re_fixed e then 1 else 0) = 0) && negb (rc (re_text e))) = false) as ->.
  { destruct (re_fixed e); [done|]. by rewrite Hrc. }
  assert (Os_regex_entry (Some (re_text e)) (bool_decide ((if re_fixed e then 1 else 0) ≠ 0)) (re_fixed_prefix e) = e) as ->.
  { destruct e as [ex [] pre]; cbn in *; by rewrite Hx. }
  match goal with |- context [unpack_loop rc (length t) buf ?p _] =>
    replace p with (pos + Z.of_nat (length (entry_bytes e))) by (unfold entry_bytes; rewrite !length_app; lia) end.
  unfold tail in *. rewrite IH; [|done|done|lia]. do 2 f_equal. lia.
Qed.

(** A table that is packed without an error is unpacked as it was, from any
    buffer that holds the bytes and is at least as long, and as many bytes are
    used as were written.  A packing that does not fit is reported by a negative
    number. *)
Theorem os_regex_table_pack_unpack rc t buf bufsize bufsize' :
  t ≠ [] →
  Forall (λ e, is_Some (re_expression e) ∧ no_nul (re_text e) ∧ (re_fixed e = false → rc (re_text e) = true)) t →
  let '(buf', n) := os_regex_table_pack (Some t) buf bufsize in
  n < 0 ∨ 0 < n ∧ (n ≤ bufsize' → os_regex_table_unpack rc buf' bufsize' = (Some t, n)).
Proof.
  intros Hne Hok. unfold os_regex_table_pack.
  set (p1 := pack_int bufsize (Z.of_nat (length t)) (Packing buf 0 false)).
  assert (packed p1 (zigzag_encode (Z.of_nat (length t)))) as Hp1.
  { apply (pack_int_packed bufsize _ (Packing buf 0 false) []). intros _. split; [done|]. by intros k b. }
  pose proof (pack_entries_packed bufsize t p1 _ Hp1) as Hp. fold (table_bytes t) in Hp.
  assert (0 < pk_pos p1) as Hpos.
  { unfold p1, pack_int. case_decide; simpl; [pose proof (encode_length_pos (Z.of_nat (length t)))|]; lia. }
  apply (pack_pos_pos bufsize t) in Hpos. set (p := foldl (pack_entry bufsize) p1 t) in *.
  destruct (pk_err p) eqn:Herr; [left; lia|]. right. split; [done|]. intros Hle.
  destruct (Hp Herr) as [Hn Hh]. unfold table_bytes in Hh, Hn. apply holds_app in Hh as [Hh1 Hh2]. rewrite length_app in Hn.
  unfold os_regex_table_unpack. rewrite (zigzag_decode_encode _ _ _ _ Hh1) by lia.
  rewrite decide_False by (destruct t; [done|simpl; lia]). rewrite Nat2Z.id.
  rewrite (unpack_loop_bytes rc (pk_buf p) t); [|done|done|lia]. by rewrite Hn, Nat2Z.inj_add.
Qed.
End pack_spec.

(** ** Concrete runs *)

(** One byte per integer. *)
#[local] Instance byte_zigzag : Zigzag := {|
  zigzag_encode v := [v];
  zigzag_decode buf pos n := if decide (1 ≤ n) then Some (buf pos, 1) else None |}.
#[local] Instance byte_zigzag_ok : ZigzagOk.
Proof.
  split; [done|]. intros buf pos n v Hh Hn. cbn in *. rewrite decide_True by lia.
  pose proof (Hh 0%nat v eq_refl) as Hb. rewrite Z.add_0_r in Hb. by rewrite Hb.
Qed.

Definition demo_table : os_regex_table :=
  [Os_regex_entry (Some "a/b") true 1; Os_regex_entry (Some "^.*\.c$") false 0].

Lemma os_regex_table_pack_unpack_witness :
  let '(buf', n) := os_regex_table_pack (Some demo_table) (λ _, 0) 100 in
  n < 0 ∨ 0 < n ∧ (n ≤ 50 → os_regex_table_unpack (λ _, true) buf' 50 = (Some demo_table, n)).
Proof.
  apply (os_regex_table_pack_unpack (λ _, true) demo_table (λ _, 0) 100 50); [done|].
  repeat constructor; try (by eexists); apply (bool_decide_unpack _); vm_compute; exact I.
Defined.

Example os_regex_table_pack_run :
  ((os_regex_table_pack (Some demo_table) (λ _, 0) 100).2, (os_regex_table_pack (Some demo_table) (λ _, 0) 12).2,
   os_regex_table_unpack (λ _, true) (os_regex_table_pack (Some demo_table) (λ _, 0) 100).1 17) =
  (17, -23, (Some demo_table, 17)).
Proof. vm_compute. reflexivity. Qed.

(** The bytes of an expression are not taken off the bytes left: from a buffer of
    8 bytes a table of 12 is read. *)
Example os_regex_table_unpack_overread :
  (os_regex_table_unpack (λ _, true) (λ p, [2; 1; 0; 4; 97; 97; 97; 97; 1; 0; 1; 98] !!! Z.to_nat p) 8).2 = 12.
Proof. vm_compute. reflexivity. Qed.
