(* ===== verification/Erasure.v ===== *)
(** * Erasure plans (erasure_tools.c)

    The parameters of an erasure code, the choice of its packet size, and the
    dispatch to the code that does the work: RAID4 is raid4.c, every other
    method is a call into the Jerasure library, which is a parameter
    ([Jerasure]).  The contract a plan's encoder and decoder are used under is
    [MdsPlan]; which plans meet it is the question the last part answers for
    RAID4. *)
From Stdlib Require Import Ascii.
From stdpp Require Import strings.
From S2P Require Import Prelude Words Raid4.
#[local] Open Scope Z_scope.

(** A buffer of one strip. *)
Abbreviation chunk := (list Z).

(** ** The library's entry points

    Matrices are integer arrays, schedules arrays of operations, and a null
    pointer is [None].  An encoder gives the new coding strips, a decoder its
    result code and the new data and coding strips. *)
Class Jerasure := {
  reed_sol_r6_coding_matrix : nat → Z → option (list Z);
  reed_sol_vandermonde_coding_matrix : nat → nat → Z → option (list Z);
  cauchy_original_coding_matrix : nat → nat → Z → option (list Z);
  cauchy_good_general_coding_matrix : nat → nat → Z → option (list Z);
  blaum_roth_coding_bitmatrix : nat → Z → option (list Z);
  liberation_coding_bitmatrix : nat → Z → option (list Z);
  liber8tion_coding_bitmatrix : nat → option (list Z);
  jerasure_matrix_to_bitmatrix : nat → nat → Z → option (list Z) → option (list Z);
  jerasure_smart_bitmatrix_to_schedule : nat → nat → Z → option (list Z) → option (list (list Z));
  reed_sol_r6_encode : nat → Z → list chunk → list chunk → nat → list chunk;
  jerasure_matrix_encode : nat → nat → Z → list Z → list chunk → list chunk → nat → list chunk;
  jerasure_schedule_encode : nat → nat → Z → list (list Z) → list chunk → list chunk → nat → Z → list chunk;
  jerasure_matrix_decode : nat → nat → Z → list Z → list Z → list chunk → list chunk → nat → Z * list chunk * list chunk;
  jerasure_schedule_decode_lazy : nat → nat → Z → list Z → list Z → list chunk → list chunk → nat → Z → Z * list chunk * list chunk }.

(** ** Methods *)
Definition REED_SOL_VAN : Z := 0.
Definition REED_SOL_R6_OP : Z := 1.
Definition CAUCHY_ORIG : Z := 2.
Definition CAUCHY_GOOD : Z := 3.
Definition BLAUM_ROTH : Z := 4.
Definition LIBERATION : Z := 5.
Definition LIBER8TION : Z := 6.
Definition RAID4 : Z := 7.
Definition N_JE_METHODS : Z := 8.

Definition JE_method : list string :=
  ["reed_sol_van"; "reed_sol_r6_op"; "cauchy_orig"; "cauchy_good"; "blaum_roth"; "liberation"; "liber8tion"; "raid4"]%string.

(** The C library's [strcasecmp], as equality. *)
Definition tolower (c : ascii) : ascii :=
  let n := nat_of_ascii c in
  if decide (65 ≤ n ≤ 90)%nat then ascii_of_nat (n + 32) else c.
Fixpoint strcaseeq (a b : string) : bool :=
  match a, b with
  | EmptyString, EmptyString => true
  | String x a, String y b => bool_decide (tolower x = tolower y) && strcaseeq a b
  | _, _ => false
  end.

Fixpoint method_loop (meth : string) (i : Z) (l : list string) : Z :=
  match l with
  | [] => -1
  | m :: l => if strcaseeq meth m then i else method_loop meth (i + 1) l
  end.
Definition et_method_type (meth : string) : Z := method_loop meth 0 JE_method.

(** ** Primes *)
Definition prime55 : list Z :=
  [2; 3; 5; 7; 11; 13; 17; 19; 23; 29; 31; 37; 41; 43; 47; 53; 59; 61; 67; 71;
   73; 79; 83; 89; 97; 101; 103; 107; 109; 113; 127; 131; 137; 139; 149; 151; 157; 163; 167; 173; 179;
   181; 191; 193; 197; 199; 211; 223; 227; 229; 233; 239; 241; 251; 257].

(** The loop from the table's second entry on: [p] is the entry before. *)
Fixpoint prime_loop (w which p : Z) (l : list Z) : Z :=
  match l with
  | [] => p
  | q :: l =>
      if decide (w ≤ q) then
        if decide (which > 0) then q
        else if decide (which < 0) then p
        else if decide (w - p < q - w) then p else q
      else prime_loop w which q l
  end.
Definition nearest_prime (w which : Z) : Z :=
  match prime55 with p :: l => prime_loop w which p l | [] => 0 end.

(** ** Plans *)
Record erasure_plan := Erasure_plan {
  strip_size : Z;
  method : Z;
  data_strips : nat;
  parity_strips : nat;
  plan_w : Z;
  packet_size : Z;
  base_unit : Z;
  encode_matrix : option (list Z);
  encode_bitmatrix : option (list Z);
  encode_schedule : option (list (list Z)) }.

Definition plan_set_matrices (p : erasure_plan) mat bm sched : erasure_plan :=
  Erasure_plan (strip_size p) (method p) (data_strips p) (parity_strips p) (plan_w p) (packet_size p) (base_unit p)
    mat bm sched.

Definition et_new_plan (meth strip : Z) (data parity : nat) (w packet unit : Z) : option erasure_plan :=
  if decide (meth >= N_JE_METHODS) then None
  else if decide (meth < 0) then None
  else Some (Erasure_plan strip meth data parity w packet unit None None None).

Section plan.
Context `{!Jerasure}.

(** *** Forming the matrices

    Each returns its result code, which no caller looks at, and the plan. *)
Definition reed_sol_r6_op_form_coding_matrix (p : erasure_plan) : Z * erasure_plan :=
  match encode_matrix p with
  | Some _ => (0, p)
  | None => (0, plan_set_matrices p (reed_sol_r6_coding_matrix (data_strips p) (plan_w p)) (encode_bitmatrix p) (encode_schedule p))
  end.

Definition reed_sol_van_form_coding_matrix (p : erasure_plan) : Z * erasure_plan :=
  match encode_matrix p with
  | Some _ => (0, p)
  | None =>
      let mat := reed_sol_vandermonde_coding_matrix (data_strips p) (parity_strips p) (plan_w p) in
      let p := plan_set_matrices p mat (encode_bitmatrix p) (encode_schedule p) in
      (if mat is None then -1 else 0, p)
  end.

(** The code the Cauchy methods share; the result code looks at the schedule,
    which this function does not form. *)
Definition cauchy_form_coding_matrix (mat : nat → nat → Z → option (list Z)) (p : erasure_plan) : Z * erasure_plan :=
  match encode_matrix p with
  | Some _ => (0, p)
  | None =>
      let m := mat (data_strips p) (parity_strips p) (plan_w p) in
      let p := plan_set_matrices p m (jerasure_matrix_to_bitmatrix (data_strips p) (parity_strips p) (plan_w p) m) (encode_schedule p) in
      (if encode_schedule p is None then -1 else 0, p)
  end.
Definition cauchy_orig_form_coding_matrix := cauchy_form_coding_matrix cauchy_original_coding_matrix.
Definition cauchy_good_form_coding_matrix := cauchy_form_coding_matrix cauchy_good_general_coding_matrix.

(** The code the bit-matrix methods share. *)
Definition bitmatrix_form_coding_matrix (bm : erasure_plan → option (list Z)) (p : erasure_plan) : Z * erasure_plan :=
  match encode_bitmatrix p with
  | Some _ => (0, p)
  | None =>
      let p := plan_set_matrices p (encode_matrix p) (bm p) (encode_schedule p) in
      (if encode_schedule p is None then -1 else 0, p)
  end.
Definition blaum_roth_form_coding_matrix :=
  bitmatrix_form_coding_matrix (λ p, blaum_roth_coding_bitmatrix (data_strips p) (plan_w p)).
Definition liberation_form_coding_matrix :=
  bitmatrix_form_coding_matrix (λ p, liberation_coding_bitmatrix (data_strips p) (plan_w p)).
Definition liber8tion_form_coding_matrix :=
  bitmatrix_form_coding_matrix (λ p, liber8tion_coding_bitmatrix (data_strips p)).

(** The schedule on top of a coding matrix, skipped when [formed] finds the
    matrix in place. *)
Definition form_schedule (formed : erasure_plan → option (list Z)) (coding : erasure_plan → Z * erasure_plan)
    (p : erasure_plan) : Z * erasure_plan :=
  match formed p with
  | Some _ => (0, p)
  | None =>
      let p := (coding p).2 in
      let sched := jerasure_smart_bitmatrix_to_schedule (data_strips p) (parity_strips p) (plan_w p) (encode_bitmatrix p) in
      (if sched is None then -1 else 0, plan_set_matrices p (encode_matrix p) (encode_bitmatrix p) sched)
  end.
Definition cauchy_orig_form_encoding_matrix := form_schedule encode_matrix cauchy_orig_form_coding_matrix.
Definition cauchy_good_form_encoding_matrix := form_schedule encode_matrix cauchy_good_form_coding_matrix.
Definition blaum_roth_form_encoding_matrix := form_schedule encode_bitmatrix blaum_roth_form_coding_matrix.
Definition liberation_form_encoding_matrix := form_schedule encode_bitmatrix liberation_form_coding_matrix.
Definition liber8tion_form_encoding_matrix := form_schedule encode_bitmatrix liber8tion_form_coding_matrix.
Definition dummy_coding_matrix (p : erasure_plan) : Z * erasure_plan := (0, p).

(** The function pointers [et_new_plan] stores. *)
Definition form_encoding_matrix (p : erasure_plan) : Z * erasure_plan :=
  if decide (method p = REED_SOL_R6_OP) then reed_sol_r6_op_form_coding_matrix p
  else if decide (method p = REED_SOL_VAN) then reed_sol_van_form_coding_matrix p
  else if decide (method p = CAUCHY_ORIG) then cauchy_orig_form_encoding_matrix p
  else if decide (method p = CAUCHY_GOOD) then cauchy_good_form_encoding_matrix p
  else if decide (method p = BLAUM_ROTH) then blaum_roth_form_encoding_matrix p
  else if decide (method p = LIBERATION) then liberation_form_encoding_matrix p
  else if decide (method p = LIBER8TION) then liber8tion_form_encoding_matrix p
  else dummy_coding_matrix p.

Definition form_decoding_matrix (p : erasure_plan) : Z * erasure_plan :=
  if decide (method p = REED_SOL_R6_OP) then reed_sol_r6_op_form_coding_matrix p
  else if decide (method p = REED_SOL_VAN) then reed_sol_van_form_coding_matrix p
  else if decide (method p = CAUCHY_ORIG) then cauchy_orig_form_coding_matrix p
  else if decide (method p = CAUCHY_GOOD) then cauchy_good_form_coding_matrix p
  else if decide (method p = BLAUM_ROTH) then blaum_roth_form_coding_matrix p
  else if decide (method p = LIBERATION) then liberation_form_coding_matrix p
  else if decide (method p = LIBER8TION) then liber8tion_form_coding_matrix p
  else dummy_coding_matrix p.

(** *** Encoding and decoding one block

    [ptr] is the array of data strips followed by coding strips; a missing
    matrix is a null pointer the library reads through. *)
Definition raid4_op_encode_block (p : erasure_plan) (ptr : list chunk) (n : nat) : option (list chunk) :=
  coding ← raid4_encode (data_strips p) (take (data_strips p) ptr) (drop (data_strips p) ptr) n;
  Some (take (data_strips p) ptr ++ coding).

Definition reed_sol_r6_op_encode_block (p : erasure_plan) (ptr : list chunk) (n : nat) : option (list chunk) :=
  Some (take (data_strips p) ptr ++
    reed_sol_r6_encode (data_strips p) (plan_w p) (take (data_strips p) ptr) (drop (data_strips p) ptr) n).

Definition matrix_encode_block (p : erasure_plan) (ptr : list chunk) (n : nat) : option (list chunk) :=
  mat ← encode_matrix p;
  Some (take (data_strips p) ptr ++
    jerasure_matrix_encode (data_strips p) (parity_strips p) (plan_w p) mat
      (take (data_strips p) ptr) (drop (data_strips p) ptr) n).

Definition schedule_encode_block (p : erasure_plan) (ptr : list chunk) (n : nat) : option (list chunk) :=
  sched ← encode_schedule p;
  Some (take (data_strips p) ptr ++
    jerasure_schedule_encode (data_strips p) (parity_strips p) (plan_w p) sched
      (take (data_strips p) ptr) (drop (data_strips p) ptr) n (packet_size p)).

Definition encode_block (p : erasure_plan) (ptr : list chunk) (n : nat) : option (list chunk) :=
  if decide (method p = REED_SOL_R6_OP) then reed_sol_r6_op_encode_block p ptr n
  else if decide (method p = REED_SOL_VAN) then matrix_encode_block p ptr n
  else if decide (method p = RAID4) then raid4_op_encode_block p ptr n
  else schedule_encode_block p ptr n.

Definition matrix_decode_block (p : erasure_plan) (ptr : list chunk) (n : nat) (erasures : list Z) : option (Z * list chunk) :=
  mat ← encode_matrix p;
  let '(r, data, coding) := jerasure_matrix_decode (data_strips p) (parity_strips p) (plan_w p) mat erasures
    (take (data_strips p) ptr) (drop (data_strips p) ptr) n in
  Some (r, data ++ coding).

Definition schedule_decode_block (p : erasure_plan) (ptr : list chunk) (n : nat) (erasures : list Z) : option (Z * list chunk) :=
  bm ← encode_bitmatrix p;
  let '(r, data, coding) := jerasure_schedule_decode_lazy (data_strips p) (parity_strips p) (plan_w p) bm erasures
    (take (data_strips p) ptr) (drop (data_strips p) ptr) n (packet_size p) in
  Some (r, data ++ coding).

Definition raid4_op_decode_block (p : erasure_plan) (ptr : list chunk) (n : nat) (erasures : list Z) : option (Z * list chunk) :=
  '(r, data) ← raid4_decode (data_strips p) erasures (take (data_strips p) ptr) (drop (data_strips p) ptr) n;
  Some (r, data ++ drop (data_strips p) ptr).

Definition decode_block (p : erasure_plan) (ptr : list chunk) (n : nat) (erasures : list Z) : option (Z * list chunk) :=
  if decide (method p = REED_SOL_R6_OP ∨ method p = REED_SOL_VAN) then matrix_decode_block p ptr n erasures
  else if decide (method p = RAID4) then raid4_op_decode_block p ptr n erasures
  else schedule_decode_block p ptr n erasures.
End plan.

(** ** Choosing the packet size

    [increase_lt_1 j n] is the floating-point test that [j] is less than one
    percent of [n]. *)
Section generate.
Context (increase_lt_1 : Z → Z → bool).

Inductive gen_result :=
  | Gen_null                    (* NULL is returned *)
  | Gen_undefined               (* a division by zero, or a variable is used before it is set *)
  | Gen_plan (p : erasure_plan).

(** The default word size and unit: [None] for an invalid method. *)
Definition gen_word (meth : Z) (data : nat) (w : Z) : option (Z * Z) :=
  if decide (w = -1) then
    if decide (meth = REED_SOL_R6_OP ∨ meth = REED_SOL_VAN ∨ meth = CAUCHY_ORIG ∨ meth = CAUCHY_GOOD) then Some (8, 8)
    else if decide (meth = BLAUM_ROTH) then Some (nearest_prime (Z.of_nat data + 1) 1 - 1, 8)
    else if decide (meth = LIBERATION) then Some (nearest_prime (Z.of_nat data) 1, 8)
    else if decide (meth = LIBER8TION) then Some (8, 8)
    else if decide (meth = RAID4) then Some (8, 1)
    else None
  else Some (w, 8).

(** The bytes that one byte of packet takes in all strips, in an [int]. *)
Definition gen_unit (w unit : Z) (data : nat) : Z := sint 32 (w * unit * Z.of_nat data).

(** The range of packet sizes, before it is rounded to the unit. *)
Definition gen_range (file_size low high w unit : Z) (data : nat) : Z * Z :=
  let strip := Z.quot file_size (gen_unit w unit data) in
  let '(plow, phigh) := if decide (strip < 4 * 1024) then (sint 32 (Z.quot strip 4), sint 32 strip) else (512, 4096) in
  (if decide (low < 0) then plow else low, if decide (high < 0) then phigh else high).

Definition round_unit (unit n : Z) : Z := if decide (Z.rem n unit ≠ 0) then Z.quot n unit * unit else n.

(** The validation: the unit and the range, or [None] for a rejected plan. *)
Definition gen_validate (meth : Z) (data parity : nat) (w unit low high : Z) : option (Z * Z * Z) :=
  if decide (meth = REED_SOL_R6_OP ∧ parity ≠ 2%nat) then None
  else if decide (meth = REED_SOL_R6_OP ∨ meth = REED_SOL_VAN ∨ meth = CAUCHY_ORIG ∨ meth = CAUCHY_GOOD) then
    if decide (w ≠ 8 ∧ w ≠ 16 ∧ w ≠ 32) then None else Some (unit, low, high)
  else if decide (meth = BLAUM_ROTH) then
    if decide (Z.of_nat data > w) then None
    else if decide (nearest_prime (w + 1) 0 ≠ w + 1) then None
    else if decide (Z.rem high 8 ≠ 0) then None else Some (unit, low, high)
  else if decide (meth = LIBERATION) then
    if decide (Z.of_nat data > w) then None
    else if decide (nearest_prime w 0 ≠ w) then None
    else if decide (Z.rem high 8 ≠ 0) then None else Some (unit, low, high)
  else if decide (meth = LIBER8TION) then
    if decide (w ≠ 8) then None else if decide (parity ≠ 2%nat) then None
    else if decide (Z.of_nat data > w) then None else Some (unit, low, high)
  else if decide (meth = RAID4) then
    if decide (parity ≠ 1%nat) then None else Some (1, 0, 1)
  else None.

(** The size rounded up to whole packets on every strip. The bytes of a packet
    on every strip are an [int]: the product wraps around, and nothing can be
    divided by it when it comes to 0. *)
Definition gen_new_size (file_size w packet unit : Z) (data : nat) : option Z :=
  let i := sint 32 (Z.of_nat data * w * packet * unit) in
  if decide (i = 0) then None else
  let rem := Z.rem file_size i in
  Some (if decide (rem > 0) then sint 64 (file_size + (i - rem)) else file_size).

(** The search over [n] packet sizes from [packet] down, with the smallest
    excess so far and the best packet and size; [None] is a division by 0. *)
Fixpoint gen_loop (n : nat) (file_size w unit packet smallest : Z) (data : nat) (best : option (Z * Z)) : option (option (Z * Z)) :=
  match n with
  | O => Some best
  | S n =>
      new_size ← gen_new_size file_size w packet unit data;
      let j := sint 32 (new_size - file_size) in
      if decide (j ≤ smallest) then
        if increase_lt_1 j file_size then Some (Some (packet, new_size))
        else gen_loop n file_size w unit (packet - unit) j data (Some (packet, new_size))
      else gen_loop n file_size w unit (packet - unit) smallest data best
  end.

(** The number of packet sizes between [low], excluded, and [high]. *)
Definition gen_steps (low high unit : Z) : nat := Z.to_nat ((high - low + unit - 1) / unit).

Definition et_generate_plan (file_size meth : Z) (data parity : nat) (w low high : Z) : gen_result :=
  match gen_word meth data w with
  | None => Gen_null
  | Some (w, unit) =>
      if decide (gen_unit w unit data = 0) then Gen_undefined else
      let '(low, high) := gen_range file_size low high w unit data in
      if decide (low > high) then Gen_null else
      let low := round_unit unit low in
      let high := round_unit unit high in
      match gen_validate meth data parity w unit low high with
      | None => Gen_null
      | Some (unit, low, high) =>
          match gen_loop (gen_steps low high unit) file_size w unit high (sint 64 (10 * file_size)) data None with
          | None | Some None => Gen_undefined
          | Some (Some (packet, new_size)) =>
              match et_new_plan meth (Z.quot new_size (Z.of_nat data)) data parity w packet unit with
              | None => Gen_null
              | Some p => Gen_plan p
              end
          end
      end
  end.
End generate.

(** The exact test for one percent. *)
Definition one_percent (j n : Z) : bool := bool_decide (100 * j < n).

Lemma gen_new_size_spec file_size w packet unit data :
  let i := Z.of_nat data * w * packet * unit in
  0 ≤ file_size → 0 < i < 2 ^ 31 → file_size + i < 2 ^ 63 →
  ∃ size, gen_new_size file_size w packet unit data = Some size ∧
    file_size ≤ size ∧ size - file_size < i ∧ (i | size).
Proof.
  intros i Hf Hi H63. unfold gen_new_size. fold i. rewrite (sint_32 i), decide_False by lia.
  pose proof (Z.rem_bound_pos file_size i Hf ltac:(lia)). pose proof (Z.quot_rem' file_size i).
  eexists. split; [done|].
  case_decide; rewrite ?sint_64 by lia; (split; [lia|]); (split; [lia|]).
  - exists (Z.quot file_size i + 1). lia.
  - exists (Z.quot file_size i). lia.
Qed.

Lemma range_S (P : Z → Prop) (n : nat) :
  P 0 → (∀ k, 0 ≤ k < Z.of_nat n → P (k + 1)) → ∀ k, 0 ≤ k < Z.of_nat (S n) → P k.
Proof.
  intros H0 HS k Hk. destruct (decide (k = 0)) as [->|]; [done|].
  specialize (HS (k - 1) ltac:(lia)). by replace (k - 1 + 1) with k in HS by lia.
Qed.

(** What the search leaves behind, when no product wraps around. *)
Lemma gen_loop_spec lt1 file_size w unit data n : ∀ packet smallest best,
  let new_size k := default 0 (gen_new_size file_size w (packet - k * unit) unit data) in
  (∀ k, 0 ≤ k < Z.of_nat n →
     gen_new_size file_size w (packet - k * unit) unit data = Some (new_size k) ∧ 0 ≤ new_size k - file_size < 2 ^ 31) →
  ∃ r, gen_loop lt1 n file_size w unit packet smallest data best = Some r ∧
  match r with
  | None => best = None ∧ ∀ k, 0 ≤ k < Z.of_nat n → smallest < new_size k - file_size
  | Some (q, size) =>
      (best = Some (q, size) ∧ ∀ k, 0 ≤ k < Z.of_nat n → smallest < new_size k - file_size) ∨
      ∃ k, 0 ≤ k < Z.of_nat n ∧ q = packet - k * unit ∧ size = new_size k ∧
        size - file_size ≤ smallest ∧
        (lt1 (size - file_size) file_size = true ∨ ∀ k', 0 ≤ k' < Z.of_nat n → size ≤ new_size k')
  end.
Proof.
  induction n as [|n IH]; intros packet smallest best new_size Hok; cbn [gen_loop].
  { eexists. split; [done|]. destruct best as [[q size]|]; [left|]; (split; [done|lia]). }
  assert (∀ k, default 0 (gen_new_size file_size w (packet - unit - k * unit) unit data) = new_size (k + 1)) as Hstep.
  { intros k. unfold new_size. do 2 f_equal. lia. }
  assert (∀ k, 0 ≤ k < Z.of_nat n → gen_new_size file_size w (packet - unit - k * unit) unit data =
      Some (default 0 (gen_new_size file_size w (packet - unit - k * unit) unit data)) ∧
      0 ≤ default 0 (gen_new_size file_size w (packet - unit - k * unit) unit data) - file_size < 2 ^ 31) as Hok'.
  { intros k Hk. rewrite Hstep. replace (packet - unit - k * unit) with (packet - (k + 1) * unit) by lia. apply Hok. lia. }
  destruct (Hok 0 ltac:(lia)) as [H0 Hj0]. rewrite Z.mul_0_l, Z.sub_0_r in H0. rewrite H0.
  cbn [mbind option_bind]. rewrite sint_32 by lia. case_decide as Hj.
  - destruct (lt1 _ _) eqn:Hlt.
    { eexists. split; [done|]. right. exists 0. split_and!; try done; try lia. by left. }
    destruct (IH (packet - unit) (new_size 0 - file_size) (Some (packet, new_size 0)) Hok') as (r & -> & IHr).
    exists r. split; [done|]. destruct r as [[q size]|]; [|by destruct IHr].
    destruct IHr as [[[= <- <-] Hall]|(k & Hk & -> & -> & Hle & Hb)]; right; [exists 0|exists (k + 1)];
      rewrite ?Hstep in *; (do 4 (split; [first [lia|done]|])).
    + right. apply range_S; [lia|]. intros k' Hk'. specialize (Hall k' Hk'). rewrite Hstep in Hall. lia.
    + destruct Hb as [?|Hb]; [by left|right]. apply range_S; [lia|]. intros k' Hk'. specialize (Hb k' Hk'). by rewrite ?Hstep in Hb.
  - destruct (IH (packet - unit) smallest best Hok') as (r & -> & IHr). exists r. split; [done|].
    destruct r as [[q size]|].
    + destruct IHr as [[Hb Hall]|(k & Hk & -> & -> & Hle & Hb)].
      * left. split; [done|]. apply range_S; [lia|]. intros k Hk. rewrite <- Hstep. by apply Hall.
      * right. exists (k + 1). rewrite Hstep in *. do 4 (split; [first [lia|done]|]).
        destruct Hb as [?|Hb]; [by left|right]. apply range_S; [lia|]. intros k' Hk'. specialize (Hb k' Hk'). by rewrite ?Hstep in Hb.
    + destruct IHr as [? Hall]. split; [done|]. apply range_S; [lia|]. intros k Hk. rewrite <- Hstep. by apply Hall.
Qed.

Lemma gen_word_spec meth data w w' unit :
  gen_word meth data w = Some (w', unit) → (w = -1 ∨ w' = w) ∧ (unit = 8 ∨ unit = 1 ∧ w' = 8 ∧ meth = RAID4).
Proof. unfold gen_word. intros H. repeat case_decide; simplify_eq; lia. Qed.

Lemma prime_loop_pos w which l : ∀ p, 2 ≤ p → Forall (λ q, 2 ≤ q) l → 2 ≤ prime_loop w which p l.
Proof. induction l as [|q l IH]; intros p Hp Hl; simpl; [done|]. apply Forall_cons in Hl as []. repeat case_decide; auto. Qed.
Lemma nearest_prime_pos w which : 2 ≤ nearest_prime w which.
Proof. apply prime_loop_pos; [lia|]. by apply (bool_decide_unpack _); vm_compute. Qed.

Lemma gen_word_pos meth data w w' unit :
  gen_word meth data w = Some (w', unit) → w = -1 ∨ 0 < w → 0 < w'.
Proof.
  unfold gen_word. intros H Hw. pose proof (nearest_prime_pos (Z.of_nat data + 1) 1).
  pose proof (nearest_prime_pos (Z.of_nat data) 1). repeat case_decide; simplify_eq; lia.
Qed.

Lemma gen_validate_spec meth data parity w unit low high r :
  gen_validate meth data parity w unit low high = Some r →
  0 ≤ meth < N_JE_METHODS ∧ (r = (unit, low, high) ∨ r = (1, 0, 1)).
Proof.
  unfold gen_validate, REED_SOL_R6_OP, REED_SOL_VAN, CAUCHY_ORIG, CAUCHY_GOOD, BLAUM_ROTH, LIBERATION, LIBER8TION, RAID4, N_JE_METHODS.
  intros H. repeat case_decide; simplify_eq; (split; [lia|auto]).
Qed.

(** Rounding down keeps the sign and loses less than a unit. *)
Lemma round_unit_spec unit n : 0 < unit → 0 ≤ n → 0 ≤ round_unit unit n ≤ n ∧ n - unit < round_unit unit n.
Proof.
  intros Hu Hn. unfold round_unit. pose proof (Z.quot_rem' n unit). pose proof (Z.rem_bound_pos n unit Hn Hu).
  case_decide; [|lia]. pose proof (Z.quot_pos n unit Hn Hu). nia.
Qed.

(** The default range is not empty when the file has eight packets' worth of
    bytes. *)
Lemma gen_range_auto file_size w unit data low high :
  0 < w → unit = 8 ∨ unit = 1 → (0 < data)%nat → w * Z.of_nat data < 2 ^ 16 →
  8 * (w * unit * Z.of_nat data) ≤ file_size →
  gen_range file_size (-1) (-1) w unit data = (low, high) →
  0 ≤ low ∧ low ≤ high ∧ round_unit unit low < round_unit unit high ∧
  round_unit unit high ≤ 4096 ∧ w * unit * Z.of_nat data * round_unit unit high ≤ file_size.
Proof.
  intros Hw Hu8 Hd H16 Hsz. assert (0 < unit) as Hu by lia. unfold gen_range, gen_unit.
  assert (0 < w * unit * Z.of_nat data < 2 ^ 31) as Hd31 by nia. rewrite sint_32 by lia.
  set (d := w * unit * Z.of_nat data) in *.
  assert (0 < d) by (unfold d; nia). set (strip := Z.quot file_size d).
  assert (strip = file_size / d) as Hs by (apply Z.quot_div_nonneg; lia).
  assert (8 ≤ strip) by (rewrite Hs; apply Z.div_le_lower_bound; lia).
  assert (d * strip ≤ file_size) as Hle by (rewrite Hs; apply Z.mul_div_le; lia).
  destruct (decide (strip < 4 * 1024)) as [Hc|Hc];
    [rewrite !sint_32 by (pose proof (Z.quot_div_nonneg strip 4 ltac:(lia) ltac:(lia));
       pose proof (Z.div_pos strip 4); pose proof (Z.div_le_upper_bound strip 4 strip); lia)|];
    rewrite !(decide_True (P := -1 < 0)) by lia; intros [= <- <-].
  - assert (Z.quot strip 4 = strip / 4) as Hq by (apply Z.quot_div_nonneg; lia).
    pose proof (Z.div_mod strip 4 ltac:(lia)). pose proof (Z.mod_pos_bound strip 4 ltac:(lia)).
    pose proof (round_unit_spec unit strip Hu ltac:(lia)) as [Hh1 Hh2].
    pose proof (round_unit_spec unit (Z.quot strip 4) Hu ltac:(lia)) as [Hl1 Hl2].
    assert (8 ≤ round_unit unit strip) as Hbig.
    { destruct Hu8 as [->| ->]; [|lia]. unfold round_unit.
      pose proof (Z.quot_rem' strip 8). pose proof (Z.rem_bound_pos strip 8 ltac:(lia) ltac:(lia)). case_decide; lia. }
    split_and!; [lia|lia| |lia|nia]. destruct Hu8 as [->| ->]; [|lia].
    destruct (decide (strip < 32)); [|lia].
    assert (strip / 4 < 8) by (apply Z.div_lt_upper_bound; lia).
    assert (round_unit 8 (Z.quot strip 4) = 0) as ->; [|lia].
    unfold round_unit. rewrite (Z.rem_small (Z.quot strip 4)), (Z.quot_small (Z.quot strip 4)) by lia. case_decide; lia.
  - pose proof (round_unit_spec unit 4096 Hu ltac:(lia)). pose proof (round_unit_spec unit 512 Hu ltac:(lia)).
    split_and!; [lia|lia|lia|lia|]. transitivity (d * strip); [|done]. nia.
Qed.

(** The sizes a plan is generated with. *)
Record plan_sizes (file_size meth : Z) (data parity : nat) (p : erasure_plan) : Prop := {
  plan_method : method p = meth;
  plan_strips : data_strips p = data ∧ parity_strips p = parity;
  plan_covers : file_size ≤ strip_size p * Z.of_nat data;
  plan_whole : (Z.of_nat data * plan_w p * packet_size p * base_unit p | strip_size p * Z.of_nat data);
  plan_excess : strip_size p * Z.of_nat data - file_size < Z.of_nat data * plan_w p * packet_size p * base_unit p;
  plan_unformed : encode_matrix p = None ∧ encode_bitmatrix p = None ∧ encode_schedule p = None }.

Lemma gen_steps_spec low high unit k :
  0 < unit → 0 ≤ k < Z.of_nat (gen_steps low high unit) ↔ 0 ≤ k ∧ low < high - k * unit.
Proof.
  intros Hu. unfold gen_steps. pose proof (Z.div_mod (high - low + unit - 1) unit ltac:(lia)) as Hd.
  pose proof (Z.mod_pos_bound (high - low + unit - 1) unit Hu). split.
  - intros [Hk Hlt]. split; [done|]. destruct (decide (0 ≤ (high - low + unit - 1) / unit)); nia.
  - intros [Hk Hlt]. split; [done|]. nia.
Qed.

(** The whole search, when no product wraps around and the file has a packet of
    the largest size: it finds a size. *)
Lemma gen_search_spec lt1 file_size w u data l h :
  0 < w → 0 < u ≤ 8 → (0 < data)%nat → w * Z.of_nat data < 2 ^ 16 → 0 ≤ l < h → h ≤ 4096 →
  w * u * Z.of_nat data * h ≤ file_size → 10 * file_size < 2 ^ 63 →
  let new_size k := default 0 (gen_new_size file_size w (h - k * u) u data) in
  ∃ k, 0 ≤ k ∧ l < h - k * u ∧
    gen_loop lt1 (gen_steps l h u) file_size w u h (sint 64 (10 * file_size)) data None = Some (Some (h - k * u, new_size k)) ∧
    (file_size ≤ new_size k ∧ new_size k - file_size < Z.of_nat data * w * (h - k * u) * u ∧
     (Z.of_nat data * w * (h - k * u) * u | new_size k)) ∧
    (lt1 (new_size k - file_size) file_size = true ∨
     ∀ k', 0 ≤ k' → l < h - k' * u →
       ∃ size, gen_new_size file_size w (h - k' * u) u data = Some size ∧ new_size k ≤ size).
Proof.
  intros Hw Hu Hd H16 Hl Hh Hfit H63 new_size. set (d := w * Z.of_nat data) in *.
  assert (0 < d) by (unfold d; lia). replace (w * u * Z.of_nat data) with (d * u) in Hfit by (unfold d; lia).
  assert (∀ k, 0 ≤ k → l < h - k * u →
    gen_new_size file_size w (h - k * u) u data = Some (new_size k) ∧
    file_size ≤ new_size k ∧ new_size k - file_size < Z.of_nat data * w * (h - k * u) * u ∧
    (Z.of_nat data * w * (h - k * u) * u | new_size k) ∧
    Z.of_nat data * w * (h - k * u) * u ≤ d * u * h ∧ d * u * h < 2 ^ 31) as Hsize.
  { intros k Hk Hlk. assert (0 ≤ k * u) by lia.
    replace (Z.of_nat data * w * (h - k * u) * u) with (d * u * (h - k * u)) by (unfold d; lia).
    assert (0 < d * u ≤ d * 8) by nia. assert (d * u * h < 2 ^ 31) by nia.
    assert (0 < d * u * (h - k * u) ≤ d * u * h) by nia.
    pose proof (gen_new_size_spec file_size w (h - k * u) u data) as Hs. cbv zeta in Hs.
    replace (Z.of_nat data * w * (h - k * u) * u) with (d * u * (h - k * u)) in Hs by (unfold d; lia).
    destruct Hs as (size & Hs & ?); [lia..|]. unfold new_size. rewrite Hs. simpl. split; [done|]. split_and!; naive_solver lia. }
  assert (∀ k, 0 ≤ k < Z.of_nat (gen_steps l h u) ↔ 0 ≤ k ∧ l < h - k * u) as Hst by (intros k; apply gen_steps_spec; lia).
  assert (0 < d * u * h) by (repeat apply Z.mul_pos_pos; lia). rewrite sint_64 by lia.
  destruct (gen_loop_spec lt1 file_size w u data (gen_steps l h u) h (10 * file_size) None) as (r & -> & Hr).
  { intros k Hk%Hst. destruct (Hsize k) as (? & ? & ? & _ & ? & ?); [tauto..|]. split; [done|]. fold (new_size k). lia. }
  destruct r as [[q size]|].
  - destruct Hr as [[? _]|(k & Hk & -> & -> & _ & Hbest)]; [done|]. apply Hst in Hk as [Hk Hlk]. exists k.
    destruct (Hsize k Hk Hlk) as (_ & ? & ? & ? & _). split_and!; try done.
    destruct Hbest as [?|Hb]; [by left|right]. intros k' Hk' Hlk'. exists (new_size k'). split; [by apply Hsize|].
    apply Hb. by apply Hst.
  - exfalso. destruct Hr as [_ Hall]. specialize (Hall 0). rewrite Hst in Hall.
    destruct (Hsize 0) as (_ & ? & ? & _ & ? & ?); [lia..|]. specialize (Hall ltac:(lia)). fold (new_size 0) in Hall. nia.
Qed.

(** The range plays no part in the validation when it is in whole units. *)
Lemma gen_validate_range meth data parity w unit low high :
  meth = RAID4 ∨ Z.rem high 8 = 0 →
  match gen_validate meth data parity w unit 0 0 with
  | None => gen_validate meth data parity w unit low high = None
  | Some _ => gen_validate meth data parity w unit low high = Some (if decide (meth = RAID4) then (1, 0, 1) else (unit, low, high))
  end.
Proof.
  intros Hh. unfold gen_validate. rewrite (Z.rem_0_l 8) by lia.
  unfold REED_SOL_R6_OP, REED_SOL_VAN, CAUCHY_ORIG, CAUCHY_GOOD, BLAUM_ROTH, LIBERATION, LIBER8TION, RAID4 in *.
  repeat case_decide; try done; lia.
Qed.

Lemma round_unit_whole n : Z.rem (round_unit 8 n) 8 = 0.
Proof.
  unfold round_unit. case_decide as Hd; [|lia]. rewrite Z.rem_mul; lia.
Qed.

(** C31: With the word size and the packet range left to the function, at
    least 64 words of data per strip, and so few strips that no product leaves
    an [int] (fewer than 65536 words in a row), the outcome is never undefined:
    a method that does not support the numbers of strips is rejected, any other
    gets a plan.  The plan covers the file with strips of whole packets and
    wastes less than a packet on each; the file grows by less than a percent, or
    to the least of the sizes of all the packet sizes tried. *)
Theorem et_generate_plan_correct lt1 file_size meth data parity w unit :
  (0 < data)%nat → gen_word meth data (-1) = Some (w, unit) →
  w * Z.of_nat data < 2 ^ 16 → 64 * (w * Z.of_nat data) ≤ file_size → 10 * file_size < 2 ^ 63 →
  match gen_validate meth data parity w unit 0 0 with
  | None => et_generate_plan lt1 file_size meth data parity (-1) (-1) (-1) = Gen_null
  | Some _ => ∃ p low high, et_generate_plan lt1 file_size meth data parity (-1) (-1) (-1) = Gen_plan p ∧
      plan_sizes file_size meth data parity p ∧ low < packet_size p ≤ high ∧
      (lt1 (strip_size p * Z.of_nat data - file_size) file_size = true ∨
       ∀ k, 0 ≤ k → low < high - k * base_unit p →
         ∃ size, gen_new_size file_size (plan_w p) (high - k * base_unit p) (base_unit p) data = Some size ∧
           strip_size p * Z.of_nat data ≤ size)
  end.
Proof.
  intros Hd Hgw H16 Hsz H63. pose proof (gen_word_pos _ _ _ _ _ Hgw ltac:(lia)) as Hw. assert (0 < file_size) as Hf by nia.
  pose proof (gen_word_spec _ _ _ _ _ Hgw) as [_ Hu].
  unfold et_generate_plan. rewrite Hgw, decide_False by (unfold gen_unit; rewrite sint_32; nia).
  destruct (gen_range file_size (-1) (-1) w unit data) as [low high] eqn:Hgr.
  destruct (gen_range_auto file_size w unit data low high Hw ltac:(tauto) Hd H16 ltac:(destruct Hu as [->|[-> _]]; nia) Hgr) as (Hl & Hlh & Hr & Hr4 & Hfit).
  rewrite decide_False by lia.
  pose proof (gen_validate_range meth data parity w unit (round_unit unit low) (round_unit unit high)) as Hval.
  destruct (gen_validate meth data parity w unit 0 0) as [r0|] eqn:Hv0.
  2: { rewrite Hval; [done|]. destruct Hu as [->|(_ & _ & ?)]; [right; apply round_unit_whole|by left]. }
  rewrite Hval by (destruct Hu as [->|(_ & _ & ?)]; [right; apply round_unit_whole|by left]). clear Hval.
  apply gen_validate_spec in Hv0 as [Hmeth _].
  assert (∃ u l h, (if decide (meth = RAID4) then (1, 0, 1) else (unit, round_unit unit low, round_unit unit high)) = (u, l, h) ∧
    0 < u ≤ 8 ∧ 0 ≤ l < h ∧ h ≤ 4096 ∧ w * u * Z.of_nat data * h ≤ file_size) as (u & l & h & -> & Hu' & Hlh' & Hh & Hfit').
  { case_decide; do 3 eexists; (split; [done|]); [split_and!; nia|]. split; [lia|]. split; [|done].
    split; [|done]. apply round_unit_spec; lia. }
  destruct (gen_search_spec lt1 file_size w u data l h) as (k & Hk & Hlk & -> & (H1 & H2 & c & H3) & Hbest); [nia..|].
  set (size := default 0 _) in *. unfold et_new_plan. rewrite !decide_False by lia. eexists _, l, h. split; [done|].
  assert (Z.quot size (Z.of_nat data) * Z.of_nat data = size) as Hq.
  { rewrite H3. replace (c * _) with (c * w * (h - k * u) * u * Z.of_nat data) by lia. by rewrite Z.quot_mul by lia. }
  split; [split; simpl; rewrite ?Hq; try done; by exists c|]. simpl. rewrite Hq. pose proof (Z.mul_nonneg_nonneg k u ltac:(lia) ltac:(lia)).
  split; [lia|done].
Qed.

(** ** Which matrices a plan has *)
Section matrices.
Context `{!Jerasure}.
Implicit Types p : erasure_plan.

Definition plan_fresh p : Prop := encode_matrix p = None ∧ encode_bitmatrix p = None ∧ encode_schedule p = None.

(** The library builds every matrix it is asked for. *)
Definition library_builds : Prop :=
  (∀ k w, is_Some (reed_sol_r6_coding_matrix k w)) ∧
  (∀ k m w, is_Some (reed_sol_vandermonde_coding_matrix k m w)) ∧
  (∀ k m w, is_Some (cauchy_original_coding_matrix k m w)) ∧
  (∀ k m w, is_Some (cauchy_good_general_coding_matrix k m w)) ∧
  (∀ k w, is_Some (blaum_roth_coding_bitmatrix k w)) ∧
  (∀ k w, is_Some (liberation_coding_bitmatrix k w)) ∧
  (∀ k, is_Some (liber8tion_coding_bitmatrix k)) ∧
  (∀ k m w mat, is_Some mat → is_Some (jerasure_matrix_to_bitmatrix k m w mat)) ∧
  (∀ k m w bm, is_Some bm → is_Some (jerasure_smart_bitmatrix_to_schedule k m w bm)).

(** The methods that encode through a schedule. *)
Definition by_schedule (meth : Z) : Prop :=
  meth = CAUCHY_ORIG ∨ meth = CAUCHY_GOOD ∨ meth = BLAUM_ROTH ∨ meth = LIBERATION ∨ meth = LIBER8TION.
#[export] Instance by_schedule_dec meth : Decision (by_schedule meth).
Proof. unfold by_schedule. apply _. Defined.

(** What encoding and decoding read. *)
Definition plan_encodes p : Prop :=
  if decide (by_schedule (method p)) then is_Some (encode_schedule p)
  else if decide (method p = REED_SOL_VAN) then is_Some (encode_matrix p) else True.
Definition plan_decodes p : Prop :=
  if decide (by_schedule (method p)) then is_Some (encode_bitmatrix p)
  else if decide (method p = REED_SOL_VAN ∨ method p = REED_SOL_R6_OP) then is_Some (encode_matrix p) else True.

(** Forming a coding matrix twice is forming it once, and it leaves the schedule
    alone. *)
Definition coding_once (formed : erasure_plan → option (list Z)) (coding : erasure_plan → Z * erasure_plan) : Prop :=
  (∀ p, is_Some (formed p) → (coding p).2 = p) ∧
  ∀ p, plan_fresh p → let p1 := (coding p).2 in
    is_Some (formed p1) ∧ is_Some (encode_bitmatrix p1) ∧ encode_schedule p1 = None ∧ method p1 = method p ∧
    ∀ s, formed (plan_set_matrices p1 (encode_matrix p1) (encode_bitmatrix p1) s) = formed p1.

Lemma coding_once_order formed coding p :
  library_builds → coding_once formed coding → plan_fresh p → formed p = None →
  let ed := (coding (form_schedule formed coding p).2).2 in
  let de := (form_schedule formed coding (coding p).2).2 in
  is_Some (encode_schedule ed) ∧ is_Some (encode_bitmatrix ed) ∧ method ed = method p ∧
  encode_schedule de = None ∧ method de = method p.
Proof.
  intros (_ & _ & _ & _ & _ & _ & _ & _ & Hl) [Honce Hfresh] Hp Hf ed de.
  specialize (Hfresh p Hp). cbv zeta in Hfresh. destruct Hfresh as (H1 & H2 & H3 & H4 & H5).
  assert (de = (coding p).2) as -> by (unfold de, form_schedule; by destruct H1 as [? ->]).
  unfold ed, form_schedule. rewrite Hf. cbn [snd]. rewrite Honce by by rewrite H5.
  cbn. split_and!; auto.
Qed.

Lemma cauchy_coding_once mat :
  library_builds → (∀ k m w, is_Some (mat k m w)) → coding_once encode_matrix (cauchy_form_coding_matrix mat).
Proof.
  intros (_ & _ & _ & _ & _ & _ & _ & Hl & _) Hmat. split.
  - intros p [x Hx]. unfold cauchy_form_coding_matrix. by rewrite Hx.
  - intros p (Hm & _ & Hs). unfold cauchy_form_coding_matrix. rewrite Hm. cbn. split_and!; auto.
Qed.

Lemma bitmatrix_coding_once bm :
  (∀ p, is_Some (bm p)) → coding_once encode_bitmatrix (bitmatrix_form_coding_matrix bm).
Proof.
  intros Hbm. split.
  - intros p [x Hx]. unfold bitmatrix_form_coding_matrix. by rewrite Hx.
  - intros p (_ & Hb & Hs). unfold bitmatrix_form_coding_matrix. rewrite Hb. cbn. split_and!; auto.
Qed.

Lemma by_schedule_encode p ptr n :
  by_schedule (method p) → encode_schedule p = None → encode_block p ptr n = None.
Proof.
  intros Hm Hs. unfold encode_block, schedule_encode_block. rewrite Hs.
  unfold by_schedule, CAUCHY_ORIG, CAUCHY_GOOD, BLAUM_ROTH, LIBERATION, LIBER8TION in Hm.
  unfold REED_SOL_R6_OP, REED_SOL_VAN, RAID4. repeat case_decide; try done; lia.
Qed.

(** Both orders for the methods with a schedule. *)
Lemma schedule_plan_order formed coding p :
  library_builds → coding_once formed coding → plan_fresh p → formed p = None → by_schedule (method p) →
  (∀ q, method q = method p → form_encoding_matrix q = form_schedule formed coding q ∧ form_decoding_matrix q = coding q) →
  let ed := (form_decoding_matrix (form_encoding_matrix p).2).2 in
  let de := (form_encoding_matrix (form_decoding_matrix p).2).2 in
  (plan_encodes ed ∧ plan_decodes ed) ∧ (by_schedule (method p) → ∀ ptr n, encode_block de ptr n = None).
Proof.
  intros Hl Honce Hp Hf Hby Hq ed de.
  destruct (coding_once_order formed coding p Hl Honce Hp Hf) as (H1 & H2 & H3 & H4 & H5).
  destruct (Hq p eq_refl) as [Hqe Hqd].
  assert (method (form_schedule formed coding p).2 = method p) as Hms.
  { destruct Honce as [_ Hfresh]. unfold form_schedule. rewrite Hf. cbn. by apply Hfresh. }
  assert (method (coding p).2 = method p) as Hmc by (by apply Honce).
  unfold ed, de. rewrite Hqe, Hqd. destruct (Hq _ Hms) as [_ ->]. destruct (Hq _ Hmc) as [-> _].
  split; [|intros _ ptr n; apply by_schedule_encode; congruence].
  unfold plan_encodes, plan_decodes. by rewrite H3, !decide_True by done.
Qed.

(** On a fresh plan, forming the encoding matrix and then the decoding
    matrix provides all that encoding and decoding a block read.  In the other
    order the methods that encode through a schedule are left without one, and
    encoding a block reads a null pointer. *)
Theorem plan_matrices_order p :
  plan_fresh p → library_builds → 0 ≤ method p < N_JE_METHODS →
  let ed := (form_decoding_matrix (form_encoding_matrix p).2).2 in
  let de := (form_encoding_matrix (form_decoding_matrix p).2).2 in
  (plan_encodes ed ∧ plan_decodes ed) ∧
  (by_schedule (method p) → ∀ ptr n, encode_block de ptr n = None).
Proof.
  intros Hp Hl Hr ed de. pose proof Hp as (Hm & Hb & _). pose proof Hl as (L1 & L2 & L3 & L4 & L5 & L6 & L7 & _).
  unfold N_JE_METHODS in Hr. destruct (decide (by_schedule (method p))) as [Hby|Hby].
  - pose proof Hby as Hmeth. unfold by_schedule in Hmeth. destruct_or! Hmeth;
      [apply (schedule_plan_order encode_matrix cauchy_orig_form_coding_matrix)
      |apply (schedule_plan_order encode_matrix cauchy_good_form_coding_matrix)
      |apply (schedule_plan_order encode_bitmatrix blaum_roth_form_coding_matrix)
      |apply (schedule_plan_order encode_bitmatrix liberation_form_coding_matrix)
      |apply (schedule_plan_order encode_bitmatrix liber8tion_form_coding_matrix)]; try done;
      try (by apply cauchy_coding_once); try (apply bitmatrix_coding_once; by intros);
      intros q Hq; unfold form_encoding_matrix, form_decoding_matrix; rewrite Hq, Hmeth; done.
  - split; [|done]. unfold ed, de. clear ed de. unfold by_schedule, CAUCHY_ORIG, CAUCHY_GOOD, BLAUM_ROTH, LIBERATION, LIBER8TION in Hby.
    assert (method p = REED_SOL_VAN ∨ method p = REED_SOL_R6_OP ∨ method p = RAID4) as Hmeth
      by (unfold REED_SOL_VAN, REED_SOL_R6_OP, RAID4; lia).
    destruct p as [strip meth k m w packet unit mat bm sched]. simpl in *. subst mat.
    destruct (L1 k w) as [x1 E1], (L2 k m w) as [x2 E2].
    destruct_or! Hmeth; subst meth; split;
      lazy -[reed_sol_r6_coding_matrix reed_sol_vandermonde_coding_matrix is_Some]; rewrite ?E1, ?E2;
      lazy -[is_Some]; done.
Qed.
End matrices.
