(* ===== verification/ErasureCode.v ===== *)
(** * The contract of an erasure plan

    What the erasure-coded segment relies on when it encodes and decodes the
    chunks of a stripe: the plan's data and parity chunks form a code in which
    any [data_strips] chunks determine the others.  Mirroring, with the
    library's matrix entry points instantiated, meets the contract; RAID4 as
    the code has it does not, because its decoder does not rebuild a lost
    parity chunk. *)
From S2P Require Import Prelude Raid4 Erasure.
#[local] Open Scope Z_scope.

Lemma filter_ext_in {A} (P Q : A → Prop) `{∀ x, Decision (P x), ∀ x, Decision (Q x)} (l : list A) :
  (∀ x, x ∈ l → P x ↔ Q x) → filter P l = filter Q l.
Proof.
  induction l as [|x l IH]; intros HPQ; [done|]. rewrite !filter_cons, IH by (intros; apply HPQ; by right).
  specialize (HPQ x ltac:(by left)). repeat case_decide; tauto.
Qed.

(** ** Stripes and codewords *)
Section code.
Context `{!Jerasure}.
Context (p : erasure_plan) (bs : nat).

Definition n_strips : nat := data_strips p + parity_strips p.

Definition stripe_ok (x : list chunk) : Prop := length x = n_strips ∧ Forall (λ c, length c = bs) x.

Definition codeword (c : list chunk) : Prop := stripe_ok c ∧ encode_block p c bs = Some c.

(** The chunk numbers selected by [bad], in order, and the array passed to the
    decoder. *)
Definition erased (bad : nat → bool) : list nat := filter (λ i, bad i = true) (seq 0 n_strips).
Definition erasure_list (bad : nat → bool) : list Z := (Z.of_nat <$> erased bad) ++ [-1].

Definition agree_off (bad : nat → bool) (x y : list chunk) : Prop :=
  ∀ i, (i < n_strips)%nat → bad i = false → x !! i = y !! i.

(** Encoding keeps the data and depends on nothing else; decoding rewrites only
    the erased chunks, and gives the codeword the others belong to; any
    [parity_strips] chunks can be chosen to complete the rest to a codeword. *)
Class MdsPlan : Prop := {
  mds_encode x : stripe_ok x →
    ∃ y, encode_block p x bs = Some y ∧ stripe_ok y ∧ take (data_strips p) y = take (data_strips p) x;
  mds_encode_data x y : stripe_ok x → stripe_ok y → take (data_strips p) x = take (data_strips p) y →
    encode_block p x bs = encode_block p y bs;
  mds_decode x bad : stripe_ok x → (0 < length (erased bad) ≤ parity_strips p)%nat →
    ∃ r y, decode_block p x bs (erasure_list bad) = Some (r, y) ∧ stripe_ok y ∧ agree_off bad x y;
  mds_decode_code x c bad r y : stripe_ok x → codeword c → (0 < length (erased bad) ≤ parity_strips p)%nat →
    agree_off bad x c → decode_block p x bs (erasure_list bad) = Some (r, y) → y = c;
  mds_complete x bad : stripe_ok x → length (erased bad) = parity_strips p → ∃ c, codeword c ∧ agree_off bad x c }.

Lemma agree_off_trans bad x y z : agree_off bad x y → agree_off bad y z → agree_off bad x z.
Proof. intros Hxy Hyz i Hi Hb. by rewrite Hxy, Hyz. Qed.

Lemma agree_off_sym bad x y : agree_off bad x y → agree_off bad y x.
Proof. intros Hxy i Hi Hb. by rewrite Hxy. Qed.

Lemma agree_off_weaken bad bad' x y :
  (∀ i, bad' i = false → bad i = false) → agree_off bad x y → agree_off bad' x y.
Proof. intros Hb Hxy i Hi Hb'. apply Hxy; auto. Qed.

Lemma agree_off_none bad x y :
  length (erased bad) = 0%nat → stripe_ok x → stripe_ok y → agree_off bad x y → x = y.
Proof.
  intros He [Hx _] [Hy _] Hxy. apply list_eq. intros i. destruct (decide (i < n_strips)%nat) as [Hi|Hi].
  - apply Hxy; [done|]. destruct (bad i) eqn:Hb; [|done]. apply nil_length_inv in He.
    assert (i ∈ erased bad) as Hin by (apply list_elem_of_filter; split; [done|apply elem_of_seq; lia]).
    rewrite He in Hin. by apply not_elem_of_nil in Hin.
  - rewrite !lookup_ge_None_2 by lia. done.
Qed.

(** Two codewords that differ in no more than [parity_strips] chunks are one. *)
Lemma codeword_unique `{!MdsPlan} c1 c2 bad :
  codeword c1 → codeword c2 → (length (erased bad) ≤ parity_strips p)%nat → agree_off bad c1 c2 → c1 = c2.
Proof.
  intros H1 H2 Hlen Hag. destruct (decide (length (erased bad) = 0%nat)) as [He|He].
  { apply (agree_off_none bad); [done|apply H1|apply H2|done]. }
  destruct (mds_decode c1 bad) as (r & y & Hd & _); [apply H1|lia|].
  rewrite <- (mds_decode_code c1 c2 bad r y), <- (mds_decode_code c1 c1 bad r y); try done; try lia; apply H1.
Qed.

Lemma encode_codeword `{!MdsPlan} x y : stripe_ok x → encode_block p x bs = Some y → codeword y.
Proof.
  intros Hx He. destruct (mds_encode x Hx) as (y' & He' & Hy & Hd). simplify_eq. split; [done|].
  rewrite <- He. by apply mds_encode_data.
Qed.

(** ** Counting erased chunks *)
Lemma erased_length_le bad bad' :
  (∀ i, (i < n_strips)%nat → bad i = true → bad' i = true) → (length (erased bad) ≤ length (erased bad'))%nat.
Proof.
  unfold erased. intros Hb. assert (∀ i, i ∈ seq 0 n_strips → (i < n_strips)%nat) as Hs by (intros i Hi%elem_of_seq; lia).
  induction (seq 0 n_strips) as [|i l IH]; [done|]. rewrite !filter_cons.
  specialize (IH ltac:(intros j Hj; apply Hs; by right)). specialize (Hb i (Hs i ltac:(by left))).
  repeat case_decide; simpl; try lia. tauto.
Qed.

Lemma erased_length_union bad bad' :
  (length (erased (λ i, bad i || bad' i)) ≤ length (erased bad) + length (erased bad'))%nat.
Proof.
  unfold erased. induction (seq 0 n_strips) as [|i l IH]; [simpl; lia|]. rewrite !filter_cons.
  destruct (bad i), (bad' i); simpl; repeat case_decide; simpl; try done; try lia.
Qed.

Lemma erased_length_total bad : (length (erased bad) + length (erased (λ i, negb (bad i))) = n_strips)%nat.
Proof.
  unfold erased. rewrite <- (length_seq n_strips 0) at 3. induction (seq 0 n_strips) as [|i l IH]; [done|].
  rewrite !filter_cons. destruct (bad i); simpl; repeat case_decide; simpl; try done; lia.
Qed.

Lemma erased_ext bad bad' : (∀ i, (i < n_strips)%nat → bad i = bad' i) → erased bad = erased bad'.
Proof.
  intros Hb. apply filter_ext_in. intros i Hi%elem_of_seq. rewrite Hb by lia. done.
Qed.
End code.

(** ** Mirroring

    One data strip, copied to every parity strip: the matrix entry points of a
    library for that case. *)
Section mirror.

(** The first chunk that is not erased, in place of the erased ones. *)
Definition mirror_rebuild (erasures : list Z) (l : list chunk) : list chunk :=
  let good := filter (λ i, Z.of_nat i ∉ erasures) (seq 0 (length l)) in
  let c := default [] (hd_error good ≫= λ i, l !! i) in
  imap (λ i x, if decide (Z.of_nat i ∈ erasures) then c else x) l.

#[local] Instance mirror_jerasure : Jerasure := {|
  reed_sol_r6_coding_matrix _ _ := Some [];
  reed_sol_vandermonde_coding_matrix _ _ _ := Some [];
  cauchy_original_coding_matrix _ _ _ := Some [];
  cauchy_good_general_coding_matrix _ _ _ := Some [];
  blaum_roth_coding_bitmatrix _ _ := Some [];
  liberation_coding_bitmatrix _ _ := Some [];
  liber8tion_coding_bitmatrix _ := Some [];
  jerasure_matrix_to_bitmatrix _ _ _ _ := Some [];
  jerasure_smart_bitmatrix_to_schedule _ _ _ _ := Some [];
  reed_sol_r6_encode _ _ data coding _ := const (hd [] data) <$> coding;
  jerasure_matrix_encode _ _ _ _ data coding _ := const (hd [] data) <$> coding;
  jerasure_schedule_encode _ _ _ _ data coding _ _ := const (hd [] data) <$> coding;
  jerasure_matrix_decode k _ _ _ erasures data coding _ :=
    let l := mirror_rebuild erasures (data ++ coding) in (0, take k l, drop k l);
  jerasure_schedule_decode_lazy k _ _ _ erasures data coding _ _ :=
    let l := mirror_rebuild erasures (data ++ coding) in (0, take k l, drop k l) |}.

Lemma mirror_library_builds : library_builds.
Proof. by repeat split. Qed.

(** The plan for [m] copies. *)
Definition mirror_plan (m : nat) : erasure_plan := Erasure_plan 1 REED_SOL_VAN 1 m 8 1 1 (Some []) None None.

Context (m bs : nat).

Lemma mirror_decode x erasures :
  decode_block (mirror_plan m) x bs erasures = Some (0, mirror_rebuild erasures x).
Proof. unfold decode_block, matrix_decode_block. simpl. by rewrite !take_drop. Qed.

Lemma mirror_encode d l : encode_block (mirror_plan m) (d :: l) bs = Some (d :: (const d <$> l)).
Proof. done. Qed.

Lemma mirror_codeword c : codeword (mirror_plan m) bs c ↔ ∃ d, c = replicate (S m) d ∧ length d = bs.
Proof.
  unfold codeword, stripe_ok, n_strips. simpl. split.
  - intros [[Hl Hf] He]. destruct c as [|d l]; [done|]. rewrite mirror_encode in He. injection He as He.
    apply Forall_cons in Hf as [Hd _]. exists d. split; [|done]. simpl. f_equal. injection Hl as Hl.
    transitivity (const d <$> l); [done|]. rewrite <- Hl. clear. induction l as [|x l IH]; [done|]. simpl. f_equal. exact IH.
  - intros (d & -> & Hd). split; [split; [by simpl; rewrite length_replicate|by apply (Forall_replicate _ (S m))]|].
    change (replicate (S m) d) with (d :: replicate m d). rewrite mirror_encode. do 2 f_equal. by rewrite fmap_replicate.
Qed.

Lemma elem_of_erasure_list p bad i :
  (i < n_strips p)%nat → Z.of_nat i ∈ erasure_list p bad ↔ bad i = true.
Proof.
  intros Hi. unfold erasure_list, erased. rewrite elem_of_app, list_elem_of_fmap, list_elem_of_singleton.
  setoid_rewrite list_elem_of_filter. setoid_rewrite elem_of_seq. split.
  - intros [(j & Hj & Hb & _)|?]; [|lia]. by replace i with j by lia.
  - intros Hb. left. exists i. split_and!; [done|done|lia..].
Qed.

(** What rebuilding leaves at each place. *)
Lemma mirror_rebuild_lookup bad x i :
  length x = S m → (length (erased (mirror_plan m) bad) ≤ m)%nat →
  ∃ g cg, (g < S m)%nat ∧ bad g = false ∧ x !! g = Some cg ∧
    mirror_rebuild (erasure_list (mirror_plan m) bad) x !! i = (λ c, if bad i then cg else c) <$> x !! i.
Proof.
  intros Hx Hlen. unfold mirror_rebuild.
  set (good := filter (λ i, Z.of_nat i ∉ erasure_list (mirror_plan m) bad) (seq 0 (length x))).
  assert (∀ j, j ∈ good ↔ (j < S m)%nat ∧ bad j = false) as Hgood.
  { intros j. unfold good. rewrite list_elem_of_filter, elem_of_seq, Hx. split.
    - intros [Hj Hr]. split; [lia|]. rewrite elem_of_erasure_list in Hj by (simpl; unfold n_strips; simpl; lia). by destruct (bad j).
    - intros [Hj Hb]. rewrite elem_of_erasure_list by (simpl; unfold n_strips; simpl; lia). split; [by rewrite Hb|lia]. }
  destruct good as [|g good'] eqn:Eg.
  { exfalso. pose proof (erased_length_total (mirror_plan m) bad) as Ht. unfold n_strips in Ht. simpl in Ht.
    destruct (erased (mirror_plan m) (λ i, negb (bad i))) as [|j l] eqn:El; [simpl in Ht; lia|].
    assert (j ∈ erased (mirror_plan m) (λ i, negb (bad i))) as Hj by (rewrite El; by left).
    apply list_elem_of_filter in Hj as [Hb Hj%elem_of_seq]. unfold n_strips in Hj. simpl in Hj.
    apply (not_elem_of_nil j), Hgood. split; [lia|]. by destruct (bad j). }
  destruct (Hgood g) as [Hg _]. destruct Hg as [Hg Hb]; [by left|].
  destruct (lookup_lt_is_Some_2 x g) as [cg Hcg]; [lia|]. exists g, cg. split_and!; [done..|].
  simpl. rewrite Hcg. simpl. rewrite list_lookup_imap. destruct (x !! i) as [c|] eqn:Hi; [|done]. simpl.
  apply lookup_lt_Some in Hi. f_equal. destruct (bad i) eqn:Hbi.
  - apply decide_True. rewrite elem_of_erasure_list; [done|]. unfold n_strips. simpl. lia.
  - apply decide_False. rewrite elem_of_erasure_list; [by rewrite Hbi|]. unfold n_strips. simpl. lia.
Qed.

#[local] Instance mirror_mds : MdsPlan (mirror_plan m) bs.
Proof.
  split; unfold stripe_ok; change (n_strips (mirror_plan m)) with (S m).
  - intros [|d l] [Hl Hf]; [done|]. apply Forall_cons in Hf as [Hd Hf]. rewrite mirror_encode. eexists. split; [done|].
    split; [|done]. split; [by simpl; rewrite length_fmap|]. apply Forall_cons. split; [done|]. apply Forall_fmap.
    by eapply Forall_impl; [exact Hf|].
  - intros [|d l] [|e k] [Hl _] [Hk _]; try done. intros [= ->]. rewrite !mirror_encode. do 2 f_equal. simplify_eq/=.
    apply list_eq_same_length with (length l); rewrite ?length_fmap; try done; try lia.
    intros i c1 c2 _. rewrite !list_lookup_fmap. destruct (l !! i), (k !! i); simpl; try done. congruence.
  - intros x bad [Hx Hf] Hlen. rewrite mirror_decode. do 2 eexists. split; [done|]. split; [split|].
    + unfold mirror_rebuild. by rewrite length_imap.
    + apply Forall_lookup_2. intros i c. destruct (mirror_rebuild_lookup bad x i Hx ltac:(apply Hlen)) as (g & cg & _ & _ & Hg & ->).
      rewrite Forall_lookup in Hf. destruct (x !! i) as [ci|] eqn:Hi; [|done]. intros [= <-]. destruct (bad i); eauto.
    + intros i Hi Hb. destruct (mirror_rebuild_lookup bad x i Hx ltac:(apply Hlen)) as (g & cg & _ & _ & Hg & ->).
      rewrite Hb. by destruct (x !! i).
  - intros x c bad r y [Hx Hf] Hc Hlen Hag. rewrite mirror_decode. intros [= _ <-].
    apply mirror_codeword in Hc as (d & -> & Hd). apply list_eq. intros i.
    destruct (mirror_rebuild_lookup bad x i Hx ltac:(apply Hlen)) as (g & cg & Hg & Hbg & Hcg & ->).
    rewrite Hag in Hcg by done. rewrite lookup_replicate_2 in Hcg by done. injection Hcg as <-.
    destruct (decide (i < S m)%nat) as [Hi|Hi].
    + rewrite lookup_replicate_2 by done. destruct (lookup_lt_is_Some_2 x i) as [ci Hci]; [lia|].
      rewrite Hci. simpl. f_equal. destruct (bad i) eqn:Hb; [done|].
      rewrite Hag in Hci by done. rewrite lookup_replicate_2 in Hci by done. by injection Hci as <-.
    + rewrite (lookup_ge_None_2 x), (lookup_ge_None_2 (replicate _ _)); [done|rewrite length_replicate; lia|lia].
  - intros x bad [Hx Hf] Hlen. destruct (mirror_rebuild_lookup bad x 0 Hx ltac:(simpl in *; lia)) as (g & cg & Hg & Hbg & Hcg & _).
    exists (replicate (S m) cg). split; [apply mirror_codeword; exists cg; split; [done|]; by rewrite Forall_lookup in Hf; eauto|].
    intros i Hi Hb. rewrite lookup_replicate_2 by done.
    pose proof (erased_length_total (mirror_plan m) bad) as Ht. rewrite Hlen in Ht. unfold n_strips in Ht. simpl in Ht.
    assert (i = g) as ->; [|done].
    assert (∀ j, (j < S m)%nat → bad j = false → j ∈ erased (mirror_plan m) (λ i, negb (bad i))) as Hin.
    { intros j Hj Hbj. apply list_elem_of_filter. rewrite Hbj. split; [done|]. apply elem_of_seq. unfold n_strips. simpl. lia. }
    pose proof (Hin i Hi Hb) as Hi'. pose proof (Hin g Hg Hbg) as Hg'.
    destruct (erased (mirror_plan m) (λ i, negb (bad i))) as [|a [|b l]]; simpl in Ht; try lia.
    apply list_elem_of_singleton in Hi', Hg'. congruence.
Qed.
End mirror.

(** ** RAID4 *)
Section raid4.
Context `{!Jerasure}.

Definition raid4_plan (k : nat) : erasure_plan := Erasure_plan 1 RAID4 k 1 8 1 1 None None None.

Lemma raid4_parity_lost k x n : raid4_op_decode_block (raid4_plan k) x n [Z.of_nat k; -1] = Some (0, x).
Proof.
  unfold raid4_op_decode_block, raid4_decode. simpl. rewrite decide_True by lia. simpl. by rewrite take_drop.
Qed.

Lemma erasure_list_last k : erasure_list (raid4_plan k) (λ i, bool_decide (i = k)) = [Z.of_nat k; -1].
Proof.
  unfold erasure_list, erased, n_strips. simpl. replace (k + 1)%nat with (S k) by lia. rewrite seq_S, filter_app. simpl.
  assert (filter (λ i, bool_decide (i = k) = true) (seq 0 k) = []) as ->.
  { apply filter_nil_iff. intros i Hi%elem_of_seq. rewrite bool_decide_eq_true. lia. }
  simpl. rewrite filter_cons_True; [done|]. by apply bool_decide_eq_true.
Qed.

(** A RAID4 plan does not keep the contract: its decoder returns success
    when only the parity chunk is lost and leaves that chunk as it is, so a
    lost parity chunk is never rebuilt. *)
Theorem raid4_plan_not_mds k bs :
  (0 < k)%nat → (0 < bs)%nat →
  (∀ x n, decode_block (raid4_plan k) x n [Z.of_nat k; -1] = Some (0, x)) ∧ ¬ MdsPlan (raid4_plan k) bs.
Proof.
  intros Hk Hbs. split; [intros; by apply raid4_parity_lost|]. intros Hmds.
  set (x0 := replicate (S k) (replicate bs 0)).
  assert (stripe_ok (raid4_plan k) bs x0) as Hx0.
  { split; [unfold x0, n_strips; simpl; rewrite length_replicate; lia|]. unfold x0. apply Forall_replicate, length_replicate. }
  destruct (mds_encode _ _ x0 Hx0) as (c & Hc & Hok & _).
  pose proof (encode_codeword _ _ _ _ Hx0 Hc) as Hcw. pose proof Hok as [Hl Hf]. unfold n_strips in Hl. simpl in Hl.
  destruct (lookup_lt_is_Some_2 c k) as [d Hd]; [lia|].
  set (x := <[k := Z.succ <$> d]> c).
  assert (length d = bs) as Hlen by (by rewrite Forall_lookup in Hf; eauto).
  assert (stripe_ok (raid4_plan k) bs x) as Hx.
  { split; [unfold x; by rewrite length_insert|]. unfold x. apply Forall_insert; [done|]. by rewrite length_fmap. }
  assert (x = c) as Hxc.
  { apply (mds_decode_code _ _ x c (λ i, bool_decide (i = k)) 0); try done.
    - rewrite <- (length_fmap Z.of_nat). assert (erasure_list (raid4_plan k) (λ i, bool_decide (i = k)) = [Z.of_nat k; -1]) as He by apply erasure_list_last.
      unfold erasure_list in He. apply (f_equal length) in He. rewrite length_app in He. simpl in *. lia.
    - intros i Hi Hb. unfold x. apply list_lookup_insert_ne. by apply bool_decide_eq_false in Hb.
    - rewrite erasure_list_last. apply raid4_parity_lost. }
  assert (x !! k = Some (Z.succ <$> d)) as Hxk by (apply list_lookup_insert_eq; by apply lookup_lt_Some in Hd).
  rewrite Hxc, Hd in Hxk. injection Hxk as Hxk. destruct d as [|z d]; simpl in *; [lia|]. injection Hxk. lia.
Qed.
End raid4.
