(* ===== verification/JeraseSpec.v ===== *)
(** * Checking and repairing a stripe (segment_jerasure.c)

    [jerase_control_check] decides whether the chunks of a stripe belong
    together, by the stripe's checksum or by rebuilding good chunks and
    comparing; [jerase_brute_recovery] looks for the chunks that have to be
    rebuilt for the check to pass.

    The functions pass arrays of pointers to each other and swap single
    pointers for work buffers, and which buffer a decode writes into matters:
    buffers are addresses of a store of chunks, a pointer array is a list of
    addresses, and a [badmap] of zeros and ones a list of booleans. *)
From S2P Require Import Prelude Words Raid4 Erasure ErasureCode.
#[local] Open Scope Z_scope.

(** zlib's Adler-32: its start value and its step over a buffer. *)
Class Adler := { adler32_null : Z; adler32 : Z → list Z → Z }.

Definition JE_MAGIC_SIZE : nat := 4.

(** ** The store of chunks *)
Abbreviation chunk_mem := (list chunk).

Definition buffers (mem : chunk_mem) (ptr : list nat) : option (list chunk) := mapM (λ a, mem !! a) ptr.

(** The buffers [ptr] points to overwritten with [cs]. *)
Definition store_all (mem : chunk_mem) (ptr : list nat) (cs : list chunk) : chunk_mem :=
  foldr (λ '(a, c) mem, <[a := c]> mem) mem (zip ptr cs).

(** ** Checksums *)
Section cksum.
Context `{!Adler}.

Definition cksum_of (cs : list chunk) : list Z := le_bytes JE_MAGIC_SIZE (foldl adler32 adler32_null cs).

Definition je_cksum_calc (mem : chunk_mem) (ptr : list nat) : option (list Z) := cksum_of <$> buffers mem ptr.

Definition je_cksum_compare (magic : list Z) (mem : chunk_mem) (ptr : list nat) : option Z :=
  m ← je_cksum_calc mem ptr; Some (if decide (magic = m) then 0 else 1).
End cksum.

Section check.
Context `{!Jerasure, !Adler}.
Context (plan : erasure_plan) (chunk_size n_devs n_parity : nat).
Implicit Types (mem : chunk_mem) (ptr eptr pwork : list nat) (badmap : list bool) (magic : option (list Z)).

(** *** Choosing the chunks to rebuild

    The erasures and the control chunks so far, the pointers to decode through
    and [control_index]. *)
Record selection := Selection { sel_erasures : list Z; sel_control : list nat; sel_eptr : list nat; sel_index : Z }.

Definition sel_step magic (n_ctl_max : Z) pwork (s : selection) (dev : nat * bool) : option selection :=
  let '(i, bad) := dev in
  let n_control := length (sel_control s) in
  if decide ((bad = false ∧ Z.of_nat n_control < n_ctl_max ∧ sel_index s < Z.of_nat i) ∨ bad = true) then
    let er := sel_erasures s ++ [Z.of_nat i] in
    if decide (magic = None ∧ bad = false ∧ Z.of_nat n_control < n_ctl_max) then
      w ← pwork !! n_control;
      Some (Selection er (sel_control s ++ [i]) (<[i := w]> (sel_eptr s)) (Z.of_nat i))
    else Some (Selection er (sel_control s) (sel_eptr s) (sel_index s))
  else Some s.

Fixpoint sel_loop magic (n_ctl_max : Z) pwork (s : selection) (devs : list (nat * bool)) : option selection :=
  match devs with
  | [] => Some s
  | d :: devs => s ← sel_step magic n_ctl_max pwork s d; sel_loop magic n_ctl_max pwork s devs
  end.

(** Whether the rebuilt control chunks are the ones that were there. *)
Fixpoint controls_match mem ptr eptr (control : list nat) : option bool :=
  match control with
  | [] => Some true
  | i :: control =>
      p ← ptr !! i; e ← eptr !! i; a ← mem !! p; b ← mem !! e;
      if decide (a = b) then controls_match mem ptr eptr control else Some false
  end.

(** The do-while loop; one round per choice of controls. *)
Fixpoint check_loop (fuel : nat) magic (n_ctl_max : Z) badmap ptr pwork mem (control_index : Z)
    : option (Z * list nat * chunk_mem) :=
  match fuel with
  | O => None
  | S fuel =>
      s ← sel_loop magic n_ctl_max pwork (Selection [] [] ptr control_index) (zip (seq 0 n_devs) badmap);
      let eptr := sel_eptr s in
      cs ← buffers mem eptr;
      '(_, cs) ← decode_block plan cs chunk_size (sel_erasures s ++ [-1]);
      let mem := store_all mem eptr cs in
      match magic with
      | Some m => r ← je_cksum_compare m mem eptr; Some (r, eptr, mem)
      | None =>
          if decide (sel_control s = []) then Some (0, eptr, mem)
          else
            ok ← controls_match mem ptr eptr (sel_control s);
            if ok : bool then
              if decide (sel_index s < Z.of_nat n_devs - 1)
              then check_loop fuel magic n_ctl_max badmap ptr pwork mem (sel_index s)
              else Some (0, eptr, mem)
            else Some (1, eptr, mem)
      end
  end.

Definition bad_count badmap : nat := length (filter (λ b, b = true) badmap).

(** The result, the array [eptr] and the store; [eptr] is left alone by the
    shortcut for an intact stripe. *)
Definition jerase_control_check badmap ptr eptr pwork magic mem : option (Z * list nat * chunk_mem) :=
  let n_bad := bad_count badmap in
  match magic with
  | Some m =>
      if decide (n_bad = 0%nat) then r ← je_cksum_compare m mem ptr; Some (r, eptr, mem)
      else check_loop (S n_devs) magic 0 badmap ptr pwork mem (-1)
  | None => check_loop (S n_devs) magic (Z.of_nat n_parity - Z.of_nat n_bad) badmap ptr pwork mem (-1)
  end.

(** *** The search *)

(** What the search changes: the bad map, [eptr] and the store. *)
Definition brute_state : Type := list bool * list nat * chunk_mem.

Definition index_map (index : list nat) : list bool := (λ i, bool_decide (i ∈ index)) <$> seq 0 n_devs.

Fixpoint ptr_swap ptr (index pwork : list nat) : option (list nat) :=
  match index, pwork with
  | [], _ => Some ptr
  | i :: index, w :: pwork => ptr_swap (<[i := w]> ptr) index pwork
  | _ :: _, [] => None
  end.

(** The check of one choice, at the bottom of the recursion. *)
Definition brute_leaf (index : list nat) ptr pwork magic (st : brute_state) : option (Z * brute_state) :=
  let '(_, eptr, mem) := st in
  let badmap := index_map index in
  ptr' ← ptr_swap ptr index pwork;
  '(r, eptr, mem) ← jerase_control_check badmap ptr' eptr (drop (length index) pwork) magic mem;
  Some (r, (badmap, eptr, mem)).

(** The loop over the candidates of one level. *)
Fixpoint brute_try (f : nat → brute_state → option (Z * brute_state)) (devs : list nat) (st : brute_state)
    : option (Z * brute_state) :=
  match devs with
  | [] => Some (1, st)
  | i :: devs =>
      '(r, st) ← f i st;
      if decide (r = 0) then Some (0, st) else brute_try f devs st
  end.

(** [todo] more chunks are to be chosen after those in [index]. *)
Fixpoint jerase_brute_recurse (todo : nat) (index : list nat) ptr pwork magic (st : brute_state)
    : option (Z * brute_state) :=
  match todo with
  | O => brute_leaf index ptr pwork magic st
  | S todo =>
      let start := match last index with None => 0%nat | Some i => S i end in
      brute_try (λ i st, jerase_brute_recurse todo (index ++ [i]) ptr pwork magic st) (seq start (n_devs - start)) st
  end.

(** The loop over the number of failures. *)
Fixpoint recovery_loop (sizes : list nat) ptr pwork magic (st : brute_state) : option (Z * brute_state) :=
  match sizes with
  | [] => Some (1, st)
  | i :: sizes =>
      '(r, st) ← jerase_brute_recurse i [] ptr pwork magic st;
      if decide (r = 0) then Some (0, st) else recovery_loop sizes ptr pwork magic st
  end.

Definition jerase_brute_recovery badmap ptr eptr pwork magic mem : option (Z * brute_state) :=
  '(r, eptr, mem) ← jerase_control_check badmap ptr eptr pwork magic mem;
  if decide (r = 0) then Some (0, (badmap, eptr, mem))
  else
    let ncheck := match magic with Some _ => S n_parity | None => n_parity end in
    recovery_loop (seq 1 (ncheck - 1)) ptr pwork magic (replicate n_devs false, eptr, mem).
End check.

(** * Checking and repairing a stripe: correctness

    The control check accepts a stripe exactly when its good chunks belong to
    a codeword (or the rebuilt stripe has the checksum), and the brute-force
    search finds the chunks that are wrong when they are few enough. *)
(** ** The store *)
Section store.
Implicit Types (mem : chunk_mem) (ptr : list nat) (cs : list chunk).

Lemma buffers_lookup mem ptr cs :
  buffers mem ptr = Some cs ↔ length cs = length ptr ∧ ∀ i a, ptr !! i = Some a → mem !! a = cs !! i.
Proof.
  unfold buffers. rewrite mapM_Some. split.
  - intros H. split; [symmetry; by eapply Forall2_length|]. intros i a Ha.
    destruct (Forall2_lookup_l _ _ _ _ _ H Ha) as (c & -> & Hc). done.
  - intros [Hl H]. apply Forall2_same_length_lookup_2; [done|]. intros i a c Ha Hc. by rewrite (H i a Ha).
Qed.

Lemma buffers_ext mem mem' ptr : (∀ a, a ∈ ptr → mem !! a = mem' !! a) → buffers mem ptr = buffers mem' ptr.
Proof. intros H. apply Forall_mapM_ext, Forall_forall, H. Qed.

Lemma store_all_cons mem a ptr c cs : store_all mem (a :: ptr) (c :: cs) = <[a := c]> (store_all mem ptr cs).
Proof. done. Qed.

Lemma store_all_length mem ptr cs : length (store_all mem ptr cs) = length mem.
Proof.
  unfold store_all. induction (zip ptr cs) as [|[a c] l IH]; simpl; [done|]. by rewrite length_insert.
Qed.

Lemma store_all_other mem ptr cs a : a ∉ ptr → store_all mem ptr cs !! a = mem !! a.
Proof.
  revert cs. induction ptr as [|b ptr IH]; intros [|c cs] Ha; [done..|].
  apply not_elem_of_cons in Ha as [Hab Ha]. rewrite store_all_cons, list_lookup_insert_ne by done. by apply IH.
Qed.

Lemma store_all_at mem ptr cs i a :
  NoDup ptr → length cs = length ptr → (a < length mem)%nat → ptr !! i = Some a → store_all mem ptr cs !! a = cs !! i.
Proof.
  revert cs i. induction ptr as [|b ptr IH]; intros [|c cs] i Hnd Hl Ha Hi; simplify_eq/=.
  apply NoDup_cons in Hnd as [Hb Hnd]. destruct i as [|i]; simpl in Hi.
  - injection Hi as ->. rewrite store_all_cons, list_lookup_insert_eq; [done|]. by rewrite store_all_length.
  - rewrite store_all_cons, list_lookup_insert_ne; [by apply (IH cs i)|]. intros ->. apply Hb. by eapply list_elem_of_lookup_2.
Qed.

Lemma store_all_buffers mem ptr cs :
  NoDup ptr → length cs = length ptr → (∀ a, a ∈ ptr → (a < length mem)%nat) → buffers (store_all mem ptr cs) ptr = Some cs.
Proof.
  intros Hnd Hl Hr. apply buffers_lookup. split; [done|]. intros i a Ha. apply store_all_at; [done|done| |done].
  apply Hr. by eapply list_elem_of_lookup_2.
Qed.

Lemma store_all_Forall (P : chunk → Prop) mem ptr cs : Forall P mem → Forall P cs → Forall P (store_all mem ptr cs).
Proof.
  intros Hm. revert ptr. induction cs as [|c cs IH]; intros [|a ptr] Hc; try done.
  apply Forall_cons in Hc as []. apply Forall_insert; [by apply IH|done].
Qed.

Lemma buffers_is_Some mem ptr : (∀ a, a ∈ ptr → (a < length mem)%nat) → is_Some (buffers mem ptr).
Proof. intros H. apply mapM_is_Some, Forall_forall. intros a Ha. apply lookup_lt_is_Some_2. auto. Qed.

Lemma buffers_Forall (P : chunk → Prop) mem ptr cs : Forall P mem → buffers mem ptr = Some cs → Forall P cs.
Proof.
  intros Hm Hb. apply Forall_lookup_2. intros i c Hc. apply buffers_lookup in Hb as [Hl Hb].
  destruct (lookup_lt_is_Some_2 ptr i) as [a Ha]; [apply lookup_lt_Some in Hc; lia|].
  rewrite <- (Hb i a Ha) in Hc. rewrite Forall_lookup in Hm. eauto.
Qed.

(** A pointer replaced: the stripe with that chunk replaced. *)
Lemma buffers_insert mem ptr cs i a c :
  buffers mem ptr = Some cs → mem !! a = Some c → buffers mem (<[i := a]> ptr) = Some (<[i := c]> cs).
Proof.
  intros Hb Ha. apply buffers_lookup in Hb as [Hl Hb]. apply buffers_lookup. split; [by rewrite !length_insert|].
  intros j b Hj. destruct (decide (i = j)) as [->|Hij].
  - assert (j < length ptr)%nat as Hlt by (apply lookup_lt_Some in Hj; by rewrite length_insert in Hj).
    rewrite list_lookup_insert_eq in Hj by done. rewrite list_lookup_insert_eq by lia. congruence.
  - rewrite list_lookup_insert_ne in Hj by done. rewrite list_lookup_insert_ne by done. auto.
Qed.
End store.

(** ** The selection of chunks to rebuild *)
Section select.
Context (magic : option (list Z)) (n_ctl_max : Z) (ptr pwork : list nat) (ci0 : Z) (bad : nat → bool).
Context (Hmagic : magic = None ∨ n_ctl_max = 0) (Hwork : n_ctl_max ≤ Z.of_nat (length pwork)).

(** After the devices below [k]. *)
Record sel_inv (k : nat) (s : selection) : Prop := {
  inv_erasures : sel_erasures s = Z.of_nat <$> filter (λ i, (bad i || bool_decide (i ∈ sel_control s)) = true) (seq 0 k);
  inv_control : ∀ i, i ∈ sel_control s → (i < k)%nat ∧ bad i = false ∧ ci0 < Z.of_nat i ≤ sel_index s;
  inv_nodup : NoDup (sel_control s);
  inv_eptr_ctl : ∀ t i, (i < length ptr)%nat → sel_control s !! t = Some i → sel_eptr s !! i = pwork !! t;
  inv_eptr : ∀ i, i ∉ sel_control s → sel_eptr s !! i = ptr !! i;
  inv_eptr_len : length (sel_eptr s) = length ptr;
  inv_max : sel_control s ≠ [] → Z.of_nat (length (sel_control s)) ≤ n_ctl_max;
  inv_full : n_ctl_max ≤ Z.of_nat (length (sel_control s)) ∨
    ∀ i, (i < k)%nat → bad i = false → ci0 < Z.of_nat i → i ∈ sel_control s;
  inv_index : ci0 ≤ sel_index s ∧ (sel_index s = ci0 ∨ 0 ≤ sel_index s < Z.of_nat k);
  inv_some : sel_control s ≠ [] → ci0 < sel_index s }.

Lemma sel_start : sel_inv 0 (Selection [] [] ptr ci0).
Proof.
  split; simpl; try done; try lia.
  - intros i Hi. by apply not_elem_of_nil in Hi.
  - constructor.
  - right. lia.
Qed.

Lemma sel_step_inv k s :
  sel_inv k s → ∃ s', sel_step magic n_ctl_max pwork s (k, bad k) = Some s' ∧ sel_inv (S k) s'.
Proof.
  intros [He Hc Hnd Hec Hep Hel Hmax Hfull Hidx Hsome].
  assert (k ∉ sel_control s) as Hk by (intros Hin; specialize (Hc k Hin); lia).
  unfold sel_step.
  destruct (decide (bad k = false ∧ Z.of_nat (length (sel_control s)) < n_ctl_max ∧ sel_index s < Z.of_nat k)) as [Hnew|Hnew].
  - destruct Hnew as (Hb & Hlt & Hi). rewrite decide_True by (by left). destruct Hmagic as [Hm|?]; [|lia]. rewrite decide_True by done.
    destruct (lookup_lt_is_Some_2 pwork (length (sel_control s))) as [w Hw]; [lia|]. rewrite Hw. eexists. split; [done|].
    split; cbn [sel_erasures sel_control sel_eptr sel_index].
    + rewrite He, seq_S, filter_app, fmap_app. f_equal.
      * f_equal. apply filter_ext_in. intros i Hin%elem_of_seq.
        destruct (bad i); [done|]. simpl. rewrite !bool_decide_eq_true, elem_of_app, list_elem_of_singleton. naive_solver lia.
      * simpl. rewrite filter_cons_True; [done|]. rewrite Hb. simpl. apply bool_decide_eq_true. set_solver.
    + intros i [Hin|Hin%list_elem_of_singleton]%elem_of_app; [destruct (Hc i Hin) as (? & ? & ?)|subst i]; (split; [lia|]); (split; [done|lia]).
    + apply NoDup_app. split; [done|]. split; [|apply NoDup_singleton]. intros x Hx Hxk%list_elem_of_singleton. congruence.
    + intros t i Hi' [Ht|[Ht [? ->]%list_lookup_singleton_Some]]%lookup_app_Some.
      * rewrite list_lookup_insert_ne; [by apply Hec|]. intros ->. apply Hk. by eapply list_elem_of_lookup_2.
      * rewrite list_lookup_insert_eq by lia. replace t with (length (sel_control s)) by lia. done.
    + intros i Hni. rewrite not_elem_of_app, list_elem_of_singleton in Hni. destruct Hni as [Hni Hik].
      rewrite list_lookup_insert_ne by done. by apply Hep.
    + by rewrite length_insert.
    + intros _. rewrite length_app. simpl. lia.
    + destruct Hfull as [?|Hall]; [lia|]. right. intros i Hik Hbi Hci. rewrite elem_of_app, list_elem_of_singleton.
      destruct (decide (i = k)) as [->|]; [by right|left]. apply Hall; [lia|done|done].
    + lia.
    + lia.
  - destruct (bad k) eqn:Hb.
    + rewrite decide_True by (by right). rewrite decide_False by naive_solver. eexists. split; [done|].
      split; cbn [sel_erasures sel_control sel_eptr sel_index]; try done.
      * rewrite He, seq_S, filter_app, fmap_app. f_equal. simpl. by rewrite filter_cons_True by by rewrite Hb.
      * intros i Hin. destruct (Hc i Hin) as (? & ? & ?). split; [lia|done].
      * destruct Hfull as [?|Hall]; [by left|]. right. intros i Hik Hbi Hci. apply Hall; [|done|done].
        destruct (decide (i = k)) as [->|]; [congruence|lia].
      * lia.
    + rewrite decide_False by (intros [?|?]; [by apply Hnew|done]). eexists. split; [done|].
      split; try done.
      * rewrite He, seq_S, filter_app, fmap_app. simpl. rewrite filter_cons_False; [by rewrite app_nil_r|].
        rewrite Hb. simpl. by rewrite bool_decide_eq_true.
      * intros i Hin. destruct (Hc i Hin) as (? & ? & ?). split; [lia|done].
      * destruct Hfull as [?|Hall]; [by left|]. destruct (decide (n_ctl_max ≤ Z.of_nat (length (sel_control s)))); [by left|].
        right. intros i Hik Hbi Hci. apply Hall; [|done|done]. destruct (decide (i = k)) as [->|]; [|lia].
        exfalso. apply Hnew. split; [done|]. lia.
      * lia.
Qed.

(** The whole selection. *)
Lemma sel_loop_inv badmap s0 k :
  (∀ i, badmap !! i = bad <$> seq k (length badmap) !! i) → sel_inv k s0 →
  ∃ s, sel_loop magic n_ctl_max pwork s0 (zip (seq k (length badmap)) badmap) = Some s ∧ sel_inv (k + length badmap) s.
Proof.
  revert s0 k. induction badmap as [|b badmap IH]; intros s0 k Hb Hs0; cbn [length seq zip sel_loop].
  { exists s0. by rewrite Nat.add_0_r. }
  pose proof (Hb 0%nat) as Hb0. simpl in Hb0. injection Hb0 as ->.
  destruct (sel_step_inv k s0 Hs0) as (s1 & H1 & Hs1).
  destruct (IH s1 (S k)) as (s & Hs & Hinv); [intros i; apply (Hb (S i))|done|].
  exists s. split; [|by rewrite Nat.add_succ_r]. cbn [zip_with]. rewrite H1. exact Hs.
Qed.
End select.

(** ** One round of the check *)
Section stripe.
Context `{!Jerasure, !Adler}.
Context (plan : erasure_plan) (bs : nat) `{!MdsPlan plan bs}.
Implicit Types (mem : chunk_mem) (ptr eptr pwork : list nat) (badmap : list bool) (magic : option (list Z)).

(** The pointers of a stripe and its work buffers. *)
Record layout mem ptr pwork : Prop := {
  lay_nodup : NoDup (ptr ++ pwork);
  lay_len : length ptr = n_strips plan;
  lay_range : ∀ a, a ∈ ptr ++ pwork → (a < length mem)%nat;
  lay_chunks : Forall (λ c, length c = bs) mem }.

(** Only work buffers and chunks marked bad change. *)
Record frame (bad : nat → bool) ptr pwork mem mem' : Prop := {
  frame_len : length mem' = length mem;
  frame_chunks : Forall (λ c, length c = bs) mem → Forall (λ c, length c = bs) mem';
  frame_other : ∀ a, a ∉ pwork → (∀ i, ptr !! i = Some a → bad i = false) → mem' !! a = mem !! a }.

Lemma frame_refl bad ptr pwork mem : frame bad ptr pwork mem mem.
Proof. by split. Qed.

Lemma frame_trans bad ptr pwork mem1 mem2 mem3 :
  frame bad ptr pwork mem1 mem2 → frame bad ptr pwork mem2 mem3 → frame bad ptr pwork mem1 mem3.
Proof.
  intros [L1 C1 O1] [L2 C2 O2]. split; [congruence|auto|]. intros a Ha Hb. by rewrite O2, O1.
Qed.

Lemma layout_frame bad mem mem' ptr pwork : layout mem ptr pwork → frame bad ptr pwork mem mem' → layout mem' ptr pwork.
Proof. intros [N L R C] [FL FC _]. split; [done|done|by rewrite FL|auto]. Qed.

Lemma layout_stripe mem ptr pwork x : layout mem ptr pwork → buffers mem ptr = Some x → stripe_ok plan bs x.
Proof.
  intros [N L R C] Hb. split; [|by eapply buffers_Forall]. apply buffers_lookup in Hb as [Hl _]. congruence.
Qed.

Lemma layout_buffers mem ptr pwork : layout mem ptr pwork → ∃ x, buffers mem ptr = Some x ∧ stripe_ok plan bs x.
Proof.
  intros Hl. destruct (buffers_is_Some mem ptr) as [x Hx].
  { intros a Ha. apply (lay_range _ _ _ Hl). set_solver. }
  exists x. split; [done|]. by eapply layout_stripe.
Qed.

(** The good chunks of a stripe after a change within the frame. *)
Lemma frame_stripe bad mem mem' ptr pwork x x' :
  layout mem ptr pwork → frame bad ptr pwork mem mem' → buffers mem ptr = Some x → buffers mem' ptr = Some x' →
  agree_off plan bad x x'.
Proof.
  intros [N L R C] [_ _ FO] Hx Hx' i Hi Hb.
  apply buffers_lookup in Hx as [_ Hx], Hx' as [_ Hx']. destruct (lookup_lt_is_Some_2 ptr i) as [a Ha]; [lia|].
  rewrite <- (Hx i a Ha), <- (Hx' i a Ha). symmetry. apply NoDup_app in N as (N & Hd & _). apply FO.
  - apply Hd. by eapply list_elem_of_lookup_2.
  - intros j Hj. by rewrite (NoDup_lookup _ _ _ _ N Hj Ha).
Qed.

Section round.
Context (mem : chunk_mem) (ptr pwork : list nat) (x : list chunk) (bad : nat → bool).
Context (Hlay : layout mem ptr pwork) (Hx : buffers mem ptr = Some x).
Context (nmax ci : Z).
Context (s : selection) (Hs : sel_inv nmax ptr pwork ci bad (n_strips plan) s).

Definition rebuilt (i : nat) : bool := bad i || bool_decide (i ∈ sel_control s).

Lemma sel_erasure_list : sel_erasures s ++ [-1] = erasure_list plan rebuilt.
Proof. unfold erasure_list, erased. by rewrite (inv_erasures _ _ _ _ _ _ _ Hs). Qed.

Lemma sel_eptr_lookup i a :
  sel_eptr s !! i = Some a →
  ((i ∉ sel_control s) ∧ ptr !! i = Some a) ∨ (∃ t, sel_control s !! t = Some i ∧ pwork !! t = Some a).
Proof.
  intros Ha. destruct (decide (i ∈ sel_control s)) as [Hi|Hi].
  - right. apply list_elem_of_lookup_1 in Hi as [t Ht]. exists t. split; [done|].
    rewrite <- (inv_eptr_ctl _ _ _ _ _ _ _ Hs t i); [done| |done].
    rewrite <- (inv_eptr_len _ _ _ _ _ _ _ Hs). by eapply lookup_lt_Some.
  - left. split; [done|]. by rewrite <- (inv_eptr _ _ _ _ _ _ _ Hs).
Qed.

Lemma sel_eptr_range a : a ∈ sel_eptr s → (a < length mem)%nat.
Proof.
  intros [i Hi]%list_elem_of_lookup_1. apply (lay_range _ _ _ Hlay), elem_of_app.
  apply sel_eptr_lookup in Hi as [[_ Hi]|(t & _ & Hi)]; [left|right]; by eapply list_elem_of_lookup_2.
Qed.

Lemma ptr_not_pwork i t a : ptr !! i = Some a → pwork !! t = Some a → False.
Proof.
  intros Hi Ht. pose proof (lay_nodup _ _ _ Hlay) as N. apply NoDup_app in N as (_ & Hd & _).
  apply (Hd a); by eapply list_elem_of_lookup_2.
Qed.

Lemma sel_eptr_nodup : NoDup (sel_eptr s).
Proof.
  pose proof (lay_nodup _ _ _ Hlay) as N. apply NoDup_app in N as (N & _ & Nw).
  apply NoDup_alt. intros i j a Hi Hj.
  apply sel_eptr_lookup in Hi as [[_ Hi]|(t & Ht & Hi)], Hj as [[_ Hj]|(u & Hu & Hj)].
  - exact (NoDup_lookup _ _ _ _ N Hi Hj).
  - by destruct (ptr_not_pwork i u a).
  - by destruct (ptr_not_pwork j t a).
  - pose proof (NoDup_lookup _ _ _ _ Nw Hi Hj). congruence.
Qed.

(** A control chunk's own buffer is not decoded into. *)
Lemma control_untouched i a : i ∈ sel_control s → ptr !! i = Some a → a ∉ sel_eptr s.
Proof.
  intros Hi Ha [j Hj]%list_elem_of_lookup_1. pose proof (lay_nodup _ _ _ Hlay) as N. apply NoDup_app in N as (N & _ & _).
  apply sel_eptr_lookup in Hj as [[Hn Hj]|(t & _ & Ht)]; [|by destruct (ptr_not_pwork i t a)].
  by rewrite (NoDup_lookup _ _ _ _ N Hj Ha) in Hn.
Qed.

Lemma eptr_stripe : ∃ xe, buffers mem (sel_eptr s) = Some xe ∧ stripe_ok plan bs xe ∧
  (∀ i, i ∉ sel_control s → x !! i = xe !! i).
Proof.
  destruct (buffers_is_Some mem (sel_eptr s)) as [xe Hxe]; [apply sel_eptr_range|]. exists xe. split; [done|].
  apply buffers_lookup in Hxe as Hxe'. destruct Hxe' as [Hl Hxe']. apply buffers_lookup in Hx as [Hlx Hx'].
  pose proof (inv_eptr_len _ _ _ _ _ _ _ Hs) as Hel. pose proof (lay_len _ _ _ Hlay) as Hll. split; [split|].
  - lia.
  - eapply buffers_Forall; [apply Hlay|done].
  - intros i Hi. destruct (decide (i < length ptr)%nat) as [Hlt|Hge].
    + destruct (lookup_lt_is_Some_2 ptr i Hlt) as [a Ha]. rewrite <- (Hx' i a Ha).
      apply Hxe'. by rewrite (inv_eptr _ _ _ _ _ _ _ Hs).
    + rewrite !lookup_ge_None_2 by lia. done.
Qed.

(** What a round leaves: the decoded stripe [y] behind the pointers decoded
    through, and the stripe behind the original pointers. *)
Record round_post (y : list chunk) (mem' : chunk_mem) : Prop := {
  rd_decoded : buffers mem' (sel_eptr s) = Some y;
  rd_ok : stripe_ok plan bs y;
  rd_agree : ∀ i, (i < n_strips plan)%nat → rebuilt i = false → x !! i = y !! i;
  rd_frame : frame bad ptr pwork mem mem';
  rd_control : ∀ i a, i ∈ sel_control s → ptr !! i = Some a → mem' !! a = x !! i;
  rd_other : ∀ i a, i ∉ sel_control s → ptr !! i = Some a → mem' !! a = y !! i }.

Lemma round_ok xe y :
  buffers mem (sel_eptr s) = Some xe → (∀ i, i ∉ sel_control s → x !! i = xe !! i) →
  stripe_ok plan bs y → agree_off plan rebuilt xe y → round_post y (store_all mem (sel_eptr s) y).
Proof.
  intros Hxe Hag Hy Hxy. pose proof sel_eptr_nodup as Hnd.
  pose proof (inv_eptr_len _ _ _ _ _ _ _ Hs) as Hel. pose proof (lay_len _ _ _ Hlay) as Hll.
  assert (length y = length (sel_eptr s)) as Hly by (rewrite (proj1 Hy); lia).
  assert (∀ i, (i < n_strips plan)%nat → rebuilt i = false → x !! i = y !! i) as Hagree.
  { intros i Hi Hr. rewrite <- Hxy by done. apply Hag. unfold rebuilt in Hr.
    apply orb_false_iff in Hr as [_ Hr]. by apply bool_decide_eq_false in Hr. }
  apply buffers_lookup in Hx as [Hlx Hx'].
  assert (∀ i a, i ∉ sel_control s → ptr !! i = Some a → store_all mem (sel_eptr s) y !! a = y !! i) as Hoth.
  { intros i a Hi Ha. apply store_all_at; [done|done| |by rewrite (inv_eptr _ _ _ _ _ _ _ Hs)].
    apply (lay_range _ _ _ Hlay), elem_of_app. left. by eapply list_elem_of_lookup_2. }
  split; [by apply store_all_buffers; [done|done|apply sel_eptr_range]|done|done| | |done].
  - split; [apply store_all_length|intros HF; apply store_all_Forall; [done|apply Hy]|]. intros a Ha Hb.
    destruct (decide (a ∈ sel_eptr s)) as [Hin|Hout]; [|by apply store_all_other].
    apply list_elem_of_lookup_1 in Hin as [i Hi]. pose proof Hi as Hi'.
    apply sel_eptr_lookup in Hi as [[Hni Hi]|(t & _ & Ht)]; [|by destruct Ha; eapply list_elem_of_lookup_2].
    rewrite (Hoth i a Hni Hi), <- Hagree.
    + symmetry. by apply Hx'.
    + rewrite <- Hll. by eapply lookup_lt_Some.
    + unfold rebuilt. rewrite (Hb i Hi). simpl. by apply bool_decide_eq_false.
  - intros i a Hi Ha. rewrite store_all_other by by eapply control_untouched. by apply Hx'.
Qed.

Lemma round_run :
  (0 < length (erased plan rebuilt) ≤ parity_strips plan)%nat →
  ∃ cs r y, buffers mem (sel_eptr s) = Some cs ∧
    decode_block plan cs bs (sel_erasures s ++ [-1]) = Some (r, y) ∧
    round_post y (store_all mem (sel_eptr s) y) ∧
    (∀ c, codeword plan bs c → agree_off plan bad x c → y = c) ∧
    (length (erased plan rebuilt) = parity_strips plan → codeword plan bs y).
Proof.
  intros Hlen. destruct eptr_stripe as (cs & Hcs & Hok & Hag).
  destruct (mds_decode _ _ cs rebuilt Hok Hlen) as (r & y & Hd & Hy & Hyx).
  exists cs, r, y. split; [done|]. rewrite sel_erasure_list. split; [done|]. split; [by eapply round_ok|].
  assert (∀ c, codeword plan bs c → agree_off plan rebuilt cs c → y = c) as Hcode.
  { intros c Hc Hcc. exact (mds_decode_code _ _ cs c rebuilt r y Hok Hc Hlen Hcc Hd). }
  split.
  - intros c Hc Hbc. apply Hcode; [done|]. intros i Hi Hr. unfold rebuilt in Hr.
    apply orb_false_iff in Hr as [Hb Hr]. apply bool_decide_eq_false in Hr. rewrite <- (Hag i Hr). by apply Hbc.
  - intros Hfull. destruct (mds_complete _ _ cs rebuilt Hok Hfull) as (c & Hc & Hcc). by rewrite (Hcode c Hc Hcc).
Qed.

Lemma controls_match_spec y mem' l :
  round_post y mem' → l ⊆ sel_control s →
  ∃ b, controls_match mem' ptr (sel_eptr s) l = Some b ∧ (b = true ↔ ∀ i, i ∈ l → x !! i = y !! i).
Proof.
  intros Hr. induction l as [|i l IH]; intros Hl; cbn [controls_match].
  { exists true. split; [done|]. split; [|done]. intros _ i Hi. by apply not_elem_of_nil in Hi. }
  assert (i ∈ sel_control s) as Hi by (apply Hl; by left).
  pose proof (lay_len _ _ _ Hlay) as Hll. destruct (inv_control _ _ _ _ _ _ _ Hs i Hi) as [Hlt _].
  destruct (lookup_lt_is_Some_2 ptr i) as [p Hp]; [lia|]. destruct (lookup_lt_is_Some_2 (sel_eptr s) i) as [e He].
  { rewrite (inv_eptr_len _ _ _ _ _ _ _ Hs). lia. }
  apply buffers_lookup in Hx as [Hlx Hx']. destruct (lookup_lt_is_Some_2 x i) as [a Ha]; [lia|].
  destruct (lookup_lt_is_Some_2 y i) as [b Hb]; [rewrite (proj1 (rd_ok _ _ Hr)); lia|].
  pose proof (rd_decoded _ _ Hr) as Hd. apply buffers_lookup in Hd as [_ Hd].
  rewrite Hp, He. cbn [mbind option_bind]. rewrite (rd_control _ _ Hr i p Hi Hp), (Hd i e He), Ha, Hb. cbn [mbind option_bind].
  destruct IH as (b' & Hb' & Hspec); [intros j Hj; apply Hl; by right|]. case_decide as Hab.
  - exists b'. split; [done|]. rewrite Hspec. setoid_rewrite elem_of_cons. split; [|by intros Hall j Hj; apply Hall; right].
    intros Hall j [->|Hj]; [congruence|by apply Hall].
  - exists false. split; [done|]. split; [done|]. intros Hall. specialize (Hall i ltac:(by left)). congruence.
Qed.

Lemma round_match y mem' :
  round_post y mem' → (∀ i, i ∈ sel_control s → x !! i = y !! i) → buffers mem' ptr = Some y.
Proof.
  intros Hr Hm. apply buffers_lookup. pose proof (lay_len _ _ _ Hlay) as Hll.
  split; [rewrite (proj1 (rd_ok _ _ Hr)); lia|]. intros i a Ha. destruct (decide (i ∈ sel_control s)) as [Hi|Hi].
  - rewrite (rd_control _ _ Hr i a Hi Ha). by apply Hm.
  - by apply (rd_other _ _ Hr).
Qed.

Lemma rebuilt_count : length (erased plan rebuilt) = (length (erased plan bad) + length (sel_control s))%nat.
Proof.
  rewrite <- length_app. apply Permutation_length, NoDup_Permutation.
  - apply NoDup_filter, NoDup_seq.
  - apply NoDup_app. split; [apply NoDup_filter, NoDup_seq|]. split; [|apply Hs].
    intros i [Hb _]%list_elem_of_filter Hi. destruct (inv_control _ _ _ _ _ _ _ Hs i Hi) as (_ & Hb' & _). congruence.
  - intros i. rewrite elem_of_app. unfold erased. rewrite !list_elem_of_filter, !elem_of_seq. unfold rebuilt.
    rewrite orb_true_iff, bool_decide_eq_true. split; [naive_solver|].
    intros [[Hb Hi]|Hi]; [by split; [left|]|]. destruct (inv_control _ _ _ _ _ _ _ Hs i Hi) as (Hlt & _). split; [by right|lia].
Qed.
End round.

(** ** The control check *)
Definition bad_of badmap (i : nat) : bool := default false (badmap !! i).

Lemma bad_of_seq badmap i : badmap !! i = bad_of badmap <$> seq 0 (length badmap) !! i.
Proof.
  unfold bad_of. destruct (decide (i < length badmap)%nat) as [Hi|Hi].
  - rewrite lookup_seq_lt by done. simpl. by destruct (lookup_lt_is_Some_2 badmap i Hi) as [b ->].
  - rewrite lookup_seq_ge by lia. simpl. apply lookup_ge_None_2. lia.
Qed.

Lemma bad_count_erased badmap :
  length badmap = n_strips plan → bad_count badmap = length (erased plan (bad_of badmap)).
Proof.
  intros Hl. unfold bad_count, erased. rewrite <- Hl. clear Hl.
  assert (badmap = bad_of badmap <$> seq 0 (length badmap)) as Hb.
  { apply list_eq. intros i. by rewrite list_lookup_fmap, bad_of_seq. }
  rewrite Hb at 1. generalize (seq 0 (length badmap)) as l. induction l as [|i l IH]; [done|].
  rewrite fmap_cons, !filter_cons. case_decide; simpl; by rewrite IH.
Qed.

Section loop.
Context (ptr pwork : list nat) (badmap : list bool).
Abbreviation bad := (bad_of badmap).
Abbreviation nbad := (length (erased plan bad)).
Abbreviation nmax := (Z.of_nat (parity_strips plan) - Z.of_nat nbad).
Context (Hmap : length badmap = n_strips plan) (Hbad : (nbad ≤ parity_strips plan)%nat).
Context (Hwork : nmax ≤ Z.of_nat (length pwork)) (Hm : (0 < parity_strips plan)%nat).

Lemma select_ok nm magic ci :
  magic = None ∨ nm = 0 → nm ≤ Z.of_nat (length pwork) →
  ∃ s, sel_loop magic nm pwork (Selection [] [] ptr ci) (zip (seq 0 (n_strips plan)) badmap) = Some s ∧
    sel_inv nm ptr pwork ci bad (n_strips plan) s.
Proof.
  intros Hmg Hw. rewrite <- Hmap. apply (sel_loop_inv magic nm ptr pwork ci bad Hmg Hw badmap _ 0).
  - apply bad_of_seq.
  - apply sel_start.
Qed.

(** The number of chunks rebuilt in a round. *)
Lemma rebuilt_bound ci s :
  sel_inv nmax ptr pwork ci bad (n_strips plan) s → 0 < Z.of_nat nbad ∨ ci < Z.of_nat (n_strips plan) - 1 → -1 ≤ ci →
  (0 < length (erased plan (rebuilt bad s)) ≤ parity_strips plan)%nat.
Proof.
  intros Hs Hci Hci1. erewrite rebuilt_count by done. pose proof (inv_max _ _ _ _ _ _ _ Hs) as Hmx.
  destruct (inv_full _ _ _ _ _ _ _ Hs) as [Hf|Hf].
  - destruct (sel_control s) as [|i l]; [simpl in *; lia|]. specialize (Hmx ltac:(done)). lia.
  - split.
    + destruct Hci as [?|Hlt]; [lia|]. destruct (decide (0 < nbad)%nat); [lia|].
      assert (n_strips plan - 1 ∈ sel_control s)%nat as Hin.
      { apply Hf; [lia| |lia]. destruct (bad (n_strips plan - 1)) eqn:Hb; [|done].
        assert (n_strips plan - 1 ∈ erased plan bad)%nat as Hin by (apply list_elem_of_filter; split; [done|apply elem_of_seq; lia]).
        destruct (erased plan bad); [by apply not_elem_of_nil in Hin|simpl in *; lia]. }
      destruct (sel_control s); [by apply not_elem_of_nil in Hin|simpl; lia].
    + destruct (sel_control s) as [|i l]; [simpl; lia|]. specialize (Hmx ltac:(done)). lia.
Qed.

(** From the first device on there are controls enough. *)
Lemma rebuilt_full s :
  sel_inv nmax ptr pwork (-1) bad (n_strips plan) s → length (erased plan (rebuilt bad s)) = parity_strips plan.
Proof.
  intros Hs. erewrite rebuilt_count by done. pose proof (inv_max _ _ _ _ _ _ _ Hs) as Hmx.
  assert (nmax ≤ Z.of_nat (length (sel_control s))) as Hge.
  { destruct (inv_full _ _ _ _ _ _ _ Hs) as [Hf|Hf]; [done|]. pose proof (erased_length_total plan bad) as Ht.
    assert (length (erased plan (λ i, negb (bad i))) ≤ length (sel_control s))%nat as Hle.
    { apply submseteq_length, NoDup_submseteq; [apply NoDup_filter, NoDup_seq|].
      intros i [Hb Hi%elem_of_seq]%list_elem_of_filter. apply Hf; [lia| |lia]. by apply negb_true_iff. }
    unfold n_strips in Ht. lia. }
  destruct (sel_control s) as [|i l]; [simpl in *; lia|]. specialize (Hmx ltac:(done)). simpl in *. lia.
Qed.

(** A stripe whose good chunks belong to a codeword passes every round. *)
Lemma check_loop_consistent c fuel : ∀ ci mem x,
  layout mem ptr pwork → buffers mem ptr = Some x → codeword plan bs c → agree_off plan bad x c →
  0 < Z.of_nat nbad ∨ ci < Z.of_nat (n_strips plan) - 1 → -1 ≤ ci → (0 < fuel)%nat →
  Z.of_nat (n_strips plan) - 1 - ci < Z.of_nat fuel →
  ∃ eptr mem', check_loop plan bs (n_strips plan) fuel None nmax badmap ptr pwork mem ci = Some (0, eptr, mem') ∧
    frame bad ptr pwork mem mem' ∧ buffers mem' eptr = Some c ∧ buffers mem' ptr = Some c.
Proof.
  induction fuel as [|fuel IH]; intros ci mem x Hlay Hx Hc Hxc Hci Hci1 Hf0 Hf; [lia|]. cbn [check_loop].
  destruct (select_ok nmax None ci) as (s & -> & Hs); [by left|done|]. cbn [mbind option_bind].
  destruct (round_run mem ptr pwork x bad Hlay Hx nmax ci s Hs) as (cs & r & y & -> & Hd & Hr & Hcy & _);
    [by eapply rebuilt_bound|].
  cbn [mbind option_bind]. rewrite Hd. cbn [mbind option_bind]. pose proof (Hcy c Hc Hxc) as ->.
  assert (∀ i, i ∈ sel_control s → x !! i = c !! i) as Hmatch.
  { intros i Hi. destruct (inv_control _ _ _ _ _ _ _ Hs i Hi) as (Hlt & Hb & _). by apply Hxc. }
  pose proof (round_match mem ptr pwork x bad Hlay s c _ Hr Hmatch) as Hp.
  destruct (decide (sel_control s = [])) as [Hnil|Hctl].
  { do 2 eexists. split; [done|]. split; [apply Hr|]. split; [apply Hr|done]. }
  destruct (controls_match_spec mem ptr pwork x bad Hlay Hx nmax ci s Hs c _ (sel_control s) Hr ltac:(done)) as (b & -> & Hb).
  cbn [mbind option_bind]. destruct b; [|by pose proof (proj2 Hb Hmatch)].
  destruct (decide (sel_index s < Z.of_nat (n_strips plan) - 1)) as [Hlt|Hge].
  - pose proof (inv_some _ _ _ _ _ _ _ Hs Hctl) as Hsome.
    destruct (IH (sel_index s) (store_all mem (sel_eptr s) c) c) as (eptr & mem' & -> & Hfr & He & Hp'); try done; try lia.
    { eapply layout_frame; [done|apply Hr]. }
    do 2 eexists. split; [done|]. split; [eapply frame_trans; [apply Hr|done]|done].
  - do 2 eexists. split; [done|]. split; [apply Hr|]. split; [apply Hr|done].
Qed.

(** Whether the good chunks belong to a codeword can be told. *)
Lemma consistent_dec mem x :
  layout mem ptr pwork → buffers mem ptr = Some x →
  (∃ c, codeword plan bs c ∧ agree_off plan bad x c) ∨ ¬ ∃ c, codeword plan bs c ∧ agree_off plan bad x c.
Proof.
  intros Hlay Hx. destruct (select_ok nmax None (-1)) as (s & _ & Hs); [by left|done|].
  pose proof (rebuilt_full s Hs) as Hfull.
  destruct (round_run mem ptr pwork x bad Hlay Hx nmax (-1) s Hs) as (cs & r & y & _ & _ & Hr & Hcy & Hcw); [lia|].
  destruct (decide (Forall (λ i, x !! i = y !! i) (sel_control s))) as [Hm'|Hm']; rewrite Forall_forall in Hm'.
  - left. exists y. split; [by apply Hcw|]. intros i Hi Hb.
    destruct (decide (i ∈ sel_control s)) as [Hin|Hout]; [by apply Hm'|].
    apply (rd_agree _ _ _ _ _ _ _ _ Hr); [done|]. unfold rebuilt. rewrite Hb. simpl. by apply bool_decide_eq_false.
  - right. intros (c & Hc & Hxc). apply Hm'. intros i Hi. rewrite (Hcy c Hc Hxc).
    destruct (inv_control _ _ _ _ _ _ _ Hs i Hi) as (Hlt & Hb & _). by apply Hxc.
Qed.

(** A stripe whose good chunks belong to no codeword fails the first round. *)
Lemma check_loop_inconsistent fuel mem x :
  layout mem ptr pwork → buffers mem ptr = Some x → (¬ ∃ c, codeword plan bs c ∧ agree_off plan bad x c) →
  ∃ eptr mem', check_loop plan bs (n_strips plan) (S fuel) None nmax badmap ptr pwork mem (-1) = Some (1, eptr, mem') ∧
    frame bad ptr pwork mem mem'.
Proof.
  intros Hlay Hx Hno. cbn [check_loop].
  destruct (select_ok nmax None (-1)) as (s & -> & Hs); [by left|done|]. cbn [mbind option_bind].
  pose proof (rebuilt_full s Hs) as Hfull.
  destruct (round_run mem ptr pwork x bad Hlay Hx nmax (-1) s Hs) as (cs & r & y & -> & Hd & Hr & _ & Hcw); [lia|].
  cbn [mbind option_bind]. rewrite Hd. cbn [mbind option_bind]. specialize (Hcw Hfull).
  assert ((∀ i, i ∈ sel_control s → x !! i = y !! i) → False) as Hmis.
  { intros Hmatch. apply Hno. exists y. split; [done|]. intros i Hi Hb.
    destruct (decide (i ∈ sel_control s)) as [Hin|Hout]; [by apply Hmatch|].
    apply (rd_agree _ _ _ _ _ _ _ _ Hr); [done|]. unfold rebuilt. rewrite Hb. simpl. by apply bool_decide_eq_false. }
  destruct (decide (sel_control s = [])) as [Hnil|Hctl].
  { exfalso. apply Hmis. rewrite Hnil. intros i Hi. by apply not_elem_of_nil in Hi. }
  destruct (controls_match_spec mem ptr pwork x bad Hlay Hx nmax (-1) s Hs y _ (sel_control s) Hr ltac:(done)) as (b & -> & Hb).
  cbn [mbind option_bind]. destruct b; [exfalso; by apply Hmis, Hb|].
  do 2 eexists. split; [done|]. apply Hr.
Qed.
End loop.

(** A stripe that can be the answer for [x] with the chunks [bad] rebuilt, and
    the condition under which the check has to find it. *)
Definition result_ok magic (bad : nat → bool) (x y : list chunk) : Prop :=
  stripe_ok plan bs y ∧ agree_off plan bad x y ∧
  match magic with None => codeword plan bs y | Some g => cksum_of y = g end.
Definition must_pass magic (bad : nat → bool) (x : list chunk) : Prop :=
  ∃ c, codeword plan bs c ∧ agree_off plan bad x c ∧
    match magic with None => True | Some g => cksum_of c = g end.

Lemma cksum_compare_spec g mem ptr y :
  buffers mem ptr = Some y →
  ∃ r, je_cksum_compare g mem ptr = Some r ∧ (r = 0 ∨ r = 1) ∧ (r = 0 ↔ cksum_of y = g).
Proof.
  intros Hy. unfold je_cksum_compare, je_cksum_calc. rewrite Hy. simpl. eexists. split; [done|].
  case_decide; (split; [by auto|]); (split; [congruence|]); intros; congruence.
Qed.

(** A check with a checksum and chunks to rebuild is a single round. *)
Lemma check_loop_magic g ptr pwork badmap mem x fuel :
  layout mem ptr pwork → buffers mem ptr = Some x → length badmap = n_strips plan →
  (0 < length (erased plan (bad_of badmap)) ≤ parity_strips plan)%nat →
  ∃ r eptr' mem' y, check_loop plan bs (n_strips plan) (S fuel) (Some g) 0 badmap ptr pwork mem (-1) = Some (r, eptr', mem') ∧
    frame (bad_of badmap) ptr pwork mem mem' ∧ (r = 0 ∨ r = 1) ∧ (r = 0 ↔ cksum_of y = g) ∧
    stripe_ok plan bs y ∧ agree_off plan (bad_of badmap) x y ∧
    buffers mem' ptr = Some y ∧ buffers mem' eptr' = Some y ∧
    ∀ c, codeword plan bs c → agree_off plan (bad_of badmap) x c → y = c.
Proof.
  intros Hlay Hx Hmap Hlen. cbn [check_loop].
  destruct (select_ok ptr pwork badmap Hmap 0 (Some g) (-1)) as (s & -> & Hs); [by right|lia|]. cbn [mbind option_bind].
  assert (sel_control s = []) as Hnil.
  { destruct (sel_control s) eqn:E; [done|]. pose proof (inv_max _ _ _ _ _ _ _ Hs) as Hm. rewrite E in Hm. specialize (Hm ltac:(done)). simpl in Hm. lia. }
  destruct (round_run mem ptr pwork x (bad_of badmap) Hlay Hx 0 (-1) s Hs) as (cs & r & y & -> & Hd & Hr & Hcy & _).
  { erewrite rebuilt_count by done. rewrite Hnil. simpl. lia. }
  cbn [mbind option_bind]. rewrite Hd. cbn [mbind option_bind].
  destruct (cksum_compare_spec g _ _ y (rd_decoded _ _ _ _ _ _ _ _ Hr)) as (r' & -> & Hr1 & Hr2).
  cbn [mbind option_bind]. do 4 eexists. split; [done|]. split; [apply Hr|]. split; [done|]. split; [done|].
  split; [apply Hr|]. split.
  { intros i Hi Hb. apply (rd_agree _ _ _ _ _ _ _ _ Hr); [done|]. unfold rebuilt. rewrite Hb, Hnil. done. }
  split; [|split; [apply Hr|done]]. apply (round_match mem ptr pwork x (bad_of badmap) Hlay s y _ Hr).
  rewrite Hnil. intros i Hi. by apply not_elem_of_nil in Hi.
Qed.

(** The check of a stripe: it returns, changes only work buffers and chunks
    marked bad, accepts only an answer and never misses one. *)
Lemma control_check_spec magic badmap ptr eptr pwork mem x :
  layout mem ptr pwork → buffers mem ptr = Some x → length badmap = n_strips plan →
  (length (erased plan (bad_of badmap)) ≤ parity_strips plan)%nat → (0 < parity_strips plan)%nat →
  (parity_strips plan ≤ length pwork + length (erased plan (bad_of badmap)))%nat →
  ∃ r eptr' mem',
    jerase_control_check plan bs (n_strips plan) (parity_strips plan) badmap ptr eptr pwork magic mem = Some (r, eptr', mem') ∧
    frame (bad_of badmap) ptr pwork mem mem' ∧ (r = 0 ∨ r = 1) ∧
    (r = 0 → ∃ y, result_ok magic (bad_of badmap) x y ∧ buffers mem' ptr = Some y ∧
       (buffers mem' eptr' = Some y ∨ magic ≠ None ∧ length (erased plan (bad_of badmap)) = 0%nat) ∧
       ∀ c, codeword plan bs c → agree_off plan (bad_of badmap) x c → y = c) ∧
    (must_pass magic (bad_of badmap) x → r = 0).
Proof.
  intros Hlay Hx Hmap Hbad Hm Hw. unfold jerase_control_check. rewrite (bad_count_erased _ Hmap).
  pose proof (layout_stripe _ _ _ _ Hlay Hx) as Hok. destruct magic as [g|].
  - destruct (decide (length (erased plan (bad_of badmap)) = 0%nat)) as [Hz|Hz].
    + destruct (cksum_compare_spec g mem ptr x Hx) as (r & -> & Hr1 & Hr2). cbn [mbind option_bind].
      do 3 eexists. split; [done|]. split; [apply frame_refl|]. split; [done|]. split.
      * intros ->. exists x. split; [split; [done|split; [done|by apply Hr2]]|]. split; [done|]. split; [by right|].
        intros c [Hc _] Hxc. by apply (agree_off_none _ _ _ _ _ Hz Hok Hc).
      * intros (c & [Hc _] & Hxc & Hg). apply Hr2. by rewrite (agree_off_none _ _ _ _ _ Hz Hok Hc Hxc).
    + destruct (check_loop_magic g ptr pwork badmap mem x (n_strips plan) Hlay Hx Hmap ltac:(lia))
        as (r & eptr' & mem' & y & -> & Hfr & Hr1 & Hr2 & Hy & Hxy & Hp & He & Hcy).
      do 3 eexists. split; [done|]. split; [done|]. split; [done|]. split.
      * intros ->. exists y. split; [split; [done|split; [done|by apply Hr2]]|]. by auto.
      * intros (c & Hc & Hxc & Hg). apply Hr2. by rewrite (Hcy c Hc Hxc).
  - assert (Z.of_nat (parity_strips plan) - Z.of_nat (length (erased plan (bad_of badmap))) ≤ Z.of_nat (length pwork)) as Hw' by lia.
    destruct (consistent_dec ptr pwork badmap Hmap Hbad Hw' Hm mem x Hlay Hx) as [(c & Hc & Hxc)|Hno].
    + destruct (check_loop_consistent ptr pwork badmap Hmap Hbad Hw' Hm c (S (n_strips plan)) (-1) mem x) as (eptr' & mem' & -> & Hfr & He & Hp);
        try done; try lia; [unfold n_strips; lia|].
      do 3 eexists. split; [done|]. split; [done|]. split; [by left|]. split; [|done].
      intros _. exists c. split; [by split; [apply Hc|]|]. split; [done|]. split; [by left|].
      intros c' Hc' Hxc'. apply (codeword_unique plan bs c c' (bad_of badmap)); [done|done|done|].
      eapply agree_off_trans; [by apply agree_off_sym|done].
    + destruct (check_loop_inconsistent ptr pwork badmap Hmap Hbad Hw' Hm (n_strips plan) mem x Hlay Hx Hno) as (eptr' & mem' & -> & Hfr).
      do 3 eexists. split; [done|]. split; [done|]. split; [by right|]. split; [done|].
      intros (c & Hc & Hxc & _). destruct Hno. by exists c.
Qed.

(** ** The brute-force search *)
Definition set_of (index : list nat) (i : nat) : bool := bool_decide (i ∈ index).
Definition index_ok (index : list nat) : Prop :=
  StronglySorted lt index ∧ Forall (λ i, (i < n_strips plan)%nat) index.

Lemma seq_sorted n : ∀ k, StronglySorted lt (seq k n).
Proof.
  induction n as [|n IH]; intros k; simpl; constructor; [done|]. apply Forall_forall. intros j Hj%elem_of_seq. lia.
Qed.

Lemma index_nodup index : index_ok index → NoDup index.
Proof.
  intros [Hs _]. induction Hs as [|i l Hl IH Hi]; constructor; [|done]. rewrite Forall_forall in Hi.
  intros Hin. specialize (Hi i Hin). lia.
Qed.

Lemma set_of_erased index : index_ok index → erased plan (set_of index) = index.
Proof.
  intros [Hs Hn]. unfold erased. apply (StronglySorted_unique_strong lt).
  - intros i j _ _ Hij Hji. lia.
  - apply StronglySorted_filter, seq_sorted.
  - done.
  - apply NoDup_Permutation; [apply NoDup_filter, NoDup_seq|by apply index_nodup|]. rewrite Forall_forall in Hn.
    intros i. rewrite list_elem_of_filter, elem_of_seq. unfold set_of. rewrite bool_decide_eq_true. split; [tauto|].
    intros Hi. specialize (Hn i Hi). split; [done|lia].
Qed.

Lemma index_map_bad index i : (i < n_strips plan)%nat → bad_of (index_map (n_strips plan) index) i = set_of index i.
Proof.
  intros Hi. unfold bad_of, index_map. by rewrite list_lookup_fmap, lookup_seq_lt.
Qed.

(** Swapping pointers for work buffers. *)
Lemma ptr_swap_spec index : ∀ mem ptr pwork,
  layout mem ptr pwork → Forall (λ i, (i < n_strips plan)%nat) index → NoDup index → (length index ≤ length pwork)%nat →
  ∃ ptr', ptr_swap ptr index pwork = Some ptr' ∧ layout mem ptr' (drop (length index) pwork) ∧
    (∀ j, j ∉ index → ptr' !! j = ptr !! j) ∧ (∀ j a, j ∈ index → ptr' !! j = Some a → a ∈ pwork).
Proof.
  induction index as [|i index IH]; intros mem ptr pwork Hlay Hn Hnd Hl.
  { exists ptr. split; [by destruct pwork|]. split; [done|]. split; [done|]. intros j a Hj. by apply not_elem_of_nil in Hj. }
  destruct pwork as [|w pwork]; [simpl in Hl; lia|]. apply Forall_cons in Hn as [Hi Hn]. apply NoDup_cons in Hnd as [Hni Hnd].
  pose proof Hlay as [N L R C]. apply NoDup_app in N as (Np & Nd & Nw). apply NoDup_cons in Nw as [Hw Nw].
  assert (w ∉ ptr) as Hwp by (intros Hin; apply (Nd w Hin); by left).
  assert (∀ j a, <[i := w]> ptr !! j = Some a → (j = i ∧ a = w) ∨ (j ≠ i ∧ ptr !! j = Some a)) as Hins.
  { intros j a Hj. destruct (decide (i = j)) as [->|Hij].
    - left. split; [done|]. assert (j < length ptr)%nat as Hlt by lia. by rewrite list_lookup_insert_eq in Hj by done; simplify_eq.
    - right. split; [done|]. by rewrite list_lookup_insert_ne in Hj. }
  assert (layout mem (<[i := w]> ptr) pwork) as Hlay'.
  { split; [| by rewrite length_insert| |done].
    - apply NoDup_app. split_and!; [| |done].
      + apply NoDup_alt. intros j k a Hj Hk. apply Hins in Hj as [[-> ->]|[Hj Hja]], Hk as [[-> Hk]|[Hk Hka]]; try done.
        * by apply list_elem_of_lookup_2 in Hka.
        * subst a. by apply list_elem_of_lookup_2 in Hja.
        * exact (NoDup_lookup _ _ _ _ Np Hja Hka).
      + intros a [j Hj]%list_elem_of_lookup_1. apply Hins in Hj as [[-> ->]|[Hj Hja]]; [done|].
        intros Ha. apply (Nd a); [by eapply list_elem_of_lookup_2|by right].
    - intros a [[j Hj]%list_elem_of_lookup_1|Ha]%elem_of_app; [|apply R; set_solver].
      apply Hins in Hj as [[-> ->]|[Hj Hja]]; apply R; [set_solver|]. apply elem_of_app. left. by eapply list_elem_of_lookup_2. }
  destruct (IH mem (<[i := w]> ptr) pwork Hlay' Hn Hnd) as (ptr' & Hsw & Hl' & Ho & Hi'); [simpl in Hl; lia|].
  exists ptr'. split; [done|]. split; [done|]. split.
  - intros j [Hji Hj]%not_elem_of_cons. rewrite Ho by done. by apply list_lookup_insert_ne.
  - intros j a [->|Hj]%elem_of_cons Ha; [|right; by eapply Hi'].
    rewrite Ho in Ha by done. apply Hins in Ha as [[_ ->]|[? _]]; [by left|done].
Qed.

Lemma agree_off_ext bad bad' x y :
  (∀ i, (i < n_strips plan)%nat → bad i = bad' i) → agree_off plan bad x y → agree_off plan bad' x y.
Proof. intros Hb Hxy i Hi Hbi. apply Hxy; [done|]. by rewrite Hb. Qed.

Lemma result_ok_ext magic bad bad' x x' y :
  (∀ i, (i < n_strips plan)%nat → bad i = bad' i) → agree_off plan bad x x' →
  result_ok magic bad x y → result_ok magic bad' x' y.
Proof.
  intros Hb Hxx (Hy & Hxy & Hmg). split; [done|]. split; [|done]. eapply agree_off_ext; [done|].
  eapply agree_off_trans; [by apply agree_off_sym|done].
Qed.

Lemma must_pass_ext magic bad bad' x x' :
  (∀ i, (i < n_strips plan)%nat → bad i = bad' i) → agree_off plan bad x x' →
  must_pass magic bad x → must_pass magic bad' x'.
Proof.
  intros Hb Hxx (c & Hc & Hxc & Hmg). exists c. split; [done|]. split; [|done]. eapply agree_off_ext; [done|].
  eapply agree_off_trans; [by apply agree_off_sym|done].
Qed.

Section search.
Context (ptr pwork : list nat) (magic : option (list Z)) (x : list chunk).
Context (Hm : (0 < parity_strips plan)%nat) (Hwork : length pwork = parity_strips plan).

(** The search leaves the stripe alone; on success the pointers it ends with
    lead to an answer. *)
Definition intact (mem : chunk_mem) : Prop := layout mem ptr pwork ∧ buffers mem ptr = Some x.
Definition found (index : list nat) (st : brute_state) : Prop :=
  let '(badmap, eptr, mem) := st in
  index_ok index ∧ badmap = index_map (n_strips plan) index ∧
  ∃ y, result_ok magic (set_of index) x y ∧ buffers mem eptr = Some y.

(** The outcome of a search through the choices [P]. *)
Definition search_post (P : list nat → Prop) (res : option (Z * brute_state)) : Prop :=
  ∃ r st, res = Some (r, st) ∧ intact st.2 ∧ (r = 0 ∨ r = 1) ∧ (r = 0 → ∃ index, P index ∧ found index st) ∧
    ∀ index, P index → index_ok index → must_pass magic (set_of index) x → r = 0.

Lemma brute_leaf_spec index badmap eptr mem :
  intact mem → index_ok index → (0 < length index ≤ parity_strips plan)%nat →
  search_post (λ S, S = index) (brute_leaf plan bs (n_strips plan) (parity_strips plan) index ptr pwork magic (badmap, eptr, mem)).
Proof.
  intros [Hlay Hx] Hok Hlen. unfold brute_leaf.
  destruct (ptr_swap_spec index mem ptr pwork Hlay) as (ptr' & -> & Hlay' & Ho & Hi);
    [apply Hok|by apply index_nodup|lia|]. cbn [mbind option_bind].
  destruct (layout_buffers _ _ _ Hlay') as (x' & Hx' & Hx'ok).
  assert (∀ i, (i < n_strips plan)%nat → bad_of (index_map (n_strips plan) index) i = set_of index i) as Hbad
    by (intros; by apply index_map_bad).
  assert (agree_off plan (set_of index) x x') as Hxx.
  { intros i Hlt Hb. apply bool_decide_eq_false in Hb. specialize (Ho i Hb).
    pose proof (lay_len _ _ _ Hlay) as Hl. destruct (lookup_lt_is_Some_2 ptr i) as [a Ha]; [lia|].
    rewrite Ha in Ho. apply buffers_lookup in Hx as [_ Hx], Hx' as [_ Hx']. by rewrite <- (Hx i a Ha), <- (Hx' i a Ho). }
  pose proof (erased_ext plan _ _ Hbad) as He. rewrite (set_of_erased index Hok) in He.
  destruct (control_check_spec magic (index_map (n_strips plan) index) ptr' eptr (drop (length index) pwork) mem x')
    as (r & eptr' & mem' & -> & Hfr & Hr & Hgood & Hmust); try done.
  { unfold index_map. by rewrite length_fmap, length_seq. }
  { rewrite He. lia. }
  { rewrite He, length_drop. lia. }
  cbn [mbind option_bind]. do 2 eexists. split; [done|]. cbn [snd].
  assert (∀ a, a ∈ ptr → mem' !! a = mem !! a) as Hsame.
  { intros a Ha. pose proof (lay_nodup _ _ _ Hlay) as N. apply NoDup_app in N as (_ & Nd & _).
    apply (frame_other _ _ _ _ _ Hfr); [intros Hin; apply (Nd a Ha); rewrite <- (take_drop (length index) pwork); apply elem_of_app; by right|].
    intros j Hj. destruct (decide (j < n_strips plan)%nat) as [Hlt|Hge].
    - rewrite Hbad by done. apply bool_decide_eq_false. intros Hin. by apply (Nd a Ha), (Hi j).
    - apply lookup_lt_Some in Hj. rewrite (lay_len _ _ _ Hlay') in Hj. lia. }
  split; [|split; [done|split]].
  - split; [|rewrite <- Hx; by apply buffers_ext]. destruct Hlay as [N L R C]. split; [done|done| |].
    + by rewrite (frame_len _ _ _ _ _ Hfr).
    + by apply (frame_chunks _ _ _ _ _ Hfr).
  - intros Hr0. destruct (Hgood Hr0) as (y & Hy & _ & [Hey|[_ Hz]] & _); [|rewrite He in Hz; lia].
    exists index. split; [done|]. split; [done|]. split; [done|]. exists y. split; [|done].
    eapply result_ok_ext; [done| |done]. apply agree_off_sym. eapply agree_off_ext; [|exact Hxx]. intros; by rewrite Hbad.
  - intros S -> _ Hmp. apply Hmust. eapply must_pass_ext; [|exact Hxx|done]. intros; by rewrite Hbad.
Qed.

(** A loop over alternatives that each search a part. *)
Lemma brute_try_spec (P : nat → list nat → Prop) (f : nat → brute_state → option (Z * brute_state)) devs :
  (∀ i st, i ∈ devs → intact st.2 → search_post (P i) (f i st)) →
  ∀ st, intact st.2 → search_post (λ S, ∃ i, i ∈ devs ∧ P i S) (brute_try f devs st).
Proof.
  induction devs as [|i devs IH]; intros Hf st Hst; cbn [brute_try].
  { exists 1, st. split; [done|]. split; [done|]. split; [by right|]. split; [done|].
    intros S (i & Hi & _). by apply not_elem_of_nil in Hi. }
  destruct (Hf i st ltac:(by left) Hst) as (r & st1 & -> & Hst1 & Hr & Hgood & Hmust). cbn [mbind option_bind].
  destruct (decide (r = 0)) as [->|Hr0].
  - exists 0, st1. split; [done|]. split; [done|]. split; [by left|]. split; [|done].
    intros _. destruct (Hgood eq_refl) as (S & HS & Hfound). exists S. split; [exists i; split; [by left|done]|done].
  - destruct (IH ltac:(intros; apply Hf; [by right|done]) st1 Hst1) as (r2 & st2 & -> & Hst2 & Hr2 & Hgood2 & Hmust2).
    exists r2, st2. split; [done|]. split; [done|]. split; [done|]. split.
    + intros H2. destruct (Hgood2 H2) as (S & (j & Hj & HS) & Hfound). exists S. split; [|done]. exists j. split; [by right|done].
    + intros S (j & [->|Hj]%elem_of_cons & HS) HSok Hmp; [destruct Hr0; by eapply Hmust|eapply Hmust2; [by exists j|done|done]].
Qed.

(** The choices that extend [index] by [todo] chunks in ascending order. *)
Definition extends (todo : nat) (index S : list nat) : Prop :=
  ∃ rest, S = index ++ rest ∧ length rest = todo ∧ index_ok S.

Lemma search_post_iff (P Q : list nat → Prop) res :
  (∀ S, P S → Q S) → (∀ S, Q S → index_ok S → P S) → search_post P res → search_post Q res.
Proof.
  intros HPQ HQP (r & st & -> & Hst & Hr & Hgood & Hmust). exists r, st. split_and!; try done.
  - intros H2. destruct (Hgood H2) as (S & HS & Hfound). eauto.
  - intros S HS HSok. by apply Hmust; [apply HQP|].
Qed.

Lemma brute_recurse_spec todo : ∀ index st,
  intact st.2 → index_ok index → (0 < length index + todo ≤ parity_strips plan)%nat →
  search_post (extends todo index)
    (jerase_brute_recurse plan bs (n_strips plan) (parity_strips plan) todo index ptr pwork magic st).
Proof.
  induction todo as [|todo IH]; intros index st Hst Hok Hlen; cbn [jerase_brute_recurse].
  { destruct st as [[badmap eptr] mem]. eapply search_post_iff; [| |apply brute_leaf_spec; [done|done|lia]].
    - intros S ->. exists []. by rewrite app_nil_r.
    - intros S (rest & -> & Hr & _) _. apply nil_length_inv in Hr as ->. by rewrite app_nil_r. }
  set (start := match last index with None => 0%nat | Some i => S i end).
  assert (∀ i, i ∈ seq start (n_strips plan - start) → index_ok (index ++ [i])) as Hnext.
  { intros i Hi%elem_of_seq. destruct Hok as [Hs Hn]. split.
    - apply StronglySorted_app_2; [|done|constructor; constructor].
      intros j k Hj Hk. apply list_elem_of_singleton in Hk as ->. apply Nat.lt_le_trans with start; [|lia].
      unfold start. destruct (last index) as [z|] eqn:Hl; [|apply last_None in Hl as ->; by apply not_elem_of_nil in Hj].
      apply last_Some in Hl as [l ->]. apply elem_of_app in Hj as [Hj|Hj%list_elem_of_singleton]; [|lia].
      assert (j < z)%nat; [|lia]. by apply (StronglySorted_app_1_elem_of lt l [z] j z Hs Hj), list_elem_of_singleton.
    - apply Forall_app. split; [done|]. constructor; [lia|constructor]. }
  eapply search_post_iff; [| |apply (brute_try_spec (λ i, extends todo (index ++ [i])))].
  - intros S (i & Hi & rest & -> & Hr & HSok). exists (i :: rest). split; [by rewrite <- app_assoc|]. split; [simpl; lia|done].
  - intros S (rest & -> & Hr & HSok) _. destruct rest as [|i rest]; [done|]. exists i. split.
    + destruct HSok as [Hs Hn]. apply elem_of_seq. rewrite Forall_forall in Hn. specialize (Hn i ltac:(set_solver)).
      assert (start ≤ i)%nat; [|lia]. unfold start. destruct (last index) as [z|] eqn:Hl; [|lia].
      apply last_Some_elem_of in Hl. apply (StronglySorted_app_1_elem_of lt index (i :: rest) z i Hs Hl). by left.
    + exists rest. rewrite <- app_assoc. split; [done|]. split; [by injection Hr|done].
  - intros i st' Hi Hst'. apply IH; [done|by apply Hnext|rewrite length_app; simpl; lia].
  - done.
Qed.

(** The loop over the number of failures finds a smallest answer. *)
Lemma recovery_loop_spec cnt : ∀ k st,
  intact st.2 → (0 < k)%nat → (k + cnt ≤ S (parity_strips plan))%nat →
  ∃ r st', recovery_loop plan bs (n_strips plan) (parity_strips plan) (seq k cnt) ptr pwork magic st = Some (r, st') ∧
    intact st'.2 ∧ (r = 0 ∨ r = 1) ∧
    (r = 0 → ∃ index, found index st' ∧ (k ≤ length index < k + cnt)%nat ∧
       ∀ S, index_ok S → (k ≤ length S < length index)%nat → ¬ must_pass magic (set_of S) x) ∧
    (∀ S, index_ok S → (k ≤ length S < k + cnt)%nat → must_pass magic (set_of S) x → r = 0).
Proof.
  induction cnt as [|cnt IH]; intros k st Hst Hk Hle; cbn [seq recovery_loop].
  { exists 1, st. split_and!; try done; [by right|]. intros S _ HS. lia. }
  destruct (brute_recurse_spec k [] st Hst) as (r & st1 & -> & Hst1 & Hr & Hgood & Hmust);
    [split; constructor|simpl; lia|]. cbn [mbind option_bind].
  assert (∀ S, index_ok S → length S = k → must_pass magic (set_of S) x → r = 0) as Hk'.
  { intros S HS Hl. apply Hmust; [|done]. by exists S. }
  destruct (decide (r = 0)) as [->|Hr0].
  - exists 0, st1. split; [done|]. split; [done|]. split; [by left|]. split; [|done].
    intros _. destruct (Hgood eq_refl) as (S & (rest & -> & Hl & HSok) & Hf). exists rest. split; [done|]. split; [lia|].
    intros S' _ Hl'. lia.
  - destruct (IH (S k) st1 Hst1) as (r2 & st2 & -> & Hst2 & Hr2 & Hgood2 & Hmust2); [lia|lia|].
    exists r2, st2. split; [done|]. split; [done|]. split; [done|]. split.
    + intros H2. destruct (Hgood2 H2) as (S & Hf & Hl & Hmin). exists S. split; [done|]. split; [lia|].
      intros S' HS' Hl' Hmp. destruct (decide (length S' = k)) as [He|Hne]; [destruct Hr0; by eapply Hk'|].
      apply (Hmin S'); [done|lia|done].
    + intros S' HS' Hl' Hmp. destruct (decide (length S' = k)) as [He|Hne]; [destruct Hr0; by eapply Hk'|].
      apply (Hmust2 S'); [done|lia|done].
Qed.
End search.

Lemma erased_index_ok D : index_ok (erased plan D).
Proof.
  split; [apply StronglySorted_filter, seq_sorted|]. apply Forall_forall. intros i [_ Hi%elem_of_seq]%list_elem_of_filter. lia.
Qed.
Lemma erased_set_of D i : (i < n_strips plan)%nat → set_of (erased plan D) i = D i.
Proof.
  intros Hi. unfold set_of. destruct (D i) eqn:HD.
  - apply bool_decide_eq_true, list_elem_of_filter. split; [done|]. apply elem_of_seq. lia.
  - apply bool_decide_eq_false. intros [HD' _]%list_elem_of_filter. congruence.
Qed.

(** C30: Repairing a stripe.  Let [c] be the codeword that was written, and let
    the stripe differ from it, and be marked bad, in the chunks [D] at most.
    Without a checksum the search succeeds and yields [c] when [D] is at most
    half the parity; with the checksum of [c], it succeeds with a stripe of
    that checksum when [D] is at most the parity. *)
Theorem jerase_brute_recovery_correct magic badmap ptr eptr pwork mem x c D :
  layout mem ptr pwork → buffers mem ptr = Some x → length badmap = n_strips plan →
  length pwork = parity_strips plan → (0 < parity_strips plan)%nat →
  codeword plan bs c → agree_off plan D x c → (∀ i, bad_of badmap i = true → D i = true) →
  match magic with
  | None => (2 * length (erased plan D) ≤ parity_strips plan)%nat
  | Some g => cksum_of c = g ∧ (length (erased plan D) ≤ parity_strips plan)%nat
  end →
  ∃ badmap' eptr' mem' y,
    jerase_brute_recovery plan bs (n_strips plan) (parity_strips plan) badmap ptr eptr pwork magic mem =
      Some (0, (badmap', eptr', mem')) ∧
    match magic with None => y = c | Some g => stripe_ok plan bs y ∧ cksum_of y = g end ∧
    (buffers mem' eptr' = Some y ∨ magic ≠ None ∧ bad_count badmap = 0%nat ∧ y = x).
Proof.
  intros Hlay Hx Hmap Hwork Hm Hc Hxc HD Hmagic. unfold jerase_brute_recovery.
  assert (length (erased plan (bad_of badmap)) ≤ length (erased plan D))%nat as Hle by (apply erased_length_le; auto).
  assert (length (erased plan D) ≤ parity_strips plan)%nat as HDm by (destruct magic; lia).
  pose proof (layout_stripe _ _ _ _ Hlay Hx) as Hok.
  destruct (control_check_spec magic badmap ptr eptr pwork mem x Hlay Hx Hmap ltac:(lia) Hm ltac:(lia))
    as (r & eptr1 & mem1 & -> & Hfr & Hr & Hgood & Hmust). cbn [mbind option_bind].
  destruct (decide (r = 0)) as [->|Hr0].
  - destruct (Hgood eq_refl) as (y & (Hy & Hxy & Hmg) & Hp & He & _).
    exists badmap, eptr1, mem1, y. split; [done|]. split.
    + destruct magic; [by split|]. apply (codeword_unique plan bs y c D); [done|done|lia|].
      eapply agree_off_trans; [|exact Hxc]. apply agree_off_sym. eapply agree_off_weaken; [|exact Hxy].
      intros i Hi. destruct (bad_of badmap i) eqn:Hb; [|done]. by rewrite HD in Hi.
    + destruct He as [?|[Hmn Hz]]; [by left|right]. rewrite (bad_count_erased _ Hmap). split; [done|]. split; [done|].
      symmetry. by eapply agree_off_none.
  - pose proof (layout_frame _ _ _ _ _ Hlay Hfr) as Hlay1. destruct (layout_buffers _ _ _ Hlay1) as (x1 & Hx1 & _).
    pose proof (frame_stripe _ _ _ _ _ _ _ Hlay Hfr Hx Hx1) as Hxx1.
    assert (agree_off plan D x1 c) as Hx1c.
    { eapply agree_off_trans; [|exact Hxc]. apply agree_off_sym. eapply agree_off_weaken; [|exact Hxx1].
      intros i Hi. destruct (bad_of badmap i) eqn:Hb; [|done]. by rewrite HD in Hi. }
    assert (0 < length (erased plan D))%nat as HD0.
    { destruct (decide (length (erased plan D) = 0%nat)) as [Hz|]; [|lia]. destruct Hr0. apply Hmust. exists c.
      rewrite (agree_off_none _ _ _ _ _ Hz Hok (proj1 Hc) Hxc). split; [done|]. split; [done|]. by destruct magic as [g|]; [apply Hmagic|]. }
    set (ncheck := match magic with Some _ => S (parity_strips plan) | None => parity_strips plan end).
    destruct (recovery_loop_spec ptr pwork magic x1 Hm Hwork (ncheck - 1) 1 (replicate (n_strips plan) false, eptr1, mem1))
      as (r2 & [[badmap2 eptr2] mem2] & -> & _ & _ & Hgood2 & Hmust2); [done|lia|unfold ncheck; destruct magic; lia|].
    assert (must_pass magic (set_of (erased plan D)) x1) as HmpD.
    { exists c. split; [done|]. split; [eapply agree_off_ext; [|exact Hx1c]; intros; by rewrite erased_set_of|].
      by destruct magic as [g|]; [apply Hmagic|]. }
    assert (r2 = 0) as ->.
    { apply (Hmust2 (erased plan D)); [apply erased_index_ok| |done]. unfold ncheck. destruct magic; lia. }
    destruct (Hgood2 eq_refl) as (S & (HSok & -> & y & (Hy & Hx1y & Hmg) & Hey) & Hl & Hmin).
    do 4 eexists. split; [done|]. split; [|by left]. destruct magic as [g|]; [by split|].
    apply (codeword_unique plan bs y c (λ i, set_of S i || D i)); [done|done| |].
    + pose proof (erased_length_union plan (set_of S) D) as Hun. rewrite (set_of_erased S HSok) in Hun.
      assert (length S ≤ length (erased plan D))%nat; [|lia].
      destruct (decide (length (erased plan D) < length S)%nat) as [Hlt|]; [|lia].
      exfalso. apply (Hmin (erased plan D)); [apply erased_index_ok|lia|done].
    + eapply agree_off_trans; [apply agree_off_sym|]; (eapply agree_off_weaken; [|first [exact Hx1y|exact Hx1c]]);
        intros i; by intros [? ?]%orb_false_iff.
Qed.

(** The check without a checksum, with no more chunks marked bad than the
    parity can rebuild: it returns, and it returns 0 exactly when the other
    chunks belong to a codeword.  Then the bad chunks have been rebuilt in
    place, also behind the array [eptr]; in any case nothing but the bad chunks
    and the work buffers changes. *)
Theorem jerase_control_check_correct badmap ptr eptr pwork mem x :
  layout mem ptr pwork → buffers mem ptr = Some x → length badmap = n_strips plan →
  (bad_count badmap ≤ parity_strips plan)%nat → (0 < parity_strips plan)%nat → length pwork = parity_strips plan →
  ∃ r eptr' mem',
    jerase_control_check plan bs (n_strips plan) (parity_strips plan) badmap ptr eptr pwork None mem = Some (r, eptr', mem') ∧
    (r = 0 ↔ ∃ c, codeword plan bs c ∧ agree_off plan (bad_of badmap) x c) ∧
    (∀ c, r = 0 → codeword plan bs c → agree_off plan (bad_of badmap) x c →
       buffers mem' ptr = Some c ∧ buffers mem' eptr' = Some c) ∧
    length mem' = length mem ∧
    (∀ a, a ∉ pwork → (∀ i, ptr !! i = Some a → badmap !! i = Some false) → mem' !! a = mem !! a).
Proof.
  intros Hlay Hx Hmap Hbad Hm Hw. rewrite (bad_count_erased _ Hmap) in Hbad.
  destruct (control_check_spec None badmap ptr eptr pwork mem x Hlay Hx Hmap Hbad Hm ltac:(lia))
    as (r & eptr' & mem' & Hrun & Hfr & Hr & Hgood & Hmust).
  exists r, eptr', mem'. split; [done|]. split; [|split; [|split]].
  - split.
    + intros Hz. destruct (Hgood Hz) as (y & (_ & Hxy & Hy) & _). by exists y.
    + intros (c & Hc & Hxc). apply Hmust. by exists c.
  - intros c Hz Hc Hxc. destruct (Hgood Hz) as (y & _ & Hp & [He|[? _]] & Hu); [|done]. by rewrite (Hu c Hc Hxc) in Hp, He.
  - apply Hfr.
  - intros a Ha Hb. apply (frame_other _ _ _ _ _ Hfr); [done|]. intros i Hi. unfold bad_of. by rewrite (Hb i Hi).
Qed.
End stripe.
