(* ===== verification/Jerase.v ===== *)
(** * Erasure-coded segments (segment_jerasure.c)

    A segment of stripes over a LUN segment with one device per chunk: every
    chunk, data or parity, is stored behind a four-byte magic, which is the
    checksum of the whole stripe ([je_magic_cksum]) or, in older segments,
    just the same for all chunks of a stripe.

    A request is a list of extents in whole stripes; each extent is one
    operation on the child.  The bookkeeping that bounds the memory for parity
    only decides which operations are waited for together and is not modelled;
    what the magic and parity memory holds beforehand is a parameter. *)
From S2P Require Import Prelude Words Seg Raid4 Erasure ErasureCode JeraseSpec.
#[local] Open Scope Z_scope.

(** The child as the driver uses it: reads and writes of one extent, with the
    largest number of devices the child may skip as slow, and resizing. *)
Class JeraseChild (S : Type) := {
  jc_size : S → Z;
  jc_read : S → Z → ex_iovec → tbuffer → Z → S * tbuffer * op_status;
  jc_write : S → Z → ex_iovec → tbuffer → Z → S * op_status;
  jc_truncate : S → Z → S * op_status }.

(** [segjerase_priv_t]; sizes that follow from others are functions. *)
Record segjerase_priv (S : Type) := Segjerase_priv {
  je_child : S;
  je_plan : erasure_plan;
  je_blacklist : bool;
  je_write_errors : Z;
  je_soft_errors : Z;
  je_hard_errors : Z;
  je_n_data_devs : nat;
  je_n_parity_devs : nat;
  je_magic_cksum : bool;
  je_chunk_size : nat;
  je_paranoid_check : Z }.
Arguments Segjerase_priv {S}.
Arguments je_child {S}. Arguments je_plan {S}. Arguments je_blacklist {S}. Arguments je_write_errors {S}.
Arguments je_soft_errors {S}. Arguments je_hard_errors {S}. Arguments je_n_data_devs {S}.
Arguments je_n_parity_devs {S}. Arguments je_magic_cksum {S}. Arguments je_chunk_size {S}. Arguments je_paranoid_check {S}.

Section jerase.
Context {S : Type} `{!Jerasure, !Adler, !JeraseChild S, !Gop}.
Implicit Types (s : segjerase_priv S).

Definition je_n_devs s : nat := je_n_data_devs s + je_n_parity_devs s.
Definition je_data_size s : Z := Z.of_nat (je_chunk_size s) * Z.of_nat (je_n_data_devs s).
Definition je_chunk_size_with_magic s : Z := Z.of_nat (je_chunk_size s) + Z.of_nat JE_MAGIC_SIZE.
Definition je_stripe_size_with_magic s : Z := je_chunk_size_with_magic s * Z.of_nat (je_n_devs s).

Definition je_set_child s c : segjerase_priv S :=
  Segjerase_priv c (je_plan s) (je_blacklist s) (je_write_errors s) (je_soft_errors s) (je_hard_errors s)
    (je_n_data_devs s) (je_n_parity_devs s) (je_magic_cksum s) (je_chunk_size s) (je_paranoid_check s).
Definition je_set_magic_cksum s b : segjerase_priv S :=
  Segjerase_priv (je_child s) (je_plan s) (je_blacklist s) (je_write_errors s) (je_soft_errors s) (je_hard_errors s)
    (je_n_data_devs s) (je_n_parity_devs s) b (je_chunk_size s) (je_paranoid_check s).

(** Counting soft and hard errors; a write also records that there were some
    and turns the paranoid check on. *)
Definition je_account (write soft hard : bool) s : segjerase_priv S :=
  if soft || hard then
    Segjerase_priv (je_child s) (je_plan s) (je_blacklist s) (if write then 1 else je_write_errors s)
      (if soft then je_soft_errors s + 1 else je_soft_errors s)
      (if hard then je_hard_errors s + 1 else je_hard_errors s)
      (je_n_data_devs s) (je_n_parity_devs s) (je_magic_cksum s) (je_chunk_size s)
      (if write then 1 else je_paranoid_check s)
  else s.

(** ** The magics of a stripe *)

(** [magic_key], [magic_count] and [magic_devs]: the magics found and, for each,
    the devices that have it. *)
Fixpoint magic_insert (tab : list (list Z * list nat)) (m : list Z) (k : nat) : list (list Z * list nat) :=
  match tab with
  | [] => [(m, [k])]
  | (m', devs) :: tab => if decide (m' = m) then (m', devs ++ [k]) :: tab else (m', devs) :: magic_insert tab m k
  end.
Definition magic_table (magics : list (list Z)) : list (list Z * list nat) :=
  foldl (λ tab km, magic_insert tab km.2 km.1) [] (zip (seq 0 (length magics)) magics).

(** The first of the magics with the most devices. *)
Fixpoint quorum (best : list Z * list nat) (tab : list (list Z * list nat)) : list Z * list nat :=
  match tab with
  | [] => best
  | e :: tab => quorum (if decide (length best.2 < length e.2)%nat then e else best) tab
  end.

(** The devices whose magic is not the quorum's. *)
Definition other_magics (m : list Z) (tab : list (list Z * list nat)) (k : nat) : bool :=
  existsb (λ e, negb (bool_decide (e.1 = m)) && bool_decide (k ∈ e.2)) tab.

Definition empty_magic : list Z := replicate JE_MAGIC_SIZE 0.

(** ** Reading a stripe *)

(** What is carried from stripe to stripe: the last bad map the search found,
    the work buffers, the variable [op_status] (only its code is used), and the
    outcome. *)
Record read_state := Read_state {
  rd_brute : option (list bool);
  rd_pbuff : list chunk;
  rd_op_code : Z;
  rd_status : op_status;
  rd_soft : bool;
  rd_hard : bool }.

Definition rd_set_outcome (r : read_state) code st soft hard : read_state :=
  Read_state (rd_brute r) (rd_pbuff r) code st soft hard.

(** The chunks the search rebuilt, copied over those of the stripe. *)
Fixpoint copy_back (ptr eptr : list nat) (devs : list nat) (mem : chunk_mem) : option chunk_mem :=
  match devs with
  | [] => Some mem
  | k :: devs =>
      e ← eptr !! k; p ← ptr !! k;
      if decide (e = p) then copy_back ptr eptr devs mem
      else c ← mem !! e; copy_back ptr eptr devs (<[p := c]> mem)
  end.

(** The recovery of one stripe; the chunks are behind the pointers from 0, the
    work buffers behind those from [je_n_devs] on. *)
Definition recover_stripe s (magic : option (list Z)) (badmap : list bool) (chunks : list chunk) (r : read_state)
    : option (list chunk * read_state) :=
  let n := je_n_devs s in
  let ptr := seq 0 n in
  let pwork := seq n (je_n_parity_devs s) in
  '(res, eptr, mem) ← jerase_control_check (je_plan s) (je_chunk_size s) n (je_n_parity_devs s) badmap ptr [] pwork magic
    (chunks ++ rd_pbuff r);
  if decide (res = 0) then
    Some (take n mem, Read_state (rd_brute r) (drop n mem) (rd_op_code r) (rd_status r) (rd_soft r) (rd_hard r))
  else
    '(res, (badmap, eptr, mem)) ← jerase_brute_recovery (je_plan s) (je_chunk_size s) n (je_n_parity_devs s)
      (default badmap (rd_brute r)) ptr eptr pwork magic mem;
    if decide (res = 0) then
      mem ← copy_back ptr eptr (seq 0 (je_n_data_devs s)) mem;
      Some (take n mem, Read_state (Some badmap) (drop n mem) (rd_op_code r) (rd_status r) (rd_soft r) (rd_hard r))
    else
      Some (take n mem, Read_state (rd_brute r) (drop n mem) (rd_op_code r)
        (Op_status OP_STATE_FAILURE (rd_op_code r)) (rd_soft r) true).

(** [data_ok]: 1, all data chunks belong to the stripe; 0, some do not; 2, an
    empty stripe; -1, an empty stripe that cannot be trusted. *)
Definition stripe_data_ok s (m : list Z) (devs : list nat) (err : Z) : Z :=
  if decide (length devs ≠ je_n_devs s) then
    let j := length (filter (λ k, (k < je_n_data_devs s)%nat) devs) in
    if decide (j ≠ je_n_data_devs s) then 0 else 1
  else if decide (m = empty_magic) then
    if decide (err < Z.of_nat (je_n_parity_devs s)) then 2 else -1
  else 1.

Definition read_stripe s (check_status : op_status) (magics : list (list Z)) (chunks : list chunk) (r : read_state)
    : option (list chunk * read_state) :=
  let err := error_code check_status in
  let paranoid := bool_decide (err ≠ 0) || bool_decide (je_paranoid_check s = 1) in
  let tab := magic_table magics in
  e0 ← head tab;
  let '(m, devs) := quorum e0 (tail tab) in
  let data_ok := stripe_data_ok s m devs err in
  let magic := if je_magic_cksum s then Some m else None in
  let badmap := other_magics m tab <$> seq 0 (je_n_devs s) in
  if decide (data_ok = 1) then
    if paranoid then recover_stripe s magic badmap chunks r else Some (chunks, r)
  else if decide (data_ok = 2) then
    Some ((const (replicate (je_chunk_size s) 0) <$> take (je_n_data_devs s) chunks) ++ drop (je_n_data_devs s) chunks, r)
  else if decide ((length devs < je_n_data_devs s)%nat ∨ data_ok = -1) then
    Some (chunks, rd_set_outcome r err (Op_status OP_STATE_FAILURE err) (rd_soft r) true)
  else
    recover_stripe s magic badmap chunks
      (rd_set_outcome r err (Op_status (op_st (rd_status r)) err) true (rd_hard r)).

(** ** Reading *)

(** Where a position of the child's extent lies: stripe, device, and place in
    the chunk with its magic. *)
Definition je_pos s (p : Z) : Z * Z * Z :=
  (p / je_stripe_size_with_magic s, (p / je_chunk_size_with_magic s) mod Z.of_nat (je_n_devs s),
   p mod je_chunk_size_with_magic s).

(** The transfer buffer of an extent before the read: the caller's data at
    [dpos], and what the magic and parity memory holds. *)
Definition read_view s (buf : tbuffer) (dpos : Z) (stale : tbuffer) : tbuffer := λ p,
  let '(row, dev, q) := je_pos s p in
  if decide (Z.of_nat JE_MAGIC_SIZE ≤ q ∧ dev < Z.of_nat (je_n_data_devs s))
  then buf (dpos + row * je_data_size s + dev * Z.of_nat (je_chunk_size s) + (q - Z.of_nat JE_MAGIC_SIZE))
  else stale p.

Definition row_magics s (t : tbuffer) (row : nat) : list (list Z) :=
  (λ k, list_of_buf t (Z.of_nat row * je_stripe_size_with_magic s + Z.of_nat k * je_chunk_size_with_magic s) JE_MAGIC_SIZE)
    <$> seq 0 (je_n_devs s).
Definition row_chunks s (t : tbuffer) (row : nat) : list chunk :=
  (λ k, list_of_buf t (Z.of_nat row * je_stripe_size_with_magic s + Z.of_nat k * je_chunk_size_with_magic s + Z.of_nat JE_MAGIC_SIZE)
     (je_chunk_size s)) <$> seq 0 (je_n_devs s).

(** The data chunks of a stripe in the caller's buffer. *)
Definition put_data s (buf : tbuffer) (pos : Z) (chunks : list chunk) : tbuffer :=
  buf_put buf pos (je_data_size s) (buf_of_list (concat (take (je_n_data_devs s) chunks))) 0.

(** The stripes [rows] of an extent that arrived in [t]. *)
Fixpoint read_rows s (check_status : op_status) (t : tbuffer) (dpos : Z) (rows : list nat) (buf : tbuffer) (r : read_state)
    : option (tbuffer * read_state) :=
  match rows with
  | [] => Some (buf, r)
  | row :: rows =>
      '(chunks, r) ← read_stripe s check_status (row_magics s t row) (row_chunks s t row) r;
      read_rows s check_status t dpos rows (put_data s buf (dpos + Z.of_nat row * je_data_size s) chunks) r
  end.

Definition je_extent s (v : ex_iovec) : ex_iovec * Z :=
  let nstripes := iov_len v / je_data_size s in
  (Ex_iovec (iov_offset v / je_data_size s * je_stripe_size_with_magic s) (nstripes * je_stripe_size_with_magic s), nstripes).

(** The extents of a request; the data of each start at [dpos].  The child is
    given [dpos] as the position in the extent's own transfer buffer. *)
Fixpoint read_iov s (max_blacklist : Z) (stale : nat → tbuffer) (child : S) (iov : list ex_iovec) (buf : tbuffer) (dpos : Z)
    (r : read_state) : option (S * tbuffer * read_state) :=
  match iov with
  | [] => Some (child, buf, r)
  | v :: iov =>
      let '(ex, nstripes) := je_extent s v in
      let '(child, t, st) := jc_read child max_blacklist ex (read_view s buf dpos (stale (length iov))) dpos in
      '(buf, r) ← read_rows s st t dpos (seq 0 (Z.to_nat nstripes)) buf r;
      read_iov s max_blacklist stale child iov buf (dpos + iov_len v) r
  end.

(** The devices the child may skip: as many as there is parity for, or as the
    caller allows. *)
Definition je_max_blacklist s (hints : option Z) : Z :=
  match hints with
  | None => Z.of_nat (je_n_parity_devs s)
  | Some h => if decide (h > Z.of_nat (je_n_parity_devs s)) then Z.of_nat (je_n_parity_devs s) else h
  end.

(** [segjerase_read_func].  A second pass, with no device skipped, follows a
    hard error when there is a blacklist.  [junk] is what the work buffers and
    the variable [op_status] hold at first. *)
Definition segjerase_read_func s (hints : option Z) (stale : nat → tbuffer) (junk : list chunk * Z)
    (iov : list ex_iovec) (buf : tbuffer) (boff : Z) : option (segjerase_priv S * tbuffer * op_status) :=
  let r0 := Read_state None junk.1 junk.2 op_success_status false false in
  '(child, buf, r) ← read_iov s (je_max_blacklist s hints) stale (je_child s) iov buf boff r0;
  '(child, buf, r) ←
    (if rd_hard r && je_blacklist s
     then read_iov s 0 stale child iov buf boff (Read_state None (rd_pbuff r) (rd_op_code r) op_success_status false false)
     else Some (child, buf, r));
  Some (je_account false (rd_soft r) (rd_hard r) (je_set_child s child), buf, rd_status r).

(** ** Writing *)

(** The bytes of one stripe as the child stores them. *)
Definition stripe_bytes (m : list Z) (chunks : list chunk) : list Z := concat ((λ c, m ++ c) <$> chunks).

(** Encoding the stripe at [pos]; [parity] is the uninitialised parity memory. *)
Definition encode_stripe s (buf : tbuffer) (pos : Z) (parity : list chunk) : option (list chunk) :=
  encode_block (je_plan s)
    (((λ k, list_of_buf buf (pos + Z.of_nat k * Z.of_nat (je_chunk_size s)) (je_chunk_size s)) <$> seq 0 (je_n_data_devs s)) ++ parity)
    (je_chunk_size s).

Fixpoint write_rows s (buf : tbuffer) (pos : Z) (parity : list chunk) (n : nat) : option (list Z) :=
  match n with
  | O => Some []
  | Datatypes.S n =>
      c ← encode_stripe s buf pos parity;
      rest ← write_rows s buf (pos + je_data_size s) parity n;
      Some (stripe_bytes (cksum_of c) c ++ rest)
  end.

Record write_state := Write_state { wr_status : op_status; wr_soft : bool; wr_hard : bool }.

Definition write_outcome s (st : op_status) (w : write_state) : write_state :=
  if decide (op_st st = OP_STATE_SUCCESS) then w
  else if decide (error_code st > Z.of_nat (je_n_parity_devs s)) then Write_state st (wr_soft w) true
  else Write_state (Op_status (op_st (wr_status w)) (error_code st)) true (wr_hard w).

Fixpoint write_iov s (max_blacklist : Z) (parity : list chunk) (child : S) (iov : list ex_iovec) (buf : tbuffer) (dpos : Z)
    (w : write_state) : option (S * write_state) :=
  match iov with
  | [] => Some (child, w)
  | v :: iov =>
      let '(ex, nstripes) := je_extent s v in
      bytes ← write_rows s buf dpos parity (Z.to_nat nstripes);
      let '(child, st) := jc_write child max_blacklist ex (buf_of_list bytes) dpos in
      write_iov s max_blacklist parity child iov buf (dpos + iov_len v) (write_outcome s st w)
  end.

Definition segjerase_write_func s (hints : option Z) (parity : list chunk)
    (iov : list ex_iovec) (buf : tbuffer) (boff : Z) : option (segjerase_priv S * op_status) :=
  let w0 := Write_state op_success_status false false in
  '(child, w) ← write_iov s (je_max_blacklist s hints) parity (je_child s) iov buf boff w0;
  '(child, w) ← (if wr_hard w && je_blacklist s then write_iov s 0 parity child iov buf boff w0 else Some (child, w));
  Some (je_account true (wr_soft w) (wr_hard w) (je_set_child s child), wr_status w).

(** ** Requests *)

(** Whether every extent is made of whole stripes. *)
Definition whole_stripes s (iov : list ex_iovec) : bool :=
  forallb (λ v, bool_decide (Z.rem (iov_offset v) (je_data_size s) = 0) && bool_decide (Z.rem (iov_len v) (je_data_size s) = 0)) iov.

(** The calls return no operation for other requests: [inl]. *)
Definition segjerase_read s hints stale junk iov buf boff : () + option (segjerase_priv S * tbuffer * op_status) :=
  if whole_stripes s iov then inr (segjerase_read_func s hints stale junk iov buf boff) else inl ().
Definition segjerase_write s hints parity iov buf boff : () + option (segjerase_priv S * op_status) :=
  if whole_stripes s iov then inr (segjerase_write_func s hints parity iov buf boff) else inl ().

(** ** Sizes *)
Definition segjerase_truncate s (new_size : Z) : segjerase_priv S * op_status :=
  let abs_size := if decide (new_size < 0) then - new_size else new_size in
  let tweaked := abs_size / je_data_size s in
  let tweaked := if decide (abs_size mod je_data_size s > 0) then tweaked + 1 else tweaked in
  let tweaked := tweaked * je_stripe_size_with_magic s in
  let s := if decide (new_size = 0) then je_set_magic_cksum s true else s in
  let tweaked := if decide (new_size < 0) then - tweaked else tweaked in
  let '(child, st) := jc_truncate (je_child s) tweaked in
  (je_set_child s child, st).

Definition segjerase_block_size s : Z := je_data_size s.
Definition segjerase_size s : Z := jc_size (je_child s) / je_stripe_size_with_magic s * je_data_size s.
End jerase.
