(* ===== verification/JeraseRw.v ===== *)
(** * Erasure-coded segments: correctness of reads and writes

    A stripe that was written keeps being read as what was written while the
    devices that lost it, in either operation, are no more than the parity and
    fewer than half. *)
From S2P Require Import Prelude Words Seg Raid4 Erasure ErasureCode JeraseSpec Jerase.
#[local] Open Scope Z_scope.

(** ** The magics of a stripe *)
Section magics.
Implicit Types (tab : list (list Z * list nat)) (magics : list (list Z)).

(** The devices with a given magic. *)
Definition devs_with magics (m : list Z) : list nat := filter (λ k, magics !! k = Some m) (seq 0 (length magics)).

(** The table has one entry for each magic there is, with its devices. *)
Definition tab_ok magics tab : Prop :=
  (∀ m devs, (m, devs) ∈ tab ↔ devs = devs_with magics m ∧ devs ≠ []) ∧ NoDup tab.*1.

Lemma devs_with_snoc magics m m' :
  devs_with (magics ++ [m]) m' = devs_with magics m' ++ (if decide (m = m') then [length magics] else []).
Proof.
  unfold devs_with. rewrite length_app. simpl. rewrite Nat.add_1_r, seq_S, filter_app. simpl. f_equal.
  - apply filter_ext_in. intros k Hk%elem_of_seq. by rewrite lookup_app_l by lia.
  - rewrite filter_cons. rewrite list_lookup_middle by done. repeat case_decide; simplify_eq; try done.
Qed.

Lemma magic_insert_keys tab m k m' : m' ∈ (magic_insert tab m k).*1 ↔ m' = m ∨ m' ∈ tab.*1.
Proof.
  induction tab as [|[m1 d1] tab IH]; simpl; [set_solver|]. case_decide as Hm; simpl; [set_solver|].
  rewrite !elem_of_cons, IH. tauto.
Qed.

Lemma magic_insert_spec tab m k m' devs :
  NoDup tab.*1 →
  (m', devs) ∈ magic_insert tab m k ↔
    (m' ≠ m ∧ (m', devs) ∈ tab) ∨
    (m' = m ∧ ((∃ d, (m, d) ∈ tab ∧ devs = d ++ [k]) ∨ (m ∉ tab.*1) ∧ devs = [k])).
Proof.
  induction tab as [|[m1 d1] tab IH]; intros Hnd; cbn [magic_insert].
  { rewrite list_elem_of_singleton. split.
    - intros [= -> ->]. right. split; [done|]. right. split; [apply not_elem_of_nil|done].
    - intros [[_ ?%not_elem_of_nil]|[-> [(d & ?%not_elem_of_nil & _)|[_ ->]]]]; done. }
  rewrite fmap_cons in Hnd |- *. cbn [fst] in *. apply NoDup_cons in Hnd as [Hni Hnd]. case_decide as Hm.
  - subst m1. setoid_rewrite elem_of_cons. split.
    + intros [[= -> ->]|Hin]; [right; split; [done|]; left; exists d1; split; [by left|done]|].
      left. split; [|by right]. intros ->. apply Hni. apply list_elem_of_fmap. by exists (m, devs).
    + intros [[Hne [Heq|Hin]]|[-> [(d & [Heq|Hin] & ->)|[Hno _]]]].
      * by injection Heq.
      * by right.
      * injection Heq as ->. by left.
      * destruct Hni. apply list_elem_of_fmap. by exists (m, d).
      * destruct Hno. by left.
  - rewrite elem_of_cons, IH by done. setoid_rewrite elem_of_cons. split.
    + intros [[= -> ->]|[[Hne Hin]|[-> [(d & Hin & ->)|[Hno ->]]]]].
      * left. split; [done|by left].
      * left. split; [done|by right].
      * right. split; [done|]. left. exists d. split; [by right|done].
      * right. split; [done|]. right. split; [|done]. intros [?|?]; [congruence|done].
    + intros [[Hne [Heq|Hin]]|[-> [(d & [Heq|Hin] & ->)|[Hno ->]]]].
      * by left.
      * right. left. done.
      * by injection Heq.
      * right. right. split; [done|]. left. by exists d.
      * right. right. split; [done|]. right. split; [|done]. intros ?. apply Hno. by right.
Qed.

Lemma magic_insert_nodup tab m k : NoDup tab.*1 → NoDup (magic_insert tab m k).*1.
Proof.
  induction tab as [|[m1 d1] tab IH]; simpl; intros Hnd; [apply NoDup_singleton|].
  apply NoDup_cons in Hnd as [Hni Hnd]. case_decide as Hm; simpl; constructor; auto.
  rewrite magic_insert_keys. intros [?|?]; [congruence|done].
Qed.

Lemma magic_table_ok magics : tab_ok magics (magic_table magics).
Proof.
  induction magics as [|m magics [IH Hnd]] using rev_ind.
  { split; [|constructor]. intros m devs. split; [by intros ?%not_elem_of_nil|]. intros [-> Hne]. done. }
  unfold magic_table. rewrite length_app, seq_app. simpl.
  rewrite zip_with_app by (by rewrite length_seq). rewrite foldl_app. simpl. fold (magic_table magics).
  split; [|by apply magic_insert_nodup]. intros m' devs. rewrite magic_insert_spec, devs_with_snoc by done.
  setoid_rewrite IH. destruct (decide (m = m')) as [->|Hm].
  - split.
    + intros [[? _]|[_ [(d & [-> Hd] & ->)|[Hno ->]]]]; [done| |].
      * split; [done|]. by destruct (devs_with magics m').
      * split; [|done]. destruct (devs_with magics m') as [|k l] eqn:E; [done|]. destruct Hno.
        apply list_elem_of_fmap. exists (m', k :: l). split; [done|]. by apply IH.
    + intros [-> _]. right. split; [done|]. destruct (devs_with magics m') as [|k l] eqn:E.
      * right. split; [|done]. intros [[m1 d1] [-> Hin%IH]]%list_elem_of_fmap. simpl in Hin. by destruct Hin as [-> ?].
      * left. exists (k :: l). done.
  - rewrite app_nil_r. split; [|intros [-> ?]; left; split; [congruence|done]].
    intros [[_ ?]|[-> _]]; done.
Qed.

(** The quorum is an entry with the most devices. *)
Lemma quorum_spec tab : ∀ best,
  quorum best tab ∈ best :: tab ∧ ∀ e, e ∈ best :: tab → (length e.2 ≤ length (quorum best tab).2)%nat.
Proof.
  induction tab as [|e tab IH]; intros best; cbn [quorum].
  { split; [by left|]. by intros e ->%list_elem_of_singleton. }
  destruct (IH (if decide (length best.2 < length e.2)%nat then e else best)) as [Hin Hmax]. split.
  - apply elem_of_cons in Hin as [->|Hin]; [case_decide; set_solver|set_solver].
  - intros e' He'. rewrite !elem_of_cons in He'.
    assert (∀ x, x = best ∨ x = e → (length x.2 ≤ length (if decide (length best.2 < length e.2)%nat then e else best).2)%nat) as Hb.
    { intros x [->| ->]; case_decide; lia. }
    destruct He' as [->|[->|He']]; [| |by apply Hmax; right];
      (etrans; [apply Hb; auto|apply Hmax; by left]).
Qed.
End magics.

(** ** Reading a stripe *)
Section stripe.
Context {S : Type} `{!Jerasure, !Adler, !JeraseChild S, !Gop}.
Implicit Types (s : segjerase_priv S) (c chunks : list chunk) (D : nat → bool) (r : read_state).

Record je_ok s : Prop := {
  je_dims : data_strips (je_plan s) = je_n_data_devs s ∧ parity_strips (je_plan s) = je_n_parity_devs s;
  je_mds : MdsPlan (je_plan s) (je_chunk_size s);
  je_sizes : (0 < je_n_data_devs s)%nat ∧ (0 < je_n_parity_devs s)%nat ∧ (0 < je_chunk_size s)%nat }.

Lemma je_strips s : je_ok s → n_strips (je_plan s) = je_n_devs s.
Proof. intros [[Hk Hm] _ _]. unfold n_strips, je_n_devs. by rewrite Hk, Hm. Qed.

Definition pbuff_ok s r : Prop :=
  length (rd_pbuff r) = je_n_parity_devs s ∧ Forall (λ b, length b = je_chunk_size s) (rd_pbuff r).

Abbreviation stripe_c s := (codeword (je_plan s) (je_chunk_size s)).
Abbreviation count s D := (length (erased (je_plan s) D)).

(** The chunks of [c], behind its checksum, except for the devices [D], whose
    magic is another one. *)
Definition arrived s c D (magics : list (list Z)) chunks : Prop :=
  length magics = je_n_devs s ∧ stripe_ok (je_plan s) (je_chunk_size s) chunks ∧
  ∀ k, (k < je_n_devs s)%nat →
    (D k = false → magics !! k = Some (cksum_of c) ∧ chunks !! k = c !! k) ∧
    (D k = true → magics !! k ≠ Some (cksum_of c)).

Section arrived.
Context s c D (magics : list (list Z)) chunks (Hok : je_ok s) (Ha : arrived s c D magics chunks).

Lemma arrived_devs : devs_with magics (cksum_of c) = erased (je_plan s) (λ k, negb (D k)).
Proof.
  destruct Ha as (Hl & _ & Hk). unfold devs_with, erased. rewrite (je_strips s Hok), Hl. apply filter_ext_in.
  intros k Hin%elem_of_seq. destruct (Hk k ltac:(lia)) as [Hg Hb]. destruct (D k); simpl.
  - split; [intros H'; by destruct Hb|done].
  - split; [done|]. intros _. by apply Hg.
Qed.

(** The stripe's own magic has the quorum. *)
Lemma arrived_quorum :
  (2 * count s D < je_n_devs s)%nat →
  ∃ e0 tab, magic_table magics = e0 :: tab ∧ quorum e0 tab = (cksum_of c, erased (je_plan s) (λ k, negb (D k))).
Proof.
  intros Hmaj. destruct (magic_table_ok magics) as [Htab _]. pose proof (erased_length_total (je_plan s) D) as Ht.
  rewrite (je_strips s Hok) in Ht.
  assert ((cksum_of c, erased (je_plan s) (λ k, negb (D k))) ∈ magic_table magics) as Hin.
  { apply Htab. rewrite arrived_devs. split; [done|]. intros He. rewrite He in Ht. simpl in Ht. lia. }
  destruct (magic_table magics) as [|e0 tab]; [by apply not_elem_of_nil in Hin|]. exists e0, tab. split; [done|].
  destruct (quorum_spec tab e0) as [Hq Hmax]. specialize (Hmax _ Hin). cbn [snd] in Hmax.
  destruct (quorum e0 tab) as [m devs]. apply Htab in Hq as [-> Hne]. cbn [snd] in Hmax.
  destruct (decide (m = cksum_of c)) as [->|Hm]; [by rewrite arrived_devs|]. exfalso.
  assert (length (devs_with magics m) ≤ count s D)%nat; [|lia].
  apply submseteq_length, NoDup_submseteq; [apply NoDup_filter, NoDup_seq|].
  destruct Ha as (Hl & _ & Hk). intros k [Hmk Hin'%elem_of_seq]%list_elem_of_filter. apply list_elem_of_filter.
  rewrite (je_strips s Hok). split; [|apply elem_of_seq; lia]. destruct (D k) eqn:HD; [done|].
  destruct (Hk k ltac:(lia)) as [Hg _]. destruct (Hg HD) as [Hg' _]. congruence.
Qed.

Lemma arrived_badmap k :
  (k < je_n_devs s)%nat → other_magics (cksum_of c) (magic_table magics) k = D k.
Proof.
  intros Hlt. destruct (magic_table_ok magics) as [Htab _]. destruct Ha as (Hl & _ & Hk). destruct (Hk k Hlt) as [Hg Hb].
  unfold other_magics. destruct (D k) eqn:HD.
  - apply existsb_exists.
    destruct (lookup_lt_is_Some_2 magics k) as [m Hm]; [lia|]. exists (m, devs_with magics m). split.
    + apply list_elem_of_In, Htab. split; [done|]. intros He. assert (k ∈ devs_with magics m) as Hin; [|rewrite He in Hin; by apply not_elem_of_nil in Hin].
      apply list_elem_of_filter. split; [done|]. apply elem_of_seq. lia.
    + cbn. apply andb_true_iff. split.
      * apply negb_true_iff, bool_decide_eq_false. intros ->. by apply Hb.
      * apply bool_decide_eq_true, list_elem_of_filter. split; [done|]. apply elem_of_seq. lia.
  - apply not_true_is_false. intros ([m devs] & Hin%list_elem_of_In & He)%existsb_exists.
    cbn in He. apply andb_true_iff in He as [Hm Hin'].
    apply negb_true_iff, bool_decide_eq_false in Hm. apply bool_decide_eq_true in Hin'.
    apply Htab in Hin as [-> _]. apply list_elem_of_filter in Hin' as [Hmk _]. destruct (Hg eq_refl) as [Hmk' _]. rewrite Hmk' in Hmk. by injection Hmk.
Qed.
End arrived.

(** The stripe and the work buffers side by side. *)
Lemma stripe_layout s chunks r :
  je_ok s → stripe_ok (je_plan s) (je_chunk_size s) chunks → pbuff_ok s r →
  layout (je_plan s) (je_chunk_size s) (chunks ++ rd_pbuff r) (seq 0 (je_n_devs s)) (seq (je_n_devs s) (je_n_parity_devs s)).
Proof.
  intros Hok [Hl Hf] [Hpl Hpf]. rewrite (je_strips s Hok) in Hl. split.
  - rewrite <- seq_app. apply NoDup_seq.
  - by rewrite length_seq, je_strips.
  - intros a Ha. rewrite <- seq_app in Ha. apply elem_of_seq in Ha. rewrite length_app. lia.
  - by apply Forall_app.
Qed.

Lemma buffers_seq mem n : (n ≤ length mem)%nat → buffers mem (seq 0 n) = Some (take n mem).
Proof.
  intros Hn. apply buffers_lookup. rewrite length_take, length_seq. split; [lia|].
  intros i a [-> Hi]%lookup_seq. by rewrite lookup_take_lt by done.
Qed.

Lemma recover_arrived s c D magic chunks badmap r :
  je_ok s → stripe_c s c → stripe_ok (je_plan s) (je_chunk_size s) chunks → agree_off (je_plan s) D chunks c →
  magic = None ∨ magic = Some (cksum_of c) → length badmap = je_n_devs s →
  (∀ k, (k < je_n_devs s)%nat → bad_of badmap k = D k) → (count s D ≤ je_n_parity_devs s)%nat → pbuff_ok s r →
  ∃ pb, recover_stripe s magic badmap chunks r =
      Some (c, Read_state (rd_brute r) pb (rd_op_code r) (rd_status r) (rd_soft r) (rd_hard r)) ∧
    length pb = je_n_parity_devs s ∧ Forall (λ b, length b = je_chunk_size s) pb.
Proof.
  intros Hok Hc Hch Hag Hmg Hbl Hbad Hcnt Hpb. unfold recover_stripe. pose proof (je_mds s Hok) as Hmds.
  pose proof (stripe_layout s chunks r Hok Hch Hpb) as Hlay. pose proof (je_strips s Hok) as Hst.
  pose proof (je_dims s Hok) as [_ Hm]. pose proof (je_sizes s Hok) as (_ & Hm0 & _). pose proof Hch as [Hcl Hcf].
  assert (buffers (chunks ++ rd_pbuff r) (seq 0 (je_n_devs s)) = Some chunks) as Hx.
  { rewrite buffers_seq by (rewrite length_app; lia). f_equal. apply take_app_length'. lia. }
  assert (erased (je_plan s) (bad_of badmap) = erased (je_plan s) D) as He.
  { apply erased_ext. intros k Hk. apply Hbad. lia. }
  assert (agree_off (je_plan s) (bad_of badmap) chunks c) as Hag'.
  { eapply agree_off_ext; [|exact Hag]. intros k Hk. symmetry. apply Hbad. lia. }
  destruct (control_check_spec (je_plan s) (je_chunk_size s) magic badmap (seq 0 (je_n_devs s)) []
    (seq (je_n_devs s) (je_n_parity_devs s)) (chunks ++ rd_pbuff r) chunks Hlay Hx)
    as (res & eptr & mem & Hrun & Hfr & _ & Hgood & Hmust); [lia|rewrite He; lia|lia|rewrite length_seq; lia|].
  rewrite Hst, Hm in Hrun. rewrite Hrun. cbn [mbind option_bind].
  assert (res = 0) as ->.
  { apply Hmust. exists c. split; [done|]. split; [done|]. by destruct Hmg as [->| ->]. }
  destruct (Hgood eq_refl) as (y & _ & Hy & _ & Hu). rewrite (Hu c Hc Hag') in Hy.
  pose proof (frame_len _ _ _ _ _ _ Hfr) as Hlen. rewrite length_app in Hlen. destruct Hpb as [Hpl Hpf].
  rewrite buffers_seq in Hy by lia. injection Hy as Hy. rewrite decide_True by done. rewrite Hy.
  exists (drop (je_n_devs s) mem). split; [done|]. split; [rewrite length_drop; lia|].
  apply Forall_drop, (frame_chunks _ _ _ _ _ _ Hfr), Forall_app. done.
Qed.

(** What reading a stripe promises: its data, and no further error. *)
Definition stripe_read s (d : list chunk) r (res : option (list chunk * read_state)) : Prop :=
  ∃ chunks' r', res = Some (chunks', r') ∧ take (je_n_data_devs s) chunks' = d ∧ pbuff_ok s r' ∧
    rd_hard r' = rd_hard r ∧ op_st (rd_status r') = op_st (rd_status r).

Lemma recover_read s c D magic chunks badmap r r1 :
  je_ok s → stripe_c s c → stripe_ok (je_plan s) (je_chunk_size s) chunks → agree_off (je_plan s) D chunks c →
  magic = None ∨ magic = Some (cksum_of c) → length badmap = je_n_devs s →
  (∀ k, (k < je_n_devs s)%nat → bad_of badmap k = D k) → (count s D ≤ je_n_parity_devs s)%nat → pbuff_ok s r1 →
  rd_hard r1 = rd_hard r → op_st (rd_status r1) = op_st (rd_status r) →
  stripe_read s (take (je_n_data_devs s) c) r (recover_stripe s magic badmap chunks r1).
Proof.
  intros Hok Hc Hch Hag Hmg Hbl Hbad Hcnt Hpb Hh Hst.
  destruct (recover_arrived s c D magic chunks badmap r1) as (pb & -> & Hp); try done. by do 2 eexists.
Qed.

Lemma read_stripe_written s c D st magics chunks r :
  je_ok s → stripe_c s c → cksum_of c ≠ empty_magic → arrived s c D magics chunks →
  (2 * count s D < je_n_devs s)%nat → (count s D ≤ je_n_parity_devs s)%nat → pbuff_ok s r →
  stripe_read s (take (je_n_data_devs s) c) r (read_stripe s st magics chunks r).
Proof.
  intros Hok Hc Hne Ha Hmaj Hcnt Hpb. unfold read_stripe.
  destruct (arrived_quorum s c D magics chunks Hok Ha Hmaj) as (e0 & tab & Htab & Hq).
  pose proof (arrived_badmap s c D magics chunks Ha) as Hbm. rewrite Htab in Hbm |- *. cbn [head tail mbind option_bind]. rewrite Hq.
  set (magic := if je_magic_cksum s then Some (cksum_of c) else None).
  set (badmap := other_magics (cksum_of c) (e0 :: tab) <$> seq 0 (je_n_devs s)).
  set (devs := erased (je_plan s) (λ k, negb (D k))).
  assert (magic = None ∨ magic = Some (cksum_of c)) as Hmg by (unfold magic; destruct (je_magic_cksum s); auto).
  assert (length badmap = je_n_devs s) as Hbl by (unfold badmap; by rewrite length_fmap, length_seq).
  assert (∀ k, (k < je_n_devs s)%nat → bad_of badmap k = D k) as Hbad.
  { intros k Hk. unfold bad_of, badmap. rewrite list_lookup_fmap, lookup_seq_lt by done. simpl. by apply Hbm. }
  destruct Ha as (Hml & Hch & Hk). pose proof (je_strips s Hok) as Hst.
  assert (agree_off (je_plan s) D chunks c) as Hag by (intros k Hlt HD; apply Hk; [lia|done]).
  pose proof (erased_length_total (je_plan s) D) as Htot. fold devs in Htot. rewrite Hst in Htot.
  assert (stripe_data_ok s (cksum_of c) devs (error_code st) = 0 ∨
    stripe_data_ok s (cksum_of c) devs (error_code st) = 1 ∧ ∀ k, (k < je_n_data_devs s)%nat → D k = false) as Hdok.
  { unfold stripe_data_ok. destruct (decide (length devs ≠ je_n_devs s)) as [Hl|Hl].
    - destruct (decide (length (filter (λ k, (k < je_n_data_devs s)%nat) devs) ≠ je_n_data_devs s)) as [Hj|Hj]; [by left|right].
      split; [done|]. apply dec_stable in Hj. intros k Hlt.
      assert (k ∈ filter (λ k, (k < je_n_data_devs s)%nat) devs) as [_ [Hn _]%list_elem_of_filter]%list_elem_of_filter; [|by destruct (D k)].
      assert (filter (λ k, (k < je_n_data_devs s)%nat) devs ≡ₚ seq 0 (je_n_data_devs s)) as ->; [|apply elem_of_seq; lia].
      apply submseteq_length_Permutation; [|rewrite length_seq; lia].
      apply NoDup_submseteq; [apply NoDup_filter, NoDup_filter, NoDup_seq|].
      intros j [Hj' _]%list_elem_of_filter. apply elem_of_seq. lia.
    - rewrite decide_False by done. right. split; [done|]. apply dec_stable in Hl. intros k Hlt.
      assert (count s D = 0)%nat as Hz by lia. apply nil_length_inv in Hz. destruct (D k) eqn:HD; [|done].
      assert (k ∈ erased (je_plan s) D) as Hin; [|rewrite Hz in Hin; by apply not_elem_of_nil in Hin].
      apply list_elem_of_filter. split; [done|]. apply elem_of_seq. rewrite Hst. unfold je_n_devs. lia. }
  destruct Hdok as [-> |[-> Hall]].
  - rewrite (decide_False (P := 0 = 1)), (decide_False (P := 0 = 2)) by done.
    rewrite decide_False by (unfold je_n_devs in *; lia). by eapply recover_read.
  - rewrite (decide_True (P := 1 = 1)) by done. case_match; [by eapply recover_read|].
    exists chunks, r. split; [done|]. split; [|done]. apply list_eq. intros k.
    destruct (decide (k < je_n_data_devs s)%nat) as [Hlt|Hge].
    + rewrite !lookup_take_lt by done. apply Hag; [rewrite Hst; unfold je_n_devs; lia|by apply Hall].
    + by rewrite !lookup_take_ge by lia.
Qed.

(** A stripe that was never written. *)
Lemma read_stripe_empty s st magics chunks r :
  je_ok s → length magics = je_n_devs s → length chunks = je_n_devs s → (∀ m, m ∈ magics → m = empty_magic) →
  error_code st < Z.of_nat (je_n_parity_devs s) → pbuff_ok s r →
  stripe_read s (replicate (je_n_data_devs s) (replicate (je_chunk_size s) 0)) r (read_stripe s st magics chunks r).
Proof.
  intros Hok Hml Hcl Hm Herr Hpb. unfold read_stripe. destruct (magic_table_ok magics) as [Htab _].
  pose proof (je_sizes s Hok) as (Hn & _).
  assert (devs_with magics empty_magic = seq 0 (je_n_devs s)) as Hd.
  { unfold devs_with. rewrite Hml. apply filter_all. intros k Hk%elem_of_seq.
    destruct (lookup_lt_is_Some_2 magics k) as [m Hmk]; [lia|]. rewrite Hmk. f_equal. apply Hm. by eapply list_elem_of_lookup_2. }
  assert ((empty_magic, seq 0 (je_n_devs s)) ∈ magic_table magics) as Hin.
  { apply Htab. split; [done|]. unfold je_n_devs. destruct (je_n_data_devs s); [lia|done]. }
  destruct (magic_table magics) as [|e0 tab]; [by apply not_elem_of_nil in Hin|]. cbn [head tail mbind option_bind].
  destruct (quorum_spec tab e0) as [Hq _]. destruct (quorum e0 tab) as [m devs]. apply Htab in Hq as [-> Hne].
  assert (m = empty_magic) as ->.
  { destruct (devs_with magics m) as [|k l] eqn:E; [done|]. assert (k ∈ devs_with magics m) as Hk by (rewrite E; by left).
    apply list_elem_of_filter in Hk as [Hk _]. apply Hm. by eapply list_elem_of_lookup_2. }
  rewrite Hd. unfold stripe_data_ok. rewrite length_seq.
  rewrite (decide_False (P := je_n_devs s ≠ je_n_devs s)) by (intros ?; done).
  rewrite (decide_True (P := empty_magic = empty_magic)), (decide_True (P := error_code st < _)) by done.
  rewrite (decide_False (P := 2 = 1)), (decide_True (P := 2 = 2)) by done.
  do 2 eexists. split; [done|]. split; [|done].
  rewrite take_app_length' by (rewrite length_fmap, length_take; unfold je_n_devs in *; lia).
  assert (length (take (je_n_data_devs s) chunks) = je_n_data_devs s) as Hlen by (rewrite length_take; unfold je_n_devs in *; lia).
  rewrite <- Hlen at 2. generalize (take (je_n_data_devs s) chunks) as l. intros l. induction l as [|x l IH]; [done|].
  simpl. f_equal. exact IH.
Qed.
End stripe.

(** ** The child *)

(** A request of whole stripes on the child reaches each device of each stripe
    or loses it.  Reading a device that is lost gives zeros; no stripe loses
    more devices than the status's error code says. *)
Class JeraseChildOk (S : Type) `{!JeraseChild S, !SegBytes S} (n : nat) (csm : Z) : Prop := {
  jc_read_lossy child bl off len t :
    0 ≤ off → 0 ≤ len → (csm * Z.of_nat n | off) → (csm * Z.of_nat n | len) → off + len ≤ jc_size child →
    let '(child', t', st) := jc_read child bl (Ex_iovec off len) t 0 in
    (∀ i, seg_byte child' i = seg_byte child i) ∧ jc_size child' = jc_size child ∧
    ∃ lost : nat → nat → bool,
      (∀ p, 0 ≤ p < len → t' p = if lost (Z.to_nat (p / (csm * Z.of_nat n))) (Z.to_nat ((p / csm) mod Z.of_nat n))
                                 then 0 else seg_byte child (off + p)) ∧
      ∀ row, Z.of_nat (length (filter (λ k, lost row k = true) (seq 0 n))) ≤ error_code st;
  jc_write_lossy child bl off len t :
    0 ≤ off → 0 ≤ len → (csm * Z.of_nat n | off) → (csm * Z.of_nat n | len) →
    let '(child', st) := jc_write child bl (Ex_iovec off len) t 0 in
    (∀ i, ¬ (off ≤ i < off + len) → seg_byte child' i = seg_byte child i) ∧
    (op_st st = OP_STATE_SUCCESS ∨ error_code st < Z.of_nat n → off + len ≤ jc_size child') ∧ jc_size child ≤ jc_size child' ∧
    ∃ lost : nat → nat → bool,
      (∀ p, 0 ≤ p < len → lost (Z.to_nat (p / (csm * Z.of_nat n))) (Z.to_nat ((p / csm) mod Z.of_nat n)) = false →
         seg_byte child' (off + p) = t p) ∧
      (op_st st = OP_STATE_SUCCESS → ∀ row k, (k < n)%nat → lost row k = false) ∧
      ∀ row, Z.of_nat (length (filter (λ k, lost row k = true) (seq 0 n))) ≤ error_code st }.

Section rows.
Context {S : Type} `{!Jerasure, !Adler, !JeraseChild S, !SegBytes S, !Gop}.
Implicit Types (s : segjerase_priv S) (c chunks : list chunk) (r : read_state).

Abbreviation stripe_c s := (codeword (je_plan s) (je_chunk_size s)).
Abbreviation count s D := (length (erased (je_plan s) D)).

Lemma je_positive s :
  je_ok s → 0 < je_chunk_size_with_magic s ∧ 0 < Z.of_nat (je_n_devs s) ∧ 0 < je_stripe_size_with_magic s ∧ 0 < je_data_size s.
Proof.
  intros Hok. destruct (je_sizes s Hok) as (Hz1 & Hz2 & Hz3).
  assert (0 < Z.of_nat (je_n_devs s)) by (unfold je_n_devs; lia).
  unfold je_stripe_size_with_magic, je_chunk_size_with_magic, je_data_size, JE_MAGIC_SIZE. nia.
Qed.

(** The place of a byte. *)
Lemma je_place s row k q :
  je_ok s → (k < je_n_devs s)%nat → 0 ≤ q < je_chunk_size_with_magic s →
  let p := Z.of_nat row * je_stripe_size_with_magic s + Z.of_nat k * je_chunk_size_with_magic s + q in
  Z.to_nat (p / je_stripe_size_with_magic s) = row ∧
  Z.to_nat ((p / je_chunk_size_with_magic s) mod Z.of_nat (je_n_devs s)) = k.
Proof.
  intros Hok Hk Hq p. destruct (je_positive s Hok) as (Hc & Hn & Hs & _). unfold p, je_stripe_size_with_magic in *.
  set (csm := je_chunk_size_with_magic s) in *. set (n := Z.of_nat (je_n_devs s)) in *.
  assert (Z.of_nat k < n) as Hkn by (unfold n; lia).
  set (x := Z.of_nat row * (csm * n) + Z.of_nat k * csm + q).
  assert (x / (csm * n) = Z.of_nat row) as ->.
  { symmetry. apply (Z.div_unique_pos _ _ _ (Z.of_nat k * csm + q)); [nia|unfold x; lia]. }
  assert (x / csm = Z.of_nat k + Z.of_nat row * n) as ->.
  { symmetry. apply (Z.div_unique_pos _ _ _ q); [lia|unfold x; lia]. }
  rewrite Z.mod_add, Z.mod_small by lia. lia.
Qed.

Lemma list_of_buf_length t off n : length (list_of_buf t off n) = n.
Proof. unfold list_of_buf. by rewrite length_fmap, length_seq. Qed.

Lemma row_chunks_ok s t row : je_ok s → stripe_ok (je_plan s) (je_chunk_size s) (row_chunks s t row).
Proof.
  intros Hok. unfold row_chunks. split; [by rewrite length_fmap, length_seq, je_strips|].
  apply Forall_fmap, Forall_forall. intros k _. apply list_of_buf_length.
Qed.

Lemma row_magics_lookup s t row k :
  (k < je_n_devs s)%nat → row_magics s t row !! k =
    Some (list_of_buf t (Z.of_nat row * je_stripe_size_with_magic s + Z.of_nat k * je_chunk_size_with_magic s) JE_MAGIC_SIZE).
Proof. intros Hk. unfold row_magics. by rewrite list_lookup_fmap, lookup_seq_lt. Qed.
Lemma row_chunks_lookup s t row k :
  (k < je_n_devs s)%nat → row_chunks s t row !! k =
    Some (list_of_buf t (Z.of_nat row * je_stripe_size_with_magic s + Z.of_nat k * je_chunk_size_with_magic s + Z.of_nat JE_MAGIC_SIZE) (je_chunk_size s)).
Proof. intros Hk. unfold row_chunks. by rewrite list_lookup_fmap, lookup_seq_lt. Qed.

(** What arrives of a stored stripe when devices are lost. *)
Definition lossy_view s (lost : nat → nat → bool) (f t : tbuffer) (len : Z) : Prop :=
  ∀ p, 0 ≤ p < len → t p = if lost (Z.to_nat (p / je_stripe_size_with_magic s))
    (Z.to_nat ((p / je_chunk_size_with_magic s) mod Z.of_nat (je_n_devs s))) then 0 else f p.

(** Two views that agree on a device's part of a row. *)
Lemma device_ext s (sel : nat → nat → bool) f g nrows row k q n :
  je_ok s →
  (∀ p, 0 ≤ p < Z.of_nat nrows * je_stripe_size_with_magic s →
     sel (Z.to_nat (p / je_stripe_size_with_magic s))
       (Z.to_nat ((p / je_chunk_size_with_magic s) mod Z.of_nat (je_n_devs s))) = true → f p = g p) →
  (row < nrows)%nat → (k < je_n_devs s)%nat → 0 ≤ q → q + Z.of_nat n ≤ je_chunk_size_with_magic s → sel row k = true →
  let p := Z.of_nat row * je_stripe_size_with_magic s + Z.of_nat k * je_chunk_size_with_magic s + q in
  list_of_buf f p n = list_of_buf g p n.
Proof.
  intros Hok Hv Hrow Hk Hq Hqn Hsel p. destruct (je_positive s Hok) as (Hc & Hn & Hs & _).
  apply list_of_buf_ext. intros i Hi.
  destruct (je_place s row k (q + i) Hok Hk ltac:(lia)) as [Hr Hd]. rewrite Z.add_assoc in Hr, Hd.
  fold p in Hr, Hd. apply Hv; [|by rewrite Hr, Hd]. unfold p, je_stripe_size_with_magic in *.
  set (csm := je_chunk_size_with_magic s) in *. set (nd := Z.of_nat (je_n_devs s)) in *.
  assert (Z.of_nat k + 1 ≤ nd) by (unfold nd; lia). assert (Z.of_nat row + 1 ≤ Z.of_nat nrows) by lia.
  assert ((Z.of_nat k + 1) * csm ≤ nd * csm) by (apply Z.mul_le_mono_nonneg_r; lia).
  assert ((Z.of_nat row + 1) * (csm * nd) ≤ Z.of_nat nrows * (csm * nd)) by (apply Z.mul_le_mono_nonneg_r; lia). lia.
Qed.

Lemma list_of_buf_zero p n : list_of_buf (λ _, 0) p n = replicate n 0.
Proof. unfold list_of_buf. generalize 0%nat as j. induction n as [|n IH]; intros j; [done|]. simpl. f_equal. apply IH. Qed.

Lemma lossy_device s lost f t nrows row k q n :
  je_ok s → lossy_view s lost f t (Z.of_nat nrows * je_stripe_size_with_magic s) → (row < nrows)%nat → (k < je_n_devs s)%nat →
  0 ≤ q → q + Z.of_nat n ≤ je_chunk_size_with_magic s →
  let p := Z.of_nat row * je_stripe_size_with_magic s + Z.of_nat k * je_chunk_size_with_magic s + q in
  list_of_buf t p n = if lost row k then replicate n 0 else list_of_buf f p n.
Proof.
  intros Hok Hv Hrow Hk Hq Hqn p. destruct (lost row k) eqn:Hl.
  - rewrite <- (list_of_buf_zero p). apply (device_ext s lost _ _ nrows); try done. intros x Hx Hlx. by rewrite Hv, Hlx.
  - apply (device_ext s (λ j d, negb (lost j d)) _ _ nrows); try done; [|by rewrite Hl].
    intros x Hx Hlx. apply negb_true_iff in Hlx. by rewrite Hv, Hlx.
Qed.

Lemma lossy_arrived s lost f t nrows row c B :
  je_ok s → lossy_view s lost f t (Z.of_nat nrows * je_stripe_size_with_magic s) → (row < nrows)%nat →
  cksum_of c ≠ empty_magic → arrived s c B (row_magics s f row) (row_chunks s f row) →
  arrived s c (λ k, B k || lost row k) (row_magics s t row) (row_chunks s t row).
Proof.
  intros Hok Hv Hrow Hne (_ & _ & Hk). split; [unfold row_magics; by rewrite length_fmap, length_seq|].
  split; [by apply row_chunks_ok|]. intros k Hlt. destruct (Hk k Hlt) as [Hg Hb].
  rewrite row_magics_lookup in Hg, Hb |- * by done. rewrite row_chunks_lookup in Hg |- * by done.
  pose proof (lossy_device s lost f t nrows row k 0 JE_MAGIC_SIZE Hok Hv Hrow Hlt ltac:(lia)
    ltac:(unfold je_chunk_size_with_magic; lia)) as Hm.
  pose proof (lossy_device s lost f t nrows row k (Z.of_nat JE_MAGIC_SIZE) (je_chunk_size s) Hok Hv Hrow Hlt ltac:(lia)
    ltac:(unfold je_chunk_size_with_magic; lia)) as Hch.
  cbv zeta in Hm, Hch. rewrite Z.add_0_r in Hm. rewrite Hm, Hch. destruct (lost row k).
  - rewrite orb_true_r. split; [done|]. intros _ He. apply Hne. symmetry. exact (inj Some _ _ He).
  - rewrite orb_false_r. done.
Qed.

(** ** What the rows of an extent hold *)

(** The contents of a row: a codeword and the devices that do not hold their
    part of it, or nothing. *)
Definition row_stored s (f : tbuffer) (row : nat) (rc : option (list chunk * (nat → bool))) : Prop :=
  match rc with
  | Some (c, B) => stripe_c s c ∧ cksum_of c ≠ empty_magic ∧ arrived s c B (row_magics s f row) (row_chunks s f row)
  | None => ∀ m, m ∈ row_magics s f row → m = empty_magic
  end.
Definition row_data s (rc : option (list chunk * (nat → bool))) : list chunk :=
  match rc with
  | Some (c, _) => take (je_n_data_devs s) c
  | None => replicate (je_n_data_devs s) (replicate (je_chunk_size s) 0)
  end.
Definition row_readable s (rc : option (list chunk * (nat → bool))) (lost : nat → bool) (err : Z) : Prop :=
  match rc with
  | Some (_, B) => let D k := B k || lost k in (2 * count s D < je_n_devs s)%nat ∧ (count s D ≤ je_n_parity_devs s)%nat
  | None => err < Z.of_nat (je_n_parity_devs s)
  end.

Lemma read_row_ok s lost f t nrows row rc st r :
  je_ok s → lossy_view s lost f t (Z.of_nat nrows * je_stripe_size_with_magic s) → (row < nrows)%nat →
  row_stored s f row rc → row_readable s rc (lost row) (error_code st) → pbuff_ok s r →
  stripe_read s (row_data s rc) r (read_stripe s st (row_magics s t row) (row_chunks s t row) r).
Proof.
  intros Hok Hv Hrow Hst Hrd Hpb. destruct rc as [[c B]|]; simpl in *.
  - destruct Hst as (Hc & Hne & Ha). destruct Hrd as [Hmaj Hcnt]. apply (read_stripe_written s c (λ k, B k || lost row k)); try done.
    by eapply lossy_arrived.
  - apply read_stripe_empty; try done.
    + unfold row_magics. by rewrite length_fmap, length_seq.
    + unfold row_chunks. by rewrite length_fmap, length_seq.
    + intros m [k Hk]%list_elem_of_lookup_1.
      assert (k < je_n_devs s)%nat as Hlt.
      { apply lookup_lt_Some in Hk. unfold row_magics in Hk. by rewrite length_fmap, length_seq in Hk. }
      rewrite row_magics_lookup in Hk by done. injection Hk as <-.
      pose proof (lossy_device s lost f t nrows row k 0 JE_MAGIC_SIZE Hok Hv Hrow Hlt ltac:(lia)
        ltac:(unfold je_chunk_size_with_magic; lia)) as Hm.
      cbv zeta in Hm. rewrite Z.add_0_r in Hm. rewrite Hm. destruct (lost row k); [done|].
      apply Hst. apply list_elem_of_lookup_2 with k. by apply row_magics_lookup.
Qed.

(** The caller's buffer with the rows from [j] on in place. *)
Definition rows_image s (d : nat → list chunk) (dpos : Z) (j cnt : nat) (buf : tbuffer) : tbuffer := λ p,
  if decide (dpos + Z.of_nat j * je_data_size s ≤ p < dpos + Z.of_nat (j + cnt) * je_data_size s)
  then nth (Z.to_nat ((p - dpos) mod je_data_size s)) (concat (d (Z.to_nat ((p - dpos) / je_data_size s)))) 0
  else buf p.

Lemma put_data_byte s buf dpos row chunks p :
  je_ok s → put_data s buf (dpos + Z.of_nat row * je_data_size s) chunks p =
    if decide (dpos + Z.of_nat row * je_data_size s ≤ p < dpos + Z.of_nat (row + 1) * je_data_size s)
    then nth (Z.to_nat ((p - dpos) mod je_data_size s)) (concat (take (je_n_data_devs s) chunks)) 0 else buf p.
Proof.
  intros Hok. destruct (je_positive s Hok) as (_ & _ & _ & Hd). unfold put_data, buf_put, buf_of_list.
  set (ds := je_data_size s) in *. destruct (decide (dpos + Z.of_nat row * ds ≤ p < dpos + Z.of_nat row * ds + ds)) as [Hp|Hp].
  - rewrite (decide_True (P := dpos + _ ≤ p < dpos + Z.of_nat (row + 1) * ds)) by lia. rewrite decide_True by lia.
    assert ((p - dpos) mod ds = 0 + (p - (dpos + Z.of_nat row * ds))) as ->; [|done].
    symmetry. apply (Z.mod_unique_pos _ _ (Z.of_nat row)); lia.
  - by rewrite (decide_False (P := dpos + _ ≤ p < dpos + Z.of_nat (row + 1) * ds)) by lia.
Qed.

Lemma read_rows_ok s lost f t nrows dpos st (rc : nat → option (list chunk * (nat → bool))) cnt : ∀ j buf r,
  je_ok s → lossy_view s lost f t (Z.of_nat nrows * je_stripe_size_with_magic s) → (j + cnt ≤ nrows)%nat →
  (∀ row, (row < nrows)%nat → row_stored s f row (rc row) ∧ row_readable s (rc row) (lost row) (error_code st)) → pbuff_ok s r →
  ∃ buf' r', read_rows s st t dpos (seq j cnt) buf r = Some (buf', r') ∧ pbuff_ok s r' ∧
    rd_hard r' = rd_hard r ∧ op_st (rd_status r') = op_st (rd_status r) ∧
    ∀ p, buf' p = rows_image s (λ row, row_data s (rc row)) dpos j cnt buf p.
Proof.
  induction cnt as [|cnt IH]; intros j buf r Hok Hv Hle Hrows Hpb; cbn [seq read_rows].
  { exists buf, r. split_and!; try done. intros p. unfold rows_image. rewrite decide_False; [done|]. rewrite Nat.add_0_r. lia. }
  destruct (Hrows j ltac:(lia)) as [Hst Hrd].
  destruct (read_row_ok s lost f t nrows j (rc j) st r Hok Hv ltac:(lia) Hst Hrd Hpb) as (chunks' & r1 & -> & Hd & Hpb1 & Hh1 & Hs1).
  cbn [mbind option_bind].
  destruct (IH (Datatypes.S j) (put_data s buf (dpos + Z.of_nat j * je_data_size s) chunks') r1 Hok Hv ltac:(lia) Hrows Hpb1)
    as (buf' & r' & -> & Hpb' & Hh' & Hs' & Hby).
  exists buf', r'. split; [done|]. split; [done|]. split; [congruence|]. split; [congruence|].
  intros p. rewrite Hby. unfold rows_image. rewrite put_data_byte by done. rewrite Hd.
  destruct (je_positive s Hok) as (_ & _ & _ & Hds). set (ds := je_data_size s) in *.
  replace (Datatypes.S j + cnt)%nat with (j + Datatypes.S cnt)%nat by lia.
  destruct (decide (dpos + Z.of_nat j * ds ≤ p < dpos + Z.of_nat (j + 1) * ds)) as [Hin|Hout].
  - rewrite decide_False by lia. rewrite (decide_True (P := dpos + Z.of_nat j * ds ≤ p < dpos + Z.of_nat (j + Datatypes.S cnt) * ds)) by lia.
    assert ((p - dpos) / ds = Z.of_nat j) as ->; [|by rewrite Nat2Z.id].
    symmetry. apply (Z.div_unique_pos _ _ _ (p - dpos - Z.of_nat j * ds)); lia.
  - destruct (decide (dpos + Z.of_nat (Datatypes.S j) * ds ≤ p < dpos + Z.of_nat (j + Datatypes.S cnt) * ds)) as [Hp|Hp].
    + by rewrite decide_True by lia.
    + rewrite decide_False; [done|]. lia.
Qed.

(** ** Reading *)

(** The child's bytes from stripe [row0] on. *)
Definition child_off s (child : S) (row0 : Z) : tbuffer := λ p, seg_byte child (row0 * je_stripe_size_with_magic s + p).

(** The read of the child for an extent, and the devices that did not answer
    it: their part arrives as zeros, the rest as the child holds it, and the
    status counts at least as many errors as any row lost devices. *)
Definition child_read s (hints : option Z) (stale : nat → tbuffer) (row0 : Z) (nrows : nat) (buf : tbuffer) : S * tbuffer * op_status :=
  jc_read (je_child s) (je_max_blacklist s hints)
    (Ex_iovec (row0 * je_stripe_size_with_magic s) (Z.of_nat nrows * je_stripe_size_with_magic s)) (read_view s buf 0 (stale 0%nat)) 0.
Definition read_lost s (f : tbuffer) (nrows : nat) (res : S * tbuffer * op_status) (lost : nat → nat → bool) : Prop :=
  lossy_view s lost f res.1.2 (Z.of_nat nrows * je_stripe_size_with_magic s) ∧
  ∀ row, Z.of_nat (length (filter (λ k, lost row k = true) (seq 0 (je_n_devs s)))) ≤ error_code res.2.

Lemma read_extent_ok s hints stale junk row0 nrows buf rc :
  je_ok s → JeraseChildOk S (je_n_devs s) (je_chunk_size_with_magic s) → GopOk →
  length junk.1 = je_n_parity_devs s → Forall (λ b, length b = je_chunk_size s) junk.1 →
  0 ≤ row0 → (row0 + Z.of_nat nrows) * je_data_size s ≤ segjerase_size s →
  (∀ row, (row < nrows)%nat → row_stored s (child_off s (je_child s) row0) row (rc row)) →
  let res := child_read s hints stale row0 nrows buf in
  ∃ lost, read_lost s (child_off s (je_child s) row0) nrows res lost ∧
    ((∀ row, (row < nrows)%nat → row_readable s (rc row) (lost row) (error_code res.2)) →
     ∃ s' buf' st,
       segjerase_read s hints stale junk [Ex_iovec (row0 * je_data_size s) (Z.of_nat nrows * je_data_size s)] buf 0 = inr (Some (s', buf', st)) ∧
       op_st st = OP_STATE_SUCCESS ∧ (∀ i, seg_byte (je_child s') i = seg_byte (je_child s) i) ∧
       je_hard_errors s' = je_hard_errors s ∧
       ∀ p, buf' p = rows_image s (λ row, row_data s (rc row)) 0 0 nrows buf p).
Proof.
  intros Hok Hchild Hgop Hjl Hjf Hr0 Hin Hst res. destruct (je_positive s Hok) as (Hc & Hn & Hs & Hd).
  unfold segjerase_read. assert (whole_stripes s [Ex_iovec (row0 * je_data_size s) (Z.of_nat nrows * je_data_size s)] = true) as ->.
  { unfold whole_stripes. simpl. rewrite andb_true_r. apply andb_true_iff. split; apply bool_decide_eq_true.
    all: apply Z.rem_mul; lia. }
  unfold segjerase_read_func. cbn [read_iov]. unfold je_extent. cbn [iov_offset iov_len].
  rewrite !Z.div_mul by lia.
  pose proof (jc_read_lossy (je_child s) (je_max_blacklist s hints) (row0 * je_stripe_size_with_magic s)
    (Z.of_nat nrows * je_stripe_size_with_magic s) (read_view s buf 0 (stale 0%nat))) as Hlossy.
  change (length _) with 0%nat. fold (child_read s hints stale row0 nrows buf) in Hlossy |- *. fold res in Hlossy |- *.
  clearbody res. destruct res as [[child t] st]. cbn [fst snd].
  destruct Hlossy as (Hbytes & _ & lost & Hlost & Hcnt).
  { nia. } { nia. } { by exists row0. } { by exists (Z.of_nat nrows). }
  { unfold segjerase_size in Hin. pose proof (Z.mul_div_le (jc_size (je_child s)) (je_stripe_size_with_magic s) Hs). nia. }
  assert (lossy_view s lost (child_off s (je_child s) row0) t (Z.of_nat nrows * je_stripe_size_with_magic s)) as Hv.
  { intros p Hp. by rewrite Hlost. }
  exists lost. split; [done|]. intros Hrd.
  set (r0 := Read_state None junk.1 junk.2 op_success_status false false).
  destruct (read_rows_ok s lost (child_off s (je_child s) row0) t nrows 0 st rc nrows 0 buf r0 Hok Hv ltac:(lia)) as
    (buf' & r' & Hrun & Hpb & Hh & Hsr & Hby); [by split; [apply Hst|apply Hrd]|done|].
  rewrite Nat2Z.id. rewrite Hrun. cbn [mbind option_bind]. rewrite Hh. cbn [andb rd_hard r0]. cbn [mbind option_bind].
  do 3 eexists. split; [done|]. split; [rewrite Hsr; apply op_success_state|]. split; [|split; [|done]].
  - intros i. rewrite <- Hbytes. unfold je_account. by destruct (_ || _).
  - unfold je_account. rewrite Hh. simpl. by destruct (_ || _).
Qed.

(** C29: Reading one extent of whole stripes that lies in the segment, to the
    start of the buffer.  The
    child may lose devices, whose part arrives as zeros and of which it reports
    at least as many as any stripe lost.  If each stripe was written as a codeword, and the devices that do not
    hold their chunk or were lost are fewer than half and at most the parity
    (or if it was never written and fewer devices are reported than there is
    parity) then the read returns success, the caller's buffer has the data of
    each stripe, or zeros, and is otherwise untouched. *)
Theorem segjerase_read_correct s hints stale junk row0 nrows buf rc :
  je_ok s → JeraseChildOk S (je_n_devs s) (je_chunk_size_with_magic s) → GopOk →
  length junk.1 = je_n_parity_devs s → Forall (λ b, length b = je_chunk_size s) junk.1 →
  0 ≤ row0 → (row0 + Z.of_nat nrows) * je_data_size s ≤ segjerase_size s →
  (∀ row, (row < nrows)%nat → row_stored s (child_off s (je_child s) row0) row (rc row)) →
  let res := child_read s hints stale row0 nrows buf in
  ∃ lost, read_lost s (child_off s (je_child s) row0) nrows res lost ∧
    ((∀ row, (row < nrows)%nat → row_readable s (rc row) (lost row) (error_code res.2)) →
     ∃ s' buf' st,
       segjerase_read s hints stale junk [Ex_iovec (row0 * je_data_size s) (Z.of_nat nrows * je_data_size s)] buf 0 = inr (Some (s', buf', st)) ∧
       op_st st = OP_STATE_SUCCESS ∧ (∀ i, seg_byte (je_child s') i = seg_byte (je_child s) i) ∧
       je_hard_errors s' = je_hard_errors s ∧
       ∀ p, buf' p = rows_image s (λ row, row_data s (rc row)) 0 0 nrows buf p).
Proof. apply read_extent_ok. Qed.

(** ** Writing *)

(** The data chunks of a row in the caller's buffer. *)
Definition buf_chunks s (buf : tbuffer) (pos : Z) : list chunk :=
  (λ k, list_of_buf buf (pos + Z.of_nat k * Z.of_nat (je_chunk_size s)) (je_chunk_size s)) <$> seq 0 (je_n_data_devs s).

Lemma concat_split {A} (w : nat) (l : list (list A)) k x :
  Forall (λ y, length y = w) l → l !! k = Some x →
  concat l = concat (take k l) ++ x ++ concat (drop (Datatypes.S k) l) ∧ length (concat (take k l)) = (k * w)%nat.
Proof.
  revert k. induction l as [|y l IH]; intros k Hf Hk; [done|]. apply Forall_cons in Hf as [Hy Hf].
  destruct k as [|k]; simpl in *; [by injection Hk as ->|].
  destruct (IH k Hf Hk) as [-> Hl]. rewrite length_app, Hl, Hy. split; [by rewrite <- !app_assoc|lia].
Qed.

Lemma concat_length {A} (w : nat) (l : list (list A)) : Forall (λ y, length y = w) l → length (concat l) = (length l * w)%nat.
Proof. induction 1 as [|y l Hy _ IH]; simpl; [done|]. rewrite length_app. lia. Qed.

Lemma cksum_length c : length (cksum_of c) = JE_MAGIC_SIZE.
Proof. apply le_bytes_length. Qed.

(** A device's part of a stripe. *)
Lemma stripe_bytes_split s c k ck :
  stripe_ok (je_plan s) (je_chunk_size s) c → c !! k = Some ck →
  ∃ l1 l2, stripe_bytes (cksum_of c) c = l1 ++ cksum_of c ++ ck ++ l2 ∧
    length l1 = (k * (JE_MAGIC_SIZE + je_chunk_size s))%nat.
Proof.
  intros [_ Hf] Hk. unfold stripe_bytes.
  destruct (concat_split (JE_MAGIC_SIZE + je_chunk_size s) ((λ x, cksum_of c ++ x) <$> c) k (cksum_of c ++ ck)) as [-> Hl].
  - apply Forall_fmap. eapply Forall_impl; [exact Hf|]. intros x Hx. cbn beta in Hx. unfold compose. rewrite length_app, cksum_length. lia.
  - by rewrite list_lookup_fmap, Hk.
  - do 2 eexists. split; [|exact Hl]. by rewrite <- !app_assoc.
Qed.

Lemma stripe_bytes_length s c :
  je_ok s → stripe_ok (je_plan s) (je_chunk_size s) c →
  Z.of_nat (length (stripe_bytes (cksum_of c) c)) = je_stripe_size_with_magic s.
Proof.
  intros Hok [Hl Hf]. unfold stripe_bytes. rewrite (concat_length (JE_MAGIC_SIZE + je_chunk_size s)).
  - rewrite length_fmap, Hl, je_strips by done. unfold je_stripe_size_with_magic, je_chunk_size_with_magic. lia.
  - apply Forall_fmap. eapply Forall_impl; [exact Hf|]. intros x Hx. cbn beta in Hx. unfold compose. rewrite length_app, cksum_length. lia.
Qed.

(** Encoding the row at [pos]. *)
Lemma encode_stripe_ok s buf pos parity :
  je_ok s → length parity = je_n_parity_devs s → Forall (λ b, length b = je_chunk_size s) parity →
  ∃ c, encode_stripe s buf pos parity = Some c ∧ stripe_c s c ∧ take (je_n_data_devs s) c = buf_chunks s buf pos.
Proof.
  intros Hok Hpl Hpf. pose proof (je_mds s Hok) as Hmds. pose proof (je_dims s Hok) as [Hk Hm]. unfold encode_stripe. fold (buf_chunks s buf pos).
  assert (length (buf_chunks s buf pos) = je_n_data_devs s) as Hl by (unfold buf_chunks; by rewrite length_fmap, length_seq).
  assert (stripe_ok (je_plan s) (je_chunk_size s) (buf_chunks s buf pos ++ parity)) as Hx.
  { split; [rewrite length_app, je_strips by done; unfold je_n_devs; lia|]. apply Forall_app. split; [|done].
    apply Forall_fmap, Forall_forall. intros k _. apply list_of_buf_length. }
  destruct (mds_encode _ _ _ Hx) as (c & He & Hc & Hd). exists c. split; [done|].
  split; [exact (encode_codeword _ _ _ _ Hx He)|]. rewrite <- Hk, Hd, Hk. by apply take_app_length'.
Qed.

(** The bytes of [n] rows: every device's part is where it belongs. *)
Lemma write_rows_ok s buf parity n : ∀ pos,
  je_ok s → length parity = je_n_parity_devs s → Forall (λ b, length b = je_chunk_size s) parity →
  ∃ bytes, write_rows s buf pos parity n = Some bytes ∧
    Z.of_nat (length bytes) = Z.of_nat n * je_stripe_size_with_magic s ∧
    ∀ row, (row < n)%nat → ∃ c l1 l2, encode_stripe s buf (pos + Z.of_nat row * je_data_size s) parity = Some c ∧ stripe_c s c ∧
      take (je_n_data_devs s) c = buf_chunks s buf (pos + Z.of_nat row * je_data_size s) ∧
      bytes = l1 ++ stripe_bytes (cksum_of c) c ++ l2 ∧ Z.of_nat (length l1) = Z.of_nat row * je_stripe_size_with_magic s.
Proof.
  induction n as [|n IH]; intros pos Hok Hpl Hpf; cbn [write_rows].
  { exists []. split; [done|]. split; [done|]. intros row Hrow. lia. }
  destruct (encode_stripe_ok s buf pos parity Hok Hpl Hpf) as (c & He0 & Hc & Hd). rewrite He0. cbn [mbind option_bind].
  destruct (IH (pos + je_data_size s) Hok Hpl Hpf) as (rest & -> & Hlr & Hrows). cbn [mbind option_bind].
  pose proof (stripe_bytes_length s c Hok (proj1 Hc)) as Hsl.
  eexists. split; [done|]. split; [rewrite length_app; lia|]. intros [|row] Hrow.
  - exists c, [], rest. rewrite Z.mul_0_l, Z.add_0_r. by split_and!.
  - destruct (Hrows row ltac:(lia)) as (c' & l1 & l2 & He & Hc' & Hd' & -> & Hl1).
    replace (pos + Z.of_nat (Datatypes.S row) * je_data_size s) with (pos + je_data_size s + Z.of_nat row * je_data_size s) by lia.
    exists c', (stripe_bytes (cksum_of c) c ++ l1), l2. split_and!; try done; [by rewrite <- app_assoc|]. rewrite length_app. lia.
Qed.

(** A device's part of row [row] within the bytes of an extent. *)
Lemma row_bytes s bytes row c l1 l2 k ck :
  je_ok s → stripe_ok (je_plan s) (je_chunk_size s) c → c !! k = Some ck →
  bytes = l1 ++ stripe_bytes (cksum_of c) c ++ l2 → Z.of_nat (length l1) = Z.of_nat row * je_stripe_size_with_magic s →
  let p := Z.of_nat row * je_stripe_size_with_magic s + Z.of_nat k * je_chunk_size_with_magic s in
  list_of_buf (buf_of_list bytes) p JE_MAGIC_SIZE = cksum_of c ∧
  list_of_buf (buf_of_list bytes) (p + Z.of_nat JE_MAGIC_SIZE) (je_chunk_size s) = ck.
Proof.
  intros Hok Hc Hk -> Hl1 p. destruct (stripe_bytes_split s c k ck Hc Hk) as (b1 & b2 & -> & Hb1).
  pose proof Hc as [_ Hf]. rewrite Forall_lookup in Hf. specialize (Hf k ck Hk).
  assert (Z.of_nat (length (l1 ++ b1)) = p) as Hp.
  { rewrite length_app. unfold p, je_chunk_size_with_magic. lia. }
  split.
  - replace (l1 ++ (b1 ++ cksum_of c ++ ck ++ b2) ++ l2) with ((l1 ++ b1) ++ cksum_of c ++ (ck ++ b2 ++ l2))
      by (by rewrite <- !app_assoc).
    apply list_of_buf_at; [done|]. by rewrite cksum_length.
  - replace (l1 ++ (b1 ++ cksum_of c ++ ck ++ b2) ++ l2) with ((l1 ++ b1 ++ cksum_of c) ++ ck ++ (b2 ++ l2))
      by (by rewrite <- !app_assoc).
    apply list_of_buf_at; [|done]. rewrite app_assoc, length_app, cksum_length. lia.
Qed.

(** What a pass over one extent leaves: the rows at the devices that were not
    lost, and the outcome. *)
Definition rows_written s (lost : nat → nat → bool) (cs : nat → list chunk) (nrows : nat) (f : tbuffer) : Prop :=
  ∀ row k, (row < nrows)%nat → (k < je_n_devs s)%nat → lost row k = false →
    row_magics s f row !! k = Some (cksum_of (cs row)) ∧ row_chunks s f row !! k = cs row !! k.

Definition rows_encoded s (buf : tbuffer) (parity : list chunk) (cs : nat → list chunk) (nrows : nat) : Prop :=
  ∀ row, (row < nrows)%nat →
    encode_stripe s buf (Z.of_nat row * je_data_size s) parity = Some (cs row) ∧ stripe_c s (cs row) ∧
    take (je_n_data_devs s) (cs row) = buf_chunks s buf (Z.of_nat row * je_data_size s).

(** The codewords of the rows of a request, and the bytes of the rows as the
    child gets them. *)
Definition row_codeword s (buf : tbuffer) (parity : list chunk) (row : nat) : list chunk :=
  default [] (encode_stripe s buf (Z.of_nat row * je_data_size s) parity).
Definition rows_bytes (cs : nat → list chunk) (row n : nat) : list Z :=
  concat ((λ row, stripe_bytes (cksum_of (cs row)) (cs row)) <$> seq row n).

Lemma rows_encoded_ok s buf parity nrows :
  je_ok s → length parity = je_n_parity_devs s → Forall (λ b, length b = je_chunk_size s) parity →
  rows_encoded s buf parity (row_codeword s buf parity) nrows.
Proof.
  intros Hok Hpl Hpf row _. unfold row_codeword.
  destruct (encode_stripe_ok s buf (Z.of_nat row * je_data_size s) parity Hok Hpl Hpf) as (c & -> & Hc & Hd). done.
Qed.

Lemma write_rows_bytes s buf parity n : ∀ row,
  je_ok s → length parity = je_n_parity_devs s → Forall (λ b, length b = je_chunk_size s) parity →
  write_rows s buf (Z.of_nat row * je_data_size s) parity n = Some (rows_bytes (row_codeword s buf parity) row n).
Proof.
  induction n as [|n IH]; intros row Hok Hpl Hpf; [done|]. cbn [write_rows].
  destruct (rows_encoded_ok s buf parity (row + 1) Hok Hpl Hpf row ltac:(lia)) as [He _]. rewrite He. cbn [mbind option_bind].
  replace (Z.of_nat row * je_data_size s + je_data_size s) with (Z.of_nat (Datatypes.S row) * je_data_size s) by lia.
  by rewrite IH.
Qed.

(** The write of the child for an extent, and whether it lost more than the
    parity; then it is tried once more when there is a blacklist. *)
Definition child_write s (bl row0 : Z) (nrows : nat) (bytes : list Z) (child : S) : S * op_status :=
  jc_write child bl (Ex_iovec (row0 * je_stripe_size_with_magic s) (Z.of_nat nrows * je_stripe_size_with_magic s)) (buf_of_list bytes) 0.
Definition lost_too_many s (st : op_status) : bool :=
  bool_decide (op_st st ≠ OP_STATE_SUCCESS) && bool_decide (error_code st > Z.of_nat (je_n_parity_devs s)).
Definition child_writes s (hints : option Z) (row0 : Z) (nrows : nat) (bytes : list Z) : S * op_status :=
  let res := child_write s (je_max_blacklist s hints) row0 nrows bytes (je_child s) in
  if lost_too_many s res.2 && je_blacklist s then child_write s 0 row0 nrows bytes res.1 else res.

Lemma write_outcome_lost s st :
  Gop → GopOk → let w := write_outcome s st (Write_state op_success_status false false) in
  wr_hard w = lost_too_many s st ∧ (op_st (wr_status w) = OP_STATE_SUCCESS ↔ lost_too_many s st = false).
Proof.
  intros _ Hgop. unfold write_outcome, lost_too_many. destruct (decide (op_st st = OP_STATE_SUCCESS)) as [Hs|Hs].
  - rewrite bool_decide_eq_false_2 by tauto. pose proof op_success_state. done.
  - rewrite bool_decide_eq_true_2 by done. cbn [andb]. destruct (decide _) as [He|He].
    + rewrite bool_decide_eq_true_2 by done. done.
    + rewrite bool_decide_eq_false_2 by done. pose proof op_success_state. done.
Qed.

(** The state and the outcome after a pass that began with [child]. *)
Definition pass_post s (child child' : S) (row0 : Z) (nrows : nat) (cs : nat → list chunk) (w : write_state) : Prop :=
  (∀ i, ¬ (row0 * je_stripe_size_with_magic s ≤ i < (row0 + Z.of_nat nrows) * je_stripe_size_with_magic s) →
     seg_byte child' i = seg_byte child i) ∧
  jc_size child ≤ jc_size child' ∧
  ∃ lost, rows_written s lost cs nrows (child_off s child' row0) ∧
    (wr_hard w = true ∧ op_st (wr_status w) ≠ OP_STATE_SUCCESS ∨
     wr_hard w = false ∧ op_st (wr_status w) = OP_STATE_SUCCESS ∧
       (row0 + Z.of_nat nrows) * je_stripe_size_with_magic s ≤ jc_size child' ∧
       ∀ row, (count s (lost row) ≤ je_n_parity_devs s)%nat).

Lemma write_pass s bl parity child row0 nrows buf :
  je_ok s → JeraseChildOk S (je_n_devs s) (je_chunk_size_with_magic s) → GopOk →
  length parity = je_n_parity_devs s → Forall (λ b, length b = je_chunk_size s) parity → 0 ≤ row0 →
  let cs := row_codeword s buf parity in
  let res := child_write s bl row0 nrows (rows_bytes cs 0 nrows) child in
  let w := write_outcome s res.2 (Write_state op_success_status false false) in
  write_iov s bl parity child [Ex_iovec (row0 * je_data_size s) (Z.of_nat nrows * je_data_size s)] buf 0
      (Write_state op_success_status false false) = Some (res.1, w) ∧ pass_post s child res.1 row0 nrows cs w.
Proof.
  intros Hok Hchild Hgop Hpl Hpf Hr0 cs res w. pose proof (rows_encoded_ok s buf parity nrows Hok Hpl Hpf) as Hcs.
  destruct (je_positive s Hok) as (Hc & Hn & Hs & Hd). cbn [write_iov]. unfold je_extent. cbn [iov_offset iov_len]. rewrite !Z.div_mul, Nat2Z.id by lia.
  pose proof (write_rows_bytes s buf parity nrows 0 Hok Hpl Hpf) as Hwb. rewrite Z.mul_0_l in Hwb.
  destruct (write_rows_ok s buf parity nrows 0 Hok Hpl Hpf) as (bytes & Hbytes & Hlen & Hrows).
  rewrite Hwb in Hbytes |- *. injection Hbytes as Hbytes. fold cs in Hbytes. cbn [mbind option_bind].
  pose proof (jc_write_lossy child bl (row0 * je_stripe_size_with_magic s) (Z.of_nat nrows * je_stripe_size_with_magic s)
    (buf_of_list bytes) ltac:(nia) ltac:(nia) ltac:(by exists row0) ltac:(by exists (Z.of_nat nrows))) as Hlossy.
  unfold w. clear w. unfold res, child_write. clear res. fold cs. rewrite Hbytes.
  fold cs in Hcs. clear Hwb. clearbody cs. clear Hbytes.
  destruct (jc_write _ _ _ _ _) as [child' st]. cbn [fst snd]. destruct Hlossy as (Hfr & Hsz & Hmono & lost & Hlost & Hnone & Hcnt).
  split; [done|]. split; [intros i Hi; apply Hfr; lia|]. split; [done|]. exists lost.
  assert (∀ row, count s (lost row) = length (filter (λ k, lost row k = true) (seq 0 (je_n_devs s)))) as Hcount.
  { intros row. unfold erased. by rewrite je_strips. }
  split.
  - intros row k Hrow Hk Hl. destruct (Hrows row Hrow) as (c & l1 & l2 & He & Hcw & _ & Hb & Hl1).
    destruct (Hcs row Hrow) as (He' & _). rewrite Z.add_0_l in He. rewrite He' in He. injection He as <-.
    destruct (lookup_lt_is_Some_2 (cs row) k) as [ck Hck]; [rewrite (proj1 (proj1 Hcw)), je_strips by done; lia|].
    destruct (row_bytes s bytes row (cs row) l1 l2 k ck Hok (proj1 Hcw) Hck Hb Hl1) as [Hm Hch].
    assert (∀ q n, 0 ≤ q → q + Z.of_nat n ≤ je_chunk_size_with_magic s →
      let p := Z.of_nat row * je_stripe_size_with_magic s + Z.of_nat k * je_chunk_size_with_magic s + q in
      list_of_buf (child_off s child' row0) p n = list_of_buf (buf_of_list bytes) p n) as Hdev.
    { intros q n Hq Hqn. apply (device_ext s (λ j d, negb (lost j d)) _ _ nrows); try done; [|by rewrite Hl].
      intros x Hx Hlx. apply negb_true_iff in Hlx. by apply Hlost. }
    rewrite row_magics_lookup, row_chunks_lookup, Hck by done.
    pose proof (Hdev 0 JE_MAGIC_SIZE ltac:(lia) ltac:(unfold je_chunk_size_with_magic; lia)) as H1'.
    pose proof (Hdev (Z.of_nat JE_MAGIC_SIZE) (je_chunk_size s) ltac:(lia) ltac:(unfold je_chunk_size_with_magic; lia)) as H2'.
    cbv zeta in H1', H2'. rewrite Z.add_0_r in H1'. by rewrite H1', H2', Hm, Hch.
  - unfold write_outcome. destruct (decide (op_st st = OP_STATE_SUCCESS)) as [Hst|Hst].
    + right. split; [done|]. split; [apply op_success_state|]. split; [specialize (Hsz (or_introl Hst)); lia|].
      intros row. rewrite Hcount. specialize (Hnone Hst row). replace (filter _ _) with (@nil nat); [simpl; lia|].
      symmetry. apply filter_nil_iff. intros k Hk%elem_of_seq. by rewrite Hnone by lia.
    + destruct (decide (error_code st > _)) as [He|He]; [by left|right]. split; [done|]. split; [apply op_success_state|].
      split; [assert (error_code st < Z.of_nat (je_n_devs s)) as Hlt|].
      { destruct (je_sizes s Hok). unfold je_n_devs. lia. }
      { specialize (Hsz (or_intror Hlt)). lia. }
      intros row. rewrite Hcount. specialize (Hcnt row). lia.
Qed.

Definition same_layout s s' : Prop :=
  je_plan s' = je_plan s ∧ je_n_data_devs s' = je_n_data_devs s ∧ je_n_parity_devs s' = je_n_parity_devs s ∧
  je_chunk_size s' = je_chunk_size s.

Lemma je_account_layout write soft hard s child :
  same_layout s (je_account write soft hard (je_set_child s child)) ∧ je_child (je_account write soft hard (je_set_child s child)) = child.
Proof. unfold je_account. by destruct (soft || hard). Qed.

Lemma write_extent_ok s hints parity row0 nrows buf :
  je_ok s → JeraseChildOk S (je_n_devs s) (je_chunk_size_with_magic s) → GopOk →
  length parity = je_n_parity_devs s → Forall (λ b, length b = je_chunk_size s) parity → 0 ≤ row0 →
  let cs := row_codeword s buf parity in
  ∃ s' st lost,
    segjerase_write s hints parity [Ex_iovec (row0 * je_data_size s) (Z.of_nat nrows * je_data_size s)] buf 0 = inr (Some (s', st)) ∧
    same_layout s s' ∧
    (∀ i, ¬ (row0 * je_stripe_size_with_magic s ≤ i < (row0 + Z.of_nat nrows) * je_stripe_size_with_magic s) →
       seg_byte (je_child s') i = seg_byte (je_child s) i) ∧
    rows_written s lost cs nrows (child_off s (je_child s') row0) ∧
    (op_st st = OP_STATE_SUCCESS →
       (row0 + Z.of_nat nrows) * je_stripe_size_with_magic s ≤ jc_size (je_child s') ∧
       ∀ row, (count s (lost row) ≤ je_n_parity_devs s)%nat) ∧
    let res := child_writes s hints row0 nrows (rows_bytes cs 0 nrows) in
    je_child s' = res.1 ∧ (op_st st = OP_STATE_SUCCESS ↔ lost_too_many s res.2 = false).
Proof.
  intros Hok Hchild Hgop Hpl Hpf Hr0 cs. destruct (je_positive s Hok) as (Hc & Hn & Hs & Hd).
  unfold segjerase_write. assert (whole_stripes s [Ex_iovec (row0 * je_data_size s) (Z.of_nat nrows * je_data_size s)] = true) as ->.
  { unfold whole_stripes. simpl. rewrite andb_true_r. apply andb_true_iff. split; apply bool_decide_eq_true.
    all: apply Z.rem_mul; lia. }
  unfold segjerase_write_func.
  destruct (write_pass s (je_max_blacklist s hints) parity (je_child s) row0 nrows buf Hok Hchild Hgop Hpl Hpf Hr0)
    as (-> & Hfr1 & Hm1 & lost1 & Hw1 & Hout1). cbn [mbind option_bind]. fold cs in Hfr1, Hm1, Hw1, Hout1 |- *.
  unfold child_writes. set (res1 := child_write s (je_max_blacklist s hints) row0 nrows (rows_bytes cs 0 nrows) (je_child s)) in *.
  set (w1 := write_outcome s res1.2 _) in *. destruct (write_outcome_lost s res1.2 _ Hgop) as [Hh1 Hs1].
  fold w1 in Hh1, Hs1. rewrite <- Hh1. destruct (wr_hard w1 && je_blacklist s).
  - destruct (write_pass s 0 parity res1.1 row0 nrows buf Hok Hchild Hgop Hpl Hpf Hr0)
      as (-> & Hfr2 & Hm2 & lost2 & Hw2 & Hout2). cbn [mbind option_bind]. fold cs in Hfr2, Hm2, Hw2, Hout2 |- *.
    set (res2 := child_write s 0 row0 nrows (rows_bytes cs 0 nrows) res1.1) in *. set (w2 := write_outcome s res2.2 _) in *.
    destruct (je_account_layout true (wr_soft w2) (wr_hard w2) s res2.1) as [Hl2 Hch2].
    do 3 eexists. split; [done|]. split; [done|]. rewrite Hch2. split; [|split; [exact Hw2|split; [|split; [done|]]]].
    + intros i Hi. by rewrite Hfr2, Hfr1.
    + intros Hst. by destruct Hout2 as [[_ ?]|(_ & _ & ? & ?)].
    + by destruct (write_outcome_lost s res2.2 _ Hgop).
  - cbn [mbind option_bind]. destruct (je_account_layout true (wr_soft w1) (wr_hard w1) s res1.1) as [Hl1 Hch1].
    do 3 eexists. split; [done|]. split; [done|]. rewrite Hch1. split; [exact Hfr1|]. split; [exact Hw1|]. split; [|by split].
    intros Hst. by destruct Hout1 as [[_ ?]|(_ & _ & ? & ?)].
Qed.

(** Writing an extent of whole stripes.  The write returns; outside the
    stripes of the extent the child is unchanged, and inside each device that is
    not lost holds the stripe's checksum and its chunk of the stripe's
    codeword; when the status is success, the child is large enough and no
    stripe has lost more devices than there is parity.  What the child is given
    is exactly the stripes, and the status is success exactly when the child's
    last write succeeded or counted no more errors than there is parity. *)
Theorem segjerase_write_correct s hints parity row0 nrows buf :
  je_ok s → JeraseChildOk S (je_n_devs s) (je_chunk_size_with_magic s) → GopOk →
  length parity = je_n_parity_devs s → Forall (λ b, length b = je_chunk_size s) parity → 0 ≤ row0 →
  let cs := row_codeword s buf parity in
  rows_encoded s buf parity cs nrows ∧
  ∃ s' st lost,
    segjerase_write s hints parity [Ex_iovec (row0 * je_data_size s) (Z.of_nat nrows * je_data_size s)] buf 0 = inr (Some (s', st)) ∧
    same_layout s s' ∧
    (∀ i, ¬ (row0 * je_stripe_size_with_magic s ≤ i < (row0 + Z.of_nat nrows) * je_stripe_size_with_magic s) →
       seg_byte (je_child s') i = seg_byte (je_child s) i) ∧
    rows_written s lost cs nrows (child_off s (je_child s') row0) ∧
    (op_st st = OP_STATE_SUCCESS →
       (row0 + Z.of_nat nrows) * je_stripe_size_with_magic s ≤ jc_size (je_child s') ∧
       ∀ row, (count s (lost row) ≤ je_n_parity_devs s)%nat) ∧
    let res := child_writes s hints row0 nrows (rows_bytes cs 0 nrows) in
    je_child s' = res.1 ∧ (op_st st = OP_STATE_SUCCESS ↔ lost_too_many s res.2 = false).
Proof. intros. split; [by apply rows_encoded_ok|]. by apply write_extent_ok. Qed.

(** ** Writing and reading back *)

Lemma list_of_buf_add b p n m : list_of_buf b p (n + m) = list_of_buf b p n ++ list_of_buf b (p + Z.of_nat n) m.
Proof.
  unfold list_of_buf. rewrite seq_app, fmap_app. f_equal. apply list_eq. intros i. rewrite !list_lookup_fmap.
  destruct (decide (i < m)%nat) as [Hi|Hi].
  - rewrite !lookup_seq_lt by done. simpl. do 2 f_equal. lia.
  - by rewrite !lookup_seq_ge by lia.
Qed.

Lemma concat_pieces b (cs : nat) n : ∀ p j,
  concat ((λ k, list_of_buf b (p + Z.of_nat k * Z.of_nat cs) cs) <$> seq j n) =
  list_of_buf b (p + Z.of_nat j * Z.of_nat cs) (n * cs).
Proof.
  induction n as [|n IH]; intros p j; [done|]. simpl. rewrite list_of_buf_add. f_equal. rewrite IH. f_equal. lia.
Qed.

Lemma buf_chunks_byte s buf pos i :
  0 ≤ i < je_data_size s → nth (Z.to_nat i) (concat (buf_chunks s buf pos)) 0 = buf (pos + i).
Proof.
  intros Hi. unfold buf_chunks. rewrite concat_pieces, Z.mul_0_l, Z.add_0_r. unfold je_data_size in Hi.
  apply nth_lookup_Some. unfold list_of_buf. rewrite list_lookup_fmap, lookup_seq_lt by lia. simpl. do 2 f_equal. lia.
Qed.

Lemma rows_image_written s buf buf2 (d : nat → list chunk) nrows p :
  je_ok s → (∀ row, (row < nrows)%nat → d row = buf_chunks s buf (Z.of_nat row * je_data_size s)) →
  rows_image s d 0 0 nrows buf2 p = if decide (0 ≤ p < Z.of_nat nrows * je_data_size s) then buf p else buf2 p.
Proof.
  intros Hok Hd. destruct (je_positive s Hok) as (_ & _ & _ & Hds). unfold rows_image.
  destruct (decide (0 ≤ p < Z.of_nat nrows * je_data_size s)) as [Hp|Hp].
  - rewrite decide_True by lia. rewrite Z.sub_0_r.
    pose proof (Z.div_mod p (je_data_size s) ltac:(lia)) as Hdm. pose proof (Z.mod_pos_bound p (je_data_size s) Hds) as Hm.
    assert (0 ≤ p / je_data_size s) as Hq0 by (apply Z.div_pos; lia).
    assert (p / je_data_size s < Z.of_nat nrows) as Hq by (apply Z.div_lt_upper_bound; lia).
    rewrite Hd by lia. rewrite buf_chunks_byte by done. f_equal. rewrite Z2Nat.id by done. lia.
  - rewrite decide_False; [done|]. by rewrite Nat.add_0_l, Z.add_0_l, Z.mul_0_l.
Qed.

(** A segment with the layout of [s] and everything else of [s']. *)
Definition je_relayout s s' : segjerase_priv S :=
  Segjerase_priv (je_child s') (je_plan s) (je_blacklist s') (je_write_errors s') (je_soft_errors s') (je_hard_errors s')
    (je_n_data_devs s) (je_n_parity_devs s) (je_magic_cksum s') (je_chunk_size s) (je_paranoid_check s').

Lemma same_layout_ok s s' : same_layout s s' → je_ok s → je_ok s'.
Proof. intros (Hp & Hn & Hm & Hc) [D M Z]. split; rewrite ?Hp, ?Hn, ?Hm, ?Hc; done. Qed.

(** What a write leaves is what a read relies on. *)
Lemma written_stored s lost cs nrows f row buf parity :
  je_ok s → rows_encoded s buf parity cs nrows → rows_written s lost cs nrows f → (row < nrows)%nat →
  cksum_of (cs row) ≠ empty_magic →
  (∀ k, (k < je_n_devs s)%nat → lost row k = true → row_magics s f row !! k ≠ Some (cksum_of (cs row))) →
  row_stored s f row (Some (cs row, lost row)).
Proof.
  intros Hok Henc Hw Hrow Hne Hlost. destruct (Henc row Hrow) as (_ & Hc & _). split; [done|]. split; [done|].
  split; [unfold row_magics; by rewrite length_fmap, length_seq|]. split; [by apply row_chunks_ok|].
  intros k Hk. split; [intros Hl; by apply Hw|intros Hl; by apply Hlost].
Qed.

(** C28: What was written is read back.  Write one extent of whole stripes from
    the start of a buffer, then read it into the start of any buffer with any
    hints.  The devices not lost to the write hold the
    stripe.  If the write returned success, no device that
    lost it holds the new checksum, and no checksum is zero, then as long as
    the devices lost to the write or to the read are in each stripe fewer than
    half and no more than the parity, the read returns success and the data. *)
Theorem segjerase_write_read s hints parity row0 nrows buf hints' stale junk buf2 :
  je_ok s → JeraseChildOk S (je_n_devs s) (je_chunk_size_with_magic s) → GopOk →
  length parity = je_n_parity_devs s → Forall (λ b, length b = je_chunk_size s) parity →
  length junk.1 = je_n_parity_devs s → Forall (λ b, length b = je_chunk_size s) junk.1 → 0 ≤ row0 →
  (∀ row, (row < nrows)%nat → cksum_of (row_codeword s buf parity row) ≠ empty_magic) →
  let iov := [Ex_iovec (row0 * je_data_size s) (Z.of_nat nrows * je_data_size s)] in
  let cs := row_codeword s buf parity in
  ∃ s' st lostw, segjerase_write s hints parity iov buf 0 = inr (Some (s', st)) ∧
    rows_written s lostw cs nrows (child_off s (je_child s') row0) ∧
    (op_st st = OP_STATE_SUCCESS →
     (∀ row k, (row < nrows)%nat → (k < je_n_devs s)%nat → lostw row k = true →
        row_magics s (child_off s (je_child s') row0) row !! k ≠ Some (cksum_of (cs row))) →
     ∃ lostr, read_lost s (child_off s (je_child s') row0) nrows (child_read s' hints' stale row0 nrows buf2) lostr ∧
       ((∀ row, (row < nrows)%nat → let D k := lostw row k || lostr row k in
           (2 * count s D < je_n_devs s)%nat ∧ (count s D ≤ je_n_parity_devs s)%nat) →
        ∃ s'' buf' st', segjerase_read s' hints' stale junk iov buf2 0 = inr (Some (s'', buf', st')) ∧
          op_st st' = OP_STATE_SUCCESS ∧
          ∀ p, buf' p = if decide (0 ≤ p < Z.of_nat nrows * je_data_size s) then buf p else buf2 p)).
Proof.
  intros Hok Hchild Hgop Hpl Hpf Hjl Hjf Hr0 Hne iov cs.
  pose proof (rows_encoded_ok s buf parity nrows Hok Hpl Hpf) as Henc.
  destruct (write_extent_ok s hints parity row0 nrows buf Hok Hchild Hgop Hpl Hpf Hr0) as (s' & st & lostw & Hrun & Hlay & _ & Hw & Hsucc & _).
  exists s', st, lostw. split; [done|]. split; [done|]. intros Hst Hstale. destruct (Hsucc Hst) as [Hsz _].
  pose proof (same_layout_ok s s' Hlay Hok) as Hok'.
  set (rc := λ row, Some (row_codeword s buf parity row, lostw row)).
  assert (∀ row, (row < nrows)%nat → row_stored s (child_off s (je_child s') row0) row (rc row)) as Hstored.
  { intros row Hrow. eapply written_stored; try done; [by apply Hne|]. intros k Hk. by apply Hstale. }
  destruct (je_positive s Hok) as (_ & _ & Hs & Hd).
  assert ((row0 + Z.of_nat nrows) * je_data_size s ≤ segjerase_size s') as Hin.
  { destruct Hlay as (_ & Hn & Hm & Hc). unfold segjerase_size, je_stripe_size_with_magic, je_data_size, je_chunk_size_with_magic, je_n_devs in *.
    rewrite Hn, Hm, Hc. apply Z.mul_le_mono_nonneg_r; [lia|]. apply Z.div_le_lower_bound; lia. }
  assert (s' = je_relayout s s') as He.
  { destruct s, s'. destruct Hlay as (Hp & Hn & Hm & Hc). simpl in *. by subst. }
  rewrite He in Hok', Hstored, Hin |- *.
  destruct (read_extent_ok (je_relayout s s') hints' stale junk row0 nrows buf2 rc Hok' Hchild Hgop Hjl Hjf Hr0 Hin Hstored)
    as (lostr & Hlr & Hread).
  exists lostr. split; [exact Hlr|]. intros HD. destruct (Hread HD) as (s'' & buf' & st' & Hrun' & Hst' & _ & _ & Hby).
  exists s'', buf', st'. split; [exact Hrun'|]. split; [done|]. intros p. rewrite Hby.
  apply (rows_image_written (je_relayout s s') buf buf2); [done|]. intros row Hrow. apply (Henc row Hrow).
Qed.
End rows.
