(* ===== verification/JeraseDemo.v ===== *)
(** * Erasure-coded segments: a child and examples

    zlib's checksum, a child in memory that loses a fixed set of devices, and
    the properties at concrete inputs.  The last part is what the code does
    with a stale bad map, with more errors than it can tell apart, and with
    RAID4. *)
From S2P Require Import Prelude Words Seg Raid4 Erasure ErasureCode JeraseSpec Jerase JeraseRw.
#[local] Open Scope Z_scope.

#[local] Existing Instance gop_std.
#[local] Existing Instance gop_std_ok.
#[local] Existing Instance mirror_jerasure.
#[local] Existing Instance mirror_mds.

(** Adler-32. *)
#[local] Instance adler_std : Adler := {|
  adler32_null := 1;
  adler32 a l :=
    let '(s1, s2) := foldl (λ '(s1, s2) b, let s1 := (s1 + b) mod 65521 in (s1, (s2 + s1) mod 65521)) (a mod 65536, a / 65536) l in
    s2 * 65536 + s1 |}.

(** ** A child in memory *)
Section lossy.
Context (n : nat) (csm : Z).

Record lossy_child := Lossy_child { lc_bytes : Z → Z; lc_size : Z; lc_lost : nat → bool }.

Definition lc_device (p : Z) : nat := Z.to_nat ((p / csm) mod Z.of_nat n).
Definition lc_count (c : lossy_child) : Z := Z.of_nat (length (filter (λ k, lc_lost c k = true) (seq 0 n))).
Definition lc_status (c : lossy_child) : op_status :=
  if decide (lc_count c = 0) then op_success_status else Op_status OP_STATE_FAILURE (lc_count c).

#[local] Instance lossy_jerase : JeraseChild lossy_child := {|
  jc_size := lc_size;
  jc_read c _ v t boff :=
    (c, λ p, if decide (boff ≤ p < boff + iov_len v)
             then if lc_lost c (lc_device (p - boff)) then 0 else lc_bytes c (iov_offset v + (p - boff)) else t p, lc_status c);
  jc_write c _ v t boff :=
    (Lossy_child
       (λ i, if decide (iov_offset v ≤ i < iov_offset v + iov_len v)
             then if lc_lost c (lc_device (i - iov_offset v)) then lc_bytes c i else t (boff + (i - iov_offset v)) else lc_bytes c i)
       (Z.max (lc_size c) (iov_offset v + iov_len v)) (lc_lost c), lc_status c);
  jc_truncate c size := (Lossy_child (lc_bytes c) (Z.max 0 size) (lc_lost c), op_success_status) |}.
#[local] Instance lossy_bytes : SegBytes lossy_child := lc_bytes.

Lemma lc_status_count c :
  lc_count c ≤ error_code (lc_status c) ∧ (op_st (lc_status c) = OP_STATE_SUCCESS → lc_count c = 0).
Proof.
  unfold lc_status. destruct (decide (lc_count c = 0)) as [->|Hc]; simpl; [done|]. split; [lia|done].
Qed.

Lemma lc_count_zero c : lc_count c = 0 → ∀ k, (k < n)%nat → lc_lost c k = false.
Proof.
  intros Hc k Hk. unfold lc_count in Hc. destruct (lc_lost c k) eqn:Hl; [|done].
  assert (k ∈ filter (λ k, lc_lost c k = true) (seq 0 n)) as Hin by (apply list_elem_of_filter; split; [done|apply elem_of_seq; lia]).
  destruct (filter _ _); [by apply not_elem_of_nil in Hin|simpl in Hc; lia].
Qed.

#[local] Instance lossy_ok : JeraseChildOk lossy_child n csm.
Proof.
  split.
  - intros c bl off len t Hoff Hlen _ _ Hin. simpl. split; [done|]. split; [done|].
    exists (λ _ k, lc_lost c k). split; [|intros _; apply lc_status_count].
    intros p Hp. rewrite decide_True by lia. by rewrite !Z.sub_0_r.
  - intros c bl off len t Hoff Hlen _ _. simpl. split; [|split; [lia|split; [lia|]]].
    { intros i Hi. unfold seg_byte, lossy_bytes. simpl. by rewrite decide_False by lia. }
    exists (λ _ k, lc_lost c k). split; [|split].
    + intros p Hp Hl. unfold seg_byte, lossy_bytes. simpl. rewrite decide_True by lia.
      replace (off + p - off) with p by lia. unfold lc_device. by rewrite Hl.
    + intros Hs row k Hk. apply lc_status_count in Hs. by apply lc_count_zero.
    + intros _. apply lc_status_count.
Qed.
End lossy.

(** ** Witnesses: the plan *)
Lemma et_generate_plan_correct_witness :
  (0 < 6)%nat ∧ gen_word CAUCHY_GOOD 6 (-1) = Some (8, 8) ∧ 8 * Z.of_nat 6 < 2 ^ 16 ∧ 64 * (8 * Z.of_nat 6) ≤ 98304 ∧
  ∃ p low high, et_generate_plan one_percent 98304 CAUCHY_GOOD 6 3 (-1) (-1) (-1) = Gen_plan p ∧
    plan_sizes 98304 CAUCHY_GOOD 6 3 p ∧ low < packet_size p ≤ high ∧
    (one_percent (strip_size p * Z.of_nat 6 - 98304) 98304 = true ∨
     ∀ k, 0 ≤ k → low < high - k * base_unit p →
       ∃ size, gen_new_size 98304 (plan_w p) (high - k * base_unit p) (base_unit p) 6 = Some size ∧
         strip_size p * Z.of_nat 6 ≤ size).
Proof.
  split; [lia|]. split; [reflexivity|]. split; [lia|]. split; [lia|].
  exact (et_generate_plan_correct one_percent 98304 CAUCHY_GOOD 6 3 8 8 ltac:(lia) eq_refl ltac:(lia) ltac:(lia) ltac:(lia)).
Defined.

(** A packet size of 2^22 makes the product come to 2^32, and the division is by 0. *)
Example demo_plan_wraps :
  et_generate_plan one_percent (2 ^ 33) CAUCHY_GOOD 16 3 8 (2 ^ 22 - 8) (2 ^ 22) = Gen_undefined.
Proof. vm_compute. reflexivity. Qed.

Definition demo_cauchy : erasure_plan := Erasure_plan 16384 CAUCHY_GOOD 6 3 8 256 8 None None None.

Lemma plan_matrices_order_witness :
  plan_fresh demo_cauchy ∧
  (plan_encodes (form_decoding_matrix (form_encoding_matrix demo_cauchy).2).2 ∧
   plan_decodes (form_decoding_matrix (form_encoding_matrix demo_cauchy).2).2) ∧
  ∀ ptr n, encode_block (form_encoding_matrix (form_decoding_matrix demo_cauchy).2).2 ptr n = None.
Proof.
  split; [done|].
  destruct (plan_matrices_order demo_cauchy) as [H1 H2]; [done|exact mirror_library_builds|by vm_compute|].
  split; [exact H1|]. apply H2. right. left. reflexivity.
Defined.

Lemma raid4_plan_not_mds_witness :
  (∀ x n, decode_block (raid4_plan 2) x n [2; -1] = Some (0, x)) ∧ ¬ MdsPlan (raid4_plan 2) 4.
Proof. apply (raid4_plan_not_mds 2 4); lia. Defined.

(** ** Witnesses: checking and repairing *)
Abbreviation demo_plan := (mirror_plan 2).
Abbreviation demo_stripe := ([[7; 8]; [7; 8]; [7; 8]]).
Abbreviation demo_mem := ([[7; 8]; [9; 9]; [7; 8]; [0; 0]; [0; 0]]).

Lemma demo_layout : layout demo_plan 2 demo_mem (seq 0 3) (seq 3 2).
Proof.
  split.
  - apply (bool_decide_unpack _). vm_compute. exact I.
  - done.
  - intros a Ha. change (seq 0 3 ++ seq 3 2) with (seq 0 5) in Ha. apply elem_of_seq in Ha. simpl. lia.
  - repeat constructor.
Qed.

Lemma demo_codeword : codeword demo_plan 2 demo_stripe.
Proof. split; [split; [done|repeat constructor]|done]. Qed.

Lemma demo_agree (x : list chunk) :
  x = [[7; 8]; [9; 9]; [7; 8]] → agree_off demo_plan (λ i, bool_decide (i = 1%nat)) x demo_stripe.
Proof. intros -> i Hi Hb. apply bool_decide_eq_false in Hb. unfold n_strips in Hi. simpl in Hi. destruct i as [|[|[|]]]; done || lia. Qed.

Lemma jerase_control_check_correct_witness :
  ∃ r eptr' mem',
    jerase_control_check demo_plan 2 (n_strips demo_plan) (parity_strips demo_plan) [false; true; false] (seq 0 3) [] (seq 3 2) None demo_mem =
      Some (r, eptr', mem') ∧
    (r = 0 ↔ ∃ c, codeword demo_plan 2 c ∧ agree_off demo_plan (bad_of [false; true; false]) [[7; 8]; [9; 9]; [7; 8]] c) ∧
    (∀ c, r = 0 → codeword demo_plan 2 c → agree_off demo_plan (bad_of [false; true; false]) [[7; 8]; [9; 9]; [7; 8]] c →
       buffers mem' (seq 0 3) = Some c ∧ buffers mem' eptr' = Some c) ∧
    length mem' = length demo_mem ∧
    (∀ a, a ∉ seq 3 2 → (∀ i, seq 0 3 !! i = Some a → [false; true; false] !! i = Some false) → mem' !! a = demo_mem !! a).
Proof.
  apply (jerase_control_check_correct demo_plan 2 [false; true; false] (seq 0 3) [] (seq 3 2) demo_mem [[7; 8]; [9; 9]; [7; 8]]);
    [exact demo_layout|reflexivity|reflexivity|vm_compute; lia|vm_compute; lia|reflexivity].
Defined.

Lemma jerase_brute_recovery_correct_witness :
  ∃ badmap' eptr' mem' y,
    jerase_brute_recovery demo_plan 2 (n_strips demo_plan) (parity_strips demo_plan) [false; false; false] (seq 0 3) [] (seq 3 2) None demo_mem =
      Some (0, (badmap', eptr', mem')) ∧ y = demo_stripe ∧
    (buffers mem' eptr' = Some y ∨ (@None (list Z)) ≠ None ∧ bad_count [false; false; false] = 0%nat ∧ y = [[7; 8]; [9; 9]; [7; 8]]).
Proof.
  apply (jerase_brute_recovery_correct demo_plan 2 None [false; false; false] (seq 0 3) [] (seq 3 2) demo_mem
    [[7; 8]; [9; 9]; [7; 8]] demo_stripe (λ i, bool_decide (i = 1%nat)));
    [exact demo_layout|reflexivity|reflexivity|reflexivity|vm_compute; lia|exact demo_codeword|by apply demo_agree
    |intros [|[|[|i]]]; done|vm_compute; lia].
Defined.

(** ** Witnesses: reading and writing *)
Definition demo_child (lost : nat → bool) (size : Z) : lossy_child := Lossy_child (λ _, 0) size lost.
Definition demo_seg (c : lossy_child) : segjerase_priv lossy_child := Segjerase_priv c demo_plan false 0 0 0 1 2 true 2 0.
Abbreviation demo_junk := ([[5; 5]; [6; 6]], 0).

Lemma demo_seg_ok c : je_ok (demo_seg c).
Proof. split; [done|apply mirror_mds|simpl; lia]. Qed.


#[local] Instance demo_jerase : JeraseChild lossy_child := lossy_jerase 3 6.
#[local] Instance demo_bytes : SegBytes lossy_child := lossy_bytes.
#[local] Instance demo_jerase_ok c : JeraseChildOk lossy_child (je_n_devs (demo_seg c)) (je_chunk_size_with_magic (demo_seg c)).
Proof. exact (lossy_ok 3 6). Qed.

Definition demo_data : tbuffer := λ p, 65 + p.

Lemma demo_cksums c row :
  (row < 2)%nat → cksum_of (row_codeword (demo_seg c) demo_data [[0; 0]; [0; 0]] row) ≠ empty_magic.
Proof. intros Hr. destruct row as [|[|row]]; [vm_compute; discriminate|vm_compute; discriminate|lia]. Qed.

Lemma segjerase_write_correct_witness :
  let s := demo_seg (demo_child (λ k, bool_decide (k = 1%nat)) 0) in
  let cs := row_codeword s demo_data [[0; 0]; [0; 0]] in
  rows_encoded s demo_data [[0; 0]; [0; 0]] cs 2 ∧
  ∃ s' st lost,
    segjerase_write s None [[0; 0]; [0; 0]] [Ex_iovec (3 * je_data_size s) (Z.of_nat 2 * je_data_size s)] demo_data 0 = inr (Some (s', st)) ∧
    same_layout s s' ∧
    (∀ i, ¬ (3 * je_stripe_size_with_magic s ≤ i < (3 + Z.of_nat 2) * je_stripe_size_with_magic s) →
       seg_byte (je_child s') i = seg_byte (je_child s) i) ∧
    rows_written s lost cs 2 (child_off s (je_child s') 3) ∧
    (op_st st = OP_STATE_SUCCESS →
       (3 + Z.of_nat 2) * je_stripe_size_with_magic s ≤ jc_size (je_child s') ∧
       ∀ row, (length (erased (je_plan s) (lost row)) ≤ je_n_parity_devs s)%nat) ∧
    let res := child_writes s None 3 2 (rows_bytes cs 0 2) in
    je_child s' = res.1 ∧ (op_st st = OP_STATE_SUCCESS ↔ lost_too_many s res.2 = false).
Proof.
  intros s cs. apply (segjerase_write_correct s None [[0; 0]; [0; 0]] 3 2 demo_data);
    [apply demo_seg_ok|apply demo_jerase_ok|exact gop_std_ok|reflexivity|repeat constructor|lia].
Defined.

Lemma segjerase_write_read_witness :
  let s := demo_seg (demo_child (λ k, bool_decide (k = 1%nat)) 0) in
  let iov := [Ex_iovec (3 * je_data_size s) (Z.of_nat 2 * je_data_size s)] in
  let cs := row_codeword s demo_data [[0; 0]; [0; 0]] in
  ∃ s' st lostw, segjerase_write s None [[0; 0]; [0; 0]] iov demo_data 0 = inr (Some (s', st)) ∧
    rows_written s lostw cs 2 (child_off s (je_child s') 3) ∧
    (op_st st = OP_STATE_SUCCESS →
     (∀ row k, (row < 2)%nat → (k < je_n_devs s)%nat → lostw row k = true →
        row_magics s (child_off s (je_child s') 3) row !! k ≠ Some (cksum_of (cs row))) →
     ∃ lostr, read_lost s (child_off s (je_child s') 3) 2 (child_read s' None (λ _ _, 0) 3 2 (λ _, 0)) lostr ∧
       ((∀ row, (row < 2)%nat → let D k := lostw row k || lostr row k in
           (2 * length (erased (je_plan s) D) < je_n_devs s)%nat ∧ (length (erased (je_plan s) D) ≤ je_n_parity_devs s)%nat) →
        ∃ s'' buf' st', segjerase_read s' None (λ _ _, 0) demo_junk iov (λ _, 0) 0 = inr (Some (s'', buf', st')) ∧
          op_st st' = OP_STATE_SUCCESS ∧
          ∀ p, buf' p = if decide (0 ≤ p < Z.of_nat 2 * je_data_size s) then demo_data p else 0)).
Proof.
  intros s iov cs. apply (segjerase_write_read s None [[0; 0]; [0; 0]] 3 2 demo_data None (λ _ _, 0) demo_junk (λ _, 0));
    [apply demo_seg_ok|apply demo_jerase_ok|exact gop_std_ok|reflexivity|repeat constructor|reflexivity|repeat constructor|lia
    |intros row Hr; by apply demo_cksums].
Defined.

(** The conditions of the last theorem are met in that run: one of three
    devices loses both requests, and the data comes back. *)
Lemma demo_run :
  let s := demo_seg (demo_child (λ k, bool_decide (k = 1%nat)) 0) in
  let iov := [Ex_iovec (3 * je_data_size s) (Z.of_nat 2 * je_data_size s)] in
  match segjerase_write s None [[0; 0]; [0; 0]] iov demo_data 0 with
  | inr (Some (s', st)) =>
      op_st st = OP_STATE_SUCCESS ∧ row_magics s (child_off s (je_child s') 3) 0 !! 1%nat = Some empty_magic ∧
      match segjerase_read s' None (λ _ _, 0) demo_junk iov (λ _, 0) 0 with
      | inr (Some (s'', buf', st')) => op_st st' = OP_STATE_SUCCESS ∧ list_of_buf buf' 0 4 = [65; 66; 67; 68] ∧ je_soft_errors s'' = 1
      | _ => False
      end
  | _ => False
  end.
Proof. vm_compute. done. Qed.

(** Reading zeros from a segment that was never written. *)
Lemma segjerase_read_correct_witness :
  let s := demo_seg (demo_child (λ _, false) 36) in
  let res := child_read s None (λ _ _, 0) 0 2 demo_data in
  ∃ lost, read_lost s (child_off s (je_child s) 0) 2 res lost ∧
    ((∀ row, (row < 2)%nat → row_readable s None (lost row) (error_code res.2)) →
     ∃ s' buf' st,
       segjerase_read s None (λ _ _, 0) demo_junk [Ex_iovec (0 * je_data_size s) (Z.of_nat 2 * je_data_size s)] demo_data 0 =
         inr (Some (s', buf', st)) ∧
       op_st st = OP_STATE_SUCCESS ∧ (∀ i, seg_byte (je_child s') i = seg_byte (je_child s) i) ∧
       je_hard_errors s' = je_hard_errors s ∧
       ∀ p, buf' p = rows_image s (λ row, row_data s None) 0 0 2 demo_data p).
Proof.
  intros s res. apply (segjerase_read_correct s None (λ _ _, 0) demo_junk 0 2 demo_data (λ _, None));
    [apply demo_seg_ok|apply demo_jerase_ok|exact gop_std_ok|reflexivity|repeat constructor|lia|vm_compute; discriminate|].
  intros row Hr m Hm. destruct row as [|[|row]]; [| |lia]; vm_compute in Hm; set_solver.
Defined.

(** ** Where the repair goes wrong

    Three mirrors of a chunk, one of them bad. *)
Definition repaired (res : option (Z * brute_state)) : option (Z * list chunk) :=
  '(r, (_, eptr, mem)) ← res; cs ← buffers mem eptr; Some (r, cs).

(** What the search can not tell.  A stripe of three mirrors whose third
    is bad is repaired when the search starts from an empty bad map; but when it
    starts from a bad map left by an earlier stripe, as the read and the
    inspection do, the first check overwrites a good chunk in place with what
    the bad one dictates, and the search then succeeds with wrong data in all
    chunks.  And with three parity chunks, two errors (one less than the
    parity, which the search is said to correct) can be repaired to the wrong
    stripe. *)
Theorem jerase_brute_recovery_limits :
  repaired (jerase_brute_recovery (mirror_plan 2) 1 3 2 [false; false; false] (seq 0 3) [] (seq 3 2) None
    [[7]; [7]; [9]; [0]; [0]]) = Some (0, [[7]; [7]; [7]]) ∧
  repaired (jerase_brute_recovery (mirror_plan 2) 1 3 2 [true; false; false] (seq 0 3) [] (seq 3 2) None
    [[7]; [7]; [9]; [0]; [0]]) = Some (0, [[9]; [9]; [9]]) ∧
  repaired (jerase_brute_recovery (mirror_plan 3) 1 4 3 [false; false; false; false] (seq 0 4) [] (seq 4 3) None
    [[7]; [7]; [9]; [9]; [0]; [0]; [0]]) = Some (0, [[9]; [9]; [9]; [9]]).
Proof. split_and!; vm_compute; reflexivity. Qed.

(** A RAID4 segment of two data devices. *)
Definition raid4_seg : segjerase_priv lossy_child :=
  Segjerase_priv (demo_child (λ _, false) 0) (raid4_plan 2) false 0 0 0 2 1 true 1 0.
Definition raid4_stripe : list chunk := [[5]; [6]; [3]].

(** A RAID4 segment does not survive the loss of its parity device.  The
    stripe is a codeword; its data chunks arrive with the stripe's checksum, and
    only the parity chunk is lost and reads as zeros.  Reading the stripe ends
    in a hard error, where losing a data chunk instead is recovered from. *)
Theorem raid4_parity_loss_hard_error :
  let g := cksum_of raid4_stripe in
  let r := Read_state None [[0]] 0 op_success_status false false in
  codeword (raid4_plan 2) 1 raid4_stripe ∧
  (∃ r', read_stripe raid4_seg (Op_status OP_STATE_FAILURE 1) [g; g; [0; 0; 0; 0]] [[5]; [6]; [0]] r = Some ([[5]; [6]; [0]], r') ∧
     rd_hard r' = true ∧ op_st (rd_status r') = OP_STATE_FAILURE) ∧
  (∃ r', read_stripe raid4_seg (Op_status OP_STATE_FAILURE 1) [[0; 0; 0; 0]; g; g] [[0]; [6]; [3]] r = Some ([[5]; [6]; [3]], r') ∧
     rd_hard r' = false).
Proof.
  intros g r. split; [split; [split; [done|repeat constructor]|done]|].
  split; vm_compute; eexists; (split; [reflexivity|done]).
Qed.
