(* ===== verification/CacheRange.v ===== *)
(** * Ranges of a partial page (segment_cache.c)

    A partial page collects small writes: a buffer of one page and the list of
    the ranges that have been written to it, in order.  Ranges that overlap or
    touch are merged. *)
From S2P Require Import Prelude.
#[local] Open Scope Z_scope.

Abbreviation range := (Z * Z)%type.

(** [cache_partial_page_t]. *)
Record cache_partial_page := Cache_partial_page {
  page_start : Z;
  page_end : Z;
  range_stack : list range;
  pp_data : tbuffer;
  pp_flags : Z }.

Definition pp_set_ranges (pp : cache_partial_page) l flags : cache_partial_page :=
  Cache_partial_page (page_start pp) (page_end pp) l (pp_data pp) flags.
Definition pp_set_data (pp : cache_partial_page) d : cache_partial_page :=
  Cache_partial_page (page_start pp) (page_end pp) (range_stack pp) d (pp_flags pp).

(** ** Merging *)

(** The loop of [_cache_ppages_range_collapse]: [trng] is the range just
    expanded, [hi1] the offset after its end when the loop began, and the list
    holds the ranges below. *)
Fixpoint collapse_loop (hi1 : Z) (trng : range) (l : list range) : range * list range :=
  match l with
  | [] => (trng, [])
  | rng :: l' =>
      if decide (hi1 >= rng.1) then
        if decide (rng.2 > trng.2) then ((trng.1, rng.2), l') else collapse_loop hi1 trng l'
      else (trng, l)
  end.

(** Whether the ranges are the whole page. *)
Definition one_full_range (pp : cache_partial_page) (l : list range) : bool :=
  match l with
  | [rng] => bool_decide (rng.1 = 0 ∧ rng.2 = page_end pp - page_start pp)
  | _ => false
  end.

(** The ranges are [above], [trng], [below]; the flags are the result. *)
Definition _cache_ppages_range_collapse (pp : cache_partial_page) (above : list range) (trng : range) (below : list range)
    : cache_partial_page :=
  let '(trng, below) := collapse_loop (trng.2 + 1) trng below in
  let l := above ++ trng :: below in
  pp_set_ranges pp l (if one_full_range pp l then 1 else pp_flags pp).

(** The ranges above the insertion point, which are those that begin before
    [lo], the last one first, and the others. *)
Fixpoint insertion_point (lo : Z) (above : list range) (l : list range) : list range * list range :=
  match l with
  | [] => (above, [])
  | rng :: l' => if decide (lo ≤ rng.1) then (above, l) else insertion_point lo (rng :: above) l'
  end.

(** The request begins after the ranges [above]: it reaches the first range
    below, or is a range of its own. *)
Definition merge_below (pp : cache_partial_page) (above below : list range) (lo hi : Z) : cache_partial_page * Z :=
  match below with
  | rng :: below' =>
      if decide (rng.1 ≤ hi + 1) then
        if decide (rng.2 < hi) then
          let pp := _cache_ppages_range_collapse pp above (lo, hi) below' in (pp, pp_flags pp)
        else (pp_set_ranges pp (above ++ (lo, rng.2) :: below') (pp_flags pp), 0)
      else (pp_set_ranges pp (above ++ (lo, hi) :: below) (pp_flags pp), 0)
  | [] => (pp_set_ranges pp (above ++ [(lo, hi)]) (pp_flags pp), 0)
  end.

(** The page and the result.  Without a range above, the source compares with
    one that ends at [lo - 10], which never reaches [lo]. *)
Definition _cache_ppages_range_merge (page_size : Z) (pp : cache_partial_page) (lo hi : Z) : cache_partial_page * Z :=
  match range_stack pp with
  | [] =>
      if decide (lo = 0 ∧ hi = page_size - 1) then (pp_set_ranges pp [] 1, 1)
      else (pp_set_ranges pp [(lo, hi)] (pp_flags pp), 0)
  | l =>
      match insertion_point lo [] l with
      | (prng :: above, below) =>
          if decide (lo ≤ prng.2 + 1) then
            if decide (prng.2 < hi) then
              match below with
              | _ :: _ =>
                  let pp := _cache_ppages_range_collapse pp (reverse above) (prng.1, hi) below in (pp, pp_flags pp)
              | [] =>
                  let l := reverse above ++ [(prng.1, hi)] in
                  (pp_set_ranges pp l (if one_full_range pp l then 1 else pp_flags pp), 0)
              end
            else (pp, 0)
          else merge_below pp (reverse (prng :: above)) below lo hi
      | ([], below) => merge_below pp [] below lo hi
      end
  end.

(** ** What a page holds *)

(** Ranges inside a page of [n] bytes from [lo] on, in order and apart. *)
Fixpoint ranges_from (n lo : Z) (l : list range) : Prop :=
  match l with
  | [] => True
  | r :: l => lo ≤ r.1 ≤ r.2 ∧ r.2 < n ∧ ranges_from n (r.2 + 2) l
  end.
Definition in_ranges (l : list range) (x : Z) : Prop := Exists (λ r, r.1 ≤ x ≤ r.2) l.
#[export] Instance in_ranges_dec l x : Decision (in_ranges l x).
Proof. unfold in_ranges. apply _. Defined.

(** The offsets in the page that have been written. *)
Definition pp_has (pp : cache_partial_page) (x : Z) : Prop :=
  (pp_flags pp = 1 ∧ 0 ≤ x ≤ page_end pp - page_start pp) ∨ in_ranges (range_stack pp) x.
#[export] Instance pp_has_dec pp x : Decision (pp_has pp x).
Proof. unfold pp_has. apply _. Defined.

Record pp_wf (n : Z) (pp : cache_partial_page) : Prop := {
  pp_wf_end : page_end pp = page_start pp + n - 1;
  pp_wf_ranges : ranges_from n 0 (range_stack pp);
  pp_wf_flags : pp_flags pp = 0 ∨ pp_flags pp = 1 ∧ ∀ x, 0 ≤ x < n → pp_has pp x }.

Lemma in_ranges_app l1 l2 x : in_ranges (l1 ++ l2) x ↔ in_ranges l1 x ∨ in_ranges l2 x.
Proof. apply Exists_app. Qed.
Lemma in_ranges_cons r l x : in_ranges (r :: l) x ↔ r.1 ≤ x ≤ r.2 ∨ in_ranges l x.
Proof. apply Exists_cons. Qed.
Lemma in_ranges_nil x : in_ranges [] x ↔ False.
Proof. apply Exists_nil. Qed.

Lemma ranges_from_weaken n lo lo' l : lo' ≤ lo → ranges_from n lo l → ranges_from n lo' l.
Proof. destruct l as [|r l]; simpl; [done|]. intuition lia. Qed.

(** All of the ranges but the last end two before what follows. *)
Definition ranges_end (lo : Z) (l : list range) : Z := from_option (λ r : range, r.2 + 2) lo (last l).

Lemma ranges_from_app n lo l1 l2 :
  ranges_from n lo (l1 ++ l2) ↔ ranges_from n lo l1 ∧ ranges_from n (ranges_end lo l1) l2.
Proof.
  revert lo. induction l1 as [|r l1 IH]; intros lo; simpl; [tauto|]. rewrite IH.
  assert (ranges_end (r.2 + 2) l1 = ranges_end lo (r :: l1)) as ->; [|tauto].
  unfold ranges_end. rewrite last_cons. by destruct (last l1).
Qed.

Lemma ranges_end_ge n lo l : ranges_from n lo l → lo ≤ ranges_end lo l.
Proof.
  revert lo. induction l as [|r l IH]; intros lo; simpl; [intros; unfold ranges_end; simpl; lia|].
  intros (H1 & H2 & H3). specialize (IH _ H3). unfold ranges_end in *. rewrite last_cons.
  destruct (last l); simpl in *; lia.
Qed.

Lemma ranges_bound n lo l x : ranges_from n lo l → in_ranges l x → lo ≤ x < n.
Proof.
  revert lo. induction l as [|r l IH]; intros lo; simpl; [intros _ ?%in_ranges_nil; done|].
  intros (H1 & H2 & H3) [?|Hx]%in_ranges_cons; [lia|]. specialize (IH _ H3 Hx). lia.
Qed.

Lemma insertion_point_spec n lo : ∀ l above b0,
  ranges_from n 0 (reverse above ++ l) → (∀ r, r ∈ above → r.1 < lo) →
  insertion_point lo above l = b0 →
  reverse above ++ l = reverse b0.1 ++ b0.2 ∧ (∀ r, r ∈ b0.1 → r.1 < lo) ∧
  match b0.2 with [] => True | r :: _ => lo ≤ r.1 end.
Proof.
  induction l as [|rng l IH]; intros above b0 Hr Ha <-; cbn [insertion_point]; [done|].
  case_decide as Hlo; [done|]. cbn [fst snd].
  destruct (IH (rng :: above) _ ltac:(by rewrite reverse_cons, <- app_assoc) ltac:(intros r [->|?]%elem_of_cons; [lia|auto]) eq_refl) as (H1 & H2 & H3).
  split; [|done]. by rewrite <- H1, reverse_cons, <- app_assoc.
Qed.

(** Collapsing. *)
Lemma collapse_loop_spec n hi1 : ∀ l t t' l',
  ranges_from n (t.1 + 1) l → t.1 ≤ t.2 < n → hi1 = t.2 + 1 →
  collapse_loop hi1 t l = (t', l') →
  t'.1 = t.1 ∧ t.2 ≤ t'.2 < n ∧ ranges_from n (t'.2 + 2) l' ∧
  ∀ x, (t'.1 ≤ x ≤ t'.2 ∨ in_ranges l' x) ↔ (t.1 ≤ x ≤ t.2 ∨ in_ranges l x).
Proof.
  induction l as [|r l IH]; intros t t' l' Hr Ht Hhi; cbn [collapse_loop].
  { intros [= <- <-]. split_and!; try done; lia. }
  cbn [ranges_from] in Hr. destruct Hr as (Hr1 & Hr2 & Hr3). setoid_rewrite in_ranges_cons.
  case_decide as Hov; [case_decide as Hext|].
  - intros [= <- <-]. cbn [fst snd]. split_and!; try done; try lia. intros x.
    split; [intros [?|?]; [destruct (decide (x ≤ t.2)); [left; lia|right; left; lia]|auto]|intros [?|[?|?]]; [left; lia..|auto]].
  - intros Hc. destruct (IH t t' l') as (H1 & H2 & H3 & H4); try done.
    + eapply ranges_from_weaken; [|exact Hr3]. lia.
    + split_and!; try done; try lia. intros x. rewrite H4. split; [intuition lia|]. intros [?|[?|?]]; auto. left; lia.
  - intros [= <- <-]. cbn [ranges_from]. split_and!; try done; try lia. intros x. by rewrite in_ranges_cons.
Qed.

Lemma one_full_range_spec n pp l :
  page_end pp = page_start pp + n - 1 → one_full_range pp l = true → ∀ x, 0 ≤ x < n → in_ranges l x.
Proof.
  intros He. unfold one_full_range. destruct l as [|r [|? ?]]; try done. rewrite bool_decide_eq_true.
  intros [H1 H2] x Hx. apply in_ranges_cons. left. lia.
Qed.

(** New ranges that hold the old ones and the request. *)
Lemma pp_set_ranges_wf n pp l lo hi flags :
  pp_wf n pp → ranges_from n 0 l → 0 ≤ lo → hi < n →
  (∀ x, in_ranges l x ↔ in_ranges (range_stack pp) x ∨ lo ≤ x ≤ hi) →
  flags = pp_flags pp ∨ (flags = 1 ∧ ∀ x, 0 ≤ x < n → in_ranges l x) →
  let pp' := pp_set_ranges pp l flags in
  pp_wf n pp' ∧ ∀ x, pp_has pp' x ↔ pp_has pp x ∨ lo ≤ x ≤ hi.
Proof.
  intros [He Hr Hf] Hl Hlo Hhi Hx Hfl pp'. unfold pp'. split.
  - split; [done|done|]. simpl. destruct Hfl as [->|[-> Hall]].
    + destruct Hf as [?|[Hf Hall]]; [by left|right]. split; [done|]. intros x Hxn. left. simpl. rewrite Hf, He. lia.
    + right. split; [done|]. intros x Hxn. right. by apply Hall.
  - intros x. unfold pp_has. simpl. rewrite Hx. destruct Hfl as [->|[-> Hall]]; [tauto|]. split.
    + intros [[_ Hxn]|?]; [|tauto]. specialize (Hall x ltac:(lia)). apply Hx in Hall. tauto.
    + tauto.
Qed.

Lemma collapse_wf n pp above below t l lo hi :
  pp_wf n pp → ranges_from n 0 above → ranges_end 0 above ≤ t.1 → ranges_from n (t.1 + 1) below → t.1 ≤ t.2 < n →
  0 ≤ lo → hi < n → l = range_stack pp →
  (∀ x, in_ranges above x ∨ t.1 ≤ x ≤ t.2 ∨ in_ranges below x ↔ in_ranges l x ∨ lo ≤ x ≤ hi) →
  let pp' := _cache_ppages_range_collapse pp above t below in
  pp_wf n pp' ∧ ∀ x, pp_has pp' x ↔ pp_has pp x ∨ lo ≤ x ≤ hi.
Proof.
  intros Hwf Ha Hea Hb Ht Hlo Hhi -> Hx. unfold _cache_ppages_range_collapse.
  destruct (collapse_loop (t.2 + 1) t below) as [t' below'] eqn:Hc.
  destruct (collapse_loop_spec n _ _ _ _ _ Hb Ht eq_refl Hc) as (H1 & H2 & H3 & H4).
  apply pp_set_ranges_wf; try done.
  - apply ranges_from_app. split; [done|]. cbn [ranges_from]. split; [lia|]. split; [lia|done].
  - intros x. rewrite in_ranges_app, in_ranges_cons, H4. apply Hx.
  - destruct (one_full_range _ _) eqn:Ho; [|by left]. right. split; [done|].
    eapply one_full_range_spec; [apply Hwf|done].
Qed.

Lemma merge_below_wf n pp above below lo hi :
  pp_wf n pp → range_stack pp = above ++ below → 0 ≤ lo ≤ hi → hi < n →
  ranges_end 0 above ≤ lo → match below with [] => True | r :: _ => lo ≤ r.1 end →
  let pp' := (merge_below pp above below lo hi).1 in
  pp_wf n pp' ∧ ∀ x, pp_has pp' x ↔ pp_has pp x ∨ lo ≤ x ≤ hi.
Proof.
  intros Hwf Hl Hlo Hhi Hea Hb. pose proof (pp_wf_ranges n pp Hwf) as Hr. rewrite Hl in Hr.
  apply ranges_from_app in Hr as [Ha Hr]. unfold merge_below. destruct below as [|r below'].
  - apply pp_set_ranges_wf; [done| |lia|lia| |by left].
    + apply ranges_from_app. split; [done|]. simpl. lia.
    + intros x. rewrite Hl, app_nil_r, in_ranges_app, in_ranges_cons, in_ranges_nil. simpl. tauto.
  - cbn [ranges_from] in Hr. destruct Hr as (Hr1 & Hr2 & Hr3). case_decide as Hov; [case_decide as Hin|].
    + cbn [fst]. apply (collapse_wf n pp above below' (lo, hi) (range_stack pp)); try done; try (simpl; lia).
      * eapply ranges_from_weaken; [|done]. simpl. lia.
      * intros x. rewrite Hl, in_ranges_app, in_ranges_cons. simpl. intuition lia.
    + apply pp_set_ranges_wf; [done| |lia|lia| |by left].
      * apply ranges_from_app. split; [done|]. simpl. split_and!; try done; lia.
      * intros x. rewrite Hl, !in_ranges_app, !in_ranges_cons. simpl. split; [|intuition lia].
        intros [?|[?|?]]; auto. destruct (decide (x ≤ hi)); [right; lia|]. left; right; left; lia.
    + apply pp_set_ranges_wf; [done| |lia|lia| |by left].
      * apply ranges_from_app. split; [done|]. simpl. split_and!; try done; lia.
      * intros x. rewrite Hl, !in_ranges_app, !in_ranges_cons. simpl. tauto.
Qed.

Lemma merge_wf n pp lo hi :
  pp_wf n pp → 0 ≤ lo ≤ hi → hi < n →
  let pp' := (_cache_ppages_range_merge n pp lo hi).1 in
  pp_wf n pp' ∧ ∀ x, pp_has pp' x ↔ pp_has pp x ∨ lo ≤ x ≤ hi.
Proof.
  intros Hwf Hlo Hhi. pose proof (pp_wf_ranges n pp Hwf) as Hr. unfold _cache_ppages_range_merge.
  destruct (range_stack pp) as [|r0 l0] eqn:Hl.
  { pose proof Hwf as [He _ Hf]. case_decide as Hfull.
    - destruct Hfull as [-> ->]. split; [split; [done|simpl; done|]|].
      + right. split; [done|]. intros x Hx. left. simpl. lia.
      + intros x. unfold pp_has. simpl. rewrite Hl, He. destruct Hf as [->|[-> _]]; rewrite !in_ranges_nil; intuition lia.
    - apply pp_set_ranges_wf; [done|simpl; lia|lia|lia| |by left].
      intros x. rewrite Hl, in_ranges_cons, !in_ranges_nil. simpl. tauto. }
  rewrite <- Hl in Hr |- *. clear r0 l0 Hl.
  destruct (insertion_point_spec n lo (range_stack pp) [] _ Hr ltac:(by intros ? ?%not_elem_of_nil) eq_refl) as (Hsplit & Hlt & Hge).
  destruct (insertion_point lo [] (range_stack pp)) as [above below]. cbn [fst snd] in *. simpl in Hsplit.
  destruct above as [|prng above].
  { apply merge_below_wf; try done. unfold ranges_end. simpl. lia. }
  rewrite reverse_cons in Hsplit |- *. rewrite Hsplit, <- app_assoc in Hr. apply ranges_from_app in Hr as [Ha Hr].
  cbn [app ranges_from] in Hr. destruct Hr as (Hp1 & Hp2 & Hb). pose proof (ranges_end_ge _ _ _ Ha) as Hea.
  specialize (Hlt prng ltac:(by left)). case_decide as Hov; [case_decide as Hext; [destruct below as [|r below]|]|].
  - cbn [fst]. apply pp_set_ranges_wf; [done| |lia|lia| |].
    + apply ranges_from_app. split; [done|]. simpl. lia.
    + intros x. rewrite Hsplit, app_nil_r, !in_ranges_app, !in_ranges_cons, !in_ranges_nil. simpl. intuition lia.
    + destruct (one_full_range _ _) eqn:Ho; [right|by left]. split; [done|]. eapply one_full_range_spec; [apply Hwf|done].
  - cbn [fst]. apply (collapse_wf n pp _ _ _ (range_stack pp)); try done; try (simpl; lia).
    + eapply ranges_from_weaken; [|exact Hb]. simpl. lia.
    + intros x. rewrite Hsplit, !in_ranges_app, (in_ranges_cons prng), in_ranges_nil. simpl. intuition lia.
  - cbn [fst]. split; [done|]. intros x. split; [by left|]. intros [?|Hx]; [done|]. right.
    rewrite Hsplit, !in_ranges_app, in_ranges_cons. left; right; left. lia.
  - apply merge_below_wf; try done. unfold ranges_end. rewrite last_snoc. simpl. lia.
Qed.

Lemma collapse_frame pp above t below :
  page_start (_cache_ppages_range_collapse pp above t below) = page_start pp ∧
  pp_data (_cache_ppages_range_collapse pp above t below) = pp_data pp.
Proof. unfold _cache_ppages_range_collapse. by destruct (collapse_loop _ _ _). Qed.

Lemma merge_frame n pp lo hi :
  let res := _cache_ppages_range_merge n pp lo hi in
  page_start res.1 = page_start pp ∧ pp_data res.1 = pp_data pp ∧
  (pp_flags pp = 0 → res.2 = 1 → pp_flags res.1 = 1).
Proof.
  unfold _cache_ppages_range_merge, merge_below.
  repeat first [case_decide | case_match]; simpl; try (by split_and!); split_and!; try done; apply collapse_frame.
Qed.

(** C34: Merging a request into the ranges of a partial page keeps the ranges
    inside the page, in order and apart, and the page holds exactly what it
    held and the request.  The page is flagged as full only when it is, and so
    it is when the result is 1. *)
Theorem cache_ppages_range_merge_correct n pp lo hi :
  pp_wf n pp → 0 ≤ lo ≤ hi → hi < n →
  let '(pp', full) := _cache_ppages_range_merge n pp lo hi in
  pp_wf n pp' ∧ (∀ x, pp_has pp' x ↔ pp_has pp x ∨ lo ≤ x ≤ hi) ∧
  page_start pp' = page_start pp ∧ pp_data pp' = pp_data pp ∧ (pp_flags pp = 0 → full = 1 → pp_flags pp' = 1).
Proof.
  intros Hwf Hlo Hhi. pose proof (merge_wf n pp lo hi Hwf Hlo Hhi) as Hm. pose proof (merge_frame n pp lo hi) as (H1 & H2 & H3).
  destruct (_cache_ppages_range_merge n pp lo hi) as [pp' full]. simpl in *. destruct Hm as [Hm1 Hm2]. by split_and!.
Qed.
