(* ===== verification/CachePPage.v ===== *)
(** * Partial pages (segment_cache.c)

    The staging area in front of the page cache: the ends of a request that do
    not fill a page are collected in partial pages, and written to the cache
    below when a page is full, is in the way of a read, or no page is free.

    The functions hold the cache lock except while a flush writes to the cache
    below, and then [ppages_flushing] keeps others out, so each is one step on
    the state. *)
From S2P Require Import Prelude Seg CacheRange.
#[local] Open Scope Z_scope.

Inductive rw_mode := CACHE_READ | CACHE_WRITE.
#[export] Instance rw_mode_eq_dec : EqDecision rw_mode.
Proof. solve_decision. Defined.

(** What [cache_segment_t] keeps for partial pages, above the segment as it is
    without them.  [partial_pages] is in the order of the skip list, and
    [ppages_unused] has the buffers of the free pages, the last one freed
    first. *)
Record ppages (S : Type) := Ppages {
  pg_below : S;
  partial_pages : list cache_partial_page;
  ppages_unused : list tbuffer;
  n_ppages : nat;
  ppage_max : Z }.
Arguments Ppages {S}. Arguments pg_below {S}. Arguments partial_pages {S}. Arguments ppages_unused {S}.
Arguments n_ppages {S}. Arguments ppage_max {S}.

Section ppages.
Context {S : Type} `{!Segment S}.
Context (page_size : Z).
Implicit Types (st : ppages S) (pp : cache_partial_page) (buf : tbuffer).

(** ** Flushing *)

(** One entry of the vector write: where it goes, and where its bytes are. *)
Record flush_iov := Flush_iov { fi_ex : ex_iovec; fi_data : tbuffer; fi_off : Z }.

Definition pp_iov pp : list flush_iov :=
  if decide (pp_flags pp = 1) then [Flush_iov (Ex_iovec (page_start pp) page_size) (pp_data pp) 0]
  else (λ rng : range, Flush_iov (Ex_iovec (page_start pp + rng.1) (rng.2 - rng.1 + 1)) (pp_data pp) rng.1) <$> range_stack pp.

(** [tbuffer_vec]: the entries one after the other. *)
Fixpoint flush_buf (l : list flush_iov) : tbuffer := λ p,
  match l with
  | [] => 0
  | f :: l => if decide (p < iov_len (fi_ex f)) then fi_data f (fi_off f + p) else flush_buf l (p - iov_len (fi_ex f))
  end.

(** The pages of the list [starts] and the others. *)
Definition pp_of pps (start : Z) : option cache_partial_page := List.find (λ pp, bool_decide (page_start pp = start)) pps.
Definition pps_without pps (starts : list Z) : list cache_partial_page := filter (λ pp, page_start pp ∉ starts) pps.

(** The largest offset that is left in a partial page. *)
Definition last_offset (pps : list cache_partial_page) : Z :=
  match last pps with
  | None => -1
  | Some pp => match last (range_stack pp) with None => page_start pp | Some rng => page_start pp + rng.2 end
  end.

(** The pages are freed and taken out of the list before the write. *)
Definition _cache_ppages_flush_list st (starts : list Z) : option (Z * ppages S) :=
  if decide (starts = []) then Some (0, st) else
    pps ← mapM (pp_of (partial_pages st)) starts;
    let iov := mjoin (pp_iov <$> pps) in
    let rest := pps_without (partial_pages st) starts in
    let '(below, status) := segment_write (pg_below st) (fi_ex <$> iov) (flush_buf iov) 0 in
    Some (if decide (op_st status = OP_STATE_SUCCESS) then 0 else 1,
      Ppages below rest (reverse (pp_data <$> pps) ++ ppages_unused st) (n_ppages st) (last_offset rest)).

Definition _cache_ppages_flush st : option (Z * ppages S) :=
  if decide (length (ppages_unused st) = n_ppages st) then Some (0, st)
  else _cache_ppages_flush_list st (page_start <$> partial_pages st).

(** ** A request and the pages that are there

    The request [lo, hi], whose data are at [bpos]; [lo_page] and [hi_page]
    are its first and last page. *)
Record request := Request { rq_lo : Z; rq_hi : Z; rq_bpos : Z }.
Definition lo_page (r : request) : Z := rq_lo r / page_size * page_size.
Definition hi_page (r : request) : Z := rq_hi r / page_size * page_size.
Definition n_pages (r : request) : Z := rq_hi r / page_size - rq_lo r / page_size + 1.

(** The variables of [cache_ppages_handle]: the pages handled, which ends are
    mapped, what is left of the request, the pages to flush, the largest offset
    of all partial pages, and the caller's buffer. *)
Record handled := Handled {
  h_nhandled : Z;
  h_lo_mapped : bool;
  h_hi_mapped : bool;
  h_new : request;
  h_flush : list Z;
  h_max : Z;
  h_buf : tbuffer }.

Definition h_set_flush (h : handled) start : handled :=
  Handled (h_nhandled h) (h_lo_mapped h) (h_hi_mapped h) (h_new h) (h_flush h ++ [start]) (h_max h) (h_buf h).
Definition h_map (h : handled) (lo hi : bool) (r : request) pend buf : handled :=
  Handled (h_nhandled h + 1) (h_lo_mapped h || lo) (h_hi_mapped h || hi) r (h_flush h)
    (if decide (pend > h_max h) then pend else h_max h) buf.
(** After a read nothing is longer than it was. *)
Definition h_keep (h : handled) : Z := h_max h.

Definition rq_set_lo (r : request) (n lo bpos : Z) : request := Request (lo + n) (rq_hi r) (bpos + n).
Definition rq_set_hi (r : request) hi : request := Request (rq_lo r) hi (rq_bpos r).

(** [tbuffer_copy] into a page and out of it. *)
Definition pp_fill pp poff nbytes buf boff : cache_partial_page := pp_set_data pp (buf_put (pp_data pp) poff nbytes buf boff).
Definition pp_copy pp poff nbytes buf boff : tbuffer := buf_put buf boff nbytes (pp_data pp) poff.

(** A write of the offsets [poff] to [pend] of a page. *)
Definition pp_write pp poff pend buf boff : cache_partial_page :=
  (_cache_ppages_range_merge page_size (pp_fill pp poff (pend - poff + 1) buf boff) poff pend).1.

(** The three cases for a page in the range of the request. *)
Definition handle_interior (m : rw_mode) (r : request) pp (h : handled) : option (cache_partial_page * handled) :=
  match m with
  | CACHE_WRITE =>
      let pp' := pp_set_ranges (pp_fill pp 0 page_size (h_buf h) (rq_bpos r + page_start pp - rq_lo r)) (range_stack pp) 1 in
      Some (pp', h_map h false false (h_new h) (h_keep h) (h_buf h))
  | CACHE_READ => Some (pp, h_set_flush h (page_start pp))
  end.

Definition handle_hi (m : rw_mode) (r : request) pp (h : handled) : option (cache_partial_page * handled) :=
  let boff := rq_bpos r + page_start pp - rq_lo r in
  let nbytes := rq_hi r - page_start pp + 1 in
  let new := rq_set_hi (h_new h) (page_start pp - 1) in
  match m with
  | CACHE_WRITE =>
      Some (pp_write pp 0 (nbytes - 1) (h_buf h) boff, h_map h false true new (page_start pp + nbytes - 1) (h_buf h))
  | CACHE_READ =>
      rng ← head (range_stack pp);
      if decide (rng.1 = 0 ∧ rng.2 >= rq_hi r - page_start pp)
      then Some (pp, h_map h false true new (h_keep h) (pp_copy pp 0 nbytes (h_buf h) boff))
      else Some (pp, h_set_flush h (page_start pp))
  end.

(** The first range with the offset [plo]. *)
Definition range_at (plo : Z) (l : list range) : option range := List.find (λ rng, bool_decide (rng.1 ≤ plo ≤ rng.2)) l.

Definition handle_lo (m : rw_mode) (r : request) pp (h : handled) : option (cache_partial_page * handled) :=
  let plo := rq_lo r - page_start pp in
  let map_lo n := rq_set_lo (h_new h) n (rq_lo r) (rq_bpos r) in
  match m with
  | CACHE_WRITE =>
      let pend := if decide (rq_hi r > page_end pp) then page_size - 1 else rq_hi r - page_start pp in
      Some (pp_write pp plo pend (h_buf h) (rq_bpos r),
        h_map h true (bool_decide (¬ rq_hi r > page_end pp)) (map_lo (pend - plo + 1)) (page_start pp + pend) (h_buf h))
  | CACHE_READ =>
      if decide (lo_page r = hi_page r) then
        let phi := rq_hi r - page_start pp in
        match range_at plo (range_stack pp) with
        | Some rng =>
            if decide (rng.2 >= phi)
            then Some (pp, h_map h true true (map_lo (phi - plo + 1)) (h_keep h) (pp_copy pp plo (phi - plo + 1) (h_buf h) (rq_bpos r)))
            else Some (pp, h_set_flush h (page_start pp))
        | None => Some (pp, h_set_flush h (page_start pp))
        end
      else
        rng ← last (range_stack pp);
        if decide (rng.1 ≤ plo ∧ rng.2 = page_size - 1)
        then Some (pp, h_map h true false (map_lo (page_size - plo)) (h_keep h) (pp_copy pp plo (page_size - plo) (h_buf h) (rq_bpos r)))
        else Some (pp, h_set_flush h (page_start pp))
  end.

(** The body of the loop; a page that is full now is flushed. *)
Definition handle_page (m : rw_mode) (r : request) pp (h : handled) : option (cache_partial_page * handled) :=
  '(pp, h) ← (if decide (n_pages r > 2 ∧ lo_page r < page_start pp < hi_page r) then handle_interior m r pp h else Some (pp, h));
  '(pp, h) ← (if decide (hi_page r = page_start pp ∧ lo_page r ≠ hi_page r) then handle_hi m r pp h else Some (pp, h));
  '(pp, h) ← (if decide (lo_page r = page_start pp) then handle_lo m r pp h else Some (pp, h));
  Some (pp, if decide (pp_flags pp = 1) then h_set_flush h (page_start pp) else h).

(** The loop over the partial pages from [lo_page] on. *)
Fixpoint handle_loop (m : rw_mode) (r : request) pps (h : handled) : option (list cache_partial_page * handled) :=
  match pps with
  | [] => Some ([], h)
  | pp :: pps' =>
      if decide (page_start pp < lo_page r) then
        '(pps', h) ← handle_loop m r pps' h; Some (pp :: pps', h)
      else if decide (page_start pp > rq_hi r) then Some (pps, h)
      else
        '(pp, h) ← handle_page m r pp h;
        '(pps', h) ← handle_loop m r pps' h;
        Some (pp :: pps', h)
  end.

(** ** Taking free pages for the ends *)
Fixpoint pp_insert pp pps : list cache_partial_page :=
  match pps with
  | [] => [pp]
  | q :: pps' => if decide (page_start pp ≤ page_start q) then pp :: pps else q :: pp_insert pp pps'
  end.

Definition new_page (start : Z) (data : tbuffer) : cache_partial_page :=
  Cache_partial_page start (start + page_size - 1) [] data 0.

(** A free page for the page at [start]; [write] is one of the cases above. *)
Definition add_page (write : rw_mode → request → cache_partial_page → handled → option (cache_partial_page * handled))
    (r : request) (start : Z) pps (unused : list tbuffer) (h : handled)
    : option (list cache_partial_page * list tbuffer * handled) :=
  match unused with
  | [] => None
  | data :: unused =>
      '(pp, h) ← write CACHE_WRITE r (new_page start data) h;
      Some (pp_insert pp pps, unused, if decide (pp_flags pp = 1) then h_set_flush h start else h)
  end.

(** ** A request

    The result is 1 when the request is done; what is left of it is in the
    second component.  The fuel is for the second try after a flush. *)
Fixpoint cache_ppages_handle (fuel : nat) st (m : rw_mode) (r : request) buf : option (Z * request * tbuffer * ppages S) :=
  match fuel with
  | O => None
  | Datatypes.S fuel =>
      if decide (n_ppages st = 0%nat) then Some (0, r, buf, st) else
      let h := Handled 0 false false r [] (ppage_max st) buf in
      '(pps, h) ← handle_loop m r (partial_pages st) h;
      let st := Ppages (pg_below st) pps (ppages_unused st) (n_ppages st) (h_max h) in
      '(_, st) ← _cache_ppages_flush_list st (h_flush h);
      if decide (h_nhandled h = n_pages r ∨ m = CACHE_READ)
      then Some (if decide (n_pages r = h_nhandled h) then 1 else 0, h_new h, h_buf h, st)
      else if decide (Z.of_nat (length (ppages_unused st)) < 2 - Z.b2z (h_lo_mapped h) - Z.b2z (h_hi_mapped h)) then
        '(err, st) ← _cache_ppages_flush st;
        if decide (err ≠ 0) then Some (err, r, buf, st)
        else cache_ppages_handle fuel st m (h_new h) buf
      else
        let h := Handled (h_nhandled h) (h_lo_mapped h) (h_hi_mapped h) (h_new h) [] (ppage_max st) (h_buf h) in
        '(pps, unused, h) ← (if h_lo_mapped h then Some (partial_pages st, ppages_unused st, h)
                             else add_page handle_lo r (lo_page r) (partial_pages st) (ppages_unused st) h);
        '(pps, unused, h) ← (if h_hi_mapped h then Some (pps, unused, h)
                             else add_page handle_hi r (hi_page r) pps unused h);
        '(_, st) ← _cache_ppages_flush_list (Ppages (pg_below st) pps unused (n_ppages st) (h_max h)) (h_flush h);
        Some (if decide (n_pages r = h_nhandled h) then 1 else 0, h_new h, h_buf h, st)
  end.

(** ** The requests of the driver

    [cache_rw_func] for a request of one extent: the partial pages first, then
    what they leave to the segment below. *)
Context `{!Gop}.

Definition segcache_size st : Z :=
  if decide (segment_size (pg_below st) > ppage_max st + 1) then segment_size (pg_below st) else ppage_max st + 1.

Definition pg_set_below st below : ppages S :=
  Ppages below (partial_pages st) (ppages_unused st) (n_ppages st) (ppage_max st).

Definition cache_rw_extent st (m : rw_mode) (v : ex_iovec) buf (boff : Z) : option (tbuffer * ppages S * op_status) :=
  '(j, r, buf, st) ← cache_ppages_handle 2 st m (Request (iov_offset v) (iov_offset v + iov_len v - 1) boff) buf;
  let rerr := if decide (j < 0) then -1 else if decide (iov_len v ≤ 0) then 1 else 0 in
  if decide (j ≠ 0) then Some (buf, st, if decide (rerr = 0) then op_success_status else op_failure_status)
  else
    let new_size := if decide (0 < rq_hi r) then rq_hi r + 1 else 0 in
    if decide ((new_size > segcache_size st ∧ m = CACHE_READ) ∨ rerr ≠ 0) then Some (buf, st, op_failure_status)
    else
      let iov := [Ex_iovec (rq_lo r) (rq_hi r - rq_lo r + 1)] in
      match m with
      | CACHE_READ =>
          let '(below, buf, status) := segment_read (pg_below st) iov buf (rq_bpos r) in
          Some (buf, pg_set_below st below, status)
      | CACHE_WRITE =>
          let '(below, status) := segment_write (pg_below st) iov buf (rq_bpos r) in
          Some (buf, pg_set_below st below, status)
      end.
End ppages.
