(* ===== verification/CachePPageOk.v ===== *)
(** * Partial pages: correctness

    A cached segment with partial pages acts as the segment below with the
    partial pages laid over it. *)
From S2P Require Import Prelude Seg CacheRange CachePPage.
#[local] Open Scope Z_scope.

(** ** Pages in order *)
Section pages.
Context (n : Z) (Hn : 0 < n).
Implicit Types (pp : cache_partial_page) (pps : list cache_partial_page).

(** Page-aligned pages from [b] on, in order. *)
Fixpoint pages_from (b : Z) pps : Prop :=
  match pps with
  | [] => True
  | pp :: pps => b ≤ page_start pp ∧ (n | page_start pp) ∧ pp_wf n pp ∧ pages_from (page_start pp + n) pps
  end.

Abbreviation holds pp i := (pp_has pp (i - page_start pp)).

(** What the pages and a segment below hold. *)
Fixpoint pp_byte (f : Z → Z) pps (i : Z) : Z :=
  match pps with
  | [] => f i
  | pp :: pps => if decide (holds pp i) then pp_data pp (i - page_start pp) else pp_byte f pps i
  end.

Lemma holds_inside pp i : pp_wf n pp → holds pp i → page_start pp ≤ i < page_start pp + n.
Proof.
  intros [He Hr _] [[_ ?]|Hx]; [lia|]. pose proof (ranges_bound _ _ _ _ Hr Hx). lia.
Qed.

Lemma pages_from_weaken b b' pps : b' ≤ b → pages_from b pps → pages_from b' pps.
Proof. destruct pps as [|pp pps]; simpl; [done|]. intuition lia. Qed.

Lemma pages_from_in b pps pp :
  pages_from b pps → pp ∈ pps → b ≤ page_start pp ∧ (n | page_start pp) ∧ pp_wf n pp.
Proof.
  revert b. induction pps as [|q pps IH]; intros b Hp Hin; [by apply not_elem_of_nil in Hin|].
  destruct Hp as (H1 & H2 & H3 & H4). apply elem_of_cons in Hin as [->|Hin]; [done|].
  destruct (IH _ H4 Hin) as (? & ? & ?). split_and!; try done. lia.
Qed.

Lemma pages_from_starts b pps : pages_from b pps → NoDup (page_start <$> pps).
Proof.
  revert b. induction pps as [|q pps IH]; intros b Hp; [constructor|]. destruct Hp as (H1 & H2 & H3 & H4).
  constructor; [|by eapply IH]. intros (pp & Heq & Hin)%list_elem_of_fmap.
  pose proof (pages_from_in _ _ _ H4 Hin). lia.
Qed.

(** A page in the list is known by its start. *)
Lemma pages_unique b pps pp pp' :
  pages_from b pps → pp ∈ pps → pp' ∈ pps → page_start pp = page_start pp' → pp = pp'.
Proof.
  revert b. induction pps as [|q pps IH]; intros b Hp Hin Hin' Heq; [by apply not_elem_of_nil in Hin|].
  destruct Hp as (H1 & H2 & H3 & H4). apply elem_of_cons in Hin as [->|Hin], Hin' as [->|Hin']; [done| | |by eapply IH].
  - pose proof (pages_from_in _ _ _ H4 Hin'). lia.
  - pose proof (pages_from_in _ _ _ H4 Hin). lia.
Qed.

(** An offset lies in one page. *)
Lemma holds_start b pps pp i :
  pages_from b pps → pp ∈ pps → holds pp i → page_start pp = i / n * n.
Proof.
  intros Hp Hin Hh. destruct (pages_from_in _ _ _ Hp Hin) as (_ & [k Hk] & Hwf).
  pose proof (holds_inside _ _ Hwf Hh). rewrite Hk in *. f_equal. apply (Z.div_unique_pos _ _ _ (i - k * n)); lia.
Qed.

Lemma holds_unique b pps pp pp' i :
  pages_from b pps → pp ∈ pps → pp' ∈ pps → holds pp i → holds pp' i → pp = pp'.
Proof.
  intros Hp Hin Hin' Hh Hh'. eapply pages_unique; try done.
  by rewrite (holds_start b pps pp i), (holds_start b pps pp' i).
Qed.

Lemma pp_byte_out f pps i : (∀ pp, pp ∈ pps → ¬ holds pp i) → pp_byte f pps i = f i.
Proof.
  induction pps as [|pp pps IH]; intros Hno; simpl; [done|]. rewrite decide_False by (apply Hno; by left).
  apply IH. intros q Hq. apply Hno. by right.
Qed.

Lemma pp_byte_in b pps f sel pp i :
  pages_from b pps → (∀ q, q ∈ sel → q ∈ pps) → pp ∈ sel → holds pp i → pp_byte f sel i = pp_data pp (i - page_start pp).
Proof.
  intros Hp Hsel Hin Hh. pose proof (Hsel _ Hin) as Hpp. revert Hsel Hin.
  induction sel as [|q sel IH]; intros Hsel Hin; [by apply not_elem_of_nil in Hin|]. cbn [pp_byte]. case_decide as Hq.
  - by rewrite (holds_unique b pps q pp i) by (done || (apply Hsel; by left)).
  - apply elem_of_cons in Hin as [->|Hin]; [done|]. apply IH; [|done]. intros x Hx. apply Hsel. by right.
Qed.

(** Some page holds the offset, or none does. *)
Lemma holds_dec pps i : (∃ pp, pp ∈ pps ∧ holds pp i) ∨ ∀ pp, pp ∈ pps → ¬ holds pp i.
Proof.
  destruct (decide (Exists (λ pp, holds pp i) pps)) as [He|He]; [left|right].
  - apply Exists_exists in He as (pp & ? & ?). eauto.
  - intros pp Hin Hh. apply He, Exists_exists. eauto.
Qed.

Lemma pp_byte_ext f g pps i : f i = g i → pp_byte f pps i = pp_byte g pps i.
Proof. intros Hf. induction pps as [|pp pps IH]; simpl; [done|]. by rewrite IH. Qed.

(** ** The bytes of a flush *)
Definition piece_overlay (f : Z → Z) (p : flush_iov) : Z → Z :=
  buf_put f (iov_offset (fi_ex p)) (iov_len (fi_ex p)) (fi_data p) (fi_off p).

Lemma flush_buf_overlay l : ∀ f i,
  iov_ok (fi_ex <$> l) → iov_overlay f (fi_ex <$> l) (flush_buf l) 0 i = foldl piece_overlay f l i.
Proof.
  induction l as [|p l IH]; intros f i Hok; [done|]. rewrite fmap_cons in Hok |- *.
  apply Forall_cons in Hok as [[Ho Hl] Hok]. cbn [iov_overlay foldl]. rewrite <- IH by done.
  apply iov_overlay_ext; [done| |].
  - intros j. unfold piece_overlay, buf_put. case_decide as Hj; [|done]. simpl. by rewrite decide_True by lia.
  - intros j Hj. rewrite Z.add_0_l. simpl. rewrite decide_False by lia. simpl. f_equal. lia.
Qed.

Lemma pp_iov_overlay pp f i :
  pp_wf n pp → foldl piece_overlay f (pp_iov n pp) i = if decide (holds pp i) then pp_data pp (i - page_start pp) else f i.
Proof.
  intros [He Hr Hf]. unfold pp_iov, pp_has. destruct (decide (pp_flags pp = 1)) as [H1|H1].
  - simpl. unfold piece_overlay, buf_put. simpl. destruct Hf as [?|[_ Hall]]; [lia|].
    destruct (decide (page_start pp ≤ i < page_start pp + n)), (decide (_ ∨ _)) as [Hd|Hd]; try done.
    + destruct Hd. left. lia.
    + destruct Hd as [?|Hx]; [lia|]. pose proof (ranges_bound _ _ _ _ Hr Hx). lia.
  - assert (∀ l g, g i = f i ∨ g i = pp_data pp (i - page_start pp) ∧ in_ranges (range_stack pp) (i - page_start pp) →
      (∀ r, r ∈ l → r ∈ range_stack pp) →
      let v := foldl piece_overlay g ((λ rng : range, Flush_iov (Ex_iovec (page_start pp + rng.1) (rng.2 - rng.1 + 1)) (pp_data pp) rng.1) <$> l) i in
      v = (if decide (in_ranges l (i - page_start pp)) then pp_data pp (i - page_start pp) else g i)) as Hfold.
    { induction l as [|r l IH]; intros g Hg Hl; [done|]. rewrite fmap_cons. cbn [foldl]. cbv zeta in IH |- *.
      assert (in_ranges (range_stack pp) (i - page_start pp) ∨ ¬ (r.1 ≤ i - page_start pp ≤ r.2)) as Hor.
      { destruct (decide (r.1 ≤ i - page_start pp ≤ r.2)); [left|by right]. apply Exists_exists. exists r. split; [apply Hl; by left|done]. }
      rewrite IH.
      - unfold piece_overlay at 1, buf_put. cbn [fi_ex fi_data fi_off iov_offset iov_len].
        destruct (decide (in_ranges l _)) as [Hil|Hil], (decide (in_ranges (r :: l) _)) as [Hirl|Hirl];
          rewrite in_ranges_cons in Hirl; try done; [tauto| |].
        + destruct Hirl as [Hirl|?]; [|done]. rewrite decide_True by lia. f_equal. lia.
        + rewrite decide_False; [done|]. intros ?. apply Hirl. left. lia.
      - unfold piece_overlay, buf_put. cbn [fi_ex fi_data fi_off iov_offset iov_len].
        destruct (decide (page_start pp + r.1 ≤ i < page_start pp + r.1 + (r.2 - r.1 + 1))); [right|exact Hg]. split; [f_equal; lia|]. destruct Hor; [done|lia].
      - intros q Hq. apply Hl. by right. }
    cbv zeta in Hfold. rewrite Hfold by auto.
    destruct (decide (in_ranges _ _)), (decide (_ ∨ _)) as [Hd|Hd]; try done; [tauto|]. exfalso. destruct Hd as [[? _]|?]; done.
Qed.

Lemma flush_overlay b pps sel f i :
  pages_from b pps → (∀ pp, pp ∈ sel → pp ∈ pps) →
  foldl piece_overlay f (mjoin (pp_iov n <$> sel)) i = pp_byte f sel i.
Proof.
  intros Hp. revert f. induction sel as [|pp sel IH]; intros f Hsel; [done|].
  assert (∀ q, q ∈ sel → q ∈ pps) as Hsel' by (intros; apply Hsel; by right).
  assert (pp ∈ pps) as Hpp by (apply Hsel; by left). destruct (pages_from_in _ _ _ Hp Hpp) as (_ & _ & Hwf).
  change (mjoin (pp_iov n <$> pp :: sel)) with (pp_iov n pp ++ mjoin (pp_iov n <$> sel)).
  rewrite foldl_app, IH by done. cbn [pp_byte].
  destruct (holds_dec sel i) as [(q & Hq & Hh)|Hno].
  - rewrite (pp_byte_in b pps _ sel q i Hp Hsel' Hq Hh). destruct (decide (holds pp i)) as [Hd|Hd].
    + by rewrite (holds_unique b pps q pp i Hp (Hsel' _ Hq) Hpp Hh Hd).
    + by rewrite (pp_byte_in b pps _ sel q i Hp Hsel' Hq Hh).
  - rewrite pp_byte_out by done. rewrite pp_iov_overlay by done. case_decide; [done|]. by rewrite pp_byte_out.
Qed.
End pages.

(** ** Flushing pages *)
Abbreviation holds pp i := (pp_has pp (i - page_start pp)).

Section flush.
Context {S : Type} `{!Segment S, !SegBytes S, !SegmentVecOk S}.
Context (n : Z) (Hn : 0 < n).
Implicit Types (st : ppages S) (pp : cache_partial_page) (pps : list cache_partial_page).

(** What the segment with its partial pages holds. *)
#[export] Instance pg_bytes : SegBytes (ppages S) := λ st, pp_byte (seg_byte (pg_below st)) (partial_pages st).

Lemma pages_from_filter (P : cache_partial_page → Prop) `{∀ pp, Decision (P pp)} b pps :
  pages_from n b pps → pages_from n b (filter P pps).
Proof.
  revert b. induction pps as [|pp pps IH]; intros b; [done|]. intros (H1 & H2 & H3 & H4). rewrite filter_cons. case_decide.
  - split_and!; try done. by apply IH.
  - eapply pages_from_weaken; [|by apply IH]. lia.
Qed.

Lemma pp_of_spec pps s : s ∈ page_start <$> pps → ∃ pp, pp_of pps s = Some pp ∧ pp ∈ pps ∧ page_start pp = s.
Proof.
  intros (pp & -> & Hin)%list_elem_of_fmap. unfold pp_of. destruct (List.find _ pps) as [q|] eqn:Hf.
  - apply List.find_some in Hf as [Hq Hs]. apply bool_decide_eq_true in Hs. exists q. split_and!; [done|by apply list_elem_of_In|done].
  - eapply List.find_none in Hf; [|by apply list_elem_of_In]. simpl in Hf. by rewrite bool_decide_eq_true_2 in Hf.
Qed.

(** The pages of a list of starts. *)
Lemma pp_of_list pps starts :
  (∀ s, s ∈ starts → s ∈ page_start <$> pps) →
  ∃ sel, mapM (pp_of pps) starts = Some sel ∧ page_start <$> sel = starts ∧ ∀ pp, pp ∈ sel → pp ∈ pps.
Proof.
  induction starts as [|s starts IH]; intros Hs.
  { exists []. split_and!; try done. by intros ? ?%not_elem_of_nil. }
  destruct (pp_of_spec pps s) as (pp & Hpp & Hin & Hst); [apply Hs; by left|].
  destruct IH as (sel & Hsel & Hss & Hall); [intros; apply Hs; by right|].
  exists (pp :: sel). split; [cbn; rewrite Hpp; cbn; by rewrite Hsel|]. split; [by rewrite fmap_cons, Hst, Hss|].
  intros q [->|?]%elem_of_cons; auto.
Qed.

Lemma pp_iov_ok b pp : 0 ≤ b → b ≤ page_start pp → pp_wf n pp → iov_ok (fi_ex <$> pp_iov n pp).
Proof.
  intros Hb Hs [He Hr _]. unfold pp_iov, iov_ok. case_decide.
  - repeat constructor; simpl; lia.
  - assert (∀ l lo, 0 ≤ lo → ranges_from n lo l →
      Forall (λ v, 0 ≤ iov_offset v ∧ 0 < iov_len v)
        (fi_ex <$> ((λ rng : range, Flush_iov (Ex_iovec (page_start pp + rng.1) (rng.2 - rng.1 + 1)) (pp_data pp) rng.1) <$> l))) as Hall.
    { induction l as [|r l IH]; intros lo Hlo Hl; [constructor|]. destruct Hl as (? & ? & ?). constructor; [simpl; lia|].
      eapply (IH (r.2 + 2)); [lia|done]. }
    by eapply Hall; [|exact Hr].
Qed.

Lemma flush_iov_ok pps sel :
  pages_from n 0 pps → (∀ pp, pp ∈ sel → pp ∈ pps) → iov_ok (fi_ex <$> mjoin (pp_iov n <$> sel)).
Proof.
  intros Hp. induction sel as [|pp sel IH]; intros Hsel; [constructor|].
  change (mjoin (pp_iov n <$> pp :: sel)) with (pp_iov n pp ++ mjoin (pp_iov n <$> sel)).
  rewrite fmap_app. apply Forall_app. split; [|apply IH; intros; apply Hsel; by right].
  destruct (pages_from_in _ Hn _ _ _ Hp (Hsel pp ltac:(by left))) as (? & _ & ?). by eapply (pp_iov_ok 0).
Qed.

(** A flush takes the pages away and leaves the contents as they are. *)
Lemma flush_list_ok st starts :
  vec_up (pg_below st) → pages_from n 0 (partial_pages st) → (∀ s, s ∈ starts → s ∈ page_start <$> partial_pages st) →
  ∃ st', _cache_ppages_flush_list n st starts = Some (0, st') ∧
    partial_pages st' = pps_without (partial_pages st) starts ∧ (∀ i, seg_byte st' i = seg_byte st i) ∧
    length (ppages_unused st') = (length starts + length (ppages_unused st))%nat ∧ n_ppages st' = n_ppages st ∧ vec_up (pg_below st').
Proof.
  intros Hup Hp Hs. unfold _cache_ppages_flush_list. case_decide as He.
  { subst. exists st. split_and!; try done. unfold pps_without. rewrite filter_all; [done|]. intros x _. apply not_elem_of_nil. }
  destruct (pp_of_list _ _ Hs) as (sel & -> & Hss & Hsel). cbn [mbind option_bind].
  set (iov := mjoin (pp_iov n <$> sel)). assert (iov_ok (fi_ex <$> iov)) as Hok by (by eapply flush_iov_ok).
  pose proof (vec_write_success (pg_below st) _ (flush_buf iov) 0 Hok Hup) as Hsucc. pose proof (vec_write_up (pg_below st) _ (flush_buf iov) 0 Hok Hup) as Hup'.
  assert (∀ i, seg_byte (segment_write (pg_below st) (fi_ex <$> iov) (flush_buf iov) 0).1 i = pp_byte (seg_byte (pg_below st)) sel i) as Hb.
  { intros i. rewrite vec_write_bytes, flush_buf_overlay by done. by apply (flush_overlay n Hn 0 (partial_pages st)). }
  destruct (segment_write _ _ _ _) as [below status]. cbn [fst snd] in *. rewrite decide_True by done.
  eexists. split; [done|]. split; [done|]. split; [|split; [|split; [done|exact Hup']]].
  - intros i. unfold seg_byte, pg_bytes. cbn [pg_below partial_pages].
    destruct (holds_dec (partial_pages st) i) as [(pp & Hin & Hh)|Hno].
    + rewrite (pp_byte_in n Hn 0 (partial_pages st) _ (partial_pages st) pp i) by done.
      destruct (decide (page_start pp ∈ starts)) as [Hst|Hst].
      * rewrite pp_byte_out; [rewrite Hb|].
        -- assert (∃ q, q ∈ sel ∧ page_start q = page_start pp) as (q & Hq & Heq).
           { rewrite <- Hss in Hst. apply list_elem_of_fmap in Hst as (q & ? & ?). eauto. }
           assert (q = pp) as -> by (eapply (pages_unique n Hn 0); eauto).
           by rewrite (pp_byte_in n Hn 0 (partial_pages st) _ sel pp i).
        -- intros q [Hq Hqp]%list_elem_of_filter Hhq. apply Hq. by rewrite (holds_unique n Hn 0 (partial_pages st) q pp i).
      * rewrite (pp_byte_in n Hn 0 (partial_pages st) _ _ pp i); [done|done| | |done].
        -- intros q [_ Hq]%list_elem_of_filter. done.
        -- by apply list_elem_of_filter.
    + rewrite !pp_byte_out; [rewrite Hb, pp_byte_out; [done|]|done|]; intros q Hq; apply Hno; auto.
      by apply list_elem_of_filter in Hq as [_ ?].
  - cbn. rewrite length_app, length_reverse, length_fmap. f_equal. by rewrite <- Hss, length_fmap.
Qed.
End flush.

(** ** Writing to the pages that are there *)
Section write.
Context (n : Z) (Hn : 0 < n) (r : request) (Hr : 0 ≤ rq_lo r ≤ rq_hi r).
Implicit Types (pp : cache_partial_page) (pps : list cache_partial_page) (h : handled).

Lemma lo_page_spec : (n | lo_page n r) ∧ lo_page n r ≤ rq_lo r < lo_page n r + n.
Proof.
  unfold lo_page. split; [by exists (rq_lo r / n)|].
  pose proof (Z.div_mod (rq_lo r) n ltac:(lia)). pose proof (Z.mod_pos_bound (rq_lo r) n Hn). lia.
Qed.
Lemma hi_page_spec : (n | hi_page n r) ∧ hi_page n r ≤ rq_hi r < hi_page n r + n.
Proof.
  unfold hi_page. split; [by exists (rq_hi r / n)|].
  pose proof (Z.div_mod (rq_hi r) n ltac:(lia)). pose proof (Z.mod_pos_bound (rq_hi r) n Hn). lia.
Qed.
Lemma n_pages_spec : n_pages n r * n = hi_page n r - lo_page n r + n.
Proof. unfold n_pages, hi_page, lo_page. lia. Qed.

(** Two pages are the same or a page apart. *)
Lemma page_apart a b : (n | a) → (n | b) → a < b → a + n ≤ b.
Proof. intros [x ->] [y ->] Hlt. assert (x < y) by nia. nia. Qed.

Lemma page_cases s :
  (n | s) → lo_page n r ≤ s ≤ rq_hi r →
  s = lo_page n r ∨ s ≠ lo_page n r ∧ s = hi_page n r ∨ (lo_page n r < s < hi_page n r) ∧ n_pages n r > 2.
Proof.
  intros Hs Hin. destruct lo_page_spec as [Hl ?], hi_page_spec as [Hh ?]. pose proof n_pages_spec.
  destruct (decide (s = lo_page n r)); [by left|]. right.
  destruct (decide (s = hi_page n r)); [by left|]. right.
  assert (lo_page n r + n ≤ s) by (apply page_apart; auto; lia).
  assert (s < hi_page n r) as Hlt.
  { destruct (decide (hi_page n r < s)); [|lia]. pose proof (page_apart _ _ Hh Hs ltac:(lia)). lia. }
  pose proof (page_apart _ _ Hs Hh Hlt). split; [lia|]. nia.
Qed.

(** A page after the request was copied into it. *)
Record page_written (buf : tbuffer) pp pp' : Prop := {
  pw_start : page_start pp' = page_start pp;
  pw_wf : pp_wf n pp';
  pw_has i : page_start pp ≤ i < page_start pp + n → holds pp' i ↔ holds pp i ∨ rq_lo r ≤ i ≤ rq_hi r;
  pw_data i : page_start pp ≤ i < page_start pp + n →
    pp_data pp' (i - page_start pp) = if decide (rq_lo r ≤ i ≤ rq_hi r) then buf (rq_bpos r + (i - rq_lo r)) else pp_data pp (i - page_start pp) }.

Lemma pp_wf_set_data pp d : pp_wf n pp → pp_wf n (pp_set_data pp d).
Proof. intros [? ? ?]. by split. Qed.

Lemma pp_write_written pp poff pend buf boff :
  pp_wf n pp → 0 ≤ poff ≤ pend → pend < n → boff = rq_bpos r + (page_start pp + poff - rq_lo r) →
  (∀ i, page_start pp ≤ i < page_start pp + n → rq_lo r ≤ i ≤ rq_hi r ↔ page_start pp + poff ≤ i ≤ page_start pp + pend) →
  page_written buf pp (pp_write n pp poff pend buf boff).
Proof.
  intros Hwf Hp Hpn -> Hreq. unfold pp_write. set (pp1 := pp_fill _ _ _ _ _).
  assert (pp_wf n pp1) as Hwf1 by (by apply pp_wf_set_data).
  destruct (merge_wf n pp1 poff pend Hwf1 Hp Hpn) as [Hwf' Hhas]. destruct (merge_frame n pp1 poff pend) as (Hst & Hd & _).
  cbv zeta in *. split; [done|done| |].
  - intros i Hi. rewrite Hst, Hhas, Hreq by done. change (page_start pp1) with (page_start pp).
    change (pp_has pp1 (i - page_start pp)) with (pp_has pp (i - page_start pp)). intuition lia.
  - intros i Hi. rewrite Hd. unfold pp1, pp_fill, buf_put. cbn [pp_data pp_set_data].
    specialize (Hreq i Hi). repeat case_decide; try done; try (f_equal; lia); exfalso; intuition lia.
Qed.

(** What handling the pages [starts] does to the variables. *)
Record h_ext (starts : list Z) h h' : Prop := {
  he_n : h_nhandled h' = h_nhandled h + Z.of_nat (length starts);
  he_lo : h_lo_mapped h' = h_lo_mapped h || bool_decide (lo_page n r ∈ starts);
  he_hi : h_hi_mapped h' = h_hi_mapped h || bool_decide (hi_page n r ∈ starts);
  he_new_lo : rq_lo (h_new h') = if decide (lo_page n r ∈ starts) then Z.min (rq_hi r) (lo_page n r + n - 1) + 1 else rq_lo (h_new h);
  he_new_hi : rq_hi (h_new h') = if decide (hi_page n r ∈ starts ∧ lo_page n r ≠ hi_page n r) then hi_page n r - 1 else rq_hi (h_new h);
  he_bpos : rq_bpos (h_new h') = if decide (lo_page n r ∈ starts) then rq_bpos r + (rq_lo (h_new h') - rq_lo r) else rq_bpos (h_new h) }.

Lemma h_ext_nil h h' : h_nhandled h' = h_nhandled h → h_lo_mapped h' = h_lo_mapped h → h_hi_mapped h' = h_hi_mapped h → h_new h' = h_new h → h_ext [] h h'.
Proof. intros H1 H2 H3 H4. split; simpl; rewrite ?H4; try done; [lia|by rewrite orb_false_r..]. Qed.

Lemma h_ext_app l1 l2 h h1 h2 : h_ext l1 h h1 → h_ext l2 h1 h2 → h_ext (l1 ++ l2) h h2.
Proof.
  intros [A1 A2 A3 A4 A5 A6] [B1 B2 B3 B4 B5 B6]. split.
  - rewrite B1, A1, length_app. lia.
  - rewrite B2, A2, <- orb_assoc. f_equal. rewrite <- bool_decide_or. apply bool_decide_ext. by rewrite elem_of_app.
  - rewrite B3, A3, <- orb_assoc. f_equal. rewrite <- bool_decide_or. apply bool_decide_ext. by rewrite elem_of_app.
  - rewrite B4. destruct (decide (lo_page n r ∈ l2)); [by rewrite decide_True by set_solver|]. rewrite A4.
    apply decide_ext. set_solver.
  - rewrite B5. destruct (decide (hi_page n r ∈ l2 ∧ _)); [by rewrite decide_True by set_solver|]. rewrite A5.
    apply decide_ext. set_solver.
  - rewrite B6. destruct (decide (lo_page n r ∈ l2)); [by rewrite decide_True by set_solver|]. rewrite A6, B4.
    rewrite ?(decide_False (P := lo_page n r ∈ l2)) by done. apply decide_ext. set_solver.
Qed.

Lemma handle_lo_write pp h :
  pp_wf n pp → page_start pp = lo_page n r →
  ∃ pp' h', handle_lo n CACHE_WRITE r pp h = Some (pp', h') ∧ page_written (h_buf h) pp pp' ∧ h_ext [lo_page n r] h h' ∧
    h_buf h' = h_buf h ∧ h_flush h' = h_flush h.
Proof.
  intros Hwf Hs. destruct lo_page_spec as [Hl Hlo], hi_page_spec as [Hh Hhi]. pose proof (pp_wf_end n pp Hwf) as He.
  unfold handle_lo. do 2 eexists. split; [done|]. split; [|split; [|done]].
  - apply pp_write_written; try done; try lia; try (case_decide; lia).
  - assert (rq_hi r > page_end pp ↔ hi_page n r ≠ lo_page n r) as Hiff.
    { rewrite He, Hs. split; [lia|]. intros Hne. assert (lo_page n r < hi_page n r) as Hlt.
      { destruct (decide (hi_page n r < lo_page n r)); [|lia]. pose proof (page_apart _ _ Hh Hl ltac:(lia)). lia. }
      pose proof (page_apart _ _ Hl Hh Hlt). lia. }
    split; cbn -[lo_page hi_page].
    + lia.
    + f_equal. symmetry. apply bool_decide_eq_true_2. set_solver.
    + f_equal. apply bool_decide_ext. rewrite list_elem_of_singleton. destruct (decide (hi_page n r = lo_page n r)); intuition.
    + rewrite (decide_True (P := lo_page n r ∈ _)) by set_solver. case_decide; lia.
    + rewrite decide_False; [done|]. rewrite list_elem_of_singleton. intuition congruence.
    + rewrite (decide_True (P := lo_page n r ∈ _)) by set_solver. case_decide; lia.
Qed.

Lemma handle_hi_write pp h :
  pp_wf n pp → page_start pp = hi_page n r → lo_page n r ≠ hi_page n r →
  ∃ pp' h', handle_hi n CACHE_WRITE r pp h = Some (pp', h') ∧ page_written (h_buf h) pp pp' ∧ h_ext [hi_page n r] h h' ∧
    h_buf h' = h_buf h ∧ h_flush h' = h_flush h.
Proof.
  intros Hwf Hs Hne. destruct lo_page_spec as [Hl Hlo], hi_page_spec as [Hh Hhi].
  assert (lo_page n r + n ≤ hi_page n r) as Hap.
  { apply page_apart; try done. destruct (decide (hi_page n r < lo_page n r)); [|lia]. pose proof (page_apart _ _ Hh Hl ltac:(lia)). lia. }
  unfold handle_hi. do 2 eexists. split; [done|]. split; [|split; [|done]].
  - apply pp_write_written; try done; try lia.
  - split; cbn -[lo_page hi_page].
    + lia.
    + rewrite bool_decide_eq_false_2 by set_solver. done.
    + f_equal. symmetry. apply bool_decide_eq_true_2. set_solver.
    + rewrite decide_False by set_solver. done.
    + rewrite decide_True by set_solver. lia.
    + rewrite decide_False by set_solver. done.
Qed.

Lemma handle_interior_write pp h :
  pp_wf n pp → (n | page_start pp) → lo_page n r < page_start pp < hi_page n r →
  ∃ pp' h', handle_interior n CACHE_WRITE r pp h = Some (pp', h') ∧ page_written (h_buf h) pp pp' ∧ h_ext [page_start pp] h h' ∧
    h_buf h' = h_buf h ∧ h_flush h' = h_flush h ∧ pp_flags pp' = 1.
Proof.
  intros Hwf Hs Hin. destruct lo_page_spec as [Hl Hlo], hi_page_spec as [Hh Hhi].
  pose proof (page_apart _ _ Hl Hs ltac:(lia)). pose proof (page_apart _ _ Hs Hh ltac:(lia)).
  pose proof (pp_wf_end n pp Hwf) as He. unfold handle_interior. do 2 eexists. split; [done|]. split; [|split; [|done]].
  - split; [done| | |].
    + split; [done|by apply (pp_wf_ranges n pp)|]. right. split; [done|]. intros x Hx. left. simpl. lia.
    + intros i Hi. cbn [page_start pp_set_ranges pp_fill pp_set_data]. split; [right; lia|]. intros _. left. simpl. lia.
    + intros i Hi. unfold pp_fill, buf_put. cbn [pp_data pp_set_data pp_set_ranges].
      rewrite !decide_True by lia. f_equal. lia.
  - split; cbn -[lo_page hi_page].
    + lia.
    + by rewrite bool_decide_eq_false_2 by (rewrite list_elem_of_singleton; lia).
    + by rewrite bool_decide_eq_false_2 by (rewrite list_elem_of_singleton; lia).
    + by rewrite decide_False by (rewrite list_elem_of_singleton; lia).
    + by rewrite decide_False by (rewrite list_elem_of_singleton; lia).
    + by rewrite decide_False by (rewrite list_elem_of_singleton; lia).
Qed.

Lemma handle_page_write pp h :
  pp_wf n pp → (n | page_start pp) → pp_flags pp = 0 → lo_page n r ≤ page_start pp ≤ rq_hi r →
  ∃ pp' h', handle_page n CACHE_WRITE r pp h = Some (pp', h') ∧ page_written (h_buf h) pp pp' ∧ h_ext [page_start pp] h h' ∧
    h_buf h' = h_buf h ∧ h_flush h' = h_flush h ++ (if decide (pp_flags pp' = 1) then [page_start pp] else []) ∧
    (lo_page n r < page_start pp < hi_page n r → pp_flags pp' = 1).
Proof.
  intros Hwf Hs Hf Hin. destruct lo_page_spec as [Hl Hlo], hi_page_spec as [Hh Hhi]. unfold handle_page.
  assert (∀ pp' h', page_written (h_buf h) pp pp' → h_ext [page_start pp] h h' → h_buf h' = h_buf h → h_flush h' = h_flush h →
    let h2 := if decide (pp_flags pp' = 1) then h_set_flush h' (page_start pp') else h' in
    h_ext [page_start pp] h h2 ∧ h_buf h2 = h_buf h ∧
    h_flush h2 = h_flush h ++ (if decide (pp_flags pp' = 1) then [page_start pp] else [])) as Hlast.
  { intros pp' h' Hpw He Hb Hfl h2. unfold h2. rewrite (pw_start _ _ _ Hpw). case_decide; simpl; rewrite Hfl.
    - split; [by destruct He|done].
    - by rewrite app_nil_r. }
  destruct (page_cases (page_start pp) Hs Hin) as [Heq|[[Hne Heq]|[Hint Hnp]]].
  - rewrite decide_False by lia. cbn [mbind option_bind]. rewrite decide_False by lia. cbn [mbind option_bind].
    rewrite decide_True by lia. destruct (handle_lo_write pp h Hwf Heq) as (pp' & h' & -> & Hpw & He & Hb & Hfl).
    cbn [mbind option_bind]. rewrite <- Heq in He. destruct (Hlast pp' h' Hpw He Hb Hfl) as (H1 & H2 & H3).
    do 2 eexists. split; [done|]. split_and!; try done. lia.
  - rewrite decide_False by lia. cbn [mbind option_bind]. rewrite decide_True by lia.
    destruct (handle_hi_write pp h Hwf Heq ltac:(lia)) as (pp' & h' & -> & Hpw & He & Hb & Hfl).
    cbn [mbind option_bind]. rewrite (decide_False (P := lo_page n r = _)) by (rewrite (pw_start _ _ _ Hpw); lia).
    cbn [mbind option_bind]. rewrite <- Heq in He. destruct (Hlast pp' h' Hpw He Hb Hfl) as (H1 & H2 & H3).
    do 2 eexists. split; [done|]. split_and!; try done. lia.
  - rewrite decide_True by lia. destruct (handle_interior_write pp h Hwf Hs Hint) as (pp' & h' & -> & Hpw & He & Hb & Hfl & Hfull).
    cbn [mbind option_bind]. rewrite (decide_False (P := hi_page n r = _ ∧ _)) by (rewrite (pw_start _ _ _ Hpw); lia).
    cbn [mbind option_bind]. rewrite (decide_False (P := lo_page n r = _)) by (rewrite (pw_start _ _ _ Hpw); lia).
    cbn [mbind option_bind]. destruct (Hlast pp' h' Hpw He Hb Hfl) as (H1 & H2 & H3).
    do 2 eexists. split; [done|]. by split_and!.
Qed.

(** The request over the bytes that were there, where [P] says the page is
    handled. *)
Definition req_over (buf : tbuffer) (P : Z → Prop) `{∀ s, Decision (P s)} (f : Z → Z) : Z → Z := λ i,
  if decide (rq_lo r ≤ i ≤ rq_hi r ∧ P (i / n * n)) then buf (rq_bpos r + (i - rq_lo r)) else f i.

Lemma row_in_page s i : (n | s) → i / n * n = s ↔ s ≤ i < s + n.
Proof.
  intros [k ->]. pose proof (Z.div_mod i n ltac:(lia)). pose proof (Z.mod_pos_bound i n Hn). split; [intros He; lia|].
  intros Hi. f_equal. symmetry. apply (Z.div_unique_pos _ _ _ (i - k * n)); lia.
Qed.

Lemma req_over_page buf pp pp' pps pps' (P Q : Z → Prop) `{∀ s, Decision (P s), ∀ s, Decision (Q s)} f i :
  page_written buf pp pp' → pp_wf n pp → (n | page_start pp) → (∀ s, P s ↔ s = page_start pp ∨ Q s) →
  (rq_lo r ≤ i ≤ rq_hi r → ¬ Q (page_start pp)) →
  pp_byte f pps' i = req_over buf Q (pp_byte f pps) i →
  pp_byte f (pp' :: pps') i = req_over buf P (pp_byte f (pp :: pps)) i.
Proof.
  intros Hpw Hwf Hs HP HQ Hrest. pose proof (row_in_page (page_start pp) i Hs) as Hrow. unfold req_over in *. cbn [pp_byte].
  rewrite Hrest. rewrite (pw_start _ _ _ Hpw). destruct (decide (i / n * n = page_start pp)) as [He|He].
  - pose proof (proj1 Hrow He) as Hi. pose proof (pw_has _ _ _ Hpw i Hi) as Hh. rewrite (pw_start _ _ _ Hpw) in Hh.
    pose proof (pw_data _ _ _ Hpw i Hi) as Hd. destruct (decide (rq_lo r ≤ i ≤ rq_hi r)) as [Hin|Hin].
    + rewrite (decide_True (P := pp_has pp' _)) by tauto. rewrite (decide_True (P := rq_lo r ≤ i ≤ rq_hi r ∧ P _)) by (rewrite HP; tauto). done.
    + rewrite !(decide_False (P := rq_lo r ≤ i ≤ rq_hi r ∧ _)) by tauto.
      destruct (decide (pp_has pp' _)), (decide (pp_has pp _)); try tauto; done.
  - assert (¬ pp_has pp (i - page_start pp)) as H1.
    { intros Hh. apply He, Hrow. by apply (holds_inside n). }
    assert (¬ pp_has pp' (i - page_start pp)) as H2.
    { intros Hh. rewrite <- (pw_start _ _ _ Hpw) in Hh. apply He, Hrow. rewrite <- (pw_start _ _ _ Hpw).
      apply (holds_inside n); [apply Hpw|done]. }
    rewrite !(decide_False (P := pp_has _ _)) by done. apply decide_ext. rewrite HP. tauto.
Qed.

(** The pages the request meets. *)
Definition met pps : list Z := filter (λ s, lo_page n r ≤ s ≤ rq_hi r) (page_start <$> pps).

Definition at_rest pp : Prop := pp_flags pp = 0 ∧ range_stack pp ≠ [].

Lemma page_written_rest buf pp pp' :
  page_written buf pp pp' → pp_wf n pp → (n | page_start pp) → lo_page n r ≤ page_start pp ≤ rq_hi r →
  pp_flags pp' = 1 ∨ at_rest pp'.
Proof.
  intros Hpw Hwf Hs Hin. destruct lo_page_spec as [Hl Hlo], hi_page_spec as [Hh Hhi].
  destruct (pp_wf_flags n pp' (pw_wf _ _ _ Hpw)) as [Hf|[Hf _]]; [right|by left]. split; [done|]. intros He.
  set (i := Z.max (rq_lo r) (page_start pp)).
  assert (page_start pp ≤ i < page_start pp + n ∧ rq_lo r ≤ i ≤ rq_hi r) as [Hi Hreq].
  { unfold i. destruct (decide (page_start pp = lo_page n r)); [lia|]. lia. }
  destruct (proj2 (pw_has _ _ _ Hpw i Hi) (or_intror Hreq)) as [[? _]|Hr']; [lia|].
  rewrite He in Hr'. by apply in_ranges_nil in Hr'.
Qed.

Lemma handle_loop_write pps : ∀ b h,
  pages_from n b pps → Forall at_rest pps →
  ∃ pps' h', handle_loop n CACHE_WRITE r pps h = Some (pps', h') ∧ pages_from n b pps' ∧
    page_start <$> pps' = page_start <$> pps ∧ h_ext (met pps) h h' ∧ h_buf h' = h_buf h ∧
    h_flush h' = h_flush h ++ (page_start <$> filter (λ pp, pp_flags pp = 1) pps') ∧
    (∀ f i, pp_byte f pps' i = req_over (h_buf h) (λ s, s ∈ page_start <$> pps) (pp_byte f pps) i) ∧
    Forall (λ pp, pp_flags pp = 1 ∨ at_rest pp ∧ ¬ (lo_page n r < page_start pp < hi_page n r)) pps'.
Proof.
  destruct lo_page_spec as [Hl Hlo], hi_page_spec as [Hh Hhi].
  induction pps as [|pp pps IH]; intros b h Hp Hrest; cbn [handle_loop].
  { exists [], h. split_and!; try done; [by apply h_ext_nil|by rewrite app_nil_r|].
    intros f i. unfold req_over. rewrite decide_False; [done|]. intros [_ ?%not_elem_of_nil]. done. }
  destruct Hp as (Hb & Hs & Hwf & Hp). apply Forall_cons in Hrest as [Hr1 Hrest]. unfold met. rewrite fmap_cons, filter_cons.
  destruct (decide (page_start pp < lo_page n r)) as [Hlt|Hge].
  - destruct (IH _ h Hp Hrest) as (pps' & h' & -> & Hp' & Hst & He & Hbuf & Hfl & Hby & Hall).
    cbn [mbind option_bind]. do 2 eexists. split; [done|]. rewrite decide_False by lia.
    pose proof (page_apart _ _ Hs Hl Hlt). split_and!; try done.
    + by rewrite fmap_cons, Hst.
    + rewrite filter_cons_False; [done|]. destruct Hr1. lia.
    + intros f i. cbn [pp_byte]. unfold req_over in *. destruct (decide (holds pp i)) as [Hhd|Hhd].
      * rewrite decide_False; [done|]. pose proof (holds_inside n pp i Hwf Hhd). lia.
      * rewrite Hby.
        destruct (decide (rq_lo r ≤ i ≤ rq_hi r)) as [Hi|]; [|by rewrite !decide_False by tauto].
        apply decide_ext. rewrite elem_of_cons. pose proof (row_in_page (page_start pp) i Hs). intuition lia.
    + constructor; [right; split; [done|lia]|done].
  - destruct (decide (page_start pp > rq_hi r)) as [Hgt|Hle].
    + do 2 eexists. split; [done|].
      assert (∀ q, q ∈ page_start <$> pps → q > rq_hi r) as Hq.
      { intros q (x & -> & Hx)%list_elem_of_fmap. pose proof (pages_from_in n Hn _ _ _ Hp Hx). lia. }
      rewrite decide_False by lia. assert (filter (λ s, lo_page n r ≤ s ≤ rq_hi r) (page_start <$> pps) = []) as ->.
      { apply filter_nil_iff. intros q Hq'%Hq. lia. }
      assert (∀ q, q ∈ pp :: pps → pp_flags q = 0 ∧ page_start q > rq_hi r ∧ at_rest q) as Hq0.
      { rewrite Forall_forall in Hrest. intros q [->|Hqi]%elem_of_cons; [by destruct Hr1|].
        destruct (Hrest q Hqi). split_and!; try done. apply Hq, list_elem_of_fmap. eauto. }
      split_and!; try done; [by apply h_ext_nil| | |].
      * assert (filter (λ pp, pp_flags pp = 1) (pp :: pps) = []) as ->; [|by rewrite app_nil_r].
        apply filter_nil_iff. intros q Hqi. destruct (Hq0 q Hqi). lia.
      * intros f i. unfold req_over. rewrite decide_False; [done|].
        intros [Hi [Hrow|Hrow%Hq]%elem_of_cons]; [apply row_in_page in Hrow; [lia|done]|].
        pose proof (proj1 (row_in_page (i / n * n) i ltac:(by exists (i / n))) eq_refl). lia.
      * apply Forall_forall. intros q Hqi. right. destruct (Hq0 q Hqi) as (_ & ? & ?). split; [done|lia].
    + destruct Hr1 as [Hf0 Hne]. destruct (handle_page_write pp h Hwf Hs Hf0 ltac:(lia)) as (pp' & h1 & -> & Hpw & He1 & Hb1 & Hfl1 & Hint).
      cbn [mbind option_bind]. destruct (IH _ h1 Hp Hrest) as (pps' & h' & -> & Hp' & Hst & He & Hbuf & Hfl & Hby & Hall).
      cbn [mbind option_bind]. do 2 eexists. split; [done|]. rewrite decide_True by lia.
      pose proof (pw_start _ _ _ Hpw) as Hst'. split; [|split; [|split; [|split; [|split; [|split]]]]].
      * cbn [pages_from]. rewrite Hst'. split_and!; try done. apply Hpw.
      * by rewrite fmap_cons, Hst, Hst'.
      * apply (h_ext_app [page_start pp] _ h h1 h'); done.
      * congruence.
      * rewrite Hfl, Hfl1, <- app_assoc. f_equal. rewrite filter_cons. case_decide; [|done]. by rewrite fmap_cons, Hst'.
      * intros f i. rewrite Hb1 in Hby. apply (req_over_page _ pp _ pps _ _ (λ s, s ∈ page_start <$> pps)); try done.
        -- intros s. apply elem_of_cons.
        -- intros Hi (x & Hx & Hxi)%list_elem_of_fmap. pose proof (pages_from_in n Hn _ _ _ Hp Hxi). lia.
      * constructor; [|done]. rewrite Hst'. destruct (page_written_rest _ pp pp' Hpw Hwf Hs ltac:(lia)) as [?|Hrp]; [by left|].
        destruct (decide (lo_page n r < page_start pp < hi_page n r)) as [Hi|Hi]; [left; by apply Hint|by right].
Qed.

(** *** The pages handled, counted *)
Definition rows : list Z := (λ k, lo_page n r + k * n) <$> seqZ 0 (n_pages n r).

Lemma rows_spec s : s ∈ rows ↔ (n | s) ∧ lo_page n r ≤ s ≤ hi_page n r.
Proof.
  destruct lo_page_spec as [[a Ha] Hlo], hi_page_spec as [[b Hb] Hhi]. pose proof n_pages_spec as Hnp.
  unfold rows. rewrite list_elem_of_fmap. setoid_rewrite elem_of_seqZ. split.
  - intros (k & -> & Hk). split; [exists (a + k); lia|nia].
  - intros [[c ->] Hc]. exists (c - a). split; [lia|nia].
Qed.

Lemma length_rows : Z.of_nat (length rows) = n_pages n r.
Proof.
  unfold rows. rewrite length_fmap, length_seqZ. destruct lo_page_spec, hi_page_spec. pose proof n_pages_spec. nia.
Qed.

(** Every page of the request when there are enough. *)
Lemma rows_all l s :
  NoDup l → (∀ s, s ∈ l → s ∈ rows) → Z.of_nat (length l) = n_pages n r → s ∈ rows → s ∈ l.
Proof.
  intros Hnd Hin Hlen. assert (l ⊆+ rows) as Hsub by (by apply NoDup_submseteq).
  apply submseteq_length_Permutation in Hsub; [by rewrite Hsub|]. pose proof length_rows. lia.
Qed.

(** Both ends are handled and pages are missing: there are pages between. *)
Lemma rows_between l :
  NoDup l → (∀ s, s ∈ l → s ∈ rows) → lo_page n r ∈ l → hi_page n r ∈ l → Z.of_nat (length l) ≠ n_pages n r →
  lo_page n r + 2 * n ≤ hi_page n r.
Proof.
  intros Hnd Hin Hlo Hhi Hne. destruct lo_page_spec as [Hl ?], hi_page_spec as [Hh ?]. pose proof n_pages_spec as Hnp.
  pose proof length_rows. assert (length l ≤ length rows)%nat by (by apply submseteq_length, NoDup_submseteq).
  destruct (decide (lo_page n r + 2 * n ≤ hi_page n r)) as [|Hlt]; [done|]. exfalso.
  destruct (decide (lo_page n r = hi_page n r)) as [Heq|Hneq].
  - assert (n_pages n r = 1) by nia. destruct l; [by apply not_elem_of_nil in Hlo|]. simpl in *. lia.
  - assert (n_pages n r ≤ 2) by nia.
    assert ([lo_page n r; hi_page n r] ⊆+ l) as Hsub%submseteq_length.
    { apply NoDup_submseteq; [repeat constructor; set_solver|]. set_solver. }
    simpl in Hsub. lia.
Qed.

(** What is left of the request is a part of it, at the same place of the
    buffer. *)
Definition part_of r1 : Prop := rq_lo r ≤ rq_lo r1 ≤ rq_hi r1 ∧ rq_hi r1 ≤ rq_hi r ∧ rq_bpos r1 - rq_lo r1 = rq_bpos r - rq_lo r.

Lemma left_over l h h' :
  h_new h = r → h_nhandled h = 0 → NoDup l → (∀ s, s ∈ l → s ∈ rows) → h_ext l h h' → h_nhandled h' ≠ n_pages n r →
  part_of (h_new h') ∧
  ∀ i, rq_lo r ≤ i ≤ rq_hi r → ¬ (rq_lo (h_new h') ≤ i ≤ rq_hi (h_new h')) → i / n * n ∈ l.
Proof.
  intros Hnew H0 Hnd Hin [He1 He2 He3 He4 He5 He6] Hne. rewrite H0, Z.add_0_l in He1. rewrite He1 in Hne.
  destruct lo_page_spec as [Hl Hlo], hi_page_spec as [Hh Hhi]. rewrite Hnew in *. unfold part_of. rewrite He4, He5, He6, He4.
  pose proof (rows_between l Hnd Hin) as Hbt.
  assert (lo_page n r ≠ hi_page n r → lo_page n r + n ≤ hi_page n r) as Hap.
  { intros ?. apply page_apart; try done. destruct (decide (hi_page n r < lo_page n r)); [|lia]. pose proof (page_apart _ _ Hh Hl ltac:(lia)). lia. }
  destruct (decide (lo_page n r ∈ l)) as [Hlol|Hlol]; destruct (decide (hi_page n r ∈ l ∧ _)) as [[Hhil Hneq]|Hhil].
  - specialize (Hbt Hlol Hhil Hne). split; [lia|]. intros i Hi Hout.
    destruct (decide (i < lo_page n r + n)).
    + by rewrite (proj2 (row_in_page (lo_page n r) i Hl)) by lia.
    + by rewrite (proj2 (row_in_page (hi_page n r) i Hh)) by lia.
  - destruct (decide (lo_page n r = hi_page n r)) as [Heq|Hneq].
    { rewrite <- Heq in Hbt. specialize (Hbt Hlol Hlol Hne). lia. }
    specialize (Hap Hneq). split; [lia|]. intros i Hi Hout. by rewrite (proj2 (row_in_page (lo_page n r) i Hl)) by lia.
  - specialize (Hap Hneq). split; [lia|]. intros i Hi Hout. by rewrite (proj2 (row_in_page (hi_page n r) i Hh)) by lia.
  - split; [lia|]. intros i Hi Hout. lia.
Qed.

(** *** Pages on the way *)

(** The pages and those of them that are to be flushed; a page strictly inside
    the request is. *)
Record staged pps h : Prop := {
  sg_pages : pages_from n 0 pps;
  sg_rest : Forall (λ pp, pp_flags pp = 1 ∨ at_rest pp ∧ ¬ (lo_page n r < page_start pp < hi_page n r)) pps;
  sg_nodup : NoDup (h_flush h);
  sg_flush s : s ∈ h_flush h ↔ s ∈ page_start <$> filter (λ pp, pp_flags pp = 1) pps }.

Lemma pp_insert_perm pp pps : pp_insert pp pps ≡ₚ pp :: pps.
Proof.
  induction pps as [|q pps IH]; cbn [pp_insert]; [done|]. case_decide; [done|]. rewrite IH. apply Permutation_swap.
Qed.

Lemma pp_insert_pages pp pps : ∀ b,
  pages_from n b pps → b ≤ page_start pp → (n | page_start pp) → pp_wf n pp → page_start pp ∉ page_start <$> pps →
  pages_from n b (pp_insert pp pps).
Proof.
  induction pps as [|q pps IH]; intros b Hp Hb Hs Hwf Hnew; cbn [pp_insert]; [done|].
  destruct Hp as (H1 & H2 & H3 & H4). rewrite fmap_cons in Hnew. apply not_elem_of_cons in Hnew as [Hne Hnew].
  case_decide as Hle.
  - pose proof (page_apart _ _ Hs H2 ltac:(lia)). cbn [pages_from]. do 3 (split; [done|]). split; [lia|done].
  - pose proof (page_apart _ _ H2 Hs ltac:(lia)). cbn [pages_from]. do 3 (split; [done|]). by apply IH.
Qed.

Lemma pp_insert_byte pp pps b f i :
  pages_from n b pps → (n | page_start pp) → pp_wf n pp → page_start pp ∉ page_start <$> pps →
  pp_byte f (pp_insert pp pps) i = pp_byte f (pp :: pps) i.
Proof.
  intros Hp Hs Hwf. revert b Hp. induction pps as [|q pps IH]; intros b Hp Hnew; cbn [pp_insert]; [done|].
  case_decide; [done|]. destruct Hp as (H1 & H2 & H3 & H4). rewrite fmap_cons in Hnew.
  apply not_elem_of_cons in Hnew as [Hne Hnew]. cbn [pp_byte]. rewrite (IH _ H4 Hnew). cbn [pp_byte].
  destruct (decide (pp_has q _)) as [Hq|Hq], (decide (pp_has pp _)) as [Hpp|Hpp]; try done. exfalso. apply Hne.
  apply (holds_inside n) in Hq, Hpp; try done. apply row_in_page in Hq, Hpp; try done. congruence.
Qed.

Lemma new_page_wf s data : pp_wf n (new_page n s data).
Proof. split; simpl; [lia|done|by left]. Qed.

(** A free page taken for one end of the request. *)
Lemma add_page_ok write start pps data unused h :
  staged pps h → start ∉ page_start <$> pps → start = lo_page n r ∨ start = hi_page n r →
  (∀ pp, pp_wf n pp → page_start pp = start →
    ∃ pp' h', write CACHE_WRITE r pp h = Some (pp', h') ∧ page_written (h_buf h) pp pp' ∧ h_ext [start] h h' ∧
      h_buf h' = h_buf h ∧ h_flush h' = h_flush h) →
  ∃ pps' h', add_page n write r start pps (data :: unused) h = Some (pps', unused, h') ∧ staged pps' h' ∧
    page_start <$> pps' ≡ₚ start :: (page_start <$> pps) ∧ h_ext [start] h h' ∧ h_buf h' = h_buf h ∧
    ∀ f i, pp_byte f pps' i = req_over (h_buf h) (λ s, s = start) (pp_byte f pps) i.
Proof.
  intros [Hp Hrest Hnd Hfl] Hnew Hstart Hw. destruct lo_page_spec as [Hl Hlo], hi_page_spec as [Hh Hhi].
  assert (0 ≤ lo_page n r) by (unfold lo_page; pose proof (Z.div_pos (rq_lo r) n); nia).
  assert (lo_page n r ≤ hi_page n r) by (unfold lo_page, hi_page; pose proof (Z.div_le_mono (rq_lo r) (rq_hi r) n); nia).
  assert ((n | start) ∧ lo_page n r ≤ start ≤ hi_page n r) as [Hs Hin] by (destruct Hstart as [-> | ->]; (split; [done|lia])).
  pose proof (new_page_wf start data) as Hwf0. set (pp0 := new_page n start data) in *.
  destruct (Hw pp0 Hwf0 eq_refl) as (pp' & h1 & Hwr & Hpw & He & Hb & Hf).
  unfold add_page. fold pp0. rewrite Hwr. cbn [mbind option_bind]. do 2 eexists. split; [done|].
  pose proof (pw_start _ _ _ Hpw) as Hst. change (page_start pp0) with start in Hst. pose proof (pw_wf _ _ _ Hpw) as Hwf.
  assert (page_start <$> pp_insert pp' pps ≡ₚ start :: (page_start <$> pps)) as Hperm
    by (by rewrite pp_insert_perm, fmap_cons, Hst).
  split; [|split; [done|split; [case_decide; [by destruct He|done]|split; [by case_decide|]]]].
  - split.
    + apply pp_insert_pages; try done; rewrite Hst; try done. lia.
    + rewrite pp_insert_perm. constructor; [|done]. rewrite Hst.
      destruct (page_written_rest _ pp0 pp' Hpw Hwf0 Hs ltac:(simpl; lia)) as [?|Hat]; [by left|right]. split; [done|]. destruct Hstart; lia.
    + case_decide; simpl; rewrite Hf; [|done]. apply NoDup_app. split; [done|]. split; [|repeat constructor; set_solver].
      intros s Hs1 ->%list_elem_of_singleton. apply Hfl in Hs1. apply Hnew.
      apply list_elem_of_fmap in Hs1 as (q & -> & [_ ?]%list_elem_of_filter). apply list_elem_of_fmap. eauto.
    + intros s. rewrite pp_insert_perm, filter_cons. case_decide; simpl; rewrite Hf; [|apply Hfl].
      rewrite elem_of_app, Hst, Hfl. set_solver.
  - intros f i. rewrite (pp_insert_byte pp' pps 0 f i) by (done || by rewrite Hst).
    etrans; [apply (req_over_page (h_buf h) pp0 pp' pps pps (λ s, s = start) (λ _, False)); try done|].
    + intros s. simpl. tauto.
    + auto.
    + unfold req_over. by rewrite decide_False by tauto.
    + unfold req_over. destruct (decide (_ ∧ _)); [done|]. cbn [pp_byte]. rewrite decide_False; [done|].
      intros [[? _]|Hr']; [done|by apply in_ranges_nil in Hr'].
Qed.
End write.

(** ** A write *)
Section handle_write.
Context {S : Type} `{!Segment S, !SegBytes S, !SegmentVecOk S}.
Context (n : Z) (Hn : 0 < n).
Implicit Types (st : ppages S) (pp : cache_partial_page) (pps : list cache_partial_page).

(** Between requests: the pages are in order, none is full or empty, and every
    buffer is in use or free. *)
Record pg_ok st : Prop := {
  pgo_up : vec_up (pg_below st);
  pgo_pages : pages_from n 0 (partial_pages st);
  pgo_rest : Forall at_rest (partial_pages st);
  pgo_count : (length (partial_pages st) + length (ppages_unused st) = n_ppages st)%nat }.

Lemma pps_without_length pps starts :
  pages_from n 0 pps → NoDup starts → (∀ s, s ∈ starts → s ∈ page_start <$> pps) →
  (length (pps_without pps starts) + length starts = length pps)%nat.
Proof.
  intros Hp Hnd Hin. unfold pps_without.
  assert (page_start <$> filter (λ pp, page_start pp ∈ starts) pps ≡ₚ starts) as Hperm.
  { apply NoDup_Permutation; [by eapply (pages_from_starts n Hn 0), pages_from_filter|done|]. intros s. rewrite list_elem_of_fmap.
    setoid_rewrite list_elem_of_filter. split; [by intros (q & -> & ? & _)|]. intros Hs.
    pose proof (Hin s Hs) as (q & -> & Hq)%list_elem_of_fmap. exists q. by split_and!. }
  apply Permutation_length in Hperm. rewrite length_fmap in Hperm. rewrite <- Hperm.
  clear. induction pps as [|q pps IH]; [done|]. rewrite !filter_cons. repeat case_decide; simpl in *; try done; lia.
Qed.

(** Flushing the pages that are full. *)
Lemma flush_staged st r h :
  0 ≤ rq_lo r ≤ rq_hi r → vec_up (pg_below st) → staged n r (partial_pages st) h →
  (length (partial_pages st) + length (ppages_unused st) = n_ppages st)%nat →
  ∃ st', _cache_ppages_flush_list n st (h_flush h) = Some (0, st') ∧ pg_ok st' ∧ n_ppages st' = n_ppages st ∧
    (∀ i, seg_byte st' i = seg_byte st i) ∧
    (∀ pp, pp ∈ partial_pages st' → page_start pp ∈ page_start <$> partial_pages st ∧ ¬ (lo_page n r < page_start pp < hi_page n r)).
Proof.
  intros Hr Hup [Hp Hrest Hnd Hfl] Hcount. rewrite Forall_forall in Hrest.
  assert (∀ s, s ∈ h_flush h → s ∈ page_start <$> partial_pages st) as Hin.
  { intros s Hs%Hfl. apply list_elem_of_fmap in Hs as (q & -> & [_ Hq]%list_elem_of_filter). apply list_elem_of_fmap. eauto. }
  destruct (flush_list_ok n Hn st _ Hup Hp Hin) as (st' & Hres & Hpp & Hb & Hun & Hnp & Hup'). exists st'.
  assert (∀ pp, pp ∈ partial_pages st' → pp ∈ partial_pages st ∧ at_rest pp ∧ ¬ (lo_page n r < page_start pp < hi_page n r)) as Hpp'.
  { intros pp. rewrite Hpp. intros [Hno Hpi]%list_elem_of_filter. split; [done|]. destruct (Hrest _ Hpi) as [Hf|?]; [|done].
    exfalso. apply Hno, Hfl, list_elem_of_fmap. exists pp. split; [done|]. by apply list_elem_of_filter. }
  split; [done|]. split; [|split_and!; try done].
  - split; [done|rewrite Hpp; by apply pages_from_filter| |].
    + apply Forall_forall. intros pp Hpi. by apply Hpp'.
    + rewrite Hnp, Hun, Hpp. pose proof (pps_without_length _ _ Hp Hnd Hin). lia.
  - intros pp Hpi. destruct (Hpp' pp Hpi) as (H1 & _ & H2). split; [|done]. apply list_elem_of_fmap. eauto.
Qed.

(** The contents after the request [r]. *)
Definition req_put (r : request) (buf : tbuffer) (f : Z → Z) : Z → Z := λ i,
  if decide (rq_lo r ≤ i ≤ rq_hi r) then buf (rq_bpos r + (i - rq_lo r)) else f i.

(** What a call does: it is done, or it leaves a part of the request for the
    segment below, where no page is in the way. *)
Definition handled_write st (r : request) buf (res : Z * request * tbuffer * ppages S) : Prop :=
  let '(j, r', buf', st') := res in
  pg_ok st' ∧ n_ppages st' = n_ppages st ∧ buf' = buf ∧
  (j = 1 ∧ (∀ i, seg_byte st' i = req_put r buf (seg_byte st) i) ∨
   j = 0 ∧ part_of r r' ∧ (∀ pp i, pp ∈ partial_pages st' → rq_lo r' ≤ i ≤ rq_hi r' → ¬ holds pp i) ∧
     ∀ i, ¬ (rq_lo r' ≤ i ≤ rq_hi r') → seg_byte st' i = req_put r buf (seg_byte st) i).

(** The first part of a call: the pages that are there. *)
Definition begin_write st (r : request) buf : handled := Handled 0 false false r [] (ppage_max st) buf.

Lemma handle_first st r buf :
  pg_ok st → 0 ≤ rq_lo r ≤ rq_hi r →
  ∃ pps h st', handle_loop n CACHE_WRITE r (partial_pages st) (begin_write st r buf) = Some (pps, h) ∧
    _cache_ppages_flush_list n (Ppages (pg_below st) pps (ppages_unused st) (n_ppages st) (h_max h)) (h_flush h) = Some (0, st') ∧
    pg_ok st' ∧ n_ppages st' = n_ppages st ∧ h_ext n r (met n r (partial_pages st)) (begin_write st r buf) h ∧ h_buf h = buf ∧
    (∀ i, seg_byte st' i = req_over n r buf (λ s, s ∈ met n r (partial_pages st)) (seg_byte st) i) ∧
    (∀ pp, pp ∈ partial_pages st' → page_start pp ∈ page_start <$> partial_pages st ∧ ¬ (lo_page n r < page_start pp < hi_page n r)).
Proof.
  intros [Hup Hp Hrest Hcount] Hr.
  destruct (handle_loop_write n Hn r Hr _ 0 (begin_write st r buf) Hp Hrest) as (pps & h & Hl & Hp' & Hst & He & Hb & Hfl & Hby & Hall).
  exists pps, h. set (st1 := Ppages _ pps _ _ _).
  assert (staged n r (partial_pages st1) h) as Hsg.
  { split; try done.
    - rewrite Hfl. simpl. eapply (pages_from_starts n Hn 0), pages_from_filter; done.
    - intros s. by rewrite Hfl. }
  destruct (flush_staged st1 r h Hr Hup Hsg) as (st' & Hres & Hok & Hnp & Hb' & Hpp').
  { simpl. rewrite <- Hcount. f_equal. apply (f_equal length) in Hst. by rewrite !length_fmap in Hst. }
  exists st'. split; [done|]. split; [done|]. split; [done|]. split; [done|]. split; [done|]. split; [done|]. split.
  - intros i. rewrite Hb'. unfold seg_byte, pg_bytes. cbn [pg_below partial_pages st1]. rewrite Hby.
    unfold req_over. apply decide_ext. unfold met. rewrite list_elem_of_filter.
    pose proof (row_in_page n Hn (i / n * n) i ltac:(by exists (i / n))) as [Hrow _]. specialize (Hrow eq_refl).
    split; [|tauto]. intros [Hi Hs]. split; [done|]. split; [|done]. split; [|lia].
    unfold lo_page. pose proof (Z.div_le_mono (rq_lo r) i n Hn ltac:(lia)). nia.
  - intros pp Hpp%Hpp'. cbn [partial_pages st1] in Hpp. by rewrite Hst in Hpp.
Qed.

(** How far a request has come: the pages [l] are handled, [f0] was the
    contents and [fb] is below the pages [pps]. *)
Record progress (r : request) buf (f0 fb : Z → Z) (np : nat) (h0 : handled) (l : list Z) pps (unused : list tbuffer) h : Prop := {
  pr_staged : staged n r pps h;
  pr_ext : h_ext n r l h0 h;
  pr_nodup : NoDup l;
  pr_rows s : s ∈ l → s ∈ rows n r;
  pr_pages pp : pp ∈ pps → page_start pp ∈ rows n r → page_start pp ∈ l;
  pr_count : (length pps + length unused = np)%nat;
  pr_buf : h_buf h = buf;
  pr_bytes i : pp_byte fb pps i = req_over n r buf (λ s, s ∈ l) f0 i }.

(** One end of the request: the page is there, or one is taken. *)
Lemma progress_end write (mapped : bool) start r buf f0 fb np h0 l pps unused h :
  0 ≤ rq_lo r ≤ rq_hi r → progress r buf f0 fb np h0 l pps unused h →
  mapped = bool_decide (start ∈ l) → start = lo_page n r ∨ start = hi_page n r → (mapped = false → unused ≠ []) →
  (∀ pp, mapped = false → pp_wf n pp → page_start pp = start →
    ∃ pp' h', write CACHE_WRITE r pp h = Some (pp', h') ∧ page_written n r (h_buf h) pp pp' ∧ h_ext n r [start] h h' ∧
      h_buf h' = h_buf h ∧ h_flush h' = h_flush h) →
  ∃ pps' unused' h' l',
    (if mapped then Some (pps, unused, h) else add_page n write r start pps unused h) = Some (pps', unused', h') ∧
    progress r buf f0 fb np h0 l' pps' unused' h' ∧ (∀ s, s ∈ l' ↔ s ∈ l ∨ s = start) ∧
    (mapped = false → length unused = Datatypes.S (length unused')) ∧ (mapped = true → unused' = unused).
Proof.
  intros Hr [Hsg He Hnd Hrows Hpgs Hcount Hbuf Hby] Hm Hstart Hun Hw. destruct mapped.
  - exists pps, unused, h, l. symmetry in Hm. apply bool_decide_eq_true in Hm. split; [done|]. split; [by split|].
    split; [|done]. intros s. split; [by left|]. by intros [?| ->].
  - symmetry in Hm. apply bool_decide_eq_false in Hm. destruct unused as [|data unused]; [by destruct (Hun eq_refl)|].
    destruct (lo_page_spec n Hn r) as [Hl Hlo], (hi_page_spec n Hn r) as [Hh Hhi].
    assert (start ∈ rows n r) as Hsr.
    { apply (rows_spec n Hn r). unfold lo_page, hi_page in *. pose proof (Z.div_le_mono (rq_lo r) (rq_hi r) n).
      destruct Hstart as [-> | ->]; (split; [done|nia]). }
    assert (start ∉ page_start <$> pps) as Hnew.
    { intros (q & -> & Hq)%list_elem_of_fmap. by apply Hm, Hpgs. }
    destruct (add_page_ok n Hn r Hr write start pps data unused h Hsg Hnew Hstart (λ pp, Hw pp eq_refl)) as (pps' & h' & Hadd & Hsg' & Hperm & He' & Hb' & Hby').
    exists pps', unused, h', (l ++ [start]). split; [done|]. split; [|split; [set_solver|done]]. split; try done.
    + by eapply h_ext_app.
    + apply NoDup_app. split; [done|]. split; [set_solver|]. repeat constructor; set_solver.
    + set_solver.
    + intros pp Hpp Hpr. assert (page_start pp ∈ page_start <$> pps') as Hin by (apply list_elem_of_fmap; eauto).
      rewrite Hperm in Hin. apply elem_of_cons in Hin as [->|(q & Hq & Hqi)%list_elem_of_fmap]; [set_solver|].
      rewrite Hq in *. apply elem_of_app. left. by apply Hpgs.
    + apply Permutation_length in Hperm. rewrite length_cons, !length_fmap in Hperm. simpl in Hcount. lia.
    + congruence.
    + intros i. rewrite Hby'. unfold req_over at 1. rewrite Hby, Hbuf. unfold req_over.
      destruct (decide (rq_lo r ≤ i ≤ rq_hi r ∧ i / n * n = start)) as [[? ?]|Hno].
      * rewrite decide_True; [done|]. set_solver.
      * apply decide_ext. split; [set_solver|]. intros [Hi Hin]. split; [done|].
        apply elem_of_app in Hin as [?|Heq%list_elem_of_singleton]; [done|]. tauto.
Qed.

(** Where the handled pages leave the contents. *)
Lemma req_over_put r buf (l : list Z) f i :
  (rq_lo r ≤ i ≤ rq_hi r → i / n * n ∈ l) → req_over n r buf (λ s, s ∈ l) f i = req_put r buf f i.
Proof. intros Hi. unfold req_over, req_put. apply decide_ext. tauto. Qed.

Lemma row_in_rows r i : 0 ≤ rq_lo r ≤ rq_hi r → rq_lo r ≤ i ≤ rq_hi r → i / n * n ∈ rows n r.
Proof.
  intros Hr Hi. apply (rows_spec n Hn r). split; [by exists (i / n)|]. unfold lo_page, hi_page.
  pose proof (Z.div_le_mono (rq_lo r) i n Hn). pose proof (Z.div_le_mono i (rq_hi r) n Hn). nia.
Qed.

Lemma met_rows r pps b s :
  0 ≤ rq_lo r ≤ rq_hi r → pages_from n b pps → s ∈ page_start <$> pps → s ∈ rows n r ↔ s ∈ met n r pps.
Proof.
  intros Hr Hp Hs. unfold met. rewrite list_elem_of_filter, (rows_spec n Hn r).
  destruct (lo_page_spec n Hn r) as [Hl Hlo], (hi_page_spec n Hn r) as [Hh Hhi].
  pose proof Hs as (q & -> & Hq)%list_elem_of_fmap. destruct (pages_from_in n Hn _ _ _ Hp Hq) as (_ & Hd & _).
  split; [intros [_ ?]; split; [lia|done]|]. intros [Hin _]. split; [done|]. split; [lia|].
  destruct (decide (hi_page n r < page_start q)); [|lia]. pose proof (page_apart n Hn _ _ Hh Hd ltac:(lia)). lia.
Qed.

Lemma staged_at_rest r h pps :
  pages_from n 0 pps → Forall at_rest pps → h_flush h = [] →
  (∀ pp, pp ∈ pps → ¬ (lo_page n r < page_start pp < hi_page n r)) → staged n r pps h.
Proof.
  intros Hp Hrest Hfl Hno. rewrite Forall_forall in Hrest. split; [done| | |].
  - apply Forall_forall. intros pp Hpp. right. auto.
  - rewrite Hfl. constructor.
  - intros s. rewrite Hfl. assert (filter (λ pp, pp_flags pp = 1) pps = []) as ->; [|done].
    apply filter_nil_iff. intros pp Hpp. destruct (Hrest _ Hpp). lia.
Qed.

(** The second part of a call: pages are taken for the ends. *)
Lemma handle_ends st st0 r buf h l :
  0 ≤ rq_lo r ≤ rq_hi r → pg_ok st → n_ppages st = n_ppages st0 →
  progress r buf (seg_byte st0) (seg_byte (pg_below st)) (n_ppages st) (begin_write st0 r buf) l (partial_pages st) (ppages_unused st) h →
  (Z.of_nat (length (ppages_unused st)) >= 2 - Z.b2z (h_lo_mapped h) - Z.b2z (h_hi_mapped h)) →
  ∃ pps unused h1 h2 pps2 unused2 st2 l2,
    (if h_lo_mapped h then Some (partial_pages st, ppages_unused st, h)
     else add_page n (handle_lo n) r (lo_page n r) (partial_pages st) (ppages_unused st) h) = Some (pps, unused, h1) ∧
    (if h_hi_mapped h1 then Some (pps, unused, h1) else add_page n (handle_hi n) r (hi_page n r) pps unused h1) = Some (pps2, unused2, h2) ∧
    _cache_ppages_flush_list n (Ppages (pg_below st) pps2 unused2 (n_ppages st) (h_max h2)) (h_flush h2) = Some (0, st2) ∧
    pg_ok st2 ∧ n_ppages st2 = n_ppages st ∧ h_buf h2 = buf ∧
    NoDup l2 ∧ (∀ s, s ∈ l2 → s ∈ rows n r) ∧ lo_page n r ∈ l2 ∧ hi_page n r ∈ l2 ∧
    h_ext n r l2 (begin_write st0 r buf) h2 ∧
    (∀ i, seg_byte st2 i = req_over n r buf (λ s, s ∈ l2) (seg_byte st0) i) ∧
    (∀ pp, pp ∈ partial_pages st2 → ¬ (lo_page n r < page_start pp < hi_page n r)).
Proof.
  intros Hr Hok Hnp Hpr Hun.
  destruct (progress_end (handle_lo n) (h_lo_mapped h) (lo_page n r) _ _ _ _ _ _ _ _ _ _ Hr Hpr) as (pps & unused & h1 & l1 & Ho1 & Hpr1 & Hl1 & Hc1 & Hs1).
  { by rewrite (he_lo _ _ _ _ _ (pr_ext _ _ _ _ _ _ _ _ _ _ Hpr)). }
  { by left. }
  { intros Hm Hnil. rewrite Hm, Hnil in Hun. destruct (h_hi_mapped h); simpl in Hun; lia. }
  { intros pp _ Hwf Hs. by apply (handle_lo_write n Hn r Hr). }
  assert (lo_page n r = hi_page n r → h_hi_mapped h1 = true) as Heq.
  { intros Heq. rewrite (he_hi _ _ _ _ _ (pr_ext _ _ _ _ _ _ _ _ _ _ Hpr1)). simpl. apply bool_decide_eq_true. rewrite <- Heq, Hl1. by right. }
  assert (h_hi_mapped h = true → h_hi_mapped h1 = true) as Hmono.
  { rewrite (he_hi _ _ _ _ _ (pr_ext _ _ _ _ _ _ _ _ _ _ Hpr1)), (he_hi _ _ _ _ _ (pr_ext _ _ _ _ _ _ _ _ _ _ Hpr)). simpl.
    rewrite !bool_decide_eq_true. intros ?. apply Hl1. by left. }
  destruct (progress_end (handle_hi n) (h_hi_mapped h1) (hi_page n r) _ _ _ _ _ _ _ _ _ _ Hr Hpr1) as (pps2 & unused2 & h2 & l2 & Ho2 & Hpr2 & Hl2 & _).
  { by rewrite (he_hi _ _ _ _ _ (pr_ext _ _ _ _ _ _ _ _ _ _ Hpr1)). }
  { by right. }
  { intros Hm Hnil. destruct (h_hi_mapped h) eqn:Hh; [by rewrite Hmono in Hm|]. destruct (h_lo_mapped h); simpl in Hun.
    - rewrite Hs1 in Hnil by done. rewrite Hnil in Hun. simpl in Hun. lia.
    - specialize (Hc1 eq_refl). rewrite Hnil in Hc1. simpl in Hc1. lia. }
  { intros pp Hm Hwf Hs. apply (handle_hi_write n Hn r Hr); try done. intros He. by rewrite Heq in Hm. }
  destruct Hpr2 as [Hsg He Hnd Hrows Hpgs Hcount Hbuf Hby].
  destruct (flush_staged (Ppages (pg_below st) pps2 unused2 (n_ppages st) (h_max h2)) r h2 Hr (pgo_up _ Hok) Hsg Hcount) as (st2 & Hfl & Hok2 & Hnp2 & Hb2 & Hint).
  exists pps, unused, h1, h2, pps2, unused2, st2, l2. do 3 (split; [done|]). split_and!; try done.
  - apply Hl2. left. apply Hl1. by right.
  - apply Hl2. by right.
  - intros i. by rewrite Hb2, <- Hby.
  - intros pp Hpp. by apply Hint.
Qed.

(** A call that returns here, after the pages [l] were handled. *)
Lemma handled_by l st r buf st2 h :
  0 ≤ rq_lo r ≤ rq_hi r → NoDup l → (∀ s, s ∈ l → s ∈ rows n r) → h_ext n r l (begin_write st r buf) h →
  pg_ok st2 → n_ppages st2 = n_ppages st →
  (∀ i, seg_byte st2 i = req_over n r buf (λ s, s ∈ l) (seg_byte st) i) →
  (∀ pp, pp ∈ partial_pages st2 → ¬ (lo_page n r < page_start pp < hi_page n r)) →
  n_pages n r = h_nhandled h ∨ (lo_page n r ∈ l ∧ hi_page n r ∈ l) →
  handled_write st r buf (if decide (n_pages n r = h_nhandled h) then 1 else 0, h_new h, buf, st2).
Proof.
  intros Hr Hnd Hrows He Hok Hnp Hby Hint Hor. split; [done|]. split; [done|]. split; [done|].
  pose proof (he_n _ _ _ _ _ He) as Hlen. simpl in Hlen. case_decide as Hall.
  - left. split; [done|]. intros i. rewrite Hby. apply req_over_put. intros Hi.
    apply (rows_all n Hn r Hr l); try done; [lia|]. by apply row_in_rows.
  - right. destruct Hor as [?|[Hlo Hhi]]; [done|]. split; [done|].
    destruct (left_over n Hn r Hr l (begin_write st r buf) h eq_refl eq_refl Hnd Hrows He ltac:(done)) as [Hpart Hout].
    split; [done|]. split.
    + intros pp i Hpp Hi Hh. pose proof (pgo_pages _ Hok) as Hp. destruct (pages_from_in n Hn _ _ _ Hp Hpp) as (_ & Hd & Hwf).
      apply (holds_inside n _ _ Hwf) in Hh. apply (Hint _ Hpp).
      pose proof (rows_between n Hn r Hr l Hnd Hrows Hlo Hhi ltac:(lia)) as Hbt.
      pose proof (he_new_lo _ _ _ _ _ He) as H1. pose proof (he_new_hi _ _ _ _ _ He) as H2.
      rewrite decide_True in H1 by done. rewrite decide_True in H2 by (split; [done|lia]).
      destruct (lo_page_spec n Hn r) as [Hl Hlo'], (hi_page_spec n Hn r) as [Hh' Hhi'].
      destruct (decide (page_start pp ≤ lo_page n r)).
      { lia. }
      destruct (decide (hi_page n r ≤ page_start pp)); lia.
    + intros i Hi. rewrite Hby. apply req_over_put. intros Hri. by apply Hout.
Qed.

Lemma flush_all st :
  pg_ok st →
  ∃ st1, _cache_ppages_flush n st = Some (0, st1) ∧ pg_ok st1 ∧ n_ppages st1 = n_ppages st ∧ partial_pages st1 = [] ∧
    ∀ i, seg_byte st1 i = seg_byte st i.
Proof.
  intros Hok. pose proof Hok as [Hup Hp Hrest Hc]. unfold _cache_ppages_flush. case_decide as Hfree.
  - exists st. split_and!; try done. apply nil_length_inv. lia.
  - destruct (flush_list_ok n Hn st (page_start <$> partial_pages st) Hup Hp ltac:(done)) as (st1 & Hres & Hpp & Hb & Hun & Hnp & Hup').
    assert (partial_pages st1 = []) as Hnil.
    { rewrite Hpp. apply filter_nil_iff. intros pp Hin Hno. apply Hno, list_elem_of_fmap. eauto. }
    exists st1. split; [done|]. split; [|done]. split; rewrite ?Hnil; try done. rewrite Hnp, Hun, length_fmap. simpl. lia.
Qed.

(** A call is done, or it has flushed every page for want of a free one and
    goes on with a part of the request. *)
Lemma handle_write_call fuel st r buf :
  pg_ok st → 0 ≤ rq_lo r ≤ rq_hi r → (2 ≤ n_ppages st)%nat →
  (∃ res, cache_ppages_handle n (Datatypes.S fuel) st CACHE_WRITE r buf = Some res ∧ handled_write st r buf res) ∨
  (partial_pages st ≠ [] ∧ ∃ r1 st1,
    cache_ppages_handle n (Datatypes.S fuel) st CACHE_WRITE r buf = cache_ppages_handle n fuel st1 CACHE_WRITE r1 buf ∧
    pg_ok st1 ∧ n_ppages st1 = n_ppages st ∧ partial_pages st1 = [] ∧ part_of r r1 ∧
    ∀ i, ¬ (rq_lo r1 ≤ i ≤ rq_hi r1) → seg_byte st1 i = req_put r buf (seg_byte st) i).
Proof.
  intros Hok Hr H2. cbn [cache_ppages_handle]. rewrite decide_False by lia.
  destruct (handle_first st r buf Hok Hr) as (pps & h & st' & Hloop & Hfl & Hok' & Hnp & He & Hbuf & Hby & Hsub).
  unfold begin_write in Hloop. rewrite Hloop. cbn [mbind option_bind]. rewrite Hfl. cbn [mbind option_bind].
  set (l := met n r (partial_pages st)) in *. pose proof (pgo_pages _ Hok) as Hp.
  assert (NoDup l) as Hnd by (by eapply NoDup_filter, (pages_from_starts n Hn 0)).
  assert (∀ s, s ∈ l → s ∈ rows n r) as Hrows.
  { intros s Hs. pose proof Hs as [_ ?]%list_elem_of_filter. by apply (met_rows r (partial_pages st) 0). }
  destruct (decide (h_nhandled h = n_pages n r ∨ _)) as [[Hall|?]|Hno]; [|done|].
  { left. eexists. split; [done|]. rewrite Hbuf. apply (handled_by l); try done; [|by left]. intros pp Hpp. by apply Hsub. }
  destruct (left_over n Hn r Hr l (begin_write st r buf) h eq_refl eq_refl Hnd Hrows He ltac:(tauto)) as [Hpart Hout].
  case_decide as Hun.
  - right. destruct (flush_all st' Hok') as (st1 & -> & Hok1 & Hnp1 & Hnil & Hb1). split.
    { intros Hemp. assert (partial_pages st' = []) as Hemp'.
      { destruct (partial_pages st') as [|pp ?]; [done|]. destruct (Hsub pp ltac:(by left)) as [Hin _]. rewrite Hemp in Hin.
        by apply not_elem_of_nil in Hin. }
      pose proof (pgo_count _ Hok') as Hc. rewrite Hemp' in Hc. simpl in Hc.
      destruct (h_lo_mapped h), (h_hi_mapped h); simpl in Hun; lia. }
    exists (h_new h), st1. split; [done|]. split; [done|]. split; [congruence|]. split; [done|]. split; [done|].
    intros i Hi. rewrite Hb1, Hby. apply req_over_put. intros Hri. by apply Hout.
  - left. set (h0 := Handled (h_nhandled h) _ _ _ _ _ _).
    assert (progress r buf (seg_byte st) (seg_byte (pg_below st')) (n_ppages st') (begin_write st r buf) l (partial_pages st') (ppages_unused st') h0) as Hpr.
    { destruct Hok' as [Hup' Hp' Hrest' Hc']. split; try done.
      - apply staged_at_rest; try done. intros pp Hpp. by apply Hsub.
      - by destruct He.
      - intros pp Hpp Hpr. apply (met_rows r _ 0); try done. by apply Hsub. }
    destruct (handle_ends st' st r buf h0 l Hr Hok' Hnp Hpr ltac:(simpl; lia))
      as (pps1 & un1 & h1 & h2 & pps2 & un2 & st2 & l2 & Ho1 & Ho2 & Hfl2 & Hok2 & Hnp2 & Hb2 & Hnd2 & Hrows2 & Hlo2 & Hhi2 & He2 & Hby2 & Hint2).
    change (h_lo_mapped h) with (h_lo_mapped h0). rewrite Ho1. cbn [mbind option_bind]. rewrite Ho2. cbn [mbind option_bind].
    rewrite Hfl2. cbn [mbind option_bind]. eexists. split; [done|]. rewrite Hb2.
    apply (handled_by l2); try done; [congruence|by right].
Qed.
End handle_write.
