(* ===== verification/CachePPageRd.v ===== *)
(** * Partial pages: reads

    A read takes what a partial page at either end of the request holds, and
    flushes the pages in the way of the rest. *)
From S2P Require Import Prelude Seg CacheRange CachePPage CachePPageOk.
#[local] Open Scope Z_scope.

Section read.
Context (n : Z) (Hn : 0 < n) (r : request) (Hr : 0 ≤ rq_lo r ≤ rq_hi r).
Implicit Types (pp : cache_partial_page) (pps : list cache_partial_page) (h : handled).

(** The place [p] of the buffer is for the offset [rq_at p]. *)
Definition rq_at (p : Z) : Z := rq_lo r + (p - rq_bpos r).

(** The buffer with the bytes [f] for the handled pages [P]. *)
Definition buf_over (f : Z → Z) (P : Z → Prop) `{∀ s, Decision (P s)} (buf : tbuffer) : tbuffer := λ p,
  if decide (rq_lo r ≤ rq_at p ≤ rq_hi r ∧ P (rq_at p / n * n)) then f (rq_at p) else buf p.

(** A page whose bytes were copied to the buffer. *)
Record page_read pp h h' : Prop := {
  rd_end : page_start pp = lo_page n r ∨ page_start pp = hi_page n r;
  rd_ext : h_ext n r [page_start pp] h h';
  rd_flush : h_flush h' = h_flush h;
  rd_holds i : rq_lo r ≤ i ≤ rq_hi r → page_start pp ≤ i < page_start pp + n → holds pp i;
  rd_buf p : h_buf h' p = buf_over (λ i, pp_data pp (i - page_start pp)) (λ s, s = page_start pp) (h_buf h) p }.

Lemma pp_copy_buf pp poff nbytes buf boff p :
  (n | page_start pp) → 0 ≤ poff → 0 < nbytes → poff + nbytes ≤ n → boff = rq_bpos r + (page_start pp + poff - rq_lo r) →
  (∀ i, page_start pp ≤ i < page_start pp + n → rq_lo r ≤ i ≤ rq_hi r ↔ page_start pp + poff ≤ i < page_start pp + poff + nbytes) →
  pp_copy pp poff nbytes buf boff p = buf_over (λ i, pp_data pp (i - page_start pp)) (λ s, s = page_start pp) buf p.
Proof.
  intros Hs Hp Hnb Hle -> Hreq. unfold pp_copy, buf_put, buf_over.
  pose proof (row_in_page n Hn (page_start pp) (rq_at p) Hs) as Hrow. unfold rq_at in *.
  destruct (decide (_ ≤ p < _)) as [Hin|Hin].
  - assert (page_start pp ≤ rq_lo r + (p - rq_bpos r) < page_start pp + n) as Hpg by lia.
    rewrite decide_True; [f_equal; lia|]. split; [|by apply Hrow]. apply Hreq; lia.
  - rewrite decide_False; [done|]. intros [Hi Hpg]. apply Hrow in Hpg. apply Hreq in Hi; [lia|done].
Qed.

Lemma range_holds pp rng i : rng ∈ range_stack pp → rng.1 ≤ i - page_start pp ≤ rng.2 → holds pp i.
Proof. intros Hin Hi. right. apply Exists_exists. eauto. Qed.

(** The request in its first page and in its last page. *)
Lemma req_lo_page i :
  lo_page n r ≤ i < lo_page n r + n →
  rq_lo r ≤ i ≤ rq_hi r ↔ rq_lo r ≤ i < (if decide (lo_page n r = hi_page n r) then rq_hi r + 1 else lo_page n r + n).
Proof.
  destruct (lo_page_spec n Hn r) as [Hl Hlo], (hi_page_spec n Hn r) as [Hh Hhi]. case_decide as He; [lia|].
  assert (lo_page n r + n ≤ hi_page n r); [|lia]. apply page_apart; try done.
  destruct (decide (hi_page n r < lo_page n r)); [|lia]. pose proof (page_apart n Hn _ _ Hh Hl ltac:(lia)). lia.
Qed.

Lemma handle_lo_read pp h :
  pp_wf n pp → range_stack pp ≠ [] → page_start pp = lo_page n r →
  ∃ h', handle_lo n CACHE_READ r pp h = Some (pp, h') ∧ (page_read pp h h' ∨ h' = h_set_flush h (page_start pp)).
Proof.
  intros Hwf Hne Hs. destruct (lo_page_spec n Hn r) as [Hl Hlo], (hi_page_spec n Hn r) as [Hh Hhi].
  pose proof req_lo_page as Hreq. unfold handle_lo. destruct (decide (lo_page n r = hi_page n r)) as [Heq|Hneq].
  - destruct (range_at _ _) as [rng|] eqn:Hrng; [|by eauto]. apply List.find_some in Hrng as [Hin Hrng].
    apply bool_decide_eq_true in Hrng. case_decide as Hend; [|by eauto]. eexists. split; [done|]. left. rewrite Hs in *. split.
    + by left.
    + rewrite Hs. split; cbn -[lo_page hi_page].
      * lia.
      * f_equal. symmetry. apply bool_decide_eq_true_2. set_solver.
      * f_equal. symmetry. apply bool_decide_eq_true_2. rewrite Heq. set_solver.
      * rewrite (decide_True (P := lo_page n r ∈ _)) by set_solver. lia.
      * rewrite decide_False; [done|]. tauto.
      * rewrite (decide_True (P := lo_page n r ∈ _)) by set_solver. lia.
    + done.
    + intros i Hi Hpg. apply (range_holds pp rng); [by apply list_elem_of_In|]. rewrite Hs in *. lia.
    + intros p. cbn [h_buf h_map]. apply pp_copy_buf; rewrite ?Hs; try done; try lia; intros i Hi; specialize (Hreq i Hi); repeat case_decide; intuition lia.
  - destruct (last (range_stack pp)) as [rng|] eqn:Hrng; [|apply last_None in Hrng; by rewrite Hrng in Hne]. cbn [mbind option_bind].
    assert (rng ∈ range_stack pp) as Hin by (apply last_Some in Hrng as [? ->]; set_solver).
    case_decide as Hend; [|by eauto]. eexists. split; [done|]. left. rewrite Hs in *.
    assert (lo_page n r + n ≤ rq_hi r + 1) as Hle by (pose proof (proj2 (Hreq (lo_page n r + n - 1) ltac:(lia)) ltac:(lia)); lia).
    split.
    + by left.
    + rewrite Hs. split; cbn -[lo_page hi_page].
      * lia.
      * f_equal. symmetry. apply bool_decide_eq_true_2. set_solver.
      * f_equal. symmetry. apply bool_decide_eq_false_2. set_solver.
      * rewrite (decide_True (P := lo_page n r ∈ _)) by set_solver. lia.
      * rewrite decide_False; [done|]. set_solver.
      * rewrite (decide_True (P := lo_page n r ∈ _)) by set_solver. lia.
    + done.
    + intros i Hi Hpg. apply (range_holds pp rng); [done|]. rewrite Hs in *. lia.
    + intros p. cbn [h_buf h_map]. apply pp_copy_buf; rewrite ?Hs; try done; try lia; intros i Hi; specialize (Hreq i Hi); repeat case_decide; intuition lia.
Qed.

Lemma handle_hi_read pp h :
  pp_wf n pp → range_stack pp ≠ [] → page_start pp = hi_page n r → lo_page n r ≠ hi_page n r →
  ∃ h', handle_hi n CACHE_READ r pp h = Some (pp, h') ∧ (page_read pp h h' ∨ h' = h_set_flush h (page_start pp)).
Proof.
  intros Hwf Hne Hs Hneq. destruct (lo_page_spec n Hn r) as [Hl Hlo], (hi_page_spec n Hn r) as [Hh Hhi].
  assert (rq_lo r < hi_page n r) as Hap.
  { assert (lo_page n r + n ≤ hi_page n r); [|lia]. apply page_apart; try done.
    destruct (decide (hi_page n r < lo_page n r)); [|lia]. pose proof (page_apart n Hn _ _ Hh Hl ltac:(lia)). lia. }
  unfold handle_hi. destruct (range_stack pp) as [|rng rngs] eqn:Hrng; [done|]. cbn [head mbind option_bind].
  case_decide as Hend; [|by eauto]. eexists. split; [done|]. left. split.
  - by right.
  - rewrite Hs. split; cbn -[lo_page hi_page].
    + lia.
    + rewrite bool_decide_eq_false_2 by set_solver. done.
    + f_equal. symmetry. apply bool_decide_eq_true_2. set_solver.
    + rewrite decide_False by set_solver. done.
    + rewrite decide_True by set_solver. lia.
    + rewrite decide_False by set_solver. done.
  - done.
  - intros i Hi Hpg. apply (range_holds pp rng); [rewrite Hrng; by left|]. lia.
  - intros p. cbn [h_buf h_map]. apply pp_copy_buf; rewrite ?Hs; try done; try lia; intros i Hi; lia.
Qed.

Lemma handle_page_read pp h :
  pp_wf n pp → (n | page_start pp) → at_rest pp → lo_page n r ≤ page_start pp ≤ rq_hi r →
  ∃ h', handle_page n CACHE_READ r pp h = Some (pp, h') ∧
    (page_read pp h h' ∨ h' = h_set_flush h (page_start pp)).
Proof.
  intros Hwf Hs [Hf Hne] Hin. destruct (lo_page_spec n Hn r) as [Hl Hlo], (hi_page_spec n Hn r) as [Hh Hhi].
  unfold handle_page, handle_interior. destruct (page_cases n Hn r Hr (page_start pp) Hs Hin) as [Heq|[[Hneq Heq]|[Hint Hnp]]].
  - destruct (handle_lo_read pp h Hwf Hne Heq) as (h' & Hlr & Hor). exists h'. split; [|done].
    rewrite decide_False by lia. cbn [mbind option_bind]. rewrite decide_False by lia. cbn [mbind option_bind].
    rewrite decide_True by lia. rewrite Hlr. cbn [mbind option_bind]. by rewrite decide_False by lia.
  - destruct (handle_hi_read pp h Hwf Hne Heq ltac:(lia)) as (h' & Hhr & Hor). exists h'. split; [|done].
    rewrite decide_False by lia. cbn [mbind option_bind]. rewrite decide_True by lia. rewrite Hhr. cbn [mbind option_bind].
    rewrite decide_False by lia. cbn [mbind option_bind]. by rewrite decide_False by lia.
  - exists (h_set_flush h (page_start pp)). split; [|by right]. rewrite decide_True by lia. cbn [mbind option_bind].
    rewrite decide_False by lia. cbn [mbind option_bind]. rewrite decide_False by lia. cbn [mbind option_bind].
    by rewrite decide_False by lia.
Qed.

(** Handling [pps]: the pages [l] are read and [fl] are to be flushed. *)
Record pages_read (f : Z → Z) pps h h' (l fl : list Z) : Prop := {
  prd_ext : h_ext n r l h h';
  prd_flush : h_flush h' = h_flush h ++ fl;
  prd_nodup : NoDup (l ++ fl);
  prd_met s : s ∈ met n r pps ↔ s ∈ l ∨ s ∈ fl;
  prd_ends s : s ∈ l → s = lo_page n r ∨ s = hi_page n r;
  prd_buf p : h_buf h' p = buf_over (pp_byte f pps) (λ s, s ∈ l) (h_buf h) p }.

Lemma met_cons_out pp pps : ¬ (lo_page n r ≤ page_start pp ≤ rq_hi r) → met n r (pp :: pps) = met n r pps.
Proof. intros Hno. unfold met. rewrite fmap_cons, filter_cons. by rewrite decide_False. Qed.
Lemma met_cons_in pp pps : lo_page n r ≤ page_start pp ≤ rq_hi r → met n r (pp :: pps) = page_start pp :: met n r pps.
Proof. intros Hin. unfold met. rewrite fmap_cons, filter_cons. by rewrite decide_True. Qed.

(** A page before those that were read. *)
Lemma pp_byte_skip f b pp pps i s :
  pages_from n b (pp :: pps) → s ∈ page_start <$> pps → i / n * n = s → pp_byte f (pp :: pps) i = pp_byte f pps i.
Proof.
  intros (Hb & Hs & Hwf & Hp) (q & -> & Hq)%list_elem_of_fmap Hrow. cbn [pp_byte]. rewrite decide_False; [done|].
  intros Hh. apply (holds_inside n _ _ Hwf), (row_in_page n Hn _ i Hs) in Hh.
  pose proof (pages_from_in n Hn _ _ _ Hp Hq). lia.
Qed.

Lemma met_starts pps s : s ∈ met n r pps → s ∈ page_start <$> pps.
Proof. by intros [_ ?]%list_elem_of_filter. Qed.

Lemma pages_read_cons f b pp pps h h1 h' l fl :
  pages_from n b (pp :: pps) → lo_page n r ≤ page_start pp ≤ rq_hi r →
  page_read pp h h1 ∨ h1 = h_set_flush h (page_start pp) → pages_read f pps h1 h' l fl →
  ∃ l' fl', pages_read f (pp :: pps) h h' l' fl'.
Proof.
  intros Hp Hin Hor [He Hfl Hnd Hmet Hends Hbuf]. pose proof Hp as (Hb & Hs & Hwf & Hp').
  assert (page_start pp ∉ met n r pps) as Hnew.
  { intros (q & Hq & Hqi)%met_starts%list_elem_of_fmap. pose proof (pages_from_in n Hn _ _ _ Hp' Hqi). lia. }
  assert (page_start pp ∉ l ++ fl) as Hnl by (rewrite elem_of_app; by rewrite <- Hmet).
  assert (∀ p, rq_at p / n * n ∈ l → pp_byte f (pp :: pps) (rq_at p) = pp_byte f pps (rq_at p)) as Hskip.
  { intros p Hl. apply (pp_byte_skip f b pp pps _ (rq_at p / n * n) Hp); [|done]. apply met_starts, Hmet. by left. }
  destruct Hor as [[Hend1 He1 Hf1 Hh1 Hb1]| ->].
  - exists (page_start pp :: l), fl. split.
    + apply (h_ext_app n Hn r Hr [page_start pp] l h h1 h' He1 He).
    + by rewrite Hfl, Hf1.
    + by constructor.
    + intros s. rewrite met_cons_in by done. rewrite !elem_of_cons, Hmet. tauto.
    + by intros s [->|?]%elem_of_cons; auto.
    + intros p. rewrite Hbuf. unfold buf_over. rewrite Hb1. unfold buf_over.
      destruct (decide (_ ∧ rq_at p / n * n ∈ l)) as [[Hi Hl]|Hno].
      * rewrite decide_True by set_solver. by rewrite Hskip.
      * destruct (decide (_ ∧ _ = page_start pp)) as [[Hi Hrow]|Hno'].
        -- rewrite decide_True by set_solver. cbn [pp_byte]. rewrite decide_True; [done|]. apply Hh1; [done|].
           by apply row_in_page.
        -- rewrite decide_False; [done|]. intros [Hi [?|?]%elem_of_cons]; tauto.
  - exists l, (page_start pp :: fl). split.
    + destruct He. by split.
    + rewrite Hfl. simpl. by rewrite <- app_assoc.
    + rewrite <- Permutation_middle. by constructor.
    + intros s. rewrite met_cons_in by done. rewrite !elem_of_cons, Hmet. tauto.
    + done.
    + intros p. rewrite Hbuf. unfold buf_over. destruct (decide (_ ∧ _)) as [[Hi Hl]|]; [|done]. by rewrite Hskip.
Qed.

Lemma handle_loop_read f pps : ∀ b h,
  pages_from n b pps → Forall at_rest pps →
  ∃ h' l fl, handle_loop n CACHE_READ r pps h = Some (pps, h') ∧ pages_read f pps h h' l fl.
Proof.
  induction pps as [|pp pps IH]; intros b h Hp Hrest; cbn [handle_loop].
  { exists h, [], []. split; [done|]. split; [by apply h_ext_nil|by rewrite app_nil_r|constructor|set_solver|set_solver|].
    intros p. unfold buf_over. rewrite decide_False; [done|]. intros [_ ?%not_elem_of_nil]. done. }
  pose proof Hp as (Hb & Hs & Hwf & Hp'). apply Forall_cons in Hrest as [Hr1 Hrest].
  destruct (decide (page_start pp < lo_page n r)) as [Hlt|Hge].
  - destruct (IH _ h Hp' Hrest) as (h' & l & fl & -> & [He Hfl Hnd Hmet Hends Hbuf]). cbn [mbind option_bind].
    exists h', l, fl. split; [done|]. split; try done.
    + intros s. rewrite met_cons_out by lia. apply Hmet.
    + intros p. rewrite Hbuf. unfold buf_over. destruct (decide (_ ∧ _)) as [[Hi Hl]|]; [|done].
      symmetry. apply (pp_byte_skip f b pp pps _ (rq_at p / n * n) Hp); [|done]. apply met_starts, Hmet. by left.
  - destruct (decide (page_start pp > rq_hi r)) as [Hgt|Hle].
    + exists h, [], []. split; [done|]. split; [by apply h_ext_nil|by rewrite app_nil_r|constructor| |set_solver|].
      * intros s. split; [|set_solver]. unfold met. intros [Hin (q & -> & Hq)%list_elem_of_fmap]%list_elem_of_filter.
        apply elem_of_cons in Hq as [->|Hq]; [lia|]. pose proof (pages_from_in n Hn _ _ _ Hp' Hq). lia.
      * intros p. unfold buf_over. rewrite decide_False; [done|]. intros [_ ?%not_elem_of_nil]. done.
    + destruct (handle_page_read pp h Hwf Hs Hr1 ltac:(lia)) as (h1 & -> & Hor). cbn [mbind option_bind].
      destruct (IH _ h1 Hp' Hrest) as (h' & l & fl & -> & [He Hfl Hnd Hmet Hends Hbuf]). cbn [mbind option_bind].
      destruct (pages_read_cons f b pp pps h h1 h' l fl Hp ltac:(lia) Hor) as (l' & fl' & Hrd); [done|]. eauto.
Qed.
End read.
