(* ===== verification/CachePPageRw.v ===== *)
(** * Partial pages: requests

    The cached segment with partial pages refines a segment without: a write
    overlays what it holds, a read delivers it. *)
From S2P Require Import Prelude Seg CacheRange CachePPage CachePPageOk CachePPageRd.
#[local] Open Scope Z_scope.

Section rw.
Context {S : Type} `{!Segment S, !SegBytes S, !SegmentVecOk S}.
Context (n : Z) (Hn : 0 < n).
Implicit Types (st : ppages S) (pp : cache_partial_page) (r : request) (buf : tbuffer).

(** ** Writes *)
Lemma part_of_trans r r1 r2 : part_of r r1 → part_of r1 r2 → part_of r r2.
Proof. unfold part_of. lia. Qed.

Lemma handled_write_part st st1 r r1 buf res :
  n_ppages st1 = n_ppages st → part_of r r1 →
  (∀ i, ¬ (rq_lo r1 ≤ i ≤ rq_hi r1) → seg_byte st1 i = req_put r buf (seg_byte st) i) →
  handled_write n st1 r1 buf res → handled_write n st r buf res.
Proof.
  intros Hnp Hpart Hout. destruct res as [[[j r2] buf2] st2]. intros (Hok & Hnp2 & Hb & Hor).
  assert (∀ i, req_put r1 buf (seg_byte st1) i = req_put r buf (seg_byte st) i) as Heq.
  { intros i. unfold req_put at 1. case_decide as Hi; [|by apply Hout]. unfold req_put. unfold part_of in Hpart.
    rewrite decide_True by lia. f_equal. lia. }
  split; [done|]. split; [congruence|]. split; [done|]. destruct Hor as [[Hj Hby]|(Hj & Hpart2 & Hno & Hby)]; [left|right].
  - split; [done|]. intros i. by rewrite Hby.
  - split; [done|]. split; [by eapply part_of_trans|]. split; [done|]. intros i Hi. by rewrite Hby.
Qed.

(** Two tries are enough. *)
Lemma handle_write_ok fuel st r buf :
  pg_ok n st → 0 ≤ rq_lo r ≤ rq_hi r → (2 ≤ n_ppages st)%nat →
  ∃ res, cache_ppages_handle n (Datatypes.S (Datatypes.S fuel)) st CACHE_WRITE r buf = Some res ∧ handled_write n st r buf res.
Proof.
  intros Hok Hr H2. destruct (handle_write_call n Hn (Datatypes.S fuel) st r buf Hok Hr H2)
    as [?|(_ & r1 & st1 & -> & Hok1 & Hnp1 & Hnil & Hpart & Hout)]; [done|].
  assert (0 ≤ rq_lo r1 ≤ rq_hi r1) as Hr1 by (unfold part_of in Hpart; lia).
  destruct (handle_write_call n Hn fuel st1 r1 buf Hok1 Hr1 ltac:(lia)) as [(res & Hres & Hh)|[? _]]; [|done].
  exists res. split; [done|]. by eapply handled_write_part.
Qed.

(** ** Reads *)

(** What a read leaves for the segment below. *)
Definition handled_read st r buf (res : Z * request * tbuffer * ppages S) : Prop :=
  let '(j, r', buf', st') := res in
  pg_ok n st' ∧ n_ppages st' = n_ppages st ∧ (∀ i, seg_byte st' i = seg_byte st i) ∧
  (∀ p, ¬ (rq_lo r ≤ rq_at r p ≤ rq_hi r) → buf' p = buf p) ∧
  (j = 1 ∧ (∀ p, rq_lo r ≤ rq_at r p ≤ rq_hi r → buf' p = seg_byte st (rq_at r p)) ∨
   j = 0 ∧ part_of r r' ∧ (∀ pp i, pp ∈ partial_pages st' → rq_lo r' ≤ i ≤ rq_hi r' → ¬ holds pp i) ∧
     ∀ p, rq_lo r ≤ rq_at r p ≤ rq_hi r → ¬ (rq_lo r' ≤ rq_at r p ≤ rq_hi r') → buf' p = seg_byte st (rq_at r p)).

Lemma flush_rest st starts :
  pg_ok n st → NoDup starts → (∀ s, s ∈ starts → s ∈ page_start <$> partial_pages st) →
  ∃ st', _cache_ppages_flush_list n st starts = Some (0, st') ∧ pg_ok n st' ∧ n_ppages st' = n_ppages st ∧
    (∀ i, seg_byte st' i = seg_byte st i) ∧ partial_pages st' = pps_without (partial_pages st) starts.
Proof.
  intros [Hup Hp Hrest Hc] Hnd Hin.
  destruct (flush_list_ok n Hn st starts Hup Hp Hin) as (st' & Hres & Hpp & Hb & Hun & Hnp & Hup').
  exists st'. split; [done|]. split; [|done]. split; [done|rewrite Hpp; by apply pages_from_filter| |].
  - rewrite Hpp. apply Forall_forall. intros q [_ Hq]%list_elem_of_filter. by eapply Forall_forall in Hrest.
  - rewrite Hnp, Hun, Hpp. pose proof (pps_without_length n Hn _ _ Hp Hnd Hin). lia.
Qed.

Lemma handle_read_ok fuel st r buf :
  pg_ok n st → 0 ≤ rq_lo r ≤ rq_hi r → n_ppages st ≠ 0%nat →
  ∃ res, cache_ppages_handle n (Datatypes.S fuel) st CACHE_READ r buf = Some res ∧ handled_read st r buf res.
Proof.
  intros Hok Hr H0. cbn [cache_ppages_handle]. rewrite decide_False by done.
  pose proof Hok as [Hup Hp Hrest Hc]. set (h0 := Handled _ _ _ _ _ _ _).
  destruct (handle_loop_read n Hn r Hr (seg_byte (pg_below st)) _ 0 h0 Hp Hrest) as (h & l & fl & -> & [He Hfl Hnd Hmet Hends Hbuf]).
  cbn [mbind option_bind]. set (st1 := Ppages _ _ _ _ _). simpl in Hfl. rewrite Hfl.
  apply NoDup_app in Hnd as (Hndl & Hdisj & Hndf).
  assert (∀ s, s ∈ met n r (partial_pages st) → s ∈ page_start <$> partial_pages st ∧ s ∈ rows n r) as Hmet'.
  { intros s Hs. pose proof (met_starts n r _ s Hs). split; [done|]. by apply (met_rows n Hn r (partial_pages st) 0). }
  assert (pg_ok n st1) as Hok1 by (by split).
  destruct (flush_rest st1 fl Hok1 Hndf) as (st' & -> & Hok' & Hnp & Hb & Hpp).
  { intros s Hs. apply Hmet', Hmet. by right. }
  cbn [mbind option_bind]. rewrite decide_True by (by right). eexists. split; [done|].
  assert (∀ p, rq_lo r ≤ rq_at r p ≤ rq_hi r → rq_at r p / n * n ∈ l → h_buf h p = seg_byte st (rq_at r p)) as Hgot.
  { intros p Hi Hl. rewrite Hbuf. unfold buf_over. by rewrite decide_True. }
  assert (∀ s, s ∈ l → s ∈ rows n r) as Hrows by (intros s Hs; apply Hmet', Hmet; by left).
  split; [done|]. split; [done|]. split; [intros i; by rewrite Hb|]. split.
  { intros p Hi. rewrite Hbuf. unfold buf_over. by rewrite decide_False by tauto. }
  pose proof (he_n _ _ _ _ _ He) as Hlen. simpl in Hlen. case_decide as Hall.
  - left. split; [done|]. intros p Hi. apply Hgot; [done|]. apply (rows_all n Hn r Hr l); try done; [lia|]. by apply row_in_rows.
  - right. split; [done|].
    destruct (left_over n Hn r Hr l h0 h eq_refl eq_refl Hndl Hrows He ltac:(done)) as [Hpart Hout].
    split; [done|]. split; [|intros p Hi Hno; by apply Hgot, Hout].
    intros pp i Hin Hi Hh. rewrite Hpp in Hin. apply list_elem_of_filter in Hin as [Hnf Hin]. cbn [partial_pages st1] in Hin.
    destruct (pages_from_in n Hn _ _ _ Hp Hin) as (_ & Hd & Hwf). apply (holds_inside n _ _ Hwf) in Hh.
    unfold part_of in Hpart. assert (i / n * n = page_start pp) as Hrow by (by apply row_in_page).
    assert (page_start pp ∈ l) as Hl.
    { assert (page_start pp ∈ met n r (partial_pages st)) as Hm; [|apply Hmet in Hm; tauto].
      apply (met_rows n Hn r (partial_pages st) 0); try done; [apply list_elem_of_fmap; eauto|]. rewrite <- Hrow. apply row_in_rows; try done. lia. }
    pose proof (he_new_lo _ _ _ _ _ He) as H1. pose proof (he_new_hi _ _ _ _ _ He) as H2.
    destruct (decide (page_start pp = lo_page n r)) as [Heq|Hneq].
    + rewrite decide_True in H1 by (by rewrite <- Heq). lia.
    + destruct (Hends _ Hl) as [?|Heq]; [done|]. rewrite decide_True in H2 by (split; [by rewrite <- Heq|congruence]). lia.
Qed.
End rw.

(** ** The requests of the driver *)
Section driver.
Context `{!Gop, !GopOk}.
Context {S : Type} `{!Segment S, !SegBytes S, !SegmentVecOk S}.
Context (n : Z) (Hn : 0 < n).
Implicit Types (st : ppages S) (pp : cache_partial_page) (r : request) (buf : tbuffer).

(** Without partial pages everything is left to the segment below. *)
Lemma no_pages st pp : pg_ok n st → n_ppages st = 0%nat → pp ∉ partial_pages st.
Proof. intros [_ _ _ Hc] Hz. destruct (partial_pages st); [apply not_elem_of_nil|]. simpl in Hc. lia. Qed.

Lemma handle_write_any st r buf :
  pg_ok n st → 0 ≤ rq_lo r ≤ rq_hi r → n_ppages st ≠ 1%nat →
  ∃ res, cache_ppages_handle n 2 st CACHE_WRITE r buf = Some res ∧ handled_write n st r buf res.
Proof.
  intros Hok Hr H1. destruct (decide (n_ppages st = 0%nat)) as [Hz|Hz]; [|by apply handle_write_ok; try done; lia].
  cbn [cache_ppages_handle]. rewrite decide_True by done. eexists. split; [done|]. split; [done|]. split; [done|]. split; [done|].
  right. split; [done|]. split; [unfold part_of; lia|]. split.
  - intros pp i Hpp. by apply no_pages in Hpp.
  - intros i Hi. unfold req_put. by rewrite decide_False.
Qed.

Lemma handle_read_any st r buf :
  pg_ok n st → 0 ≤ rq_lo r ≤ rq_hi r →
  ∃ res, cache_ppages_handle n 2 st CACHE_READ r buf = Some res ∧ handled_read n st r buf res.
Proof.
  intros Hok Hr. destruct (decide (n_ppages st = 0%nat)) as [Hz|Hz]; [|by apply handle_read_ok].
  cbn [cache_ppages_handle]. rewrite decide_True by done. eexists. split; [done|]. split; [done|]. split; [done|]. split; [done|].
  split; [done|]. right. split; [done|]. split; [unfold part_of; lia|]. split; [|by intros].
  intros pp i Hpp. by apply no_pages in Hpp.
Qed.

Lemma pg_ok_set_below st below : pg_ok n st → vec_up below → pg_ok n (pg_set_below st below).
Proof. intros [_ ? ? ?] Hup. by split. Qed.

(** Bytes of the segment below where no page is in the way. *)
Lemma pp_byte_below st below i :
  seg_byte (pg_set_below st below) i =
  if decide (Exists (λ pp, holds pp i) (partial_pages st)) then seg_byte st i else seg_byte below i.
Proof.
  unfold seg_byte at 1 2, pg_bytes. cbn [pg_set_below pg_below partial_pages]. case_decide as He.
  - induction (partial_pages st) as [|pp pps IH]; [by apply Exists_nil in He|]. cbn [pp_byte]. case_decide; [done|].
    apply Exists_cons in He as [?|He]; [done|]. by apply IH.
  - apply pp_byte_out. intros pp Hpp Hh. apply He, Exists_exists. eauto.
Qed.

(** The segment below has the byte where no page has. *)
Lemma pg_byte_out st i : ¬ Exists (λ pp, holds pp i) (partial_pages st) → seg_byte st i = seg_byte (pg_below st) i.
Proof. intros Hno. apply pp_byte_out. intros pp Hpp Hh. apply Hno, Exists_exists. eauto. Qed.

(** What the handling left of a write goes to the segment below. *)
Lemma below_write st r r' buf st' :
  0 ≤ rq_lo r → handled_write n st r buf (0, r', buf, st') →
  let res := segment_write (pg_below st') [Ex_iovec (rq_lo r') (rq_hi r' - rq_lo r' + 1)] buf (rq_bpos r') in
  op_st res.2 = OP_STATE_SUCCESS ∧ pg_ok n (pg_set_below st' res.1) ∧
  ∀ i, seg_byte (pg_set_below st' res.1) i = req_put r buf (seg_byte st) i.
Proof.
  intros Hlo (Hok & Hnp & _ & [[? _]|(_ & Hpart & Hno & Hby)]) res; [lia|]. unfold part_of in Hpart.
  assert (iov_ok [Ex_iovec (rq_lo r') (rq_hi r' - rq_lo r' + 1)]) as Hiov by (repeat constructor; simpl; lia).
  pose proof (pgo_up _ _ Hok) as Hup. split; [by apply vec_write_success|]. split; [apply pg_ok_set_below; [done|by apply vec_write_up]|].
  intros i. rewrite pp_byte_below. case_decide as Hh.
  - apply Hby. intros Hi. apply Exists_exists in Hh as (pp & Hpp & Hh). by eapply Hno.
  - unfold res. rewrite vec_write_bytes by done. simpl. unfold buf_put. case_decide as Hi.
    + unfold req_put. rewrite decide_True by lia. f_equal. lia.
    + rewrite <- pg_byte_out by done. apply Hby. lia.
Qed.

(** C32: With any number of partial pages but one, over a segment whose writes
    succeed, a write through them returns success and overlays the contents
    with its bytes, whatever part of it was collected, merged, flushed or
    written below. *)
Theorem cache_rw_extent_write st off len buf boff :
  pg_ok n st → n_ppages st ≠ 1%nat → 0 ≤ off → 0 < len →
  ∃ st' status, cache_rw_extent n st CACHE_WRITE (Ex_iovec off len) buf boff = Some (buf, st', status) ∧
    op_st status = OP_STATE_SUCCESS ∧ pg_ok n st' ∧ n_ppages st' = n_ppages st ∧
    ∀ i, seg_byte st' i = buf_put (seg_byte st) off len buf boff i.
Proof.
  intros Hok H1 Hoff Hlen. unfold cache_rw_extent. cbn [iov_offset iov_len]. set (r := Request off (off + len - 1) boff).
  assert (∀ i, req_put r buf (seg_byte st) i = buf_put (seg_byte st) off len buf boff i) as Hput.
  { intros i. unfold req_put, buf_put. cbn [rq_lo rq_hi rq_bpos r]. repeat case_decide; try done; lia. }
  destruct (handle_write_any st r buf Hok ltac:(simpl; lia) H1) as ([[[j r'] buf'] st'] & -> & Hw).
  pose proof Hw as (Hok' & Hnp & -> & Hor). cbn [mbind option_bind]. destruct Hor as [[-> Hby]|[-> _]].
  - cbn. rewrite (decide_False (P := len ≤ 0)) by lia. cbn. do 2 eexists. split; [done|]. split; [apply op_success_state|].
    split; [done|]. split; [done|]. intros i. by rewrite Hby.
  - destruct (below_write st r r' buf st' Hoff Hw) as (Hs & Hok2 & Hby).
    cbn -[segcache_size]. rewrite (decide_False (P := len ≤ 0)) by lia. rewrite (decide_False (P := _ ∨ _)) by (intros [[_ Hm]|Hm]; [done|by apply Hm]).
    destruct (segment_write _ _ _ _) as [below status]. cbn [fst snd] in *. do 2 eexists. split; [done|]. split; [done|]. split; [done|].
    split; [done|]. intros i. by rewrite Hby.
Qed.


Lemma flush_nil st : _cache_ppages_flush_list n st [] = Some (0, st).
Proof. done. Qed.

(** With a single partial page a write to a page that is not there never
    returns: two free pages are asked for, and flushing cannot provide them. *)
Theorem cache_ppages_handle_one_page fuel st r buf :
  n_ppages st = 1%nat → partial_pages st = [] → length (ppages_unused st) = 1%nat → rq_lo r ≤ rq_hi r →
  cache_ppages_handle n fuel st CACHE_WRITE r buf = None.
Proof.
  intros H1 Hp Hu Hr. destruct st as [below pps unused np mx]. simpl in *. subst.
  assert (n_pages n r ≠ 0) as Hnz by (unfold n_pages; pose proof (Z.div_le_mono (rq_lo r) (rq_hi r) n Hn Hr); lia).
  revert mx. induction fuel as [|fuel IH]; intros mx; [done|]. cbn [cache_ppages_handle n_ppages]. rewrite decide_False by done.
  cbn [partial_pages handle_loop mbind option_bind]. cbn [h_flush]. rewrite flush_nil.
  cbn [mbind option_bind h_nhandled]. rewrite (decide_False (P := _ ∨ _)) by (intros [?|?]; [lia|done]).
  cbn [h_lo_mapped h_hi_mapped ppages_unused]. rewrite Hu, decide_True by (simpl; lia).
  unfold _cache_ppages_flush. cbn [ppages_unused n_ppages]. rewrite Hu. rewrite decide_True by done. apply IH.
Qed.
End driver.
