(* ===== verification/CacheDemo.v ===== *)
(** * Partial pages: concrete runs *)
From S2P Require Import Prelude Seg CacheRange CachePPage CachePPageOk CachePPageRd CachePPageRw.
#[local] Open Scope Z_scope.

#[local] Existing Instance gop_std.
#[local] Existing Instance gop_std_ok.

(** Pages of 10 bytes; the page at 10 holds the offsets 12 to 14, and one page
    is free. *)
Definition demo_below : mem_seg := Mem_seg 40 (λ i, 100 + i) true.
Definition demo_page : cache_partial_page := Cache_partial_page 10 19 [(2, 4)] (λ i, 200 + i) 0.
Definition demo_pages : ppages mem_seg := Ppages demo_below [demo_page] [λ _, 0] 2 14.
Definition demo_data : tbuffer := λ p, 1 + p.

Lemma demo_pages_ok : pg_ok 10 demo_pages.
Proof.
  split.
  - reflexivity.
  - split; [simpl; lia|]. split; [by exists 1|]. split; [|done]. split; [done|simpl; lia|by left].
  - repeat constructor. done.
  - reflexivity.
Qed.

(** The contents after a write, and what is left in the pages. *)
Definition demo_after (off len : Z) : option (list Z * list (Z * list range) * bool) :=
  (λ '(_, st, status), (seg_byte st <$> seqZ 5 20, (λ pp, (page_start pp, range_stack pp)) <$> partial_pages st,
    bool_decide (op_st status = OP_STATE_SUCCESS))) <$>
  cache_rw_extent 10 demo_pages CACHE_WRITE (Ex_iovec off len) demo_data 0.

(** A write to both pages stays in them. *)
Example demo_write_pages :
  demo_after 8 9 = Some ([105; 106; 107; 1; 2; 3; 4; 5; 6; 7; 8; 9; 117; 118; 119; 120; 121; 122; 123; 124], [(0, [(8, 9)]); (10, [(0, 6)])], true).
Proof. vm_compute. reflexivity. Qed.

(** One that needs two pages flushes first; the page between goes below. *)
Example demo_write_below :
  demo_after 18 24 =
  Some ([105; 106; 107; 108; 109; 110; 111; 202; 203; 204; 115; 116; 117; 1; 2; 3; 4; 5; 6; 7], [(10, [(2, 4); (8, 9)]); (40, [(0, 1)])], true).
Proof. vm_compute. reflexivity. Qed.

(** A read of what a page holds, and one that has to flush it. *)
Definition demo_read (off len : Z) : option (list Z * list (Z * list range)) :=
  (λ '(buf, st, _), (buf <$> seqZ 0 6, (λ pp, (page_start pp, range_stack pp)) <$> partial_pages st)) <$>
  cache_rw_extent 10 demo_pages CACHE_READ (Ex_iovec off len) (λ _, 0) 1.

Example demo_read_page : demo_read 12 2 = Some ([0; 202; 203; 0; 0; 0], [(10, [(2, 4)])]).
Proof. vm_compute. reflexivity. Qed.
Example demo_read_flush : demo_read 12 4 = Some ([0; 202; 203; 204; 115; 0], []).
Proof. vm_compute. reflexivity. Qed.

(** The ranges of a page that is extended downward to the whole page: it is
    not flagged. *)
Example demo_full_unflagged :
  let '(pp, full) := _cache_ppages_range_merge 10 (Cache_partial_page 0 9 [(5, 9)] (λ _, 0) 0) 0 4 in
  (range_stack pp, pp_flags pp, full) = ([(0, 9)], 0, 0).
Proof. reflexivity. Qed.

(** ** The theorems at these inputs *)
Lemma cache_ppages_range_merge_correct_witness :
  let '(pp', full) := _cache_ppages_range_merge 10 demo_page 3 7 in
  pp_wf 10 pp' ∧ (∀ x, pp_has pp' x ↔ pp_has demo_page x ∨ 3 ≤ x ≤ 7) ∧
  page_start pp' = 10 ∧ pp_data pp' = pp_data demo_page ∧ (pp_flags demo_page = 0 → full = 1 → pp_flags pp' = 1).
Proof.
  apply (cache_ppages_range_merge_correct 10 demo_page 3 7); [|lia|lia]. split; [done|simpl; lia|by left].
Defined.

Lemma cache_rw_extent_write_witness :
  ∃ st' status, cache_rw_extent 10 demo_pages CACHE_WRITE (Ex_iovec 18 24) demo_data 0 = Some (demo_data, st', status) ∧
    op_st status = OP_STATE_SUCCESS ∧ pg_ok 10 st' ∧ n_ppages st' = 2%nat ∧
    ∀ i, seg_byte st' i = buf_put (seg_byte demo_pages) 18 24 demo_data 0 i.
Proof. apply (cache_rw_extent_write 10 ltac:(lia) demo_pages 18 24 demo_data 0 demo_pages_ok); [done|lia|lia]. Defined.


Lemma cache_ppages_handle_one_page_witness :
  cache_ppages_handle 10 7 (Ppages demo_below [] [λ _, 0] 1 (-1)) CACHE_WRITE (Request 3 4 0) demo_data = None.
Proof. apply (cache_ppages_handle_one_page 10 ltac:(lia) 7); [reflexivity|reflexivity|reflexivity|simpl; lia]. Defined.
