(* ===== verification/CPage.v ===== *)
(** * Pages of a cached segment (segment_cache.c)

    The pages a cached segment keeps over its child, how they are read from it
    and written to it, and flushing.  The model is of one thread: where the
    source waits for another one the result is [None], and the theorems show
    that this does not happen.  Pages marked for release by the eviction of
    another thread and the copy of a page that is written while it is flushed
    are left out for the same reason, and the segment has no partial pages. *)
From S2P Require Import Prelude Seg.
From stdpp Require Import gmap.
#[local] Open Scope Z_scope.

Inductive page_mode := CACHE_READ | CACHE_WRITE | CACHE_FLUSH.
#[export] Instance page_mode_eq_dec : EqDecision page_mode.
Proof. solve_decision. Defined.

(** [cache_page_t]: the data (none after a failed read), [C_ISDIRTY] and
    [C_EMPTY] of [bit_fields], and [access_pending]. *)
Record cache_page := Cache_page {
  cp_data : option tbuffer;
  cp_dirty : bool;
  cp_empty : bool;
  cp_read : Z;
  cp_write : Z;
  cp_flush : Z }.

(** [cache_segment_t] and what the cache keeps for it: the pages by offset,
    [child_last_page], [total_size], the dirty bytes of the cache's statistics,
    and the state of the replacement policy. *)
Record cache_segment (S A : Type) := Cache_segment {
  cs_child : S;
  cs_pages : gmap Z cache_page;
  cs_last : Z;
  cs_total : Z;
  cs_dirty_bytes : Z;
  cs_policy : A }.
Arguments Cache_segment {S A}. Arguments cs_child {S A}. Arguments cs_pages {S A}. Arguments cs_last {S A}.
Arguments cs_total {S A}. Arguments cs_dirty_bytes {S A}. Arguments cs_policy {S A}.

Definition cp_set_data p d : cache_page := Cache_page d (cp_dirty p) (cp_empty p) (cp_read p) (cp_write p) (cp_flush p).
Definition cp_set_dirty p b : cache_page := Cache_page (cp_data p) b (cp_empty p) (cp_read p) (cp_write p) (cp_flush p).
Definition cp_set_empty p b : cache_page := Cache_page (cp_data p) (cp_dirty p) b (cp_read p) (cp_write p) (cp_flush p).

(** [access_pending[mode] += k]. *)
Definition cp_pend (mode : page_mode) (k : Z) p : cache_page :=
  match mode with
  | CACHE_READ => Cache_page (cp_data p) (cp_dirty p) (cp_empty p) (cp_read p + k) (cp_write p) (cp_flush p)
  | CACHE_WRITE => Cache_page (cp_data p) (cp_dirty p) (cp_empty p) (cp_read p) (cp_write p + k) (cp_flush p)
  | CACHE_FLUSH => Cache_page (cp_data p) (cp_dirty p) (cp_empty p) (cp_read p) (cp_write p) (cp_flush p + k)
  end.

(** The function table of a cache: [create_empty_page] may drop pages of the
    segment and, when it may block, flush them; it says whether there is a page
    now.  What else the policy is told changes nothing of the segment. *)
Class PageAlloc (S A : Type) := create_empty_page : cache_segment S A → bool → cache_segment S A * bool.

(** ** The pages in order *)

(** The first page from [x] on, which is what [iter_search_skiplist] and
    [next_skiplist] give. *)
Fixpoint first_from (x : Z) (l : list (Z * cache_page)) : option (Z * cache_page) :=
  match l with
  | [] => None
  | op :: l =>
      let r := first_from x l in
      if decide (op.1 < x) then r
      else match r with
           | Some op' => if decide (op.1 ≤ op'.1) then Some op else r
           | None => Some op
           end
  end.
Definition next_page (pages : gmap Z cache_page) (x : Z) : option (Z * cache_page) := first_from x (map_to_list pages).

Definition full_page_overlap (poff psize lo hi : Z) : bool := bool_decide (lo ≤ poff ∧ poff + psize - 1 ≤ hi).

Section page.
Context {S A : Type} `{!Segment S, !Gop}.
Context (page_size : Z).
Implicit Types (st : cache_segment S A).

Definition cs_set_pages st pages : cache_segment S A :=
  Cache_segment (cs_child st) pages (cs_last st) (cs_total st) (cs_dirty_bytes st) (cs_policy st).
Definition cs_set_page st (o : Z) p : cache_segment S A := cs_set_pages st (<[o := p]> (cs_pages st)).
Definition cs_set_child st child : cache_segment S A :=
  Cache_segment child (cs_pages st) (cs_last st) (cs_total st) (cs_dirty_bytes st) (cs_policy st).
Definition cs_set_last st last : cache_segment S A :=
  Cache_segment (cs_child st) (cs_pages st) last (cs_total st) (cs_dirty_bytes st) (cs_policy st).
Definition cs_set_total st total : cache_segment S A :=
  Cache_segment (cs_child st) (cs_pages st) (cs_last st) total (cs_dirty_bytes st) (cs_policy st).

(** The dirty bytes of the function table's [adjust_dirty]. *)
Definition adjust_dirty st (tweak : Z) : cache_segment S A :=
  Cache_segment (cs_child st) (cs_pages st) (cs_last st) (cs_total st) (cs_dirty_bytes st + tweak) (cs_policy st).

(** A change of one page that is there. *)
Definition on_page st (o : Z) (f : cache_page → cache_page) : option (cache_segment S A) :=
  p ← cs_pages st !! o; Some (cs_set_page st o (f p)).

(** ** Releasing pages *)

Definition release_page (mode : page_mode) st (o : Z) : option (cache_segment S A) :=
  p ← cs_pages st !! o;
  let p := cp_pend mode (-1) p in
  match mode with
  | CACHE_READ => Some (cs_set_page st o p)
  | CACHE_WRITE =>
      let p := cp_set_empty p false in
      if cp_dirty p then Some (cs_set_page st o p)
      else Some (adjust_dirty (cs_set_page st o (cp_set_dirty p true)) page_size)
  | CACHE_FLUSH => Some (adjust_dirty (cs_set_page st o (cp_set_dirty p (negb (cp_dirty p)))) (- page_size))
  end.

Fixpoint cache_release_pages (mode : page_mode) st (l : list Z) : option (cache_segment S A) :=
  match l with
  | [] => Some st
  | o :: l => st ← release_page mode st o; cache_release_pages mode st l
  end.

(** ** Reading and writing pages of the child

    The handles are the offsets of pages in [cs_pages]. *)
Definition has_data st (o : Z) : bool :=
  match cs_pages st !! o with Some p => bool_decide (is_Some (cp_data p)) | None => false end.

(** The contiguous runs: [cur] is the run that is open, and the offset that
    would continue it.  A page without data is not the start of a run. *)
Fixpoint contig_runs st (l : list Z) (cur : option (list Z * Z)) : list (list Z) :=
  match l with
  | [] => match cur with None => [] | Some (run, _) => [run] end
  | o :: l =>
      let start := if has_data st o then Some ([o], o + page_size) else None in
      match cur with
      | None => contig_runs st l start
      | Some (run, off) =>
          if decide (o = off) then contig_runs st l (Some (run ++ [o], o + page_size))
          else run :: contig_runs st l start
      end
  end.

(** The pages that are in no run. *)
Fixpoint blank_pages st (l : list Z) (cur : option Z) : list Z :=
  match l with
  | [] => []
  | o :: l =>
      if decide (cur = Some o) then blank_pages st l (Some (o + page_size))
      else if has_data st o then blank_pages st l (Some (o + page_size))
      else o :: blank_pages st l None
  end.

(** The data of the run, one page after the other. *)
Fixpoint run_buf st (run : list Z) : tbuffer := λ x,
  match run with
  | [] => 0
  | o :: run =>
      if decide (x < page_size) then
        match cs_pages st !! o with Some p => from_option (λ d, d x) 0 (cp_data p) | None => 0 end
      else run_buf st run (x - page_size)
  end.

(** The pages of a run take their part of the buffer, or lose their data. *)
Fixpoint run_fill st (run : list Z) (data : option tbuffer) : option (cache_segment S A) :=
  match run with
  | [] => Some st
  | o :: run =>
      st ← on_page st o (λ p, cp_set_data p data);
      run_fill st run ((λ d x, d (x + page_size)) <$> data)
  end.

Fixpoint clear_empty st (l : list Z) : option (cache_segment S A) :=
  match l with
  | [] => Some st
  | o :: l => st ← on_page st o (λ p, cp_set_empty p false); clear_empty st l
  end.

(** One run: the operation on the child and what is done when it is complete.
    The second component is the number of errors. *)
Definition do_run st (mode : page_mode) (do_release : bool) (run : list Z) : option (cache_segment S A * Z) :=
  start ← head run;
  last_page ← last run;
  let iov := [Ex_iovec start (page_size * Z.of_nat (length run))] in
  '(st, errors) ←
    match mode with
    | CACHE_READ =>
        let '(child, data, status) := segment_read (cs_child st) iov (run_buf st run) 0 in
        let ok := bool_decide (op_st status = OP_STATE_SUCCESS) in
        st ← run_fill (cs_set_child st child) run (if ok then Some data else None);
        Some (st, if ok then 0 else Z.of_nat (length run))
    | _ =>
        let '(child, _) := segment_write (cs_child st) iov (run_buf st run) 0 in
        let st := cs_set_child st child in
        Some (if decide (last_page > cs_last st) then cs_set_last st last_page else st, 0)
    end;
  st ← clear_empty st run;
  st ← (if do_release then cache_release_pages mode st run else Some st);
  Some (st, errors).

Fixpoint do_runs st (mode : page_mode) (do_release : bool) (runs : list (list Z)) : option (cache_segment S A * Z) :=
  match runs with
  | [] => Some (st, 0)
  | run :: runs =>
      '(st, e1) ← do_run st mode do_release run;
      '(st, e2) ← do_runs st mode do_release runs;
      Some (st, e1 + e2)
  end.

Definition cache_rw_pages st (plist : list Z) (mode : page_mode) (do_release : bool) : option (cache_segment S A * Z) :=
  let runs := contig_runs st plist None in
  let blanks := blank_pages st plist None in
  st ← clear_empty st blanks;
  st ← (if do_release then cache_release_pages mode st blanks else Some st);
  do_runs st mode do_release runs.

(** ** Flushing *)
Definition to_flush p : bool := cp_dirty p && bool_decide (¬ cp_flush p > 0).

(** The first dirty page from [cur] on; pages after [hi] are not looked at,
    apart from the one to begin with. *)
Fixpoint first_dirty (fuel : nat) (pages : gmap Z cache_page) (hi : Z) (cur : Z * cache_page) : option (option (Z * cache_page)) :=
  match fuel with
  | O => None
  | Datatypes.S fuel =>
      if to_flush cur.2 then Some (Some cur)
      else match next_page pages (cur.1 + 1) with
           | None => Some None
           | Some cur => if decide (cur.1 > hi) then Some None else first_dirty fuel pages hi cur
           end
  end.

(** The same further on: the page, [old_hi], and whether to stop. *)
Fixpoint next_dirty (fuel : nat) (pages : gmap Z cache_page) (hi : Z) (cur : Z * cache_page)
    : option (option (Z * cache_page) * Z * bool) :=
  match fuel with
  | O => None
  | Datatypes.S fuel =>
      if to_flush cur.2 then Some (Some cur, cur.1, false)
      else match next_page pages (cur.1 + 1) with
           | None => Some (None, cur.1 + page_size, true)
           | Some cur' => if decide (cur'.1 > hi) then Some (Some cur', cur'.1, true) else next_dirty fuel pages hi cur'
           end
  end.

(** The pages found, and [hi_got]. *)
Fixpoint dirty_loop (fuel : nat) st (hi : Z) (max_pages : nat) (skip : bool) (cur : option (Z * cache_page)) (hi_got : Z) (found : list Z)
    : option (cache_segment S A * list Z * Z) :=
  match fuel, cur with
  | O, _ => None
  | _, None => Some (st, found, hi_got)
  | Datatypes.S fuel, Some (o, p) =>
      let can_get := bool_decide (cp_write p = 0) in
      if Bool.eqb skip can_get then Some (st, found, hi_got)
      else
        let old_hi := hi_got in
        let hi_got := if decide (o > hi) then old_hi else o + page_size - 1 in
        let err := bool_decide (o > hi) in
        if decide ((length found < max_pages)%nat ∧ o < hi_got) then
          st ← (if skip then Some st else on_page st o (cp_pend CACHE_FLUSH 1));
          let found := if skip then found else found ++ [o] in
          let err := err || (negb skip && bool_decide (max_pages ≤ length found)%nat) in
          match next_page (cs_pages st) (o + 1) with
          | None => Some (st, found, hi_got)
          | Some cur =>
              if err : bool then Some (st, found, hi_got)
              else
                '(cur, old_hi, err) ← next_dirty fuel (cs_pages st) hi cur;
                if err : bool then Some (st, found, old_hi - 1)
                else dirty_loop fuel st hi max_pages skip cur (old_hi - 1) found
          end
        else Some (st, found, hi_got)
  end.

Definition page_row (x : Z) : Z := x / page_size * page_size.

(** The pages, how far it came, and the mode: whether pages were skipped. *)
Definition cache_dirty_pages_get st (block : bool) (lo hi : Z) (max_pages : nat)
    : option (cache_segment S A * list Z * Z * bool) :=
  let fuel := Datatypes.S (Datatypes.S (size (cs_pages st))) in
  cur ← match next_page (cs_pages st) (page_row lo) with
        | None => Some None
        | Some cur => first_dirty fuel (cs_pages st) hi cur
        end;
  let writing := match cur with Some (_, p) => bool_decide (cp_write p ≠ 0) | None => false end in
  if block && match cur with Some (_, p) => bool_decide (cp_write p > 0) | None => false end then None
  else
    '(st, found, hi_got) ← dirty_loop fuel st hi max_pages writing cur lo [];
    let hi_got := if decide (found = []) then hi else hi_got in
    Some (st, found, if decide (hi_got > hi) then hi else hi_got, writing).

(** [CACHE_MAX_PAGES_RETURNED]. *)
Definition max_pages : nat := 1000.

(** The loop of the flush: the ranges to do, whether to block, whether there
    was progress, and the status of the last write. *)
Fixpoint flush_loop (fuel : nat) st (hi0 : Z) (block progress : bool) (todo : list (Z * Z)) (ok : bool) : option (cache_segment S A * bool) :=
  match fuel, todo with
  | O, _ => None
  | _, [] => Some (st, ok)
  | Datatypes.S fuel, (lo, hi) :: todo =>
      '(st, found, hi_got, skip) ← cache_dirty_pages_get st block lo hi max_pages;
      '(st, todo, progress, ok) ←
        (if negb skip then
           '(st, errors) ← (if decide (found = []) then Some (st, 0) else cache_rw_pages st found CACHE_FLUSH true);
           Some (st, if decide (hi > hi_got) then (hi_got + 1, hi) :: todo else todo, true, bool_decide (errors = 0))
         else if decide (hi_got = lo) then Some (st, todo ++ [(lo, hi)], progress, ok)
         else
           let todo := todo ++ [(lo, hi_got)] in
           Some (st, if decide (hi_got < hi) then (hi_got + 1, hi) :: todo else todo, progress, ok));
      if decide (hi_got = hi0) then flush_loop fuel st hi0 (block || negb progress) false todo ok
      else flush_loop fuel st hi0 block progress todo ok
  end.

(** Without partial pages [ppage_max] is -1. *)
Definition segcache_size st : Z := if decide (cs_total st > 0) then cs_total st else 0.

(** [len = -1] is the whole segment; no other flush is running to wait for. *)
Definition cache_flush_range_func (fuel : nat) st (lo len : Z) : option (cache_segment S A * op_status) :=
  let len := if decide (len = -1) then segcache_size st else len in
  let hi := lo + len - 1 in
  if decide (hi = -1) then Some (st, op_success_status)
  else
    '(st, ok) ← flush_loop fuel st hi false false [(lo, hi)] true;
    Some (st, if ok : bool then op_success_status else op_failure_status).

Definition cache_flush_range (fuel : nat) st (lo hi : Z) : option (cache_segment S A * op_status) :=
  cache_flush_range_func fuel st lo (if decide (hi = -1) then -1 else hi - lo + 1).
End page.
