(* ===== verification/CPageGet.v ===== *)
(** * Requests on the pages of a cached segment (segment_cache.c)

    How a request gets its pages: those that are there are used at once, missing
    ones are made when the policy has room, and what is left is forced one page
    at a time.  One thread, as in [CPage]. *)
From S2P Require Import Prelude Seg CPage.
From stdpp Require Import gmap.
#[local] Open Scope Z_scope.

Section get.
Context {S A : Type} `{!Segment S, !Gop, !PageAlloc S A}.
Context (page_size : Z).
Implicit Types (st : cache_segment S A) (buf : tbuffer).

(** ** Pages *)

(** A page as [create_empty_page] and [s_cache_page_init] leave it. *)
Definition blank_page : cache_page := Cache_page (Some (λ _, 0)) false true 0 0 0.

(** Whether [_cache_wait_for_page] has to wait. *)
Definition would_wait (mode : page_mode) p : bool :=
  match mode with
  | CACHE_WRITE => bool_decide (cp_flush p > 0) || cp_empty p
  | _ => cp_empty p
  end.

(** The page is there: it is held for reading while it is waited for. *)
Definition hold_page st (mode : page_mode) (o : Z) : option (cache_segment S A) :=
  p ← cs_pages st !! o;
  if would_wait mode (cp_pend CACHE_READ 1 p) then None
  else Some (cs_set_page st o (cp_pend CACHE_READ (-1) (cp_pend mode 1 (cp_pend CACHE_READ 1 p)))).

Definition cache_page_force_get st (mode : page_mode) (poff lo hi : Z) : option (cache_segment S A * Z) :=
  let off := page_row page_size poff in
  match cs_pages st !! off with
  | Some _ => st ← hold_page st mode off; Some (st, off)
  | None =>
      let '(st, ok) := create_empty_page st true in
      if negb ok then None
      else match cs_pages st !! off with
      | Some _ => st ← hold_page st mode off; Some (st, off)
      | None =>
          let st := cs_set_page st off (cp_pend mode 1 blank_page) in
          st ← match mode with
               | CACHE_READ =>
                   if decide (cs_last st >= off) then fst <$> cache_rw_pages page_size st [off] CACHE_READ false
                   else on_page st off (λ p, cp_set_dirty (cp_set_empty p false) false)
               | CACHE_WRITE =>
                   if negb (full_page_overlap off page_size lo hi) && bool_decide (cs_last st >= off)
                   then fst <$> cache_rw_pages page_size st [off] CACHE_READ false
                   else Some st
               | CACHE_FLUSH => Some st
               end;
          Some (st, off)
      end
  end.

(** ** Fetching pages *)

(** The loop of [cache_advise_fn] over [rows] pages from [coff] on. *)
Fixpoint advise_loop (rows : nat) st (coff : Z) (mode : page_mode) (max_pages : nat) (force_wait : bool) (got : list Z)
    : cache_segment S A * list Z :=
  match rows with
  | O => (st, got)
  | Datatypes.S rows =>
      if decide (fst <$> next_page (cs_pages st) coff = Some coff) then (st, got)
      else
        let '(st, ok) := create_empty_page st false in
        let '(st, ok) :=
          if negb ok && force_wait && bool_decide (got = []) then create_empty_page st force_wait else (st, ok) in
        if negb ok then (st, got)
        else match cs_pages st !! coff with
        | None =>
            let st := cs_set_page st coff (cp_pend mode 1 blank_page) in
            let got := got ++ [coff] in
            if decide (max_pages ≤ length got)%nat then (st, got)
            else advise_loop rows st (coff + page_size) mode max_pages force_wait got
        | Some _ => advise_loop rows st (coff + page_size) mode max_pages force_wait got
        end
  end.

Definition n_rows (lo hi : Z) : Z := hi / page_size - lo / page_size + 1.

(** Only reads fetch pages. *)
Definition cache_advise_fn (fuel : nat) st (mode : page_mode) (lo hi : Z) (max_pages : nat) (force_wait : bool)
    : option (cache_segment S A * list Z) :=
  if decide (mode ≠ CACHE_READ) then Some (st, [])
  else
    let '(st, got) := advise_loop (Z.to_nat (n_rows lo hi)) st (page_row page_size lo) mode max_pages force_wait [] in
    if decide (got = []) then Some (st, got)
    else
      st ← (if decide (segment_size (cs_child st) < segcache_size st) then fst <$> cache_flush_range page_size fuel st 0 (-1) else Some st);
      '(st, _) ← cache_rw_pages page_size st got mode false;
      Some (st, got).

(** The pages of the rows from [lo_row] to [hi_row]. *)
Definition pages_between st (lo_row hi_row : Z) : nat :=
  length (filter (λ op : Z * cache_page, lo_row ≤ op.1 ≤ hi_row) (map_to_list (cs_pages st))).

Definition cache_advise (fuel : nat) st (mode : page_mode) (lo hi : Z) (max_pages : nat) (force_wait : bool)
    : option (cache_segment S A * list Z) :=
  let nbytes := n_rows lo hi * page_size - page_size * Z.of_nat (pages_between st (page_row page_size lo) (page_row page_size hi)) in
  if decide (nbytes > 0) then cache_advise_fn fuel st mode lo hi max_pages force_wait else Some (st, []).

(** ** Reads *)

(** Where the page at [o] and the request meet: in the page, in the buffer, and
    how much. *)
Definition page_piece (o lo hi bpos : Z) : Z * Z * Z :=
  let '(ppos, bpos) := if decide (lo >= o) then (lo - o, bpos) else (0, bpos + o - lo) in
  (ppos, bpos, if decide (hi < o + page_size) then hi - (o + ppos) + 1 else page_size - ppos).

(** The pages from [cur] on that follow each other: how far they go, how many
    they are, and the buffer. *)
Fixpoint read_loop (fuel : nat) st (lo hi bpos : Z) (skip : bool) (cur : Z * cache_page) (hi_got : Z) (n : nat) buf
    : option (Z * nat * tbuffer) :=
  match fuel with
  | O => None
  | Datatypes.S fuel =>
      let '(o, p) := cur in
      if Bool.eqb skip (negb (cp_empty p)) then Some (hi_got, n, buf)
      else if decide (o > hi) then Some (hi_got, n, buf)
      else
        let hi_got := o + page_size - 1 in
        '(n, buf) ←
          (if skip then Some (n, buf)
           else
             d ← cp_data p;
             let '(ppos, bpos, len) := page_piece o lo hi bpos in
             Some (Datatypes.S n, buf_put buf bpos len d ppos));
        match next_page (cs_pages st) (o + 1) with
        | None => Some (hi_got, n, buf)
        | Some cur =>
            if decide (hi_got = cur.1 - 1) then read_loop fuel st lo hi bpos skip cur hi_got n buf
            else Some (hi_got, n, buf)
        end
  end.

(** The pages from the first one on, [cur] if it is there, and the forced ones. *)
Definition read_pages_from (fuel : nat) st (block : bool) (lo hi : Z) buf (bpos : Z) (cur : option (Z * cache_page))
    : option (cache_segment S A * tbuffer * bool * Z * list Z) :=
  let lo_row := page_row page_size lo in
  let hi_row := page_row page_size hi in
  let skip := match cur with Some (_, p) => cp_empty p | None => false end in
  if block && skip then None
  else
    '(hi_got, n, buf) ←
      match cur with
      | Some cur => read_loop (Datatypes.S (size (cs_pages st))) st lo hi bpos skip cur lo 0 buf
      | None => Some (lo, 0%nat, buf)
      end;
    '(st, hi_got, skip, pages) ←
      (if decide (n = 0%nat ∧ block = true) then
         '(st, got) ← cache_advise fuel st CACHE_READ lo_row hi_row max_pages false;
         match last got with
         | Some o => Some (st, o + page_size - 1, skip, got)
         | None =>
             '(st, o) ← cache_page_force_get st CACHE_READ lo_row lo hi;
             Some (st, lo_row + page_size - 1, false, [o])
         end
       else Some (st, hi_got, skip, []));
    Some (st, buf, skip || (bool_decide (pages = []) && bool_decide (n = 0%nat)), hi_got, pages).

(** The buffer, whether nothing was got, how far it came, and the pages that
    are left to copy. *)
Definition cache_read_pages_get (fuel : nat) st (block : bool) (lo hi : Z) buf (bpos : Z)
    : option (cache_segment S A * tbuffer * bool * Z * list Z) :=
  let lo_row := page_row page_size lo in
  let hi_row := page_row page_size hi in
  match next_page (cs_pages st) lo_row with
  | Some (o, p) =>
      if decide (o = lo_row) then read_pages_from fuel st block lo hi buf bpos (Some (o, p))
      else if decide (o ≤ hi_row ∧ block = false) then Some (st, buf, true, o - 1, [])
      else read_pages_from fuel st block lo hi buf bpos None
  | None => read_pages_from fuel st block lo hi buf bpos None
  end.

(** ** Writes *)

(** The request is copied into the page at [o]. *)
Definition write_piece st (o lo hi : Z) buf (bpos : Z) : option (cache_segment S A) :=
  p ← cs_pages st !! o;
  d ← cp_data p;
  let '(ppos, bpos, len) := page_piece o lo hi bpos in
  Some (cs_set_page st o (cp_set_data p (Some (buf_put d ppos len buf bpos)))).

(** The variables of [cache_write_pages_get]: how far it came, the number of
    pages, and the pages to load, for which there is room for two. *)
Record write_vars := Write_vars { wv_hi_got : Z; wv_n : nat; wv_pload : list Z }.

(** A new page at [coff]: the request is copied into it now, or after the rest
    of the page is loaded from the child. *)
Definition add_blank st (coff lo hi : Z) buf (bpos : Z) (w : write_vars) : option (cache_segment S A * write_vars) :=
  let st := cs_set_page st coff blank_page in
  let load := negb (full_page_overlap coff page_size lo hi) && bool_decide (cs_last st >= coff) in
  st ← (if load then on_page st coff (cp_pend CACHE_WRITE 1) else Some st);
  pload ← (if load then if decide (length (wv_pload w) < 2)%nat then Some (wv_pload w ++ [coff]) else None
           else Some (wv_pload w));
  st ← on_page st coff (λ p, cp_set_dirty p true);
  let st := adjust_dirty st page_size in
  st ← (if load then Some st
        else st ← on_page st coff (λ p, cp_set_empty p false); write_piece st coff lo hi buf bpos);
  Some (st, Write_vars (coff + page_size - 1) (Datatypes.S (wv_n w)) pload).

(** New pages from [coff] up to [pstart] as long as the policy gives them;
    [np] is whether there is one. *)
Fixpoint blank_loop (fuel : nat) st (coff pstart : Z) (np : bool) (lo hi : Z) buf (bpos : Z) (w : write_vars)
    : option (cache_segment S A * Z * write_vars) :=
  match fuel with
  | O => None
  | Datatypes.S fuel =>
      if negb np || bool_decide (¬ coff < pstart) then Some (st, coff, w)
      else
        '(st, w) ← add_blank st coff lo hi buf bpos w;
        let coff := coff + page_size in
        let '(st, np) := if decide (coff < pstart) then create_empty_page st false else (st, np) in
        blank_loop fuel st coff pstart np lo hi buf bpos w
  end.

(** The request is copied into a page that was there. *)
Definition write_hit st (o lo hi : Z) buf (bpos : Z) : option (cache_segment S A) :=
  p ← cs_pages st !! o;
  let st := cs_set_page st o (cp_set_dirty (cp_set_empty p false) true) in
  let st := if cp_dirty p then st else adjust_dirty st page_size in
  write_piece st o lo hi buf bpos.

(** The pages from [cur] on; [pcheck] is the page that is held so that it stays
    while the hole before it is filled. *)
Fixpoint write_loop (fuel : nat) st (lo hi : Z) buf (bpos : Z) (skip : bool) (cur : option Z) (pcheck : option Z) (w : write_vars)
    : option (cache_segment S A * option Z * write_vars) :=
  match fuel, cur with
  | O, _ => None
  | _, None => Some (st, pcheck, w)
  | Datatypes.S fuel, Some o =>
      p ← cs_pages st !! o;
      let can_get := negb (cp_empty p) && bool_decide (¬ cp_read p > 0) in
      if can_get && bool_decide (cp_flush p > 0) then None
      else if Bool.eqb skip can_get then Some (st, pcheck, w)
      else if decide (o > hi) then Some (st, pcheck, w)
      else
        let w := Write_vars (o + page_size - 1) (wv_n w) (wv_pload w) in
        '(st, pcheck, w) ←
          (if skip then Some (st, pcheck, w)
           else
             '(st, pcheck) ← (if decide (pcheck = Some o) then st ← on_page st o (cp_pend CACHE_READ (-1)); Some (st, None)
                              else Some (st, pcheck));
             st ← write_hit st o lo hi buf bpos;
             Some (st, pcheck, Write_vars (wv_hi_got w) (Datatypes.S (wv_n w)) (wv_pload w)));
        match fst <$> next_page (cs_pages st) (o + 1) with
        | None => Some (st, pcheck, w)
        | Some o' =>
            if decide (wv_hi_got w ≠ o' - 1 ∧ skip = false) then
              let coff := wv_hi_got w + 1 in
              let pstart := if decide (o' > hi) then hi else o' in
              st ← on_page st o' (cp_pend CACHE_READ 1);
              let '(st, np) := if decide (coff < pstart) then create_empty_page st false else (st, false) in
              '(st, coff, w) ← blank_loop (Z.to_nat (n_rows coff pstart) + 1) st coff pstart np lo hi buf bpos w;
              if decide (coff < pstart) then Some (st, Some o', w)
              else write_loop fuel st lo hi buf bpos skip (fst <$> next_page (cs_pages st) o') (Some o') w
            else write_loop fuel st lo hi buf bpos skip (Some o') pcheck w
        end
  end.

(** The first page: it is there, or new pages are made up to the next one. *)
Definition write_first st (block : bool) (lo hi : Z) buf (bpos : Z)
    : option (cache_segment S A * bool * bool * option Z * option Z * write_vars) :=
  let lo_row := page_row page_size lo in
  let cur := fst <$> next_page (cs_pages st) lo_row in
  let w := Write_vars lo 0 [] in
  if decide (cur = Some lo_row) then
    p ← cs_pages st !! lo_row;
    let busy := cp_empty p || bool_decide (cp_read p > 0) in
    if (negb busy && bool_decide (cp_flush p > 0)) || (block && busy) then None
    else Some (st, busy, true, cur, None, w)
  else
    let pstart := match cur with Some o => if decide (o > hi) then hi else o | None => hi end in
    st ← match cur with Some o => on_page st o (cp_pend CACHE_READ 1) | None => Some st end;
    let '(st, np) := create_empty_page st false in
    '(st, coff, w) ← blank_loop (Z.to_nat (n_rows lo_row pstart) + 1) st lo_row pstart np lo hi buf bpos w;
    Some (st, false, bool_decide (¬ coff < pstart), cur, cur, w).

Fixpoint write_pieces st (l : list Z) (lo hi : Z) buf (bpos : Z) : option (cache_segment S A) :=
  match l with
  | [] => Some st
  | o :: l => st ← write_piece st o lo hi buf bpos; write_pieces st l lo hi buf bpos
  end.

(** Whether nothing was written, and how far it came. *)
Definition cache_write_pages_get st (block : bool) (lo hi : Z) buf (bpos : Z) : option (cache_segment S A * bool * Z) :=
  let lo_row := page_row page_size lo in
  '(st, skip, go, cur, pcheck, w) ← write_first st block lo hi buf bpos;
  '(st, pcheck, w) ←
    (if go : bool then write_loop (Z.to_nat (n_rows lo hi) + 2) st lo hi buf bpos skip cur pcheck w else Some (st, pcheck, w));
  st ← match pcheck with Some o => cache_release_pages page_size CACHE_READ st [o] | None => Some st end;
  '(st, skip, w) ←
    (if decide (wv_n w = 0%nat ∧ block = true) then
       '(st, o) ← cache_page_force_get st CACHE_WRITE lo_row lo hi;
       Some (st, false, Write_vars (lo_row + page_size - 1) 1 [o])
     else
       st ← (if decide (wv_pload w = []) then Some st else fst <$> cache_rw_pages page_size st (wv_pload w) CACHE_READ false);
       Some (st, skip, w));
  st ← write_pieces st (wv_pload w) lo hi buf bpos;
  st ← cache_release_pages page_size CACHE_WRITE st (wv_pload w);
  Some (st, skip || bool_decide (wv_n w = 0%nat), wv_hi_got w).

(** ** Requests *)

(** [cache_range_t] without the index of the extent. *)
Record cache_range := Cache_range { cr_lo : Z; cr_hi : Z; cr_boff : Z }.

(** The pages that were fetched are copied and released. *)
Definition copy_pages st (pages : list Z) (cr : cache_range) (hi_got : Z) buf : option (cache_segment S A * tbuffer) :=
  match pages with
  | [] => Some (st, buf)
  | pstart :: _ =>
      let plen := hi_got - pstart + 1 in
      let '(poff, bpos) := if decide (cr_lo cr >= pstart) then (cr_lo cr - pstart, cr_boff cr)
                           else (0, cr_boff cr + pstart - cr_lo cr) in
      let len := plen - poff in
      let blen := cr_hi cr - cr_lo cr + 1 in
      let blen := if decide (blen > len) then len else blen in
      if forallb (has_data st) pages then
        let buf := buf_put buf bpos blen (run_buf page_size st pages) poff in
        st ← cache_release_pages page_size CACHE_READ st pages;
        Some (st, buf)
      else None
  end.

(** The pages of one range; a write returns no pages to copy. *)
Definition get_range (fuel : nat) st (m : page_mode) (block : bool) (cr : cache_range) buf
    : option (cache_segment S A * tbuffer * bool * Z) :=
  match m with
  | CACHE_READ =>
      '(st, buf, skip, hi_got, pages) ← cache_read_pages_get fuel st block (cr_lo cr) (cr_hi cr) buf (cr_boff cr);
      let hi_got := if decide (hi_got > cr_hi cr) then cr_hi cr else hi_got in
      if skip : bool then Some (st, buf, skip, hi_got)
      else '(st, buf) ← copy_pages st pages cr hi_got buf; Some (st, buf, skip, hi_got)
  | _ =>
      '(st, skip, hi_got) ← cache_write_pages_get st block (cr_lo cr) (cr_hi cr) buf (cr_boff cr);
      Some (st, buf, skip, if decide (hi_got > cr_hi cr) then cr_hi cr else hi_got)
  end.

Definition range_rest (cr : cache_range) (hi_got : Z) : cache_range :=
  Cache_range (hi_got + 1) (cr_hi cr) (cr_boff cr + hi_got + 1 - cr_lo cr).

(** The ranges that are left, and how many are added at the top. *)
Definition requeue (cr : cache_range) (skip : bool) (hi_got : Z) (todo : list cache_range) : list cache_range * Z :=
  if negb skip then
    if decide (hi_got < cr_hi cr) then (range_rest cr hi_got :: todo, 1) else (todo, 0)
  else if decide (hi_got = cr_lo cr) then (todo ++ [cr], 0)
  else
    let todo := todo ++ [Cache_range (cr_lo cr) hi_got (cr_boff cr)] in
    if decide (hi_got < cr_hi cr) then (range_rest cr hi_got :: todo, 1) else (todo, 0).

(** The loop over the ranges: after a round without progress it blocks. *)
Fixpoint rw_loop (fuel : nat) (flush_fuel : nat) st (m : page_mode) (block progress : bool) (top_cnt : Z) (todo : list cache_range) buf
    : option (cache_segment S A * tbuffer) :=
  match fuel, todo with
  | O, _ => None
  | _, [] => Some (st, buf)
  | Datatypes.S fuel, cr :: todo =>
      '(st, buf, skip, hi_got) ← get_range flush_fuel st m block cr buf;
      let progress := progress || negb skip in
      let '(todo, added) := requeue cr skip hi_got todo in
      let top_cnt := top_cnt + added - 1 in
      if decide (top_cnt ≤ 0)
      then rw_loop fuel flush_fuel st m (block || negb progress) false (Z.of_nat (length todo)) todo buf
      else rw_loop fuel flush_fuel st m block progress top_cnt todo buf
  end.

(** The ranges of the extents; each is pushed on the stack. *)
Fixpoint push_ranges (iov : list ex_iovec) (boff : Z) (todo : list cache_range) : list cache_range :=
  match iov with
  | [] => todo
  | v :: iov =>
      push_ranges iov (boff + iov_len v) (Cache_range (iov_offset v) (iov_offset v + iov_len v - 1) boff :: todo)
  end.

(** [new_size]: the end of the request, if it does not end at offset 0. *)
Definition rw_new_size (iov : list ex_iovec) : Z :=
  let last := foldl (λ m v, if decide (m < iov_offset v + iov_len v - 1) then iov_offset v + iov_len v - 1 else m) 0 iov in
  if decide (last > 0) then last + 1 else last.

(** [cache_rw_func] for a segment without partial pages. *)
Definition cache_rw_func (fuel flush_fuel : nat) st (m : page_mode) (iov : list ex_iovec) buf (boff : Z)
    : option (cache_segment S A * tbuffer * op_status) :=
  let rerr := existsb (λ v, bool_decide (iov_len v ≤ 0)) iov in
  let new_size := rw_new_size iov in
  if decide (iov = []) then Some (st, buf, op_success_status)
  else if (bool_decide (new_size > segcache_size st) && bool_decide (m = CACHE_READ)) || rerr then Some (st, buf, op_failure_status)
  else
    '(st, buf) ← rw_loop fuel flush_fuel st m false false (Z.of_nat (length iov)) (push_ranges iov boff []) buf;
    let st := if bool_decide (m = CACHE_WRITE) && bool_decide (cs_total st < new_size) then cs_set_total st new_size else st in
    Some (st, buf, op_success_status).

(** ** Dropping pages and resizing *)

(** The pages from [lo] on that lie before [hi]; a page with [lo] inside it
    stays.  A page that is in use is waited for. *)
Definition cache_page_drop st (lo hi : Z) : option (cache_segment S A) :=
  let lo_row := page_row page_size lo in
  let lo_row := if decide (lo ≠ lo_row) then lo_row + 1 else lo_row in
  if decide (lo_row > page_row page_size hi) then Some st
  else
    let doomed := λ op : Z * cache_page, lo_row ≤ op.1 ∧ op.1 < hi in
    if forallb (λ op, bool_decide (cp_read op.2 + cp_write op.2 + cp_flush op.2 = 0)) (filter doomed (map_to_list (cs_pages st)))
    then Some (cs_set_pages st (filter (λ op, ¬ doomed op) (cs_pages st)))
    else None.

(** [xot_max] is the largest offset, which the toolbox defines. *)
Definition segcache_truncate (xot_max : Z) (fuel : nat) st (new_size : Z) : option (cache_segment S A * op_status) :=
  if decide (new_size < 0) then
    let '(child, status) := segment_truncate (cs_child st) new_size in Some (cs_set_child st child, status)
  else
    let old_size := cs_total st in
    let st := cs_set_total st new_size in
    st ← (if decide (new_size < old_size) then cache_page_drop st new_size xot_max else Some st);
    '(st, err1) ← cache_flush_range page_size fuel st 0 new_size;
    let '(child, err2) := segment_truncate (cs_child st) new_size in
    let st := cs_set_child st child in
    let size := segment_size child in
    let st := cs_set_last st (if decide (size > 0) then page_row page_size (size - 1) else -1) in
    Some (st, if decide (op_st err1 = OP_STATE_SUCCESS ∧ op_st err2 = OP_STATE_SUCCESS) then op_success_status else op_failure_status).
End get.
