(* ===== verification/CPageOk.v ===== *)
(** * Pages of a cached segment: the contents

    What a cached segment holds, the invariant of its pages, and what is
    expected of the replacement policy. *)
From S2P Require Import Prelude Seg CPage.
From stdpp Require Import gmap.
#[local] Open Scope Z_scope.

(** ** Pages in order *)
Lemma first_from_spec x l :
  match first_from x l with
  | Some (o, p) => (o, p) ∈ l ∧ x ≤ o ∧ ∀ o' p', (o', p') ∈ l → x ≤ o' → o ≤ o'
  | None => ∀ o p, (o, p) ∈ l → o < x
  end.
Proof.
  induction l as [|[o p] l IH]; cbn [first_from fst]; [by intros ? ? ?%not_elem_of_nil|].
  destruct (first_from x l) as [[o1 p1]|]; destruct (decide (o < x)) as [Hlt|Hge].
  - destruct IH as (H1 & H2 & H3). split; [by right|]. split; [done|]. intros o' p' [[= -> ->]|Hin]%elem_of_cons Hx; [lia|eauto].
  - destruct IH as (H1 & H2 & H3). cbn [fst]. case_decide as Hle.
    + split; [by left|]. split; [lia|]. intros o' p' [[= -> ->]|Hin]%elem_of_cons Hx; [lia|]. specialize (H3 _ _ Hin Hx). lia.
    + split; [by right|]. split; [done|]. intros o' p' [[= -> ->]|Hin]%elem_of_cons Hx; [lia|eauto].
  - intros o' p' [[= -> ->]|Hin]%elem_of_cons; [lia|eauto].
  - split; [by left|]. split; [lia|]. intros o' p' [[= -> ->]|Hin]%elem_of_cons Hx; [lia|]. specialize (IH _ _ Hin). lia.
Qed.

Lemma next_page_spec pages x :
  match next_page pages x with
  | Some (o, p) => pages !! o = Some p ∧ x ≤ o ∧ ∀ o' p', pages !! o' = Some p' → x ≤ o' → o ≤ o'
  | None => ∀ o p, pages !! o = Some p → o < x
  end.
Proof.
  unfold next_page. pose proof (first_from_spec x (map_to_list pages)) as Hs. destruct (first_from _ _) as [[o p]|].
  - destruct Hs as (H1 & H2 & H3). split; [by apply elem_of_map_to_list|]. split; [done|].
    intros o' p' Hp'. apply (H3 o' p'). by apply elem_of_map_to_list.
  - intros o p Hp. apply (Hs o p). by apply elem_of_map_to_list.
Qed.

Lemma next_page_at pages o p : pages !! o = Some p → next_page pages o = Some (o, p).
Proof.
  intros Hp. pose proof (next_page_spec pages o) as Hs. destruct (next_page pages o) as [[o' p']|].
  - destruct Hs as (H1 & H2 & H3). specialize (H3 _ _ Hp ltac:(lia)). assert (o' = o) as -> by lia. congruence.
  - specialize (Hs _ _ Hp). lia.
Qed.

(** ** Contents *)

(** Nobody uses the page. *)
Definition idle p : Prop := cp_read p = 0 ∧ cp_write p = 0 ∧ cp_flush p = 0.
#[export] Instance idle_dec p : Decision (idle p).
Proof. unfold idle. apply _. Defined.

(** The number of dirty pages. *)
Definition dirty_count (pages : gmap Z cache_page) : Z := Z.of_nat (size (filter (λ op, cp_dirty op.2 = true) pages)).

Definition was_dirty (pages : gmap Z cache_page) (o : Z) : Z :=
  match pages !! o with Some p => Z.b2z (cp_dirty p) | None => 0 end.

Lemma dirty_count_delete pages o : dirty_count (delete o pages) = dirty_count pages - was_dirty pages o.
Proof.
  unfold dirty_count, was_dirty. rewrite map_filter_delete. destruct (pages !! o) as [p|] eqn:Hp.
  - destruct (cp_dirty p) eqn:Hd; cbn [Z.b2z].
    + assert (filter (λ op, cp_dirty op.2 = true) pages !! o = Some p) as Hf by (by apply map_lookup_filter_Some).
      rewrite map_size_delete_Some by done. assert (size (filter (λ op, cp_dirty op.2 = true) pages) ≠ 0%nat); [|lia].
      intros Hz%map_size_empty_iff. by rewrite Hz, lookup_empty in Hf.
    + rewrite delete_id; [lia|]. apply map_lookup_filter_None. right. intros q Hq. simpl. congruence.
  - rewrite delete_id; [lia|]. apply map_lookup_filter_None. by left.
Qed.

Lemma dirty_count_insert pages o p :
  dirty_count (<[o := p]> pages) = dirty_count pages + Z.b2z (cp_dirty p) - was_dirty pages o.
Proof.
  rewrite <- insert_delete_eq. assert (dirty_count (delete o pages) = dirty_count pages - was_dirty pages o) as Hd by apply dirty_count_delete.
  unfold dirty_count in *. destruct (cp_dirty p) eqn:Hp; cbn [Z.b2z].
  - rewrite map_filter_insert_True by done. rewrite map_size_insert_None; [lia|].
    apply map_lookup_filter_None. left. apply lookup_delete_eq.
  - rewrite map_filter_insert_False by (simpl; congruence). rewrite delete_delete_eq. lia.
Qed.

Section cpage.
Context {S A : Type} `{!Segment S, !SegBytes S, !Gop}.
Context (n : Z) (Hn : 0 < n).
Implicit Types (st : cache_segment S A).

Abbreviation row := (page_row n).

Lemma row_spec i : (n | row i) ∧ row i ≤ i < row i + n.
Proof.
  unfold page_row. split; [by exists (i / n)|]. pose proof (Z.div_mod i n ltac:(lia)). pose proof (Z.mod_pos_bound i n Hn). lia.
Qed.
Lemma row_nonneg i : 0 ≤ i → 0 ≤ row i.
Proof. intros Hi. unfold page_row. pose proof (Z.div_pos i n Hi Hn). nia. Qed.
Lemma row_unique o i : (n | o) → o ≤ i < o + n → row i = o.
Proof. intros [k ->] Hi. unfold page_row. f_equal. symmetry. apply (Z.div_unique_pos _ _ _ (i - k * n)); lia. Qed.
Lemma row_row i : row (row i) = row i.
Proof. pose proof (row_spec i) as [? ?]. apply row_unique; [done|lia]. Qed.
Lemma row_aligned o : (n | o) → row o = o.
Proof. intros ?. apply row_unique; [done|lia]. Qed.
Lemma row_le i j : i ≤ j → row i ≤ row j.
Proof. intros Hij. unfold page_row. pose proof (Z.div_le_mono i j n Hn Hij). nia. Qed.
(** Two page offsets are the same or a page apart. *)
Lemma row_apart a b : (n | a) → (n | b) → a < b → a + n ≤ b.
Proof. intros [x ->] [y ->] Hlt. assert (x < y) by nia. nia. Qed.

(** A page has the data of its page in the contents [f]. *)
Definition page_agrees (o : Z) p (f : Z → Z) : Prop := ∃ d, cp_data p = Some d ∧ ∀ x, 0 ≤ x < n → d x = f (o + x).

(** What the segment holds: its pages over its child. *)
Definition cs_byte st (i : Z) : Z :=
  match cs_pages st !! row i with
  | Some p => from_option (λ d, d (i - row i)) 0 (cp_data p)
  | None => seg_byte (cs_child st) i
  end.

Lemma cs_byte_in st o p d i : cs_pages st !! o = Some p → cp_data p = Some d → (n | o) → o ≤ i < o + n → cs_byte st i = d (i - o).
Proof. intros Hp Hd Ho Hi. unfold cs_byte. by rewrite (row_unique o i Ho Hi), Hp, Hd. Qed.
Lemma cs_byte_out st i : cs_pages st !! row i = None → cs_byte st i = seg_byte (cs_child st) i.
Proof. intros Hp. unfold cs_byte. by rewrite Hp. Qed.

(** The first [e] bytes are on the child or will be with the dirty pages. *)
Definition extent st (e : Z) : Prop :=
  e ≤ Z.max 0 (segment_size (cs_child st)) ∨ ∃ o p, cs_pages st !! o = Some p ∧ cp_dirty p = true ∧ o < e ≤ o + n.

Context `{!SegmentVecOk S}.

(** The invariant, also in the middle of a request. *)
Record cs_wf st : Prop := {
  cw_up : vec_up (cs_child st);
  cw_page o p : cs_pages st !! o = Some p → 0 ≤ o ∧ (n | o) ∧ is_Some (cp_data p);
  cw_clean o p : cs_pages st !! o = Some p → cp_dirty p = false → idle p → page_agrees o p (seg_byte (cs_child st));
  cw_zero i : 0 ≤ i → cs_last st < row i → seg_byte (cs_child st) i = 0;
  cw_last : cs_last st = -1 ∨ 0 ≤ cs_last st < segment_size (cs_child st);
  cw_dirty : n * dirty_count (cs_pages st) ≤ cs_dirty_bytes st }.

(** Between requests no page is in use. *)
Definition cs_quiet st : Prop := ∀ o p, cs_pages st !! o = Some p → idle p ∧ cp_empty p = false.

(** What the policy may do to make room: drop pages that are not in use, and
    write dirty ones to the child. *)
Record room st st' : Prop := {
  rm_wf : cs_wf st';
  rm_sub o p' : cs_pages st' !! o = Some p' → ∃ p, cs_pages st !! o = Some p ∧ (p' = p ∨ idle p ∧ p' = cp_set_dirty p false);
  rm_keep o p : cs_pages st !! o = Some p → ¬ idle p → cs_pages st' !! o = Some p;
  rm_byte i : cs_byte st' i = cs_byte st i;
  rm_child i p : cs_pages st !! row i = Some p → ¬ idle p → seg_byte (cs_child st') i = seg_byte (cs_child st) i;
  rm_extent e : extent st e → extent st' e;
  rm_last : cs_last st ≤ cs_last st';
  rm_size : segment_size (cs_child st) ≤ segment_size (cs_child st');
  rm_total : cs_total st' = cs_total st }.

(** A policy that may block makes room in the end. *)
Class PageAllocOk `{!PageAlloc S A} : Prop := {
  create_room st b : cs_wf st → room st (create_empty_page st b).1;
  create_blocking st : cs_wf st → (create_empty_page st true).2 = true }.

Lemma room_refl st : cs_wf st → room st st.
Proof. intros Hwf. split; try done. eauto. Qed.

Lemma room_trans st st1 st2 : room st st1 → room st1 st2 → room st st2.
Proof.
  intros [A1 A2 A3 A4 A5 A6 A7 A8 A9] [B1 B2 B3 B4 B5 B6 B7 B8 B9]. split; try done; try lia; auto.
  - intros o p'' Hp''. destruct (B2 o p'' Hp'') as (p' & Hp' & Hor'). destruct (A2 o p' Hp') as (p & Hp & Hor). exists p. split; [done|].
    destruct Hor' as [->|[Hi' ->]], Hor as [->|[Hi ->]]; auto.
  - intros i. by rewrite B4.
  - intros i p Hp Hi. rewrite (B5 i p), (A5 i p); auto.
Qed.

Lemma room_quiet st st' : room st st' → cs_quiet st → cs_quiet st'.
Proof.
  intros Hr Hq o p' Hp'. destruct (rm_sub _ _ Hr o p' Hp') as (p & Hp & [->|[_ ->]]); [by eapply Hq|].
  destruct (Hq _ _ Hp) as [Hi He]. done.
Qed.

(** ** Changing a page *)
Lemma extent_set st o p c last total db pol e :
  (was_dirty (cs_pages st) o = 1 → cp_dirty p = true) → segment_size (cs_child st) ≤ segment_size c →
  extent st e → extent (Cache_segment c (<[o := p]> (cs_pages st)) last total db pol) e.
Proof.
  intros Hd Hs [He|(o' & p' & Hp' & Hd' & He)]; [left; simpl; lia|]. right. destruct (decide (o' = o)) as [->|Hne].
  - exists o, p. simpl. rewrite lookup_insert_eq. split; [done|]. split; [|done]. apply Hd. unfold was_dirty. by rewrite Hp', Hd'.
  - exists o', p'. simpl. by rewrite lookup_insert_ne.
Qed.

Lemma wf_set st o p db :
  cs_wf st → 0 ≤ o → (n | o) → is_Some (cp_data p) →
  (cp_dirty p = false → idle p → page_agrees o p (seg_byte (cs_child st))) →
  db = cs_dirty_bytes st + n * (Z.b2z (cp_dirty p) - was_dirty (cs_pages st) o) →
  cs_wf (Cache_segment (cs_child st) (<[o := p]> (cs_pages st)) (cs_last st) (cs_total st) db (cs_policy st)).
Proof.
  intros [Hup Hpage Hclean Hzero Hlast Hdirty] H0 Ho Hd Hag ->. split; cbn [cs_pages cs_child cs_last]; try done.
  - intros o' p' [[<- <-]|[Hne Hp']]%lookup_insert_Some; [done|by apply Hpage].
  - intros o' p' [[<- <-]|[Hne Hp']]%lookup_insert_Some; [done|by apply Hclean].
  - simpl. rewrite dirty_count_insert. lia.
Qed.

(** The bytes after the page at [o] was set. *)
Lemma byte_set st o p d db i :
  (n | o) → cp_data p = Some d →
  cs_byte (Cache_segment (cs_child st) (<[o := p]> (cs_pages st)) (cs_last st) (cs_total st) db (cs_policy st)) i =
  if decide (row i = o) then d (i - o) else cs_byte st i.
Proof.
  intros Ho Hd. unfold cs_byte. cbn [cs_pages cs_child]. case_decide as Hi.
  - rewrite Hi, lookup_insert_eq, Hd. done.
  - by rewrite lookup_insert_ne by done.
Qed.

(** ** In the middle of a request *)

(** A page that is being loaded, by a read or by a write of a part of it. *)
Definition loading (mode : page_mode) (empty : bool) p : Prop :=
  is_Some (cp_data p) ∧ (mode = CACHE_READ → cp_dirty p = false) ∧ cp_empty p = empty ∧
  cp_read p = (if decide (mode = CACHE_READ) then 1 else 0) ∧ cp_write p = (if decide (mode = CACHE_WRITE) then 1 else 0) ∧ cp_flush p = 0.

Lemma loading_busy mode e p : mode ≠ CACHE_FLUSH → loading mode e p → ¬ idle p.
Proof. intros Hm (_ & _ & _ & Hr & Hw & _) (H1 & H2 & _). destruct mode; simpl in *; [lia|lia|done]. Qed.

(** The segment holds [g], but for the pages [l], which are being loaded with
    the bytes [f] of the child; the page [pin] is held, and no other is in use. *)
Record mid (mode : page_mode) (f g : Z → Z) (l : list Z) (pin : option Z) st : Prop := {
  md_wf : cs_wf st;
  md_byte i : (row i ∉ l) → cs_byte st i = g i;
  md_idle o p : cs_pages st !! o = Some p → (o ∉ l) → pin ≠ Some o → idle p ∧ cp_empty p = false;
  md_pin o : pin = Some o → (o ∉ l) ∧ ∃ p, cs_pages st !! o = Some p ∧ cp_empty p = false ∧ cp_read p = 1 ∧ cp_write p = 0 ∧ cp_flush p = 0 ∧
    (cp_dirty p = false → page_agrees o p (seg_byte (cs_child st)));
  md_load o : o ∈ l → (∃ p, cs_pages st !! o = Some p ∧ loading mode true p) ∧ ∀ i, row i = o → seg_byte (cs_child st) i = f i }.

Lemma mid_start mode st : cs_wf st → cs_quiet st → mid mode (cs_byte st) (cs_byte st) [] None st.
Proof. intros Hwf Hq. split; try done; [intros o p Hp _ _; by eapply Hq|]. by intros o ?%not_elem_of_nil. Qed.

Lemma mid_quiet mode f g st : mid mode f g [] None st → cs_quiet st.
Proof. intros Hm o p Hp. apply (md_idle _ _ _ _ _ _ Hm o p Hp); [apply not_elem_of_nil|done]. Qed.

Lemma mid_room mode f g l pin st st' :
  mode ≠ CACHE_FLUSH → mid mode f g l pin st → room st st' → mid mode f g l pin st'.
Proof.
  intros Hm [Hwf Hb Hi Hpin Hl] Hr. split; [by apply rm_wf in Hr| | | |].
  - intros i Hil. by rewrite (rm_byte _ _ Hr), Hb.
  - intros o p' Hp' Hol Hpo. destruct (rm_sub _ _ Hr o p' Hp') as (p & Hp & [->|[_ ->]]); by apply (Hi o p).
  - intros o Ho. destruct (Hpin o Ho) as (Hol & p & Hp & He & Hrd & Hw & Hf & Hag). assert (¬ idle p) as Hbusy by (intros (? & _); lia).
    split; [done|]. exists p. split_and!; try done; [by apply (rm_keep _ _ Hr)|]. intros Hd. destruct (Hag Hd) as (d & Hpd & Hx). exists d.
    split; [done|]. intros x Hxn. destruct (cw_page _ Hwf _ _ Hp) as (_ & Hal & _).
    rewrite (rm_child _ _ Hr (o + x) p), Hx; try done. by rewrite (row_unique o) by (done || lia).
  - intros o Ho. destruct (Hl o Ho) as [(p & Hp & Hld) Hc]. pose proof (loading_busy _ _ _ Hm Hld) as Hbusy. split.
    + exists p. split; [|done]. by apply (rm_keep _ _ Hr).
    + intros i Hio. rewrite <- (Hc i Hio). apply (rm_child _ _ Hr i p); [by rewrite Hio|done].
Qed.

(** The bytes that matter may be described differently. *)
Lemma mid_ext mode f g g' l pin st : (∀ i, (row i ∉ l) → g' i = g i) → mid mode f g l pin st → mid mode f g' l pin st.
Proof. intros Hg [Hwf Hb Hi Hpin Hl]. split; try done. intros i Hil. by rewrite Hg, Hb. Qed.
End cpage.
