(* ===== verification/CPageRun.v ===== *)
(** * Pages of a cached segment: reading and writing the child

    Runs of pages: what [cache_rw_pages] loads and what it writes. *)
From S2P Require Import Prelude Seg CPage CPageOk.
From stdpp Require Import gmap.
#[local] Open Scope Z_scope.

(** ** Changing several pages *)
Definition alter_all (f : cache_page → cache_page) (l : list Z) (pages : gmap Z cache_page) : gmap Z cache_page :=
  foldr (λ o, alter f o) pages l.

Lemma lookup_alter_all f l pages o :
  NoDup l → alter_all f l pages !! o = if decide (o ∈ l) then f <$> pages !! o else pages !! o.
Proof.
  unfold alter_all. induction 1 as [|x l Hx Hnd IH]; cbn [foldr]; [by rewrite decide_False by apply not_elem_of_nil|].
  destruct (decide (o = x)) as [->|Hne].
  - rewrite lookup_alter_eq, IH, decide_False by done. by rewrite decide_True by (by left).
  - rewrite lookup_alter_ne, IH by done. apply decide_ext. rewrite elem_of_cons. tauto.
Qed.

(** A child that is up serves a read that begins before its end: the last page
    may reach past it. *)
Class SegmentPageOk (S : Type) `{!Segment S, !SegBytes S, !SegmentVecOk S} : Prop :=
  page_read_success s off len buf boff :
    vec_up s → 0 ≤ off < segment_size s → 0 < len → op_st (segment_read s [Ex_iovec off len] buf boff).2 = OP_STATE_SUCCESS.

#[export] Instance mem_page_ok `{!Gop, !GopOk} : SegmentPageOk mem_seg.
Proof. intros s off len buf boff Hup _ _. simpl in *. unfold mem_status. rewrite Hup. apply op_success_state. Qed.

Section run.
Context {S A : Type} `{!Segment S, !SegBytes S, !SegmentOk S, !SegmentVecOk S, !SegmentPageOk S, !Gop, !GopOk}.
Context (n : Z) (Hn : 0 < n).
Implicit Types (st : cache_segment S A).

Abbreviation row := (page_row n).

Definition present st (l : list Z) : Prop := ∀ o, o ∈ l → is_Some (cs_pages st !! o).

Lemma present_alter st f l l' : NoDup l → present st l' → present (cs_set_pages st (alter_all f l (cs_pages st))) l'.
Proof.
  intros Hnd Hp o Ho. cbn [cs_pages cs_set_pages]. rewrite lookup_alter_all by done. destruct (Hp o Ho) as [p ->]. by case_decide.
Qed.

Lemma on_page_alter st o f : is_Some (cs_pages st !! o) → on_page st o f = Some (cs_set_pages st (alter f o (cs_pages st))).
Proof.
  intros [p Hp]. unfold on_page, cs_set_page. rewrite Hp. cbn [mbind option_bind]. do 2 f_equal. apply map_eq. intros i.
  destruct (decide (i = o)) as [->|Hne]; [by rewrite lookup_insert_eq, lookup_alter_eq, Hp|by rewrite lookup_insert_ne, lookup_alter_ne].
Qed.

(** The source goes through the list from its head on. *)
Lemma alter_all_cons f o l pages : o ∉ l → alter_all f l (alter f o pages) = alter_all f (o :: l) pages.
Proof.
  intros Ho. unfold alter_all. cbn [foldr]. induction l as [|x l IH]; [done|]. apply not_elem_of_cons in Ho as [Hne Ho].
  cbn [foldr]. rewrite (IH Ho). by apply alter_alter_ne.
Qed.

Lemma clear_empty_all l : ∀ st,
  NoDup l → present st l → clear_empty st l = Some (cs_set_pages st (alter_all (λ p, cp_set_empty p false) l (cs_pages st))).
Proof.
  induction l as [|o l IH]; intros st Hnd Hp; cbn [clear_empty]; [by destruct st|]. apply NoDup_cons in Hnd as [Ho Hnd].
  rewrite on_page_alter by (apply Hp; by left). cbn [mbind option_bind]. rewrite IH; [|done|].
  - cbn [cs_pages cs_set_pages]. by rewrite alter_all_cons.
  - apply (present_alter st _ [o] l); [repeat constructor; set_solver|]. intros x Hx. apply Hp. by right.
Qed.

(** ** Runs *)
Fixpoint contiguous (s : Z) (run : list Z) : Prop :=
  match run with [] => True | o :: run => o = s ∧ contiguous (s + n) run end.

Lemma contiguous_app s r1 r2 : contiguous s (r1 ++ r2) ↔ contiguous s r1 ∧ contiguous (s + n * Z.of_nat (length r1)) r2.
Proof.
  revert s. induction r1 as [|o r1 IH]; intros s; cbn [app contiguous length].
  - replace (s + n * Z.of_nat 0) with s by lia. tauto.
  - rewrite IH. replace (s + n + n * Z.of_nat (length r1)) with (s + n * Z.of_nat (Datatypes.S (length r1))) by lia. tauto.
Qed.

Lemma contiguous_in s run o : contiguous s run → o ∈ run ↔ (n | o - s) ∧ s ≤ o < s + n * Z.of_nat (length run).
Proof.
  revert s. induction run as [|x run IH]; intros s Hc; cbn [contiguous length] in *.
  - split; [by intros ?%not_elem_of_nil|nia].
  - destruct Hc as [-> Hc]. rewrite elem_of_cons, (IH _ Hc). split.
    + intros [->|[[k Hk] Hin]]; [split; [exists 0; nia|nia]|]. split; [exists (k + 1); nia|nia].
    + intros [[k Hk] Hin]. destruct (decide (o = s)) as [|Hne]; [by left|right]. split; [exists (k - 1); lia|]. assert (0 < k) by nia. nia.
Qed.

Lemma contiguous_nodup s run : contiguous s run → NoDup run.
Proof.
  revert s. induction run as [|x run IH]; intros s Hc; [constructor|]. destruct Hc as [-> Hc]. constructor; [|by eapply IH].
  intros Hin. apply (contiguous_in _ _ _ Hc) in Hin. nia.
Qed.

Lemma contig_runs_spec st l : ∀ cur,
  Forall (λ o, has_data st o = true) l →
  match cur with Some (run, off) => run ≠ [] ∧ ∃ s, contiguous s run ∧ off = s + n * Z.of_nat (length run) | None => True end →
  let runs := contig_runs n st l cur in
  mjoin runs = from_option fst [] cur ++ l ∧ Forall (λ run, run ≠ [] ∧ ∃ s, contiguous s run) runs.
Proof.
  induction l as [|o l IH]; intros cur Hl Hcur; cbn [contig_runs].
  - destruct cur as [[run off]|]; simpl; [|done]. rewrite app_nil_r. split; [done|]. repeat constructor; [by destruct Hcur|].
    destruct Hcur as (_ & s & ? & _). eauto.
  - apply Forall_cons in Hl as [Ho Hl]. rewrite Ho.
    assert ([o] ≠ [] ∧ ∃ s, contiguous s [o] ∧ o + n = s + n * Z.of_nat (length [o])) as Hstart.
    { split; [done|]. exists o. split; [done|simpl; lia]. }
    destruct cur as [[run off]|]; [|by apply IH]. destruct Hcur as (Hne & s & Hc & ->). case_decide as Heq.
    + subst o. destruct (IH (Some (run ++ [s + n * Z.of_nat (length run)], s + n * Z.of_nat (length run) + n)) Hl) as [Hj Hf].
      { split; [by destruct run|]. exists s. split; [by apply contiguous_app|]. rewrite length_app. simpl. lia. }
      split; [|done]. rewrite Hj. simpl. by rewrite <- app_assoc.
    + destruct (IH (Some ([o], o + n)) Hl Hstart) as [Hj Hf]. cbn [mjoin]. split; [simpl; f_equal; exact Hj|].
      constructor; [|done]. split; [done|eauto].
Qed.

Lemma blank_pages_nil st l cur : Forall (λ o, has_data st o = true) l → blank_pages n st l cur = [].
Proof. intros Hl. revert cur. induction Hl as [|o l Ho Hl IH]; intros cur; [done|]. cbn [blank_pages]. rewrite Ho, !IH. by case_decide. Qed.

(** *** Loading *)

Record loaded (l : list Z) st st' : Prop := {
  ld_last : cs_last st' = cs_last st;
  ld_total : cs_total st' = cs_total st;
  ld_dirty : cs_dirty_bytes st' = cs_dirty_bytes st;
  ld_policy : cs_policy st' = cs_policy st;
  ld_up : vec_up (cs_child st) → vec_up (cs_child st');
  ld_size : segment_size (cs_child st') = segment_size (cs_child st);
  ld_child i : seg_byte (cs_child st') i = seg_byte (cs_child st) i;
  ld_out o : (o ∉ l) → cs_pages st' !! o = cs_pages st !! o;
  ld_in o p : o ∈ l → cs_pages st !! o = Some p →
    ∃ d, cs_pages st' !! o = Some (cp_set_empty (cp_set_data p (Some d)) false) ∧
      ∀ x, 0 ≤ x < n → d x = seg_byte (cs_child st) (o + x) }.

Lemma loaded_app l1 l2 st st1 st2 :
  (∀ o, o ∈ l1 → o ∉ l2) → loaded l1 st st1 → loaded l2 st1 st2 → loaded (l1 ++ l2) st st2.
Proof.
  intros Hdis [A1 A2 A3 A4 A5 A6 A7 A8 A9] [B1 B2 B3 B4 B5 B6 B7 B8 B9]. split; [congruence..|by auto|congruence|intros i; by rewrite B7, A7| |].
  - intros o Ho. rewrite elem_of_app in Ho. rewrite B8, A8 by tauto. done.
  - intros o p Ho Hp. apply elem_of_app in Ho as [Ho|Ho].
    + destruct (A9 o p Ho Hp) as (d & Hd & Hx). exists d. split; [|done]. by rewrite B8 by auto.
    + assert (o ∉ l1) as Hno by (intros ?; by eapply Hdis). rewrite <- A8 in Hp by done.
      destruct (B9 o p Ho Hp) as (d & Hd & Hx). exists d. split; [done|]. intros x Hxn. by rewrite Hx, A7.
Qed.

Lemma run_fill_ok run : ∀ s st data,
  contiguous s run → present st run →
  ∃ pages, run_fill n st run (Some data) = Some (cs_set_pages st pages) ∧
    (∀ o, (o ∉ run) → pages !! o = cs_pages st !! o) ∧
    ∀ o p, o ∈ run → cs_pages st !! o = Some p →
      ∃ d, pages !! o = Some (cp_set_data p (Some d)) ∧ ∀ x, d x = data (x + (o - s)).
Proof.
  induction run as [|o run IH]; intros s st data Hc Hp; cbn [run_fill].
  { exists (cs_pages st). split; [by destruct st|]. split; [done|]. by intros o p ?%not_elem_of_nil. }
  pose proof (contiguous_nodup _ _ Hc) as Hnd. apply NoDup_cons in Hnd as [Ho Hnd]. destruct Hc as [-> Hc].
  rewrite on_page_alter by (apply Hp; by left). cbn [mbind option_bind fmap option_fmap option_map].
  set (st1 := cs_set_pages st _). destruct (IH (s + n) st1 (λ x, data (x + n)) Hc) as (pages & Hf & Hout & Hin).
  { intros o Hor. apply (present_alter st _ [s] run); [repeat constructor; set_solver| |done]. intros x Hx. apply Hp. by right. }
  exists pages. split; [exact Hf|]. split.
  - intros o Hor. apply not_elem_of_cons in Hor as [Hne Hor]. rewrite Hout by done. simpl. by apply lookup_alter_ne.
  - intros o p Hor Hpo. apply elem_of_cons in Hor as [->|Hor].
    + exists data. rewrite Hout by done. simpl. rewrite lookup_alter_eq, Hpo. split; [done|]. intros x. f_equal. lia.
    + assert (o ≠ s) as Hne by (intros ->; done). destruct (Hin o p Hor) as (d & Hd & Hx); [simpl; by rewrite lookup_alter_ne|].
      exists d. split; [done|]. intros x. rewrite Hx. f_equal. lia.
Qed.

(** A run is not empty, follows on from its start, and is inside the child. *)
Definition run_ok st (run : list Z) : Prop :=
  ∃ s, contiguous s run ∧ run ≠ [] ∧ 0 ≤ s ∧ present st run.

Lemma run_head s run : contiguous s run → run ≠ [] → head run = Some s ∧ last run = Some (s + n * (Z.of_nat (length run) - 1)).
Proof.
  intros Hc Hne. split; [destruct run; [done|]; by destruct Hc as [-> _]|].
  destruct (last run) as [x|] eqn:Hl; [|by apply last_None in Hl]. apply last_Some in Hl as [r ->].
  apply contiguous_app in Hc as [_ [-> _]]. rewrite length_app. simpl. f_equal. lia.
Qed.

Lemma do_run_read st run :
  vec_up (cs_child st) → run_ok st run → (∀ o, o ∈ run → o < segment_size (cs_child st)) →
  ∃ st', do_run n st CACHE_READ false run = Some (st', 0) ∧ loaded run st st'.
Proof.
  intros Hup (s & Hc & Hne & Hs & Hp) Hin. unfold do_run. destruct (run_head s run Hc Hne) as [-> ->]. cbn [mbind option_bind].
  set (len := n * Z.of_nat (length run)). assert (0 < len) as Hlen by (destruct run; [done|]; unfold len; simpl; nia).
  assert (s ∈ run) as Hsr by (apply (contiguous_in _ _ _ Hc); split; [exists 0; lia|unfold len in *; lia]).
  pose proof (page_read_success (cs_child st) s len (run_buf n st run) 0 Hup ltac:(specialize (Hin s Hsr); lia) Hlen) as Hok.
  pose proof (read_bytes (cs_child st) [Ex_iovec s len] (run_buf n st run) 0) as Hbytes.
  pose proof (read_size (cs_child st) [Ex_iovec s len] (run_buf n st run) 0) as Hsize.
  pose proof (read_buffer (cs_child st) s len (run_buf n st run) 0) as Hbuf.
  pose proof (vec_read_up (cs_child st) [Ex_iovec s len] (run_buf n st run) 0 Hup) as Hup'.
  destruct (segment_read _ _ _ _) as [[child data] status]. cbn [fst snd] in *. rewrite bool_decide_eq_true_2 by done.
  destruct (run_fill_ok run s (cs_set_child st child) data Hc Hp) as (pages & -> & Hout & Hfill). cbn [mbind option_bind].
  rewrite clear_empty_all; [|by eapply contiguous_nodup|].
  2: { intros o Ho. destruct (Hp o Ho) as [p Hpo]. destruct (Hfill o p Ho Hpo) as (d & Hd & _). simpl. by rewrite Hd. }
  cbn [mbind option_bind]. eexists. split; [done|]. split; try done.
  - intros o Ho. cbn [cs_pages cs_set_pages]. rewrite lookup_alter_all by (by eapply contiguous_nodup). rewrite decide_False by done. by apply Hout.
  - intros o p Ho Hpo. destruct (Hfill o p Ho Hpo) as (d & Hd & Hx). exists d. cbn [cs_pages cs_set_pages].
    rewrite lookup_alter_all by (by eapply contiguous_nodup). rewrite decide_True by done. rewrite Hd. split; [done|].
    intros x Hxn. rewrite Hx, Hbuf by (done || lia). unfold buf_put. apply (contiguous_in _ _ _ Hc) in Ho as [[k Hk] Ho].
    rewrite decide_True; [f_equal; lia|]. unfold len. split; [lia|].
    assert (k < Z.of_nat (length run)) by nia. nia.
Qed.

Lemma do_runs_read runs : ∀ st,
  vec_up (cs_child st) → NoDup (mjoin runs) → Forall (run_ok st) runs → (∀ o, o ∈ mjoin runs → o < segment_size (cs_child st)) →
  ∃ st', do_runs n st CACHE_READ false runs = Some (st', 0) ∧ loaded (mjoin runs) st st'.
Proof.
  induction runs as [|run runs IH]; intros st Hup Hnd Hok Hin; cbn [do_runs].
  { exists st. split; [done|]. split; try done. by intros o p ?%not_elem_of_nil. }
  apply Forall_cons in Hok as [Hok Hoks]. cbn [mjoin] in Hnd, Hin |- *. change (mjoin (run :: runs)) with (run ++ mjoin runs) in *.
  apply NoDup_app in Hnd as (Hnd1 & Hdis & Hnd2).
  destruct (do_run_read st run Hup Hok) as (st1 & -> & Hl1); [intros o Ho; apply Hin, elem_of_app; by left|].
  cbn [mbind option_bind]. destruct (IH st1) as (st2 & -> & Hl2).
  - by apply (ld_up _ _ _ Hl1).
  - done.
  - eapply Forall_impl; [exact Hoks|]. intros r (s & Hc & Hne & Hs & Hp). exists s. split_and!; try done.
    intros o Ho. destruct (decide (o ∈ run)) as [Hor|Hor].
    + destruct Hok as (_ & _ & _ & _ & Hp1). destruct (Hp1 o Hor) as [p Hpo]. destruct (ld_in _ _ _ Hl1 o p Hor Hpo) as (d & Hd & _). by rewrite Hd.
    + rewrite (ld_out _ _ _ Hl1 o Hor). by apply Hp.
  - intros o Ho. rewrite (ld_size _ _ _ Hl1). apply Hin, elem_of_app. by right.
  - cbn [mbind option_bind]. exists st2. split; [done|]. by eapply loaded_app.
Qed.

Lemma runs_all_ok st l :
  Forall (λ o, has_data st o = true) l → (∀ o, o ∈ l → 0 ≤ o) →
  mjoin (contig_runs n st l None) = l ∧ Forall (run_ok st) (contig_runs n st l None).
Proof.
  intros Hd Hpos. destruct (contig_runs_spec st l None Hd I) as [Hj Hr]. split; [done|].
  apply Forall_forall. intros run Hrun. rewrite Forall_forall in Hr. rewrite Forall_forall in Hd. destruct (Hr run Hrun) as (Hne & s & Hc). exists s.
  assert (∀ o, o ∈ run → o ∈ l) as Hin. { intros o Ho. change l with (from_option fst [] (None (A := list Z * Z)) ++ l). rewrite <- Hj. apply list_elem_of_join. eauto. }
  split; [done|]. split; [done|]. split.
  - destruct run as [|o run]; [done|]. destruct Hc as [-> _]. apply Hpos, Hin. by left.
  - intros o Ho. specialize (Hd o (Hin o Ho)). unfold has_data in Hd. destruct (cs_pages st !! o); [eauto|done].
Qed.

Lemma rw_pages_read st l :
  vec_up (cs_child st) → NoDup l → Forall (λ o, has_data st o = true) l → (∀ o, o ∈ l → 0 ≤ o < segment_size (cs_child st)) →
  ∃ st', cache_rw_pages n st l CACHE_READ false = Some (st', 0) ∧ loaded l st st'.
Proof.
  intros Hup Hnd Hd Hin. destruct (runs_all_ok st l Hd ltac:(intros o Ho; specialize (Hin o Ho); lia)) as [Hj Hr].
  unfold cache_rw_pages. rewrite blank_pages_nil by done. cbn [clear_empty mbind option_bind].
  destruct (do_runs_read (contig_runs n st l None) st) as (st' & Hst & Hl); try done.
  - by rewrite Hj.
  - rewrite Hj. intros o Ho. specialize (Hin o Ho). lia.
  - exists st'. split; [done|]. by rewrite Hj in Hl.
Qed.

(** *** Writing and releasing *)
Definition flushed_page p : cache_page := cp_set_dirty (cp_pend CACHE_FLUSH (-1) p) (negb (cp_dirty p)).

Lemma release_flush_all l : ∀ st,
  NoDup l → present st l →
  cache_release_pages n CACHE_FLUSH st l =
  Some (Cache_segment (cs_child st) (alter_all flushed_page l (cs_pages st)) (cs_last st) (cs_total st)
    (cs_dirty_bytes st - n * Z.of_nat (length l)) (cs_policy st)).
Proof.
  induction l as [|o l IH]; intros st Hnd Hp; cbn [cache_release_pages].
  { destruct st. simpl. do 2 f_equal. lia. }
  apply NoDup_cons in Hnd as [Ho Hnd]. destruct (Hp o ltac:(by left)) as [p Hpo]. unfold release_page. rewrite Hpo.
  cbn [mbind option_bind]. set (p' := cp_set_dirty _ _).
  assert (<[o := p']> (cs_pages st) = alter flushed_page o (cs_pages st)) as Halt.
  { apply map_eq. intros i. destruct (decide (i = o)) as [->|Hne]; [by rewrite lookup_insert_eq, lookup_alter_eq, Hpo|].
    by rewrite lookup_insert_ne, lookup_alter_ne. }
  rewrite IH; [|done|].
  - cbn [adjust_dirty cs_set_page cs_set_pages cs_child cs_pages cs_last cs_total cs_dirty_bytes cs_policy].
    rewrite Halt, alter_all_cons by done. do 2 f_equal. simpl. lia.
  - intros x Hx. cbn [adjust_dirty cs_set_page cs_set_pages cs_pages]. rewrite Halt, lookup_alter_ne by (intros ->; done). apply Hp. by right.
Qed.

Lemma run_buf_spec st run : ∀ s o x p d,
  contiguous s run → o ∈ run → 0 ≤ x < n → cs_pages st !! o = Some p → cp_data p = Some d → run_buf n st run (o - s + x) = d x.
Proof.
  induction run as [|o' run IH]; intros s o x p d Hc Ho Hx Hp Hd; [by apply not_elem_of_nil in Ho|]. cbn [run_buf].
  destruct Hc as [-> Hc]. apply elem_of_cons in Ho as [->|Ho].
  - rewrite decide_True by lia. rewrite Hp, Hd. simpl. f_equal. lia.
  - pose proof (proj1 (contiguous_in _ _ _ Hc) Ho) as [_ ?]. rewrite decide_False by lia.
    rewrite <- (IH (s + n) o x p d Hc Ho Hx Hp Hd). f_equal. lia.
Qed.

Record written (l : list Z) st st' : Prop := {
  wt_total : cs_total st' = cs_total st;
  wt_policy : cs_policy st' = cs_policy st;
  wt_up : vec_up (cs_child st');
  wt_size : segment_size (cs_child st) ≤ segment_size (cs_child st') ∧ ∀ o, o ∈ l → o + n ≤ segment_size (cs_child st');
  wt_last : cs_last st ≤ cs_last st' ∧ (∀ o, o ∈ l → o ≤ cs_last st') ∧ (cs_last st' = cs_last st ∨ cs_last st' ∈ l);
  wt_child i : seg_byte (cs_child st') i = if decide (row i ∈ l) then cs_byte n st i else seg_byte (cs_child st) i;
  wt_out o : (o ∉ l) → cs_pages st' !! o = cs_pages st !! o;
  wt_in o p : o ∈ l → cs_pages st !! o = Some p → cs_pages st' !! o = Some (flushed_page (cp_set_empty p false));
  wt_dirty : cs_dirty_bytes st' = cs_dirty_bytes st - n * Z.of_nat (length l) }.

Lemma written_nil st : vec_up (cs_child st) → written [] st st.
Proof.
  intros Hup. split.
  - done.
  - done.
  - done.
  - split; [lia|]. by intros o ?%not_elem_of_nil.
  - split; [lia|]. split; [by intros o ?%not_elem_of_nil|by left].
  - intros i. rewrite decide_False; [done|]. apply not_elem_of_nil.
  - done.
  - by intros o p ?%not_elem_of_nil.
  - simpl. lia.
Qed.

Lemma written_app l1 l2 st st1 st2 :
  (∀ o, o ∈ l1 → o ∉ l2) → written l1 st st1 → written l2 st1 st2 → written (l1 ++ l2) st st2.
Proof.
  intros Hdis [A1 A2 A3 [A4 A4'] (A5 & A5' & A5'') A6 A7 A8 A9] [B1 B2 B3 [B4 B4'] (B5 & B5' & B5'') B6 B7 B8 B9]. split.
  - congruence.
  - congruence.
  - done.
  - split; [lia|]. intros o [Ho|Ho]%elem_of_app; [specialize (A4' o Ho); lia|auto].
  - split; [lia|]. split; [intros o [Ho|Ho]%elem_of_app; [specialize (A5' o Ho); lia|auto]|]. rewrite elem_of_app.
    destruct B5'' as [->|?]; [destruct A5''|]; tauto.
  - intros i. rewrite B6, A6. destruct (decide (row i ∈ l2)) as [H2|H2].
    + rewrite decide_True by (apply elem_of_app; by right). unfold cs_byte. rewrite A7 by (intros ?; by eapply Hdis).
      destruct (cs_pages st !! row i) eqn:Hp; [done|]. unfold cs_byte in A6. rewrite A6. rewrite decide_False by (intros ?; by eapply Hdis). done.
    + apply decide_ext. rewrite elem_of_app. tauto.
  - intros o Ho. rewrite elem_of_app in Ho. rewrite B7, A7 by tauto. done.
  - intros o p [Ho|Ho]%elem_of_app Hp.
    + rewrite B7 by auto. by apply A8.
    + apply B8; [done|]. rewrite A7; [done|]. intros ?. by eapply Hdis.
  - rewrite B9, A9, length_app. lia.
Qed.

Lemma do_run_flush st run :
  vec_up (cs_child st) → run_ok st run → (∀ o, o ∈ run → (n | o) ∧ has_data st o = true) →
  ∃ st', do_run n st CACHE_FLUSH true run = Some (st', 0) ∧ written run st st'.
Proof.
  intros Hup (s & Hc & Hne & Hs & Hp) Hin. unfold do_run. destruct (run_head s run Hc Hne) as [-> ->]. cbn [mbind option_bind].
  set (len := n * Z.of_nat (length run)). assert (0 < len) as Hlen by (destruct run; [done|]; unfold len; simpl; nia).
  assert (iov_ok [Ex_iovec s len]) as Hiov by (repeat constructor; simpl; lia).
  pose proof (vec_write_success (cs_child st) _ (run_buf n st run) 0 Hiov Hup) as Hsucc.
  pose proof (vec_write_up (cs_child st) _ (run_buf n st run) 0 Hiov Hup) as Hup'.
  assert (∀ i, seg_byte (segment_write (cs_child st) [Ex_iovec s len] (run_buf n st run) 0).1 i = buf_put (seg_byte (cs_child st)) s len (run_buf n st run) 0 i) as Hbytes.
  { intros i. by rewrite vec_write_bytes. }
  pose proof (write_size (cs_child st) s len (run_buf n st run) 0 Hs Hlen Hsucc) as Hsize.
  destruct (segment_write _ _ _ _) as [child status]. cbn [fst snd] in *. pose proof (contiguous_nodup _ _ Hc) as Hnd.
  cbn [mbind option_bind]. set (st1 := if decide _ then _ else _).
  assert (cs_pages st1 = cs_pages st ∧ cs_child st1 = child ∧ cs_total st1 = cs_total st ∧ cs_policy st1 = cs_policy st ∧
    cs_dirty_bytes st1 = cs_dirty_bytes st ∧ cs_last st1 = Z.max (cs_last st) (s + n * (Z.of_nat (length run) - 1))) as (E1 & E2 & E3 & E4 & E5 & E6).
  { unfold st1. case_decide; simpl in *; split_and!; try done; lia. }
  rewrite clear_empty_all; [|done|by unfold present; rewrite E1]. cbn [mbind option_bind].
  rewrite release_flush_all; [|done|by apply (present_alter st1); [done|unfold present; rewrite E1]]. cbn [mbind option_bind].
  eexists. split; [done|].
  cbn [cs_pages cs_child cs_total cs_policy cs_dirty_bytes cs_last cs_set_pages]. rewrite E1, E2, E3, E4, E5, E6. split; cbn [cs_pages cs_child cs_total cs_policy cs_dirty_bytes cs_last]; try done.
  - split; [lia|]. intros o Ho. apply (contiguous_in _ _ _ Hc) in Ho as [[k Hk] Ho]. rewrite Hsize. unfold len.
    assert (k < Z.of_nat (length run)) by nia. nia.
  - split; [lia|]. split.
    + intros o Ho. apply (contiguous_in _ _ _ Hc) in Ho as [[k Hk] Ho]. assert (k < Z.of_nat (length run)) by nia. nia.
    + destruct (Z.max_spec (cs_last st) (s + n * (Z.of_nat (length run) - 1))) as [[_ ->]|[_ ->]]; [right|by left].
      apply (contiguous_in _ _ _ Hc). split; [exists (Z.of_nat (length run) - 1); lia|]. assert (1 ≤ Z.of_nat (length run)) by (destruct run; [done|simpl; lia]). nia.
  - intros i. rewrite Hbytes. unfold buf_put. destruct (row_spec n Hn i) as [Hd Hi].
    assert (row i ∈ run ↔ s ≤ i < s + len) as Hiff.
    { rewrite (contiguous_in _ _ _ Hc). assert (s ∈ run) as Hsr by (apply (contiguous_in _ _ _ Hc); split; [exists 0; lia|unfold len in *; lia]).
      destruct (Hin s Hsr) as [Hds _]. split.
      - intros [[k Hk] Hr]. unfold len. assert (k < Z.of_nat (length run)) by nia. nia.
      - intros Hr. split; [by apply Z.divide_sub_r|]. split; [|unfold len in Hr; lia].
        destruct (decide (row i < s)); [|lia]. pose proof (row_apart n Hn _ _ Hd Hds ltac:(done)). lia. }
    destruct (decide (row i ∈ run)) as [Hr|Hr].
    + rewrite decide_True by tauto. destruct (Hin _ Hr) as [_ Hdata]. unfold has_data in Hdata.
      destruct (cs_pages st !! row i) as [p|] eqn:Hpi; [|done]. apply bool_decide_eq_true in Hdata as [d Hpd].
      rewrite (cs_byte_in n st (row i) p d i) by (done || lia). replace (0 + (i - s)) with (row i - s + (i - row i)) by lia.
      apply (run_buf_spec st run s (row i) (i - row i) p d); try done. lia.
    + by rewrite decide_False by tauto.
  - intros o Ho. rewrite !lookup_alter_all by done. by rewrite !decide_False.
  - intros o p Ho Hpo. rewrite !lookup_alter_all by done. by rewrite !decide_True, Hpo.
Qed.

Lemma do_runs_flush runs : ∀ st,
  vec_up (cs_child st) → NoDup (mjoin runs) → Forall (run_ok st) runs →
  (∀ o, o ∈ mjoin runs → (n | o) ∧ has_data st o = true) →
  ∃ st', do_runs n st CACHE_FLUSH true runs = Some (st', 0) ∧ written (mjoin runs) st st'.
Proof.
  induction runs as [|run runs IH]; intros st Hup Hnd Hok Hin; cbn [do_runs].
  { exists st. split; [done|]. by apply written_nil. }
  apply Forall_cons in Hok as [Hok Hoks]. change (mjoin (run :: runs)) with (run ++ mjoin runs) in *.
  apply NoDup_app in Hnd as (Hnd1 & Hdis & Hnd2).
  destruct (do_run_flush st run Hup Hok) as (st1 & -> & Hw1); [intros o Ho; apply Hin, elem_of_app; by left|].
  cbn [mbind option_bind]. destruct (IH st1) as (st2 & -> & Hw2).
  - by destruct Hw1.
  - done.
  - apply Forall_forall. intros r Hr. rewrite Forall_forall in Hoks. destruct (Hoks r Hr) as (s & Hc & Hne & Hs & Hp). exists s. split_and!; try done.
    intros o Ho. rewrite (wt_out _ _ _ Hw1); [by apply Hp|]. intros Hor. eapply Hdis; [done|]. apply list_elem_of_join. eauto.
  - intros o Ho. destruct (Hin o) as [Hd Hh]; [apply elem_of_app; by right|]. split; [done|]. unfold has_data in *.
    rewrite (wt_out _ _ _ Hw1); [done|]. intros Hor. by eapply Hdis.
  - cbn [mbind option_bind]. exists st2. split; [done|]. by eapply written_app.
Qed.

Lemma rw_pages_flush st l :
  vec_up (cs_child st) → NoDup l → (∀ o, o ∈ l → 0 ≤ o ∧ (n | o) ∧ has_data st o = true) →
  ∃ st', cache_rw_pages n st l CACHE_FLUSH true = Some (st', 0) ∧ written l st st'.
Proof.
  intros Hup Hnd Hin. assert (Forall (λ o, has_data st o = true) l) as Hd by (apply Forall_forall; intros o Ho; by apply Hin).
  destruct (runs_all_ok st l Hd ltac:(intros o Ho; by apply Hin)) as [Hj Hr].
  unfold cache_rw_pages. rewrite blank_pages_nil by done. cbn [clear_empty cache_release_pages mbind option_bind].
  destruct (do_runs_flush (contig_runs n st l None) st) as (st' & Hst & Hl); try done.
  - by rewrite Hj.
  - rewrite Hj. intros o Ho. destruct (Hin o Ho) as (? & ? & ?). done.
  - exists st'. split; [done|]. by rewrite Hj in Hl.
Qed.
End run.
