(* ===== verification/CPageFlush.v ===== *)
(** * Flushing a cached segment

    A flush writes the dirty pages of its range to the child, and that is all
    that can be seen of it. *)
From S2P Require Import Prelude Seg CPage CPageOk CPageRun.
From stdpp Require Import gmap.
#[local] Open Scope Z_scope.

(** ** Going through the pages *)

(** The number of pages from [x] on. *)
Definition above (pages : gmap Z cache_page) (x : Z) : nat := size (filter (λ o, x ≤ o) (dom pages)).

Lemma above_lt pages o p x : pages !! o = Some p → o < x → (above pages x < above pages o)%nat.
Proof.
  intros Hp Hx. apply subset_size. apply elem_of_dom_2 in Hp. split.
  - intros y. rewrite !elem_of_filter. intros [? ?]. split; [lia|done].
  - intros Hsub. assert (o ∈ filter (λ o0, x ≤ o0) (dom pages)) as Hin by (apply Hsub, elem_of_filter; split; [lia|done]).
    apply elem_of_filter in Hin. lia.
Qed.

Lemma above_size pages x : (above pages x ≤ size pages)%nat.
Proof. rewrite <- size_dom. apply subseteq_size. intros y. rewrite elem_of_filter. tauto. Qed.

(** Dirty pages are not in use, and no page is being flushed. *)
Definition dirty_idle (pages : gmap Z cache_page) : Prop :=
  ∀ o p, pages !! o = Some p → cp_flush p = 0 ∧ (cp_dirty p = true → idle p ∧ cp_empty p = false).

Lemma to_flush_dirty p : cp_flush p = 0 → to_flush p = cp_dirty p.
Proof. intros Hf. unfold to_flush. rewrite bool_decide_eq_true_2 by lia. by rewrite andb_true_r. Qed.

Section flush.
Context {S A : Type} `{!Segment S, !SegBytes S, !SegmentOk S, !SegmentVecOk S, !SegmentPageOk S, !Gop, !GopOk}.
Context (n : Z) (Hn2 : 2 ≤ n).
Implicit Types (st : cache_segment S A).

Abbreviation row := (page_row n).
Abbreviation no_dirty pages a b := (∀ o p, pages !! o = Some p → a ≤ o < b → cp_dirty p = false).

Lemma first_dirty_ok pages hi fuel : ∀ o p,
  pages !! o = Some p → (∀ o' p', pages !! o' = Some p' → o ≤ o' → cp_flush p' = 0) → (above pages o < fuel)%nat →
  ∃ r, first_dirty fuel pages hi (o, p) = Some r ∧
    match r with
    | Some (o', p') => pages !! o' = Some p' ∧ cp_dirty p' = true ∧ o ≤ o' ∧ no_dirty pages o o'
    | None => no_dirty pages o (hi + 1)
    end.
Proof.
  induction fuel as [|fuel IH]; intros o p Hp Hf Hfuel; [lia|]. cbn [first_dirty fst snd].
  rewrite to_flush_dirty by (eapply Hf; [done|lia]). destruct (cp_dirty p) eqn:Hd.
  { eexists. split; [done|]. split; [done|]. split; [done|]. split; [lia|]. intros; lia. }
  pose proof (next_page_spec pages (o + 1)) as Hnext. destruct (next_page pages (o + 1)) as [[o' p']|].
  - destruct Hnext as (Hp' & Ho' & Hmin). cbn [fst].
    assert (no_dirty pages o o') as Hno.
    { intros x q Hq Hx. destruct (decide (x = o)) as [->|]; [congruence|]. specialize (Hmin _ _ Hq ltac:(lia)). lia. }
    case_decide as Hhi; [eexists; split; [done|]; intros x q Hq Hx; apply (Hno x q Hq); lia|].
    pose proof (above_lt _ _ _ o' Hp ltac:(lia)).
    destruct (IH o' p' Hp') as (r & -> & Hr); [intros; eapply Hf; [done|lia]|lia|]. exists r. split; [done|].
    destruct r as [[o2 p2]|].
    + destruct Hr as (Hp2 & Hd2 & Hge & Hno2). split; [done|]. split; [done|]. split; [lia|].
      intros x q Hq Hx. destruct (decide (x < o')); [apply (Hno x q Hq); lia|apply (Hno2 x q Hq); lia].
    + intros x q Hq Hx. destruct (decide (x < o')); [apply (Hno x q Hq); lia|apply (Hr x q Hq); lia].
  - eexists. split; [done|]. intros x q Hq Hx. destruct (decide (x = o)) as [->|]; [congruence|]. specialize (Hnext _ _ Hq). lia.
Qed.

Lemma next_dirty_ok pages hi fuel : ∀ o p,
  pages !! o = Some p → (∀ o' p', pages !! o' = Some p' → o ≤ o' → cp_flush p' = 0) → (above pages o < fuel)%nat →
  ∃ c old_hi stop, next_dirty n fuel pages hi (o, p) = Some (c, old_hi, stop) ∧ o ≤ old_hi ∧
    (∀ o' p', pages !! o' = Some p' → o ≤ o' → o' < old_hi ∨ stop = true ∧ o' ≤ hi → cp_dirty p' = false) ∧
    (stop = false → ∃ p', c = Some (old_hi, p') ∧ pages !! old_hi = Some p' ∧ cp_dirty p' = true).
Proof.
  induction fuel as [|fuel IH]; intros o p Hp Hf Hfuel; [lia|]. cbn [next_dirty fst snd].
  rewrite to_flush_dirty by (eapply Hf; [done|lia]). destruct (cp_dirty p) eqn:Hd.
  { do 3 eexists. split; [done|]. split; [lia|]. split; [intros x q Hq Hx [?|[? _]]; [lia|done]|]. eauto. }
  pose proof (next_page_spec pages (o + 1)) as Hnext. destruct (next_page pages (o + 1)) as [[o' p']|].
  - destruct Hnext as (Hp' & Ho' & Hmin). cbn [fst].
    assert (no_dirty pages o o') as Hno.
    { intros x q Hq Hx. destruct (decide (x = o)) as [->|]; [congruence|]. specialize (Hmin _ _ Hq ltac:(lia)). lia. }
    case_decide as Hhi.
    + do 3 eexists. split; [done|]. split; [lia|]. split; [|done]. intros x q Hq Hx Hor. apply (Hno x q Hq). lia.
    + pose proof (above_lt _ _ _ o' Hp ltac:(lia)).
      destruct (IH o' p' Hp') as (c & old_hi & stop & -> & Hge & Hclean & Hgo); [intros; eapply Hf; [done|lia]|lia|].
      exists c, old_hi, stop. split; [done|]. split; [lia|]. split; [|done].
      intros x q Hq Hx Hor. destruct (decide (x < o')); [apply (Hno x q Hq); lia|apply (Hclean x q Hq); [lia|done]].
  - do 3 eexists. split; [done|]. split; [lia|]. split; [|done].
    intros x q Hq Hx _. destruct (decide (x = o)) as [->|]; [congruence|]. specialize (Hnext _ _ Hq). lia.
Qed.

(** The loop that takes the pages. *)
Lemma dirty_loop_ok max fuel : ∀ st hi o p hi_got found,
  cs_pages st !! o = Some p → cp_dirty p = true → hi_got < o + n → (hi < o → hi_got ≤ o) →
  (∀ o' p', cs_pages st !! o' = Some p' → o ≤ o' → (n | o') ∧ cp_flush p' = 0 ∧ (cp_dirty p' = true → idle p')) →
  (above (cs_pages st) o + 1 < fuel)%nat → (length found < max)%nat →
  ∃ l hi', dirty_loop n fuel st hi max false (Some (o, p)) hi_got found =
      Some (cs_set_pages st (alter_all (cp_pend CACHE_FLUSH 1) l (cs_pages st)), found ++ l, hi') ∧
    NoDup l ∧ hi_got ≤ hi' ∧
    (∀ x, x ∈ l → o ≤ x ≤ hi ∧ ∃ q, cs_pages st !! x = Some q ∧ cp_dirty q = true) ∧
    (∀ x q, cs_pages st !! x = Some q → cp_dirty q = true → o ≤ x ≤ hi → (x ≤ hi' ∨ l = []) → x ∈ l) ∧
    (o ≤ hi → l ≠ [] ∧ o + n - 1 ≤ hi').
Proof.
  induction fuel as [|fuel IH]; intros st hi o p hi_got found Hp Hd Hgot Hgot2 Hdi Hfuel Hlen; [lia|]. cbn [dirty_loop].
  destruct (Hdi o p Hp ltac:(lia)) as (Hal & _ & Hidle). destruct (Hidle Hd) as (_ & Hw & _). rewrite Hw, bool_decide_eq_true_2 by done. cbn [Bool.eqb].
  destruct (decide (o > hi)) as [Hhi|Hhi].
  { rewrite decide_False by lia. exists [], hi_got. rewrite app_nil_r. split; [by destruct st|]. split; [constructor|]. split; [lia|].
    split; [by intros x ?%not_elem_of_nil|]. split; [intros; lia|lia]. }
  rewrite decide_True by (split; [done|lia]). rewrite on_page_alter by (by rewrite Hp). cbn [mbind option_bind negb andb orb].
  rewrite (bool_decide_eq_false_2 (o > hi)) by done. cbn [orb].
  set (st1 := cs_set_pages st _).
  assert (∀ x, x ≠ o → cs_pages st1 !! x = cs_pages st !! x) as Hne by (intros x Hx; simpl; by rewrite lookup_alter_ne).
  assert (∀ l, NoDup l → (∀ x, x ∈ l → o < x) → cs_set_pages st1 (alter_all (cp_pend CACHE_FLUSH 1) l (cs_pages st1)) =
     cs_set_pages st (alter_all (cp_pend CACHE_FLUSH 1) (o :: l) (cs_pages st))) as Hall.
  { intros l Hndl Hgt. unfold st1. cbn [cs_set_pages cs_child cs_pages cs_last cs_total cs_dirty_bytes cs_policy].
    rewrite alter_all_cons; [done|]. intros Hin. specialize (Hgt _ Hin). lia. }
  pose proof (next_page_spec (cs_pages st1) (o + 1)) as Hnext. destruct (next_page (cs_pages st1) (o + 1)) as [[o' p']|].
  2: { exists [o], (o + n - 1). split; [done|]. split; [apply NoDup_singleton|]. split; [lia|].
       split; [intros x ->%list_elem_of_singleton; split; [lia|eauto]|]. split; [|intros _; split; [done|lia]].
       intros x q Hq Hdq Hx _. destruct (decide (x = o)) as [->|Hxo]; [by left|]. rewrite <- Hne in Hq by done. specialize (Hnext _ _ Hq). lia. }
  destruct Hnext as (Hp' & Ho' & Hmin). rewrite length_app. simpl length.
  case_bool_decide as Hmax.
  { exists [o], (o + n - 1). split; [done|]. split; [apply NoDup_singleton|]. split; [lia|].
    split; [intros x ->%list_elem_of_singleton; split; [lia|eauto]|]. split; [|intros _; split; [done|lia]].
    intros x q Hq Hdq Hx [Hx'|?]; [|done]. destruct (Hdi x q Hq ltac:(lia)) as [Halx _].
    destruct (decide (x = o)) as [->|Hxo]; [by left|]. pose proof (row_apart n ltac:(lia) _ _ Hal Halx ltac:(lia)). lia. }
  assert (∀ x q, cs_pages st1 !! x = Some q → o + 1 ≤ x → cs_pages st !! x = Some q) as Hback by (intros x q Hq Hx; rewrite <- Hne by lia; done).
  assert (above (cs_pages st1) o' < above (cs_pages st) o)%nat as Habove.
  { unfold above. cbn [st1 cs_pages cs_set_pages]. rewrite dom_alter_L. apply (above_lt _ _ p); [done|lia]. }
  destruct (Hdi o' p' (Hback _ _ Hp' Ho') ltac:(lia)) as [Hal' _]. pose proof (row_apart n ltac:(lia) _ _ Hal Hal' ltac:(lia)) as Hap.
  destruct (next_dirty_ok (cs_pages st1) hi fuel o' p' Hp') as (c & old_hi & stop & -> & Hge & Hclean & Hgo); [|lia|].
  { intros x q Hq Hx. destruct (Hdi x q (Hback _ _ Hq ltac:(lia)) ltac:(lia)) as (_ & Hf & _). done. }
  cbn [mbind option_bind].
  assert (∀ x q, cs_pages st !! x = Some q → cp_dirty q = true → o < x → x < old_hi ∨ stop = true ∧ x ≤ hi → False) as Hskip.
  { intros x q Hq Hdq Hx Hor. rewrite <- Hne in Hq by lia. specialize (Hmin _ _ Hq ltac:(lia)). rewrite (Hclean x q Hq Hmin Hor) in Hdq. done. }
  destruct stop.
  - exists [o], (old_hi - 1). split; [done|]. split; [apply NoDup_singleton|]. split; [lia|].
    split; [intros x ->%list_elem_of_singleton; split; [lia|eauto]|]. split; [|intros _; split; [done|lia]].
    intros x q Hq Hdq Hx _. destruct (decide (x = o)) as [->|Hxo]; [by left|]. exfalso. apply (Hskip x q Hq Hdq); [lia|right; split; [done|lia]].
  - destruct (Hgo eq_refl) as (p2 & -> & Hp2 & Hd2).
    destruct (IH st1 hi old_hi p2 (old_hi - 1) (found ++ [o])) as (l & hi' & -> & Hndl & Hhi' & Hl & Hin & Hprog); try done; try lia.
    { intros x q Hq Hx. apply (Hdi x q); [apply Hback; [done|lia]|lia]. }
    { destruct (decide (o' = old_hi)) as [<-|]; [lia|]. pose proof (above_lt _ _ _ old_hi Hp' ltac:(lia)). lia. }
    { rewrite length_app. simpl. lia. }
    assert (∀ x, x ∈ l → o < x) as Hgt by (intros x Hx; destruct (Hl x Hx); lia).
    exists (o :: l), hi'. rewrite Hall by done. split; [by rewrite <- app_assoc|]. split; [constructor; [intros Hx; specialize (Hgt _ Hx); lia|done]|].
    split; [lia|]. split; [|split; [|intros _; split; [done|lia]]].
    + intros x [->|Hx]%elem_of_cons; [split; [lia|eauto]|]. destruct (Hl x Hx) as (Hxb & q & Hq & Hdq). split; [lia|]. exists q.
      split; [|done]. apply Hback; [done|lia].
    + intros x q Hq Hdq Hx [Hx'|?]; [|done]. destruct (decide (x = o)) as [->|Hxo]; [by left|]. right.
      destruct (decide (x < old_hi)) as [Hlt|Hge']; [exfalso; apply (Hskip x q Hq Hdq); lia|].
      apply (Hin x q); [by rewrite Hne|done|lia|by left].
Qed.

Lemma dirty_get_ok st block lo hi max :
  cs_wf n st → dirty_idle (cs_pages st) → lo ≤ hi → (0 < max)%nat →
  ∃ found hi_got, cache_dirty_pages_get n st block lo hi max =
      Some (cs_set_pages st (alter_all (cp_pend CACHE_FLUSH 1) found (cs_pages st)), found, hi_got, false) ∧
    NoDup found ∧ lo ≤ hi_got ≤ hi ∧
    (∀ x, x ∈ found → row lo ≤ x ≤ hi ∧ ∃ q, cs_pages st !! x = Some q ∧ cp_dirty q = true) ∧
    (∀ x q, cs_pages st !! x = Some q → cp_dirty q = true → row lo ≤ x ≤ hi_got → x ∈ found).
Proof.
  intros Hwf Hdi Hlo Hmax. unfold cache_dirty_pages_get. destruct (row_spec n ltac:(lia) lo) as [_ Hrow].
  assert (∃ cur, match next_page (cs_pages st) (row lo) with
      | None => Some None
      | Some cur => first_dirty (Datatypes.S (Datatypes.S (size (cs_pages st)))) (cs_pages st) hi cur end = Some cur ∧
      match cur with
      | Some (o, p) => cs_pages st !! o = Some p ∧ cp_dirty p = true ∧ row lo ≤ o ∧ no_dirty (cs_pages st) (row lo) o
      | None => no_dirty (cs_pages st) (row lo) (hi + 1)
      end) as (cur & -> & Hcur).
  { pose proof (next_page_spec (cs_pages st) (row lo)) as Hnext. destruct (next_page (cs_pages st) (row lo)) as [[o p]|].
    - destruct Hnext as (Hp & Ho & Hmin). destruct (first_dirty_ok (cs_pages st) hi (Datatypes.S (Datatypes.S (size (cs_pages st)))) o p Hp) as (r & -> & Hr).
      { intros o' p' Hp' _. by destruct (Hdi o' p' Hp'). }
      { pose proof (above_size (cs_pages st) o). lia. }
      exists r. split; [done|]. destruct r as [[o' p']|].
      + destruct Hr as (Hp' & Hd & Ho' & Hno). split_and!; try done; [lia|]. intros x q Hq Hx. specialize (Hmin _ _ Hq ltac:(lia)). apply (Hno x q Hq). lia.
      + intros x q Hq Hx. specialize (Hmin _ _ Hq ltac:(lia)). apply (Hr x q Hq). lia.
    - exists None. split; [done|]. intros x q Hq Hx. specialize (Hnext _ _ Hq). lia. }
  cbn [mbind option_bind]. destruct cur as [[o p]|].
  - destruct Hcur as (Hp & Hd & Ho & Hno). destruct (Hdi o p Hp) as [_ Hidle]. destruct (Hidle Hd) as [(_ & Hw & _) _].
    rewrite Hw. rewrite (bool_decide_eq_false_2 (0 ≠ 0)), (bool_decide_eq_false_2 (0 > 0)) by lia. rewrite andb_false_r.
    destruct (dirty_loop_ok max (Datatypes.S (Datatypes.S (size (cs_pages st)))) st hi o p lo []) as (l & hi' & -> & Hnd & Hhi' & Hl & Hin & Hprog); try done; try lia.
    { intros o' p' Hp' _. destruct (cw_page _ _ Hwf _ _ Hp') as (_ & Hal & _). destruct (Hdi _ _ Hp') as [Hf Hi]. split_and!; try done. intros Hd'. by apply Hi. }
    { pose proof (above_size (cs_pages st) o). lia. }
    cbn [mbind option_bind app]. do 2 eexists. split; [done|]. split; [done|]. split; [repeat case_decide; lia|]. split.
    + intros x Hx. destruct (Hl x Hx) as [Hxb Hq]. split; [lia|done].
    + intros x q Hq Hdq Hx. destruct (decide (o ≤ x)) as [Hox|Hox]; [|rewrite (Hno x q Hq ltac:(lia)) in Hdq; done].
      apply (Hin x q Hq Hdq); repeat case_decide; first [lia|auto].
      all: left; lia.
  - rewrite andb_false_r. cbn [dirty_loop mbind option_bind]. exists [], hi. rewrite (decide_True (P := [] = [])) by done. rewrite decide_False by lia.
    split; [by destruct st|]. split; [constructor|]. split; [lia|]. split; [by intros x ?%not_elem_of_nil|].
    intros x q Hq Hdq Hx. rewrite (Hcur x q Hq ltac:(lia)) in Hdq. done.
Qed.

(** ** The pages that were written *)
Lemma dirty_count_clean l pages :
  NoDup l → (∀ x, x ∈ l → ∃ q, pages !! x = Some q ∧ cp_dirty q = true) →
  dirty_count (alter_all (λ p, cp_set_dirty p false) l pages) = dirty_count pages - Z.of_nat (length l).
Proof.
  induction 1 as [|x l Hx Hnd IH]; intros Hl; cbn [length]; [unfold alter_all; simpl; lia|].
  destruct (Hl x ltac:(by left)) as (q & Hq & Hd). assert (alter_all (λ p, cp_set_dirty p false) l pages !! x = Some q) as Hq'.
  { rewrite lookup_alter_all by done. by rewrite decide_False. }
  assert (alter_all (λ p, cp_set_dirty p false) (x :: l) pages = <[x := cp_set_dirty q false]> (alter_all (λ p, cp_set_dirty p false) l pages)) as ->.
  { apply map_eq. intros i. unfold alter_all at 1. cbn [foldr]. destruct (decide (i = x)) as [->|Hne].
    - rewrite lookup_alter_eq, lookup_insert_eq. unfold alter_all in Hq'. by rewrite Hq'.
    - by rewrite lookup_alter_ne, lookup_insert_ne. }
  rewrite dirty_count_insert, IH by (intros y Hy; apply Hl; by right). unfold was_dirty. rewrite Hq', Hd. simpl. lia.
Qed.

Lemma flush_found_ok st found st' :
  cs_wf n st → dirty_idle (cs_pages st) → NoDup found → (∀ x, x ∈ found → ∃ q, cs_pages st !! x = Some q ∧ cp_dirty q = true) →
  written n found (cs_set_pages st (alter_all (cp_pend CACHE_FLUSH 1) found (cs_pages st))) st' →
  room n st st' ∧ cs_pages st' = alter_all (λ p, cp_set_dirty p false) found (cs_pages st).
Proof.
  intros Hwf Hdi Hnd Hf Hw. set (st1 := cs_set_pages st _) in Hw.
  assert (cs_pages st' = alter_all (λ p, cp_set_dirty p false) found (cs_pages st)) as Hpages.
  { apply map_eq. intros o. rewrite lookup_alter_all by done. case_decide as Ho.
    - destruct (Hf o Ho) as (q & Hq & Hd). destruct (Hdi o q Hq) as [_ Hi]. destruct (Hi Hd) as [_ He]. rewrite Hq.
      rewrite (wt_in _ _ _ _ Hw o (cp_pend CACHE_FLUSH 1 q) Ho).
      + destruct q; unfold flushed_page, cp_set_dirty; simpl in *. subst. do 2 f_equal. lia.
      + simpl. rewrite lookup_alter_all by done. by rewrite decide_True, Hq.
    - rewrite (wt_out _ _ _ _ Hw o Ho). simpl. rewrite lookup_alter_all by done. by rewrite decide_False. }
  split; [|done].
  assert (∀ i, cs_byte n st1 i = cs_byte n st i) as Hb1.
  { intros i. unfold cs_byte. simpl. rewrite lookup_alter_all by done. case_decide; [|done]. by destruct (cs_pages st !! row i). }
  assert (∀ i, (row i ∉ found) → seg_byte (cs_child st') i = seg_byte (cs_child st) i) as Hout.
  { intros i Hi. rewrite (wt_child _ _ _ _ Hw). by rewrite decide_False. }
  assert (∀ o p', cs_pages st' !! o = Some p' → ∃ p, cs_pages st !! o = Some p ∧ p' = if decide (o ∈ found) then cp_set_dirty p false else p) as Hsub.
  { intros o p'. rewrite Hpages, lookup_alter_all by done. case_decide; [|by eauto]. intros (p & Hp & ->)%fmap_Some. eauto. }
  assert (∀ e, extent n st e → extent n st' e) as Hext.
  { destruct (wt_size _ _ _ _ Hw) as [Hs Hsf]. intros e [He|(o & p & Hp & Hd & He)]; [left; simpl in Hs; lia|].
    destruct (decide (o ∈ found)) as [Ho|Ho]; [left; specialize (Hsf o Ho); lia|]. right. exists o, p. split; [|done].
    rewrite Hpages, lookup_alter_all by done. by rewrite decide_False. }
  destruct (wt_last _ _ _ _ Hw) as (Hl1 & Hl2 & Hl3). destruct (wt_size _ _ _ _ Hw) as [Hs Hsf]. cbn [st1 cs_last cs_child cs_set_pages] in Hl1, Hl3, Hs.
  split.
  - split.
    + by destruct Hw.
    + intros o p' Hp'. destruct (Hsub o p' Hp') as (p & Hp & ->). destruct (cw_page _ _ Hwf o p Hp) as (? & ? & ?). by case_decide.
    + intros o p' Hp' Hd Hi. destruct (Hsub o p' Hp') as (p & Hp & ->). destruct (cw_page _ _ Hwf o p Hp) as (Ho0 & Hal & d & Hpd).
      assert (∀ x, 0 ≤ x < n → row (o + x) = o) as Hrow by (intros x Hx; apply row_unique; [done|lia]). exists d. case_decide as Ho; (split; [done|]); intros x Hx.
      * rewrite (wt_child _ _ _ _ Hw), Hrow, decide_True, Hb1 by done. rewrite (cs_byte_in n st o p d) by (done || lia). f_equal. lia.
      * rewrite Hout by (by rewrite Hrow). destruct (cw_clean _ _ Hwf o p Hp Hd Hi) as (d' & Hd' & Hag). rewrite Hpd in Hd'. injection Hd' as <-. by apply Hag.
    + intros i Hi0 Hi. rewrite Hout; [apply (cw_zero _ _ Hwf); [done|lia]|]. intros Hin. specialize (Hl2 _ Hin). lia.
    + destruct Hl3 as [->|Hin]; [destruct (cw_last _ _ Hwf); [by left|right; lia]|]. right. specialize (Hsf _ Hin).
      destruct (Hf _ Hin) as (q & Hq & _). destruct (cw_page _ _ Hwf _ _ Hq) as (? & _). lia.
    + rewrite (wt_dirty _ _ _ _ Hw). simpl. rewrite Hpages, dirty_count_clean by done. pose proof (cw_dirty _ _ Hwf). lia.
  - intros o p' Hp'. destruct (Hsub o p' Hp') as (p & Hp & ->). exists p. split; [done|]. case_decide as Ho; [right|by left].
    split; [|done]. destruct (Hf o Ho) as (q & Hq & Hd). destruct (Hdi o q Hq) as [_ Hi]. assert (p = q) as -> by congruence. by apply Hi.
  - intros o p Hp Hbusy. rewrite Hpages, lookup_alter_all by done. case_decide as Ho; [|done]. destruct Hbusy.
    destruct (Hf o Ho) as (q & Hq & Hd). destruct (Hdi o q Hq) as [_ Hi]. assert (p = q) as -> by congruence. by apply Hi.
  - intros i. destruct (cs_pages st' !! row i) as [p'|] eqn:Hp'.
    + destruct (Hsub _ _ Hp') as (p & Hp & ->). unfold cs_byte. rewrite Hp', Hp. by case_decide.
    + unfold cs_byte. rewrite Hp'. rewrite Hpages, lookup_alter_all in Hp' by done. case_decide as Ho.
      * destruct (Hf _ Ho) as (q & Hq & _). by rewrite Hq in Hp'.
      * rewrite Hp'. by apply Hout.
  - intros i p Hp Hbusy. apply Hout. intros Ho. destruct Hbusy. destruct (Hf _ Ho) as (q & Hq & Hd).
    destruct (Hdi _ q Hq) as [_ Hi]. assert (p = q) as -> by congruence. by apply Hi.
  - done.
  - done.
  - done.
  - apply (wt_total _ _ _ _ Hw).
Qed.

Lemma dirty_idle_room st st' : room n st st' → dirty_idle (cs_pages st) → dirty_idle (cs_pages st').
Proof.
  intros Hr Hdi o p' Hp'. destruct (rm_sub _ _ _ Hr o p' Hp') as (p & Hp & [->|[Hi ->]]); [exact (Hdi o p Hp)|].
  destruct (Hdi o p Hp) as [Hf _]. split; [done|]. done.
Qed.
Lemma dirty_idle_quiet st : cs_quiet st → dirty_idle (cs_pages st).
Proof. intros Hq o p Hp. destruct (Hq o p Hp) as [Hi He]. split; [by destruct Hi as (_ & _ & ?)|done]. Qed.

(** ** The loop *)
Lemma flush_loop_ok fuel : ∀ st block progress lo hi,
  cs_wf n st → dirty_idle (cs_pages st) → lo ≤ hi → hi - lo + 1 < Z.of_nat fuel →
  ∃ st', flush_loop n fuel st hi block progress [(lo, hi)] true = Some (st', true) ∧ room n st st' ∧
    (∀ o, is_Some (cs_pages st !! o) → is_Some (cs_pages st' !! o)) ∧
    ∀ o p, cs_pages st' !! o = Some p → row lo ≤ o ≤ hi → cp_dirty p = false.
Proof.
  induction fuel as [|fuel IH]; intros st block progress lo hi Hwf Hdi Hlo Hfuel; [lia|]. cbn [flush_loop].
  destruct (dirty_get_ok st block lo hi max_pages Hwf Hdi Hlo ltac:(unfold max_pages; lia)) as (found & hi_got & -> & Hnd & Hgot & Hf & Hall).
  cbn [mbind option_bind negb]. set (st1 := cs_set_pages st _).
  assert (∀ x, x ∈ found → ∃ q, cs_pages st !! x = Some q ∧ cp_dirty q = true) as Hf' by (intros x Hx; by apply Hf).
  assert (∃ st2, (if decide (found = []) then Some (st1, 0) else cache_rw_pages n st1 found CACHE_FLUSH true) = Some (st2, 0) ∧ written n found st1 st2) as (st2 & -> & Hw).
  { case_decide as Hn0.
    - exists st1. split; [done|]. rewrite Hn0. apply written_nil. by destruct Hwf.
    - apply rw_pages_flush; [lia|by destruct Hwf|done|]. intros o Ho. destruct (Hf' o Ho) as (q & Hq & _).
      destruct (cw_page _ _ Hwf o q Hq) as (? & ? & Hd). split_and!; try done. unfold has_data. simpl. rewrite lookup_alter_all by done.
      rewrite decide_True, Hq by done. simpl. by apply bool_decide_eq_true. }
  cbn [mbind option_bind]. rewrite (bool_decide_eq_true_2 (0 = 0)) by done.
  destruct (flush_found_ok st found st2 Hwf Hdi Hnd Hf' Hw) as [Hr Hp2].
  assert (∀ o p, cs_pages st2 !! o = Some p → row lo ≤ o ≤ hi_got → cp_dirty p = false) as Hclean.
  { intros o p. rewrite Hp2, lookup_alter_all by done. case_decide as Ho; [by intros (q & Hq & ->)%fmap_Some|].
    intros Hp Hor. destruct (cp_dirty p) eqn:Hd; [|done]. by destruct Ho; eapply Hall. }
  assert (∀ o, is_Some (cs_pages st !! o) → is_Some (cs_pages st2 !! o)) as Hstay.
  { intros o [p Hp]. rewrite Hp2, lookup_alter_all by done. case_decide; rewrite Hp; by eexists. }
  destruct (decide (hi_got = hi)) as [->|Hne].
  - rewrite decide_False by lia. exists st2. split; [|done]. destruct fuel; [lia|done].
  - rewrite decide_True by lia. destruct (IH st2 block true (hi_got + 1) hi) as (st' & Hst & Hr' & Hstay' & Hc').
    { by destruct Hr. } { by eapply dirty_idle_room. } { lia. } { lia. }
    exists st'. split; [done|]. split; [by eapply room_trans|]. split; [by auto|]. intros o p' Hp' Ho.
    destruct (decide (o ≤ hi_got)).
    + destruct (rm_sub _ _ _ Hr' o p' Hp') as (p & Hp & [->|[_ ->]]); [apply (Hclean o p Hp); lia|done].
    + apply (Hc' o p' Hp'). destruct (row_spec n ltac:(lia) (hi_got + 1)). lia.
Qed.

Lemma cache_flush_range_ok fuel st lo hi :
  cs_wf n st → dirty_idle (cs_pages st) → 0 ≤ lo ≤ hi → hi - lo + 1 < Z.of_nat fuel →
  ∃ st', cache_flush_range n fuel st lo hi = Some (st', op_success_status) ∧ room n st st' ∧
    (∀ o, is_Some (cs_pages st !! o) → is_Some (cs_pages st' !! o)) ∧
    ∀ o p, cs_pages st' !! o = Some p → row lo ≤ o ≤ hi → cp_dirty p = false.
Proof.
  intros Hwf Hdi Hlo Hfuel. unfold cache_flush_range, cache_flush_range_func. rewrite (decide_False (P := hi = -1)) by lia. cbn zeta.
  rewrite (decide_False (P := hi - lo + 1 = -1)) by lia. cbn zeta. replace (lo + (hi - lo + 1) - 1) with hi by lia. rewrite decide_False by lia.
  destruct (flush_loop_ok fuel st false false lo hi) as (st' & -> & Hr & Hs & Hc); try done; try lia. by exists st'.
Qed.

(** The whole segment. *)
Lemma cache_flush_all_ok fuel st :
  cs_wf n st → dirty_idle (cs_pages st) → segcache_size st < Z.of_nat fuel →
  ∃ st', cache_flush_range n fuel st 0 (-1) = Some (st', op_success_status) ∧ room n st st' ∧
    ∀ o p, cs_pages st' !! o = Some p → o < segcache_size st → cp_dirty p = false.
Proof.
  intros Hwf Hdi Hfuel. unfold cache_flush_range, cache_flush_range_func. rewrite !(decide_True (P := -1 = -1)) by done. cbn zeta. unfold segcache_size in *.
  destruct (decide (cs_total st > 0)) as [Ht|Ht].
  - rewrite decide_False by lia.
    destruct (flush_loop_ok fuel st false false 0 (0 + cs_total st - 1)) as (st' & -> & Hr & _ & Hc); try done; try lia. exists st'. split; [done|]. split; [done|].
    intros o p Hp Ho. apply (Hc o p Hp). rewrite row_aligned; [|lia|exists 0; lia]. destruct (cw_page _ _ (rm_wf _ _ _ Hr) o p Hp). lia.
  - rewrite decide_True by lia. exists st. split; [done|]. split; [by apply room_refl|]. intros o p Hp Ho. destruct (cw_page _ _ Hwf o p Hp). lia.
Qed.
End flush.
