(* ===== verification/CPageMid.v ===== *)
(** * In the middle of a request to a cached segment

    The steps of a request: pages are added, held, loaded, changed and released,
    and what the segment holds meanwhile. *)
From S2P Require Import Prelude Seg CPage CPageOk CPageRun CPageFlush CPageGet.
From stdpp Require Import gmap.
#[local] Open Scope Z_scope.

Lemma dirty_count_ext pages pages' : (∀ o, cp_dirty <$> pages' !! o = cp_dirty <$> pages !! o) → dirty_count pages' = dirty_count pages.
Proof.
  intros Hd. assert (∀ pgs : gmap Z cache_page, dirty_count pgs = Z.of_nat (size (filter (λ ob : Z * bool, ob.2 = true) (cp_dirty <$> pgs)))) as Hc.
  { intros pgs. unfold dirty_count. rewrite map_filter_fmap, map_size_fmap. done. }
  rewrite !Hc. do 3 f_equal. apply map_eq. intros o. by rewrite !lookup_fmap.
Qed.

Section mid.
Context {S A : Type} `{!Segment S, !SegBytes S, !SegmentOk S, !SegmentVecOk S, !SegmentPageOk S, !Gop, !GopOk}.
Context (n : Z) (Hn2 : 2 ≤ n).
Implicit Types (st : cache_segment S A).

Abbreviation row := (page_row n).

(** Nothing of the segment is lost. *)
Definition grows st st' : Prop :=
  (∀ e, extent n st e → extent n st' e) ∧ cs_total st' = cs_total st ∧ segment_size (cs_child st) ≤ segment_size (cs_child st').

Lemma grows_refl st : grows st st.
Proof. split; [done|]. split; [done|lia]. Qed.
Lemma grows_trans st st1 st2 : grows st st1 → grows st1 st2 → grows st st2.
Proof. intros (A1 & A2 & A3) (B1 & B2 & B3). split; [auto|]. split; [congruence|lia]. Qed.
Lemma room_grows st st' : room n st st' → grows st st'.
Proof. intros Hr. split; [apply (rm_extent _ _ _ Hr)|]. split; [apply (rm_total _ _ _ Hr)|apply (rm_size _ _ _ Hr)]. Qed.

Lemma grows_set st o p last db pol :
  (was_dirty (cs_pages st) o = 1 → cp_dirty p = true) →
  grows st (Cache_segment (cs_child st) (<[o := p]> (cs_pages st)) last (cs_total st) db pol).
Proof. intros Hd. split; [intros e; apply extent_set; [done|lia]|]. split; [done|simpl; lia]. Qed.

Lemma loaded_page l st st' o p' :
  loaded n l st st' → present st l → cs_pages st' !! o = Some p' →
  ∃ p, cs_pages st !! o = Some p ∧
    if decide (o ∈ l) then ∃ d, p' = cp_set_empty (cp_set_data p (Some d)) false ∧ ∀ x, 0 ≤ x < n → d x = seg_byte (cs_child st) (o + x) else p' = p.
Proof.
  intros Hl Hpr Hp'. case_decide as Ho.
  - destruct (Hpr o Ho) as [p Hp]. destruct (ld_in _ _ _ _ Hl o p Ho Hp) as (d & Hd & Hx). exists p. split; [done|]. exists d. split; [congruence|done].
  - rewrite (ld_out _ _ _ _ Hl o Ho) in Hp'. eauto.
Qed.

Lemma loaded_dirty l st st' o : loaded n l st st' → present st l → cp_dirty <$> cs_pages st' !! o = cp_dirty <$> cs_pages st !! o.
Proof.
  intros Hl Hpr. destruct (decide (o ∈ l)) as [Ho|Ho]; [|by rewrite (ld_out _ _ _ _ Hl o Ho)].
  destruct (Hpr o Ho) as [p Hp]. destruct (ld_in _ _ _ _ Hl o p Ho Hp) as (d & Hd & _). by rewrite Hd, Hp.
Qed.

Lemma loaded_grows l st st' : loaded n l st st' → present st l → grows st st'.
Proof.
  intros Hl Hpr. split; [|split; [apply (ld_total _ _ _ _ Hl)|rewrite (ld_size _ _ _ _ Hl); lia]]. intros e [He|(o & p & Hp & Hd & He)]; [left; by rewrite (ld_size _ _ _ _ Hl)|]. right.
  pose proof (loaded_dirty l st st' o Hl Hpr) as Hdo. rewrite Hp in Hdo. apply fmap_Some in Hdo as (p' & Hp' & Heq). exists o, p'. split; [done|].
  split; [by rewrite <- Heq|done].
Qed.

Lemma loaded_wf l st st' : loaded n l st st' → present st l → cs_wf n st → cs_wf n st'.
Proof.
  intros Hl Hpr Hwf. split.
  - apply (ld_up _ _ _ _ Hl). by destruct Hwf.
  - intros o p' Hp'. destruct (loaded_page _ _ _ _ _ Hl Hpr Hp') as (p & Hp & Hcase). destruct (cw_page _ _ Hwf o p Hp) as (? & ? & ?).
    case_decide; [destruct Hcase as (d & -> & _)|subst p']; split_and!; done.
  - intros o p' Hp' Hd Hi. destruct (loaded_page _ _ _ _ _ Hl Hpr Hp') as (p & Hp & Hcase). case_decide.
    + destruct Hcase as (d & -> & Hx). exists d. split; [done|]. intros x Hxn. by rewrite Hx, (ld_child _ _ _ _ Hl).
    + subst p'. destruct (cw_clean _ _ Hwf o p Hp Hd Hi) as (d & Hpd & Hx). exists d. split; [done|]. intros x Hxn. by rewrite Hx, (ld_child _ _ _ _ Hl).
  - intros i Hi. rewrite (ld_last _ _ _ _ Hl), (ld_child _ _ _ _ Hl). by apply (cw_zero _ _ Hwf).
  - rewrite (ld_last _ _ _ _ Hl), (ld_size _ _ _ _ Hl). by destruct Hwf.
  - rewrite (ld_dirty _ _ _ _ Hl), (dirty_count_ext (cs_pages st)); [by destruct Hwf|]. intros o. by eapply loaded_dirty.
Qed.

(** ** Pages that are held *)

(** The segment holds [g]; the pages [l] are held by the request. *)
Record held (mode : page_mode) (g : Z → Z) (l : list Z) st : Prop := {
  hd_wf : cs_wf n st;
  hd_byte i : cs_byte n st i = g i;
  hd_idle o p : cs_pages st !! o = Some p → (o ∉ l) → idle p ∧ cp_empty p = false;
  hd_in o : o ∈ l → ∃ p, cs_pages st !! o = Some p ∧ (∃ e, loading mode e p ∧ (mode = CACHE_READ → e = false)) ∧
    (mode = CACHE_READ → page_agrees n o p (seg_byte (cs_child st))) }.

Lemma mid_present mode f g l pin st : mid n mode f g l pin st → present st l.
Proof. intros Hm o Ho. destruct (md_load _ _ _ _ _ _ _ Hm o Ho) as [(p & Hp & _) _]. by rewrite Hp. Qed.

Lemma mid_held mode f g l st st' :
  mid n mode f g l None st → loaded n l st st' → held mode (λ i, if decide (row i ∈ l) then f i else g i) l st'.
Proof.
  intros Hm Hl. pose proof (mid_present _ _ _ _ _ _ Hm) as Hpr. assert (0 < n) as Hn by lia. split.
  - eapply loaded_wf; [done..|]. by destruct Hm.
  - intros i. case_decide as Hi.
    + destruct (md_load _ _ _ _ _ _ _ Hm _ Hi) as [(p & Hp & _) Hf]. destruct (ld_in _ _ _ _ Hl _ p Hi Hp) as (d & Hd & Hx).
      destruct (row_spec n Hn i) as [Hal Hri].
      rewrite (cs_byte_in n st' (row i) _ d i Hd) by (done || lia). rewrite Hx by lia. rewrite <- Hf by done. f_equal. lia.
    + rewrite <- (md_byte _ _ _ _ _ _ _ Hm i Hi). unfold cs_byte. rewrite (ld_out _ _ _ _ Hl _ Hi), (ld_child _ _ _ _ Hl). done.
  - intros o p Hp Ho. rewrite (ld_out _ _ _ _ Hl _ Ho) in Hp. by apply (md_idle _ _ _ _ _ _ _ Hm o p).
  - intros o Ho. destruct (md_load _ _ _ _ _ _ _ Hm o Ho) as [(p & Hp & Hld) _]. destruct (ld_in _ _ _ _ Hl _ p Ho Hp) as (d & Hd & Hx).
    eexists. split; [done|]. split.
    + destruct Hld as (_ & H1 & _ & H3 & H4 & H5). exists false. by split_and!.
    + intros _. exists d. split; [done|]. intros x Hxn. by rewrite Hx, (ld_child _ _ _ _ Hl).
Qed.

Lemma held_quiet mode g st : held mode g [] st → cs_quiet st.
Proof. intros Hh o p Hp. apply (hd_idle _ _ _ _ Hh o p Hp), not_elem_of_nil. Qed.

(** A page is set while others are held. *)
Lemma held_set mode g g' l l' st o p d db :
  held mode g l st → o ∈ l → cp_data p = Some d →
  (cp_dirty p = false → idle p → page_agrees n o p (seg_byte (cs_child st))) →
  (was_dirty (cs_pages st) o = 1 → cp_dirty p = true) →
  db = cs_dirty_bytes st + n * (Z.b2z (cp_dirty p) - was_dirty (cs_pages st) o) →
  (∀ i, row i = o → g' i = d (i - o)) → (∀ i, row i ≠ o → g' i = g i) →
  ((o ∉ l') → idle p ∧ cp_empty p = false) →
  (o ∈ l' → (∃ e, loading mode e p ∧ (mode = CACHE_READ → e = false)) ∧ (mode = CACHE_READ → page_agrees n o p (seg_byte (cs_child st)))) →
  (∀ x, x ≠ o → x ∈ l' ↔ x ∈ l) →
  let st' := Cache_segment (cs_child st) (<[o := p]> (cs_pages st)) (cs_last st) (cs_total st) db (cs_policy st) in
  held mode g' l' st' ∧ grows st st'.
Proof.
  intros Hh Ho Hd Hag Hmon Hdb Hg1 Hg2 Hout Hin Hl' st'. subst st'. destruct (hd_in _ _ _ _ Hh o Ho) as (p0 & Hp0 & _).
  destruct (cw_page _ _ (hd_wf _ _ _ _ Hh) o p0 Hp0) as (Ho0 & Hal & _). split; [|by apply grows_set]. split; cbn [cs_pages cs_child].
  - apply wf_set; try done. by destruct Hh.
  - intros i. rewrite (byte_set n st o p d) by done. case_decide as Hi; [by rewrite Hg1|]. rewrite Hg2 by done. by destruct Hh.
  - intros o' p' [[<- <-]|[Hne Hp']]%lookup_insert_Some Ho'; [by apply Hout|]. apply (hd_idle _ _ _ _ Hh o' p' Hp'). by rewrite <- Hl'.
  - intros o' Ho'. destruct (decide (o' = o)) as [->|Hne].
    + exists p. rewrite lookup_insert_eq. split; [done|]. by apply Hin.
    + rewrite lookup_insert_ne by done. apply (hd_in _ _ _ _ Hh). by apply Hl'.
Qed.

Lemma held_drop mode g l st o p d db :
  held mode g (o :: l) st → (o ∉ l) → cp_data p = Some d → (∀ i, row i = o → g i = d (i - o)) → idle p → cp_empty p = false →
  (cp_dirty p = false → page_agrees n o p (seg_byte (cs_child st))) → (was_dirty (cs_pages st) o = 1 → cp_dirty p = true) →
  db = cs_dirty_bytes st + n * (Z.b2z (cp_dirty p) - was_dirty (cs_pages st) o) →
  let st' := Cache_segment (cs_child st) (<[o := p]> (cs_pages st)) (cs_last st) (cs_total st) db (cs_policy st) in
  held mode g l st' ∧ grows st st'.
Proof.
  intros Hh Ho Hd Hg Hi He Hag Hmon Hdb. apply (held_set mode g g (o :: l) l st o p d db Hh); try done; [by left|by auto|].
  intros x Hx. rewrite elem_of_cons. tauto.
Qed.

Lemma release_held mode g l : ∀ st,
  mode ≠ CACHE_FLUSH → NoDup l → held mode g l st →
  ∃ st', cache_release_pages n mode st l = Some st' ∧ held mode g [] st' ∧ grows st st' ∧
    (mode = CACHE_WRITE → ∀ o e, o ∈ l → o < e ≤ o + n → extent n st' e).
Proof.
  induction l as [|o l IH]; intros st Hmode Hnd Hh; cbn [cache_release_pages].
  { exists st. split; [done|]. split; [done|]. split; [apply grows_refl|]. by intros _ o e ?%not_elem_of_nil. }
  apply NoDup_cons in Hnd as [Ho Hnd]. destruct (hd_in _ _ _ _ Hh o ltac:(by left)) as (p & Hp & (e0 & Hld & He0) & Hag).
  destruct Hld as ([d Hd] & Hcl & He & Hr & Hw & Hf).
  assert (∀ i, row i = o → g i = d (i - o)) as Hgo.
  { intros i Hi. rewrite <- (hd_byte _ _ _ _ Hh). destruct (cw_page _ _ (hd_wf _ _ _ _ Hh) o p Hp) as (_ & Hal & _).
    pose proof (row_spec n ltac:(lia) i) as [_ ?]. apply (cs_byte_in n st o p d i); try done. lia. }
  assert (was_dirty (cs_pages st) o = Z.b2z (cp_dirty p)) as Hwas by (unfold was_dirty; by rewrite Hp).
  assert (∃ st1, release_page n mode st o = Some st1 ∧ held mode g l st1 ∧ grows st st1 ∧ (mode = CACHE_WRITE → ∀ e, o < e ≤ o + n → extent n st1 e)) as (st1 & -> & Hh1 & Hg1 & Hw1).
  { unfold release_page. rewrite Hp. cbn [mbind option_bind]. destruct mode; [| |done].
    - specialize (Hcl eq_refl). rewrite Hcl in Hwas. rewrite (He0 eq_refl) in He. eexists. split; [done|]. match goal with |- ?P ∧ ?Q ∧ _ => enough (P ∧ Q) as [? ?] by (by split_and!) end.
      apply (held_drop CACHE_READ g l st o (cp_pend CACHE_READ (-1) p) d (cs_dirty_bytes st) Hh); try done.
      + unfold idle. simpl in *. lia.
      + intros _. by apply Hag.
      + by rewrite Hwas.
      + rewrite Hwas. simpl. rewrite Hcl. simpl. lia.
    - set (p' := cp_set_dirty (cp_set_empty (cp_pend CACHE_WRITE (-1) p) false) true).
      destruct (held_drop CACHE_WRITE g l st o p' d (cs_dirty_bytes st + n * (1 - Z.b2z (cp_dirty p))) Hh) as [Hh1 Hg1]; try done.
      { unfold idle. simpl in *. lia. }
      { by rewrite Hwas. }
      change (cp_dirty (cp_set_empty (cp_pend CACHE_WRITE (-1) p) false)) with (cp_dirty p). destruct (cp_dirty p) eqn:Hdp; eexists; (split; [done|]).
      + assert (cp_set_empty (cp_pend CACHE_WRITE (-1) p) false = p') as -> by (destruct p; unfold p', cp_set_dirty; simpl in *; by rewrite Hdp).
        replace (cs_dirty_bytes st + n * (1 - Z.b2z true)) with (cs_dirty_bytes st) in * by (simpl; lia). split; [exact Hh1|]. split; [exact Hg1|].
        intros _ e Hee. right. exists o, p'. simpl. rewrite lookup_insert_eq. done.
      + replace (cs_dirty_bytes st + n * (1 - Z.b2z false)) with (cs_dirty_bytes st + n) in * by (simpl; lia). split; [exact Hh1|]. split; [exact Hg1|].
        intros _ e Hee. right. exists o, p'. simpl. rewrite lookup_insert_eq. done. }
  cbn [mbind option_bind]. destruct (IH st1 Hmode Hnd Hh1) as (st2 & -> & Hh2 & Hg2 & Hw2). exists st2. split; [done|]. split; [done|].
  split; [by eapply grows_trans|]. intros Hm x e [->|Hx]%elem_of_cons Hxe; [apply Hg2; by apply Hw1|by eapply Hw2].
Qed.

(** ** Steps before the load *)
Lemma mid_add mode f g l pin st c p db :
  mode ≠ CACHE_FLUSH → mid n mode f g l pin st → cs_pages st !! c = None → 0 ≤ c → (n | c) → loading mode true p →
  (∀ i, row i = c → g i = f i) → db = cs_dirty_bytes st + n * Z.b2z (cp_dirty p) →
  let st' := Cache_segment (cs_child st) (<[c := p]> (cs_pages st)) (cs_last st) (cs_total st) db (cs_policy st) in
  mid n mode f g (l ++ [c]) pin st' ∧ grows st st'.
Proof.
  intros Hmode Hm Hc Hc0 Hal Hld Hgf Hdb st'. subst st'. assert (was_dirty (cs_pages st) c = 0) as Hwas by (unfold was_dirty; by rewrite Hc).
  split; [|apply grows_set; by rewrite Hwas]. destruct Hld as ([d Hd] & Hld). split; cbn [cs_pages cs_child].
  - apply wf_set; try done; [by destruct Hm| |].
    + intros _ Hi. exfalso. apply (loading_busy mode true p Hmode); [|done]. split; [by eexists|done].
    + rewrite Hwas. lia.
  - intros i Hi. rewrite elem_of_app, list_elem_of_singleton in Hi. rewrite (byte_set n st c p d) by done.
    rewrite decide_False by tauto. apply (md_byte _ _ _ _ _ _ _ Hm). tauto.
  - intros o p' [[<- <-]|[Hne Hp']]%lookup_insert_Some Ho Hpin; rewrite elem_of_app, list_elem_of_singleton in Ho; [tauto|].
    apply (md_idle _ _ _ _ _ _ _ Hm o p' Hp'); [tauto|done].
  - intros o Ho. destruct (md_pin _ _ _ _ _ _ _ Hm o Ho) as (Hol & p' & Hp' & Hrest). assert (o ≠ c) as Hne by congruence. split.
    + rewrite elem_of_app, list_elem_of_singleton. tauto.
    + exists p'. split; [|done]. by rewrite lookup_insert_ne.
  - intros o [Ho|Ho%list_elem_of_singleton]%elem_of_app.
    + destruct (md_load _ _ _ _ _ _ _ Hm o Ho) as [(p' & Hp' & Hld') Hf]. assert (o ≠ c) as Hne by congruence. split; [|done].
      exists p'. split; [|done]. by rewrite lookup_insert_ne.
    + subst o. split; [exists p; rewrite lookup_insert_eq; split; [done|]; split; [by eexists|done]|].
      intros i Hi. rewrite <- Hgf by done. destruct (decide (row i ∈ l)) as [Hil|Hil].
      * destruct (md_load _ _ _ _ _ _ _ Hm _ Hil) as [(p' & Hp' & _) _]. congruence.
      * rewrite <- (md_byte _ _ _ _ _ _ _ Hm i Hil). symmetry. apply cs_byte_out. by rewrite Hi.
Qed.

Lemma mid_put mode f g g' l pin st c p d db :
  mid n mode f g l pin st → 0 ≤ c → (n | c) → (c ∉ l) → pin ≠ Some c → cp_data p = Some d → idle p → cp_empty p = false →
  (cp_dirty p = false → page_agrees n c p (seg_byte (cs_child st))) → (was_dirty (cs_pages st) c = 1 → cp_dirty p = true) →
  db = cs_dirty_bytes st + n * (Z.b2z (cp_dirty p) - was_dirty (cs_pages st) c) →
  (∀ i, row i = c → g' i = d (i - c)) → (∀ i, row i ≠ c → (row i ∉ l) → g' i = g i) →
  let st' := Cache_segment (cs_child st) (<[c := p]> (cs_pages st)) (cs_last st) (cs_total st) db (cs_policy st) in
  mid n mode f g' l pin st' ∧ grows st st'.
Proof.
  intros Hm Hc0 Hal Hcl Hpin Hd Hi He Hag Hmon Hdb Hg1 Hg2 st'. subst st'. split; [|by apply grows_set]. split; cbn [cs_pages cs_child].
  - apply wf_set; try done; [by destruct Hm|by auto].
  - intros i Hil. rewrite (byte_set n st c p d) by done. case_decide as Hic; [by rewrite Hg1|]. rewrite Hg2 by done.
    by apply (md_byte _ _ _ _ _ _ _ Hm).
  - intros o p' [[<- <-]|[Hne Hp']]%lookup_insert_Some Ho Hpo; [done|]. by apply (md_idle _ _ _ _ _ _ _ Hm o p').
  - intros o Ho. destruct (md_pin _ _ _ _ _ _ _ Hm o Ho) as (Hol & p' & Hp' & Hrest). split; [done|].
    exists p'. split; [|done]. rewrite lookup_insert_ne by congruence. done.
  - intros o Ho. destruct (md_load _ _ _ _ _ _ _ Hm o Ho) as [(p' & Hp' & Hld') Hf]. split; [|done].
    exists p'. split; [|done]. rewrite lookup_insert_ne by (intros ->; done). done.
Qed.

(** A page is held so that it stays. *)
Lemma mid_pin mode f g l st o p :
  mid n mode f g l None st → cs_pages st !! o = Some p → (o ∉ l) →
  on_page st o (cp_pend CACHE_READ 1) = Some (cs_set_page st o (cp_pend CACHE_READ 1 p)) ∧
  mid n mode f g l (Some o) (cs_set_page st o (cp_pend CACHE_READ 1 p)) ∧ grows st (cs_set_page st o (cp_pend CACHE_READ 1 p)).
Proof.
  intros Hm Hp Ho. destruct (cw_page _ _ (md_wf _ _ _ _ _ _ _ Hm) o p Hp) as (Ho0 & Hal & d & Hd).
  destruct (md_idle _ _ _ _ _ _ _ Hm o p Hp Ho ltac:(done)) as [Hi He]. pose proof Hi as (Hr & Hw & Hf).
  assert (was_dirty (cs_pages st) o = Z.b2z (cp_dirty p)) as Hwas by (unfold was_dirty; by rewrite Hp).
  split; [unfold on_page; by rewrite Hp|]. split; [|apply grows_set; rewrite Hwas; simpl; by destruct (cp_dirty p)].
  split; cbn [cs_pages cs_child cs_set_page cs_set_pages].
  - apply wf_set; try done; [by destruct Hm| |].
    + intros _ (Hr' & _). simpl in Hr'. lia.
    + rewrite Hwas. simpl. lia.
  - intros i Hi'. etrans; [by apply (byte_set n st o _ d)|]. case_decide as Hio; [|by apply (md_byte _ _ _ _ _ _ _ Hm)].
    rewrite <- (md_byte _ _ _ _ _ _ _ Hm i Hi'). pose proof (row_spec n ltac:(lia) i) as [_ ?]. symmetry. apply (cs_byte_in n st o p d i); try done. lia.
  - intros o' p' [[<- <-]|[Hne Hp']]%lookup_insert_Some Ho' Hpo; [done|]. by apply (md_idle _ _ _ _ _ _ _ Hm o' p').
  - intros o' [= <-]. split; [done|]. exists (cp_pend CACHE_READ 1 p). simpl. rewrite lookup_insert_eq. split_and!; try done; [lia|].
    intros Hdp. by apply (cw_clean _ _ (md_wf _ _ _ _ _ _ _ Hm) o p Hp).
  - intros o' Ho'. destruct (md_load _ _ _ _ _ _ _ Hm o' Ho') as [(p' & Hp' & Hld') Hf']. split; [|done].
    exists p'. split; [|done]. simpl. rewrite lookup_insert_ne by (intros ->; done). done.
Qed.

Lemma mid_unpin mode f g l st o :
  mid n mode f g l (Some o) st →
  ∃ st', cache_release_pages n CACHE_READ st [o] = Some st' ∧ (∀ x, cs_pages st !! x = None → cs_pages st' !! x = None) ∧
    mid n mode f g l None st' ∧ grows st st'.
Proof.
  intros Hm. destruct (md_pin _ _ _ _ _ _ _ Hm o eq_refl) as (Ho & p & Hp & He & Hr & Hw & Hf & Hag).
  destruct (cw_page _ _ (md_wf _ _ _ _ _ _ _ Hm) o p Hp) as (Ho0 & Hal & d & Hd).
  assert (was_dirty (cs_pages st) o = Z.b2z (cp_dirty p)) as Hwas by (unfold was_dirty; by rewrite Hp).
  cbn [cache_release_pages]. unfold release_page. rewrite Hp. cbn [mbind option_bind]. eexists. split; [done|].
  split; [intros x; simpl; rewrite lookup_insert_None; intros Hx; split; [done|congruence]|].
  split; [|apply grows_set; rewrite Hwas; simpl; by destruct (cp_dirty p)].
  split; cbn [cs_pages cs_child cs_set_page cs_set_pages].
  - apply wf_set; try done; [by destruct Hm|by auto|].
    + rewrite Hwas. simpl. lia.
  - intros i Hi'. etrans; [by apply (byte_set n st o _ d)|]. case_decide as Hio; [|by apply (md_byte _ _ _ _ _ _ _ Hm)].
    rewrite <- (md_byte _ _ _ _ _ _ _ Hm i Hi'). pose proof (row_spec n ltac:(lia) i) as [_ ?]. symmetry. apply (cs_byte_in n st o p d i); try done. lia.
  - intros o' p' [[<- <-]|[Hne Hp']]%lookup_insert_Some Ho' Hpo; [|apply (md_idle _ _ _ _ _ _ _ Hm o' p' Hp' Ho'); congruence].
    unfold idle. simpl. split; [lia|done].
  - done.
  - intros o' Ho'. destruct (md_load _ _ _ _ _ _ _ Hm o' Ho') as [(p' & Hp' & Hld') Hf']. split; [|done].
    exists p'. split; [|done]. simpl. rewrite lookup_insert_ne by (intros ->; done). done.
Qed.
End mid.
