(* ===== verification/CPageRd.v ===== *)
(** * Reading through the pages of a cached segment

    A read gets every byte of its range from the pages or, page by page, from
    the child. *)
From S2P Require Import Prelude Seg CPage CPageOk CPageRun CPageFlush CPageGet CPageMid.
From stdpp Require Import gmap.
#[local] Open Scope Z_scope.

(** Where a page and a request meet. *)
Lemma page_piece_eq n o lo hi bpos :
  0 < n → page_piece n o lo hi bpos = (Z.max lo o - o, bpos + Z.max lo o - lo, Z.min hi (o + n - 1) - Z.max lo o + 1).
Proof. intros Hn. unfold page_piece. repeat case_decide; f_equal; [f_equal| |f_equal| |f_equal| |f_equal|]; lia. Qed.

Section read.
Context {S A : Type} `{!Segment S, !SegBytes S, !SegmentOk S, !SegmentVecOk S, !SegmentPageOk S, !Gop, !GopOk, !PageAlloc S A}.
Context (n : Z) (Hn2 : 2 ≤ n) `{!PageAllocOk (S := S) (A := A) n}.
Implicit Types (st : cache_segment S A) (buf : tbuffer).

Abbreviation row := (page_row n).

Lemma blank_loading mode : mode ≠ CACHE_FLUSH → loading mode true (cp_pend mode 1 blank_page).
Proof. intros Hm. unfold loading. destruct mode; [| |done]; simpl; (split; [by eexists|by split_and!]). Qed.

Lemma room_absent st st' o : room n st st' → cs_pages st !! o = None → cs_pages st' !! o = None.
Proof.
  intros Hr Ho. destruct (cs_pages st' !! o) as [p'|] eqn:Hp'; [|done]. destruct (rm_sub _ _ _ Hr o p' Hp') as (p & Hp & _). congruence.
Qed.

Lemma make_room st b : cs_wf n st → ∃ st' ok, create_empty_page st b = (st', ok) ∧ room n st st' ∧ (b = true → ok = true).
Proof.
  intros Hwf. pose proof (create_room n st b Hwf) as Hr. pose proof (create_blocking n st Hwf) as Hb.
  destruct (create_empty_page st b) as [st' ok] eqn:Hc. exists st', ok. split; [done|]. split; [done|]. intros ->. by rewrite Hc in Hb.
Qed.

(** ** Fetching *)
Lemma advise_loop_ok maxp force f s rows : ∀ st got,
  0 ≤ s → (n | s) → mid n CACHE_READ f f got None st → contiguous n s got →
  ∃ st' got', advise_loop n rows st (s + n * Z.of_nat (length got)) CACHE_READ maxp force got = (st', got') ∧
    mid n CACHE_READ f f got' None st' ∧ grows n st st' ∧ contiguous n s got' ∧
    (length got' ≤ length got + rows)%nat ∧ (got' = [] → room n st st').
Proof.
  induction rows as [|rows IH]; intros st got Hs Hal Hm Hc; cbn [advise_loop].
  { exists st, got. split; [done|]. split; [done|]. split; [apply grows_refl|]. split; [done|]. split; [lia|]. intros _. apply room_refl. by destruct Hm. }
  set (c := s + n * Z.of_nat (length got)).
  assert (0 ≤ c ∧ (n | c)) as [Hc0 Hcal] by (unfold c; split; [nia|]; apply Z.divide_add_r; [done|]; by exists (Z.of_nat (length got)); lia).
  case_decide as Hnext.
  { exists st, got. split; [done|]. split; [done|]. split; [apply grows_refl|]. split; [done|]. split; [lia|]. intros _. apply room_refl. by destruct Hm. }
  assert (cs_pages st !! c = None) as Hnone.
  { destruct (cs_pages st !! c) as [p|] eqn:Hp; [|done]. by rewrite (next_page_at _ _ p Hp) in Hnext. }
  assert (∃ st1 ok, (let '(st1, ok) := create_empty_page st false in
      if negb ok && force && bool_decide (got = []) then create_empty_page st1 force else (st1, ok)) = (st1, ok) ∧ room n st st1) as (st1 & ok & Heq & Hr).
  { destruct (make_room st false (md_wf _ _ _ _ _ _ _ Hm)) as (st1 & ok & -> & Hr & _). destruct (_ && _); [|eauto].
    destruct (make_room st1 force (rm_wf _ _ _ Hr)) as (st2 & ok2 & -> & Hr2 & _). do 2 eexists. split; [done|]. by eapply room_trans. }
  destruct (create_empty_page st false) as [st0 ok0]. rewrite Heq.
  pose proof (mid_room n CACHE_READ f f got None st st1 ltac:(done) Hm Hr) as Hm1. pose proof (room_absent _ _ _ Hr Hnone) as Hnone1.
  destruct ok; cbn [negb].
  2: { exists st1, got. split; [done|]. split; [done|]. split; [by apply room_grows|]. split; [done|]. split; [lia|done]. }
  rewrite Hnone1. set (st2 := cs_set_page st1 c _).
  destruct (mid_add n CACHE_READ f f got None st1 c (cp_pend CACHE_READ 1 blank_page) (cs_dirty_bytes st1)) as [Hm2 Hg2];
    [done|done|done|done|done|by apply blank_loading|done|simpl; lia|].
  assert (contiguous n s (got ++ [c])) as Hc2 by (apply contiguous_app; split; [done|by split]).
  assert (grows n st st2) as Hg by (eapply grows_trans; [by apply room_grows|exact Hg2]).
  case_decide as Hmax.
  { exists st2, (got ++ [c]). split; [done|]. split; [done|]. split; [done|]. split; [done|]. rewrite length_app. split; [simpl; lia|]. by destruct got. }
  destruct (IH st2 (got ++ [c]) Hs Hal Hm2 Hc2) as (st' & got' & Hl & Hm' & Hg' & Hc' & Hlen & Hr'). exists st', got'.
  rewrite length_app in Hl, Hlen. simpl length in Hl, Hlen.
  replace (s + n * Z.of_nat (length got + 1)) with (c + n) in Hl by (unfold c; lia). split; [done|]. split; [done|].
  split; [by eapply grows_trans|]. split; [done|]. split; [lia|]. intros ->.
  exfalso.
  destruct (md_load _ _ _ _ _ _ _ Hm2 c ltac:(apply elem_of_app; right; by left)) as [(p' & Hp' & Hld) _].
  specialize (Hr' eq_refl). pose proof (rm_keep _ _ _ Hr' c p' Hp' (loading_busy CACHE_READ _ _ ltac:(done) Hld)) as Hk.
  destruct (md_idle _ _ _ _ _ _ _ Hm' c p' Hk ltac:(apply not_elem_of_nil) ltac:(done)) as [Hi _]. exact (loading_busy CACHE_READ true p' ltac:(done) Hld Hi).
Qed.

Lemma mid_dirty_idle f got st : mid n CACHE_READ f f got None st → dirty_idle (cs_pages st).
Proof.
  intros Hm o p Hp. destruct (decide (o ∈ got)) as [Ho|Ho].
  - destruct (md_load _ _ _ _ _ _ _ Hm o Ho) as [(p' & Hp' & _ & Hd & _ & _ & _ & Hf) _]. assert (p' = p) as -> by congruence.
    split; [done|]. rewrite Hd by done. done.
  - destruct (md_idle _ _ _ _ _ _ _ Hm o p Hp Ho ltac:(done)) as [Hi He]. split; [by destruct Hi as (_ & _ & ?)|done].
Qed.

Lemma held_ext mode g g' l st : (∀ i, g i = g' i) → held n mode g l st → held n mode g' l st.
Proof. intros Hg [H1 H2 H3 H4]. split; try done. intros i. by rewrite <- Hg. Qed.

Lemma held_none mode st : cs_wf n st → cs_quiet st → held n mode (cs_byte n st) [] st.
Proof. intros Hwf Hq. split; try done; [by intros o p Hp _; eapply Hq|by intros o ?%not_elem_of_nil]. Qed.

(** The pages that were added take the bytes of the child, which is flushed
    first if it is too short. *)
Lemma advise_load fuel f got st :
  mid n CACHE_READ f f got None st → extent n st (cs_total st) → NoDup got → (∀ o, o ∈ got → 0 ≤ o < cs_total st) → cs_total st < Z.of_nat fuel → 0 < cs_total st →
  ∃ st1 st2, (if decide (segment_size (cs_child st) < segcache_size st) then fst <$> cache_flush_range n fuel st 0 (-1) else Some st) = Some st1 ∧
    cache_rw_pages n st1 got CACHE_READ false = Some (st2, 0) ∧ held n CACHE_READ f got st2 ∧ grows n st st2.
Proof.
  intros Hm Hext Hnd Hgot Hfuel Htot. assert (segcache_size st = cs_total st) as Hsz by (unfold segcache_size; rewrite decide_True; [done|lia]).
  assert (∃ st1, (if decide (segment_size (cs_child st) < segcache_size st) then fst <$> cache_flush_range n fuel st 0 (-1) else Some st) = Some st1 ∧
    room n st st1 ∧ cs_total st ≤ segment_size (cs_child st1)) as (st1 & -> & Hr & Hsize).
  { pose proof (md_wf _ _ _ _ _ _ _ Hm) as Hwf. rewrite Hsz. case_decide; [|exists st; split; [done|]; split; [by apply room_refl|lia]].
    destruct (cache_flush_all_ok n Hn2 fuel st Hwf) as (st1 & -> & Hr & Hc); [by eapply mid_dirty_idle|lia|].
    exists st1. split; [done|]. split; [done|]. destruct (rm_extent _ _ _ Hr _ Hext) as [He|(o & p & Hp & Hd & He)]; [lia|].
    rewrite (Hc o p Hp) in Hd; [done|lia]. }
  pose proof (mid_room n CACHE_READ f f got None st st1 ltac:(done) Hm Hr) as Hm1.
  destruct (rw_pages_read n ltac:(lia) st1 got) as (st2 & Hst2 & Hl).
  - by destruct (md_wf _ _ _ _ _ _ _ Hm1).
  - done.
  - apply Forall_forall. intros o Ho. destruct (md_load _ _ _ _ _ _ _ Hm1 o Ho) as [(p & Hp & Hd & _) _]. unfold has_data. rewrite Hp. by apply bool_decide_eq_true.
  - intros o Ho. specialize (Hgot o Ho). lia.
  - exists st1, st2. split; [done|]. split; [done|]. split.
    + apply (held_ext CACHE_READ (λ i, if decide (row i ∈ got) then f i else f i)); [intros i; by case_decide|by eapply mid_held].
    + eapply grows_trans; [by apply room_grows|]. eapply loaded_grows; [done|]. by eapply mid_present.
Qed.

Lemma cache_advise_ok fuel st lo hi maxp force :
  cs_wf n st → cs_quiet st → extent n st (cs_total st) → 0 ≤ lo → (n | lo) → lo ≤ hi → (n | hi) → hi < cs_total st → cs_total st < Z.of_nat fuel →
  ∃ st' got, cache_advise n fuel st CACHE_READ lo hi maxp force = Some (st', got) ∧
    held n CACHE_READ (cs_byte n st) got st' ∧ grows n st st' ∧ contiguous n lo got ∧ (∀ o, o ∈ got → o ≤ hi) ∧ (got = [] → room n st st').
Proof.
  intros Hwf Hq Hext Hlo Hal Hhi Halhi Htot Hfuel. unfold cache_advise. cbn zeta. case_decide.
  2: { exists st, []. split; [done|]. split; [by apply held_none|]. split; [apply grows_refl|]. split; [done|].
       split; [by intros o ?%not_elem_of_nil|]. intros _. by apply room_refl. }
  unfold cache_advise_fn. rewrite decide_False by (by intros []).
  destruct (advise_loop_ok maxp force (cs_byte n st) lo (Z.to_nat (n_rows n lo hi)) st [] Hlo Hal) as (st1 & got & Hl & Hm & Hg & Hc & Hlen & Hr).
  { by apply mid_start. } { done. }
  simpl length in *. replace (lo + n * Z.of_nat 0) with lo in Hl by lia. rewrite row_aligned, Hl by (done || lia).
  assert (∀ o, o ∈ got → lo ≤ o ≤ hi) as Hgot.
  { intros o Ho. apply (contiguous_in n ltac:(lia) _ _ _ Hc) in Ho as [[k Hk] Ho]. split; [lia|]. destruct Hal as [a ->], Halhi as [b ->].
    unfold n_rows in Hlen. rewrite !Z.div_mul in Hlen by lia. assert (a ≤ b) by nia. assert (k < b - a + 1) by nia. nia. }
  case_decide as Hn0.
  { subst got. exists st1, []. split; [done|]. specialize (Hr eq_refl). split; [|split; [done|split; [done|split; [by intros o ?%not_elem_of_nil|done]]]].
    eapply held_ext, held_none; [apply (rm_byte _ _ _ Hr)|by destruct Hr|by eapply room_quiet]. }
  assert (cs_total st1 = cs_total st) as Ht by apply Hg.
  destruct (advise_load fuel (cs_byte n st) got st1 Hm) as (st2 & st3 & -> & Hrw & Hh & Hg3); [rewrite Ht; by apply Hg|apply (contiguous_nodup n ltac:(lia) lo got Hc)| |lia|lia|].
  { intros o Ho. specialize (Hgot o Ho). lia. }
  cbn [mbind option_bind]. rewrite Hrw. cbn [mbind option_bind]. exists st3, got. split; [done|]. split; [done|]. split; [by eapply grows_trans|].
  split; [done|]. split; [|done]. intros o Ho. by apply Hgot.
Qed.

Lemma force_get_read st poff lo hi :
  cs_wf n st → cs_quiet st → 0 ≤ poff → (n | poff) → cs_pages st !! poff = None →
  ∃ st', cache_page_force_get n st CACHE_READ poff lo hi = Some (st', poff) ∧ held n CACHE_READ (cs_byte n st) [poff] st' ∧ grows n st st'.
Proof.
  intros Hwf Hq Ho Hal Hnone. unfold cache_page_force_get. rewrite row_aligned by (done || lia). rewrite Hnone.
  destruct (make_room st true Hwf) as (st1 & ok & -> & Hr & Hok). rewrite Hok by done. cbn [negb]. rewrite (room_absent _ _ _ Hr Hnone).
  pose proof (mid_room n CACHE_READ _ _ [] None st st1 ltac:(done) (mid_start n CACHE_READ st Hwf Hq) Hr) as Hm1.
  set (st2 := cs_set_page st1 poff (cp_pend CACHE_READ 1 blank_page)).
  assert (mid n CACHE_READ (cs_byte n st) (cs_byte n st) [poff] None st2 ∧ grows n st1 st2) as [Hm2 Hg2].
  { apply (mid_add n CACHE_READ _ _ [] None st1 poff (cp_pend CACHE_READ 1 blank_page) (cs_dirty_bytes st1)); try done;
      [by eapply room_absent|simpl; lia]. }
  assert (cs_pages st2 !! poff = Some (cp_pend CACHE_READ 1 blank_page)) as Hp2 by apply lookup_insert_eq.
  enough (∃ st3, (if decide (cs_last st2 >= poff) then fst <$> cache_rw_pages n st2 [poff] CACHE_READ false
      else on_page st2 poff (λ p, cp_set_dirty (cp_set_empty p false) false)) = Some st3 ∧ loaded n [poff] st2 st3) as (st3 & -> & Hl).
  { cbn [mbind option_bind]. exists st3. split; [done|]. split.
    - apply (held_ext CACHE_READ (λ i, if decide (row i ∈ [poff]) then cs_byte n st i else cs_byte n st i)); [intros i; by case_decide|].
      by eapply mid_held.
    - eapply grows_trans; [by apply room_grows|]. eapply grows_trans; [done|]. eapply loaded_grows; [done|]. by eapply mid_present. }
  pose proof (md_wf _ _ _ _ _ _ _ Hm2) as Hwf2. case_decide as Hlast.
  - destruct (rw_pages_read n ltac:(lia) st2 [poff]) as (st3 & Hst3 & Hl).
    + by destruct Hwf2.
    + apply NoDup_singleton.
    + apply Forall_singleton. unfold has_data. rewrite Hp2. done.
    + intros o ->%list_elem_of_singleton. pose proof (cw_last _ _ Hwf2). lia.
    + rewrite Hst3. by exists st3.
  - unfold on_page. rewrite Hp2. eexists. split; [done|]. split; try done.
    + intros o Hoo. rewrite list_elem_of_singleton in Hoo. simpl. by rewrite lookup_insert_ne.
    + intros o p ->%list_elem_of_singleton Hp. rewrite Hp2 in Hp. injection Hp as <-. exists (λ _, 0). simpl. rewrite lookup_insert_eq. split; [done|].
      intros x Hx. symmetry. apply (cw_zero _ _ Hwf2); [lia|]. rewrite (row_unique n poff) by (done || lia). lia.
Qed.

(** ** The pages that are there *)
Lemma read_loop_ok st lo hi bpos : cs_wf n st → cs_quiet st → lo ≤ hi → ∀ fuel o p hi_got k buf,
  cs_pages st !! o = Some p → row lo ≤ o → (above (cs_pages st) o < fuel)%nat →
  ∃ hi' k' buf', read_loop n fuel st lo hi bpos false (o, p) hi_got k buf = Some (hi', k', buf') ∧
    (k ≤ k')%nat ∧ (o ≤ hi → o + n - 1 ≤ hi' ∧ (k < k')%nat) ∧ (hi < o → hi' = hi_got) ∧
    ∀ b, buf' b = if decide (bpos + Z.max lo o - lo ≤ b ≤ bpos + Z.min hi' hi - lo ∧ o ≤ hi) then cs_byte n st (lo + b - bpos) else buf b.
Proof.
  intros Hwf Hq Hlo. destruct (row_spec n ltac:(lia) lo) as [Hrow1 Hrow2].
  induction fuel as [|fuel IH]; intros o p hi_got k buf Hp Ho Hfuel; [lia|]. cbn [read_loop].
  destruct (Hq o p Hp) as [_ ->]. cbn [negb Bool.eqb]. destruct (cw_page _ _ Hwf o p Hp) as (_ & Hal & d & Hd).
  case_decide as Hhi.
  { do 3 eexists. split; [done|]. split; [done|]. split; [lia|]. split; [done|]. intros b. rewrite decide_False by lia. done. }
  assert (lo < o + n) as Hlo2 by lia.
  rewrite Hd. cbn [mbind option_bind]. rewrite page_piece_eq by lia. set (buf1 := buf_put buf _ _ _ _).
  assert (∀ b, buf1 b = if decide (bpos + Z.max lo o - lo ≤ b ≤ bpos + Z.min (o + n - 1) hi - lo) then cs_byte n st (lo + b - bpos) else buf b) as Hb1.
  { intros b. unfold buf1, buf_put. destruct (decide (bpos + Z.max lo o - lo ≤ b ≤ bpos + Z.min (o + n - 1) hi - lo)).
    - rewrite decide_True by lia. rewrite (cs_byte_in n st o p d) by (done || lia). f_equal. lia.
    - by rewrite decide_False by lia. }
  assert (∃ hi' k' buf', Some (o + n - 1, Datatypes.S k, buf1) = Some (hi', k', buf') ∧ (k ≤ k')%nat ∧ (o ≤ hi → o + n - 1 ≤ hi' ∧ (k < k')%nat) ∧
    (hi < o → hi' = hi_got) ∧ ∀ b, buf' b = if decide (bpos + Z.max lo o - lo ≤ b ≤ bpos + Z.min hi' hi - lo ∧ o ≤ hi) then cs_byte n st (lo + b - bpos) else buf b) as Hstop.
  { do 3 eexists. split; [done|]. split; [lia|]. split; [lia|]. split; [lia|]. intros b. rewrite Hb1. apply decide_ext. lia. }
  pose proof (next_page_spec (cs_pages st) (o + 1)) as Hnext. destruct (next_page (cs_pages st) (o + 1)) as [[o' p']|]; [|done].
  destruct Hnext as (Hp' & Ho' & _). cbn [fst mbind option_bind]. destruct (decide (o + n - 1 = o' - 1)) as [Hcont|]; [|done].
  destruct (IH o' p' (o + n - 1) (Datatypes.S k) buf1 Hp' ltac:(lia)) as (hi' & k' & buf' & -> & Hk & Hprog & Hend & Hb).
  { pose proof (above_lt _ _ _ o' Hp ltac:(lia)). lia. }
  exists hi', k', buf'. split; [done|]. split; [lia|].
  assert (o + n - 1 ≤ hi') as Hge by (destruct (decide (o' ≤ hi)) as [Ho2|Ho2]; [destruct (Hprog Ho2); lia|rewrite (Hend ltac:(lia)); lia]).
  split; [lia|]. split; [lia|]. intros b. rewrite Hb, Hb1.
  destruct (decide (bpos + Z.max lo o - lo ≤ b ≤ bpos + Z.min hi' hi - lo ∧ o ≤ hi)) as [H1|H1].
  - destruct (decide (bpos + Z.max lo o' - lo ≤ b ≤ bpos + Z.min hi' hi - lo ∧ o' ≤ hi)); [done|]. rewrite decide_True; [done|]. destruct (decide (o' ≤ hi)) as [Ho2|Ho2]; lia.
  - rewrite !decide_False; [done|lia|]. intros ?. destruct H1. lia.
Qed.

(** ** One range *)
Lemma copy_held st got g s cr hi_got buf :
  held n CACHE_READ g got st → contiguous n s got → got ≠ [] → (n | s) → s ≤ cr_lo cr → cr_lo cr ≤ hi_got ≤ cr_hi cr → hi_got < s + n * Z.of_nat (length got) →
  ∃ st' buf', copy_pages n st got cr hi_got buf = Some (st', buf') ∧ held n CACHE_READ g [] st' ∧ grows n st st' ∧
    ∀ b, buf' b = if decide (cr_boff cr ≤ b ≤ cr_boff cr + hi_got - cr_lo cr) then g (cr_lo cr + b - cr_boff cr) else buf b.
Proof.
  intros Hh Hc Hne Hals Hs Hgot Hend. assert (NoDup got) as Hnd by apply (contiguous_nodup n ltac:(lia) s got Hc).
  destruct (release_held n ltac:(lia) CACHE_READ g got st) as (st' & Hrel & Hh' & Hg' & _); [done..|].
  assert (forallb (has_data st) got = true) as Hdata.
  { apply forallb_forall. intros o Ho%list_elem_of_In. destruct (hd_in _ _ _ _ _ Hh o Ho) as (p & Hp & (e & (Hd & _) & _) & _). unfold has_data. rewrite Hp. by apply bool_decide_eq_true. }
  destruct got as [|s0 got]; [done|]. unfold copy_pages. rewrite Hdata. assert (s0 = s) as -> by (by destruct Hc). rewrite Hrel.
  rewrite (decide_True (P := cr_lo cr >= s)) by lia. cbn [mbind option_bind].
  exists st'. eexists. split; [done|]. split; [done|]. split; [done|]. intros b. unfold buf_put.
  replace (if decide (cr_hi cr - cr_lo cr + 1 > hi_got - s + 1 - (cr_lo cr - s)) then hi_got - s + 1 - (cr_lo cr - s) else cr_hi cr - cr_lo cr + 1)
    with (hi_got - cr_lo cr + 1) by (case_decide; lia).
  destruct (decide (cr_boff cr ≤ b ≤ cr_boff cr + hi_got - cr_lo cr)) as [Hb|Hb]; [|by rewrite decide_False by lia]. rewrite decide_True by lia.
  set (i := cr_lo cr + b - cr_boff cr). destruct (row_spec n ltac:(lia) i) as [Hal Hrow].
  assert (row i ∈ s :: got) as Hin.
  { apply (contiguous_in n ltac:(lia) _ _ _ Hc). split; [by apply Z.divide_sub_r|]. unfold i in *.
    split; [|lia]. destruct (decide (row (cr_lo cr + b - cr_boff cr) < s)); [|lia].
    pose proof (row_apart n ltac:(lia) _ _ Hal Hals ltac:(done)). lia. }
  destruct (hd_in _ _ _ _ _ Hh _ Hin) as (p & Hp & (e & ([d Hd] & _) & _) & _).
  replace (cr_lo cr - s + (b - cr_boff cr)) with (row i - s + (i - row i)) by (unfold i; lia).
  rewrite (run_buf_spec n ltac:(lia) st (s :: got) s (row i) (i - row i) p d) by (done || lia). rewrite <- (hd_byte _ _ _ _ _ Hh).
  symmetry. apply (cs_byte_in n st (row i) p d i); try done.
Qed.

Lemma get_range_read fuel st block cr buf :
  cs_wf n st → cs_quiet st → extent n st (cs_total st) → 0 ≤ cr_lo cr ≤ cr_hi cr → cr_hi cr < cs_total st → cs_total st < Z.of_nat fuel →
  ∃ st' buf' skip hi_got, get_range n fuel st CACHE_READ block cr buf = Some (st', buf', skip, hi_got) ∧
    held n CACHE_READ (cs_byte n st) [] st' ∧ grows n st st' ∧ cr_lo cr ≤ hi_got ≤ cr_hi cr ∧ (skip = true → block = false) ∧
    ∀ b, buf' b = if decide (skip = false ∧ cr_boff cr ≤ b ≤ cr_boff cr + hi_got - cr_lo cr) then cs_byte n st (cr_lo cr + b - cr_boff cr) else buf b.
Proof.
  intros Hwf Hq Hext Hlo Htot Hfuel. set (lo := cr_lo cr) in *. set (hi := cr_hi cr) in *. set (bpos := cr_boff cr).
  destruct (row_spec n ltac:(lia) lo) as [Hal Hrow]. destruct (row_spec n ltac:(lia) hi) as [Halh Hrowh].
  pose proof (row_nonneg n ltac:(lia) lo ltac:(lia)) as Hrow0. pose proof (row_le n ltac:(lia) lo hi ltac:(lia)) as Hrows.
  assert (held n CACHE_READ (cs_byte n st) [] st) as Hh0 by by apply held_none.
  assert (∀ b, buf b = if decide (true = false ∧ bpos ≤ b ≤ bpos + lo - lo) then cs_byte n st (lo + b - bpos) else buf b) as Hskip.
  { intros b. by rewrite decide_False by (by intros [? _]). }
  (* the first page is missing *)
  assert (∀ block, cs_pages st !! row lo = None → ∃ st' buf' skip hi_got,
    ('(st, buf, skip, hi_got, pages) ← read_pages_from n fuel st block lo hi buf bpos None;
      let hi_got := if decide (hi_got > hi) then hi else hi_got in
      if skip : bool then Some (st, buf, skip, hi_got)
      else '(st, buf) ← copy_pages n st pages cr hi_got buf; Some (st, buf, skip, hi_got)) = Some (st', buf', skip, hi_got) ∧
    held n CACHE_READ (cs_byte n st) [] st' ∧ grows n st st' ∧ lo ≤ hi_got ≤ hi ∧ (skip = true → block = false) ∧
    ∀ b, buf' b = if decide (skip = false ∧ bpos ≤ b ≤ bpos + hi_got - lo) then cs_byte n st (lo + b - bpos) else buf b) as Hmiss.
  { clear block. intros block Hnone. unfold read_pages_from. rewrite andb_false_r. cbn [mbind option_bind]. destruct block.
    2: { rewrite decide_False by (by intros []). cbn [mbind option_bind]. exists st, buf, true, lo. rewrite decide_False by lia. split; [done|].
         split; [done|]. split; [apply grows_refl|]. split; [lia|]. by split. }
    rewrite decide_True by done.
    destruct (cache_advise_ok fuel st (row lo) (row hi) max_pages false Hwf Hq Hext Hrow0 Hal Hrows Halh ltac:(lia) Hfuel) as (st1 & got & -> & Hh & Hg & Hc & Hgot & Hr).
    cbn [mbind option_bind]. destruct (last got) as [o|] eqn:Hlast.
    - assert (got ≠ []) as Hne by (by intros ->). pose proof (run_head n (row lo) got Hc Hne) as [_ Hl]. rewrite Hlast in Hl. injection Hl as ->.
      cbn [mbind option_bind]. rewrite (bool_decide_eq_false_2 (got = [])) by done. cbn [andb orb].
      set (e := row lo + n * (Z.of_nat (length got) - 1)) in *. set (hg := if decide (e + n - 1 > hi) then hi else e + n - 1).
      assert (1 ≤ Z.of_nat (length got)) by (destruct got; [done|simpl; lia]).
      assert (lo ≤ hg ≤ hi ∧ hg < row lo + n * Z.of_nat (length got)) as [Hhg1 Hhg2].
      { assert (0 ≤ n * (Z.of_nat (length got) - 1)) by nia. unfold hg. destruct (decide (e + n - 1 > hi)); unfold e in *; lia. }
      destruct (copy_held st1 got (cs_byte n st) (row lo) cr hg buf) as (st2 & buf2 & -> & Hh2 & Hg2 & Hb2); [done|done|done|done|unfold lo in *; lia|exact Hhg1|exact Hhg2|].
      cbn [mbind option_bind]. exists st2, buf2, false, hg. split; [done|]. split; [done|]. split; [by eapply grows_trans|]. split; [lia|]. split; [done|].
      intros b. rewrite Hb2. apply decide_ext. tauto.
    - assert (got = []) as -> by (by apply last_None). specialize (Hr eq_refl). clear Hlast Hgot Hc.
      destruct (force_get_read st1 (row lo) lo hi) as (st2 & -> & Hh2 & Hg2); try done.
      { by destruct Hr. } { by eapply room_quiet. } { by eapply room_absent. }
      cbn [mbind option_bind]. rewrite (bool_decide_eq_false_2 ([row lo] = [])) by done. cbn [andb orb].
      set (hg := if decide (row lo + n - 1 > hi) then hi else row lo + n - 1).
      assert (lo ≤ hg ≤ hi ∧ hg < row lo + n * Z.of_nat (length [row lo])) as [Hhg1 Hhg2] by (unfold hg; simpl; destruct (decide (row lo + n - 1 > hi)); lia).
      assert (held n CACHE_READ (cs_byte n st) [row lo] st2) as Hh3 by (by eapply held_ext, Hh2; apply (rm_byte _ _ _ Hr)).
      destruct (copy_held st2 [row lo] (cs_byte n st) (row lo) cr hg buf) as (st3 & buf3 & -> & Hh4 & Hg4 & Hb4); [done|done|done|done|unfold lo in *; lia|exact Hhg1|exact Hhg2|].
      cbn [mbind option_bind]. exists st3, buf3, false, hg. split; [done|]. split; [done|].
      split; [by eapply grows_trans, grows_trans|]. split; [lia|]. split; [done|]. intros b. rewrite Hb4. apply decide_ext. tauto. }
  unfold get_range, cache_read_pages_get. fold lo hi bpos.
  pose proof (next_page_spec (cs_pages st) (row lo)) as Hnext. destruct (next_page (cs_pages st) (row lo)) as [[o p]|].
  2: { apply Hmiss. destruct (cs_pages st !! row lo) as [p|] eqn:Hp; [|done]. specialize (Hnext _ _ Hp). lia. }
  destruct Hnext as (Hp & Ho & Hmin). destruct (decide (o = row lo)) as [->|Hne].
  - unfold read_pages_from. destruct (Hq _ _ Hp) as [_ ->]. rewrite andb_false_r.
    destruct (read_loop_ok st lo hi bpos Hwf Hq ltac:(lia) (Datatypes.S (size (cs_pages st))) (row lo) p lo 0 buf Hp ltac:(lia)) as (hi' & k & buf' & -> & Hk & Hprog & _ & Hb).
    { pose proof (above_size (cs_pages st) (row lo)). lia. }
    cbn [mbind option_bind]. destruct (Hprog ltac:(lia)) as [Hhi' Hk']. rewrite decide_False by lia. cbn [mbind option_bind].
    rewrite (bool_decide_eq_false_2 (k = 0%nat)) by lia. rewrite andb_false_r. cbn [orb copy_pages mbind option_bind].
    exists st, buf', false. eexists. split; [done|]. split; [done|]. split; [apply grows_refl|]. split; [destruct (decide (hi' > hi)); lia|]. split; [done|].
    intros b. rewrite Hb. apply decide_ext. destruct (decide (hi' > hi)); lia.
  - assert (cs_pages st !! row lo = None) as Hnone.
    { destruct (cs_pages st !! row lo) as [q|] eqn:Hp'; [|done]. specialize (Hmin _ _ Hp' ltac:(lia)). lia. }
    destruct (decide (o ≤ row hi ∧ block = false)) as [Hsp|]; [|by apply Hmiss]. destruct Hsp as [Hsp ->]. cbn [mbind option_bind].
    destruct (cw_page _ _ Hwf o p Hp) as (_ & Halo & _). pose proof (row_apart n ltac:(lia) _ _ Hal Halo ltac:(lia)).
    exists st, buf, true, (o - 1). rewrite decide_False by lia. split; [done|]. split; [done|]. split; [apply grows_refl|]. split; [lia|]. split; [done|].
    intros b. by rewrite decide_False by (by intros [? _]).
Qed.
End read.
