(* ===== verification/CPageWr.v ===== *)
(** * Writing through the pages of a cached segment

    A write goes to the pages; pages that are not there are made, and loaded
    first when the request does not cover them. *)
From S2P Require Import Prelude Seg CPage CPageOk CPageRun CPageFlush CPageGet CPageMid CPageRd.
From stdpp Require Import gmap.
#[local] Open Scope Z_scope.

Section write.
Context {S A : Type} `{!Segment S, !SegBytes S, !SegmentOk S, !SegmentVecOk S, !SegmentPageOk S, !Gop, !GopOk, !PageAlloc S A}.
Context (n : Z) (Hn2 : 2 ≤ n) `{!PageAllocOk (S := S) (A := A) n}.
Context (f : Z → Z) (lo hi bpos : Z) (buf : tbuffer) (Hlo : 0 ≤ lo ≤ hi).
Implicit Types (st : cache_segment S A).

Abbreviation row := (page_row n).

(** The contents when the pages before [c] are written. *)
Definition overlay (c i : Z) : Z := if decide (lo ≤ i ≤ hi ∧ i < c) then buf (bpos + i - lo) else f i.

(** The pages from the first one up to [c] are done, but for [l], which are to
    be loaded. *)
Record writing (c : Z) (l : list Z) (pin : option Z) st : Prop := {
  wr_mid : mid n CACHE_WRITE f (overlay c) l pin st;
  wr_c : (n | c) ∧ row lo ≤ c;
  wr_nodup : NoDup l;
  wr_in x : x ∈ l → row lo ≤ x < c ∧ x ≤ hi;
  wr_few : c ≤ hi → l = [] ∨ l = [row lo];
  wr_extent e : lo < e → e ≤ c → extent n st e;
  wr_size x : x ∈ l → x < segment_size (cs_child st) }.

Lemma writing_room c l pin st st' : writing c l pin st → room n st st' → writing c l pin st'.
Proof.
  intros [H1 H2 H3 H4 H5 H6 H7] Hr. split; try done; [by eapply mid_room| |].
  - intros e He1 He2. apply (rm_extent _ _ _ Hr). auto.
  - intros x Hx. specialize (H7 x Hx). pose proof (rm_size _ _ _ Hr). lia.
Qed.

Lemma writing_grows c l pin pin' st st' :
  writing c l pin st → mid n CACHE_WRITE f (overlay c) l pin' st' → grows n st st' → writing c l pin' st'.
Proof. intros [H1 H2 H3 H4 H5 H6 H7] Hm (Hg & _ & Hs). split; try done; [by auto|]. intros x Hx. specialize (H7 x Hx). lia. Qed.

Lemma next_row c : (n | c) → (n | c + n).
Proof. intros ?. apply Z.divide_add_r; [done|apply Z.divide_refl]. Qed.

(** What is left of the page at [c] is as it was. *)
Lemma overlay_page c i : row i = c → overlay c i = f i.
Proof. intros <-. unfold overlay. rewrite decide_False; [done|]. pose proof (row_spec n ltac:(lia) i). lia. Qed.

Lemma overlay_other c i : (n | c) → row i ≠ c → overlay (c + n) i = overlay c i.
Proof.
  intros Hc Hi. unfold overlay. apply decide_ext. destruct (row_spec n ltac:(lia) i) as [Hal Hrow]. split; intros [? ?]; (split; [done|]); [|lia].
  destruct (decide (row i < c)); [pose proof (row_apart n ltac:(lia) _ _ Hal Hc ltac:(done)); lia|].
  pose proof (row_apart n ltac:(lia) _ _ Hc Hal ltac:(lia)). lia.
Qed.

(** The request in the page at [o]. *)
Lemma write_piece_page st o p d :
  cs_pages st !! o = Some p → cp_data p = Some d →
  write_piece n st o lo hi buf bpos =
  Some (cs_set_page st o (cp_set_data p (Some (buf_put d (Z.max lo o - o) (Z.min hi (o + n - 1) - Z.max lo o + 1) buf (bpos + Z.max lo o - lo))))).
Proof. intros Hp Hd. unfold write_piece. rewrite Hp. cbn [mbind option_bind]. rewrite Hd. cbn [mbind option_bind]. by rewrite page_piece_eq by lia. Qed.

Lemma piece_byte d o i :
  (n | o) → row i = o →
  buf_put d (Z.max lo o - o) (Z.min hi (o + n - 1) - Z.max lo o + 1) buf (bpos + Z.max lo o - lo) (i - o) =
  if decide (lo ≤ i ≤ hi) then buf (bpos + i - lo) else d (i - o).
Proof.
  intros Ho <-. pose proof (row_spec n ltac:(lia) i) as [_ Hi]. unfold buf_put. destruct (decide (lo ≤ i ≤ hi)).
  - rewrite decide_True by lia. f_equal. lia.
  - by rewrite decide_False by lia.
Qed.

(** A page is written as a whole. *)
Lemma writing_page c l pin st p d d0 db :
  writing c l pin st → 0 ≤ c → c ≤ hi → pin ≠ Some c → cp_dirty p = true → idle p → cp_empty p = false →
  cp_data p = Some (buf_put d (Z.max lo c - c) (Z.min hi (c + n - 1) - Z.max lo c + 1) buf (bpos + Z.max lo c - lo)) →
  (∀ i, row i = c → ¬ lo ≤ i ≤ hi → d (i - c) = d0 i) → (∀ i, row i = c → ¬ lo ≤ i ≤ hi → d0 i = f i) →
  db = cs_dirty_bytes st + n * (1 - was_dirty (cs_pages st) c) →
  let st' := Cache_segment (cs_child st) (<[c := p]> (cs_pages st)) (cs_last st) (cs_total st) db (cs_policy st) in
  writing (c + n) l pin st' ∧ grows n st st'.
Proof.
  intros [Hm [Hcal Hc] Hnd Hin Hfew Hext Hsz] Hc0 Hchi Hpin Hdirty Hi He Hd Hd0 Hf Hdb st'.
  assert (c ∉ l) as Hcl by (intros Hcl; destruct (Hin c Hcl); lia).
  destruct (mid_put n CACHE_WRITE f (overlay c) (overlay (c + n)) l pin st c p _ db Hm Hc0 Hcal Hcl Hpin Hd Hi He) as [Hm' Hg'].
  - by rewrite Hdirty.
  - done.
  - by rewrite Hdirty.
  - intros i Hic. rewrite piece_byte by done. pose proof (row_spec n ltac:(lia) i) as [_ Hri]. unfold overlay.
    destruct (decide (lo ≤ i ≤ hi)) as [Hlh|Hlh]; [by rewrite decide_True by lia|]. rewrite decide_False by tauto. by rewrite Hd0, Hf.
  - intros i Hic _. by apply overlay_other.
  - split; [|done]. split; try done.
    + split; [by apply next_row|lia].
    + intros x Hx. destruct (Hin x Hx). lia.
    + intros Hc'. apply Hfew. lia.
    + intros e He1 He2. destruct (decide (e ≤ c)); [apply Hg'; by apply Hext|]. right. exists c, p. cbn [st' cs_pages]. rewrite lookup_insert_eq.
      split_and!; try done; lia.
Qed.

Lemma on_page_at st o p g : cs_pages st !! o = Some p → on_page st o g = Some (cs_set_page st o (g p)).
Proof. intros Hp. unfold on_page. by rewrite Hp. Qed.

Lemma add_blank_ok c l pin st w :
  writing c l pin st → 0 ≤ c → c < hi → pin ≠ Some c → cs_pages st !! c = None → wv_pload w = l →
  ∃ st' l', add_blank n st c lo hi buf bpos w = Some (st', Write_vars (c + n - 1) (Datatypes.S (wv_n w)) l') ∧
    writing (c + n) l' pin st' ∧ grows n st st' ∧ cs_pages st' = <[c := default blank_page (cs_pages st' !! c)]> (cs_pages st).
Proof.
  intros Hw Hc0 Hchi Hpin Hnone Hl. pose proof Hw as [Hm [Hcal Hc] Hnd Hin Hfew Hext Hsz]. unfold add_blank.
  set (load := negb _ && _).
  assert (was_dirty (cs_pages st) c = 0) as Hwas by (unfold was_dirty; by rewrite Hnone).
  assert (c ∉ l) as Hcl by (intros Hcl; destruct (Hin c Hcl); lia).
  destruct load eqn:Hload.
  - (* the rest of the page is loaded *)
    subst load. apply andb_true_iff in Hload as [Hfull%negb_true_iff%bool_decide_eq_false Hlast%bool_decide_eq_true].
    assert (length l < 2)%nat as Hlen by (destruct (Hfew ltac:(lia)) as [->| ->]; simpl; lia).
    rewrite (on_page_at _ c blank_page) by apply lookup_insert_eq. rewrite Hl. cbn [mbind option_bind]. rewrite decide_True by done. cbn [mbind option_bind].
    erewrite on_page_at by apply lookup_insert_eq. cbn [mbind option_bind]. do 2 eexists. split; [done|].
    unfold cs_set_page, cs_set_pages, adjust_dirty. cbn [cs_child cs_pages cs_last cs_total cs_dirty_bytes cs_policy]. rewrite !insert_insert_eq.
    set (p := cp_set_dirty (cp_pend CACHE_WRITE 1 blank_page) true).
    destruct (mid_add n CACHE_WRITE f (overlay c) l pin st c p (cs_dirty_bytes st + n)) as [Hm' Hg']; try done.
    { intros i Hi. by apply overlay_page. } { simpl. lia. }
    split; [|split; [done|simpl; by rewrite lookup_insert_eq]]. split.
    + eapply mid_ext, Hm'. intros i Hi. rewrite elem_of_app, list_elem_of_singleton in Hi. apply overlay_other; [done|tauto].
    + split; [by apply next_row|lia].
    + apply NoDup_app. split; [done|]. split; [|apply NoDup_singleton]. intros x Hx ->%list_elem_of_singleton. done.
    + intros x [Hx|Hx%list_elem_of_singleton]%elem_of_app; [destruct (Hin x Hx)|]; lia.
    + intros Hc'. right. assert (c = row lo) as -> by (symmetry; apply row_unique; [done|]; pose proof (row_spec n ltac:(lia) lo); lia).
      destruct l as [|x l']; [done|]. destruct (Hin x ltac:(by left)). lia.
    + intros e He1 He2. destruct (decide (e ≤ c)); [apply Hg'; by apply Hext|]. right. exists c, p. simpl. rewrite lookup_insert_eq. split_and!; try done; lia.
    + intros x [Hx|Hx%list_elem_of_singleton]%elem_of_app; [by apply Hsz|]. subst x. simpl in *.
      pose proof (cw_last _ _ (md_wf _ _ _ _ _ _ _ Hm)). lia.
  - (* the request is copied at once *)
    cbn [mbind option_bind]. rewrite (on_page_at _ c blank_page) by apply lookup_insert_eq. cbn [mbind option_bind].
    erewrite on_page_at by apply lookup_insert_eq. cbn [mbind option_bind]. erewrite write_piece_page; [|apply lookup_insert_eq|done].
    cbn [mbind option_bind]. do 2 eexists. split; [done|]. unfold cs_set_page, cs_set_pages, adjust_dirty. cbn [cs_child cs_pages cs_last cs_total cs_dirty_bytes cs_policy].
    rewrite !insert_insert_eq. rewrite Hl. apply and_assoc. split; [|by rewrite lookup_insert_eq].
    eapply (writing_page c l pin st _ (λ _, 0) (λ _, 0)); try done; [lia| |rewrite Hwas; lia].
    intros i Hi Hout. rewrite <- (overlay_page c i Hi). rewrite <- (md_byte _ _ _ _ _ _ _ Hm i) by (by rewrite Hi).
    rewrite cs_byte_out by (by rewrite Hi). pose proof (row_spec n ltac:(lia) i) as [_ Hri]. symmetry.
    apply (cw_zero _ _ (md_wf _ _ _ _ _ _ _ Hm)); [lia|]. rewrite Hi. subst load.
    apply andb_false_iff in Hload as [Hfull%negb_false_iff%bool_decide_eq_true|Hlast%bool_decide_eq_false]; [lia|simpl in Hlast; lia].
Qed.

(** The pages of a hole. *)
Definition advanced (c c' : Z) (w w' : write_vars) : Prop :=
  c' = c ∧ w' = w ∨ c < c' ∧ wv_hi_got w' = c' - 1 ∧ (wv_n w < wv_n w')%nat.

Lemma blank_loop_ok fuel pin pstart : ∀ c l st np w,
  writing c l pin st → 0 ≤ c → pstart ≤ hi → (∀ o, pin = Some o → pstart ≤ o) → wv_pload w = l →
  (∀ o, c ≤ o < pstart → cs_pages st !! o = None) → pstart - c ≤ n * (Z.of_nat fuel - 1) → (0 < fuel)%nat →
  ∃ st' c' w', blank_loop n fuel st c pstart np lo hi buf bpos w = Some (st', c', w') ∧
    writing c' (wv_pload w') pin st' ∧ grows n st st' ∧ advanced c c' w w' ∧ (c' = c → st' = st).
Proof.
  induction fuel as [|fuel IH]; intros c l st np w Hw Hc0 Hp Hpin Hl Habs Hfuel Hf0; [lia|]. cbn [blank_loop].
  destruct (negb np || bool_decide (¬ c < pstart)) eqn:Hstop.
  { exists st, c, w. rewrite Hl. split; [done|]. split; [done|]. split; [apply grows_refl|]. split; [by left|done]. }
  apply orb_false_iff in Hstop as [_ Hlt%bool_decide_eq_false]. assert (c < pstart) as Hcp by lia.
  destruct (add_blank_ok c l pin st w Hw Hc0 ltac:(lia)) as (st1 & l1 & -> & Hw1 & Hg1 & Hpg); [intros Heq; specialize (Hpin c Heq); lia|by apply Habs; lia|done|].
  cbn [mbind option_bind].
  assert (∃ st2 np2, (if decide (c + n < pstart) then create_empty_page st1 false else (st1, np)) = (st2, np2) ∧ room n st1 st2) as (st2 & np2 & -> & Hr).
  { case_decide.
    - destruct (make_room n st1 false (md_wf _ _ _ _ _ _ _ (wr_mid _ _ _ _ Hw1))) as (st2 & ok & -> & Hr & _). eauto.
    - exists st1, np. split; [done|]. apply room_refl, (md_wf _ _ _ _ _ _ _ (wr_mid _ _ _ _ Hw1)). }
  destruct (IH (c + n) l1 st2 np2 (Write_vars (c + n - 1) (Datatypes.S (wv_n w)) l1)) as (st' & c' & w' & -> & Hw' & Hg' & Hadv & _); try done; try lia.
  { by eapply writing_room. }
  { intros o Ho. eapply room_absent; [done|]. rewrite Hpg, lookup_insert_ne by lia. apply Habs. lia. }
  exists st', c', w'. split; [done|]. split; [done|].
  split; [eapply grows_trans; [done|]; eapply grows_trans; [by apply room_grows|done]|]. split; [right|intros ->; destruct Hadv as [[? _]|(? & _)]; lia].
  destruct Hadv as [[-> ->]|(H1 & H2 & H3)]; simpl in *; [split_and!; lia|split_and!; [lia|done|lia]].
Qed.

(** A page that is there. *)
Lemma write_hit_ok c l st p :
  writing c l None st → 0 ≤ c ≤ hi → cs_pages st !! c = Some p →
  ∃ st', write_hit n st c lo hi buf bpos = Some st' ∧ writing (c + n) l None st' ∧ grows n st st' ∧
    ∀ o, o ≠ c → cs_pages st' !! o = cs_pages st !! o.
Proof.
  intros Hw Hc Hp. pose proof Hw as [Hm [Hcal Hcl] Hnd Hin Hfew Hext Hsz].
  assert (c ∉ l) as Hcnl by (intros Hcnl; destruct (Hin c Hcnl); lia).
  destruct (md_idle _ _ _ _ _ _ _ Hm c p Hp Hcnl ltac:(done)) as [Hi He]. destruct (cw_page _ _ (md_wf _ _ _ _ _ _ _ Hm) c p Hp) as (_ & _ & d & Hd).
  assert (was_dirty (cs_pages st) c = Z.b2z (cp_dirty p)) as Hwas by (unfold was_dirty; by rewrite Hp).
  unfold write_hit. rewrite Hp. cbn [mbind option_bind].
  set (p1 := cp_set_dirty (cp_set_empty p false) true). set (st1 := if cp_dirty p then _ else _).
  assert (cs_pages st1 = <[c := p1]> (cs_pages st) ∧ cs_child st1 = cs_child st ∧ cs_last st1 = cs_last st ∧ cs_total st1 = cs_total st ∧
    cs_policy st1 = cs_policy st ∧ cs_dirty_bytes st1 = cs_dirty_bytes st + n * (1 - was_dirty (cs_pages st) c)) as (E1 & E2 & E3 & E4 & E5 & E6).
  { rewrite Hwas. unfold st1. destruct (cp_dirty p); simpl; split_and!; try done; lia. }
  rewrite (write_piece_page st1 c p1 d) by (by rewrite ?E1, ?lookup_insert_eq). eexists. split; [done|]. apply and_assoc. unfold cs_set_page, cs_set_pages.
  cbn [cs_pages]. rewrite E1, E2, E3, E4, E5, insert_insert_eq. split; [|intros o Ho; by rewrite lookup_insert_ne].
  apply (writing_page c l None st _ d (overlay c)); try done; try lia.
  - intros i Hi' _. rewrite <- (md_byte _ _ _ _ _ _ _ Hm i) by (by rewrite Hi'). pose proof (row_spec n ltac:(lia) i) as [_ Hri].
    symmetry. apply (cs_byte_in n st c p d i); try done. lia.
  - intros i Hi' _. by apply overlay_page.
Qed.

(** ** The pages that are there *)

(** A page that is held ends the loop. *)
Lemma write_loop_pinned fuel c l st o w :
  writing c l (Some o) st → write_loop n (Datatypes.S fuel) st lo hi buf bpos false (Some o) (Some o) w = Some (st, Some o, w).
Proof.
  intros [Hm _ _ _ _ _ _]. destruct (md_pin _ _ _ _ _ _ _ Hm o eq_refl) as (_ & p & Hp & He & Hr & Hw & Hf & _).
  cbn [write_loop]. rewrite Hp. cbn [mbind option_bind]. rewrite Hr, (bool_decide_eq_false_2 (¬ 1 > 0)) by lia. by rewrite andb_false_r.
Qed.

Lemma rows_fuel a b : b - a ≤ n * (Z.of_nat (Z.to_nat (n_rows n a b) + 1) - 1).
Proof.
  unfold n_rows. pose proof (Z.div_mod a n ltac:(lia)). pose proof (Z.mod_pos_bound a n ltac:(lia)).
  pose proof (Z.div_mod b n ltac:(lia)). pose proof (Z.mod_pos_bound b n ltac:(lia)). set (x := a / n) in *. set (y := b / n) in *.
  destruct (decide (0 ≤ y - x + 1)).
  - replace (Z.of_nat (Z.to_nat (y - x + 1) + 1) - 1) with (y - x + 1) by lia. nia.
  - replace (Z.of_nat (Z.to_nat (y - x + 1) + 1) - 1) with 0 by lia. nia.
Qed.

(** The hole after the pages up to [c], before the page at [o']. *)
Lemma hole_ok c l st o' w fuel :
  writing c l None st → 0 ≤ c → wv_pload w = l → wv_hi_got w = c - 1 → next_page (cs_pages st) c = Some o' → c < o'.1 →
  ∃ st' pcheck w' c',
    (st ← on_page st o'.1 (cp_pend CACHE_READ 1);
     let pstart := if decide (o'.1 > hi) then hi else o'.1 in
     let '(st, np) := if decide (c < pstart) then create_empty_page st false else (st, false) in
     '(st, coff, w) ← blank_loop n (Z.to_nat (n_rows n c pstart) + 1) st c pstart np lo hi buf bpos w;
     if decide (coff < pstart) then Some (st, Some o'.1, w)
     else write_loop n (Datatypes.S fuel) st lo hi buf bpos false (fst <$> next_page (cs_pages st) o'.1) (Some o'.1) w) = Some (st', pcheck, w') ∧
    writing c' (wv_pload w') pcheck st' ∧ grows n st st' ∧ wv_hi_got w' = c' - 1 ∧ (wv_n w ≤ wv_n w')%nat ∧ c ≤ c'.
Proof.
  intros Hw Hc0 Hl Hgot Hnext Hco. pose proof (next_page_spec (cs_pages st) c) as Hs. rewrite Hnext in Hs. destruct o' as [o p]. cbn [fst] in *.
  destruct Hs as (Hp & _ & Hmin). pose proof Hw as [Hm Hwc Hnd Hin Hfew Hext Hsz].
  assert (o ∉ l) as Hol by (intros Hol; destruct (Hin o Hol); lia).
  destruct (mid_pin n ltac:(lia) CACHE_WRITE f (overlay c) l st o p Hm Hp Hol) as (-> & Hm1 & Hg1). cbn [mbind option_bind]. cbn zeta.
  set (st1 := cs_set_page st o _) in *. pose proof (writing_grows c l None (Some o) st st1 Hw Hm1 Hg1) as Hw1.
  set (pstart := if decide (o > hi) then hi else o). assert (pstart ≤ hi ∧ pstart ≤ o) as [Hps1 Hps2] by (unfold pstart; case_decide; lia).
  assert (∃ st2 np, (if decide (c < pstart) then create_empty_page st1 false else (st1, false)) = (st2, np) ∧ room n st1 st2) as (st2 & np & -> & Hr).
  { case_decide; [|exists st1, false; split; [done|]; apply room_refl, (md_wf _ _ _ _ _ _ _ Hm1)].
    destruct (make_room n st1 false (md_wf _ _ _ _ _ _ _ Hm1)) as (st2 & ok & -> & Hr & _). eauto. }
  destruct (blank_loop_ok (Z.to_nat (n_rows n c pstart) + 1) (Some o) pstart c l st2 np w) as (st3 & c' & w' & -> & Hw3 & Hg3 & Hadv & _); try done; try lia.
  { by eapply writing_room. }
  { by intros ? [= <-]. }
  { intros x Hx. eapply room_absent; [done|]. unfold st1. simpl. rewrite lookup_insert_ne by lia.
    destruct (cs_pages st !! x) eqn:Hpx; [|done]. specialize (Hmin _ _ Hpx ltac:(lia)). lia. }
  { apply rows_fuel. }
  cbn [mbind option_bind]. exists st3, (Some o), w', c'. split; [|split; [done|split]].
  - case_decide; [done|]. destruct (md_pin _ _ _ _ _ _ _ (wr_mid _ _ _ _ Hw3) o eq_refl) as (_ & p' & Hp' & _).
    rewrite (next_page_at _ _ _ Hp'). cbn [fmap option_fmap option_map fst]. by eapply write_loop_pinned.
  - eapply grows_trans; [done|]. eapply grows_trans; [by apply room_grows|done].
  - destruct Hadv as [[-> ->]|(H1 & H2 & H3)]; (split; [lia|]; split; [lia|lia]).
Qed.

Lemma write_loop_ok fuel : ∀ c l st w p,
  writing c l None st → 0 ≤ c ≤ hi → cs_pages st !! c = Some p → wv_pload w = l → hi - c < n * (Z.of_nat fuel - 1) → (0 < fuel)%nat →
  ∃ st' pcheck w' c', write_loop n fuel st lo hi buf bpos false (Some c) None w = Some (st', pcheck, w') ∧
    writing c' (wv_pload w') pcheck st' ∧ grows n st st' ∧ wv_hi_got w' = c' - 1 ∧ (wv_n w < wv_n w')%nat ∧ c < c'.
Proof.
  induction fuel as [|fuel IH]; intros c l st w p Hw Hc Hp Hl Hfuel Hf0; [lia|]. cbn [write_loop].
  pose proof Hw as [Hm [Hcal Hwc] Hnd Hin Hfew Hext Hsz].
  assert (c ∉ l) as Hcl by (intros Hcl; destruct (Hin c Hcl); lia).
  destruct (md_idle _ _ _ _ _ _ _ Hm c p Hp Hcl ltac:(done)) as [(Hr & Hww & Hf) He]. rewrite Hp. cbn [mbind option_bind]. rewrite He, Hr, Hf.
  rewrite (bool_decide_eq_true_2 (¬ 0 > 0)), (bool_decide_eq_false_2 (0 > 0)) by lia. cbn [negb andb Bool.eqb]. rewrite decide_False by lia.
  rewrite (decide_False (P := None = Some c)) by done. cbn [mbind option_bind].
  destruct (write_hit_ok c l st p Hw Hc Hp) as (st1 & -> & Hw1 & Hg1 & Hsame). cbn [mbind option_bind wv_n wv_hi_got wv_pload].
  set (w1 := Write_vars (c + n - 1) (Datatypes.S (wv_n w)) (wv_pload w)).
  assert (∀ x q, cs_pages st1 !! x = Some q → c + 1 ≤ x → c + n ≤ x) as Hapart.
  { intros x q Hq Hx. destruct (cw_page _ _ (md_wf _ _ _ _ _ _ _ (wr_mid _ _ _ _ Hw1)) x q Hq) as (_ & Hal & _).
    pose proof (row_apart n ltac:(lia) _ _ Hcal Hal ltac:(lia)). lia. }
  pose proof (next_page_spec (cs_pages st1) (c + 1)) as Hs. destruct (next_page (cs_pages st1) (c + 1)) as [[o' p']|] eqn:Hnext; cbn [fmap option_fmap option_map fst].
  2: { exists st1, None, w1, (c + n). split; [done|]. split; [by rewrite <- Hl in Hw1|]. split; [done|]. simpl. split; [lia|]. lia. }
  destruct Hs as (Hp' & Ho' & Hmin). pose proof (Hapart o' p' Hp' Ho') as Hgap. pose proof Hfuel as Hfuel'.
  rewrite Nat2Z.inj_succ in Hfuel'. assert (0 < fuel)%nat as Hf1 by (destruct fuel; [simpl in *; lia|lia]).
  change (wv_hi_got w1) with (c + n - 1). replace (c + n - 1 + 1) with (c + n) by lia.
  destruct (decide (c + n - 1 ≠ o' - 1 ∧ false = false)) as [[Hhole _]|Hcont].
  - assert (next_page (cs_pages st1) (c + n) = Some (o', p')) as Hnext'.
    { pose proof (next_page_spec (cs_pages st1) (c + n)) as Hs'. destruct (next_page (cs_pages st1) (c + n)) as [[o2 p2]|].
      - destruct Hs' as (Hp2 & Ho2 & Hmin2). specialize (Hmin _ _ Hp2 ltac:(lia)). specialize (Hmin2 _ _ Hp' Hgap). assert (o2 = o') as -> by lia. congruence.
      - specialize (Hs' _ _ Hp'). lia. }
    destruct fuel as [|fuel]; [lia|]. assert (c + n < o') as Hlt by (simpl in Hhole; lia).
    destruct (hole_ok (c + n) l st1 (o', p') w1 fuel Hw1 ltac:(lia) Hl ltac:(done) Hnext' Hlt) as (st2 & pc & w2 & c2 & Heq & Hw2 & Hg2 & Hgot2 & Hn2' & Hc2).
    exists st2, pc, w2, c2. cbn [fst] in Heq. split; [exact Heq|].
    split; [done|]. split; [by eapply grows_trans|]. split; [done|]. simpl in Hn2'. split; lia.
  - assert (o' = c + n) as ->. { simpl in Hcont. destruct (decide (o' = c + n)); [done|]. destruct Hcont. split; [lia|done]. }
    destruct (decide (c + n ≤ hi)) as [Hle|Hgt].
    + destruct (IH (c + n) l st1 w1 p' Hw1 ltac:(lia) Hp' Hl) as (st2 & pc & w2 & c2 & Heq & Hw2 & Hg2 & Hgot2 & Hn2' & Hc2); [lia|done|].
      exists st2, pc, w2, c2. split; [done|]. split; [done|]. split; [by eapply grows_trans|]. split; [done|]. simpl in Hn2'. split; lia.
    + exists st1, None, w1, (c + n). destruct fuel as [|fuel]; [lia|]. cbn [write_loop]. rewrite Hp'. cbn [mbind option_bind].
      assert (c + n ∉ l) as Hcl' by (intros Hcl'; destruct (Hin _ Hcl'); lia).
      destruct (md_idle _ _ _ _ _ _ _ (wr_mid _ _ _ _ Hw1) _ p' Hp' Hcl' ltac:(done)) as [(Hr' & Hww' & Hf') He']. rewrite He', Hr', Hf'.
      rewrite (bool_decide_eq_true_2 (¬ 0 > 0)), (bool_decide_eq_false_2 (0 > 0)) by lia. cbn [negb andb Bool.eqb]. rewrite decide_True by lia.
      split; [done|]. split; [by rewrite <- Hl in Hw1|]. split; [done|]. simpl. split; lia.
Qed.

(** ** One range *)
Lemma write_pieces_ok l : ∀ g st,
  held n CACHE_WRITE g l st → NoDup l → (∀ x, x ∈ l → lo < x + n ∧ x ≤ hi) →
  ∀ todo, (∀ x, x ∈ todo → x ∈ l) → NoDup todo →
  ∃ st', write_pieces n st todo lo hi buf bpos = Some st' ∧ grows n st st' ∧
    held n CACHE_WRITE (λ i, if decide (row i ∈ todo ∧ lo ≤ i ≤ hi) then buf (bpos + i - lo) else g i) l st'.
Proof.
  intros g st Hh Hnd Hl todo. revert g st Hh. induction todo as [|o todo IH]; intros g st Hh Hsub Hndt; cbn [write_pieces].
  { exists st. split; [done|]. split; [apply grows_refl|]. eapply held_ext, Hh. intros i. rewrite decide_False; [done|]. intros [?%not_elem_of_nil _]. done. }
  apply NoDup_cons in Hndt as [Ho Hndt]. assert (o ∈ l) as Hol by (apply Hsub; by left).
  destruct (hd_in _ _ _ _ _ Hh o Hol) as (p & Hp & (e & Hld & Hle) & _). pose proof Hld as ([d Hd] & _ & He & Hr & Hw & Hf).
  destruct (cw_page _ _ (hd_wf _ _ _ _ _ Hh) o p Hp) as (Ho0 & Hal & _).
  rewrite (write_piece_page st o p d) by done. cbn [mbind option_bind].
  set (p1 := cp_set_data p _). destruct (Hl o Hol) as [Hl1 Hl2].
  assert (was_dirty (cs_pages st) o = Z.b2z (cp_dirty p)) as Hwas by (unfold was_dirty; by rewrite Hp).
  destruct (held_set n CACHE_WRITE g (λ i, if decide (row i = o ∧ lo ≤ i ≤ hi) then buf (bpos + i - lo) else g i) l l st o p1
    (buf_put d (Z.max lo o - o) (Z.min hi (o + n - 1) - Z.max lo o + 1) buf (bpos + Z.max lo o - lo)) (cs_dirty_bytes st) Hh Hol) as [Hh1 Hg1]; try done.
  - intros _ (_ & Hw' & _). simpl in Hw', Hw. lia.
  - rewrite Hwas. simpl. by destruct (cp_dirty p).
  - rewrite Hwas. simpl. lia.
  - intros i Hi. rewrite piece_byte by done. destruct (decide (lo ≤ i ≤ hi)); [by rewrite decide_True|]. rewrite decide_False by tauto.
    rewrite <- (hd_byte _ _ _ _ _ Hh). pose proof (row_spec n ltac:(lia) i) as [_ ?]. apply (cs_byte_in n st o p d i); try done. lia.
  - intros i Hi. by rewrite decide_False by tauto.
  - intros _. split; [by exists e|done].
  - destruct (IH _ _ Hh1) as (st' & Heq & Hg' & Hh'); [intros x Hx; apply Hsub; by right|done|].
    exists st'. split; [exact Heq|]. split; [by eapply grows_trans|]. eapply held_ext, Hh'. intros i. cbn beta.
    destruct (decide (row i ∈ todo ∧ lo ≤ i ≤ hi)) as [[H1 H2]|H1].
    + rewrite decide_True; [done|]. split; [by right|done].
    + destruct (decide (row i = o ∧ lo ≤ i ≤ hi)) as [[H2 H3]|H2].
      * rewrite decide_True; [done|]. split; [rewrite H2; by left|done].
      * rewrite decide_False; [done|]. rewrite elem_of_cons. tauto.
Qed.

Lemma force_get_write st :
  cs_wf n st → cs_quiet st → (∀ i, cs_byte n st i = f i) → cs_pages st !! row lo = None →
  ∃ st' g, cache_page_force_get n st CACHE_WRITE (row lo) lo hi = Some (st', row lo) ∧ held n CACHE_WRITE g [row lo] st' ∧ grows n st st' ∧
    ∀ i, ¬ (row i = row lo ∧ lo ≤ i ≤ hi) → g i = f i.
Proof.
  intros Hwf Hq Hbytes Hnone. destruct (row_spec n ltac:(lia) lo) as [Hal Hrow]. pose proof (row_nonneg n ltac:(lia) lo ltac:(lia)) as Hrow0.
  unfold cache_page_force_get. rewrite row_aligned by (done || lia). rewrite Hnone. set (c := row lo) in *.
  destruct (make_room n st true Hwf) as (st1 & ok & -> & Hr & Hok). rewrite Hok by done. cbn [negb]. pose proof (room_absent n _ _ _ Hr Hnone) as Hnone1. rewrite Hnone1.
  pose proof (mid_room n CACHE_WRITE _ _ [] None st st1 ltac:(done) (mid_start n CACHE_WRITE st Hwf Hq) Hr) as Hm1.
  set (p := cp_pend CACHE_WRITE 1 blank_page). set (st2 := cs_set_page st1 c p).
  assert (mid n CACHE_WRITE (cs_byte n st) (cs_byte n st) [c] None st2 ∧ grows n st1 st2) as [Hm2 Hg2].
  { apply (mid_add n CACHE_WRITE _ _ [] None st1 c p (cs_dirty_bytes st1)); try done. simpl. lia. }
  assert (grows n st st2) as Hg by (eapply grows_trans; [by apply room_grows|done]).
  assert (cs_pages st2 !! c = Some p) as Hp2 by apply lookup_insert_eq. pose proof (md_wf _ _ _ _ _ _ _ Hm2) as Hwf2.
  destruct (negb _ && _) eqn:Hload.
  - apply andb_true_iff in Hload as [_ Hlast%bool_decide_eq_true].
    destruct (rw_pages_read n ltac:(lia) st2 [c]) as (st3 & -> & Hl).
    + by destruct Hwf2.
    + apply NoDup_singleton.
    + apply Forall_singleton. unfold has_data. by rewrite Hp2.
    + intros o ->%list_elem_of_singleton. pose proof (cw_last _ _ Hwf2). lia.
    + cbn [fmap option_fmap option_map fst mbind option_bind]. exists st3. eexists. split; [done|]. split; [by eapply mid_held|].
      split; [eapply grows_trans; [done|]; eapply loaded_grows; [done|]; by eapply mid_present|]. intros i _. cbn beta. by case_decide; rewrite Hbytes.
  - cbn [mbind option_bind]. exists st2, (cs_byte n st2). split; [done|].
    assert (cs_byte n st2 = cs_byte n st2) as _ by done. split; [|split; [done|]].
    + split; try done.
      * intros o q Hq2 Ho. by apply (md_idle _ _ _ _ _ _ _ Hm2 o q).
      * intros o Ho. destruct (md_load _ _ _ _ _ _ _ Hm2 o Ho) as [(q & Hq2 & Hld) _]. exists q. split; [done|]. split; [|done]. by exists true.
    + intros i Hi. rewrite <- Hbytes. destruct (decide (row i = c)) as [Hic|Hic].
      2: { apply (md_byte _ _ _ _ _ _ _ Hm2). by rewrite list_elem_of_singleton. }
      pose proof (row_spec n ltac:(lia) i) as [_ Hri]. rewrite (cs_byte_in n st2 c p (λ _, 0) i) by (done || lia).
      rewrite <- (proj2 (md_load _ _ _ _ _ _ _ Hm2 c ltac:(by left)) i Hic). symmetry. apply (cw_zero _ _ Hwf2); [lia|]. rewrite Hic.
      apply andb_false_iff in Hload as [Hfull%negb_false_iff%bool_decide_eq_true|Hlast%bool_decide_eq_false]; [|simpl in *; lia].
      destruct Hi. split; [done|lia].
Qed.

(** The hole before the first page. *)
Lemma first_hole_ok st1 st0 pin pstart w0 :
  writing (row lo) [] pin st1 → grows n st0 st1 → w0 = Write_vars lo 0 [] → pstart ≤ hi → (∀ o, pin = Some o → pstart ≤ o) →
  (∀ x, row lo ≤ x → x ≤ lo ∨ x < pstart → cs_pages st1 !! x = None) →
  ∃ st' c w, ('(st, np) ← Some (create_empty_page st1 false);
      blank_loop n (Z.to_nat (n_rows n (row lo) pstart) + 1) st (row lo) pstart np lo hi buf bpos w0) = Some (st', c, w) ∧
    writing c (wv_pload w) pin st' ∧ grows n st0 st' ∧
    (wv_n w = 0%nat ∧ c = row lo ∧ wv_hi_got w = lo ∧ wv_pload w = [] ∧ cs_pages st' !! row lo = None ∨
     wv_n w ≠ 0%nat ∧ lo < c ∧ wv_hi_got w = c - 1).
Proof.
  intros Hw1 Hg1 -> Hps Hpin Habs. destruct (row_spec n ltac:(lia) lo) as [Hal Hrow]. pose proof (row_nonneg n ltac:(lia) lo ltac:(lia)) as Hrow0.
  destruct (make_room n st1 false (md_wf _ _ _ _ _ _ _ (wr_mid _ _ _ _ Hw1))) as (st2 & np & -> & Hr & _). cbn [mbind option_bind].
  assert (∀ x, row lo ≤ x → x ≤ lo ∨ x < pstart → cs_pages st2 !! x = None) as Habs2 by (intros x Hx Hx'; by eapply room_absent, Habs).
  destruct (blank_loop_ok (Z.to_nat (n_rows n (row lo) pstart) + 1) pin pstart (row lo) [] st2 np (Write_vars lo 0 [])) as (st3 & c' & w' & -> & Hw3 & Hg3 & Hadv & Hsame);
    try done; try lia.
  { by eapply writing_room. } { intros x Hx. apply Habs2; [lia|right; lia]. } { apply rows_fuel. }
  exists st3, c', w'. split; [done|]. split; [done|].
  split; [eapply grows_trans; [done|]; eapply grows_trans; [by apply room_grows|done]|].
  destruct Hadv as [[-> ->]|(H1 & H2 & H3)]; [left|right].
  - rewrite (Hsame eq_refl). split_and!; try done. apply Habs2; [lia|left; lia].
  - split; [simpl in H3; lia|]. split; [|done]. pose proof (wr_c _ _ _ _ Hw3) as [Hal' _]. pose proof (row_apart n ltac:(lia) _ _ Hal Hal' H1). lia.
Qed.

(** The pages of the request that are there or that the policy gives. *)
Lemma write_first_loop_ok st block :
  cs_wf n st → cs_quiet st → (∀ i, cs_byte n st i = f i) →
  ∃ st' pcheck w c,
    ('(st, skip, go, cur, pcheck, w) ← write_first n st block lo hi buf bpos;
     '(st, pcheck, w) ←
       (if go : bool then write_loop n (Z.to_nat (n_rows n lo hi) + 2) st lo hi buf bpos skip cur pcheck w else Some (st, pcheck, w));
     Some (st, skip, pcheck, w)) = Some (st', false, pcheck, w) ∧
    writing c (wv_pload w) pcheck st' ∧ grows n st st' ∧
    (wv_n w = 0%nat ∧ c = row lo ∧ wv_hi_got w = lo ∧ wv_pload w = [] ∧ cs_pages st' !! row lo = None ∨
     wv_n w ≠ 0%nat ∧ lo < c ∧ wv_hi_got w = c - 1).
Proof.
  intros Hwf Hq Hbytes. destruct (row_spec n ltac:(lia) lo) as [Hal Hrow]. pose proof (row_nonneg n ltac:(lia) lo ltac:(lia)) as Hrow0.
  unfold write_first. set (c := row lo) in *. set (w0 := Write_vars lo 0 []).
  assert (writing c [] None st) as Hw0.
  { split; [|split; [done|lia]|constructor|by intros x ?%not_elem_of_nil|by left|unfold c; intros; lia|by intros x ?%not_elem_of_nil]. split; try done.
    - intros i _. rewrite Hbytes. unfold overlay. rewrite decide_False; [done|]. unfold c. lia.
    - intros o p Hp _ _. by eapply Hq.
    - by intros o ?%not_elem_of_nil. }
  pose proof (next_page_spec (cs_pages st) c) as Hs. destruct (next_page (cs_pages st) c) as [[o p]|] eqn:Hnext; cbn [fmap option_fmap option_map fst].
  - destruct Hs as (Hp & Ho & Hmin). destruct (decide (Some o = Some c)) as [[= ->]|Hne].
    + rewrite Hp. cbn [mbind option_bind]. destruct (Hq c p Hp) as [(Hr & Hw & Hf) He]. rewrite He, Hr, Hf.
      rewrite (bool_decide_eq_false_2 (0 > 0)) by lia. cbn [orb andb negb]. rewrite andb_false_r. cbn [mbind option_bind].
      destruct (write_loop_ok (Z.to_nat (n_rows n lo hi) + 2) c [] st w0 p Hw0 ltac:(unfold c; lia) Hp ltac:(done)) as (st' & pc & w & c' & -> & Hw' & Hg & Hgot & Hn & Hc'); [|lia|].
      { unfold c, page_row, n_rows. pose proof (Z.div_mod hi n ltac:(lia)). pose proof (Z.mod_pos_bound hi n ltac:(lia)).
        pose proof (Z.div_le_mono lo hi n ltac:(lia) ltac:(lia)). nia. }
      cbn [mbind option_bind]. exists st', pc, w, c'. split; [done|]. split; [done|]. split; [done|]. right. split; [simpl in Hn; lia|]. split; [|done].
      pose proof (wr_c _ _ _ _ Hw') as [Hal' _]. pose proof (row_apart n ltac:(lia) _ _ Hal Hal' Hc'). lia.
    + assert (c < o) as Hco by (destruct (decide (o = c)) as [->|]; [done|lia]).
      destruct (mid_pin n ltac:(lia) CACHE_WRITE f (overlay c) [] st o p (wr_mid _ _ _ _ Hw0) Hp ltac:(apply not_elem_of_nil)) as (-> & Hm1 & Hg1).
      cbn [mbind option_bind]. set (st1 := cs_set_page st o _) in *. pose proof (writing_grows c [] None (Some o) st st1 Hw0 Hm1 Hg1) as Hw1.
      set (pstart := if decide (o > hi) then hi else o). assert (pstart ≤ hi ∧ pstart ≤ o) as [Hps1 Hps2] by (unfold pstart; case_decide; lia).
      assert (c + n ≤ o) as Hcn by (destruct (cw_page _ _ Hwf o p Hp) as (_ & Halo & _); by apply (row_apart n ltac:(lia) _ _ Hal Halo)).
      destruct (first_hole_ok st1 st (Some o) pstart w0 Hw1 Hg1 eq_refl Hps1) as (st3 & c' & w' & Heq & Hw3 & Hg3 & Hres).
      { by intros ? [= <-]. }
      { intros x Hx1 Hx2. unfold st1. simpl. rewrite lookup_insert_ne by (unfold c in *; lia).
        destruct (cs_pages st !! x) eqn:Hpx; [|done]. specialize (Hmin _ _ Hpx ltac:(lia)). unfold c in *; lia. }
      fold c in Heq. cbn [mbind option_bind] in Heq. destruct (create_empty_page st1 false) as [st2 np]. rewrite Heq. cbn [mbind option_bind].
      assert ((if bool_decide (¬ c' < pstart) then write_loop n (Z.to_nat (n_rows n lo hi) + 2) st3 lo hi buf bpos false (Some o) (Some o) w' else Some (st3, Some o, w')) = Some (st3, Some o, w')) as ->.
      { destruct (bool_decide _); [|done]. replace (Z.to_nat (n_rows n lo hi) + 2)%nat with (Datatypes.S (Z.to_nat (n_rows n lo hi) + 1)) by lia. by eapply write_loop_pinned. }
      cbn [mbind option_bind]. by exists st3, (Some o), w', c'.
  - rewrite decide_False by done.
    destruct (first_hole_ok st st None hi w0 Hw0 (grows_refl n st) eq_refl ltac:(lia)) as (st3 & c' & w' & Heq & Hw3 & Hg3 & Hres).
    { done. } { intros x Hx1 Hx2. destruct (cs_pages st !! x) eqn:Hpx; [|done]. specialize (Hs _ _ Hpx). unfold c in *; lia. }
    fold c in Heq. cbn [mbind option_bind] in Heq |- *. destruct (create_empty_page st false) as [st2 np]. rewrite Heq. cbn [mbind option_bind].
    assert ((if bool_decide (¬ c' < hi) then write_loop n (Z.to_nat (n_rows n lo hi) + 2) st3 lo hi buf bpos false None None w' else Some (st3, None, w')) = Some (st3, None, w')) as ->.
    { destruct (bool_decide _); [|done]. by replace (Z.to_nat (n_rows n lo hi) + 2)%nat with (Datatypes.S (Z.to_nat (n_rows n lo hi) + 1)) by lia. }
    cbn [mbind option_bind]. by exists st3, None, w', c'.
Qed.

(** The pages to load are loaded. *)
Lemma load_pages c l st :
  writing c l None st →
  ∃ st' g, (if decide (l = []) then Some st else fst <$> cache_rw_pages n st l CACHE_READ false) = Some st' ∧ held n CACHE_WRITE g l st' ∧ grows n st st' ∧
    ∀ i, g i = if decide (row i ∈ l) then f i else overlay c i.
Proof.
  intros [Hm [Hcal Hc] Hnd Hin Hfew Hext Hsz]. case_decide as Hl.
  - subst l. exists st, (overlay c). split; [done|]. split; [|split; [apply grows_refl|]].
    + split.
      * by destruct Hm.
      * intros i. apply (md_byte _ _ _ _ _ _ _ Hm), not_elem_of_nil.
      * intros o p Hp Ho. by apply (md_idle _ _ _ _ _ _ _ Hm o p).
      * by intros o ?%not_elem_of_nil.
    + intros i. by rewrite decide_False by apply not_elem_of_nil.
  - destruct (rw_pages_read n ltac:(lia) st l) as (st' & -> & Hld).
    + by destruct (md_wf _ _ _ _ _ _ _ Hm).
    + done.
    + apply Forall_forall. intros o Ho. destruct (md_load _ _ _ _ _ _ _ Hm o Ho) as [(p & Hp & Hd & _) _]. unfold has_data. rewrite Hp. by apply bool_decide_eq_true.
    + intros o Ho. split; [|by apply Hsz]. destruct (md_load _ _ _ _ _ _ _ Hm o Ho) as [(p & Hp & _) _].
      by destruct (cw_page _ _ (md_wf _ _ _ _ _ _ _ Hm) o p Hp).
    + exists st'. eexists. split; [done|]. split; [by eapply mid_held|]. split; [|done]. eapply loaded_grows; [done|]. by eapply mid_present.
Qed.

(** The request is copied into the pages that were loaded, and they are released. *)
Lemma finish_pages c l g st :
  held n CACHE_WRITE g l st → NoDup l → (∀ x, x ∈ l → row lo ≤ x ∧ x ≤ hi) → (∀ x, x ∈ l → x + n ≤ c) → (n | c) →
  (∀ i, ¬ (row i ∈ l ∧ lo ≤ i ≤ hi) → g i = if decide (row i ∈ l) then f i else overlay c i) →
  ∃ st' st'', write_pieces n st l lo hi buf bpos = Some st' ∧ cache_release_pages n CACHE_WRITE st' l = Some st'' ∧
    held n CACHE_WRITE (overlay c) [] st'' ∧ grows n st st'' ∧ ∀ o e, o ∈ l → o < e ≤ o + n → extent n st'' e.
Proof.
  intros Hh Hnd Hin Hc Hcal Hg. assert (∀ x, x ∈ l → lo < x + n ∧ x ≤ hi) as Hin'.
  { intros x Hx. destruct (Hin x Hx). pose proof (row_spec n ltac:(lia) lo). lia. }
  destruct (write_pieces_ok l g st Hh Hnd Hin' l ltac:(done) Hnd) as (st1 & -> & Hg1 & Hh1).
  destruct (release_held n ltac:(lia) CACHE_WRITE _ l st1 ltac:(done) Hnd Hh1) as (st2 & Hrel & Hh2 & Hg2 & Hext).
  exists st1, st2. split; [done|]. split; [done|]. split; [|split; [by eapply grows_trans|by apply Hext]].
  eapply held_ext, Hh2. intros i. cbn beta. pose proof (row_spec n ltac:(lia) i) as [_ Hri].
  destruct (decide (row i ∈ l ∧ lo ≤ i ≤ hi)) as [[Hil Hlh]|Hno].
  - specialize (Hc _ Hil). unfold overlay. by rewrite decide_True by lia.
  - rewrite (Hg i Hno). destruct (decide (row i ∈ l)); [|done]. unfold overlay. rewrite decide_False; [done|]. tauto.
Qed.

Lemma write_pages_get_ok st block :
  cs_wf n st → cs_quiet st → (∀ i, cs_byte n st i = f i) →
  ∃ st' skip hi_got, cache_write_pages_get n st block lo hi buf bpos = Some (st', skip, hi_got) ∧
    held n CACHE_WRITE (if skip then f else overlay (hi_got + 1)) [] st' ∧ grows n st st' ∧ lo ≤ hi_got ∧
    (skip = true → block = false ∧ hi_got = lo) ∧ (skip = false → ∀ e, lo < e ≤ hi_got + 1 → extent n st' e).
Proof.
  intros Hwf Hq Hbytes. destruct (row_spec n ltac:(lia) lo) as [Hal Hrow].
  destruct (write_first_loop_ok st block Hwf Hq Hbytes) as (st1 & pc & w & c & Heq & Hw & Hg & Hres). unfold cache_write_pages_get.
  destruct (write_first n st block lo hi buf bpos) as [[[[[[st0 skip] go] cur] pc0] w0]|]; [|done]. cbn [mbind option_bind] in Heq |- *.
  destruct (if go : bool then _ else _) as [[[st0' pc0'] w0']|]; [|done]. cbn [mbind option_bind] in Heq |- *. injection Heq as -> -> -> ->.
  assert (∃ st2, match pc with Some o => cache_release_pages n CACHE_READ st1 [o] | None => Some st1 end = Some st2 ∧
    (∀ x, cs_pages st1 !! x = None → cs_pages st2 !! x = None) ∧ writing c (wv_pload w) None st2 ∧ grows n st1 st2) as (st2 & -> & Habs & Hw2 & Hg2).
  { destruct pc as [o|]; [|exists st1; split_and!; try done; apply grows_refl].
    destruct (mid_unpin n ltac:(lia) _ _ _ _ _ _ (wr_mid _ _ _ _ Hw)) as (st2 & -> & Habs & Hm2 & Hg2). exists st2.
    split; [done|]. split; [done|]. split; [by eapply writing_grows|done]. }
  cbn [mbind option_bind]. destruct (decide (wv_n w = 0%nat ∧ block = true)) as [[Hn0 ->]|Hgo].
  - destruct Hres as [(_ & -> & _ & Hpl & Habs1)|(? & _)]; [|done]. rewrite Hpl in Hw2.
    destruct (force_get_write st2) as (st3 & g & -> & Hh3 & Hg3 & Hgf).
    { by destruct (wr_mid _ _ _ _ Hw2). } { eapply mid_quiet, (wr_mid _ _ _ _ Hw2). }
    { intros i. rewrite (md_byte _ _ _ _ _ _ _ (wr_mid _ _ _ _ Hw2) i) by apply not_elem_of_nil. unfold overlay. rewrite decide_False; [done|]. lia. }
    { by apply Habs. }
    cbn [mbind option_bind wv_pload wv_n wv_hi_got].
    destruct (finish_pages (row lo + n) [row lo] g st3) as (st4 & st5 & -> & Hrel & Hh5 & Hg5 & Hext); try done.
    { apply NoDup_singleton. } { intros x ->%list_elem_of_singleton. lia. } { intros x ->%list_elem_of_singleton. lia. } { by apply next_row. }
    { intros i Hi. rewrite list_elem_of_singleton in Hi. rewrite Hgf by done. case_decide as Hr; [done|]. rewrite list_elem_of_singleton in Hr.
      rewrite overlay_other by done. unfold overlay. rewrite decide_False; [done|]. lia. }
    cbn [mbind option_bind]. rewrite Hrel. cbn [mbind option_bind]. exists st5, false, (row lo + n - 1). split; [done|].
    replace (row lo + n - 1 + 1) with (row lo + n) by lia. split; [done|].
    split; [eapply grows_trans; [done|]; eapply grows_trans; [done|]; by eapply grows_trans|]. split; [lia|]. split; [done|].
    intros _ e He. apply (Hext (row lo)); [by left|lia].
  - destruct (load_pages c (wv_pload w) st2 Hw2) as (st3 & g & -> & Hh3 & Hg3 & Hgi). cbn [mbind option_bind].
    destruct Hw2 as [Hm2 [Hcal Hc] Hnd Hin Hfew Hext Hsz].
    destruct (finish_pages c (wv_pload w) g st3) as (st4 & st5 & -> & Hrel & Hh5 & Hg5 & Hext5); try done.
    { intros x Hx. destruct (Hin x Hx). lia. }
    { intros x Hx. destruct (Hin x Hx). destruct (md_load _ _ _ _ _ _ _ Hm2 x Hx) as [(p & Hp & _) _].
      destruct (cw_page _ _ (md_wf _ _ _ _ _ _ _ Hm2) x p Hp) as (_ & Halx & _). apply (row_apart n ltac:(lia) _ _ Halx Hcal). lia. }
    cbn [mbind option_bind]. rewrite Hrel. cbn [mbind option_bind orb].
    exists st5. do 2 eexists. split; [done|]. assert (grows n st st5) as Hg'.
    { eapply grows_trans; [done|]. eapply grows_trans; [done|]. by eapply grows_trans. }
    destruct Hres as [(Hn0 & -> & -> & _ & _)|(Hn0 & Hlc & ->)].
    + rewrite bool_decide_eq_true_2 by done. split; [|split; [done|split; [lia|split; [|done]]]].
      * eapply held_ext, Hh5. intros i. unfold overlay. rewrite decide_False; [done|]. lia.
      * intros _. split; [|done]. destruct block; [by destruct Hgo|done].
    + rewrite bool_decide_eq_false_2 by done. replace (c - 1 + 1) with c by lia. split; [done|]. split; [done|]. split; [lia|]. split; [done|].
      intros _ e He. apply Hg5, Hg3, Hext; lia.
Qed.
End write.
