(* ===== verification/CPageRw.v ===== *)
(** * The loop over the ranges of a request

    A request on a cached segment goes around its ranges until nothing is left
    of them; after a round without progress it blocks. *)
From stdpp Require Import gmap.
From S2P Require Import Prelude Seg CPage CPageGet CPageOk CPageRun CPageFlush CPageMid CPageRd CPageWr.
#[local] Open Scope Z_scope.

(** The byte at [i] of the segment, at [b] of the buffer, is still to do. *)
Definition covers (todo : list cache_range) (i b : Z) : Prop :=
  ∃ cr, cr ∈ todo ∧ cr_lo cr ≤ i ≤ cr_hi cr ∧ b = cr_boff cr + i - cr_lo cr.

Definition range_ok (cr : cache_range) : Prop := 0 ≤ cr_lo cr ≤ cr_hi cr.

Definition range_bytes (todo : list cache_range) : Z := foldr (λ cr x, cr_hi cr - cr_lo cr + 1 + x) 0 todo.

Lemma covers_cons cr todo i b : covers (cr :: todo) i b ↔ (cr_lo cr ≤ i ≤ cr_hi cr ∧ b = cr_boff cr + i - cr_lo cr) ∨ covers todo i b.
Proof.
  unfold covers. split.
  - intros (x & [->|Hx]%elem_of_cons & Hr); [by left|right; eauto].
  - intros [Hr|(x & Hx & Hr)]; [exists cr; split; [by left|done]|exists x; split; [by right|done]].
Qed.
Lemma covers_app t1 t2 i b : covers (t1 ++ t2) i b ↔ covers t1 i b ∨ covers t2 i b.
Proof.
  induction t1 as [|cr t1 IH]; simpl; [|rewrite !covers_cons, IH; tauto]. split; [by right|]. intros [(x & Hx & _)|?]; [|done].
  by apply not_elem_of_nil in Hx.
Qed.
Lemma covers_nil i b : ¬ covers [] i b.
Proof. by intros (x & ?%not_elem_of_nil & _). Qed.

Lemma range_bytes_app t1 t2 : range_bytes (t1 ++ t2) = range_bytes t1 + range_bytes t2.
Proof. induction t1 as [|cr t1 IH]; simpl; [done|]. rewrite IH. lia. Qed.
Lemma range_bytes_length todo : Forall range_ok todo → Z.of_nat (length todo) ≤ range_bytes todo.
Proof. unfold range_ok. induction 1 as [|cr todo Hcr H IH]; simpl; lia. Qed.

Section loop.
Context {S A : Type} `{!Segment S, !Gop, !PageAlloc S A}.
Context (n : Z) (m : page_mode) (flush_fuel : nat).
Implicit Types (st : cache_segment S A) (buf : tbuffer).

(** What is left after one range. *)
Definition left_over (cr : cache_range) (skip : bool) (hi_got : Z) (todo : list cache_range) : list cache_range :=
  if skip then cr :: todo else if decide (hi_got < cr_hi cr) then range_rest cr hi_got :: todo else todo.

Context (Inv : cache_segment S A → tbuffer → list cache_range → Prop).
Context (Inv_covers : ∀ st buf t1 t2, (∀ i b, covers t1 i b ↔ covers t2 i b) → Inv st buf t1 → Inv st buf t2).
Context (Inv_step : ∀ st block cr todo buf, Inv st buf (cr :: todo) → range_ok cr →
  ∃ st' buf' skip hi_got, get_range n flush_fuel st m block cr buf = Some (st', buf', skip, hi_got) ∧
    cr_lo cr ≤ hi_got ≤ cr_hi cr ∧ (skip = true → block = false) ∧ Inv st' buf' (left_over cr skip hi_got todo)).

(** The rounds that are left: [c] bounds the bytes of the request. *)
Definition loop_measure (c : Z) (block progress : bool) (top_cnt : Z) (todo : list cache_range) : Z :=
  if block then range_bytes todo
  else range_bytes todo * (4 * c + 4) + (if progress then 2 * c + 1 else 0) + top_cnt + (range_bytes todo - Z.of_nat (length todo)).

Lemma requeue_ok cr skip hi_got todo todo' added :
  range_ok cr → Forall range_ok todo → cr_lo cr ≤ hi_got ≤ cr_hi cr → requeue cr skip hi_got todo = (todo', added) →
  Forall range_ok todo' ∧ (∀ i b, covers (left_over cr skip hi_got todo) i b ↔ covers todo' i b) ∧
  let k := Z.of_nat (length todo) in let k' := Z.of_nat (length todo') in
  let B := range_bytes (cr :: todo) in let B' := range_bytes todo' in
  0 ≤ added ≤ 1 ∧
  (skip = false → B' < B ∧ k' = k + added) ∧
  (skip = true → B' = B ∧ k' = k + 1 + added).
Proof.
  intros Hcr Htodo Hgot Hre. unfold requeue, left_over in *. cbn zeta.
  assert (∀ i b, covers (todo ++ [cr]) i b ↔ covers (cr :: todo) i b) as Hend.
  { intros i b. rewrite covers_app, !covers_cons. pose proof (covers_nil i b). tauto. }
  assert (range_bytes (todo ++ [cr]) = range_bytes (cr :: todo)) as Hbend by (rewrite range_bytes_app; simpl; lia).
  assert (hi_got < cr_hi cr → range_ok (range_rest cr hi_got)) as Hrest by (unfold range_ok, range_rest in *; simpl; lia).
  destruct skip; cbn [negb] in Hre.
  2: { case_decide; injection Hre as <- <-.
       - split; [constructor; auto|]. split; [done|]. simpl. lia.
       - split; [done|]. split; [done|]. unfold range_ok in *. simpl. lia. }
  destruct (decide (hi_got = cr_lo cr)) as [->|Hne].
  { injection Hre as <- <-. split; [apply Forall_app; split; [done|by apply Forall_singleton]|]. split; [intros i b; by rewrite Hend|].
    rewrite Hbend, length_app. simpl. lia. }
  set (piece := Cache_range (cr_lo cr) hi_got (cr_boff cr)) in *.
  assert (range_ok piece) as Hpiece by (unfold range_ok in *; simpl; lia).
  assert (∀ i b, covers (todo ++ [piece]) i b ↔ covers (piece :: todo) i b) as Hend'.
  { intros i b. rewrite covers_app, !covers_cons. pose proof (covers_nil i b). tauto. }
  assert (Forall range_ok (todo ++ [piece])) as Hok' by (apply Forall_app; split; [done|by apply Forall_singleton]).
  destruct (decide (hi_got < cr_hi cr)); injection Hre as <- <-.
  - split; [constructor; auto|]. split; [|simpl; rewrite range_bytes_app, length_app; simpl; lia].
    intros i b. rewrite (covers_cons (range_rest _ _)), Hend', !covers_cons. simpl. split.
    + intros [Hi|?]; [|by auto]. destruct (decide (i ≤ hi_got)); [right; left; lia|left; lia].
    + intros [Hi|[Hi|?]]; [left; lia|left; lia|by auto].
  - split; [done|]. split; [|rewrite range_bytes_app, length_app; simpl; lia].
    intros i b. rewrite Hend', !covers_cons. simpl. split; (intros [Hi|?]; [|by auto]); left; lia.
Qed.

Lemma rw_loop_ok c fuel : ∀ st block progress top_cnt todo buf,
  Inv st buf todo → Forall range_ok todo → range_bytes todo ≤ c → 0 ≤ top_cnt ≤ Z.of_nat (length todo) → (todo ≠ [] → 0 < top_cnt) →
  loop_measure c block progress top_cnt todo < Z.of_nat fuel →
  ∃ st' buf', rw_loop n fuel flush_fuel st m block progress top_cnt todo buf = Some (st', buf') ∧ Inv st' buf' [].
Proof.
  induction fuel as [|fuel IH]; intros st block progress top_cnt todo buf HI Hok Hc Htop0 Htop Hm.
  { exfalso. pose proof (range_bytes_length todo Hok). destruct todo as [|cr todo]; [unfold loop_measure in Hm; simpl in *; destruct block, progress; lia|].
    specialize (Htop ltac:(done)). unfold loop_measure in Hm. destruct block; [simpl in *; lia|]. destruct progress; nia. }
  destruct todo as [|cr todo]; [by exists st, buf|]. cbn [rw_loop]. specialize (Htop ltac:(done)).
  apply Forall_cons in Hok as [Hcr Hok].
  destruct (Inv_step st block cr todo buf HI Hcr) as (st1 & buf1 & skip & hi_got & -> & Hgot & Hskip & HI1). cbn [mbind option_bind].
  destruct (requeue cr skip hi_got todo) as [todo' added] eqn:Hre.
  destruct (requeue_ok cr skip hi_got todo todo' added Hcr Hok Hgot Hre) as (Hok' & Hcov & Hadd & Hno & Hyes).
  pose proof (Inv_covers _ _ _ _ Hcov HI1) as HI2. pose proof (range_bytes_length todo' Hok') as Hlen'.
  assert (Forall range_ok (cr :: todo)) as Hokc by (by constructor). pose proof (range_bytes_length _ Hokc) as Hlen.
  set (B := range_bytes (cr :: todo)) in *. set (B' := range_bytes todo') in *.
  assert (1 ≤ B) as HB by (simpl in Hlen; lia). simpl length in *.
  assert (0 ≤ c) as Hc0 by lia.
  case_decide as Hround.
  - destruct (IH st1 (block || negb (progress || negb skip)) false (Z.of_nat (length todo')) todo' buf1 HI2 Hok') as (st' & buf' & Hr & HI'); [| | | |by eauto].
    + destruct skip; [destruct (Hyes eq_refl)|destruct (Hno eq_refl)]; lia.
    + lia.
    + intros Hne. destruct todo'; [done|simpl; lia].
    + unfold loop_measure in *. cbn [length] in Hm. fold B in Hm. fold B'. destruct block; cbn [orb].
      * destruct skip; [by specialize (Hskip eq_refl)|]. destruct (Hno eq_refl). lia.
      * destruct skip; cbn [negb].
        -- destruct (Hyes eq_refl) as [HBB Hk]. rewrite HBB in *. destruct progress; cbn [orb negb]; [lia|]. assert (B ≤ B * (4 * c + 4)) by nia. lia.
        -- destruct (Hno eq_refl) as [HBB Hk]. rewrite orb_true_r. cbn [negb].
           assert (B' * (4 * c + 4) ≤ (B - 1) * (4 * c + 4)) by (apply Z.mul_le_mono_nonneg_r; lia). destruct progress; lia.
  - destruct (IH st1 block (progress || negb skip) (top_cnt + added - 1) todo' buf1 HI2 Hok') as (st' & buf' & Hr & HI'); [| | | |by eauto].
    + destruct skip; [destruct (Hyes eq_refl)|destruct (Hno eq_refl)]; lia.
    + destruct skip; [destruct (Hyes eq_refl)|destruct (Hno eq_refl)]; lia.
    + intros _. destruct skip; [destruct (Hyes eq_refl)|destruct (Hno eq_refl)]; lia.
    + unfold loop_measure in *. cbn [length] in Hm. fold B in Hm. fold B'. destruct block; cbn [orb].
      * destruct skip; [by specialize (Hskip eq_refl)|]. destruct (Hno eq_refl). lia.
      * destruct skip; cbn [negb].
        -- destruct (Hyes eq_refl) as [HBB Hk]. rewrite HBB in *. rewrite orb_false_r. destruct progress; lia.
        -- destruct (Hno eq_refl) as [HBB Hk]. rewrite orb_true_r. cbn [negb].
           assert (B' * (4 * c + 4) ≤ (B - 1) * (4 * c + 4)) by (apply Z.mul_le_mono_nonneg_r; lia). destruct progress; lia.
Qed.
End loop.

(** * Requests to a cached segment

    A whole request, however it is cut up and retried, does to the contents what
    it says, and it returns. *)
(** ** The ranges of a request *)

(** No byte of the segment is in two extents. *)
Fixpoint iov_disjoint (iov : list ex_iovec) : Prop :=
  match iov with
  | [] => True
  | v :: iov => Forall (λ w, iov_offset v + iov_len v ≤ iov_offset w ∨ iov_offset w + iov_len w ≤ iov_offset v) iov ∧ iov_disjoint iov
  end.

Lemma covers_push iov : ∀ boff todo i b,
  iov_ok iov →
  covers (push_ranges iov boff todo) i b ↔ (boff ≤ b < boff + iov_total iov ∧ i = iov_pos iov boff b) ∨ covers todo i b.
Proof.
  induction iov as [|v iov IH]; intros boff todo i b Hok; cbn [push_ranges iov_total foldr iov_pos].
  { split; [by right|]. intros [[? _]|?]; [lia|done]. }
  apply Forall_cons in Hok as [[Hv0 Hvl] Hok]. pose proof (iov_total_nonneg iov Hok) as Ht. unfold iov_total in *. rewrite IH, covers_cons by done. simpl.
  split.
  - intros [[Hb ->]|[[Hi ->]|?]]; [left|left|by right].
    + rewrite decide_False by lia. split; [lia|done].
    + rewrite decide_True by lia. split; [lia|lia].
  - intros [[Hb ->]|?]; [|by auto]. case_decide; [right; left; lia|left; split; [lia|done]].
Qed.

Lemma push_ok iov : ∀ boff todo, iov_ok iov → Forall range_ok todo → Forall range_ok (push_ranges iov boff todo).
Proof.
  induction iov as [|v iov IH]; intros boff todo Hok Ht; cbn [push_ranges]; [done|]. apply Forall_cons in Hok as [Hv Hok].
  apply IH; [done|]. constructor; [|done]. unfold range_ok. simpl. lia.
Qed.

Lemma push_length iov : ∀ boff todo, length (push_ranges iov boff todo) = (length iov + length todo)%nat.
Proof. induction iov as [|v iov IH]; intros boff todo; cbn [push_ranges]; [done|]. rewrite IH. simpl. lia. Qed.
Lemma push_bytes iov : ∀ boff todo, range_bytes (push_ranges iov boff todo) = iov_total iov + range_bytes todo.
Proof. induction iov as [|v iov IH]; intros boff todo; cbn [push_ranges iov_total foldr]; [done|]. rewrite IH. unfold iov_total. simpl. lia. Qed.

Lemma iov_pos_in iov : ∀ boff b,
  iov_ok iov → boff ≤ b < boff + iov_total iov → ∃ v, v ∈ iov ∧ iov_offset v ≤ iov_pos iov boff b < iov_offset v + iov_len v.
Proof.
  induction iov as [|v iov IH]; intros boff b Hok Hb; cbn [iov_total foldr iov_pos] in *; [lia|]. apply Forall_cons in Hok as [Hv Hok]. case_decide.
  - exists v. split; [by left|lia].
  - destruct (IH (boff + iov_len v) b Hok) as (w & Hw & Hp); [unfold iov_total; lia|]. exists w. split; [by right|done].
Qed.

Lemma iov_pos_onto iov : ∀ boff v i,
  iov_ok iov → v ∈ iov → iov_offset v ≤ i < iov_offset v + iov_len v → ∃ p, boff ≤ p < boff + iov_total iov ∧ i = iov_pos iov boff p.
Proof.
  induction iov as [|w iov IH]; intros boff v i Hok Hv Hi; [by apply not_elem_of_nil in Hv|]. cbn [iov_total foldr iov_pos].
  apply Forall_cons in Hok as [Hw Hok]. pose proof (iov_total_nonneg iov Hok) as Ht. unfold iov_total in *. apply elem_of_cons in Hv as [->|Hv].
  - exists (boff + (i - iov_offset w)). rewrite decide_True by lia. lia.
  - destruct (IH (boff + iov_len w) v i Hok Hv Hi) as (p & Hp & Hpos). exists p. rewrite decide_False by lia. split; [lia|done].
Qed.

Lemma iov_disjoint_pos iov : ∀ boff b b',
  iov_ok iov → iov_disjoint iov → boff ≤ b < boff + iov_total iov → boff ≤ b' < boff + iov_total iov →
  iov_pos iov boff b = iov_pos iov boff b' → b = b'.
Proof.
  induction iov as [|v iov IH]; intros boff b b' Hok Hd Hb Hb' Heq; cbn [iov_total foldr iov_pos] in *; [lia|].
  apply Forall_cons in Hok as [Hv Hok]. destruct Hd as [Hdv Hd]. rewrite Forall_forall in Hdv.
  destruct (decide (b < boff + iov_len v)), (decide (b' < boff + iov_len v)).
  - lia.
  - destruct (iov_pos_in iov (boff + iov_len v) b' Hok) as (w & Hw & Hp); [unfold iov_total; lia|]. specialize (Hdv w Hw). lia.
  - destruct (iov_pos_in iov (boff + iov_len v) b Hok) as (w & Hw & Hp); [unfold iov_total; lia|]. specialize (Hdv w Hw). lia.
  - apply (IH (boff + iov_len v)); try done; unfold iov_total; lia.
Qed.

Lemma rw_new_size_spec iov :
  iov_ok iov → 0 ≤ rw_new_size iov ∧ (rw_new_size iov = 0 ∨ ∃ v, v ∈ iov ∧ rw_new_size iov = iov_offset v + iov_len v) ∧
    ∀ v, v ∈ iov → iov_offset v + iov_len v ≤ Z.max 1 (rw_new_size iov).
Proof.
  intros Hok. unfold rw_new_size. set (step := λ m v, if decide (m < iov_offset v + iov_len v - 1) then iov_offset v + iov_len v - 1 else m).
  assert (∀ m, 0 ≤ m → let m' := foldl step m iov in m ≤ m' ∧ (m' = m ∨ ∃ v, v ∈ iov ∧ m' = iov_offset v + iov_len v - 1) ∧
    ∀ v, v ∈ iov → iov_offset v + iov_len v - 1 ≤ m') as Hfold.
  { clear Hok. cbn zeta. induction iov as [|v iov IH]; intros m Hm; cbn [foldl].
    - split; [lia|]. split; [by left|]. by intros v ?%not_elem_of_nil.
    - assert (m ≤ step m v ∧ iov_offset v + iov_len v - 1 ≤ step m v ∧ (step m v = m ∨ step m v = iov_offset v + iov_len v - 1)) as (H1 & H2 & H3)
        by (unfold step; case_decide; lia).
      destruct (IH (step m v) ltac:(lia)) as (H4 & H5 & H6). split; [lia|]. split.
      + destruct H5 as [->|(w & Hw & ->)]; [|right; exists w; split; [by right|done]]. destruct H3 as [->| ->]; [by left|].
        right. exists v. split; [by left|done].
      + intros w [->|Hw]%elem_of_cons; [lia|]. by apply H6. }
  destruct (Hfold 0 ltac:(lia)) as (H1 & H2 & H3). set (last := foldl step 0 iov) in *.
  destruct (decide (last > 0)) as [Hl|Hl].
  - split; [lia|]. split; [right|intros v Hv; specialize (H3 v Hv); lia]. destruct H2 as [?|(v & Hv & ?)]; [lia|]. exists v. split; [done|lia].
  - split; [lia|]. split; [left; lia|]. intros v Hv. specialize (H3 v Hv). lia.
Qed.

(** The rounds of the loop that are enough for a request of [b] bytes. *)
Definition rw_fuel (b : Z) : nat := Z.to_nat (b * (4 * b + 5) + 1).

Section rw.
Context {S A : Type} `{!Segment S, !SegBytes S, !SegmentOk S, !SegmentVecOk S, !SegmentPageOk S, !Gop, !GopOk, !PageAlloc S A}.
Context (n : Z) (Hn2 : 2 ≤ n) `{!PageAllocOk (S := S) (A := A) n}.
Implicit Types (st : cache_segment S A) (buf : tbuffer).

(** Between requests: the invariant, no page in use, and the size is covered. *)
Record cs_ok st : Prop := {
  ck_wf : cs_wf n st;
  ck_quiet : cs_quiet st;
  ck_total : extent n st (cs_total st) }.

Lemma loop_start m fuel iov :
  iov_ok iov → (rw_fuel (iov_total iov) ≤ fuel)%nat →
  loop_measure (iov_total iov) false false (Z.of_nat (length iov)) (push_ranges iov m []) < Z.of_nat fuel.
Proof.
  intros Hok Hf. unfold loop_measure. rewrite push_bytes, push_length. cbn [range_bytes foldr length]. pose proof (iov_total_nonneg iov Hok).
  unfold rw_fuel in Hf. assert (0 ≤ iov_total iov * (4 * iov_total iov + 5)) by nia. lia.
Qed.

(** *** Reads *)
Definition read_inv (g : Z → Z) (total : Z) (iov : list ex_iovec) (buf0 : tbuffer) (boff : Z) st buf (todo : list cache_range) : Prop :=
  cs_ok st ∧ (∀ i, cs_byte n st i = g i) ∧ cs_total st = total ∧
  let T p := if decide (boff ≤ p < boff + iov_total iov) then g (iov_pos iov boff p) else buf0 p in
  (∀ p, (∀ i, ¬ covers todo i p) → buf p = T p) ∧ (∀ i p, covers todo i p → T p = g i ∧ i < total).

Lemma cache_rw_read_ok fuel flush_fuel st iov buf boff :
  cs_ok st → iov ≠ [] → iov_within (cs_total st) iov → (rw_fuel (iov_total iov) ≤ fuel)%nat → cs_total st < Z.of_nat flush_fuel →
  ∃ st' buf', cache_rw_func n fuel flush_fuel st CACHE_READ iov buf boff = Some (st', buf', op_success_status) ∧
    cs_ok st' ∧ (∀ i, cs_byte n st' i = cs_byte n st i) ∧ cs_total st' = cs_total st ∧
    ∀ p, buf' p = if decide (boff ≤ p < boff + iov_total iov) then cs_byte n st (iov_pos iov boff p) else buf p.
Proof.
  intros Hst Hne Hin Hfuel Hff. pose proof (iov_within_ok _ _ Hin) as Hok. unfold cache_rw_func.
  assert (existsb (λ v, bool_decide (iov_len v ≤ 0)) iov = false) as ->.
  { apply not_true_iff_false. intros (v & Hv%list_elem_of_In & Hl%bool_decide_eq_true)%existsb_exists. unfold iov_ok in Hok. rewrite Forall_forall in Hok. specialize (Hok v Hv). lia. }
  destruct (rw_new_size_spec iov Hok) as (_ & Hns & _). unfold iov_within in Hin. rewrite Forall_forall in Hin.
  assert (0 < cs_total st) as Ht0. { destruct iov as [|v iov]; [done|]. specialize (Hin v ltac:(by left)). lia. }
  rewrite (bool_decide_eq_false_2 (rw_new_size iov > segcache_size st)).
  2: { unfold segcache_size. rewrite decide_True by lia. destruct Hns as [->|(v & Hv & ->)]; [lia|]. specialize (Hin v Hv). lia. }
  rewrite (decide_False (P := iov = [])) by done. cbn [andb orb].
  set (Inv := read_inv (cs_byte n st) (cs_total st) iov buf boff).
  assert (∀ st buf t1 t2, (∀ i b, covers t1 i b ↔ covers t2 i b) → Inv st buf t1 → Inv st buf t2) as Hcov.
  { intros st0 buf0 t1 t2 Ht (H1 & H2 & H3 & H4 & H5). split; [done|]. split; [done|]. split; [done|]. split.
    - intros p Hp. apply H4. intros i. rewrite Ht. apply Hp.
    - intros i p Hp. apply H5. by rewrite Ht. }
  destruct (rw_loop_ok n CACHE_READ flush_fuel Inv Hcov) with (c := iov_total iov) (fuel := fuel) (st := st) (block := false) (progress := false)
    (top_cnt := Z.of_nat (length iov)) (todo := push_ranges iov boff []) (buf := buf) as (st' & buf' & -> & HI).
  - intros st0 block cr todo buf0 (H1 & H2 & H3 & H4 & H5) Hcr. unfold range_ok in Hcr.
    assert (cr_hi cr < cs_total st0) as Hhi.
    { rewrite H3. apply (H5 (cr_hi cr) (cr_boff cr + cr_hi cr - cr_lo cr)). apply covers_cons. left. lia. }
    destruct (get_range_read n Hn2 flush_fuel st0 block cr buf0) as (st1 & buf1 & skip & hi_got & -> & Hh & Hg & Hgot & Hskip & Hb); [by destruct H1..|done|done|lia|].
    exists st1, buf1, skip, hi_got. split; [done|]. split; [done|]. split; [done|]. destruct Hg as (Hext & Htot & _).
    split; [|split; [|split; [congruence|]]].
    + split; [by destruct Hh|by eapply held_quiet|]. rewrite Htot. apply Hext. by destruct H1.
    + intros i. by rewrite (hd_byte _ _ _ _ _ Hh).
    + assert (∀ i p, covers (left_over cr skip hi_got todo) i p → covers (cr :: todo) i p) as Hsub.
      { intros i p. unfold left_over. destruct skip; [done|]. rewrite covers_cons. destruct (decide (hi_got < cr_hi cr)); [|by auto].
        rewrite covers_cons. intros [Hc|?]; [|by auto]. left. simpl in Hc. lia. }
      split; [|intros i p Hc; by apply H5, Hsub]. intros p Hp. rewrite Hb. destruct (decide (skip = false ∧ cr_boff cr ≤ p ≤ cr_boff cr + hi_got - cr_lo cr)) as [[-> Hc]|Hc].
      * rewrite H2. symmetry. apply (H5 _ p). apply covers_cons. left. lia.
      * apply H4. intros i Hi. apply (Hp i). unfold left_over. destruct skip; [done|]. apply covers_cons in Hi as [Hi|Hi].
        -- rewrite decide_True by (destruct (decide (i ≤ hi_got)); [destruct Hc; split; [done|lia]|lia]). apply covers_cons. left. simpl.
           destruct (decide (i ≤ hi_got)); [destruct Hc; split; [done|lia]|lia].
        -- destruct (decide (hi_got < cr_hi cr)); [|done]. apply covers_cons. by right.
  - split; [done|]. split; [done|]. split; [done|]. split.
    + intros p Hp. case_decide as Hr; [|done]. exfalso. apply (Hp (iov_pos iov boff p)). apply covers_push; [done|]. by left.
    + intros i p [[Hr ->]|Hc]%covers_push; [|by apply covers_nil in Hc|done]. rewrite decide_True by done. split; [done|].
      destruct (iov_pos_in iov boff p Hok Hr) as (v & Hv & Hpos). specialize (Hin v Hv). lia.
  - by apply push_ok.
  - rewrite push_bytes. simpl. lia.
  - rewrite push_length. simpl. lia.
  - intros _. destruct iov; [done|simpl; lia].
  - by apply loop_start.
  - cbn [mbind option_bind]. exists st', buf'. split; [done|]. destruct HI as (H1 & H2 & H3 & H4 & _). split; [done|]. split; [done|]. split; [done|].
    intros p. apply H4. intros i. apply covers_nil.
Qed.

(** *** Writes *)
Lemma get_range_write fuel st block cr buf :
  cs_wf n st → cs_quiet st → range_ok cr →
  ∃ st' skip hi_got, get_range n fuel st CACHE_WRITE block cr buf = Some (st', buf, skip, hi_got) ∧
    cs_wf n st' ∧ cs_quiet st' ∧ grows n st st' ∧ cr_lo cr ≤ hi_got ≤ cr_hi cr ∧ (skip = true → block = false) ∧
    (∀ i, cs_byte n st' i = if decide (skip = false ∧ cr_lo cr ≤ i ≤ hi_got) then buf (cr_boff cr + i - cr_lo cr) else cs_byte n st i) ∧
    (skip = false → ∀ e, cr_lo cr < e ≤ hi_got + 1 → extent n st' e).
Proof.
  intros Hwf Hq Hcr. unfold get_range.
  destruct (write_pages_get_ok n Hn2 (cs_byte n st) (cr_lo cr) (cr_hi cr) (cr_boff cr) buf Hcr st block Hwf Hq) as (st' & skip & hg & -> & Hh & Hg & Hlo & Hskip & Hext); [done|].
  cbn [mbind option_bind]. exists st', skip. eexists. split; [done|]. split; [by destruct Hh|]. split; [by eapply held_quiet|]. split; [done|].
  unfold range_ok in Hcr. split; [case_decide; lia|]. split; [intros ?; by apply Hskip|]. split.
  - intros i. rewrite (hd_byte _ _ _ _ _ Hh). destruct skip; [by rewrite decide_False by (by intros [? _])|]. unfold overlay. apply decide_ext.
    destruct (decide (hg > cr_hi cr)); split; [intros ?; split; [done|lia]|lia|intros ?; split; [done|lia]|lia].
  - intros -> e He. apply Hext; [done|]. destruct (decide (hg > cr_hi cr)); lia.
Qed.

Definition write_inv (st0 : cache_segment S A) (iov : list ex_iovec) (buf0 : tbuffer) (boff : Z) st buf (todo : list cache_range) : Prop :=
  cs_wf n st ∧ cs_quiet st ∧ buf = buf0 ∧ grows n st0 st ∧
  (∀ i, (∀ p, ¬ covers todo i p) → cs_byte n st i = iov_overlay (cs_byte n st0) iov buf0 boff i) ∧
  (∀ i p, covers todo i p → iov_overlay (cs_byte n st0) iov buf0 boff i = buf0 p) ∧
  (∀ i p, covers (push_ranges iov boff []) i p → (∀ p, ¬ covers todo i p) → extent n st (i + 1)).

Lemma write_step flush_fuel st0 iov buf0 boff st block cr todo buf :
  write_inv st0 iov buf0 boff st buf (cr :: todo) → range_ok cr →
  ∃ st' buf' skip hi_got, get_range n flush_fuel st CACHE_WRITE block cr buf = Some (st', buf', skip, hi_got) ∧
    cr_lo cr ≤ hi_got ≤ cr_hi cr ∧ (skip = true → block = false) ∧ write_inv st0 iov buf0 boff st' buf' (left_over cr skip hi_got todo).
Proof.
  intros (Hwf & Hq & -> & Hg & HT & Hbuf & Hext) Hcr. unfold range_ok in *.
  destruct (get_range_write flush_fuel st block cr buf0 Hwf Hq Hcr) as (st1 & skip & hg & -> & Hwf1 & Hq1 & Hg1 & Hgot & Hskip & Hb & Hx).
  exists st1, buf0, skip, hg. split; [done|]. split; [done|]. split; [done|].
  assert (∀ i p, covers (left_over cr skip hg todo) i p → covers (cr :: todo) i p) as Hsub.
  { intros i p. unfold left_over. destruct skip; [done|]. rewrite covers_cons. destruct (decide (hg < cr_hi cr)); [|by auto].
    rewrite covers_cons. intros [Hc|?]; [|by auto]. left. simpl in Hc. lia. }
  assert (∀ i, (∀ p, ¬ covers (left_over cr skip hg todo) i p) → (skip = false ∧ cr_lo cr ≤ i ≤ hg) ∨ ∀ p, ¬ covers (cr :: todo) i p) as Hdone.
  { intros i Hno. unfold left_over in Hno. destruct skip; [by right|]. destruct (decide (cr_lo cr ≤ i ≤ hg)); [by left|right]. intros p [Hc|Hc]%covers_cons; apply (Hno p).
    - rewrite decide_True by lia. apply covers_cons. left. simpl. lia.
    - destruct (decide (hg < cr_hi cr)); [apply covers_cons; by right|done]. }
  split; [done|]. split; [done|]. split; [done|]. split; [by eapply grows_trans|]. split; [|split].
  - intros i Hno. rewrite Hb. destruct (Hdone i Hno) as [Hc|Hc].
    + rewrite decide_True by done. symmetry. apply Hbuf, covers_cons. left. lia.
    + rewrite decide_False; [by apply HT|]. intros [_ Hi]. apply (Hc (cr_boff cr + i - cr_lo cr)), covers_cons. left. lia.
  - intros i p Hc. by apply Hbuf, Hsub.
  - intros i p Hc Hno. destruct (Hdone i Hno) as [[Hs Hi]|Hc']; [apply Hx; [done|lia]|]. destruct Hg1 as [Hg1 _]. apply Hg1. by eapply Hext.
Qed.

Lemma cache_rw_write_ok fuel flush_fuel st iov buf boff :
  cs_ok st → iov ≠ [] → iov_ok iov → iov_disjoint iov → (rw_fuel (iov_total iov) ≤ fuel)%nat →
  ∃ st', cache_rw_func n fuel flush_fuel st CACHE_WRITE iov buf boff = Some (st', buf, op_success_status) ∧
    cs_ok st' ∧ (∀ i, cs_byte n st' i = iov_overlay (cs_byte n st) iov buf boff i) ∧ cs_total st' = Z.max (cs_total st) (rw_new_size iov).
Proof.
  intros [Hwf Hq Htot] Hne Hok Hdis Hfuel. unfold cache_rw_func.
  assert (existsb (λ v, bool_decide (iov_len v ≤ 0)) iov = false) as ->.
  { apply not_true_iff_false. intros (v & Hv%list_elem_of_In & Hl%bool_decide_eq_true)%existsb_exists. unfold iov_ok in Hok. rewrite Forall_forall in Hok. specialize (Hok v Hv). lia. }
  rewrite (decide_False (P := iov = [])) by done. rewrite andb_false_r. cbn [orb].
  destruct (rw_loop_ok n CACHE_WRITE flush_fuel (write_inv st iov buf boff)) with (c := iov_total iov) (fuel := fuel) (st := st) (block := false) (progress := false)
    (top_cnt := Z.of_nat (length iov)) (todo := push_ranges iov boff []) (buf := buf) as (st' & buf' & -> & HI).
  - intros st0 buf0 t1 t2 Ht (H1 & H2 & H3 & H4 & H5 & H6 & H7). split; [done|]. split; [done|]. split; [done|]. split; [done|]. split; [|split].
    + intros i Hi. apply H5. intros p. rewrite Ht. apply Hi.
    + intros i p Hp. apply H6. by rewrite Ht.
    + intros i p Hp Hi. apply (H7 i p Hp). intros q. rewrite Ht. apply Hi.
  - intros. by apply write_step.
  - split; [done|]. split; [done|]. split; [done|]. split; [apply grows_refl|]. split; [|split; [|by intros i p Hc Hno; destruct (Hno p)]].
    + intros i Hno. destruct (iov_overlay_pos iov buf i (cs_byte n st) boff Hok) as [(q & Hq1 & Hq2 & _)|[-> _]]; [|done].
      destruct (Hno q). apply covers_push; [done|]. left. split; [done|]. by rewrite Hq2.
    + intros i p [[Hp ->]|Hc]%covers_push; [|by apply covers_nil in Hc|done].
      destruct (iov_overlay_pos iov buf (iov_pos iov boff p) (cs_byte n st) boff Hok) as [(q & Hq1 & Hq2 & -> & _)|[_ Hno]]; [|by destruct (Hno p Hp)].
      f_equal. by apply (iov_disjoint_pos iov boff).
  - by apply push_ok.
  - rewrite push_bytes. simpl. lia.
  - rewrite push_length. simpl. lia.
  - intros _. destruct iov; [done|simpl; lia].
  - by apply loop_start.
  - cbn [mbind option_bind]. destruct HI as (H1 & H2 & -> & (H4 & H4' & _) & H5 & _ & H7).
    destruct (rw_new_size_spec iov Hok) as (Hns0 & Hns & _). rewrite (bool_decide_eq_true_2 (CACHE_WRITE = CACHE_WRITE)) by done. cbn [andb].
    assert (extent n st' (rw_new_size iov)) as Hnew.
    { destruct Hns as [->|(v & Hv & ->)].
      - left. lia.
      - unfold iov_ok in Hok. rewrite Forall_forall in Hok. destruct (iov_pos_onto iov boff v (iov_offset v + iov_len v - 1)) as (p & Hp & Hpos);
          [by apply Forall_forall|done|specialize (Hok v Hv); lia|].
        replace (iov_offset v + iov_len v) with (iov_offset v + iov_len v - 1 + 1) by lia. apply (H7 _ p); [apply covers_push; [by apply Forall_forall|by left]|]. intros q. apply covers_nil. }
    eexists. split; [done|]. rewrite H4'. case_bool_decide as Hgrow.
    + split; [|split; [|simpl; lia]].
      * split; [destruct H1; by split|done|]. simpl. destruct Hnew as [?|?]; [by left|by right].
      * intros i. rewrite <- H5 by (intros; apply covers_nil). done.
    + split; [|split; [|lia]].
      * split; [done|done|]. rewrite H4'. by apply H4.
      * intros i. apply H5. intros. apply covers_nil.
Qed.
End rw.
