(* ===== verification/CPageStore.v ===== *)
(** * A cached segment as a store of bytes

    Opening, flushing and resizing, and sequences of requests: what a cached
    segment answers is what a plain array of bytes would. *)
From S2P Require Import Prelude Seg CPage CPageOk CPageRun CPageFlush CPageGet CPageMid CPageRd CPageWr CPageRw.
From stdpp Require Import gmap.
#[local] Open Scope Z_scope.

(** ** Opening *)

(** The page size: the child's block size, or enough blocks for the cache's
    default page size. *)
Definition segcache_page_size (block_size default_page_size : Z) : Z :=
  if decide (block_size < default_page_size) then
    let k := default_page_size / block_size in
    let k := if decide (default_page_size `mod` block_size > 0) then k + 1 else k in
    k * block_size
  else block_size.

Definition child_last (page_size size : Z) : Z := if decide (size > 0) then (size - 1) / page_size * page_size else -1.

(** What [segcache_deserialize_text] leaves; [used_size] is from the exnode. *)
Definition segcache_open {S A} `{!Segment S} (page_size : Z) (child : S) (used_size : Z) (policy : A) : cache_segment S A :=
  Cache_segment child ∅ (child_last page_size (segment_size child)) used_size 0 policy.

Lemma segcache_page_size_ok block default :
  0 < block → let n := segcache_page_size block default in (block | n) ∧ block ≤ n ∧ default ≤ n ∧ n < Z.max block default + block.
Proof.
  intros Hb. unfold segcache_page_size. pose proof (Z.div_mod default block ltac:(lia)). pose proof (Z.mod_pos_bound default block Hb).
  case_decide; cbn zeta; [|split; [apply Z.divide_refl|lia]]. set (k := default / block) in *. set (r := default `mod` block) in *.
  case_decide; (split; [by eexists|]); assert (1 ≤ k ∨ k < 1) as [?|?] by lia; try nia.
Qed.

(** ** Requests *)
Inductive cache_req :=
| Req_read (iov : list ex_iovec) (buf : tbuffer) (boff : Z)
| Req_write (iov : list ex_iovec) (buf : tbuffer) (boff : Z)
| Req_flush (lo hi : Z).

(** A plain store: its bytes and its size. *)
Definition store : Type := (Z → Z) * Z.

Definition req_ok (s : store) (r : cache_req) : Prop :=
  match r with
  | Req_read iov _ _ => iov ≠ [] ∧ iov_within s.2 iov
  | Req_write iov _ _ => iov ≠ [] ∧ iov_ok iov ∧ iov_disjoint iov
  | Req_flush lo hi => 0 ≤ lo ≤ hi
  end.

(** The store and the buffer after a request. *)
Definition store_serve (s : store) (r : cache_req) : store * tbuffer :=
  match r with
  | Req_read iov buf boff => (s, λ p, if decide (boff ≤ p < boff + iov_total iov) then s.1 (iov_pos iov boff p) else buf p)
  | Req_write iov buf boff => ((iov_overlay s.1 iov buf boff, Z.max s.2 (rw_new_size iov)), buf)
  | Req_flush _ _ => (s, λ _, 0)
  end.

Fixpoint reqs_ok (s : store) (rs : list cache_req) : Prop :=
  match rs with [] => True | r :: rs => req_ok s r ∧ reqs_ok (store_serve s r).1 rs end.
Fixpoint store_serves (s : store) (rs : list cache_req) : store * list tbuffer :=
  match rs with
  | [] => (s, [])
  | r :: rs => let '(s, b) := store_serve s r in let '(s, bs) := store_serves s rs in (s, b :: bs)
  end.

Section store.
Context {S A : Type} `{!Segment S, !Gop, !PageAlloc S A}.
Context (n : Z).
Implicit Types (st : cache_segment S A).

(** The cached segment, with the rounds that are enough. *)
Definition cache_serve st (r : cache_req) : option (cache_segment S A * tbuffer * op_status) :=
  let flush_fuel := Datatypes.S (Z.to_nat (cs_total st)) in
  match r with
  | Req_read iov buf boff => cache_rw_func n (rw_fuel (iov_total iov)) flush_fuel st CACHE_READ iov buf boff
  | Req_write iov buf boff => cache_rw_func n (rw_fuel (iov_total iov)) flush_fuel st CACHE_WRITE iov buf boff
  | Req_flush lo hi => '(st, status) ← cache_flush_range n (Z.to_nat (hi - lo + 2)) st lo hi; Some (st, λ _, 0, status)
  end.

(** Every request succeeds, or there is no result. *)
Fixpoint cache_serves st (rs : list cache_req) : option (cache_segment S A * list tbuffer) :=
  match rs with
  | [] => Some (st, [])
  | r :: rs =>
      '(st, b, status) ← cache_serve st r;
      if decide (op_st status = OP_STATE_SUCCESS) then '(st, bs) ← cache_serves st rs; Some (st, b :: bs) else None
  end.
End store.

(** ** A child that fails *)
Section fail.
Context {S A : Type} `{!Segment S, !Gop}.
Context (n : Z).
Implicit Types (st : cache_segment S A).

Lemma do_run_no_errors st rel run st' e : do_run n st CACHE_FLUSH rel run = Some (st', e) → e = 0.
Proof.
  unfold do_run. intros Hr. destruct (head run); [|done]. destruct (last run); [|done]. cbn [mbind option_bind] in Hr.
  destruct (segment_write _ _ _ _) as [child status]. cbn [mbind option_bind] in Hr. destruct (clear_empty _ _); [|done]. cbn [mbind option_bind] in Hr.
  destruct rel; [destruct (cache_release_pages _ _ _ _); [|done]|]; by injection Hr as _ <-.
Qed.

Lemma do_runs_no_errors rel runs : ∀ st st' e, do_runs n st CACHE_FLUSH rel runs = Some (st', e) → e = 0.
Proof.
  induction runs as [|run runs IH]; intros st st' e Hr; cbn [do_runs] in Hr; [by injection Hr as _ <-|].
  destruct (do_run n st CACHE_FLUSH rel run) as [[st1 e1]|] eqn:H1; [|done]. cbn [mbind option_bind] in Hr.
  destruct (do_runs n st1 CACHE_FLUSH rel runs) as [[st2 e2]|] eqn:H2; [|done]. injection Hr as _ <-.
  rewrite (do_run_no_errors _ _ _ _ _ H1), (IH _ _ _ H2). done.
Qed.

Lemma flush_loop_no_errors fuel : ∀ st hi0 block progress todo st' ok,
  flush_loop n fuel st hi0 block progress todo true = Some (st', ok) → ok = true.
Proof.
  induction fuel as [|fuel IH]; intros st hi0 block progress todo st' ok Hr; [done|]. destruct todo as [|[lo hi] todo]; [by injection Hr as _ <-|].
  cbn [flush_loop] in Hr. destruct (cache_dirty_pages_get n st block lo hi max_pages) as [[[[st1 found] hi_got] skip]|]; [|done]. cbn [mbind option_bind] in Hr.
  destruct skip; cbn [negb] in Hr.
  - destruct (decide (hi_got = lo)); cbn [mbind option_bind] in Hr; destruct (decide (hi_got = hi0)); by eapply IH.
  - destruct (if decide (found = []) then _ else _) as [[st2 e]|] eqn:Hrw; [|done]. cbn [mbind option_bind] in Hr.
    assert (e = 0) as ->.
    { destruct (decide (found = [])); [by injection Hrw as _ <-|]. unfold cache_rw_pages in Hrw. destruct (clear_empty _ _); [|done]. cbn [mbind option_bind] in Hrw.
      destruct (cache_release_pages _ _ _ _); [|done]. by eapply do_runs_no_errors. }
    rewrite bool_decide_eq_true_2 in Hr by done. destruct (decide (hi_got = hi0)); by eapply IH.
Qed.

(** A flush of a cached segment never reports a failure, whatever the child does with the pages. *)
Theorem cache_flush_range_never_fails fuel st lo hi st' status :
  cache_flush_range n fuel st lo hi = Some (st', status) → status = op_success_status.
Proof.
  unfold cache_flush_range, cache_flush_range_func. intros Hr. destruct (decide (_ = -1)); [by injection Hr as _ <-|].
  destruct (flush_loop _ _ _ _ _ _ _ _) as [[st1 ok]|] eqn:Hl; [|done]. cbn [mbind option_bind] in Hr.
  rewrite (flush_loop_no_errors _ _ _ _ _ _ _ _ Hl) in Hr. by injection Hr as _ <-.
Qed.
End fail.

Section refine.
Context {S A : Type} `{!Segment S, !SegBytes S, !SegmentOk S, !SegmentVecOk S, !SegmentPageOk S, !Gop, !GopOk, !PageAlloc S A}.
Context (n : Z) (Hn2 : 2 ≤ n) `{!PageAllocOk (S := S) (A := A) n}.
Implicit Types (st : cache_segment S A).

Abbreviation row := (page_row n).

Lemma cs_ok_open (child : S) used_size (policy : A) :
  vec_up child → used_size ≤ Z.max 0 (segment_size child) → (∀ i, segment_size child ≤ i → seg_byte child i = 0) →
  cs_ok n (segcache_open n child used_size policy).
Proof.
  intros Hup Hsize Hzero. unfold segcache_open. set (size := segment_size child) in *.
  assert (∀ i, 0 ≤ i → child_last n size < row i → size ≤ i ∧ (child_last n size = -1 ∨ 0 ≤ child_last n size < size)) as Hlast.
  { intros i Hi Hl. unfold child_last in *. case_decide; [|split; [lia|by left]]. fold (row (size - 1)) in *.
    destruct (row_spec n ltac:(lia) (size - 1)) as [Hal Hrow]. pose proof (row_nonneg n ltac:(lia) (size - 1) ltac:(lia)).
    destruct (row_spec n ltac:(lia) i) as [Hali Hrowi]. pose proof (row_apart n ltac:(lia) _ _ Hal Hali Hl). lia. }
  split; [split|by intros o p|left; simpl; lia]; cbn [cs_child cs_pages cs_last cs_dirty_bytes]; try done.
  - intros i Hi Hl. apply Hzero. by apply Hlast.
  - unfold child_last. case_decide; [|by left]. right. fold (row (size - 1)). pose proof (row_spec n ltac:(lia) (size - 1)).
    pose proof (row_nonneg n ltac:(lia) (size - 1) ltac:(lia)). fold size. lia.
  - unfold dirty_count. rewrite map_filter_empty, map_size_empty. lia.
Qed.

(** The child holds what is in no dirty page. *)
Lemma clean_byte st i :
  cs_wf n st → cs_quiet st → (∀ p, cs_pages st !! row i = Some p → cp_dirty p = false) → seg_byte (cs_child st) i = cs_byte n st i.
Proof.
  intros Hwf Hq Hc. destruct (cs_pages st !! row i) as [p|] eqn:Hp; [|by rewrite cs_byte_out].
  destruct (Hq _ _ Hp) as [Hi _]. destruct (cw_clean _ _ Hwf _ _ Hp (Hc p eq_refl) Hi) as (d & Hd & Hx).
  destruct (row_spec n ltac:(lia) i) as [Hal Hr]. rewrite (cs_byte_in n st (row i) p d i) by (done || lia). rewrite Hx by lia. f_equal. lia.
Qed.

Lemma room_ok st st' : cs_ok n st → room n st st' → cs_ok n st'.
Proof.
  intros [Hwf Hq Ht] Hr. split; [by destruct Hr|by eapply room_quiet|]. rewrite (rm_total _ _ _ Hr). by apply (rm_extent _ _ _ Hr).
Qed.

Lemma cache_serve_ok st r f :
  cs_ok n st → (∀ i, cs_byte n st i = f i) → req_ok (f, cs_total st) r →
  ∃ st' b, cache_serve n st r = Some (st', b, op_success_status) ∧ cs_ok n st' ∧
    (∀ i, cs_byte n st' i = (store_serve (f, cs_total st) r).1.1 i) ∧ cs_total st' = (store_serve (f, cs_total st) r).1.2 ∧
    ∀ p, b p = (store_serve (f, cs_total st) r).2 p.
Proof.
  intros Hst Hf Hr. destruct r as [iov buf boff|iov buf boff|lo hi]; simpl in Hr |- *.
  - destruct Hr as [Hne Hin]. destruct (cache_rw_read_ok n Hn2 (rw_fuel (iov_total iov)) (Datatypes.S (Z.to_nat (cs_total st))) st iov buf boff)
      as (st' & buf' & -> & Hst' & Hb & Ht & Hbuf); [done..|lia|]. exists st', buf'. split; [done|]. split; [done|].
    split; [intros i; by rewrite Hb|]. split; [done|]. intros p. rewrite Hbuf. case_decide; [by rewrite Hf|done].
  - destruct Hr as (Hne & Hok & Hdis). destruct (cache_rw_write_ok n Hn2 (rw_fuel (iov_total iov)) (Datatypes.S (Z.to_nat (cs_total st))) st iov buf boff)
      as (st' & -> & Hst' & Hb & Ht); [done..|]. exists st', buf. split; [done|]. split; [done|].
    split; [intros i; rewrite Hb; by apply iov_overlay_ext|]. done.
  - destruct Hst as [Hwf Hq Htot]. destruct (cache_flush_range_ok n Hn2 (Z.to_nat (hi - lo + 2)) st lo hi) as (st' & -> & Hroom & _ & _);
      [done|by apply dirty_idle_quiet|done|lia|]. exists st', (λ _, 0). split; [done|]. split; [by eapply room_ok|].
    split; [intros i; by rewrite (rm_byte _ _ _ Hroom)|]. split; [by apply (rm_total _ _ _ Hroom)|done].
Qed.

Lemma cache_serves_ok rs : ∀ st f,
  cs_ok n st → (∀ i, cs_byte n st i = f i) → reqs_ok (f, cs_total st) rs →
  ∃ st' bs, cache_serves n st rs = Some (st', bs) ∧ cs_ok n st' ∧ (∀ i, cs_byte n st' i = (store_serves (f, cs_total st) rs).1.1 i) ∧
    cs_total st' = (store_serves (f, cs_total st) rs).1.2 ∧ Forall2 (λ b b' : tbuffer, ∀ p, b p = b' p) bs (store_serves (f, cs_total st) rs).2.
Proof.
  induction rs as [|r rs IH]; intros st f Hst Hf Hok; cbn [cache_serves store_serves]; [by exists st, []|]. destruct Hok as [Hr Hrs].
  destruct (cache_serve_ok st r f Hst Hf Hr) as (st1 & b & -> & Hst1 & Hb1 & Ht1 & Hbuf). cbn [mbind option_bind].
  rewrite decide_True by apply op_success_state. destruct (store_serve (f, cs_total st) r) as [[f1 size1] b1] eqn:Hs. simpl in *. subst size1.
  destruct (IH st1 f1 Hst1 Hb1 Hrs) as (st2 & bs & -> & Hst2 & Hb2 & Ht2 & Hbs).
  destruct (store_serves (f1, cs_total st1) rs) as [[f2 size2] bs2]. cbn [mbind option_bind]. exists st2, (b :: bs). split; [done|]. split; [done|].
  split; [done|]. split; [done|]. by constructor.
Qed.

(** ** Flushing and resizing *)
Lemma cache_flush_durable_ok fuel st lo hi :
  cs_ok n st → 0 ≤ lo ≤ hi → hi - lo + 1 < Z.of_nat fuel →
  ∃ st', cache_flush_range n fuel st lo hi = Some (st', op_success_status) ∧ cs_ok n st' ∧ cs_total st' = cs_total st ∧
    (∀ i, cs_byte n st' i = cs_byte n st i) ∧ ∀ i, row lo ≤ i ≤ hi → seg_byte (cs_child st') i = cs_byte n st i.
Proof.
  intros Hst Hlo Hfuel. pose proof Hst as [Hwf Hq Ht]. destruct (cache_flush_range_ok n Hn2 fuel st lo hi Hwf (dirty_idle_quiet _ Hq) Hlo Hfuel) as (st' & -> & Hr & _ & Hc).
  pose proof (room_ok st st' Hst Hr) as Hst'. exists st'. split; [done|]. split; [done|]. split; [by apply (rm_total _ _ _ Hr)|]. split; [apply (rm_byte _ _ _ Hr)|].
  intros i Hi. destruct Hst' as [Hwf' Hq' _]. rewrite <- (rm_byte _ _ _ Hr). apply clean_byte; [done|done|]. intros p Hp. apply (Hc _ _ Hp).
  pose proof (row_spec n ltac:(lia) i). pose proof (row_le n ltac:(lia) (row lo) i ltac:(lia)) as Hle. rewrite row_row in Hle by lia. lia.
Qed.

Lemma page_drop_ok st lo xot_max :
  cs_quiet st → lo + n ≤ xot_max →
  ∃ pages, cache_page_drop n st lo xot_max = Some (cs_set_pages st pages) ∧
    (∀ o p, pages !! o = Some p → cs_pages st !! o = Some p ∧ (o < lo ∨ xot_max ≤ o)) ∧
    ∀ i, i < lo → pages !! row i = cs_pages st !! row i.
Proof.
  intros Hq Hx. unfold cache_page_drop. destruct (row_spec n ltac:(lia) lo) as [Hal Hrow]. destruct (row_spec n ltac:(lia) xot_max) as [_ Hrowx].
  set (lo_row := if decide (lo ≠ row lo) then row lo + 1 else row lo).
  assert (lo_row = row lo ∧ lo = row lo ∨ lo_row = row lo + 1 ∧ row lo < lo) as Hlr by (unfold lo_row; case_decide; lia).
  rewrite decide_False by lia. cbn zeta. set (busy := forallb _ _). assert (busy = true) as ->.
  { apply forallb_forall. intros [o p] Hin%list_elem_of_In. apply list_elem_of_filter in Hin as [_ Hin%elem_of_map_to_list].
    destruct (Hq o p Hin) as [(Hr & Hw & Hf) _]. apply bool_decide_eq_true. simpl. lia. }
  eexists. split; [done|]. split.
  - intros o p [Hp Hdoom]%map_lookup_filter_Some. split; [done|]. simpl in Hdoom. lia.
  - intros i Hi. pose proof (row_le n ltac:(lia) i lo ltac:(lia)). pose proof (row_spec n ltac:(lia) i).
    destruct (cs_pages st !! row i) as [p|] eqn:Hp.
    + apply map_lookup_filter_Some. split; [done|]. simpl. lia.
    + apply map_lookup_filter_None. by left.
Qed.

(** Dropping pages that are not in use. *)
Lemma wf_drop st pages total :
  cs_wf n st → (∀ o p, pages !! o = Some p → cs_pages st !! o = Some p) →
  cs_wf n (Cache_segment (cs_child st) pages (cs_last st) total (cs_dirty_bytes st) (cs_policy st)).
Proof.
  intros [Hup Hpage Hclean Hzero Hlast Hdirty] Hsub. split; cbn [cs_child cs_pages cs_last cs_dirty_bytes]; eauto.
  assert (dirty_count pages ≤ dirty_count (cs_pages st)); [|nia]. unfold dirty_count. apply inj_le. apply map_subseteq_size.
  apply map_subseteq_spec. intros o p [Hp Hd]%map_lookup_filter_Some. apply map_lookup_filter_Some. eauto.
Qed.

Lemma segcache_truncate_ok xot_max fuel st new :
  cs_ok n st → 0 ≤ new → new + n ≤ xot_max → new + 1 < Z.of_nat fuel →
  (∀ c : S, vec_up c → op_st (segment_truncate c new).2 = OP_STATE_SUCCESS) →
  ∃ st', segcache_truncate n xot_max fuel st new = Some (st', op_success_status) ∧ cs_quiet st' ∧
    cs_total st' = new ∧ segment_size (cs_child st') = new ∧
    (∀ o, is_Some (cs_pages st' !! o) → is_Some (cs_pages st !! o) ∧ (new < cs_total st → o < new ∨ xot_max ≤ o)) ∧
    ∀ i, 0 ≤ i < new → i < segment_size (cs_child st) ∨ is_Some (cs_pages st !! row i) → cs_byte n st' i = cs_byte n st i.
Proof.
  intros [Hwf Hq _] Hnew Hx Hfuel Htrunc. unfold segcache_truncate. rewrite decide_False by lia.
  assert (∃ pages, (if decide (new < cs_total st) then cache_page_drop n (cs_set_total st new) new xot_max else Some (cs_set_total st new)) =
      Some (Cache_segment (cs_child st) pages (cs_last st) new (cs_dirty_bytes st) (cs_policy st)) ∧
    (∀ o p, pages !! o = Some p → cs_pages st !! o = Some p ∧ (new < cs_total st → o < new ∨ xot_max ≤ o)) ∧
    ∀ i, i < new → pages !! row i = cs_pages st !! row i) as (pages & -> & Hsub & Hkeep).
  { case_decide as Hlt; [|exists (cs_pages st); split; [done|]; split; [intros; split; [done|lia]|done]].
    destruct (page_drop_ok (cs_set_total st new) new xot_max Hq Hx) as (pages & -> & Hsub & Hkeep). exists pages. split; [done|].
    split; [|done]. intros o p Hp. destruct (Hsub o p Hp) as [? ?]. split; [done|]. by intros _. }
  cbn [mbind option_bind]. set (st1 := Cache_segment _ _ _ _ _ _).
  assert (cs_wf n st1) as Hwf1 by (apply wf_drop; [done|intros o p Hp; by apply Hsub]).
  assert (cs_quiet st1) as Hq1 by (intros o p Hp; apply (Hq o p); by apply Hsub).
  destruct (cache_flush_range_ok n Hn2 fuel st1 0 new Hwf1 (dirty_idle_quiet _ Hq1) ltac:(lia) ltac:(lia)) as (st2 & -> & Hr & Hstay & Hc).
  cbn [mbind option_bind]. pose proof (room_quiet n _ _ Hr Hq1) as Hq2. pose proof (rm_wf _ _ _ Hr) as Hwf2.
  specialize (Htrunc (cs_child st2) (cw_up _ _ Hwf2)). pose proof (truncate_size (cs_child st2) new Hnew Htrunc) as Hsize.
  pose proof (λ i Hi1 Hi2, truncate_bytes (cs_child st2) new i Hi1 Hi2 Htrunc) as Hbytes.
  destruct (segment_truncate (cs_child st2) new) as [child status]. cbn [fst snd] in *.
  rewrite (decide_True (P := op_st op_success_status = OP_STATE_SUCCESS ∧ op_st status = OP_STATE_SUCCESS)) by (split; [apply op_success_state|done]). eexists. split; [done|].
  split; [done|]. split; [apply (rm_total _ _ _ Hr)|]. split; [done|]. split.
  - intros o [p Hp]. destruct (rm_sub _ _ _ Hr o p Hp) as (p1 & Hp1 & _). destruct (Hsub o p1 Hp1) as [Hp0 ?]. split; [by eexists|done].
  - intros i Hi Hcov. assert (cs_byte n st2 i = cs_byte n st i) as <-.
    { rewrite (rm_byte _ _ _ Hr). unfold cs_byte. cbn [st1 cs_pages cs_child]. by rewrite Hkeep by lia. }
    unfold cs_byte. cbn [cs_pages cs_child cs_set_last cs_set_child]. destruct (cs_pages st2 !! row i) as [p|] eqn:Hp; [done|]. apply Hbytes; [done|].
    destruct Hcov as [Hi'|Hpres]; [pose proof (rm_size _ _ _ Hr); simpl in *; lia|].
    rewrite <- Hkeep in Hpres by lia. destruct (Hstay _ Hpres) as [q Hq']. congruence.
Qed.

(** C6: After the segment is opened, every sequence of well-formed reads, writes and range flushes succeeds, and answers and leaves the bytes and the size that a plain store would. *)
Theorem segcache_requests_refine (child : S) used_size (policy : A) rs :
  vec_up child → used_size ≤ Z.max 0 (segment_size child) → (∀ i, segment_size child ≤ i → seg_byte child i = 0) →
  reqs_ok (seg_byte child, used_size) rs →
  let spec := store_serves (seg_byte child, used_size) rs in
  ∃ st' bs, cache_serves n (segcache_open n child used_size policy) rs = Some (st', bs) ∧ cs_ok n st' ∧
    (∀ i, cs_byte n st' i = spec.1.1 i) ∧ cs_total st' = spec.1.2 ∧ Forall2 (λ b b' : tbuffer, ∀ p, b p = b' p) bs spec.2.
Proof.
  intros Hup Hsize Hzero Hrs. apply (cache_serves_ok rs (segcache_open n child used_size policy) (seg_byte child)); [by apply cs_ok_open| |done].
  intros i. by apply cs_byte_out.
Qed.

(** C7: For a cached segment without partial pages, over a child whose reads and
    writes succeed: a flush of a range returns, changes nothing of what the
    segment holds, and after it the child itself holds the bytes of the range. *)
Theorem cache_flush_range_durable fuel st lo hi :
  cs_ok n st → 0 ≤ lo ≤ hi → hi - lo + 1 < Z.of_nat fuel →
  ∃ st', cache_flush_range n fuel st lo hi = Some (st', op_success_status) ∧ cs_ok n st' ∧ cs_total st' = cs_total st ∧
    (∀ i, cs_byte n st' i = cs_byte n st i) ∧ ∀ i, row lo ≤ i ≤ hi → seg_byte (cs_child st') i = cs_byte n st i.
Proof. apply cache_flush_durable_ok. Qed.

(** A resize of a cached segment whose child can be resized returns with both sizes set, keeps no page past a smaller size, and keeps the bytes below the new size that a page or the child had. *)
Theorem segcache_truncate_correct xot_max fuel st new :
  cs_ok n st → 0 ≤ new → new + n ≤ xot_max → new + 1 < Z.of_nat fuel →
  (∀ c : S, vec_up c → op_st (segment_truncate c new).2 = OP_STATE_SUCCESS) →
  ∃ st', segcache_truncate n xot_max fuel st new = Some (st', op_success_status) ∧ cs_quiet st' ∧
    cs_total st' = new ∧ segment_size (cs_child st') = new ∧
    (∀ o, is_Some (cs_pages st' !! o) → is_Some (cs_pages st !! o) ∧ (new < cs_total st → o < new ∨ xot_max ≤ o)) ∧
    ∀ i, 0 ≤ i < new → i < segment_size (cs_child st) ∨ is_Some (cs_pages st !! row i) → cs_byte n st' i = cs_byte n st i.
Proof. apply segcache_truncate_ok. Qed.
End refine.
