(* ===== verification/CPageDemo.v ===== *)
(** * Pages of a cached segment: concrete runs

    A policy that keeps a number of pages and drops clean ones that are not in
    use, and runs with it over a segment in memory. *)
From S2P Require Import Prelude Seg CPage CPageOk CPageRun CPageFlush CPageGet CPageMid CPageRd CPageWr CPageRw CPageStore.
From stdpp Require Import gmap.
#[local] Open Scope Z_scope.

#[local] Existing Instance gop_std.
#[local] Existing Instance gop_std_ok.

(** ** A policy *)
Section evict.
Context {S : Type} `{!Segment S, !SegBytes S, !SegmentOk S, !SegmentVecOk S}.
Implicit Types (st : cache_segment S nat).

Definition can_drop (p : cache_page) : Prop := idle p ∧ cp_dirty p = false.
#[export] Instance can_drop_dec p : Decision (can_drop p).
Proof. unfold can_drop. apply _. Defined.

(** The policy's state is the number of pages to keep. *)
Definition drop_clean st : cache_segment S nat := cs_set_pages st (filter (λ op, ¬ can_drop op.2) (cs_pages st)).

#[export] Instance evict_alloc : PageAlloc S nat := λ st block,
  if decide (size (cs_pages st) < cs_policy st)%nat then (st, true)
  else let st := drop_clean st in (st, block || bool_decide (size (cs_pages st) < cs_policy st)%nat).

Lemma drop_clean_room n st : 2 ≤ n → cs_wf n st → room n st (drop_clean st).
Proof.
  intros Hn Hwf. assert (∀ o p, cs_pages (drop_clean st) !! o = Some p → cs_pages st !! o = Some p) as Hsub.
  { intros o p Hp. by apply map_lookup_filter_Some in Hp as [? _]. }
  assert (∀ o p, cs_pages st !! o = Some p → ¬ can_drop p → cs_pages (drop_clean st) !! o = Some p) as Hkeep.
  { intros o p Hp Hd. by apply map_lookup_filter_Some. }
  split; try done.
  - by apply (wf_drop n ltac:(lia) st _ (cs_total st)).
  - intros o p Hp. exists p. split; [by apply Hsub|by left].
  - intros o p Hp Hi. apply Hkeep; [done|]. by intros [? _].
  - intros i. destruct (cs_pages st !! page_row n i) as [p|] eqn:Hp.
    2: { unfold cs_byte. rewrite Hp. destruct (cs_pages (drop_clean st) !! page_row n i) as [p|] eqn:Hp'; [|done]. apply Hsub in Hp'. congruence. }
    destruct (decide (can_drop p)) as [[Hi Hd]|Hd].
    + destruct (cw_clean _ _ Hwf _ p Hp Hd Hi) as (d & Hpd & Hx). destruct (row_spec n ltac:(lia) i) as [Hal Hr].
      rewrite (cs_byte_in n st (page_row n i) p d i) by (done || lia). rewrite Hx by lia. rewrite cs_byte_out; [cbn [drop_clean cs_child cs_set_pages]; f_equal; lia|].
      destruct (cs_pages (drop_clean st) !! page_row n i) as [q|] eqn:Hq; [|done]. apply map_lookup_filter_Some in Hq as [Hq Hnd]. destruct Hnd.
      simpl. assert (q = p) as -> by congruence. done.
    + unfold cs_byte. by rewrite Hp, (Hkeep _ _ Hp Hd).
  - intros e [He|(o & p & Hp & Hd & He)]; [by left|]. right. exists o, p. split; [|done]. apply Hkeep; [done|]. intros [_ ?]. congruence.
Qed.

#[export] Instance evict_alloc_ok n `{Hn : !TCEq (2 <=? n) true} : PageAllocOk (S := S) (A := nat) n.
Proof.
  assert (2 ≤ n) as Hn0 by (apply Z.leb_le; by inversion Hn). split; unfold create_empty_page, evict_alloc.
  - intros st b Hwf. case_decide; [by apply room_refl|by apply drop_clean_room].
  - intros st Hwf. case_decide; [done|]. done.
Qed.
End evict.

(** ** Runs *)

(** Pages of 4 bytes, two of them, over 10 bytes. *)
Definition demo_child : mem_seg := Mem_seg 10 (λ i, if decide (0 ≤ i < 10) then 100 + i else 0) true.
Definition demo_cseg : cache_segment mem_seg nat := segcache_open 4 demo_child 10 2%nat.
Definition demo_src : tbuffer := λ p, p + 1.

Definition demo_reqs : list cache_req :=
  [Req_write [Ex_iovec 13 2; Ex_iovec 2 8] demo_src 0; Req_read [Ex_iovec 1 14] (λ _, 7) 1; Req_flush 0 14; Req_read [Ex_iovec 0 2; Ex_iovec 9 2] (λ _, 7) 0].

Definition demo_show (r : option (cache_segment mem_seg nat * list tbuffer)) : option (list (list Z) * list (Z * bool) * list Z * Z) :=
  '(st, bs) ← r;
  Some (map (λ b : tbuffer, b <$> seqZ 0 16) bs, map (λ op : Z * cache_page, (op.1, cp_dirty op.2)) (map_to_list (cs_pages st)),
    ms_byte (cs_child st) <$> seqZ 0 16, cs_total st).

Example demo_pages_run :
  demo_show (cache_serves 4 demo_cseg demo_reqs) =
  Some ([demo_src <$> seqZ 0 16;
         [7; 101; 3; 4; 5; 6; 7; 8; 9; 10; 0; 0; 0; 1; 2; 7];
         [0; 0; 0; 0; 0; 0; 0; 0; 0; 0; 0; 0; 0; 0; 0; 0];
         [100; 101; 10; 0; 7; 7; 7; 7; 7; 7; 7; 7; 7; 7; 7; 7]],
    [(12, false); (8, false); (4, false); (0, false)],
    [100; 101; 3; 4; 5; 6; 7; 8; 9; 10; 0; 0; 0; 1; 2; 0], 15).
Proof. vm_compute. reflexivity. Qed.

(** What is clean is dropped for the next request. *)
Example demo_evict :
  (λ '(_, pages, _, _), pages) <$> demo_show (cache_serves 4 demo_cseg (take 3 demo_reqs ++ [Req_write [Ex_iovec 17 2] demo_src 0])) = Some [(16, true)].
Proof. vm_compute. reflexivity. Qed.

(** One dirty page over the child. *)
Definition demo_dirty : cache_segment mem_seg nat :=
  Cache_segment demo_child {[4 := Cache_page (Some (λ x, 50 + x)) true false 0 0 0]} 8 10 4 2%nat.

Lemma demo_child_zero i : segment_size demo_child ≤ i → seg_byte demo_child i = 0.
Proof. intros Hi. unfold seg_byte, mem_bytes. simpl in *. by rewrite decide_False by lia. Qed.

Lemma demo_dirty_ok : cs_ok 4 demo_dirty.
Proof.
  assert (∀ o p, cs_pages demo_dirty !! o = Some p → o = 4 ∧ p = Cache_page (Some (λ x, 50 + x)) true false 0 0 0) as Hone.
  { intros o p Hp. simpl in Hp. apply lookup_singleton_Some in Hp as [<- <-]. done. }
  split; [split| |].
  - done.
  - intros o p Hp. destruct (Hone o p Hp) as [-> ->]. split; [lia|]. split; [by exists 1|by eexists].
  - intros o p Hp Hd. destruct (Hone o p Hp) as [-> ->]. done.
  - intros i Hi Hl. apply demo_child_zero. simpl in *. destruct (row_spec 4 ltac:(lia) i) as [[k Hk] Hr]. lia.
  - right. simpl. lia.
  - simpl. done.
  - intros o p Hp. destruct (Hone o p Hp) as [-> ->]. done.
  - left. simpl. lia.
Qed.

(** ** What the code does wrong *)

(** The page is lost when the child does not answer: the flush succeeds and the
    page is clean. *)
Definition demo_down : cache_segment mem_seg nat :=
  Cache_segment (Mem_seg 10 (λ i, 100 + i) false) {[4 := Cache_page (Some (λ x, 50 + x)) true false 0 0 0]} 8 10 4 2%nat.
Example demo_flush_lost :
  (λ '(st, status), (map (λ op : Z * cache_page, (op.1, cp_dirty op.2)) (map_to_list (cs_pages st)), ms_byte (cs_child st) <$> seqZ 4 4,
    bool_decide (op_st status = OP_STATE_SUCCESS))) <$> cache_flush_range 4 20 demo_down 0 9 = Some ([(4, false)], [104; 105; 106; 107], true).
Proof. vm_compute. reflexivity. Qed.

(** With pages of one byte a flush writes nothing. *)
Example demo_flush_one_byte :
  (λ '(st, _), map (λ op : Z * cache_page, (op.1, cp_dirty op.2)) (map_to_list (cs_pages st))) <$>
    cache_flush_range 1 20 (Cache_segment demo_child {[4 := Cache_page (Some (λ x, 50)) true false 0 0 0]} 9 10 1 2%nat) 0 9 = Some [(4, true)].
Proof. vm_compute. reflexivity. Qed.

(** Of overlapping extents the earlier one stays. *)
Example demo_overlap :
  (λ '(st, _, _), cs_byte 4 st <$> seqZ 0 6) <$>
    cache_rw_func 4 1000 20 demo_cseg CACHE_WRITE [Ex_iovec 0 4; Ex_iovec 2 4] demo_src 0 = Some [1; 2; 3; 4; 7; 8].
Proof. vm_compute. reflexivity. Qed.

(** After a resize to 5 bytes the dirty bytes of the page that was dropped are
    still counted, and the end of the page that was kept comes back when the
    segment grows again. *)
Example demo_truncate :
  (λ '(st, _), (map fst (map_to_list (cs_pages st)), cs_dirty_bytes st, cs_byte 4 st <$> seqZ 4 4)) <$>
    segcache_truncate 4 1000 20
      (Cache_segment demo_child {[4 := Cache_page (Some (λ x, 50 + x)) true false 0 0 0; 8 := Cache_page (Some (λ x, 60 + x)) true false 0 0 0]} 8 10 8 2%nat) 5 =
  Some ([4], 4, [50; 51; 52; 53]).
Proof. vm_compute. reflexivity. Qed.

(** ** The theorems at these inputs *)
Lemma cache_flush_range_never_fails_witness :
  ∃ st' status, cache_flush_range 4 20 demo_down 0 9 = Some (st', status) ∧ status = op_success_status ∧
    seg_byte (cs_child st') 4 = 104 ∧ cs_byte 4 demo_down 4 = 50.
Proof.
  destruct (cache_flush_range 4 20 demo_down 0 9) as [[st' status]|] eqn:H; [|vm_compute in H; done]. exists st', status.
  split; [done|]. split; [exact (cache_flush_range_never_fails 4 20 demo_down 0 9 st' status H)|].
  vm_compute in H. injection H as <- _. split; vm_compute; reflexivity.
Defined.

Lemma segcache_requests_refine_witness :
  reqs_ok (seg_byte demo_child, 10) demo_reqs ∧
  let spec := store_serves (seg_byte demo_child, 10) demo_reqs in
  ∃ st' bs, cache_serves 4 (segcache_open 4 demo_child 10 2%nat) demo_reqs = Some (st', bs) ∧ cs_ok 4 st' ∧
    (∀ i, cs_byte 4 st' i = spec.1.1 i) ∧ cs_total st' = spec.1.2 ∧ Forall2 (λ b b' : tbuffer, ∀ p, b p = b' p) bs spec.2.
Proof.
  assert (reqs_ok (seg_byte demo_child, 10) demo_reqs) as Hrs.
  { simpl. unfold iov_ok, iov_within. rewrite ?Forall_cons, ?Forall_nil. simpl.
    split_and!; try done; try lia. }
  split; [exact Hrs|].
  apply (segcache_requests_refine 4 ltac:(lia) demo_child 10 2%nat demo_reqs); [done|simpl; lia|exact demo_child_zero|exact Hrs].
Defined.

Lemma cache_flush_range_durable_witness :
  ∃ st', cache_flush_range 4 20 demo_dirty 5 8 = Some (st', op_success_status) ∧ cs_ok 4 st' ∧ cs_total st' = cs_total demo_dirty ∧
    (∀ i, cs_byte 4 st' i = cs_byte 4 demo_dirty i) ∧ ∀ i, page_row 4 5 ≤ i ≤ 8 → seg_byte (cs_child st') i = cs_byte 4 demo_dirty i.
Proof. apply (cache_flush_range_durable 4 ltac:(lia) 20 demo_dirty 5 8); [exact demo_dirty_ok|lia|lia]. Defined.

Lemma segcache_truncate_correct_witness :
  ∃ st', segcache_truncate 4 1000 20 demo_dirty 6 = Some (st', op_success_status) ∧ cs_quiet st' ∧
    cs_total st' = 6 ∧ segment_size (cs_child st') = 6 ∧
    (∀ o, is_Some (cs_pages st' !! o) → is_Some (cs_pages demo_dirty !! o) ∧ (6 < cs_total demo_dirty → o < 6 ∨ 1000 ≤ o)) ∧
    ∀ i, 0 ≤ i < 6 → i < segment_size (cs_child demo_dirty) ∨ is_Some (cs_pages demo_dirty !! page_row 4 i) → cs_byte 4 st' i = cs_byte 4 demo_dirty i.
Proof.
  apply (segcache_truncate_correct 4 ltac:(lia) 1000 20 demo_dirty 6); [exact demo_dirty_ok|lia|lia|lia|].
  intros c Hup. simpl in *. unfold mem_status. rewrite Hup. apply op_success_state.
Defined.
