(* ===== verification/OsTcache.v ===== *)
(** * The cache of the time cache object service (os_timecache.c)

    The tree of cached objects and their attributes: the walk along a path, the
    attribute links, and what is done with the entries.  An object has one owner,
    the hash of its parent, so its address is the names that lead to it from the
    root.  Where the source would run past a pointer that is not there, or read
    or free memory it must not, the result is [None]. *)
From Stdlib Require Import Ascii.
From S2P Require Import Prelude Inip Path OsGlob.
From stdpp Require Import gmap strings.
#[local] Open Scope Z_scope.

(** A value of an attribute array: the buffer, none when it is [NULL], and
    [v_size]. *)
Abbreviation slot := (option string * Z)%type.

(** [ostcdb_attr_t]; the key is that of the hash. *)
Record ostcdb_attr := Ostcdb_attr {
  at_val : option string;
  at_link : option string;
  at_size : Z;
  at_expire : Z }.

(** [ostcdb_object_t]: [ob_objects] is whether it has a hash of objects. *)
Record ostcdb_object := Ostcdb_object {
  ob_ftype : Z;
  ob_link : option string;
  ob_objects : bool;
  ob_attrs : gmap string ostcdb_attr;
  ob_expire : Z }.

Abbreviation addr := (list string).
Abbreviation ostc_cache := (gmap addr ostcdb_object).

Definition OS_PATH_MAX : Z := 32768.

Definition new_ostcdb_attr (val : option string) (v_size expire : Z) : ostcdb_attr :=
  Ostcdb_attr (if decide (v_size > 0) then val else None) None v_size expire.
Definition new_ostcdb_object (ftype expire : Z) : ostcdb_object :=
  Ostcdb_object ftype None (negb (Z.land ftype OS_OBJECT_DIR =? 0)) ∅ expire.

Definition set_attrs (o : ostcdb_object) attrs : ostcdb_object :=
  Ostcdb_object (ob_ftype o) (ob_link o) (ob_objects o) attrs (ob_expire o).
Definition set_link (o : ostcdb_object) link : ostcdb_object :=
  Ostcdb_object (ob_ftype o) link (ob_objects o) (ob_attrs o) (ob_expire o).

Definition get_attr (c : ostc_cache) (a : addr) (k : string) : option ostcdb_attr := o ← c !! a; ob_attrs o !! k.
Definition put_attr (c : ostc_cache) (a : addr) (k : string) (x : ostcdb_attr) : ostc_cache :=
  alter (λ o, set_attrs o (<[k := x]> (ob_attrs o))) a c.
Definition del_attr (c : ostc_cache) (a : addr) (k : string) : ostc_cache :=
  alter (λ o, set_attrs o (delete k (ob_attrs o))) a c.

(** What [free_ostcdb_object] leaves of the cache: all but the object and the
    ones below it. *)
Definition free_below (c : ostc_cache) (a : addr) : ostc_cache := filter (λ ao, ¬ a `prefix_of` ao.1) c.

(** ** The walk *)

(** A [Stack_t] of objects, the bottom first, and what its pointer is at; the
    elements are [NULL] when the pointer they were taken from was at nothing. *)
Record tree := Tree { tr_stack : list (option addr); tr_cur : option addr }.
Definition empty_tree : tree := Tree [] None.
Definition tr_bottom (t : tree) : option addr := mjoin (head (tr_stack t)).
Definition at_bottom (t : tree) : tree := Tree (tr_stack t) (tr_bottom t).

(** The toolbox's [dup_stack] on its two arguments. *)
Class DupStack := dup_stack : tree → tree → tree * tree.

Section walk.
Context `{!DupStack}.
Context (entry_timeout now : Z).
Implicit Types (c : ostc_cache) (stack : list (option addr)).

Definition child_of c (curr : option addr) (tok : string) : option addr :=
  a ← curr; o ← c !! a;
  if ob_objects o then (if decide (is_Some (c !! (a ++ [tok]))) then Some (a ++ [tok]) else None) else None.

(** The terminal node is added. *)
Definition add_terminal c (curr : option addr) (tok : string) (ftype : Z) : option (ostc_cache * addr) :=
  a ← curr; o ← c !! a;
  if ob_objects o then Some (<[a ++ [tok] := new_ostcdb_object ftype (now + entry_timeout)]> c, a ++ [tok]) else None.

(** The loop over the tokens from position [i] on: [s] is the rest of the path,
    [first] is whether [loop] is still 0, and [follow] walks along a link.  The
    result has the error, 0 when the path is there. *)
Fixpoint walk_loop (follow : ostc_cache → string → tree → option (ostc_cache * tree * Z)) (add : Z)
    (fuel : nat) c (s : string) (i : Z) (first : bool) stack (curr : option addr) : option (ostc_cache * tree * Z) :=
  match fuel with
  | O => None
  | S fuel =>
      if decide (s = "") then Some (c, Tree stack None, 0)
      else
        let '(k, s) := skip_slashes s in
        let start := i + Z.of_nat k in
        if decide (s = "") then Some (c, Tree (if first : bool then curr :: stack else stack) None, 0)
        else
          let '(tok, s) := token s in
          let i := start + Z.of_nat (String.length tok) in
          match child_of c curr tok with
          | None =>
              if decide (s = "") then
                if decide (add > 0) then '(c, a) ← add_terminal c curr tok add; Some (c, Tree (Some a :: stack) None, 0)
                else Some (c, Tree stack None, start)
              else if decide (tok = ".") then walk_loop follow add fuel c s i first stack curr
              else if decide (tok = "..") then walk_loop follow add fuel c s i first (tail stack) (mjoin (head (tail stack)))
              else Some (c, Tree stack None, start)
          | Some a =>
              o ← c !! a;
              match ob_link o with
              | Some link =>
                  if decide (s = "") then walk_loop follow add fuel c s i false (Some a :: stack) (Some a)
                  else
                    let '(t, rtree) := dup_stack (at_bottom (Tree stack None)) empty_tree in
                    '(c, rtree, err) ← follow c link rtree;
                    if decide (err ≠ 0) then Some (c, t, -1)
                    else
                      let next := mjoin (head (tr_stack rtree)) in
                      walk_loop follow add fuel c s i false (next :: tr_stack t) next
              | None => walk_loop follow add fuel c s i false (Some a :: stack) (Some a)
              end
          end
  end.

(** [_ostc_cache_tree_walk] without a replacement. *)
Fixpoint _ostc_cache_tree_walk (max_recurse : nat) c (fname : option string) (t : tree) (add : Z) : option (ostc_cache * tree * Z) :=
  match max_recurse, fname with
  | O, _ | _, None => Some (c, t, 1)
  | S max_recurse, Some fname =>
      let '(stack, curr) :=
        if bool_decide (tr_stack t = []) || starts_with_slash fname then ([], Some []) else (tr_stack t, tr_cur t) in
      walk_loop (λ c link rtree, _ostc_cache_tree_walk max_recurse c (Some link) rtree add) add
        (S (String.length fname)) c fname 0 true (curr :: stack) curr
  end.

Definition OSTC_MAX_RECURSE : nat := 500.

(** A walk from the root that adds nothing: the objects on the way, the last one
    first, when the path is there. *)
Definition walk_to c (fname : string) : option (option tree) :=
  '(_, t, err) ← _ostc_cache_tree_walk OSTC_MAX_RECURSE c (Some fname) empty_tree 0;
  Some (if decide (err = 0) then Some (at_bottom t) else None).

(** ** Attribute links *)

(** The last slash of the text: what is before it and what is after it. *)
Fixpoint split_last (s : string) : option (string * string) :=
  match s with
  | "" => None
  | String x s' =>
      match split_last s' with
      | Some (p, n) => Some (String x p, n)
      | None => if decide (x = slash) then Some ("", s') else None
      end
  end.

(** The object and the attribute, [None] in the components when they are not
    found.  The source has no bound on the links it follows. *)
Fixpoint _ostcdb_resolve_attr_link (fuel : nat) c (t : tree) (alink : string) : option (ostc_cache * option addr * option (addr * string)) :=
  match fuel with
  | O => None
  | S fuel =>
      let '(path, aname) := match split_last alink with Some (p, n) => (p, Some n) | None => (alink, None) end in
      let rtree := (dup_stack empty_tree t).1 in
      let rtree := at_bottom (Tree (tail (tr_stack rtree)) None) in
      '(c, rtree, err) ← _ostc_cache_tree_walk OSTC_MAX_RECURSE c (Some path) rtree 0;
      if decide (err ≠ 0) then Some (c, None, None)
      else match tr_bottom rtree with
      | None => Some (c, None, None)
      | Some a =>
          aname ← aname; o ← c !! a;
          match ob_attrs o !! aname with
          | None => Some (c, Some a, None)
          | Some x =>
              match at_link x with
              | Some link => _ostcdb_resolve_attr_link fuel c (at_bottom rtree) link
              | None => Some (c, Some a, Some (a, aname))
              end
          end
      end
  end.

(** ** Values *)

(** [memcpy] of [n] bytes of [src], and a terminator when there is room for one,
    over a buffer. *)
Definition mem_put (buf src : string) (term : bool) : string :=
  let s := if term then src +:+ String zero "" else src in
  s +:+ String.substring (String.length s) (String.length buf - String.length s) buf.

(** [osf_store_val]: the slot and the result. *)
Definition osf_store_val (src : option string) (src_size : Z) (dest : slot) : option (slot * Z) :=
  let '(val, v_size) := dest in
  if decide (v_size > 0) then
    if decide (v_size < src_size) then Some ((val, - src_size), 1)
    else if decide (src_size < 0) then None
    else
      buf ← val;
      Some ((Some (mem_put buf (String.substring 0 (Z.to_nat src_size) (default "" src)) (bool_decide (v_size > src_size))), src_size), 0)
  else if decide (src_size <= 0) then Some ((None, src_size), 0)
  else s ← src; Some ((Some (String.substring 0 (Z.to_nat src_size) s), src_size), 0).

(** A copy of [v_size] bytes with a terminator, as [type_malloc] and [memcpy]
    make it; a negative size runs past everything. *)
Definition copy_val (val : option string) (v_size : Z) : option string :=
  if decide (v_size < 0) then None
  else if decide (v_size = 0) then Some ""
  else s ← val; Some (String.substring 0 (Z.to_nat v_size) s).

(** ** Operations *)

(** The object is taken out of the hash of the one above it on the stack, and
    freed: that must be its owner, and it must not be the root. *)
Definition ostc_cache_remove_object c (path : string) : option ostc_cache :=
  r ← walk_to c path;
  match r with
  | None => Some c
  | Some t =>
      obj ← tr_bottom t; parent ← mjoin (head (tail (tr_stack t)));
      if decide (obj = [] ∨ parent ≠ removelast obj) then None else Some (free_below c obj)
  end.

Fixpoint remove_attrs c (a : addr) (keys : list string) : ostc_cache :=
  match keys with [] => c | k :: keys => remove_attrs (del_attr c a k) a keys end.

Definition ostc_cache_remove_attrs c (fname : string) (keys : list string) : option ostc_cache :=
  r ← walk_to c fname;
  match r with None => Some c | Some t => obj ← tr_bottom t; Some (remove_attrs c obj keys) end.

Fixpoint move_attrs c (a : addr) (keys : list (string * string)) : ostc_cache :=
  match keys with
  | [] => c
  | (k_old, k_new) :: keys =>
      move_attrs (match get_attr c a k_old with Some x => put_attr (del_attr c a k_old) a k_new x | None => c end) a keys
  end.

Definition ostc_cache_move_attrs c (fname : string) (key_old key_new : list string) : option ostc_cache :=
  r ← walk_to c fname;
  match r with None => Some c | Some t => obj ← tr_bottom t; Some (move_attrs c obj (zip key_old key_new)) end.

(** The second walk is along the same path and puts the object in the place of
    the one it finds, which is freed: when that is the object itself, the tree
    keeps a freed node. *)
Definition graft c (obj curr : addr) : ostc_cache :=
  let dest := removelast curr ++ [List.last obj ""] in
  kmap (λ a, if decide (obj `prefix_of` a) then dest ++ drop (length obj) a else a) (free_below c curr).
Definition ostc_cache_move_object c (src_path : string) : option ostc_cache :=
  r ← walk_to c src_path;
  match r with
  | None => Some c
  | Some t =>
      obj ← tr_bottom t;
      r ← walk_to c src_path;
      match r with
      | None => Some c
      | Some t => curr ← tr_bottom t; if decide (curr = obj) then None else Some (graft c obj curr)
      end
  end.

(** One attribute of [ostc_cache_process_attrs]: its key, value and link. *)
Definition process_attr (fuel : nat) c (t : tree) (obj : addr) (key : string) (val : slot) (lkey : option string) : option ostc_cache :=
  if decide (key = "os.lock") then Some c
  else match lkey with
  | Some link =>
      '(c, _, la) ← _ostcdb_resolve_attr_link fuel c t link;
      match la with
      | None => Some c
      | Some (a, k) =>
          x ← get_attr c a k; v ← copy_val val.1 val.2;
          let c := put_attr c a k (Ostcdb_attr (Some v) (at_link x) val.2 (at_expire x)) in
          let expire := match get_attr c obj key with None => now + entry_timeout | Some x => at_expire x end in
          Some (put_attr c obj key (Ostcdb_attr None (Some link) (-1234) expire))
      end
  | None =>
      match get_attr c obj key with
      | None => Some (put_attr c obj key (new_ostcdb_attr val.1 val.2 (now + entry_timeout)))
      | Some x =>
          v ← (if decide (val.2 > 0) then Some <$> copy_val val.1 val.2 else Some None);
          Some (put_attr c obj key (Ostcdb_attr v None val.2 (at_expire x)))
      end
  end.

Fixpoint process_loop (fuel : nat) c (t : tree) (obj : addr) (l : list (string * slot * slot)) : option ostc_cache :=
  match l with
  | [] => Some c
  | (key, val, link) :: l => c ← process_attr fuel c t obj key val link.1; process_loop fuel c t obj l
  end.

(** [vals] has the values, the links of the attributes and the link of the object. *)
Definition ostc_cache_process_attrs (fuel : nat) c (fname : string) (ftype : Z) (keys : list string) (vals : list slot) (n : nat) : option ostc_cache :=
  '(c, t, err) ← _ostc_cache_tree_walk OSTC_MAX_RECURSE c (Some fname) empty_tree ftype;
  if decide (err ≠ 0) then Some c
  else
    obj ← tr_bottom t;
    link ← vals !! (2 * n)%nat;
    let c := alter (λ o, set_link o link.1) obj c in
    process_loop fuel c (at_bottom t) obj (zip (zip (take n keys) vals) (drop n vals)).

(** One attribute of the fetch. *)
Definition fetch_attr (fuel : nat) c (t : tree) (obj : addr) (key : string) (dest : slot) : option (option slot) :=
  match get_attr c obj key with
  | None => Some None
  | Some x =>
      r ← match at_link x with
          | None => Some (Some x)
          | Some link =>
              '(c, _, la) ← _ostcdb_resolve_attr_link fuel c t link;
              Some (la ≫= λ ak, get_attr c ak.1 ak.2)
          end;
      match r with
      | None => Some None
      | Some x => '(v, _) ← osf_store_val (at_val x) (at_size x) dest; Some (Some v)
      end
  end.

(** The values, and whether all of them were there. *)
Fixpoint fetch_loop (fuel : nat) c (t : tree) (obj : addr) (l : list (string * slot)) : option (list slot * bool) :=
  match l with
  | [] => Some ([], true)
  | (key, dest) :: l =>
      r ← fetch_attr fuel c t obj key dest;
      match r with
      | None => Some (dest :: (snd <$> l), false)
      | Some v => '(vs, ok) ← fetch_loop fuel c t obj l; Some (v :: vs, ok)
      end
  end.

(** What was stored is taken back; a buffer of the caller keeps its new bytes. *)
Definition unroll (orig new : slot) : slot := (if decide (orig.2 > 0) then new.1 else orig.1, orig.2).

Definition ostc_cache_fetch (fuel : nat) c (fname : string) (keys : list string) (vals : list slot) : option (list slot * bool) :=
  r ← walk_to c fname;
  match r with
  | None => Some (vals, false)
  | Some t =>
      obj ← tr_bottom t; _ ← c !! obj;
      '(vs, ok) ← fetch_loop fuel c t obj (zip keys vals);
      Some (if ok : bool then vs else zip_with unroll vals vs, ok)
  end.

(** The object changes to the one of the link. *)
Fixpoint update_loop (fuel : nat) c (t : tree) (obj : option addr) (l : list (string * slot)) : option ostc_cache :=
  match l with
  | [] => Some c
  | (key, val) :: l =>
      a ← obj;
      match get_attr c a key with
      | None => update_loop fuel c t obj l
      | Some x =>
          '(c, obj, ak) ←
            match at_link x with
            | None => Some (c, obj, Some (a, key))
            | Some link => _ostcdb_resolve_attr_link fuel c t link
            end;
          match ak with
          | None => update_loop fuel c t obj l
          | Some (a, k) =>
              x ← get_attr c a k; v ← copy_val val.1 val.2;
              update_loop fuel (put_attr c a k (Ostcdb_attr (Some v) (at_link x) val.2 (at_expire x))) t obj l
          end
      end
  end.

Definition ostc_cache_update_attrs (fuel : nat) c (fname : string) (keys : list string) (vals : list slot) : option ostc_cache :=
  r ← walk_to c fname;
  match r with None => Some c | Some t => obj ← tr_bottom t; update_loop fuel c t (Some obj) (zip keys vals) end.

(** ** Cleaning up *)
Definition children c (a : addr) : list addr :=
  fst <$> map_to_list (filter (λ ao : addr * ostcdb_object, removelast ao.1 = a ∧ ao.1 ≠ []) c).

Definition keep_attrs (o : ostcdb_object) (expired : Z) : gmap string ostcdb_attr := filter (λ kx, ¬ at_expire kx.2 < expired) (ob_attrs o).

(** The objects [l] one after the other, and how many entries were kept. *)
Fixpoint cleanup_objects (cleanup : ostc_cache → addr → option (ostc_cache * nat)) c (l : list addr) (okept : nat) : option (ostc_cache * nat) :=
  match l with
  | [] => Some (c, okept)
  | b :: l =>
      '(c, result) ← cleanup c b;
      cleanup_objects cleanup (if decide (result = 0%nat) then free_below c b else c) l (okept + result)%nat
  end.

(** The cache and how many entries were kept below the object and of it. *)
Fixpoint _ostc_cleanup (fuel : nat) c (a : addr) (expired : Z) : option (ostc_cache * nat) :=
  match fuel with
  | O => None
  | S fuel =>
      o ← c !! a;
      '(c, okept) ← (if ob_objects o then cleanup_objects (λ c b, _ostc_cleanup fuel c b expired) c (children c a) 0%nat else Some (c, 0%nat));
      o ← c !! a;
      let attrs := keep_attrs o expired in
      Some (<[a := set_attrs o attrs]> c, (size attrs + okept)%nat)
  end.
End walk.
