(* ===== verification/OsTcacheOps.v ===== *)
(** * The time cache object service (os_timecache.c)

    The operations of the service over the one it wraps: what is answered from
    the cache, what is passed on, and what the cache learns from the answer. *)
From S2P Require Import Prelude Inip Path OsGlob OsTcache.
From stdpp Require Import gmap strings.
#[local] Open Scope Z_scope.

(** The object service that is wrapped; its handles are the paths they were
    opened with. *)
Class ObjectService (C : Type) := {
  os_open_object : C → string → Z → op_status;
  os_close_object : C → string → op_status;
  os_get_multiple_attrs : C → string → list string → list slot → list slot * op_status;
  os_set_multiple_attrs : C → string → list string → list slot → C * op_status;
  os_copy_multiple_attrs : C → string → list string → string → list string → C * op_status;
  os_move_multiple_attrs : C → string → list string → list string → C * op_status;
  os_symlink_multiple_attrs : C → list string → list string → string → list string → C * op_status;
  os_create_object : C → string → Z → C * op_status;
  os_remove_object : C → string → C * op_status;
  os_move_object : C → string → string → C * op_status }.

Definition OS_MODE_READ_IMMEDIATE : Z := 0.
Definition OS_ATTR_LINK : string := "os.attr_link".
Definition OS_LINK : string := "os.link".

Definition failed (status : op_status) : bool := bool_decide (op_st status = OP_STATE_FAILURE).
Definition succeeded (status : op_status) : bool := bool_decide (op_st status = OP_STATE_SUCCESS).

(** ** The attributes to ask for *)

(** [ostc_cacheprep_t] without [n_keys_total], the length of the lists. *)
Record ostc_cacheprep := Ostc_cacheprep {
  cp_n_keys : nat;
  cp_ftype_index : option nat;
  cp_key : list string;
  cp_val : list slot }.

Fixpoint index_of (k : string) (l : list string) : option nat :=
  match l with [] => None | k' :: l => if decide (k' = k) then Some 0%nat else S <$> index_of k l end.

Definition ostc_attr_cacheprep_setup (keys : list string) (vals : list slot) (get_ftype : bool) : ostc_cacheprep :=
  let n := length keys in
  let new : slot := (None, - OS_PATH_MAX) in
  let kd := keys ++ (map (λ k, OS_ATTR_LINK +:+ "." +:+ k) keys ++ [OS_LINK]) in
  let vd := vals ++ (replicate n new ++ [new]) in
  if negb get_ftype then Ostc_cacheprep n None kd vd
  else match index_of "os.type" keys with
  | Some i => Ostc_cacheprep n (Some i) kd vd
  | None => Ostc_cacheprep n (Some (2 * n + 1)%nat) (kd ++ ["os.type"]) (vd ++ [new])
  end.

Definition ostc_attr_cacheprep_copy (cp : ostc_cacheprep) : list slot := take (cp_n_keys cp) (cp_val cp).

(** [sscanf]: a value that is no number leaves the type undefined. *)
Definition ostc_attr_cacheprep_ftype (cp : ostc_cacheprep) : option Z :=
  match cp_ftype_index cp with
  | None => Some (-1)
  | Some i => v ← cp_val cp !! i; s ← v.1; parse_int s
  end.

(** ** The service *)
Record ostc_priv (C : Type) := Ostc_priv { tc_child : C; tc_cache : ostc_cache }.
Arguments Ostc_priv {C}. Arguments tc_child {C}. Arguments tc_cache {C}.

(** [ostc_fd_t]; [fd_open] is whether [fd_child] is there. *)
Record ostc_fd := Ostc_fd { fd_fname : string; fd_mode : Z; fd_open : bool }.

Section ops.
Context {C : Type} `{!ObjectService C, !Gop, !DupStack}.
Context (entry_timeout now : Z) (fuel : nat).
Implicit Types (st : ostc_priv C).

Definition set_cache st c : ostc_priv C := Ostc_priv (tc_child st) c.
Definition set_child st c : ostc_priv C := Ostc_priv c (tc_cache st).

Definition object_service_timecache_create (child : C) : ostc_priv C := Ostc_priv child {[ [] := new_ostcdb_object OS_OBJECT_DIR 0 ]}.

(** The layers of the path that are not cached are fetched one by one; [n] is
    enough for them.  The result of the source is not looked at by its caller. *)
Fixpoint _ostc_cache_populate_prefix (n : nat) st (path : string) (prefix_len : Z) : option (ostc_priv C) :=
  match n with
  | O => None
  | S n =>
      let len := Z.of_nat (String.length path) in
      if decide (len = 1) then Some st
      else
        '(_, _, err) ← _ostc_cache_tree_walk entry_timeout now OSTC_MAX_RECURSE (tc_cache st) (Some path) empty_tree 0;
        if decide (err ≤ 0) then Some st
        else
          let rest := String.substring (Z.to_nat err) (String.length path - Z.to_nat err) path in
          let end_ := err + Z.of_nat (String.length (token rest).1) in
          let fname := String.substring 0 (Z.to_nat end_) path in
          if decide (end_ ≤ prefix_len) then Some st
          else
            let cp := ostc_attr_cacheprep_setup ["system.inode"] [(None, -100)] true in
            if negb (succeeded (os_open_object (tc_child st) fname OS_MODE_READ_IMMEDIATE)) then Some st
            else
              let '(vals, status) := os_get_multiple_attrs (tc_child st) fname (cp_key cp) (cp_val cp) in
              let cp := Ostc_cacheprep (cp_n_keys cp) (cp_ftype_index cp) (cp_key cp) vals in
              if succeeded status then
                ftype ← ostc_attr_cacheprep_ftype cp;
                c ← ostc_cache_process_attrs entry_timeout now fuel (tc_cache st) fname ftype (cp_key cp) (cp_val cp) (cp_n_keys cp);
                if decide (end_ < len - 1) then _ostc_cache_populate_prefix n (set_cache st c) path end_ else Some (set_cache st c)
              else Some st
  end.

(** ** Handles *)
Definition ostc_open_object st (path : string) (mode : Z) : option (option ostc_fd * op_status) :=
  '(_, _, err) ← (if decide (mode = OS_MODE_READ_IMMEDIATE)
                  then _ostc_cache_tree_walk entry_timeout now OSTC_MAX_RECURSE (tc_cache st) (Some path) empty_tree 0
                  else Some (tc_cache st, empty_tree, 1));
  if decide (err = 0) then Some (Some (Ostc_fd path mode false), op_success_status)
  else
    let status := os_open_object (tc_child st) path mode in
    if failed status then Some (None, status) else Some (Some (Ostc_fd path mode true), op_success_status).

Definition ostc_delayed_open_object st (fd : ostc_fd) : ostc_fd * op_status :=
  let status := os_open_object (tc_child st) (fd_fname fd) (fd_mode fd) in
  if failed status then (fd, status) else (Ostc_fd (fd_fname fd) (fd_mode fd) true, status).

(** The handle of the child, made now when it is not there. *)
Definition child_fd st (fd : ostc_fd) : ostc_fd * op_status :=
  if fd_open fd then (fd, op_success_status) else ostc_delayed_open_object st fd.

Definition ostc_close_object st (fd : ostc_fd) : op_status :=
  if fd_open fd then os_close_object (tc_child st) (fd_fname fd) else op_success_status.

(** ** Attributes *)
Definition ostc_get_attrs st (fd : ostc_fd) (keys : list string) (vals : list slot) : option (ostc_priv C * ostc_fd * list slot * op_status) :=
  '(vals, hit) ← ostc_cache_fetch entry_timeout now fuel (tc_cache st) (fd_fname fd) keys vals;
  if hit : bool then Some (st, fd, vals, op_success_status)
  else
    st ← _ostc_cache_populate_prefix (S (String.length (fd_fname fd))) st (fd_fname fd) 0;
    let cp := ostc_attr_cacheprep_setup keys vals true in
    let '(fd, status) := child_fd st fd in
    if failed status then Some (st, fd, vals, status)
    else
      let '(got, status) := os_get_multiple_attrs (tc_child st) (fd_fname fd) (cp_key cp) (cp_val cp) in
      let cp := Ostc_cacheprep (cp_n_keys cp) (cp_ftype_index cp) (cp_key cp) got in
      if succeeded status then
        ftype ← ostc_attr_cacheprep_ftype cp;
        c ← ostc_cache_process_attrs entry_timeout now fuel (tc_cache st) (fd_fname fd) ftype (cp_key cp) (cp_val cp) (cp_n_keys cp);
        Some (set_cache st c, fd, ostc_attr_cacheprep_copy cp, status)
      else Some (st, fd, zip_with unroll vals got, status).

Definition ostc_set_attrs st (fd : ostc_fd) (keys : list string) (vals : list slot) : option (ostc_priv C * ostc_fd * op_status) :=
  let '(fd, status) := child_fd st fd in
  if failed status then Some (st, fd, status)
  else
    let '(child, status) := os_set_multiple_attrs (tc_child st) (fd_fname fd) keys vals in
    let st := set_child st child in
    if negb (succeeded status) then Some (st, fd, status)
    else
      c ← ostc_cache_update_attrs entry_timeout now fuel (tc_cache st) (fd_fname fd) keys vals;
      Some (set_cache st c, fd, status).

Definition ostc_copy_attrs st (fd fd_dest : ostc_fd) (keys keys_dest : list string) : option (ostc_priv C * ostc_fd * ostc_fd * op_status) :=
  let '(fd, status) := child_fd st fd in
  if failed status then Some (st, fd, fd_dest, status)
  else
    let '(fd_dest, status) := child_fd st fd_dest in
    if failed status then Some (st, fd, fd_dest, status)
    else
      let '(child, status) := os_copy_multiple_attrs (tc_child st) (fd_fname fd) keys (fd_fname fd_dest) keys_dest in
      let st := set_child st child in
      if failed status then Some (st, fd, fd_dest, status)
      else
        c ← ostc_cache_remove_attrs entry_timeout now (tc_cache st) (fd_fname fd_dest) keys_dest;
        Some (set_cache st c, fd, fd_dest, status).

Definition ostc_symlink_attrs st (src_path keys : list string) (fd_dest : ostc_fd) (keys_dest : list string) : option (ostc_priv C * ostc_fd * op_status) :=
  let '(fd_dest, status) := child_fd st fd_dest in
  if failed status then Some (st, fd_dest, status)
  else
    let '(child, status) := os_symlink_multiple_attrs (tc_child st) src_path keys (fd_fname fd_dest) keys_dest in
    let st := set_child st child in
    if failed status then Some (st, fd_dest, status)
    else
      c ← ostc_cache_remove_attrs entry_timeout now (tc_cache st) (fd_fname fd_dest) keys_dest;
      Some (set_cache st c, fd_dest, status).

Definition ostc_move_attrs st (fd : ostc_fd) (key_old key_new : list string) : option (ostc_priv C * ostc_fd * op_status) :=
  let '(fd, status) := child_fd st fd in
  if failed status then Some (st, fd, status)
  else
    let '(child, status) := os_move_multiple_attrs (tc_child st) (fd_fname fd) key_old key_new in
    let st := set_child st child in
    if failed status then Some (st, fd, status)
    else
      c ← ostc_cache_move_attrs entry_timeout now (tc_cache st) (fd_fname fd) key_old key_new;
      Some (set_cache st c, fd, status).

(** ** Objects *)
Definition ostc_create_object st (path : string) (type : Z) : ostc_priv C * op_status :=
  let '(child, status) := os_create_object (tc_child st) path type in (set_child st child, status).

Definition ostc_remove_object st (path : string) : option (ostc_priv C * op_status) :=
  let '(child, status) := os_remove_object (tc_child st) path in
  let st := set_child st child in
  if failed status then Some (st, status)
  else c ← ostc_cache_remove_object entry_timeout now (tc_cache st) path; Some (set_cache st c, status).

Definition ostc_move_object st (src_path dest_path : string) : option (ostc_priv C * op_status) :=
  let '(child, status) := os_move_object (tc_child st) src_path dest_path in
  let st := set_child st child in
  if failed status then Some (st, status)
  else c ← ostc_cache_move_object entry_timeout now (tc_cache st) src_path; Some (set_cache st c, status).

(** A round of the thread that cleans up, at the time [now]. *)
Definition ostc_compact st : option (ostc_priv C) :=
  '(c, _) ← _ostc_cleanup (S (size (tc_cache st))) (tc_cache st) [] now; Some (set_cache st c).
End ops.
