(* ===== verification/OsTcacheOk.v ===== *)
(** * The cache of the time cache object service: walks

    A walk along a path without links and without [.] and [..] goes from object
    to object by the names of the path, and says where it stops. *)
From Stdlib Require Import Ascii.
From stdpp Require Import gmap strings.
From S2P Require Import Prelude Inip Path OsGlob OsTcache OsTcacheOps.
#[local] Open Scope Z_scope.

(** ** Walks *)
Section walk.
Context `{!DupStack} (entry_timeout now : Z).
Implicit Types (c : ostc_cache) (a : addr).

(** The names lead from one object to the next. *)
Fixpoint chain c a (ts : list string) : Prop :=
  match ts with [] => True | t :: ts => child_of c (Some a) t = Some (a ++ [t]) ∧ chain c (a ++ [t]) ts end.

Lemma child_of_some c a t b : child_of c (Some a) t = Some b → b = a ++ [t] ∧ is_Some (c !! b).
Proof.
  unfold child_of. cbn [mbind option_bind]. intros Hc. destruct (c !! a) as [o|]; [|done]. cbn [mbind option_bind] in Hc.
  destruct (ob_objects o); [|done]. destruct (decide _); [|done]. injection Hc as <-. done.
Qed.

Lemma chain_app c a ts us : chain c a (ts ++ us) ↔ chain c a ts ∧ chain c (a ++ ts) us.
Proof.
  revert a. induction ts as [|t ts IH]; intros a; simpl; [rewrite app_nil_r; tauto|]. rewrite IH, <- app_assoc. simpl. tauto.
Qed.

Lemma chain_present c a ts : is_Some (c !! a) → chain c a ts → is_Some (c !! (a ++ ts)).
Proof.
  revert a. induction ts as [|t ts IH]; intros a Ha; [by rewrite app_nil_r|]. intros [Ht Hc].
  apply child_of_some in Ht as [_ Ht]. specialize (IH _ Ht Hc). by rewrite <- app_assoc in IH.
Qed.

(** The path is there: the last object is at the bottom of the stack, below the
    one it is in; without names that is [up].  Otherwise the walk stops at the
    name [tok] after [pre]; when that is the last one it may be added. *)
Inductive walked c a (up : option (option addr)) (add : Z) (s : string) (i : Z) : option (ostc_cache * tree * Z) → Prop :=
| walked_all stk :
    chain c a (tokens s) → head stk = (if decide (tokens s = []) then up else Some (Some (removelast (a ++ tokens s)))) →
    walked c a up add s i (Some (c, Tree (Some (a ++ tokens s) :: stk) None, 0))
| walked_part pre tok rest t :
    s = pre +:+ tok +:+ rest → at_end pre → tokens (pre +:+ tok) = tokens pre ++ [tok] → at_end rest → (token tok).2 = "" → tok ≠ "" →
    starts_with_slash tok = false → chain c a (tokens pre) → child_of c (Some (a ++ tokens pre)) tok = None → ¬ (rest = "" ∧ 0 < add) →
    walked c a up add s i (Some (c, t, i + Z.of_nat (String.length pre)))
| walked_add pre tok stk :
    tokens s = pre ++ [tok] → 0 < add → chain c a pre → child_of c (Some (a ++ pre)) tok = None →
    walked c a up add s i
      ('(c, b) ← add_terminal entry_timeout now c (Some (a ++ pre)) tok add; Some (c, Tree (Some b :: stk) None, 0)).

Lemma walked_here c a up add s i stk :
  tokens s = [] → head stk = up → walked c a up add s i (Some (c, Tree (Some a :: stk) None, 0)).
Proof.
  intros Hs Hup. replace (Some a) with (Some (a ++ tokens s)) by (by rewrite Hs, app_nil_r). apply walked_all; rewrite Hs; [done|].
  by rewrite decide_True.
Qed.

(** One more name in front. *)
Lemma walked_cons c a up add x t s i r :
  tokens x = [t] → starts_with_slash x = true → at_end s → child_of c (Some a) t = Some (a ++ [t]) →
  walked c (a ++ [t]) (Some (Some a)) add s (i + Z.of_nat (String.length x)) r → walked c a up add (x +:+ s) i r.
Proof.
  intros Hx Hxs Hs Hc Hw. assert (∀ p, at_end p → tokens (x +:+ p) = t :: tokens p) as Htp by (intros p Hp; by rewrite tokens_app, Hx by done).
  inversion Hw as [stk Hch Hst E|pre tok rest tr Hsp Hpre Ht Hr Htk Hne Hts Hch Hn Had E|pre tok stk Ht Had Hch Hn E]; subst.
  - rewrite <- app_assoc. simpl. rewrite <- (Htp s) by done. apply walked_all; rewrite Htp by done; [done|].
    rewrite Hst. destruct (decide (tokens s = [])) as [->|Hne]; [by rewrite decide_False, removelast_last by done|].
    rewrite decide_False by done. by rewrite <- app_assoc.
  - replace (i + _ + _) with (i + Z.of_nat (String.length (x +:+ pre))) by (rewrite length_append; lia).
    apply (walked_part _ _ _ _ _ _ (x +:+ pre) tok rest); rewrite ?(Htp pre) by done; try done.
    + by rewrite <- !append_assoc.
    + right. by apply app_starts.
    + assert (starts_with_slash pre = true) as Hp.
      { destruct Hpre as [->|Hpre]; [|done]. destruct tok as [|y tok]; [done|]. destruct Hs as [Hs|Hs]; [done|]. change (starts_with_slash (String y tok) = true) in Hs. congruence. }
      rewrite <- append_assoc, Htp by (right; by apply app_starts). by rewrite Ht.
    + by rewrite <- app_assoc in Hn.
  - replace ((a ++ [t]) ++ pre) with (a ++ t :: pre) in * by (by rewrite <- app_assoc).
    apply (walked_add _ _ _ _ _ _ (t :: pre) tok); [by rewrite Htp, Ht|done|done|done].
Qed.

Definition no_links c : Prop := ∀ a o, c !! a = Some o → ob_link o = None.

Lemma walk_loop_walked follow add c (Hl : no_links c) fuel : ∀ s i first stack a up,
  at_end s → Forall plain_name (tokens s) → is_Some (c !! a) → (String.length s < fuel)%nat →
  (first = false → head stack = up) → (first = true → s ≠ "" ∧ (tokens s = [] → up = Some (Some a))) →
  walked c a up add s i (walk_loop entry_timeout now follow add fuel c s i first (Some a :: stack) (Some a)).
Proof.
  induction fuel as [|fuel IH]; intros s i first stack a up He Hp Ha Hlen Hf1 Hf2; [lia|]. cbn [walk_loop].
  destruct (decide (s = "")) as [->|Hne].
  { destruct first; [by destruct (Hf2 eq_refl)|]. apply walked_here; [done|by apply Hf1]. }
  destruct He as [?|Hs]; [done|]. pose proof (skip_slashes_spec s) as Hk. destruct (skip_slashes s) as [k r].
  destruct Hk as (Htr & Hlr & Hsr & p & -> & Hpl & Htp & Hps).
  assert (starts_with_slash p = true) as Hp1. { destruct Hps as [->|]; [|done]. destruct p; [|done]. change (starts_with_slash r = true) in Hs. congruence. }
  destruct (decide (r = "")) as [->|Hr].
  { destruct first; (apply walked_here; [done|]); [|by apply Hf1]. destruct (Hf2 eq_refl) as [_ ->]; done. }
  pose proof (token_spec r) as Hrt. pose proof (token_length r Hr Hsr) as Htl. pose proof (tokens_token r Hr Hsr) as Htt.
  pose proof (token_token r) as Htt2. pose proof (token_starts r Hsr) as Hts. destruct (token r) as [tok rest]. destruct Hrt as [-> Hrest].
  cbn [fst snd] in *. rewrite <- Htr, Htt in Hp. apply Forall_cons in Hp as [[Hd1 Hd2] Hp].
  assert (tok ≠ "") as Htne by (intros ->; simpl in Htl; lia).
  assert (tokens (p +:+ tok) = [tok]) as Hx.
  { apply (app_inv_tail (tokens rest)). rewrite <- tokens_app by done. by rewrite <- append_assoc, <- Htr, Htt. }
  destruct (child_of c (Some a) tok) as [b|] eqn:Hb.
  - destruct (child_of_some _ _ _ _ Hb) as [-> [o Ho]]. rewrite Ho. cbn [mbind option_bind]. rewrite (Hl _ _ Ho).
    rewrite append_assoc. apply (walked_cons _ _ _ _ _ tok); [done|by apply app_starts|done|done|].
    rewrite length_append, Hpl, Nat2Z.inj_add, Z.add_assoc. apply IH; try done.
    rewrite !length_append in Hlen. lia.
  - assert (child_of c (Some (a ++ tokens p)) tok = None) as Hb' by (by rewrite Htp, app_nil_r).
    assert (chain c a (tokens p)) as Hch by (by rewrite Htp).
    assert (tokens (p +:+ tok) = tokens p ++ [tok]) as Htok by (by rewrite Htp).
    destruct (decide (rest = "")) as [->|Hrn].
    + destruct (decide (add > 0)) as [Hadd|Hadd].
      * pose proof (walked_add c a up add (p +:+ tok +:+ "") i [] tok (Some a :: stack)) as Hw. rewrite app_nil_r in Hw. apply Hw; try done; [|lia].
        by rewrite <- Htr, Htt.
      * rewrite <- Hpl. apply (walked_part _ _ _ _ _ _ p tok ""); try done; [by right|lia].
    + rewrite decide_False, decide_False by done. rewrite <- Hpl. apply (walked_part _ _ _ _ _ _ p tok rest); try done; [by right|tauto].
Qed.

(** ** Walks from the root *)
Definition clean (fname : string) : Prop := starts_with_slash fname = true ∧ Forall plain_name (tokens fname).

Lemma tree_walk_walked_S mr c fname add :
  no_links c → is_Some (c !! []) → clean fname →
  walked c [] (if decide (tokens fname = []) then Some (Some []) else None) add fname 0
    (_ostc_cache_tree_walk entry_timeout now (S mr) c (Some fname) empty_tree add).
Proof.
  intros Hl Hr [Hs Hp]. cbn [_ostc_cache_tree_walk]. rewrite Hs. cbn [empty_tree tr_stack orb]. rewrite bool_decide_eq_true_2 by done.
  apply walk_loop_walked; try done; [by right|lia|]. intros _. split; [by intros ->|]. intros Ht. by rewrite decide_True.
Qed.

Lemma tree_walk_walked c fname add :
  no_links c → is_Some (c !! []) → clean fname →
  walked c [] (if decide (tokens fname = []) then Some (Some []) else None) add fname 0
    (_ostc_cache_tree_walk entry_timeout now OSTC_MAX_RECURSE c (Some fname) empty_tree add).
Proof. exact (tree_walk_walked_S 499 c fname add). Qed.

Lemma chain_end c ts : is_Some (c !! []) → chain c [] ts → is_Some (c !! ts).
Proof. apply (chain_present c []). Qed.

(** The path is not there when one of its names is missing. *)
Lemma chain_part c pre tok rest :
  at_end rest → tokens (pre +:+ tok) = tokens pre ++ [tok] → child_of c (Some (tokens pre)) tok = None →
  tokens (pre +:+ tok +:+ rest) = tokens pre ++ tok :: tokens rest ∧ ¬ chain c [] (tokens (pre +:+ tok +:+ rest)).
Proof.
  intros Hr Ht Hn. assert (tokens (pre +:+ tok +:+ rest) = tokens pre ++ tok :: tokens rest) as E.
  { rewrite append_assoc, tokens_app, Ht by done. by rewrite <- app_assoc. }
  split; [done|]. rewrite E, chain_app. cbn [chain app]. intros (_ & Hc & _). congruence.
Qed.

Lemma pre_nonempty pre tok rest : at_end pre → tok ≠ "" → starts_with_slash tok = false → starts_with_slash (pre +:+ tok +:+ rest) = true → (0 < String.length pre)%nat ∧ starts_with_slash pre = true.
Proof.
  intros [->|Hp] Hne Ht Hs; [|split; [|done]; destruct pre; [done|simpl; lia]]. destruct tok as [|y tok]; [done|].
  change (starts_with_slash (String y tok) = true) in Hs. congruence.
Qed.

Lemma walk_to_spec c fname :
  no_links c → is_Some (c !! []) → clean fname →
  (chain c [] (tokens fname) ∧ ∃ stk, walk_to entry_timeout now c fname = Some (Some (Tree (Some (tokens fname) :: stk) (Some (tokens fname)))) ∧
     (tokens fname ≠ [] → head stk = Some (Some (removelast (tokens fname))))) ∨
  (¬ chain c [] (tokens fname) ∧ walk_to entry_timeout now c fname = Some None).
Proof.
  intros Hl Hr Hcl. unfold walk_to. destruct (tree_walk_walked c fname 0 Hl Hr Hcl) as
    [stk Hch Hst|pre tok rest t Hsp Hpre Ht Hre Htk Hne Hts Hch Hn _|]; [| |lia]; cbn [mbind option_bind].
  - left. split; [done|]. exists stk. split; [done|]. intros Hne. by rewrite decide_False in Hst.
  - right. subst fname. destruct Hcl as [Hs _]. destruct (pre_nonempty pre tok rest Hpre Hne Hts Hs) as [Hlen _].
    destruct (chain_part c pre tok rest Hre Ht Hn) as [_ Hnc]. split; [done|]. by rewrite decide_False by lia.
Qed.
End walk.

(** * The time cache object service: what is cached is what is stored

    What the service wrapped is expected to do, and that the cache never holds
    anything else than what that service would answer. *)
(** ** The service that is wrapped *)

(** Objects by the names of their paths, with their type, and the attributes
    that are stored under a key of their own. *)
Class ObjectServiceView (C : Type) := {
  os_type : C → addr → option Z;
  os_attr : C → addr → string → option string;
  os_plain : string → Prop }.

Definition is_dir (t : Z) : bool := negb (Z.land t OS_OBJECT_DIR =? 0).

(** A value as it is delivered: no attribute has the size -1. *)
Definition slot_is (v : slot) (a : option string) : Prop :=
  match a with None => v.2 = -1 | Some s => v.2 = Z.of_nat (String.length s) ∧ (s ≠ "" → v.1 = Some s) end.
Definition slot_eq (v w : slot) : Prop := v.2 = w.2 ∧ (v.2 > 0 → v.1 = w.1).

(** The buffer is to be allocated, and the value is not cut. *)
Definition asks (v : slot) (a : option string) : Prop := v.2 < 0 ∧ ∀ s, a = Some s → Z.of_nat (String.length s) ≤ - v.2.

(** Nothing but the attributes of [P] is different. *)
Definition os_same `{!ObjectServiceView C} (P : addr → string → Prop) (c c' : C) : Prop :=
  (∀ q, os_type c' q = os_type c q) ∧ ∀ q k, ¬ P q k → os_plain k → os_attr c' q k = os_attr c q k.

(** A service whose store has no symbolic links. *)
Class ObjectServiceOk (C : Type) `{!ObjectService C, !ObjectServiceView C} : Prop := {
  os_type_pos (c : C) p t : os_type c p = Some t → 0 < t;
  os_type_root (c : C) : is_Some (os_type c []);
  os_type_parent (c : C) p x t : os_type c (p ++ [x]) = Some t → ∃ t', os_type c p = Some t' ∧ is_dir t' = true;
  os_plain_type : os_plain "os.type";
  os_plain_inode : os_plain "system.inode";
  os_type_attr (c : C) p t : os_type c p = Some t →
    ∃ s, os_attr c p "os.type" = Some s ∧ s ≠ "" ∧ parse_int s = Some t ∧ Z.of_nat (String.length s) ≤ OS_PATH_MAX;
  os_inode_short (c : C) p s : os_attr c p "system.inode" = Some s → Z.of_nat (String.length s) ≤ 100;
  os_open_ok (c : C) fname mode : clean fname → op_st (os_open_object c fname mode) = OP_STATE_SUCCESS ↔ is_Some (os_type c (tokens fname));
  os_close_ok (c : C) fname : op_st (os_close_object c fname) = OP_STATE_SUCCESS;
  os_get_ok (c : C) fname keys vals : clean fname → is_Some (os_type c (tokens fname)) → length vals = length keys →
    op_st (os_get_multiple_attrs c fname keys vals).2 = OP_STATE_SUCCESS ∧ length (os_get_multiple_attrs c fname keys vals).1 = length keys;
  os_get_plain (c : C) fname keys vals i k v g : clean fname → is_Some (os_type c (tokens fname)) → keys !! i = Some k → vals !! i = Some v →
    os_plain k → asks v (os_attr c (tokens fname) k) → (os_get_multiple_attrs c fname keys vals).1 !! i = Some g →
    slot_is g (os_attr c (tokens fname) k);
  os_get_link (c : C) fname keys vals i k n g : clean fname → is_Some (os_type c (tokens fname)) → keys !! i = Some k → vals !! i = Some (None, n) →
    (k = OS_LINK ∨ ∃ k', k = OS_ATTR_LINK +:+ "." +:+ k') → (os_get_multiple_attrs c fname keys vals).1 !! i = Some g → g.1 = None;
  os_set_ok (c c' : C) fname k s st : clean fname → os_plain k → is_Some (os_type c (tokens fname)) →
    os_set_multiple_attrs c fname [k] [(Some s, Z.of_nat (String.length s))] = (c', st) →
    if decide (op_st st = OP_STATE_SUCCESS)
    then os_same (λ q k', q = tokens fname ∧ k' = k) c c' ∧ os_attr c' (tokens fname) k = Some s
    else os_same (λ _ _, False) c c';
  os_copy_ok (c c' : C) fname k dest kd st : clean fname → clean dest → os_plain kd →
    os_copy_multiple_attrs c fname [k] dest [kd] = (c', st) →
    if decide (op_st st = OP_STATE_FAILURE) then os_same (λ _ _, False) c c' else os_same (λ q k', q = tokens dest ∧ k' = kd) c c';
  os_create_ok (c c' : C) path t st : clean path → os_create_object c path t = (c', st) →
    ∀ q, is_Some (os_type c q) → os_type c' q = os_type c q ∧ ∀ k, os_plain k → os_attr c' q k = os_attr c q k;
  os_remove_ok (c c' : C) path st : clean path → os_remove_object c path = (c', st) →
    if decide (op_st st = OP_STATE_FAILURE) then os_same (λ _ _, False) c c'
    else tokens path ≠ [] ∧ ∀ q, ¬ tokens path `prefix_of` q → os_type c' q = os_type c q ∧ ∀ k, os_plain k → os_attr c' q k = os_attr c q k }.

(** ** Values *)
Lemma substring_full s : String.substring 0 (String.length s) s = s.
Proof. induction s as [|x s IH]; [done|]. simpl. by rewrite IH. Qed.

Lemma slot_is_eq v w a : slot_is v a → slot_is w a → slot_eq v w.
Proof.
  unfold slot_is, slot_eq. destruct a as [s|]; [|intros -> ->; split; [done|lia]]. intros [-> Hv] [-> Hw]. split; [done|].
  intros Hs. rewrite Hv, Hw; [done| |]; by intros ->.
Qed.

Lemma slot_is_length v s : slot_is v (Some s) → v.2 > 0 → v.1 = Some s.
Proof. intros [Hv Hs] Hp. apply Hs. intros ->. simpl in Hv. lia. Qed.

Lemma copy_val_full s : copy_val (Some s) (Z.of_nat (String.length s)) = Some s.
Proof.
  unfold copy_val. rewrite decide_False by lia. case_decide; [destruct s; [done|simpl in *; lia]|]. cbn [mbind option_bind].
  by rewrite Nat2Z.id, substring_full.
Qed.

(** What a hit delivers. *)
Lemma osf_store_val_is val size dest a :
  slot_is (val, size) a → dest.2 < 0 → ∃ v, osf_store_val val size dest = Some (v, 0) ∧ slot_is v a.
Proof.
  intros Hv Hd. destruct dest as [b z]. unfold osf_store_val. simpl in Hd. rewrite decide_False by lia. case_decide as Hs.
  - eexists. split; [done|]. destruct a as [s|]; simpl in *; [|done]. destruct Hv as [-> _]. split; [done|]. intros Hne.
    destruct s; [done|]. simpl in Hs. lia.
  - destruct a as [s|]; [|simpl in *; lia]. pose proof (slot_is_length _ _ Hv ltac:(simpl; lia)) as E. destruct Hv as [Hz Hn]. simpl in E, Hz. subst val size.
    cbn [mbind option_bind]. eexists. split; [done|]. rewrite Nat2Z.id, substring_full. done.
Qed.

(** ** The cache *)
Section coh.
Context {C : Type} `{!ObjectService C, !ObjectServiceView C, !ObjectServiceOk C, !Gop, !GopOk, !DupStack}.
Context (entry_timeout now : Z) (fuel : nat).
Implicit Types (c : ostc_cache) (s : C) (st : ostc_priv C).

(** Every object that is cached is one of the service, with the attributes it
    has there. *)
Record coh s c : Prop := {
  co_root : ∃ o, c !! [] = Some o ∧ ob_objects o = true;
  co_closed a x : is_Some (c !! (a ++ [x])) → is_Some (c !! a);
  co_object a o : c !! a = Some o → ob_link o = None ∧ is_Some (os_type s a) ∧ ∀ t, os_type s a = Some t → is_dir t = true → ob_objects o = true;
  co_attr a o k x : c !! a = Some o → ob_attrs o !! k = Some x → os_plain k ∧ at_link x = None ∧ slot_is (at_val x, at_size x) (os_attr s a k) }.

Lemma coh_no_links s c : coh s c → no_links c.
Proof. intros Hc a o Ho. by destruct (co_object _ _ Hc a o Ho). Qed.
Lemma coh_root s c : coh s c → is_Some (c !! []).
Proof. intros Hc. destruct (co_root _ _ Hc) as (o & ? & _). by eexists. Qed.

(** Objects whose attributes are among the ones they had. *)
Lemma coh_sub s c c' :
  coh s c → (∃ o, c' !! [] = Some o ∧ ob_objects o = true) → (∀ a x, is_Some (c' !! (a ++ [x])) → is_Some (c' !! a)) →
  (∀ a o, c' !! a = Some o → ob_link o = None ∧ ∃ o0, c !! a = Some o0 ∧ ob_objects o0 = ob_objects o ∧ ∀ k x, ob_attrs o !! k = Some x → ob_attrs o0 !! k = Some x) →
  coh s c'.
Proof.
  intros Hc Hr Hcl Hs. split; [done|done| |].
  - intros a o Ho. destruct (Hs a o Ho) as (Hl & o0 & Ho0 & <- & _). split; [done|]. by destruct (co_object _ _ Hc a o0 Ho0).
  - intros a o k x Ho Hx. destruct (Hs a o Ho) as (_ & o0 & Ho0 & _ & Hk). apply (co_attr _ _ Hc a o0); auto.
Qed.

(** The service changed elsewhere. *)
Lemma coh_same P s s' c : coh s c → os_same P s s' → (∀ a k x, P a k → get_attr c a k = Some x → False) → coh s' c.
Proof.
  intros Hc [Ht Ha] Hp. split; [by apply (co_root s c)|by apply (co_closed s c)| |].
  - intros a o Ho. rewrite Ht. by apply (co_object s c).
  - intros a o k x Ho Hx. destruct (co_attr s c Hc a o k x Ho Hx) as (Hpk & Hl & Hs). split; [done|]. split; [done|].
    rewrite Ha; [done| |done]. intros HP. apply (Hp a k x HP). unfold get_attr. by rewrite Ho.
Qed.

Lemma coh_put s c a k x :
  coh s c → os_plain k → at_link x = None → slot_is (at_val x, at_size x) (os_attr s a k) → coh s (put_attr c a k x).
Proof.
  intros Hc Hk Hl Hx. unfold put_attr. split.
  - destruct (co_root _ _ Hc) as (o & Ho & Hd). destruct (decide (a = [])) as [->|Hne].
    + eexists. split; [by rewrite lookup_alter_eq, Ho|done].
    + exists o. by rewrite lookup_alter_ne.
  - intros b y Hb. apply lookup_alter_is_Some. apply lookup_alter_is_Some in Hb. by apply (co_closed _ _ Hc b y).
  - intros b o Ho. destruct (decide (a = b)) as [->|Hne].
    + rewrite lookup_alter_eq in Ho. apply fmap_Some in Ho as (o0 & Ho0 & ->). by apply (co_object _ _ Hc b o0).
    + rewrite lookup_alter_ne in Ho by done. by apply (co_object _ _ Hc b o).
  - intros b o k' x' Ho Hx'. destruct (decide (a = b)) as [->|Hne].
    + rewrite lookup_alter_eq in Ho. apply fmap_Some in Ho as (o0 & Ho0 & ->). cbn [set_attrs ob_attrs] in Hx'.
      apply lookup_insert_Some in Hx' as [[<- <-]|[Hne Hx']]; [done|]. by apply (co_attr _ _ Hc b o0).
    + rewrite lookup_alter_ne in Ho by done. by apply (co_attr _ _ Hc b o).
Qed.

Lemma get_put c a k x b k' :
  is_Some (c !! a) → get_attr (put_attr c a k x) b k' = if decide (b = a ∧ k' = k) then Some x else get_attr c b k'.
Proof.
  intros [o Ho]. unfold get_attr, put_attr. destruct (decide (b = a)) as [->|Hne].
  - rewrite lookup_alter_eq, Ho. cbn. destruct (decide (k' = k)) as [->|Hk]; [rewrite lookup_insert_eq, decide_True by done; done|].
    rewrite lookup_insert_ne, decide_False by (done || tauto). done.
  - rewrite lookup_alter_ne, decide_False by (done || tauto). done.
Qed.

Lemma present_put c a k x b : is_Some (c !! b) → is_Some (put_attr c a k x !! b).
Proof. intros Hb. unfold put_attr. by apply lookup_alter_is_Some. Qed.

(** What is cached is found. *)
Lemma coh_chain s c a : coh s c → is_Some (c !! a) → chain c [] a.
Proof.
  intros Hc. induction a as [|x a IH] using rev_ind; intros Ha; [done|]. pose proof (co_closed _ _ Hc a x Ha) as [o Ho].
  rewrite chain_app. split; [by apply IH|]. split; [|done]. unfold child_of. cbn [app mbind option_bind]. rewrite Ho. cbn [mbind option_bind].
  destruct Ha as [o' Ho']. destruct (co_object _ _ Hc _ _ Ho') as (_ & [t Ht] & _). destruct (os_type_parent s a x t Ht) as (t' & Ht' & Hd).
  destruct (co_object _ _ Hc _ _ Ho) as (_ & _ & Hob). rewrite (Hob t' Ht' Hd), decide_True; [done|by eexists].
Qed.

(** A fetch delivers what the service would, or leaves the values as they were. *)
Lemma fetch_loop_ok s c t obj l :
  coh s c → is_Some (c !! obj) → Forall (λ kv, kv.2.2 < 0) l →
  ∃ vs ok, fetch_loop entry_timeout now fuel c t obj l = Some (vs, ok) ∧ length vs = length l ∧
    (ok = true → Forall2 (λ v kv, slot_is v (os_attr s obj kv.1)) vs l).
Proof.
  intros Hc [o Ho] Hl. induction Hl as [|[k v] l Hv Hl IH]; [by exists [], true|]. cbn [fetch_loop]. unfold fetch_attr, get_attr. rewrite Ho. cbn [mbind option_bind].
  destruct (ob_attrs o !! k) as [x|] eqn:Hx; cbn [mbind option_bind].
  - destruct (co_attr _ _ Hc obj o k x Ho Hx) as (_ & -> & Hs). cbn [mbind option_bind].
    destruct (osf_store_val_is _ _ v _ Hs Hv) as (w & -> & Hw). cbn [mbind option_bind].
    destruct IH as (vs & ok & -> & Hlen & Hok). cbn [mbind option_bind]. exists (w :: vs), ok. split; [done|]. split; [simpl; lia|].
    intros Hok'. constructor; [done|by apply Hok].
  - exists (v :: (snd <$> l)), false. split; [done|]. split; [simpl; by rewrite length_fmap|done].
Qed.
End coh.
