(* ===== verification/OsTcacheGet.v ===== *)
(** * The time cache object service: filling the cache

    What the service learns from an answer of the one it wraps keeps the cache
    the same as the store, and the layers of a path are fetched one by one. *)
From S2P Require Import Prelude Inip Path OsGlob OsTcache OsTcacheOps OsTcacheOk.
From stdpp Require Import gmap strings.
#[local] Open Scope Z_scope.

Section fill.
Context {C : Type} `{!ObjectService C, !ObjectServiceView C, !ObjectServiceOk C, !Gop, !GopOk, !DupStack}.
Context (entry_timeout now : Z) (fuel : nat).
Implicit Types (c : ostc_cache) (s : C) (st : ostc_priv C).

Lemma coh_exists s c ts : coh s c → chain c [] ts → is_Some (os_type s ts).
Proof.
  intros Hc Hch. destruct (chain_end c ts (coh_root _ _ Hc) Hch) as [o Ho]. by destruct (co_object _ _ Hc _ _ Ho) as (_ & ? & _).
Qed.

Lemma process_attr_ok s c t obj key val :
  coh s c → is_Some (c !! obj) → os_plain key → slot_is val (os_attr s obj key) →
  ∃ c', process_attr entry_timeout now fuel c t obj key val None = Some c' ∧ coh s c' ∧ is_Some (c' !! obj).
Proof.
  intros Hc Ho Hk Hv. unfold process_attr. destruct (decide (key = "os.lock")); [by eexists|]. destruct val as [val size].
  destruct (get_attr c obj key) as [x|].
  - assert (∃ v, (if decide (size > 0) then Some <$> copy_val val size else Some None) = Some v ∧ slot_is (v, size) (os_attr s obj key)) as (v & Ev & Hv').
    { destruct (os_attr s obj key) as [w|]; simpl in *.
      - destruct Hv as [-> Hw]. case_decide; [|eexists; split; [done|]; split; [done|]; intros Hne; destruct w; [done|simpl in *; lia]].
        rewrite Hw, copy_val_full by (intros ->; simpl in *; lia). eexists. done.
      - subst size. rewrite decide_False by lia. by eexists. }
    cbn [fst snd]. rewrite Ev. cbn [mbind option_bind]. eexists. split; [done|]. split; [by apply coh_put|by apply present_put].
  - eexists. split; [done|]. split; [|by apply present_put]. apply coh_put; try done. unfold new_ostcdb_attr. simpl.
    case_decide; [done|]. destruct (os_attr s obj key) as [w|]; simpl in *; [|done]. destruct Hv as [-> _]. split; [done|].
    intros Hne. destruct w; [done|simpl in *; lia].
Qed.

Lemma process_loop_ok s t obj l : ∀ c,
  coh s c → is_Some (c !! obj) → Forall (λ kvl : string * slot * slot, os_plain kvl.1.1 ∧ slot_is kvl.1.2 (os_attr s obj kvl.1.1) ∧ kvl.2.1 = None) l →
  ∃ c', process_loop entry_timeout now fuel c t obj l = Some c' ∧ coh s c'.
Proof.
  induction l as [|[[key val] link] l IH]; intros c Hc Ho Hl; [by eexists|]. apply Forall_cons in Hl as [(Hk & Hv & Hn) Hl]. simpl in Hk, Hv, Hn.
  cbn [process_loop]. rewrite Hn. destruct (process_attr_ok s c t obj key val Hc Ho Hk Hv) as (c' & -> & Hc' & Ho'). cbn [mbind option_bind]. by apply IH.
Qed.

(** The terminal node that may be added. *)
Lemma add_terminal_ok s c pre tok t :
  coh s c → chain c [] pre → os_type s (pre ++ [tok]) = Some t →
  ∃ c', add_terminal entry_timeout now c (Some pre) tok t = Some (c', pre ++ [tok]) ∧ coh s c' ∧ is_Some (c' !! (pre ++ [tok])).
Proof.
  intros Hc Hch Ht. destruct (chain_end c pre (coh_root _ _ Hc) Hch) as [o Ho]. unfold add_terminal. cbn [mbind option_bind]. rewrite Ho. cbn [mbind option_bind].
  destruct (os_type_parent s pre tok t Ht) as (t' & Ht' & Hd). destruct (co_object _ _ Hc pre o Ho) as (_ & _ & Hob). rewrite (Hob t' Ht' Hd).
  eexists. split; [done|]. split; [|by rewrite lookup_insert_eq]. split.
  - destruct (co_root _ _ Hc) as (r & Hr & Hrd). exists r. split; [|done]. rewrite lookup_insert_ne; [done|]. by destruct pre.
  - intros a x Ha. assert (is_Some (c !! a)) as Ha0; [|by apply lookup_insert_is_Some'; right].
    apply lookup_insert_is_Some' in Ha as [[-> _]%app_inj_tail|Ha]; [by eexists|by apply (co_closed _ _ Hc a x)].
  - intros a o' Ha. apply lookup_insert_Some in Ha as [[<- <-]|[_ Ha]]; [|by apply (co_object _ _ Hc)].
    split; [done|]. split; [by eexists|]. intros t2 Ht2 Hd2. rewrite Ht in Ht2. injection Ht2 as <-. exact Hd2.
  - intros a o' k x Ha Hx. apply lookup_insert_Some in Ha as [[<- <-]|[_ Ha]]; [done|by apply (co_attr _ _ Hc a o')].
Qed.

Lemma coh_set_link s c a : coh s c → coh s (alter (λ o, set_link o None) a c).
Proof.
  intros Hc. apply (coh_sub s c); [done| | |].
  - destruct (co_root _ _ Hc) as (o & Ho & Hd). destruct (decide (a = [])) as [->|Hne].
    + eexists. split; [by rewrite lookup_alter_eq, Ho|done].
    + exists o. by rewrite lookup_alter_ne.
  - intros b y Hb. apply lookup_alter_is_Some. apply lookup_alter_is_Some in Hb. by apply (co_closed _ _ Hc b y).
  - intros b o Ho. destruct (decide (a = b)) as [->|Hne].
    + rewrite lookup_alter_eq in Ho. apply fmap_Some in Ho as (o0 & Ho0 & ->). split; [done|]. by exists o0.
    + rewrite lookup_alter_ne in Ho by done. split; [by apply (co_object _ _ Hc b o)|]. by exists o.
Qed.

(** The values and links are those of the service. *)
Definition learned s (p : addr) (keys : list string) (vals : list slot) (n : nat) : Prop :=
  (∀ i k v, (i < n)%nat → keys !! i = Some k → vals !! i = Some v → os_plain k ∧ slot_is v (os_attr s p k)) ∧
  (∀ i v, (n ≤ i ≤ 2 * n)%nat → vals !! i = Some v → v.1 = None) ∧ (2 * n < length vals)%nat.

Lemma learned_list s p keys vals n :
  learned s p keys vals n →
  Forall (λ kvl : string * slot * slot, os_plain kvl.1.1 ∧ slot_is kvl.1.2 (os_attr s p kvl.1.1) ∧ kvl.2.1 = None) (zip (zip (take n keys) vals) (drop n vals)).
Proof.
  intros (Hv & Hl & _). apply Forall_lookup. intros i [[k v] w] Hi. apply lookup_zip_with_Some in Hi as (kv & w' & [= <- <-] & Hkv & Hw).
  apply lookup_zip_with_Some in Hkv as (k' & v' & [= <- <-] & Hk & Hv'). apply lookup_take_Some in Hk as [Hk Hi]. rewrite lookup_drop in Hw. simpl.
  destruct (Hv i k v Hi Hk Hv') as [? ?]. split; [done|]. split; [done|]. apply (Hl (n + i)%nat); [lia|done].
Qed.

Lemma process_attrs_ok s c fname t keys vals n :
  coh s c → clean fname → os_type s (tokens fname) = Some t → learned s (tokens fname) keys vals n →
  ∃ c', ostc_cache_process_attrs entry_timeout now fuel c fname t keys vals n = Some c' ∧ coh s c'.
Proof.
  intros Hc Hcl Ht Hle. unfold ostc_cache_process_attrs. destruct (lookup_lt_is_Some_2 vals (2 * n)) as [link Hlink]; [by destruct Hle as (_ & _ & ?)|].
  assert (link.1 = None) as Hln by (destruct Hle as (_ & Hl & _); apply (Hl (2 * n)%nat); [lia|done]).
  assert (∀ c' tr, coh s c' → is_Some (c' !! tokens fname) →
    ∃ c'', process_loop entry_timeout now fuel (alter (λ o, set_link o link.1) (tokens fname) c') tr (tokens fname) (zip (zip (take n keys) vals) (drop n vals)) = Some c'' ∧ coh s c'') as Hloop.
  { intros c' tr Hc' Ho. rewrite Hln. apply process_loop_ok; [by apply coh_set_link|by apply lookup_alter_is_Some|by apply learned_list]. }
  destruct (tree_walk_walked entry_timeout now c fname t (coh_no_links _ _ Hc) (coh_root _ _ Hc) Hcl) as
    [stk Hch _|pre tok rest tr Hsp Hpre Htk _ _ Hne Hts Hch Hn _|pre tok stk Htk _ Hch Hn]; cbn [mbind option_bind].
  - rewrite decide_False by lia. rewrite Hlink. cbn. apply Hloop; [done|]. by apply chain_end; [eapply coh_root|].
  - subst fname. destruct Hcl as [Hs _]. destruct (pre_nonempty pre tok rest Hpre Hne Hts Hs) as [Hlen _].
    rewrite decide_True by lia. by eexists.
  - rewrite Htk in *. destruct (add_terminal_ok s c pre tok t Hc Hch Ht) as (c' & E & Hc' & Ho). cbn [app]. rewrite E. cbn [mbind option_bind].
    rewrite decide_False by lia. rewrite Hlink. cbn. by apply Hloop.
Qed.

(** ** What is asked for *)
Lemma index_of_spec k l : match index_of k l with Some i => l !! i = Some k | None => k ∉ l end.
Proof.
  induction l as [|k' l IH]; cbn [index_of]; [apply not_elem_of_nil|]. destruct (decide (k' = k)) as [->|Hne]; [done|].
  destruct (index_of k l); cbn; [done|]. by rewrite not_elem_of_cons.
Qed.

Definition link_key (k : string) : Prop := k = OS_LINK ∨ ∃ k', k = OS_ATTR_LINK +:+ "." +:+ k'.

(** The keys asked for, then their links and the link of the object, and where
    the type is. *)
Lemma setup_ok s p keys vals t :
  os_type s p = Some t → Forall os_plain keys → Forall2 (λ k v, asks v (os_attr s p k)) keys vals →
  let cp := ostc_attr_cacheprep_setup keys vals true in
  let n := length keys in
  cp_n_keys cp = n ∧ length (cp_val cp) = length (cp_key cp) ∧ (2 * n < length (cp_key cp))%nat ∧
  (∀ i, (i < n)%nat → cp_key cp !! i = keys !! i ∧ cp_val cp !! i = vals !! i) ∧
  (∀ i, (n ≤ i ≤ 2 * n)%nat → (∃ k, cp_key cp !! i = Some k ∧ link_key k) ∧ ∃ z, cp_val cp !! i = Some (None, z)) ∧
  ∃ i v, cp_ftype_index cp = Some i ∧ cp_key cp !! i = Some "os.type" ∧ cp_val cp !! i = Some v ∧ asks v (os_attr s p "os.type").
Proof.
  intros Ht Hpk Has cp n. pose proof (Forall2_length _ _ _ Has) as Hlen. fold n in Hlen.
  set (kd := keys ++ (map (λ k, OS_ATTR_LINK +:+ "." +:+ k) keys ++ [OS_LINK])).
  set (vd := vals ++ (replicate n (None, - OS_PATH_MAX) ++ [(None, - OS_PATH_MAX)])).
  assert (length kd = 2 * n + 1 ∧ length vd = 2 * n + 1)%nat as [Hkd Hvd].
  { unfold kd, vd. rewrite !length_app, length_map, length_replicate. simpl. lia. }
  assert (∀ i, (i < n)%nat → kd !! i = keys !! i ∧ vd !! i = vals !! i) as Hlo by (intros i Hi; unfold kd, vd; rewrite !lookup_app_l by lia; done).
  assert (∀ i, (n ≤ i ≤ 2 * n)%nat → (∃ k, kd !! i = Some k ∧ link_key k) ∧ ∃ z, vd !! i = Some (None, z)) as Hhi.
  { intros i Hi. unfold kd, vd. rewrite (lookup_app_r keys), (lookup_app_r vals) by lia. rewrite <- Hlen. fold n. destruct (decide (i = 2 * n)%nat) as [->|Hne].
    - rewrite (lookup_app_r (map _ _)), (lookup_app_r (replicate _ _)) by (rewrite ?length_map, ?length_replicate; fold n; lia).
      rewrite length_map, length_replicate. fold n. replace (2 * n - n - n)%nat with 0%nat by lia. split; [exists OS_LINK; split; [done|by left]|by eexists].
    - rewrite (lookup_app_l (map _ _)), (lookup_app_l (replicate _ _)) by (rewrite ?length_map, ?length_replicate; fold n; lia).
      rewrite lookup_replicate_2 by lia. split; [|by eexists]. destruct (lookup_lt_is_Some_2 keys (i - n)) as [k Hk]; [fold n; lia|].
      eexists. rewrite list_lookup_fmap, Hk. split; [done|]. right. by eexists. }
  destruct (os_type_attr s p t Ht) as (ts & Hts & _ & _ & Htl). assert (os_attr s p "os.type" = Some ts) as Ha by done.
  unfold cp, ostc_attr_cacheprep_setup. cbn [negb]. fold n kd vd. pose proof (index_of_spec "os.type" keys) as Hix.
  destruct (index_of "os.type" keys) as [j|]; cbn [cp_n_keys cp_val cp_key cp_ftype_index].
  - split; [done|]. split; [lia|]. split; [lia|]. split; [done|]. split; [done|].
    destruct (Forall2_lookup_l _ _ _ j _ Has Hix) as (v & Hv & Hasv). exists j, v. apply lookup_lt_Some in Hix as Hj. destruct (Hlo j Hj) as [-> ->]. done.
  - split; [done|]. rewrite !length_app. simpl. split; [lia|]. split; [lia|].
    split; [intros i Hi; rewrite !lookup_app_l by lia; by apply Hlo|].
    split; [intros i Hi; rewrite !lookup_app_l by lia; by apply Hhi|].
    eexists (2 * n + 1)%nat, _. split; [done|]. rewrite !lookup_app_r by lia. rewrite Hkd, Hvd, Nat.sub_diag. split; [done|]. split; [done|].
    split; [done|]. intros s' E. rewrite Ha in E. injection E as <-. simpl. lia.
Qed.

(** The answer to that. *)
Lemma got_ok s fname keys vals t :
  clean fname → os_type s (tokens fname) = Some t → Forall os_plain keys → Forall2 (λ k v, asks v (os_attr s (tokens fname) k)) keys vals →
  let cp := ostc_attr_cacheprep_setup keys vals true in
  let '(got, status) := os_get_multiple_attrs s fname (cp_key cp) (cp_val cp) in
  op_st status = OP_STATE_SUCCESS ∧ learned s (tokens fname) (cp_key cp) got (length keys) ∧
  ostc_attr_cacheprep_ftype (Ostc_cacheprep (cp_n_keys cp) (cp_ftype_index cp) (cp_key cp) got) = Some t ∧
  Forall2 (λ v k, slot_is v (os_attr s (tokens fname) k)) (take (length keys) got) keys.
Proof.
  intros Hcl Ht Hpk Has cp. pose proof (setup_ok s (tokens fname) keys vals t Ht Hpk Has) as (Hn & Hlen & H2n & Hlo & Hhi & j & vj & Hj & Hjk & Hjv & Hja).
  fold cp in Hn, Hlen, H2n, Hlo, Hhi, Hj, Hjk, Hjv. pose proof (mk_is_Some _ _ Ht) as Hex.
  pose proof (os_get_ok s fname (cp_key cp) (cp_val cp) Hcl Hex Hlen) as [Hst Hgl].
  pose proof (λ i k v g, os_get_plain s fname (cp_key cp) (cp_val cp) i k v g Hcl Hex) as Hplain.
  pose proof (λ i k z g, os_get_link s fname (cp_key cp) (cp_val cp) i k z g Hcl Hex) as Hlink.
  destruct (os_get_multiple_attrs s fname (cp_key cp) (cp_val cp)) as [got status]. cbn [fst snd] in *.
  assert (∀ i k, keys !! i = Some k → os_plain k ∧ ∀ g, got !! i = Some g → slot_is g (os_attr s (tokens fname) k)) as Hval.
  { intros i k Hk. apply lookup_lt_Some in Hk as Hi. destruct (Hlo i Hi) as [E1 E2]. pose proof (Forall_lookup_1 _ _ _ _ Hpk Hk) as Hkp.
    split; [done|]. intros g Hg. destruct (Forall2_lookup_l _ _ _ i k Has Hk) as (v & Hv & Hav). apply (Hplain i k v g); try done; by rewrite ?E1, ?E2. }
  split; [done|]. split; [|split].
  - split; [|split; [|lia]].
    + intros i k v Hi Hk Hv. destruct (Hlo i Hi) as [E1 _]. rewrite E1 in Hk. destruct (Hval i k Hk) as [? Hs]. split; [done|by apply Hs].
    + intros i v Hi Hv. destruct (Hhi i Hi) as [(k & Hk & Hlk) [z Hz]]. by apply (Hlink i k z v).
  - unfold ostc_attr_cacheprep_ftype. cbn [cp_ftype_index cp_val]. rewrite Hj.
    destruct (lookup_lt_is_Some_2 got j) as [g Hg]; [rewrite Hgl; by apply lookup_lt_Some in Hjk|]. rewrite Hg. cbn [mbind option_bind].
    destruct (os_type_attr s (tokens fname) t Ht) as (ts & Hts & Hne & Hparse & _).
    pose proof (Hplain j _ _ g Hjk Hjv os_plain_type Hja Hg) as Hs. rewrite Hts in Hs. destruct Hs as [_ Hs]. rewrite Hs by done. done.
  - apply Forall2_lookup. intros i. destruct (decide (i < length keys)%nat) as [Hi|Hi].
    + rewrite lookup_take_lt by done. destruct (lookup_lt_is_Some_2 keys i Hi) as [k Hk]. rewrite Hk.
      destruct (lookup_lt_is_Some_2 got i) as [g Hg]; [lia|]. rewrite Hg. constructor. by apply (Hval i k Hk).
    + rewrite lookup_take_ge, (lookup_ge_None_2 keys i) by lia. constructor.
Qed.

(** ** The layers of a path *)
Lemma substring_prefix p r : String.substring 0 (String.length p) (p +:+ r) = p.
Proof. induction p as [|x p IH]; [by destruct r|]. rewrite append_String. simpl. by rewrite IH. Qed.
Lemma substring_suffix p r : String.substring (String.length p) (String.length r) (p +:+ r) = r.
Proof. induction p as [|x p IH]; [apply substring_full|]. rewrite append_String. simpl. apply IH. Qed.

Lemma st_eta st : set_cache st (tc_cache st) = st.
Proof. by destruct st. Qed.

(** One layer: the answer of the service is entered. *)
Lemma learn_layer s c fname t :
  coh s c → clean fname → os_type s (tokens fname) = Some t →
  let cp := ostc_attr_cacheprep_setup ["system.inode"] [(None, -100)] true in
  let '(vals, status) := os_get_multiple_attrs s fname (cp_key cp) (cp_val cp) in
  succeeded status = true ∧ ∃ ftype c', ostc_attr_cacheprep_ftype (Ostc_cacheprep (cp_n_keys cp) (cp_ftype_index cp) (cp_key cp) vals) = Some ftype ∧
    ostc_cache_process_attrs entry_timeout now fuel c fname ftype (cp_key cp) vals (cp_n_keys cp) = Some c' ∧ coh s c'.
Proof.
  intros Hc Hcl Ht cp. assert (Forall os_plain ["system.inode"]) as Hpk by (repeat constructor; apply os_plain_inode).
  assert (Forall2 (λ k v, asks v (os_attr s (tokens fname) k)) ["system.inode"] [(None, -100)]) as Has.
  { constructor; [|constructor]. split; [done|]. intros s' Hs'. simpl. by apply (os_inode_short s (tokens fname)). }
  pose proof (got_ok s fname _ _ t Hcl Ht Hpk Has) as Hg. cbv zeta in Hg. fold cp in Hg.
  destruct (os_get_multiple_attrs s fname (cp_key cp) (cp_val cp)) as [vals status]. destruct Hg as (Hst & Hle & Hft & _).
  split; [by apply bool_decide_eq_true|]. exists t.
  destruct (process_attrs_ok s c fname t (cp_key cp) vals 1 Hc Hcl Ht Hle) as (c' & E & Hc'). by exists c'.
Qed.

Lemma populate_prefix_ok n : ∀ st path prefix_len,
  coh (tc_child st) (tc_cache st) → clean path → 0 ≤ prefix_len ≤ Z.of_nat (String.length path) → Z.of_nat (String.length path) < Z.of_nat n + prefix_len →
  ∃ c, _ostc_cache_populate_prefix entry_timeout now fuel n st path prefix_len = Some (set_cache st c) ∧ coh (tc_child st) c.
Proof.
  induction n as [|n IH]; intros st path prefix_len Hc Hcl Hpl Hn; [lia|]. cbn [_ostc_cache_populate_prefix].
  assert (∃ c, Some st = Some (set_cache st c) ∧ coh (tc_child st) c) as Hsame by (exists (tc_cache st); by rewrite st_eta).
  destruct (decide (Z.of_nat (String.length path) = 1)); [done|].
  destruct (tree_walk_walked entry_timeout now (tc_cache st) path 0 (coh_no_links _ _ Hc) (coh_root _ _ Hc) Hcl) as
    [stk Hch _|pre tok rest tr Hsp Hpre Htk Hre Ht2 Hne Hts Hch Hn' _|]; [| |lia]; cbn [mbind option_bind]; [by rewrite decide_True by lia|].
  subst path. destruct Hcl as [Hs Hp]. destruct (pre_nonempty pre tok rest Hpre Hne Hts Hs) as [Hlen Hpres].
  rewrite decide_False by lia. rewrite Z.add_0_l, Nat2Z.id. replace (String.length (pre +:+ tok +:+ rest) - String.length pre)%nat with (String.length (tok +:+ rest)) by (rewrite !length_append; lia).
  rewrite substring_suffix, (token_app tok rest Ht2 Hre). cbn [fst]. rewrite <- Nat2Z.inj_add, Nat2Z.id, <- length_append.
  rewrite append_assoc, substring_prefix. destruct (decide (_ ≤ prefix_len)) as [|Hprog]; [done|].
  assert (clean (pre +:+ tok)) as Hcl'.
  { split; [by apply app_starts|]. rewrite append_assoc, tokens_app, Forall_app in Hp by done. by destruct Hp. }
  destruct (succeeded _) eqn:Hopen; cbn [negb]; [|done]. apply bool_decide_eq_true in Hopen. apply os_open_ok in Hopen as [t Ht]; [|done].
  pose proof (learn_layer (tc_child st) (tc_cache st) (pre +:+ tok) t Hc Hcl' Ht) as Hl. cbv zeta in Hl |- *.
  set (cp := ostc_attr_cacheprep_setup _ _ _) in *. destruct (os_get_multiple_attrs _ _ _ _) as [vals status]. destruct Hl as [-> (ftype & c & -> & Hpr & Hc')].
  cbn [mbind option_bind cp_key cp_val cp_n_keys]. rewrite Hpr. cbn [mbind option_bind]. destruct (decide (_ < _ - 1)); [|by exists c].
  rewrite !length_append in *. destruct (IH (set_cache st c) (pre +:+ tok +:+ rest) (Z.of_nat (String.length pre + String.length tok))) as (c' & E & Hc''); try done.
  - rewrite !length_append. lia.
  - rewrite !length_append. lia.
  - rewrite append_assoc in E. rewrite E. by exists c'.
Qed.

(** ** Gets *)
Lemma child_fd_ok st fd :
  clean (fd_fname fd) → is_Some (os_type (tc_child st) (tokens (fd_fname fd))) →
  ∃ fd' status, child_fd st fd = (fd', status) ∧ failed status = false ∧ fd_fname fd' = fd_fname fd.
Proof.
  intros Hcl Hex. unfold child_fd, ostc_delayed_open_object. destruct (fd_open fd).
  - exists fd, op_success_status. unfold failed. rewrite op_success_state. done.
  - apply (os_open_ok (tc_child st) _ (fd_mode fd) Hcl) in Hex. unfold failed at 1. rewrite Hex. cbn. eexists _, _. split; [done|].
    unfold failed. by rewrite Hex.
Qed.

Lemma fetch_ok s c fname keys vals :
  coh s c → clean fname → Forall (λ v : slot, v.2 < 0) vals → length vals = length keys →
  ∃ vs ok, ostc_cache_fetch entry_timeout now fuel c fname keys vals = Some (vs, ok) ∧
    (ok = true → Forall2 (λ v k, slot_is v (os_attr s (tokens fname) k)) vs keys ∧ is_Some (os_type s (tokens fname))) ∧ (ok = false → vs = vals).
Proof.
  intros Hc Hcl Hv Hlen. unfold ostc_cache_fetch.
  destruct (walk_to_spec entry_timeout now c fname (coh_no_links _ _ Hc) (coh_root _ _ Hc) Hcl) as [[Hch (stk & -> & _)]|[_ ->]]; cbn [mbind option_bind]; [|by exists vals, false].
  cbn [tr_bottom tr_stack head mjoin option_join]. destruct (chain_end c _ (coh_root _ _ Hc) Hch) as [o Ho]. cbn. rewrite Ho. cbn [mbind option_bind].
  destruct (fetch_loop_ok entry_timeout now fuel s c (Tree (Some (tokens fname) :: stk) (Some (tokens fname))) (tokens fname) (zip keys vals)) as (vs & ok & E & Hl & Hok);
    [done|by eexists| |].
  - apply Forall_lookup. intros i [k v] Hi. apply lookup_zip_with_Some in Hi as (k' & v' & [= <- <-] & _ & Hi). by apply (Forall_lookup_1 _ _ _ _ Hv Hi).
  - rewrite E. cbn [mbind option_bind]. rewrite length_zip in Hl. eexists _, ok. split; [done|]. split; intros ->.
    + split; [|by apply (coh_exists s c)]. specialize (Hok eq_refl). rewrite <- (fst_zip keys vals) by lia. by apply Forall2_fmap_r.
    + apply list_eq. intros i. rewrite lookup_zip_with. destruct (vals !! i) as [v|] eqn:Hi; cbn; [|done].
      destruct (lookup_lt_is_Some_2 vs i) as [w ->]; [apply lookup_lt_Some in Hi; lia|]. cbn. pose proof (Forall_lookup_1 _ _ _ _ Hv Hi) as Hneg. simpl in Hneg.
      unfold unroll. rewrite decide_False by lia. by destruct v.
Qed.

(** The values are those of the service, from the cache or not. *)
Lemma get_attrs_ok st fd keys vals :
  coh (tc_child st) (tc_cache st) → clean (fd_fname fd) → is_Some (os_type (tc_child st) (tokens (fd_fname fd))) → Forall os_plain keys →
  Forall2 (λ k v, asks v (os_attr (tc_child st) (tokens (fd_fname fd)) k)) keys vals →
  ∃ c fd' vs status, ostc_get_attrs entry_timeout now fuel st fd keys vals = Some (set_cache st c, fd', vs, status) ∧
    op_st status = OP_STATE_SUCCESS ∧ coh (tc_child st) c ∧ fd_fname fd' = fd_fname fd ∧
    Forall2 (λ v k, slot_is v (os_attr (tc_child st) (tokens (fd_fname fd)) k)) vs keys.
Proof.
  intros Hc Hcl Hex Hpk Has. pose proof (Forall2_length _ _ _ Has) as Hlen. unfold ostc_get_attrs.
  destruct (fetch_ok (tc_child st) (tc_cache st) (fd_fname fd) keys vals Hc Hcl) as (vs & ok & -> & Hhit & Hmiss); [|done|].
  { apply Forall_lookup. intros i v Hi. destruct (Forall2_lookup_r _ _ _ _ _ Has Hi) as (k & _ & Hv & _). done. }
  cbn [mbind option_bind]. destruct ok.
  - destruct (Hhit eq_refl) as [Hvs _]. exists (tc_cache st), fd, vs, op_success_status. rewrite st_eta. split; [done|]. split; [apply op_success_state|done].
  - rewrite (Hmiss eq_refl). destruct (populate_prefix_ok (S (String.length (fd_fname fd))) st (fd_fname fd) 0 Hc Hcl) as (c & -> & Hc'); [lia|lia|].
    cbn [mbind option_bind]. destruct (child_fd_ok (set_cache st c) fd Hcl Hex) as (fd' & status & -> & -> & Hfd). rewrite Hfd.
    destruct Hex as [t Ht]. pose proof (got_ok (tc_child st) (fd_fname fd) keys vals t Hcl Ht Hpk Has) as Hg. cbv zeta in Hg |- *. cbn [set_cache tc_child tc_cache].
    set (cp := ostc_attr_cacheprep_setup keys vals true) in *. assert (cp_n_keys cp = length keys) as Hn.
    { unfold cp, ostc_attr_cacheprep_setup. cbn [negb]. by destruct (index_of _ _). }
    destruct (os_get_multiple_attrs _ _ _ _) as [got status']. destruct Hg as (Hst & Hle & Hft & Hgot). unfold succeeded. rewrite bool_decide_eq_true_2 by done.
    rewrite Hft. cbn [mbind option_bind cp_key cp_val cp_n_keys]. rewrite Hn.
    destruct (process_attrs_ok (tc_child st) c (fd_fname fd) t (cp_key cp) got (length keys) Hc' Hcl Ht Hle) as (c' & -> & Hc''). cbn [mbind option_bind].
    eexists c', fd', _, status'. split; [done|]. done.
Qed.
End fill.
