(* ===== verification/OsTcacheClean.v ===== *)
(** * The time cache object service: cleaning up

    A round of the thread that cleans up drops exactly the attributes that have
    expired, and the objects that have none left at or below them. *)
From S2P Require Import Prelude Inip Path OsGlob OsTcache OsTcacheOps OsTcacheOk.
From stdpp Require Import gmap strings.
#[local] Open Scope Z_scope.

(** Objects are in objects with a hash. *)
Definition owned (c : ostc_cache) : Prop := ∀ a x, is_Some (c !! (a ++ [x])) → ∃ o, c !! a = Some o ∧ ob_objects o = true.

Section clean.
Context (expired : Z).
Implicit Types (c : ostc_cache) (a b : addr).

Definition prune (o : ostcdb_object) : ostcdb_object := set_attrs o (keep_attrs o expired).

(** Something is kept at the object or below it. *)
Definition live c a : Prop := ∃ b o, a `prefix_of` b ∧ c !! b = Some o ∧ keep_attrs o expired ≠ ∅.

#[export] Instance live_dec c a : Decision (live c a).
Proof.
  refine (cast_if (decide (Exists (λ bo : addr * ostcdb_object, a `prefix_of` bo.1 ∧ keep_attrs bo.2 expired ≠ ∅) (map_to_list c)))).
  - abstract (match goal with He : Exists _ _ |- _ => apply Exists_exists in He as ([b o] & Hb%elem_of_map_to_list & Hp & Hk) end; by exists b, o).
  - abstract (intros (b & o & Hp & Ho & Hk); match goal with He : ¬ Exists _ _ |- _ => apply He end; apply Exists_exists; exists (b, o); by rewrite elem_of_map_to_list).
Defined.

Definition under_owned c a : Prop := ∀ b x, a `prefix_of` b → is_Some (c !! (b ++ [x])) → ∃ o, c !! b = Some o ∧ ob_objects o = true.

Lemma live_same c c' a : (∀ b, a `prefix_of` b → c' !! b = c !! b) → live c' a ↔ live c a.
Proof. intros He. split; intros (b & o & Hp & Hb & Hk); exists b, o; [rewrite He in Hb by done|rewrite He by done]; done. Qed.

(** What is left below [a]: [keep_top] is whether [a] itself stays. *)
Definition cleaned (keep_top : bool) c c' a : Prop :=
  (∀ b, ¬ a `prefix_of` b → c' !! b = c !! b) ∧
  (∀ b, a `prefix_of` b → (keep_top = true ∧ b = a) ∨ live c b → c' !! b = prune <$> c !! b) ∧
  (∀ b, a `prefix_of` b → ¬ ((keep_top = true ∧ b = a) ∨ live c b) → c' !! b = None).

Lemma children_spec c a b : b ∈ children c a ↔ ∃ x, b = a ++ [x] ∧ is_Some (c !! b).
Proof.
  unfold children. rewrite list_elem_of_fmap. split.
  - intros ([b' o] & -> & Hin). apply elem_of_map_to_list, map_lookup_filter_Some in Hin as [Ho [Hr Hne]]. simpl in *.
    exists (List.last b' ""). split; [|by eexists]. rewrite <- Hr. by apply app_removelast_last.
  - intros (x & -> & [o Ho]). exists (a ++ [x], o). split; [done|]. apply elem_of_map_to_list, map_lookup_filter_Some. split; [done|]. simpl.
    rewrite removelast_last. split; [done|]. by destruct a.
Qed.

Lemma children_nodup c a : NoDup (children c a).
Proof. apply NoDup_fst_map_to_list. Qed.

(** Two objects of the same length have nothing below them in common. *)
Lemma prefix_same_length a b d : length a = length b → a `prefix_of` d → b `prefix_of` d → a = b.
Proof. intros Hl [k ->] [k' E]. by apply app_inj_1 in E as [? _]. Qed.

Lemma below_child a b : a `prefix_of` b → b ≠ a → ∃ x, a ++ [x] `prefix_of` b.
Proof. intros [[|x k] ->] Hne; [by rewrite app_nil_r in Hne|]. exists x, k. by rewrite <- app_assoc. Qed.

Lemma live_up c a b : a `prefix_of` b → live c b → live c a.
Proof. intros Hp (d & o & Hd & Ho & Hk). exists d, o. split; [by etrans|done]. Qed.

(** The count says whether something was kept. *)
Definition counted (P : Prop) (n : nat) : Prop := (n = 0%nat → ¬ P) ∧ (n ≠ 0%nat → P).

(** An object without anything is freed. *)
Lemma cleaned_free c c' a n :
  cleaned true c c' a → counted (live c a) n → cleaned false c (if decide (n = 0%nat) then free_below c' a else c') a.
Proof.
  intros (Ho & Hk & Hd) [Hn0 Hn1]. unfold free_below. case_decide as Hz.
  - specialize (Hn0 Hz). split; [|split].
    + intros b Hb. rewrite <- Ho by done. destruct (c' !! b) as [o|] eqn:E; [by apply map_lookup_filter_Some|]. apply map_lookup_filter_None. by left.
    + intros b Hb [[]|Hl]; [done|]. by apply (live_up _ _ _ Hb) in Hl.
    + intros b Hb _. apply map_lookup_filter_None. right. intros o _. simpl. tauto.
  - split; [done|]. split; intros b Hb Hx; [|]; [apply Hk|apply Hd]; try done.
    + destruct Hx as [[? _]|?]; [done|by right].
    + intros [[_ ->]|?]; apply Hx; right; auto.
Qed.

Definition cleans (cleanup : ostc_cache → addr → option (ostc_cache * nat)) c a : Prop :=
  ∃ c' n, cleanup c a = Some (c', n) ∧ cleaned true c c' a ∧ counted (live c a) n.

(** The objects [l], which have nothing in common. *)
Lemma cleanup_objects_ok cleanup m l : ∀ c k,
  NoDup l → (∀ b, b ∈ l → length b = m) →
  (∀ c' b, b ∈ l → (∀ d, b `prefix_of` d → c' !! d = c !! d) → cleans cleanup c' b) →
  ∃ c' n, cleanup_objects cleanup c l k = Some (c', (k + n)%nat) ∧
    (∀ d, (∀ b, b ∈ l → ¬ b `prefix_of` d) → c' !! d = c !! d) ∧
    (∀ b d, b ∈ l → b `prefix_of` d → (live c d → c' !! d = prune <$> c !! d) ∧ (¬ live c d → c' !! d = None)) ∧
    counted (∃ b, b ∈ l ∧ live c b) n.
Proof.
  induction l as [|b l IH]; intros c k Hnd Hlen Hcl; cbn [cleanup_objects].
  - exists c, 0%nat. rewrite Nat.add_0_r. split; [done|]. split; [done|]. split; [by intros b d ?%not_elem_of_nil|].
    split; [intros _ (b & ?%not_elem_of_nil & _); done|done].
  - apply NoDup_cons in Hnd as [Hb Hnd]. destruct (Hcl c b) as (c1 & n1 & -> & Hc1 & Hn1); [by left|done|]. cbn [mbind option_bind].
    pose proof (cleaned_free c c1 b n1 Hc1 Hn1) as (Ho & Hk & Hd). set (c2 := if decide _ then _ else _) in *.
    assert (∀ b' d, b' ∈ l → b' `prefix_of` d → c2 !! d = c !! d) as Hsame.
    { intros b' d Hb' Hp. apply Ho. intros Hp'. apply Hb. rewrite (prefix_same_length b b' d); [done| |done|done].
      rewrite !Hlen; [done|by right|by left]. }
    destruct (IH c2 (k + n1)%nat Hnd) as (c' & n & -> & Ho' & Hl' & Hn0 & Hn1'); [by intros; apply Hlen; right| |].
    { intros c' b' Hb' Hc'. apply Hcl; [by right|]. intros d Hp. rewrite Hc' by done. by apply (Hsame b'). }
    assert (∀ b' d, b' ∈ l → b' `prefix_of` d → live c2 d ↔ live c d) as Hlive.
    { intros b' d Hb' Hp. apply live_same. intros d' Hp'. apply (Hsame b'); [done|by etrans]. }
    exists c', (n1 + n)%nat. split; [by rewrite Nat.add_assoc|]. split; [|split].
    + intros d Hx. rewrite Ho'; [|by intros b' Hb'; apply Hx; right]. apply Ho. apply Hx. by left.
    + intros b' d [->|Hb']%elem_of_cons Hp.
      * assert (∀ y, y ∈ l → ¬ y `prefix_of` d) as Hno.
        { intros y Hy Hp'. apply Hb. rewrite (prefix_same_length b y d); [done| |done|done]. rewrite !Hlen; [done|by right|by left]. }
        rewrite Ho' by done. split; intros Hx; [apply Hk|apply Hd]; try done; [by right|]. intros [[]|?]; done.
      * destruct (Hl' b' d Hb' Hp) as [H1 H2]. rewrite (Hlive b') in H1, H2 by done. by rewrite (Hsame b') in H1.
    + split.
      * intros Hz (y & [->|Hy]%elem_of_cons & Hl); [destruct Hn1 as [Hn1 _]; apply Hn1; [lia|done]|]. apply Hn0; [lia|]. exists y. split; [done|]. by apply (Hlive y y).
      * intros Hz. destruct (decide (n1 = 0%nat)) as [Hz1|Hz1].
        -- destruct Hn1' as (y & Hy & Hl); [lia|]. exists y. split; [by right|]. by apply (Hlive y y).
        -- exists b. split; [by left|]. by apply Hn1.
Qed.

Lemma keep_size o : size (keep_attrs o expired) = 0%nat ↔ keep_attrs o expired = ∅.
Proof. apply map_size_empty_iff. Qed.

(** What is above an object is there too. *)
Lemma owned_up c a b d : under_owned c a → a `prefix_of` b → b `prefix_of` d → is_Some (c !! d) → is_Some (c !! b).
Proof.
  intros Ho Hab [k ->]. induction k as [|x k IH] using rev_ind; [by rewrite app_nil_r|]. rewrite app_assoc. intros Hd.
  apply IH. destruct (Ho (b ++ k) x) as (o & ? & _); [|done|by eexists]. by apply prefix_app_r.
Qed.

Lemma below_in c a o d :
  under_owned c a → c !! a = Some o → is_Some (c !! d) → a `prefix_of` d → d ≠ a →
  ob_objects o = true ∧ ∃ x, a ++ [x] ∈ children c a ∧ a ++ [x] `prefix_of` d.
Proof.
  intros Hown Ho Hd Hp Hne. destruct (below_child a d Hp Hne) as [x Hx].
  assert (is_Some (c !! (a ++ [x]))) as Hs by (apply (owned_up c a _ d); [done|by eexists|done|done]).
  destruct (Hown a x ltac:(done) Hs) as (o' & Ho' & Hob). split; [congruence|]. exists x. split; [|done]. apply children_spec. by exists x.
Qed.

(** All the objects below [a] but not [a]. *)
Lemma cleanup_below cleanup c a o :
  c !! a = Some o → under_owned c a → (∀ c' b, b ∈ children c a → (∀ d, b `prefix_of` d → c' !! d = c !! d) → cleans cleanup c' b) →
  ∃ c1 n, (if ob_objects o then cleanup_objects cleanup c (children c a) 0 else Some (c, 0%nat)) = Some (c1, n) ∧
    c1 !! a = Some o ∧ (∀ b, ¬ a `prefix_of` b → c1 !! b = c !! b) ∧
    (∀ b, a `prefix_of` b → b ≠ a → (live c b → c1 !! b = prune <$> c !! b) ∧ (¬ live c b → c1 !! b = None)) ∧
    counted (∃ b, b ≠ a ∧ a `prefix_of` b ∧ live c b) n.
Proof.
  intros Ho Hown Hcl. destruct (ob_objects o) eqn:Hob.
  - destruct (cleanup_objects_ok cleanup (S (length a)) (children c a) c 0) as (c1 & n & -> & Hout & Hin & Hn0 & Hn1); [apply children_nodup| |done|].
    { intros b (x & -> & _)%children_spec. rewrite length_app. simpl. lia. }
    exists c1, n. split; [done|]. assert (∀ b d, b ∈ children c a → b `prefix_of` d → a `prefix_of` d ∧ d ≠ a) as Hchild.
    { intros b d (x & -> & _)%children_spec [k ->]. rewrite <- app_assoc. split; [by eexists|]. intros E%(f_equal length). rewrite length_app in E. simpl in E. lia. }
    split; [rewrite Hout; [done|]; intros b Hb Hp; by destruct (Hchild b a Hb Hp)|].
    split; [intros b Hb; apply Hout; intros b' Hb' Hp; by destruct (Hchild b' b Hb' Hp)|]. split.
    + intros b Hb Hne. destruct (below_child a b Hb Hne) as [x Hx]. destruct (decide (is_Some (c !! (a ++ [x])))) as [Hs|Hs].
      * apply (Hin (a ++ [x]) b); [|done]. apply children_spec. by exists x.
      * assert (∀ d, b `prefix_of` d → c !! d = None) as Hnone.
        { intros d Hd. destruct (c !! d) eqn:E; [|done]. destruct Hs. apply (owned_up c a _ d); [done|by eexists|by etrans|by eexists]. }
        assert (c1 !! b = None) as ->; [|split; [by rewrite Hnone|done]]. rewrite Hout; [by apply Hnone|].
        intros b' (y & -> & Hy)%children_spec Hp. apply Hs. rewrite (prefix_same_length (a ++ [x]) (a ++ [y]) b); [done|by rewrite !length_app|done|done].
    + split; [intros Hz (b & Hne & Hp & Hl)|intros Hz].
      * apply Hn0; [done|]. destruct (Hl) as (d & od & Hd & Hod & _). destruct (below_in c a o d) as (_ & x & Hx & Hxd); [done|done|by eexists|by etrans| |].
        { intros ->. destruct Hne. apply (anti_symm prefix); done. }
        exists (a ++ [x]). split; [done|]. destruct (below_child a b Hp Hne) as [y Hy].
        rewrite (prefix_same_length (a ++ [x]) (a ++ [y]) d); [by apply (live_up _ _ b)|by rewrite !length_app|done|by etrans].
      * destruct (Hn1 Hz) as (b & Hb & Hl). exists b. destruct (Hchild b b Hb ltac:(done)). done.
  - exists c, 0%nat. split; [done|]. split; [done|]. split; [done|].
    assert (∀ b d, a `prefix_of` b → b ≠ a → b `prefix_of` d → c !! d = None) as Hnone.
    { intros b d Hp Hne Hd. destruct (c !! d) eqn:E; [|done]. destruct (below_in c a o d) as [? _]; [done|done|by eexists|by etrans| |congruence].
      intros ->. destruct Hne. apply (anti_symm prefix); done. }
    split; [|split; [intros _ (b & Hne & Hp & d & od & Hd & Hod & _); by rewrite (Hnone b d) in Hod|done]].
    intros b Hp Hne. rewrite (Hnone b b) by done. done.
Qed.

Lemma cleanup_ok fuel : ∀ c a,
  is_Some (c !! a) → under_owned c a → (∀ b, a `prefix_of` b → is_Some (c !! b) → (length b < length a + fuel)%nat) →
  cleans (λ c b, _ostc_cleanup fuel c b expired) c a.
Proof.
  induction fuel as [|fuel IH]; intros c a Ha Hown Hdepth; [specialize (Hdepth a ltac:(done) Ha); lia|].
  destruct Ha as [o Ho]. unfold cleans. cbn [_ostc_cleanup]. rewrite Ho. cbn [mbind option_bind].
  destruct (cleanup_below (λ c b, _ostc_cleanup fuel c b expired) c a o Ho Hown) as (c1 & n & -> & Ha1 & Hout & Hin & Hn0 & Hn1).
  { intros c' b (x & -> & Hs)%children_spec Hsame. assert (a `prefix_of` a ++ [x]) as Hax by (by eexists). apply IH.
    - by rewrite Hsame.
    - intros d y Hd. rewrite !Hsame by (try done; by apply prefix_app_r). apply Hown. by etrans.
    - intros d Hd. rewrite Hsame by done. intros Hs'. specialize (Hdepth d ltac:(by etrans) Hs'). rewrite length_app. simpl. lia. }
  cbn [mbind option_bind]. rewrite Ha1. cbn [mbind option_bind]. eexists _, _. split; [done|]. split; [split; [|split]|split].
  - intros b Hb. rewrite lookup_insert_ne; [by apply Hout|]. by intros ->.
  - intros b Hb Hx. destruct (decide (b = a)) as [->|Hne]; [by rewrite lookup_insert_eq, Ho|]. rewrite lookup_insert_ne by done.
    destruct Hx as [[_ ?]|Hl]; [done|]. by apply (Hin b Hb Hne).
  - intros b Hb Hx. destruct (decide (b = a)) as [->|Hne]; [destruct Hx; by left|]. rewrite lookup_insert_ne by done.
    apply (Hin b Hb Hne). intros Hl. apply Hx. by right.
  - intros Hz (b & ob & Hp & Hb & Hk). destruct (decide (b = a)) as [->|Hne].
    + apply Hk, keep_size. rewrite Ho in Hb. injection Hb as <-. lia.
    + apply Hn0; [lia|]. exists b. split; [done|]. split; [done|]. exists b, ob. done.
  - intros Hz. destruct (decide (n = 0%nat)) as [->|Hn].
    + exists a, o. split; [done|]. split; [done|]. intros E. apply keep_size in E. lia.
    + destruct (Hn1 Hn) as (b & _ & Hp & Hl). by apply (live_up _ _ b).
Qed.

(** ** A round *)
Lemma owned_depth c : owned c → ∀ b, is_Some (c !! b) → (length b < S (size c))%nat.
Proof.
  intros Hown b Hb. assert (∀ k, (k ≤ length b)%nat → is_Some (c !! take k b)) as Hall.
  { intros k _. apply (owned_up c [] _ b); [intros d x _ Hs; by apply (Hown d x)|apply prefix_nil| |done]. exists (drop k b). by rewrite take_drop. }
  assert (list_to_set ((λ k, take k b) <$> seq 0 (S (length b))) ⊆ dom c) as Hsub.
  { intros d (k & -> & Hk)%elem_of_list_to_set%list_elem_of_fmap. apply elem_of_seq in Hk. apply elem_of_dom, Hall. lia. }
  apply subseteq_size in Hsub. rewrite size_dom, size_list_to_set in Hsub.
  - rewrite length_fmap, length_seq in Hsub. lia.
  - apply NoDup_fmap_2_strong; [|apply NoDup_seq]. intros k1 k2 H1 H2 E%(f_equal length). apply elem_of_seq in H1, H2. rewrite !length_take in E. lia.
Qed.

Lemma cleanup_root c :
  is_Some (c !! []) → owned c → ∃ c' n, _ostc_cleanup (S (size c)) c [] expired = Some (c', n) ∧
    (∀ b, b = [] ∨ live c b → c' !! b = prune <$> c !! b) ∧ (∀ b, b ≠ [] → ¬ live c b → c' !! b = None) ∧ counted (live c []) n.
Proof.
  intros Hr Hown. destruct (cleanup_ok (S (size c)) c []) as (c' & n & E & (_ & Hk & Hd) & Hn); [done|intros b x _ Hs; by apply (Hown b x)| |].
  { intros b _ Hb. by apply owned_depth. }
  exists c', n. split; [done|]. split; [|split; [|done]].
  - intros b Hb. apply Hk; [apply prefix_nil|]. destruct Hb as [->|Hb]; [by left|by right].
  - intros b Hne Hl. apply Hd; [apply prefix_nil|]. intros [[_ ?]|?]; done.
Qed.

(** What a round leaves: of each object what has not expired. *)
Record swept c c' : Prop := {
  sw_some b o : c' !! b = Some o → ∃ o0, c !! b = Some o0 ∧ o = prune o0 ∧ (b = [] ∨ live c b);
  sw_keep b : b = [] ∨ live c b → c' !! b = prune <$> c !! b }.

Lemma swept_owned c c' : owned c → swept c c' → owned c'.
Proof.
  intros Hown Hs a x [o Ho]. destruct (sw_some _ _ Hs _ _ Ho) as (o0 & Ho0 & _ & [?|Hl]); [by destruct a|].
  destruct (Hown a x) as (oa & Hoa & Hob); [by eexists|]. exists (prune oa). rewrite (sw_keep _ _ Hs), Hoa; [done|]. right.
  apply (live_up _ _ (a ++ [x])); [by eexists|done].
Qed.

Lemma cleanup_swept c :
  is_Some (c !! []) → owned c → ∃ c' n, _ostc_cleanup (S (size c)) c [] expired = Some (c', n) ∧ swept c c' ∧ counted (live c []) n.
Proof.
  intros Hr Hown. destruct (cleanup_root c Hr Hown) as (c' & n & E & Hk & Hd & Hn). exists c', n. split; [done|]. split; [|done]. split; [|done].
  intros b o Ho. assert (b = [] ∨ live c b) as Hb.
  { destruct (decide (b = [])); [by left|]. destruct (decide (live c b)); [by right|]. by rewrite Hd in Ho. }
  rewrite Hk in Ho by done. apply fmap_Some in Ho as (o0 & ? & ->). by exists o0.
Qed.

Lemma keep_lookup o k x : keep_attrs o expired !! k = Some x ↔ ob_attrs o !! k = Some x ∧ expired ≤ at_expire x.
Proof. unfold keep_attrs. rewrite map_lookup_filter_Some. simpl. split; intros [? ?]; (split; [done|lia]). Qed.

Lemma swept_attr c c' a k x : swept c c' → get_attr c' a k = Some x ↔ get_attr c a k = Some x ∧ expired ≤ at_expire x.
Proof.
  intros Hs. unfold get_attr. split.
  - intros Hx. apply bind_Some in Hx as (o & Ho & Hx). destruct (sw_some _ _ Hs _ _ Ho) as (o0 & -> & -> & _). by apply keep_lookup.
  - intros [Hx He]. apply bind_Some in Hx as (o & Ho & Hx). assert (keep_attrs o expired !! k = Some x) as Hk by (by apply keep_lookup).
    rewrite (sw_keep _ _ Hs), Ho; [done|]. right. exists a, o. split; [done|]. split; [done|]. intros E. by rewrite E, lookup_empty in Hk.
Qed.

Lemma live_attr c c' a : swept c c' → live c a → ∃ b k x, a `prefix_of` b ∧ get_attr c' b k = Some x.
Proof.
  intros Hs (b & o & Hp & Ho & Hk). destruct (map_choose _ Hk) as (k & x & [Hx He]%keep_lookup). exists b, k, x. split; [done|].
  apply (swept_attr c); [done|]. unfold get_attr. by rewrite Ho.
Qed.

(** C9: A round of cleaning returns; of the attributes that are cached it keeps exactly those that have not expired, and every object it leaves but the root has one at or below it. *)
Theorem ostc_cleanup_correct c :
  is_Some (c !! []) → owned c →
  ∃ c' n, _ostc_cleanup (S (size c)) c [] expired = Some (c', n) ∧ owned c' ∧
    (∀ a k x, get_attr c' a k = Some x ↔ get_attr c a k = Some x ∧ expired ≤ at_expire x) ∧
    (∀ a, a ≠ [] → is_Some (c' !! a) → ∃ b k x, a `prefix_of` b ∧ get_attr c' b k = Some x) ∧
    (n = 0%nat ↔ ∀ a k, get_attr c' a k = None).
Proof.
  intros Hr Hown. destruct (cleanup_swept c Hr Hown) as (c' & n & E & Hs & Hn0 & Hn1). exists c', n. split; [done|].
  split; [by eapply swept_owned|]. split; [intros a k x; by apply swept_attr|]. split.
  - intros a Hne [o Ho]. destruct (sw_some _ _ Hs _ _ Ho) as (_ & _ & _ & [?|Hl]); [done|]. by apply (live_attr c).
  - split.
    + intros Hz a k. destruct (get_attr c' a k) as [x|] eqn:Hx; [|done]. exfalso. apply (Hn0 Hz). apply (swept_attr c) in Hx as [Hx He]; [|done].
      unfold get_attr in Hx. apply bind_Some in Hx as (o & Ho & Hx). exists a, o. split; [apply prefix_nil|]. split; [done|]. intros Ee.
      assert (keep_attrs o expired !! k = Some x) as Hk by (by apply keep_lookup). by rewrite Ee, lookup_empty in Hk.
    + intros Hall. destruct (decide (n = 0%nat)) as [|Hn]; [done|]. destruct (live_attr c c' [] Hs (Hn1 Hn)) as (b & k & x & _ & Hx). by rewrite Hall in Hx.
Qed.
End clean.
