(* ===== verification/OsTcacheRun.v ===== *)
(** * The time cache object service: requests

    The object service as its clients see it (lio_core_os.c), the time cache and
    the service it wraps as two of them, and that they answer the same. *)
From S2P Require Import Prelude Inip Path OsGlob OsTcache OsTcacheOps OsTcacheOk OsTcacheGet OsTcacheClean.
From stdpp Require Import gmap strings.
#[local] Open Scope Z_scope.

(** The function table of an object service: [S] is its state and [F] are its
    handles. *)
Class OsService (S F : Type) := {
  svc_open : S → string → Z → option (option F * op_status);
  svc_close : S → F → op_status;
  svc_get : S → F → list string → list slot → option (S * F * list slot * op_status);
  svc_set : S → F → list string → list slot → option (S * F * op_status);
  svc_copy : S → F → F → list string → list string → option (S * F * F * op_status);
  svc_create : S → string → Z → option (S * op_status);
  svc_remove : S → string → option (S * op_status) }.

(** ** Clients *)
Section client.
Context {S F : Type} `{!OsService S F, !Gop}.
Implicit Types (st : S).

(** [err] of the source: the state of the close, or a failure. *)
Definition close_result (st : S) (fd : F) (serr : op_status) : op_state :=
  if succeeded serr then op_st (svc_close st fd) else OP_STATE_FAILURE.

Definition lio_get_multiple_attrs st (path : string) (keys : list string) (vals : list slot) : option (S * list slot * op_state) :=
  '(fd, status) ← svc_open st path OS_MODE_READ_IMMEDIATE;
  if negb (succeeded status) then Some (st, vals, op_st status)
  else fd ← fd; '(st, fd, vals, serr) ← svc_get st fd keys vals; Some (st, vals, close_result st fd serr).

Definition lio_set_attr_real st (path : string) (key : string) (val : slot) : option (S * op_state) :=
  '(fd, status) ← svc_open st path OS_MODE_READ_IMMEDIATE;
  if negb (succeeded status) then Some (st, op_st status)
  else fd ← fd; '(st, fd, serr) ← svc_set st fd [key] [val]; Some (st, close_result st fd serr).

(** A second try after an error. *)
Definition lio_set_attr st (path : string) (key : string) (val : slot) : option (S * op_state) :=
  '(st, err) ← lio_set_attr_real st path key val;
  if decide (err = OP_STATE_SUCCESS) then Some (st, err) else lio_set_attr_real st path key val.

(** Both objects are opened for a copy. *)
Definition copy_attr st (src : string) (key : string) (dest : string) (key_dest : string) : option (S * op_state) :=
  '(fd, status) ← svc_open st src OS_MODE_READ_IMMEDIATE;
  if negb (succeeded status) then Some (st, op_st status)
  else
    fd ← fd; '(fd_dest, status) ← svc_open st dest OS_MODE_READ_IMMEDIATE;
    if negb (succeeded status) then Some (st, op_st status)
    else fd_dest ← fd_dest; '(st, _, _, serr) ← svc_copy st fd fd_dest [key] [key_dest]; Some (st, op_st serr).

Inductive os_req :=
| Req_get (path : string) (keys : list string) (vals : list slot)
| Req_set (path key value : string)
| Req_copy (src key dest key_dest : string)
| Req_create (path : string) (type : Z)
| Req_remove (path : string).

Definition os_serve st (r : os_req) : option (S * list slot * op_state) :=
  match r with
  | Req_get path keys vals => lio_get_multiple_attrs st path keys vals
  | Req_set path key v => '(st, err) ← lio_set_attr st path key (Some v, Z.of_nat (String.length v)); Some (st, [], err)
  | Req_copy src key dest key_dest => '(st, err) ← copy_attr st src key dest key_dest; Some (st, [], err)
  | Req_create path type => '(st, status) ← svc_create st path type; Some (st, [], op_st status)
  | Req_remove path => '(st, status) ← svc_remove st path; Some (st, [], op_st status)
  end.
End client.

(** ** The two services *)
Section services.
Context {C : Type} `{!ObjectService C, !Gop, !DupStack}.

Definition child_service : OsService C string :=
  {| svc_open c path mode := let status := os_open_object c path mode in Some (if failed status then None else Some path, status);
     svc_close := os_close_object;
     svc_get c fd keys vals := let '(vals, status) := os_get_multiple_attrs c fd keys vals in Some (c, fd, vals, status);
     svc_set c fd keys vals := let '(c, status) := os_set_multiple_attrs c fd keys vals in Some (c, fd, status);
     svc_copy c fd fd_dest keys keys_dest := let '(c, status) := os_copy_multiple_attrs c fd keys fd_dest keys_dest in Some (c, fd, fd_dest, status);
     svc_create c path type := Some (os_create_object c path type);
     svc_remove c path := Some (os_remove_object c path) |}.

Definition ostc_service (entry_timeout now : Z) (fuel : nat) : OsService (ostc_priv C) ostc_fd :=
  {| svc_open := ostc_open_object entry_timeout now;
     svc_close := ostc_close_object;
     svc_get := ostc_get_attrs entry_timeout now fuel;
     svc_set := ostc_set_attrs entry_timeout now fuel;
     svc_copy := ostc_copy_attrs entry_timeout now;
     svc_create st path type := Some (ostc_create_object st path type);
     svc_remove := ostc_remove_object entry_timeout now |}.

(** A request at its time, or a round of the thread that cleans up. *)
Definition event : Type := Z * option os_req.

Fixpoint child_serves (c : C) (es : list event) : option (C * list (list slot * op_state)) :=
  match es with
  | [] => Some (c, [])
  | (_, None) :: es => child_serves c es
  | (_, Some r) :: es =>
      '(c, vals, err) ← os_serve (OsService0 := child_service) c r;
      '(c, l) ← child_serves c es; Some (c, (vals, err) :: l)
  end.

Fixpoint ostc_serves (entry_timeout : Z) (fuel : nat) (st : ostc_priv C) (es : list event) : option (ostc_priv C * list (list slot * op_state)) :=
  match es with
  | [] => Some (st, [])
  | (now, None) :: es => st ← ostc_compact now st; ostc_serves entry_timeout fuel st es
  | (now, Some r) :: es =>
      '(st, vals, err) ← os_serve (OsService0 := ostc_service entry_timeout now fuel) st r;
      '(st, l) ← ostc_serves entry_timeout fuel st es; Some (st, (vals, err) :: l)
  end.
End services.

(** ** The time cache answers as the service it wraps *)
Section same.
Context {C : Type} `{!ObjectService C, !ObjectServiceView C, !ObjectServiceOk C, !Gop, !GopOk, !DupStack}.
Context (entry_timeout : Z) (fuel : nat).
Implicit Types (c : ostc_cache) (s : C) (st : ostc_priv C).

Definition os_req_ok s (r : os_req) : Prop :=
  match r with
  | Req_get path keys vals => clean path ∧ Forall os_plain keys ∧ Forall2 (λ k v, asks v (os_attr s (tokens path) k)) keys vals
  | Req_set path key _ => clean path ∧ os_plain key
  | Req_copy src _ dest key_dest => clean src ∧ clean dest ∧ os_plain key_dest
  | Req_create path _ | Req_remove path => clean path
  end.

(** Every request fits the store it meets. *)
Fixpoint events_ok s (es : list event) : Prop :=
  match es with
  | [] => True
  | (_, None) :: es => events_ok s es
  | (_, Some r) :: es =>
      os_req_ok s r ∧ match os_serve (OsService0 := child_service) s r with Some (s, _, _) => events_ok s es | None => True end
  end.

Lemma put_del c a k x : put_attr (del_attr c a k) a k x = put_attr c a k x.
Proof.
  apply map_eq. intros b. unfold put_attr, del_attr. destruct (decide (a = b)) as [->|Hne].
  - rewrite !lookup_alter_eq. destruct (c !! b) as [o|]; [|done]. cbn. unfold set_attrs. cbn. by rewrite insert_delete_eq.
  - by rewrite !lookup_alter_ne.
Qed.

Lemma get_del c a k b k' : get_attr (del_attr c a k) b k' = if decide (b = a ∧ k' = k) then None else get_attr c b k'.
Proof.
  unfold get_attr, del_attr. destruct (decide (b = a)) as [->|Hne].
  - rewrite lookup_alter_eq. destruct (c !! a) as [o|]; cbn; [|by destruct (decide _)].
    destruct (decide (k' = k)) as [->|Hk]; [rewrite lookup_delete_eq, decide_True by done; done|].
    rewrite lookup_delete_ne, decide_False by (done || tauto). done.
  - rewrite lookup_alter_ne, decide_False by (done || tauto). done.
Qed.

Lemma coh_del s c a k : coh s c → coh s (del_attr c a k).
Proof.
  intros Hc. unfold del_attr. apply (coh_sub s c); [done| | |].
  - destruct (co_root _ _ Hc) as (o & Ho & Hd). destruct (decide (a = [])) as [->|Hne].
    + eexists. split; [by rewrite lookup_alter_eq, Ho|done].
    + exists o. by rewrite lookup_alter_ne.
  - intros b y Hb. apply lookup_alter_is_Some. apply lookup_alter_is_Some in Hb. by apply (co_closed _ _ Hc b y).
  - intros b o Ho. destruct (decide (a = b)) as [->|Hne].
    + rewrite lookup_alter_eq in Ho. apply fmap_Some in Ho as (o0 & Ho0 & ->). split; [by apply (co_object _ _ Hc b o0)|].
      exists o0. split; [done|]. split; [done|]. cbn. intros k' x Hx. by apply lookup_delete_Some in Hx as [_ ?].
    + rewrite lookup_alter_ne in Ho by done. split; [by apply (co_object _ _ Hc b o)|]. by exists o.
Qed.

(** One attribute of the service changed, and the cache forgot it. *)
Lemma coh_forget s s' c p k : coh s c → os_same (λ q k', q = p ∧ k' = k) s s' → coh s' (del_attr c p k).
Proof.
  intros Hc Hs. eapply coh_same; [by apply coh_del|done|]. intros a k' x [-> ->]. rewrite get_del, decide_True by done. done.
Qed.

(** It was not cached. *)
Lemma coh_absent s s' c p k : coh s c → os_same (λ q k', q = p ∧ k' = k) s s' → get_attr c p k = None → coh s' c.
Proof. intros Hc Hs Hn. eapply coh_same; [done|done|]. intros a k' x [-> ->] Hx. congruence. Qed.

Lemma coh_unchanged s s' c : coh s c → os_same (λ _ _, False) s s' → coh s' c.
Proof. intros Hc Hs. by eapply coh_same. Qed.

Lemma not_chain s c p : coh s c → ¬ chain c [] p → c !! p = None.
Proof. intros Hc Hn. destruct (c !! p) eqn:E; [|done]. destruct Hn. apply (coh_chain s c p Hc). by eexists. Qed.

Lemma update_attrs_ok now s s' c fname k v :
  coh s c → clean fname → os_plain k → os_same (λ q k', q = tokens fname ∧ k' = k) s s' → os_attr s' (tokens fname) k = Some v →
  ∃ c', ostc_cache_update_attrs entry_timeout now fuel c fname [k] [(Some v, Z.of_nat (String.length v))] = Some c' ∧ coh s' c'.
Proof.
  intros Hc Hcl Hk Hs Hv. unfold ostc_cache_update_attrs. set (p := tokens fname) in *.
  destruct (walk_to_spec entry_timeout now c fname (coh_no_links _ _ Hc) (coh_root _ _ Hc) Hcl) as [[Hch (stk & -> & _)]|[Hnc ->]]; cbn [mbind option_bind].
  - fold p in Hch |- *. cbn. destruct (chain_end c p (coh_root _ _ Hc) Hch) as [o Ho]. destruct (get_attr c p k) as [x|] eqn:Hx.
    + assert (at_link x = None) as Hxl. { unfold get_attr in Hx. rewrite Ho in Hx. by apply (co_attr _ _ Hc p o k). }
      cbn. rewrite Hxl. cbn. rewrite Hx. cbn [mbind option_bind]. rewrite copy_val_full. cbn. eexists. split; [done|].
      rewrite <- put_del. apply coh_put; [by apply (coh_forget s)|done| |].
      * done.
      * cbn. by rewrite Hv.
    + eexists. split; [done|]. by apply (coh_absent s s' c p k).
  - eexists. split; [done|]. apply (coh_absent s s' c p k); [done|done|]. unfold get_attr. by rewrite (not_chain s c p).
Qed.

Lemma remove_attrs_ok now s s' c fname k :
  coh s c → clean fname → os_same (λ q k', q = tokens fname ∧ k' = k) s s' →
  ∃ c', ostc_cache_remove_attrs entry_timeout now c fname [k] = Some c' ∧ coh s' c'.
Proof.
  intros Hc Hcl Hs. unfold ostc_cache_remove_attrs.
  destruct (walk_to_spec entry_timeout now c fname (coh_no_links _ _ Hc) (coh_root _ _ Hc) Hcl) as [[Hch (stk & -> & _)]|[Hnc ->]]; cbn.
  - eexists. split; [done|]. by apply (coh_forget s).
  - eexists. split; [done|]. apply (coh_absent s s' c (tokens fname) k); [done|done|]. unfold get_attr. by rewrite (not_chain s c).
Qed.

Lemma coh_owned s c : coh s c → owned c.
Proof.
  intros Hc a x Ha. destruct (co_closed _ _ Hc a x Ha) as [o Ho]. exists o. split; [done|]. destruct Ha as [o' Ho'].
  destruct (co_object _ _ Hc _ _ Ho') as (_ & [t Ht] & _). destruct (os_type_parent s a x t Ht) as (t' & Ht' & Hd).
  destruct (co_object _ _ Hc _ _ Ho) as (_ & _ & Hob). by apply (Hob t').
Qed.

Lemma coh_remove s s' c p :
  coh s c → p ≠ [] → (∀ q, ¬ p `prefix_of` q → os_type s' q = os_type s q ∧ ∀ k, os_plain k → os_attr s' q k = os_attr s q k) → coh s' (free_below c p).
Proof.
  intros Hc Hp Hs. assert (∀ b o, free_below c p !! b = Some o → c !! b = Some o ∧ ¬ p `prefix_of` b) as Hf by (intros b o Hb; by apply map_lookup_filter_Some in Hb).
  split.
  - destruct (co_root _ _ Hc) as (o & Ho & Hd). exists o. split; [|done]. apply map_lookup_filter_Some. split; [done|]. simpl. by intros ->%prefix_nil_inv.
  - intros a x [o Ho]. apply Hf in Ho as [Ho Hn]. destruct (co_closed _ _ Hc a x) as [o' Ho']; [by eexists|]. exists o'. apply map_lookup_filter_Some.
    split; [done|]. simpl. intros Hpa. apply Hn. by apply prefix_app_r.
  - intros b o Ho. apply Hf in Ho as [Ho Hn]. destruct (Hs b Hn) as [-> _]. by apply (co_object _ _ Hc).
  - intros b o k x Ho Hx. apply Hf in Ho as [Ho Hn]. destruct (co_attr _ _ Hc b o k x Ho Hx) as (Hk & Hl & Hv). destruct (Hs b Hn) as [_ Ha]. by rewrite Ha.
Qed.

Lemma remove_object_ok now s s' c path :
  coh s c → clean path → tokens path ≠ [] →
  (∀ q, ¬ tokens path `prefix_of` q → os_type s' q = os_type s q ∧ ∀ k, os_plain k → os_attr s' q k = os_attr s q k) →
  ∃ c', ostc_cache_remove_object entry_timeout now c path = Some c' ∧ coh s' c'.
Proof.
  intros Hc Hcl Hp Hs. unfold ostc_cache_remove_object.
  destruct (walk_to_spec entry_timeout now c path (coh_no_links _ _ Hc) (coh_root _ _ Hc) Hcl) as [[Hch (stk & -> & Hst)]|[Hnc ->]]; cbn.
  - rewrite (Hst Hp). cbn. rewrite decide_False by tauto. eexists. split; [done|]. by apply (coh_remove s).
  - eexists. split; [done|]. replace c with (free_below c (tokens path)); [by apply (coh_remove s)|]. apply map_filter_id. intros b o Ho Hb. apply Hnc.
    apply (coh_chain s c _ Hc). apply (owned_up c [] _ b); [intros d x _ Hd; by apply (coh_owned s c Hc d x)|apply prefix_nil|done|by eexists].
Qed.

Lemma compact_ok now st : coh (tc_child st) (tc_cache st) → ∃ c', ostc_compact now st = Some (set_cache st c') ∧ coh (tc_child st) c'.
Proof.
  intros Hc. unfold ostc_compact. set (c := tc_cache st) in *.
  destruct (cleanup_swept now c (coh_root _ _ Hc) (coh_owned _ _ Hc)) as (c' & n & -> & Hs & _). cbn [mbind option_bind]. exists c'. split; [done|].
  apply (coh_sub (tc_child st) c); [done| | |].
  - destruct (co_root _ _ Hc) as (o & Ho & Hob). exists (prune now o). rewrite (sw_keep _ _ _ Hs), Ho by (by left). done.
  - intros a x Ha. destruct (swept_owned now c c' (coh_owned _ _ Hc) Hs a x Ha) as (o & Ho & _). by eexists.
  - intros b o Ho. destruct (sw_some _ _ _ Hs _ _ Ho) as (o0 & Ho0 & -> & _). split; [by apply (co_object _ _ Hc b o0)|]. exists o0. split; [done|]. split; [done|].
    intros k x Hx. by apply keep_lookup in Hx as [? _].
Qed.

(** ** Requests *)
(** The walk of an open that may be delayed. *)
Lemma open_walk now st path :
  coh (tc_child st) (tc_cache st) → clean path →
  ∃ err, ostc_open_object entry_timeout now st path OS_MODE_READ_IMMEDIATE =
    (if decide (err = 0) then Some (Some (Ostc_fd path OS_MODE_READ_IMMEDIATE false), op_success_status)
     else let status := os_open_object (tc_child st) path OS_MODE_READ_IMMEDIATE in
       if failed status then Some (None, status) else Some (Some (Ostc_fd path OS_MODE_READ_IMMEDIATE true), op_success_status)) ∧
    (err = 0 → is_Some (os_type (tc_child st) (tokens path))).
Proof.
  intros Hc Hcl. unfold ostc_open_object. rewrite decide_True by done.
  destruct (tree_walk_walked entry_timeout now (tc_cache st) path 0 (coh_no_links _ _ Hc) (coh_root _ _ Hc) Hcl) as
    [stk Hch _|pre tok rest tr Hsp Hpre Htk Hre Ht2 Hne Hts Hch Hn' _|]; [| |lia]; cbn [mbind option_bind].
  - exists 0. split; [done|]. intros _. by apply (coh_exists _ (tc_cache st)).
  - eexists. split; [done|]. subst path. destruct Hcl as [Hs _]. destruct (pre_nonempty pre tok rest Hpre Hne Hts Hs) as [Hlen _]. lia.
Qed.

Lemma open_ok now st path :
  coh (tc_child st) (tc_cache st) → clean path → is_Some (os_type (tc_child st) (tokens path)) →
  ∃ fd status, ostc_open_object entry_timeout now st path OS_MODE_READ_IMMEDIATE = Some (Some fd, status) ∧ succeeded status = true ∧ fd_fname fd = path.
Proof.
  intros Hc Hcl Hex. destruct (open_walk now st path Hc Hcl) as (err & -> & _). unfold succeeded, failed.
  case_decide; [|apply (os_open_ok _ _ OS_MODE_READ_IMMEDIATE Hcl) in Hex; cbv zeta; rewrite Hex; cbn]; eexists _, _; split; try done; by rewrite op_success_state.
Qed.

Lemma open_fails now st path :
  coh (tc_child st) (tc_cache st) → clean path → os_type (tc_child st) (tokens path) = None →
  ∃ status, ostc_open_object entry_timeout now st path OS_MODE_READ_IMMEDIATE = Some (None, status) ∧ op_st status = OP_STATE_FAILURE ∧
    op_st (os_open_object (tc_child st) path OS_MODE_READ_IMMEDIATE) = OP_STATE_FAILURE.
Proof.
  intros Hc Hcl Hn. destruct (open_walk now st path Hc Hcl) as (err & -> & Hex).
  assert (op_st (os_open_object (tc_child st) path OS_MODE_READ_IMMEDIATE) = OP_STATE_FAILURE) as Hf.
  { destruct (op_st _) eqn:E; [|done]. apply os_open_ok in E; [|done]. rewrite Hn in E. by destruct E. }
  case_decide as He; [specialize (Hex He); rewrite Hn in Hex; by destruct Hex|]. cbv zeta. unfold failed. rewrite Hf. cbn. by eexists.
Qed.

Lemma not_succeeded status : op_st status = OP_STATE_FAILURE → succeeded status = false.
Proof. unfold succeeded. intros ->. by apply bool_decide_eq_false. Qed.

(** What the direct open says. *)
Lemma child_open s path : clean path → succeeded (os_open_object s path OS_MODE_READ_IMMEDIATE) = bool_decide (is_Some (os_type s (tokens path))).
Proof. intros Hcl. unfold succeeded. apply bool_decide_ext. by apply os_open_ok. Qed.

Lemma child_open_fd s path : succeeded (os_open_object s path OS_MODE_READ_IMMEDIATE) = true → failed (os_open_object s path OS_MODE_READ_IMMEDIATE) = false.
Proof. unfold succeeded, failed. intros Hs%bool_decide_eq_true. by rewrite Hs. Qed.

(** An object that is there is opened by both, one that is not by neither. *)
Lemma opened now st path :
  coh (tc_child st) (tc_cache st) → clean path →
  (is_Some (os_type (tc_child st) (tokens path)) ∧ succeeded (os_open_object (tc_child st) path OS_MODE_READ_IMMEDIATE) = true ∧
     failed (os_open_object (tc_child st) path OS_MODE_READ_IMMEDIATE) = false ∧
     ∃ fd status, ostc_open_object entry_timeout now st path OS_MODE_READ_IMMEDIATE = Some (Some fd, status) ∧ succeeded status = true ∧ fd_fname fd = path) ∨
  (succeeded (os_open_object (tc_child st) path OS_MODE_READ_IMMEDIATE) = false ∧ op_st (os_open_object (tc_child st) path OS_MODE_READ_IMMEDIATE) = OP_STATE_FAILURE ∧
     ∃ fd status, ostc_open_object entry_timeout now st path OS_MODE_READ_IMMEDIATE = Some (fd, status) ∧ succeeded status = false ∧ op_st status = OP_STATE_FAILURE).
Proof.
  intros Hc Hcl. destruct (os_type (tc_child st) (tokens path)) as [t|] eqn:Ht; [left|right].
  - assert (is_Some (os_type (tc_child st) (tokens path))) as Hex by (by eexists). split; [by eexists|].
    assert (succeeded (os_open_object (tc_child st) path OS_MODE_READ_IMMEDIATE) = true) as Hso by (rewrite child_open by done; by apply bool_decide_eq_true).
    split; [done|]. split; [by apply child_open_fd|]. by apply open_ok.
  - destruct (open_fails now st path Hc Hcl Ht) as (status & E & Hst & Hso). split; [by apply not_succeeded|]. split; [done|].
    exists None, status. split; [done|]. split; [by apply not_succeeded|done].
Qed.

(** The same answer of both, and the cache follows. *)
Definition agree (r : option (C * list slot * op_state)) (r' : option (ostc_priv C * list slot * op_state)) : Prop :=
  ∃ s vals vals' err c, r = Some (s, vals, err) ∧ r' = Some (Ostc_priv s c, vals', err) ∧ coh s c ∧ Forall2 slot_eq vals vals'.

Lemma slot_eq_refl l : Forall2 slot_eq l l.
Proof. induction l; constructor; done. Qed.

Lemma agree_failed st vals status status' :
  coh (tc_child st) (tc_cache st) → op_st status = op_st status' → agree (Some (tc_child st, vals, op_st status)) (Some (st, vals, op_st status')).
Proof. intros Hc ->. destruct st as [s c]. exists s, vals, vals, (op_st status'), c. split; [done|]. split; [done|]. split; [done|apply slot_eq_refl]. Qed.

(** The answer without the cache. *)
Lemma child_get_ok s path keys vals :
  clean path → is_Some (os_type s (tokens path)) → Forall os_plain keys → Forall2 (λ k v, asks v (os_attr s (tokens path) k)) keys vals →
  let '(got, status) := os_get_multiple_attrs s path keys vals in
  succeeded status = true ∧ Forall2 (λ v k, slot_is v (os_attr s (tokens path) k)) got keys.
Proof.
  intros Hcl Hex Hpk Has. destruct (os_get_ok s path keys vals Hcl Hex) as [Hst Hl]; [symmetry; by eapply Forall2_length|].
  pose proof (λ i k v g, os_get_plain s path keys vals i k v g Hcl Hex) as Hp. destruct (os_get_multiple_attrs s path keys vals) as [got status]. cbn [fst snd] in *.
  split; [by apply bool_decide_eq_true|]. apply Forall2_same_length_lookup_2; [done|]. intros i v k Hv Hk.
  destruct (Forall2_lookup_l _ _ _ i k Has Hk) as (w & Hw & Hasw). apply (Hp i k w v); try done. by apply (Forall_lookup_1 _ _ _ _ Hpk Hk).
Qed.

Lemma slots_eq (P : string → option string) vs ws keys :
  Forall2 (λ v k, slot_is v (P k)) vs keys → Forall2 (λ v k, slot_is v (P k)) ws keys → Forall2 slot_eq vs ws.
Proof.
  intros Hv. revert ws. induction Hv as [|v k vs keys Hv Hvs IH]; intros ws Hw; inversion Hw; subst; constructor; [|by apply IH].
  by eapply slot_is_eq.
Qed.

Lemma close_result_ok now st fd s path serr serr' :
  succeeded serr = succeeded serr' →
  close_result (OsService0 := child_service) s path serr = close_result (OsService0 := ostc_service entry_timeout now fuel) st fd serr'.
Proof.
  unfold close_result. intros ->. destruct (succeeded serr'); [|done]. cbn. unfold ostc_close_object. rewrite os_close_ok.
  destruct (fd_open fd); [by rewrite os_close_ok|by rewrite op_success_state].
Qed.

Lemma get_same now st path keys vals :
  coh (tc_child st) (tc_cache st) → os_req_ok (tc_child st) (Req_get path keys vals) →
  agree (lio_get_multiple_attrs (OsService0 := child_service) (tc_child st) path keys vals)
    (lio_get_multiple_attrs (OsService0 := ostc_service entry_timeout now fuel) st path keys vals).
Proof.
  intros Hc (Hcl & Hpk & Has). unfold lio_get_multiple_attrs. cbn [svc_open child_service ostc_service mbind option_bind].
  destruct (opened now st path Hc Hcl) as [(Hex & E1 & E2 & fd & status & E3 & E4 & <-)|(E1 & E2 & fd & status & E3 & E4 & E5)];
    rewrite E1, E3; cbn [mbind option_bind]; rewrite E4; cbn [negb].
  2: { apply agree_failed; [done|congruence]. }
  rewrite E2. cbn [mbind option_bind svc_get child_service ostc_service].
    destruct (get_attrs_ok entry_timeout now fuel st fd keys vals Hc Hcl Hex Hpk Has) as (c & fd' & vs & status' & -> & Hst' & Hc' & _ & Hvs). cbn [mbind option_bind].
    pose proof (child_get_ok (tc_child st) (fd_fname fd) keys vals Hcl Hex Hpk Has) as Hg. destruct (os_get_multiple_attrs _ _ _ _) as [got gstatus].
    destruct Hg as [Hgs Hgot]. cbn [mbind option_bind].
    rewrite (close_result_ok now (set_cache st c) fd' _ _ _ status') by (rewrite Hgs; symmetry; by apply bool_decide_eq_true).
    eexists _, _, _, _, _. split; [done|]. split; [done|]. split; [done|]. by eapply slots_eq.
Qed.

(** Setting an attribute. *)
Lemma set_same_real now st path key v :
  coh (tc_child st) (tc_cache st) → clean path → os_plain key →
  ∃ s c err, lio_set_attr_real (OsService0 := child_service) (tc_child st) path key (Some v, Z.of_nat (String.length v)) = Some (s, err) ∧
    lio_set_attr_real (OsService0 := ostc_service entry_timeout now fuel) st path key (Some v, Z.of_nat (String.length v)) = Some (Ostc_priv s c, err) ∧ coh s c.
Proof.
  intros Hc Hcl Hk. unfold lio_set_attr_real. cbn [svc_open child_service ostc_service mbind option_bind].
  destruct (opened now st path Hc Hcl) as [(Hex & E1 & E2 & fd & status & E3 & E4 & <-)|(E1 & E2 & fd & status & E3 & E4 & E5)];
    rewrite E1, E3; cbn [mbind option_bind]; rewrite E4; cbn [negb].
  2: { rewrite E2, E5. destruct st as [s c]. by exists s, c, OP_STATE_FAILURE. }
  rewrite E2. cbn [mbind option_bind svc_set child_service ostc_service]. unfold ostc_set_attrs.
    destruct (child_fd_ok st fd Hcl Hex) as (fd' & status' & -> & -> & ->).
    pose proof (λ s' status0, os_set_ok (tc_child st) s' (fd_fname fd) key v status0 Hcl Hk Hex) as Hset.
    destruct (os_set_multiple_attrs _ _ _ _) as [s serr]. specialize (Hset s serr eq_refl). cbn [mbind option_bind].
    destruct (decide (op_st serr = OP_STATE_SUCCESS)) as [Hs|Hs].
    + destruct Hset as [Hsame Hv]. assert (succeeded serr = true) as Hss by (by apply bool_decide_eq_true). rewrite Hss. cbn [negb].
      destruct (update_attrs_ok now (tc_child st) s (tc_cache st) (fd_fname fd) key v Hc Hcl Hk Hsame Hv) as (c & Hu & Hc').
      cbn [set_child tc_cache]. rewrite Hu. cbn [mbind option_bind]. eexists s, c, _. split; [done|]. split; [|done].
      by rewrite (close_result_ok now (set_cache (set_child st s) c) fd' s (fd_fname fd) serr serr).
    + assert (succeeded serr = false) as Hss by (by apply bool_decide_eq_false). rewrite Hss. cbn [negb mbind option_bind].
      eexists s, (tc_cache st), _. split; [done|]. split; [|by apply (coh_unchanged (tc_child st))].
      by rewrite (close_result_ok now (set_child st s) fd' s (fd_fname fd) serr serr).
Qed.

Lemma set_same now st path key v :
  coh (tc_child st) (tc_cache st) → clean path → os_plain key →
  ∃ s c err, lio_set_attr (OsService0 := child_service) (tc_child st) path key (Some v, Z.of_nat (String.length v)) = Some (s, err) ∧
    lio_set_attr (OsService0 := ostc_service entry_timeout now fuel) st path key (Some v, Z.of_nat (String.length v)) = Some (Ostc_priv s c, err) ∧ coh s c.
Proof.
  intros Hc Hcl Hk. unfold lio_set_attr. destruct (set_same_real now st path key v Hc Hcl Hk) as (s & c & err & -> & -> & Hc'). cbn [mbind option_bind].
  destruct (decide (err = OP_STATE_SUCCESS)); [by exists s, c, err|]. by apply (set_same_real now (Ostc_priv s c)).
Qed.

Lemma copy_same now st src key dest key_dest :
  coh (tc_child st) (tc_cache st) → clean src → clean dest → os_plain key_dest →
  ∃ s c err, copy_attr (OsService0 := child_service) (tc_child st) src key dest key_dest = Some (s, err) ∧
    copy_attr (OsService0 := ostc_service entry_timeout now fuel) st src key dest key_dest = Some (Ostc_priv s c, err) ∧ coh s c.
Proof.
  intros Hc Hs Hd Hk. unfold copy_attr. cbn [svc_open child_service ostc_service mbind option_bind].
  destruct (opened now st src Hc Hs) as [(Hex & E1 & E2 & fd & status & E3 & E4 & Hfd)|(E1 & E2 & fd & status & E3 & E4 & E5)];
    rewrite E1, E3; cbn [mbind option_bind]; rewrite E4; cbn [negb].
  2: { rewrite E2, E5. destruct st as [s c]. by exists s, c, OP_STATE_FAILURE. }
  rewrite E2. cbn [mbind option_bind].
  destruct (opened now st dest Hc Hd) as [(Hexd & F1 & F2 & fdd & statusd & F3 & F4 & Hfdd)|(F1 & F2 & fdd & statusd & F3 & F4 & F5)];
    rewrite F1, F3; cbn [mbind option_bind]; rewrite F4; cbn [negb].
  2: { rewrite F2, F5. destruct st as [s c]. by exists s, c, OP_STATE_FAILURE. }
  rewrite F2. cbn [mbind option_bind].
  subst src dest. cbn [svc_copy child_service ostc_service]. unfold ostc_copy_attrs.
  destruct (child_fd_ok st fd Hs Hex) as (fd1 & st1 & -> & -> & ->). destruct (child_fd_ok st fdd Hd Hexd) as (fd2 & st2 & -> & -> & ->).
  pose proof (λ s' status0, os_copy_ok (tc_child st) s' (fd_fname fd) key (fd_fname fdd) key_dest status0 Hs Hd Hk) as Hcopy.
  destruct (os_copy_multiple_attrs _ _ _ _ _) as [s serr]. specialize (Hcopy s serr eq_refl). cbn [mbind option_bind].
  unfold failed. destruct (decide (op_st serr = OP_STATE_FAILURE)) as [Hf|Hf].
  - rewrite bool_decide_eq_true_2 by done. cbn [mbind option_bind]. exists s, (tc_cache st), (op_st serr). split; [done|]. split; [done|]. by apply (coh_unchanged (tc_child st)).
  - rewrite bool_decide_eq_false_2 by done.
    destruct (remove_attrs_ok now (tc_child st) s (tc_cache st) (fd_fname fdd) key_dest Hc Hd Hcopy) as (c & Hr & Hc'). cbn [set_child tc_cache]. rewrite Hr. cbn [mbind option_bind].
    by exists s, c, (op_st serr).
Qed.

Lemma coh_create s s' c :
  coh s c → (∀ q, is_Some (os_type s q) → os_type s' q = os_type s q ∧ ∀ k, os_plain k → os_attr s' q k = os_attr s q k) → coh s' c.
Proof.
  intros Hc Hs. split; [by apply (co_root s c)|by apply (co_closed s c)| |].
  - intros a o Ho. destruct (co_object s c Hc a o Ho) as (Hl & Hex & Hd). destruct (Hs a Hex) as [-> _]. done.
  - intros a o k x Ho Hx. destruct (co_object s c Hc a o Ho) as (_ & Hex & _). destruct (Hs a Hex) as [_ Ha].
    destruct (co_attr s c Hc a o k x Ho Hx) as (Hk & Hl & Hv). by rewrite Ha.
Qed.

Lemma remove_same now st path :
  coh (tc_child st) (tc_cache st) → clean path →
  ∃ s c status, os_remove_object (tc_child st) path = (s, status) ∧ ostc_remove_object entry_timeout now st path = Some (Ostc_priv s c, status) ∧ coh s c.
Proof.
  intros Hc Hcl. unfold ostc_remove_object. destruct (os_remove_object (tc_child st) path) as [s status] eqn:E. pose proof (os_remove_ok _ _ _ _ Hcl E) as Hr.
  unfold failed. destruct (decide (op_st status = OP_STATE_FAILURE)) as [Hf|Hf].
  - rewrite bool_decide_eq_true_2 by done. exists s, (tc_cache st), status. split; [done|]. split; [done|]. by apply (coh_unchanged (tc_child st)).
  - rewrite bool_decide_eq_false_2 by done. destruct Hr as [Hne Hs].
    destruct (remove_object_ok now (tc_child st) s (tc_cache st) path Hc Hcl Hne Hs) as (c & Hrm & Hc'). cbn [set_child tc_cache]. rewrite Hrm. cbn [mbind option_bind].
    by exists s, c, status.
Qed.

Lemma serve_same now st r :
  coh (tc_child st) (tc_cache st) → os_req_ok (tc_child st) r →
  agree (os_serve (OsService0 := child_service) (tc_child st) r) (os_serve (OsService0 := ostc_service entry_timeout now fuel) st r).
Proof.
  intros Hc Hr. destruct r as [path keys vals|path key v|src key dest key_dest|path type|path]; cbn [os_serve].
  - by apply get_same.
  - destruct Hr as [Hcl Hk]. destruct (set_same now st path key v Hc Hcl Hk) as (s & c & err & -> & -> & Hc'). cbn [mbind option_bind]. by exists s, [], [], err, c.
  - destruct Hr as (Hs & Hd & Hk). destruct (copy_same now st src key dest key_dest Hc Hs Hd Hk) as (s & c & err & -> & -> & Hc'). cbn [mbind option_bind]. by exists s, [], [], err, c.
  - cbn [svc_create child_service ostc_service]. unfold ostc_create_object. destruct (os_create_object (tc_child st) path type) as [s status] eqn:E. cbn [mbind option_bind].
    exists s, [], [], (op_st status), (tc_cache st). split; [done|]. split; [done|]. split; [|done]. apply (coh_create (tc_child st)); [done|]. by apply (os_create_ok _ _ path type status).
  - cbn [svc_remove child_service ostc_service]. destruct (remove_same now st path Hc Hr) as (s & c & status & -> & -> & Hc'). cbn [mbind option_bind].
    by exists s, [], [], (op_st status), c.
Qed.

(** The same answers. *)
Definition answer_eq (x y : list slot * op_state) : Prop := Forall2 slot_eq x.1 y.1 ∧ x.2 = y.2.

Lemma serves_same es : ∀ st,
  coh (tc_child st) (tc_cache st) → events_ok (tc_child st) es →
  ∃ s l c l', child_serves (tc_child st) es = Some (s, l) ∧ ostc_serves entry_timeout fuel st es = Some (Ostc_priv s c, l') ∧ coh s c ∧ Forall2 answer_eq l l'.
Proof.
  induction es as [|[now [r|]] es IH]; intros st Hc Hes; cbn [child_serves ostc_serves].
  - destruct st as [s c]. by exists s, [], c, [].
  - destruct Hes as [Hr Hes]. destruct (serve_same now st r Hc Hr) as (s & vals & vals' & err & c & E1 & E2 & Hc' & Hv). rewrite E1 in Hes |- *. rewrite E2.
    cbn [mbind option_bind]. destruct (IH (Ostc_priv s c) Hc' Hes) as (s' & l & c' & l' & El & El' & Hc'' & Hl). cbn [tc_child] in El. rewrite El, El'. cbn [mbind option_bind].
    exists s', ((vals, err) :: l), c', ((vals', err) :: l'). split; [done|]. split; [done|]. split; [done|]. by constructor.
  - destruct (compact_ok now st Hc) as (c & -> & Hc'). cbn [mbind option_bind]. apply (IH (set_cache st c) Hc' Hes).
Qed.

Lemma coh_create_service s : coh s (tc_cache (object_service_timecache_create s)).
Proof.
  assert (∀ a o, tc_cache (object_service_timecache_create s) !! a = Some o → a = [] ∧ o = new_ostcdb_object OS_OBJECT_DIR 0) as Hone.
  { intros a o Ho. cbn in Ho. by apply lookup_singleton_Some in Ho as [<- <-]. }
  split.
  - eexists. split; [apply lookup_singleton_eq|done].
  - intros a x [o Ho]. destruct (Hone _ _ Ho) as [E _]. by destruct a.
  - intros a o Ho. destruct (Hone _ _ Ho) as [-> ->]. split; [done|]. split; [apply os_type_root|done].
  - intros a o k x Ho Hx. destruct (Hone _ _ Ho) as [-> ->]. done.
Qed.

(** C8: Let attributes be got, set and copied and objects be created and removed
    through a new time cache, at whatever times and with rounds of its cleaning in
    between, on absolute paths without . and .. and for plainly stored keys, the
    gets into memory to be allocated of a size that the value fits.  Over a service
    without symbolic links, whose creations leave existing objects alone, every
    answer is the one the service would have given, and it ends in the same
    state. *)
Theorem ostc_requests_transparent s es :
  events_ok s es →
  ∃ s' l c l', child_serves s es = Some (s', l) ∧ ostc_serves entry_timeout fuel (object_service_timecache_create s) es = Some (Ostc_priv s' c, l') ∧
    coh s' c ∧ Forall2 answer_eq l l'.
Proof. intros Hes. apply (serves_same es (object_service_timecache_create s)); [apply coh_create_service|done]. Qed.
End same.
