(* ===== verification/OsTcacheDemo.v ===== *)
(** * The time cache object service: concrete runs

    An object service in memory, the theorems at concrete requests, and what the
    code does wrong. *)
From S2P Require Import Prelude Inip Path OsGlob OsTcache OsTcacheOps OsTcacheOk OsTcacheGet OsTcacheClean OsTcacheRun.
From stdpp Require Import gmap strings.
#[local] Open Scope Z_scope.

#[local] Existing Instance gop_std.
#[local] Existing Instance gop_std_ok.

(** A copy has the same elements. *)
#[local] Instance dup_std : DupStack := λ t1 t2, (t2, t2).

(** ** A service in memory *)
Abbreviation mem_os := (gmap addr (Z * gmap string string)).

Definition mem_obj_dir (c : mem_os) (q : addr) : bool :=
  match c !! q with Some (t, _) => bool_decide (0 < t < 64) && is_dir t | None => false end.

(** The objects that can be reached. *)
Definition mem_type (c : mem_os) (p : addr) : option Z :=
  if decide (p = []) then Some OS_OBJECT_DIR
  else if forallb (λ k, mem_obj_dir c (take k p)) (seq 1 (length p - 1)) then
    match c !! p with Some (t, _) => if decide (0 < t < 64) then Some t else None | None => None end
  else None.

Definition mem_fixed (k : string) : bool := bool_decide (k = "os.type") || bool_decide (k = "system.inode").

Definition mem_attr (c : mem_os) (p : addr) (k : string) : option string :=
  if decide (k = "os.type") then print_int <$> mem_type c p
  else if decide (k = "system.inode") then Some "1"
  else '(_, m) ← c !! p; m !! k.

Definition mem_set (c : mem_os) (p : addr) (k : string) (v : option string) : mem_os :=
  partial_alter (λ o, let '(t, m) := default (0, ∅) o in Some (t, partial_alter (λ _, v) k m)) p c.

Definition is_link_key (k : string) : bool := bool_decide (k = OS_LINK) || String.prefix "os.attr_link." k.

(** No links: their values are empty. *)
Definition mem_answer (c : mem_os) (p : addr) (k : string) (v : slot) : slot :=
  if is_link_key k then (None, 0)
  else match mem_attr c p k with
  | None => (None, -1)
  | Some s => let s := if decide (v.2 < 0) then String.substring 0 (Z.to_nat (- v.2)) s else s in (Some s, Z.of_nat (String.length s))
  end.

Definition mos_status (b : bool) : op_status := if b then op_success_status else op_failure_status.

Definition mem_can_set (c : mem_os) (p : addr) (k : string) : bool :=
  bool_decide (is_Some (mem_type c p)) && negb (mem_fixed k) && negb (is_link_key k).

#[local] Instance mem_service : ObjectService mem_os :=
  {| os_open_object c fname mode := mos_status (bool_decide (is_Some (mem_type c (tokens fname))));
     os_close_object c fname := op_success_status;
     os_get_multiple_attrs c fname keys vals :=
       (zip_with (mem_answer c (tokens fname)) keys vals, mos_status (bool_decide (is_Some (mem_type c (tokens fname)))));
     os_set_multiple_attrs c fname keys vals :=
       match keys, vals with
       | [k], [v] => if mem_can_set c (tokens fname) k then (mem_set c (tokens fname) k (if decide (v.2 < 0) then None else v.1), op_success_status) else (c, op_failure_status)
       | _, _ => (c, op_failure_status)
       end;
     os_copy_multiple_attrs c fname keys dest keys_dest :=
       match keys, keys_dest with
       | [k], [kd] => if mem_can_set c (tokens dest) kd then (mem_set c (tokens dest) kd (mem_attr c (tokens fname) k), op_success_status) else (c, op_failure_status)
       | _, _ => (c, op_failure_status)
       end;
     os_move_multiple_attrs c fname keys keys_new :=
       match keys, keys_new with
       | [k], [kn] => if mem_can_set c (tokens fname) k && mem_can_set c (tokens fname) kn
                      then (mem_set (mem_set c (tokens fname) kn (mem_attr c (tokens fname) k)) (tokens fname) k None, op_success_status) else (c, op_failure_status)
       | _, _ => (c, op_failure_status)
       end;
     os_symlink_multiple_attrs c _ _ _ _ := (c, op_failure_status);
     os_create_object c path t :=
       let p := tokens path in
       if bool_decide (is_Some (mem_type c p)) || negb (bool_decide (0 < t < 64)) then (c, op_failure_status) else (<[p := (t, ∅)]> c, op_success_status);
     os_remove_object c path :=
       let p := tokens path in
       if decide (p = []) then (c, op_failure_status) else (filter (λ ao, ¬ p `prefix_of` ao.1) c, op_success_status);
     os_move_object c src dest :=
       match c !! tokens src with Some o => (<[tokens dest := o]> (delete (tokens src) c), op_success_status) | None => (c, op_failure_status) end |}.

#[local] Instance mem_view : ObjectServiceView mem_os :=
  {| os_type := mem_type; os_attr := mem_attr; os_plain k := is_link_key k = false |}.

Lemma mem_type_range c p t : mem_type c p = Some t → 0 < t < 64.
Proof.
  unfold mem_type. case_decide; [by intros [= <-]|]. destruct (forallb _ _); [|done]. destruct (c !! p) as [[t' m]|]; [|done].
  case_decide; [|done]. by intros [= <-].
Qed.

Lemma print_type_short t : 0 < t < 64 → print_int t ≠ "" ∧ Z.of_nat (String.length (print_int t)) ≤ OS_PATH_MAX.
Proof.
  intros Ht. assert (forallb (λ t, negb (String.eqb (print_int t) "") && (Z.of_nat (String.length (print_int t)) <=? OS_PATH_MAX)) (seqZ 1 63) = true) as Hall by (vm_compute; reflexivity).
  rewrite forallb_forall in Hall. specialize (Hall t). rewrite andb_true_iff, negb_true_iff, String.eqb_neq, Z.leb_le in Hall. apply Hall.
  apply list_elem_of_In, elem_of_seqZ. lia.
Qed.

Lemma take_snoc {A} (p : list A) x k : (k ≤ length p)%nat → take k (p ++ [x]) = take k p.
Proof. intros Hk. by rewrite take_app_le. Qed.

Lemma mem_type_parent c p x t : mem_type c (p ++ [x]) = Some t → ∃ t', mem_type c p = Some t' ∧ is_dir t' = true.
Proof.
  unfold mem_type. rewrite (decide_False (P := p ++ [x] = [])) by (by destruct p). destruct (forallb _ _) eqn:Hf; [|done]. intros _.
  rewrite forallb_forall in Hf. destruct (decide (p = [])) as [->|Hne]; [by exists OS_OBJECT_DIR|].
  assert (∀ k, (1 ≤ k ≤ length p)%nat → mem_obj_dir c (take k p) = true) as Hk.
  { intros k Hk. rewrite <- (take_snoc p x) by lia. apply Hf, list_elem_of_In, elem_of_seq. rewrite length_app. simpl. lia. }
  assert (forallb (λ k, mem_obj_dir c (take k p)) (seq 1 (length p - 1)) = true) as ->.
  { apply forallb_forall. intros k Hin%list_elem_of_In%elem_of_seq. apply Hk. lia. }
  assert (0 < length p)%nat by (by destruct p; [|simpl; lia]). specialize (Hk (length p) ltac:(lia)). rewrite take_ge in Hk by lia.
  unfold mem_obj_dir in Hk. destruct (c !! p) as [[t' m]|]; [|done]. apply andb_true_iff in Hk as [Hr Hd]. apply bool_decide_eq_true in Hr.
  exists t'. by rewrite decide_True.
Qed.

Lemma mem_type_prefix c a b : is_Some (mem_type c (a ++ b)) → is_Some (mem_type c a).
Proof.
  induction b as [|x b IH] using rev_ind; [by rewrite app_nil_r|]. rewrite app_assoc. intros [t Ht]. apply IH.
  destruct (mem_type_parent _ _ _ _ Ht) as (t' & ? & _). by eexists.
Qed.

(** The type of an object depends on what is at its prefixes. *)
Lemma mem_type_ext c c' q : (∀ k, (1 ≤ k)%nat → q ≠ [] → fst <$> c' !! take k q = fst <$> c !! take k q) → mem_type c' q = mem_type c q.
Proof.
  intros Hs. unfold mem_type. case_decide as Hq; [done|].
  assert (∀ k, (1 ≤ k)%nat → mem_obj_dir c' (take k q) = mem_obj_dir c (take k q)) as Hd.
  { intros k Hk. specialize (Hs k Hk Hq). unfold mem_obj_dir. destruct (c' !! _) as [[? ?]|], (c !! _) as [[? ?]|]; simplify_eq/=; done. }
  assert (forallb (λ k, mem_obj_dir c' (take k q)) (seq 1 (length q - 1)) = forallb (λ k, mem_obj_dir c (take k q)) (seq 1 (length q - 1))) as ->.
  { apply eq_true_iff_eq. rewrite !forallb_forall. split; intros Hall k Hk; specialize (Hall k Hk); apply list_elem_of_In, elem_of_seq in Hk; [rewrite <- Hd by lia|rewrite Hd by lia]; done. }
  specialize (Hs (length q) ltac:(destruct q; [done|simpl; lia]) Hq). rewrite take_ge in Hs by lia.
  destruct (c' !! q) as [[? ?]|], (c !! q) as [[? ?]|]; simplify_eq/=; done.
Qed.

Lemma mem_set_type c p k v q : is_Some (mem_type c p) → mem_type (mem_set c p k v) q = mem_type c q.
Proof.
  intros Hp. apply mem_type_ext. intros j Hj Hq. unfold mem_set. destruct (decide (p = take j q)) as [->|Hne]; [|by rewrite lookup_partial_alter_ne].
  rewrite lookup_partial_alter_eq. destruct (c !! take j q) as [[t m]|] eqn:E; [done|]. exfalso. destruct Hp as [t Hp]. unfold mem_type in Hp.
  rewrite decide_False in Hp by (destruct q, j; (done || lia)). destruct (forallb _ _); [|done]. by rewrite E in Hp.
Qed.

Lemma mem_set_attr c p k v q k' :
  is_Some (mem_type c p) → mem_fixed k = false →
  mem_attr (mem_set c p k v) q k' = if decide (q = p ∧ k' = k) then v else mem_attr c q k'.
Proof.
  intros Hp Hk. unfold mem_fixed in Hk. apply orb_false_iff in Hk as [H1%bool_decide_eq_false H2%bool_decide_eq_false]. unfold mem_attr.
  destruct (decide (k' = "os.type")) as [->|H3]; [rewrite decide_False by (by intros [_ ?]); by rewrite mem_set_type|].
  destruct (decide (k' = "system.inode")) as [->|H4]; [by rewrite decide_False by (by intros [_ ?])|].
  unfold mem_set. destruct (decide (q = p)) as [->|Hq].
  - rewrite lookup_partial_alter_eq. destruct (decide (k' = k)) as [->|Hne].
    + rewrite decide_True by done. destruct (c !! p) as [[t m]|]; cbn; by rewrite lookup_partial_alter_eq.
    + rewrite decide_False by tauto. destruct (c !! p) as [[t m]|]; cbn; by rewrite lookup_partial_alter_ne.
  - rewrite lookup_partial_alter_ne, decide_False by (done || tauto). done.
Qed.

Lemma mem_set_same c p k v :
  mem_can_set c p k = true → os_same (λ q k', q = p ∧ k' = k) c (mem_set c p k v) ∧ mem_attr (mem_set c p k v) p k = v.
Proof.
  unfold mem_can_set. rewrite !andb_true_iff, !negb_true_iff, bool_decide_eq_true. intros [[Hp Hk] _]. split.
  - split; [intros q; by apply mem_set_type|]. intros q k' Hn _. cbn. rewrite mem_set_attr by done. by rewrite decide_False.
  - by rewrite mem_set_attr, decide_True.
Qed.

Lemma mos_status_ok b : op_st (mos_status b) = OP_STATE_SUCCESS ↔ b = true.
Proof. destruct b; simpl; done. Qed.

Lemma os_same_refl c : os_same (λ _ _, False) c c.
Proof. done. Qed.

(** The part of the map that an object depends on. *)
Lemma mem_same_at c c' q :
  (∀ k, (1 ≤ k)%nat → q ≠ [] → fst <$> c' !! take k q = fst <$> c !! take k q) → c' !! q = c !! q →
  mem_type c' q = mem_type c q ∧ ∀ k, mem_attr c' q k = mem_attr c q k.
Proof. intros Ht Hq. assert (mem_type c' q = mem_type c q) as E by (by apply mem_type_ext). split; [done|]. intros k. unfold mem_attr. by rewrite E, Hq. Qed.

Lemma mem_answer_is c p k v g : is_link_key k = false → asks v (mem_attr c p k) → g = mem_answer c p k v → slot_is g (mem_attr c p k).
Proof.
  intros Hk [Hneg Hfit] ->. unfold mem_answer. rewrite Hk. destruct (mem_attr c p k) as [s|]; [|done]. specialize (Hfit s eq_refl).
  rewrite decide_True by done. assert (String.substring 0 (Z.to_nat (- v.2)) s = s) as ->; [|done].
  clear Hneg. assert (String.length s ≤ Z.to_nat (- v.2))%nat as Hl by lia. revert Hl. generalize (Z.to_nat (- v.2)). clear. induction s as [|x s IH]; intros [|n] Hl; simpl in *; try done; [lia|].
  by rewrite IH by lia.
Qed.

#[local] Instance mem_service_ok : ObjectServiceOk mem_os.
Proof.
  split; cbn [os_type os_attr os_plain mem_view].
  - intros c p t Ht%mem_type_range. lia.
  - intros c. by eexists.
  - apply mem_type_parent.
  - done.
  - done.
  - intros c p t Ht. exists (print_int t). destruct (print_type_short t (mem_type_range _ _ _ Ht)) as [? ?]. unfold mem_attr. rewrite decide_True by done.
    rewrite Ht. split; [done|]. split; [done|]. split; [apply parse_print_int|done].
  - intros c p s [= <-]. simpl. lia.
  - intros c fname mode _. cbn. rewrite mos_status_ok. apply bool_decide_eq_true.
  - done.
  - intros c fname keys vals _ Hex Hlen. cbn. rewrite mos_status_ok, bool_decide_eq_true. split; [done|]. rewrite length_zip_with. lia.
  - intros c fname keys vals i k v g _ _ Hk Hv Hp Has Hg. cbn in Hg. rewrite lookup_zip_with, Hk in Hg. cbn in Hg. rewrite Hv in Hg. injection Hg as <-.
    by eapply mem_answer_is.
  - intros c fname keys vals i k n g _ _ Hk Hv Hl Hg. cbn in Hg. rewrite lookup_zip_with, Hk in Hg. cbn in Hg. rewrite Hv in Hg. injection Hg as <-.
    unfold mem_answer. replace (is_link_key k) with true; [done|]. symmetry. unfold is_link_key. apply orb_true_iff.
    destruct Hl as [->|[k' ->]]; [left; by apply bool_decide_eq_true|right]. by destruct k'.
  - intros c c' fname k s st _ Hk Hex E. cbn in E. destruct (mem_can_set c (tokens fname) k) eqn:Hc; injection E as <- <-; cbn.
    + rewrite (decide_False (P := Z.of_nat (String.length s) < 0)) by lia. by apply mem_set_same.
    + done.
  - intros c c' fname k dest kd st _ _ Hk E. cbn in E. destruct (mem_can_set c (tokens dest) kd) eqn:Hc; injection E as <- <-; cbn; [|done].
    by apply mem_set_same.
  - intros c c' path t st _ E q [tq Hq]. cbn in E. destruct (bool_decide _ || negb _) eqn:Hb; injection E as <- <-; [done|].
    apply orb_false_iff in Hb as [Hb%bool_decide_eq_false Ht%negb_false_iff%bool_decide_eq_true].
    assert (∀ k, take k q ≠ tokens path) as Hne.
    { intros k E. apply Hb. rewrite <- E. apply (mem_type_prefix c (take k q) (drop k q)). rewrite take_drop. by eexists. }
    destruct (mem_same_at c (<[tokens path := (t, ∅)]> c) q) as [E Ha]; [intros k _ _; by rewrite lookup_insert_ne by (intros E; by apply (Hne k))| |].
    + rewrite lookup_insert_ne; [done|]. intros E. apply (Hne (length q)). by rewrite take_ge by lia.
    + split; [done|]. by intros k _.
  - intros c c' path st _ E. cbn in E. case_decide as Hp; injection E as <- <-; cbn; [done|].
    split; [done|]. intros q Hq.
    assert (∀ a, ¬ tokens path `prefix_of` a → filter (λ ao : addr * (Z * gmap string string), ¬ tokens path `prefix_of` ao.1) c !! a = c !! a) as Hf.
    { intros a Ha. destruct (c !! a) as [o|] eqn:E; [by apply map_lookup_filter_Some|]. apply map_lookup_filter_None. by left. }
    destruct (mem_same_at c (filter (λ ao : addr * (Z * gmap string string), ¬ tokens path `prefix_of` ao.1) c) q) as [E Ha].
    + intros k _ _. rewrite Hf; [done|]. intros Hpk. apply Hq. etrans; [done|]. exists (drop k q). by rewrite take_drop.
    + by apply Hf.
    + split; [done|]. by intros k _.
Qed.

(** ** Runs *)

(** Two directories and a file with two attributes. *)
Definition demo_os : mem_os :=
  list_to_map [(["d"], (2, ∅)); (["d"; "f"], (1, list_to_map [("color", "red"); ("owner", "bob")])); (["e"], (2, ∅))].

Definition ask : slot := (None, -1000).
Definition demo_timeout : Z := 20.

Definition demo_events : list event :=
  [(0, Some (Req_get "/d/f" ["color"; "size"] [ask; ask])); (1, Some (Req_set "/d/f" "color" "blue")); (2, Some (Req_get "//d/f" ["color"] [ask]));
   (3, Some (Req_set "/d/f" "size" "7")); (4, Some (Req_get "/d/f" ["size"; "color"; "os.type"] [ask; ask; ask]));
   (5, Some (Req_copy "/d/f" "owner" "/e" "from")); (6, Some (Req_get "/e/" ["from"] [ask])); (30, None);
   (31, Some (Req_get "/d/f" ["size"] [ask])); (32, Some (Req_remove "/d")); (33, Some (Req_get "/d/f" ["size"] [ask]));
   (34, Some (Req_create "/d" 2)); (35, Some (Req_get "/d" ["size"; "system.inode"] [ask; ask]))].

Definition show_answers (l : list (list slot * op_state)) : list (list slot * bool) := map (λ '(vs, err), (vs, bool_decide (err = OP_STATE_SUCCESS))) l.

Example demo_ostc_run :
  (λ '(_, l), show_answers l) <$> ostc_serves demo_timeout 10 (object_service_timecache_create demo_os) demo_events =
  Some [([(Some "red", 3); (None, -1)], true); ([], true); ([(Some "blue", 4)], true); ([], true);
        ([(Some "7", 1); (Some "blue", 4); (Some "1", 1)], true); ([], true); ([(Some "bob", 3)], true);
        ([(Some "7", 1)], true); ([], true); ([ask], false); ([], true); ([(None, -1); (Some "1", 1)], true)].
Proof. vm_compute. reflexivity. Qed.

(** The cache in between: what is asked for again is a hit. *)
Definition demo_cache (es : list event) : ostc_cache :=
  match ostc_serves demo_timeout 10 (object_service_timecache_create demo_os) es with Some (st, _) => tc_cache st | None => ∅ end.

Example demo_hit : ostc_cache_fetch demo_timeout 5 10 (demo_cache (take 1 demo_events)) "/d/f" ["size"; "color"] [ask; ask] = Some ([(None, -1); (Some "red", 3)], true).
Proof. vm_compute. reflexivity. Qed.

(** A miss takes back what was stored. *)
Example demo_miss : ostc_cache_fetch demo_timeout 5 10 (demo_cache (take 1 demo_events)) "/d/f" ["color"; "owner"] [ask; ask] = Some ([ask; ask], false).
Proof. vm_compute. reflexivity. Qed.

Example demo_cleanup :
  (λ '(c, n), (map fst (map_to_list c), n)) <$> _ostc_cleanup 10 (demo_cache (take 7 demo_events)) [] 25 = Some ([["e"]; []], 2%nat).
Proof. vm_compute. reflexivity. Qed.

(** ** What the code does wrong *)

(** A value is served from the cache whatever its expiry time, until a round of
    cleaning comes by. *)
Example demo_expired :
  ostc_cache_fetch demo_timeout 1000 10 (demo_cache (take 1 demo_events)) "/d/f" ["color"] [ask] = Some ([(Some "red", 3)], true) ∧
  (at_expire <$> get_attr (demo_cache (take 1 demo_events)) ["d"; "f"] "color") = Some 20.
Proof. vm_compute. done. Qed.

(** An attribute is moved onto one that is cached: the old value of the target
    stays in the cache when the source is not cached. *)
Definition demo_moved : option (ostc_priv mem_os * ostc_fd * op_status) :=
  match ostc_serves demo_timeout 10 (object_service_timecache_create demo_os) (take 1 demo_events) with
  | Some (st, _) => ostc_move_attrs demo_timeout 5 st (Ostc_fd "/d/f" 0 false) ["owner"] ["color"]
  | None => None
  end.
Example demo_move_attrs_stale :
  (λ '(st, _, status), (op_st status, (λ r : list slot * bool, r.1) <$> ostc_cache_fetch demo_timeout 6 10 (tc_cache st) "/d/f" ["color"] [ask],
     mem_attr (tc_child st) ["d"; "f"] "color")) <$> demo_moved =
  Some (OP_STATE_SUCCESS, Some [(Some "red", 3)], Some "bob").
Proof. vm_compute. reflexivity. Qed.

(** Moving a cached object frees it while it is in the tree. *)
Example demo_move_object : ostc_cache_move_object demo_timeout 5 (demo_cache (take 1 demo_events)) "/d/f" = None.
Proof. vm_compute. reflexivity. Qed.

(** Deleting a cached attribute copies [(size_t)-1] bytes. *)
Example demo_delete : ostc_cache_update_attrs demo_timeout 5 10 (demo_cache (take 1 demo_events)) "/d/f" ["color"] [(None, -1)] = None.
Proof. vm_compute. reflexivity. Qed.

(** So does a hit on an attribute that is known not to exist, when the caller
    has a buffer of its own. *)
Example demo_missing_buffer : ostc_cache_fetch demo_timeout 5 10 (demo_cache (take 1 demo_events)) "/d/f" ["size"] [(Some "xxxxxxxx", 8)] = None.
Proof. vm_compute. reflexivity. Qed.

(** A value that was cut for one caller stays cut for the next one. *)
Example demo_cut :
  ostc_cache_fetch demo_timeout 5 10 (demo_cache [(0, Some (Req_get "/d/f" ["color"] [(None, -2)]))]) "/d/f" ["color"] [ask] = Some ([(Some "re", 2)], true).
Proof. vm_compute. reflexivity. Qed.

(** A walk along a relative path reports a name that is not there as found, and
    [..] stays where it is. *)
Definition demo_tree : tree := at_bottom (Tree [Some ["d"]; Some []] None).
Example demo_relative_missing :
  (λ '(_, t, err), (tr_bottom t, err)) <$> _ostc_cache_tree_walk demo_timeout 5 OSTC_MAX_RECURSE (demo_cache (take 1 demo_events)) (Some "nothing") demo_tree 0 =
  Some (Some ["d"], 0).
Proof. vm_compute. reflexivity. Qed.
Example demo_relative_up :
  (λ '(_, t, err), (tr_bottom t, err)) <$> _ostc_cache_tree_walk demo_timeout 5 OSTC_MAX_RECURSE (demo_cache (take 1 demo_events)) (Some "../f") demo_tree 0 =
  Some (Some ["d"; "f"], 0).
Proof. vm_compute. reflexivity. Qed.

(** ** The theorems at these inputs *)
#[local] Instance clean_dec fname : Decision (clean fname).
Proof. unfold clean, plain_name. apply _. Defined.
#[local] Instance asks_dec v a : Decision (asks v a).
Proof.
  destruct a as [s|]; [refine (cast_if (decide (v.2 < 0 ∧ Z.of_nat (String.length s) ≤ - v.2)))|refine (cast_if (decide (v.2 < 0)))];
    abstract (unfold asks; naive_solver).
Defined.
#[local] Instance os_req_ok_dec (c : mem_os) r : Decision (os_req_ok c r).
Proof. destruct r; cbn [os_req_ok]; cbn [os_plain mem_view]; apply _. Defined.
#[local] Instance events_ok_dec (c : mem_os) es : Decision (events_ok c es).
Proof.
  revert c. induction es as [|[now [r|]] es IH]; intros c; cbn [events_ok]; [left; done| |apply IH].
  apply and_dec; [apply _|]. destruct (os_serve c r) as [[[s vals] err]|]; [apply IH|left; done].
Defined.

Lemma ostc_requests_transparent_witness :
  events_ok demo_os demo_events ∧
  ∃ s' l c l', child_serves demo_os demo_events = Some (s', l) ∧
    ostc_serves demo_timeout 10 (object_service_timecache_create demo_os) demo_events = Some (Ostc_priv s' c, l') ∧
    coh s' c ∧ Forall2 answer_eq l l'.
Proof.
  assert (events_ok demo_os demo_events) as Hes by (apply (bool_decide_eq_true_1 _); vm_compute; reflexivity).
  split; [exact Hes|]. apply (ostc_requests_transparent demo_timeout 10 demo_os demo_events). exact Hes.
Defined.

Lemma demo_owned : owned (demo_cache (take 7 demo_events)).
Proof.
  destruct (serves_same demo_timeout 10 (take 7 demo_events) (object_service_timecache_create demo_os)) as (s' & l & c & l' & _ & E & Hc & _); [apply coh_create_service|apply (bool_decide_eq_true_1 _); vm_compute; reflexivity|].
  unfold demo_cache. rewrite E. by apply (coh_owned s').
Qed.

Lemma ostc_cleanup_correct_witness :
  owned (demo_cache (take 7 demo_events)) ∧
  ∃ c' n, _ostc_cleanup (S (size (demo_cache (take 7 demo_events)))) (demo_cache (take 7 demo_events)) [] 25 = Some (c', n) ∧ owned c' ∧
    (∀ a k x, get_attr c' a k = Some x ↔ get_attr (demo_cache (take 7 demo_events)) a k = Some x ∧ 25 ≤ at_expire x) ∧
    (∀ a, a ≠ [] → is_Some (c' !! a) → ∃ b k x, a `prefix_of` b ∧ get_attr c' b k = Some x) ∧
    (n = 0%nat ↔ ∀ a k, get_attr c' a k = None).
Proof.
  split; [exact demo_owned|]. apply (ostc_cleanup_correct 25 (demo_cache (take 7 demo_events))); [|exact demo_owned].
  vm_compute. by eexists.
Defined.
