(* ===== verification/SegFile.v ===== *)
(** * File segments (segment_file.c)

    A segment kept in one file of the local file system.  [posix] is what the
    driver uses of the C library and the system: the files by name, where files
    can be made, and the outcome of the transfers to come, which may be short or
    fail.  The driver's functions follow; [srw_loop] is the loop of a request
    over one extent, at the widths of its counters. *)
From Stdlib Require Import Ascii.
From stdpp Require Import strings gmap.
From S2P Require Import Prelude Words Seg Inip Path DataStore LunMap LunStore.
#[local] Open Scope Z_scope.

(** ** Files *)

(** A file: its size and the bytes before its end. *)
Record file := File { f_size : Z; f_data : Z → Z }.
Definition file_empty : file := File 0 (λ _, 0).

(** The byte of a file; a file that is made longer is filled up with zeros. *)
Definition file_byte (f : file) (i : Z) : Z := if decide (0 ≤ i < f_size f) then f_data f i else 0.

(** What happens to a transfer: at most so many bytes are moved, or none, with
    an error. *)
Inductive io_event := IoShort (n : positive) | IoError.
#[export] Instance io_event_eq_dec : EqDecision io_event.
Proof. solve_decision. Defined.

(** The files by name, the names that can be made, and the outcome of the next
    transfers; those after them are complete. *)
Record posix := Posix { px_files : gmap string file; px_can : string → bool; px_plan : list io_event }.

(** The result of a transfer of [n] bytes. *)
Definition px_next (n : Z) (px : posix) : Z * posix :=
  match px_plan px with
  | [] => (n, px)
  | IoShort k :: pl => (Z.min (Z.pos k) n, Posix (px_files px) (px_can px) pl)
  | IoError :: pl => (-1, Posix (px_files px) (px_can px) pl)
  end.

Definition px_put (px : posix) (name : string) (f : file) : posix :=
  Posix (<[name := f]> (px_files px)) (px_can px) (px_plan px).

(** [fopen] with "r" or "r+", and with "w+". *)
Definition fopen_r (px : posix) (name : string) : bool := bool_decide (is_Some (px_files px !! name)).
Definition fopen_w (px : posix) (name : string) : option posix :=
  if px_can px name then Some (px_put px name file_empty) else None.

(** [readv] at [pos] into the pieces [ps] of the buffer, and [writev]; -1 is an
    error. *)
Definition px_readv (px : posix) (name : string) (pos : Z) (buf : tbuffer) (ps : list (Z * Z))
    : posix * tbuffer * Z :=
  match px_files px !! name with
  | None => (px, buf, -1)
  | Some f =>
      let '(r, px) := px_next (Z.max 0 (Z.min (Z.of_nat (length (piece_list ps))) (f_size f - pos))) px in
      (px, vec_put buf (zip (take (Z.to_nat r) (piece_list ps)) (seqZ pos r)) (file_byte f), r)
  end.

Definition file_put (f : file) (pos r : Z) (ps : list (Z * Z)) (buf : tbuffer) : file :=
  if decide (0 < r)
  then File (Z.max (f_size f) (pos + r))
         (vec_put (file_byte f) (zip (seqZ pos r) (take (Z.to_nat r) (piece_list ps))) buf)
  else f.

Definition px_writev (px : posix) (name : string) (pos : Z) (buf : tbuffer) (ps : list (Z * Z)) : posix * Z :=
  match px_files px !! name with
  | None => (px, -1)
  | Some f =>
      let '(r, px) := px_next (Z.of_nat (length (piece_list ps))) px in
      (px_put px name (file_put f pos r ps buf), r)
  end.

(** [truncate]: 0, or -1 without the file; [remove]. *)
Definition px_truncate (px : posix) (name : string) (n : Z) : posix * Z :=
  match px_files px !! name with
  | None => (px, -1)
  | Some f => (px_put px name (File n (file_byte f)), 0)
  end.
Definition px_remove (px : posix) (name : string) : posix :=
  Posix (delete name (px_files px)) (px_can px) (px_plan px).

(** ** The segment *)
Section segfile.
Context `{!TBuf, !Gop, !Inip}.

(** [segfile_priv_t] with the fields of the header that are used.  The name of
    the queue of the thread pool is left out. *)
Record segfile := Segfile {
  sf_id : Z; sf_name : option string; sf_ref_count : Z; sf_fname : option string;
  sf_hard_errors : Z; sf_soft_errors : Z; sf_write_errors : Z }.

(** [segment_file_create]; the identifier is generated. *)
Definition segment_file_create (id : Z) : segfile := Segfile id None 0 None 0 0 0.

Definition sf_set_fname (s : segfile) (fname : option string) : segfile :=
  Segfile (sf_id s) (sf_name s) (sf_ref_count s) fname (sf_hard_errors s) (sf_soft_errors s) (sf_write_errors s).

(** A failed request of the given mode is counted. *)
Definition sf_failed (s : segfile) (mode : Z) : segfile :=
  Segfile (sf_id s) (sf_name s) (sf_ref_count s) (sf_fname s) (sf_hard_errors s + 1) (sf_soft_errors s)
    (sf_write_errors s + if decide (mode = 0) then 0 else 1).

(** ** Reading and writing *)

(** The system, the buffer, the position of the descriptor and [boff]. *)
Record srw := Srw { sw_px : posix; sw_buf : tbuffer; sw_pos : Z; sw_boff : Z }.

(** One [readv] ([mode] 0) or [writev] of the loop, and its result. *)
Definition srw_io (mode : Z) (name : string) (ps : list (Z * Z)) (st : srw) : srw * Z :=
  let '(px, buf, r) :=
    if decide (mode = 0) then px_readv (sw_px st) name (sw_pos st) (sw_buf st) ps
    else let '(px, r) := px_writev (sw_px st) name (sw_pos st) (sw_buf st) ps in (px, sw_buf st, r) in
  (Srw px buf (sw_pos st + Z.max 0 r) (sw_boff st), r).

(** The loop over one extent; the result tells whether a transfer failed.  The
    result of the transfer is kept in a [size_t]. *)
Fixpoint srw_loop (fuel : nat) (mode : Z) (name : string) (bleft : Z) (st : srw) : option (srw * bool) :=
  if decide (bleft > 0) then
    match fuel with
    | O => None
    | S fuel =>
        let '(ps, _, _) := tbuffer_next (sw_boff st) bleft in
        let '(st, r) := srw_io mode name ps st in
        let nbytes := size_t r in
        if decide (nbytes > 0)
        then srw_loop fuel mode name (sint 64 (bleft - nbytes))
               (Srw (sw_px st) (sw_buf st) (sw_pos st) (sint 64 (sw_boff st + nbytes)))
        else Some (st, true)
    end
  else Some (st, false).

(** Every round moves a byte, or uses up a failure of the plan and moves one
    back. *)
Definition srw_fuel (len : Z) (px : posix) : nat := Z.to_nat len + 2 * length (px_plan px).

Fixpoint srw_extents (mode : Z) (name : string) (iov : list ex_iovec) (err_cnt : nat) (st : srw)
    : option (srw * nat) :=
  match iov with
  | [] => Some (st, err_cnt)
  | v :: iov =>
      '(st, err) ← srw_loop (srw_fuel (iov_len v) (sw_px st)) mode name (iov_len v)
                     (Srw (sw_px st) (sw_buf st) (iov_offset v) (sw_boff st));
      srw_extents mode name iov (if err : bool then S err_cnt else err_cnt) st
  end.

(** [segfile_rw_func]; without a name, or when the file can neither be opened
    nor made, the null stream is used. *)
Definition segfile_rw_func (mode : Z) (px : posix) (s : segfile) (iov : list ex_iovec) (buf : tbuffer) (boff : Z)
    : option (posix * segfile * tbuffer * op_status) :=
  name ← sf_fname s;
  px ← (if fopen_r px name then Some px else fopen_w px name);
  '(st, err_cnt) ← srw_extents mode name iov 0 (Srw px buf 0 boff);
  Some (if decide (0 < err_cnt)%nat
        then (sw_px st, sf_failed s mode, sw_buf st, op_failure_status)
        else (sw_px st, s, sw_buf st, op_success_status)).

Definition segfile_read := segfile_rw_func 0.
Definition segfile_write := segfile_rw_func 1.

(** ** Resizing and removing *)

(** [segfile_multi_func]; [new_size] has been stored in an [int]. *)
Definition segfile_multi_func (px : posix) (s : segfile) (new_size : Z) : option (posix * op_status) :=
  if decide (new_size >= 0) then
    name ← sf_fname s;
    let '(px, err) := px_truncate px name new_size in
    Some (px, if decide (err ≠ 0) then op_failure_status else op_success_status)
  else
    Some (match sf_fname s with Some name => px_remove px name | None => px end, op_success_status).

Definition segfile_remove (px : posix) (s : segfile) : option (posix * op_status) :=
  segfile_multi_func px s (sint 32 (-1)).

Definition segfile_truncate (px : posix) (s : segfile) (new_size : Z) : option (posix * op_status) :=
  if decide (new_size < 0) then Some (px, op_success_status)
  else segfile_multi_func px s (sint 32 new_size).

(** ** Inspection *)
Definition INSPECT_QUICK_CHECK : Z := 1.
Definition INSPECT_SCAN_CHECK : Z := 2.
Definition INSPECT_FULL_CHECK : Z := 3.
Definition INSPECT_QUICK_REPAIR : Z := 4.
Definition INSPECT_SCAN_REPAIR : Z := 5.
Definition INSPECT_FULL_REPAIR : Z := 6.
Definition INSPECT_SOFT_ERRORS : Z := 7.
Definition INSPECT_HARD_ERRORS : Z := 8.
Definition INSPECT_WRITE_ERRORS : Z := 10.

Definition error_status (n : Z) : op_status :=
  Op_status (if decide (n = 0) then OP_STATE_SUCCESS else OP_STATE_FAILURE) n.

Definition segfile_inspect (px : posix) (s : segfile) (mode : Z) : option (posix * op_status) :=
  if decide (mode = INSPECT_QUICK_CHECK ∨ mode = INSPECT_SCAN_CHECK ∨ mode = INSPECT_FULL_CHECK) then
    name ← sf_fname s;
    Some (px, if fopen_r px name then op_success_status else op_failure_status)
  else if decide (mode = INSPECT_QUICK_REPAIR ∨ mode = INSPECT_SCAN_REPAIR ∨ mode = INSPECT_FULL_REPAIR) then
    name ← sf_fname s;
    Some (match fopen_w px name with
          | Some px => (px, op_success_status)
          | None => (px, op_failure_status)
          end)
  else if decide (mode = INSPECT_SOFT_ERRORS) then Some (px, error_status (sf_soft_errors s))
  else if decide (mode = INSPECT_HARD_ERRORS) then Some (px, error_status (sf_hard_errors s))
  else if decide (mode = INSPECT_WRITE_ERRORS) then Some (px, error_status (sf_write_errors s))
  else Some (px, op_failure_status).

Definition segfile_flush (s : segfile) (lo hi : Z) : op_status := op_success_status.
Definition segfile_signature : string := "file()" +:+ String "010" "".
Definition segfile_block_size (s : segfile) : Z := 1.

(** [segfile_size] *)
Definition segfile_size (px : posix) (s : segfile) : option Z :=
  name ← sf_fname s;
  Some (match px_files px !! name with Some f => f_size f | None => -1 end).

(** [segment_file_make] *)
Definition segment_file_make (px : posix) (s : segfile) (fname : string) : segfile * op_status :=
  (sf_set_fname s (Some fname), if fopen_r px fname then op_success_status else op_failure_status).

(** ** Cloning *)

(** [fread] of at most [n] bytes at [pos]: their number; an error reads none.
    [fwrite] of [n] bytes at the same position of another file: how many were
    written. *)
Definition px_fread (px : posix) (name : string) (pos n : Z) : posix * Z :=
  match px_files px !! name with
  | None => (px, 0)
  | Some f =>
      let k := Z.max 0 (Z.min n (f_size f - pos)) in
      let '(r, px) := px_next k px in
      (px, if decide (r < 0) then 0 else k)
  end.
Definition px_fwrite (px : posix) (name : string) (pos n : Z) (buf : tbuffer) : posix * Z :=
  match px_files px !! name with
  | None => (px, 0)
  | Some f =>
      let '(r, px) := px_next n px in
      if decide (r < 0) then (px, 0) else (px_put px name (file_put f pos n [(0, n)] buf), n)
  end.

Definition clone_bufsize : Z := 10 * 1024 * 1024.

(** The copy, both files at [pos]: whether it went well. *)
Fixpoint clone_loop (fuel : nat) (px : posix) (src dst : string) (pos : Z) : option (posix * bool) :=
  match fuel with
  | O => None
  | S fuel =>
      let data := default file_empty (px_files px !! src) in
      let '(px, n) := px_fread px src pos clone_bufsize in
      if decide (n > 0) then
        let '(px, m) := px_fwrite px dst pos n (λ i, file_byte data (pos + i)) in
        if decide (m ≠ n) then Some (px, false) else clone_loop fuel px src dst (pos + n)
      else Some (px, true)
  end.

(** One round for each buffer of the source and one that finds the end. *)
Definition clone_fuel (px : posix) (src : string) : nat :=
  Z.to_nat (f_size (default file_empty (px_files px !! src)) `div` clone_bufsize) + 2.

(** [segfile_clone_func] *)
Definition segfile_clone_func (px : posix) (ss sd : segfile) (copy_data : bool) : option (posix * op_status) :=
  dst ← sf_fname sd;
  match fopen_w px dst with
  | None => Some (px, op_failure_status)
  | Some px =>
      if copy_data then
        src ← sf_fname ss;
        if fopen_r px src then
          '(px, ok) ← clone_loop (clone_fuel px src) px src dst 0;
          Some (px, if ok : bool then op_success_status else op_failure_status)
        else Some (px, op_success_status)
      else Some (px, op_success_status)
  end.

(** The target of a clone: a segment that exists, or a new one with the given
    identifier, whose file is [attr] or lies beside that of the source. *)
Definition clone_target (s : segfile) (clone : option segfile) (id : Z) (attr : option string) : option segfile :=
  match clone with
  | Some sd => Some sd
  | None =>
      fname ← match attr with
              | Some a => Some a
              | None => src ← sf_fname s; Some (dirname src +:+ "/" +:+ print_int id +:+ ".dat")
              end;
      let sd := segment_file_create id in
      Some (Segfile (sf_id sd) (sf_name s) (sf_ref_count sd) (Some fname) 0 0 0)
  end.

(** [segfile_clone] *)
Definition segfile_clone (px : posix) (s : segfile) (clone : option segfile) (id : Z) (copy_data : bool)
    (attr : option string) : option (posix * segfile * op_status) :=
  sd ← clone_target s clone id attr;
  '(px, st) ← segfile_clone_func px s sd copy_data;
  Some (px, sd, st).

(** ** Text form *)

(** The elements of the group [segment-<id>]; a missing file name is printed as
    the C library prints a null string. *)
Definition segfile_serialize_text (s : segfile) : inip_group :=
  match sf_name s with
  | Some n => if decide (n = ""%string) then [] else [("name"%string, escape_text n)]
  | None => []
  end ++
  [("type"%string, "file"%string); ("ref_count"%string, print_int (sf_ref_count s));
   ("file"%string, default "(null)"%string (sf_fname s))].

(** [segfile_deserialize_text]: the segment and the result. *)
Definition segfile_deserialize_text (s : segfile) (id : Z) (g : inip_group) : segfile * Z :=
  let fname := inip_get_string g "file" "" in
  (Segfile id (Some (inip_get_string g "name" "")) (sf_ref_count s)
     (if decide (fname = ""%string) then None else Some fname)
     (sf_hard_errors s) (sf_soft_errors s) (sf_write_errors s),
   if decide (fname = ""%string) then 1 else 0).

(** [segment_file_load] *)
Definition segment_file_load (new_id id : Z) (g : inip_group) : option segfile :=
  let '(s, err) := segfile_deserialize_text (segment_file_create new_id) id g in
  if decide (err ≠ 0) then None else Some s.
End segfile.
