(* ===== verification/SegFileOk.v ===== *)
(** * File segments: requests

    What the reads and writes of a file segment do to its file and to the
    buffer, when no transfer fails, and that they end when some do. *)
From stdpp Require Import strings gmap.
From S2P Require Import Prelude Words Seg Inip Path DataStore LunMap LunStore SegFile.
#[local] Open Scope Z_scope.

(** ** Files *)

(** No transfer to come fails. *)
Definition no_err (px : posix) : Prop := IoError ∉ px_plan px.

(** The file a request finds or makes. *)
Definition sf_file (px : posix) (name : string) : option file :=
  match px_files px !! name with
  | Some f => Some f
  | None => if px_can px name then Some file_empty else None
  end.

Lemma px_next_spec n px : 0 ≤ n → no_err px →
  let '(r, px') := px_next n px in
  0 ≤ r ≤ n ∧ (0 < n → 0 < r) ∧ px_files px' = px_files px ∧ px_can px' = px_can px ∧ no_err px'.
Proof.
  unfold px_next, no_err. intros Hn Hno. destruct (px_plan px) as [|[k|] pl] eqn:Hpl; simpl.
  - by rewrite Hpl.
  - apply not_elem_of_cons in Hno as [_ ?]. split_and!; try done; lia.
  - apply not_elem_of_cons in Hno as [? _]. done.
Qed.

Lemma take_seqZ r b n : 0 ≤ r ≤ n → take (Z.to_nat r) (seqZ b n) = seqZ b r.
Proof.
  intros Hr. replace n with (r + (n - r)) by lia. rewrite seqZ_app by lia.
  rewrite take_app_le, take_ge by (rewrite length_seqZ; lia). done.
Qed.

Lemma size_t_small r : 0 ≤ r < 2 ^ 63 → size_t r = r.
Proof. intros Hr. unfold size_t. apply Z.mod_small. lia. Qed.

(** The bytes of a file after a write. *)
Lemma file_put_byte f pos r ps buf boff i :
  0 ≤ pos → 0 < r → take (Z.to_nat r) (piece_list ps) = seqZ boff r →
  file_byte (file_put f pos r ps buf) i = buf_put (file_byte f) pos r buf boff i.
Proof.
  intros Hpos Hr Hps. unfold file_put. rewrite decide_True by done. rewrite Hps.
  unfold file_byte at 1. simpl. rewrite vec_put_seqZ. unfold buf_put.
  case_decide as Hi; [done|]. case_decide; [lia|]. unfold file_byte. rewrite decide_False; [done|lia].
Qed.

Lemma file_put_size f pos r ps buf :
  0 < r → f_size (file_put f pos r ps buf) = Z.max (f_size f) (pos + r).
Proof. intros Hr. unfold file_put. by rewrite decide_True. Qed.

(** Two puts in a row are one. *)
Lemma buf_put_join f g pos boff r n i :
  0 ≤ r → 0 ≤ n →
  buf_put (buf_put f pos r g boff) (pos + r) n g (boff + r) i = buf_put f pos (r + n) g boff i.
Proof.
  intros Hr Hn. unfold buf_put. repeat case_decide; try lia; try done; f_equal; lia.
Qed.

Lemma buf_put_under f f' g pos n boff i :
  (∀ j, f j = f' j) → buf_put f pos n g boff i = buf_put f' pos n g boff i.
Proof. intros Hf. unfold buf_put. case_decide; [done|apply Hf]. Qed.

Lemma buf_put_nil f pos n g boff i : n ≤ 0 → buf_put f pos n g boff i = f i.
Proof. intros Hn. unfold buf_put. rewrite decide_False; [done|lia]. Qed.

(** ** One extent *)
Section extent.
Context `{!TBuf, !TBufOk}.
Implicit Types (px : posix) (f : file) (buf : tbuffer).
Hypothesis Hsz : tbuffer_size < 2 ^ 62.

Lemma srw_write_loop mode name : mode ≠ 0 → ∀ fuel bleft px f buf pos boff,
  (Z.to_nat bleft ≤ fuel)%nat → px_files px !! name = Some f → no_err px →
  0 ≤ pos → 0 ≤ boff → 0 ≤ bleft → boff + bleft ≤ tbuffer_size →
  ∃ px' f', srw_loop fuel mode name bleft (Srw px buf pos boff) =
              Some (Srw px' buf (pos + bleft) (boff + bleft), false) ∧
    px_files px' = <[name := f']> (px_files px) ∧ px_can px' = px_can px ∧ no_err px' ∧
    (∀ i, file_byte f' i = buf_put (file_byte f) pos bleft buf boff i) ∧
    f_size f' = if decide (0 < bleft) then Z.max (f_size f) (pos + bleft) else f_size f.
Proof.
  intros Hm. induction fuel as [|fuel IH]; intros bleft px f buf pos boff Hfuel Hf Hno Hpos Hb Hl Hin; cbn [srw_loop].
  { replace bleft with 0 by lia. rewrite !decide_False by lia. exists px, f. rewrite !Z.add_0_r, insert_id by done.
    split_and!; try done. intros i. by rewrite buf_put_nil. }
  case_decide as Hg.
  2:{ replace bleft with 0 by lia. exists px, f. rewrite !Z.add_0_r, insert_id by done.
    split_and!; try done. intros i. by rewrite buf_put_nil. }
  pose proof (tbuffer_next_ok boff bleft Hb ltac:(lia) Hin) as Hn. simpl.
  destruct (tbuffer_next boff bleft) as [[ps got] ok]. destruct Hn as (_ & Hgot & Hps).
  unfold srw_io, px_writev. simpl. rewrite decide_False by done. rewrite Hf, Hps, length_seqZ.
  pose proof (px_next_spec (Z.of_nat (Z.to_nat got)) px ltac:(lia) Hno) as Hnx.
  destruct (px_next _ px) as [r px1]. destruct Hnx as (Hr & Hr0 & Hfs & Hc & Hno1).
  rewrite size_t_small by lia. simpl. rewrite decide_True by lia.
  rewrite !sint_64 by lia. replace (Z.max 0 r) with r by lia.
  assert (take (Z.to_nat r) (piece_list ps) = seqZ boff r) as Htk by (rewrite Hps; apply take_seqZ; lia).
  set (f1 := file_put f pos r ps buf).
  destruct (IH (bleft - r) (px_put px1 name f1) f1 buf (pos + r) (boff + r)) as (px' & f' & -> & Hfs' & Hc' & Hno' & Hby & Hs);
    try lia.
  { simpl. by rewrite lookup_insert_eq. }
  { done. }
  exists px', f'. replace (pos + r + (bleft - r)) with (pos + bleft) in * by lia.
  replace (boff + r + (bleft - r)) with (boff + bleft) by lia.
  split; [done|]. split. { rewrite Hfs'. simpl. by rewrite Hfs, insert_insert_eq. }
  split; [by rewrite Hc'|]. split; [done|]. split.
  - intros i. rewrite Hby. transitivity (buf_put (buf_put (file_byte f) pos r buf boff) (pos + r) (bleft - r) buf (boff + r) i).
    { apply buf_put_under. intros j. apply file_put_byte; [lia|lia|done]. }
    rewrite buf_put_join by lia. f_equal. lia.
  - rewrite Hs. unfold f1. rewrite file_put_size by lia. repeat case_decide; lia.
Qed.

(** What of an extent lies in the file. *)
Definition ext_in (f : file) (pos len : Z) : Z := Z.max 0 (Z.min len (f_size f - pos)).

Lemma srw_read_loop name f : ∀ fuel bleft px buf pos boff,
  (Z.to_nat bleft ≤ fuel)%nat → px_files px !! name = Some f → no_err px →
  0 ≤ pos → 0 ≤ boff → 0 ≤ bleft → boff + bleft ≤ tbuffer_size →
  let k := ext_in f pos bleft in
  ∃ px' buf', srw_loop fuel 0 name bleft (Srw px buf pos boff) =
              Some (Srw px' buf' (pos + k) (boff + k), bool_decide (k < bleft)) ∧
    px_files px' = px_files px ∧ px_can px' = px_can px ∧ no_err px' ∧
    ∀ i, buf' i = buf_put buf boff k (file_byte f) pos i.
Proof.
  induction fuel as [|fuel IH]; intros bleft px buf pos boff Hfuel Hf Hno Hpos Hb Hl Hin k; cbn [srw_loop].
  { replace k with 0 by (unfold k, ext_in; lia). rewrite decide_False by lia. exists px, buf. rewrite !Z.add_0_r.
    rewrite bool_decide_eq_false_2 by lia. split_and!; try done. intros i. by rewrite buf_put_nil. }
  case_decide as Hg.
  2:{ replace k with 0 by (unfold k, ext_in; lia). exists px, buf. rewrite !Z.add_0_r.
    rewrite bool_decide_eq_false_2 by lia. split_and!; try done. intros i. by rewrite buf_put_nil. }
  pose proof (tbuffer_next_ok boff bleft Hb ltac:(lia) Hin) as Hn. simpl.
  destruct (tbuffer_next boff bleft) as [[ps got] ok]. destruct Hn as (_ & Hgot & Hps).
  unfold srw_io, px_readv. simpl. rewrite Hf, Hps, length_seqZ.
  set (n := Z.max 0 _).
  pose proof (px_next_spec n px ltac:(lia) Hno) as Hnx.
  destruct (px_next n px) as [r px1]. destruct Hnx as (Hr & Hr0 & Hfs & Hc & Hno1).
  rewrite size_t_small by lia. replace (Z.max 0 r) with r by lia. simpl.
  rewrite (take_seqZ r boff got) by lia.
  destruct (decide (r > 0)) as [Hrp|Hrz].
  - rewrite !sint_64 by lia.
    destruct (IH (bleft - r) px1 (vec_put buf (zip (seqZ boff r) (seqZ pos r)) (file_byte f)) (pos + r) (boff + r))
      as (px' & buf' & -> & Hfs' & Hc' & Hno' & Hby); try lia.
    { by rewrite Hfs. }
    { done. }
    assert (r + ext_in f (pos + r) (bleft - r) = k) as Hk by (unfold k, ext_in; lia).
    exists px', buf'. split.
    { f_equal. f_equal; [f_equal; lia|]. apply bool_decide_ext. lia. }
    split_and!; [by rewrite Hfs'|by rewrite Hc'|done|].
    intros i. rewrite Hby, <- Hk. rewrite <- buf_put_join by (unfold ext_in; lia).
    apply buf_put_under. intros j. apply vec_put_seqZ.
  - assert (k = 0) as -> by (unfold k, ext_in; lia). replace r with 0 by lia. rewrite !Z.add_0_r.
    exists px1, buf. rewrite bool_decide_eq_true_2 by lia. rewrite seqZ_nil by lia. simpl.
    split_and!; try done. intros i. by rewrite buf_put_nil.
Qed.
End extent.

(** ** The extents of a request *)
Section extents.
Context `{!TBuf, !TBufOk, !Gop, !GopOk}.
Implicit Types (px : posix) (f : file) (buf : tbuffer) (s : segfile).
Hypothesis Hsz : tbuffer_size < 2 ^ 62.

Lemma iov_ok_cons v iov : iov_ok (v :: iov) → 0 ≤ iov_offset v ∧ 0 < iov_len v ∧ iov_ok iov ∧ 0 ≤ iov_total iov.
Proof. intros [[? ?] Ho]%Forall_cons. pose proof (iov_total_nonneg iov Ho). done. Qed.

Lemma srw_write_extents mode name : mode ≠ 0 → ∀ iov cnt px f buf pos boff,
  iov_ok iov → px_files px !! name = Some f → no_err px → 0 ≤ boff → boff + iov_total iov ≤ tbuffer_size →
  ∃ px' f' pos', srw_extents mode name iov cnt (Srw px buf pos boff) =
              Some (Srw px' buf pos' (boff + iov_total iov), cnt) ∧
    px_files px' = <[name := f']> (px_files px) ∧ px_can px' = px_can px ∧ no_err px' ∧
    (∀ i, file_byte f' i = iov_overlay (file_byte f) iov buf boff i) ∧ f_size f' = iov_end (f_size f) iov.
Proof.
  intros Hm. induction iov as [|v iov IH]; intros cnt px f buf pos boff Hok Hf Hno Hb Hin; cbn [srw_extents].
  { exists px, f, pos. simpl. rewrite Z.add_0_r, insert_id by done. done. }
  apply iov_ok_cons in Hok as (Ho & Hl & Hok & Ht). simpl in Hin |- *.
  destruct (srw_write_loop Hsz mode name Hm (srw_fuel (iov_len v) px) (iov_len v) px f buf (iov_offset v) boff)
    as (px1 & f1 & -> & Hfs1 & Hc1 & Hno1 & Hby1 & Hs1); try done; try lia.
  { unfold srw_fuel. lia. }
  simpl.
  destruct (IH cnt px1 f1 buf (iov_offset v + iov_len v) (boff + iov_len v)) as (px' & f' & pos' & -> & Hfs & Hc & Hno' & Hby & Hs);
    try done; try lia.
  { by rewrite Hfs1, lookup_insert_eq. }
  exists px', f', pos'. split. { do 2 f_equal. f_equal. lia. }
  split. { by rewrite Hfs, Hfs1, insert_insert_eq. }
  split; [by rewrite Hc|]. split; [done|]. split.
  - intros i. rewrite Hby. by apply iov_overlay_ext.
  - rewrite Hs. unfold iov_end. simpl. f_equal. rewrite Hs1, decide_True by lia. done.
Qed.

(** The whole request lies in the file. *)
Definition req_in (f : file) (iov : list ex_iovec) : Prop := Forall (λ v, iov_offset v + iov_len v ≤ f_size f) iov.

#[export] Instance req_in_dec f iov : Decision (req_in f iov).
Proof. unfold req_in. apply _. Defined.

Lemma srw_read_extents name f : ∀ iov cnt px buf pos boff,
  iov_ok iov → px_files px !! name = Some f → no_err px → 0 ≤ boff → boff + iov_total iov ≤ tbuffer_size →
  ∃ px' buf' pos' boff' cnt', srw_extents 0 name iov cnt (Srw px buf pos boff) = Some (Srw px' buf' pos' boff', cnt') ∧
    px_files px' = px_files px ∧ px_can px' = px_can px ∧ no_err px' ∧ (cnt ≤ cnt')%nat ∧
    (∀ p, ¬ (boff ≤ p < boff + iov_total iov) → buf' p = buf p) ∧
    (req_in f iov → cnt' = cnt ∧ ∀ p, boff ≤ p < boff + iov_total iov → buf' p = file_byte f (iov_pos iov boff p)) ∧
    (¬ req_in f iov → (cnt < cnt')%nat).
Proof.
  unfold req_in. induction iov as [|v iov IH]; intros cnt px buf pos boff Hok Hf Hno Hb Hin; cbn [srw_extents].
  { exists px, buf, pos, boff, cnt. simpl. split_and!; try done; try lia.
    - intros _. split; [done|lia].
    - intros Hn. by destruct Hn. }
  apply iov_ok_cons in Hok as (Ho & Hl & Hok & Ht). simpl in Hin |- *.
  destruct (srw_read_loop Hsz name f (srw_fuel (iov_len v) px) (iov_len v) px buf (iov_offset v) boff)
    as (px1 & buf1 & -> & Hfs1 & Hc1 & Hno1 & Hby1); try done; try lia.
  { unfold srw_fuel. lia. }
  simpl. set (k := ext_in _ _ _) in *.
  assert (0 ≤ k ≤ iov_len v) as Hk by (unfold k, ext_in; lia).
  set (cnt1 := if bool_decide _ then _ else _).
  destruct (IH cnt1 px1 buf1 (iov_offset v + k) (boff + k)) as (px' & buf' & pos' & boff' & cnt' & -> & Hfs & Hc & Hno' & Hle & Hfr & Hin' & Hout);
    try done; try lia.
  { by rewrite Hfs1. }
  exists px', buf', pos', boff', cnt'.
  assert ((cnt ≤ cnt1)%nat ∧ (k < iov_len v → (cnt < cnt1)%nat) ∧ (¬ k < iov_len v → cnt1 = cnt)) as (Hc1' & Hc2 & Hc3).
  { unfold cnt1. case_bool_decide; split_and!; lia. }
  split_and!; [done|by rewrite Hfs|by rewrite Hc|done|lia|..].
  - intros p Hp. rewrite Hfr by lia. rewrite Hby1. unfold buf_put. rewrite decide_False; [done|lia].
  - intros [Hv Hr]%Forall_cons. assert (k = iov_len v) as Hkv by (unfold k, ext_in; lia).
    destruct (Hin' Hr) as [-> Hbuf]. split; [lia|]. intros p Hp. case_decide as Hlt.
    + rewrite Hfr by lia. rewrite Hby1, Hkv. unfold buf_put. by rewrite decide_True by lia.
    + rewrite Hbuf by lia. by rewrite Hkv.
  - intros Hn. destruct (decide (iov_offset v + iov_len v ≤ f_size f)) as [Hv|Hv].
    + assert (¬ Forall (λ v, iov_offset v + iov_len v ≤ f_size f) iov) as Hr.
      { intros Hr. apply Hn. by constructor. }
      specialize (Hout Hr). lia.
    + assert (k < iov_len v) by (unfold k, ext_in; lia). lia.
Qed.

(** ** Whole requests *)

(** Opening gives the file, made empty if need be. *)
Lemma open_rw_spec px name f :
  sf_file px name = Some f → no_err px →
  ∃ px1, (if fopen_r px name then Some px else fopen_w px name) = Some px1 ∧ px_files px1 !! name = Some f ∧
    px_files px1 = <[name := f]> (px_files px) ∧ px_can px1 = px_can px ∧ px_plan px1 = px_plan px.
Proof.
  unfold sf_file, fopen_r, fopen_w. intros Hf Hno. destruct (px_files px !! name) as [f0|] eqn:Hl.
  - injection Hf as <-. rewrite bool_decide_eq_true_2 by done. exists px. by rewrite insert_id.
  - rewrite bool_decide_eq_false_2 by (by apply is_Some_None). destruct (px_can px name); [|done]. injection Hf as <-.
    eexists. split; [done|]. simpl. by rewrite lookup_insert_eq.
Qed.

(** C12: A write to a file segment whose buffer covers the request, with no
    failing transfer, ends and succeeds: the file, made if it was not there,
    has the request laid over its bytes, with zeros before it where there was
    nothing, and is as long as the furthest extent; no other file changes.  How
    the transfers and the buffer are cut plays no role. *)
Theorem segfile_write_correct px s name f iov buf boff :
  sf_fname s = Some name → sf_file px name = Some f → no_err px → iov_ok iov →
  0 ≤ boff → boff + iov_total iov ≤ tbuffer_size →
  ∃ px' f', segfile_write px s iov buf boff = Some (px', s, buf, op_success_status) ∧
    px_files px' = <[name := f']> (px_files px) ∧
    (∀ i, file_byte f' i = iov_overlay (file_byte f) iov buf boff i) ∧ f_size f' = iov_end (f_size f) iov.
Proof.
  intros Hn Hf Hno Hok Hb Hin. unfold segfile_write, segfile_rw_func. rewrite Hn. simpl.
  destruct (open_rw_spec px name f Hf Hno) as (px1 & -> & Hl1 & Hfs1 & _ & Hp1). simpl.
  destruct (srw_write_extents 1 name ltac:(done) iov 0 px1 f buf 0 boff) as (px' & f' & pos' & -> & Hfs & _ & _ & Hby & Hs);
    try done.
  { unfold no_err. by rewrite Hp1. }
  simpl. exists px', f'. split; [done|]. split; [by rewrite Hfs, Hfs1, insert_insert_eq|]. done.
Qed.

(** C13: A read of a file segment with no failing transfer ends.  It succeeds
    exactly when every extent lies in the file and then delivers its bytes;
    otherwise it fails and counts a hard error.  Only the part of the buffer
    the request is for is touched and no file changes, except that a missing
    file is made. *)
Theorem segfile_read_correct px s name f iov buf boff :
  sf_fname s = Some name → sf_file px name = Some f → no_err px → iov_ok iov →
  0 ≤ boff → boff + iov_total iov ≤ tbuffer_size →
  ∃ px' s' buf' st, segfile_read px s iov buf boff = Some (px', s', buf', st) ∧
    px_files px' = <[name := f]> (px_files px) ∧
    (∀ p, ¬ (boff ≤ p < boff + iov_total iov) → buf' p = buf p) ∧
    if decide (req_in f iov)
    then st = op_success_status ∧ s' = s ∧
      ∀ p, boff ≤ p < boff + iov_total iov → buf' p = file_byte f (iov_pos iov boff p)
    else st = op_failure_status ∧ s' = sf_failed s 0.
Proof.
  intros Hn Hf Hno Hok Hb Hin. unfold segfile_read, segfile_rw_func. rewrite Hn. simpl.
  destruct (open_rw_spec px name f Hf Hno) as (px1 & -> & Hl1 & Hfs1 & _ & Hp1). simpl.
  destruct (srw_read_extents name f iov 0 px1 buf 0 boff)
    as (px' & buf' & pos' & boff' & cnt & -> & Hfs & _ & _ & _ & Hfr & Hi & Ho); try done.
  { unfold no_err. by rewrite Hp1. }
  simpl. destruct (decide (req_in f iov)) as [Hr|Hr].
  - destruct (Hi Hr) as [-> Hbuf]. rewrite decide_False by lia. do 4 eexists. split; [done|].
    simpl. rewrite Hfs, Hfs1. done.
  - specialize (Ho Hr). rewrite decide_True by lia. do 4 eexists. split; [done|]. simpl. by rewrite Hfs, Hfs1.
Qed.

(** C15: The count of a transfer is kept unsigned, so a failed one (-1) passes
    for progress: after one failure the write of an extent goes on with one
    more byte to write and one byte further back in the buffer, and reports
    success.  The file has the byte before the data, and the data one place
    late, over the byte that follows the extent. *)
Theorem segfile_write_error_unreported px s name f off len buf boff :
  sf_fname s = Some name → px_files px !! name = Some f → px_plan px = [IoError] →
  0 ≤ off → 0 < len → 0 < boff → boff + len ≤ tbuffer_size →
  ∃ px' f', segfile_write px s [Ex_iovec off len] buf boff = Some (px', s, buf, op_success_status) ∧
    px_files px' = <[name := f']> (px_files px) ∧
    ∀ i, file_byte f' i = if decide (off ≤ i ≤ off + len) then buf (boff - 1 + (i - off)) else file_byte f i.
Proof.
  intros Hn Hf Hpl Ho Hl Hb Hin. unfold segfile_write, segfile_rw_func. rewrite Hn. simpl.
  unfold fopen_r. rewrite bool_decide_eq_true_2 by (by rewrite Hf). simpl.
  replace (srw_fuel len px) with (S (Z.to_nat len + 1)) by (unfold srw_fuel; rewrite Hpl; simpl; lia).
  cbn [srw_loop]. rewrite decide_True by lia. simpl.
  destruct (tbuffer_next boff len) as [[ps got] ok]. unfold srw_io, px_writev. simpl. rewrite Hf. unfold px_next. rewrite Hpl. simpl.
  unfold file_put. rewrite decide_False by lia. unfold px_put. simpl. rewrite insert_id by done.
  change (size_t (-1)) with (2 ^ 64 - 1).
  assert (sint 64 (len - (2 ^ 64 - 1)) = len + 1) as ->.
  { unfold sint. replace (len - (2 ^ 64 - 1) + 2 ^ (64 - 1)) with (len + 1 + 2 ^ 63 + -1 * 2 ^ 64) by lia.
    rewrite Z.mod_add, Z.mod_small by lia. lia. }
  assert (sint 64 (boff + (2 ^ 64 - 1)) = boff - 1) as ->.
  { unfold sint. replace (boff + (2 ^ 64 - 1) + 2 ^ (64 - 1)) with (boff - 1 + 2 ^ 63 + 1 * 2 ^ 64) by lia.
    rewrite Z.mod_add, Z.mod_small by lia. lia. }
  replace (off + 0 `max` (-1)) with off by lia.
  destruct (srw_write_loop Hsz 1 name ltac:(done) (Z.to_nat len + 1) (len + 1) (Posix (px_files px) (px_can px) []) f buf off (boff - 1))
    as (px' & f' & -> & Hfs & _ & _ & Hby & _); try done; try lia.
  { apply not_elem_of_nil. }
  simpl. exists px', f'. split; [done|]. split; [done|]. intros i. rewrite Hby. unfold buf_put.
  destruct (decide (off ≤ i ≤ off + len)); [rewrite decide_True by lia|rewrite decide_False by lia]; done.
Qed.
End extents.

(** ** Requests end *)
Section ends.
Context `{!TBuf, !Gop}.
Hypothesis tbuffer_next_most : ∀ pos n, 0 < n → Z.of_nat (length (piece_list (tbuffer_next pos n).1.1)) ≤ n.

Lemma px_next_cases n px : 0 ≤ n →
  let '(r, px') := px_next n px in
  px_files px' = px_files px ∧
  (0 ≤ r ≤ n ∧ (length (px_plan px') ≤ length (px_plan px))%nat ∨
   r = -1 ∧ length (px_plan px) = S (length (px_plan px'))).
Proof.
  intros Hn. unfold px_next. destruct (px_plan px) as [|[k|] pl] eqn:Hpl; simpl; split; try done.
  - left. rewrite Hpl. simpl. lia.
  - left. lia.
  - by right.
Qed.

(** One transfer: nothing more than asked for, or a failure of the plan. *)
Lemma srw_io_cases mode name ps st n :
  is_Some (px_files (sw_px st) !! name) → Z.of_nat (length (piece_list ps)) ≤ n →
  let '(st', r) := srw_io mode name ps st in
  is_Some (px_files (sw_px st') !! name) ∧ sw_boff st' = sw_boff st ∧
  (0 ≤ r ≤ n ∧ (length (px_plan (sw_px st')) ≤ length (px_plan (sw_px st)))%nat ∨
   r = -1 ∧ length (px_plan (sw_px st)) = S (length (px_plan (sw_px st')))).
Proof.
  intros [f Hf] Hps. unfold srw_io. destruct (decide (mode = 0)).
  - unfold px_readv. rewrite Hf. set (k := Z.max 0 _). pose proof (px_next_cases k (sw_px st) ltac:(lia)) as Hn.
    destruct (px_next k (sw_px st)) as [r px1]. destruct Hn as [Hfs Hr]. simpl. rewrite Hfs, Hf.
    split_and!; [done|done|]. destruct Hr as [[? ?]|?]; [left; lia|by right].
  - unfold px_writev. rewrite Hf. set (k := Z.of_nat _). pose proof (px_next_cases k (sw_px st) ltac:(lia)) as Hn.
    destruct (px_next k (sw_px st)) as [r px1]. destruct Hn as [Hfs Hr]. simpl. rewrite lookup_insert_eq.
    split_and!; [done|done|]. destruct Hr as [[? ?]|?]; [left; lia|by right].
Qed.

Lemma srw_loop_returns mode name : ∀ fuel bleft st,
  (Z.to_nat bleft + 2 * length (px_plan (sw_px st)) ≤ fuel)%nat →
  bleft + Z.of_nat (length (px_plan (sw_px st))) < 2 ^ 63 → is_Some (px_files (sw_px st) !! name) →
  ∃ st' e, srw_loop fuel mode name bleft st = Some (st', e) ∧ is_Some (px_files (sw_px st') !! name) ∧
    (length (px_plan (sw_px st')) ≤ length (px_plan (sw_px st)))%nat.
Proof.
  induction fuel as [|fuel IH]; intros bleft st Hfuel Hw Hf; cbn [srw_loop].
  { rewrite decide_False by lia. eauto. }
  case_decide as Hg; [|eauto].
  pose proof (tbuffer_next_most (sw_boff st) bleft ltac:(lia)) as Hps.
  destruct (tbuffer_next (sw_boff st) bleft) as [[ps got] ok]. simpl in Hps.
  pose proof (srw_io_cases mode name ps st bleft Hf Hps) as Hio.
  destruct (srw_io mode name ps st) as [st1 r]. destruct Hio as (Hf1 & Hb1 & Hr).
  destruct Hr as [[Hr Hpl]|[-> Hpl]].
  - rewrite size_t_small by lia. case_decide; [|eauto].
    rewrite (sint_64 (bleft - r)) by lia.
    destruct (IH (bleft - r) (Srw (sw_px st1) (sw_buf st1) (sw_pos st1) (sint 64 (sw_boff st1 + r))))
      as (st' & e & He & Hf' & Hl'); simpl; [lia|lia|done|]. simpl in Hl'. exists st', e. split_and!; [done|done|lia].
  - change (size_t (-1)) with (2 ^ 64 - 1). rewrite decide_True by lia.
    assert (sint 64 (bleft - (2 ^ 64 - 1)) = bleft + 1) as ->.
    { unfold sint. replace (bleft - (2 ^ 64 - 1) + 2 ^ (64 - 1)) with (bleft + 1 + 2 ^ 63 + -1 * 2 ^ 64) by lia.
      rewrite Z.mod_add, Z.mod_small by lia. lia. }
    set (b := sint 64 _). destruct (IH (bleft + 1) (Srw (sw_px st1) (sw_buf st1) (sw_pos st1) b))
      as (st' & e & He & Hf' & Hl'); simpl; [lia|lia|done|]. simpl in Hl'. exists st', e. split_and!; [done|done|lia].
Qed.

(** A request ends whatever the transfers do: they may be short, find the
    end of the file, or fail any number of times in a row, as long as there is a
    file to work on. *)
Theorem segfile_rw_returns mode px s name iov buf boff :
  sf_fname s = Some name → is_Some (sf_file px name) →
  Forall (λ v, iov_len v + Z.of_nat (length (px_plan px)) < 2 ^ 63) iov →
  is_Some (segfile_rw_func mode px s iov buf boff).
Proof.
  intros Hn Hsf Hl. unfold segfile_rw_func. rewrite Hn. simpl.
  assert (∃ px1, (if fopen_r px name then Some px else fopen_w px name) = Some px1 ∧
    is_Some (px_files px1 !! name) ∧ px_plan px1 = px_plan px) as (px1 & -> & Hf1 & Hp1).
  { unfold sf_file, fopen_r, fopen_w in *. destruct (px_files px !! name) as [f|] eqn:Hf.
    - rewrite bool_decide_eq_true_2 by done. exists px. by rewrite Hf.
    - rewrite bool_decide_eq_false_2 by (by apply is_Some_None). destruct (px_can px name); [|by destruct Hsf].
      eexists. split; [done|]. simpl. by rewrite lookup_insert_eq. }
  simpl. rewrite <- Hp1 in Hl. assert (∀ iov cnt st, is_Some (px_files (sw_px st) !! name) →
    Forall (λ v, iov_len v + Z.of_nat (length (px_plan (sw_px st))) < 2 ^ 63) iov →
    is_Some (srw_extents mode name iov cnt st)) as Hext.
  { clear - tbuffer_next_most. induction iov as [|v iov IH]; intros cnt st Hf Hl; cbn [srw_extents]; [eauto|].
    apply Forall_cons in Hl as [Hv Hl].
    destruct (srw_loop_returns mode name (srw_fuel (iov_len v) (sw_px st)) (iov_len v)
      (Srw (sw_px st) (sw_buf st) (iov_offset v) (sw_boff st))) as (st' & e & -> & Hf' & Hl'); simpl in *; try done.
    apply IH; [done|]. eapply Forall_impl; [exact Hl|]. simpl. lia. }
  destruct (Hext iov 0%nat (Srw px1 buf 0 boff) Hf1 Hl) as [[st cnt] ->]. simpl. eauto.
Qed.
End ends.

(** * File segments: sizes, inspection, clones and text

    Resizing at the width of the size, what a repair does to the file, copying a
    segment to another file, and the text form. *)
Section sizes.
Context `{!TBuf, !Gop, !GopOk}.
Implicit Types (px : posix) (s : segfile) (f : file).

(** C14: A size goes through an [int] on its way to the file.  Below 2^31 the file
    gets it and keeps its bytes up to the smaller size; from there on it is
    reduced modulo 2^32, and the file is cut to the rest or, when the rest has
    its sign bit set, removed, each time with success. *)
Theorem segfile_truncate_wraps px s name f n :
  sf_fname s = Some name → px_files px !! name = Some f → 0 ≤ n →
  let m := n `mod` 2 ^ 32 in
  ∃ px', segfile_truncate px s n = Some (px', op_success_status) ∧
    (n < 2 ^ 31 → m = n) ∧
    if decide (m < 2 ^ 31)
    then ∃ f', px_files px' = <[name := f']> (px_files px) ∧ f_size f' = m ∧
      ∀ i, file_byte f' i = if decide (0 ≤ i < Z.min m (f_size f)) then file_byte f i else 0
    else px_files px' = delete name (px_files px).
Proof.
  intros Hn Hf Hpos m. pose proof (Z.mod_pos_bound n (2 ^ 32) ltac:(lia)) as Hm. fold m in Hm.
  assert (sint 32 n = if decide (m < 2 ^ 31) then m else m - 2 ^ 32) as Hs.
  { rewrite (Z.div_mod n (2 ^ 32)) at 1 by lia. fold m. rewrite Z.mul_comm. by apply sint_32_shift. }
  unfold segfile_truncate, segfile_multi_func. rewrite decide_False by lia. rewrite Hs.
  assert (n < 2 ^ 31 → m = n) by (intros; unfold m; apply Z.mod_small; lia).
  destruct (decide (m < 2 ^ 31)).
  - rewrite decide_True by lia. rewrite Hn. simpl. unfold px_truncate. rewrite Hf. eexists. split; [done|]. split; [done|].
    eexists. split; [done|]. split; [done|]. intros i. unfold file_byte. simpl. repeat case_decide; try done; lia.
  - rewrite decide_False by lia. rewrite Hn. eexists. done.
Qed.

(** A check leaves the files alone and tells whether the file is there.  A
    repair opens the file for writing, which empties it: whatever the file held
    is lost, and the repair reports success. *)
Theorem segfile_inspect_repair_empties px s name mode :
  sf_fname s = Some name → px_can px name = true →
  (1 ≤ mode ≤ 3 → segfile_inspect px s mode =
     Some (px, if fopen_r px name then op_success_status else op_failure_status)) ∧
  (4 ≤ mode ≤ 6 → segfile_inspect px s mode =
     Some (px_put px name file_empty, op_success_status)).
Proof.
  intros Hn Hc. unfold segfile_inspect, INSPECT_QUICK_CHECK, INSPECT_SCAN_CHECK, INSPECT_FULL_CHECK,
    INSPECT_QUICK_REPAIR, INSPECT_SCAN_REPAIR, INSPECT_FULL_REPAIR, fopen_w.
  split; intros Hm.
  - rewrite decide_True by lia. by rewrite Hn.
  - rewrite decide_False by lia. rewrite decide_True by lia. rewrite Hn. simpl. by rewrite Hc.
Qed.
End sizes.

(** ** Clones *)
Section clone.
Context `{!Gop, !GopOk}.
Implicit Types (px : posix) (s sd : segfile) (f : file).

Lemma px_fread_spec px name f pos n :
  px_files px !! name = Some f → no_err px →
  let '(px', k) := px_fread px name pos n in
  k = Z.max 0 (Z.min n (f_size f - pos)) ∧ px_files px' = px_files px ∧ px_can px' = px_can px ∧ no_err px'.
Proof.
  intros Hf Hno. unfold px_fread. rewrite Hf. set (k := Z.max 0 _).
  pose proof (px_next_spec k px ltac:(lia) Hno) as Hn. destruct (px_next k px) as [r px'].
  destruct Hn as (Hr & _ & Hrest). rewrite decide_False by lia. done.
Qed.

Lemma px_fwrite_spec px name f pos n buf :
  px_files px !! name = Some f → no_err px → 0 ≤ pos → 0 < n →
  let '(px', m) := px_fwrite px name pos n buf in
  ∃ f', m = n ∧ px_files px' = <[name := f']> (px_files px) ∧ px_can px' = px_can px ∧ no_err px' ∧
    f_size f' = Z.max (f_size f) (pos + n) ∧ ∀ i, file_byte f' i = buf_put (file_byte f) pos n buf 0 i.
Proof.
  intros Hf Hno Hpos Hn. unfold px_fwrite. rewrite Hf.
  pose proof (px_next_spec n px ltac:(lia) Hno) as Hx. destruct (px_next n px) as [r px'].
  destruct Hx as (Hr & _ & Hfs & Hc & Hno'). rewrite decide_False by lia.
  exists (file_put f pos n [(0, n)] buf). simpl. rewrite Hfs. split_and!; try done.
  - by apply file_put_size.
  - intros i. apply file_put_byte; [lia|lia|]. unfold piece_list. simpl. rewrite app_nil_r. apply take_seqZ. lia.
Qed.

Lemma clone_loop_spec src dst f : src ≠ dst → ∀ fuel px pos fd,
  px_files px !! src = Some f → px_files px !! dst = Some fd → no_err px →
  0 ≤ pos ≤ f_size f → f_size fd = pos → (∀ i, i < pos → file_byte fd i = file_byte f i) →
  (0 < fuel)%nat → f_size f - pos ≤ (Z.of_nat fuel - 1) * clone_bufsize →
  ∃ px' fd', clone_loop fuel px src dst pos = Some (px', true) ∧ px_files px' = <[dst := fd']> (px_files px) ∧
    f_size fd' = f_size f ∧ ∀ i, file_byte fd' i = file_byte f i.
Proof.
  intros Hne. assert (clone_bufsize = 10485760) as Hbs by done.
  induction fuel as [|fuel IH]; intros px pos fd Hs Hd Hno Hpos Hsz Hby Hfuel Hmore; [lia|].
  cbn [clone_loop]. rewrite Hs. cbn [default from_option id].
  pose proof (px_fread_spec px src f pos clone_bufsize Hs Hno) as Hr.
  destruct (px_fread px src pos clone_bufsize) as [px1 n]. destruct Hr as (Hn & Hfs1 & Hc1 & Hno1).
  destruct (decide (n > 0)) as [Hg|Hg].
  - assert (px_files px1 !! dst = Some fd) as Hd1 by (by rewrite Hfs1).
    pose proof (px_fwrite_spec px1 dst fd pos n (λ i, file_byte f (pos + i)) Hd1 Hno1 ltac:(lia) ltac:(lia)) as Hw.
    destruct (px_fwrite px1 dst pos n _) as [px2 m]. destruct Hw as (fd2 & -> & Hfs2 & Hc2 & Hno2 & Hs2 & Hb2).
    rewrite decide_False by (intros Hne'; by apply Hne').
    destruct (IH px2 (pos + n) fd2) as (px' & fd' & -> & Hfs' & Hs' & Hb'); try done; try lia.
    { by rewrite Hfs2, lookup_insert_ne, Hfs1. }
    { by rewrite Hfs2, lookup_insert_eq. }
    { intros i Hi. rewrite Hb2. unfold buf_put. case_decide; [f_equal; lia|]. apply Hby. lia. }
    exists px', fd'. split; [done|]. split; [|done]. by rewrite Hfs', Hfs2, insert_insert_eq, Hfs1.
  - exists px1, fd. rewrite Hfs1, insert_id by done. split_and!; [done|done|lia|].
    intros i. destruct (decide (i < pos)) as [Hi|Hi]; [by apply Hby|].
    unfold file_byte. rewrite !decide_False by lia. done.
Qed.

(** Without failing transfers a clone to another file succeeds.  With the
    data asked for, its file has the size and the bytes of the source, which may
    be missing and then counts as empty; without, it is empty.  No other file
    changes. *)
Theorem segfile_clone_correct px s clone id copy_data attr sd src dst :
  clone_target s clone id attr = Some sd → sf_fname s = Some src → sf_fname sd = Some dst → src ≠ dst →
  px_can px dst = true → no_err px →
  let f := default file_empty (px_files px !! src) in
  0 ≤ f_size f →
  ∃ px' fd, segfile_clone px s clone id copy_data attr = Some (px', sd, op_success_status) ∧
    px_files px' = <[dst := fd]> (px_files px) ∧
    if copy_data : bool then f_size fd = f_size f ∧ ∀ i, file_byte fd i = file_byte f i else f_size fd = 0.
Proof.
  intros Ht Hs Hd Hne Hc Hno f Hf. unfold segfile_clone. rewrite Ht. simpl. unfold segfile_clone_func.
  rewrite Hd. simpl. unfold fopen_w. rewrite Hc. set (px1 := px_put px dst file_empty).
  assert (px_files px1 !! src = px_files px !! src) as Hl1 by (unfold px1; simpl; by rewrite lookup_insert_ne).
  destruct copy_data; [|by exists px1, file_empty].
  rewrite Hs. simpl. unfold fopen_r. rewrite Hl1. destruct (px_files px !! src) as [fs|] eqn:Hsrc; simpl in f.
  - rewrite bool_decide_eq_true_2 by done.
    destruct (clone_loop_spec src dst f Hne (clone_fuel px1 src) px1 0 file_empty) as (px' & fd & -> & Hfs & Hsz & Hb); try done.
    + unfold px1. simpl. by rewrite lookup_insert_eq.
    + intros i Hi. unfold file_byte. rewrite !decide_False by lia. done.
    + unfold clone_fuel. lia.
    + unfold clone_fuel. rewrite Hl1. simpl. subst f. assert (0 < clone_bufsize) by done.
      pose proof (Z.mul_succ_div_gt (f_size fs) clone_bufsize ltac:(lia)). pose proof (Z.div_pos (f_size fs) clone_bufsize ltac:(lia) ltac:(lia)).
      rewrite Nat2Z.inj_add, Z2Nat.id by lia. lia.
    + simpl. exists px', fd. split; [done|]. split; [|done]. rewrite Hfs. unfold px1. simpl. by rewrite insert_insert_eq.
  - rewrite bool_decide_eq_false_2 by (by apply is_Some_None). by exists px1, file_empty.
Qed.
End clone.

(** ** Text *)
Section text.
Context `{!Inip, !InipOk}.
Implicit Types s : segfile.

(** A file segment loaded from its text has its identifier and its file.  Its
    name comes back escaped, because loading does not undo the escaping, and its
    references and errors start at zero; without a file name the load fails. *)
Theorem segfile_text_roundtrip s new_id id fname :
  sf_fname s = Some fname →
  segment_file_load new_id id (segfile_serialize_text s) =
    if decide (fname = ""%string) then None
    else Some (Segfile id (Some match sf_name s with
                                | Some n => if decide (n = ""%string) then ""%string else escape_text n
                                | None => ""%string
                                end) 0 (Some fname) 0 0 0).
Proof.
  intros Hf. set (g := segfile_serialize_text s).
  assert (NoDup (fst <$> g)) as Hnd.
  { unfold g, segfile_serialize_text. destruct (sf_name s) as [n|]; [destruct (decide (n = ""%string))|]; simpl;
      apply (bool_decide_unpack _); vm_compute; exact I. }
  assert (("file"%string, fname) ∈ g) as Hin.
  { unfold g, segfile_serialize_text. rewrite Hf. apply elem_of_app. right. do 2 right. by left. }
  assert (inip_get_string g "name" "" = match sf_name s with
     | Some n => if decide (n = ""%string) then ""%string else escape_text n | None => ""%string end) as Hname.
  { assert (∀ l, l = [] → ("name"%string ∉ fst <$> l ++ [("type"%string, "file"%string);
        ("ref_count"%string, print_int (sf_ref_count s)); ("file"%string, default "(null)"%string (sf_fname s))])) as Hno.
    { intros l ->. simpl. apply (bool_decide_unpack _). vm_compute. exact I. }
    unfold g, segfile_serialize_text in *. destruct (sf_name s) as [n|]; [destruct (decide (n = ""%string))|];
      try (apply inip_get_string_missing; by apply Hno).
    apply inip_get_string_found; [done|]. by left. }
  unfold segment_file_load, segfile_deserialize_text. rewrite Hname.
  rewrite (inip_get_string_found g "file" fname "" Hnd Hin). destruct (decide (fname = ""%string)); done.
Qed.
End text.
