(* ===== verification/SegFileDemo.v ===== *)
(** * File segments: concrete runs

    The theorems of file segments at concrete inputs, with a transfer buffer
    that hands out at most three bytes at a time and transfers that are cut. *)
From stdpp Require Import strings gmap.
From S2P Require Import Prelude Words Seg Inip Path DataStore LunMap LunStore SegFile SegFileOk.
#[local] Open Scope Z_scope.

#[local] Existing Instance gop_std.
#[local] Existing Instance gop_std_ok.
#[local] Existing Instance inip_std.
#[local] Existing Instance inip_std_ok.

#[local] Instance cut_tbuf : TBuf :=
  {| tbuffer_next pos n := ([(pos, Z.min 3 n)], Z.min 3 n, true); tbuffer_size := 1000 |}.
#[local] Instance cut_tbuf_ok : TBufOk.
Proof.
  split. intros pos n Hp Hn Hs. cbn. split; [done|]. split; [lia|]. unfold piece_list. cbn. by rewrite app_nil_r.
Qed.

Lemma cut_tbuf_most pos n : 0 < n → Z.of_nat (length (piece_list (tbuffer_next pos n).1.1)) ≤ n.
Proof. intros Hn. unfold piece_list. cbn. rewrite app_nil_r, length_seqZ. lia. Qed.

(** A file of ten bytes, and one that is not there. *)
Definition sfile_file : file := File 10 (λ i, 100 + i).
Definition sfile_px (plan : list io_event) : posix :=
  Posix {["/a/7.dat"%string := sfile_file]} (λ n, bool_decide (n = "/a/9.dat"%string ∨ n = "/a/7.dat"%string)) plan.
Definition sfile_seg : segfile := Segfile 7 (Some "x"%string) 0 (Some "/a/7.dat"%string) 0 0 0.
Definition sfile_buf : tbuffer := λ p, p.
Definition sfile_iov : list ex_iovec := [Ex_iovec 8 4; Ex_iovec 1 2].
Definition sfile_plan : list io_event := [IoShort 2; IoShort 1].

Lemma sfile_no_err : no_err (sfile_px sfile_plan).
Proof. unfold no_err. apply (bool_decide_unpack _). vm_compute. exact I. Qed.

Lemma sfile_iov_ok : iov_ok sfile_iov.
Proof. repeat constructor; simpl; lia. Qed.

(** The bytes of a file, and of a buffer. *)
Definition file_list (px : posix) (name : string) : option (list Z) :=
  (λ f, file_byte f <$> seqZ 0 (f_size f)) <$> px_files px !! name.

Lemma segfile_write_correct_witness :
  ∃ px' f', segfile_write (sfile_px sfile_plan) sfile_seg sfile_iov sfile_buf 20 =
              Some (px', sfile_seg, sfile_buf, op_success_status) ∧
    px_files px' = <["/a/7.dat"%string := f']> (px_files (sfile_px sfile_plan)) ∧
    (∀ i, file_byte f' i = iov_overlay (file_byte sfile_file) sfile_iov sfile_buf 20 i) ∧
    f_size f' = iov_end (f_size sfile_file) sfile_iov.
Proof.
  apply (segfile_write_correct ltac:(done) (sfile_px sfile_plan) sfile_seg "/a/7.dat" sfile_file sfile_iov sfile_buf 20
    ltac:(done) ltac:(reflexivity) sfile_no_err sfile_iov_ok); [lia|]. simpl. lia.
Defined.

Example sfile_write_run :
  (λ r, (file_list r.1.1.1 "/a/7.dat", op_st r.2)) <$> segfile_write (sfile_px sfile_plan) sfile_seg sfile_iov sfile_buf 20 =
  Some (Some [100; 24; 25; 103; 104; 105; 106; 107; 20; 21; 22; 23], OP_STATE_SUCCESS).
Proof. vm_compute. reflexivity. Qed.

Lemma segfile_read_correct_witness :
  ∃ px' s' buf' st, segfile_read (sfile_px sfile_plan) sfile_seg sfile_iov sfile_buf 20 = Some (px', s', buf', st) ∧
    px_files px' = <["/a/7.dat"%string := sfile_file]> (px_files (sfile_px sfile_plan)) ∧
    (∀ p, ¬ (20 ≤ p < 20 + iov_total sfile_iov) → buf' p = sfile_buf p) ∧
    if decide (req_in sfile_file sfile_iov)
    then st = op_success_status ∧ s' = sfile_seg ∧
      ∀ p, 20 ≤ p < 20 + iov_total sfile_iov → buf' p = file_byte sfile_file (iov_pos sfile_iov 20 p)
    else st = op_failure_status ∧ s' = sf_failed sfile_seg 0.
Proof.
  apply (segfile_read_correct ltac:(done) (sfile_px sfile_plan) sfile_seg "/a/7.dat" sfile_file sfile_iov sfile_buf 20
    ltac:(done) ltac:(reflexivity) sfile_no_err sfile_iov_ok); [lia|]. simpl. lia.
Defined.

(** The second extent is inside the file; it is delivered where the first one
    broke off. *)
Example sfile_read_run :
  (λ r, (r.1.2 <$> seqZ 20 6, op_st r.2, sf_hard_errors r.1.1.2)) <$>
    segfile_read (sfile_px sfile_plan) sfile_seg sfile_iov sfile_buf 20 =
  Some ([108; 109; 101; 102; 24; 25], OP_STATE_FAILURE, 1).
Proof. vm_compute. reflexivity. Qed.

Lemma segfile_write_error_unreported_witness :
  ∃ px' f', segfile_write (sfile_px [IoError]) sfile_seg [Ex_iovec 2 4] sfile_buf 20 =
              Some (px', sfile_seg, sfile_buf, op_success_status) ∧
    px_files px' = <["/a/7.dat"%string := f']> (px_files (sfile_px [IoError])) ∧
    ∀ i, file_byte f' i = if decide (2 ≤ i ≤ 2 + 4) then sfile_buf (20 - 1 + (i - 2)) else file_byte sfile_file i.
Proof.
  apply (segfile_write_error_unreported ltac:(done) (sfile_px [IoError]) sfile_seg "/a/7.dat" sfile_file 2 4 sfile_buf 20);
    [done|reflexivity|done|lia|lia|lia|simpl; lia].
Defined.

Example sfile_error_run :
  (λ r, (file_list r.1.1.1 "/a/7.dat", op_st r.2)) <$>
    segfile_write (sfile_px [IoError]) sfile_seg [Ex_iovec 2 4] sfile_buf 20 =
  Some (Some [100; 101; 19; 20; 21; 22; 23; 107; 108; 109], OP_STATE_SUCCESS).
Proof. vm_compute. reflexivity. Qed.

Lemma segfile_rw_returns_witness :
  is_Some (segfile_rw_func 1 (sfile_px [IoError; IoShort 1; IoError]) sfile_seg sfile_iov sfile_buf 20).
Proof.
  apply (segfile_rw_returns cut_tbuf_most 1 _ sfile_seg "/a/7.dat"); [done|by eexists|].
  repeat constructor; simpl; lia.
Defined.

(** ** Sizes *)
Lemma segfile_truncate_wraps_witness :
  let m := (2 ^ 32 + 4) `mod` 2 ^ 32 in
  ∃ px', segfile_truncate (sfile_px []) sfile_seg (2 ^ 32 + 4) = Some (px', op_success_status) ∧
    (2 ^ 32 + 4 < 2 ^ 31 → m = 2 ^ 32 + 4) ∧
    if decide (m < 2 ^ 31)
    then ∃ f', px_files px' = <["/a/7.dat"%string := f']> (px_files (sfile_px [])) ∧ f_size f' = m ∧
      ∀ i, file_byte f' i = if decide (0 ≤ i < Z.min m (f_size sfile_file)) then file_byte sfile_file i else 0
    else px_files px' = delete "/a/7.dat"%string (px_files (sfile_px [])).
Proof.
  apply (segfile_truncate_wraps (sfile_px []) sfile_seg "/a/7.dat" sfile_file (2 ^ 32 + 4)); [done|reflexivity|lia].
Defined.

(** Asking for 3 GiB removes the file; asking for 4 GiB and 4 bytes leaves 4. *)
Example sfile_truncate_run :
  (λ n, (λ r, (file_list r.1 "/a/7.dat", op_st r.2)) <$> segfile_truncate (sfile_px []) sfile_seg n) <$>
    [3 * 2 ^ 30; 2 ^ 32 + 4; 4] =
  [Some (None, OP_STATE_SUCCESS); Some (Some [100; 101; 102; 103], OP_STATE_SUCCESS);
   Some (Some [100; 101; 102; 103], OP_STATE_SUCCESS)].
Proof. vm_compute. reflexivity. Qed.

Lemma segfile_inspect_repair_empties_witness :
  (1 ≤ 4 ≤ 3 → segfile_inspect (sfile_px []) sfile_seg 4 =
     Some (sfile_px [], if fopen_r (sfile_px []) "/a/7.dat" then op_success_status else op_failure_status)) ∧
  (4 ≤ 4 ≤ 6 → segfile_inspect (sfile_px []) sfile_seg 4 =
     Some (px_put (sfile_px []) "/a/7.dat" file_empty, op_success_status)).
Proof. apply (segfile_inspect_repair_empties (sfile_px []) sfile_seg "/a/7.dat" 4); reflexivity. Defined.

(** ** Clones and text *)
Definition sfile_clone : segfile := Segfile 9 (Some "x"%string) 0 (Some "/a/9.dat"%string) 0 0 0.

Lemma segfile_clone_correct_witness :
  ∃ px' fd, segfile_clone (sfile_px sfile_plan) sfile_seg None 9 true None = Some (px', sfile_clone, op_success_status) ∧
    px_files px' = <["/a/9.dat"%string := fd]> (px_files (sfile_px sfile_plan)) ∧
    (f_size fd = f_size sfile_file ∧ ∀ i, file_byte fd i = file_byte sfile_file i).
Proof.
  apply (segfile_clone_correct (sfile_px sfile_plan) sfile_seg None 9 true None sfile_clone "/a/7.dat" "/a/9.dat");
    [reflexivity|done|done|done|reflexivity|exact sfile_no_err|]. vm_compute. done.
Defined.

(** A read that fails ends the copy like the end of the file. *)
Example sfile_clone_error_run :
  (λ r, (file_list r.1.1 "/a/9.dat", op_st r.2)) <$> segfile_clone (sfile_px [IoError]) sfile_seg None 9 true None =
  Some (Some [], OP_STATE_SUCCESS).
Proof. vm_compute. reflexivity. Qed.

Example sfile_dirname :
  dirname <$> ["/a/7.dat"; "7.dat"; "/7.dat"; "a/b/"; ""; "//"]%string = ["/a"; "."; "/"; "a"; "."; "/"]%string.
Proof. vm_compute. reflexivity. Qed.

Lemma segfile_text_roundtrip_witness :
  segment_file_load 3 7 (segfile_serialize_text sfile_seg) =
    if decide ("/a/7.dat"%string = ""%string) then None
    else Some (Segfile 7 (Some match sf_name sfile_seg with
                               | Some n => if decide (n = ""%string) then ""%string else escape_text n
                               | None => ""%string
                               end) 0 (Some "/a/7.dat"%string) 0 0 0).
Proof. by apply (segfile_text_roundtrip sfile_seg 3 7 "/a/7.dat"). Defined.
