(* ===== verification/OsLock.v ===== *)
(** * Object locks of the file object service (os_file.c)

    Blocking opens of an object take turns: readers share it, a writer has it
    alone, and those that have to wait do so in order of arrival.  The lock of
    an object is in a table while somebody uses it; a thread that waits keeps a
    pointer to it, so the locks are in a heap and the table refers to one.  What
    a thread does while it holds [fobj_lock] is a function; threads interleave
    by [lk_step].  One object is modelled, since an operation only looks at the
    lock of its own. *)
From stdpp Require Import gmap relations.
From S2P Require Import Prelude.
#[local] Open Scope Z_scope.

Definition OS_MODE_READ_IMMEDIATE : Z := 0.
Definition OS_MODE_WRITE_IMMEDIATE : Z := 1.
Definition OS_MODE_READ_BLOCKING : Z := 2.
Definition OS_MODE_WRITE_BLOCKING : Z := 3.

(** [osfile_fd_t]: the open has a random identifier. *)
Record osfile_fd := Osfile_fd { fd_uuid : Z; fd_mode : Z }.
#[export] Instance osfile_fd_eq_dec : EqDecision osfile_fd.
Proof. solve_decision. Defined.

(** [fobj_lock_t]: who has the object, and who waits, the first one on top. *)
Record fobj_lock := Fobj_lock {
  fol_read_count : Z; fol_write_count : Z; fol_active : list osfile_fd; fol_stack : list osfile_fd }.

(** [fobj_lock_task_t] of a sleeping thread, with the lock it waits for.
    [ft_abort] goes off when it is woken up because it is its turn. *)
Record fobj_task := Fobj_task { ft_fd : osfile_fd; ft_fol : nat; ft_abort : bool }.

(** The locks that were made, the one in the table, and the sleeping threads by
    the identifiers of their opens.  A lock that left the table keeps its place. *)
Record fobj_state := Fobj_state {
  fs_heap : gmap nat fobj_lock; fs_table : option nat; fs_tasks : gmap Z fobj_task }.
Definition fobj_init : fobj_state := Fobj_state ∅ None ∅.

Definition is_reader (fd : osfile_fd) : bool := bool_decide (fd_mode fd = OS_MODE_READ_BLOCKING).

(** ** Steps *)

(** [fobj_add_active] and [fobj_remove_active]; the latter fails if the open is
    not there. *)
Definition fobj_add_active (fol : fobj_lock) (fd : osfile_fd) : fobj_lock :=
  Fobj_lock (fol_read_count fol) (fol_write_count fol) (fol_active fol ++ [fd]) (fol_stack fol).

Fixpoint remove_fd (P : osfile_fd → bool) (l : list osfile_fd) : option (list osfile_fd) :=
  match l with
  | [] => None
  | fd :: l => if P fd then Some l else cons fd <$> remove_fd P l
  end.

Definition fobj_remove_active (fol : fobj_lock) (fd : osfile_fd) : option fobj_lock :=
  active ← remove_fd (λ fd', bool_decide (fd' = fd)) (fol_active fol);
  Some (Fobj_lock (fol_read_count fol) (fol_write_count fol) active (fol_stack fol)).

Definition fol_set_stack (fol : fobj_lock) (stack : list osfile_fd) : fobj_lock :=
  Fobj_lock (fol_read_count fol) (fol_write_count fol) (fol_active fol) stack.

(** Another reader or writer; one less. *)
Definition fol_count (fol : fobj_lock) (fd : osfile_fd) (n : Z) : fobj_lock :=
  if is_reader fd then Fobj_lock (fol_read_count fol + n) (fol_write_count fol) (fol_active fol) (fol_stack fol)
  else Fobj_lock (fol_read_count fol) (fol_write_count fol + n) (fol_active fol) (fol_stack fol).

(** The head of the queue is woken up: it is its turn. *)
Definition fobj_alarm (fd : osfile_fd) (tasks : gmap Z fobj_task) : gmap Z fobj_task :=
  alter (λ t, Fobj_task (ft_fd t) (ft_fol t) false) (fd_uuid fd) tasks.

Definition put_fol (s : fobj_state) (a : nat) (fol : fobj_lock) : fobj_state :=
  Fobj_state (<[a := fol]> (fs_heap s)) (fs_table s) (fs_tasks s).

(** The lock of the object, made if there is none. *)
Definition get_fol (s : fobj_state) : fobj_state * nat * fobj_lock :=
  match fs_table s ≫= λ a, (λ fol, (a, fol)) <$> fs_heap s !! a with
  | Some (a, fol) => (s, a, fol)
  | None =>
      let a := fresh (dom (fs_heap s)) in
      let fol := Fobj_lock 0 0 [] [] in
      (Fobj_state (<[a := fol]> (fs_heap s)) (Some a) (fs_tasks s), a, fol)
  end.

(** A reader waits for writers, the first one in the queue included, a writer for
    everybody. *)
Definition must_wait (fol : fobj_lock) (fd : osfile_fd) : bool :=
  if is_reader fd then
    if decide (fol_write_count fol = 0) then
      match fol_stack fol with
      | h :: _ => bool_decide (fd_mode h = OS_MODE_WRITE_BLOCKING)
      | [] => false
      end
    else true
  else
    bool_decide (fol_write_count fol ≠ 0) || bool_decide (fol_read_count fol ≠ 0) || negb (bool_decide (fol_stack fol = [])).

(** [full_object_lock] up to its end or to the sleep in [fobj_wait]; the result is
    whether the object is locked. *)
Definition full_object_lock (s : fobj_state) (fd : osfile_fd) : fobj_state * bool :=
  if decide (fd_mode fd = OS_MODE_READ_IMMEDIATE) then (s, true)
  else
    let '(s, a, fol) := get_fol s in
    if must_wait fol fd then
      let s := put_fol s a (fol_set_stack fol (fol_stack fol ++ [fd])) in
      (Fobj_state (fs_heap s) (fs_table s) (<[fd_uuid fd := Fobj_task fd a true]> (fs_tasks s)), false)
    else (put_fol s a (fobj_add_active (fol_count fol fd 1) fd), true).

(** The rest of [fobj_wait] and of [full_object_lock] once the thread runs again,
    because of the alarm, the end of its time or an abort: whether the object is
    locked. *)
Definition fobj_resume (s : fobj_state) (fd : osfile_fd) : option (fobj_state * bool) :=
  t ← fs_tasks s !! fd_uuid fd;
  fol ← fs_heap s !! ft_fol t;
  let tasks := delete (fd_uuid fd) (fs_tasks s) in
  if ft_abort t then
    let stack := default (fol_stack fol) (remove_fd (λ fd', bool_decide (fd_uuid fd' = fd_uuid fd)) (fol_stack fol)) in
    Some (Fobj_state (<[ft_fol t := fol_set_stack fol stack]> (fs_heap s)) (fs_table s) tasks, false)
  else
    let '(fol, tasks) :=
      match fol_stack fol with
      | h :: stack => if is_reader fd && is_reader h then (fol_set_stack fol stack, fobj_alarm h tasks) else (fol, tasks)
      | [] => (fol, tasks)
      end in
    Some (Fobj_state (<[ft_fol t := fobj_add_active (fol_count fol fd 1) fd]> (fs_heap s)) (fs_table s) tasks, true).

(** The turn of the first one that waits. *)
Definition next_turn (fol : fobj_lock) (h : osfile_fd) : bool :=
  (bool_decide (fd_mode h = OS_MODE_READ_BLOCKING) && bool_decide (fol_write_count fol = 0)) ||
  (bool_decide (fd_mode h = OS_MODE_WRITE_BLOCKING) && bool_decide (fol_write_count fol = 0) &&
   bool_decide (fol_read_count fol = 0)).

(** [full_object_unlock]; [None] when it returns with [fobj_lock] held, after
    which nobody gets any further. *)
Definition full_object_unlock (s : fobj_state) (fd : osfile_fd) : option fobj_state :=
  if decide (fd_mode fd = OS_MODE_READ_IMMEDIATE) then Some s
  else
    a ← fs_table s;
    fol ← fs_heap s !! a;
    match fobj_remove_active fol fd with
    | None => Some s
    | Some fol =>
        let fol := fol_count fol fd (-1) in
        match fol_stack fol with
        | [] =>
            if decide (fol_read_count fol = 0 ∧ fol_write_count fol = 0)
            then Some (Fobj_state (<[a := fol]> (fs_heap s)) None (fs_tasks s))
            else Some (put_fol s a fol)
        | h :: stack =>
            if next_turn fol h
            then Some (Fobj_state (<[a := fol_set_stack fol stack]> (fs_heap s)) (fs_table s) (fobj_alarm h (fs_tasks s)))
            else Some (put_fol s a fol)
        end
    end.

(** [osfile_abort_open_object_fn]; [None] without a lock. *)
Definition osfile_abort_open_object (s : fobj_state) (fd : osfile_fd) : option (fobj_state * bool) :=
  if decide (fd_mode fd = OS_MODE_READ_IMMEDIATE) then Some (s, true)
  else
    a ← fs_table s;
    fol ← fs_heap s !! a;
    match remove_fd (λ fd', bool_decide (fd_uuid fd' = fd_uuid fd)) (fol_stack fol) with
    | None => Some (s, false)
    | Some stack =>
        Some (Fobj_state (<[a := fol_set_stack fol stack]> (fs_heap s)) (fs_table s)
                (alter (λ t, Fobj_task (ft_fd t) (ft_fol t) true) (fd_uuid fd) (fs_tasks s)), true)
    end.

(** ** Interleavings *)

(** An open that is somewhere in the locks. *)
Definition in_use (s : fobj_state) (u : Z) : Prop :=
  is_Some (fs_tasks s !! u) ∨
  ∃ a fol fd, fs_heap s !! a = Some fol ∧ fd ∈ fol_active fol ++ fol_stack fol ∧ fd_uuid fd = u.

(** An open has the object. *)
Definition holds (s : fobj_state) (fd : osfile_fd) : Prop :=
  ∃ a fol, fs_heap s !! a = Some fol ∧ fd ∈ fol_active fol.

(** An open sleeps. *)
Definition asleep (s : fobj_state) (fd : osfile_fd) : Prop := ∃ a ab, fs_tasks s !! fd_uuid fd = Some (Fobj_task fd a ab).

Inductive lk_event := EvLock (fd : osfile_fd) | EvWake (fd : osfile_fd) | EvUnlock (fd : osfile_fd) | EvAbort (fd : osfile_fd).

(** A new open arrives; a sleeping one runs again, at any time; one that has the
    object gives it back; one that waits is aborted. *)
Inductive lk_step (s : fobj_state) : lk_event → fobj_state → Prop :=
| step_lock fd : ¬ in_use s (fd_uuid fd) → lk_step s (EvLock fd) (full_object_lock s fd).1
| step_wake fd s' r : asleep s fd → fobj_resume s fd = Some (s', r) → lk_step s (EvWake fd) s'
| step_unlock fd s' : holds s fd → full_object_unlock s fd = Some s' → lk_step s (EvUnlock fd) s'
| step_abort fd s' r : asleep s fd → osfile_abort_open_object s fd = Some (s', r) →
    lk_step s (EvAbort fd) s'.

(** It is the turn of an open that still sleeps. *)
Definition granted (s : fobj_state) (fd : osfile_fd) : Prop :=
  ∃ a, fs_tasks s !! fd_uuid fd = Some (Fobj_task fd a false).

(** Opens that block, or reads that do not lock: all but those for immediate
    writing. *)
Definition plain_mode (fd : osfile_fd) : Prop :=
  fd_mode fd = OS_MODE_READ_IMMEDIATE ∨ fd_mode fd = OS_MODE_READ_BLOCKING ∨ fd_mode fd = OS_MODE_WRITE_BLOCKING.
Definition any_mode (fd : osfile_fd) : Prop := True.

(** A step in which an open whose turn it is is not overtaken: it wakes up before
    anything else happens.  The opens that arrive are in [M]. *)
Definition prompt_step (M : osfile_fd → Prop) (s s' : fobj_state) : Prop :=
  ∃ e, lk_step s e s' ∧ (∀ g, granted s g → e = EvWake g) ∧ (∀ fd, e = EvLock fd → M fd).

(** One in which nobody arrives, gives up or is aborted: an open takes its turn, or
    if it is nobody's turn one is closed. *)
Definition serve_step (s s' : fobj_state) : Prop :=
  ∃ e, lk_step s e s' ∧ (∀ g, granted s g → e = EvWake g) ∧
    match e with EvWake g => granted s g | EvUnlock _ => True | _ => False end.
