(* ===== verification/OsLockOk.v ===== *)
(** * Object locks: correctness

    The invariant of the locks of an object, and what follows for the opens that
    have it and for those that wait, while an open whose turn it is is not
    overtaken; runs show what happens otherwise. *)
From stdpp Require Import gmap relations.
From S2P Require Import Prelude OsLock.
#[local] Open Scope Z_scope.

(** ** One lock *)

Definition nread (l : list osfile_fd) : Z := Z.of_nat (length (filter (λ fd, is_reader fd = true) l)).
Definition nwrite (l : list osfile_fd) : Z := Z.of_nat (length (filter (λ fd, is_reader fd = false) l)).
Definition blocking (fd : osfile_fd) : Prop :=
  fd_mode fd = OS_MODE_READ_BLOCKING ∨ fd_mode fd = OS_MODE_WRITE_BLOCKING.
Definition locking (fd : osfile_fd) : Prop := fd_mode fd ≠ OS_MODE_READ_IMMEDIATE.
Definition uuids (fol : fobj_lock) : list Z := fd_uuid <$> fol_active fol ++ fol_stack fol.

(** The counts are those of the opens that have the object, and a writer is
    alone. *)
Record fol_ok (fol : fobj_lock) : Prop := {
  fo_read : fol_read_count fol = nread (fol_active fol);
  fo_write : fol_write_count fol = nwrite (fol_active fol);
  fo_excl : fol_write_count fol = 0 ∨ fol_write_count fol = 1 ∧ fol_read_count fol = 0;
  fo_nodup : NoDup (uuids fol);
  fo_modes : Forall locking (fol_active fol ++ fol_stack fol) }.

Lemma nread_perm l l' : l ≡ₚ l' → nread l = nread l'.
Proof. intros Hp. unfold nread. by rewrite Hp. Qed.
Lemma nwrite_perm l l' : l ≡ₚ l' → nwrite l = nwrite l'.
Proof. intros Hp. unfold nwrite. by rewrite Hp. Qed.
Lemma nread_cons fd l : nread (fd :: l) = nread l + if is_reader fd then 1 else 0.
Proof. unfold nread. rewrite filter_cons. destruct (is_reader fd); simpl; lia. Qed.
Lemma nwrite_cons fd l : nwrite (fd :: l) = nwrite l + if is_reader fd then 0 else 1.
Proof. unfold nwrite. rewrite filter_cons. destruct (is_reader fd); simpl; lia. Qed.
Lemma nread_nonneg l : 0 ≤ nread l.
Proof. unfold nread. lia. Qed.
Lemma nwrite_nonneg l : 0 ≤ nwrite l.
Proof. unfold nwrite. lia. Qed.
Lemma counts_zero l : nread l = 0 ∧ nwrite l = 0 ↔ l = [].
Proof.
  split; [|by intros ->]. destruct l as [|fd l]; [done|]. rewrite nread_cons, nwrite_cons.
  pose proof (nread_nonneg l). pose proof (nwrite_nonneg l). destruct (is_reader fd); lia.
Qed.

Lemma remove_fd_perm P l l' : remove_fd P l = Some l' → ∃ fd, P fd = true ∧ l ≡ₚ fd :: l'.
Proof.
  revert l'. induction l as [|x l IH]; intros l'; simpl; [done|]. destruct (P x) eqn:Hx; [intros [= <-]; eauto|].
  destruct (remove_fd P l) as [k|]; [|done]. intros [= <-]. destruct (IH k eq_refl) as (fd & Hfd & Hp).
  exists fd. split; [done|]. rewrite Hp. apply Permutation_swap.
Qed.

Lemma remove_fd_none P l : remove_fd P l = None → ∀ fd, fd ∈ l → P fd = false.
Proof.
  induction l as [|x l IH]; simpl; [by intros _ fd ?%not_elem_of_nil|]. destruct (P x) eqn:Hx; [done|].
  destruct (remove_fd P l); [done|]. intros _ fd [->|Hfd]%elem_of_cons; auto.
Qed.

(** It is an open's turn when nothing is in its way. *)
Lemma next_turn_spec fol h : blocking h →
  next_turn fol h = true ↔ fol_write_count fol = 0 ∧ (is_reader h = false → fol_read_count fol = 0).
Proof.
  intros Hb. unfold next_turn, is_reader. rewrite orb_true_iff, !andb_true_iff, !bool_decide_eq_true, bool_decide_eq_false.
  destruct Hb as [Hm|Hm]; rewrite Hm; unfold OS_MODE_READ_BLOCKING, OS_MODE_WRITE_BLOCKING; naive_solver.
Qed.

Lemma next_turn_true fol h : next_turn fol h = true → fol_write_count fol = 0 ∧ (is_reader h = false → fol_read_count fol = 0).
Proof.
  unfold next_turn, is_reader. rewrite orb_true_iff, !andb_true_iff, !bool_decide_eq_true, bool_decide_eq_false. naive_solver.
Qed.
Lemma next_turn_reader fol h : is_reader h = true → fol_write_count fol = 0 → next_turn fol h = true.
Proof.
  unfold next_turn, is_reader. intros Hm%bool_decide_eq_true Hw. by rewrite Hm, Hw.
Qed.

Lemma must_wait_false fol fd : must_wait fol fd = false → fol_write_count fol = 0 ∧ (is_reader fd = false → fol_read_count fol = 0).
Proof.
  unfold must_wait. destruct (is_reader fd); [case_decide; [done|done]|].
  rewrite !orb_false_iff, !bool_decide_eq_false. intros [[H1 H2] _]. split; [|intros _]; by apply dec_stable.
Qed.

(** Something is in the way of an open that waits. *)
Lemma must_wait_true fol fd : fol_ok fol → must_wait fol fd = true → fol_active fol ≠ [] ∨ fol_stack fol ≠ [].
Proof.
  intros [Hr Hw _ _ _] Hm. destruct (decide (fol_active fol = [])) as [Ha|]; [|by left]. right.
  rewrite Ha in Hr, Hw. unfold must_wait in Hm. rewrite Hr, Hw in Hm. destruct (is_reader fd); simpl in Hm.
  - by destruct (fol_stack fol).
  - by destruct (fol_stack fol).
Qed.

Lemma fol_ok_add fol fd :
  fol_ok fol → locking fd → fd_uuid fd ∉ uuids fol →
  fol_write_count fol = 0 → (is_reader fd = false → fol_read_count fol = 0) →
  fol_ok (fobj_add_active (fol_count fol fd 1) fd).
Proof.
  intros [Hr Hw He Hn Hm] Hb Hu H0 H1. unfold fobj_add_active, fol_count, uuids in *.
  assert (fol_active fol ++ [fd] ≡ₚ fd :: fol_active fol) as Hp by (by rewrite Permutation_app_comm).
  destruct (is_reader fd) eqn:Hrd; split; unfold uuids; simpl;
    rewrite ?(nread_perm _ _ Hp), ?(nwrite_perm _ _ Hp), ?nread_cons, ?nwrite_cons, ?Hrd, ?Hp; simpl; try lia; try by constructor.
Qed.

Lemma fol_ok_set fol stack :
  fol_ok fol → NoDup (fd_uuid <$> fol_active fol ++ stack) → Forall locking stack → fol_ok (fol_set_stack fol stack).
Proof.
  intros [Hr Hw He Hn Hm] Hn' Hs. split; simpl; try done. apply Forall_app in Hm as [Hm _]. by apply Forall_app.
Qed.

(** Taking the first one off the queue, or one out of it. *)
Lemma fol_ok_take fol fd stack :
  fol_ok fol → fol_stack fol ≡ₚ fd :: stack →
  fol_ok (fol_set_stack fol stack) ∧ locking fd ∧ fd_uuid fd ∉ uuids (fol_set_stack fol stack).
Proof.
  intros Hok Hp. pose proof Hok as [_ _ _ Hn Hm]. unfold uuids in *.
  rewrite Hp, <- Permutation_middle in Hn, Hm. apply Forall_cons in Hm as [Hb Hm]. simpl in Hn. apply NoDup_cons in Hn as [Hu Hn].
  apply Forall_app in Hm as [_ Hm]. split; [by apply fol_ok_set|]. done.
Qed.

Lemma fol_ok_remove fol fd active :
  fol_ok fol → fol_active fol ≡ₚ fd :: active →
  fol_ok (fol_count (Fobj_lock (fol_read_count fol) (fol_write_count fol) active (fol_stack fol)) fd (-1)).
Proof.
  intros [Hr Hw He Hn Hm] Hp. unfold uuids in *. rewrite Hp in Hn, Hm. simpl in Hn, Hm.
  apply NoDup_cons in Hn as [_ Hn]. apply Forall_cons in Hm as [_ Hm].
  rewrite (nread_perm _ _ Hp), nread_cons in Hr. rewrite (nwrite_perm _ _ Hp), nwrite_cons in Hw.
  pose proof (nread_nonneg active). pose proof (nwrite_nonneg active).
  unfold fol_count. destruct (is_reader fd); split; simpl; try done; lia.
Qed.

(** ** The invariant *)

(** The sleeping opens: those in the queue wait for this lock, and one that is
    not there any more was aborted or has its turn, at most one of them. *)
Record tasks_ok (s : fobj_state) (a : nat) (fol : fobj_lock) : Prop := {
  to_task u t : fs_tasks s !! u = Some t →
    fd_uuid (ft_fd t) = u ∧ is_Some (fs_heap s !! ft_fol t) ∧ (u ∉ (fd_uuid <$> fol_active fol)) ∧
    (ft_abort t = false → ft_fol t = a ∧ locking (ft_fd t) ∧ next_turn fol (ft_fd t) = true ∧ u ∉ (fd_uuid <$> fol_stack fol));
  to_stack h : h ∈ fol_stack fol → fs_tasks s !! fd_uuid h = Some (Fobj_task h a true);
  to_one g g' : granted s g → granted s g' → g = g' }.

(** The opens that arrive; when none is for immediate writing, nobody waits for an
    object that is free. *)
Section modes.
Context (M : osfile_fd → Prop).
Definition all_plain : Prop := ∀ fd, M fd → plain_mode fd.
Definition live (s : fobj_state) (fol : fobj_lock) : Prop :=
  all_plain → Forall blocking (fol_stack fol) ∧ (fol_stack fol ≠ [] → fol_active fol ≠ [] ∨ ∃ g, granted s g).

Record lk_inv (s : fobj_state) : Prop := {
  li_stale a fol : fs_heap s !! a = Some fol → fs_table s ≠ Some a → fol_active fol = [] ∧ fol_stack fol = [];
  li_none : fs_table s = None → ∀ u t, fs_tasks s !! u = Some t →
    fd_uuid (ft_fd t) = u ∧ is_Some (fs_heap s !! ft_fol t) ∧ ft_abort t = true;
  li_some a : fs_table s = Some a → ∃ fol, fs_heap s !! a = Some fol ∧ fol_ok fol ∧ tasks_ok s a fol ∧ live s fol }.

Lemma lk_inv_init : lk_inv fobj_init.
Proof. split; simpl; [by intros ??? | by intros ???? | done]. Qed.

(** A state whose table has the lock [fol] at [a]. *)
Lemma lk_inv_intro s a fol :
  fs_table s = Some a → fs_heap s !! a = Some fol →
  (∀ b fol', b ≠ a → fs_heap s !! b = Some fol' → fol_active fol' = [] ∧ fol_stack fol' = []) →
  fol_ok fol → tasks_ok s a fol → live s fol → lk_inv s.
Proof.
  intros Ht Hh Hst Hok Hts Hlv. split.
  - intros b fol' Hb Hne. apply (Hst b); [|done]. intros ->. done.
  - intros Hn. congruence.
  - intros b Hb. assert (b = a) as -> by congruence. by exists fol.
Qed.

Lemma lk_inv_stale s a b fol : lk_inv s → fs_table s = Some a → b ≠ a → fs_heap s !! b = Some fol →
  fol_active fol = [] ∧ fol_stack fol = [].
Proof. intros Hi Ht Hne Hb. apply (li_stale s Hi b); [done|]. congruence. Qed.

Definition no_turn (s : fobj_state) : Prop := ∀ g, ¬ granted s g.

(** Without a turn pending every sleeping open has its abort flag on. *)
Lemma no_turn_abort s a fol u t : no_turn s → tasks_ok s a fol → fs_tasks s !! u = Some t → ft_abort t = true.
Proof.
  intros Hno Hts Hu. destruct (ft_abort t) eqn:Hab; [done|]. exfalso. apply (Hno (ft_fd t)). exists (ft_fol t).
  destruct (to_task s a fol Hts u t Hu) as [-> _]. rewrite Hu. destruct t; simpl in *. by subst.
Qed.

Lemma get_fol_spec s : lk_inv s →
  let '(s1, a, fol) := get_fol s in
  lk_inv s1 ∧ fs_table s1 = Some a ∧ fs_heap s1 !! a = Some fol ∧ fs_tasks s1 = fs_tasks s ∧
  ∀ u, in_use s1 u → in_use s u.
Proof.
  intros Hi. unfold get_fol. destruct (fs_table s) as [a|] eqn:Ht; simpl.
  { destruct (li_some s Hi a Ht) as (fol & Ha & _). rewrite Ha. simpl. done. }
  set (a := fresh (dom (fs_heap s))). assert (fs_heap s !! a = None) as Ha by (apply not_elem_of_dom, is_fresh).
  assert (∀ u, in_use (Fobj_state (<[a:=Fobj_lock 0 0 [] []]> (fs_heap s)) (Some a) (fs_tasks s)) u → in_use s u) as Huse.
  { intros u [?|(b & fol & fd & Hb & Hin & Hu)]; [by left|]. simpl in Hb. destruct (decide (b = a)) as [->|Hne].
    - rewrite lookup_insert_eq in Hb. injection Hb as <-. by apply not_elem_of_nil in Hin.
    - rewrite lookup_insert_ne in Hb by done. right. by exists b, fol, fd. }
  split; [|split; [done|]]; [|split; [apply lookup_insert_eq|done]].
  eapply (lk_inv_intro _ a); simpl; [done|apply lookup_insert_eq|..].
  - intros b fol Hne Hb. rewrite lookup_insert_ne in Hb by done. apply (li_stale s Hi b); [done|]. by rewrite Ht.
  - split; simpl; try done; first [by left|by constructor].
  - split; simpl.
    + intros u t Hu. destruct (li_none s Hi Ht u t Hu) as (? & ? & Hab). split; [done|].
      split; [apply lookup_insert_is_Some'; by right|].
      split; [apply not_elem_of_nil|]. congruence.
    + by intros h ?%not_elem_of_nil.
    + intros g g' [b Hg] _. exfalso. simpl in Hg. destruct (li_none s Hi Ht _ _ Hg) as (_ & _ & ?). done.
  - intros _. split; [constructor|]. intros Hne. by destruct Hne.
Qed.

(** ** The steps keep the invariant *)

Lemma elem_of_uuids fd (l : list osfile_fd) : fd ∈ l → fd_uuid fd ∈ (fd_uuid <$> l).
Proof. intros Hin. apply list_elem_of_fmap. eauto. Qed.

Lemma lock_inv s fd : lk_inv s → no_turn s → ¬ in_use s (fd_uuid fd) → M fd → lk_inv (full_object_lock s fd).1.
Proof.
  intros Hi0 Hno0 Hu0 Hm. unfold full_object_lock. case_decide as Him; [done|].
  assert (locking fd) as Hb by done. assert (all_plain → blocking fd) as Hbk by (intros Hpl; by destruct (Hpl fd Hm)).
  pose proof (get_fol_spec s Hi0) as Hg. destruct (get_fol s) as [[s1 a] fol].
  destruct Hg as (Hi & Ht & Ha & Htk & Huse).
  assert (no_turn s1) as Hno by (intros g [b Hg]; apply (Hno0 g); exists b; by rewrite <- Htk).
  assert (¬ in_use s1 (fd_uuid fd)) as Hu by auto. clear Hno0 Hu0 Huse Hi0 Htk.
  destruct (li_some s1 Hi a Ht) as (fol' & Ha' & Hok & Hts & H4). assert (fol' = fol) as -> by congruence. clear Ha'.
  assert (fd_uuid fd ∉ uuids fol) as Hfu.
  { unfold uuids. intros (fd' & Heq & Hin)%list_elem_of_fmap. apply Hu. right. by exists a, fol, fd'. }
  assert (fs_tasks s1 !! fd_uuid fd = None) as Hft.
  { apply eq_None_not_Some. intros ?. apply Hu. by left. }
  pose proof (lk_inv_stale s1 a) as Hst. destruct (must_wait fol fd) eqn:Hmw; simpl.
  - eapply (lk_inv_intro _ a); simpl; [done|apply lookup_insert_eq|..].
    { intros b fol' Hne Hbl. rewrite lookup_insert_ne in Hbl by done. by apply (Hst b fol' Hi Ht Hne). }
    { apply fol_ok_set; [done|..].
      - unfold uuids in Hfu. rewrite app_assoc, fmap_app. apply NoDup_app. split; [apply (fo_nodup fol Hok)|].
        split; [|apply NoDup_singleton]. intros u Hin Hin'%list_elem_of_singleton. by subst.
      - apply Forall_app. split; [|by apply Forall_singleton]. pose proof (fo_modes fol Hok) as Hmo. by apply Forall_app in Hmo as [_ ?]. }
    { destruct Hts as [H1 H2 H3]. split; simpl.
    + intros u t Hl. destruct (decide (u = fd_uuid fd)) as [->|Hne].
      { rewrite lookup_insert_eq in Hl. injection Hl as <-. simpl. split; [done|]. split; [by rewrite lookup_insert_eq|].
        split; [|done]. unfold uuids in Hfu. rewrite fmap_app in Hfu. by apply not_elem_of_app in Hfu as [? _]. }
      rewrite lookup_insert_ne in Hl by done. destruct (H1 u t Hl) as (Hu1 & Hu2 & Hu3 & Hu4).
      split; [done|]. split; [|split; [done|]].
      { apply lookup_insert_is_Some'. by right. }
      intros Hab. exfalso. pose proof (no_turn_abort s1 a fol u t Hno (Build_tasks_ok _ _ _ H1 H2 H3) Hl). congruence.
    + intros h [Hin| ->%list_elem_of_singleton]%elem_of_app; [|by rewrite lookup_insert_eq].
      rewrite lookup_insert_ne; [by apply H2|]. intros Heq. apply Hfu. rewrite Heq. unfold uuids. apply elem_of_uuids, elem_of_app. by right.
    + intros g g' [b Hg] _. exfalso. simpl in Hg. destruct (decide (fd_uuid g = fd_uuid fd)) as [He|He].
      * rewrite He, lookup_insert_eq in Hg. done.
      * rewrite lookup_insert_ne in Hg by done. apply (Hno g). by exists b. }
    { intros Hpl. destruct (H4 Hpl) as [Hbs Hlv]. split; [apply Forall_app; split; [done|]; by apply Forall_singleton, Hbk|].
      intros _. left. destruct (must_wait_true fol fd Hok Hmw) as [?|Hne]; [done|].
      destruct (Hlv Hne) as [?|[g Hg]]; [done|]. by destruct (Hno g). }
  - apply must_wait_false in Hmw as [H0 H1].
    assert (fol_stack (fol_count fol fd 1) = fol_stack fol ∧ fol_active (fol_count fol fd 1) = fol_active fol) as [Hs1 Hs2].
    { unfold fol_count. by destruct (is_reader fd). }
    eapply (lk_inv_intro _ a); simpl; [done|apply lookup_insert_eq|..].
    { intros b fol' Hne Hbl. rewrite lookup_insert_ne in Hbl by done. by apply (Hst b fol' Hi Ht Hne). }
    { by apply fol_ok_add. }
    { pose proof Hts as [T1 T2 T3]. split; simpl.
    + intros u t Hl. destruct (T1 u t Hl) as (Hu1 & Hu2 & Hu3 & Hu4). split; [done|]. split; [|split].
      * apply lookup_insert_is_Some'. by right.
      * rewrite Hs2, fmap_app. apply not_elem_of_app. split; [done|]. intros ->%list_elem_of_singleton. congruence.
      * intros Hab. exfalso. pose proof (no_turn_abort s1 a fol u t Hno Hts Hl). congruence.
    + rewrite Hs1. done.
    + intros g g' Hg. by destruct (Hno g). }
    { intros Hpl. simpl. rewrite Hs1. split; [apply (H4 Hpl)|]. left. by destruct (fol_active (fol_count fol fd 1)). }
Qed.

(** It becomes the turn of the head of the queue. *)
Lemma alarm_inv s a fol h stack :
  fs_table s = Some a → fs_heap s !! a = Some fol →
  (∀ b fol', b ≠ a → fs_heap s !! b = Some fol' → fol_active fol' = [] ∧ fol_stack fol' = []) →
  fol_ok fol → tasks_ok s a fol → no_turn s → fol_stack fol = h :: stack → next_turn fol h = true →
  (all_plain → Forall blocking (fol_stack fol)) →
  lk_inv (Fobj_state (<[a := fol_set_stack fol stack]> (fs_heap s)) (fs_table s) (fobj_alarm h (fs_tasks s))).
Proof.
  intros Ht Ha Hst Hok Hts Hno Hstk Hnt Hbs. destruct (fol_ok_take fol h stack Hok) as (Hok' & Hb & Hu); [by rewrite Hstk|].
  unfold uuids in Hu. simpl in Hu. rewrite fmap_app in Hu. apply not_elem_of_app in Hu as [Hu1 Hu2].
  pose proof Hts as [T1 T2 T3]. pose proof (T2 h) as Hh. rewrite Hstk in Hh. specialize (Hh ltac:(by left)).
  assert (∀ u t, fobj_alarm h (fs_tasks s) !! u = Some t → t = Fobj_task h a false ∧ u = fd_uuid h ∨
    u ≠ fd_uuid h ∧ fs_tasks s !! u = Some t ∧ ft_abort t = true) as Hal.
  { intros u t. unfold fobj_alarm. destruct (decide (u = fd_uuid h)) as [->|Hne].
    - rewrite lookup_alter_eq, Hh. intros [= <-]. by left.
    - rewrite lookup_alter_ne by done. intros Hu. right. split; [done|]. split; [done|]. by eapply no_turn_abort. }
  eapply (lk_inv_intro _ a); simpl; [done|apply lookup_insert_eq| |done|split; simpl|].
  - intros b fol' Hne Hbl. rewrite lookup_insert_ne in Hbl by done. by apply (Hst b).
  - intros u t [[-> ->]|(Hne & Hl & Hab)]%Hal; simpl.
    + split; [done|]. split; [by rewrite lookup_insert_eq|]. split; [done|]. done.
    + destruct (T1 u t Hl) as (? & ? & ? & _). split; [done|]. split; [apply lookup_insert_is_Some'; by right|].
      split; [done|]. congruence.
  - intros h' Hh'. unfold fobj_alarm. rewrite lookup_alter_ne; [apply T2; rewrite Hstk; by right|].
    intros Heq. apply Hu2. rewrite Heq. by apply elem_of_uuids.
  - assert (∀ g b, fobj_alarm h (fs_tasks s) !! fd_uuid g = Some (Fobj_task g b false) → g = h) as Hg.
    { intros g b [[[= -> _] _]|(_ & _ & ?)]%Hal; done. }
    intros g g' [b Hg1] [b' Hg2]. simpl in *. apply Hg in Hg1 as ->. by apply Hg in Hg2 as ->.
  - intros Hpl. split; [specialize (Hbs Hpl); rewrite Hstk in Hbs; by apply Forall_cons in Hbs as [_ ?]|].
    intros _. right. exists h, a. simpl. unfold fobj_alarm. by rewrite lookup_alter_eq, Hh.
Qed.

(** The open whose turn it is takes the object. *)
Lemma enter_inv s a fol fd :
  lk_inv s → fs_table s = Some a → fs_heap s !! a = Some fol → granted s fd →
  let fol' := fobj_add_active (fol_count fol fd 1) fd in
  let s' := Fobj_state (<[a := fol']> (fs_heap s)) (fs_table s) (delete (fd_uuid fd) (fs_tasks s)) in
  lk_inv s' ∧ no_turn s' ∧ fol_ok fol' ∧ tasks_ok s' a fol' ∧ fol_stack fol' = fol_stack fol.
Proof.
  intros Hi Ht Ha Hgr fol' s'. destruct (li_some s Hi a Ht) as (fol0 & Ha0 & Hok & Hts & Hlv).
  assert (fol0 = fol) as -> by congruence. clear Ha0. pose proof Hts as [T1 T2 T3]. destruct Hgr as [b Hl].
  destruct (T1 _ _ Hl) as (_ & _ & Hna & Hg). specialize (Hg eq_refl). simpl in Hg. destruct Hg as (-> & Hb & Hnt & Hns).
  apply next_turn_true in Hnt as [Hw Hr].
  assert (fd_uuid fd ∉ uuids fol) as Hu by (unfold uuids; rewrite fmap_app; by apply not_elem_of_app).
  assert (fol_ok fol') as Hok' by by apply fol_ok_add.
  assert (fol_stack fol' = fol_stack fol ∧ fol_active fol' = fol_active fol ++ [fd]) as [Hs1 Hs2].
  { unfold fol', fol_count. by destruct (is_reader fd). }
  clearbody fol'.
  assert (no_turn s') as Hno.
  { intros g [c Hc]. simpl in Hc. apply lookup_delete_Some in Hc as [Hne Hc]. apply Hne. f_equal. apply T3; [by exists a|by exists c]. }
  assert (tasks_ok s' a fol') as Hts'.
  { split; simpl.
    - intros u t [Hne Hu']%lookup_delete_Some. destruct (T1 u t Hu') as (H1 & H2 & H3 & _). split; [done|].
      split; [apply lookup_insert_is_Some'; by right|]. split.
      + rewrite Hs2, fmap_app. apply not_elem_of_app. split; [done|]. by intros ->%list_elem_of_singleton.
      + intros Hab. exfalso. apply (Hno (ft_fd t)). exists (ft_fol t). simpl. rewrite H1, lookup_delete_ne by done.
        rewrite Hu'. destruct t; simpl in *. by subst.
    - rewrite Hs1. intros h Hh. rewrite lookup_delete_ne; [by apply T2|]. intros Heq. apply Hns. rewrite Heq. by apply elem_of_uuids.
    - intros g g' Hg. by destruct (Hno g). }
  split; [|done]. eapply (lk_inv_intro _ a); simpl; [done|apply lookup_insert_eq| |done|done|].
  - intros c fol2 Hne Hc. rewrite lookup_insert_ne in Hc by done. by eapply lk_inv_stale.
  - intros Hpl. rewrite Hs1. split; [apply (Hlv Hpl)|]. left. rewrite Hs2. by destruct (fol_active fol).
Qed.

(** An open leaves the queue without getting the object. *)
Lemma unqueue_inv s a fol u stack :
  lk_inv s → fs_table s = Some a → fs_heap s !! a = Some fol →
  remove_fd (λ fd', bool_decide (fd_uuid fd' = u)) (fol_stack fol) = Some stack →
  let s' := Fobj_state (<[a := fol_set_stack fol stack]> (fs_heap s)) (fs_table s) (fs_tasks s) in
  lk_inv s' ∧ (u ∉ (fd_uuid <$> stack)) ∧ ∃ t, fs_tasks s !! u = Some t ∧ ft_abort t = true.
Proof.
  intros Hi Ht Ha Hrm s'. destruct (li_some s Hi a Ht) as (fol0 & Ha0 & Hok & Hts & Hlv).
  assert (fol0 = fol) as -> by congruence. clear Ha0. pose proof Hts as [T1 T2 T3].
  apply remove_fd_perm in Hrm as (x & Hx%bool_decide_eq_true & Hp). subst u.
  destruct (fol_ok_take fol x stack Hok Hp) as (Hok' & _ & Hu). unfold uuids in Hu. simpl in Hu.
  rewrite fmap_app in Hu. apply not_elem_of_app in Hu as [_ Hu].
  split; [|split; [done|]].
  2:{ exists (Fobj_task x a true). split; [|done]. apply T2. rewrite Hp. by left. }
  eapply (lk_inv_intro _ a); simpl; [done|apply lookup_insert_eq| |done|split; simpl|].
  - intros b fol' Hne Hbl. rewrite lookup_insert_ne in Hbl by done. by eapply lk_inv_stale.
  - intros u t Hl. destruct (T1 u t Hl) as (H1 & H2 & H3 & H4). split; [done|].
    split; [apply lookup_insert_is_Some'; by right|]. split; [done|]. intros Hab. destruct (H4 Hab) as (? & ? & ? & Hns).
    split; [done|]. split; [done|]. split; [done|]. rewrite Hp in Hns. simpl in Hns. by apply not_elem_of_cons in Hns as [_ ?].
  - intros h Hh. apply T2. rewrite Hp. by right.
  - intros g g' [c Hg] [c' Hg']. apply T3; [by exists c|by exists c'].
  - intros Hpl. destruct (Hlv Hpl) as [Hbs Hlv']. split; [rewrite Hp in Hbs; by apply Forall_cons in Hbs as [_ ?]|].
    intros _. destruct Hlv' as [?|[g [c Hg]]]; [|by left|right; by exists g, c].
    intros Hnil. rewrite Hnil in Hp. by apply Permutation_nil_l in Hp.
Qed.

(** A sleeping open that is not in the queue, and whose turn it is not, goes. *)
Lemma drop_task_inv s u :
  lk_inv s → (∀ t, fs_tasks s !! u = Some t → ft_abort t = true) →
  (∀ a fol, fs_table s = Some a → fs_heap s !! a = Some fol → u ∉ (fd_uuid <$> fol_stack fol)) →
  lk_inv (Fobj_state (fs_heap s) (fs_table s) (delete u (fs_tasks s))).
Proof.
  intros Hi Hab Hq. split; simpl.
  - apply (li_stale s Hi).
  - intros Ht v t [_ Hv]%lookup_delete_Some. by apply (li_none s Hi Ht).
  - intros a Ht. destruct (li_some s Hi a Ht) as (fol & Ha & Hok & [T1 T2 T3] & Hlv). exists fol. split; [done|]. split; [done|].
    split; [split; simpl|].
    + intros v t [_ Hv]%lookup_delete_Some. by apply T1.
    + intros h Hh. rewrite lookup_delete_ne; [by apply T2|]. intros ->. by apply (Hq a fol Ht Ha), elem_of_uuids.
    + intros g g' [b Hg] [b' Hg']. simpl in *. apply lookup_delete_Some in Hg as [_ Hg], Hg' as [_ Hg'].
      apply T3; [by exists b|by exists b'].
    + intros Hpl. destruct (Hlv Hpl) as [Hbs Hlv']. split; [done|]. intros Hne. destruct (Hlv' Hne) as [?|[g [b Hg]]]; [by left|]. right. exists g, b. simpl. rewrite lookup_delete_ne; [done|].
      intros ->. by apply Hab in Hg.
Qed.

Lemma fol_set_same fol : fol_set_stack fol (fol_stack fol) = fol.
Proof. by destruct fol. Qed.

(** Waking up with the abort flag on. *)
Lemma wake_abort_inv s fd b : lk_inv s → fs_tasks s !! fd_uuid fd = Some (Fobj_task fd b true) →
  ∃ s', fobj_resume s fd = Some (s', false) ∧ lk_inv s' ∧ fs_tasks s' = delete (fd_uuid fd) (fs_tasks s).
Proof.
  intros Hi Hl. assert (is_Some (fs_heap s !! b)) as [fol Hb].
  { destruct (fs_table s) as [a|] eqn:Ht.
    - destruct (li_some s Hi a Ht) as (? & _ & _ & [T1 _ _] & _). by apply (T1 _ _ Hl).
    - by apply (li_none s Hi Ht _ _ Hl). }
  unfold fobj_resume. rewrite Hl. simpl. rewrite Hb. simpl. eexists. split; [done|]. split; [|done].
  destruct (remove_fd _ (fol_stack fol)) as [stack|] eqn:Hrm; simpl.
  - assert (fs_table s = Some b) as Ht.
    { apply dec_stable. intros Hne. destruct (li_stale s Hi b fol Hb Hne) as [_ Hs]. by rewrite Hs in Hrm. }
    destruct (unqueue_inv s b fol (fd_uuid fd) stack Hi Ht Hb Hrm) as (Hi' & Hq & _).
    apply (drop_task_inv _ (fd_uuid fd)) in Hi'; [done|..]; simpl.
    + intros t. rewrite Hl. by intros [= <-].
    + intros a' fol' Ha' Hf. assert (a' = b) as -> by congruence. rewrite lookup_insert_eq in Hf. by injection Hf as <-.
  - rewrite fol_set_same, insert_id by done. apply drop_task_inv; [done|..].
    + intros t. rewrite Hl. by intros [= <-].
    + intros a fol' Ha Hf. destruct (li_some s Hi a Ha) as (fol0 & Hf0 & _ & [_ T2 _] & _).
      assert (fol0 = fol') as -> by congruence. intros (h & Hh & Hin)%list_elem_of_fmap. pose proof (T2 h Hin) as Hth.
      rewrite <- Hh, Hl in Hth. injection Hth as <- ->. assert (fol' = fol) as -> by congruence.
      pose proof (remove_fd_none _ _ Hrm fd Hin) as Hno. apply bool_decide_eq_false in Hno. done.
Qed.

(** Waking up because it is its turn. *)
Lemma wake_turn_inv s fd : lk_inv s → granted s fd →
  ∃ s' a fol fol', fobj_resume s fd = Some (s', true) ∧ lk_inv s' ∧
    fs_table s = Some a ∧ fs_heap s !! a = Some fol ∧ fs_table s' = Some a ∧ fs_heap s' !! a = Some fol' ∧
    fol_active fol' = fol_active fol ++ [fd] ∧
    (fol_stack fol' = fol_stack fol ∧ no_turn s' ∨ ∃ h, fol_stack fol = h :: fol_stack fol' ∧ granted s' h).
Proof.
  intros Hi Hgr. pose proof Hgr as [a Hl]. assert (fs_table s = Some a) as Ht.
  { destruct (fs_table s) as [b|] eqn:Ht.
    - destruct (li_some s Hi b Ht) as (? & _ & _ & [T1 _ _] & _). destruct (T1 _ _ Hl) as (_ & _ & _ & Hg). by destruct (Hg eq_refl) as [<- _].
    - by destruct (li_none s Hi Ht _ _ Hl) as (_ & _ & ?). }
  destruct (li_some s Hi a Ht) as (fol & Ha & Hok & Hts & Hlv).
  assert (next_turn fol fd = true) as Hnt.
  { destruct (to_task _ _ _ Hts _ _ Hl) as (_ & _ & _ & Hg). by destruct (Hg eq_refl) as (_ & ? & ? & _). }
  destruct (enter_inv s a fol fd Hi Ht Ha Hgr) as (Hi1 & Hno1 & Hok1 & Hts1 & Hs1).
  unfold fobj_resume. rewrite Hl. simpl. rewrite Ha. simpl.
  assert (∀ stack, fobj_add_active (fol_count (fol_set_stack fol stack) fd 1) fd =
    fol_set_stack (fobj_add_active (fol_count fol fd 1) fd) stack) as Hcomm.
  { intros stack. unfold fol_count. by destruct (is_reader fd). }
  assert (fol_active (fobj_add_active (fol_count fol fd 1) fd) = fol_active fol ++ [fd]) as Hact.
  { unfold fol_count. by destruct (is_reader fd). }
  destruct (fol_stack fol) as [|h stack] eqn:Hstk; [|destruct (is_reader fd && is_reader h) eqn:Hrr].
  - do 2 eexists. exists fol. eexists. split; [done|]. split; [exact Hi1|]. split_and!; [done|done|done|apply lookup_insert_eq|done|].
    left. split; [by rewrite Hs1|done].
  - apply andb_true_iff in Hrr as [Hr Hrh]. rewrite Hcomm. do 2 eexists. exists fol. eexists. split; [done|].
    assert (next_turn (fobj_add_active (fol_count fol fd 1) fd) h = true) as Hnh.
    { apply next_turn_reader; [done|]. apply next_turn_true in Hnt as [? _]. unfold fol_count. by rewrite Hr. }
    assert (all_plain → Forall blocking (fol_stack (fobj_add_active (fol_count fol fd 1) fd))) as Hbs.
    { intros Hpl. rewrite Hs1, <- Hstk. apply (Hlv Hpl). }
    assert (∀ b fol', b ≠ a → <[a:=fobj_add_active (fol_count fol fd 1) fd]> (fs_heap s) !! b = Some fol' →
      fol_active fol' = [] ∧ fol_stack fol' = []) as Hst1.
    { intros b fol' Hne Hb. by apply (lk_inv_stale _ a b fol' Hi1 Ht). }
    pose proof (alarm_inv (Fobj_state (<[a := fobj_add_active (fol_count fol fd 1) fd]> (fs_heap s)) (fs_table s)
      (delete (fd_uuid fd) (fs_tasks s))) a _ h stack Ht (lookup_insert_eq _ _ _) Hst1 Hok1 Hts1 Hno1 Hs1 Hnh Hbs) as Hi2.
    simpl in Hi2. rewrite insert_insert_eq in Hi2. split; [exact Hi2|]. simpl.
    split_and!; [done|done|done|apply lookup_insert_eq|exact Hact|]. right. exists h. split; [done|]. exists a. simpl.
    unfold fobj_alarm. rewrite lookup_alter_eq. pose proof (to_stack _ _ _ Hts1 h) as Hh. rewrite Hs1 in Hh.
    specialize (Hh ltac:(by left)). simpl in Hh. by rewrite Hh.
  - do 2 eexists. exists fol. eexists. split; [done|]. split; [exact Hi1|]. split_and!; [done|done|done|apply lookup_insert_eq|done|].
    left. split; [by rewrite Hs1|done].
Qed.

Lemma fol_count_fields fol fd n :
  fol_active (fol_count fol fd n) = fol_active fol ∧ fol_stack (fol_count fol fd n) = fol_stack fol.
Proof. unfold fol_count. by destruct (is_reader fd). Qed.

(** An open that has the object is in the lock of the table. *)
Lemma holds_table s fd : lk_inv s → holds s fd →
  ∃ a fol, fs_table s = Some a ∧ fs_heap s !! a = Some fol ∧ fd ∈ fol_active fol.
Proof.
  intros Hi (a & fol & Ha & Hin). exists a, fol. split; [|done]. apply dec_stable. intros Hne.
  destruct (li_stale s Hi a fol Ha Hne) as [Hact _]. rewrite Hact in Hin. by apply not_elem_of_nil in Hin.
Qed.

(** Giving the object back. *)
Lemma unlock_inv s fd : lk_inv s → no_turn s → holds s fd →
  ∃ s' a fol active, full_object_unlock s fd = Some s' ∧ lk_inv s' ∧ ¬ holds s' fd ∧
    fs_table s = Some a ∧ fs_heap s !! a = Some fol ∧ fol_active fol ≡ₚ fd :: active ∧
    (fol_stack fol = [] ∨ ∃ fol', fs_table s' = Some a ∧ fs_heap s' !! a = Some fol' ∧ fol_active fol' = active ∧
      (fol_stack fol' = fol_stack fol ∧ no_turn s' ∨ ∃ h, fol_stack fol = h :: fol_stack fol' ∧ granted s' h)).
Proof.
  intros Hi Hno Hh. destruct (holds_table s fd Hi Hh) as (a & fol & Ht & Ha & Hin).
  destruct (li_some s Hi a Ht) as (fol0 & Ha0 & Hok & Hts & Hlv). assert (fol0 = fol) as -> by congruence. clear Ha0.
  unfold full_object_unlock. rewrite decide_False.
  2:{ pose proof (fo_modes fol Hok) as Hm. rewrite Forall_forall in Hm. apply (Hm fd). apply elem_of_app. by left. }
  rewrite Ht. simpl. rewrite Ha. simpl. unfold fobj_remove_active. destruct (remove_fd _ (fol_active fol)) as [active|] eqn:Hrm.
  2:{ pose proof (remove_fd_none _ _ Hrm fd Hin) as Hf. by apply bool_decide_eq_false in Hf. }
  apply remove_fd_perm in Hrm as (fd' & ->%bool_decide_eq_true & Hp). simpl.
  pose proof (fol_ok_remove fol fd active Hok Hp) as Hok1.
  set (fol1 := fol_count _ fd (-1)) in *.
  destruct (fol_count_fields (Fobj_lock (fol_read_count fol) (fol_write_count fol) active (fol_stack fol)) fd (-1)) as [Hact1 Hstk1].
  fold fol1 in Hact1, Hstk1. simpl in Hact1, Hstk1. clearbody fol1.
  assert (fd_uuid fd ∉ (fd_uuid <$> active)) as Hnd.
  { pose proof (fo_nodup fol Hok) as Hn. unfold uuids in Hn. rewrite Hp in Hn. simpl in Hn. apply NoDup_cons in Hn as [Hn _].
    rewrite fmap_app in Hn. by apply not_elem_of_app in Hn as [? _]. }
  assert (∀ s', (∀ b, b ≠ a → fs_heap s' !! b = fs_heap s !! b) → (∃ fol', fs_heap s' !! a = Some fol' ∧ fol_active fol' = active) →
    ¬ holds s' fd) as Hnh.
  { intros s' Hoth (fol' & Hfa & Hact) (b & folb & Hb & Hinb). destruct (decide (b = a)) as [->|Hne].
    - apply Hnd. apply elem_of_uuids. rewrite <- Hact. congruence.
    - rewrite Hoth in Hb by done. destruct (lk_inv_stale s a b folb Hi Ht Hne Hb) as [Hnil _]. rewrite Hnil in Hinb.
      by apply not_elem_of_nil in Hinb. }
  pose proof (lk_inv_stale s a) as Hst.
  assert (tasks_ok (put_fol s a fol1) a fol1) as Hts1.
  { pose proof Hts as [T1 T2 T3]. split; simpl.
    - intros u t Hu. destruct (T1 u t Hu) as (H1 & H2 & H3 & _). split; [done|]. split; [apply lookup_insert_is_Some'; by right|]. split.
      + rewrite Hact1. rewrite Hp in H3. simpl in H3. by apply not_elem_of_cons in H3 as [_ ?].
      + intros Hab. pose proof (no_turn_abort s a fol u t Hno Hts Hu). congruence.
    - rewrite Hstk1. exact T2.
    - intros g g' Hg. by destruct (Hno g). }
  assert ((all_plain → fol_stack fol ≠ [] → active ≠ []) → lk_inv (put_fol s a fol1)) as Hi1.
  { intros Hc. eapply (lk_inv_intro _ a); simpl; [done|apply lookup_insert_eq| |done|done|].
    - intros b fol' Hne Hb. rewrite lookup_insert_ne in Hb by done. by apply (Hst b).
    - intros Hpl. rewrite Hstk1. split; [apply (Hlv Hpl)|]. intros Hne. left. rewrite Hact1. auto. }
  rewrite Hstk1. destruct (fol_stack fol) as [|h stack] eqn:Hstk.
  - assert (lk_inv (put_fol s a fol1)) as Hi1' by (by apply Hi1). case_decide as Hz.
    + exists (Fobj_state (<[a:=fol1]> (fs_heap s)) None (fs_tasks s)), a, fol, active. split; [done|]. split; [|split; [|by split_and!; auto]].
      * split; simpl; [|intros _ u t Hu|done].
        -- intros b fol' Hb _. destruct (decide (b = a)) as [->|Hne].
           ++ rewrite lookup_insert_eq in Hb. injection Hb as <-. split; [|done].
              apply counts_zero. destruct Hz as [Hz1 Hz2]. rewrite <- (fo_read fol1 Hok1), <- (fo_write fol1 Hok1). done.
           ++ rewrite lookup_insert_ne in Hb by done. by apply (Hst b).
        -- destruct (to_task _ _ _ Hts u t Hu) as (H1 & H2 & _). split; [done|]. split; [apply lookup_insert_is_Some'; by right|].
           by eapply no_turn_abort.
      * apply Hnh; simpl; [intros b Hne; by rewrite lookup_insert_ne|]. exists fol1. by rewrite lookup_insert_eq.
    + exists (put_fol s a fol1), a, fol, active. split; [done|]. split; [done|]. split; [|by split_and!; auto].
      apply Hnh; simpl; [intros b Hne; by rewrite lookup_insert_ne|]. exists fol1. by rewrite lookup_insert_eq.
  - destruct (next_turn fol1 h) eqn:Hnt.
    + eexists _, a, fol, active. split; [done|]. split.
      { pose proof (alarm_inv (put_fol s a fol1) a fol1 h stack Ht (lookup_insert_eq _ _ _)) as Hal. simpl in Hal.
        rewrite insert_insert_eq, Ht in Hal. apply Hal; try done.
        - intros b fol' Hne Hb. rewrite lookup_insert_ne in Hb by done. by apply (Hst b).
        - intros Hpl. rewrite Hstk1, <- Hstk. apply (Hlv Hpl). }
      split. { apply Hnh; simpl; [intros b Hne; by rewrite lookup_insert_ne|]. exists (fol_set_stack fol1 stack). by rewrite lookup_insert_eq. }
      split_and!; [done|done|done|]. right. exists (fol_set_stack fol1 stack). simpl. split_and!; [done|apply lookup_insert_eq|done|].
      right. exists h. split; [done|]. exists a. simpl. unfold fobj_alarm. rewrite lookup_alter_eq.
      pose proof (to_stack _ _ _ Hts h) as Hth. rewrite Hstk in Hth. by rewrite (Hth ltac:(by left)).
    + assert (lk_inv (put_fol s a fol1)) as Hi1'.
      { apply Hi1. intros Hpl _ Hnil. assert (next_turn fol1 h = true); [|congruence].
        destruct (Hlv Hpl) as [Hbs _]. try rewrite Hstk in Hbs. apply Forall_cons in Hbs as [Hb _].
        apply next_turn_spec; [done|]. rewrite (fo_read fol1 Hok1), (fo_write fol1 Hok1), Hact1, Hnil. done. }
      exists (put_fol s a fol1), a, fol, active. split; [done|]. split; [done|].
      split. { apply Hnh; simpl; [intros b Hb; by rewrite lookup_insert_ne|]. exists fol1. by rewrite lookup_insert_eq. }
      split_and!; [done|done|done|]. right. exists fol1. simpl. split_and!; [done|apply lookup_insert_eq|done|].
      left. by rewrite Hstk1.
Qed.

Lemma abort_inv s fd s' r : lk_inv s → osfile_abort_open_object s fd = Some (s', r) → lk_inv s'.
Proof.
  intros Hi. unfold osfile_abort_open_object. case_decide; [by intros [= <- _]|]. destruct (fs_table s) as [a|] eqn:Ht; simpl; [|done].
  destruct (fs_heap s !! a) as [fol|] eqn:Ha; simpl; [|done]. destruct (remove_fd _ _) as [stack|] eqn:Hrm; intros [= <- _]; [|done].
  destruct (unqueue_inv s a fol (fd_uuid fd) stack Hi Ht Ha Hrm) as (Hi' & _ & t & Hu & Hab).
  assert (alter (λ t, Fobj_task (ft_fd t) (ft_fol t) true) (fd_uuid fd) (fs_tasks s) = fs_tasks s) as ->; [|by rewrite <- Ht].
  apply map_eq. intros u. destruct (decide (u = fd_uuid fd)) as [->|Hne]; [|by rewrite lookup_alter_ne].
  rewrite lookup_alter_eq, Hu. simpl. destruct t; simpl in *. by subst.
Qed.

(** ** What the locks promise *)

Lemma prompt_inv s s' : lk_inv s → prompt_step M s s' → lk_inv s'.
Proof.
  intros Hi (e & Hst & Hg & Hm). destruct Hst as [fd Hu|fd s' r (b & ab & Hl) Hr|fd s' Hh Hr|fd s' r _ Hr].
  - apply lock_inv; [done| |done|by apply Hm]. intros g Hgr. by apply Hg in Hgr.
  - destruct ab.
    + destruct (wake_abort_inv s fd b Hi Hl) as (s2 & Hr2 & Hi2 & _). congruence.
    + destruct (wake_turn_inv s fd Hi) as (s2 & a & fol & fol' & Hr2 & Hi2 & _); [by exists b|]. congruence.
  - destruct (unlock_inv s fd Hi) as (s2 & a & fol & act & Hr2 & Hi2 & _); [|done|congruence]. intros g Hgr. by apply Hg in Hgr.
  - by eapply abort_inv.
Qed.

Definition lk_reachable (s : fobj_state) : Prop := rtc (prompt_step M) fobj_init s.

Lemma reachable_inv s : lk_reachable s → lk_inv s.
Proof.
  intros Hr. assert (∀ s0, lk_inv s0 → rtc (prompt_step M) s0 s → lk_inv s) as Hgen; [|by apply (Hgen fobj_init lk_inv_init)].
  clear Hr. induction 2 as [|x y z Hxy _ IH]; [done|]. apply IH. by eapply prompt_inv.
Qed.

End modes.

(** C10: Let the opens be of any mode, and suppose that whenever an open has been
    given its turn, it wakes up before anything else happens.  Then the object
    locks keep writers alone: two opens that have the object at the same time are
    both readers.  And an open that has it can give it back when it is nobody's
    turn, which does not leave the table locked, and then no longer has it.  (Reads
    that do not lock never have it.) *)
Theorem fobj_lock_exclusive s :
  lk_reachable any_mode s →
  (∀ fd fd', holds s fd → holds s fd' → fd ≠ fd' → is_reader fd = true ∧ is_reader fd' = true) ∧
  ∀ fd, holds s fd → no_turn s → ∃ s', full_object_unlock s fd = Some s' ∧ ¬ holds s' fd.
Proof.
  intros Hi%reachable_inv. split.
  - intros fd fd' H1 H2 Hne. destruct (holds_table any_mode s fd Hi H1) as (a & fol & Ht & Ha & Hin).
    destruct (holds_table any_mode s fd' Hi H2) as (a' & fol' & Ht' & Ha' & Hin'). assert (a' = a) as -> by congruence.
    assert (fol' = fol) as -> by congruence. destruct (li_some any_mode s Hi a Ht) as (fol0 & Ha0 & [Hr Hw He _ _] & _).
    assert (fol0 = fol) as -> by congruence.
    assert (∃ l, fol_active fol ≡ₚ fd :: fd' :: l) as [l Hp].
    { apply elem_of_Permutation in Hin as [k Hk]. rewrite Hk in Hin'. apply elem_of_cons in Hin' as [->|Hin']; [done|].
      apply elem_of_Permutation in Hin' as [l Hl]. exists l. by rewrite Hk, Hl. }
    rewrite (nread_perm _ _ Hp), !nread_cons in Hr. rewrite (nwrite_perm _ _ Hp), !nwrite_cons in Hw.
    pose proof (nread_nonneg l). pose proof (nwrite_nonneg l). destruct (is_reader fd), (is_reader fd'); done || lia.
  - intros fd Hh Hno. destruct (unlock_inv any_mode s fd Hi Hno Hh) as (s' & _ & _ & _ & Hu & _ & Hnh & _). eauto.
Qed.

(** An open waits in the queue. *)
Definition queued (s : fobj_state) (fd : osfile_fd) : Prop :=
  ∃ a fol, fs_table s = Some a ∧ fs_heap s !! a = Some fol ∧ fd ∈ fol_stack fol.

(** The work left: turns to give and to take, and opens to end. *)
Definition queue_work (fol : fobj_lock) (turn : nat) : nat := 3 * length (fol_stack fol) + 2 * turn + length (fol_active fol).

Lemma serve_prompt M s s' : serve_step s s' → prompt_step M s s'.
Proof. intros (e & Hst & Hg & He). exists e. split; [done|]. split; [done|]. by intros fd ->. Qed.

Lemma plain_all : all_plain plain_mode.
Proof. by intros fd. Qed.

Lemma queue_step s fd a fol turn :
  lk_inv plain_mode s → fs_table s = Some a → fs_heap s !! a = Some fol →
  (turn = 1%nat ∧ (∃ g, granted s g) ∨ turn = 0%nat ∧ no_turn s) → (fd ∈ fol_stack fol ∨ granted s fd) →
  (∃ s', serve_step s s') ∧ ∀ s', serve_step s s' →
    holds s' fd ∨ ∃ fol' turn', fs_table s' = Some a ∧ fs_heap s' !! a = Some fol' ∧
      (turn' = 1%nat ∧ (∃ g, granted s' g) ∨ turn' = 0%nat ∧ no_turn s') ∧ (fd ∈ fol_stack fol' ∨ granted s' fd) ∧
      (queue_work fol' turn' < queue_work fol turn)%nat.
Proof.
  intros Hi Ht Ha Hturn Hfd. destruct (li_some _ s Hi a Ht) as (fol0 & Ha0 & Hok & Hts & Hlv).
  assert (fol0 = fol) as -> by congruence. clear Ha0. destruct (Hlv plain_all) as [_ Hlv']. clear Hlv.
  destruct Hturn as [[-> [g Hg]]|[-> Hno]].
  - destruct (wake_turn_inv _ s g Hi Hg) as (s' & a' & fol1 & fol' & Hr & Hi' & Ht1 & Ha1 & Ht' & Ha' & Hact & Hq).
    assert (a' = a) as -> by congruence. assert (fol1 = fol) as -> by congruence. split.
    { exists s', (EvWake g). split; [|split; [|done]].
      - eapply step_wake; [|done]. destruct Hg as [b Hg]. by exists b, false.
      - intros g' Hg'. by rewrite (to_one _ _ _ Hts g g' Hg Hg'). }
    intros s2 (e & Hst & He & _). specialize (He g Hg) as ->. inversion Hst as [|? ? r _ Hr2| |]; subst.
    assert (s2 = s') as -> by congruence.
    destruct Hfd as [Hfd|Hfd].
    2:{ left. rewrite (to_one _ _ _ Hts fd g Hfd Hg). exists a, fol'. split; [done|]. rewrite Hact. apply elem_of_app. right. by left. }
    right. unfold queue_work. destruct Hq as [[Hs Hno]|[h [Hs Hh]]].
    + exists fol', 0%nat. rewrite Hs, Hact, length_app. simpl. split_and!; [done|done|by right|by left|lia].
    + exists fol', 1%nat. rewrite Hact, length_app, Hs. simpl. rewrite Hs in Hfd.
      split_and!; [done|done|left; eauto| |lia]. apply elem_of_cons in Hfd as [->|?]; [by right|by left].
  - destruct Hfd as [Hfd|Hfd]; [|by destruct (Hno fd)].
    assert (fol_stack fol ≠ []) as Hne by (intros Hnil; rewrite Hnil in Hfd; by apply not_elem_of_nil in Hfd). split.
    { destruct (Hlv' Hne) as [Hact|[g Hg]]; [|by destruct (Hno g)].
      destruct (fol_active fol) as [|o act0] eqn:Hac; [done|].
      assert (holds s o) as Hh by (exists a, fol; rewrite Hac; split; [done|by left]).
      destruct (unlock_inv _ s o Hi Hno Hh) as (s' & _ & _ & _ & Hr & _).
      exists s', (EvUnlock o). split; [by apply step_unlock|]. split; [|done]. intros g Hg. by destruct (Hno g). }
    intros s2 (e & Hst & _ & He). destruct Hst as [o _|o s2 r _ _|o s2 Hh Hr2|o s2 r _ _]; [done|by destruct (Hno o)| |done].
    destruct (unlock_inv _ s o Hi Hno Hh) as (s' & a' & fol1 & act & Hr & Hi' & _ & Ht1 & Ha1 & Hp & Hq).
    assert (a' = a) as -> by congruence. assert (fol1 = fol) as -> by congruence. assert (s2 = s') as -> by congruence.
    destruct Hq as [?|(fol' & Ht' & Ha' & Hact' & Hq)]; [done|]. right. unfold queue_work.
    pose proof (Permutation_length Hp) as Hlen. simpl in Hlen.
    destruct Hq as [[Hs Hno']|[h [Hs Hg]]].
    + exists fol', 0%nat. rewrite Hact', Hs. split_and!; [done|done|by right|by left|lia].
    + exists fol', 1%nat. rewrite Hact'. rewrite Hs in Hfd |- *. simpl.
      split_and!; [done|done|left; eauto| |lia]. apply elem_of_cons in Hfd as [->|?]; [by right|by left].
Qed.

Lemma pending_turn M s a : lk_inv M s → fs_table s = Some a →
  ∃ turn, turn = 1%nat ∧ (∃ g, granted s g) ∨ turn = 0%nat ∧ no_turn s.
Proof.
  intros Hi Ht. destruct (decide (map_Forall (λ _ t, ft_abort t = true) (fs_tasks s))) as [Hall|Hno].
  - exists 0%nat. right. split; [done|]. intros g [b Hg]. by apply Hall in Hg.
  - exists 1%nat. left. split; [done|]. apply map_not_Forall in Hno as (u & t & Hu & Hab); [|apply _].
    destruct (li_some _ s Hi a Ht) as (fol0 & _ & _ & [T1 _ _] & _). destruct (T1 u t Hu) as [He _]. exists (ft_fd t), (ft_fol t).
    rewrite He, Hu. destruct t as [? ? []]; simpl in *; done.
Qed.

(** C11: Let no open be for immediate writing, and suppose that whenever an open
    has been given its turn, it wakes up before anything else happens.  Then an
    open in the queue gets the object once opens only take their turns and are
    closed, whichever are closed first: these steps cannot stop before it has
    the object, nor go on for ever without that. *)
Theorem fobj_lock_progress s fd :
  lk_reachable plain_mode s → queued s fd → inevitably serve_step (λ s', holds s' fd) s.
Proof.
  intros Hi%reachable_inv (a & fol & Ht & Ha & Hq). destruct (pending_turn _ s a Hi Ht) as [turn Hturn].
  assert (fd ∈ fol_stack fol ∨ granted s fd) as Hfd by by left. clear Hq.
  remember (queue_work fol turn) as n eqn:Hn. revert s fol turn Hi Ht Ha Hturn Hfd Hn.
  induction (lt_wf n) as [n _ IH]. intros s fol turn Hi Ht Ha Hturn Hfd ->.
  destruct (queue_step s fd a fol turn Hi Ht Ha Hturn Hfd) as [Hex Hall]. right; [done|]. intros s1 Hst.
  destruct (Hall s1 Hst) as [Hh|(fol' & turn' & Ht' & Ha' & Hturn' & Hfd' & Hlt)]; [by left|].
  eapply (IH _ Hlt s1 fol' turn'); try done. eapply prompt_inv; [exact Hi|by apply serve_prompt].
Qed.

(** ** Runs *)

(** The effect of an event. *)
Definition lk_exec (s : fobj_state) (e : lk_event) : option fobj_state :=
  match e with
  | EvLock fd => Some (full_object_lock s fd).1
  | EvWake fd => fst <$> fobj_resume s fd
  | EvUnlock fd => full_object_unlock s fd
  | EvAbort fd => fst <$> osfile_abort_open_object s fd
  end.
Definition lk_run (es : list lk_event) : option fobj_state :=
  foldl (λ s e, s ≫= λ s, lk_exec s e) (Some fobj_init) es.

(** The lock in the table, and how many sleeping opens have their turn. *)
Definition lk_view (s : fobj_state) : option fobj_lock := fs_table s ≫= λ a, fs_heap s !! a.
Definition turns (s : fobj_state) : nat := length (filter (λ t, ft_abort t.2 = false) (map_to_list (fs_tasks s))).

Definition rd (u : Z) : osfile_fd := Osfile_fd u OS_MODE_READ_BLOCKING.
Definition wr (u : Z) : osfile_fd := Osfile_fd u OS_MODE_WRITE_BLOCKING.

(** A reader that arrives between the alarm of a writer and its waking up gets
    the object, and then the writer gets it too: taking an open off the queue
    does not count it. *)
Example lk_overtaken_run :
  lk_run [EvLock (rd 1); EvLock (wr 2); EvUnlock (rd 1); EvLock (rd 3); EvWake (wr 2)] ≫= lk_view =
  Some (Fobj_lock 1 1 [rd 3; wr 2] []).
Proof. vm_compute. reflexivity. Qed.

(** If that reader is done before the writer wakes up, the lock has left the
    table; the writer enters the old one, and closing its open returns with
    [fobj_lock] held. *)
Example lk_lost_run :
  (λ es, match lk_run es with Some s => Some (lk_view s) | None => None end) <$>
    [[EvLock (rd 1); EvLock (wr 2); EvUnlock (rd 1); EvLock (rd 3); EvUnlock (rd 3); EvWake (wr 2)];
     [EvLock (rd 1); EvLock (wr 2); EvUnlock (rd 1); EvLock (rd 3); EvUnlock (rd 3); EvWake (wr 2); EvUnlock (wr 2)]] =
  [Some None; None].
Proof. vm_compute. reflexivity. Qed.

(** A waiting open for immediate writing is never woken up: the object is free
    and everybody behind it waits, except readers, which go ahead of it. *)
Example lk_write_immediate_run :
  (λ s, (lk_view s, turns s)) <$>
    lk_run [EvLock (wr 1); EvLock (Osfile_fd 2 OS_MODE_WRITE_IMMEDIATE); EvLock (wr 3); EvUnlock (wr 1)] =
  Some (Some (Fobj_lock 0 0 [] [Osfile_fd 2 OS_MODE_WRITE_IMMEDIATE; wr 3]), 0%nat).
Proof. vm_compute. reflexivity. Qed.

(** Readers share, a writer in between waits, readers behind it do too, and the
    ones after it are woken up one by the other. *)
Example lk_fair_run :
  lk_run [EvLock (rd 1); EvLock (rd 2); EvLock (wr 3); EvLock (rd 4); EvLock (rd 5); EvUnlock (rd 1); EvUnlock (rd 2);
          EvWake (wr 3); EvUnlock (wr 3); EvWake (rd 4); EvWake (rd 5)] ≫= lk_view =
  Some (Fobj_lock 2 0 [rd 4; rd 5] []).
Proof. vm_compute. reflexivity. Qed.

(** ** Witnesses *)
Definition lk_one : fobj_state := (full_object_lock fobj_init (wr 1)).1.
Definition lk_two : fobj_state := (full_object_lock lk_one (wr 2)).1.

Lemma lk_one_reachable M : M (wr 1) → lk_reachable M lk_one.
Proof.
  intros HM. apply rtc_once. exists (EvLock (wr 1)). split; [|split].
  - apply step_lock. intros [[t Ht]|(a & fol & fd & Ha & _)]; [done|done].
  - intros g [b Hg]. done.
  - by intros fd [= <-].
Defined.

Lemma lk_two_reachable : lk_reachable plain_mode lk_two.
Proof.
  eapply rtc_r; [apply lk_one_reachable; right; by right|]. exists (EvLock (wr 2)). split; [|split].
  - apply step_lock. intros [[t Ht]|(a & fol & fd & Ha & Hin & Hu)]; [done|].
    assert (fs_heap lk_one = {[0%nat := Fobj_lock 0 1 [wr 1] []]}) as He by (vm_compute; reflexivity).
    rewrite He in Ha. apply lookup_singleton_Some in Ha as [_ <-]. apply elem_of_cons in Hin as [->|Hin]; [done|]. by apply not_elem_of_nil in Hin.
  - intros g [b Hg]. done.
  - intros fd [= <-]. right. by right.
Defined.

Lemma fobj_lock_exclusive_witness :
  (∀ fd fd', holds lk_one fd → holds lk_one fd' → fd ≠ fd' → is_reader fd = true ∧ is_reader fd' = true) ∧
  ∀ fd, holds lk_one fd → no_turn lk_one → ∃ s', full_object_unlock lk_one fd = Some s' ∧ ¬ holds s' fd.
Proof. exact (fobj_lock_exclusive lk_one (lk_one_reachable any_mode I)). Defined.

Lemma fobj_lock_progress_witness : inevitably serve_step (λ s', holds s' (wr 2)) lk_two.
Proof.
  apply (fobj_lock_progress lk_two (wr 2) lk_two_reachable).
  exists 0%nat, (Fobj_lock 0 1 [wr 1] [wr 2]). split; [reflexivity|]. split; [reflexivity|]. by left.
Defined.
